(* ===== verification/_CoqProject ===== *)
-Q . S2P
Prelude.v
Machine.v
Bytes.v
Domain.v
TokenBucket.v
Retry.v
Attempt.v
Credential.v
Enrollment.v
SchedTypes.v
Samples.v
FairQueue.v
EngineState.v
Eligibility.v
Engine.v
EngineInv.v
EngineGrant.v
EngineReach.v
EngineOps.v
Actor.v
EnginePump.v
SampleEngine.v
SchedulerSafety.v
SchedulerLiveness.v
SchedulerCapacity.v
SchedulerLedger.v
Transport.v
Chunked.v
Http1.v
ConnectionPool.v
TransportEvents.v
Usage.v
UsageObserver.v
UsageScan.v
Quota.v
Reservation.v
Spill.v
ResponsePipeline.v
Json.v
RequestParser.v
SystemSegments.v
SystemAlign.v
SystemBilling.v
SystemRewrite.v
Capability.v
Policy.v
PolicyProofs.v
ClientRequest.v
Dispatch.v
HeaderCapture.v
Bundle.v
EngineCatalog.v
AttemptSnapshot.v
FinalRequest.v
Programs.v
Interleaving.v
FinalRequestProofs.v
DispatchLoop.v
DispatchLoopProofs.v
Float64.v
AccessLimits.v
EdgeGates.v
EdgeGatesProofs.v
Edge.v
EdgeProofs.v
Delivery.v
DeliveryProofs.v
OpenAi.v
OpenAiProofs.v
OpenAiUsage.v
OpenAiSessions.v
OpenAiStream.v
OpenAiStreamProofs.v
