(* ===== verification/Prelude.v ===== *)
(** * Super Gateway: the decision core, verified

    Super Gateway is a multi-tenant gateway in front of model providers. A
    request is parsed and adjusted by the policy of its Group, admitted by the owner of
    that Group, waits in a fair queue until a Credential of the Group can serve it, is
    granted a Lease, becomes the request that the provider sees, travels over a pooled connection, and gives the Lease back when its
    transport has ended; its response is relayed while its usage is observed. This
    development models the core that takes these decisions: the request policy
    ([src/crates/gateway-policy]), the Group scheduler ([gateway-scheduler]), the domain
    objects ([gateway-domain]), the framing, the pool and the event order of the transport
    ([gateway-transport]), the usage, quota and response services ([gateway-services]), and the dispatcher of
    the daemon, which builds the request for the provider and decides on its answer ([super-gatewayd]). Everything
    is a pure, executable function: an operation that takes [&mut self] takes and returns the
    state, and a [Result] is returned next to the state that is left, so what was
    changed before an early return stays visible.

    ** Files and the code they model

    - [Prelude.v] (this file): results, ordered maps ([BTreeMap] as a [gmap]
      iterated in key order), stable sorting and [min_by] by a comparison, the
      tactics [destr_match], [bool_prop] and [by_decide], and the shared lemmas.
    - [Machine.v]: integers of a width (saturating, checked, wrapping) and
      [Duration] as a number of nanoseconds; [Instant] is the same, counted from
      the origin of the monotonic clock. [Bytes.v]: byte strings and the text of numbers, as
      [str], [slice] and [from_str_radix] treat them.
    - [Domain.v]: gateway-domain [ids.rs], [error.rs] and the part of
      [request.rs] the scheduler reads.

    Scheduler.
    - [TokenBucket.v]: gateway-scheduler [token_bucket.rs].
    - [Retry.v]: [retry.rs], the retry decision and the connection budget.
    - [Attempt.v]: [attempt.rs], the accounting of one request's attempts.
    - [Credential.v], [Enrollment.v]: gateway-domain [credential.rs]: status and
      lifecycle of a credential, continuity epochs, choice of a proxy and of an
      archetype, refresh planning; the enrollment and maintenance workflows.
    - [SchedTypes.v]: [types.rs]; [Samples.v]: concrete values of these types.
    - [FairQueue.v]: [fair_queue.rs]: User, Platform Key, Session and Agent
      rings over FIFO lanes. The four levels are one generic ring over the
      class [FairChild] of its children; the class [FairSpec] is the contract a child
      promises to the ring above it.
    - [EngineState.v], [Eligibility.v], [Engine.v]: [engine.rs]: the state of
      [SchedulerEngine]; candidate selection; every operation ([admit] is
      called [admit_request]).
    - [Actor.v]: [actor.rs]: the commands of the mailbox, what the owner does
      with a reply nobody receives, and the reachable states.
    - [EngineInv.v], [EngineGrant.v], [EngineReach.v], [EngineOps.v],
      [EnginePump.v]: the invariant [engine_inv] and its preservation; why a
      grant after a selection cannot fail; progress of the pump.
    - [SampleEngine.v]: reachable states at which the theorems are instantiated.
    - [SchedulerSafety.v], [SchedulerLiveness.v], [SchedulerCapacity.v],
      [SchedulerLedger.v]: the properties of the scheduler as a whole.

    Transport.
    - [Transport.v]: gateway-transport [error.rs] and the error constructors; gateway-domain [transport.rs].
    - [Chunked.v]: the incremental chunked decoder of [production.rs].
    - [Http1.v]: [h1.rs]: the request writer and the choice of the body boundary.
    - [ConnectionPool.v]: [pool.rs]; [TransportEvents.v]: [event.rs] and [attempt.rs].

    Usage, quota and response services.
    - [Usage.v], [UsageObserver.v], [UsageScan.v]: [usage.rs]: cost, the observer of an event stream, the
      scanner of a whole body.
    - [Quota.v]: [quota.rs].
    - [Reservation.v], [Spill.v], [ResponsePipeline.v]: [response.rs]: the reservation pool, the encrypted spill file, the
      two response pipelines.

    Request policy.
    - [Json.v]: JSON values and the class [SerdeJson], which is what the code relies on of
      serde_json.
    - [RequestParser.v], [SystemSegments.v], [SystemBilling.v], [SystemRewrite.v], [Capability.v],
      [Policy.v]: gateway-policy [parser.rs], [system_segments.rs], [billing.rs], [system_rewrite.rs], [capability.rs],
      [engine.rs]; [PolicyProofs.v]: the theorems of the engine.

    Dispatcher.
    - [ClientRequest.v]: gateway-domain [provider.rs], [client_identity.rs]: the provider, the endpoint and the product of a client.
    - [SystemAlign.v]: super-gatewayd [system_env_align.rs]: the environment block of a system prompt.
    - [Dispatch.v]: super-gatewayd [production_dispatcher.rs]: its errors, its limits, the mapping of the errors of the
      services, the waits before a retry, the rejections, the replay of a classified response.
    - [FinalRequest.v]: the same file: the request that the provider sees; [FinalRequestProofs.v]: its theorems.
    - [HeaderCapture.v]: gateway-domain [header_capture.rs]; [Bundle.v], [EngineCatalog.v]: gateway-transport [bundle.rs] and [engine.rs]:
      the verification of a signed bundle, the compiled engines and their publication; [AttemptSnapshot.v]: gateway-domain [transport.rs] and gateway-transport
      [port.rs]: the routes through proxies and what an attempt carries.
    - [Programs.v]: programs over awaited calls as a free monad, with a program logic over what an observer has seen of the calls.
    - [DispatchLoop.v]: [production_dispatcher.rs]: the loop over the attempts of one request, its Lease guard and its records, as such a program;
      [DispatchLoopProofs.v]: its theorems.
    - [Interleaving.v]: such programs as threads over one store, in every order of their calls.
    - [Delivery.v]: [RequestCompletion] of [production_dispatcher.rs]: what is recorded of the usage and of the end of a request, and how its resources are given back, by
      hooks that run together; [DeliveryProofs.v]: its theorems.

    Edge.
    - [Float64.v]: the [f64] of Rust, as rationals that are rounded to 53 bits.
    - [AccessLimits.v]: gateway-api [edge.rs] and [data.rs]: the token bucket of each key and endpoint, the limit on the concurrent requests of a key
      and the memory of the systems of the sessions.
    - [EdgeGates.v]: the same files: routes, authentication, framing, the address of a client, its class and its session, the grants, the pages of the models
      and the headers of a response; [EdgeGatesProofs.v]: its theorems.
    - [Edge.v]: the handler of [edge.rs] as a program over its calls, the turn of a WebSocket and the body stream of a response; [EdgeProofs.v]: its theorems.

    OpenAI.
    - [OpenAi.v]: gateway-services [openai/protocol.rs]: the ceiling of the reasoning effort, the preparation of a body and the conversion between Chat and
      Responses; [OpenAiProofs.v]: its theorems.
    - [OpenAiUsage.v]: [openai/usage.rs]: token totals, the observer of a response and the bounded decoder of an event stream.
    - [OpenAiSessions.v]: [openai/session.rs], [openai/websocket.rs], [openai/account.rs]: derived identities, the index of the continuations, the turns of a
      connection and the credentials.
    - [OpenAiStream.v]: super-gatewayd [production_dispatcher/openai.rs]: the conversion of an event stream into Chat chunks, and the task that relays, observes and
      binds a response, as a program; [OpenAiStreamProofs.v]: its theorems.

    ** How the parts interact

    [Policy.process_with_options] parses the bytes ([RequestParser]), checks the model's capability
    ([Capability]), runs the rules and the Group enforcement, which rewrites the system value through
    [SystemSegments] and [SystemRewrite], checks the result again and hands over the bytes to
    replay. [Actor.actor_step] takes one command from the mailbox and calls an operation of
    [Engine.v], which does nothing for a command of another owner generation
    ([stale]); a resolution whose receiver is gone is abandoned, which releases what it granted. [admit_request] grants at
    once or enqueues; [pump] expires deadlines and cancel grace periods and then
    serves the queue: it pops the first entry, in the fair order, that
    [Eligibility.evaluate_pool] finds a Credential for, and [grant]s it. [grant] charges the
    Credential's counters and token bucket, the session and continuity maps and the Group permits, and
    records the events in the ledger; [release_lease] undoes it. With the Lease and the Credential that it names,
    [FinalRequest.build_final_request] signs the billing header ([SystemBilling]) of the request that the policy left, aligns its environment ([SystemAlign]), puts the identity of the
    Credential in its metadata and fills the templates of the engine's headers; the result is what [Http1.encode_request] writes.
    [DispatchLoop.attempt_loop] takes the Lease, looks up the engine of its bundle ([EngineCatalog.find_exact]), builds the request, gives both to the transport as a [TransportAttempt],
    watches the first byte through the sink of [TransportEvents], and decides with [Retry.decide_retry] and [Dispatch] whether the Lease is replaced for another attempt. The response of the request goes through
    [ResponsePipeline.prepare_streaming] or [prepare_non_stream], under a permit of [Reservation], spilling to
    [Spill] when it is large.

    ** What is shown

    - Policy: a text is parsed exactly, or refused; a capability's diagnostics are sound and do not depend on the order of the
      rules; conditions are accepted exactly when they are within their bounds; rules run in phase and layer order and
      cannot reach the model and the messages; the Group enforcement has the last word; what is replayed was
      checked; a rewrite of the system touches only its static segment and stays within the cache budget.
    - Tables: in every reachable state the tables of Leases, permits, session claims,
      tickets and cancellations agree with one another and with the counters,
      and the queue holds exactly the waiting requests.
    - Leases: released exactly once; replaced atomically; nothing is kept by an
      admission nobody received; a cancelled Lease is reclaimed after its grace period; a
      command of another generation changes nothing.
    - Progress: the pump stops only at the Group's concurrency or when no head of the queue can
      run; every waiting request is answered once; disabling answers all;
      a reconfiguration keeps the waiters that match.
    - Capacity and ledger: Group concurrency is never exceeded; the running balance is the number of
      live resources as long as no Credential is removed or moved to another device; the claims that a removal drops stay on the balance
      whatever comes after.
    - Selection and queue: the chosen Credential is the eligible one of the best priority that has the affinity or ranks first by quota
      use, load, weight and identifier; a request is held back only for an affinity that has no room, and within its wait; conservation, FIFO per lane, bounded bypass between siblings.
    - Token bucket, retry, attempts, credentials: bound on the requests admitted over any sequence of
      instants; the decision refines a declarative table; schedulability against the canonical status;
      enrollment and maintenance follow their graphs and verify before they commit.
    - Transport: the chunked decoder does not depend on the fragments and inverts the encoder; a written request is
      read back; a connection of a revoked generation or epoch is not reused; only legal event streams are recorded.
    - Final request: the secret of the credential is sent in exactly one header and the client's own is not; the body keeps what the client
      asked; the identity is the credential's; the environment block is that of the credential's archetype; the writer of HTTP/1.1 accepts the request of an engine
      whose header templates meet [engine_ok], which the loader of the engine does not check.
    - Bundles and engines: a bundle is loaded exactly when it is signed by a trusted key and made for this build; an engine that is found is one that was signed; a publication
      only advances the generation.
    - Attempts: three at most, in order, each with the identity and the engine of the Lease that the scheduler counts, each after the last one is closed; one refresh at most;
      the guard holds the counted Lease at every await, except at the first, where a failure loses it, and while the owner of the Group replaces the Lease, where a
      dropped future loses the replacement.
    - Completion: in every interleaving of its hooks, the end of a request is recorded once and its resources are given back once; the usage of a request that its client left
      is estimated at most once, exactly once when its completion ran and the storage accepts it, and never when the completion was dropped first.
    - Usage, quota and response: observation does not depend on the fragments; cost is exact to the picodollar;
      streams are relayed unchanged; a failed response leaves no file; the spill file round-trips.

    - Edge: a key is admitted at its rate over every window of calls whose instants are in order, rounding included; its permits are counted exactly; the system
      that is answered for a session is the one that was remembered last; a grant is given for exactly one well-formed secret, and no later step sees it; what a client writes in front of the
      forwarded addresses chooses nothing, short of hiding it behind the proxy; the pages of the models are the models of the grant in the order of their identifiers;
      a message is dispatched only behind every gate, its permit is taken before that and given back on every path, and its delivery is accounted for once.

    - OpenAI: the texts, images, calls and outputs of a conversation are kept between Chat and Responses, other fields of its messages are not, and a turn survives the way back; an effort that is named once stays
      under its ceiling; encoded events are decoded however the stream is cut; no token is charged twice; a response ends once;
      identities are kept apart as far as the hash allows; a continuation is handed to the credential that owns it, and a credential to no other account; a stream is relayed
      as it came and, on Responses, never before its response is bound, it is reported as complete only when it is, and a Chat client hears the texts and the calls
      of the model, but no refusal.

    ** Bounds, fuel and parameters

    Loops over the queue recurse on fuel. [pump_loop] gets one more than the number of
    waiting entries and takes an entry off the queue each time, so it always ends by
    its own exit ([EnginePump.pump_loop_stops]); [disable_loop] and [reconfigure_loop] recurse on the drained list. A ring
    turns at most once around its children per pop. The chunked decoder has fuel for its bytes ([Chunked.feed_stops]),
    the loop of the attempts has fuel 4 for a budget of three ([DispatchLoopProofs.attempts_in_order] says that it suffices);
    [split_bytes], the frames of the spill relay and [replace] for the bytes that are left; each turn takes at least one byte.

    Code outside the repository is a parameter: [uuid_v4], the text of the [n]-th draw, with the record
    [uuid_source uuid_v4 bound] (the first [bound] draws differ and have the length of a simple UUID); httparse as a function on bytes;
    serde_json as the class [SerdeJson] with the instance [sample_serde]; the gzip decoder as the record [GzDecoder]; SHA-256 as a function;
    HMAC-SHA-256 as a function on bytes; the text of a UUID as a function; addresses, networks, the visible text of a header and the order in which a header map is iterated as functions; Ed25519, base64, semantic versions and the canonical form of JSON as functions on bytes;
    the storage, the scheduler's owner and the transport that the dispatcher awaits as an oracle that answers each call from the calls before it;
    AES-GCM as a pair of functions with the round-trip law; tokio's channels, timers and cancellation as the answers of
    an oracle. Theorems with such hypotheses are instantiated with concrete functions. Counters keep their width: saturating where
    the code saturates, wrapping where a release build wraps.

    ** What is not modelled, and the plan

    Left out for good: input and output (sockets, TLS, PostgreSQL, axum
    bodies and responses), serialization, and the asynchronous methods of
    [GroupExecutorHandle], which only exchange messages with the actor. Next: the preparation of an OpenAI request before its response, model discovery, and the admission that precedes the loop
    of the attempts. *)

From stdpp Require Export prelude gmap sets strings list sorting fin_maps.
From Stdlib Require Export NArith ZArith Lia.

(** ** Results

    Rust's [Result<A, E>] is a value: a fallible operation of the gateway
    returns it next to the state it leaves behind, so that the mutations done
    before an early [return Err(..)] stay visible. *)
Inductive result (E A : Type) : Type :=
  | Ok (a : A)
  | Err (err : E).
Arguments Ok {E A} a.
Arguments Err {E A} err.

Definition is_ok {E A} (r : result E A) : bool :=
  match r with Ok _ => true | Err _ => false end.

#[export] Instance result_eq_dec `{EqDecision E, EqDecision A} : EqDecision (result E A).
Proof. solve_decision. Defined.

(** [?] on a result, and [Option::ok_or]. *)
#[export] Instance result_bind {E} : MBind (result E) := λ A B f r, match r with Ok x => f x | Err e => Err e end.

Definition ok_or {E A} (e : E) (o : option A) : result E A := match o with Some x => Ok x | None => Err e end.

Definition guard_or {E} (e : E) (b : bool) : result E unit := if b then Ok tt else Err e.

(** ** Option combinators of the Rust standard library *)
Definition is_some_and {A} (f : A → bool) (o : option A) : bool := from_option f false o.

Definition is_none_or {A} (f : A → bool) (o : option A) : bool := from_option f true o.

Definition is_some {A} (o : option A) : bool := match o with Some _ => true | None => false end.

(** [is_empty] of a slice. *)
Definition is_empty {A} (l : list A) : bool := match l with [] => true | _ => false end.

Definition map_or {A B} (default : B) (f : A → B) (o : option A) : B := from_option f default o.

(** ** Keys of ordered maps

    A [BTreeMap] is a finite map that is iterated in increasing key order. The
    models keep the map as a [gmap] and iterate over [btree_iter]. *)
Class KeyOrder (K : Type) := {
  key_le : relation K;
  key_le_dec :: RelDecision key_le;
  key_le_partial :: PartialOrder key_le;
  key_le_total :: Total key_le;
}.

#[export] Instance string_key_order : KeyOrder string := {| key_le := String.le |}.

(** The derived lexicographic order of a tuple or of a struct. *)
Definition lex_le {A B} `{KeyOrder A, KeyOrder B} `{EqDecision A} : relation (A * B) :=
  λ x y, (x.1 ≠ y.1 ∧ key_le x.1 y.1) ∨ (x.1 = y.1 ∧ key_le x.2 y.2).

(** An order pulled back along an injective projection (a newtype, or a struct
    read as the tuple of its fields). *)
Definition pull_le {A B} `{KeyOrder B} (f : A → B) : relation A := λ x y, key_le (f x) (f y).

Section ordered_maps.
Context `{Countable K, !KeyOrder K} {V : Type}.

Definition entry_le : relation (K * V) := λ a b, key_le a.1 b.1.

#[export] Instance entry_le_dec : RelDecision entry_le.
Proof. intros a b. unfold entry_le. apply _. Defined.

(** [BTreeMap::iter]: the bindings in increasing key order. *)
Definition btree_iter (m : gmap K V) : list (K * V) := merge_sort entry_le (map_to_list m).

(** [BTreeMap::keys] and [BTreeMap::values]. *)
Definition btree_keys (m : gmap K V) : list K := (btree_iter m).*1.

Definition btree_values (m : gmap K V) : list V := (btree_iter m).*2.

(** [BTreeMap::retain]. *)
Definition btree_retain (keep : K → V → bool) (m : gmap K V) : gmap K V :=
  filter (λ kv, keep kv.1 kv.2 = true) m.

End ordered_maps.

(** ** Sorting by a comparison function

    [slice::sort_by] is a stable sort. *)
Section sort_by.
Context {A : Type} (cmp : A → A → comparison).

Fixpoint sort_insert (x : A) (l : list A) : list A :=
  match l with
  | [] => [x]
  | y :: l' => match cmp x y with Gt => y :: sort_insert x l' | _ => x :: l end
  end.

Definition sort_by (l : list A) : list A := foldr sort_insert [] l.

(** The comparison is a total preorder on the elements that satisfy [P]. *)
Record cmp_ok (P : A → Prop) : Prop := {
  cmp_opp x y : P x → P y → cmp y x = CompOpp (cmp x y);
  cmp_trans x y z : P x → P y → P z → cmp x y ≠ Gt → cmp y z ≠ Gt → cmp x z ≠ Gt;
}.

End sort_by.

(** [Ordering::then_with]. *)
Definition then_with (c d : comparison) : comparison := match c with Eq => d | _ => c end.

(** [Ord::cmp] of the keys of an ordered map. *)
Definition key_cmp {K} `{KeyOrder K, EqDecision K} (left right : K) : comparison :=
  if decide (left = right) then Eq else if decide (key_le left right) then Lt else Gt.

(** [Iterator::min_by]: the first of the least elements. *)
Definition min_by {A} (cmp : A → A → comparison) (l : list A) : option A :=
  match l with
  | [] => None
  | x :: rest => Some (foldl (λ best y, match cmp best y with Gt => y | _ => best end) x rest)
  end.

(** ** Tactics of the development *)

(** Case analysis on the scrutinee of every [match] in sight, keeping the
    equations. *)
Ltac destr_match :=
  match goal with
  | |- context [match ?x with _ => _ end] => destruct x eqn:?
  | H : context [match ?x with _ => _ end] |- _ => destruct x eqn:?
  end.

(** Turn boolean guards into propositions. *)
Ltac bool_prop :=
  repeat match goal with
  | H : negb _ = true |- _ => apply negb_true_iff in H
  | H : negb _ = false |- _ => apply negb_false_iff in H
  | H : (_ && _)%bool = true |- _ => apply andb_true_iff in H as [? ?]
  | H : (_ || _)%bool = false |- _ => apply orb_false_iff in H as [? ?]
  | H : bool_decide _ = true |- _ => apply bool_decide_eq_true in H
  | H : bool_decide _ = false |- _ => apply bool_decide_eq_false in H
  | H : (_ =? _)%N = true |- _ => apply N.eqb_eq in H
  | H : (_ =? _)%N = false |- _ => apply N.eqb_neq in H
  | H : (_ <? _)%N = true |- _ => apply N.ltb_lt in H
  | H : (_ <? _)%N = false |- _ => apply N.ltb_ge in H
  | H : (_ <=? _)%N = true |- _ => apply N.leb_le in H
  | H : (_ <=? _)%N = false |- _ => apply N.leb_gt in H
  end.

(** A closed decidable proposition. *)
Ltac by_decide := apply (bool_decide_unpack _); vm_compute; exact I.

(** ** Lemmas *)

(** What an [Ok] says of the steps that led to it. *)
Lemma bind_Ok {E A B} (r : result E A) (f : A → result E B) b : (r ≫= f) = Ok b ↔ ∃ a, r = Ok a ∧ f a = Ok b.
Proof. destruct r as [a|e]; cbn; split; [eauto|naive_solver|done|naive_solver]. Qed.

Lemma ok_or_Ok {E A} (e : E) (o : option A) a : ok_or e o = Ok a ↔ o = Some a.
Proof. destruct o; cbn; split; congruence. Qed.

Lemma guard_or_Ok {E} (e : E) b u : guard_or e b = Ok u ↔ b = true.
Proof. destruct b, u; cbn; split; congruence. Qed.

Lemma refuse_Ok {E A} (e : E) (b : bool) (r : result E A) a : (if b then Err e else r) = Ok a ↔ b = false ∧ r = Ok a.
Proof. destruct b; split; naive_solver congruence. Qed.

Lemma ok_or_bind {E A B} (e : E) (o : option A) (f : A → result E B) b : (ok_or e o ≫= f) = Ok b ↔ ∃ a, o = Some a ∧ f a = Ok b.
Proof. rewrite bind_Ok. by setoid_rewrite ok_or_Ok. Qed.

Lemma is_empty_spec {A} (l : list A) : is_empty l = true ↔ l = [].
Proof. by destruct l. Qed.

Lemma is_some_spec {A} (o : option A) : is_some o = true ↔ is_Some o.
Proof. destruct o; simpl; split; done. Qed.

#[export] Instance lex_key_order {A B} `{EqDecision A, EqDecision B} {HA : KeyOrder A} {HB : KeyOrder B} : KeyOrder (A * B).
Proof.
  unshelve econstructor; [exact lex_le|..].
  - intros x y. unfold lex_le. apply _.
  - split; [split|].
    + intros [a b]. by right.
    + intros [a1 b1] [a2 b2] [a3 b3]; unfold lex_le; simpl.
      intros [[N1 L1]|[-> L1]] [[N2 L2]|[E2 L2]]; subst.
      * left. split; [|by etrans]. intros ->.
        apply N1. by apply (anti_symm key_le).
      * by left.
      * by left.
      * right. split; [done|]. by etrans.
    + intros [a1 b1] [a2 b2]; unfold lex_le; simpl.
      intros [[N1 L1]|[-> L1]] [[N2 L2]|[E2 L2]]; subst; try done.
      * by destruct N1; apply (anti_symm key_le).
      * f_equal. by apply (anti_symm key_le).
  - intros [a1 b1] [a2 b2]. unfold lex_le. simpl.
    destruct (decide (a1 = a2)) as [->|N].
    + destruct (total key_le b1 b2); [left|right]; by right.
    + destruct (total key_le a1 a2); [left|right]; left; split; congruence.
Defined.

Definition pull_key_order {A B} `{HB : KeyOrder B} (f : A → B) (Hinj : Inj (=) (=) f) : KeyOrder A.
Proof.
  unshelve econstructor; [exact (pull_le f)|..].
  - intros x y. unfold pull_le. apply _.
  - split; [split|].
    + intros x. unfold pull_le. reflexivity.
    + intros x y z. unfold pull_le. apply transitivity.
    + intros x y. unfold pull_le. intros ??. apply Hinj. by apply (anti_symm key_le).
  - intros x y. unfold pull_le. apply (total key_le).
Defined.

Section ordered_map_lemmas.
Context `{Countable K, !KeyOrder K} {V : Type}.
Implicit Types m : gmap K V.

#[export] Instance entry_le_trans : Transitive (entry_le (K := K) (V := V)).
Proof. intros [] [] []. unfold entry_le; simpl. apply transitivity. Qed.

#[export] Instance entry_le_total : Total (entry_le (K := K) (V := V)).
Proof. intros [] []. unfold entry_le; simpl. apply (total key_le). Qed.

Lemma btree_iter_perm m : btree_iter m ≡ₚ map_to_list m.
Proof. apply merge_sort_Permutation. Qed.

Lemma elem_of_btree_iter m k v : (k, v) ∈ btree_iter m ↔ m !! k = Some v.
Proof. rewrite btree_iter_perm. apply elem_of_map_to_list. Qed.

Lemma elem_of_btree_keys m k : k ∈ btree_keys m ↔ is_Some (m !! k).
Proof.
  unfold btree_keys. rewrite list_elem_of_fmap. split.
  - intros [[k' v] [-> Hin]]. apply elem_of_btree_iter in Hin. by eexists.
  - intros [v Hv]. exists (k, v). split; [done|]. by apply elem_of_btree_iter.
Qed.

Lemma btree_keys_NoDup m : NoDup (btree_keys m).
Proof. unfold btree_keys. rewrite btree_iter_perm. apply NoDup_fst_map_to_list. Qed.

Lemma btree_iter_NoDup m : NoDup (btree_iter m).
Proof. rewrite btree_iter_perm. apply NoDup_map_to_list. Qed.

Lemma btree_iter_sorted m : StronglySorted entry_le (btree_iter m).
Proof. apply StronglySorted_merge_sort; apply _. Qed.

Lemma btree_keys_sorted m : StronglySorted key_le (btree_keys m).
Proof.
  unfold btree_keys. pose proof (btree_iter_sorted m) as HS. induction HS as [|kv l HS IH HF]; simpl; constructor; [done|].
  apply Forall_fmap. exact HF.
Qed.

Lemma lookup_btree_retain keep m k :
  btree_retain keep m !! k = (m !! k) ≫= λ v, if keep k v then Some v else None.
Proof.
  unfold btree_retain. rewrite map_lookup_filter. destruct (m !! k) as [v|]; simpl; [|done].
  destruct (keep k v) eqn:E; case_guard; simpl in *; congruence.
Qed.

Lemma btree_retain_Some keep m k v :
  btree_retain keep m !! k = Some v ↔ m !! k = Some v ∧ keep k v = true.
Proof. unfold btree_retain. rewrite map_lookup_filter_Some. done. Qed.

End ordered_map_lemmas.

Lemma list_filter_iff_in {A} (P Q : A → Prop) `{!∀ x, Decision (P x), !∀ x, Decision (Q x)} (l : list A) :
  (∀ x, x ∈ l → P x ↔ Q x) → filter P l = filter Q l.
Proof.
  induction l as [|x l IH]; intros HPQ; [done|]. rewrite !filter_cons, IH by (intros; apply HPQ; by right).
  destruct (HPQ x) as [H1 H2]; [left|]. do 2 case_decide; tauto.
Qed.

Section sort_by_lemmas.
Context {A : Type} (cmp : A → A → comparison) (P : A → Prop).

Lemma sort_insert_perm x l : sort_insert cmp x l ≡ₚ x :: l.
Proof.
  induction l as [|y l IH]; simpl; [done|]. destruct (cmp x y); try done.
  rewrite IH. apply Permutation_swap.
Qed.

Lemma sort_by_perm l : sort_by cmp l ≡ₚ l.
Proof. induction l as [|x l IH]; simpl; [done|]. by rewrite sort_insert_perm, IH. Qed.

(** The first element of the sorted list precedes every other one. *)
Lemma sort_by_head l x :
  cmp_ok cmp P → (∀ y, y ∈ l → P y) → head (sort_by cmp l) = Some x →
  x ∈ l ∧ ∀ y, y ∈ l → cmp x y ≠ Gt.
Proof.
  intros [Hopp Htrans]. assert (∀ y, P y → cmp y y ≠ Gt) as Hrefl.
  { intros y Hy HG. pose proof (Hopp y y Hy Hy) as HE. by rewrite HG in HE. }
  revert x. induction l as [|z l IH]; intros x HP Hx; simpl in *; [done|].
  assert (P z) as Hz by (apply HP; left). assert (∀ y, y ∈ l → P y) as Hl by (intros; apply HP; by right).
  destruct (sort_by cmp l) as [|h t] eqn:E; simpl in Hx.
  - injection Hx as <-. split; [left|]. pose proof (sort_by_perm l) as HE. rewrite E in HE.
    apply Permutation_nil_l in HE as <-. intros y ->%list_elem_of_singleton. by apply Hrefl.
  - destruct (IH h Hl eq_refl) as [Hh Hmin].
    destruct (cmp z h) eqn:Ezh; simpl in Hx; injection Hx as <-.
    1, 2: split; [left|]; intros y [->|Hy]%elem_of_cons; [by apply Hrefl|];
      apply (Htrans z h y); auto; congruence.
    split; [by right|]. intros y [->|Hy]%elem_of_cons; [|by apply Hmin].
    rewrite (Hopp z h), Ezh by auto. done.
Qed.

(** Sorting sorts: by a total preorder, no element stands after a greater one. *)
Lemma sort_by_sorted l : cmp_ok cmp P → Forall P l → StronglySorted (λ x y, cmp x y ≠ Gt) (sort_by cmp l).
Proof.
  intros [Hopp Htrans]. induction 1 as [|x l Hx Hl IH]; simpl; [constructor|].
  assert (Forall P (sort_by cmp l)) as Hs by by rewrite sort_by_perm.
  induction IH as [|y s Hss IHs Hy]; simpl; [by repeat constructor|]. apply Forall_cons in Hs as [Hyp Hs].
  rewrite Forall_forall in Hs, Hy. destruct (cmp x y) eqn:E.
  1, 2: constructor; [by constructor; [|apply Forall_forall]|]; apply Forall_forall; intros z [->|Hz]%elem_of_cons; [congruence|];
    apply (Htrans x y z); auto; congruence.
  constructor; [apply IHs; by apply Forall_forall|]. rewrite sort_insert_perm. constructor; [|by apply Forall_forall].
  rewrite (Hopp x y) by done. by rewrite E.
Qed.

Lemma then_with_ok c1 c2 :
  cmp_ok c1 P → cmp_ok c2 P → cmp_ok (λ x y : A, then_with (c1 x y) (c2 x y)) P.
Proof.
  intros [O1 T1] [O2 T2]. split.
  - intros x y Hx Hy. rewrite (O1 x y), (O2 x y) by done. by destruct (c1 x y).
  - intros x y z Hx Hy Hz H1 H2.
    assert (c1 x y ≠ Gt) as N1 by (intros E; by rewrite E in H1).
    assert (c1 y z ≠ Gt) as N2 by (intros E; by rewrite E in H2).
    pose proof (T1 x y z Hx Hy Hz N1 N2) as N3.
    destruct (c1 x z) eqn:E3; simpl; try done.
    assert (c1 z x = Eq) as E3' by by rewrite (O1 x z), E3.
    assert (c1 x y = Eq) as E1.
    { destruct (c1 x y) eqn:E1; try done. destruct (T1 y z x); try done; [by rewrite E3'|]. by rewrite (O1 x y), E1. }
    assert (c1 y z = Eq) as E2.
    { destruct (c1 y z) eqn:E2; try done. destruct (T1 z x y); try done; [by rewrite E3'|].
      by rewrite (O1 y z), E2. }
    rewrite E1 in H1. rewrite E2 in H2. simpl in *. by apply (T2 x y z).
Qed.

Lemma min_by_spec l x :
  cmp_ok cmp P → (∀ y, y ∈ l → P y) → min_by cmp l = Some x → x ∈ l ∧ ∀ y, y ∈ l → cmp x y ≠ Gt.
Proof.
  intros [Hopp Htrans] HP. assert (∀ y, P y → cmp y y ≠ Gt) as Hrefl.
  { intros y Hy HG. pose proof (Hopp y y Hy Hy) as HE. by rewrite HG in HE. }
  destruct l as [|b l]; simpl; [done|]. intros [= Hx]. subst x.
  assert (P b) as Hb by (apply HP; left). assert (∀ y, y ∈ l → P y) as Hl by (intros; apply HP; by right).
  clear HP. revert b Hb. induction l as [|z l IH]; intros b Hb; simpl.
  - split; [left|]. intros y ->%list_elem_of_singleton. by apply Hrefl.
  - assert (P z) as Hz by (apply Hl; left).
    specialize (IH (λ y Hy, Hl y (list_elem_of_further _ _ _ Hy))).
    assert (∀ c, P c → (c = b ∨ c = z) → cmp c b ≠ Gt → cmp c z ≠ Gt →
      foldl (λ best y, match cmp best y with Gt => y | _ => best end) c l ∈ b :: z :: l ∧
      ∀ y, y ∈ b :: z :: l →
        cmp (foldl (λ best y, match cmp best y with Gt => y | _ => best end) c l) y ≠ Gt) as Hgo.
    { intros c Hc Hbz Hcb Hcz. destruct (IH c Hc) as [Hin Hmin].
      set (m := foldl _ c l) in *. assert (P m) as Hm.
      { apply elem_of_cons in Hin as [->|Hin]; [done|]. apply Hl. by right. }
      pose proof (Hmin c ltac:(left)) as Hmc. split.
      - apply elem_of_cons in Hin as [->|Hin]; [|by do 2 right]. destruct Hbz as [->| ->]; [left|right; left].
      - intros y [->|[->|Hy]%elem_of_cons]%elem_of_cons.
        + by apply (Htrans m c b).
        + by apply (Htrans m c z).
        + apply Hmin. by right. }
    destruct (cmp b z) eqn:E; apply Hgo; auto; try congruence.
    rewrite (Hopp b z), E by done. done.
Qed.

Lemma min_by_None l : min_by cmp l = None ↔ l = [].
Proof. by destruct l. Qed.

Lemma sort_by_ext (c1 c2 : A → A → comparison) l : (∀ x y, c1 x y = c2 x y) → sort_by c1 l = sort_by c2 l.
Proof.
  intros HE. assert (∀ x l, sort_insert c1 x l = sort_insert c2 x l) as HI.
  { intros x l'. induction l' as [|y l' IH]; simpl; [done|]. by rewrite HE, IH. }
  induction l as [|x l IH]; simpl; [done|]. by rewrite IH, HI.
Qed.

Lemma cmp_ok_ext c1 c2 : (∀ x y, P x → P y → c1 x y = c2 x y) → cmp_ok c1 P → cmp_ok c2 P.
Proof.
  intros HE [O T]. split.
  - intros x y Hx Hy. rewrite <- !HE by done. by apply O.
  - intros x y z Hx Hy Hz. rewrite <- !HE by done. by apply T.
Qed.

End sort_by_lemmas.

Lemma key_cmp_le {K} `{!KeyOrder K, !EqDecision K} (x y : K) : key_cmp x y ≠ Gt ↔ key_le x y.
Proof. unfold key_cmp. destruct (decide (x = y)) as [->|Hne]; [done|]. by case_decide. Qed.

Lemma key_cmp_ok {K} `{!KeyOrder K, !EqDecision K} (P : K → Prop) : cmp_ok key_cmp P.
Proof.
  split.
  - intros x y _ _. unfold key_cmp. destruct (decide (x = y)) as [->|Hne]; [by rewrite decide_True|].
    rewrite decide_False by congruence. destruct (total key_le x y) as [Hxy|Hyx].
    + rewrite (decide_True _ _ Hxy). rewrite decide_False; [done|]. intros Hyx. by apply Hne, (anti_symm key_le).
    + rewrite (decide_True _ _ Hyx). rewrite decide_False; [done|]. intros Hxy. by apply Hne, (anti_symm key_le).
  - assert (∀ x y : K, key_cmp x y ≠ Gt ↔ key_le x y) as HE.
    { intros x y. unfold key_cmp. destruct (decide (x = y)) as [->|Hne]; [done|]. by case_decide. }
    intros x y z _ _ _. rewrite !HE. apply transitivity.
Qed.

(** A comparison pulled back along a projection. *)
Lemma cmp_ok_pull {A B} (f : A → B) (cmp : B → B → comparison) (P : B → Prop) (Q : A → Prop) :
  (∀ x, Q x → P (f x)) → cmp_ok cmp P → cmp_ok (λ x y, cmp (f x) (f y)) Q.
Proof.
  intros HQ [O T]. split; [intros; apply O; auto|]. intros x y z Hx Hy Hz. apply T; auto.
Qed.

Lemma alter_as_insert `{Countable K} {V} (f : V → V) (m : gmap K V) k v :
  m !! k = Some v → alter f k m = <[k := f v]> m.
Proof.
  intros Hk. apply map_eq. intros j. destruct (decide (j = k)) as [->|].
  - by rewrite lookup_alter_eq, lookup_insert_eq, Hk.
  - by rewrite lookup_alter_ne, lookup_insert_ne.
Qed.

#[export] Hint Resolve btree_keys_NoDup btree_iter_NoDup : core.
