(* ===== verification/Machine.v ===== *)
(** Machine integers and [std::time::Duration].

    Unsigned integers are values of [N] with their width written out in the
    operation that can leave it: wrapping (a release build), saturating and
    checked operations. [usize] is 64 bits wide. A [Duration] is its number of
    nanoseconds; [saturating_add] and [saturating_sub] stop at its bounds. *)

From S2P Require Import Prelude.
Local Open Scope N_scope.

Definition U8_MAX : N := 2 ^ 8 - 1.

Definition U16_MAX : N := 2 ^ 16 - 1.

Definition U32_MAX : N := 2 ^ 32 - 1.

Definition U64_MAX : N := 2 ^ 64 - 1.

Definition U128_MAX : N := 2 ^ 128 - 1.

Definition USIZE_MAX : N := U64_MAX.

Definition ISIZE_MAX : Z := 2 ^ 63 - 1.

Definition ISIZE_MIN : Z := - 2 ^ 63.

(** [uN::saturating_add], [uN::saturating_mul] for the maximum of the width. *)
Definition saturating_add (max a b : N) : N := N.min (a + b) max.

Definition saturating_mul (max a b : N) : N := N.min (a * b) max.

(** [saturating_sub] is the truncated subtraction of [N]. *)
Definition saturating_sub (a b : N) : N := a - b.

Definition checked_sub (a b : N) : option N := if b <=? a then Some (a - b) else None.

Definition checked_add (max a b : N) : option N := if a + b <=? max then Some (a + b) else None.

Definition checked_mul (max a b : N) : option N := if a * b <=? max then Some (a * b) else None.

(** Plain [+] and [*] of a release build wrap around. *)
Definition wrapping_add (max a b : N) : N := (a + b) mod (max + 1).

Definition wrapping_mul (max a b : N) : N := (a * b) mod (max + 1).

Definition isize_saturating_add (a b : Z) : Z := Z.min ISIZE_MAX (a + b).

Definition isize_saturating_sub (a b : Z) : Z := Z.max ISIZE_MIN (a - b).

(** [uN::div_ceil]. *)
Definition div_ceil (a b : N) : N := a / b + (if a mod b =? 0 then 0 else 1).

Abbreviation Duration := N (only parsing).

Definition NANOS_PER_SEC : N := 1000000000.

(** [Duration::MAX]: [u64::MAX] seconds and 999 999 999 nanoseconds. *)
Definition DURATION_MAX : N := U64_MAX * NANOS_PER_SEC + (NANOS_PER_SEC - 1).

Definition from_nanos (n : N) : Duration := n.

Definition from_secs (n : N) : Duration := n * NANOS_PER_SEC.

Definition from_mins (n : N) : Duration := from_secs (n * 60).

Definition from_hours (n : N) : Duration := from_secs (n * 3600).

Definition dur_add (a b : Duration) : Duration := saturating_add DURATION_MAX a b.

Definition dur_sub (a b : Duration) : Duration := saturating_sub a b.

(** Bounds of the widths, for [lia]. *)
Lemma U32_MAX_val : U32_MAX = 4294967295.
Proof. reflexivity. Qed.

Lemma U64_MAX_val : U64_MAX = 18446744073709551615.
Proof. reflexivity. Qed.

Lemma ISIZE_MAX_val : ISIZE_MAX = 9223372036854775807%Z.
Proof. reflexivity. Qed.

Lemma ISIZE_MIN_val : ISIZE_MIN = (-9223372036854775808)%Z.
Proof. reflexivity. Qed.

Lemma U128_MAX_val : U128_MAX = 340282366920938463463374607431768211455.
Proof. reflexivity. Qed.

(** [lia] and [nia] with the values of the bounds at hand. *)
Ltac widths :=
  pose proof U32_MAX_val; pose proof U64_MAX_val; pose proof U128_MAX_val.

Lemma wrapping_add_small max a b : a + b <= max → wrapping_add max a b = a + b.
Proof. intros. unfold wrapping_add. apply N.mod_small. lia. Qed.

Lemma wrapping_mul_small max a b : a * b <= max → wrapping_mul max a b = a * b.
Proof. intros. unfold wrapping_mul. apply N.mod_small. lia. Qed.

Lemma saturating_add_small max a b : a + b <= max → saturating_add max a b = a + b.
Proof. unfold saturating_add. lia. Qed.

Lemma checked_sub_Some a b c : checked_sub a b = Some c ↔ b <= a ∧ c = a - b.
Proof.
  unfold checked_sub. destruct (N.leb_spec b a); split; intros; simplify_eq; try lia.
  destruct_and!. by subst.
Qed.

Lemma checked_sub_1_None a : checked_sub a 1 = None ↔ a = 0.
Proof. unfold checked_sub. destruct (N.leb_spec 1 a); split; intros; try done; lia. Qed.

Lemma div_ceil_spec a b : 0 < b → a <= div_ceil a b * b < a + b.
Proof.
  intros Hb. unfold div_ceil.
  pose proof (N.div_mod a b ltac:(lia)) as E. pose proof (N.mod_lt a b ltac:(lia)) as L.
  destruct (N.eqb_spec (a mod b) 0) as [Z|Z]; generalize dependent (a / b);
    generalize dependent (a mod b); intros; nia.
Qed.

Lemma Ncompare_ok {A} (f : A → N) (P : A → Prop) : cmp_ok (λ x y, f x ?= f y) P.
Proof.
  split.
  - intros x y _ _. apply N.compare_antisym.
  - intros x y z _ _ _. rewrite !N.compare_le_iff. lia.
Qed.

(** Comparing loads by cross-multiplication is transitive as long as no limit
    is zero. *)
Lemma pressure_ok {A} (inflight limit : A → N) :
  cmp_ok (λ x y, inflight x * limit y ?= inflight y * limit x) (λ x, 0 < limit x).
Proof.
  split.
  - intros x y _ _. apply N.compare_antisym.
  - intros x y z Hx Hy Hz. rewrite !N.compare_le_iff. intros H1 H2.
    apply (N.mul_le_mono_pos_r _ _ (limit y)); [done|]. nia.
Qed.

#[export] Instance N_key_order : KeyOrder N := {| key_le := N.le |}.
