(* ===== verification/Bytes.v ===== *)
(** Byte strings and the text operations of the Rust standard library that the
    protocol code uses on them: UTF-8 validation, [str::trim], ASCII case, and
    the decimal and hexadecimal forms of unsigned integers.

    A [&[u8]] and a [&str] are lists of bytes; a byte is an [ascii]. *)

From S2P Require Import Prelude Machine.
From Stdlib Require Import Ascii.
Local Open Scope N_scope.

Abbreviation bytes := (list ascii).

(** A string literal as bytes. *)
Definition bs (s : string) : bytes := String.list_ascii_of_string s.

Abbreviation byte := N_of_ascii.

Definition CR : ascii := "013"%char.

Definition LF : ascii := "010"%char.

Definition CRLF : bytes := [CR; LF].

Definition in_range (low high x : N) : bool := (low <=? x) && (x <=? high).

(** [u8::is_ascii_digit] and the like. *)
Definition is_ascii_digit (c : ascii) : bool := in_range 48 57 (byte c).

Definition is_ascii_uppercase (c : ascii) : bool := in_range 65 90 (byte c).

Definition is_ascii_lowercase (c : ascii) : bool := in_range 97 122 (byte c).

Definition is_ascii_alphanumeric (c : ascii) : bool :=
  is_ascii_digit c || is_ascii_uppercase c || is_ascii_lowercase c.

(** [u8::is_ascii_whitespace]: space, tab, line feed, form feed, carriage return. *)
Definition is_ascii_whitespace (c : ascii) : bool :=
  existsb (N.eqb (byte c)) [32; 9; 10; 12; 13].

Definition to_ascii_lowercase (c : ascii) : ascii :=
  if is_ascii_uppercase c then ascii_of_N (byte c + 32) else c.

Definition eq_ignore_ascii_case (a b : bytes) : bool :=
  bool_decide (map to_ascii_lowercase a = map to_ascii_lowercase b).

(** [slice::starts_with] and [strip_prefix]. *)
Fixpoint strip_prefix (prefix l : bytes) : option bytes :=
  match prefix, l with
  | [], _ => Some l
  | p :: prefix, c :: l => if decide (p = c) then strip_prefix prefix l else None
  | _ :: _, [] => None
  end.

Definition starts_with (prefix l : bytes) : bool := is_some (strip_prefix prefix l).

(** [haystack.windows(needle.len()).position(|window| window == needle)] for a
    needle that is not empty. *)
Fixpoint find_bytes (needle haystack : bytes) : option nat :=
  if starts_with needle haystack then Some 0%nat
  else match haystack with
       | [] => None
       | _ :: rest => S <$> find_bytes needle rest
       end.

(** The part before the first [sep] and the part after it. *)
Fixpoint split_once (sep : ascii) (l : bytes) : option (bytes * bytes) :=
  match l with
  | [] => None
  | c :: rest =>
      if decide (c = sep) then Some ([], rest)
      else match split_once sep rest with
           | None => None
           | Some (before, after) => Some (c :: before, after)
           end
  end.

(** [str.split(sep).next()]. *)
Definition split_first (sep : ascii) (l : bytes) : bytes :=
  match split_once sep l with Some (before, _) => before | None => l end.

(** ** UTF-8 ([str::from_utf8]) *)
Definition continuation (c : ascii) : bool := in_range 128 191 (byte c).

Fixpoint utf8_valid (l : bytes) : bool :=
  match l with
  | [] => true
  | a :: l1 =>
      if byte a <? 128 then utf8_valid l1
      else match l1 with
      | [] => false
      | b :: l2 =>
          if in_range 194 223 (byte a) then continuation b && utf8_valid l2
          else match l2 with
          | [] => false
          | c :: l3 =>
              if in_range 224 239 (byte a) then
                (if byte a =? 224 then in_range 160 191 (byte b)
                 else if byte a =? 237 then in_range 128 159 (byte b)
                 else continuation b)
                && continuation c && utf8_valid l3
              else match l3 with
              | [] => false
              | d :: l4 =>
                  in_range 240 244 (byte a)
                  && (if byte a =? 240 then in_range 144 191 (byte b)
                      else if byte a =? 244 then in_range 128 143 (byte b)
                      else continuation b)
                  && continuation c && continuation d && utf8_valid l4
              end
          end
      end
  end.

(** ** Trimming

    [str::trim] removes characters with the Unicode property White_Space: six
    ASCII characters, U+0085, U+00A0, U+1680, U+2000 to U+200A, U+2028, U+2029,
    U+202F, U+205F and U+3000. *)
Definition white1 (a : ascii) : bool := in_range 9 13 (byte a) || (byte a =? 32).

Definition white2 (a b : ascii) : bool := (byte a =? 194) && ((byte b =? 133) || (byte b =? 160)).

Definition white3 (a b c : ascii) : bool :=
  ((byte a =? 225) && (byte b =? 154) && (byte c =? 128))
  || ((byte a =? 226) && (byte b =? 128)
      && (in_range 128 138 (byte c) || (byte c =? 168) || (byte c =? 169) || (byte c =? 175)))
  || ((byte a =? 226) && (byte b =? 129) && (byte c =? 159))
  || ((byte a =? 227) && (byte b =? 128) && (byte c =? 128)).

Fixpoint trim_front (w2 : ascii → ascii → bool) (w3 : ascii → ascii → ascii → bool) (l : bytes) : bytes :=
  match l with
  | [] => []
  | a :: l1 =>
      if white1 a then trim_front w2 w3 l1
      else match l1 with
      | [] => l
      | b :: l2 =>
          if w2 a b then trim_front w2 w3 l2
          else match l2 with
          | [] => l
          | c :: l3 => if w3 a b c then trim_front w2 w3 l3 else l
          end
      end
  end.

Definition trim_start (l : bytes) : bytes := trim_front white2 white3 l.

Definition trim_end (l : bytes) : bytes :=
  rev (trim_front (λ b a, white2 a b) (λ c b a, white3 a b c) (rev l)).

Definition trim (l : bytes) : bytes := trim_end (trim_start l).

(** ** Numbers *)

(** [char::to_digit]. *)
Definition to_digit (radix : N) (c : ascii) : option N :=
  let d :=
    if is_ascii_digit c then Some (byte c - 48)
    else if is_ascii_lowercase c then Some (byte c - 87)
    else if is_ascii_uppercase c then Some (byte c - 55)
    else None in
  match d with
  | Some d => if d <? radix then Some d else None
  | None => None
  end.

Fixpoint parse_digits (radix max acc : N) (l : bytes) : option N :=
  match l with
  | [] => Some acc
  | c :: rest =>
      match to_digit radix c with
      | None => None
      | Some d =>
          match checked_mul max acc radix with
          | None => None
          | Some acc =>
              match checked_add max acc d with
              | None => None
              | Some acc => parse_digits radix max acc rest
              end
          end
      end
  end.

(** [uN::from_str_radix] and, at radix ten, [str::parse::<uN>]: one leading plus
    sign is allowed. *)
Definition from_str_radix (radix max : N) (l : bytes) : option N :=
  match l with
  | [] => None
  | c :: rest =>
      let digits := if decide (c = "+"%char) then rest else l in
      match digits with
      | [] => None
      | _ => parse_digits radix max 0 digits
      end
  end.

Definition digit_char (d : N) : ascii := ascii_of_N (if d <? 10 then d + 48 else d + 87).

(** The digits of [n], most significant first, in front of [tail]. *)
Fixpoint digits_onto (radix : N) (fuel : nat) (n : N) (tail : bytes) : bytes :=
  match fuel with
  | O => tail
  | S fuel =>
      let tail := digit_char (n mod radix) :: tail in
      if n <? radix then tail else digits_onto radix fuel (n / radix) tail
  end.

(** [u64::to_string] and [format!("{n:x}")]; every turn divides [n] by at least two. *)
Definition format_radix (radix n : N) : bytes := digits_onto radix (S (N.size_nat n)) n [].

Definition to_string (n : N) : bytes := format_radix 10 n.

(** [format!("{n:0width}")]. *)
Definition pad_left (width : nat) (l : bytes) : bytes := replicate (width - length l) "0"%char ++ l.

(** ** Lemmas *)

Lemma strip_prefix_Some p l r : strip_prefix p l = Some r ↔ l = p ++ r.
Proof.
  revert l. induction p as [|c p IH]; intros [|d l]; simpl.
  - split; [by intros [= <-]|by intros <-].
  - split; [by intros [= <-]|by intros <-].
  - done.
  - case_decide as Hc; [subst; rewrite IH; split; [by intros ->|by intros [= ->]]|]. split; [done|]. intros [= ??]. congruence.
Qed.

Lemma starts_with_spec p l : starts_with p l = true ↔ ∃ r, l = p ++ r.
Proof.
  unfold starts_with. rewrite is_some_spec. unfold is_Some. by setoid_rewrite strip_prefix_Some.
Qed.

Lemma find_bytes_Some needle l n :
  find_bytes needle l = Some n →
  ∃ before after, l = before ++ needle ++ after ∧ length before = n ∧
    ∀ x y, x `prefix_of` before → x ≠ before → l = x ++ y → starts_with needle y = false.
Proof.
  revert n. induction l as [|c l IH]; intros n; simpl.
  - destruct (starts_with needle []) eqn:E; [|done]. intros [= <-]. apply starts_with_spec in E as [r ->].
    exists [], r. split_and!; [done|done|]. intros x y Hx%prefix_nil_inv. congruence.
  - destruct (starts_with needle (c :: l)) eqn:E.
    + intros [= <-]. apply starts_with_spec in E as [r Hr]. exists [], r. split_and!; [done|done|].
      intros x y Hx%prefix_nil_inv. congruence.
    + destruct (find_bytes needle l) as [m|]; [|done]. intros [= <-].
      destruct (IH m eq_refl) as (before & after & -> & <- & Hno). exists (c :: before), after.
      split_and!; [done|done|]. intros [|d x] y Hx Hne Hy; simpl in Hy.
      * by rewrite <- Hy.
      * injection Hy as <- Hy. apply prefix_cons_inv_2 in Hx. apply (Hno x y Hx); [congruence|done].
Qed.

(** The first occurrence of a needle is found, also in a longer haystack. *)
Lemma find_bytes_app needle l r n : find_bytes needle l = Some n → find_bytes needle (l ++ r) = Some n.
Proof.
  revert n. induction l as [|c l IH]; intros n; simpl.
  - destruct (starts_with needle []) eqn:E; [|done]. intros [= <-]. destruct needle; [|done].
    by destruct r.
  - destruct (starts_with needle (c :: l)) eqn:E.
    + intros [= <-]. apply starts_with_spec in E as [s E].
      assert (starts_with needle (c :: l ++ r) = true) as ->; [|done].
      apply starts_with_spec. exists (s ++ r). by rewrite app_comm_cons, E, app_assoc.
    + destruct (find_bytes needle l) as [m|] eqn:Em; [|done]. intros [= <-].
      assert (starts_with needle (c :: l ++ r) = false) as ->; [|by rewrite (IH m)].
      apply not_true_iff_false. intros [s Hs]%starts_with_spec. apply not_true_iff_false in E. apply E.
      apply starts_with_spec. destruct (find_bytes_Some _ _ _ Em) as (b & a & -> & _).
      assert ((c :: b ++ needle ++ a) ++ r = needle ++ s) as Ha by (rewrite <- Hs; by list_simplifier).
      apply app_eq_inv in Ha as [(k & Hk & _)|(k & Hk & _)]; [by exists k|].
      apply (f_equal length) in Hk as Hlen. simpl in Hlen. rewrite !length_app in Hlen.
      assert (k = []) as -> by (destruct k; simpl in *; [done|lia]). exists []. by rewrite app_nil_r in *.
Qed.

Lemma split_once_None sep l : split_once sep l = None ↔ sep ∉ l.
Proof.
  induction l as [|c l IH]; simpl; [split; [intros _; apply not_elem_of_nil|done]|].
  rewrite not_elem_of_cons. case_decide as Hc; [split; [done|intros []; congruence]|].
  destruct (split_once sep l) as [[]|].
  - split; [done|]. intros [_ HN]. by apply IH in HN.
  - split; [|done]. intros _. split; [congruence|by apply IH].
Qed.

Lemma split_once_app sep before after : sep ∉ before → split_once sep (before ++ sep :: after) = Some (before, after).
Proof.
  induction before as [|c l IH]; simpl; [by rewrite decide_True|].
  rewrite not_elem_of_cons. intros [? ?]. rewrite decide_False by congruence. by rewrite IH.
Qed.

Lemma split_once_Some sep l before after : split_once sep l = Some (before, after) → l = before ++ sep :: after.
Proof.
  revert before. induction l as [|c l IH]; intros before; simpl; [done|]. case_decide as Hc.
  - intros [= <- <-]. by subst.
  - destruct (split_once sep l) as [[b a]|]; [|done]. intros [= <- <-]. by rewrite (IH b).
Qed.

Lemma split_first_id sep l : sep ∉ l → split_first sep l = l.
Proof. intros H%split_once_None. unfold split_first. by rewrite H. Qed.

(** ASCII text is valid UTF-8. *)
Lemma utf8_valid_ascii l : Forall (λ c, byte c < 128) l → utf8_valid l = true.
Proof. induction 1 as [|c l Hc _ IH]; [done|]. simpl. by rewrite (proj2 (N.ltb_lt _ _) Hc). Qed.

(** Trimming leaves a text alone that begins with an ASCII character that is not
    white space; likewise at the end. *)
Definition solid (c : ascii) : Prop := byte c < 128 ∧ white1 c = false.

Lemma trim_front_solid w2 w3 c l :
  (∀ b, w2 c b = false) → (∀ b d, w3 c b d = false) → white1 c = false → trim_front w2 w3 (c :: l) = c :: l.
Proof. intros H2 H3 H1. simpl. rewrite H1. destruct l as [|b [|d l]]; rewrite ?H2, ?H3; done. Qed.

Lemma small_not (x k : N) : x < 128 → 128 <= k → (x =? k) = false.
Proof. intros. apply N.eqb_neq. lia. Qed.

Lemma trim_start_solid c l : solid c → trim_start (c :: l) = c :: l.
Proof.
  intros [Hc Hw]. apply trim_front_solid; [| |done]; intros; unfold white2, white3;
    rewrite ?(small_not (byte c)) by (done || lia); done.
Qed.

Lemma trim_end_solid c l : solid c → trim_end (l ++ [c]) = l ++ [c].
Proof.
  intros [Hc Hw]. unfold trim_end. rewrite rev_app_distr. simpl rev at 2. change ([c] ++ rev l) with (c :: rev l).
  rewrite trim_front_solid; [by rewrite <- rev_unit, rev_involutive| | |done]; intros; unfold white2, white3, in_range;
    rewrite ?(small_not (byte c)), ?(proj2 (N.leb_gt _ (byte c))) by (done || lia); rewrite ?andb_false_r; done.
Qed.

Lemma trim_solid l : Forall solid l → trim l = l.
Proof.
  intros HF. unfold trim. destruct l as [|c l]; [done|].
  rewrite trim_start_solid by (by inversion HF). destruct (exists_last (l := c :: l)) as (k & d & E); [done|].
  rewrite E in *. apply trim_end_solid. apply Forall_app in HF as [_ HF]. by inversion HF.
Qed.

(** ** Numbers: printing and parsing *)

Lemma size_nat_bound n : n < 2 ^ N.of_nat (N.size_nat n).
Proof.
  destruct n as [|p]; [done|]. simpl N.size_nat.
  enough (Npos p < 2 ^ N.of_nat (Pos.size_nat p)) by done.
  induction p as [p IH|p IH|]; [| |by vm_compute]; simpl Pos.size_nat; rewrite Nat2N.inj_succ, N.pow_succ_r'; lia.
Qed.

Lemma digit_char_byte d : d < 36 → byte (digit_char d) = if d <? 10 then d + 48 else d + 87.
Proof. intros Hd. unfold digit_char. apply N_ascii_embedding. destruct (N.ltb_spec d 10); lia. Qed.

(** A claim about the sixteen digits, by evaluation. *)
Lemma digit_cases (P : N → Prop) d : Forall P [0; 1; 2; 3; 4; 5; 6; 7; 8; 9; 10; 11; 12; 13; 14; 15] → d < 16 → P d.
Proof.
  intros HF Hd. rewrite Forall_forall in HF. apply HF. rewrite !elem_of_cons.
  assert (d ∈ N.of_nat <$> seq 0 16) as Hin.
  { apply list_elem_of_fmap. exists (N.to_nat d). rewrite elem_of_seq. split; lia. }
  simpl in Hin. by rewrite !elem_of_cons in Hin.
Qed.

Lemma to_digit_digit_char radix d : d < radix → radix <= 16 → to_digit radix (digit_char d) = Some d.
Proof.
  intros Hd Hr. assert (to_digit 16 (digit_char d) = Some d) as H16.
  { apply (digit_cases (λ d, to_digit 16 (digit_char d) = Some d)); [|lia]. repeat constructor. }
  unfold to_digit in *. destruct (if is_ascii_digit (digit_char d) then _ else _) as [x|]; [|done].
  destruct (x <? 16); simplify_eq. by rewrite (proj2 (N.ltb_lt _ _) Hd).
Qed.

Definition is_digit_of (radix : N) (c : ascii) : Prop := ∃ d, d < radix ∧ c = digit_char d.

Lemma digit_solid radix c : radix <= 16 → is_digit_of radix c → solid c ∧ is_ascii_alphanumeric c = true ∧ c ≠ "+"%char.
Proof.
  intros Hr (d & Hd & ->). apply (digit_cases (λ d, solid (digit_char d) ∧ is_ascii_alphanumeric (digit_char d) = true ∧
    digit_char d ≠ "+"%char)); [|lia]. repeat constructor; done.
Qed.

Section format.
Context (radix : N) (Hr2 : 2 <= radix) (Hr16 : radix <= 16).

Lemma digits_onto_digits fuel n tail :
  Forall (is_digit_of radix) tail → Forall (is_digit_of radix) (digits_onto radix fuel n tail).
Proof.
  revert n tail. induction fuel as [|fuel IH]; intros n tail Ht; simpl; [done|].
  assert (Forall (is_digit_of radix) (digit_char (n mod radix) :: tail)) as Ht'.
  { constructor; [|done]. exists (n mod radix). split; [apply N.mod_lt; lia|done]. }
  destruct (n <? radix); auto.
Qed.

Lemma digits_onto_length fuel n tail :
  (fuel ≠ 0 → length tail < length (digits_onto radix fuel n tail))%nat ∧
  (length (digits_onto radix fuel n tail) <= fuel + length tail)%nat.
Proof.
  revert n tail. induction fuel as [|fuel IH]; intros n tail; simpl; [lia|].
  destruct (n <? radix); simpl; [lia|]. destruct (IH (n / radix) (digit_char (n mod radix) :: tail)) as [H1 H2].
  simpl in *. split; [|lia]. intros _. destruct fuel; [simpl; lia|]. specialize (H1 ltac:(lia)). lia.
Qed.

Lemma digits_onto_parse max fuel n tail :
  n < radix ^ N.of_nat fuel → fuel ≠ 0%nat → n <= max →
  parse_digits radix max 0 (digits_onto radix fuel n tail) = parse_digits radix max n tail.
Proof.
  revert n tail. induction fuel as [|fuel IH]; intros n tail Hn Hf Hm; [done|]. simpl digits_onto.
  pose proof (N.div_mod n radix ltac:(lia)) as Hdm. pose proof (N.mod_lt n radix ltac:(lia)) as Hml.
  assert (∀ q, q * radix + n mod radix = n →
    parse_digits radix max q (digit_char (n mod radix) :: tail) = parse_digits radix max n tail) as Hstep.
  { intros q Hq. simpl. rewrite to_digit_digit_char by lia. unfold checked_mul, checked_add.
    rewrite (proj2 (N.leb_le (q * radix) max)); [by rewrite Hq, (proj2 (N.leb_le n max))|].
    rewrite <- Hq in Hm. etrans; [|exact Hm]. apply N.le_add_r. }
  destruct (N.ltb_spec n radix) as [Hlt|Hge].
  - apply Hstep. rewrite N.mod_small by done. lia.
  - rewrite Nat2N.inj_succ, N.pow_succ_r' in Hn. rewrite IH.
    + apply Hstep. lia.
    + apply N.Div0.div_lt_upper_bound. done.
    + intros ->. simpl in Hn. lia.
    + pose proof (N.Div0.div_le_upper_bound n radix n ltac:(nia)). lia.
Qed.

Lemma format_radix_digits n : Forall (is_digit_of radix) (format_radix radix n).
Proof. apply digits_onto_digits. constructor. Qed.

Lemma format_radix_length n : (0 < length (format_radix radix n) <= S (N.size_nat n))%nat.
Proof. unfold format_radix. destruct (digits_onto_length (S (N.size_nat n)) n []) as [H1 H2]. simpl length in *. lia. Qed.

(** Printing and parsing a number is the identity. *)
Lemma from_str_radix_format max n : n <= max → from_str_radix radix max (format_radix radix n) = Some n.
Proof.
  intros Hm. pose proof (format_radix_digits n) as Hd. pose proof (format_radix_length n) as Hlen.
  assert (parse_digits radix max 0 (format_radix radix n) = Some n) as Hp.
  { unfold format_radix. rewrite digits_onto_parse; try done.
    pose proof (size_nat_bound n). rewrite Nat2N.inj_succ, N.pow_succ_r'.
    pose proof (N.pow_le_mono_l 2 radix (N.of_nat (N.size_nat n)) Hr2). nia. }
  unfold from_str_radix. destruct (format_radix radix n) as [|c l]; [simpl in Hlen; lia|].
  assert (c ≠ "+"%char) as Hc by (apply (digit_solid radix); [done|by inversion Hd]).
  rewrite decide_False by done. done.
Qed.

End format.

Lemma parse_zeros max k l : parse_digits 10 max 0 (replicate k "0"%char ++ l) = parse_digits 10 max 0 l.
Proof. induction k as [|k IH]; simpl; [done|]. unfold checked_mul, checked_add. simpl. by destruct max. Qed.

Lemma digits_onto_short radix fuel n tail k :
  2 <= radix → n < radix ^ N.of_nat k → k ≠ 0%nat → (length (digits_onto radix fuel n tail) <= k + length tail)%nat.
Proof.
  intros Hr. revert n tail k. induction fuel as [|fuel IH]; intros n tail k Hn Hk; simpl; [lia|].
  destruct (N.ltb_spec n radix) as [Hlt|Hge]; simpl; [lia|]. destruct k as [|[|k]]; [done| |].
  - change (N.of_nat 1) with 1 in Hn. rewrite N.pow_1_r in Hn. lia.
  - rewrite Nat2N.inj_succ, N.pow_succ_r' in Hn.
    specialize (IH (n / radix) (digit_char (n mod radix) :: tail) (S k)). simpl length in IH.
    etrans; [apply IH; [|done]|lia]. apply N.Div0.div_lt_upper_bound. done.
Qed.

Lemma to_string_parse max n : n <= max → parse_digits 10 max 0 (to_string n) = Some n.
Proof.
  intros Hn. pose proof (from_str_radix_format 10 ltac:(done) ltac:(done) max n Hn) as H.
  pose proof (format_radix_digits 10 ltac:(done) ltac:(done) n) as Hd. unfold to_string. unfold from_str_radix in H.
  destruct (format_radix 10 n) as [|c l] eqn:E; [done|]. rewrite decide_False in H; [done|].
  apply (digit_solid 10); [done|by inversion Hd].
Qed.

Lemma pad_left_length k n : n < 10 ^ N.of_nat k → k ≠ 0%nat → length (pad_left k (to_string n)) = k.
Proof.
  intros Hn Hk. pose proof (digits_onto_short 10 (S (N.size_nat n)) n [] k ltac:(done) Hn Hk) as Hl.
  change (length (@nil ascii)) with 0%nat in Hl. unfold pad_left, to_string, format_radix.
  rewrite length_app, length_replicate. lia.
Qed.

Lemma pad_left_parse max k n : n <= max → parse_digits 10 max 0 (pad_left k (to_string n)) = Some n.
Proof. intros Hn. unfold pad_left. by rewrite parse_zeros, to_string_parse. Qed.

(** A line without a carriage return ends at the first CRLF. *)
Lemma find_crlf line rest : CR ∉ line → find_bytes CRLF (line ++ CRLF ++ rest) = Some (length line).
Proof.
  induction line as [|c l IH]; [done|]. rewrite not_elem_of_cons. intros [Hc Hl].
  assert (starts_with CRLF ((c :: l) ++ CRLF ++ rest) = false) as E.
  { unfold starts_with, CRLF. simpl. by rewrite decide_False by congruence. }
  cbn [find_bytes app length]. change (c :: l ++ CRLF ++ rest) with ((c :: l) ++ CRLF ++ rest).
  rewrite E. simpl in IH. simpl. by rewrite IH.
Qed.
