(* ===== verification/Domain.v ===== *)
(** The value objects of [crates/gateway-domain] that the scheduler works on:
    typed identifiers, portability, client systems and the credential-neutral
    request of one admission. *)

From S2P Require Import Prelude Machine.
Local Open Scope N_scope.

(** ** Domain errors ([error.rs]) *)
Inductive DomainError :=
  | InvalidIdentifier
  | InvalidStateTransition
  | StaleGeneration
  | InvalidValue
  | AccountMismatch
  | TerminalState.

#[export] Instance DomainError_eq_dec : EqDecision DomainError.
Proof. solve_decision. Defined.

Abbreviation DomainResult := (result DomainError).

(** ** Typed identifiers ([ids.rs]) *)
Inductive IdTag :=
  | RequestTag | UserTag | GroupTag | PlatformKeyTag | CredentialTag | SessionTag | AgentTag
  | EgressBindingTag | TicketTag | LeaseTag | EnrollmentTag | CredentialProfileTag
  | DeviceIdentityTag | ProxyEndpointTag | ArchetypeVersionTag | MaintenanceOperationTag
  | AuthVersionTag | AutoReauthStrategyTag | BrowserMaterialVersionTag | SecretTag
  | TransportBundleTag | ConnectionAttemptTag | AttemptPlanTag.

Definition MAX_ID_BYTES : nat := 128.

Record TypedId (tag : IdTag) : Type := MkTypedId { id_value : string }.
Arguments MkTypedId {tag} id_value.
Arguments id_value {tag} _.

Fixpoint is_ascii (value : string) : bool :=
  match value with
  | EmptyString => true
  | String c rest => (Ascii.N_of_ascii c <? 128) && is_ascii rest
  end.

Definition TypedId_new (tag : IdTag) (value : string) : DomainResult (TypedId tag) :=
  if (String.length value =? 0)%nat || (MAX_ID_BYTES <? String.length value)%nat || negb (is_ascii value)
  then Err InvalidIdentifier
  else Ok (MkTypedId value).

Definition TypedId_as_str {tag} (self : TypedId tag) : string := id_value self.

Abbreviation RequestId := (TypedId RequestTag).
Abbreviation UserId := (TypedId UserTag).
Abbreviation GroupId := (TypedId GroupTag).
Abbreviation PlatformKeyId := (TypedId PlatformKeyTag).
Abbreviation CredentialId := (TypedId CredentialTag).
Abbreviation SessionId := (TypedId SessionTag).
Abbreviation AgentId := (TypedId AgentTag).
Abbreviation EgressBindingId := (TypedId EgressBindingTag).
Abbreviation TicketId := (TypedId TicketTag).
Abbreviation LeaseId := (TypedId LeaseTag).
Abbreviation EnrollmentId := (TypedId EnrollmentTag).
Abbreviation CredentialProfileId := (TypedId CredentialProfileTag).
Abbreviation DeviceIdentityId := (TypedId DeviceIdentityTag).
Abbreviation ProxyEndpointId := (TypedId ProxyEndpointTag).
Abbreviation ArchetypeVersionId := (TypedId ArchetypeVersionTag).
Abbreviation MaintenanceOperationId := (TypedId MaintenanceOperationTag).
Abbreviation SecretId := (TypedId SecretTag).
Abbreviation TransportBundleId := (TypedId TransportBundleTag).
Abbreviation ConnectionAttemptId := (TypedId ConnectionAttemptTag).
Abbreviation AttemptPlanId := (TypedId AttemptPlanTag).

#[export] Instance TypedId_eq_dec tag : EqDecision (TypedId tag).
Proof. solve_decision. Defined.

#[export] Instance TypedId_countable tag : Countable (TypedId tag).
Proof. refine (inj_countable' id_value MkTypedId _). by intros [value]. Defined.

#[export] Instance id_value_inj tag : Inj (=) (=) (@id_value tag).
Proof. by intros [x] [y]; simpl; intros ->. Qed.

#[export] Instance TypedId_key_order tag : KeyOrder (TypedId tag) := pull_key_order id_value _.

(** ** Request artifacts ([request.rs]) *)
Abbreviation Digest := string (only parsing).

Inductive ClientOs := Windows | MacOs | Linux.

#[export] Instance ClientOs_eq_dec : EqDecision ClientOs.
Proof. solve_decision. Defined.

#[export] Instance ClientOs_countable : Countable ClientOs.
Proof.
  refine (inj_countable' (λ os, match os with Windows => 0 | MacOs => 1 | Linux => 2 end)
    (λ n, match n with 0 => Windows | 1 => MacOs | _ => Linux end) _).
  by intros [].
Defined.

Definition SnapshotVersion := string.

#[export] Instance SnapshotVersion_eq_dec : EqDecision SnapshotVersion := String.eq_dec.

Record RequestSnapshotSet := {
  rss_access_policy : SnapshotVersion;
  rss_group_config : SnapshotVersion;
  rss_enforcement : SnapshotVersion;
  rss_ruleset : option SnapshotVersion;
  rss_capability : SnapshotVersion;
  rss_client_profile_catalog : SnapshotVersion;
  rss_price : SnapshotVersion;
  rss_serializer : SnapshotVersion;
}.

Inductive PinReason := Continuation | AccountResource | CredentialExtension | UnknownExtension.

#[export] Instance PinReason_eq_dec : EqDecision PinReason.
Proof. solve_decision. Defined.

Inductive Portability :=
  | Portable
  | Pinned (credential_id : option CredentialId) (reasons : list PinReason).

#[export] Instance Portability_eq_dec : EqDecision Portability.
Proof. solve_decision. Defined.

(** [matches!(portability, Portability::Portable)]. *)
Definition is_portable (p : Portability) : bool :=
  match p with Portable => true | Pinned _ _ => false end.

(** The request frozen across queueing and retries. The replay body and the
    audit trail of policy changes are carried unread by the scheduler and are
    left out. *)
Record GenericAdjustedRequest := {
  gar_body_digest : Digest;
  gar_model_id : string;
  gar_stream : bool;
  gar_portability : Portability;
  gar_attribution_suppressed : bool;
  gar_system_template_pending : bool;
  gar_snapshot_set : RequestSnapshotSet;
}.

Lemma TypedId_new_ok tag value id : TypedId_new tag value = Ok id → id_value id = value.
Proof. unfold TypedId_new. destr_match; [done|]. by intros [= <-]. Qed.
