(* ===== verification/TokenBucket.v ===== *)
(** The deterministic integer token bucket of
    [crates/gateway-scheduler/src/token_bucket.rs], with its [u128] arithmetic,
    and the theorems that bound and time its admissions. *)

From S2P Require Import Prelude Machine.
Local Open Scope N_scope.

Definition SCALE : N := 1000000.

Definition NANOS_PER_MINUTE : N := 60000000000.

Record BucketConfig := {
  requests_per_minute : N;
  burst : N;
}.

#[export] Instance BucketConfig_eq_dec : EqDecision BucketConfig.
Proof. solve_decision. Defined.

Definition CREDENTIAL_DEFAULT : BucketConfig := {| requests_per_minute := 60; burst := 10 |}.

Record TokenBucket := {
  tb_config : BucketConfig;
  tb_available : N;
  tb_remainder : N;
  tb_last_refill : Duration;
}.

#[export] Instance TokenBucket_eq_dec : EqDecision TokenBucket.
Proof. solve_decision. Defined.

Definition bucket_full (config : BucketConfig) (now : Duration) : TokenBucket :=
  {| tb_config := config;
     tb_available := config.(burst) * SCALE;
     tb_remainder := 0;
     tb_last_refill := now |}.

(** The release build's [u128] sum and products wrap at 2^128. *)
Definition refill (self : TokenBucket) (now : Duration) : TokenBucket :=
  let elapsed := dur_sub now self.(tb_last_refill) in
  if elapsed =? 0 then self
  else
    let numerator :=
      wrapping_add U128_MAX
        (wrapping_mul U128_MAX
           (wrapping_mul U128_MAX elapsed self.(tb_config).(requests_per_minute)) SCALE)
        self.(tb_remainder) in
    let added := numerator / NANOS_PER_MINUTE in
    {| tb_config := self.(tb_config);
       tb_available := N.min (wrapping_add U128_MAX self.(tb_available) added)
                             (self.(tb_config).(burst) * SCALE);
       tb_remainder := numerator mod NANOS_PER_MINUTE;
       tb_last_refill := now |}.

Definition with_available (self : TokenBucket) (available : N) : TokenBucket :=
  {| tb_config := self.(tb_config);
     tb_available := available;
     tb_remainder := self.(tb_remainder);
     tb_last_refill := self.(tb_last_refill) |}.

Definition try_consume (self : TokenBucket) (now : Duration) : bool * TokenBucket :=
  let self := refill self now in
  if self.(tb_available) <? SCALE then (false, self)
  else (true, with_available self (self.(tb_available) - SCALE)).

Definition retry_after (self : TokenBucket) (now : Duration) : Duration * TokenBucket :=
  let self := refill self now in
  if SCALE <=? self.(tb_available) then (0, self)
  else if self.(tb_config).(requests_per_minute) =? 0 then (from_mins 1, self)
  else
    let missing := SCALE - self.(tb_available) in
    let numerator := missing * NANOS_PER_MINUTE in
    let denominator := self.(tb_config).(requests_per_minute) * SCALE in
    let nanos := N.max (div_ceil numerator denominator) 1 in
    (from_nanos (N.min nanos U64_MAX), self).

Definition available_tokens (self : TokenBucket) (now : Duration) : N * TokenBucket :=
  let self := refill self now in
  (N.min (self.(tb_available) / SCALE) U32_MAX, self).

Definition try_consume_preview (self : TokenBucket) (now : Duration) : bool * TokenBucket :=
  let self := refill self now in (SCALE <=? self.(tb_available), self).

Definition bucket_reconfigure (self : TokenBucket) (config : BucketConfig) (now : Duration) : TokenBucket :=
  let self := refill self now in
  {| tb_config := config;
     tb_available := N.min self.(tb_available) (config.(burst) * SCALE);
     tb_remainder := 0;
     tb_last_refill := self.(tb_last_refill) |}.

(** ** Well-formedness and the accounting identity *)

(** The invariant of every bucket the scheduler holds. *)
Record bucket_wf (b : TokenBucket) : Prop := {
  wf_rpm : b.(tb_config).(requests_per_minute) <= U32_MAX;
  wf_burst : b.(tb_config).(burst) <= U32_MAX;
  wf_available : b.(tb_available) <= b.(tb_config).(burst) * SCALE;
  wf_remainder : b.(tb_remainder) < NANOS_PER_MINUTE;
}.

(** Micro-token nanoseconds held by a bucket: the exact, drift-free balance. *)
Definition credit (b : TokenBucket) : N := b.(tb_available) * NANOS_PER_MINUTE + b.(tb_remainder).

(** The cost of one request in the same unit. *)
Definition TOKEN_CREDIT : N := SCALE * NANOS_PER_MINUTE.

(** What [elapsed] nanoseconds add before clamping. *)
Definition accrual (b : TokenBucket) (elapsed : Duration) : N :=
  elapsed * b.(tb_config).(requests_per_minute) * SCALE.

(** Run [try_consume] at each of a list of instants and count the successes. *)
Fixpoint consume_all (b : TokenBucket) (times : list Duration) : N * TokenBucket :=
  match times with
  | [] => (0, b)
  | now :: rest =>
      let '(admitted, b') := try_consume b now in
      let '(count, b'') := consume_all b' rest in
      ((if admitted then 1 else 0) + count, b'')
  end.

Ltac unfold_bounds := unfold TOKEN_CREDIT, SCALE, NANOS_PER_MINUTE in *; widths.

Lemma refill_noop b now : now <= b.(tb_last_refill) → refill b now = b.
Proof. intros. unfold refill, dur_sub, saturating_sub. rewrite (proj2 (N.eqb_eq _ _)); [done|lia]. Qed.

Lemma refill_config b now : (refill b now).(tb_config) = b.(tb_config).
Proof. unfold refill. by destr_match. Qed.

Lemma refill_last b now : (refill b now).(tb_last_refill) = N.max b.(tb_last_refill) now.
Proof.
  unfold refill, dur_sub, saturating_sub. destr_match; bool_prop; simpl; lia.
Qed.

Lemma refill_idem b now : refill (refill b now) now = refill b now.
Proof. apply refill_noop. rewrite refill_last. lia. Qed.

(** No product of [refill] wraps while the process clock fits 64 bits of
    nanoseconds (584 years). *)
Lemma refill_exact b now :
  bucket_wf b → now <= U64_MAX → b.(tb_last_refill) < now →
  refill b now =
    {| tb_config := b.(tb_config);
       tb_available := N.min (b.(tb_available) + (accrual b (now - b.(tb_last_refill)) + b.(tb_remainder)) / NANOS_PER_MINUTE)
                             (b.(tb_config).(burst) * SCALE);
       tb_remainder := (accrual b (now - b.(tb_last_refill)) + b.(tb_remainder)) mod NANOS_PER_MINUTE;
       tb_last_refill := now |}.
Proof.
  intros [W1 W2 W3 W4] Hn Hl. unfold refill, dur_sub, saturating_sub, accrual.
  destruct (N.eqb_spec (now - b.(tb_last_refill)) 0); [lia|].
  set (el := now - b.(tb_last_refill)). assert (el <= U64_MAX) by (subst el; lia).
  set (rpm := requests_per_minute (tb_config b)) in *.
  assert (el * rpm <= U64_MAX * U32_MAX) by nia.
  unfold_bounds.
  rewrite (wrapping_mul_small _ el rpm) by lia.
  rewrite (wrapping_mul_small _ (el * rpm)) by lia.
  rewrite (wrapping_add_small _ (el * rpm * 1000000)) by lia.
  rewrite wrapping_add_small; [done|].
  assert ((el * rpm * 1000000 + tb_remainder b) / 60000000000 <= el * rpm * 1000000 + tb_remainder b)
    by (apply N.Div0.div_le_upper_bound; lia).
  lia.
Qed.

Lemma refill_wf b now : bucket_wf b → now <= U64_MAX → bucket_wf (refill b now).
Proof.
  intros W Hn. destruct (N.le_gt_cases now b.(tb_last_refill)).
  - by rewrite refill_noop.
  - rewrite refill_exact by done. destruct W. split; simpl; [done|done|lia|].
    apply N.mod_lt. unfold_bounds. lia.
Qed.

(** The balance after a refill: exact below the burst, never more than what
    accrued. *)
Lemma refill_credit b now :
  bucket_wf b → now <= U64_MAX →
  credit (refill b now) <= credit b + accrual b (now - b.(tb_last_refill)) ∧
  (credit b + accrual b (now - b.(tb_last_refill)) < b.(tb_config).(burst) * TOKEN_CREDIT + NANOS_PER_MINUTE →
   credit (refill b now) = credit b + accrual b (now - b.(tb_last_refill))) ∧
  (b.(tb_config).(burst) * TOKEN_CREDIT <= credit b + accrual b (now - b.(tb_last_refill)) →
   (refill b now).(tb_available) = b.(tb_config).(burst) * SCALE).
Proof.
  intros W Hn. destruct (N.le_gt_cases now b.(tb_last_refill)) as [Hle|Hlt].
  - rewrite refill_noop by done. unfold accrual.
    replace (now - tb_last_refill b) with 0 by lia. rewrite !N.mul_0_l, N.add_0_r.
    split; [done|]. split; [done|]. destruct W as [_ _ W3 W4]. unfold credit. unfold_bounds. nia.
  - rewrite refill_exact by done. unfold credit; simpl.
    set (x := accrual b (now - tb_last_refill b)).
    pose proof (N.div_mod (x + tb_remainder b) NANOS_PER_MINUTE ltac:(done)) as E.
    pose proof (N.mod_lt (x + tb_remainder b) NANOS_PER_MINUTE ltac:(done)) as L.
    generalize dependent ((x + tb_remainder b) / NANOS_PER_MINUTE). intros q E.
    generalize dependent ((x + tb_remainder b) mod NANOS_PER_MINUTE). intros r L E.
    destruct W as [_ _ W3 W4]. generalize dependent (burst (tb_config b)). intros B W3.
    unfold_bounds. split_and!; intros; nia.
Qed.

Lemma accrual_config b b' n : b'.(tb_config) = b.(tb_config) → accrual b' n = accrual b n.
Proof. unfold accrual. by intros ->. Qed.

Lemma try_consume_config b now : (try_consume b now).2.(tb_config) = b.(tb_config).
Proof. unfold try_consume. destr_match; simpl; apply refill_config. Qed.

Lemma try_consume_last b now : (try_consume b now).2.(tb_last_refill) = N.max b.(tb_last_refill) now.
Proof. unfold try_consume. destr_match; simpl; apply refill_last. Qed.

Lemma try_consume_wf b now : bucket_wf b → now <= U64_MAX → bucket_wf (try_consume b now).2.
Proof.
  intros W Hn. pose proof (refill_wf b now W Hn) as [W1 W2 W3 W4].
  unfold try_consume. destr_match; simpl; split; simpl; try done. lia.
Qed.

(** One call spends exactly the credit of one request when it succeeds. *)
Lemma try_consume_credit b now :
  (if (try_consume b now).1 then TOKEN_CREDIT else 0) + credit (try_consume b now).2 = credit (refill b now).
Proof.
  unfold try_consume. destruct (N.ltb_spec (tb_available (refill b now)) SCALE); simpl; [lia|].
  unfold credit; simpl. unfold_bounds. nia.
Qed.

Lemma try_consume_succeeds b now :
  (try_consume b now).1 = true ↔ SCALE <= (refill b now).(tb_available).
Proof.
  unfold try_consume.
  destruct (N.ltb_spec (tb_available (refill b now)) SCALE); simpl; split; intros; done || lia.
Qed.

(** In a well-formed bucket a request is admitted exactly when the balance,
    remainder included, covers one token. *)
Lemma try_consume_succeeds_credit b now :
  bucket_wf b → now <= U64_MAX → 0 < b.(tb_config).(burst) →
  (try_consume b now).1 = true ↔ TOKEN_CREDIT <= credit b + accrual b (now - b.(tb_last_refill)).
Proof.
  intros W Hn HB. rewrite try_consume_succeeds.
  pose proof (refill_credit b now W Hn) as (Hle & Hex & Hcl).
  pose proof (wf_remainder _ (refill_wf b now W Hn)) as HR.
  pose proof (wf_available _ (refill_wf b now W Hn)) as HA. rewrite refill_config in HA.
  set (c := credit b + accrual b (now - tb_last_refill b)) in *. clearbody c.
  unfold credit in *. set (B := burst (tb_config b)) in *. clearbody B.
  set (a := tb_available (refill b now)) in *. clearbody a.
  set (r := tb_remainder (refill b now)) in *. clearbody r.
  unfold_bounds. split; intros.
  - nia.
  - destruct (N.le_gt_cases (B * (1000000 * 60000000000)) c) as [Hc|Hc].
    + rewrite (Hcl Hc). nia.
    + specialize (Hex ltac:(lia)). nia.
Qed.

(** ** Properties *)

(** C9: over any sequence of admission attempts made up to instant [t1], a
    bucket admits no more requests than its balance at the start plus what its
    configured rate accrues until [t1]: burst and rate are a hard bound whatever
    the order and spacing of the attempts. *)
Theorem consume_all_bounded b times t1 :
  bucket_wf b → t1 <= U64_MAX → b.(tb_last_refill) <= t1 → Forall (λ t, t <= t1) times →
  (consume_all b times).1 * TOKEN_CREDIT <= credit b + accrual b (t1 - b.(tb_last_refill)).
Proof.
  revert b. induction times as [|now rest IH]; intros b W Ht Hl HF; simpl.
  - unfold credit. lia.
  - inv HF. pose proof (try_consume_credit b now) as HC.
    pose proof (try_consume_wf b now W ltac:(lia)) as W'.
    pose proof (try_consume_config b now) as Hcfg. pose proof (try_consume_last b now) as Hlast.
    destruct (try_consume b now) as [ok b'] eqn:E. simpl in *.
    specialize (IH b' W' Ht ltac:(lia) ltac:(done)).
    rewrite (accrual_config b b') in IH by done.
    destruct (consume_all b' rest) as [n b''] eqn:E'. simpl in *.
    pose proof (refill_credit b now W ltac:(lia)) as [HR _].
    assert (accrual b (t1 - tb_last_refill b) =
            accrual b (now - tb_last_refill b) + accrual b (t1 - tb_last_refill b')) as Hsplit.
    { unfold accrual. rewrite Hlast. rewrite <- !N.mul_assoc, <- N.mul_add_distr_r. f_equal. lia. }
    destruct ok; lia.
Qed.

Lemma consume_all_bounded_witness :
  let b := bucket_full {| requests_per_minute := 2; burst := 2 |} 0 in
  let times := [0; 0; 0; from_secs 30; from_secs 31] in
  bucket_wf b ∧ (consume_all b times).1 = 3 ∧
  (consume_all b times).1 * TOKEN_CREDIT <= credit b + accrual b (from_secs 31 - b.(tb_last_refill)).
Proof.
  split; [by split|]. split; [reflexivity|].
  apply consume_all_bounded; [by split|by compute|by compute|by repeat constructor].
Defined.

(** [retry_after] is sound and exact. After waiting the returned time a
    request is admitted; the wait is at most one minute; and when the bucket
    carries no fractional remainder no shorter wait is enough. *)
Theorem retry_after_exact b now :
  bucket_wf b → 0 < b.(tb_config).(requests_per_minute) → 0 < b.(tb_config).(burst) →
  b.(tb_last_refill) <= now → now + from_mins 1 <= U64_MAX →
  let '(wait, b') := retry_after b now in
  wait <= from_mins 1 ∧ (try_consume b' (now + wait)).1 = true ∧
  (b'.(tb_remainder) = 0 → ∀ d, d < wait → (try_consume b' (now + d)).1 = false).
Proof.
  intros W HR HB Hl Hn.
  assert (from_mins 1 = 60000000000) as Hmin by reflexivity.
  pose proof (refill_wf b now W ltac:(lia)) as W'.
  pose proof (refill_config b now) as Hcfg. pose proof (refill_last b now) as Hlast.
  unfold retry_after. generalize dependent (refill b now). intros b' W' Hcfg Hlast.
  assert (tb_last_refill b' = now) as Hnow by lia.
  assert (∀ d, d <= from_mins 1 →
    (try_consume b' (now + d)).1 = true ↔ TOKEN_CREDIT <= credit b' + accrual b' d) as Hsucc.
  { intros d Hd. rewrite try_consume_succeeds_credit by (rewrite ?Hcfg; lia || done).
    by replace (now + d - tb_last_refill b') with d by lia. }
  unfold credit, accrual in Hsucc. rewrite Hcfg in *.
  destruct (N.leb_spec SCALE (tb_available b')) as [Ha|Ha].
  { split; [lia|]. split; [|intros; lia]. apply Hsucc; [lia|]. unfold_bounds. nia. }
  rewrite (proj2 (N.eqb_neq _ 0)) by lia.
  set (rpm := requests_per_minute (tb_config b)) in *.
  pose proof (div_ceil_spec ((SCALE - tb_available b') * NANOS_PER_MINUTE) (rpm * SCALE)
    ltac:(unfold_bounds; lia)) as [Hc1 Hc2].
  set (w := div_ceil _ _) in *.
  assert (1 <= w) by (unfold_bounds; nia).
  assert (w <= from_mins 1) by (unfold_bounds; nia).
  unfold from_nanos. replace (N.min (N.max w 1) U64_MAX) with w by (unfold_bounds; lia).
  split; [done|]. split.
  - apply Hsucc; [done|]. unfold_bounds. nia.
  - intros Hr d Hd. apply not_true_iff_false. rewrite Hsucc by lia. rewrite Hr.
    apply N.lt_nge. assert (d * (rpm * SCALE) + rpm * SCALE <= w * (rpm * SCALE)) by nia.
    unfold_bounds. nia.
Qed.

Lemma retry_after_exact_witness :
  let b := (try_consume (bucket_full {| requests_per_minute := 60; burst := 1 |} 0) 0).2 in
  retry_after b 0 = (from_secs 1, b) ∧ (try_consume b (0 + from_secs 1)).1 = true.
Proof.
  split; [reflexivity|].
  pose proof (retry_after_exact (try_consume (bucket_full {| requests_per_minute := 60; burst := 1 |} 0) 0).2 0
    ltac:(by split) ltac:(by compute) ltac:(by compute) ltac:(by compute) ltac:(by compute)) as H.
  exact (proj1 (proj2 H)).
Defined.

(** refilling loses nothing to rounding. Observing a bucket at an
    intermediate instant at which it is not yet full leaves it, later, in exactly
    the state it would have had without the observation. *)
Theorem refill_no_drift b t1 t2 :
  bucket_wf b → t1 <= t2 → t2 <= U64_MAX →
  credit b + accrual b (t1 - b.(tb_last_refill)) < b.(tb_config).(burst) * TOKEN_CREDIT + NANOS_PER_MINUTE →
  b.(tb_last_refill) < t2 →
  refill (refill b t1) t2 = refill b t2.
Proof.
  intros W H12 H2 Hc Hl.
  destruct (N.le_gt_cases t1 b.(tb_last_refill)) as [Hle|Hgt]; [by rewrite (refill_noop b t1)|].
  pose proof (refill_wf b t1 W ltac:(lia)) as W1.
  pose proof (refill_credit b t1 W ltac:(lia)) as (_ & Hex & _). specialize (Hex Hc).
  pose proof (refill_config b t1) as Hcfg. pose proof (refill_last b t1) as Hlast.
  destruct (N.eq_dec t1 t2) as [->|Hne]; [by rewrite refill_idem|].
  rewrite (refill_exact b t2) by (done || lia).
  generalize dependent (refill b t1). intros b1 W1 Hex Hcfg Hlast.
  rewrite (refill_exact b1 t2) by (done || lia).
  rewrite (accrual_config b b1) by done. rewrite Hcfg.
  replace (tb_last_refill b1) with t1 by lia.
  assert (accrual b (t2 - tb_last_refill b) = accrual b (t1 - tb_last_refill b) + accrual b (t2 - t1)) as Hs.
  { unfold accrual. rewrite <- !N.mul_assoc, <- N.mul_add_distr_r. f_equal. lia. }
  rewrite Hs. set (y := accrual b (t2 - t1)) in *. clearbody y.
  set (x := accrual b (t1 - tb_last_refill b)) in *. clearbody x.
  unfold credit in Hex.
  assert (tb_available b1 * NANOS_PER_MINUTE + (y + tb_remainder b1)
    = tb_available b * NANOS_PER_MINUTE + (x + y + tb_remainder b)) as Hsum by lia.
  assert ((y + tb_remainder b1) mod NANOS_PER_MINUTE = (x + y + tb_remainder b) mod NANOS_PER_MINUTE) as ->.
  { rewrite <- (N.Div0.mod_add (y + tb_remainder b1) (tb_available b1) NANOS_PER_MINUTE).
    rewrite <- (N.Div0.mod_add (x + y + tb_remainder b) (tb_available b) NANOS_PER_MINUTE).
    f_equal. lia. }
  assert (tb_available b1 + (y + tb_remainder b1) / NANOS_PER_MINUTE =
    tb_available b + (x + y + tb_remainder b) / NANOS_PER_MINUTE) as ->; [|done].
  rewrite <- (N.div_add_l (tb_available b1) NANOS_PER_MINUTE) by done.
  rewrite <- (N.div_add_l (tb_available b) NANOS_PER_MINUTE) by done.
  by rewrite Hsum.
Qed.

Lemma refill_no_drift_witness :
  let b := (try_consume (bucket_full {| requests_per_minute := 60; burst := 1 |} 0) 0).2 in
  refill (refill b 500000) 1000000 = refill b 1000000.
Proof.
  apply (refill_no_drift (try_consume (bucket_full {| requests_per_minute := 60; burst := 1 |} 0) 0).2 500000 1000000);
    [by split|by compute|by compute|by compute|by compute].
Defined.

(** The documentation of [retry_after] says the wait is rounded up to one
    millisecond; the code rounds up to one nanosecond: here it answers 1000 ns. *)
Lemma retry_after_rounds_to_nanoseconds :
  (retry_after (try_consume (bucket_full {| requests_per_minute := 60000000; burst := 1 |} 0) 0).2 0).1 = 1000.
Proof. reflexivity. Qed.
