(* ===== verification/Retry.v ===== *)
(** The replay-safe retry decision of [crates/gateway-scheduler/src/retry.rs]:
    [decide_retry], the three-attempt connection budget, and the specification of
    when which strategy is permitted. *)

From S2P Require Import Prelude Machine Domain.
Local Open Scope N_scope.

Inductive RetryErrorClass :=
  | Authentication401
  | RateLimited429
  | Overloaded529
  | Upstream5xx
  | NetworkBeforeCommit
  | FinalClient4xx
  | OtherError.

#[export] Instance RetryErrorClass_eq_dec : EqDecision RetryErrorClass.
Proof. solve_decision. Defined.

Inductive RetryStrategy :=
  | RefreshSameCredential
  | SwitchCredential
  | SameCredential.

#[export] Instance RetryStrategy_eq_dec : EqDecision RetryStrategy.
Proof. solve_decision. Defined.

Record RetryContext := {
  rx_error : RetryErrorClass;
  rx_portability : Portability;
  rx_response_committed : bool;
  rx_body_replayable : bool;
  rx_messages_attempts : N;
  rx_refresh_already_attempted : bool;
  rx_same_credential_available : bool;
  rx_alternate_credential_available : bool;
  rx_remaining_deadline : Duration;
  rx_min_retry_budget : Duration;
  rx_proposed_backoff : Duration;
}.

Record RetryDecision := {
  rd_allowed : bool;
  rd_strategy : option RetryStrategy;
  rd_backoff : Duration;
  rd_remaining_attempts : N;
  rd_reason : string;
}.

Record ConnectionAttemptBudget := { cab_attempts : N }.

Definition budget_default : ConnectionAttemptBudget := {| cab_attempts := 0 |}.

Definition budget_begin (self : ConnectionAttemptBudget) : bool * ConnectionAttemptBudget :=
  if 3 <=? self.(cab_attempts) then (false, self)
  else (true, {| cab_attempts := self.(cab_attempts) + 1 |}).

Definition denied (remaining_attempts : N) (reason : string) : RetryDecision :=
  {| rd_allowed := false; rd_strategy := None; rd_backoff := 0;
     rd_remaining_attempts := remaining_attempts; rd_reason := reason |}.

(** The arms of the [match context.error] in source order. *)
Definition retry_strategy (context : RetryContext) : option RetryStrategy :=
  let portable := is_portable context.(rx_portability) in
  match context.(rx_error) with
  | Authentication401 =>
      if negb context.(rx_refresh_already_attempted) then Some RefreshSameCredential
      else if portable && context.(rx_alternate_credential_available) then Some SwitchCredential
      else None
  | RateLimited429 | Overloaded529 | Upstream5xx | NetworkBeforeCommit =>
      if portable && context.(rx_alternate_credential_available) then Some SwitchCredential
      else if context.(rx_same_credential_available) then Some SameCredential
      else None
  | FinalClient4xx | OtherError => None
  end.

Definition decide_retry (context : RetryContext) : RetryDecision :=
  let attempts_left := saturating_sub 3 context.(rx_messages_attempts) in
  if context.(rx_response_committed) then denied attempts_left "response_committed"
  else if negb context.(rx_body_replayable) then denied attempts_left "body_not_replayable"
  else if attempts_left =? 0 then denied 0 "messages_attempt_budget_exhausted"
  else if (context.(rx_remaining_deadline) <? context.(rx_min_retry_budget))
          || (context.(rx_remaining_deadline) <?
              dur_add context.(rx_proposed_backoff) context.(rx_min_retry_budget))
  then denied attempts_left "insufficient_deadline"
  else
    match retry_strategy context with
    | None => denied attempts_left "no_retry_candidate"
    | Some strategy =>
        {| rd_allowed := true;
           rd_strategy := Some strategy;
           rd_backoff := if decide (strategy = SameCredential) then context.(rx_proposed_backoff) else 0;
           rd_remaining_attempts := attempts_left;
           rd_reason := "retry_allowed" |}
    end.

(** ** Specification

    The hard fences of a retry, and the strategies a failure class admits, as
    the design states them and independently of the order of the code's arms. *)
Record retry_fences (c : RetryContext) : Prop := {
  fence_uncommitted : c.(rx_response_committed) = false;
  fence_replayable : c.(rx_body_replayable) = true;
  fence_attempts : c.(rx_messages_attempts) < 3;
  fence_deadline : dur_add c.(rx_proposed_backoff) c.(rx_min_retry_budget) <= c.(rx_remaining_deadline);
  fence_budget : c.(rx_min_retry_budget) <= c.(rx_remaining_deadline);
}.

Definition can_switch (c : RetryContext) : Prop :=
  c.(rx_portability) = Portable ∧ c.(rx_alternate_credential_available) = true.

Definition transient_upstream (e : RetryErrorClass) : Prop :=
  e = RateLimited429 ∨ e = Overloaded529 ∨ e = Upstream5xx ∨ e = NetworkBeforeCommit.

Inductive admissible (c : RetryContext) : RetryStrategy → Prop :=
  | admissible_refresh :
      c.(rx_error) = Authentication401 → c.(rx_refresh_already_attempted) = false →
      admissible c RefreshSameCredential
  | admissible_switch_auth :
      c.(rx_error) = Authentication401 → c.(rx_refresh_already_attempted) = true →
      can_switch c → admissible c SwitchCredential
  | admissible_switch :
      transient_upstream c.(rx_error) → can_switch c → admissible c SwitchCredential
  | admissible_same :
      transient_upstream c.(rx_error) → ¬ can_switch c → c.(rx_same_credential_available) = true →
      admissible c SameCredential.

(** Run [begin] a number of times and count the attempts it reserves. *)
Fixpoint begin_times (n : nat) (b : ConnectionAttemptBudget) : N * ConnectionAttemptBudget :=
  match n with
  | O => (0, b)
  | S n =>
      let '(ok, b') := budget_begin b in
      let '(count, b'') := begin_times n b' in
      ((if ok then 1 else 0) + count, b'')
  end.

Lemma is_portable_spec p : is_portable p = true ↔ p = Portable.
Proof. by destruct p. Qed.

Lemma can_switch_spec c :
  is_portable c.(rx_portability) && c.(rx_alternate_credential_available) = true ↔ can_switch c.
Proof. unfold can_switch. by rewrite andb_true_iff, is_portable_spec. Qed.

Lemma retry_strategy_spec c s : retry_strategy c = Some s ↔ admissible c s.
Proof.
  unfold retry_strategy. pose proof (can_switch_spec c) as HS. split.
  - assert (is_portable c.(rx_portability) && c.(rx_alternate_credential_available) = false → ¬ can_switch c)
      as HN by (intros Hf Hc%HS; congruence).
    destruct (is_portable _ && _) eqn:E; [apply proj1 in HS|clear HS].
    all: destruct (rx_error c) eqn:Ee, (rx_refresh_already_attempted c) eqn:Er,
      (rx_same_credential_available c) eqn:Es; simpl; intros; simplify_eq.
    all: try (by apply admissible_refresh).
    all: try (apply admissible_switch_auth; [done|done|by apply HS]).
    all: try (apply admissible_switch; [unfold transient_upstream; naive_solver|by apply HS]).
    all: by apply admissible_same; [unfold transient_upstream; naive_solver|apply HN|].
  - destruct 1 as [He Hr|He Hr Hc|Ht Hc|Ht Hn Hs].
    + by rewrite He, Hr.
    + by rewrite He, Hr, (proj2 HS Hc).
    + rewrite (proj2 HS Hc). destruct Ht as [->|[->|[->| ->]]]; done.
    + assert (is_portable c.(rx_portability) && c.(rx_alternate_credential_available) = false) as ->.
      { apply not_true_iff_false. by rewrite HS. }
      rewrite Hs. destruct Ht as [->|[->|[->| ->]]]; done.
Qed.

(** ** Properties *)

(** [decide_retry] implements the retry specification. It answers a strategy
    exactly when every fence holds (nothing committed, replayable body, fewer
    than three Messages attempts, enough deadline for backoff and budget) and
    that strategy is the one the failure class admits; in particular only a
    portable request ever switches Credential, and only a same-Credential retry
    waits. *)
Theorem decide_retry_refines c s :
  (decide_retry c).(rd_allowed) = true ∧ (decide_retry c).(rd_strategy) = Some s ∧
  (decide_retry c).(rd_backoff) = (if decide (s = SameCredential) then c.(rx_proposed_backoff) else 0)
  ↔ retry_fences c ∧ admissible c s.
Proof.
  rewrite <- retry_strategy_spec. unfold decide_retry, saturating_sub. split.
  - intros (Ha & Hs & _). revert Ha Hs.
    destruct (rx_response_committed c) eqn:E1; [done|].
    destruct (rx_body_replayable c) eqn:E2; [|done]. simpl.
    destruct (N.eqb_spec (3 - rx_messages_attempts c) 0) as [|E3]; [done|].
    destruct (_ || _) eqn:E4; [done|]. bool_prop.
    destruct (retry_strategy c) eqn:E5; [|done]. simpl. intros _ [= ->].
    split; [|done]. split; try done; lia.
  - intros [[F1 F2 F3 F4 F5] Hs]. rewrite F1, F2, Hs. simpl.
    destruct (N.eqb_spec (3 - rx_messages_attempts c) 0) as [|E3]; [lia|].
    rewrite (proj2 (N.ltb_ge _ _)) by done. rewrite (proj2 (N.ltb_ge _ _)) by done. done.
Qed.

(** the connection budget reserves exactly [min n (3 - used)] attempts out of
    [n] requests, whatever came before: three connections per request, no more. *)
Theorem begin_times_capped n b :
  cab_attempts b <= 3 →
  (begin_times n b).1 = N.min (N.of_nat n) (3 - cab_attempts b) ∧
  cab_attempts (begin_times n b).2 = cab_attempts b + (begin_times n b).1.
Proof.
  revert b. induction n as [|n IH]; intros b Hb; [simpl; lia|].
  simpl. unfold budget_begin. destruct (N.leb_spec 3 (cab_attempts b)).
  - destruct (begin_times n b) as [k b'] eqn:E. specialize (IH b Hb). rewrite E in IH. simpl in *. lia.
  - set (b1 := {| cab_attempts := cab_attempts b + 1 |}).
    specialize (IH b1 ltac:(simpl; lia)). destruct (begin_times n b1) as [k b'] eqn:E. simpl in *. lia.
Qed.

Lemma begin_times_capped_witness :
  cab_attempts budget_default <= 3 ∧ (begin_times 5 budget_default).1 = 3.
Proof. split; [done|]. apply (begin_times_capped 5 budget_default). done. Defined.
