(* ===== verification/Attempt.v ===== *)
(** The per-request attempt accounting of
    [crates/gateway-scheduler/src/attempt.rs]: a state machine over connection
    and Messages attempts, usage knowledge and cancellation. *)

From S2P Require Import Prelude Machine.
Local Open Scope N_scope.

Inductive UpstreamProtocol := Http1 | Http2.

Inductive AttemptPhase :=
  | Accepted
  | Connecting
  | Connected
  | Uploading
  | WaitingHeaders
  | StreamingCommitted
  | BufferedReady
  | Completed
  | CancelledPhase.

#[export] Instance AttemptPhase_eq_dec : EqDecision AttemptPhase.
Proof. solve_decision. Defined.

Inductive UsageKnowledge := UkAbsent | UkUnknown | UkPartial | UkComplete.

#[export] Instance UsageKnowledge_eq_dec : EqDecision UsageKnowledge.
Proof. solve_decision. Defined.

(** The derived order of the enum: its discriminant. *)
Definition usage_rank (u : UsageKnowledge) : N :=
  match u with UkAbsent => 0 | UkUnknown => 1 | UkPartial => 2 | UkComplete => 3 end.

Inductive TransportCancelAction :=
  | NoTransportAction
  | ResetHttp2Stream
  | CloseAndEvictHttp1Connection
  | AwaitTransportConfirmation.

Record CancelDisposition := {
  cd_transport_action : TransportCancelAction;
  cd_usage : UsageKnowledge;
  cd_messages_attempts : N;
  cd_retry_allowed : bool;
  cd_lease_release_after_transport : bool;
  cd_destroy_buffer_before_reservation_release : bool;
  cd_preserve_delivered_prefix : bool;
}.

Record AttemptState := {
  as_phase : AttemptPhase;
  as_connection_attempts : N;
  as_messages_attempts : N;
  as_usage : UsageKnowledge;
  as_terminal : bool;
}.

Inductive AttemptStateError :=
  | InvalidTransition
  | ConnectionBudgetExhausted
  | MessagesBudgetExhausted
  | AlreadyTerminal
  | InvalidUsageKnowledge.

#[export] Instance AttemptStateError_eq_dec : EqDecision AttemptStateError.
Proof. solve_decision. Defined.

Definition attempt_default : AttemptState :=
  {| as_phase := Accepted; as_connection_attempts := 0; as_messages_attempts := 0;
     as_usage := UkAbsent; as_terminal := false |}.

Definition with_phase (s : AttemptState) (p : AttemptPhase) : AttemptState :=
  {| as_phase := p; as_connection_attempts := s.(as_connection_attempts);
     as_messages_attempts := s.(as_messages_attempts);
     as_usage := s.(as_usage); as_terminal := s.(as_terminal) |}.

Definition ensure_active (self : AttemptState) : result AttemptStateError unit :=
  if self.(as_terminal) then Err AlreadyTerminal else Ok tt.

Definition ensure_phase (self : AttemptState) (expected : AttemptPhase) : result AttemptStateError unit :=
  match ensure_active self with
  | Err e => Err e
  | Ok _ => if decide (self.(as_phase) = expected) then Ok tt else Err InvalidTransition
  end.

Definition begin_connection (self : AttemptState) : result AttemptStateError N * AttemptState :=
  match ensure_active self with
  | Err e => (Err e, self)
  | Ok _ =>
      if 3 <=? self.(as_connection_attempts) then (Err ConnectionBudgetExhausted, self)
      else
        let n := self.(as_connection_attempts) + 1 in
        (Ok n, {| as_phase := Connecting; as_connection_attempts := n;
                  as_messages_attempts := self.(as_messages_attempts);
                  as_usage := self.(as_usage); as_terminal := self.(as_terminal) |})
  end.

Definition connection_established (self : AttemptState) : result AttemptStateError unit * AttemptState :=
  match ensure_phase self Connecting with
  | Err e => (Err e, self)
  | Ok _ => (Ok tt, with_phase self Connected)
  end.

Definition first_request_byte (self : AttemptState) : result AttemptStateError N * AttemptState :=
  match ensure_phase self Connected with
  | Err e => (Err e, self)
  | Ok _ =>
      if 3 <=? self.(as_messages_attempts) then (Err MessagesBudgetExhausted, self)
      else
        let n := self.(as_messages_attempts) + 1 in
        (Ok n, {| as_phase := Uploading; as_connection_attempts := self.(as_connection_attempts);
                  as_messages_attempts := n;
                  as_usage := UkUnknown; as_terminal := self.(as_terminal) |})
  end.

Definition request_upload_complete (self : AttemptState) : result AttemptStateError unit * AttemptState :=
  match ensure_phase self Uploading with
  | Err e => (Err e, self)
  | Ok _ => (Ok tt, with_phase self WaitingHeaders)
  end.

Definition commit_streaming_response (self : AttemptState) : result AttemptStateError unit * AttemptState :=
  match self.(as_phase) with
  | Uploading | WaitingHeaders => (Ok tt, with_phase self StreamingCommitted)
  | _ => (Err InvalidTransition, self)
  end.

Definition buffer_complete (self : AttemptState) : result AttemptStateError unit * AttemptState :=
  match self.(as_phase) with
  | Uploading | WaitingHeaders => (Ok tt, with_phase self BufferedReady)
  | _ => (Err InvalidTransition, self)
  end.

Definition observe_usage (self : AttemptState) (knowledge : UsageKnowledge) : result AttemptStateError unit * AttemptState :=
  match ensure_active self with
  | Err e => (Err e, self)
  | Ok _ =>
      if (self.(as_messages_attempts) =? 0) || bool_decide (knowledge = UkAbsent)
         || (usage_rank knowledge <? usage_rank self.(as_usage))
      then (Err InvalidUsageKnowledge, self)
      else (Ok tt, {| as_phase := self.(as_phase); as_connection_attempts := self.(as_connection_attempts);
                      as_messages_attempts := self.(as_messages_attempts);
                      as_usage := knowledge; as_terminal := self.(as_terminal) |})
  end.

Definition complete_delivery (self : AttemptState) : result AttemptStateError unit * AttemptState :=
  match self.(as_phase) with
  | StreamingCommitted | BufferedReady =>
      (Ok tt, {| as_phase := Completed; as_connection_attempts := self.(as_connection_attempts);
                 as_messages_attempts := self.(as_messages_attempts);
                 as_usage := self.(as_usage); as_terminal := true |})
  | _ => (Err InvalidTransition, self)
  end.

(** The [match self.phase] of [cancel]; [None] is its early return. *)
Definition cancel_disposition (self : AttemptState) (protocol : UpstreamProtocol) : option CancelDisposition :=
  let stop := match protocol with Http1 => CloseAndEvictHttp1Connection | Http2 => ResetHttp2Stream end in
  match self.(as_phase) with
  | Accepted | Connecting | Connected =>
      Some {| cd_transport_action :=
                if decide (self.(as_phase) = Accepted) then NoTransportAction else AwaitTransportConfirmation;
              cd_usage := UkAbsent;
              cd_messages_attempts := self.(as_messages_attempts);
              cd_retry_allowed := false;
              cd_lease_release_after_transport := bool_decide (self.(as_phase) ≠ Accepted);
              cd_destroy_buffer_before_reservation_release := false;
              cd_preserve_delivered_prefix := false |}
  | Uploading | WaitingHeaders =>
      Some {| cd_transport_action := stop; cd_usage := UkUnknown;
              cd_messages_attempts := self.(as_messages_attempts);
              cd_retry_allowed := false; cd_lease_release_after_transport := true;
              cd_destroy_buffer_before_reservation_release := false;
              cd_preserve_delivered_prefix := false |}
  | BufferedReady =>
      Some {| cd_transport_action := NoTransportAction; cd_usage := self.(as_usage);
              cd_messages_attempts := self.(as_messages_attempts);
              cd_retry_allowed := false; cd_lease_release_after_transport := false;
              cd_destroy_buffer_before_reservation_release := true;
              cd_preserve_delivered_prefix := false |}
  | StreamingCommitted =>
      Some {| cd_transport_action := stop; cd_usage := UkUnknown;
              cd_messages_attempts := self.(as_messages_attempts);
              cd_retry_allowed := false; cd_lease_release_after_transport := true;
              cd_destroy_buffer_before_reservation_release := false;
              cd_preserve_delivered_prefix := true |}
  | Completed | CancelledPhase => None
  end.

Definition attempt_cancel (self : AttemptState) (protocol : UpstreamProtocol)
    : result AttemptStateError CancelDisposition * AttemptState :=
  match ensure_active self with
  | Err e => (Err e, self)
  | Ok _ =>
      match cancel_disposition self protocol with
      | None => (Err AlreadyTerminal, self)
      | Some disposition =>
          (Ok disposition,
           {| as_phase := CancelledPhase; as_connection_attempts := self.(as_connection_attempts);
              as_messages_attempts := self.(as_messages_attempts);
              as_usage := disposition.(cd_usage); as_terminal := true |})
      end
  end.

(** ** The machine as a transition system *)

Inductive AttemptEvent :=
  | EvBeginConnection
  | EvConnectionEstablished
  | EvFirstRequestByte
  | EvUploadComplete
  | EvCommitStreaming
  | EvBufferComplete
  | EvObserveUsage (knowledge : UsageKnowledge)
  | EvCompleteDelivery
  | EvCancel (protocol : UpstreamProtocol).

(** One call: whether it succeeded, its error, and the state it leaves. *)
Definition attempt_step (s : AttemptState) (ev : AttemptEvent) : option AttemptStateError * AttemptState :=
  let outcome {A} (r : result AttemptStateError A * AttemptState) :=
    (match r.1 with Ok _ => None | Err e => Some e end, r.2) in
  match ev with
  | EvBeginConnection => outcome (begin_connection s)
  | EvConnectionEstablished => outcome (connection_established s)
  | EvFirstRequestByte => outcome (first_request_byte s)
  | EvUploadComplete => outcome (request_upload_complete s)
  | EvCommitStreaming => outcome (commit_streaming_response s)
  | EvBufferComplete => outcome (buffer_complete s)
  | EvObserveUsage k => outcome (observe_usage s k)
  | EvCompleteDelivery => outcome (complete_delivery s)
  | EvCancel p => outcome (attempt_cancel s p)
  end.

Definition attempt_run (s : AttemptState) (evs : list AttemptEvent) : AttemptState :=
  foldl (λ s ev, (attempt_step s ev).2) s evs.

(** The invariant of the accounting. *)
Record attempt_inv (s : AttemptState) : Prop := {
  inv_connections : s.(as_connection_attempts) <= 3;
  inv_messages : s.(as_messages_attempts) <= s.(as_connection_attempts);
  inv_pending : s.(as_phase) = Connecting ∨ s.(as_phase) = Connected →
                s.(as_messages_attempts) < s.(as_connection_attempts);
  inv_submitted : s.(as_phase) = Uploading ∨ s.(as_phase) = WaitingHeaders ∨
                  s.(as_phase) = StreamingCommitted ∨ s.(as_phase) = BufferedReady ∨
                  s.(as_phase) = Completed → 0 < s.(as_messages_attempts);
  inv_usage : s.(as_messages_attempts) = 0 → s.(as_usage) = UkAbsent;
  inv_terminal : s.(as_terminal) = true ↔ s.(as_phase) = Completed ∨ s.(as_phase) = CancelledPhase;
}.

Lemma attempt_step_inv s ev : attempt_inv s → attempt_inv (attempt_step s ev).2.
Proof.
  intros [I1 I2 I3 I4 I5 I6].
  destruct ev; simpl;
    unfold begin_connection, connection_established, first_request_byte, request_upload_complete,
      commit_streaming_response, buffer_complete, observe_usage, complete_delivery, attempt_cancel,
      ensure_phase, ensure_active, cancel_disposition, with_phase;
    destruct s as [ph conn msg us term]; simpl in *.
  all: destruct term; simpl; [destruct ph; simpl; try done; destruct (proj1 I6 eq_refl) as [?|?]; done|].
  all: repeat (first [case_decide | case_match]; simplify_eq/=; bool_prop).
  all: split; simpl in *; try lia; try naive_solver lia.
Qed.

Lemma attempt_run_inv evs : attempt_inv (attempt_run attempt_default evs).
Proof.
  unfold attempt_run. assert (attempt_inv attempt_default) as H by (split; simpl; naive_solver lia).
  revert H. generalize attempt_default. induction evs as [|ev evs IH]; simpl; [done|].
  intros s H. apply IH. by apply attempt_step_inv.
Qed.

(** ** Properties *)

(** after any sequence of calls on a fresh request, at most three connection
    attempts were counted, never more Messages attempts than connections, no
    usage is known before the first request byte, and the terminal flag marks
    exactly the completed and cancelled phases. *)
Theorem attempt_accounting evs :
  let s := attempt_run attempt_default evs in
  s.(as_connection_attempts) <= 3 ∧ s.(as_messages_attempts) <= s.(as_connection_attempts) ∧
  (s.(as_messages_attempts) = 0 → s.(as_usage) = UkAbsent) ∧
  (s.(as_terminal) = true ↔ s.(as_phase) = Completed ∨ s.(as_phase) = CancelledPhase).
Proof. destruct (attempt_run_inv evs). done. Qed.

(** the Messages budget can never be the reason of a failure: by the time a
    fourth submission could be attempted the connection budget is spent, so
    [first_request_byte] on a reachable state never answers
    [MessagesBudgetExhausted]. *)
Theorem messages_budget_unreachable evs :
  (first_request_byte (attempt_run attempt_default evs)).1 ≠ Err MessagesBudgetExhausted.
Proof.
  pose proof (attempt_run_inv evs) as [I1 I2 I3 I4 I5 I6].
  unfold first_request_byte, ensure_phase, ensure_active.
  repeat (first [case_decide | case_match]; simplify_eq/=; bool_prop); try done.
  specialize (I3 ltac:(by right)). lia.
Qed.

(** a terminal request is frozen. Every later call fails and changes
    nothing, so a delivered or cancelled request cannot be resubmitted,
    re-cancelled or re-accounted. *)
Theorem terminal_is_absorbing evs ev :
  let s := attempt_run attempt_default evs in
  s.(as_terminal) = true → (attempt_step s ev).1 ≠ None ∧ (attempt_step s ev).2 = s.
Proof.
  intros s Ht. pose proof (attempt_run_inv evs) as [_ _ _ _ _ I6]. fold s in I6.
  destruct (proj1 I6 Ht) as [Hp|Hp]; destruct ev; simpl;
    unfold begin_connection, connection_established, first_request_byte, request_upload_complete,
      commit_streaming_response, buffer_complete, observe_usage, complete_delivery, attempt_cancel,
      ensure_phase, ensure_active; rewrite ?Ht, ?Hp; done.
Qed.

Lemma terminal_is_absorbing_witness :
  let evs := [EvBeginConnection; EvCancel Http2] in
  (attempt_run attempt_default evs).(as_terminal) = true ∧
  (attempt_step (attempt_run attempt_default evs) (EvCancel Http2)).1 ≠ None.
Proof.
  split; [reflexivity|]. apply (terminal_is_absorbing [EvBeginConnection; EvCancel Http2] (EvCancel Http2)). reflexivity.
Defined.

(** The type's documentation calls usage knowledge monotonic. It is not: a
    cancellation during the upload forgets complete usage, and one on a second
    connection forgets that a Messages attempt was ever submitted. *)
Lemma cancel_regresses_usage :
  let submitted := [EvBeginConnection; EvConnectionEstablished; EvFirstRequestByte; EvObserveUsage UkComplete] in
  as_usage (attempt_run attempt_default submitted) = UkComplete ∧
  as_usage (attempt_run attempt_default (submitted ++ [EvCancel Http2])) = UkUnknown ∧
  as_usage (attempt_run attempt_default (submitted ++ [EvBeginConnection; EvCancel Http2])) = UkAbsent ∧
  as_messages_attempts (attempt_run attempt_default (submitted ++ [EvBeginConnection; EvCancel Http2])) = 1.
Proof. done. Qed.
