(* ===== verification/Credential.v ===== *)
(** The credential value objects of
    [crates/gateway-domain/src/credential.rs]: lifecycle and health of a
    credential, its continuity epochs, the choice of an egress proxy and of a
    transport archetype, and the refresh schedule. Enrollment and maintenance
    are in [Enrollment.v].

    Where two enumerations of the source share a variant name the constructors
    carry the name of the enumeration. *)

From S2P Require Import Prelude Machine.
From S2P Require Import Domain.
Local Open Scope N_scope.

(** ** Enumerations *)

(** [AnthropicAccountUuid]: a UUID is its 128-bit value. *)
Record AnthropicAccountUuid := AccountUuid_new { account_uuid_get : N }.

#[export] Instance AnthropicAccountUuid_eq_dec : EqDecision AnthropicAccountUuid.
Proof. solve_decision. Defined.

Inductive AuthKind := OauthSubscription | SetupTokenSubscription | ConsoleApiKey.

Inductive CredentialPurpose := Business | VerificationOnly | CountTokens.

Inductive CredentialLifecycle :=
  | PendingVerify
  | PendingProfile
  | PendingEgress
  | Lifecycle_PendingReauthStrategy
  | Lifecycle_Active
  | Lifecycle_Disabled
  | Lifecycle_Revoked
  | Lifecycle_Archived.

#[export] Instance CredentialLifecycle_eq_dec : EqDecision CredentialLifecycle.
Proof. solve_decision. Defined.

Inductive AttachmentState := Attached | Attachment_Draining | Attachment_Detached | Attachment_Attaching.

#[export] Instance AttachmentState_eq_dec : EqDecision AttachmentState.
Proof. solve_decision. Defined.

Inductive AuthState :=
  | Auth_Healthy
  | Auth_Expiring
  | Auth_Refreshing
  | Auth_ReauthRetrying
  | Auth_ReauthWaitingEgress
  | Auth_ManualRecoveryRequired
  | Auth_NeedsAdminReauth
  | Auth_AuthBroken.

Inductive CapacityState := Available | Capacity_Limited | Capacity_Cooldown | Capacity_HalfOpen.

#[export] Instance CapacityState_eq_dec : EqDecision CapacityState.
Proof. solve_decision. Defined.

Inductive TransportState := Ready | Transport_Unavailable.

#[export] Instance TransportState_eq_dec : EqDecision TransportState.
Proof. solve_decision. Defined.

Inductive ManagementClass :=
  | FullyManaged
  | NonManaged
  | Management_PendingReauthStrategy
  | Management_ManualRecoveryRequired.

Inductive EgressPolicy := Policy_Auto | Policy_ProxyRequired | Policy_Direct.

#[export] Instance EgressPolicy_eq_dec : EqDecision EgressPolicy.
Proof. solve_decision. Defined.

Inductive EgressMode := Mode_Direct | Mode_Proxy.

Inductive ProxyLifecycle := Proxy_Active | Proxy_Draining | Proxy_Disabled | Proxy_Archived.

#[export] Instance ProxyLifecycle_eq_dec : EqDecision ProxyLifecycle.
Proof. solve_decision. Defined.

Inductive ProxyHealth :=
  | Health_Unknown
  | Health_Probing
  | Health_Healthy
  | UnhealthyDns
  | UnhealthyConnect
  | UnhealthyAuth
  | UnhealthyTunnel
  | UnhealthyTlsPassthrough.

#[export] Instance ProxyHealth_eq_dec : EqDecision ProxyHealth.
Proof. solve_decision. Defined.

Inductive ProxyStability := Static | Dynamic.

#[export] Instance ProxyStability_eq_dec : EqDecision ProxyStability.
Proof. solve_decision. Defined.

Inductive PlanAdapter := OauthProfile | ClaudeCliBootstrap | Adapter_NotApplicable.

Inductive ContinuityChange :=
  | Change_Refresh
  | SameAccountRecovery
  | GroupMigration
  | Cohort
  | EgressRebind
  | DeviceRebuild.

Inductive CanonicalCredentialStatus :=
  | Status_Archived
  | Status_Revoked
  | Status_Disabled
  | Status_Pending
  | Status_Draining
  | Status_Detached
  | Status_Attaching
  | Status_ManualRecoveryRequired
  | Status_NeedsAdminReauth
  | Status_AuthBroken
  | Status_Refreshing
  | Status_ReauthRetrying
  | Status_ReauthWaitingEgress
  | Status_TransportUnavailable
  | Status_Cooldown
  | Status_HalfOpen
  | Status_Limited
  | Status_Active.

Inductive CredentialBlocker :=
  | Blocker_Lifecycle
  | Blocker_Attachment
  | Blocker_Authentication
  | Blocker_Management
  | Blocker_Profile
  | Blocker_Egress
  | Blocker_Transport
  | Blocker_Purpose.

(** ** Continuity epochs *)
Record EpochSet := {
  revision : N;
  token_version : N;
  profile_epoch : N;
  device_epoch : N;
  egress_epoch : N;
}.

Definition with_revision (e : EpochSet) (v : N) : EpochSet :=
  {| revision := v; token_version := e.(token_version); profile_epoch := e.(profile_epoch);
     device_epoch := e.(device_epoch); egress_epoch := e.(egress_epoch) |}.

Definition with_token_version (e : EpochSet) (v : N) : EpochSet :=
  {| revision := e.(revision); token_version := v; profile_epoch := e.(profile_epoch);
     device_epoch := e.(device_epoch); egress_epoch := e.(egress_epoch) |}.

Definition with_profile_epoch (e : EpochSet) (v : N) : EpochSet :=
  {| revision := e.(revision); token_version := e.(token_version); profile_epoch := v;
     device_epoch := e.(device_epoch); egress_epoch := e.(egress_epoch) |}.

Definition with_device_epoch (e : EpochSet) (v : N) : EpochSet :=
  {| revision := e.(revision); token_version := e.(token_version); profile_epoch := e.(profile_epoch);
     device_epoch := v; egress_epoch := e.(egress_epoch) |}.

Definition with_egress_epoch (e : EpochSet) (v : N) : EpochSet :=
  {| revision := e.(revision); token_version := e.(token_version); profile_epoch := e.(profile_epoch);
     device_epoch := e.(device_epoch); egress_epoch := v |}.

Definition increment (value : N) : DomainResult N :=
  match checked_add U64_MAX value 1 with Some v => Ok v | None => Err InvalidValue end.

(** One field incremented: the [?] leaves the set as it is on overflow. *)
Definition bump (get : EpochSet → N) (set : EpochSet → N → EpochSet) (e : EpochSet) : DomainResult unit * EpochSet :=
  match increment (get e) with
  | Ok v => (Ok tt, set e v)
  | Err err => (Err err, e)
  end.

(** [first?; second]: the changes of the first statement stay when the second fails. *)
Definition and_then (first second : EpochSet → DomainResult unit * EpochSet) (e : EpochSet)
    : DomainResult unit * EpochSet :=
  match first e with
  | (Err err, e') => (Err err, e')
  | (Ok _, e') => second e'
  end.

Definition epoch_apply (self : EpochSet) (change : ContinuityChange) : DomainResult unit * EpochSet :=
  let field_changes :=
    match change with
    | Change_Refresh | SameAccountRecovery => bump token_version with_token_version
    | GroupMigration => λ e, (Ok tt, e)
    | Cohort => bump profile_epoch with_profile_epoch
    | EgressRebind => and_then (bump profile_epoch with_profile_epoch) (bump egress_epoch with_egress_epoch)
    | DeviceRebuild => and_then (bump profile_epoch with_profile_epoch) (bump device_epoch with_device_epoch)
    end in
  and_then field_changes (bump revision with_revision) self.

(** ** Credential state *)
Record CredentialState := {
  lifecycle : CredentialLifecycle;
  attachment : AttachmentState;
  auth : AuthState;
  capacity : CapacityState;
  transport : TransportState;
  management_class : ManagementClass;
  profile_ready : bool;
  egress_ready : bool;
  purpose_compatible : bool;
}.

Definition with_lifecycle (s : CredentialState) (l : CredentialLifecycle) : CredentialState :=
  {| lifecycle := l; attachment := s.(attachment); auth := s.(auth); capacity := s.(capacity);
     transport := s.(transport); management_class := s.(management_class);
     profile_ready := s.(profile_ready); egress_ready := s.(egress_ready);
     purpose_compatible := s.(purpose_compatible) |}.

Definition canonical_status (self : CredentialState) : CanonicalCredentialStatus :=
  match self.(lifecycle) with
  | Lifecycle_Archived => Status_Archived
  | Lifecycle_Revoked => Status_Revoked
  | Lifecycle_Disabled => Status_Disabled
  | PendingVerify | PendingProfile | PendingEgress | Lifecycle_PendingReauthStrategy => Status_Pending
  | Lifecycle_Active =>
      match self.(attachment) with
      | Attachment_Draining => Status_Draining
      | Attachment_Detached => Status_Detached
      | Attachment_Attaching => Status_Attaching
      | Attached =>
          match self.(auth) with
          | Auth_ManualRecoveryRequired => Status_ManualRecoveryRequired
          | Auth_NeedsAdminReauth => Status_NeedsAdminReauth
          | Auth_AuthBroken => Status_AuthBroken
          | Auth_Refreshing => Status_Refreshing
          | Auth_ReauthRetrying => Status_ReauthRetrying
          | Auth_ReauthWaitingEgress => Status_ReauthWaitingEgress
          | Auth_Healthy | Auth_Expiring =>
              if bool_decide (self.(transport) = Transport_Unavailable)
                 || negb self.(egress_ready) || negb self.(profile_ready)
              then Status_TransportUnavailable
              else match self.(capacity) with
                   | Capacity_Cooldown => Status_Cooldown
                   | Capacity_HalfOpen => Status_HalfOpen
                   | Capacity_Limited => Status_Limited
                   | Available => Status_Active
                   end
          end
      end
  end.

(** [if condition { result.push(blocker) }]. *)
Definition push_if (condition : bool) (blocker : CredentialBlocker) (rest : list CredentialBlocker)
    : list CredentialBlocker :=
  if condition then rest ++ [blocker] else rest.

Definition auth_usable (a : AuthState) : bool :=
  match a with Auth_Healthy | Auth_Expiring => true | _ => false end.

Definition management_blocks (m : ManagementClass) : bool :=
  match m with Management_PendingReauthStrategy | Management_ManualRecoveryRequired => true | _ => false end.

Definition blockers (self : CredentialState) : list CredentialBlocker :=
  let result := [] in
  let result := push_if (bool_decide (self.(lifecycle) ≠ Lifecycle_Active)) Blocker_Lifecycle result in
  let result := push_if (bool_decide (self.(attachment) ≠ Attached)) Blocker_Attachment result in
  let result := push_if (negb (auth_usable self.(auth))) Blocker_Authentication result in
  let result := push_if (management_blocks self.(management_class)) Blocker_Management result in
  let result := push_if (negb self.(profile_ready)) Blocker_Profile result in
  let result := push_if (negb self.(egress_ready)) Blocker_Egress result in
  let result := push_if (bool_decide (self.(transport) ≠ Ready)) Blocker_Transport result in
  push_if (negb self.(purpose_compatible)) Blocker_Purpose result.

Definition is_schedulable (self : CredentialState) : bool :=
  is_empty (blockers self) && bool_decide (self.(capacity) ≠ Capacity_Cooldown).

Definition credential_activate (self : CredentialState) : DomainResult unit * CredentialState :=
  match self.(lifecycle) with
  | PendingVerify | PendingProfile | PendingEgress | Lifecycle_PendingReauthStrategy | Lifecycle_Disabled =>
      let previous := self.(lifecycle) in
      let self := with_lifecycle self Lifecycle_Active in
      if negb (is_empty (blockers self))
      then (Err InvalidStateTransition, with_lifecycle self previous)
      else (Ok tt, self)
  | _ => (Err InvalidStateTransition, self)
  end.

Definition credential_disable (self : CredentialState) : DomainResult unit * CredentialState :=
  if bool_decide (self.(lifecycle) ≠ Lifecycle_Active) then (Err InvalidStateTransition, self)
  else (Ok tt, with_lifecycle self Lifecycle_Disabled).

Definition credential_revoke (self : CredentialState) : DomainResult unit * CredentialState :=
  match self.(lifecycle) with
  | Lifecycle_Revoked | Lifecycle_Archived => (Err InvalidStateTransition, self)
  | _ => (Ok tt, with_lifecycle self Lifecycle_Revoked)
  end.

Definition archivable (l : CredentialLifecycle) : bool :=
  match l with Lifecycle_Disabled | Lifecycle_Revoked => true | _ => false end.

Definition credential_archive (self : CredentialState) (active_leases active_operations : N)
    : DomainResult unit * CredentialState :=
  if negb (archivable self.(lifecycle)) || negb (active_leases =? 0) || negb (active_operations =? 0)
     || bool_decide (self.(attachment) = Attachment_Draining)
  then (Err InvalidStateTransition, self)
  else (Ok tt, with_lifecycle self Lifecycle_Archived).

(** The calls a management surface can make, and a history of them. *)
Inductive LifecycleCall :=
  | CallActivate
  | CallDisable
  | CallRevoke
  | CallArchive (active_leases active_operations : N).

Definition lifecycle_call (s : CredentialState) (c : LifecycleCall) : DomainResult unit * CredentialState :=
  match c with
  | CallActivate => credential_activate s
  | CallDisable => credential_disable s
  | CallRevoke => credential_revoke s
  | CallArchive leases operations => credential_archive s leases operations
  end.

Definition lifecycle_run (s : CredentialState) (calls : list LifecycleCall) : CredentialState :=
  foldl (λ s c, (lifecycle_call s c).2) s calls.

(** ** Choice of an egress *)
Record EgressBindingSnapshot := {
  ebs_binding_id : EgressBindingId;
  ebs_mode : EgressMode;
  ebs_proxy_id : option ProxyEndpointId;
  ebs_egress_epoch : N;
}.

Record ProxyCandidate := {
  px_id : ProxyEndpointId;
  px_lifecycle : ProxyLifecycle;
  px_health : ProxyHealth;
  px_stability : ProxyStability;
  px_active_bindings : N;
  px_max_active_bindings : N;
  px_within_validity_window : bool;
}.

Inductive EgressDecision :=
  | Egress_Direct
  | Egress_Proxy (id : ProxyEndpointId)
  | WaitForEgress.

#[export] Instance EgressDecision_eq_dec : EqDecision EgressDecision.
Proof. solve_decision. Defined.

Definition proxy_usable (proxy : ProxyCandidate) : bool :=
  bool_decide (proxy.(px_lifecycle) = Proxy_Active)
  && bool_decide (proxy.(px_health) = Health_Healthy)
  && bool_decide (proxy.(px_stability) = Static)
  && proxy.(px_within_validity_window)
  && (proxy.(px_active_bindings) <? proxy.(px_max_active_bindings))
  && (0 <? proxy.(px_max_active_bindings)).

(** The cross products are [u64] products of [u32] values. *)
Definition proxy_load_order (left right : ProxyCandidate) : comparison :=
  let left_cross := wrapping_mul U64_MAX left.(px_active_bindings) right.(px_max_active_bindings) in
  let right_cross := wrapping_mul U64_MAX right.(px_active_bindings) left.(px_max_active_bindings) in
  then_with (left_cross ?= right_cross) (key_cmp left.(px_id) right.(px_id)).

Definition choose_egress (policy : EgressPolicy) (proxies : list ProxyCandidate) : EgressDecision :=
  if bool_decide (policy = Policy_Direct) then Egress_Direct
  else match min_by proxy_load_order (filter proxy_usable proxies) with
       | Some proxy => Egress_Proxy proxy.(px_id)
       | None => WaitForEgress
       end.

(** ** Choice of a transport archetype *)
Record ArchetypeCandidate := {
  ar_id : ArchetypeVersionId;
  ar_compatible : bool;
  ar_active : bool;
  ar_bundle_active : bool;
  ar_allocated_credentials : N;
  ar_max_credentials : N;
  ar_allocation_weight : N;
}.

Definition archetype_eligible (candidate : ArchetypeCandidate) : bool :=
  candidate.(ar_compatible) && candidate.(ar_active) && candidate.(ar_bundle_active)
  && (candidate.(ar_allocated_credentials) <? candidate.(ar_max_credentials))
  && (0 <? candidate.(ar_allocation_weight)).

Definition total_weight (eligible : list ArchetypeCandidate) : N :=
  foldl (λ sum candidate, saturating_add U64_MAX sum candidate.(ar_allocation_weight)) 0 eligible.

(** The loop over the eligible candidates. *)
Fixpoint pick_weighted (eligible : list ArchetypeCandidate) (point : N) : option ArchetypeVersionId :=
  match eligible with
  | [] => None
  | candidate :: rest =>
      let weight := candidate.(ar_allocation_weight) in
      if point <? weight then Some candidate.(ar_id) else pick_weighted rest (point - weight)
  end.

Definition choose_archetype (candidates : list ArchetypeCandidate) (seed : N) : option ArchetypeVersionId :=
  let eligible := filter archetype_eligible candidates in
  let total := total_weight eligible in
  if total =? 0 then None else pick_weighted eligible (seed mod total).

(** ** The refresh schedule *)
Record RefreshPolicy := {
  guard_ratio_basis_points : N;
  minimum_guard : Duration;
  maximum_guard : Duration;
  maximum_jitter : Duration;
}.

Definition refresh_policy_default : RefreshPolicy :=
  {| guard_ratio_basis_points := 1000; minimum_guard := from_mins 5; maximum_guard := from_hours 4;
     maximum_jitter := from_secs 30 |}.

(** [Ord::clamp], on bounds in order (it panics on others; [refresh_after]
    never passes them). *)
Definition clamp (value low high : N) : N :=
  if value <? low then low else if high <? value then high else value.

Definition refresh_after (self : RefreshPolicy) (lifetime jitter : Duration) : DomainResult Duration :=
  if (10000 <? self.(guard_ratio_basis_points)) || (self.(maximum_guard) <? self.(minimum_guard))
     || (self.(maximum_jitter) <? jitter)
  then Err InvalidValue
  else match checked_mul DURATION_MAX lifetime self.(guard_ratio_basis_points) with
       | None => Err InvalidValue
       | Some product =>
           let ratio_guard := product / 10000 in
           let guard := clamp ratio_guard (N.min self.(minimum_guard) lifetime) (N.min self.(maximum_guard) lifetime) in
           Ok (N.min (dur_add (dur_sub lifetime guard) jitter) lifetime)
       end.

Definition plan_adapter (self : AuthKind) : PlanAdapter :=
  match self with
  | OauthSubscription => OauthProfile
  | SetupTokenSubscription => ClaudeCliBootstrap
  | ConsoleApiKey => Adapter_NotApplicable
  end.

(** ** Schedulability and canonical status *)

Lemma push_if_nil condition blocker rest :
  push_if condition blocker rest = [] ↔ condition = false ∧ rest = [].
Proof.
  unfold push_if. destruct condition; [|tauto]. split; [|by intros []].
  intros H. by apply app_eq_nil in H as [_ ?].
Qed.

(** A credential without blockers is healthy in each of its eight dimensions. *)
Lemma blockers_nil s :
  blockers s = [] ↔
  s.(lifecycle) = Lifecycle_Active ∧ s.(attachment) = Attached ∧ auth_usable s.(auth) = true ∧
  management_blocks s.(management_class) = false ∧ s.(profile_ready) = true ∧ s.(egress_ready) = true ∧
  s.(transport) = Ready ∧ s.(purpose_compatible) = true.
Proof.
  unfold blockers. cbv zeta. rewrite !push_if_nil, !bool_decide_eq_false, !negb_false_iff.
  split; intros; destruct_and!; split_and!; try done; try (by apply dec_stable); intros N; by apply N.
Qed.

(** the scheduler's view and the console's view of a credential agree: it is
    schedulable exactly when its canonical status is Active, Limited or
    HalfOpen, its management class does not hold it back and its purpose fits. *)
Theorem schedulable_iff_canonical s :
  is_schedulable s = true ↔
  canonical_status s ∈ [Status_Active; Status_Limited; Status_HalfOpen] ∧
  management_blocks s.(management_class) = false ∧ s.(purpose_compatible) = true.
Proof.
  unfold is_schedulable. rewrite andb_true_iff, is_empty_spec, blockers_nil, bool_decide_eq_true, !elem_of_cons, elem_of_nil.
  unfold canonical_status. destruct s as [l at' au ca tr mc pr er pc]; simpl.
  destruct l, at', au; simpl; try (split; intros; destruct_and?; destruct_or?; congruence).
  all: destruct tr, pr, er, ca; simpl; split; intros; destruct_and?; destruct_or?; split_and!; auto; congruence.
Qed.

(** ** The lifecycle *)

(** How far a credential is on its way out of service. *)
Definition retirement (l : CredentialLifecycle) : N :=
  match l with Lifecycle_Archived => 2 | Lifecycle_Revoked => 1 | _ => 0 end.

Definition is_pending (l : CredentialLifecycle) : bool :=
  match l with
  | PendingVerify | PendingProfile | PendingEgress | Lifecycle_PendingReauthStrategy => true
  | _ => false
  end.

Lemma with_lifecycle_same s : with_lifecycle s s.(lifecycle) = s.
Proof. by destruct s. Qed.

(** One call: on an error nothing changes; on success only the lifecycle does. *)
Lemma lifecycle_call_cases s c :
  match lifecycle_call s c with
  | (Err e, s') => e = InvalidStateTransition ∧ s' = s
  | (Ok _, s') =>
      s' = with_lifecycle s s'.(lifecycle) ∧
      match c with
      | CallActivate => (is_pending s.(lifecycle) = true ∨ s.(lifecycle) = Lifecycle_Disabled) ∧
                        s'.(lifecycle) = Lifecycle_Active ∧ blockers s' = []
      | CallDisable => s.(lifecycle) = Lifecycle_Active ∧ s'.(lifecycle) = Lifecycle_Disabled
      | CallRevoke => retirement s.(lifecycle) = 0 ∧ s'.(lifecycle) = Lifecycle_Revoked
      | CallArchive leases operations =>
          (s.(lifecycle) = Lifecycle_Disabled ∨ s.(lifecycle) = Lifecycle_Revoked) ∧
          s'.(lifecycle) = Lifecycle_Archived ∧ leases = 0 ∧ operations = 0 ∧
          s.(attachment) ≠ Attachment_Draining
      end
  end.
Proof.
  destruct c as [| | |leases operations]; simpl.
  - unfold credential_activate. destruct (lifecycle s) eqn:El; try done.
    all: destruct (is_empty (blockers (with_lifecycle s Lifecycle_Active))) eqn:E; simpl;
      [apply is_empty_spec in E; auto|rewrite <- El; split; [done|apply (with_lifecycle_same s)]].
  - unfold credential_disable. case_bool_decide as Hl; [by split|]. simpl. by rewrite Hl.
  - unfold credential_revoke. destruct (lifecycle s) eqn:El; done.
  - unfold credential_archive. destruct (_ || _)%bool eqn:E; [done|]. bool_prop. simpl.
    split; [done|]. split_and!; try done. destruct (lifecycle s); simpl in *; try done; auto.
Qed.

(** whatever calls are made, in whatever order: only the lifecycle
    field ever changes; a credential on its way out never comes back (archived is final,
    revoked only becomes archived); nothing ever enters a pending lifecycle; a
    credential that became active had no blocker left; and one that became
    archived was archived by a call that saw no lease and no operation, and its
    attachment is not draining. *)
Theorem lifecycle_one_way s calls :
  let s' := lifecycle_run s calls in
  s' = with_lifecycle s s'.(lifecycle) ∧
  retirement s.(lifecycle) <= retirement s'.(lifecycle) ∧
  (is_pending s'.(lifecycle) = true → s' = s) ∧
  (s'.(lifecycle) = Lifecycle_Active → s.(lifecycle) = Lifecycle_Active ∨ blockers s' = []) ∧
  (s'.(lifecycle) = Lifecycle_Archived → s.(lifecycle) = Lifecycle_Archived ∨
     CallArchive 0 0 ∈ calls ∧ s'.(attachment) ≠ Attachment_Draining).
Proof.
  simpl. induction calls as [|c calls IH] using rev_ind.
  { unfold lifecycle_run; simpl. rewrite with_lifecycle_same. split_and!; auto; lia. }
  unfold lifecycle_run in *. rewrite foldl_app. simpl. set (t := foldl _ s calls) in *. clearbody t.
  destruct IH as (IHeq & IHr & IHp & IHa & IHz).
  pose proof (lifecycle_call_cases t c) as Hc. destruct (lifecycle_call t c) as [[[]|e] t']; simpl.
  2: { destruct Hc as [_ ->]. split_and!; auto. intros HA. destruct (IHz HA) as [|[? ?]]; [by left|right].
       split; [|done]. apply elem_of_app. by left. }
  destruct Hc as [Heq Hc]. assert (attachment t' = attachment t) as Hat by by rewrite Heq.
  assert (t' = with_lifecycle s (lifecycle t')) as Heq'.
  { rewrite IHeq in Heq. by rewrite Heq at 1. }
  destruct c as [| | |leases operations].
  - destruct Hc as (Hfrom & Hto & Hb). rewrite Hto in *. assert (retirement (lifecycle t) = 0) as Hr.
    { destruct Hfrom as [Hf| ->]; [|done]. by destruct (lifecycle t). }
    split_and!; auto; try done. by rewrite Hr in IHr.
  - destruct Hc as (Hfrom & Hto). rewrite Hto in *. rewrite Hfrom in *. by split_and!.
  - destruct Hc as (Hfrom & Hto). rewrite Hto in *. split_and!; try done. simpl. lia.
  - destruct Hc as (Hfrom & Hto & -> & -> & Hd). rewrite Hto in *. split_and!; try done.
    + simpl. destruct (lifecycle s); simpl; lia.
    + intros _. right. split; [apply elem_of_app; right; left|]. congruence.
Qed.

(** ** Egress *)

(** The cross-multiplied load of [left] is not above that of [right]. *)
Definition not_busier (left right : ProxyCandidate) : Prop :=
  left.(px_active_bindings) * right.(px_max_active_bindings)
    < right.(px_active_bindings) * left.(px_max_active_bindings) ∨
  left.(px_active_bindings) * right.(px_max_active_bindings)
    = right.(px_active_bindings) * left.(px_max_active_bindings) ∧ key_le left.(px_id) right.(px_id).

(** The binding counters are [u32] values. *)
Definition proxy_u32 (p : ProxyCandidate) : Prop :=
  p.(px_active_bindings) <= U32_MAX ∧ p.(px_max_active_bindings) <= U32_MAX.

Lemma u32_product a b : a <= U32_MAX → b <= U32_MAX → wrapping_mul U64_MAX a b = a * b.
Proof. intros Ha Hb. apply wrapping_mul_small. widths. rewrite U32_MAX_val in Ha, Hb. rewrite U64_MAX_val. nia. Qed.

Lemma proxy_load_order_ok :
  cmp_ok proxy_load_order (λ p, proxy_u32 p ∧ 0 < p.(px_max_active_bindings)).
Proof.
  apply (cmp_ok_ext _ (λ x y, then_with
    (x.(px_active_bindings) * y.(px_max_active_bindings) ?= y.(px_active_bindings) * x.(px_max_active_bindings))
    (key_cmp x.(px_id) y.(px_id)))).
  - intros x y [[? ?] ?] [[? ?] ?]. unfold proxy_load_order. cbv zeta. by rewrite !u32_product.
  - apply then_with_ok; [|by apply (cmp_ok_pull px_id key_cmp (λ _, True)); [|apply key_cmp_ok]].
    destruct (pressure_ok px_active_bindings px_max_active_bindings) as [O T].
    split; [intros x y [_ ?] [_ ?]; by apply O|intros x y z [_ ?] [_ ?] [_ ?]; by apply T].
Qed.

Lemma proxy_load_order_le x y :
  proxy_u32 x → proxy_u32 y → proxy_load_order x y ≠ Gt → not_busier x y.
Proof.
  intros [? ?] [? ?]. unfold proxy_load_order, not_busier. cbv zeta. rewrite !u32_product by done.
  destruct (N.compare_spec (px_active_bindings x * px_max_active_bindings y)
    (px_active_bindings y * px_max_active_bindings x)); simpl; [rewrite key_cmp_le; auto|auto|done].
Qed.

Lemma proxy_usable_room p : proxy_usable p = true →
  px_active_bindings p < px_max_active_bindings p ∧ 0 < px_max_active_bindings p.
Proof. unfold proxy_usable. intros H. bool_prop. done. Qed.

(** the proxy a credential is bound to is usable (active, healthy, static, within
    its validity and with room for one more binding), and none of the usable ones has a lower
    ratio of bindings to capacity, the smaller identifier breaking ties; the
    credential waits exactly when no proxy is usable; traffic goes out directly exactly under the Direct policy. The
    cross products of the ratio comparison do not wrap. *)
Theorem choose_egress_least_loaded policy proxies :
  Forall proxy_u32 proxies →
  match choose_egress policy proxies with
  | Egress_Direct => policy = Policy_Direct
  | Egress_Proxy id => policy ≠ Policy_Direct ∧
      ∃ p, p ∈ proxies ∧ px_id p = id ∧ proxy_usable p = true ∧
           ∀ q, q ∈ proxies → proxy_usable q = true → not_busier p q
  | WaitForEgress => policy ≠ Policy_Direct ∧ ∀ q, q ∈ proxies → proxy_usable q = false
  end.
Proof.
  rewrite Forall_forall. intros HU. unfold choose_egress. case_bool_decide as Hp; [done|].
  destruct (min_by _ _) as [p|] eqn:Em.
  - split; [done|]. apply (min_by_spec _ _ _ _ proxy_load_order_ok) in Em.
    + destruct Em as [Hin Hmin]. apply list_elem_of_filter in Hin as [Hpu Hin]. apply Is_true_true in Hpu.
      exists p. split_and!; try done. intros q Hq Hqu. apply proxy_load_order_le; auto.
      apply Hmin, list_elem_of_filter. split; [by apply Is_true_true|done].
    + intros y [Hy Hin]%list_elem_of_filter. apply Is_true_true, proxy_usable_room in Hy. split; [auto|tauto].
  - apply min_by_None in Em. split; [done|]. intros q Hq. apply not_true_iff_false. intros Hqu.
    assert (q ∈ filter proxy_usable proxies) as Hin.
    { apply list_elem_of_filter. split; [by apply Is_true_true|done]. }
    rewrite Em in Hin. by apply not_elem_of_nil in Hin.
Qed.

Definition sample_proxy (id : string) (active max : N) : ProxyCandidate :=
  {| px_id := MkTypedId id; px_lifecycle := Proxy_Active; px_health := Health_Healthy; px_stability := Static;
     px_active_bindings := active; px_max_active_bindings := max; px_within_validity_window := true |}.

Lemma choose_egress_least_loaded_witness :
  let proxies := [sample_proxy "p1" 2 4; sample_proxy "p3" 2 8; sample_proxy "p2" 1 4; sample_proxy "p4" 4 4] in
  choose_egress Policy_Auto proxies = Egress_Proxy (MkTypedId "p2") ∧
  ∃ p, p ∈ proxies ∧ px_id p = MkTypedId "p2" ∧ proxy_usable p = true ∧
       ∀ q, q ∈ proxies → proxy_usable q = true → not_busier p q.
Proof.
  split; [vm_compute; reflexivity|].
  refine (proj2 (choose_egress_least_loaded Policy_Auto
    [sample_proxy "p1" 2 4; sample_proxy "p3" 2 8; sample_proxy "p2" 1 4; sample_proxy "p4" 4 4] _)).
  repeat constructor; vm_compute; discriminate.
Defined.

(** ** Archetypes *)

Definition sum_weight (l : list ArchetypeCandidate) : N := foldr (λ c sum, ar_allocation_weight c + sum) 0 l.

Lemma total_weight_sum l : total_weight l = N.min (sum_weight l) U64_MAX.
Proof.
  unfold total_weight. enough (∀ acc, acc <= U64_MAX →
    foldl (λ sum c, saturating_add U64_MAX sum (ar_allocation_weight c)) acc l = N.min (acc + sum_weight l) U64_MAX) as H.
  { rewrite H; [done|apply N.le_0_l]. }
  induction l as [|c l IH]; intros acc Hacc; simpl; [lia|].
  rewrite IH by (unfold saturating_add; lia). unfold saturating_add. lia.
Qed.

(** The loop never falls through while the point is below the sum of the weights. *)
Lemma pick_weighted_total l point :
  point < sum_weight l → ∃ c, c ∈ l ∧ 0 < ar_allocation_weight c ∧ pick_weighted l point = Some c.(ar_id).
Proof.
  revert point. induction l as [|c l IH]; intros point Hp; simpl in *; [lia|].
  destruct (N.ltb_spec point (ar_allocation_weight c)).
  - exists c. split_and!; [left|lia|done].
  - destruct (IH (point - ar_allocation_weight c)) as (d & ? & ? & ?); [lia|]. exists d. split_and!; auto. by right.
Qed.

Lemma length_filter_fmap {A B} (f : A → B) (P : B → Prop) `{!∀ x, Decision (P x)} l :
  length (filter P (f <$> l)) = length (filter (λ x, P (f x)) l).
Proof. induction l as [|x l IH]; [done|]. rewrite fmap_cons, !filter_cons. case_decide; simpl; auto. Qed.

(** The points below [n] at which [pick] answers [id]. *)
Definition hits (pick : N → option ArchetypeVersionId) (id : ArchetypeVersionId) (n : N) : nat :=
  length (filter (λ k : nat, pick (N.of_nat k) = Some id) (seq 0 (N.to_nat n))).

Lemma hits_ext pick1 pick2 id n : (∀ k, k < n → pick1 k = pick2 k) → hits pick1 id n = hits pick2 id n.
Proof.
  intros HE. unfold hits. f_equal. apply list_filter_iff_in. intros k Hk%elem_of_seq. rewrite HE; [done|lia].
Qed.

Lemma hits_split pick id m n : hits pick id (m + n) = (hits pick id m + hits (λ k, pick (m + k)%N) id n)%nat.
Proof.
  unfold hits. rewrite N2Nat.inj_add, seq_app, filter_app, length_app. f_equal.
  rewrite Nat.add_comm, <- fmap_add_seq, length_filter_fmap. f_equal.
  apply list_filter_iff_in. intros k _. unfold compose. by rewrite Nat2N.inj_add, N2Nat.id.
Qed.

Lemma hits_const o id n : hits (λ _, o) id n = if decide (o = Some id) then N.to_nat n else 0%nat.
Proof.
  unfold hits. transitivity (if decide (o = Some id) then length (seq 0 (N.to_nat n)) else 0%nat);
    [|by rewrite length_seq].
  induction (seq 0 (N.to_nat n)) as [|k l IH]; [by case_decide|]. rewrite filter_cons.
  repeat case_decide; simpl; auto.
Qed.

Lemma pick_weighted_hits l id :
  hits (pick_weighted l) id (sum_weight l) = N.to_nat (sum_weight (filter (λ c, ar_id c = id) l)).
Proof.
  induction l as [|c l IH]; simpl; [done|]. rewrite hits_split, filter_cons.
  rewrite (hits_ext _ (λ _, Some (ar_id c)) id (ar_allocation_weight c)).
  2: { intros k Hk. by rewrite (proj2 (N.ltb_lt _ _) Hk). }
  rewrite hits_const. rewrite (hits_ext _ (pick_weighted l) id (sum_weight l)).
  2: { intros k Hk. rewrite (proj2 (N.ltb_ge _ _)) by lia. f_equal. lia. }
  rewrite IH. do 2 case_decide; simplify_eq/=; lia.
Qed.

(** an archetype is drawn with probability proportional to its weight.
    Some eligible archetype is chosen for every seed unless there is none; only the seed modulo
    the total weight matters; and of the seeds of one period each archetype
    gets exactly as many as its weight. *)
Theorem choose_archetype_proportional candidates :
  let eligible := filter archetype_eligible candidates in
  let total := sum_weight eligible in
  total <= U64_MAX →
  (∀ seed, match choose_archetype candidates seed with
           | Some id => ∃ c, c ∈ eligible ∧ c.(ar_id) = id
           | None => eligible = []
           end) ∧
  (0 < total → ∀ seed, choose_archetype candidates seed = choose_archetype candidates (seed mod total)) ∧
  ∀ id, hits (choose_archetype candidates) id total =
        N.to_nat (sum_weight (filter (λ c, c.(ar_id) = id) eligible)).
Proof.
  intros eligible total Hmax. unfold choose_archetype. fold eligible. rewrite total_weight_sum. fold total.
  rewrite N.min_l by done. split_and!.
  - intros seed. destruct (N.eqb_spec total 0) as [Hz|Hnz].
    + assert (∀ c, c ∈ eligible → 0 < ar_allocation_weight c) as Hpos.
      { intros c [Hc _]%list_elem_of_filter. apply Is_true_true in Hc. unfold archetype_eligible in Hc. by bool_prop. }
      unfold total in Hz. destruct eligible as [|c l]; [done|]. specialize (Hpos c ltac:(left)). simpl in Hz. lia.
    + destruct (pick_weighted_total eligible (seed mod total)) as (c & Hc & _ & ->); [by apply N.mod_lt|]. by exists c.
  - intros Hpos seed. rewrite (proj2 (N.eqb_neq _ _)) by lia. by rewrite N.Div0.mod_mod.
  - intros id. destruct (N.eqb_spec total 0) as [Hz|Hnz].
    + rewrite Hz. symmetry. unfold total in Hz. transitivity (N.to_nat 0); [f_equal|done].
      clear -Hz. induction eligible as [|c l IH]; simpl in *; [done|].
      rewrite filter_cons. case_decide; simpl; rewrite ?IH by lia; lia.
    + rewrite <- pick_weighted_hits. apply hits_ext. intros k Hk. by rewrite N.mod_small.
Qed.

Definition sample_archetype (id : string) (allocated weight : N) : ArchetypeCandidate :=
  {| ar_id := MkTypedId id; ar_compatible := true; ar_active := true; ar_bundle_active := true;
     ar_allocated_credentials := allocated; ar_max_credentials := 10; ar_allocation_weight := weight |}.

Lemma choose_archetype_proportional_witness :
  let candidates := [sample_archetype "a" 0 1; sample_archetype "full" 10 5; sample_archetype "b" 3 2] in
  choose_archetype candidates 5 = Some (MkTypedId "b") ∧ hits (choose_archetype candidates) (MkTypedId "b") 3 = 2%nat.
Proof.
  split; [vm_compute; reflexivity|].
  refine (proj2 (proj2 (choose_archetype_proportional
    [sample_archetype "a" 0 1; sample_archetype "full" 10 5; sample_archetype "b" 3 2] _)) (MkTypedId "b")).
  vm_compute. discriminate.
Defined.

(** ** Epochs *)

(** The counters a change moves, besides the revision. *)
Definition moves_token (c : ContinuityChange) : bool :=
  match c with Change_Refresh | SameAccountRecovery => true | _ => false end.

Definition moves_profile (c : ContinuityChange) : bool :=
  match c with Cohort | EgressRebind | DeviceRebuild => true | _ => false end.

Definition moves_device (c : ContinuityChange) : bool := match c with DeviceRebuild => true | _ => false end.

Definition moves_egress (c : ContinuityChange) : bool := match c with EgressRebind => true | _ => false end.

Definition plus_if (b : bool) (v : N) : N := if b then v + 1 else v.

(** The set after the change, were there no bound. *)
Definition advanced (e : EpochSet) (c : ContinuityChange) : EpochSet :=
  {| revision := e.(revision) + 1;
     token_version := plus_if (moves_token c) e.(token_version);
     profile_epoch := plus_if (moves_profile c) e.(profile_epoch);
     device_epoch := plus_if (moves_device c) e.(device_epoch);
     egress_epoch := plus_if (moves_egress c) e.(egress_epoch) |}.

Definition epochs_fit (e : EpochSet) : Prop :=
  e.(revision) <= U64_MAX ∧ e.(token_version) <= U64_MAX ∧ e.(profile_epoch) <= U64_MAX ∧
  e.(device_epoch) <= U64_MAX ∧ e.(egress_epoch) <= U64_MAX.

Lemma increment_cases v : v + 1 <= U64_MAX ∧ increment v = Ok (v + 1) ∨ U64_MAX < v + 1 ∧ increment v = Err InvalidValue.
Proof. unfold increment, checked_add. destruct (N.leb_spec (v + 1) U64_MAX); auto. Qed.

(** The part of the identity a counter fences never goes back. *)
Definition epochs_le (a b : EpochSet) : Prop :=
  a.(revision) <= b.(revision) ∧ a.(token_version) <= b.(token_version) ∧
  a.(profile_epoch) <= b.(profile_epoch) ∧ a.(device_epoch) <= b.(device_epoch) ∧
  a.(egress_epoch) <= b.(egress_epoch).

(** a continuity change succeeds exactly when every counter it moves has room in 64
    bits, and then moves exactly those counters and the revision by one. A failed
    change reports an invalid value, leaves the revision where it was and
    moves no counter back, though a counter changed before the overflow stays changed. *)
Theorem epoch_apply_exact e change :
  epochs_fit e →
  match epoch_apply e change with
  | (Ok _, e') => e' = advanced e change ∧ epochs_fit e'
  | (Err err, e') => err = InvalidValue ∧ ¬ epochs_fit (advanced e change) ∧
      e'.(revision) = e.(revision) ∧ epochs_le e e' ∧ epochs_fit e'
  end.
Proof.
  destruct e as [r t p d g]. unfold epochs_fit, epochs_le. simpl. intros (? & ? & ? & ? & ?).
  destruct (increment_cases r) as [[? Er]|[? Er]], (increment_cases t) as [[? Et]|[? Et]],
    (increment_cases p) as [[? Ep]|[? Ep]], (increment_cases d) as [[? Ed]|[? Ed]],
    (increment_cases g) as [[? Eg]|[? Eg]], change;
    unfold epoch_apply, and_then, bump; simpl; rewrite ?Et, ?Ep; simpl; rewrite ?Eg, ?Ed; simpl; rewrite ?Er; simpl;
    split_and!; try done; lia.
Qed.

Lemma epoch_apply_exact_witness :
  let e := {| revision := 7; token_version := 1; profile_epoch := 3; device_epoch := 0; egress_epoch := U64_MAX |} in
  (epoch_apply e EgressRebind).1 = Err InvalidValue ∧ profile_epoch (epoch_apply e EgressRebind).2 = 4 ∧
  revision (epoch_apply e EgressRebind).2 = 7.
Proof.
  split; [vm_compute; reflexivity|]. split; [vm_compute; reflexivity|].
  refine (proj1 (proj2 (proj2 (epoch_apply_exact
    {| revision := 7; token_version := 1; profile_epoch := 3; device_epoch := 0; egress_epoch := U64_MAX |}
    EgressRebind _)))).
  repeat split; vm_compute; discriminate.
Defined.

(** ** Refreshing *)

Lemma clamp_bounds v low high : low <= high → low <= clamp v low high <= high.
Proof. unfold clamp. intros. destruct (N.ltb_spec v low); [lia|]. destruct (N.ltb_spec high v); lia. Qed.

(** a refresh is planned before the token expires. With consistent
    bounds the plan never lies beyond the lifetime, starts no earlier than the maximum guard
    before the expiry and, the jitter apart, no later than the minimum guard before it; the clamp inside
    is called with its bounds in order. It is refused exactly for a ratio above 100%, guards in the wrong order, too
    much jitter, or a lifetime that overflows. *)
Theorem refresh_after_in_guard policy lifetime jitter :
  lifetime <= DURATION_MAX →
  match refresh_after policy lifetime jitter with
  | Ok after =>
      after <= lifetime ∧
      lifetime - policy.(maximum_guard) <= after ∧
      after <= (lifetime - policy.(minimum_guard)) + jitter ∧ jitter <= policy.(maximum_jitter) ∧
      N.min policy.(minimum_guard) lifetime <= N.min policy.(maximum_guard) lifetime
  | Err err => err = InvalidValue ∧
      (10000 < policy.(guard_ratio_basis_points) ∨ policy.(maximum_guard) < policy.(minimum_guard) ∨
       policy.(maximum_jitter) < jitter ∨ DURATION_MAX < lifetime * policy.(guard_ratio_basis_points))
  end.
Proof.
  intros Hl. unfold refresh_after. destruct (_ || _)%bool eqn:E.
  { split; [done|]. rewrite !orb_true_iff, !N.ltb_lt in E. tauto. }
  bool_prop. unfold checked_mul. destruct (N.leb_spec (lifetime * guard_ratio_basis_points policy) DURATION_MAX); [|auto].
  cbv zeta. unfold dur_add, dur_sub, saturating_add, saturating_sub.
  pose proof (clamp_bounds (lifetime * guard_ratio_basis_points policy / 10000) (N.min (minimum_guard policy) lifetime)
    (N.min (maximum_guard policy) lifetime) ltac:(lia)) as Hc.
  generalize dependent (clamp (lifetime * guard_ratio_basis_points policy / 10000)
    (N.min (minimum_guard policy) lifetime) (N.min (maximum_guard policy) lifetime)). intros g Hg.
  generalize dependent DURATION_MAX. intros M Hl Hm. lia.
Qed.

Lemma refresh_after_in_guard_witness :
  refresh_after refresh_policy_default (from_hours 8) (from_secs 10) = Ok (from_hours 8 - from_mins 48 + from_secs 10) ∧
  from_hours 8 - from_mins 48 + from_secs 10 <= from_hours 8 - from_mins 5 + from_secs 10.
Proof.
  split; [vm_compute; reflexivity|].
  exact (proj1 (proj2 (proj2 (refresh_after_in_guard refresh_policy_default (from_hours 8) (from_secs 10)
    ltac:(vm_compute; discriminate))))).
Defined.
