(* ===== verification/Enrollment.v ===== *)
(** The enrollment and maintenance workflows of
    [crates/gateway-domain/src/credential.rs]: two state machines over frozen
    transition graphs, with the histories of commands they accept. *)

From S2P Require Import Prelude Machine.
From S2P Require Import Domain.
From S2P Require Import Credential.
Local Open Scope N_scope.

(** ** Enumerations *)
Inductive EnrollmentMode := Create | Recover.

#[export] Instance EnrollmentMode_eq_dec : EqDecision EnrollmentMode.
Proof. solve_decision. Defined.

Inductive EnrollmentAuthMethod :=
  | OauthPkce
  | SetupToken
  | ExistingOauth
  | Method_BrowserSessionImport
  | Method_ConsoleApiKey.

Inductive EnrollmentState :=
  | Created
  | ResolvingEgress
  | AwaitingUserAction
  | ExchangingMaterial
  | VerifyingAccount
  | Deduplicating
  | RecoveringExisting
  | ProvisioningIdentity
  | ConfiguringReauth
  | ActivationCheck
  | Succeeded
  | Failed
  | Cancelled
  | Expired.

#[export] Instance EnrollmentState_eq_dec : EqDecision EnrollmentState.
Proof. solve_decision. Defined.

Inductive EnrollmentNextAction :=
  | Next_WaitForEgress
  | OpenAuthorizationUrl
  | SubmitSetupMaterial
  | SubmitExistingOauthMaterial
  | CompleteOauthCallback
  | CompleteBrowserLogin
  | Next_Retry
  | Next_ManualRecovery
  | Next_None.

#[export] Instance EnrollmentNextAction_eq_dec : EqDecision EnrollmentNextAction.
Proof. solve_decision. Defined.

Inductive MaintenanceKind :=
  | Kind_Verify
  | Kind_Refresh
  | Reauthenticate
  | Kind_ManualRecovery
  | AuthMethodMigration
  | Kind_PlanCollect
  | Kind_BrowserHealth.

Inductive MaintenanceTrigger :=
  | Trigger_Enrollment
  | Scheduled
  | ExpiryGuard
  | Upstream401
  | Admin
  | Trigger_ManualRecovery
  | StrategyHealth.

Inductive ConflictClass := AuthMaterialWrite | Class_PlanCollect | Class_BrowserHealth.

Inductive MaintenanceState :=
  | Maint_Planned
  | Maint_Leased
  | Maint_Running
  | Maint_VerifyingAccount
  | Maint_Committing
  | Maint_WaitingBackoff
  | Maint_WaitingEgress
  | Maint_NeedsAttention
  | Maint_Succeeded
  | Maint_Failed
  | Maint_Cancelled
  | Maint_Expired.

#[export] Instance MaintenanceState_eq_dec : EqDecision MaintenanceState.
Proof. solve_decision. Defined.

(** ** Enrollment *)
Record Enrollment := {
  en_id : EnrollmentId;
  en_mode : EnrollmentMode;
  en_target_group_id : GroupId;
  en_auth_method : EnrollmentAuthMethod;
  en_pending_credential_id : option CredentialId;
  en_recovery_credential_id : option CredentialId;
  en_expected_credential_revision : option N;
  en_state : EnrollmentState;
  en_next_action : EnrollmentNextAction;
  en_egress_snapshot : option EgressBindingSnapshot;
  en_identified_account_uuid : option AnthropicAccountUuid;
  en_material_secret_refs : list SecretId;
  en_attempt_count : N;
  en_expires_after : Duration;
  en_revision : N;
}.

(** The three fields a transition writes. *)
Definition with_progress (e : Enrollment) (state : EnrollmentState) (next : EnrollmentNextAction) (revision : N)
    : Enrollment :=
  {| en_id := e.(en_id); en_mode := e.(en_mode); en_target_group_id := e.(en_target_group_id);
     en_auth_method := e.(en_auth_method); en_pending_credential_id := e.(en_pending_credential_id);
     en_recovery_credential_id := e.(en_recovery_credential_id);
     en_expected_credential_revision := e.(en_expected_credential_revision);
     en_state := state; en_next_action := next; en_egress_snapshot := e.(en_egress_snapshot);
     en_identified_account_uuid := e.(en_identified_account_uuid);
     en_material_secret_refs := e.(en_material_secret_refs); en_attempt_count := e.(en_attempt_count);
     en_expires_after := e.(en_expires_after); en_revision := revision |}.

(** [matches!(state, Succeeded | Failed | Cancelled | Expired)]. *)
Definition terminal_enrollment_state (state : EnrollmentState) : bool :=
  match state with Succeeded | Failed | Cancelled | Expired => true | _ => false end.

Definition enrollment_is_terminal (self : Enrollment) : bool := terminal_enrollment_state self.(en_state).

Definition valid_enrollment_transition (from to : EnrollmentState) (mode : EnrollmentMode) : bool :=
  match to with
  | Failed | Cancelled | Expired => true
  | _ =>
      match from, to with
      | Created, ResolvingEgress
      | ResolvingEgress, AwaitingUserAction
      | AwaitingUserAction, ExchangingMaterial
      | ExchangingMaterial, VerifyingAccount
      | VerifyingAccount, Deduplicating
      | Deduplicating, ProvisioningIdentity
      | ProvisioningIdentity, ConfiguringReauth
      | ConfiguringReauth, ActivationCheck
      | ActivationCheck, Succeeded => true
      | Deduplicating, RecoveringExisting
      | RecoveringExisting, ConfiguringReauth => bool_decide (mode = Recover)
      | _, _ => false
      end
  end.

(** State and next action are written before the revision is incremented, so
    they stay when that overflows. *)
Definition enrollment_transition (self : Enrollment) (state : EnrollmentState) (next_action : EnrollmentNextAction)
    : DomainResult unit * Enrollment :=
  if enrollment_is_terminal self then (Err TerminalState, self)
  else if negb (valid_enrollment_transition self.(en_state) state self.(en_mode))
  then (Err InvalidStateTransition, self)
  else if terminal_enrollment_state state && bool_decide (next_action ≠ Next_None)
  then (Err InvalidStateTransition, self)
  else
    match increment self.(en_revision) with
    | Ok revision => (Ok tt, with_progress self state next_action revision)
    | Err err => (Err err, with_progress self state next_action self.(en_revision))
    end.

Inductive EnrollmentAction :=
  | Advance (state : EnrollmentState) (next_action : EnrollmentNextAction)
  | Act_Fail
  | Act_Cancel
  | Act_Expire.

Inductive SubmittedAuthMaterial :=
  | OauthTokens (access : SecretId) (refresh : option SecretId) (expires_after : option Duration)
  | BrowserSessionImport (cookie_jar : SecretId) (web_storage : option SecretId).

(** ** Maintenance *)
Record MaintenanceOperation := {
  mo_id : MaintenanceOperationId;
  mo_credential_id : CredentialId;
  mo_kind : MaintenanceKind;
  mo_trigger : MaintenanceTrigger;
  mo_conflict_class : ConflictClass;
  mo_state : MaintenanceState;
  mo_expected_revision : N;
  mo_expected_token_version : N;
  mo_expected_egress : EgressBindingSnapshot;
  mo_generation : N;
  mo_attempt_count : N;
}.

Definition with_mo_state (m : MaintenanceOperation) (state : MaintenanceState) : MaintenanceOperation :=
  {| mo_id := m.(mo_id); mo_credential_id := m.(mo_credential_id); mo_kind := m.(mo_kind);
     mo_trigger := m.(mo_trigger); mo_conflict_class := m.(mo_conflict_class); mo_state := state;
     mo_expected_revision := m.(mo_expected_revision);
     mo_expected_token_version := m.(mo_expected_token_version);
     mo_expected_egress := m.(mo_expected_egress); mo_generation := m.(mo_generation);
     mo_attempt_count := m.(mo_attempt_count) |}.

Definition terminal_maintenance_state (state : MaintenanceState) : bool :=
  match state with Maint_Succeeded | Maint_Failed | Maint_Cancelled | Maint_Expired => true | _ => false end.

Definition maintenance_is_terminal (self : MaintenanceOperation) : bool := terminal_maintenance_state self.(mo_state).

Definition valid_maintenance_transition (from to : MaintenanceState) : bool :=
  match to with
  | Maint_Failed | Maint_Cancelled | Maint_Expired => true
  | _ =>
      match from, to with
      | (Maint_Planned | Maint_WaitingBackoff | Maint_WaitingEgress | Maint_NeedsAttention), Maint_Leased
      | Maint_Leased, Maint_Running
      | Maint_Running,
          (Maint_VerifyingAccount | Maint_WaitingBackoff | Maint_WaitingEgress | Maint_NeedsAttention)
      | Maint_VerifyingAccount, (Maint_Committing | Maint_NeedsAttention)
      | Maint_Committing, Maint_Succeeded => true
      | _, _ => false
      end
  end.

Definition maintenance_transition (self : MaintenanceOperation) (next : MaintenanceState)
    : DomainResult unit * MaintenanceOperation :=
  if maintenance_is_terminal self then (Err TerminalState, self)
  else if negb (valid_maintenance_transition self.(mo_state) next) then (Err InvalidStateTransition, self)
  else (Ok tt, with_mo_state self next).

(** ** Histories

    A history is a list of attempted transitions. Its trail is the list of the
    states the workflow has been in, oldest first, a refused attempt adding nothing. *)
Section trail.
Context {M S C : Type} `{EqDecision S} (state : M → S) (step : M → C → M).

Definition trail_step (t : M * list S) (c : C) : M * list S :=
  let m' := step t.1 c in
  (m', if decide (state m' = state t.1) then t.2 else t.2 ++ [state m']).

Definition trail (m : M) (commands : list C) : M * list S := foldl trail_step (m, [state m]) commands.

End trail.

Definition enrollment_step (e : Enrollment) (c : EnrollmentState * EnrollmentNextAction) : Enrollment :=
  (enrollment_transition e c.1 c.2).2.

Definition enrollment_trail (e : Enrollment) (commands : list (EnrollmentState * EnrollmentNextAction))
    : Enrollment * list EnrollmentState := trail en_state enrollment_step e commands.

Definition maintenance_step (m : MaintenanceOperation) (next : MaintenanceState) : MaintenanceOperation :=
  (maintenance_transition m next).2.

Definition maintenance_trail (m : MaintenanceOperation) (commands : list MaintenanceState)
    : MaintenanceOperation * list MaintenanceState := trail mo_state maintenance_step m commands.

(** The two ways an enrollment can succeed. *)
Definition create_route : list EnrollmentState :=
  [Created; ResolvingEgress; AwaitingUserAction; ExchangingMaterial; VerifyingAccount; Deduplicating;
   ProvisioningIdentity; ConfiguringReauth; ActivationCheck; Succeeded].

Definition recover_route : list EnrollmentState :=
  [Created; ResolvingEgress; AwaitingUserAction; ExchangingMaterial; VerifyingAccount; Deduplicating;
   RecoveringExisting; ConfiguringReauth; ActivationCheck; Succeeded].

Definition enrollment_routes (mode : EnrollmentMode) : list (list EnrollmentState) :=
  create_route :: (if decide (mode = Recover) then [recover_route] else []).

(** Every trail there can be: some way along a route, or some way short of its end
    and then a failure. *)
Definition enrollment_histories (mode : EnrollmentMode) : list (list EnrollmentState) :=
  r ← enrollment_routes mode;
  ((λ n, take n r) <$> seq 1 10) ++
  (n ← seq 1 9; (λ f, take n r ++ [f]) <$> [Failed; Cancelled; Expired]).

(** What a maintenance operation must just have gone through to be in a state. *)
Definition maintenance_run_up (s : MaintenanceState) : list MaintenanceState :=
  match s with
  | Maint_Running => [Maint_Leased; Maint_Running]
  | Maint_VerifyingAccount => [Maint_Leased; Maint_Running; Maint_VerifyingAccount]
  | Maint_Committing => [Maint_Leased; Maint_Running; Maint_VerifyingAccount; Maint_Committing]
  | Maint_Succeeded =>
      [Maint_Leased; Maint_Running; Maint_VerifyingAccount; Maint_Committing; Maint_Succeeded]
  | s => [s]
  end.

(** ** Lemmas on trails *)
Section trail_lemmas.
Context {M S C : Type} `{EqDecision S} (state : M → S) (step : M → C → M).

(** Rule induction over a trail. *)
Lemma trail_ind (P : M → list S → Prop) m :
  P m [state m] →
  (∀ m l c, P m l → state (step m c) = state m → P (step m c) l) →
  (∀ m l c, P m l → state (step m c) ≠ state m → P (step m c) (l ++ [state (step m c)])) →
  ∀ commands, P (trail state step m commands).1 (trail state step m commands).2.
Proof.
  intros H0 H1 H2 commands. unfold trail. induction commands as [|c commands IH] using rev_ind; [done|].
  rewrite foldl_app. simpl. unfold trail_step. case_decide; simpl; auto.
Qed.

End trail_lemmas.

Lemma with_progress_same e : e = with_progress e e.(en_state) e.(en_next_action) e.(en_revision).
Proof. by destruct e. Qed.

(** One attempt: refused without effect, or accepted; an accepted one moves along the
    graph from a state that is not terminal and changes nothing but the progress. *)
Lemma enrollment_step_cases e c :
  enrollment_step e c = e ∨
  (enrollment_is_terminal e = false ∧ valid_enrollment_transition e.(en_state) c.1 e.(en_mode) = true ∧
   (terminal_enrollment_state c.1 = true → c.2 = Next_None) ∧
   enrollment_step e c = with_progress e c.1 c.2
     (if decide (e.(en_revision) + 1 <= U64_MAX) then e.(en_revision) + 1 else e.(en_revision))).
Proof.
  unfold enrollment_step, enrollment_transition. destruct c as [to next]; simpl.
  destruct (enrollment_is_terminal e); [by left|].
  destruct (valid_enrollment_transition _ _ _); [|by left]. simpl.
  destruct (terminal_enrollment_state to && _)%bool eqn:E; [by left|]. right.
  split_and!; try done.
  - intros Ht. rewrite Ht in E. simpl in E. bool_prop. by apply dec_stable.
  - destruct (increment_cases (en_revision e)) as [[? ->]|[? ->]]; simpl.
    + by rewrite decide_True.
    + rewrite decide_False; [done|lia].
Qed.

Lemma enrollment_state_cases (s : EnrollmentState) :
  s ∈ [Created; ResolvingEgress; AwaitingUserAction; ExchangingMaterial; VerifyingAccount; Deduplicating;
       RecoveringExisting; ProvisioningIdentity; ConfiguringReauth; ActivationCheck; Succeeded; Failed;
       Cancelled; Expired].
Proof. destruct s; repeat first [left|right]. Qed.

(** The graph extends every history into a history: checked on all of them. *)
Lemma histories_closed mode l s to :
  l ∈ enrollment_histories mode → last l = Some s → terminal_enrollment_state s = false →
  valid_enrollment_transition s to mode = true → l ++ [to] ∈ enrollment_histories mode.
Proof.
  intros Hl Hlast Ht Hv.
  assert (Forall (λ l, Forall (λ to, match last l with
    | Some s => terminal_enrollment_state s || negb (valid_enrollment_transition s to mode)
                || bool_decide (l ++ [to] ∈ enrollment_histories mode)
    | None => false end = true)
    [Created; ResolvingEgress; AwaitingUserAction; ExchangingMaterial; VerifyingAccount; Deduplicating;
     RecoveringExisting; ProvisioningIdentity; ConfiguringReauth; ActivationCheck; Succeeded; Failed;
     Cancelled; Expired]) (enrollment_histories mode)) as HF.
  { clear. destruct mode; match goal with |- ?P => apply (bool_decide_unpack P) end; vm_compute; exact I. }
  rewrite Forall_forall in HF. specialize (HF l Hl). rewrite Forall_forall in HF.
  specialize (HF to (enrollment_state_cases to)). rewrite Hlast, Ht, Hv in HF. simpl in HF.
  by apply bool_decide_eq_true in HF.
Qed.

Lemma histories_facts mode l :
  l ∈ enrollment_histories mode →
  (length l <= 10)%nat ∧ (last l = Some Succeeded → l ∈ enrollment_routes mode).
Proof.
  intros Hl. assert (Forall (λ l, (bool_decide (length l <= 10)%nat &&
    (negb (bool_decide (last l = Some Succeeded)) || bool_decide (l ∈ enrollment_routes mode))) = true)
    (enrollment_histories mode)) as HF.
  { clear. destruct mode; match goal with |- ?P => apply (bool_decide_unpack P) end; vm_compute; exact I. }
  rewrite Forall_forall in HF. specialize (HF l Hl). bool_prop. split; [done|]. intros Hs.
  rewrite (bool_decide_eq_true_2 _ Hs) in *. simpl in *. by bool_prop.
Qed.

(** ** Enrollment *)

(** an enrollment follows its route. Whatever transitions are attempted from
    Created, the states visited are a way along the create route, or for a
    recovery along the recover route, possibly cut short by one failure; so at most nine transitions are
    ever accepted, and success means the whole route was taken: the account verified and deduplicated,
    reauthentication configured and activation checked. Only state, next action and revision change, the
    revision once per accepted transition. *)
Theorem enrollment_follows_route e commands :
  e.(en_state) = Created → e.(en_revision) + 9 <= U64_MAX →
  let '(e', t) := enrollment_trail e commands in
  t ∈ enrollment_histories e.(en_mode) ∧ (length t <= 10)%nat ∧
  last t = Some e'.(en_state) ∧
  (e'.(en_state) = Succeeded → t ∈ enrollment_routes e.(en_mode)) ∧
  e' = with_progress e e'.(en_state) e'.(en_next_action) e'.(en_revision) ∧
  e'.(en_revision) + 1 = e.(en_revision) + N.of_nat (length t).
Proof.
  intros Hc Hr. destruct (enrollment_trail e commands) as [e' t] eqn:E.
  enough (t ∈ enrollment_histories (en_mode e) ∧ last t = Some (en_state e') ∧
    e' = with_progress e (en_state e') (en_next_action e') (en_revision e') ∧
    en_revision e' + 1 = en_revision e + N.of_nat (length t)) as (Ht & Hlast & He' & Hrev).
  { destruct (histories_facts _ _ Ht) as [? Hs]. split_and!; try done. intros HS. apply Hs. by rewrite Hlast, HS. }
  replace e' with (enrollment_trail e commands).1 by (by rewrite E).
  replace t with (enrollment_trail e commands).2 by (by rewrite E). clear e' t E.
  unfold enrollment_trail.
  pattern (trail en_state enrollment_step e commands).1, (trail en_state enrollment_step e commands).2.
  apply trail_ind.
  - rewrite Hc. split_and!; [|done|by rewrite <- Hc; apply with_progress_same|simpl; lia].
    unfold enrollment_histories, enrollment_routes. simpl. left.
  - intros m l c (Hin & Hlast & Hm & Hrev) Hsame.
    destruct (enrollment_step_cases m c) as [Hs|(Hterm & Hvalid & _ & Hs)]; rewrite Hs in *; [done|].
    simpl in Hsame. rewrite Hsame in Hvalid. exfalso. unfold enrollment_is_terminal in Hterm. destruct (en_state m), (en_mode m); done.
  - intros m l c (Hin & Hlast & Hm & Hrev) Hdiff.
    destruct (enrollment_step_cases m c) as [Hs|(Hterm & Hvalid & _ & Hs)]; rewrite Hs in *; [done|]. simpl.
    assert (en_mode m = en_mode e) as Hmode by by rewrite Hm.
    rewrite Hmode in Hvalid.
    pose proof (histories_closed _ _ _ c.1 Hin Hlast Hterm Hvalid) as Hin'.
    destruct (histories_facts _ _ Hin') as [Hlen _]. rewrite length_app in *. simpl in *.
    rewrite decide_True by lia. split_and!; [done|by rewrite last_snoc|by rewrite Hm|lia].
Qed.

Definition sample_snapshot : EgressBindingSnapshot :=
  {| ebs_binding_id := MkTypedId "binding"; ebs_mode := Mode_Direct; ebs_proxy_id := None; ebs_egress_epoch := 0 |}.

Definition sample_enrollment : Enrollment :=
  {| en_id := MkTypedId "enrollment"; en_mode := Recover; en_target_group_id := MkTypedId "group";
     en_auth_method := OauthPkce; en_pending_credential_id := None;
     en_recovery_credential_id := Some (MkTypedId "credential"); en_expected_credential_revision := Some 4;
     en_state := Created; en_next_action := Next_WaitForEgress; en_egress_snapshot := Some sample_snapshot;
     en_identified_account_uuid := None; en_material_secret_refs := []; en_attempt_count := 0;
     en_expires_after := from_mins 10; en_revision := 1 |}.

(** A recovery with a skipped step that is refused on the way. *)
Definition sample_enrollment_commands : list (EnrollmentState * EnrollmentNextAction) :=
  [(ResolvingEgress, Next_WaitForEgress); (AwaitingUserAction, OpenAuthorizationUrl);
   (Deduplicating, Next_None); (ExchangingMaterial, Next_None); (VerifyingAccount, Next_None);
   (Deduplicating, Next_None); (RecoveringExisting, Next_None); (ConfiguringReauth, Next_None);
   (ActivationCheck, Next_None); (Succeeded, Next_None); (Failed, Next_None)].

Lemma enrollment_follows_route_witness :
  en_state (enrollment_trail sample_enrollment sample_enrollment_commands).1 = Succeeded ∧
  en_revision (enrollment_trail sample_enrollment sample_enrollment_commands).1 = 10 ∧
  (enrollment_trail sample_enrollment sample_enrollment_commands).2 ∈ enrollment_routes Recover.
Proof.
  split; [vm_compute; reflexivity|]. split; [vm_compute; reflexivity|].
  pose proof (enrollment_follows_route sample_enrollment sample_enrollment_commands eq_refl
    ltac:(vm_compute; discriminate)) as H.
  assert (en_state (enrollment_trail sample_enrollment sample_enrollment_commands).1 = Succeeded) as HS
    by (vm_compute; reflexivity).
  destruct (enrollment_trail sample_enrollment sample_enrollment_commands) as [e' t].
  exact (proj1 (proj2 (proj2 (proj2 H))) HS).
Defined.

(** a finished enrollment is immutable: every further attempt answers
    TerminalState and changes nothing; and an enrollment that was not finished
    before finishes with no next action asked of anybody. *)
Theorem enrollment_terminal_final e commands :
  enrollment_is_terminal e = true →
  enrollment_trail e commands = (e, [e.(en_state)]) ∧
  (∀ state next, enrollment_transition e state next = (Err TerminalState, e)) ∧
  ∀ before command, enrollment_is_terminal before = false → enrollment_step before command = e →
    e.(en_next_action) = Next_None.
Proof.
  intros Ht. assert (∀ state next, enrollment_transition e state next = (Err TerminalState, e)) as Hfinal.
  { intros. unfold enrollment_transition. by rewrite Ht. }
  split_and!; [|done|].
  - unfold enrollment_trail, trail. induction commands as [|c commands IH]; simpl; [done|].
    assert (trail_step en_state enrollment_step (e, [en_state e]) c = (e, [en_state e])) as ->; [|done].
    unfold trail_step. simpl. assert (enrollment_step e c = e) as ->.
    { unfold enrollment_step. by rewrite Hfinal. }
    by rewrite decide_True.
  - intros before command Hb <-. unfold enrollment_is_terminal in *.
    destruct (enrollment_step_cases before command) as [Hs|(_ & _ & Hnone & Hs)]; rewrite Hs in *; [congruence|].
    simpl in *. auto.
Qed.

Lemma enrollment_terminal_final_witness :
  let e := (enrollment_trail sample_enrollment sample_enrollment_commands).1 in
  enrollment_is_terminal e = true ∧ enrollment_transition e Failed Next_None = (Err TerminalState, e).
Proof.
  split; [vm_compute; reflexivity|].
  refine (proj1 (proj2 (enrollment_terminal_final
    (enrollment_trail sample_enrollment sample_enrollment_commands).1 [] _)) Failed Next_None).
  vm_compute. reflexivity.
Defined.

(** ** Maintenance *)

Lemma maintenance_step_cases m c :
  maintenance_step m c = m ∨
  (maintenance_is_terminal m = false ∧ valid_maintenance_transition m.(mo_state) c = true ∧
   maintenance_step m c = with_mo_state m c).
Proof.
  unfold maintenance_step, maintenance_transition. destruct (maintenance_is_terminal m); [by left|].
  destruct (valid_maintenance_transition _ _); [by right|by left].
Qed.

Lemma run_up_extends from to :
  valid_maintenance_transition from to = true →
  maintenance_run_up to `suffix_of` maintenance_run_up from ++ [to].
Proof. destruct from, to; simpl; try done; intros _; first [by exists []|by eexists [_]|by eexists [_; _]|by eexists [_; _; _]|by eexists [_; _; _; _]|by eexists [_; _; _; _; _]]. Qed.

(** maintenance commits only what it has verified. Whatever transitions
    are attempted from Planned, the states visited end with the run-up of the
    present state: in particular an operation that is committing or has succeeded was leased, ran and
    verified the account in direct succession, with no detour through a backoff in between. Only the last state can be
    terminal, and no field but the state changes. *)
Theorem maintenance_commits_verified m commands :
  m.(mo_state) = Maint_Planned →
  let '(m', t) := maintenance_trail m commands in
  maintenance_run_up m'.(mo_state) `suffix_of` t ∧ last t = Some m'.(mo_state) ∧
  m' = with_mo_state m m'.(mo_state) ∧
  ∀ before s after, t = before ++ s :: after → terminal_maintenance_state s = true → after = [].
Proof.
  intros Hp. destruct (maintenance_trail m commands) as [m' t] eqn:E.
  replace m' with (maintenance_trail m commands).1 by (by rewrite E).
  replace t with (maintenance_trail m commands).2 by (by rewrite E). clear m' t E.
  unfold maintenance_trail.
  pattern (trail mo_state maintenance_step m commands).1, (trail mo_state maintenance_step m commands).2.
  apply trail_ind.
  - rewrite Hp. split_and!; [by exists []|done|by destruct m; simpl in *; subst|].
    intros before s after He _. destruct before as [|? [|? ?]]; by simplify_eq/=.
  - intros x l c (Hsuf & Hlast & Hx & Hfin) Hsame.
    destruct (maintenance_step_cases x c) as [Hs|(Hterm & Hvalid & Hs)]; rewrite Hs in *; [done|].
    simpl in Hsame. rewrite Hsame in Hvalid. unfold maintenance_is_terminal in Hterm.
    exfalso. by destruct (mo_state x).
  - intros x l c (Hsuf & Hlast & Hx & Hfin) Hdiff.
    destruct (maintenance_step_cases x c) as [Hs|(Hterm & Hvalid & Hs)]; rewrite Hs in *; [done|]. simpl.
    split_and!; [|by rewrite last_snoc|by rewrite Hx|].
    + etrans; [by apply run_up_extends|]. destruct Hsuf as [k ->]. exists k. by rewrite app_assoc.
    + intros before s after He Ht. destruct after as [|z after _] using rev_ind; [done|]. exfalso.
      rewrite app_comm_cons, app_assoc in He. apply app_inj_tail in He as [He _].
      specialize (Hfin before s after He Ht) as ->. rewrite He, last_snoc in Hlast. simplify_eq.
      unfold maintenance_is_terminal in Hterm. congruence.
Qed.

Definition sample_maintenance : MaintenanceOperation :=
  {| mo_id := MkTypedId "operation"; mo_credential_id := MkTypedId "credential"; mo_kind := Kind_Refresh;
     mo_trigger := Scheduled; mo_conflict_class := AuthMaterialWrite; mo_state := Maint_Planned;
     mo_expected_revision := 3; mo_expected_token_version := 2; mo_expected_egress := sample_snapshot;
     mo_generation := 1; mo_attempt_count := 0 |}.

(** A refresh that backs off once, tries to commit unverified, and succeeds. *)
Definition sample_maintenance_commands : list MaintenanceState :=
  [Maint_Leased; Maint_Running; Maint_WaitingBackoff; Maint_Leased; Maint_Running; Maint_Committing;
   Maint_VerifyingAccount; Maint_Committing; Maint_Succeeded; Maint_Failed].

Lemma maintenance_commits_verified_witness :
  mo_state (maintenance_trail sample_maintenance sample_maintenance_commands).1 = Maint_Succeeded ∧
  maintenance_run_up Maint_Succeeded `suffix_of` (maintenance_trail sample_maintenance sample_maintenance_commands).2.
Proof.
  pose proof (maintenance_commits_verified sample_maintenance sample_maintenance_commands eq_refl) as H.
  assert (mo_state (maintenance_trail sample_maintenance sample_maintenance_commands).1 = Maint_Succeeded) as HS
    by (vm_compute; reflexivity).
  split; [exact HS|]. destruct (maintenance_trail sample_maintenance sample_maintenance_commands) as [m t].
  rewrite <- HS. exact (proj1 H).
Defined.
