(* ===== verification/SchedTypes.v ===== *)
(** The value objects of [crates/gateway-scheduler/src/types.rs]: identities,
    Group and Credential configuration, queue entries and tickets, leases, the
    resource ledger and the externally observable decisions. *)

From S2P Require Import Prelude Machine Domain TokenBucket.
Local Open Scope N_scope.

Inductive SchedulerError :=
  | InvalidGeneration
  | DuplicateRelease
  | DuplicateIdentifier
  | WrongGroup
  | InvalidConfiguration.

#[export] Instance SchedulerError_eq_dec : EqDecision SchedulerError.
Proof. solve_decision. Defined.

(** Owner generation fences every state-changing callback. *)
Record OwnerGeneration := MkOwnerGeneration { og_value : N }.

#[export] Instance OwnerGeneration_eq_dec : EqDecision OwnerGeneration.
Proof. solve_decision. Defined.

Definition OwnerGeneration_new (value : N) : result SchedulerError OwnerGeneration :=
  if value =? 0 then Err InvalidGeneration else Ok (MkOwnerGeneration value).

Record ExecutorIdentity := {
  ei_group_id : GroupId;
  ei_owner_partition : string;
  ei_executor_id : string;
  ei_generation : OwnerGeneration;
}.

Inductive RuntimeLifecycle := Loading | Serving | Draining | OwnerUnavailable.

#[export] Instance RuntimeLifecycle_eq_dec : EqDecision RuntimeLifecycle.
Proof. solve_decision. Defined.

Record SessionCapacityConfig := {
  scc_enabled : bool;
  scc_max_active_sessions : N;
  scc_idle_ttl : Duration;
  scc_new_session_wait : Duration;
}.

Definition session_capacity_default : SessionCapacityConfig :=
  {| scc_enabled := false; scc_max_active_sessions := U32_MAX;
     scc_idle_ttl := from_mins 30; scc_new_session_wait := from_secs 5 |}.

Record GroupConfig := {
  gc_snapshot_version : SnapshotVersion;
  gc_concurrency_limit : option N;
  gc_rate_limit : option BucketConfig;
  gc_queue_capacity : option N;
  gc_pre_upstream_wait : Duration;
  gc_preferred_capacity_wait : Duration;
  gc_cancel_grace : Duration;
  gc_affinity_ttl : Duration;
  gc_affinity_migration_successes : N;
  gc_quota_guard_basis_points : N;
}.

Definition group_config_default : GroupConfig :=
  {| gc_snapshot_version := "v1"; gc_concurrency_limit := None; gc_rate_limit := None;
     gc_queue_capacity := None; gc_pre_upstream_wait := from_secs 30;
     gc_preferred_capacity_wait := from_secs 2; gc_cancel_grace := from_secs 2;
     gc_affinity_ttl := from_hours 24; gc_affinity_migration_successes := 3;
     gc_quota_guard_basis_points := 9500 |}.

Inductive EligibilityClass := Eligible | TemporarilyBlocked | DeterministicallyIneligible.

#[export] Instance EligibilityClass_eq_dec : EqDecision EligibilityClass.
Proof. solve_decision. Defined.

Record CredentialState := {
  cs_lifecycle_active : bool;
  cs_auth_healthy : bool;
  cs_profile_ready : bool;
  cs_egress_ready : bool;
  cs_transport_ready : bool;
  cs_cooldown_until : option Duration;
  cs_quota_used_basis_points : option N;
  cs_quota_reset_at : option Duration;
  cs_half_open_inflight : bool;
}.

Definition credential_state_default : CredentialState :=
  {| cs_lifecycle_active := true; cs_auth_healthy := true; cs_profile_ready := true;
     cs_egress_ready := true; cs_transport_ready := true; cs_cooldown_until := None;
     cs_quota_used_basis_points := None; cs_quota_reset_at := None;
     cs_half_open_inflight := false |}.

Record CredentialCooldownUpdate := {
  ccu_credential_id : CredentialId;
  ccu_cooldown_until : option Duration;
}.

Record CredentialAuthUpdate := {
  cau_credential_id : CredentialId;
  cau_token_version : N;
  cau_auth_healthy : bool;
}.

Record CredentialQuotaUpdate := {
  cqu_credential_id : CredentialId;
  cqu_observation_version : N;
  cqu_used_basis_points : N;
  cqu_reset_at : Duration;
}.

Inductive CredentialFenceResult :=
  | FenceApplied (inflight : N)
  | FenceMissing
  | FenceStaleIgnored.

Inductive CredentialRemoveResult :=
  | Removed
  | Busy (inflight : N)
  | NotFenced
  | RemoveMissing
  | RemoveStaleIgnored.

Record CredentialProfileConfig := {
  cp_profile_id : CredentialProfileId;
  cp_profile_epoch : N;
  cp_device_identity_id : DeviceIdentityId;
  cp_device_epoch : N;
  cp_archetype_version_id : ArchetypeVersionId;
  cp_bundle_id : TransportBundleId;
  cp_bundle_version : N;
  cp_bundle_hash : Digest;
  cp_egress_binding_id : EgressBindingId;
  cp_egress_epoch : N;
  cp_bundle_epoch : N;
}.

Record OpenAiTransportConfig := { ot_revision : N; ot_egress_epoch : N }.

#[export] Instance OpenAiTransportConfig_eq_dec : EqDecision OpenAiTransportConfig.
Proof. solve_decision. Defined.

Record CredentialConfig := {
  cc_id : CredentialId;
  cc_credential_projection_revision : N;
  cc_scheduling_projection_revision : N;
  cc_concurrency_limit : N;
  cc_rate_limit : BucketConfig;
  cc_priority : N;
  cc_weight : N;
  cc_model_scope : gset string;
  cc_attribution_optional : bool;
  cc_session_capacity : SessionCapacityConfig;
  cc_min_request_interval : option Duration;
  cc_token_version : N;
  cc_openai_transport : option OpenAiTransportConfig;
  cc_profiles : gmap ClientOs CredentialProfileConfig;
  cc_quota_observation_version : option N;
  cc_state : CredentialState;
}.

Inductive CredentialExecution :=
  | Anthropic (profile : CredentialProfileConfig)
  | OpenAi (transport : OpenAiTransportConfig).

Record ScheduleEntry := {
  se_request_id : RequestId;
  se_owner_user_id : UserId;
  se_platform_key_id : PlatformKeyId;
  se_group_id : GroupId;
  se_base_session_id : SessionId;
  se_agent_id : AgentId;
  se_client_os : ClientOs;
  se_generic : GenericAdjustedRequest;
  se_accepted_at : Duration;
  se_pre_upstream_deadline : Duration;
  se_bypass_queue : bool;
}.

Record AffinityKey := {
  ak_platform_key_id : PlatformKeyId;
  ak_base_session_id : SessionId;
  ak_agent_id : AgentId;
  ak_model_id : string;
}.

#[export] Instance AffinityKey_eq_dec : EqDecision AffinityKey.
Proof. solve_decision. Defined.

#[export] Instance AffinityKey_countable : Countable AffinityKey.
Proof.
  refine (inj_countable'
    (λ k, (k.(ak_platform_key_id), k.(ak_base_session_id), k.(ak_agent_id), k.(ak_model_id)))
    (λ '(p, s, a, m), {| ak_platform_key_id := p; ak_base_session_id := s; ak_agent_id := a; ak_model_id := m |}) _).
  by intros [].
Defined.

Definition affinity_key_of (entry : ScheduleEntry) : AffinityKey :=
  {| ak_platform_key_id := entry.(se_platform_key_id);
     ak_base_session_id := entry.(se_base_session_id);
     ak_agent_id := entry.(se_agent_id);
     ak_model_id := entry.(se_generic).(gar_model_id) |}.

Inductive TicketState := TicketQueued | TicketGranted | TicketCancelled | TicketTimedOut.

Record QueueTicket := {
  qt_id : TicketId;
  qt_request_id : RequestId;
  qt_deadline : Duration;
  qt_state : TicketState;
  qt_generation : OwnerGeneration;
}.

Inductive RejectionKind :=
  | GroupUnavailable
  | QueueFull
  | GroupRateDeadline
  | CooldownBeyondDeadline
  | TimedOut
  | Cancelled
  | DuplicateRequest
  | SessionCapacityDeadline.

Record Rejection := { rj_kind : RejectionKind; rj_retry_after : option Duration }.

Record CredentialLease := {
  cl_id : LeaseId;
  cl_request_id : RequestId;
  cl_credential_id : CredentialId;
  cl_client_os : ClientOs;
  cl_owner_generation : OwnerGeneration;
  cl_token_version : N;
  cl_execution : CredentialExecution;
  cl_half_open : bool;
}.

Definition anthropic_profile (self : CredentialLease) : option CredentialProfileConfig :=
  match self.(cl_execution) with Anthropic profile => Some profile | OpenAi _ => None end.

Inductive AdmissionDecision :=
  | Granted (lease : CredentialLease)
  | Queued (ticket : QueueTicket)
  | Rejected (rejection : Rejection)
  | StaleIgnored.

Record QueueResolution := { qr_request_id : RequestId; qr_decision : AdmissionDecision }.

Inductive RetryCredentialTarget :=
  | Same (expected : CredentialId)
  | Alternate (exclude : CredentialId).

Record RetryLeaseRequest := {
  rlr_current_lease_id : LeaseId;
  rlr_entry : ScheduleEntry;
  rlr_target : RetryCredentialTarget;
}.

Inductive RetryLeaseDecision :=
  | RetryGranted (lease : CredentialLease)
  | NoCandidate
  | RetryStaleIgnored.

Inductive LeaseRelease := Released | ReleaseStaleIgnored.

Inductive ResourceKind :=
  | GroupPermitResource
  | QueueTicketResource
  | SessionClaimResource
  | CredentialLeaseResource.

#[export] Instance ResourceKind_eq_dec : EqDecision ResourceKind.
Proof. solve_decision. Defined.

Inductive ResourceAction := Acquire | Release | ForcedRelease.

#[export] Instance ResourceAction_eq_dec : EqDecision ResourceAction.
Proof. solve_decision. Defined.

Record ResourceEvent := {
  re_sequence : N;
  re_request_id : RequestId;
  re_resource_kind : ResourceKind;
  re_resource_id : string;
  re_action : ResourceAction;
  re_portability : Portability;
  re_generation : OwnerGeneration;
  re_observed_at : Duration;
}.

Record SchedulerSnapshot := {
  ss_generation : OwnerGeneration;
  ss_lifecycle : RuntimeLifecycle;
  ss_group_config_version : SnapshotVersion;
  ss_configured_concurrency : option N;
  ss_effective_concurrency : N;
  ss_total_credential_capacity : N;
  ss_queue_capacity : N;
  ss_active_leases : N;
  ss_active_group_permits : N;
  ss_queued_tickets : N;
  ss_credential_inflight : list (CredentialId * N);
  ss_fenced_credentials : list CredentialId;
  ss_session_claims : N;
  ss_resource_balance : Z;
}.
