(* ===== verification/Samples.v ===== *)
(** Concrete values of the scheduler's types, at which the theorems with
    hypotheses are instantiated. *)

From S2P Require Import Prelude Machine Domain TokenBucket SchedTypes.
Local Open Scope N_scope.

Definition sample_snapshots : RequestSnapshotSet :=
  {| rss_access_policy := "v1"; rss_group_config := "v1"; rss_enforcement := "v1"; rss_ruleset := None;
     rss_capability := "v1"; rss_client_profile_catalog := "v1"; rss_price := "v1"; rss_serializer := "v1" |}.

Definition sample_generic (portability : Portability) : GenericAdjustedRequest :=
  {| gar_body_digest := "digest"; gar_model_id := "claude"; gar_stream := false;
     gar_portability := portability; gar_attribution_suppressed := false;
     gar_system_template_pending := false; gar_snapshot_set := sample_snapshots |}.

(** A portable request accepted at 0 with the given deadline. *)
Definition sample_entry (request user : string) (deadline : Duration) : ScheduleEntry :=
  {| se_request_id := MkTypedId request; se_owner_user_id := MkTypedId user;
     se_platform_key_id := MkTypedId "k"; se_group_id := MkTypedId "g"; se_base_session_id := MkTypedId "s";
     se_agent_id := MkTypedId "a"; se_client_os := Linux; se_generic := sample_generic Portable;
     se_accepted_at := 0; se_pre_upstream_deadline := deadline; se_bypass_queue := false |}.

Definition sample_generation : OwnerGeneration := MkOwnerGeneration 7.

Definition sample_identity : ExecutorIdentity :=
  {| ei_group_id := MkTypedId "g"; ei_owner_partition := "p"; ei_executor_id := "x";
     ei_generation := sample_generation |}.

(** An active OpenAI Credential with a concurrency limit. *)
Definition sample_credential (id : string) (limit : N) (sessions : SessionCapacityConfig) : CredentialConfig :=
  {| cc_id := MkTypedId id; cc_credential_projection_revision := 1; cc_scheduling_projection_revision := 1;
     cc_concurrency_limit := limit; cc_rate_limit := CREDENTIAL_DEFAULT; cc_priority := 100; cc_weight := 1;
     cc_model_scope := ∅; cc_attribution_optional := true; cc_session_capacity := sessions;
     cc_min_request_interval := None; cc_token_version := 1;
     cc_openai_transport := Some {| ot_revision := 1; ot_egress_epoch := 1 |}; cc_profiles := ∅;
     cc_quota_observation_version := None; cc_state := credential_state_default |}.
