(* ===== verification/FairQueue.v ===== *)
(** The hierarchical fair queue of [crates/gateway-scheduler/src/fair_queue.rs]:
    User, Platform Key, Base Session and Agent rings over FIFO lanes.

    The four ring levels of the source have the same code up to the names of
    their fields; they are one generic [RingNode] over the interface
    [FairChild] of a child node, instantiated at each level. The closure that
    [pop_runnable] receives mutates captured state ([FnMut]): it is a function
    that takes and returns that state. *)

From S2P Require Import Prelude Machine Domain TokenBucket SchedTypes Samples.
Local Open Scope N_scope.

(** ** Interface of a node *)

(** The operations a ring calls on its children. *)
Class FairChild (C : Type) := {
  fc_default : C;
  fc_push : ScheduleEntry → C → C;
  fc_pop : ∀ {S : Type}, (S → ScheduleEntry → bool * S) → S → C → option ScheduleEntry * S * C;
  fc_remove : RequestId → C → option ScheduleEntry * C;
  fc_is_empty : C → bool;
}.

(** The key by which a ring files an entry. *)
Class RingKey (K : Type) := ring_key : ScheduleEntry → K.

(** ** FIFO lanes *)
Record AgentNode := { an_entries : list ScheduleEntry }.

Definition agent_push (entry : ScheduleEntry) (self : AgentNode) : AgentNode :=
  {| an_entries := self.(an_entries) ++ [entry] |}.

Definition agent_pop {S} (runnable : S → ScheduleEntry → bool * S) (s : S) (self : AgentNode)
    : option ScheduleEntry * S * AgentNode :=
  match self.(an_entries) with
  | [] => (None, s, self)
  | entry :: rest =>
      let '(ok, s) := runnable s entry in
      if ok then (Some entry, s, {| an_entries := rest |}) else (None, s, self)
  end.

Definition agent_remove (request_id : RequestId) (self : AgentNode) : option ScheduleEntry * AgentNode :=
  match list_find (λ entry, entry.(se_request_id) = request_id) self.(an_entries) with
  | None => (None, self)
  | Some (index, entry) => (Some entry, {| an_entries := delete index self.(an_entries) |})
  end.

Definition agent_is_empty (self : AgentNode) : bool :=
  match self.(an_entries) with [] => true | _ :: _ => false end.

#[export] Instance agent_child : FairChild AgentNode := {|
  fc_default := {| an_entries := [] |};
  fc_push := agent_push;
  fc_pop := @agent_pop;
  fc_remove := agent_remove;
  fc_is_empty := agent_is_empty;
|}.

(** ** Rings *)
Record RingNode (K C : Type) `{Countable K} := MkRing {
  rn_children : gmap K C;
  rn_ring : list K;
}.
Arguments MkRing {K C _ _} rn_children rn_ring.
Arguments rn_children {K C _ _} _.
Arguments rn_ring {K C _ _} _.

Section ring.
Context `{Countable K, !RingKey K, !FairChild C}.

Definition ring_default : RingNode K C := MkRing ∅ [].

Definition ring_push (entry : ScheduleEntry) (self : RingNode K C) : RingNode K C :=
  let key := ring_key entry in
  let self :=
    match self.(rn_children) !! key with
    | Some _ => self
    | None => MkRing (<[key := fc_default]> self.(rn_children)) (self.(rn_ring) ++ [key])
    end in
  match self.(rn_children) !! key with
  | Some node => MkRing (<[key := fc_push entry node]> self.(rn_children)) self.(rn_ring)
  | None => self
  end.

(** [for _ in 0..turns]: each turn serves the key at the front of the ring. *)
Fixpoint ring_turns {S} (runnable : S → ScheduleEntry → bool * S) (turns : nat) (s : S) (self : RingNode K C)
    : option ScheduleEntry * S * RingNode K C :=
  match turns with
  | O => (None, s, self)
  | Datatypes.S turns =>
      match self.(rn_ring) with
      | [] => (None, s, self)
      | key :: rest =>
          let '(entry, s, children) :=
            match self.(rn_children) !! key with
            | None => (None, s, self.(rn_children))
            | Some node =>
                let '(entry, s, node) := fc_pop runnable s node in
                (entry, s, <[key := node]> self.(rn_children))
            end in
          let self :=
            if is_some_and fc_is_empty (children !! key)
            then MkRing (delete key children) rest
            else MkRing children (rest ++ [key]) in
          match entry with
          | Some entry => (Some entry, s, self)
          | None => ring_turns runnable turns s self
          end
      end
  end.

Definition ring_pop {S} (runnable : S → ScheduleEntry → bool * S) (s : S) (self : RingNode K C)
    : option ScheduleEntry * S * RingNode K C :=
  ring_turns runnable (length self.(rn_ring)) s self.

(** [remove_from_children]: scan the keys of the ring as it was. *)
Fixpoint remove_from_children (request_id : RequestId) (keys : list K) (self : RingNode K C)
    : option ScheduleEntry * RingNode K C :=
  match keys with
  | [] => (None, self)
  | key :: keys =>
      let '(entry, children) :=
        match self.(rn_children) !! key with
        | None => (None, self.(rn_children))
        | Some node =>
            let '(entry, node) := fc_remove request_id node in
            (entry, <[key := node]> self.(rn_children))
        end in
      let self :=
        if is_some_and fc_is_empty (children !! key)
        then MkRing (delete key children) (filter (λ candidate, candidate ≠ key) self.(rn_ring))
        else MkRing children self.(rn_ring) in
      match entry with
      | Some entry => (Some entry, self)
      | None => remove_from_children request_id keys self
      end
  end.

Definition ring_remove (request_id : RequestId) (self : RingNode K C) : option ScheduleEntry * RingNode K C :=
  remove_from_children request_id self.(rn_ring) self.

Definition ring_is_empty (self : RingNode K C) : bool := bool_decide (self.(rn_children) = ∅).

#[export] Instance ring_child : FairChild (RingNode K C) := {|
  fc_default := ring_default;
  fc_push := ring_push;
  fc_pop := @ring_pop;
  fc_remove := ring_remove;
  fc_is_empty := ring_is_empty;
|}.

End ring.

(** ** The four levels *)
#[export] Instance agent_key : RingKey AgentId := se_agent_id.
#[export] Instance session_key : RingKey SessionId := se_base_session_id.
#[export] Instance platform_key : RingKey PlatformKeyId := se_platform_key_id.
#[export] Instance user_key : RingKey UserId := se_owner_user_id.

Abbreviation SessionNode := (RingNode AgentId AgentNode).
Abbreviation KeyNode := (RingNode SessionId SessionNode).
Abbreviation UserNode := (RingNode PlatformKeyId KeyNode).
Abbreviation RootNode := (RingNode UserId UserNode).

Record FairQueue := { fq_root : RootNode; fq_len : N }.

Definition queue_default : FairQueue := {| fq_root := fc_default; fq_len := 0 |}.

Definition queue_push (entry : ScheduleEntry) (self : FairQueue) : FairQueue :=
  {| fq_root := fc_push entry self.(fq_root); fq_len := self.(fq_len) + 1 |}.

Definition queue_pop_runnable {S} (runnable : S → ScheduleEntry → bool * S) (s : S) (self : FairQueue)
    : option ScheduleEntry * S * FairQueue :=
  let '(entry, s, root) := fc_pop runnable s self.(fq_root) in
  (entry, s, {| fq_root := root;
                fq_len := if is_some entry then saturating_sub self.(fq_len) 1 else self.(fq_len) |}).

Definition queue_remove (request_id : RequestId) (self : FairQueue) : option ScheduleEntry * FairQueue :=
  let '(entry, root) := fc_remove request_id self.(fq_root) in
  (entry, {| fq_root := root;
             fq_len := if is_some entry then saturating_sub self.(fq_len) 1 else self.(fq_len) |}).

(** [while let Some(entry) = self.pop_runnable(|_| true)]; [fq_len] turns are
    enough ([queue_drain_spec]). *)
Fixpoint queue_drain_loop (fuel : nat) (self : FairQueue) : list ScheduleEntry * FairQueue :=
  match fuel with
  | O => ([], self)
  | S fuel =>
      match queue_pop_runnable (λ (s : unit) _, (true, s)) tt self with
      | (None, _, self) => ([], self)
      | (Some entry, _, self) =>
          let '(entries, self) := queue_drain_loop fuel self in (entry :: entries, self)
      end
  end.

Definition queue_drain (self : FairQueue) : list ScheduleEntry * FairQueue :=
  queue_drain_loop (S (N.to_nat self.(fq_len))) self.

(** ** Specification of a node

    What a node holds ([fs_contents], up to order), the entries a scan offers to
    the closure and in which order ([fs_heads]), the FIFO lane of an entry, and
    when two entries share a lane. *)
Class FairSpec (C : Type) := {
  fs_wf : C → Prop;
  fs_contents : C → list ScheduleEntry;
  fs_heads : C → list ScheduleEntry;
  fs_lane : ScheduleEntry → C → list ScheduleEntry;
  fs_same : ScheduleEntry → ScheduleEntry → bool;
}.

(** The first entry of a list that a stateful closure accepts. *)
Fixpoint first_runnable {S} (runnable : S → ScheduleEntry → bool * S) (s : S) (entries : list ScheduleEntry)
    : option ScheduleEntry * S :=
  match entries with
  | [] => (None, s)
  | entry :: rest =>
      let '(ok, s) := runnable s entry in
      if ok then (Some entry, s) else first_runnable runnable s rest
  end.

(** The singleton of [e] when it is in the lane of [x]. *)
Definition lane_part (C : Type) `{FairSpec C} (x e : ScheduleEntry) : list ScheduleEntry :=
  if fs_same (C := C) x e then [e] else [].

#[export] Instance agent_spec : FairSpec AgentNode := {|
  fs_wf := λ _, True;
  fs_contents := an_entries;
  fs_heads := λ c, take 1 c.(an_entries);
  fs_lane := λ _ c, c.(an_entries);
  fs_same := λ _ _, true;
|}.

Section ring_spec.
Context `{Countable K, !RingKey K, !FairChild C, !FairSpec C}.

Definition child_contents (children : gmap K C) (key : K) : list ScheduleEntry :=
  from_option fs_contents [] (children !! key).

Definition child_heads (children : gmap K C) (key : K) : list ScheduleEntry :=
  from_option fs_heads [] (children !! key).

(** The ring lists the children once each; no child is empty, and each holds
    only entries filed under its key. *)
Record ring_wf (n : RingNode K C) : Prop := {
  rw_nodup : NoDup n.(rn_ring);
  rw_ring : ∀ k, k ∈ n.(rn_ring) ↔ is_Some (n.(rn_children) !! k);
  rw_child : ∀ k c, n.(rn_children) !! k = Some c →
    fs_wf c ∧ fs_contents c ≠ [] ∧ ∀ e, e ∈ fs_contents c → ring_key e = k;
}.

#[export] Instance ring_spec : FairSpec (RingNode K C) := {|
  fs_wf := ring_wf;
  fs_contents := λ n, n.(rn_ring) ≫= child_contents n.(rn_children);
  fs_heads := λ n, n.(rn_ring) ≫= child_heads n.(rn_children);
  fs_lane := λ x n, from_option (fs_lane x) [] (n.(rn_children) !! ring_key x);
  fs_same := λ x e, bool_decide (ring_key x = ring_key e) && fs_same (C := C) x e;
|}.

(** The children after [key]'s node became [node]: a node left empty is dropped. *)
Definition refile (key : K) (node : C) (children : gmap K C) : gmap K C :=
  if fc_is_empty node then delete key children else <[key := node]> children.

End ring_spec.

(** The laws of a node, for any closure. A scan that finds nothing leaves the
    node as it was; one that finds an entry takes it from the front of its lane
    and leaves every other lane as it was. *)
Class FairLaws (C : Type) `{!FairChild C, !FairSpec C} : Prop := {
  fl_default_wf : fs_wf fc_default;
  fl_default_contents : fs_contents fc_default = [];
  fl_default_lane x : fs_lane x fc_default = [];
  fl_empty c : fs_wf c → fc_is_empty c = true ↔ fs_contents c = [];
  fl_heads_sublist c : fs_wf c → fs_heads c `sublist_of` fs_contents c;
  fl_heads_lane e c : fs_wf c → e ∈ fs_heads c ↔ head (fs_lane e c) = Some e;
  fl_lane x c : fs_wf c → fs_lane x c ⊆ fs_contents c;
  fl_heads_nil c : fs_wf c → fs_heads c = [] → fs_contents c = [];
  fl_push_wf e c : fs_wf c → fs_wf (fc_push e c);
  fl_push_contents e c : fs_wf c → fs_contents (fc_push e c) ≡ₚ e :: fs_contents c;
  fl_push_lane x e c : fs_wf c → fs_lane x (fc_push e c) = fs_lane x c ++ lane_part C x e;
  fl_pop S (r : S → ScheduleEntry → bool * S) s c :
    fs_wf c →
    match fc_pop r s c with
    | (None, s', c') => c' = c ∧ first_runnable r s (fs_heads c) = (None, s')
    | (Some e, s', c') =>
        fs_wf c' ∧ fs_contents c ≡ₚ e :: fs_contents c' ∧
        first_runnable r s (fs_heads c) = (Some e, s') ∧
        ∀ x, fs_lane x c = lane_part C x e ++ fs_lane x c'
    end;
  fl_remove id c :
    fs_wf c →
    match fc_remove id c with
    | (None, c') => c' = c ∧ ∀ e, e ∈ fs_contents c → e.(se_request_id) ≠ id
    | (Some e, c') =>
        fs_wf c' ∧ fs_contents c ≡ₚ e :: fs_contents c' ∧ e.(se_request_id) = id ∧
        ∀ x, ∃ l1 l2, fs_lane x c = l1 ++ lane_part C x e ++ l2 ∧ fs_lane x c' = l1 ++ l2
    end;
}.

(** ** Specification of the queue *)

Definition queue_contents (q : FairQueue) : list ScheduleEntry := fs_contents q.(fq_root).

(** The lane (user, key, session, agent) of an entry, oldest first. *)
Definition queue_lane (x : ScheduleEntry) (q : FairQueue) : list ScheduleEntry := fs_lane x q.(fq_root).

Definition same_lane (x e : ScheduleEntry) : bool := fs_same (C := RootNode) x e.

(** The heads of all lanes in the order in which [pop_runnable] offers them. *)
Definition queue_heads (q : FairQueue) : list ScheduleEntry := fs_heads q.(fq_root).

Definition queue_users (q : FairQueue) : list UserId := q.(fq_root).(rn_ring).

Record queue_wf (q : FairQueue) : Prop := {
  qw_root : fs_wf q.(fq_root);
  qw_len : q.(fq_len) = N.of_nat (length (queue_contents q));
}.

(** Sequences of calls. *)
Inductive QueueOp := OpPush (entry : ScheduleEntry) | OpPop | OpRemove (request_id : RequestId).

(** Run the calls; the entries served by [pop_runnable] and those removed. *)
Fixpoint queue_run {S} (r : S → ScheduleEntry → bool * S) (ops : list QueueOp) (s : S) (q : FairQueue)
    : list ScheduleEntry * list ScheduleEntry * FairQueue :=
  match ops with
  | [] => ([], [], q)
  | OpPush e :: ops => queue_run r ops s (queue_push e q)
  | OpPop :: ops =>
      let '(e, s, q) := queue_pop_runnable r s q in
      let '(served, removed, q) := queue_run r ops s q in
      (option_list e ++ served, removed, q)
  | OpRemove id :: ops =>
      let '(e, q) := queue_remove id q in
      let '(served, removed, q) := queue_run r ops s q in
      (served, option_list e ++ removed, q)
  end.

Definition op_pushed (op : QueueOp) : option ScheduleEntry :=
  match op with OpPush e => Some e | _ => None end.

Definition is_pop (op : QueueOp) : bool := match op with OpPop => true | _ => false end.

Definition is_remove (op : QueueOp) : bool := match op with OpRemove _ => true | _ => false end.

(** ** Lemmas *)

Lemma first_runnable_app {S} (r : S → ScheduleEntry → bool * S) s l1 l2 :
  first_runnable r s (l1 ++ l2) =
  match first_runnable r s l1 with
  | (Some e, s') => (Some e, s')
  | (None, s') => first_runnable r s' l2
  end.
Proof.
  revert s. induction l1 as [|e l1 IH]; intros s; simpl; [done|].
  destruct (r s e) as [[] s']; [done|apply IH].
Qed.

Lemma list_filter_all {A} (P : A → Prop) `{!∀ x, Decision (P x)} (l : list A) : (∀ x, x ∈ l → P x) → filter P l = l.
Proof.
  induction l as [|x l IH]; intros Hl; [done|]. rewrite filter_cons_True by (apply Hl; left).
  f_equal. apply IH. intros y Hy. apply Hl. by right.
Qed.

Lemma NoDup_split_unique {A} (k : A) l1 l2 l1' l2' :
  l1 ++ k :: l2 = l1' ++ k :: l2' → NoDup (l1' ++ k :: l2') → l1' = l1.
Proof.
  revert l1'. induction l1 as [|x l1 IH]; intros [|y l1']; simpl; intros E ND; simplify_eq; try done.
  - apply NoDup_cons in ND as [N _]. set_solver.
  - apply NoDup_cons in ND as [N _]. set_solver.
  - f_equal. apply NoDup_cons in ND as [_ ND]. by eapply IH.
Qed.

Lemma bind_ext_in {A B} (f g : A → list B) l : (∀ x, x ∈ l → f x = g x) → l ≫= f = l ≫= g.
Proof.
  induction l as [|x l IH]; intros Hl; [done|].
  rewrite !bind_cons, (Hl x) by left. f_equal. apply IH. intros y Hy. apply Hl. by right.
Qed.

Lemma fl_heads `{FairLaws C} c : fs_wf c → fs_heads c ⊆ fs_contents c.
Proof. intros Hwf e He. by apply (elem_of_submseteq _ _ e He), sublist_submseteq, fl_heads_sublist. Qed.

Lemma bind_sublist {A B} (f g : A → list B) l :
  (∀ x, x ∈ l → f x `sublist_of` g x) → l ≫= f `sublist_of` l ≫= g.
Proof.
  induction l as [|x l IH]; intros HS; csimpl; [done|].
  apply sublist_app; [apply HS; left|apply IH; intros y Hy; apply HS; by right].
Qed.

#[export] Instance agent_laws : FairLaws AgentNode.
Proof.
  split; try done.
  - intros [[|e l]] _; simpl; split; done.
  - intros [l] _; simpl. apply sublist_take.
  - intros x [[|e l]] _; simpl; [set_solver|]. rewrite take_0, list_elem_of_singleton. naive_solver.
  - by intros [[|e l]] _.
  - intros e [l] _. simpl. by rewrite Permutation_app_comm.
  - intros S r s [[|e l]] _; simpl; [done|]. unfold agent_pop. simpl.
    destruct (r s e) as [[] s'] eqn:E; simpl; split_and!; done.
  - intros id [l] _. simpl. unfold agent_remove. simpl.
    destruct (list_find _ l) as [[i e]|] eqn:E.
    + apply list_find_Some in E as (Hi & He & _).
      pose proof (delete_Permutation _ _ _ Hi) as HP. split_and!; [done..|].
      intros _. exists (take i l), (drop (Datatypes.S i) l). simpl. split; [|by apply delete_take_drop].
      by rewrite take_drop_middle.
    + apply list_find_None in E. split; [done|]. by rewrite Forall_forall in E.
Qed.

Section ring_laws.
Context `{Countable K, !RingKey K, !FairChild C, !FairSpec C, !FairLaws C}.
Implicit Types (n : RingNode K C) (ch : gmap K C) (k : K).

Lemma child_heads_Some ch k c : ch !! k = Some c → child_heads ch k = fs_heads c.
Proof. unfold child_heads. by intros ->. Qed.

Lemma lookup_refile_ne k k' c ch : k' ≠ k → refile k c ch !! k' = ch !! k'.
Proof. intros. unfold refile. case_match; by simplify_map_eq. Qed.

Lemma lookup_refile k c ch : refile k c ch !! k = if fc_is_empty c then None else Some c.
Proof. unfold refile. case_match; by simplify_map_eq. Qed.

Lemma bind_refile k c ch l (f : option C → list ScheduleEntry) :
  k ∉ l → mbind (λ j, f (refile k c ch !! j)) l = mbind (λ j, f (ch !! j)) l.
Proof. intros Hk. apply bind_ext_in. intros j Hj. rewrite lookup_refile_ne; [done|]. by intros ->. Qed.

Lemma ring_wf_split n k c l1 l2 :
  fs_wf n → n.(rn_ring) = l1 ++ k :: l2 → n.(rn_children) !! k = Some c →
  (k ∉ l1) ∧ (k ∉ l2) ∧ NoDup (l1 ++ l2) ∧ fs_wf c.
Proof.
  intros [ND HR HC] E Hc. rewrite E in ND. apply NoDup_app in ND as (N1 & N2 & N3).
  apply NoDup_cons in N3 as [N3 N4]. split_and!.
  - intros Hin. apply (N2 k Hin). left.
  - done.
  - apply NoDup_app. split_and!; [done| |done]. intros j Hj Hj2. apply (N2 j Hj). by right.
  - by apply HC in Hc as [? _].
Qed.

(** A node of the ring changes, and keeps its place in some order of the ring
    if it is not empty. *)
Lemma ring_wf_refile n k c c' l1 l2 ring' :
  fs_wf n → n.(rn_ring) = l1 ++ k :: l2 → n.(rn_children) !! k = Some c → fs_wf c' →
  (∀ e, e ∈ fs_contents c' → ring_key e = k) →
  ring' ≡ₚ (if fc_is_empty c' then l1 ++ l2 else k :: l1 ++ l2) →
  fs_wf (MkRing (refile k c' n.(rn_children)) ring') ∧
  fs_contents (MkRing (refile k c' n.(rn_children)) ring') ≡ₚ
    fs_contents c' ++ ((l1 ++ l2) ≫= child_contents n.(rn_children)).
Proof.
  intros Hwf E Hc Hc' Hkey HP. destruct (ring_wf_split n k c l1 l2) as (K1 & K2 & ND & _); [done..|].
  assert (k ∉ l1 ++ l2) as Hk by set_solver.
  destruct Hwf as [_ HR HC]. rewrite E in HR. split.
  - split; simpl.
    + rewrite HP. destruct (fc_is_empty c'); [done|]. by constructor.
    + intros j. rewrite HP. destruct (decide (j = k)) as [->|Hj].
      * rewrite lookup_refile. destruct (fc_is_empty c'); [|set_solver].
        split; [done|]. by intros [? ?].
      * rewrite lookup_refile_ne, <- HR by done.
        destruct (fc_is_empty c'); rewrite ?elem_of_cons, !elem_of_app, elem_of_cons; naive_solver.
    + intros j d. destruct (decide (j = k)) as [->|Hj].
      * rewrite lookup_refile. case_match eqn:He; [done|]. intros [= <-]. split_and!; [done| |done].
        intros Hn. apply (fl_empty c' Hc') in Hn. congruence.
      * rewrite lookup_refile_ne by done. apply HC.
  - simpl. rewrite HP. unfold child_contents. case_match eqn:He.
    + rewrite bind_refile by done. apply (fl_empty c' Hc') in He. by rewrite He.
    + simpl. rewrite lookup_refile, He. simpl. by rewrite bind_refile.
Qed.

Lemma ring_contents_split n k c l1 l2 :
  n.(rn_ring) = l1 ++ k :: l2 → n.(rn_children) !! k = Some c →
  fs_contents n ≡ₚ fs_contents c ++ ((l1 ++ l2) ≫= child_contents n.(rn_children)).
Proof.
  intros E Hc. simpl. rewrite E, <- Permutation_middle. simpl. unfold child_contents at 1. by rewrite Hc.
Qed.

(** ** A turn of the ring *)
Lemma ring_turns_spec {S} (r : S → ScheduleEntry → bool * S) l1 : ∀ l2 s ch,
  (∀ k, k ∈ l1 → ∃ c, ch !! k = Some c ∧ fs_wf c ∧ fs_contents c ≠ []) →
  match ring_turns r (length l1) s (MkRing ch (l1 ++ l2)) with
  | (None, s', n') => n' = MkRing ch (l2 ++ l1) ∧ first_runnable r s (l1 ≫= child_heads ch) = (None, s')
  | (Some e, s', n') =>
      ∃ pre k post c c' s1,
        l1 = pre ++ k :: post ∧ ch !! k = Some c ∧
        first_runnable r s (pre ≫= child_heads ch) = (None, s1) ∧
        fc_pop r s1 c = (Some e, s', c') ∧
        n' = MkRing (refile k c' ch) (post ++ l2 ++ pre ++ (if fc_is_empty c' then [] else [k]))
  end.
Proof.
  induction l1 as [|k l1 IH]; intros l2 s ch Hch; simpl; [by rewrite app_nil_r|].
  destruct (Hch k) as (c & Hc & Hwf & Hne); [left|]. rewrite Hc.
  pose proof (fl_pop _ r s c Hwf) as Hp. destruct (fc_pop r s c) as [[[e|] s'] c'] eqn:Ep.
  - rewrite lookup_insert_eq. simpl.
    destruct (fc_is_empty c') eqn:Ee; simpl; exists [], k, l1, c, c', s;
      unfold refile; rewrite Ee, ?app_nil_r, ?delete_insert_eq; simpl; split_and!; try done;
      by rewrite <-?app_assoc.
  - destruct Hp as [-> Hf]. rewrite lookup_insert_eq. simpl.
    assert (fc_is_empty c = false) as ->.
    { apply not_true_iff_false. rewrite (fl_empty c Hwf). done. }
    rewrite insert_id by done. rewrite <- app_assoc.
    specialize (IH (l2 ++ [k]) s' ch). rewrite first_runnable_app, (child_heads_Some _ _ _ Hc), Hf.
    destruct (ring_turns r (length l1) s' _) as [[[e|] s''] n'].
    + destruct IH as (pre & k' & post & d & d' & s1 & -> & Hd & Hf1 & Hpop & ->);
        [intros j Hj; apply Hch; by right|].
      exists (k :: pre), k', post, d, d', s1. split_and!; try done; simpl.
      * by rewrite first_runnable_app, (child_heads_Some _ _ _ Hc), Hf.
      * by rewrite <- !app_assoc.
    + destruct IH as [-> HF]; [intros j Hj; apply Hch; by right|].
      split; [by rewrite <- app_assoc|done].
Qed.

Lemma ring_pop_spec {S} (r : S → ScheduleEntry → bool * S) s n :
  fs_wf n →
  match ring_pop r s n with
  | (None, s', n') => n' = n ∧ first_runnable r s (fs_heads n) = (None, s')
  | (Some e, s', n') =>
      ∃ pre k post c c' s1,
        n.(rn_ring) = pre ++ k :: post ∧ n.(rn_children) !! k = Some c ∧
        first_runnable r s (pre ≫= child_heads n.(rn_children)) = (None, s1) ∧
        fc_pop r s1 c = (Some e, s', c') ∧
        n' = MkRing (refile k c' n.(rn_children)) (post ++ pre ++ (if fc_is_empty c' then [] else [k]))
  end.
Proof.
  intros [ND HR HC]. destruct n as [ch ring]. unfold ring_pop. simpl in *.
  pose proof (ring_turns_spec r ring [] s ch) as HT. rewrite app_nil_r in HT. apply HT.
  intros k [c Hk]%HR. exists c. by destruct (HC _ _ Hk) as (? & ? & _).
Qed.

Lemma remove_from_children_spec id ch ring keys : 
  (∀ k, k ∈ keys → ∃ c, ch !! k = Some c ∧ fs_wf c ∧ fs_contents c ≠ []) →
  match remove_from_children id keys (MkRing ch ring) with
  | (None, n') => n' = MkRing ch ring ∧ ∀ e, e ∈ keys ≫= child_contents ch → e.(se_request_id) ≠ id
  | (Some e, n') =>
      ∃ k c c', k ∈ keys ∧ ch !! k = Some c ∧ fc_remove id c = (Some e, c') ∧
        n' = MkRing (refile k c' ch)
               (if fc_is_empty c' then filter (λ j, j ≠ k) ring else ring)
  end.
Proof.
  induction keys as [|k keys IH]; intros Hch; simpl; [split; [done|set_solver]|].
  destruct (Hch k) as (c & Hc & Hwf & Hne); [left|]. rewrite Hc.
  pose proof (fl_remove id c Hwf) as Hr. destruct (fc_remove id c) as [[e|] c'] eqn:Er.
  - rewrite lookup_insert_eq. simpl. exists k, c, c'. unfold refile.
    destruct (fc_is_empty c'); simpl; rewrite ?delete_insert_eq; split_and!; try done; left.
  - destruct Hr as [-> Hr]. rewrite lookup_insert_eq. simpl.
    assert (fc_is_empty c = false) as ->.
    { apply not_true_iff_false. rewrite (fl_empty c Hwf). done. }
    rewrite insert_id by done.
    destruct (remove_from_children id keys _) as [[e|] n'].
    + destruct IH as (j & d & d' & Hj & Hd); [intros j Hj; apply Hch; by right|].
      exists j, d, d'. split; [by right|done].
    + destruct IH as [-> HF]; [intros j Hj; apply Hch; by right|]. split; [done|].
      intros e. rewrite elem_of_app. intros [He|He]; [|by apply HF].
      apply Hr. unfold child_contents in He. by rewrite Hc in He.
Qed.

Lemma filter_ne_split k l1 l2 :
  k ∉ l1 → k ∉ l2 → filter (λ j, j ≠ k) (l1 ++ k :: l2) = l1 ++ l2.
Proof.
  intros H1 H2. rewrite filter_app, filter_cons_False by tauto.
  by f_equal; apply list_filter_all; intros x Hx ->.
Qed.

Lemma ring_wf_lookup n k c :
  fs_wf n → n.(rn_children) !! k = Some c →
  fs_wf c ∧ fs_contents c ≠ [] ∧ (∀ e, e ∈ fs_contents c → ring_key e = k) ∧ k ∈ n.(rn_ring).
Proof. intros [ND HR HC] Hc. destruct (HC _ _ Hc) as (? & ? & ?). rewrite HR. eauto. Qed.

Lemma ring_wf_children n k :
  fs_wf n → k ∈ n.(rn_ring) → ∃ c, n.(rn_children) !! k = Some c ∧ fs_wf c ∧ fs_contents c ≠ [].
Proof. intros [ND HR HC] Hk. apply HR in Hk as [c Hc]. exists c. by destruct (HC _ _ Hc) as (? & ? & _). Qed.

Lemma elem_of_ring_contents n e :
  fs_wf n → e ∈ fs_contents n ↔ ∃ c, n.(rn_children) !! ring_key e = Some c ∧ e ∈ fs_contents c.
Proof.
  intros Hwf. simpl. rewrite list_elem_of_bind. unfold child_contents. split.
  - intros (k & He & Hk). destruct (ring_wf_children n k Hwf Hk) as (c & Hc & _).
    rewrite Hc in He. simpl in He. destruct (ring_wf_lookup n k c Hwf Hc) as (_ & _ & HK & _).
    rewrite (HK e He). eauto.
  - intros (c & Hc & He). exists (ring_key e). rewrite Hc. split; [done|].
    by destruct (ring_wf_lookup n _ c Hwf Hc) as (_ & _ & _ & ?).
Qed.

Lemma ring_lane_refile x k c c' ring' n :
  fs_wf c' → n.(rn_children) !! k = Some c →
  fs_lane x (MkRing (refile k c' n.(rn_children)) ring') =
  if decide (ring_key x = k) then fs_lane x c' else fs_lane x n.
Proof.
  intros Hwf Hc. simpl. case_decide as Hk.
  - subst k. rewrite lookup_refile. destruct (fc_is_empty c') eqn:E; [|done]. simpl.
    apply (fl_empty c' Hwf) in E. pose proof (fl_lane x c' Hwf) as HS. rewrite E in HS.
    destruct (fs_lane x c') as [|y l]; [done|]. set_solver.
  - by rewrite lookup_refile_ne.
Qed.

Lemma ring_push_eq e n :
  ring_push e n =
  MkRing (<[ring_key e := fc_push e (default fc_default (n.(rn_children) !! ring_key e))]> n.(rn_children))
    (if n.(rn_children) !! ring_key e is Some _ then n.(rn_ring) else n.(rn_ring) ++ [ring_key e]).
Proof.
  unfold ring_push. destruct (rn_children n !! ring_key e) as [c|] eqn:E; simpl.
  - by rewrite E.
  - by rewrite lookup_insert_eq, insert_insert_eq.
Qed.

Lemma ring_push_child_wf e n :
  fs_wf n →
  let c := default fc_default (n.(rn_children) !! ring_key e) in
  fs_wf c ∧ (∀ e', e' ∈ fs_contents c → ring_key e' = ring_key e).
Proof.
  intros Hwf. simpl. destruct (rn_children n !! ring_key e) as [c|] eqn:E; simpl.
  - by destruct (ring_wf_lookup n _ c Hwf E) as (? & _ & ? & _).
  - split; [apply fl_default_wf|]. rewrite fl_default_contents. set_solver.
Qed.

Lemma ring_push_wf e n : fs_wf n → fs_wf (ring_push e n).
Proof.
  intros Hwf. destruct (ring_push_child_wf e n Hwf) as [Hc HK]. rewrite ring_push_eq.
  destruct Hwf as [ND HR HC]. split; simpl.
  - destruct (rn_children n !! ring_key e) eqn:E; [done|]. apply NoDup_app. split_and!; [done| |apply NoDup_singleton].
    intros k Hk ->%list_elem_of_singleton. apply HR in Hk as [? ?]. congruence.
  - intros k. destruct (rn_children n !! ring_key e) eqn:E.
    + rewrite HR, lookup_insert_is_Some'. split; [by right|]. intros [<-|?]; [by rewrite E|done].
    + rewrite elem_of_app, list_elem_of_singleton, HR, lookup_insert_is_Some'. naive_solver.
  - intros k c [[<- <-]|[Hk Hl]]%lookup_insert_Some; [|by apply HC].
    split_and!; [by apply fl_push_wf| |].
    + intros Hn. pose proof (fl_push_contents e _ Hc) as HP. rewrite Hn in HP. by apply Permutation_nil_cons in HP.
    + intros e'. rewrite (fl_push_contents e _ Hc). intros [->|?]%elem_of_cons; [done|by apply HK].
Qed.

Lemma ring_push_contents e n : fs_wf n → fs_contents (ring_push e n) ≡ₚ e :: fs_contents n.
Proof.
  intros Hwf. destruct (ring_push_child_wf e n Hwf) as [Hc _]. rewrite ring_push_eq.
  destruct (rn_children n !! ring_key e) as [c|] eqn:E; simpl in *.
  - destruct (ring_wf_lookup n _ c Hwf E) as (_ & _ & _ & Hin).
    apply list_elem_of_split in Hin as (l1 & l2 & Hl).
    destruct (ring_wf_split n _ c l1 l2 Hwf Hl E) as (K1 & K2 & _ & _). rewrite Hl, <- !Permutation_middle.
    rewrite !bind_cons. unfold child_contents at 1 3. rewrite lookup_insert_eq, E. simpl.
    rewrite (fl_push_contents e c Hc). simpl. constructor. apply Permutation_app_head.
    apply reflexive_eq, bind_ext_in. intros j Hj. unfold child_contents.
    rewrite lookup_insert_ne; [done|]. intros <-. set_solver.
  - rewrite bind_app. simpl. rewrite app_nil_r. unfold child_contents at 2. rewrite lookup_insert_eq. simpl.
    rewrite (fl_push_contents e _ Hc), fl_default_contents, Permutation_app_comm. simpl. constructor.
    apply reflexive_eq, bind_ext_in. intros j Hj. unfold child_contents.
    rewrite lookup_insert_ne; [done|]. intros <-.
    destruct Hwf as [_ HR _]. apply HR in Hj as [? ?]. congruence.
Qed.

Lemma ring_lane_part x e :
  lane_part (RingNode K C) x e = if decide (ring_key x = ring_key e) then lane_part C x e else [].
Proof.
  unfold lane_part at 1. cbn [fs_same ring_spec]. case_decide as Hk.
  - by rewrite bool_decide_eq_true_2.
  - by rewrite bool_decide_eq_false_2.
Qed.

Lemma ring_push_lane x e n : fs_wf n → fs_lane x (ring_push e n) = fs_lane x n ++ lane_part (RingNode K C) x e.
Proof.
  intros Hwf. destruct (ring_push_child_wf e n Hwf) as [Hc _]. rewrite ring_push_eq, ring_lane_part. simpl.
  case_decide as Hk; simpl.
  - rewrite Hk, lookup_insert_eq. simpl. rewrite (fl_push_lane x e _ Hc). f_equal.
    destruct (rn_children n !! ring_key e); simpl; [done|apply fl_default_lane].
  - by rewrite lookup_insert_ne, app_nil_r by done.
Qed.

(** ** The ring obeys the laws of its children *)

Lemma ring_pop_laws S (r : S → ScheduleEntry → bool * S) s n :
  fs_wf n →
  match ring_pop r s n with
  | (None, s', n') => n' = n ∧ first_runnable r s (fs_heads n) = (None, s')
  | (Some e, s', n') =>
      fs_wf n' ∧ fs_contents n ≡ₚ e :: fs_contents n' ∧
      first_runnable r s (fs_heads n) = (Some e, s') ∧
      ∀ x, fs_lane x n = lane_part (RingNode K C) x e ++ fs_lane x n'
  end.
Proof.
  intros Hwf. pose proof (ring_pop_spec r s n Hwf) as HP.
  destruct (ring_pop r s n) as [[[e|] s'] n']; [|done].
  destruct HP as (pre & k & post & c & c' & s1 & E & Hc & Hf & Hpop & ->).
  destruct (ring_wf_lookup n k c Hwf Hc) as (Hcwf & _ & HK & _).
  pose proof (fl_pop _ r s1 c Hcwf) as HL. rewrite Hpop in HL. destruct HL as (Hc' & HPc & Hfc & Hl).
  destruct (ring_wf_refile n k c c' pre post (post ++ pre ++ (if fc_is_empty c' then [] else [k])))
    as [Hwf' HP']; try done.
  { intros e' He'. apply HK. rewrite HPc. by right. }
  { destruct (fc_is_empty c'); rewrite ?app_nil_r; [apply Permutation_app_comm|].
    rewrite app_assoc, Permutation_app_comm. simpl. constructor. apply Permutation_app_comm. }
  split_and!; [done| | |].
  - rewrite HP', (ring_contents_split n k c pre post), HPc by done. done.
  - simpl. rewrite E, bind_app, first_runnable_app, Hf, bind_cons, first_runnable_app.
    by rewrite (child_heads_Some _ _ _ Hc), Hfc.
  - intros x. rewrite (ring_lane_refile x k c c') by done. rewrite ring_lane_part.
    assert (ring_key e = k) as -> by (apply HK; rewrite HPc; left).
    case_decide as Hk; [|done]. rewrite <- Hl. simpl. by rewrite Hk, Hc.
Qed.

Lemma ring_remove_laws id n :
  fs_wf n →
  match ring_remove id n with
  | (None, n') => n' = n ∧ ∀ e, e ∈ fs_contents n → e.(se_request_id) ≠ id
  | (Some e, n') =>
      fs_wf n' ∧ fs_contents n ≡ₚ e :: fs_contents n' ∧ e.(se_request_id) = id ∧
      ∀ x, ∃ l1 l2, fs_lane x n = l1 ++ lane_part (RingNode K C) x e ++ l2 ∧ fs_lane x n' = l1 ++ l2
  end.
Proof.
  intros Hwf. unfold ring_remove.
  pose proof (remove_from_children_spec id n.(rn_children) n.(rn_ring) n.(rn_ring)
    (λ k, ring_wf_children n k Hwf)) as HP.
  replace (MkRing (rn_children n) (rn_ring n)) with n in HP by (by destruct n).
  destruct (remove_from_children id _ n) as [[e|] n']; [|done].
  destruct HP as (k & c & c' & Hin & Hc & Hr & ->).
  destruct (ring_wf_lookup n k c Hwf Hc) as (Hcwf & _ & HK & _).
  pose proof (fl_remove id c Hcwf) as HL. rewrite Hr in HL. destruct HL as (Hc' & HPc & Hid & Hl).
  apply list_elem_of_split in Hin as (pre & post & E).
  destruct (ring_wf_split n k c pre post Hwf E Hc) as (K1 & K2 & _ & _).
  destruct (ring_wf_refile n k c c' pre post
    (if fc_is_empty c' then filter (λ j, j ≠ k) n.(rn_ring) else n.(rn_ring))) as [Hwf' HP']; try done.
  { intros e' He'. apply HK. rewrite HPc. by right. }
  { rewrite E. destruct (fc_is_empty c'); [by rewrite filter_ne_split|]. by rewrite Permutation_middle. }
  split_and!; [done| |done|].
  - rewrite HP', (ring_contents_split n k c pre post), HPc by done. done.
  - intros x. rewrite (ring_lane_refile x k c c') by done. rewrite ring_lane_part.
    assert (ring_key e = k) as -> by (apply HK; rewrite HPc; left).
    case_decide as Hk; [|exists (fs_lane x n), []; by rewrite !app_nil_r].
    destruct (Hl x) as (l1 & l2 & H1 & H2). exists l1, l2. split; [|done]. simpl. by rewrite Hk, Hc.
Qed.

#[export] Instance ring_laws : FairLaws (RingNode K C).
Proof.
  split.
  - split; simpl; [by apply NoDup_nil|intros k; rewrite lookup_empty; split; [set_solver|by intros [? ?]]|].
    intros k c. by rewrite lookup_empty.
  - done.
  - intros x. simpl. by rewrite lookup_empty.
  - intros n Hwf. simpl. unfold ring_is_empty. rewrite bool_decide_eq_true. split.
    + intros He. destruct Hwf as [_ HR _]. destruct (rn_ring n) as [|k l]; [done|].
      destruct (proj1 (HR k)) as [c Hc]; [left|]. rewrite He in Hc. by rewrite lookup_empty in Hc.
    + intros He. apply map_empty. intros k. apply eq_None_not_Some. intros [c Hc].
      destruct (ring_wf_lookup n k c Hwf Hc) as (_ & Hn & _ & Hin).
      apply list_elem_of_split in Hin as (pre & post & E).
      pose proof (ring_contents_split n k c pre post E Hc) as HP. simpl in HP. rewrite He in HP.
      apply Permutation_nil_l in HP. symmetry in HP. by apply app_eq_nil in HP as [? _].
  - intros n Hwf. simpl. apply bind_sublist. intros k Hk.
    destruct (ring_wf_children n k Hwf Hk) as (c & Hc & Hcwf & _).
    unfold child_heads, child_contents. rewrite Hc. simpl. by apply fl_heads_sublist.
  - intros e n Hwf. simpl. rewrite list_elem_of_bind. split.
    + intros (k & He & Hk). destruct (ring_wf_children n k Hwf Hk) as (c & Hc & Hcwf & _).
      rewrite (child_heads_Some _ _ _ Hc) in He. destruct (ring_wf_lookup n k c Hwf Hc) as (_ & _ & HK & _).
      rewrite (HK e), Hc by by apply fl_heads. simpl. by apply fl_heads_lane.
    + destruct (rn_children n !! ring_key e) as [c|] eqn:Hc; simpl; [|done]. intros He.
      destruct (ring_wf_lookup n _ c Hwf Hc) as (Hcwf & _ & _ & Hin). exists (ring_key e).
      rewrite (child_heads_Some _ _ _ Hc). split; [by apply fl_heads_lane|done].
  - intros x n Hwf e. rewrite (elem_of_ring_contents n e Hwf). simpl.
    destruct (rn_children n !! ring_key x) as [c|] eqn:Hc; simpl; [|set_solver].
    destruct (ring_wf_lookup n _ c Hwf Hc) as (Hcwf & _ & HK & _). intros He%(fl_lane x c Hcwf).
    exists c. by rewrite (HK e He).
  - intros n Hwf. simpl. destruct (rn_ring n) as [|k l] eqn:E; [done|]. rewrite bind_cons.
    destruct (ring_wf_children n k Hwf) as (c & Hc & Hcwf & Hne); [rewrite E; left|].
    rewrite (child_heads_Some _ _ _ Hc). intros [Hh _]%app_eq_nil. by apply (fl_heads_nil c) in Hh.
  - apply ring_push_wf.
  - apply ring_push_contents.
  - apply ring_push_lane.
  - apply ring_pop_laws.
  - apply ring_remove_laws.
Qed.

(** *** Bounded bypass *)

(** A scan that serves some other key moves [k] strictly closer to the front:
    every key before [k] can overtake it once. *)
Lemma ring_pop_bypass S (r : S → ScheduleEntry → bool * S) s n pre k post c :
  fs_wf n → n.(rn_ring) = pre ++ k :: post → n.(rn_children) !! k = Some c →
  (∀ s, (first_runnable r s (fs_heads c)).1 ≠ None) →
  match ring_pop r s n with
  | (None, _, _) => False
  | (Some e, _, n') =>
      ring_key e = k ∨
      ∃ pre' post', n'.(rn_ring) = pre' ++ k :: post' ∧ (length pre' < length pre)%nat
  end.
Proof.
  intros Hwf E Hc Hrun.
  assert (∀ l1 l2 s, (first_runnable r s ((l1 ++ k :: l2) ≫= child_heads n.(rn_children))).1 ≠ None) as Hstop.
  { intros l1 l2 s0. rewrite bind_app, bind_cons, !first_runnable_app.
    destruct (first_runnable r s0 (l1 ≫= _)) as [[e|] s1]; [done|]. rewrite first_runnable_app.
    rewrite (child_heads_Some _ _ _ Hc). specialize (Hrun s1).
    by destruct (first_runnable r s1 (fs_heads c)) as [[e|] s2]. }
  pose proof (ring_pop_spec r s n Hwf) as HP. destruct (ring_pop r s n) as [[[e|] s'] n'].
  - destruct HP as (pre0 & k0 & post0 & c0 & c' & s1 & E0 & Hc0 & Hf & Hpop & ->).
    destruct (ring_wf_lookup n k0 c0 Hwf Hc0) as (Hcwf & _ & HK & _).
    pose proof (fl_pop _ r s1 c0 Hcwf) as HL. rewrite Hpop in HL. destruct HL as (_ & HPc & _ & _).
    destruct (decide (k = k0)) as [->|Hk]; [left; apply HK; rewrite HPc; left|right].
    assert (k ∈ pre0 ++ k0 :: post0) as Hin by (rewrite <- E0, E; set_solver).
    apply elem_of_app in Hin as [Hin|Hin].
    { apply list_elem_of_split in Hin as (a & b & ->). specialize (Hstop a b s). by rewrite Hf in Hstop. }
    apply elem_of_cons in Hin as [?|Hin]; [done|]. apply list_elem_of_split in Hin as (a & b & ->).
    assert (pre = pre0 ++ k0 :: a) as ->.
    { assert (NoDup (pre ++ k :: post)) as ND by (rewrite <- E; apply Hwf).
      rewrite E0 in E. replace (pre0 ++ k0 :: a ++ k :: b) with ((pre0 ++ k0 :: a) ++ k :: b) in E
        by by rewrite <- app_assoc.
      by eapply (NoDup_split_unique k). }
    simpl. exists a, (b ++ pre0 ++ (if fc_is_empty c' then [] else [k0])).
    rewrite <- app_assoc. split; [done|]. rewrite length_app. simpl. lia.
  - destruct HP as [-> HF]. apply (Hstop pre post s). simpl in HF. rewrite E in HF. by rewrite HF.
Qed.

End ring_laws.

(** ** The queue refines its specification *)

Lemma queue_default_wf : queue_wf queue_default.
Proof. split; [apply fl_default_wf|done]. Qed.

Lemma queue_default_contents : queue_contents queue_default = [].
Proof. done. Qed.

Lemma queue_push_spec e q :
  queue_wf q → queue_wf (queue_push e q) ∧ queue_contents (queue_push e q) ≡ₚ e :: queue_contents q.
Proof.
  intros [Hr Hl]. pose proof (fl_push_contents e _ Hr) as HP. split; [split|done].
  - by apply fl_push_wf.
  - unfold queue_contents, queue_push in *. cbn [fq_len fq_root]. rewrite HP, Hl. simpl. lia.
Qed.

Lemma lane_part_filter x e : lane_part RootNode x e = filter (same_lane x) [e].
Proof.
  unfold lane_part. fold (same_lane x e). rewrite filter_cons, filter_nil.
  destruct (decide _) as [H|H], (same_lane x e); simpl in H; done.
Qed.

Lemma queue_push_lane x e q :
  queue_wf q → queue_lane x (queue_push e q) = queue_lane x q ++ filter (same_lane x) [e].
Proof. intros [Hr _]. rewrite <- lane_part_filter. exact (fl_push_lane x e _ Hr). Qed.

Lemma queue_pop_spec {S} (r : S → ScheduleEntry → bool * S) s q :
  queue_wf q →
  match queue_pop_runnable r s q with
  | (None, s', q') => q' = q ∧ first_runnable r s (queue_heads q) = (None, s')
  | (Some e, s', q') =>
      queue_wf q' ∧ queue_contents q ≡ₚ e :: queue_contents q' ∧
      first_runnable r s (queue_heads q) = (Some e, s') ∧
      ∀ x, queue_lane x q = lane_part RootNode x e ++ queue_lane x q'
  end.
Proof.
  intros [Hr Hl]. unfold queue_pop_runnable. pose proof (fl_pop _ r s _ Hr) as HP.
  destruct (fc_pop r s (fq_root q)) as [[[e|] s'] root]; simpl.
  - destruct HP as (Hwf & HPc & Hf & Hx). split_and!; try done. split; [done|].
    unfold queue_contents in *. cbn [fq_len fq_root]. rewrite HPc in Hl. rewrite Hl. simpl.
    unfold saturating_sub. lia.
  - destruct HP as [-> Hf]. split; [by destruct q|done].
Qed.

Lemma queue_remove_spec id q :
  queue_wf q →
  match queue_remove id q with
  | (None, q') => q' = q ∧ ∀ e, e ∈ queue_contents q → e.(se_request_id) ≠ id
  | (Some e, q') =>
      queue_wf q' ∧ queue_contents q ≡ₚ e :: queue_contents q' ∧ e.(se_request_id) = id ∧
      ∀ x, ∃ l1 l2, queue_lane x q = l1 ++ lane_part RootNode x e ++ l2 ∧ queue_lane x q' = l1 ++ l2
  end.
Proof.
  intros [Hr Hl]. unfold queue_remove. pose proof (fl_remove id _ Hr) as HP.
  destruct (fc_remove id (fq_root q)) as [[e|] root]; simpl.
  - destruct HP as (Hwf & HPc & Hid & Hx). split_and!; try done. split; [done|].
    unfold queue_contents in *. cbn [fq_len fq_root]. rewrite HPc in Hl. rewrite Hl. simpl.
    unfold saturating_sub. lia.
  - destruct HP as [-> Hf]. split; [by destruct q|done].
Qed.

Lemma queue_len_0 q : queue_wf q → q.(fq_len) = 0 ↔ queue_contents q = [].
Proof. intros [_ ->]. rewrite <- length_zero_iff_nil. lia. Qed.

Lemma first_runnable_always {S} (s : S) l : first_runnable (λ s _, (true, s)) s l = (head l, s).
Proof. by destruct l. Qed.

Lemma queue_heads_sublist q : queue_wf q → queue_heads q `sublist_of` queue_contents q.
Proof. intros [Hwf _]. by apply fl_heads_sublist. Qed.

Lemma queue_heads_nil q : queue_wf q → queue_heads q = [] → queue_contents q = [].
Proof. intros [Hr _]. by apply fl_heads_nil. Qed.

Lemma queue_drain_loop_spec fuel q :
  queue_wf q → (length (queue_contents q) < fuel)%nat →
  let '(entries, q') := queue_drain_loop fuel q in
  queue_wf q' ∧ queue_contents q' = [] ∧ entries ≡ₚ queue_contents q ∧
  ∀ x, queue_lane x q = filter (same_lane x) entries.
Proof.
  revert q. induction fuel as [|fuel IH]; intros q Hwf Hf; simpl; [lia|].
  pose proof (queue_pop_spec (λ (s : unit) _, (true, s)) tt q Hwf) as HP.
  destruct (queue_pop_runnable _ tt q) as [[[e|] s'] q'].
  - destruct HP as (Hwf' & HPc & _ & Hx). specialize (IH q' Hwf'). rewrite HPc in Hf. simpl in Hf.
    specialize (IH ltac:(lia)). destruct (queue_drain_loop fuel q') as [entries q''].
    destruct IH as (H1 & H2 & H3 & H4). split_and!; [done|done|by rewrite HPc, H3|].
    intros x. by rewrite Hx, H4, lane_part_filter, <- filter_app.
  - destruct HP as [-> HF]. rewrite first_runnable_always in HF.
    destruct (queue_heads q) as [|h l] eqn:Eh; [|done]. apply (queue_heads_nil q Hwf) in Eh.
    rewrite Eh. split_and!; try done. intros x. simpl. destruct Hwf as [Hr _].
    pose proof (fl_lane x _ Hr) as HL. unfold queue_contents in Eh. rewrite Eh in HL.
    unfold queue_lane. destruct (fs_lane x (fq_root q)) as [|y l]; [done|set_solver].
Qed.

(** [drain] empties the queue and hands out exactly what it held. *)
Lemma queue_drain_spec q :
  queue_wf q →
  queue_wf (queue_drain q).2 ∧ queue_contents (queue_drain q).2 = [] ∧
  (queue_drain q).1 ≡ₚ queue_contents q ∧
  ∀ x, queue_lane x q = filter (same_lane x) (queue_drain q).1.
Proof.
  intros Hwf. unfold queue_drain.
  pose proof (queue_drain_loop_spec (S (N.to_nat (fq_len q))) q Hwf) as HD.
  destruct (queue_drain_loop _ q) as [entries q']. apply HD.
  rewrite (qw_len q Hwf), Nat2N.id. lia.
Qed.

Lemma queue_run_wf {S} (r : S → ScheduleEntry → bool * S) ops s q :
  queue_wf q → queue_wf (queue_run r ops s q).2.
Proof.
  revert s q. induction ops as [|[e| |id] ops IH]; intros s q Hwf; simpl; [done| | |].
  - apply IH. by apply queue_push_spec.
  - pose proof (queue_pop_spec r s q Hwf) as HP. destruct (queue_pop_runnable r s q) as [[[e|] s'] q'].
    + destruct HP as (Hwf' & _). specialize (IH s' q' Hwf'). by destruct (queue_run r ops s' q') as [[? ?] ?].
    + destruct HP as [-> _]. specialize (IH s' q Hwf). by destruct (queue_run r ops s' q) as [[? ?] ?].
  - pose proof (queue_remove_spec id q Hwf) as HP. destruct (queue_remove id q) as [[e|] q'].
    + destruct HP as (Hwf' & _). specialize (IH s q' Hwf'). by destruct (queue_run r ops s q') as [[? ?] ?].
    + destruct HP as [-> _]. specialize (IH s q Hwf). by destruct (queue_run r ops s q) as [[? ?] ?].
Qed.

Lemma queue_run_spec {S} (r : S → ScheduleEntry → bool * S) ops s q :
  queue_wf q →
  let '(served, removed, q') := queue_run r ops s q in
  queue_contents q ++ omap op_pushed ops ≡ₚ served ++ removed ++ queue_contents q' ∧
  ∀ x, filter (same_lane x) served ++ queue_lane x q' `sublist_of`
       queue_lane x q ++ filter (same_lane x) (omap op_pushed ops).
Proof.
  revert s q. induction ops as [|[e| |id] ops IH]; intros s q Hwf; simpl.
  - split; [by rewrite app_nil_r|]. intros x. by rewrite app_nil_r.
  - destruct (queue_push_spec e q Hwf) as [Hwf' HPc]. specialize (IH s _ Hwf').
    destruct (queue_run r ops s _) as [[served removed] q']. destruct IH as [H1 H2]. split.
    + rewrite <- H1, HPc. simpl. by rewrite Permutation_middle.
    + intros x. specialize (H2 x). etrans; [exact H2|]. unfold queue_lane at 1. simpl.
      destruct Hwf as [Hr _]. pose proof (fl_push_lane x e _ Hr) as HL. simpl in HL. rewrite HL.
      rewrite lane_part_filter, <- app_assoc, <- filter_app. done.
  - pose proof (queue_pop_spec r s q Hwf) as HP. destruct (queue_pop_runnable r s q) as [[[e|] s'] q1].
    + destruct HP as (Hwf' & HPc & _ & Hx). specialize (IH s' q1 Hwf').
      destruct (queue_run r ops s' q1) as [[served removed] q']. destruct IH as [H1 H2]. simpl. split.
      * rewrite HPc. simpl. by rewrite H1.
      * intros x. change (e :: served) with ([e] ++ served). rewrite filter_app, Hx, lane_part_filter, <- !app_assoc.
        apply sublist_app; [done|apply H2].
    + destruct HP as [-> _]. specialize (IH s' q Hwf). by destruct (queue_run r ops s' q) as [[? ?] ?].
  - pose proof (queue_remove_spec id q Hwf) as HP. destruct (queue_remove id q) as [[e|] q1].
    + destruct HP as (Hwf' & HPc & _ & Hx). specialize (IH s q1 Hwf').
      destruct (queue_run r ops s q1) as [[served removed] q']. destruct IH as [H1 H2]. simpl. split.
      * rewrite HPc. simpl. by rewrite H1, Permutation_middle.
      * intros x. etrans; [apply H2|]. apply sublist_app; [|done].
        destruct (Hx x) as (l1 & l2 & -> & ->). apply sublist_app; [done|]. by apply sublist_inserts_l.
    + destruct HP as [-> _]. specialize (IH s q Hwf). by destruct (queue_run r ops s q) as [[? ?] ?].
Qed.

(** The users waiting in front of [u] after a call that does not serve [u]. *)
Lemma queue_users_push e q pre u post :
  queue_wf q → queue_users q = pre ++ u :: post → ∃ post', queue_users (queue_push e q) = pre ++ u :: post'.
Proof.
  intros _ E. unfold queue_users, queue_push in *. cbn [fq_root]. simpl. rewrite ring_push_eq. simpl.
  destruct (rn_children _ !! _); [by exists post|]. rewrite E, <- app_assoc. simpl. eauto.
Qed.

Lemma queue_pop_bypass {S} (r : S → ScheduleEntry → bool * S) s q pre u post :
  queue_wf q → queue_users q = pre ++ u :: post →
  (∀ s e, e.(se_owner_user_id) = u → (r s e).1 = true) →
  match queue_pop_runnable r s q with
  | (None, _, _) => False
  | (Some e, _, q') =>
      e.(se_owner_user_id) = u ∨
      ∃ pre' post', queue_users q' = pre' ++ u :: post' ∧ (length pre' < length pre)%nat
  end.
Proof.
  intros [Hr _] E Hrun. unfold queue_users in *.
  destruct (ring_wf_children (fq_root q) u) as (c & Hc & Hcwf & Hne); [done|rewrite E; set_solver|].
  destruct (ring_wf_lookup _ u c Hr Hc) as (_ & _ & HK & _).
  pose proof (ring_pop_bypass S r s (fq_root q) pre u post c Hr E Hc) as HB.
  unfold queue_pop_runnable. change (fc_pop r s (fq_root q)) with (ring_pop r s (fq_root q)).
  destruct (ring_pop r s (fq_root q)) as [[[e|] s'] root]; apply HB; intros s0;
    (destruct (fs_heads c) as [|h l] eqn:Eh; [by apply (fl_heads_nil c Hcwf) in Eh|]);
    (assert (se_owner_user_id h = u) as Hu by (apply HK, (fl_heads c Hcwf); rewrite Eh; left));
    simpl; specialize (Hrun s0 h Hu); by destruct (r s0 h) as [[] ?].
Qed.

(** ** Properties *)

(** C7: whatever the closure answers and however pushes, pops and removals
    interleave, the queue loses and invents nothing: the pushed entries are the
    served, the removed and the still waiting ones. And each lane is first-in
    first-out: what an agent had served, followed by what it still has waiting,
    is a subsequence of what it pushed, in push order. *)
Theorem queue_conserves_and_is_fifo S (r : S → ScheduleEntry → bool * S) ops s :
  let '(served, removed, q) := queue_run r ops s queue_default in
  omap op_pushed ops ≡ₚ served ++ removed ++ queue_contents q ∧
  ∀ x, filter (same_lane x) served ++ queue_lane x q `sublist_of` filter (same_lane x) (omap op_pushed ops).
Proof. apply (queue_run_spec r ops s queue_default queue_default_wf). Qed.

(** a scan is complete. On any reachable queue [pop_runnable] answers the
    first entry its closure accepts among the lane heads, offered once each in
    ring order; the heads are exactly the oldest entries of the lanes, so when
    the scan answers nothing no lane could have made progress, and it then left
    the queue as it was. *)
Theorem queue_pop_complete S (r : S → ScheduleEntry → bool * S) ops s0 s :
  let q := (queue_run r ops s0 queue_default).2 in
  (queue_pop_runnable r s q).1 = first_runnable r s (queue_heads q) ∧
  (∀ e, e ∈ queue_heads q ↔ head (queue_lane e q) = Some e) ∧
  match queue_pop_runnable r s q with (None, _, q') => q' = q | _ => True end.
Proof.
  intros q. assert (queue_wf q) as Hwf by apply queue_run_wf, queue_default_wf.
  pose proof (queue_pop_spec r s q Hwf) as HP. split_and!.
  - destruct (queue_pop_runnable r s q) as [[[e|] s'] q']; simpl; naive_solver.
  - intros e. apply fl_heads_lane, Hwf.
  - destruct (queue_pop_runnable r s q) as [[[e|] s'] q']; naive_solver.
Qed.

(** C8: bounded bypass. A user whose entries the closure accepts is served
    within as many pops as there were users waiting in front of it, itself
    included, whatever is pushed in between: nobody starves behind a user with
    many keys, sessions or agents. *)
Theorem queue_bounded_bypass S (r : S → ScheduleEntry → bool * S) ops s q pre u post :
  queue_wf q → queue_users q = pre ++ u :: post →
  (∀ s e, e.(se_owner_user_id) = u → (r s e).1 = true) →
  forallb (λ op, negb (is_remove op)) ops = true →
  (length pre < length (filter is_pop ops))%nat →
  ∃ e, e ∈ (queue_run r ops s q).1.1 ∧ e.(se_owner_user_id) = u.
Proof.
  intros Hwf E Hrun. revert s q pre post Hwf E.
  induction ops as [|[e| |id] ops IH]; intros s q pre post Hwf E Hops Hlen; simpl in *; try done; [lia| |].
  - destruct (queue_users_push e q pre u post Hwf E) as [post' E'].
    apply (IH s _ pre post'); try done. by apply queue_push_spec.
  - pose proof (queue_pop_bypass r s q pre u post Hwf E Hrun) as HB.
    pose proof (queue_pop_spec r s q Hwf) as HP.
    destruct (queue_pop_runnable r s q) as [[[e|] s'] q']; [|done]. destruct HP as (Hwf' & _).
    destruct HB as [Hu|(pre' & post' & E' & Hlt)].
    + destruct (queue_run r ops s' q') as [[served removed] q'']. exists e. split; [left|done].
    + destruct (IH s' q' pre' post' Hwf' E' Hops) as (e' & He' & Hu); [lia|].
      destruct (queue_run r ops s' q') as [[served removed] q'']. exists e'. split; [by right|done].
Qed.

Lemma queue_bounded_bypass_witness :
  let busy (request : string) := queue_push (sample_entry request "busy" 100) in
  let q := queue_push (sample_entry "r3" "quiet" 100) (busy "r2" (busy "r1" queue_default)) in
  let ops := [OpPop; OpPush (sample_entry "r4" "busy" 100); OpPop] in
  ∃ e, e ∈ (queue_run (λ (s : unit) _, (true, s)) ops tt q).1.1 ∧
       e.(se_owner_user_id) = MkTypedId "quiet".
Proof.
  intros busy q ops.
  apply (queue_bounded_bypass unit (λ (s : unit) _, (true, s)) ops tt q [MkTypedId "busy"] (MkTypedId "quiet") []).
  - apply queue_push_spec, queue_push_spec, queue_push_spec, queue_default_wf.
  - vm_compute. reflexivity.
  - done.
  - done.
  - simpl. lia.
Defined.
