(* ===== verification/EngineState.v ===== *)
(** The state of one Group's scheduler, the [SchedulerEngine] of
    [crates/gateway-scheduler/src/engine.rs], with the field updates and the
    resource ledger that its operations share. *)

From S2P Require Import Prelude Machine Domain TokenBucket SchedTypes FairQueue.
Local Open Scope N_scope.

Record CredentialRuntime := {
  rt_config : CredentialConfig;
  rt_bucket : TokenBucket;
  rt_inflight : N;
  rt_half_open_consumed : bool;
  rt_quota_observation_version : option N;
  rt_admin_fenced : bool;
  rt_next_allowed_at : option Duration;
}.

Record AffinityEntry := {
  ae_credential_id : CredentialId;
  ae_expires_at : Duration;
  ae_migration_candidate : option CredentialId;
  ae_migration_successes : N;
}.

Record SessionClaim := {
  sc_active_requests : N;
  sc_idle_since : option Duration;
  sc_last_request_id : RequestId;
  sc_resource_id : string;
}.

Abbreviation SessionClaimKey := (CredentialId * PlatformKeyId * SessionId)%type.

Record LeaseRecord := {
  lr_lease : CredentialLease;
  lr_session_claim_key : option SessionClaimKey;
}.

Record WaitingRecord := {
  wr_ticket : QueueTicket;
  wr_session_slot_deadline : option Duration;
}.

Inductive PoolEvaluation :=
  | Candidate (credential_id : CredentialId)
  | Wait
  | SessionCapacity (wait : Duration)
  | Cooldown (retry : Duration)
  | DeterministicUnavailable.

(** The last field is not in the source: it counts the calls of
    [Uuid::new_v4], whose results are a parameter of the operations. *)
Record SchedulerEngine := {
  e_identity : ExecutorIdentity;
  e_lifecycle : RuntimeLifecycle;
  e_config : GroupConfig;
  e_group_bucket : option TokenBucket;
  e_credentials : gmap CredentialId CredentialRuntime;
  e_queue : FairQueue;
  e_waiting : gmap RequestId WaitingRecord;
  e_leases : gmap LeaseId LeaseRecord;
  e_request_leases : gmap RequestId LeaseId;
  e_pending_cancels : gmap LeaseId Duration;
  e_group_permits : gset RequestId;
  e_seen_requests : gset RequestId;
  e_request_portability : gmap RequestId Portability;
  e_group_rate_admitted : gset RequestId;
  e_affinities : gmap AffinityKey AffinityEntry;
  e_session_claims : gmap SessionClaimKey SessionClaim;
  e_events : list ResourceEvent;
  e_event_sequence : N;
  e_resource_balance : Z;
  e_draws : N;
}.

(** ** Field updates *)

Definition with_cs_auth_healthy (v : bool) (x : CredentialState) : CredentialState :=
  {| cs_lifecycle_active := cs_lifecycle_active x; cs_auth_healthy := v;
     cs_profile_ready := cs_profile_ready x; cs_egress_ready := cs_egress_ready x;
     cs_transport_ready := cs_transport_ready x; cs_cooldown_until := cs_cooldown_until x;
     cs_quota_used_basis_points := cs_quota_used_basis_points x; cs_quota_reset_at := cs_quota_reset_at x;
     cs_half_open_inflight := cs_half_open_inflight x |}.

Definition with_cs_cooldown_until (v : option Duration) (x : CredentialState) : CredentialState :=
  {| cs_lifecycle_active := cs_lifecycle_active x; cs_auth_healthy := cs_auth_healthy x;
     cs_profile_ready := cs_profile_ready x; cs_egress_ready := cs_egress_ready x;
     cs_transport_ready := cs_transport_ready x; cs_cooldown_until := v;
     cs_quota_used_basis_points := cs_quota_used_basis_points x; cs_quota_reset_at := cs_quota_reset_at x;
     cs_half_open_inflight := cs_half_open_inflight x |}.

Definition with_cs_quota_used_basis_points (v : option N) (x : CredentialState) : CredentialState :=
  {| cs_lifecycle_active := cs_lifecycle_active x; cs_auth_healthy := cs_auth_healthy x;
     cs_profile_ready := cs_profile_ready x; cs_egress_ready := cs_egress_ready x;
     cs_transport_ready := cs_transport_ready x; cs_cooldown_until := cs_cooldown_until x;
     cs_quota_used_basis_points := v; cs_quota_reset_at := cs_quota_reset_at x;
     cs_half_open_inflight := cs_half_open_inflight x |}.

Definition with_cs_quota_reset_at (v : option Duration) (x : CredentialState) : CredentialState :=
  {| cs_lifecycle_active := cs_lifecycle_active x; cs_auth_healthy := cs_auth_healthy x;
     cs_profile_ready := cs_profile_ready x; cs_egress_ready := cs_egress_ready x;
     cs_transport_ready := cs_transport_ready x; cs_cooldown_until := cs_cooldown_until x;
     cs_quota_used_basis_points := cs_quota_used_basis_points x; cs_quota_reset_at := v;
     cs_half_open_inflight := cs_half_open_inflight x |}.

Definition with_cs_half_open_inflight (v : bool) (x : CredentialState) : CredentialState :=
  {| cs_lifecycle_active := cs_lifecycle_active x; cs_auth_healthy := cs_auth_healthy x;
     cs_profile_ready := cs_profile_ready x; cs_egress_ready := cs_egress_ready x;
     cs_transport_ready := cs_transport_ready x; cs_cooldown_until := cs_cooldown_until x;
     cs_quota_used_basis_points := cs_quota_used_basis_points x; cs_quota_reset_at := cs_quota_reset_at x;
     cs_half_open_inflight := v |}.

Definition with_cc_token_version (v : N) (x : CredentialConfig) : CredentialConfig :=
  {| cc_id := cc_id x; cc_credential_projection_revision := cc_credential_projection_revision x;
     cc_scheduling_projection_revision := cc_scheduling_projection_revision x;
     cc_concurrency_limit := cc_concurrency_limit x; cc_rate_limit := cc_rate_limit x;
     cc_priority := cc_priority x; cc_weight := cc_weight x; cc_model_scope := cc_model_scope x;
     cc_attribution_optional := cc_attribution_optional x; cc_session_capacity := cc_session_capacity x;
     cc_min_request_interval := cc_min_request_interval x; cc_token_version := v;
     cc_openai_transport := cc_openai_transport x; cc_profiles := cc_profiles x;
     cc_quota_observation_version := cc_quota_observation_version x; cc_state := cc_state x |}.

Definition with_cc_quota_observation_version (v : option N) (x : CredentialConfig) : CredentialConfig :=
  {| cc_id := cc_id x; cc_credential_projection_revision := cc_credential_projection_revision x;
     cc_scheduling_projection_revision := cc_scheduling_projection_revision x;
     cc_concurrency_limit := cc_concurrency_limit x; cc_rate_limit := cc_rate_limit x;
     cc_priority := cc_priority x; cc_weight := cc_weight x; cc_model_scope := cc_model_scope x;
     cc_attribution_optional := cc_attribution_optional x; cc_session_capacity := cc_session_capacity x;
     cc_min_request_interval := cc_min_request_interval x; cc_token_version := cc_token_version x;
     cc_openai_transport := cc_openai_transport x; cc_profiles := cc_profiles x;
     cc_quota_observation_version := v; cc_state := cc_state x |}.

Definition with_cc_state (v : CredentialState) (x : CredentialConfig) : CredentialConfig :=
  {| cc_id := cc_id x; cc_credential_projection_revision := cc_credential_projection_revision x;
     cc_scheduling_projection_revision := cc_scheduling_projection_revision x;
     cc_concurrency_limit := cc_concurrency_limit x; cc_rate_limit := cc_rate_limit x;
     cc_priority := cc_priority x; cc_weight := cc_weight x; cc_model_scope := cc_model_scope x;
     cc_attribution_optional := cc_attribution_optional x; cc_session_capacity := cc_session_capacity x;
     cc_min_request_interval := cc_min_request_interval x; cc_token_version := cc_token_version x;
     cc_openai_transport := cc_openai_transport x; cc_profiles := cc_profiles x;
     cc_quota_observation_version := cc_quota_observation_version x; cc_state := v |}.

Definition with_rt_config (v : CredentialConfig) (x : CredentialRuntime) : CredentialRuntime :=
  {| rt_config := v; rt_bucket := rt_bucket x; rt_inflight := rt_inflight x;
     rt_half_open_consumed := rt_half_open_consumed x;
     rt_quota_observation_version := rt_quota_observation_version x; rt_admin_fenced := rt_admin_fenced x;
     rt_next_allowed_at := rt_next_allowed_at x |}.

Definition with_rt_bucket (v : TokenBucket) (x : CredentialRuntime) : CredentialRuntime :=
  {| rt_config := rt_config x; rt_bucket := v; rt_inflight := rt_inflight x;
     rt_half_open_consumed := rt_half_open_consumed x;
     rt_quota_observation_version := rt_quota_observation_version x; rt_admin_fenced := rt_admin_fenced x;
     rt_next_allowed_at := rt_next_allowed_at x |}.

Definition with_rt_inflight (v : N) (x : CredentialRuntime) : CredentialRuntime :=
  {| rt_config := rt_config x; rt_bucket := rt_bucket x; rt_inflight := v;
     rt_half_open_consumed := rt_half_open_consumed x;
     rt_quota_observation_version := rt_quota_observation_version x; rt_admin_fenced := rt_admin_fenced x;
     rt_next_allowed_at := rt_next_allowed_at x |}.

Definition with_rt_half_open_consumed (v : bool) (x : CredentialRuntime) : CredentialRuntime :=
  {| rt_config := rt_config x; rt_bucket := rt_bucket x; rt_inflight := rt_inflight x;
     rt_half_open_consumed := v; rt_quota_observation_version := rt_quota_observation_version x;
     rt_admin_fenced := rt_admin_fenced x; rt_next_allowed_at := rt_next_allowed_at x |}.

Definition with_rt_quota_observation_version (v : option N) (x : CredentialRuntime) : CredentialRuntime :=
  {| rt_config := rt_config x; rt_bucket := rt_bucket x; rt_inflight := rt_inflight x;
     rt_half_open_consumed := rt_half_open_consumed x; rt_quota_observation_version := v;
     rt_admin_fenced := rt_admin_fenced x; rt_next_allowed_at := rt_next_allowed_at x |}.

Definition with_rt_admin_fenced (v : bool) (x : CredentialRuntime) : CredentialRuntime :=
  {| rt_config := rt_config x; rt_bucket := rt_bucket x; rt_inflight := rt_inflight x;
     rt_half_open_consumed := rt_half_open_consumed x;
     rt_quota_observation_version := rt_quota_observation_version x; rt_admin_fenced := v;
     rt_next_allowed_at := rt_next_allowed_at x |}.

Definition with_rt_next_allowed_at (v : option Duration) (x : CredentialRuntime) : CredentialRuntime :=
  {| rt_config := rt_config x; rt_bucket := rt_bucket x; rt_inflight := rt_inflight x;
     rt_half_open_consumed := rt_half_open_consumed x;
     rt_quota_observation_version := rt_quota_observation_version x; rt_admin_fenced := rt_admin_fenced x;
     rt_next_allowed_at := v |}.

Definition with_e_lifecycle (v : RuntimeLifecycle) (x : SchedulerEngine) : SchedulerEngine :=
  {| e_identity := e_identity x; e_lifecycle := v; e_config := e_config x; e_group_bucket := e_group_bucket x;
     e_credentials := e_credentials x; e_queue := e_queue x; e_waiting := e_waiting x; e_leases := e_leases x;
     e_request_leases := e_request_leases x; e_pending_cancels := e_pending_cancels x;
     e_group_permits := e_group_permits x; e_seen_requests := e_seen_requests x;
     e_request_portability := e_request_portability x; e_group_rate_admitted := e_group_rate_admitted x;
     e_affinities := e_affinities x; e_session_claims := e_session_claims x; e_events := e_events x;
     e_event_sequence := e_event_sequence x; e_resource_balance := e_resource_balance x;
     e_draws := e_draws x |}.

Definition with_e_config (v : GroupConfig) (x : SchedulerEngine) : SchedulerEngine :=
  {| e_identity := e_identity x; e_lifecycle := e_lifecycle x; e_config := v;
     e_group_bucket := e_group_bucket x; e_credentials := e_credentials x; e_queue := e_queue x;
     e_waiting := e_waiting x; e_leases := e_leases x; e_request_leases := e_request_leases x;
     e_pending_cancels := e_pending_cancels x; e_group_permits := e_group_permits x;
     e_seen_requests := e_seen_requests x; e_request_portability := e_request_portability x;
     e_group_rate_admitted := e_group_rate_admitted x; e_affinities := e_affinities x;
     e_session_claims := e_session_claims x; e_events := e_events x; e_event_sequence := e_event_sequence x;
     e_resource_balance := e_resource_balance x; e_draws := e_draws x |}.

Definition with_e_group_bucket (v : option TokenBucket) (x : SchedulerEngine) : SchedulerEngine :=
  {| e_identity := e_identity x; e_lifecycle := e_lifecycle x; e_config := e_config x; e_group_bucket := v;
     e_credentials := e_credentials x; e_queue := e_queue x; e_waiting := e_waiting x; e_leases := e_leases x;
     e_request_leases := e_request_leases x; e_pending_cancels := e_pending_cancels x;
     e_group_permits := e_group_permits x; e_seen_requests := e_seen_requests x;
     e_request_portability := e_request_portability x; e_group_rate_admitted := e_group_rate_admitted x;
     e_affinities := e_affinities x; e_session_claims := e_session_claims x; e_events := e_events x;
     e_event_sequence := e_event_sequence x; e_resource_balance := e_resource_balance x;
     e_draws := e_draws x |}.

Definition with_e_credentials (v : gmap CredentialId CredentialRuntime) (x : SchedulerEngine) : SchedulerEngine :=
  {| e_identity := e_identity x; e_lifecycle := e_lifecycle x; e_config := e_config x;
     e_group_bucket := e_group_bucket x; e_credentials := v; e_queue := e_queue x; e_waiting := e_waiting x;
     e_leases := e_leases x; e_request_leases := e_request_leases x; e_pending_cancels := e_pending_cancels x;
     e_group_permits := e_group_permits x; e_seen_requests := e_seen_requests x;
     e_request_portability := e_request_portability x; e_group_rate_admitted := e_group_rate_admitted x;
     e_affinities := e_affinities x; e_session_claims := e_session_claims x; e_events := e_events x;
     e_event_sequence := e_event_sequence x; e_resource_balance := e_resource_balance x;
     e_draws := e_draws x |}.

Definition with_e_queue (v : FairQueue) (x : SchedulerEngine) : SchedulerEngine :=
  {| e_identity := e_identity x; e_lifecycle := e_lifecycle x; e_config := e_config x;
     e_group_bucket := e_group_bucket x; e_credentials := e_credentials x; e_queue := v;
     e_waiting := e_waiting x; e_leases := e_leases x; e_request_leases := e_request_leases x;
     e_pending_cancels := e_pending_cancels x; e_group_permits := e_group_permits x;
     e_seen_requests := e_seen_requests x; e_request_portability := e_request_portability x;
     e_group_rate_admitted := e_group_rate_admitted x; e_affinities := e_affinities x;
     e_session_claims := e_session_claims x; e_events := e_events x; e_event_sequence := e_event_sequence x;
     e_resource_balance := e_resource_balance x; e_draws := e_draws x |}.

Definition with_e_waiting (v : gmap RequestId WaitingRecord) (x : SchedulerEngine) : SchedulerEngine :=
  {| e_identity := e_identity x; e_lifecycle := e_lifecycle x; e_config := e_config x;
     e_group_bucket := e_group_bucket x; e_credentials := e_credentials x; e_queue := e_queue x;
     e_waiting := v; e_leases := e_leases x; e_request_leases := e_request_leases x;
     e_pending_cancels := e_pending_cancels x; e_group_permits := e_group_permits x;
     e_seen_requests := e_seen_requests x; e_request_portability := e_request_portability x;
     e_group_rate_admitted := e_group_rate_admitted x; e_affinities := e_affinities x;
     e_session_claims := e_session_claims x; e_events := e_events x; e_event_sequence := e_event_sequence x;
     e_resource_balance := e_resource_balance x; e_draws := e_draws x |}.

Definition with_e_leases (v : gmap LeaseId LeaseRecord) (x : SchedulerEngine) : SchedulerEngine :=
  {| e_identity := e_identity x; e_lifecycle := e_lifecycle x; e_config := e_config x;
     e_group_bucket := e_group_bucket x; e_credentials := e_credentials x; e_queue := e_queue x;
     e_waiting := e_waiting x; e_leases := v; e_request_leases := e_request_leases x;
     e_pending_cancels := e_pending_cancels x; e_group_permits := e_group_permits x;
     e_seen_requests := e_seen_requests x; e_request_portability := e_request_portability x;
     e_group_rate_admitted := e_group_rate_admitted x; e_affinities := e_affinities x;
     e_session_claims := e_session_claims x; e_events := e_events x; e_event_sequence := e_event_sequence x;
     e_resource_balance := e_resource_balance x; e_draws := e_draws x |}.

Definition with_e_request_leases (v : gmap RequestId LeaseId) (x : SchedulerEngine) : SchedulerEngine :=
  {| e_identity := e_identity x; e_lifecycle := e_lifecycle x; e_config := e_config x;
     e_group_bucket := e_group_bucket x; e_credentials := e_credentials x; e_queue := e_queue x;
     e_waiting := e_waiting x; e_leases := e_leases x; e_request_leases := v;
     e_pending_cancels := e_pending_cancels x; e_group_permits := e_group_permits x;
     e_seen_requests := e_seen_requests x; e_request_portability := e_request_portability x;
     e_group_rate_admitted := e_group_rate_admitted x; e_affinities := e_affinities x;
     e_session_claims := e_session_claims x; e_events := e_events x; e_event_sequence := e_event_sequence x;
     e_resource_balance := e_resource_balance x; e_draws := e_draws x |}.

Definition with_e_pending_cancels (v : gmap LeaseId Duration) (x : SchedulerEngine) : SchedulerEngine :=
  {| e_identity := e_identity x; e_lifecycle := e_lifecycle x; e_config := e_config x;
     e_group_bucket := e_group_bucket x; e_credentials := e_credentials x; e_queue := e_queue x;
     e_waiting := e_waiting x; e_leases := e_leases x; e_request_leases := e_request_leases x;
     e_pending_cancels := v; e_group_permits := e_group_permits x; e_seen_requests := e_seen_requests x;
     e_request_portability := e_request_portability x; e_group_rate_admitted := e_group_rate_admitted x;
     e_affinities := e_affinities x; e_session_claims := e_session_claims x; e_events := e_events x;
     e_event_sequence := e_event_sequence x; e_resource_balance := e_resource_balance x;
     e_draws := e_draws x |}.

Definition with_e_group_permits (v : gset RequestId) (x : SchedulerEngine) : SchedulerEngine :=
  {| e_identity := e_identity x; e_lifecycle := e_lifecycle x; e_config := e_config x;
     e_group_bucket := e_group_bucket x; e_credentials := e_credentials x; e_queue := e_queue x;
     e_waiting := e_waiting x; e_leases := e_leases x; e_request_leases := e_request_leases x;
     e_pending_cancels := e_pending_cancels x; e_group_permits := v; e_seen_requests := e_seen_requests x;
     e_request_portability := e_request_portability x; e_group_rate_admitted := e_group_rate_admitted x;
     e_affinities := e_affinities x; e_session_claims := e_session_claims x; e_events := e_events x;
     e_event_sequence := e_event_sequence x; e_resource_balance := e_resource_balance x;
     e_draws := e_draws x |}.

Definition with_e_seen_requests (v : gset RequestId) (x : SchedulerEngine) : SchedulerEngine :=
  {| e_identity := e_identity x; e_lifecycle := e_lifecycle x; e_config := e_config x;
     e_group_bucket := e_group_bucket x; e_credentials := e_credentials x; e_queue := e_queue x;
     e_waiting := e_waiting x; e_leases := e_leases x; e_request_leases := e_request_leases x;
     e_pending_cancels := e_pending_cancels x; e_group_permits := e_group_permits x; e_seen_requests := v;
     e_request_portability := e_request_portability x; e_group_rate_admitted := e_group_rate_admitted x;
     e_affinities := e_affinities x; e_session_claims := e_session_claims x; e_events := e_events x;
     e_event_sequence := e_event_sequence x; e_resource_balance := e_resource_balance x;
     e_draws := e_draws x |}.

Definition with_e_request_portability (v : gmap RequestId Portability) (x : SchedulerEngine) : SchedulerEngine :=
  {| e_identity := e_identity x; e_lifecycle := e_lifecycle x; e_config := e_config x;
     e_group_bucket := e_group_bucket x; e_credentials := e_credentials x; e_queue := e_queue x;
     e_waiting := e_waiting x; e_leases := e_leases x; e_request_leases := e_request_leases x;
     e_pending_cancels := e_pending_cancels x; e_group_permits := e_group_permits x;
     e_seen_requests := e_seen_requests x; e_request_portability := v;
     e_group_rate_admitted := e_group_rate_admitted x; e_affinities := e_affinities x;
     e_session_claims := e_session_claims x; e_events := e_events x; e_event_sequence := e_event_sequence x;
     e_resource_balance := e_resource_balance x; e_draws := e_draws x |}.

Definition with_e_group_rate_admitted (v : gset RequestId) (x : SchedulerEngine) : SchedulerEngine :=
  {| e_identity := e_identity x; e_lifecycle := e_lifecycle x; e_config := e_config x;
     e_group_bucket := e_group_bucket x; e_credentials := e_credentials x; e_queue := e_queue x;
     e_waiting := e_waiting x; e_leases := e_leases x; e_request_leases := e_request_leases x;
     e_pending_cancels := e_pending_cancels x; e_group_permits := e_group_permits x;
     e_seen_requests := e_seen_requests x; e_request_portability := e_request_portability x;
     e_group_rate_admitted := v; e_affinities := e_affinities x; e_session_claims := e_session_claims x;
     e_events := e_events x; e_event_sequence := e_event_sequence x;
     e_resource_balance := e_resource_balance x; e_draws := e_draws x |}.

Definition with_e_affinities (v : gmap AffinityKey AffinityEntry) (x : SchedulerEngine) : SchedulerEngine :=
  {| e_identity := e_identity x; e_lifecycle := e_lifecycle x; e_config := e_config x;
     e_group_bucket := e_group_bucket x; e_credentials := e_credentials x; e_queue := e_queue x;
     e_waiting := e_waiting x; e_leases := e_leases x; e_request_leases := e_request_leases x;
     e_pending_cancels := e_pending_cancels x; e_group_permits := e_group_permits x;
     e_seen_requests := e_seen_requests x; e_request_portability := e_request_portability x;
     e_group_rate_admitted := e_group_rate_admitted x; e_affinities := v;
     e_session_claims := e_session_claims x; e_events := e_events x; e_event_sequence := e_event_sequence x;
     e_resource_balance := e_resource_balance x; e_draws := e_draws x |}.

Definition with_e_session_claims (v : gmap SessionClaimKey SessionClaim) (x : SchedulerEngine) : SchedulerEngine :=
  {| e_identity := e_identity x; e_lifecycle := e_lifecycle x; e_config := e_config x;
     e_group_bucket := e_group_bucket x; e_credentials := e_credentials x; e_queue := e_queue x;
     e_waiting := e_waiting x; e_leases := e_leases x; e_request_leases := e_request_leases x;
     e_pending_cancels := e_pending_cancels x; e_group_permits := e_group_permits x;
     e_seen_requests := e_seen_requests x; e_request_portability := e_request_portability x;
     e_group_rate_admitted := e_group_rate_admitted x; e_affinities := e_affinities x; e_session_claims := v;
     e_events := e_events x; e_event_sequence := e_event_sequence x;
     e_resource_balance := e_resource_balance x; e_draws := e_draws x |}.

Definition with_e_events (v : list ResourceEvent) (x : SchedulerEngine) : SchedulerEngine :=
  {| e_identity := e_identity x; e_lifecycle := e_lifecycle x; e_config := e_config x;
     e_group_bucket := e_group_bucket x; e_credentials := e_credentials x; e_queue := e_queue x;
     e_waiting := e_waiting x; e_leases := e_leases x; e_request_leases := e_request_leases x;
     e_pending_cancels := e_pending_cancels x; e_group_permits := e_group_permits x;
     e_seen_requests := e_seen_requests x; e_request_portability := e_request_portability x;
     e_group_rate_admitted := e_group_rate_admitted x; e_affinities := e_affinities x;
     e_session_claims := e_session_claims x; e_events := v; e_event_sequence := e_event_sequence x;
     e_resource_balance := e_resource_balance x; e_draws := e_draws x |}.

Definition with_e_event_sequence (v : N) (x : SchedulerEngine) : SchedulerEngine :=
  {| e_identity := e_identity x; e_lifecycle := e_lifecycle x; e_config := e_config x;
     e_group_bucket := e_group_bucket x; e_credentials := e_credentials x; e_queue := e_queue x;
     e_waiting := e_waiting x; e_leases := e_leases x; e_request_leases := e_request_leases x;
     e_pending_cancels := e_pending_cancels x; e_group_permits := e_group_permits x;
     e_seen_requests := e_seen_requests x; e_request_portability := e_request_portability x;
     e_group_rate_admitted := e_group_rate_admitted x; e_affinities := e_affinities x;
     e_session_claims := e_session_claims x; e_events := e_events x; e_event_sequence := v;
     e_resource_balance := e_resource_balance x; e_draws := e_draws x |}.

Definition with_e_resource_balance (v : Z) (x : SchedulerEngine) : SchedulerEngine :=
  {| e_identity := e_identity x; e_lifecycle := e_lifecycle x; e_config := e_config x;
     e_group_bucket := e_group_bucket x; e_credentials := e_credentials x; e_queue := e_queue x;
     e_waiting := e_waiting x; e_leases := e_leases x; e_request_leases := e_request_leases x;
     e_pending_cancels := e_pending_cancels x; e_group_permits := e_group_permits x;
     e_seen_requests := e_seen_requests x; e_request_portability := e_request_portability x;
     e_group_rate_admitted := e_group_rate_admitted x; e_affinities := e_affinities x;
     e_session_claims := e_session_claims x; e_events := e_events x; e_event_sequence := e_event_sequence x;
     e_resource_balance := v; e_draws := e_draws x |}.

Definition with_e_draws (v : N) (x : SchedulerEngine) : SchedulerEngine :=
  {| e_identity := e_identity x; e_lifecycle := e_lifecycle x; e_config := e_config x;
     e_group_bucket := e_group_bucket x; e_credentials := e_credentials x; e_queue := e_queue x;
     e_waiting := e_waiting x; e_leases := e_leases x; e_request_leases := e_request_leases x;
     e_pending_cancels := e_pending_cancels x; e_group_permits := e_group_permits x;
     e_seen_requests := e_seen_requests x; e_request_portability := e_request_portability x;
     e_group_rate_admitted := e_group_rate_admitted x; e_affinities := e_affinities x;
     e_session_claims := e_session_claims x; e_events := e_events x; e_event_sequence := e_event_sequence x;
     e_resource_balance := e_resource_balance x; e_draws := v |}.

Definition set_state (f : CredentialState → CredentialState) (x : CredentialRuntime) : CredentialRuntime :=
  with_rt_config (with_cc_state (f (cc_state (rt_config x))) (rt_config x)) x.

Definition with_active_requests (active : N) (idle_since : option Duration) (x : SessionClaim) : SessionClaim :=
  {| sc_active_requests := active; sc_idle_since := idle_since;
     sc_last_request_id := sc_last_request_id x; sc_resource_id := sc_resource_id x |}.

(** ** The resource ledger *)

Definition record_event (request_id : RequestId) (kind : ResourceKind) (resource_id : string)
    (action : ResourceAction) (now : Duration) (self : SchedulerEngine) : SchedulerEngine :=
  let self := with_e_event_sequence (saturating_add U64_MAX self.(e_event_sequence) 1) self in
  let self :=
    match action with
    | Acquire => with_e_resource_balance (isize_saturating_add self.(e_resource_balance) 1) self
    | Release | ForcedRelease => with_e_resource_balance (isize_saturating_sub self.(e_resource_balance) 1) self
    end in
  let portability := default (Pinned None []) (self.(e_request_portability) !! request_id) in
  with_e_events (self.(e_events) ++ [
    {| re_sequence := self.(e_event_sequence); re_request_id := request_id; re_resource_kind := kind;
       re_resource_id := resource_id; re_action := action; re_portability := portability;
       re_generation := self.(e_identity).(ei_generation); re_observed_at := now |} ]) self.

Definition resource_events (self : SchedulerEngine) : list ResourceEvent := self.(e_events).

Definition take_resource_events (self : SchedulerEngine) : list ResourceEvent * SchedulerEngine :=
  (self.(e_events), with_e_events [] self).

Definition acknowledge_resource_events (through_sequence : N) (self : SchedulerEngine) : SchedulerEngine :=
  with_e_events (filter (λ event, through_sequence < event.(re_sequence)) self.(e_events)) self.

Definition release_group_permit (request_id : RequestId) (action : ResourceAction) (now : Duration)
    (self : SchedulerEngine) : result SchedulerError unit * SchedulerEngine :=
  if decide (request_id ∈ self.(e_group_permits)) then
    let self := with_e_group_permits (self.(e_group_permits) ∖ {[request_id]}) self in
    (Ok tt, record_event request_id GroupPermitResource "group-permit" action now self)
  else (Err DuplicateRelease, self).

Definition rejected (kind : RejectionKind) (retry_after : option Duration) : AdmissionDecision :=
  Rejected {| rj_kind := kind; rj_retry_after := retry_after |}.

(** ** Capacity *)

Definition capacity_sum (credentials : gmap CredentialId CredentialRuntime) : N :=
  foldl (saturating_add U32_MAX) 0
    (map (λ runtime, runtime.(rt_config).(cc_concurrency_limit))
       (filter (λ runtime, runtime.(rt_config).(cc_state).(cs_lifecycle_active) = true)
          (btree_values credentials))).

Definition effective_concurrency (self : SchedulerEngine) : N :=
  let healthy := capacity_sum self.(e_credentials) in
  let configured := default healthy self.(e_config).(gc_concurrency_limit) in
  N.min configured healthy.

Definition queue_capacity (self : SchedulerEngine) : N :=
  match self.(e_config).(gc_queue_capacity) with
  | Some capacity => capacity
  | None => saturating_mul USIZE_MAX (effective_concurrency self) 2
  end.

Definition permits_len (self : SchedulerEngine) : N := N.of_nat (size self.(e_group_permits)).
