(* ===== verification/Eligibility.v ===== *)
(** Candidate selection of [crates/gateway-scheduler/src/engine.rs]: which
    Credential may serve a request now ([eligibility], [evaluate_pool_fields])
    and which one takes over a retry ([retry_candidate]). *)

From S2P Require Import Prelude Machine Domain TokenBucket SchedTypes FairQueue EngineState.
Local Open Scope N_scope.

Definition quota_exhausted (runtime : CredentialRuntime) (guard : N) : bool :=
  is_some_and (λ used, guard <=? used) runtime.(rt_config).(cc_state).(cs_quota_used_basis_points).

Definition quota_requires_half_open (runtime : CredentialRuntime) (guard : N) (now : Duration) : bool :=
  quota_exhausted runtime guard &&
  is_some_and (λ reset, reset <=? now) runtime.(rt_config).(cc_state).(cs_quota_reset_at).

Definition session_capacity_blocked (credential : CredentialConfig)
    (session_claims : gmap SessionClaimKey SessionClaim) (entry : ScheduleEntry) : bool :=
  if negb credential.(cc_session_capacity).(scc_enabled) then false
  else
    let claim_key : SessionClaimKey := (credential.(cc_id), entry.(se_platform_key_id), entry.(se_base_session_id)) in
    if decide (is_Some (session_claims !! claim_key)) then false
    else
      let active_sessions :=
        N.of_nat (length (filter (λ key, key.1.1 = credential.(cc_id)) (btree_keys session_claims))) in
      credential.(cc_session_capacity).(scc_max_active_sessions) <=? active_sessions.

(** The deterministic conditions of [eligibility]. *)
Definition deterministically_ineligible (runtime : CredentialRuntime) (entry : ScheduleEntry) : bool :=
  let credential := runtime.(rt_config) in
  let openai := is_some credential.(cc_openai_transport) in
  runtime.(rt_admin_fenced)
  || negb credential.(cc_state).(cs_lifecycle_active)
  || (negb openai && negb credential.(cc_state).(cs_profile_ready))
  || negb credential.(cc_state).(cs_egress_ready)
  || negb credential.(cc_state).(cs_transport_ready)
  || (negb openai && negb (is_some (credential.(cc_profiles) !! entry.(se_client_os))))
  || (openai && negb (bool_decide (credential.(cc_profiles) = ∅)))
  || (negb (bool_decide (credential.(cc_model_scope) = ∅))
      && negb (bool_decide (entry.(se_generic).(gar_model_id) ∈ credential.(cc_model_scope))))
  || (entry.(se_generic).(gar_attribution_suppressed) && negb credential.(cc_attribution_optional)).

(** The last checks of [eligibility]: rate limit, then request pacing. *)
Definition eligibility_paced (runtime : CredentialRuntime) (now : Duration)
    : EligibilityClass * option Duration * CredentialRuntime :=
  let '(ready, bucket) := try_consume_preview runtime.(rt_bucket) now in
  let runtime := with_rt_bucket bucket runtime in
  if negb ready then
    let '(retry, bucket) := retry_after runtime.(rt_bucket) now in
    (TemporarilyBlocked, Some (dur_add now retry), with_rt_bucket bucket runtime)
  else
    match runtime.(rt_next_allowed_at) with
    | Some next_allowed_at =>
        if now <? next_allowed_at then (TemporarilyBlocked, Some next_allowed_at, runtime)
        else (Eligible, None, runtime)
    | None => (Eligible, None, runtime)
    end.

Definition eligibility (runtime : CredentialRuntime) (config : GroupConfig) (entry : ScheduleEntry) (now : Duration)
    : EligibilityClass * option Duration * CredentialRuntime :=
  let guard := config.(gc_quota_guard_basis_points) in
  let half_open := quota_requires_half_open runtime guard now in
  let credential := runtime.(rt_config) in
  if deterministically_ineligible runtime entry then (DeterministicallyIneligible, None, runtime)
  else if negb credential.(cc_state).(cs_auth_healthy)
          || (credential.(cc_concurrency_limit) <=? runtime.(rt_inflight))
  then (TemporarilyBlocked, None, runtime)
  else if is_some_and (λ cooldown_until, now <? cooldown_until) credential.(cc_state).(cs_cooldown_until)
  then (TemporarilyBlocked, credential.(cc_state).(cs_cooldown_until), runtime)
  else if half_open then
    if credential.(cc_state).(cs_half_open_inflight) || runtime.(rt_half_open_consumed)
       || negb (is_portable entry.(se_generic).(gar_portability))
    then (TemporarilyBlocked, credential.(cc_state).(cs_quota_reset_at), runtime)
    else eligibility_paced runtime now
  else if quota_exhausted runtime guard
  then (TemporarilyBlocked, credential.(cc_state).(cs_quota_reset_at), runtime)
  else eligibility_paced runtime now.

(** The products of two [u32] fit in the [u64] they are computed in. *)
Definition compare_candidates (credentials : gmap CredentialId CredentialRuntime) (left right : CredentialId)
    : comparison :=
  match credentials !! left, credentials !! right with
  | None, _ => Gt
  | _, None => Lt
  | Some l, Some r =>
      let left_pressure := l.(rt_inflight) * r.(rt_config).(cc_concurrency_limit) in
      let right_pressure := r.(rt_inflight) * l.(rt_config).(cc_concurrency_limit) in
      let left_quota := default 10000 l.(rt_config).(cc_state).(cs_quota_used_basis_points) in
      let right_quota := default 10000 r.(rt_config).(cc_state).(cs_quota_used_basis_points) in
      then_with (left_quota ?= right_quota)
        (then_with (left_pressure ?= right_pressure)
           (then_with (r.(rt_config).(cc_weight) ?= l.(rt_config).(cc_weight)) (key_cmp left right)))
  end.

(** [candidates.sort_by(compare_candidates)] and its first element. *)
Definition best_candidate (credentials : gmap CredentialId CredentialRuntime) (candidates : list CredentialId)
    : option CredentialId :=
  head (sort_by (compare_candidates credentials) candidates).

Definition priority_of (credentials : gmap CredentialId CredentialRuntime) (id : CredentialId) : option N :=
  (λ runtime, runtime.(rt_config).(cc_priority)) <$> credentials !! id.

(** [Iterator::min]. *)
Definition list_min (l : list N) : option N :=
  match l with [] => None | x :: l => Some (foldl N.min x l) end.

(** Keep the candidates of the numerically lowest priority. *)
Definition retain_best_priority (credentials : gmap CredentialId CredentialRuntime)
    (candidates : list CredentialId) : list CredentialId :=
  match list_min (omap (priority_of credentials) candidates) with
  | None => candidates
  | Some best => filter (λ id, priority_of credentials id = Some best) candidates
  end.

(** The accumulators of the loop in [evaluate_pool_fields]. *)
Record PoolScan := {
  ps_credentials : gmap CredentialId CredentialRuntime;
  ps_candidates : list CredentialId;
  ps_saw_temporary : bool;
  ps_earliest_recovery : option Duration;
  ps_preferred_capacity_only : bool;
  ps_session_wait : option Duration;
}.

Definition option_min (known : option Duration) (d : Duration) : option Duration :=
  Some (map_or d (λ known, N.min known d) known).

Definition pool_scan_step (preferred pinned : option CredentialId)
    (session_claims : gmap SessionClaimKey SessionClaim) (config : GroupConfig)
    (entry : ScheduleEntry) (now : Duration) (scan : PoolScan) (id : CredentialId) : PoolScan :=
  match scan.(ps_credentials) !! id with
  | None => scan
  | Some runtime =>
      if is_some_and (λ target, bool_decide (target ≠ id)) pinned then scan
      else if session_capacity_blocked runtime.(rt_config) session_claims entry then
        {| ps_credentials := scan.(ps_credentials); ps_candidates := scan.(ps_candidates);
           ps_saw_temporary := true; ps_earliest_recovery := scan.(ps_earliest_recovery);
           ps_preferred_capacity_only := scan.(ps_preferred_capacity_only);
           ps_session_wait :=
             option_min scan.(ps_session_wait) runtime.(rt_config).(cc_session_capacity).(scc_new_session_wait) |}
      else
        let '(class, recovery, runtime') := eligibility runtime config entry now in
        let credentials := <[id := runtime']> scan.(ps_credentials) in
        match class with
        | Eligible =>
            {| ps_credentials := credentials; ps_candidates := scan.(ps_candidates) ++ [id];
               ps_saw_temporary := scan.(ps_saw_temporary); ps_earliest_recovery := scan.(ps_earliest_recovery);
               ps_preferred_capacity_only := scan.(ps_preferred_capacity_only);
               ps_session_wait := scan.(ps_session_wait) |}
        | TemporarilyBlocked =>
            {| ps_credentials := credentials; ps_candidates := scan.(ps_candidates); ps_saw_temporary := true;
               ps_earliest_recovery :=
                 match recovery with
                 | Some recovery => option_min scan.(ps_earliest_recovery) recovery
                 | None => scan.(ps_earliest_recovery)
                 end;
               ps_preferred_capacity_only :=
                 scan.(ps_preferred_capacity_only)
                 || (bool_decide (preferred = Some id)
                     && (runtime'.(rt_config).(cc_concurrency_limit) <=? runtime'.(rt_inflight)));
               ps_session_wait := scan.(ps_session_wait) |}
        | DeterministicallyIneligible =>
            {| ps_credentials := credentials; ps_candidates := scan.(ps_candidates);
               ps_saw_temporary := scan.(ps_saw_temporary); ps_earliest_recovery := scan.(ps_earliest_recovery);
               ps_preferred_capacity_only := scan.(ps_preferred_capacity_only);
               ps_session_wait := scan.(ps_session_wait) |}
        end
  end.

Definition pinned_credential (entry : ScheduleEntry) : option CredentialId :=
  match entry.(se_generic).(gar_portability) with
  | Pinned (Some id) _ => Some id
  | Portable | Pinned None _ => None
  end.

(** What [evaluate_pool_fields] answers once the pool is scanned. *)
Definition pool_verdict (preferred : option CredentialId) (config : GroupConfig) (entry : ScheduleEntry)
    (now : Duration) (scan : PoolScan) : PoolEvaluation :=
  match scan.(ps_candidates) with
  | [] =>
      match scan.(ps_session_wait) with
      | Some wait => SessionCapacity wait
      | None =>
          match scan.(ps_earliest_recovery) with
          | None => if scan.(ps_saw_temporary) then Wait else DeterministicUnavailable
          | Some recovery => Cooldown (dur_sub recovery now)
          end
      end
  | _ :: _ =>
      let candidates := retain_best_priority scan.(ps_credentials) scan.(ps_candidates) in
      let otherwise :=
        match best_candidate scan.(ps_credentials) candidates with
        | Some id => Candidate id
        | None => DeterministicUnavailable
        end in
      match preferred with
      | Some preferred =>
          if decide (preferred ∈ candidates) then Candidate preferred
          else if scan.(ps_preferred_capacity_only)
                  && (now <? dur_add entry.(se_accepted_at) config.(gc_preferred_capacity_wait))
          then Wait
          else otherwise
      | None => otherwise
      end
  end.

Definition evaluate_pool_fields (credentials : gmap CredentialId CredentialRuntime)
    (affinities : gmap AffinityKey AffinityEntry) (session_claims : gmap SessionClaimKey SessionClaim)
    (config : GroupConfig) (entry : ScheduleEntry) (now : Duration)
    : PoolEvaluation * gmap CredentialId CredentialRuntime :=
  let preferred := ae_credential_id <$> affinities !! affinity_key_of entry in
  let pinned := pinned_credential entry in
  let scan :=
    foldl (pool_scan_step preferred pinned session_claims config entry now)
      {| ps_credentials := credentials; ps_candidates := []; ps_saw_temporary := false;
         ps_earliest_recovery := None; ps_preferred_capacity_only := false; ps_session_wait := None |}
      (btree_keys credentials) in
  (pool_verdict preferred config entry now scan, scan.(ps_credentials)).

#[global] Arguments evaluate_pool_fields : simpl never.

Definition evaluate_pool (entry : ScheduleEntry) (now : Duration) (self : SchedulerEngine)
    : PoolEvaluation * SchedulerEngine :=
  let '(evaluation, credentials) :=
    evaluate_pool_fields self.(e_credentials) self.(e_affinities) self.(e_session_claims) self.(e_config) entry now in
  (evaluation, with_e_credentials credentials self).

(** ** Retry *)

Definition target_selects (target : RetryCredentialTarget) (id : CredentialId) : bool :=
  match target with
  | Same expected => bool_decide (id = expected)
  | Alternate exclude => bool_decide (id ≠ exclude)
  end.

(** The loop of [retry_candidate]; [None] is the early return of a [?]. The
    current Credential is judged as if its Lease were already released. *)
Fixpoint retry_scan (target : RetryCredentialTarget) (current : CredentialId) (session_claims : gmap SessionClaimKey SessionClaim)
    (config : GroupConfig) (entry : ScheduleEntry) (now : Duration) (ids : list CredentialId)
    (credentials : gmap CredentialId CredentialRuntime) (candidates : list CredentialId)
    : option (list CredentialId) * gmap CredentialId CredentialRuntime :=
  match ids with
  | [] => (Some candidates, credentials)
  | id :: ids =>
      match credentials !! id with
      | None => (None, credentials)
      | Some runtime =>
          if negb (target_selects target id) || session_capacity_blocked runtime.(rt_config) session_claims entry
          then retry_scan target current session_claims config entry now ids credentials candidates
          else
            let released_current := bool_decide (id = current) in
            match (if released_current
                   then (λ inflight, with_rt_inflight inflight runtime) <$> checked_sub runtime.(rt_inflight) 1
                   else Some runtime) with
            | None => (None, credentials)
            | Some runtime =>
                let '(class, _, runtime) := eligibility runtime config entry now in
                let runtime :=
                  if released_current
                  then with_rt_inflight (saturating_add U32_MAX runtime.(rt_inflight) 1) runtime
                  else runtime in
                retry_scan target current session_claims config entry now ids (<[id := runtime]> credentials)
                  (if decide (class = Eligible) then candidates ++ [id] else candidates)
            end
      end
  end.

Definition retry_candidate (entry : ScheduleEntry) (target : RetryCredentialTarget)
    (current_credential : CredentialId) (now : Duration) (self : SchedulerEngine)
    : option CredentialId * SchedulerEngine :=
  if match pinned_credential entry with
     | Some pinned => negb (match target with Same id => bool_decide (id = pinned) | Alternate _ => false end)
     | None => false
     end
  then (None, self)
  else
    let '(candidates, credentials) :=
      retry_scan target current_credential self.(e_session_claims) self.(e_config) entry now
        (btree_keys self.(e_credentials)) self.(e_credentials) [] in
    let self := with_e_credentials credentials self in
    match candidates with
    | None => (None, self)
    | Some candidates =>
        match list_min (omap (priority_of credentials) candidates) with
        | None => (None, self)
        | Some best =>
            (best_candidate credentials (filter (λ id, priority_of credentials id = Some best) candidates), self)
        end
    end.

(** ** Specification *)

(** Everything a Credential must satisfy to take a request now. *)
Record can_serve (config : GroupConfig) (entry : ScheduleEntry) (now : Duration) (rt : CredentialRuntime) : Prop := {
  cv_fenced : rt.(rt_admin_fenced) = false;
  cv_lifecycle : rt.(rt_config).(cc_state).(cs_lifecycle_active) = true;
  cv_auth : rt.(rt_config).(cc_state).(cs_auth_healthy) = true;
  cv_egress : rt.(rt_config).(cc_state).(cs_egress_ready) = true;
  cv_transport : rt.(rt_config).(cc_state).(cs_transport_ready) = true;
  cv_execution :
    match rt.(rt_config).(cc_openai_transport) with
    | Some _ => rt.(rt_config).(cc_profiles) = ∅
    | None => rt.(rt_config).(cc_state).(cs_profile_ready) = true ∧
              is_Some (rt.(rt_config).(cc_profiles) !! entry.(se_client_os))
    end;
  cv_model : rt.(rt_config).(cc_model_scope) = ∅ ∨
             entry.(se_generic).(gar_model_id) ∈ rt.(rt_config).(cc_model_scope);
  cv_attribution : entry.(se_generic).(gar_attribution_suppressed) = true →
                   rt.(rt_config).(cc_attribution_optional) = true;
  cv_capacity : rt.(rt_inflight) < rt.(rt_config).(cc_concurrency_limit);
  cv_cooldown t : rt.(rt_config).(cc_state).(cs_cooldown_until) = Some t → t <= now;
  cv_quota used : rt.(rt_config).(cc_state).(cs_quota_used_basis_points) = Some used →
    used < config.(gc_quota_guard_basis_points) ∨
    ((∃ reset, rt.(rt_config).(cc_state).(cs_quota_reset_at) = Some reset ∧ reset <= now) ∧
     rt.(rt_config).(cc_state).(cs_half_open_inflight) = false ∧ rt.(rt_half_open_consumed) = false ∧
     entry.(se_generic).(gar_portability) = Portable);
  cv_rate : SCALE <= (refill rt.(rt_bucket) now).(tb_available);
  cv_pacing t : rt.(rt_next_allowed_at) = Some t → t <= now;
}.

(** A Credential of the pool that the request may go to. *)
Record serving_candidate (config : GroupConfig) (claims : gmap SessionClaimKey SessionClaim) (entry : ScheduleEntry)
    (now : Duration) (credentials : gmap CredentialId CredentialRuntime) (id : CredentialId)
    (rt : CredentialRuntime) : Prop := {
  sv_known : credentials !! id = Some rt;
  sv_pinned target : pinned_credential entry = Some target → id = target;
  sv_sessions : session_capacity_blocked rt.(rt_config) claims entry = false;
  sv_serve : can_serve config entry now rt;
}.

(** Looking at a Credential only refills its bucket. *)
Definition refilled (now : Duration) (x y : CredentialRuntime) : Prop :=
  y = x ∨ y = with_rt_bucket (refill x.(rt_bucket) now) x.

(** The order in which equally prioritised candidates are preferred: lower
    quota use, then lower load, then higher weight, then smaller id. *)
Definition preferable (credentials : gmap CredentialId CredentialRuntime) (x y : CredentialId) : Prop :=
  compare_candidates credentials x y ≠ Gt.

(** The same order, said without the comparison: a quota that is not known counts as used up, and the load is the part of the concurrency limit that is taken. *)
Definition quota_used (rt : CredentialRuntime) : N :=
  match rt.(rt_config).(cc_state).(cs_quota_used_basis_points) with Some used => used | None => 10000 end.

Definition less_loaded (rx ry : CredentialRuntime) : Prop :=
  rx.(rt_inflight) * ry.(rt_config).(cc_concurrency_limit) < ry.(rt_inflight) * rx.(rt_config).(cc_concurrency_limit).

Inductive ranks_before (x : CredentialId) (rx : CredentialRuntime) (y : CredentialId) (ry : CredentialRuntime) : Prop :=
  | before_by_quota : quota_used rx < quota_used ry → ranks_before x rx y ry
  | before_by_load : quota_used rx = quota_used ry → less_loaded rx ry → ranks_before x rx y ry
  | before_by_weight : quota_used rx = quota_used ry → ¬ less_loaded ry rx → ¬ less_loaded rx ry →
      ry.(rt_config).(cc_weight) < rx.(rt_config).(cc_weight) → ranks_before x rx y ry
  | before_by_id : quota_used rx = quota_used ry → ¬ less_loaded ry rx → ¬ less_loaded rx ry →
      rx.(rt_config).(cc_weight) = ry.(rt_config).(cc_weight) → key_le x y → ranks_before x rx y ry.

(** The affinity of a request is to a Credential that has no room. *)
Definition held_back (preferred : option CredentialId) (credentials : gmap CredentialId CredentialRuntime) (config : GroupConfig) (entry : ScheduleEntry) (now : Duration) : Prop :=
  ∃ busy rt, preferred = Some busy ∧ credentials !! busy = Some rt ∧ rt.(rt_config).(cc_concurrency_limit) <= rt.(rt_inflight) ∧
    now < dur_add entry.(se_accepted_at) config.(gc_preferred_capacity_wait).

(** Whether the scan accepts [id]. *)
Definition scan_accepts (pinned : option CredentialId) (claims : gmap SessionClaimKey SessionClaim)
    (config : GroupConfig) (entry : ScheduleEntry) (now : Duration)
    (credentials : gmap CredentialId CredentialRuntime) (id : CredentialId) : Prop :=
  match credentials !! id with
  | None => False
  | Some rt =>
      is_some_and (λ target, bool_decide (target ≠ id)) pinned = false ∧
      session_capacity_blocked rt.(rt_config) claims entry = false ∧
      (eligibility rt config entry now).1.1 = Eligible
  end.

#[export] Instance scan_accepts_dec pinned claims config entry now credentials id :
  Decision (scan_accepts pinned claims config entry now credentials id).
Proof. unfold scan_accepts. destruct (credentials !! id); apply _. Defined.

(** ** Lemmas *)

Lemma quota_exhausted_false rt guard :
  quota_exhausted rt guard = false ↔
  ∀ used, rt.(rt_config).(cc_state).(cs_quota_used_basis_points) = Some used → used < guard.
Proof.
  unfold quota_exhausted. destruct (cs_quota_used_basis_points _) as [u|]; simpl; [|done].
  destruct (N.leb_spec guard u); split; intros Hx; try done; [specialize (Hx u eq_refl); lia|].
  by intros ? [= <-].
Qed.

Lemma deterministically_ineligible_false rt entry :
  deterministically_ineligible rt entry = false ↔
  rt.(rt_admin_fenced) = false ∧ rt.(rt_config).(cc_state).(cs_lifecycle_active) = true ∧
  rt.(rt_config).(cc_state).(cs_egress_ready) = true ∧ rt.(rt_config).(cc_state).(cs_transport_ready) = true ∧
  match rt.(rt_config).(cc_openai_transport) with
  | Some _ => rt.(rt_config).(cc_profiles) = ∅
  | None => rt.(rt_config).(cc_state).(cs_profile_ready) = true ∧
            is_Some (rt.(rt_config).(cc_profiles) !! entry.(se_client_os))
  end ∧
  (rt.(rt_config).(cc_model_scope) = ∅ ∨ entry.(se_generic).(gar_model_id) ∈ rt.(rt_config).(cc_model_scope)) ∧
  (entry.(se_generic).(gar_attribution_suppressed) = true → rt.(rt_config).(cc_attribution_optional) = true).
Proof.
  unfold deterministically_ineligible. rewrite !orb_false_iff, !andb_false_iff, !negb_false_iff.
  rewrite !bool_decide_eq_true.
  destruct (cc_openai_transport (rt_config rt)), (gar_attribution_suppressed (se_generic entry)); simpl;
    rewrite ?is_some_spec; naive_solver.
Qed.

Lemma eligibility_paced_spec rt now :
  (eligibility_paced rt now).1.1 = Eligible ↔
  SCALE <= (refill rt.(rt_bucket) now).(tb_available) ∧ (∀ t, rt.(rt_next_allowed_at) = Some t → t <= now).
Proof.
  unfold eligibility_paced, try_consume_preview, retry_after. simpl. rewrite ?refill_idem.
  destruct (N.leb_spec SCALE (tb_available (refill (rt_bucket rt) now))); simpl.
  - destruct (rt_next_allowed_at rt) as [t|]; simpl; [|naive_solver].
    destruct (N.ltb_spec now t); simpl; split; try done; [intros [_ Hx]; specialize (Hx t eq_refl); lia|].
    intros _. split; [done|]. by intros ? [= <-].
  - split; [|lia]. repeat case_match; simpl in *; simplify_eq; done.
Qed.

Lemma eligibility_spec rt config entry now :
  (eligibility rt config entry now).1.1 = Eligible ↔ can_serve config entry now rt.
Proof.
  set (guard := gc_quota_guard_basis_points config). unfold eligibility.
  destruct (deterministically_ineligible rt entry) eqn:Ed.
  { split; [done|]. intros []. apply not_false_iff_true in Ed. destruct Ed.
    apply deterministically_ineligible_false. tauto. }
  apply deterministically_ineligible_false in Ed as (D1 & D2 & D3 & D4 & D5 & D6 & D7).
  destruct (cs_auth_healthy (cc_state (rt_config rt))) eqn:Ea; simpl; [|by split; [|intros []; congruence]].
  destruct (N.leb_spec (cc_concurrency_limit (rt_config rt)) (rt_inflight rt)); [split; [done|intros []; lia]|].
  destruct (is_some_and _ (cs_cooldown_until _)) eqn:Ec; simpl.
  { split; [done|]. intros []. destruct (cs_cooldown_until _) as [t|]; [|done]. simpl in Ec. bool_prop.
    specialize (cv_cooldown0 t eq_refl). lia. }
  assert (∀ t, cs_cooldown_until (cc_state (rt_config rt)) = Some t → t <= now) as Hc.
  { intros t Ht. rewrite Ht in Ec. simpl in Ec. by bool_prop. }
  fold guard. unfold quota_requires_half_open. destruct (quota_exhausted rt guard) eqn:Eq; simpl.
  - assert (∃ used, cs_quota_used_basis_points (cc_state (rt_config rt)) = Some used ∧ guard <= used) as (used & Hu & Hg).
    { unfold quota_exhausted in Eq. destruct (cs_quota_used_basis_points _) as [u|]; [|done]. exists u. simpl in Eq. bool_prop. done. }
    destruct (is_some_and _ (cs_quota_reset_at _)) eqn:Er; simpl.
    + destruct (cs_quota_reset_at (cc_state (rt_config rt))) as [reset|] eqn:Ereset; [|done]. simpl in Er. bool_prop.
      destruct (cs_half_open_inflight (cc_state (rt_config rt))) eqn:Eh; simpl.
      { split; [done|]. intros []. destruct (cv_quota0 used Hu) as [?|(_&?&_)]; [lia|congruence]. }
      destruct (rt_half_open_consumed rt) eqn:Eh2; simpl.
      { split; [done|]. intros []. destruct (cv_quota0 used Hu) as [?|(_&_&?&_)]; [lia|congruence]. }
      destruct (gar_portability (se_generic entry)) eqn:Ep; simpl.
      2:{ split; [done|]. intros []. destruct (cv_quota0 used Hu) as [?|(_&_&_&?)]; [lia|congruence]. }
      rewrite eligibility_paced_spec. split; [intros [? ?]|by intros []]. split; try done.
      intros used' _. right. split_and!; try done. by exists reset.
    + split; [done|]. intros []. destruct (cv_quota0 used Hu) as [?|((reset & Hr & Hle)&_)]; [lia|].
      rewrite Hr in Er. simpl in Er. bool_prop. lia.
  - rewrite eligibility_paced_spec. split; [intros [? ?]|by intros []]. split; try done.
    intros used Hu. left. by apply (proj1 (quota_exhausted_false rt guard) Eq).
Qed.

Lemma eligibility_refilled rt config entry now : refilled now rt (eligibility rt config entry now).2.
Proof.
  unfold eligibility, eligibility_paced, try_consume_preview, retry_after, refilled.
  repeat match goal with
  | |- context [if ?b then _ else _] => destruct b
  | |- context [match ?o with Some _ => _ | None => _ end] => destruct o
  end; simpl; try (by left); right; simpl; rewrite ?refill_idem; done.
Qed.

Lemma can_serve_refilled config entry now x y :
  refilled now x y → can_serve config entry now x ↔ can_serve config entry now y.
Proof.
  intros [->| ->]; [done|]. split; intros []; split; simpl in *; try done; by rewrite refill_idem in *.
Qed.

Lemma refilled_config now x y : refilled now x y → y.(rt_config) = x.(rt_config) ∧ y.(rt_inflight) = x.(rt_inflight).
Proof. by intros [->| ->]. Qed.

(** The scan changes the pool at the ids it visits, by refilling, and collects
    the ids it accepts in order. *)
Section scan.
Context (preferred pinned : option CredentialId) (claims : gmap SessionClaimKey SessionClaim)
  (config : GroupConfig) (entry : ScheduleEntry) (now : Duration).
Let step := pool_scan_step preferred pinned claims config entry now.
Let accepts := scan_accepts pinned claims config entry now.

Lemma scan_step_lookup_ne scan id id' :
  id' ≠ id → (step scan id).(ps_credentials) !! id' = scan.(ps_credentials) !! id'.
Proof.
  intros Hne. unfold step, pool_scan_step. destruct (ps_credentials scan !! id) as [rt|]; [|done].
  destruct (is_some_and _ pinned); [done|]. destruct (session_capacity_blocked _ _ _); [done|].
  destruct (eligibility rt config entry now) as [[[] ?] rt']; simpl; by rewrite lookup_insert_ne.
Qed.

Lemma scan_step_lookup scan id rt :
  scan.(ps_credentials) !! id = Some rt →
  ∃ rt', (step scan id).(ps_credentials) !! id = Some rt' ∧ refilled now rt rt'.
Proof.
  intros Hid. unfold step, pool_scan_step. rewrite Hid.
  destruct (is_some_and _ pinned); [exists rt; split; [done|by left]|].
  destruct (session_capacity_blocked _ _ _); [exists rt; split; [done|by left]|].
  pose proof (eligibility_refilled rt config entry now) as HR.
  destruct (eligibility rt config entry now) as [[[] ?] rt']; simpl; exists rt'; by rewrite lookup_insert_eq.
Qed.

Lemma scan_step_candidates scan id :
  (accepts scan.(ps_credentials) id ∧ (step scan id).(ps_candidates) = scan.(ps_candidates) ++ [id]) ∨
  (¬ accepts scan.(ps_credentials) id ∧ (step scan id).(ps_candidates) = scan.(ps_candidates)).
Proof.
  unfold step, accepts, pool_scan_step, scan_accepts.
  destruct (ps_credentials scan !! id) as [rt|] eqn:Hid; [|right; split; [by intros []|done]].
  destruct (is_some_and _ pinned); [right; split; [by intros []|done]|].
  destruct (session_capacity_blocked _ _ _); [right; split; [by intros (_&?&_)|done]|].
  destruct (eligibility rt config entry now) as [[[] recovery] rt']; simpl;
    [by left|right..]; split; try done; by intros (_&_&?).
Qed.

Lemma scan_lookup ids scan id :
  match scan.(ps_credentials) !! id with
  | Some rt => ∃ rt', (foldl step scan ids).(ps_credentials) !! id = Some rt' ∧ (NoDup ids → refilled now rt rt')
  | None => (foldl step scan ids).(ps_credentials) !! id = None
  end ∧ (id ∉ ids → (foldl step scan ids).(ps_credentials) !! id = scan.(ps_credentials) !! id).
Proof.
  revert scan. induction ids as [|id' ids IH]; intros scan; simpl.
  { split; [|done]. destruct (_ !! id) as [rt|]; [|done]. exists rt. split; [done|by left]. }
  destruct (IH (step scan id')) as [IH1 IH2]. destruct (decide (id = id')) as [->|Hne].
  - split; [|set_solver]. destruct (ps_credentials scan !! id') as [rt|] eqn:Hid.
    + destruct (scan_step_lookup scan id' rt Hid) as (rt' & Hrt' & HR). rewrite Hrt' in IH1.
      destruct IH1 as (rt'' & Hrt'' & _). exists rt''. split; [done|]. intros [Hn _]%NoDup_cons.
      specialize (IH2 Hn). rewrite Hrt', Hrt'' in IH2. by injection IH2 as ->.
    + assert (ps_credentials (step scan id') !! id' = None) as HN by (unfold step, pool_scan_step; by rewrite Hid).
      by rewrite HN in IH1.
  - rewrite scan_step_lookup_ne in IH1, IH2 by done. split.
    + destruct (ps_credentials scan !! id) as [rt|]; [|done]. destruct IH1 as (rt' & ? & HR). exists rt'. split; [done|].
      intros [_ Hnd]%NoDup_cons. by apply HR.
    + intros Hn. apply IH2. set_solver.
Qed.

Lemma scan_candidates ids scan :
  NoDup ids →
  (foldl step scan ids).(ps_candidates) = scan.(ps_candidates) ++ filter (accepts scan.(ps_credentials)) ids.
Proof.
  revert scan. induction ids as [|id ids IH]; intros scan Hnd; simpl; [by rewrite app_nil_r|].
  apply NoDup_cons in Hnd as [Hn Hnd]. rewrite IH by done.
  assert (filter (accepts (ps_credentials (step scan id))) ids = filter (accepts (ps_credentials scan)) ids) as ->.
  { apply list_filter_iff_in. intros id' Hin. unfold accepts, scan_accepts.
    by rewrite scan_step_lookup_ne by set_solver. }
  rewrite filter_cons.
  destruct (scan_step_candidates scan id) as [[Ha HE]|[Ha HE]]; rewrite HE; destruct (decide _); try done.
  by rewrite <- app_assoc.
Qed.

End scan.

(** ** The order of candidates *)

Lemma compare_candidates_ok credentials :
  cmp_ok (compare_candidates credentials)
    (λ id, ∃ rt, credentials !! id = Some rt ∧ 0 < rt.(rt_config).(cc_concurrency_limit)).
Proof.
  set (P := λ id, _).
  set (get (f : CredentialRuntime → N) id := map_or 0 f (credentials !! id)).
  set (quota := get (λ rt, default 10000 rt.(rt_config).(cc_state).(cs_quota_used_basis_points))).
  set (inflight := get rt_inflight).
  set (limit := get (λ rt, rt.(rt_config).(cc_concurrency_limit))).
  set (weight := get (λ rt, rt.(rt_config).(cc_weight))).
  apply (cmp_ok_ext P (λ x y, then_with (quota x ?= quota y)
    (then_with (inflight x * limit y ?= inflight y * limit x)
      (then_with (weight y ?= weight x) (key_cmp x y))))).
  - intros x y (rx & Hx & _) (ry & Hy & _). unfold compare_candidates, quota, inflight, limit, weight, get.
    rewrite Hx, Hy. done.
  - apply (then_with_ok P (λ x y, quota x ?= quota y)); [apply Ncompare_ok|].
    apply (then_with_ok P (λ x y, inflight x * limit y ?= inflight y * limit x)).
    { destruct (pressure_ok inflight limit) as [O T]. assert (∀ id, P id → 0 < limit id) as HP.
      { intros id (rt & Hid & ?). unfold limit, get. by rewrite Hid. }
      split; [intros; apply O; auto|intros x y z ???; apply T; auto]. }
    apply (then_with_ok P (λ x y, weight y ?= weight x)); [|apply key_cmp_ok].
    destruct (Ncompare_ok weight P) as [O T]. split; [intros; by apply O|].
    intros x y z Hx Hy Hz H1 H2. by apply (T z y x).
Qed.

Lemma best_candidate_spec credentials candidates id :
  (∀ x, x ∈ candidates → ∃ rt, credentials !! x = Some rt ∧ 0 < rt.(rt_config).(cc_concurrency_limit)) →
  best_candidate credentials candidates = Some id →
  id ∈ candidates ∧ ∀ x, x ∈ candidates → preferable credentials id x.
Proof. intros HP Hb. eapply sort_by_head; [apply compare_candidates_ok|exact HP|exact Hb]. Qed.

Lemma best_candidate_None credentials candidates : best_candidate credentials candidates = None → candidates = [].
Proof.
  unfold best_candidate. intros Hh. pose proof (sort_by_perm (compare_candidates credentials) candidates) as HP.
  destruct (sort_by _ _); [|done]. by apply Permutation_nil_l in HP.
Qed.

Lemma list_min_spec l m : list_min l = Some m → m ∈ l ∧ ∀ x, x ∈ l → m <= x.
Proof.
  destruct l as [|x l]; [done|]. simpl. intros [= <-]. revert x. induction l as [|y l IH]; intros x; simpl.
  - split; [left|]. intros z ->%list_elem_of_singleton. lia.
  - destruct (IH (N.min x y)) as [H1 H2]. split.
    + apply elem_of_cons in H1 as [H1|H1]; [|by right; right].
      destruct (N.min_spec x y) as [[_ E]|[_ E]]; rewrite H1, E; [left|right; left].
    + intros z [->|[->|Hz]%elem_of_cons]%elem_of_cons; [|..|apply H2; by right];
        specialize (H2 (N.min x y) ltac:(left)); lia.
Qed.

Lemma list_min_None l : list_min l = None ↔ l = [].
Proof. by destruct l. Qed.

(** The retained candidates are the candidates of the lowest priority. *)
Lemma retain_best_priority_spec credentials candidates :
  (∀ x, x ∈ candidates → is_Some (credentials !! x)) →
  (candidates ≠ [] → retain_best_priority credentials candidates ≠ []) ∧
  ∀ x, x ∈ retain_best_priority credentials candidates →
    x ∈ candidates ∧
    ∀ y rx ry, y ∈ candidates → credentials !! x = Some rx → credentials !! y = Some ry →
      rx.(rt_config).(cc_priority) <= ry.(rt_config).(cc_priority).
Proof.
  intros HS. unfold retain_best_priority.
  assert (∀ y ry, y ∈ candidates → credentials !! y = Some ry →
    cc_priority (rt_config ry) ∈ omap (priority_of credentials) candidates) as Hin.
  { intros y ry Hy Hc. apply list_elem_of_omap. exists y. split; [done|]. unfold priority_of. by rewrite Hc. }
  destruct (list_min _) as [best|] eqn:Em.
  - apply list_min_spec in Em as [Hb Hmin]. split.
    + intros _. apply list_elem_of_omap in Hb as (x & Hx & Hp).
      intros HE. assert (x ∈ @nil CredentialId) as Hn; [|set_solver]. rewrite <- HE. by apply list_elem_of_filter.
    + intros x [Hp Hx]%list_elem_of_filter. split; [done|]. intros y rx ry Hy Hrx Hry.
      unfold priority_of in Hp. rewrite Hrx in Hp. simpl in Hp. injection Hp as ->. by apply Hmin, (Hin y).
  - apply list_min_None in Em. destruct candidates as [|x l]; [split; [done|set_solver]|].
    exfalso. destruct (HS x) as [rx Hrx]; [left|]. specialize (Hin x rx ltac:(left) Hrx). rewrite Em in Hin. set_solver.
Qed.

(** ** The pool evaluation *)

Lemma scan_accepts_spec claims config entry now credentials id :
  scan_accepts (pinned_credential entry) claims config entry now credentials id ↔
  ∃ rt, serving_candidate config claims entry now credentials id rt.
Proof.
  unfold scan_accepts. destruct (credentials !! id) as [rt|] eqn:Hid.
  - rewrite eligibility_spec. split.
    + intros (Hp & Hs & He). exists rt. split; [done| |done|done].
      intros target Ht. rewrite Ht in Hp. simpl in Hp. apply bool_decide_eq_false in Hp. destruct (decide (id = target)); naive_solver.
    + intros (rt' & [Hk Hp Hs He]). rewrite Hid in Hk. injection Hk as <-. split_and!; [|done|done].
      destruct (pinned_credential entry) as [target|]; simpl; [|done]. apply bool_decide_eq_false.
      rewrite (Hp target eq_refl). tauto.
  - split; [done|]. intros (rt & []). congruence.
Qed.

Lemma preferable_ranks credentials x y rx ry : credentials !! x = Some rx → credentials !! y = Some ry → preferable credentials x y → ranks_before x rx y ry.
Proof.
  unfold preferable, compare_candidates. intros -> ->. change (default 10000 ?o) with (match o with Some used => used | None => 10000 end).
  fold (quota_used rx) (quota_used ry). unfold then_with, key_cmp.
  destruct (N.compare_spec (quota_used rx) (quota_used ry)) as [Eq|Hq|Hq]; [|by constructor 1|done].
  destruct (N.compare_spec (rt_inflight rx * cc_concurrency_limit (rt_config ry)) (rt_inflight ry * cc_concurrency_limit (rt_config rx))) as [El|Hl|Hl]; [|by constructor 2|done].
  assert (¬ less_loaded ry rx ∧ ¬ less_loaded rx ry) as [Hl1 Hl2] by (unfold less_loaded; lia).
  destruct (N.compare_spec (cc_weight (rt_config ry)) (cc_weight (rt_config rx))) as [Ew|Hw|Hw]; [|by constructor 3|done].
  intros Hk. constructor 4; try done. destruct (decide (x = y)) as [->|]; [reflexivity|]. by destruct (decide (key_le x y)).
Qed.

(** The flag of the scan says that the preferred Credential has no room. *)
Lemma scan_busy preferred pinned claims config entry now ids scan :
  (scan.(ps_preferred_capacity_only) = true → ∃ busy rt, preferred = Some busy ∧ scan.(ps_credentials) !! busy = Some rt ∧ rt.(rt_config).(cc_concurrency_limit) <= rt.(rt_inflight)) →
  let scan' := foldl (pool_scan_step preferred pinned claims config entry now) scan ids in
  scan'.(ps_preferred_capacity_only) = true → ∃ busy rt, preferred = Some busy ∧ scan'.(ps_credentials) !! busy = Some rt ∧ rt.(rt_config).(cc_concurrency_limit) <= rt.(rt_inflight).
Proof.
  revert scan. induction ids as [|id ids IH]; intros scan Hscan; [exact Hscan|]. apply IH. clear IH.
  assert (∀ busy rt, scan.(ps_credentials) !! busy = Some rt → rt.(rt_config).(cc_concurrency_limit) <= rt.(rt_inflight) →
    ∃ rt, (pool_scan_step preferred pinned claims config entry now scan id).(ps_credentials) !! busy = Some rt ∧ rt.(rt_config).(cc_concurrency_limit) <= rt.(rt_inflight)) as Hkeep.
  { intros busy rt Hb Hle. destruct (decide (busy = id)) as [->|Hne].
    - destruct (scan_step_lookup preferred pinned claims config entry now scan id rt Hb) as (rt' & Hrt' & HR). exists rt'. split; [done|].
      by destruct (refilled_config _ _ _ HR) as [-> ->].
    - exists rt. by rewrite scan_step_lookup_ne. }
  assert (scan.(ps_preferred_capacity_only) = true → ∃ busy rt, preferred = Some busy ∧
    (pool_scan_step preferred pinned claims config entry now scan id).(ps_credentials) !! busy = Some rt ∧ rt.(rt_config).(cc_concurrency_limit) <= rt.(rt_inflight)) as Hold.
  { intros Hf. destruct (Hscan Hf) as (busy & rt & Hp & Hb & Hle). destruct (Hkeep busy rt Hb Hle) as (rt' & ? & ?). by exists busy, rt'. }
  revert Hold. clear Hkeep Hscan. unfold pool_scan_step. destruct (ps_credentials scan !! id) as [rt|]; [|done]. destruct (is_some_and _ pinned); [done|].
  destruct (session_capacity_blocked _ _ _); [done|]. destruct (eligibility rt config entry now) as [[[] ?] rt']; cbn; try done.
  intros Hold [Hf|[Hp Hf]%andb_true_iff]%orb_true_iff; [by apply Hold|]. exists id, rt'. rewrite lookup_insert_eq. apply bool_decide_eq_true in Hp. apply N.leb_le in Hf. done.
Qed.

(** The facts about one evaluation: the pool as the scan left it, and its
    candidates. *)
Lemma evaluate_pool_fields_scan credentials affinities claims config entry now :
  ∃ scan,
    evaluate_pool_fields credentials affinities claims config entry now =
      (pool_verdict (ae_credential_id <$> affinities !! affinity_key_of entry) config entry now scan,
       scan.(ps_credentials)) ∧
    (∀ id rt, credentials !! id = Some rt → ∃ rt', scan.(ps_credentials) !! id = Some rt' ∧ refilled now rt rt') ∧
    (∀ id, id ∈ scan.(ps_candidates) ↔ ∃ rt, serving_candidate config claims entry now credentials id rt) ∧
    (scan.(ps_preferred_capacity_only) = true → ∃ busy rt, ae_credential_id <$> affinities !! affinity_key_of entry = Some busy ∧
      scan.(ps_credentials) !! busy = Some rt ∧ rt.(rt_config).(cc_concurrency_limit) <= rt.(rt_inflight)) ∧
    (∀ id, is_Some (scan.(ps_credentials) !! id) → is_Some (credentials !! id)).
Proof.
  unfold evaluate_pool_fields. eexists. split; [reflexivity|]. split_and!; [| |by apply scan_busy|].
  3: { intros id Hid. destruct (scan_lookup (ae_credential_id <$> affinities !! affinity_key_of entry) (pinned_credential entry) claims
         config entry now (btree_keys credentials)
         {| ps_credentials := credentials; ps_candidates := []; ps_saw_temporary := false;
            ps_earliest_recovery := None; ps_preferred_capacity_only := false; ps_session_wait := None |} id) as [HL _].
       simpl in HL. destruct (credentials !! id); [by eexists|]. destruct Hid as [rt Hid]. congruence. }
  - intros id rt Hid.
    destruct (scan_lookup (ae_credential_id <$> affinities !! affinity_key_of entry) (pinned_credential entry) claims
      config entry now (btree_keys credentials)
      {| ps_credentials := credentials; ps_candidates := []; ps_saw_temporary := false;
         ps_earliest_recovery := None; ps_preferred_capacity_only := false; ps_session_wait := None |} id) as [HL _].
    simpl in HL. rewrite Hid in HL. destruct HL as (rt' & ? & HR). exists rt'. split; [done|]. by apply HR.
  - intros id. rewrite scan_candidates by done. simpl. rewrite list_elem_of_filter, scan_accepts_spec.
    rewrite elem_of_btree_keys. split; [tauto|]. intros (rt & HS). split; [by exists rt|].
    rewrite (sv_known _ _ _ _ _ _ _ HS). by eexists.
Qed.

(** Every verdict but [Candidate] is reached without any candidate, or holds
    the request back for its preferred Credential. *)
Lemma pool_verdict_spec preferred config entry now scan :
  (∀ x, x ∈ scan.(ps_candidates) →
     ∃ rt, scan.(ps_credentials) !! x = Some rt ∧ 0 < rt.(rt_config).(cc_concurrency_limit)) →
  match pool_verdict preferred config entry now scan with
  | Candidate id =>
      id ∈ retain_best_priority scan.(ps_credentials) scan.(ps_candidates) ∧
      (preferred = Some id ∨
       ∀ x, x ∈ retain_best_priority scan.(ps_credentials) scan.(ps_candidates) →
            preferred ≠ Some x ∧ preferable scan.(ps_credentials) id x)
  | Wait =>
      scan.(ps_candidates) = [] ∨
      scan.(ps_preferred_capacity_only) = true ∧ now < dur_add entry.(se_accepted_at) config.(gc_preferred_capacity_wait)
  | SessionCapacity _ | Cooldown _ | DeterministicUnavailable => scan.(ps_candidates) = []
  end.
Proof.
  intros HS. unfold pool_verdict.
  destruct (ps_candidates scan) as [|c0 l] eqn:Ec.
  { destruct (ps_session_wait scan), (ps_earliest_recovery scan), (ps_saw_temporary scan); simpl; auto. }
  rewrite <- Ec in *. set (kept := retain_best_priority _ _).
  destruct (retain_best_priority_spec (ps_credentials scan) (ps_candidates scan)) as [Hne Hkept].
  { intros x Hx. destruct (HS x Hx) as (rt & -> & _). by eexists. }
  fold kept in Hne, Hkept.
  assert (∀ x, x ∈ kept → ∃ rt, ps_credentials scan !! x = Some rt ∧ 0 < cc_concurrency_limit (rt_config rt)) as HK.
  { intros x Hx. apply HS. by apply Hkept. }
  assert (match best_candidate (ps_credentials scan) kept with
          | Some id => id ∈ kept ∧ ∀ x, x ∈ kept → preferable (ps_credentials scan) id x
          | None => False end) as Hbest.
  { destruct (best_candidate _ _) as [id|] eqn:Eb; [by apply best_candidate_spec|].
    apply best_candidate_None in Eb. by apply Hne; [rewrite Ec|]. }
  destruct (best_candidate (ps_credentials scan) kept) as [id|]; [|done]. destruct Hbest as [Hid Hmin].
  destruct preferred as [p|].
  - case_decide as Hp; [split; [done|by left]|].
    destruct (ps_preferred_capacity_only scan); simpl.
    + destruct (N.ltb_spec now (dur_add (se_accepted_at entry) (gc_preferred_capacity_wait config))).
      * by right.
      * split; [done|]. right. intros x Hx. split; [by intros [= ->]|by apply Hmin].
    + split; [done|]. right. intros x Hx. split; [by intros [= ->]|by apply Hmin].
  - split; [done|]. right. intros x Hx. split; [done|by apply Hmin].
Qed.

Lemma retain_best_priority_full credentials candidates x :
  (∀ y ry, y ∈ candidates → ∃ rx, credentials !! x = Some rx ∧
     (credentials !! y = Some ry → rx.(rt_config).(cc_priority) <= ry.(rt_config).(cc_priority))) →
  x ∈ candidates → (∀ y, y ∈ candidates → is_Some (credentials !! y)) →
  x ∈ retain_best_priority credentials candidates.
Proof.
  intros Hmin Hx HS. unfold retain_best_priority.
  destruct (list_min _) as [best|] eqn:Em; [|done]. apply list_elem_of_filter. split; [|done].
  apply list_min_spec in Em as [Hb Hle]. apply list_elem_of_omap in Hb as (y & Hy & Hp).
  unfold priority_of in *. destruct (credentials !! y) as [ry|] eqn:Hry; [|done]. simpl in Hp. injection Hp as <-.
  destruct (Hmin y ry Hy) as (rx & Hrx & Hxy). rewrite Hrx. simpl. f_equal.
  apply N.le_antisymm; [by apply Hxy|]. apply Hle. apply list_elem_of_omap. exists x. by rewrite Hrx.
Qed.

Lemma preferable_refilled now credentials credentials' x y :
  (∀ id rt, credentials !! id = Some rt → ∃ rt', credentials' !! id = Some rt' ∧ refilled now rt rt') →
  is_Some (credentials !! x) → is_Some (credentials !! y) →
  preferable credentials' x y → preferable credentials x y.
Proof.
  intros HR [rx Hx] [ry Hy]. destruct (HR x rx Hx) as (rx' & Hx' & Rx). destruct (HR y ry Hy) as (ry' & Hy' & Ry).
  unfold preferable, compare_candidates.
  rewrite Hx, Hy, Hx', Hy'. destruct (refilled_config _ _ _ Rx) as [-> ->], (refilled_config _ _ _ Ry) as [-> ->]. done.
Qed.

(** The verdict on a pool, against the pool as it was before the scan. *)
Lemma evaluate_pool_fields_spec credentials affinities claims config entry now :
  let preferred := ae_credential_id <$> affinities !! affinity_key_of entry in
  let serving := serving_candidate config claims entry now credentials in
  let '(evaluation, credentials') := evaluate_pool_fields credentials affinities claims config entry now in
  (∀ id rt, credentials !! id = Some rt → ∃ rt', credentials' !! id = Some rt' ∧ refilled now rt rt') ∧
  match evaluation with
  | Candidate id =>
      ∃ rt, serving id rt ∧
        ∀ id' rt', serving id' rt' →
          rt.(rt_config).(cc_priority) <= rt'.(rt_config).(cc_priority) ∧
          (rt'.(rt_config).(cc_priority) = rt.(rt_config).(cc_priority) →
           preferred = Some id ∨ (preferred ≠ Some id' ∧ preferable credentials id id'))
  | Wait =>
      (∀ id rt, ¬ serving id rt) ∨ held_back preferred credentials config entry now
  | SessionCapacity _ | Cooldown _ | DeterministicUnavailable => ∀ id rt, ¬ serving id rt
  end.
Proof.
  intros preferred serving.
  destruct (evaluate_pool_fields_scan credentials affinities claims config entry now) as (scan & -> & HR & Hcand & Hbusy & Hknown).
  fold preferred in Hbusy |- *. split; [done|].
  assert (∀ x, x ∈ ps_candidates scan → ∃ rt rt', serving x rt ∧ ps_credentials scan !! x = Some rt' ∧ refilled now rt rt') as HS.
  { intros x Hx. apply Hcand in Hx as (rt & HS). destruct (HR x rt (sv_known _ _ _ _ _ _ _ HS)) as (rt' & ? & ?). eauto 10. }
  assert (ps_candidates scan = [] → ∀ id rt, ¬ serving id rt) as Hnone.
  { intros HE id rt Hs. assert (id ∈ ps_candidates scan) as Hin by (apply Hcand; eauto). rewrite HE in Hin. set_solver. }
  assert (ps_preferred_capacity_only scan = true → now < dur_add (se_accepted_at entry) (gc_preferred_capacity_wait config) → held_back preferred credentials config entry now) as Hheld.
  { intros Hf Hlt. destruct (Hbusy Hf) as (busy & rt' & Hp & Hb & Hle). destruct (Hknown busy) as [rt Hrt]; [by eexists|].
    destruct (HR busy rt Hrt) as (rt2 & Hb2 & HR'). rewrite Hb in Hb2. injection Hb2 as <-. exists busy, rt. destruct (refilled_config _ _ _ HR') as [Ec Ei]. by rewrite Ec, Ei in Hle. }
  pose proof (pool_verdict_spec preferred config entry now scan) as HV.
  destruct (pool_verdict preferred config entry now scan) as [id| | | |].
  2: { destruct HV as [HE|[Hf ?]]; [|left; by apply Hnone|right; by apply Hheld].
       intros x Hx. destruct (HS x Hx) as (rt & rt' & Hs & Hx' & Hr). exists rt'. split; [done|].
       destruct (refilled_config _ _ _ Hr) as [-> _]. pose proof (cv_capacity _ _ _ _ (sv_serve _ _ _ _ _ _ _ Hs)). lia. }
  2, 3, 4: apply Hnone, HV; intros x Hx; destruct (HS x Hx) as (rt & rt' & Hs & Hx' & Hr); exists rt'; split; [done|];
    destruct (refilled_config _ _ _ Hr) as [-> _]; pose proof (cv_capacity _ _ _ _ (sv_serve _ _ _ _ _ _ _ Hs)); lia.
  destruct HV as [Hid Hpref].
  { intros x Hx. destruct (HS x Hx) as (rt & rt' & Hs & Hx' & Hr). exists rt'. split; [done|].
    destruct (refilled_config _ _ _ Hr) as [-> _]. pose proof (cv_capacity _ _ _ _ (sv_serve _ _ _ _ _ _ _ Hs)). lia. }
  assert (∀ y, y ∈ ps_candidates scan → is_Some (ps_credentials scan !! y)) as Hsome.
  { intros y Hy. destruct (HS y Hy) as (? & ? & _ & -> & _). by eexists. }
  destruct (retain_best_priority_spec _ _ Hsome) as [_ Hkept]. destruct (Hkept id Hid) as [Hin Hmin].
  destruct (HS id Hin) as (rt & rtid & Hs & Hidc & Hr). exists rt. split; [done|]. intros id' rt' Hs'.
  assert (id' ∈ ps_candidates scan) as Hin' by (apply Hcand; eauto).
  destruct (HS id' Hin') as (rt2 & rtid' & Hs2 & Hidc' & Hr').
  assert (rt2 = rt') as -> by (pose proof (sv_known _ _ _ _ _ _ _ Hs2); pose proof (sv_known _ _ _ _ _ _ _ Hs'); congruence).
  pose proof (Hmin id' rtid rtid' Hin' Hidc Hidc') as Hle.
  destruct (refilled_config _ _ _ Hr) as [Er _], (refilled_config _ _ _ Hr') as [Er' _]. rewrite Er, Er' in Hle.
  split; [done|]. intros HE. destruct Hpref as [?|Hpref]; [by left|right].
  assert (id' ∈ retain_best_priority (ps_credentials scan) (ps_candidates scan)) as Hk.
  { apply retain_best_priority_full; [|done|done]. intros y ry Hy. exists rtid'. split; [done|]. intros Hyc.
    rewrite Er', HE, <- Er. by apply (Hmin y). }
  destruct (Hpref id' Hk) as [? Hp]. split; [done|].
  apply (preferable_refilled now credentials (ps_credentials scan)); try done.
  - rewrite (sv_known _ _ _ _ _ _ _ Hs). by eexists.
  - rewrite (sv_known _ _ _ _ _ _ _ Hs'). by eexists.
Qed.

(** ** Properties *)

