(* ===== verification/Engine.v ===== *)
(** The operations of the Group scheduler, [SchedulerEngine] of
    [crates/gateway-scheduler/src/engine.rs]. Every operation takes and returns
    the whole state; one that can fail returns its error next to the state it
    left, so the changes made before an early return stay visible.

    [Uuid::new_v4().simple()] is a parameter: the text of the [n]-th draw. *)

From S2P Require Import Prelude Machine Domain TokenBucket SchedTypes FairQueue EngineState Eligibility.
Local Open Scope N_scope.

(** ** Construction *)

(** The validity of a Credential in [new]; [reconfigure_credential] adds the
    scheduling revision. *)
Definition credential_config_invalid (credential : CredentialConfig) : bool :=
  (credential.(cc_concurrency_limit) =? 0)
  || (credential.(cc_rate_limit).(requests_per_minute) =? 0)
  || (credential.(cc_rate_limit).(burst) =? 0)
  || (credential.(cc_weight) =? 0)
  || is_some_and (λ transport, (transport.(ot_revision) =? 0) || (transport.(ot_egress_epoch) =? 0)
                               || negb (bool_decide (credential.(cc_profiles) = ∅)))
       credential.(cc_openai_transport).

Definition group_config_invalid (config : GroupConfig) : bool :=
  (config.(gc_quota_guard_basis_points) =? 0)
  || (10000 <? config.(gc_quota_guard_basis_points))
  || (config.(gc_affinity_migration_successes) =? 0)
  || (config.(gc_cancel_grace) =? 0).

(** The queue bound of [new] and [reconfigure]: a configured queue is at most
    twice the effective concurrency, unless the Group has no capacity. *)
Definition queue_bound_invalid (config : GroupConfig) (credentials : gmap CredentialId CredentialRuntime) : bool :=
  let capacity := capacity_sum credentials in
  let effective := map_or capacity (λ limit, N.min limit capacity) config.(gc_concurrency_limit) in
  let maximum_queue := saturating_mul USIZE_MAX effective 2 in
  negb (capacity =? 0) && is_some_and (λ configured, maximum_queue <? configured) config.(gc_queue_capacity).

Definition fresh_runtime (config : CredentialConfig) (now : Duration) : CredentialRuntime :=
  {| rt_config := config; rt_bucket := bucket_full config.(cc_rate_limit) now; rt_inflight := 0;
     rt_half_open_consumed := false; rt_quota_observation_version := config.(cc_quota_observation_version);
     rt_admin_fenced := false; rt_next_allowed_at := None |}.

Fixpoint build_runtimes (credentials : list CredentialConfig) (now : Duration)
    (runtimes : gmap CredentialId CredentialRuntime) : result SchedulerError (gmap CredentialId CredentialRuntime) :=
  match credentials with
  | [] => Ok runtimes
  | credential :: credentials =>
      if credential_config_invalid credential then Err InvalidConfiguration
      else
        match runtimes !! credential.(cc_id) with
        | Some _ => Err DuplicateIdentifier
        | None =>
            build_runtimes credentials now (<[credential.(cc_id) := fresh_runtime credential now]> runtimes)
        end
  end.

Definition engine_new (identity : ExecutorIdentity) (config : GroupConfig) (credentials : list CredentialConfig)
    (now : Duration) : result SchedulerError SchedulerEngine :=
  match build_runtimes credentials now ∅ with
  | Err e => Err e
  | Ok runtimes =>
      if group_config_invalid config then Err InvalidConfiguration
      else if queue_bound_invalid config runtimes then Err InvalidConfiguration
      else
        Ok {| e_identity := identity; e_lifecycle := Serving; e_config := config;
              e_group_bucket := (λ rate, bucket_full rate now) <$> config.(gc_rate_limit);
              e_credentials := runtimes; e_queue := queue_default; e_waiting := ∅; e_leases := ∅;
              e_request_leases := ∅; e_pending_cancels := ∅; e_group_permits := ∅; e_seen_requests := ∅;
              e_request_portability := ∅; e_group_rate_admitted := ∅; e_affinities := ∅;
              e_session_claims := ∅; e_events := []; e_event_sequence := 0; e_resource_balance := 0%Z;
              e_draws := 0 |}
  end.

Definition stale (generation : OwnerGeneration) (self : SchedulerEngine) : bool :=
  bool_decide (generation ≠ self.(e_identity).(ei_generation)).

(** ** Leases *)

(** Give back what a Lease held of its Credential. *)
Definition release_runtime (lease : CredentialLease) (self : SchedulerEngine)
    : result SchedulerError unit * SchedulerEngine :=
  match self.(e_credentials) !! lease.(cl_credential_id) with
  | None => (Ok tt, self)
  | Some runtime =>
      match checked_sub runtime.(rt_inflight) 1 with
      | None => (Err DuplicateRelease, self)
      | Some inflight =>
          let runtime := with_rt_inflight inflight runtime in
          let runtime :=
            if lease.(cl_half_open) then set_state (with_cs_half_open_inflight false) runtime else runtime in
          (Ok tt, with_e_credentials (<[lease.(cl_credential_id) := runtime]> self.(e_credentials)) self)
      end
  end.

(** Give back what a Lease held of its session claim. *)
Definition release_claim (claim_key : option SessionClaimKey) (now : Duration) (self : SchedulerEngine)
    : result SchedulerError unit * SchedulerEngine :=
  match claim_key with
  | None => (Ok tt, self)
  | Some key =>
      match self.(e_session_claims) !! key with
      | None => (Ok tt, self)
      | Some claim =>
          match checked_sub claim.(sc_active_requests) 1 with
          | None => (Err DuplicateRelease, self)
          | Some active =>
              let idle := if active =? 0 then Some now else claim.(sc_idle_since) in
              (Ok tt, with_e_session_claims
                        (<[key := with_active_requests active idle claim]> self.(e_session_claims)) self)
          end
      end
  end.

Definition release_lease (generation : OwnerGeneration) (lease_id : LeaseId) (now : Duration)
    (self : SchedulerEngine) : result SchedulerError LeaseRelease * SchedulerEngine :=
  if stale generation self then (Ok ReleaseStaleIgnored, self)
  else
    match self.(e_leases) !! lease_id with
    | None => (Err DuplicateRelease, self)
    | Some record =>
        let lease := record.(lr_lease) in
        let self := with_e_leases (delete lease_id self.(e_leases)) self in
        let self := with_e_request_leases (delete lease.(cl_request_id) self.(e_request_leases)) self in
        let self := with_e_pending_cancels (delete lease_id self.(e_pending_cancels)) self in
        match release_runtime lease self with
        | (Err e, self) => (Err e, self)
        | (Ok _, self) =>
            match release_claim record.(lr_session_claim_key) now self with
            | (Err e, self) => (Err e, self)
            | (Ok _, self) =>
                (Ok Released,
                 record_event lease.(cl_request_id) CredentialLeaseResource (TypedId_as_str lease_id) Release now self)
            end
        end
    end.

(** [format!("{}:{}:{}", key.0, key.1, key.2)]. *)
Definition claim_resource_id (key : SessionClaimKey) : string :=
  id_value key.1.1 +:+ ":" +:+ id_value key.1.2 +:+ ":" +:+ id_value key.2.

Definition acquire_session_claim (entry : ScheduleEntry) (credential_id : CredentialId) (self : SchedulerEngine)
    : option SessionClaimKey * option string * SchedulerEngine :=
  if negb (is_some_and (λ runtime, runtime.(rt_config).(cc_session_capacity).(scc_enabled))
             (self.(e_credentials) !! credential_id))
  then (None, None, self)
  else
    let key : SessionClaimKey := (credential_id, entry.(se_platform_key_id), entry.(se_base_session_id)) in
    let resource_id := claim_resource_id key in
    let '(claim, new_resource) :=
      match self.(e_session_claims) !! key with
      | Some claim => (claim, None)
      | None =>
          ({| sc_active_requests := 0; sc_idle_since := None; sc_last_request_id := entry.(se_request_id);
              sc_resource_id := resource_id |}, Some resource_id)
      end in
    let claim :=
      {| sc_active_requests := saturating_add U32_MAX claim.(sc_active_requests) 1; sc_idle_since := None;
         sc_last_request_id := entry.(se_request_id); sc_resource_id := claim.(sc_resource_id) |} in
    (Some key, new_resource, with_e_session_claims (<[key := claim]> self.(e_session_claims)) self).

(** The execution identity frozen in a Lease. *)
Definition lease_execution (credential : CredentialConfig) (client_os : ClientOs)
    : result SchedulerError CredentialExecution :=
  match credential.(cc_openai_transport) with
  | Some transport =>
      if decide (credential.(cc_profiles) = ∅) then Ok (OpenAi transport) else Err InvalidConfiguration
  | None =>
      match credential.(cc_profiles) !! client_os with
      | Some profile => Ok (Anthropic profile)
      | None => Err InvalidConfiguration
      end
  end.

(** The part of [grant] that charges the Credential's runtime: one token, the
    pacing slot, the half-open probe and one in-flight slot. *)
Definition charge_runtime (entry : ScheduleEntry) (guard : N) (now : Duration) (runtime : CredentialRuntime)
    : result SchedulerError bool * CredentialRuntime :=
  let '(consumed, bucket) := try_consume runtime.(rt_bucket) now in
  let runtime := with_rt_bucket bucket runtime in
  if negb consumed || (runtime.(rt_config).(cc_concurrency_limit) <=? runtime.(rt_inflight))
  then (Err InvalidConfiguration, runtime)
  else
    let runtime :=
      with_rt_next_allowed_at
        ((λ interval, dur_add now interval) <$> runtime.(rt_config).(cc_min_request_interval)) runtime in
    let half_open := quota_requires_half_open runtime guard now in
    if half_open && (runtime.(rt_config).(cc_state).(cs_half_open_inflight) || runtime.(rt_half_open_consumed)
                     || negb (is_portable entry.(se_generic).(gar_portability)))
    then (Err InvalidConfiguration, runtime)
    else
      let runtime :=
        if half_open
        then with_rt_half_open_consumed true (set_state (with_cs_half_open_inflight true) runtime)
        else runtime in
      (Ok half_open, with_rt_inflight (saturating_add U32_MAX runtime.(rt_inflight) 1) runtime).

(** ** Removing a ticket *)

(** What [cancel], [expire_waiters], [disable] and [reconfigure] do to the
    waiting table and the ledger for one request. *)
Definition drop_ticket (request_id : RequestId) (action : ResourceAction) (now : Duration) (self : SchedulerEngine)
    : SchedulerEngine :=
  match self.(e_waiting) !! request_id with
  | None => self
  | Some waiting =>
      record_event request_id QueueTicketResource (TypedId_as_str waiting.(wr_ticket).(qt_id)) action now
        (with_e_waiting (delete request_id self.(e_waiting)) self)
  end.

Definition forget_rate_admission (request_id : RequestId) (self : SchedulerEngine) : SchedulerEngine :=
  with_e_group_rate_admitted (self.(e_group_rate_admitted) ∖ {[request_id]}) self.

(** ** Expiry *)

Definition waiter_expired (now : Duration) (waiting : WaitingRecord) : bool :=
  (waiting.(wr_ticket).(qt_deadline) <=? now)
  || is_some_and (λ deadline, deadline <=? now) waiting.(wr_session_slot_deadline).

Definition expiry_kind (now : Duration) (waiting : WaitingRecord) : RejectionKind :=
  if is_some_and (λ deadline, deadline <=? now) waiting.(wr_session_slot_deadline)
  then SessionCapacityDeadline else TimedOut.

Definition expire_waiter (now : Duration) (self : SchedulerEngine) (request_id : RequestId) : SchedulerEngine :=
  let self := with_e_queue (queue_remove request_id self.(e_queue)).2 self in
  forget_rate_admission request_id (drop_ticket request_id Release now self).

Definition expire_waiters (now : Duration) (self : SchedulerEngine) : list QueueResolution * SchedulerEngine :=
  let expired := filter (λ '(_, waiting), waiter_expired now waiting = true) (btree_iter self.(e_waiting)) in
  (map (λ '(request_id, waiting),
      {| qr_request_id := request_id;
         qr_decision := rejected (expiry_kind now waiting) (Some (from_secs 5)) |}) expired,
   foldl (expire_waiter now) self expired.*1).

Definition expire_cancel_grace (now : Duration) (self : SchedulerEngine) : SchedulerEngine :=
  let expired := filter (λ '(_, deadline), deadline <= now) (btree_iter self.(e_pending_cancels)) in
  foldl (λ self lease_id, (release_lease self.(e_identity).(ei_generation) lease_id now self).2) self expired.*1.

Definition claim_expired (now : Duration) (credentials : gmap CredentialId CredentialRuntime)
    (key : SessionClaimKey) (claim : SessionClaim) : bool :=
  (claim.(sc_active_requests) =? 0)
  && is_none_or
       (λ idle, map_or 0 (λ runtime, runtime.(rt_config).(cc_session_capacity).(scc_idle_ttl))
                  (credentials !! key.1.1) <=? dur_sub now idle)
       claim.(sc_idle_since).

Definition expire_claim (now : Duration) (self : SchedulerEngine) (expired : SessionClaimKey * SessionClaim)
    : SchedulerEngine :=
  record_event expired.2.(sc_last_request_id) SessionClaimResource expired.2.(sc_resource_id) Release now
    (with_e_session_claims (delete expired.1 self.(e_session_claims)) self).

Definition prune (now : Duration) (self : SchedulerEngine) : SchedulerEngine :=
  let self :=
    with_e_affinities (btree_retain (λ _ entry, now <? entry.(ae_expires_at)) self.(e_affinities)) self in
  let expired :=
    filter (λ '(key, claim), claim_expired now self.(e_credentials) key claim = true)
      (btree_iter self.(e_session_claims)) in
  let self := foldl (expire_claim now) self expired in
  with_e_credentials
    ((λ runtime,
        if negb (quota_exhausted runtime self.(e_config).(gc_quota_guard_basis_points))
        then with_rt_half_open_consumed false runtime else runtime) <$> self.(e_credentials)) self.

(** ** Operations that draw identifiers *)

Section with_uuid.
Variable uuid_v4 : N → string.

Definition draw (self : SchedulerEngine) : string * SchedulerEngine :=
  (uuid_v4 self.(e_draws), with_e_draws (self.(e_draws) + 1) self).

Definition enqueue (entry : ScheduleEntry) (now : Duration) (session_slot_deadline : option Duration)
    (self : SchedulerEngine) : result SchedulerError AdmissionDecision * SchedulerEngine :=
  if queue_capacity self <=? self.(e_queue).(fq_len) then
    (Ok (rejected QueueFull (Some (from_secs 2))), forget_rate_admission entry.(se_request_id) self)
  else
    let '(uuid, self) := draw self in
    match TypedId_new TicketTag ("ticket_" +:+ uuid) with
    | Err _ => (Err InvalidConfiguration, self)
    | Ok ticket_id =>
        let ticket :=
          {| qt_id := ticket_id; qt_request_id := entry.(se_request_id);
             qt_deadline := entry.(se_pre_upstream_deadline); qt_state := TicketQueued;
             qt_generation := self.(e_identity).(ei_generation) |} in
        let self := with_e_queue (queue_push entry self.(e_queue)) self in
        let self :=
          with_e_waiting
            (<[entry.(se_request_id) := {| wr_ticket := ticket; wr_session_slot_deadline := session_slot_deadline |}]>
               self.(e_waiting)) self in
        (Ok (Queued ticket),
         record_event entry.(se_request_id) QueueTicketResource (TypedId_as_str ticket_id) Acquire now self)
    end.

(** The tables and ledger entries of a new Lease. *)
Definition install_lease (entry : ScheduleEntry) (lease : CredentialLease) (now : Duration)
    (acquire_group_permit : bool) (self : SchedulerEngine) : SchedulerEngine :=
  let request_id := entry.(se_request_id) in
  let '(session_claim_key, new_session_claim, self) :=
    acquire_session_claim entry lease.(cl_credential_id) self in
  let self :=
    with_e_leases
      (<[lease.(cl_id) := {| lr_lease := lease; lr_session_claim_key := session_claim_key |}]> self.(e_leases)) self in
  let self := with_e_request_leases (<[request_id := lease.(cl_id)]> self.(e_request_leases)) self in
  let self :=
    if acquire_group_permit then with_e_group_permits ({[request_id]} ∪ self.(e_group_permits)) self else self in
  let self := forget_rate_admission request_id self in
  let self :=
    if acquire_group_permit
    then record_event request_id GroupPermitResource "group-permit" Acquire now self else self in
  let self :=
    match new_session_claim with
    | Some resource_id => record_event request_id SessionClaimResource resource_id Acquire now self
    | None => self
    end in
  record_event request_id CredentialLeaseResource (TypedId_as_str lease.(cl_id)) Acquire now self.

Definition grant (entry : ScheduleEntry) (credential_id : CredentialId) (now : Duration)
    (acquire_group_permit : bool) (self : SchedulerEngine)
    : result SchedulerError CredentialLease * SchedulerEngine :=
  match self.(e_credentials) !! credential_id with
  | None => (Err InvalidConfiguration, self)
  | Some runtime =>
      match lease_execution runtime.(rt_config) entry.(se_client_os) with
      | Err e => (Err e, self)
      | Ok execution =>
          match charge_runtime entry self.(e_config).(gc_quota_guard_basis_points) now runtime with
          | (Err e, runtime) =>
              (Err e, with_e_credentials (<[credential_id := runtime]> self.(e_credentials)) self)
          | (Ok half_open, runtime) =>
              let self := with_e_credentials (<[credential_id := runtime]> self.(e_credentials)) self in
              let '(uuid, self) := draw self in
              match TypedId_new LeaseTag ("lease_" +:+ uuid) with
              | Err _ => (Err InvalidConfiguration, self)
              | Ok lease_id =>
                  let lease :=
                    {| cl_id := lease_id; cl_request_id := entry.(se_request_id);
                       cl_credential_id := credential_id; cl_client_os := entry.(se_client_os);
                       cl_owner_generation := self.(e_identity).(ei_generation);
                       cl_token_version := runtime.(rt_config).(cc_token_version);
                       cl_execution := execution; cl_half_open := half_open |} in
                  (Ok lease, install_lease entry lease now acquire_group_permit self)
              end
          end
      end
  end.

(** The end of [admit]: queue what could not be granted. *)
Definition admit_or_queue (entry : ScheduleEntry) (evaluation : PoolEvaluation) (now : Duration)
    (self : SchedulerEngine) : result SchedulerError AdmissionDecision * SchedulerEngine :=
  let slot_deadline := match evaluation with SessionCapacity wait => Some (dur_add now wait) | _ => None end in
  if entry.(se_bypass_queue) then
    (Ok (rejected QueueFull (Some (from_secs 1))), forget_rate_admission entry.(se_request_id) self)
  else enqueue entry now slot_deadline self.

(** [admit] once the Group rate limit let the request through. *)
Definition admit_evaluated (entry : ScheduleEntry) (now : Duration) (self : SchedulerEngine)
    : result SchedulerError AdmissionDecision * SchedulerEngine :=
  let '(evaluation, self) := evaluate_pool entry now self in
  let unavailable :=
    (Ok (rejected GroupUnavailable None), forget_rate_admission entry.(se_request_id) self) in
  if (permits_len self <? effective_concurrency self) && (self.(e_queue).(fq_len) =? 0) then
    match evaluation with
    | Candidate credential_id =>
        match grant entry credential_id now true self with
        | (Ok lease, self) => (Ok (Granted lease), self)
        | (Err e, self) => (Err e, self)
        end
    | Cooldown retry =>
        if entry.(se_pre_upstream_deadline) <=? dur_add now retry then
          (Ok (rejected CooldownBeyondDeadline (Some retry)), forget_rate_admission entry.(se_request_id) self)
        else admit_or_queue entry evaluation now self
    | DeterministicUnavailable => unavailable
    | Wait | SessionCapacity _ => admit_or_queue entry evaluation now self
    end
  else
    match evaluation with
    | DeterministicUnavailable => unavailable
    | _ => admit_or_queue entry evaluation now self
    end.

Definition admit_request (generation : OwnerGeneration) (entry : ScheduleEntry) (now : Duration) (self : SchedulerEngine)
    : result SchedulerError AdmissionDecision * SchedulerEngine :=
  if stale generation self then (Ok StaleIgnored, self)
  else if decide (entry.(se_group_id) ≠ self.(e_identity).(ei_group_id)) then (Err WrongGroup, self)
  else if decide (entry.(se_generic).(gar_snapshot_set).(rss_group_config) ≠ self.(e_config).(gc_snapshot_version))
  then (Ok (rejected GroupUnavailable (Some (from_secs 1))), self)
  else if decide (entry.(se_request_id) ∈ self.(e_seen_requests)) then (Ok (rejected DuplicateRequest None), self)
  else if decide (self.(e_lifecycle) ≠ Serving) then (Ok (rejected GroupUnavailable None), self)
  else if entry.(se_pre_upstream_deadline) <=? now then (Ok (rejected TimedOut (Some (from_secs 5))), self)
  else
    let self := with_e_seen_requests ({[entry.(se_request_id)]} ∪ self.(e_seen_requests)) self in
    let self :=
      with_e_request_portability
        (<[entry.(se_request_id) := entry.(se_generic).(gar_portability)]> self.(e_request_portability)) self in
    let self := prune now self in
    match self.(e_group_bucket) with
    | None => admit_evaluated entry now self
    | Some bucket =>
        let '(consumed, bucket) := try_consume bucket now in
        let self := with_e_group_bucket (Some bucket) self in
        if negb consumed then
          let '(retry, bucket) := retry_after bucket now in
          let self := with_e_group_bucket (Some bucket) self in
          if entry.(se_pre_upstream_deadline) <=? dur_add now retry then
            (Ok (rejected GroupRateDeadline (Some (from_secs 5))), self)
          else if entry.(se_bypass_queue) then
            (Ok (rejected QueueFull (Some retry)), forget_rate_admission entry.(se_request_id) self)
          else enqueue entry now None self
        else
          admit_evaluated entry now
            (with_e_group_rate_admitted ({[entry.(se_request_id)]} ∪ self.(e_group_rate_admitted)) self)
    end.

Definition replace_lease (generation : OwnerGeneration) (request : RetryLeaseRequest) (now : Duration)
    (self : SchedulerEngine) : result SchedulerError RetryLeaseDecision * SchedulerEngine :=
  let entry := request.(rlr_entry) in
  let lease_id := request.(rlr_current_lease_id) in
  if stale generation self then (Ok RetryStaleIgnored, self)
  else if decide (entry.(se_group_id) ≠ self.(e_identity).(ei_group_id)) then (Err WrongGroup, self)
  else
    match self.(e_leases) !! lease_id with
    | None => (Err DuplicateRelease, self)
    | Some current =>
        if decide (current.(lr_lease).(cl_request_id) ≠ entry.(se_request_id) ∨
                   self.(e_request_leases) !! entry.(se_request_id) ≠ Some lease_id ∨
                   entry.(se_request_id) ∉ self.(e_group_permits))
        then (Err DuplicateIdentifier, self)
        else
          match retry_candidate entry request.(rlr_target) current.(lr_lease).(cl_credential_id) now self with
          | (None, self) => (Ok NoCandidate, self)
          | (Some target, self) =>
              match release_lease generation lease_id now self with
              | (Err e, self) => (Err e, self)
              | (Ok _, self) =>
                  match grant entry target now false self with
                  | (Err e, self) => (Err e, self)
                  | (Ok lease, self) => (Ok (RetryGranted lease), self)
                  end
              end
          end
    end.

(** ** The pump *)

(** The state captured by the closure of [pump]. *)
Record PumpScan := {
  pm_group_bucket : option TokenBucket;
  pm_group_rate_admitted : gset RequestId;
  pm_credentials : gmap CredentialId CredentialRuntime;
}.

Definition pump_runnable (affinities : gmap AffinityKey AffinityEntry)
    (session_claims : gmap SessionClaimKey SessionClaim) (config : GroupConfig) (now : Duration)
    (scan : PumpScan) (candidate : ScheduleEntry) : bool * PumpScan :=
  if candidate.(se_pre_upstream_deadline) <=? now then (true, scan)
  else
    let '(rate_ready, scan) :=
      if decide (candidate.(se_request_id) ∈ scan.(pm_group_rate_admitted)) then (true, scan)
      else
        match scan.(pm_group_bucket) with
        | None => (true, scan)
        | Some bucket =>
            let '(consumed, bucket) := try_consume bucket now in
            (consumed,
             {| pm_group_bucket := Some bucket;
                pm_group_rate_admitted :=
                  if consumed then {[candidate.(se_request_id)]} ∪ scan.(pm_group_rate_admitted)
                  else scan.(pm_group_rate_admitted);
                pm_credentials := scan.(pm_credentials) |})
        end in
    if negb rate_ready then (false, scan)
    else
      let '(evaluation, credentials) :=
        evaluate_pool_fields scan.(pm_credentials) affinities session_claims config candidate now in
      (match evaluation with Candidate _ => true | _ => false end,
       {| pm_group_bucket := scan.(pm_group_bucket); pm_group_rate_admitted := scan.(pm_group_rate_admitted);
          pm_credentials := credentials |}).

(** [self.queue.pop_runnable(..)] with the captured fields written back. *)
Definition pump_pop (now : Duration) (self : SchedulerEngine) : option ScheduleEntry * SchedulerEngine :=
  let '(entry, scan, queue) :=
    queue_pop_runnable
      (pump_runnable self.(e_affinities) self.(e_session_claims) self.(e_config) now)
      {| pm_group_bucket := self.(e_group_bucket); pm_group_rate_admitted := self.(e_group_rate_admitted);
         pm_credentials := self.(e_credentials) |} self.(e_queue) in
  (entry,
   with_e_queue queue
     (with_e_credentials scan.(pm_credentials)
        (with_e_group_rate_admitted scan.(pm_group_rate_admitted)
           (with_e_group_bucket scan.(pm_group_bucket) self)))).

(** What the loop of [pump] does with an entry it popped: a resolution, or none
    when it is skipped, and whether the loop goes on. *)
Definition pump_serve (entry : ScheduleEntry) (now : Duration) (self : SchedulerEngine)
    : option QueueResolution * bool * SchedulerEngine :=
  let request_id := entry.(se_request_id) in
  match self.(e_waiting) !! request_id with
  | None => (None, true, self)
  | Some waiting =>
      let self := drop_ticket request_id Release now self in
      if entry.(se_pre_upstream_deadline) <=? now then
        (Some {| qr_request_id := request_id; qr_decision := rejected TimedOut (Some (from_secs 5)) |}, true,
         forget_rate_admission request_id self)
      else
        match evaluate_pool entry now self with
        | (Candidate credential_id, self) =>
            let '(granted, self) := grant entry credential_id now true self in
            (Some {| qr_request_id := request_id;
                     qr_decision := match granted with
                                    | Ok lease => Granted lease
                                    | Err _ => rejected GroupUnavailable None
                                    end |}, true, self)
        | (_, self) =>
            let self := with_e_queue (queue_push entry self.(e_queue)) self in
            (None, false,
             with_e_waiting (<[waiting.(wr_ticket).(qt_request_id) := waiting]> self.(e_waiting)) self)
        end
  end.

(** The loop of [pump]. Every turn but the last takes an entry out of the queue
    ([pump_loop_stops] of [EnginePump.v]). *)
Fixpoint pump_loop (fuel : nat) (now : Duration) (self : SchedulerEngine)
    : list QueueResolution * SchedulerEngine :=
  match fuel with
  | O => ([], self)
  | S fuel =>
      if effective_concurrency self <=? permits_len self then ([], self)
      else
        match pump_pop now self with
        | (None, self) => ([], self)
        | (Some entry, self) =>
            let '(resolution, continue, self) := pump_serve entry now self in
            if continue : bool then
              let '(resolutions, self) := pump_loop fuel now self in
              (option_list resolution ++ resolutions, self)
            else (option_list resolution, self)
        end
  end.

(** The expiry work in front of the loop. *)
Definition pump_expire (now : Duration) (self : SchedulerEngine) : list QueueResolution * SchedulerEngine :=
  expire_waiters now (prune now (expire_cancel_grace now self)).

Definition pump (generation : OwnerGeneration) (now : Duration) (self : SchedulerEngine)
    : list QueueResolution * SchedulerEngine :=
  if stale generation self || negb (bool_decide (self.(e_lifecycle) = Serving)) then ([], self)
  else
    let '(expired, self) := pump_expire now self in
    let '(resolutions, self) := pump_loop (S (N.to_nat self.(e_queue).(fq_len))) now self in
    (expired ++ resolutions, self).

Definition complete_request (generation : OwnerGeneration) (request_id : RequestId) (now : Duration)
    (self : SchedulerEngine) : result SchedulerError (list QueueResolution) * SchedulerEngine :=
  if stale generation self then (Ok [], self)
  else if decide (is_Some (self.(e_request_leases) !! request_id)) then (Err InvalidConfiguration, self)
  else
    match release_group_permit request_id Release now self with
    | (Err e, self) => (Err e, self)
    | (Ok _, self) => let '(resolutions, self) := pump generation now self in (Ok resolutions, self)
    end.

End with_uuid.

(** ** Cancellation *)

Definition cancel (generation : OwnerGeneration) (request_id : RequestId) (now : Duration)
    (self : SchedulerEngine) : result SchedulerError AdmissionDecision * SchedulerEngine :=
  let cancelled := Ok (rejected Cancelled None) in
  let release_permit self :=
    if decide (request_id ∈ self.(e_group_permits)) then release_group_permit request_id Release now self
    else (Ok tt, self) in
  if stale generation self then (Ok StaleIgnored, self)
  else if decide (is_Some (self.(e_waiting) !! request_id)) then
    (cancelled,
     drop_ticket request_id Release now
       (forget_rate_admission request_id (with_e_queue (queue_remove request_id self.(e_queue)).2 self)))
  else
    match self.(e_request_leases) !! request_id with
    | Some lease_id =>
        match release_permit self with
        | (Err e, self) => (Err e, self)
        | (Ok _, self) =>
            (cancelled,
             match self.(e_pending_cancels) !! lease_id with
             | Some _ => self
             | None =>
                 with_e_pending_cancels
                   (<[lease_id := dur_add now self.(e_config).(gc_cancel_grace)]> self.(e_pending_cancels)) self
             end)
        end
    | None =>
        match release_permit self with
        | (Err e, self) => (Err e, self)
        | (Ok _, self) => (cancelled, self)
        end
    end.

Definition confirm_transport_cancel (generation : OwnerGeneration) (request_id : RequestId) (now : Duration)
    (self : SchedulerEngine) : result SchedulerError LeaseRelease * SchedulerEngine :=
  if stale generation self then (Ok ReleaseStaleIgnored, self)
  else
    match self.(e_request_leases) !! request_id with
    | None => (Err DuplicateRelease, self)
    | Some lease_id =>
        release_lease generation lease_id now
          (with_e_pending_cancels (delete lease_id self.(e_pending_cancels)) self)
    end.

Definition abandon_admission (decision : AdmissionDecision) (now : Duration) (self : SchedulerEngine)
    : SchedulerEngine :=
  let generation := self.(e_identity).(ei_generation) in
  match decision with
  | Granted lease =>
      let self := (release_lease generation lease.(cl_id) now self).2 in
      (release_group_permit lease.(cl_request_id) ForcedRelease now self).2
  | Queued ticket => (cancel generation ticket.(qt_request_id) now self).2
  | Rejected _ | StaleIgnored => self
  end.

(** ** Draining and reconfiguration *)

(** One queued entry rejected by [disable] or [reconfigure]. *)
Definition reject_queued (retry_after : option Duration) (now : Duration) (entry : ScheduleEntry)
    (self : SchedulerEngine) : QueueResolution * SchedulerEngine :=
  let request_id := entry.(se_request_id) in
  ({| qr_request_id := request_id; qr_decision := rejected GroupUnavailable retry_after |},
   forget_rate_admission request_id (drop_ticket request_id ForcedRelease now self)).

Fixpoint disable_loop (entries : list ScheduleEntry) (now : Duration) (self : SchedulerEngine)
    : list QueueResolution * SchedulerEngine :=
  match entries with
  | [] => ([], self)
  | entry :: entries =>
      let '(resolution, self) := reject_queued None now entry self in
      let '(resolutions, self) := disable_loop entries now self in
      (resolution :: resolutions, self)
  end.

Definition disable (generation : OwnerGeneration) (now : Duration) (self : SchedulerEngine)
    : list QueueResolution * SchedulerEngine :=
  if stale generation self then ([], self)
  else
    let self := with_e_lifecycle Draining self in
    let '(entries, queue) := queue_drain self.(e_queue) in
    disable_loop entries now (with_e_queue queue self).

Fixpoint reconfigure_loop (entries : list ScheduleEntry) (version : SnapshotVersion) (now : Duration)
    (self : SchedulerEngine) : list QueueResolution * SchedulerEngine :=
  match entries with
  | [] => ([], self)
  | entry :: entries =>
      if decide (entry.(se_generic).(gar_snapshot_set).(rss_group_config) = version) then
        reconfigure_loop entries version now (with_e_queue (queue_push entry self.(e_queue)) self)
      else
        let '(resolution, self) := reject_queued (Some (from_secs 1)) now entry self in
        let '(resolutions, self) := reconfigure_loop entries version now self in
        (resolution :: resolutions, self)
  end.

Definition reconfigure (generation : OwnerGeneration) (config : GroupConfig) (now : Duration)
    (self : SchedulerEngine) : result SchedulerError (list QueueResolution) * SchedulerEngine :=
  if stale generation self then (Ok [], self)
  else if group_config_invalid config then (Err InvalidConfiguration, self)
  else if queue_bound_invalid config self.(e_credentials) then (Err InvalidConfiguration, self)
  else
    let '(queued, queue) := queue_drain self.(e_queue) in
    let '(resolutions, self) :=
      reconfigure_loop queued config.(gc_snapshot_version) now (with_e_queue queue self) in
    let self := with_e_group_bucket ((λ rate, bucket_full rate now) <$> config.(gc_rate_limit)) self in
    (Ok resolutions, prune now (with_e_config config self)).

Definition device_changed (current config : CredentialConfig) : bool :=
  negb (bool_decide (config.(cc_openai_transport) = current.(cc_openai_transport)))
  || existsb
       (λ '(os, profile),
          is_none_or (λ known, negb (known.(cp_device_epoch) =? profile.(cp_device_epoch)))
            (current.(cc_profiles) !! os))
       (map_to_list config.(cc_profiles)).

(** The scheduling fields of a projection that moved only its scheduling revision. *)
Definition merge_scheduling (config current : CredentialConfig) : CredentialConfig :=
  {| cc_id := current.(cc_id);
     cc_credential_projection_revision := current.(cc_credential_projection_revision);
     cc_scheduling_projection_revision := config.(cc_scheduling_projection_revision);
     cc_concurrency_limit := config.(cc_concurrency_limit);
     cc_rate_limit := config.(cc_rate_limit);
     cc_priority := config.(cc_priority);
     cc_weight := config.(cc_weight);
     cc_model_scope := config.(cc_model_scope);
     cc_attribution_optional := config.(cc_attribution_optional);
     cc_session_capacity := config.(cc_session_capacity);
     cc_min_request_interval := config.(cc_min_request_interval);
     cc_token_version := current.(cc_token_version);
     cc_openai_transport := current.(cc_openai_transport);
     cc_profiles := current.(cc_profiles);
     cc_quota_observation_version := current.(cc_quota_observation_version);
     cc_state := current.(cc_state) |}.

(** Forget the affinities and the idle session claims of a Credential. *)
Definition drop_continuity (credential_id : CredentialId) (self : SchedulerEngine) : SchedulerEngine :=
  let self :=
    with_e_affinities
      (btree_retain (λ _ affinity, negb (bool_decide (affinity.(ae_credential_id) = credential_id)))
         self.(e_affinities)) self in
  with_e_session_claims
    (btree_retain
       (λ key claim, negb (bool_decide (key.1.1 = credential_id)) || negb (claim.(sc_active_requests) =? 0))
       self.(e_session_claims)) self.

Definition reconfigure_credential (generation : OwnerGeneration) (config : CredentialConfig) (now : Duration)
    (self : SchedulerEngine) : result SchedulerError bool * SchedulerEngine :=
  if stale generation self then (Ok false, self)
  else if credential_config_invalid config || (config.(cc_scheduling_projection_revision) =? 0)
  then (Err InvalidConfiguration, self)
  else
    let id := config.(cc_id) in
    match self.(e_credentials) !! id with
    | Some runtime =>
        let current := runtime.(rt_config) in
        if (config.(cc_credential_projection_revision) <? current.(cc_credential_projection_revision))
           || ((config.(cc_credential_projection_revision) =? current.(cc_credential_projection_revision))
               && (config.(cc_scheduling_projection_revision) <=? current.(cc_scheduling_projection_revision)))
        then (Ok false, self)
        else
          let runtime := with_rt_bucket (bucket_reconfigure runtime.(rt_bucket) config.(cc_rate_limit) now) runtime in
          if current.(cc_credential_projection_revision) <? config.(cc_credential_projection_revision) then
            let runtime :=
              with_rt_config config
                (with_rt_quota_observation_version config.(cc_quota_observation_version) runtime) in
            let self := with_e_credentials (<[id := runtime]> self.(e_credentials)) self in
            (Ok true, if device_changed current config then drop_continuity id self else self)
          else
            let runtime := with_rt_config (merge_scheduling config current) runtime in
            (Ok true, with_e_credentials (<[id := runtime]> self.(e_credentials)) self)
    | None =>
        (Ok true, with_e_credentials (<[id := fresh_runtime config now]> self.(e_credentials)) self)
    end.

(** ** Observations *)

Definition record_success (affinity_key : AffinityKey) (credential_id : CredentialId) (now : Duration)
    (self : SchedulerEngine) : SchedulerEngine :=
  let owned :=
    {| ae_credential_id := credential_id;
       ae_expires_at := dur_add now self.(e_config).(gc_affinity_ttl);
       ae_migration_candidate := None; ae_migration_successes := 0 |} in
  let put entry := with_e_affinities (<[affinity_key := entry]> self.(e_affinities)) self in
  match self.(e_affinities) !! affinity_key with
  | None => put owned
  | Some entry =>
      if decide (entry.(ae_credential_id) = credential_id) then put owned
      else
        let successes :=
          if decide (entry.(ae_migration_candidate) = Some credential_id)
          then saturating_add U32_MAX entry.(ae_migration_successes) 1 else 1 in
        if self.(e_config).(gc_affinity_migration_successes) <=? successes then put owned
        else
          put {| ae_credential_id := entry.(ae_credential_id); ae_expires_at := entry.(ae_expires_at);
                 ae_migration_candidate := Some credential_id; ae_migration_successes := successes |}
  end.

(** Change the runtime of a known Credential. *)
Definition update_runtime (credential_id : CredentialId) (f : CredentialRuntime → CredentialRuntime)
    (self : SchedulerEngine) : SchedulerEngine :=
  with_e_credentials (alter f credential_id self.(e_credentials)) self.

Definition record_half_open_result (generation : OwnerGeneration) (credential_id : CredentialId)
    (succeeded : bool) (now : Duration) (self : SchedulerEngine) : SchedulerEngine :=
  if stale generation self then self
  else
    update_runtime credential_id
      (λ runtime,
         let runtime := set_state (with_cs_half_open_inflight false) runtime in
         if succeeded then
           with_rt_half_open_consumed false
             (set_state (with_cs_quota_reset_at None ∘ with_cs_quota_used_basis_points None) runtime)
         else
           let retry := dur_add now (from_mins 1) in
           with_rt_half_open_consumed false
             (set_state (with_cs_quota_reset_at (Some retry) ∘ with_cs_cooldown_until (Some retry)) runtime)) self.

Definition observe_credential_cooldown (generation : OwnerGeneration) (update : CredentialCooldownUpdate)
    (self : SchedulerEngine) : bool * SchedulerEngine :=
  if stale generation self then (false, self)
  else
    match self.(e_credentials) !! update.(ccu_credential_id) with
    | None => (false, self)
    | Some _ =>
        (true, update_runtime update.(ccu_credential_id)
                 (set_state (with_cs_cooldown_until update.(ccu_cooldown_until))) self)
    end.

Definition observe_credential_auth (generation : OwnerGeneration) (update : CredentialAuthUpdate)
    (self : SchedulerEngine) : bool * SchedulerEngine :=
  if stale generation self || (update.(cau_token_version) =? 0) then (false, self)
  else
    match self.(e_credentials) !! update.(cau_credential_id) with
    | None => (false, self)
    | Some runtime =>
        if update.(cau_token_version) <? runtime.(rt_config).(cc_token_version) then (false, self)
        else
          (true, update_runtime update.(cau_credential_id)
                   (λ runtime,
                      set_state (with_cs_auth_healthy update.(cau_auth_healthy))
                        (with_rt_config (with_cc_token_version update.(cau_token_version) runtime.(rt_config)) runtime))
                   self)
    end.

Definition observe_credential_quota (generation : OwnerGeneration) (update : CredentialQuotaUpdate)
    (self : SchedulerEngine) : bool * SchedulerEngine :=
  if stale generation self || (10000 <? update.(cqu_used_basis_points)) then (false, self)
  else
    match self.(e_credentials) !! update.(cqu_credential_id) with
    | None => (false, self)
    | Some runtime =>
        if is_some_and (λ current, update.(cqu_observation_version) <=? current)
             runtime.(rt_quota_observation_version)
        then (false, self)
        else
          (true, update_runtime update.(cqu_credential_id)
                   (λ runtime,
                      let version := Some update.(cqu_observation_version) in
                      let runtime := with_rt_quota_observation_version version runtime in
                      let runtime :=
                        with_rt_config (with_cc_quota_observation_version version runtime.(rt_config)) runtime in
                      with_rt_half_open_consumed false
                        (set_state
                           (with_cs_half_open_inflight false
                            ∘ with_cs_quota_reset_at (Some update.(cqu_reset_at))
                            ∘ with_cs_quota_used_basis_points (Some update.(cqu_used_basis_points))) runtime))
                   self)
    end.

(** ** Administration *)

Definition set_credential_fence (generation : OwnerGeneration) (credential_id : CredentialId) (fenced : bool)
    (self : SchedulerEngine) : CredentialFenceResult * SchedulerEngine :=
  if stale generation self then (FenceStaleIgnored, self)
  else
    match self.(e_credentials) !! credential_id with
    | None => (FenceMissing, self)
    | Some runtime =>
        (FenceApplied runtime.(rt_inflight), update_runtime credential_id (with_rt_admin_fenced fenced) self)
    end.

Definition remove_fenced_credential (generation : OwnerGeneration) (credential_id : CredentialId)
    (self : SchedulerEngine) : CredentialRemoveResult * SchedulerEngine :=
  if stale generation self then (RemoveStaleIgnored, self)
  else
    match self.(e_credentials) !! credential_id with
    | None => (RemoveMissing, self)
    | Some runtime =>
        if negb runtime.(rt_admin_fenced) then (NotFenced, self)
        else if negb (runtime.(rt_inflight) =? 0) then (Busy runtime.(rt_inflight), self)
        else
          (Removed, drop_continuity credential_id (with_e_credentials (delete credential_id self.(e_credentials)) self))
    end.

Definition snapshot (self : SchedulerEngine) : SchedulerSnapshot :=
  {| ss_generation := self.(e_identity).(ei_generation);
     ss_lifecycle := self.(e_lifecycle);
     ss_group_config_version := self.(e_config).(gc_snapshot_version);
     ss_configured_concurrency := self.(e_config).(gc_concurrency_limit);
     ss_effective_concurrency := effective_concurrency self;
     ss_total_credential_capacity := capacity_sum self.(e_credentials);
     ss_queue_capacity := queue_capacity self;
     ss_active_leases := N.of_nat (size self.(e_leases));
     ss_active_group_permits := permits_len self;
     ss_queued_tickets := self.(e_queue).(fq_len);
     ss_credential_inflight := map (λ '(id, runtime), (id, runtime.(rt_inflight))) (btree_iter self.(e_credentials));
     ss_fenced_credentials :=
       (filter (λ '(_, runtime), runtime.(rt_admin_fenced) = true) (btree_iter self.(e_credentials))).*1;
     ss_session_claims := N.of_nat (size self.(e_session_claims));
     ss_resource_balance := self.(e_resource_balance) |}.
