(* ===== verification/EngineInv.v ===== *)
(** The invariant of the Group scheduler and its preservation by the shared
    steps of the operations: ledger writes, pool evaluation, release, grant,
    enqueue and expiry. *)

From S2P Require Import Prelude Machine Domain TokenBucket SchedTypes FairQueue EngineState Eligibility Engine.
Local Open Scope N_scope.

(** ** Counting in finite maps *)
Definition count_values `{Countable K} {V} (P : V → Prop) `{!∀ v, Decision (P v)} (m : gmap K V) : N :=
  N.of_nat (size (filter (λ kv, P kv.2) m)).

(** ** What the code relies on from the [uuid] crate

    A version 4 UUID prints as 32 ASCII digits, and the draws of one process
    (the first [bound] of them) are distinct. *)
Record uuid_source (uuid_v4 : N → string) (bound : N) : Prop := {
  us_length : ∀ n, String.length (uuid_v4 n) = 32%nat;
  us_ascii : ∀ n, is_ascii (uuid_v4 n) = true;
  us_fresh : ∀ i j, i < bound → j < bound → uuid_v4 i = uuid_v4 j → i = j;
}.

Definition entry_ids (entries : list ScheduleEntry) : list RequestId := se_request_id <$> entries.

Definition owned_by (credential_id : CredentialId) (record : LeaseRecord) : Prop :=
  record.(lr_lease).(cl_credential_id) = credential_id.

Definition claims_key (key : SessionClaimKey) (record : LeaseRecord) : Prop :=
  record.(lr_session_claim_key) = Some key.

#[export] Instance owned_by_dec c r : Decision (owned_by c r).
Proof. unfold owned_by. apply _. Defined.

#[export] Instance claims_key_dec k r : Decision (claims_key k r).
Proof. unfold claims_key. apply _. Defined.

(** One Credential's runtime against the Leases that exist. *)
Record runtime_ok (leases : gmap LeaseId LeaseRecord) (id : CredentialId) (runtime : CredentialRuntime) : Prop := {
  ro_id : runtime.(rt_config).(cc_id) = id;
  ro_limit : runtime.(rt_config).(cc_concurrency_limit) <= U32_MAX;
  ro_inflight : runtime.(rt_inflight) = count_values (owned_by id) leases;
  ro_bound : runtime.(rt_inflight) <= U32_MAX;
}.

Section invariant.
Variable uuid_v4 : N → string.

(** The tables of Leases. Every Lease is found by its id and by its request, one
    per request; a cancelled one is still a Lease; and every Lease is covered:
    its request holds the Group permit, or its forced release is scheduled. *)
Record leases_ok (e : SchedulerEngine) : Prop := {
  lo_lease l record : e.(e_leases) !! l = Some record →
    record.(lr_lease).(cl_id) = l ∧
    record.(lr_lease).(cl_owner_generation) = e.(e_identity).(ei_generation) ∧
    e.(e_request_leases) !! record.(lr_lease).(cl_request_id) = Some l;
  lo_request r l : e.(e_request_leases) !! r = Some l →
    ∃ record, e.(e_leases) !! l = Some record ∧ record.(lr_lease).(cl_request_id) = r;
  lo_pending l d : e.(e_pending_cancels) !! l = Some d → is_Some (e.(e_leases) !! l);
  lo_covered r l : e.(e_request_leases) !! r = Some l →
    r ∈ e.(e_group_permits) ∨ is_Some (e.(e_pending_cancels) !! l);
  lo_drawn l record : e.(e_leases) !! l = Some record →
    ∃ n, n < e.(e_draws) ∧ id_value l = "lease_" +:+ uuid_v4 n;
}.

(** Credentials and session claims account for the Leases. *)
Record charges_ok (e : SchedulerEngine) : Prop := {
  co_runtime c runtime : e.(e_credentials) !! c = Some runtime → runtime_ok e.(e_leases) c runtime;
  co_present l record : e.(e_leases) !! l = Some record →
    is_Some (e.(e_credentials) !! record.(lr_lease).(cl_credential_id));
  co_claim_key l record k : e.(e_leases) !! l = Some record → record.(lr_session_claim_key) = Some k →
    k.1.1 = record.(lr_lease).(cl_credential_id) ∧ is_Some (e.(e_session_claims) !! k);
  co_claim k claim : e.(e_session_claims) !! k = Some claim →
    claim.(sc_active_requests) = count_values (claims_key k) e.(e_leases);
}.

(** The queue and the waiting table hold the same requests. In the middle of an
    operation some [held] entries are out of the queue with their ticket still
    in the table, and some requests are [admitted] through the Group rate
    without waiting. *)
Record queue_ok (held : list ScheduleEntry) (admitted : gset RequestId) (e : SchedulerEngine) : Prop := {
  qo_wf : queue_wf e.(e_queue);
  qo_nodup : NoDup (entry_ids (queue_contents e.(e_queue) ++ held));
  qo_waiting r : is_Some (e.(e_waiting) !! r) ↔ r ∈ entry_ids (queue_contents e.(e_queue) ++ held);
  qo_ticket r w : e.(e_waiting) !! r = Some w → w.(wr_ticket).(qt_request_id) = r;
  qo_deadline entry w : entry ∈ queue_contents e.(e_queue) ++ held →
    e.(e_waiting) !! entry.(se_request_id) = Some w →
    w.(wr_ticket).(qt_deadline) = entry.(se_pre_upstream_deadline);
  qo_admitted r : r ∈ e.(e_group_rate_admitted) → r ∈ admitted ∨ is_Some (e.(e_waiting) !! r);
}.

(** A request is known before it waits or runs, and does one of them. *)
Record requests_ok (e : SchedulerEngine) : Prop := {
  rq_permit r : r ∈ e.(e_group_permits) → r ∈ e.(e_seen_requests) ∧ e.(e_waiting) !! r = None;
  rq_lease r l : e.(e_request_leases) !! r = Some l → r ∈ e.(e_seen_requests) ∧ e.(e_waiting) !! r = None;
  rq_waiting r w : e.(e_waiting) !! r = Some w → r ∈ e.(e_seen_requests);
}.

Record inv_mid (held : list ScheduleEntry) (admitted : gset RequestId) (e : SchedulerEngine) : Prop := {
  inv_leases : leases_ok e;
  inv_charges : charges_ok e;
  inv_queue : queue_ok held admitted e;
  inv_requests : requests_ok e;
}.

Definition engine_inv (e : SchedulerEngine) : Prop := inv_mid [] ∅ e.

End invariant.

(** Runtimes that differ only in what the invariant does not see. *)
Definition runtime_frame (x y : CredentialRuntime) : Prop :=
  y.(rt_inflight) = x.(rt_inflight) ∧ y.(rt_config).(cc_id) = x.(rt_config).(cc_id) ∧
  (x.(rt_config).(cc_concurrency_limit) <= U32_MAX → y.(rt_config).(cc_concurrency_limit) <= U32_MAX).

Definition credentials_frame (m m' : gmap CredentialId CredentialRuntime) : Prop :=
  ∀ c, match m !! c, m' !! c with
       | Some x, Some y => runtime_frame x y
       | None, None => True
       | _, _ => False
       end.

(** ** Lemmas: counting *)

#[export] Instance entry_ids_perm : Proper ((≡ₚ) ==> (≡ₚ)) entry_ids.
Proof. intros l1 l2 HP. unfold entry_ids. by rewrite HP. Qed.

Section counting.
Context `{Countable K} {V : Type} (P : V → Prop) `{!∀ v, Decision (P v)}.
Implicit Types m : gmap K V.

Lemma count_values_empty : count_values P (∅ : gmap K V) = 0.
Proof. unfold count_values. by rewrite map_filter_empty, map_size_empty. Qed.

Lemma count_values_insert m k v :
  m !! k = None → count_values P (<[k := v]> m) = count_values P m + (if decide (P v) then 1 else 0).
Proof.
  intros Hk. unfold count_values. destruct (decide (P v)).
  - rewrite map_filter_insert_True by done. rewrite map_size_insert_None; [lia|].
    rewrite map_lookup_filter, Hk. done.
  - rewrite map_filter_insert_not' by (simpl; intros; simplify_eq; congruence). lia.
Qed.

Lemma count_values_delete m k v :
  m !! k = Some v → count_values P m = count_values P (delete k m) + (if decide (P v) then 1 else 0).
Proof.
  intros Hk. rewrite <- (count_values_insert (delete k m) k v) by apply lookup_delete_eq.
  by rewrite insert_delete_id.
Qed.

Lemma count_values_pos m k v : m !! k = Some v → P v → 0 < count_values P m.
Proof. intros Hk Hv. rewrite (count_values_delete m k v Hk). rewrite decide_True by done. lia. Qed.

Lemma count_values_none m : (∀ k v, m !! k = Some v → ¬ P v) → count_values P m = 0.
Proof.
  intros Hm. unfold count_values. rewrite map_empty_filter_2; [by rewrite map_size_empty|].
  intros k v Hk. apply (Hm k v Hk).
Qed.

End counting.

Lemma count_values_mono `{Countable K} {V} (P Q : V → Prop) `{!∀ v, Decision (P v), !∀ v, Decision (Q v)}
    (m : gmap K V) :
  (∀ k v, m !! k = Some v → P v → Q v) → count_values P m <= count_values Q m.
Proof.
  intros Hm. unfold count_values. apply N2Z.inj_le. rewrite !nat_N_Z. apply inj_le.
  apply map_subseteq_size, map_subseteq_spec. intros k v. rewrite !map_lookup_filter_Some. naive_solver.
Qed.

(** ** Lemmas: framing the Credentials *)

#[export] Instance runtime_frame_refl : Reflexive runtime_frame.
Proof. by intros x. Qed.

#[export] Instance runtime_frame_trans : Transitive runtime_frame.
Proof. intros x y z (?&?&?) (?&?&?). split_and!; [congruence|congruence|tauto]. Qed.

#[export] Instance credentials_frame_refl : Reflexive credentials_frame.
Proof. intros m c. by destruct (m !! c). Qed.

#[export] Instance credentials_frame_trans : Transitive credentials_frame.
Proof.
  intros m1 m2 m3 H1 H2 c. specialize (H1 c). specialize (H2 c).
  destruct (m1 !! c), (m2 !! c), (m3 !! c); try done. by etrans.
Qed.

Lemma credentials_frame_insert m c x y :
  m !! c = Some x → runtime_frame x y → credentials_frame m (<[c := y]> m).
Proof.
  intros Hc Hf d. destruct (decide (d = c)) as [->|].
  - by rewrite lookup_insert_eq, Hc.
  - rewrite lookup_insert_ne by done. by destruct (m !! d).
Qed.

Lemma credentials_frame_alter m c f :
  (∀ x, runtime_frame x (f x)) → credentials_frame m (alter f c m).
Proof.
  intros Hf d. destruct (decide (d = c)) as [->|].
  - rewrite lookup_alter_eq. destruct (m !! c); simpl; done.
  - rewrite lookup_alter_ne by done. by destruct (m !! d).
Qed.

Lemma credentials_frame_fmap m f : (∀ x, runtime_frame x (f x)) → credentials_frame m (f <$> m).
Proof. intros Hf d. rewrite lookup_fmap. by destruct (m !! d); simpl. Qed.

Lemma eligibility_frame runtime config entry now : runtime_frame runtime (eligibility runtime config entry now).2.
Proof.
  unfold eligibility, eligibility_paced.
  repeat match goal with
  | |- context [let '(_, _) := ?p in _] => destruct p
  | |- context [if ?b then _ else _] => destruct b
  | |- context [match ?o with Some _ => _ | None => _ end] => destruct o
  end; done.
Qed.

Lemma pool_scan_step_frame preferred pinned claims config entry now scan id :
  credentials_frame scan.(ps_credentials)
    (pool_scan_step preferred pinned claims config entry now scan id).(ps_credentials).
Proof.
  unfold pool_scan_step. destruct (ps_credentials scan !! id) as [rt|] eqn:Hid; [|done].
  destruct (is_some_and _ pinned); [done|]. destruct (session_capacity_blocked _ _ _); [done|].
  pose proof (eligibility_frame rt config entry now) as HF.
  destruct (eligibility rt config entry now) as [[class recovery] rt'].
  destruct class; by apply (credentials_frame_insert _ _ rt).
Qed.

Lemma pool_scan_frame preferred pinned claims config entry now ids scan :
  credentials_frame scan.(ps_credentials)
    (foldl (pool_scan_step preferred pinned claims config entry now) scan ids).(ps_credentials).
Proof.
  revert scan. induction ids as [|id ids IH]; intros scan; simpl; [done|].
  etrans; [apply pool_scan_step_frame|apply IH].
Qed.

Lemma evaluate_pool_fields_frame credentials affinities claims config entry now :
  credentials_frame credentials (evaluate_pool_fields credentials affinities claims config entry now).2.
Proof. unfold evaluate_pool_fields. simpl. apply (pool_scan_frame _ _ _ _ _ _ _ (Build_PoolScan _ _ _ _ _ _)). Qed.

(** ** Lemmas: steps that leave the tables alone *)

Section steps.
Context {uuid_v4 : N → string}.
Abbreviation inv_mid := (inv_mid uuid_v4).
Abbreviation leases_ok := (leases_ok uuid_v4).
Implicit Types (e : SchedulerEngine) (held : list ScheduleEntry) (adm : gset RequestId).

Lemma record_event_inv held adm request_id kind resource_id action now e :
  inv_mid held adm e → inv_mid held adm (record_event request_id kind resource_id action now e).
Proof. intros [[] [] [] []]. destruct action; split; split; done. Qed.

Lemma with_affinities_inv held adm v e : inv_mid held adm e → inv_mid held adm (with_e_affinities v e).
Proof. intros [[] [] [] []]. split; split; done. Qed.

Lemma with_group_bucket_inv held adm v e : inv_mid held adm e → inv_mid held adm (with_e_group_bucket v e).
Proof. intros [[] [] [] []]. split; split; done. Qed.

Lemma with_config_inv held adm v e : inv_mid held adm e → inv_mid held adm (with_e_config v e).
Proof. intros [[] [] [] []]. split; split; done. Qed.

Lemma with_lifecycle_inv held adm v e : inv_mid held adm e → inv_mid held adm (with_e_lifecycle v e).
Proof. intros [[] [] [] []]. split; split; done. Qed.

Lemma with_events_inv held adm v e : inv_mid held adm e → inv_mid held adm (with_e_events v e).
Proof. intros [[] [] [] []]. split; split; done. Qed.

Lemma with_portability_inv held adm v e : inv_mid held adm e → inv_mid held adm (with_e_request_portability v e).
Proof. intros [[] [] [] []]. split; split; done. Qed.

Lemma see_request_inv held adm r e :
  inv_mid held adm e → inv_mid held adm (with_e_seen_requests ({[r]} ∪ e.(e_seen_requests)) e).
Proof.
  intros [[] [] [] [R1 R2 R3]]. split; [split; done..|]. split; simpl.
  - intros x Hx. destruct (R1 x Hx). set_solver.
  - intros x l Hx. destruct (R2 x l Hx). set_solver.
  - intros x w Hx. specialize (R3 x w Hx). set_solver.
Qed.

Lemma runtime_frame_ok leases c x y : runtime_frame x y → runtime_ok leases c x → runtime_ok leases c y.
Proof. intros (Hi & Hid & Hl) [R1 R2 R3 R4]. split; [congruence|by apply Hl|congruence|congruence]. Qed.

Lemma with_credentials_inv held adm m e :
  credentials_frame e.(e_credentials) m → inv_mid held adm e → inv_mid held adm (with_e_credentials m e).
Proof.
  intros HF [[] [C1 C2 C3 C4] [] []]. split; [split; done| |split; done..].
  split; simpl; [| |done..].
  - intros c y Hc. specialize (HF c). rewrite Hc in HF.
    destruct (e_credentials e !! c) as [x|] eqn:Hx; [|done]. apply (runtime_frame_ok _ _ x); [done|by apply C1].
  - intros l record Hl. destruct (C2 l record Hl) as [x Hx]. specialize (HF (cl_credential_id (lr_lease record))).
    rewrite Hx in HF. by destruct (m !! _).
Qed.

Lemma evaluate_pool_inv held adm entry now e :
  inv_mid held adm e → inv_mid held adm (evaluate_pool entry now e).2.
Proof.
  intros HI. unfold evaluate_pool.
  pose proof (evaluate_pool_fields_frame e.(e_credentials) e.(e_affinities) e.(e_session_claims) e.(e_config) entry now) as HF.
  destruct (evaluate_pool_fields _ _ _ _ _ _) as [evaluation m]. by apply with_credentials_inv.
Qed.

Lemma rate_admitted_inv held adm adm' s e :
  (∀ r, r ∈ s → r ∈ adm' ∨ is_Some (e.(e_waiting) !! r)) →
  inv_mid held adm e → inv_mid held adm' (with_e_group_rate_admitted s e).
Proof. intros Hs [[] [] [] []]. split; split; done. Qed.

Lemma forget_rate_admission_inv held adm r e :
  inv_mid held adm e → inv_mid held (adm ∖ {[r]}) (forget_rate_admission r e).
Proof.
  intros HI. apply rate_admitted_inv with adm; [|done].
  intros x. destruct HI as [_ _ [_ _ _ _ _ Q] _]. specialize (Q x). set_solver.
Qed.

Lemma inv_mid_weaken held adm adm' e : adm ⊆ adm' → inv_mid held adm e → inv_mid held adm' e.
Proof. intros HS [? ? [] ?]. split; try done. split; try done. set_solver. Qed.

(** ** Lemmas: releasing a Lease *)

(** What [release_lease] leaves of a runtime and of the claims. *)
Definition released_runtime (lease : CredentialLease) (runtime : CredentialRuntime) : CredentialRuntime :=
  let runtime := with_rt_inflight (runtime.(rt_inflight) - 1) runtime in
  if lease.(cl_half_open) then set_state (with_cs_half_open_inflight false) runtime else runtime.

Definition released_claims (claim_key : option SessionClaimKey) (now : Duration)
    (claims : gmap SessionClaimKey SessionClaim) : gmap SessionClaimKey SessionClaim :=
  match claim_key with
  | None => claims
  | Some key =>
      alter (λ claim,
        let active := claim.(sc_active_requests) - 1 in
        with_active_requests active (if active =? 0 then Some now else claim.(sc_idle_since)) claim) key claims
  end.

Definition released_state (l : LeaseId) (record : LeaseRecord) (now : Duration) e : SchedulerEngine :=
  let lease := record.(lr_lease) in
  let e := with_e_leases (delete l e.(e_leases)) e in
  let e := with_e_request_leases (delete lease.(cl_request_id) e.(e_request_leases)) e in
  let e := with_e_pending_cancels (delete l e.(e_pending_cancels)) e in
  let e := with_e_credentials (alter (released_runtime lease) lease.(cl_credential_id) e.(e_credentials)) e in
  let e := with_e_session_claims (released_claims record.(lr_session_claim_key) now e.(e_session_claims)) e in
  record_event lease.(cl_request_id) CredentialLeaseResource (TypedId_as_str l) Release now e.

Lemma release_runtime_eq lease runtime e :
  e.(e_credentials) !! lease.(cl_credential_id) = Some runtime → 0 < runtime.(rt_inflight) →
  release_runtime lease e =
    (Ok tt, with_e_credentials (alter (released_runtime lease) lease.(cl_credential_id) e.(e_credentials)) e).
Proof.
  intros Hc Hi. unfold release_runtime. rewrite Hc. unfold checked_sub.
  destruct (N.leb_spec 1 (rt_inflight runtime)); [|lia].
  by rewrite (alter_as_insert _ _ _ runtime).
Qed.

Lemma release_claim_eq claim_key now e :
  (∀ k, claim_key = Some k → ∃ claim, e.(e_session_claims) !! k = Some claim ∧ 0 < claim.(sc_active_requests)) →
  release_claim claim_key now e = (Ok tt, with_e_session_claims (released_claims claim_key now e.(e_session_claims)) e).
Proof.
  intros Hk. unfold release_claim, released_claims. destruct claim_key as [k|]; [|by destruct e].
  destruct (Hk k eq_refl) as (claim & Hc & Ha). rewrite Hc. unfold checked_sub.
  destruct (N.leb_spec 1 (sc_active_requests claim)); [|lia].
  by rewrite (alter_as_insert _ _ _ claim).
Qed.

(** A live Lease is released: none of the failure paths is reachable. *)
Lemma release_lease_eq generation l record now e :
  leases_ok e → charges_ok e → stale generation e = false → e.(e_leases) !! l = Some record →
  release_lease generation l now e = (Ok Released, released_state l record now e).
Proof.
  intros HL [C1 C2 C3 C4] Hs Hl. unfold release_lease. rewrite Hs, Hl.
  destruct (C2 l record Hl) as [runtime Hc].
  assert (0 < rt_inflight runtime) as Hi.
  { rewrite (ro_inflight _ _ _ (C1 _ _ Hc)). by apply (count_values_pos _ _ l record). }
  rewrite (release_runtime_eq _ runtime) by done.
  rewrite release_claim_eq; [done|].
  intros k Hk. destruct (C3 l record k Hl Hk) as [_ [claim Hclaim]]. exists claim. split; [done|].
  rewrite (C4 k claim Hclaim). by apply (count_values_pos _ _ l record).
Qed.

Lemma leases_ok_release l record now e :
  leases_ok e → e.(e_leases) !! l = Some record → leases_ok (released_state l record now e).
Proof.
  intros [L1 L2 L3 L4 L5] Hl. destruct (L1 l record Hl) as (Hid & Hgen & Hr). split; simpl.
  - intros l' record' [Hne Hl']%lookup_delete_Some. destruct (L1 l' record' Hl') as (Hid' & Hgen' & Hr').
    split_and!; [done|done|]. rewrite lookup_delete_ne; [done|]. congruence.
  - intros r' l' [Hne Hr']%lookup_delete_Some. destruct (L2 r' l' Hr') as (record' & Hl' & Hreq).
    exists record'. split; [|done]. rewrite lookup_delete_ne; [done|]. congruence.
  - intros l' d [Hne Hp]%lookup_delete_Some. rewrite lookup_delete_ne by done. by apply (L3 l' d).
  - intros r' l' [Hne Hr']%lookup_delete_Some. destruct (L4 r' l' Hr') as [?|Hp]; [by left|right].
    rewrite lookup_delete_ne; [done|]. intros <-.
    destruct (L2 r' l Hr') as (record' & Hl' & Hreq). congruence.
  - intros l' record' [Hne Hl']%lookup_delete_Some. by apply (L5 l' record').
Qed.

Lemma charges_ok_release l record now e :
  charges_ok e → e.(e_leases) !! l = Some record → charges_ok (released_state l record now e).
Proof.
  intros [C1 C2 C3 C4] Hl. split; simpl.
  - intros c y Hy. destruct (decide (c = record.(lr_lease).(cl_credential_id))) as [->|Hne].
    + rewrite lookup_alter_eq in Hy. destruct (e_credentials e !! _) as [x|] eqn:Hx; [|done].
      simpl in Hy. injection Hy as <-. destruct (C1 _ _ Hx) as [R1 R2 R3 R4].
      rewrite (count_values_delete (owned_by _) _ l record Hl), decide_True in R3 by done.
      unfold released_runtime. destruct (cl_half_open _); split; simpl; try done; lia.
    + rewrite lookup_alter_ne in Hy by done. destruct (C1 _ _ Hy) as [R1 R2 R3 R4].
      rewrite (count_values_delete (owned_by _) _ l record Hl), decide_False in R3 by (unfold owned_by; congruence).
      split; [done|done|lia|done].
  - intros l' record' [_ Hl']%lookup_delete_Some. destruct (C2 l' record' Hl') as [x Hx].
    destruct (decide (cl_credential_id (lr_lease record') = cl_credential_id (lr_lease record))) as [->|].
    + rewrite lookup_alter_eq. rewrite fmap_is_Some. by apply (C2 l).
    + rewrite lookup_alter_ne by done. by eexists.
  - intros l' record' k [_ Hl']%lookup_delete_Some Hk. destruct (C3 l' record' k Hl' Hk) as [? Hc].
    split; [done|]. unfold released_claims. destruct (lr_session_claim_key record) as [k'|]; [|done].
    destruct (decide (k = k')) as [->|]; [rewrite lookup_alter_eq, fmap_is_Some; done|by rewrite lookup_alter_ne].
  - intros k claim Hc. unfold released_claims in Hc.
    destruct (lr_session_claim_key record) as [k'|] eqn:Hk'.
    + destruct (decide (k = k')) as [->|Hne].
      * rewrite lookup_alter_eq in Hc. destruct (e_session_claims e !! k') as [claim'|] eqn:Hc'; [|done].
        simpl in Hc. injection Hc as <-. simpl. rewrite (C4 k' claim' Hc').
        rewrite (count_values_delete (claims_key k') _ l record Hl), decide_True by done. lia.
      * rewrite lookup_alter_ne in Hc by done. rewrite (C4 k claim Hc).
        rewrite (count_values_delete (claims_key k) _ l record Hl), decide_False by (unfold claims_key; congruence). lia.
    + rewrite (C4 k claim Hc).
      rewrite (count_values_delete (claims_key k) _ l record Hl), decide_False by (unfold claims_key; congruence). lia.
Qed.

Lemma released_state_inv held adm l record now e :
  inv_mid held adm e → e.(e_leases) !! l = Some record → inv_mid held adm (released_state l record now e).
Proof.
  intros [HL HC [] [R1 R2 R3]] Hl. split.
  - by apply leases_ok_release.
  - by apply charges_ok_release.
  - split; done.
  - split; simpl; [done| |done]. intros r l' [_ Hr]%lookup_delete_Some. by apply (R2 r l').
Qed.

Lemma release_lease_inv held adm generation l now e :
  inv_mid held adm e → inv_mid held adm (release_lease generation l now e).2.
Proof.
  intros HI. destruct (stale generation e) eqn:Hs; [unfold release_lease; by rewrite Hs|].
  destruct (e_leases e !! l) as [record|] eqn:Hl; [|unfold release_lease; by rewrite Hs, Hl].
  rewrite (release_lease_eq _ _ record) by (done || apply HI). by apply released_state_inv.
Qed.

(** ** Lemmas: permits, tickets and expiry *)

Lemma release_group_permit_inv held adm r action now e :
  e.(e_request_leases) !! r = None →
  inv_mid held adm e → inv_mid held adm (release_group_permit r action now e).2.
Proof.
  intros Hr HI. unfold release_group_permit. case_decide as Hp; [|done]. apply record_event_inv.
  destruct HI as [[L1 L2 L3 L4 L5] [] [] [R1 R2 R3]]. split; [| split; done | split; done |].
  - split; try done; simpl. intros x l Hx. destruct (L4 x l Hx) as [?|?]; [left|by right].
    apply elem_of_difference. split; [done|]. rewrite elem_of_singleton. congruence.
  - split; try done; simpl. intros x [Hx _]%elem_of_difference. by apply R1.
Qed.

(** A request leaves the waiting table; its entry was already out of the queue. *)
Lemma drop_ticket_inv held held' adm r action now e :
  r ∉ entry_ids (queue_contents e.(e_queue) ++ held') →
  (∀ x, x ∈ entry_ids (queue_contents e.(e_queue) ++ held) ↔
        x = r ∨ x ∈ entry_ids (queue_contents e.(e_queue) ++ held')) →
  NoDup (entry_ids (queue_contents e.(e_queue) ++ held')) →
  (∀ entry, entry ∈ held' → entry ∈ held) →
  inv_mid held adm e → inv_mid held' (adm ∪ {[r]}) (drop_ticket r action now e).
Proof.
  intros Hr Hids Hnd Hsub HI. unfold drop_ticket.
  assert (is_Some (e_waiting e !! r)) as [w Hw].
  { destruct HI as [_ _ [_ _ Q3 _ _ _] _]. apply Q3, Hids. by left. }
  rewrite Hw. apply record_event_inv. destruct HI as [[] [] [Q1 Q2 Q3 Q4 Q5 Q6] [R1 R2 R3]].
  split; [split; done..| |].
  - split; simpl; [done|done| | | |].
    + intros x. destruct (decide (x = r)) as [->|Hne].
      * rewrite lookup_delete_eq. split; [by intros []|done].
      * rewrite lookup_delete_ne, Q3, Hids by done. naive_solver.
    + intros x wx [_ Hx]%lookup_delete_Some. by apply Q4.
    + intros entry wx Hin [_ Hx]%lookup_delete_Some. apply (Q5 entry wx); [|done].
      apply elem_of_app in Hin as [?|?]; apply elem_of_app; [by left|right; by apply Hsub].
    + intros x Hx. destruct (Q6 x Hx) as [?|?]; [set_solver|].
      destruct (decide (x = r)) as [->|]; [set_solver|right; by rewrite lookup_delete_ne].
  - split; simpl.
    + intros x Hx. destruct (R1 x Hx). split; [done|]. by rewrite lookup_delete_None; right.
    + intros x l Hx. destruct (R2 x l Hx). split; [done|]. by rewrite lookup_delete_None; right.
    + intros x wx [_ Hx]%lookup_delete_Some. by apply (R3 x wx).
Qed.

(** Out of the queue by [queue_remove]: [cancel] and [expire_waiters]. *)
Lemma queue_remove_inv held adm r e :
  r ∉ entry_ids held → is_Some (e.(e_waiting) !! r) →
  inv_mid held adm e →
  ∃ entry, (queue_remove r e.(e_queue)).1 = Some entry ∧ entry.(se_request_id) = r ∧
    inv_mid (held ++ [entry]) adm (with_e_queue (queue_remove r e.(e_queue)).2 e).
Proof.
  intros Hheld Hw [[] [] [Q1 Q2 Q3 Q4 Q5 Q6] []].
  pose proof (queue_remove_spec r _ Q1) as HR.
  destruct (queue_remove r (e_queue e)) as [[entry|] q'].
  - destruct HR as (Hwf & HP & Hid & _). exists entry. split_and!; [done|done|].
    assert (queue_contents (e_queue e) ++ held ≡ₚ queue_contents q' ++ held ++ [entry]) as HE.
    { rewrite HP, app_assoc, (Permutation_app_comm _ [entry]). done. }
    split; [split; done..| |split; done]. split; simpl; try done.
    + unfold entry_ids in *. by rewrite <- HE.
    + intros x. unfold entry_ids in *. by rewrite <- HE.
    + intros en w. rewrite <- HE. apply Q5.
  - exfalso. destruct HR as [_ HN]. apply Q3 in Hw. unfold entry_ids in *.
    apply list_elem_of_fmap in Hw as (en & -> & [Hin|Hin]%elem_of_app); [by apply (HN en)|].
    apply Hheld, list_elem_of_fmap. eauto.
Qed.

Lemma expire_waiter_inv held adm now r e :
  r ∉ entry_ids held → is_Some (e.(e_waiting) !! r) →
  inv_mid held adm e → inv_mid held adm (expire_waiter now e r).
Proof.
  intros Hheld Hw HI. unfold expire_waiter.
  destruct (queue_remove_inv held adm r e Hheld Hw HI) as (entry & _ & Hid & HI').
  set (e' := with_e_queue _ e) in *. apply (inv_mid_weaken held ((adm ∪ {[r]}) ∖ {[r]})); [set_solver|].
  apply forget_rate_admission_inv. destruct HI' as [HL HC HQ HR]. destruct HQ as [Q1 Q2 Q3 Q4 Q5 Q6].
  unfold entry_ids in Q2. rewrite app_assoc, fmap_app in Q2. apply NoDup_app in Q2 as (N1 & N2 & N3).
  apply (drop_ticket_inv (held ++ [entry])); try done.
  - intros Hin. apply (N2 r Hin). rewrite <- Hid. set_solver.
  - intros x. unfold entry_ids. rewrite app_assoc, fmap_app, elem_of_app. simpl. rewrite Hid.
    rewrite list_elem_of_singleton. tauto.
  - intros en Hen. set_solver.
  - split; try done. split; try done. unfold entry_ids. rewrite app_assoc, fmap_app.
    by apply NoDup_app.
Qed.

Lemma drop_ticket_waiting r action now e : (drop_ticket r action now e).(e_waiting) = delete r e.(e_waiting).
Proof.
  unfold drop_ticket. destruct (e_waiting e !! r) eqn:E; [by destruct action|].
  symmetry. by apply delete_id.
Qed.

Lemma expire_waiters_fold_inv held adm now ids e :
  NoDup ids → (∀ r, r ∈ ids → (r ∉ entry_ids held) ∧ is_Some (e.(e_waiting) !! r)) →
  inv_mid held adm e → inv_mid held adm (foldl (expire_waiter now) e ids).
Proof.
  revert e. induction ids as [|r ids IH]; intros e Hnd Hids HI; simpl; [done|].
  apply NoDup_cons in Hnd as [Hr Hnd]. destruct (Hids r) as [Hheld Hw]; [left|].
  apply IH; [done| |by apply expire_waiter_inv].
  intros r' Hin. destruct (Hids r') as [? ?]; [by right|]. split; [done|].
  unfold expire_waiter, forget_rate_admission. simpl. rewrite drop_ticket_waiting. simpl.
  rewrite lookup_delete_ne; [done|]. by intros ->.
Qed.

(** The requests [expire_waiters] times out. *)
Lemma elem_of_expired now (m : gmap RequestId WaitingRecord) r :
  r ∈ (filter (λ '(_, waiting), waiter_expired now waiting = true) (btree_iter m)).*1 ↔
  ∃ w, m !! r = Some w ∧ waiter_expired now w = true.
Proof.
  rewrite list_elem_of_fmap. split.
  - intros ([r' w] & -> & [Hw Hin]%list_elem_of_filter). exists w. by apply elem_of_btree_iter in Hin.
  - intros (w & Hr & Hw). exists (r, w). split; [done|]. apply list_elem_of_filter. by rewrite elem_of_btree_iter.
Qed.

Lemma NoDup_filter_fst `{Countable K, !KeyOrder K} {V} (m : gmap K V) (P : K * V → Prop) `{!∀ x, Decision (P x)} :
  NoDup (filter P (btree_iter m)).*1.
Proof.
  eapply sublist_NoDup; [apply (btree_keys_NoDup m)|]. unfold btree_keys. apply fmap_sublist, sublist_filter.
Qed.

Lemma expire_waiters_inv adm now e : inv_mid [] adm e → inv_mid [] adm (expire_waiters now e).2.
Proof.
  intros HI. unfold expire_waiters. simpl. apply expire_waiters_fold_inv; [apply NoDup_filter_fst| |done].
  intros r (w & Hw & _)%elem_of_expired. rewrite Hw. split; [set_solver|by eexists].
Qed.

Lemma expire_cancel_grace_inv held adm now e : inv_mid held adm e → inv_mid held adm (expire_cancel_grace now e).
Proof.
  intros HI. unfold expire_cancel_grace. set (ids := (filter _ _).*1). clearbody ids. revert e HI.
  induction ids as [|l ids IH]; intros e HI; simpl; [done|]. apply IH. by apply release_lease_inv.
Qed.

(** An idle claim may be dropped: no Lease counts on it. *)
Lemma charges_ok_drop_claims P e :
  charges_ok e →
  charges_ok (with_e_session_claims
                (btree_retain (λ k claim, P k claim || negb (claim.(sc_active_requests) =? 0)) e.(e_session_claims)) e).
Proof.
  intros [C1 C2 C3 C4]. split; simpl; [done|done| |].
  - intros l record k Hl Hk. destruct (C3 l record k Hl Hk) as [? [claim Hc]]. split; [done|].
    exists claim. apply btree_retain_Some. split; [done|]. apply orb_true_iff. right.
    apply negb_true_iff, N.eqb_neq. rewrite (C4 k claim Hc).
    pose proof (count_values_pos (claims_key k) _ l record Hl Hk). lia.
  - intros k claim [Hc _]%btree_retain_Some. by apply C4.
Qed.

Lemma expire_claim_inv held adm now expired e :
  (∀ claim, e.(e_session_claims) !! expired.1 = Some claim → claim.(sc_active_requests) = 0) →
  inv_mid held adm e → inv_mid held adm (expire_claim now e expired).
Proof.
  intros H0 HI. unfold expire_claim. apply record_event_inv.
  destruct HI as [[] [C1 C2 C3 C4] [] []]. split; [split; done| |split; done..].
  split; simpl; [done|done| |].
  - intros l record k Hl Hk. destruct (C3 l record k Hl Hk) as [? [claim Hc]]. split; [done|].
    rewrite lookup_delete_ne; [by eexists|]. intros <-. specialize (C4 _ _ Hc). rewrite (H0 _ Hc) in C4.
    pose proof (count_values_pos (claims_key _) _ l record Hl Hk). lia.
  - intros k claim [_ Hc]%lookup_delete_Some. by apply C4.
Qed.

Lemma prune_inv held adm now e : inv_mid held adm e → inv_mid held adm (prune now e).
Proof.
  intros HI. unfold prune. apply with_credentials_inv.
  { apply credentials_frame_fmap. intros x. by destruct (negb _). }
  set (e1 := with_e_affinities _ e). assert (inv_mid held adm e1) as HI1 by by apply with_affinities_inv.
  clearbody e1. clear HI e. set (l := filter _ _).
  assert (∀ k c, (k, c) ∈ l → ∀ claim, e_session_claims e1 !! k = Some claim → sc_active_requests claim = 0) as Hl.
  { intros k c [Hc Hin]%list_elem_of_filter claim Hk. apply elem_of_btree_iter in Hin. simplify_eq.
    unfold claim_expired in Hc. by bool_prop. }
  clearbody l. revert e1 HI1 Hl. induction l as [|[k c] l IH]; intros e1 HI1 Hl; simpl; [done|].
  apply IH.
  - apply expire_claim_inv; [|done]. apply (Hl k c). left.
  - intros k' c' Hin claim Hk. unfold expire_claim in Hk. simpl in Hk.
    apply lookup_delete_Some in Hk as [_ Hk]. eapply (Hl k' c'); [by right|done].
Qed.

(** ** Lemmas: taking a ticket or a Lease *)

Lemma string_length_app s t : String.length (s +:+ t) = (String.length s + String.length t)%nat.
Proof. induction s; simpl; [done|]. by f_equal. Qed.

Lemma is_ascii_app s t : is_ascii (s +:+ t) = is_ascii s && is_ascii t.
Proof. induction s; simpl; [done|]. rewrite IHs. by rewrite andb_assoc. Qed.

Lemma typed_uuid_ok tag prefix bound n :
  uuid_source uuid_v4 bound → is_ascii prefix = true → (String.length prefix <= 96)%nat →
  TypedId_new tag (prefix +:+ uuid_v4 n) = Ok (MkTypedId (prefix +:+ uuid_v4 n)).
Proof.
  intros [HL HA _] Hp Hlen. unfold TypedId_new. rewrite string_length_app, is_ascii_app, HL, HA, Hp.
  unfold MAX_ID_BYTES. destruct (Nat.eqb_spec (String.length prefix + 32) 0); [lia|].
  destruct (Nat.ltb_spec 128 (String.length prefix + 32)); [lia|done].
Qed.

Lemma with_draws_inv held adm n e : e.(e_draws) <= n → inv_mid held adm e → inv_mid held adm (with_e_draws n e).
Proof.
  intros Hn [[L1 L2 L3 L4 L5] [] [] []]. split; [|split; done..]. split; simpl; try done.
  intros l record Hl. destruct (L5 l record Hl) as (m & ? & ?). exists m. split; [lia|done].
Qed.

(** A request that neither waits, nor runs, nor holds a permit. *)
Record idle_request (r : RequestId) (e : SchedulerEngine) : Prop := {
  idle_waiting : e.(e_waiting) !! r = None;
  idle_lease : e.(e_request_leases) !! r = None;
}.

(** A request joins the queue and the waiting table. *)
Lemma push_waiting_inv entry waiting e :
  let r := entry.(se_request_id) in
  idle_request r e → r ∉ e.(e_group_permits) → r ∈ e.(e_seen_requests) →
  waiting.(wr_ticket).(qt_request_id) = r → waiting.(wr_ticket).(qt_deadline) = entry.(se_pre_upstream_deadline) →
  inv_mid [] {[r]} e →
  inv_mid [] ∅ (with_e_waiting (<[r := waiting]> e.(e_waiting)) (with_e_queue (queue_push entry e.(e_queue)) e)).
Proof.
  intros r [Hw Hl] Hp Hseen Hid Hdl [[] [] [Q1 Q2 Q3 Q4 Q5 Q6] [R1 R2 R3]].
  destruct (queue_push_spec entry (e_queue e) Q1) as [Hwf HP].
  rewrite app_nil_r in Q2, Q3, Q5.
  split; [split; done..| |].
  - split; simpl; try rewrite app_nil_r.
    + done.
    + unfold entry_ids. rewrite HP. simpl. apply NoDup_cons. split; [|done]. fold r. rewrite <- Q3, Hw. by intros [].
    + intros x. unfold entry_ids. rewrite HP. simpl. rewrite elem_of_cons, lookup_insert_is_Some', <- Q3. fold r. naive_solver.
    + intros x w [[<- <-]|[_ Hx]]%lookup_insert_Some; [done|by apply Q4].
    + intros en w. rewrite HP. intros [->|Hin]%elem_of_cons.
      * fold r. rewrite lookup_insert_eq. by intros [= <-].
      * intros [[Hr <-]|[Hr Hx]]%lookup_insert_Some; [|by apply Q5].
        exfalso. assert (is_Some (e_waiting e !! se_request_id en)) as Hs by (apply Q3, list_elem_of_fmap; eauto).
        rewrite <- Hr, Hw in Hs. by destruct Hs.
    + intros x Hx. right. rewrite lookup_insert_is_Some'. destruct (Q6 x Hx); set_solver.
  - split; simpl.
    + intros x Hx. destruct (R1 x Hx). split; [done|]. rewrite lookup_insert_ne; [done|]. intros <-. done.
    + intros x l Hx. destruct (R2 x l Hx). split; [done|]. rewrite lookup_insert_ne; [done|]. intros <-. congruence.
    + intros x w [[<- _]|[_ Hx]]%lookup_insert_Some; [done|by apply (R3 x w)].
Qed.

Lemma enqueue_inv bound entry now slot e :
  uuid_source uuid_v4 bound →
  let r := entry.(se_request_id) in
  idle_request r e → r ∉ e.(e_group_permits) → r ∈ e.(e_seen_requests) →
  inv_mid [] {[r]} e → inv_mid [] ∅ (enqueue uuid_v4 entry now slot e).2.
Proof.
  intros HU r Hidle Hp Hseen HI. unfold enqueue. destruct (_ <=? _).
  { simpl. fold r. apply (inv_mid_weaken [] ({[r]} ∖ {[r]})); [set_solver|]. by apply forget_rate_admission_inv. }
  unfold draw. simpl. rewrite (typed_uuid_ok _ _ bound) by (done || (simpl; lia)). simpl. apply record_event_inv.
  set (e1 := with_e_draws _ e). assert (inv_mid [] {[r]} e1) as HI1 by (apply with_draws_inv; [lia|done]).
  apply (push_waiting_inv entry _ e1); try done. by destruct Hidle.
Qed.

Lemma charge_runtime_spec entry guard now runtime :
  match charge_runtime entry guard now runtime with
  | (Ok _, runtime') =>
      runtime.(rt_inflight) < runtime.(rt_config).(cc_concurrency_limit) ∧
      runtime'.(rt_inflight) = saturating_add U32_MAX runtime.(rt_inflight) 1 ∧
      runtime'.(rt_config).(cc_id) = runtime.(rt_config).(cc_id) ∧
      runtime'.(rt_config).(cc_concurrency_limit) = runtime.(rt_config).(cc_concurrency_limit) ∧
      runtime'.(rt_config).(cc_session_capacity) = runtime.(rt_config).(cc_session_capacity)
  | (Err _, runtime') => runtime_frame runtime runtime'
  end.
Proof.
  unfold charge_runtime. destruct (try_consume (rt_bucket runtime) now) as [consumed bucket]. simpl.
  destruct consumed; simpl; [|done].
  destruct (N.leb_spec (cc_concurrency_limit (rt_config runtime)) (rt_inflight runtime)); [done|].
  destruct (quota_requires_half_open _ _ _); simpl; [|done].
  destruct (_ || _); done.
Qed.

(** What [acquire_session_claim] leaves of the claims. *)
Definition acquired_claims (entry : ScheduleEntry) (claim_key : option SessionClaimKey)
    (claims : gmap SessionClaimKey SessionClaim) : gmap SessionClaimKey SessionClaim :=
  match claim_key with
  | None => claims
  | Some key =>
      <[key :=
          {| sc_active_requests :=
               saturating_add U32_MAX (map_or 0 sc_active_requests (claims !! key)) 1;
             sc_idle_since := None; sc_last_request_id := entry.(se_request_id);
             sc_resource_id := map_or (claim_resource_id key) sc_resource_id (claims !! key) |}]> claims
  end.

Lemma acquire_session_claim_eq entry c e :
  ∃ claim_key new_resource,
    acquire_session_claim entry c e =
      (claim_key, new_resource,
       with_e_session_claims (acquired_claims entry claim_key e.(e_session_claims)) e) ∧
    (∀ k, claim_key = Some k → k.1.1 = c) ∧
    (new_resource = None ↔ ∀ k, claim_key = Some k → is_Some (e.(e_session_claims) !! k)).
Proof.
  unfold acquire_session_claim. destruct (negb _).
  { exists None, None. split_and!; [by destruct e|done|done]. }
  set (key := (c, se_platform_key_id entry, se_base_session_id entry)).
  destruct (e_session_claims e !! key) as [claim|] eqn:Hc.
  - exists (Some key), None. split_and!; [unfold acquired_claims; by rewrite Hc| |].
    + by intros k [= <-].
    + split; [|done]. intros _ k [= <-]. by rewrite Hc.
  - exists (Some key), (Some (claim_resource_id key)). split_and!; [unfold acquired_claims; by rewrite Hc| |].
    + by intros k [= <-].
    + split; [done|]. intros Hk. destruct (Hk key eq_refl). congruence.
Qed.

(** The new tables after [install_lease], without the ledger. *)
Definition leased_state entry lease (claim_key : option SessionClaimKey) (acquire : bool) e : SchedulerEngine :=
  let r := entry.(se_request_id) in
  let e := with_e_session_claims (acquired_claims entry claim_key e.(e_session_claims)) e in
  let e :=
    with_e_leases (<[lease.(cl_id) := {| lr_lease := lease; lr_session_claim_key := claim_key |}]> e.(e_leases)) e in
  let e := with_e_request_leases (<[r := lease.(cl_id)]> e.(e_request_leases)) e in
  let e := if acquire then with_e_group_permits ({[r]} ∪ e.(e_group_permits)) e else e in
  forget_rate_admission r e.

Lemma leases_ok_install entry lease claim_key acquire m e :
  let r := entry.(se_request_id) in
  leases_ok e → e.(e_request_leases) !! r = None → e.(e_leases) !! lease.(cl_id) = None →
  lease.(cl_request_id) = r → lease.(cl_owner_generation) = e.(e_identity).(ei_generation) →
  (∃ n, n < e.(e_draws) ∧ id_value lease.(cl_id) = "lease_" +:+ uuid_v4 n) →
  (acquire = true ∨ r ∈ e.(e_group_permits)) →
  leases_ok (leased_state entry lease claim_key acquire (with_e_credentials m e)).
Proof.
  intros r [L1 L2 L3 L4 L5] Hr Hl Hreq Hgen Hdraw Hp.
  split; destruct acquire; simpl; fold r.
  1, 2: intros l record [[<- <-]|[Hne Hl']]%lookup_insert_Some; simpl;
    [split_and!; [done|done|]; rewrite Hreq; apply lookup_insert_eq|];
    destruct (L1 l record Hl') as (? & ? & Hr'); split_and!; try done;
    rewrite lookup_insert_ne; [done|]; intros HE; rewrite <- HE in Hr'; congruence.
  1, 2: intros x l [[<- <-]|[Hne Hx]]%lookup_insert_Some;
    [eexists; rewrite lookup_insert_eq; split; [done|done]|];
    destruct (L2 x l Hx) as (record & Hl' & ?); exists record; split; [|done];
    rewrite lookup_insert_ne; [done|]; congruence.
  1, 2: intros l d Hd; rewrite lookup_insert_is_Some'; right; by apply (L3 l d).
  1, 2: intros x l [[<- <-]|[Hne Hx]]%lookup_insert_Some;
    [left; destruct Hp; set_solver|destruct (L4 x l Hx); [left; set_solver|by right]].
  1, 2: intros l record [[<- <-]|[Hne Hl']]%lookup_insert_Some; [done|by apply (L5 l record)].
Qed.

Lemma charges_ok_install entry lease claim_key acquire runtime runtime' e :
  let c := lease.(cl_credential_id) in
  charges_ok e → e.(e_leases) !! lease.(cl_id) = None → e.(e_credentials) !! c = Some runtime →
  runtime.(rt_inflight) < runtime.(rt_config).(cc_concurrency_limit) →
  runtime'.(rt_inflight) = saturating_add U32_MAX runtime.(rt_inflight) 1 →
  runtime'.(rt_config).(cc_id) = runtime.(rt_config).(cc_id) →
  runtime'.(rt_config).(cc_concurrency_limit) = runtime.(rt_config).(cc_concurrency_limit) →
  (∀ k, claim_key = Some k → k.1.1 = c) →
  charges_ok (leased_state entry lease claim_key acquire (with_e_credentials (<[c := runtime']> e.(e_credentials)) e)).
Proof.
  intros c [C1 C2 C3 C4] Hl Hc Hlt Hi Hid Hlim Hk.
  destruct (C1 c runtime Hc) as [R1 R2 R3 R4].
  rewrite saturating_add_small in Hi by lia.
  set (record := {| lr_lease := lease; lr_session_claim_key := claim_key |}).
  assert (∀ k, claim_key = Some k → count_values (claims_key k) (e_leases e) + 1 <= U32_MAX) as Hbound.
  { intros k Hkk. enough (count_values (claims_key k) (e_leases e) <= count_values (owned_by c) (e_leases e)) by lia.
    apply count_values_mono. intros l rec Hrec Hck. destruct (C3 l rec k Hrec Hck) as [HE _].
    unfold owned_by. by rewrite <- HE, (Hk k Hkk). }
  assert (charges_ok (with_e_leases (<[cl_id lease := record]> (e_leases e))
            (with_e_session_claims (acquired_claims entry claim_key (e_session_claims e))
              (with_e_credentials (<[c := runtime']> (e_credentials e)) e)))) as [D1 D2 D3 D4];
    [|split; destruct acquire; simpl in *; assumption].
  split; simpl.
  - intros d y [[<- <-]|[Hne Hd]]%lookup_insert_Some.
    + split; [congruence|congruence| |lia]. rewrite count_values_insert, decide_True by done. lia.
    + destruct (C1 d y Hd) as [S1 S2 S3 S4]. split; [done|done| |done].
      rewrite count_values_insert, decide_False by (done || (unfold owned_by; simpl; congruence)). lia.
  - intros l rec [[<- <-]|[Hne Hl']]%lookup_insert_Some; rewrite lookup_insert_is_Some'; [by left|right].
    by apply (C2 l rec).
  - assert (∀ k, is_Some (e_session_claims e !! k) → is_Some (acquired_claims entry claim_key (e_session_claims e) !! k)) as Hmono.
    { intros k Hs. unfold acquired_claims. destruct claim_key; [|done]. rewrite lookup_insert_is_Some'. by right. }
    intros l rec k [[<- <-]|[Hne Hl']]%lookup_insert_Some Hkk.
    + simpl in Hkk. split; [by apply Hk|]. unfold acquired_claims. rewrite Hkk, lookup_insert_eq. by eexists.
    + destruct (C3 l rec k Hl' Hkk) as [? ?]. split; [done|by apply Hmono].
  - intros k claim Hclaim. rewrite count_values_insert by done.
    unfold acquired_claims in Hclaim. destruct claim_key as [key|] eqn:Hck.
    + apply lookup_insert_Some in Hclaim as [[<- <-]|[Hne Hclaim]].
      * rewrite decide_True by done. simpl. specialize (Hbound key eq_refl).
        destruct (e_session_claims e !! key) as [old|] eqn:Hold; simpl.
        -- rewrite (C4 key old Hold). by apply saturating_add_small.
        -- rewrite (count_values_none (claims_key key) (e_leases e)); [by rewrite saturating_add_small|].
           intros l rec Hrec Hkey. destruct (C3 l rec key Hrec Hkey) as [_ [? ?]]. congruence.
      * rewrite decide_False by (unfold claims_key; simpl; congruence). rewrite (C4 k claim Hclaim). lia.
    + rewrite decide_False by (unfold claims_key; simpl; congruence). rewrite (C4 k claim Hclaim). lia.
Qed.

Lemma install_lease_eq entry lease now acquire e :
  ∃ claim_key, (∀ k, claim_key = Some k → k.1.1 = lease.(cl_credential_id)) ∧
    ∀ held adm,
      inv_mid held adm (leased_state entry lease claim_key acquire e) →
      inv_mid held adm (install_lease entry lease now acquire e).
Proof.
  unfold install_lease.
  destruct (acquire_session_claim_eq entry (cl_credential_id lease) e) as (claim_key & new & -> & Hk & _).
  exists claim_key. split; [done|]. intros held adm HI. apply record_event_inv.
  destruct new; [apply record_event_inv|]; destruct acquire; try apply record_event_inv; exact HI.
Qed.

(** [grant] keeps the invariant on every path. *)
Lemma grant_inv bound held adm entry c now acquire e :
  let r := entry.(se_request_id) in
  uuid_source uuid_v4 bound → (grant uuid_v4 entry c now acquire e).2.(e_draws) <= bound →
  idle_request r e → r ∈ e.(e_seen_requests) → (acquire = true ∨ r ∈ e.(e_group_permits)) →
  inv_mid held adm e →
  inv_mid held adm (grant uuid_v4 entry c now acquire e).2 ∧
  (is_ok (grant uuid_v4 entry c now acquire e).1 = true →
   inv_mid held (adm ∖ {[r]}) (grant uuid_v4 entry c now acquire e).2).
Proof.
  intros r HU Hdraws [Hw Hr] Hseen Hp HI. unfold grant in *.
  destruct (e_credentials e !! c) as [runtime|] eqn:Hc; [|done].
  destruct (lease_execution _ _) as [execution|]; [|done].
  pose proof (charge_runtime_spec entry (gc_quota_guard_basis_points (e_config e)) now runtime) as HS.
  destruct (charge_runtime _ _ _ _) as [[half_open|err] runtime'].
  2:{ simpl in *. split; [|done]. apply with_credentials_inv; [|done]. by apply (credentials_frame_insert _ _ runtime). }
  destruct HS as (Hlt & Hi & Hid & Hlim & _). unfold draw in *. simpl in *.
  rewrite (typed_uuid_ok _ _ bound) in * by (done || (simpl; lia)). simpl in *.
  set (e1 := with_e_draws (e_draws e + 1) e) in *.
  change (with_e_draws _ (with_e_credentials (<[c:=runtime']> (e_credentials e)) e))
    with (with_e_credentials (<[c:=runtime']> (e_credentials e1)) e1) in *.
  assert (inv_mid held adm e1) as [HL1 HC1 HQ1 HR1] by (apply with_draws_inv; [lia|done]).
  match goal with |- context [install_lease entry ?x] => set (lease := x) in * end.
  assert (e_draws e + 1 <= bound) as Hb.
  { revert Hdraws. unfold install_lease.
    destruct (acquire_session_claim_eq entry (cl_credential_id lease)
      (with_e_credentials (<[c:=runtime']> (e_credentials e1)) e1)) as (k & new & -> & _).
    by destruct new, acquire. }
  assert (e_leases e !! cl_id lease = None) as Hfresh.
  { apply eq_None_not_Some. intros [rec Hrec]. destruct HI as [[_ _ _ _ L5] _ _ _].
    destruct (L5 _ _ Hrec) as (n & Hn & HE). apply (inj (String.append _)) in HE. apply (us_fresh _ _ HU) in HE; lia. }
  assert (inv_mid held (adm ∖ {[r]}) (install_lease entry lease now acquire
            (with_e_credentials (<[c:=runtime']> (e_credentials e1)) e1))) as HF.
  { destruct (install_lease_eq entry lease now acquire (with_e_credentials (<[c:=runtime']> (e_credentials e1)) e1))
      as (claim_key & Hk & Hinst). apply Hinst. split.
    - apply leases_ok_install; try done. exists (e_draws e). simpl. split; [lia|done].
    - by apply (charges_ok_install entry lease claim_key acquire runtime runtime' e1).
    - destruct HQ1 as [Q1 Q2 Q3 Q4 Q5 Q6]. split; destruct acquire; simpl; try done;
        intros x [Hx Hne]%elem_of_difference; destruct (Q6 x Hx); [left|by right|left|by right];
        apply elem_of_difference; split; done.
    - destruct HR1 as [R1 R2 R3]. split; destruct acquire; simpl; try done;
        fold r; try (intros x Hx; destruct (R1 x Hx); set_solver);
        try (intros x l [[<- <-]|[_ Hx]]%lookup_insert_Some; [done|by apply (R2 x l)]).
      intros x [->%elem_of_singleton|Hx]%elem_of_union; [done|by apply R1]. }
  split; [|done]. apply (inv_mid_weaken held (adm ∖ {[r]})); [set_solver|done].
Qed.

End steps.
