(* ===== verification/EngineGrant.v ===== *)
(** Why a grant succeeds: a Credential chosen by [evaluate_pool] or by
    [retry_candidate] has everything [grant] charges, so its failure paths are
    not reachable from a pool decision. *)

From S2P Require Import Prelude Machine Domain TokenBucket SchedTypes FairQueue EngineState Eligibility Engine.
From S2P Require Import EngineInv.
Local Open Scope N_scope.

(** The runtime as [retry_candidate] judges it: the current Credential without
    the Lease that the retry gives back. *)
Definition without_current (current id : CredentialId) (rt : CredentialRuntime) : CredentialRuntime :=
  if decide (id = current) then with_rt_inflight (rt.(rt_inflight) - 1) rt else rt.

Definition refilled_pool (now : Duration) (m m' : gmap CredentialId CredentialRuntime) : Prop :=
  ∀ id, match m !! id, m' !! id with
        | Some x, Some y => refilled now x y
        | None, None => True
        | _, _ => False
        end.

(** ** Lemmas *)

Lemma refilled_frame now x y : refilled now x y → runtime_frame x y.
Proof. by intros [->| ->]. Qed.

Lemma refilled_pool_frame now m m' : refilled_pool now m m' → credentials_frame m m'.
Proof.
  intros HR id. specialize (HR id). destruct (m !! id), (m' !! id); try done. by eapply refilled_frame.
Qed.

Lemma refilled_trans now x y z : refilled now x y → refilled now y z → refilled now x z.
Proof. intros [->| ->] [->| ->]; unfold refilled; simpl; rewrite ?refill_idem; auto. Qed.

#[export] Instance refilled_pool_refl now : Reflexive (refilled_pool now).
Proof. intros m id. destruct (m !! id); [by left|done]. Qed.

#[export] Instance refilled_pool_trans now : Transitive (refilled_pool now).
Proof.
  intros m1 m2 m3 H1 H2 id. specialize (H1 id). specialize (H2 id).
  destruct (m1 !! id), (m2 !! id), (m3 !! id); try done. by eapply refilled_trans.
Qed.

Lemma refilled_pool_insert now m id x y : m !! id = Some x → refilled now x y → refilled_pool now m (<[id := y]> m).
Proof.
  intros Hid HR j. destruct (decide (j = id)) as [->|].
  - by rewrite lookup_insert_eq, Hid.
  - rewrite lookup_insert_ne by done. destruct (m !! j); [by left|done].
Qed.

(** ** A servable Credential is granted *)

Lemma serving_execution config entry now rt :
  can_serve config entry now rt → is_ok (lease_execution rt.(rt_config) entry.(se_client_os)) = true.
Proof.
  intros []. unfold lease_execution. destruct (cc_openai_transport _); [by rewrite decide_True|].
  destruct cv_execution as [_ [profile ->]]. done.
Qed.

Lemma serving_charge config entry now rt :
  can_serve config entry now rt →
  is_ok (charge_runtime entry config.(gc_quota_guard_basis_points) now rt).1 = true.
Proof.
  intros []. unfold charge_runtime, try_consume.
  destruct (N.ltb_spec (tb_available (refill (rt_bucket rt) now)) SCALE); [lia|]. simpl.
  destruct (N.leb_spec (cc_concurrency_limit (rt_config rt)) (rt_inflight rt)); [lia|].
  unfold quota_requires_half_open, quota_exhausted. simpl.
  destruct (cs_quota_used_basis_points (cc_state (rt_config rt))) as [used|]; simpl; [|done].
  destruct (N.leb_spec (gc_quota_guard_basis_points config) used); simpl; [|done].
  destruct (cv_quota used eq_refl) as [?|((reset & -> & Hr) & Hi & Hc & Hp)]; [lia|]. simpl.
  rewrite Hi, Hc, Hp. destruct (reset <=? now); done.
Qed.

Lemma grant_serving uuid_v4 bound entry c rt now acquire e :
  uuid_source uuid_v4 bound → e.(e_credentials) !! c = Some rt → can_serve e.(e_config) entry now rt →
  is_ok (grant uuid_v4 entry c now acquire e).1 = true.
Proof.
  intros HU Hc HS. unfold grant. rewrite Hc.
  pose proof (serving_execution _ _ _ _ HS) as HE. pose proof (serving_charge _ _ _ _ HS) as HC.
  destruct (lease_execution _ _); [|done]. destruct (charge_runtime _ _ _ _) as [[] rt']; [|done].
  unfold draw. simpl. by rewrite (typed_uuid_ok _ _ bound) by (done || (simpl; lia)).
Qed.

Lemma evaluate_pool_grants uuid_v4 bound entry c now acquire e e' :
  uuid_source uuid_v4 bound → evaluate_pool entry now e = (Candidate c, e') →
  is_ok (grant uuid_v4 entry c now acquire e').1 = true.
Proof.
  intros HU HE. unfold evaluate_pool in HE.
  pose proof (evaluate_pool_fields_spec (e_credentials e) (e_affinities e) (e_session_claims e) (e_config e) entry now) as HS.
  cbv zeta in HS. destruct (evaluate_pool_fields _ _ _ _ _ _) as [evaluation m]. injection HE as -> <-.
  destruct HS as [HR (rt & Hs & _)]. destruct (HR c rt (sv_known _ _ _ _ _ _ _ Hs)) as (rt' & Hc & Hr).
  apply (grant_serving uuid_v4 bound entry c rt'); [done|done|]. simpl.
  apply (can_serve_refilled _ _ _ rt); [done|apply Hs].
Qed.

(** ** Retry *)

Lemma retry_step_refilled current id now rt rt0 rt1 :
  rt.(rt_inflight) <= U32_MAX →
  (if bool_decide (id = current)
   then (λ inflight, with_rt_inflight inflight rt) <$> checked_sub rt.(rt_inflight) 1 else Some rt) = Some rt0 →
  refilled now rt0 rt1 →
  rt0 = without_current current id rt ∧
  refilled now rt (if bool_decide (id = current) then with_rt_inflight (saturating_add U32_MAX rt1.(rt_inflight) 1) rt1 else rt1).
Proof.
  intros Hb H0 HR. unfold without_current. case_bool_decide as Hid.
  - rewrite decide_True by done. destruct (checked_sub _ 1) as [n|] eqn:En; [|done]. simpl in H0. injection H0 as <-.
    apply checked_sub_Some in En as [H1 ->]. split; [done|].
    assert (saturating_add U32_MAX (rt_inflight rt1) 1 = rt_inflight rt) as ->.
    { destruct (refilled_config _ _ _ HR) as [_ ->]. simpl. unfold saturating_add. lia. }
    destruct HR as [->| ->]; [left|right]; by destruct rt.
  - rewrite decide_False by done. injection H0 as <-. done.
Qed.

Lemma retry_scan_spec target current claims config entry now ids m cands :
  (∀ id rt, m !! id = Some rt → rt.(rt_inflight) <= U32_MAX) → NoDup ids →
  let '(o, m') := retry_scan target current claims config entry now ids m cands in
  refilled_pool now m m' ∧
  ∀ cands' id, o = Some cands' → id ∈ cands' →
    id ∈ cands ∨
    id ∈ ids ∧ ∃ rt, m !! id = Some rt ∧ target_selects target id = true ∧
      session_capacity_blocked rt.(rt_config) claims entry = false ∧
      can_serve config entry now (without_current current id rt).
Proof.
  revert m cands. induction ids as [|id ids IH]; intros m cands Hb Hnd; simpl.
  { split; [done|]. intros cands' x [= <-] Hx. by left. }
  apply NoDup_cons in Hnd as [Hn Hnd].
  destruct (m !! id) as [rt|] eqn:Hid; [|by split].
  destruct (target_selects target id) eqn:Et; simpl.
  2:{ specialize (IH m cands Hb Hnd). destruct (retry_scan _ _ _ _ _ _ _ _ _) as [o m']. destruct IH as [H1 H2].
      split; [done|]. intros cands' x Ho Hx. destruct (H2 cands' x Ho Hx) as [?|[? ?]]; [by left|right; split; [by right|done]]. }
  destruct (session_capacity_blocked _ _ _) eqn:Es; simpl.
  { specialize (IH m cands Hb Hnd). destruct (retry_scan _ _ _ _ _ _ _ _ _) as [o m']. destruct IH as [H1 H2].
    split; [done|]. intros cands' x Ho Hx. destruct (H2 cands' x Ho Hx) as [?|[? ?]]; [by left|right; split; [by right|done]]. }
  destruct (if bool_decide (id = current) then _ else _) as [rt0|] eqn:E0; [|by split].
  pose proof (eligibility_refilled rt0 config entry now) as HR. pose proof (eligibility_spec rt0 config entry now) as HS.
  destruct (eligibility rt0 config entry now) as [[class recovery] rt1]. simpl in HR, HS.
  destruct (retry_step_refilled current id now rt rt0 rt1 (Hb id rt Hid) E0 HR) as [-> HR'].
  match type of HR' with refilled _ _ ?x => set (rt2 := x) in * end. clearbody rt2.
  set (cands2 := if decide (class = Eligible) then cands ++ [id] else cands).
  specialize (IH (<[id := rt2]> m) cands2).
  destruct (retry_scan _ _ _ _ _ _ ids (<[id := rt2]> m) cands2) as [o m']. destruct IH as [H1 H2]; [|done|].
  { intros j y [[<- <-]|[_ Hj]]%lookup_insert_Some; [|by apply (Hb j)].
    destruct (refilled_config _ _ _ HR') as [_ ->]. by apply (Hb id). }
  split; [etrans; [by apply (refilled_pool_insert now m id rt rt2)|done]|].
  intros cands' x Ho Hx. destruct (H2 cands' x Ho Hx) as [Hc|(Hin & rx & Hrx & Hrest)].
  - unfold cands2 in Hc. case_decide as Hcl; [|by left]. apply elem_of_app in Hc as [?| ->%list_elem_of_singleton]; [by left|].
    right. split; [left|]. exists rt. split_and!; try done. by apply HS.
  - right. split; [by right|]. exists rx. rewrite lookup_insert_ne in Hrx by (intros ->; done). done.
Qed.

Lemma retry_candidate_spec entry target current now e :
  (∀ id rt, e.(e_credentials) !! id = Some rt → rt.(rt_inflight) <= U32_MAX) →
  ∃ m', (retry_candidate entry target current now e).2 = with_e_credentials m' e ∧
    refilled_pool now e.(e_credentials) m' ∧
    ∀ id, (retry_candidate entry target current now e).1 = Some id →
      (∀ pinned, pinned_credential entry = Some pinned → id = pinned) ∧
      target_selects target id = true ∧
      ∃ rt, e.(e_credentials) !! id = Some rt ∧
        session_capacity_blocked rt.(rt_config) e.(e_session_claims) entry = false ∧
        can_serve e.(e_config) entry now (without_current current id rt).
Proof.
  intros Hb. unfold retry_candidate. destruct (match pinned_credential entry with Some _ => _ | None => false end) eqn:Epin.
  { exists (e_credentials e). split_and!; [by destruct e|done|done]. }
  pose proof (retry_scan_spec target current (e_session_claims e) (e_config e) entry now
    (btree_keys (e_credentials e)) (e_credentials e) [] Hb (btree_keys_NoDup _)) as HS.
  destruct (retry_scan _ _ _ _ _ _ _ _ _) as [[cands|] m'].
  2:{ exists m'. split_and!; [done|apply HS|done]. }
  destruct HS as [HR HC]. exists m'.
  destruct (list_min _) as [best|] eqn:Em; [|split_and!; [done|done|done]].
  split_and!; [done|done|]. intros id Hbest. simpl in Hbest.
  assert (id ∈ cands) as Hin.
  { unfold best_candidate in Hbest. pose proof (sort_by_perm (compare_candidates m')
      (filter (λ id, priority_of m' id = Some best) cands)) as HP.
    destruct (sort_by _ _) as [|x l]; [done|]. simpl in Hbest. injection Hbest as ->.
    assert (id ∈ filter (λ id, priority_of m' id = Some best) cands) as Hf by (rewrite <- HP; left).
    by apply list_elem_of_filter in Hf as [_ ?]. }
  destruct (HC cands id eq_refl Hin) as [?|(_ & rt & Hrt & Ht & Hs & Hv)]; [set_solver|].
  split_and!; [|done|by exists rt].
  intros pinned Hp. rewrite Hp in Epin. destruct target as [expected|]; [|done]. simpl in Epin, Ht.
  apply negb_false_iff, bool_decide_eq_true in Epin. apply bool_decide_eq_true in Ht. congruence.
Qed.
