(* ===== verification/EngineReach.v ===== *)
(** Every operation of the Group scheduler preserves its invariant, and how an
    operation may change the tables of requests it is not about. *)

From S2P Require Import Prelude Machine Domain TokenBucket SchedTypes FairQueue EngineState Eligibility Engine.
From S2P Require Import EngineInv EngineGrant.
Local Open Scope N_scope.

(** From [e] to [e'], a request outside [touched] that was not waiting is still
    not waiting and was not granted a Lease. *)
Record evolves (touched : gset RequestId) (e e' : SchedulerEngine) : Prop := {
  ev_identity : e'.(e_identity) = e.(e_identity);
  ev_draws : e.(e_draws) <= e'.(e_draws);
  ev_waiting r : r ∉ touched → e.(e_waiting) !! r = None → e'.(e_waiting) !! r = None;
  ev_leases r l : r ∉ touched → e.(e_waiting) !! r = None →
    e'.(e_request_leases) !! r = Some l → e.(e_request_leases) !! r = Some l;
}.

(** A Lease that a reply hands out: its request is not waiting, and holds no
    other Lease. *)
Record settled (lease : CredentialLease) (e : SchedulerEngine) : Prop := {
  st_waiting : e.(e_waiting) !! lease.(cl_request_id) = None;
  st_lease l : e.(e_request_leases) !! lease.(cl_request_id) = Some l → l = lease.(cl_id);
}.

Definition decision_settled (decision : AdmissionDecision) (e : SchedulerEngine) : Prop :=
  match decision with Granted lease => settled lease e | _ => True end.

Definition resolutions_settled (resolutions : list QueueResolution) (e : SchedulerEngine) : Prop :=
  ∀ resolution, resolution ∈ resolutions → decision_settled resolution.(qr_decision) e.

(** ** Lemmas: evolution *)

#[export] Instance evolves_refl touched : Reflexive (evolves touched).
Proof. intros e. split; done || lia. Qed.

Lemma evolves_trans touched e1 e2 e3 : evolves touched e1 e2 → evolves touched e2 e3 → evolves touched e1 e3.
Proof.
  intros [A1 A2 A3 A4] [B1 B2 B3 B4]. split; [congruence|lia| |].
  - intros r Hr Hw. apply B3; [done|]. by apply A3.
  - intros r l Hr Hw Hl. apply A4; [done|done|]. apply B4; [done| |done]. by apply A3.
Qed.

#[export] Instance evolves_transitive touched : Transitive (evolves touched).
Proof. intros e1 e2 e3. apply evolves_trans. Qed.

Lemma evolves_weaken touched touched' e e' : touched ⊆ touched' → evolves touched e e' → evolves touched' e e'.
Proof. intros HS []. split; eauto. Qed.

Lemma settled_evolves lease e e' : evolves ∅ e e' → settled lease e → settled lease e'.
Proof. intros [_ _ E3 E4] [S1 S2]. split; [apply E3; [set_solver|done]|]. intros l Hl. apply S2, E4; [set_solver|done|done]. Qed.

Lemma decision_settled_evolves d e e' : evolves ∅ e e' → decision_settled d e → decision_settled d e'.
Proof. destruct d; simpl; try done. apply settled_evolves. Qed.

Lemma resolutions_settled_evolves rs e e' : evolves ∅ e e' → resolutions_settled rs e → resolutions_settled rs e'.
Proof. intros HE HR r Hr. by apply (decision_settled_evolves _ e), HR. Qed.

Lemma resolutions_settled_app rs1 rs2 e :
  resolutions_settled rs1 e → resolutions_settled rs2 e → resolutions_settled (rs1 ++ rs2) e.
Proof. intros H1 H2 r [Hr|Hr]%elem_of_app; auto. Qed.

Lemma resolutions_settled_nil e : resolutions_settled [] e.
Proof. intros r Hr. set_solver. Qed.

#[export] Hint Resolve resolutions_settled_nil : core.

(** Updates of fields that [evolves] does not mention. *)
Ltac evolves_fields := split; simpl; [done|lia|done|done].

Lemma record_event_evolves touched r k i a now e : evolves touched e (record_event r k i a now e).
Proof. destruct a; evolves_fields. Qed.

Lemma drop_ticket_evolves touched r a now e : evolves touched e (drop_ticket r a now e).
Proof.
  unfold drop_ticket. destruct (e_waiting e !! r); [|done]. etrans; [|apply record_event_evolves].
  split; simpl; [done|lia| |done]. intros x _ Hx. apply lookup_delete_None. by right.
Qed.

Lemma released_state_evolves touched l record now e : evolves touched e (released_state l record now e).
Proof.
  unfold released_state. etrans; [|apply record_event_evolves].
  split; simpl; [done|lia|done|]. by intros r l' _ _ [_ Hl]%lookup_delete_Some.
Qed.

Lemma release_runtime_fields lease e :
  ∃ m, (release_runtime lease e).2 = with_e_credentials m e.
Proof.
  unfold release_runtime. destruct (_ !! _) as [rt|]; [|exists (e_credentials e); by destruct e].
  destruct (checked_sub _ _); [by eexists|exists (e_credentials e); by destruct e].
Qed.

Lemma release_claim_fields k now e :
  ∃ m, (release_claim k now e).2 = with_e_session_claims m e.
Proof.
  unfold release_claim. destruct k as [k|]; [|exists (e_session_claims e); by destruct e].
  destruct (_ !! _) as [c|]; [|exists (e_session_claims e); by destruct e].
  destruct (checked_sub _ _); [by eexists|exists (e_session_claims e); by destruct e].
Qed.

Lemma release_lease_evolves touched g l now e : evolves touched e (release_lease g l now e).2.
Proof.
  unfold release_lease. destruct (stale g e); [done|]. destruct (e_leases e !! l) as [record|]; [|done].
  set (e1 := with_e_pending_cancels _ _).
  assert (evolves touched e e1) as H1.
  { split; simpl; [done|lia|done|]. by intros r l' _ _ [_ Hl]%lookup_delete_Some. }
  clearbody e1. destruct (release_runtime_fields (lr_lease record) e1) as [m Hm].
  destruct (release_runtime _ e1) as [[u|err] e2]; simpl in Hm; subst e2.
  2:{ etrans; [exact H1|]. evolves_fields. }
  destruct (release_claim_fields (lr_session_claim_key record) now (with_e_credentials m e1)) as [m' Hm'].
  destruct (release_claim _ _ _) as [[u'|err] e3]; simpl in Hm'; subst e3.
  2:{ etrans; [exact H1|]. evolves_fields. }
  simpl. etrans; [|apply record_event_evolves]. etrans; [exact H1|]. evolves_fields.
Qed.

Lemma release_group_permit_evolves touched r a now e : evolves touched e (release_group_permit r a now e).2.
Proof.
  unfold release_group_permit. case_decide; [|done]. simpl. etrans; [|apply record_event_evolves]. evolves_fields.
Qed.

Lemma expire_waiter_evolves touched now r e : evolves touched e (expire_waiter now e r).
Proof.
  unfold expire_waiter, forget_rate_admission. etrans; [|etrans; [apply (drop_ticket_evolves touched r Release now)|]].
  - instantiate (1 := with_e_queue (queue_remove r (e_queue e)).2 e). evolves_fields.
  - evolves_fields.
Qed.

Lemma foldl_evolves {A} touched (f : SchedulerEngine → A → SchedulerEngine) l e :
  (∀ e x, evolves touched e (f e x)) → evolves touched e (foldl f e l).
Proof. intros Hf. revert e. induction l as [|x l IH]; intros e; simpl; [done|]. etrans; [apply Hf|apply IH]. Qed.

Lemma expire_waiters_evolves touched now e : evolves touched e (expire_waiters now e).2.
Proof. apply foldl_evolves. intros. apply expire_waiter_evolves. Qed.

Lemma expire_cancel_grace_evolves touched now e : evolves touched e (expire_cancel_grace now e).
Proof. apply foldl_evolves. intros. apply release_lease_evolves. Qed.

Lemma prune_evolves touched now e : evolves touched e (prune now e).
Proof.
  unfold prune. etrans; [instantiate (1 := with_e_affinities _ e); evolves_fields|].
  etrans; [apply (foldl_evolves touched (expire_claim now))|].
  - intros e' x. unfold expire_claim. etrans; [|apply record_event_evolves]. evolves_fields.
  - evolves_fields.
Qed.

Lemma evaluate_pool_evolves touched entry now e : evolves touched e (evaluate_pool entry now e).2.
Proof. unfold evaluate_pool. destruct (evaluate_pool_fields _ _ _ _ _ _). evolves_fields. Qed.

Section with_uuid.
Context (uuid_v4 : N → string).

Lemma enqueue_evolves entry now slot e : evolves {[entry.(se_request_id)]} e (enqueue uuid_v4 entry now slot e).2.
Proof.
  unfold enqueue. destruct (_ <=? _); [evolves_fields|]. unfold draw. simpl.
  destruct (TypedId_new _ _); [|evolves_fields]. simpl. etrans; [|apply record_event_evolves].
  split; simpl; [done|lia| |done]. intros r Hr Hw. rewrite lookup_insert_ne; [done|]. set_solver.
Qed.

Lemma install_lease_evolves entry lease now acquire e :
  evolves {[entry.(se_request_id)]} e (install_lease entry lease now acquire e).
Proof.
  unfold install_lease. destruct (acquire_session_claim_eq entry (cl_credential_id lease) e) as (k & new & -> & _).
  etrans; [|apply record_event_evolves].
  destruct new; [etrans; [|apply record_event_evolves]|]; destruct acquire;
    try (etrans; [|apply record_event_evolves]);
    (split; simpl; [done|lia|done|]; intros r l Hr _ [[<- _]|[_ ?]]%lookup_insert_Some; [set_solver|done]).
Qed.

Lemma grant_evolves entry c now acquire e :
  evolves {[entry.(se_request_id)]} e (grant uuid_v4 entry c now acquire e).2.
Proof.
  unfold grant. destruct (_ !! _) as [rt|]; [|done]. destruct (lease_execution _ _); [|done].
  destruct (charge_runtime _ _ _ _) as [[h|err] rt']; [|evolves_fields]. unfold draw. simpl.
  destruct (TypedId_new _ _); [|evolves_fields]. simpl. etrans; [|apply install_lease_evolves]. evolves_fields.
Qed.

(** The tables after a successful [grant]. *)
Record granted_tables (entry : ScheduleEntry) (c : CredentialId) (acquire : bool) (lease : CredentialLease)
    (e e' : SchedulerEngine) : Prop := {
  gt_request : lease.(cl_request_id) = entry.(se_request_id);
  gt_credential : lease.(cl_credential_id) = c;
  gt_leases : ∃ key, e'.(e_leases) =
    <[lease.(cl_id) := {| lr_lease := lease; lr_session_claim_key := key |}]> e.(e_leases);
  gt_request_leases : e'.(e_request_leases) = <[entry.(se_request_id) := lease.(cl_id)]> e.(e_request_leases);
  gt_permits : e'.(e_group_permits) =
    if acquire then {[entry.(se_request_id)]} ∪ e.(e_group_permits) else e.(e_group_permits);
  gt_waiting : e'.(e_waiting) = e.(e_waiting);
  gt_pending : e'.(e_pending_cancels) = e.(e_pending_cancels);
  gt_drawn : id_value lease.(cl_id) = "lease_" +:+ uuid_v4 e.(e_draws) ∧ e'.(e_draws) = e.(e_draws) + 1;
}.

Lemma grant_tables entry c now acquire e lease e' :
  grant uuid_v4 entry c now acquire e = (Ok lease, e') → granted_tables entry c acquire lease e e'.
Proof.
  intros HG. unfold grant in HG. destruct (_ !! c) as [rt|]; [|done]. destruct (lease_execution _ _); [|done].
  destruct (charge_runtime _ _ _ _) as [[h|err] rt']; [|done]. unfold draw in HG. simpl in HG.
  destruct (TypedId_new _ _) as [id|] eqn:Eid; [|done]. injection HG as <- <-.
  match goal with |- context [install_lease entry ?x now acquire ?y] => set (lease := x) in *; set (e1 := y) in * end.
  assert (id_value id = "lease_" +:+ uuid_v4 (e_draws e)) as Hid.
  { unfold TypedId_new in Eid. destruct (_ || _); [done|]. by injection Eid as <-. }
  unfold install_lease. destruct (acquire_session_claim_eq entry (cl_credential_id lease) e1) as (k & new & -> & _).
  destruct new, acquire; split; simpl; try done; by eexists.
Qed.

Lemma grant_error_leases entry c now acquire e :
  match grant uuid_v4 entry c now acquire e with
  | (Ok _, _) => True
  | (Err _, e') => e'.(e_leases) = e.(e_leases)
  end.
Proof.
  unfold grant. destruct (_ !! c) as [rt|]; [|done]. destruct (lease_execution _ _); [|done].
  destruct (charge_runtime _ _ _ _) as [[h|err] rt']; [|done]. unfold draw. simpl. by destruct (TypedId_new _ _).
Qed.

(** The Lease [grant] answers is the one its request now holds. *)
Lemma grant_settled entry c now acquire e lease e' :
  grant uuid_v4 entry c now acquire e = (Ok lease, e') → e.(e_waiting) !! entry.(se_request_id) = None →
  settled lease e' ∧ lease.(cl_request_id) = entry.(se_request_id) ∧
  e'.(e_request_leases) !! entry.(se_request_id) = Some lease.(cl_id).
Proof.
  intros HG Hw. destruct (grant_tables _ _ _ _ _ _ _ HG) as [Hr _ _ HL _ HW _ _].
  split_and!; [split|done|].
  - by rewrite Hr, HW.
  - intros l. rewrite Hr, HL, lookup_insert_eq. by intros [= <-].
  - by rewrite HL, lookup_insert_eq.
Qed.

End with_uuid.

(** ** Lemmas: the scan of the pump *)

Lemma pump_runnable_spec affinities claims config now scan entry :
  credentials_frame scan.(pm_credentials) (pump_runnable affinities claims config now scan entry).2.(pm_credentials) ∧
  ∀ r, r ∈ (pump_runnable affinities claims config now scan entry).2.(pm_group_rate_admitted) →
    r = entry.(se_request_id) ∨ r ∈ scan.(pm_group_rate_admitted).
Proof.
  unfold pump_runnable. destruct (_ <=? _); [split; [done|by auto]|].
  set (p := if decide _ then _ else _).
  assert (p.2.(pm_credentials) = scan.(pm_credentials) ∧ ∀ r, r ∈ p.2.(pm_group_rate_admitted) →
    r = se_request_id entry ∨ r ∈ pm_group_rate_admitted scan) as [Hc Ha].
  { unfold p. case_decide; [split; [done|by auto]|].
    destruct (pm_group_bucket scan) as [b|]; [|split; [done|by auto]].
    destruct (try_consume b now) as [[] b']; simpl; (split; [done|]); set_solver. }
  destruct p as [ready scan1]. cbn [fst snd] in Hc, Ha |- *. rewrite <- Hc.
  destruct (negb ready); [split; [done|exact Ha]|].
  pose proof (evaluate_pool_fields_frame scan1.(pm_credentials) affinities claims config entry now) as HF.
  destruct (evaluate_pool_fields _ _ _ _ _ _) as [evaluation m]. split; [exact HF|exact Ha].
Qed.

Lemma pump_scan_spec affinities claims config now entries scan :
  let scan' := (first_runnable (pump_runnable affinities claims config now) scan entries).2 in
  credentials_frame scan.(pm_credentials) scan'.(pm_credentials) ∧
  ∀ r, r ∈ scan'.(pm_group_rate_admitted) → r ∈ entry_ids entries ∨ r ∈ scan.(pm_group_rate_admitted).
Proof.
  revert scan. induction entries as [|entry entries IH]; intros scan; simpl; [split; [done|by auto]|].
  destruct (pump_runnable_spec affinities claims config now scan entry) as [HF HA].
  destruct (pump_runnable _ _ _ _ scan entry) as [[] scan1]; simpl in *.
  - split; [done|]. intros r Hr. destruct (HA r Hr) as [->|?]; [left; left|by right].
  - destruct (IH scan1) as [HF1 HA1]. split; [by etrans|]. intros r Hr. destruct (HA1 r Hr) as [?|Hr1].
    + left. by right.
    + destruct (HA r Hr1) as [->|?]; [left; left|by right].
Qed.

(** ** Lemmas: the invariant across the operations *)

Section operations.
Context {uuid_v4 : N → string} {bound : N} (HU : uuid_source uuid_v4 bound).
Abbreviation inv_mid := (inv_mid uuid_v4).
Abbreviation engine_inv := (engine_inv uuid_v4).
Implicit Types e : SchedulerEngine.

Lemma pump_pop_inv now e :
  engine_inv e →
  match pump_pop now e with
  | (Some entry, e') => inv_mid [entry] ∅ e'
  | (None, e') => engine_inv e'
  end.
Proof using Type.
  clear HU bound.
  intros HI. unfold pump_pop. pose proof (qo_wf _ _ _ (inv_queue _ _ _ _ HI)) as Hwf.
  set (scan := {| pm_group_bucket := _ |}).
  set (r := pump_runnable (e_affinities e) (e_session_claims e) (e_config e) now).
  destruct (pump_scan_spec (e_affinities e) (e_session_claims e) (e_config e) now (queue_heads (e_queue e)) scan) as [HF HA].
  fold r in HF, HA. pose proof (queue_pop_spec r scan (e_queue e) Hwf) as HP.
  assert (∀ x, x ∈ entry_ids (queue_heads (e_queue e)) → is_Some (e.(e_waiting) !! x)) as Hheads.
  { intros x (en & -> & Hen)%list_elem_of_fmap. apply (qo_waiting _ _ _ (inv_queue _ _ _ _ HI)).
    rewrite app_nil_r. apply list_elem_of_fmap. exists en. split; [done|]. by apply (fl_heads _ (qw_root _ Hwf)). }
  destruct (queue_pop_runnable r scan (e_queue e)) as [[[entry|] scan'] q'].
  - destruct HP as (Hwf' & HPc & Hf & _). rewrite Hf in HF, HA. simpl in HF, HA.
    assert (inv_mid [] ∅ (with_e_credentials (pm_credentials scan')
       (with_e_group_rate_admitted (pm_group_rate_admitted scan') (with_e_group_bucket (pm_group_bucket scan') e)))) as HI1.
    { apply with_credentials_inv; [done|]. apply (rate_admitted_inv [] ∅); [|by apply with_group_bucket_inv].
      intros x Hx. right. destruct (HA x Hx) as [?|Hx']; [by apply Hheads|].
      destruct (qo_admitted _ _ _ (inv_queue _ _ _ _ HI) x Hx'); [set_solver|done]. }
    destruct HI1 as [[] [] [Q1 Q2 Q3 Q4 Q5 Q6] []].
    assert (queue_contents (e_queue e) ++ [] ≡ₚ queue_contents q' ++ [entry]) as HE.
    { rewrite app_nil_r, HPc. by rewrite Permutation_app_comm. }
    split; [split; done..| |split; done]. unfold entry_ids in *. simpl in *. split; simpl; try done.
    + by rewrite <- HE.
    + intros x. unfold entry_ids. by rewrite <- HE.
    + intros en w. rewrite <- HE. apply Q5.
  - destruct HP as [-> Hf]. rewrite Hf in HF, HA. simpl in HF, HA.
    replace (with_e_queue (e_queue e) _) with (with_e_credentials (pm_credentials scan')
       (with_e_group_rate_admitted (pm_group_rate_admitted scan') (with_e_group_bucket (pm_group_bucket scan') e)))
      by done.
    apply with_credentials_inv; [done|]. apply (rate_admitted_inv [] ∅); [|by apply with_group_bucket_inv].
    intros x Hx. right. destruct (HA x Hx) as [?|Hx']; [by apply Hheads|].
    destruct (qo_admitted _ _ _ (inv_queue _ _ _ _ HI) x Hx'); [set_solver|done].
Qed.

(** Dropping the ticket of the held entry. *)
Lemma drop_held_ticket_inv entry held action now e :
  inv_mid (entry :: held) ∅ e →
  inv_mid held {[entry.(se_request_id)]} (drop_ticket entry.(se_request_id) action now e).
Proof using Type.
  clear HU bound.
  intros HI. apply (inv_mid_weaken held (∅ ∪ {[se_request_id entry]})); [set_solver|].
  destruct (inv_queue _ _ _ _ HI) as [_ Q2 Q3 _ _ _].
  assert (entry_ids (queue_contents (e_queue e) ++ entry :: held) ≡ₚ
          se_request_id entry :: entry_ids (queue_contents (e_queue e) ++ held)) as HE.
  { unfold entry_ids. by rewrite <- Permutation_middle. }
  rewrite HE in Q2. apply NoDup_cons in Q2 as [Hn Hnd].
  apply (drop_ticket_inv (entry :: held)); try done.
  - intros x. rewrite HE. apply elem_of_cons.
  - intros en Hen. by right.
Qed.

(** A held request has no Lease and no permit. *)
Lemma held_idle entry held e :
  inv_mid (entry :: held) ∅ e →
  is_Some (e.(e_waiting) !! entry.(se_request_id)) ∧ e.(e_request_leases) !! entry.(se_request_id) = None ∧
  (entry.(se_request_id) ∉ e.(e_group_permits)) ∧ entry.(se_request_id) ∈ e.(e_seen_requests).
Proof using Type.
  clear HU bound.
  intros [_ _ [_ _ Q3 _ _ _] [R1 R2 R3]]. set (r := se_request_id entry) in *.
  assert (is_Some (e_waiting e !! r)) as [w Hw].
  { apply Q3, list_elem_of_fmap. exists entry. split; [done|]. apply elem_of_app. right. left. }
  split_and!.
  - by eexists.
  - destruct (e_request_leases e !! r) as [l|] eqn:Hl; [|done]. destruct (R2 r l Hl). congruence.
  - intros Hp. destruct (R1 r Hp). congruence.
  - by apply (R3 r w).
Qed.

Lemma drop_ticket_tables r action now e :
  (drop_ticket r action now e).(e_request_leases) = e.(e_request_leases) ∧
  (drop_ticket r action now e).(e_group_permits) = e.(e_group_permits) ∧
  (drop_ticket r action now e).(e_seen_requests) = e.(e_seen_requests) ∧
  (drop_ticket r action now e).(e_queue) = e.(e_queue) ∧
  (drop_ticket r action now e).(e_identity) = e.(e_identity).
Proof using Type. unfold drop_ticket. destruct (e_waiting e !! r); by destruct action. Qed.

Lemma pump_serve_inv entry now e :
  (pump_serve uuid_v4 entry now e).2.(e_draws) <= bound →
  inv_mid [entry] ∅ e → engine_inv (pump_serve uuid_v4 entry now e).2.
Proof.
  intros Hd HI. unfold pump_serve in *. set (r := se_request_id entry) in *.
  destruct (held_idle entry [] e HI) as ([w Hw] & Hl & Hp & Hseen). fold r in Hw, Hl, Hp, Hseen. rewrite Hw in *.
  pose proof (drop_held_ticket_inv entry [] Release now e HI) as HI1. fold r in HI1.
  destruct (drop_ticket_tables r Release now e) as (T1 & T2 & T3 & T4 & _).
  pose proof (drop_ticket_waiting r Release now e) as TW.
  destruct (inv_queue _ _ _ _ HI) as [_ _ _ Qt Qd _].
  set (e1 := drop_ticket r Release now e) in *.
  assert (idle_request r e1) as Hidle by (split; [rewrite TW; apply lookup_delete_eq|by rewrite T1]).
  destruct (se_pre_upstream_deadline entry <=? now).
  { apply (inv_mid_weaken [] ({[r]} ∖ {[r]})); [set_solver|]. by apply forget_rate_admission_inv. }
  destruct (evaluate_pool entry now e1) as [evaluation e2] eqn:He2.
  pose proof (evaluate_pool_inv [] {[r]} entry now e1 HI1) as HI2.
  pose proof (evaluate_pool_evolves ∅ entry now e1) as HE2. rewrite He2 in HI2, HE2. simpl in HI2, HE2.
  assert (idle_request r e2 ∧ (r ∉ e_group_permits e2) ∧ r ∈ e_seen_requests e2 ∧ e_waiting e2 = e_waiting e1) as (Hidle2 & Hp2 & Hs2 & Hw2).
  { unfold evaluate_pool in He2. destruct (evaluate_pool_fields _ _ _ _ _ _). injection He2 as <- <-.
    split_and!; [by destruct Hidle| | |done]; simpl; by rewrite ?T2, ?T3. }
  destruct evaluation as [c| | | |].
  - pose proof (evaluate_pool_grants uuid_v4 bound entry c now true e1 e2 HU He2) as Hok.
    assert (e_draws (grant uuid_v4 entry c now true e2).2 <= bound) as Hd2.
    { revert Hd. by destruct (grant uuid_v4 entry c now true e2). }
    destruct (grant_inv (uuid_v4 := uuid_v4) bound [] {[r]} entry c now true e2) as [_ Hgr]; try done; [by left|].
    specialize (Hgr Hok). destruct (grant uuid_v4 entry c now true e2) as [res e3]. simpl in *.
    apply (inv_mid_weaken [] ({[r]} ∖ {[r]})); [set_solver|done].
  - simpl. rewrite (Qt r w Hw). apply (push_waiting_inv entry w e2); try done; [by apply Qt|].
    apply Qd; [apply elem_of_app; right; left|done].
  - simpl. rewrite (Qt r w Hw). apply (push_waiting_inv entry w e2); try done; [by apply Qt|].
    apply Qd; [apply elem_of_app; right; left|done].
  - simpl. rewrite (Qt r w Hw). apply (push_waiting_inv entry w e2); try done; [by apply Qt|].
    apply Qd; [apply elem_of_app; right; left|done].
  - simpl. rewrite (Qt r w Hw). apply (push_waiting_inv entry w e2); try done; [by apply Qt|].
    apply Qd; [apply elem_of_app; right; left|done].
Qed.

Lemma evolves_waiting r e e' : is_Some (e.(e_waiting) !! r) → evolves {[r]} e e' → evolves ∅ e e'.
Proof.
  intros [w Hw] [E1 E2 E3 E4]. split; [done|done| |].
  - intros x _ Hx. apply E3; [|done]. rewrite elem_of_singleton. congruence.
  - intros x l _ Hx. apply E4; [|done]. rewrite elem_of_singleton. congruence.
Qed.

Lemma pump_pop_fields now e :
  ∃ entry m adm bucket queue,
    pump_pop now e = (entry, with_e_queue queue (with_e_credentials m
      (with_e_group_rate_admitted adm (with_e_group_bucket bucket e)))).
Proof.
  unfold pump_pop. destruct (queue_pop_runnable _ _ _) as [[entry scan] queue]. by repeat eexists.
Qed.

Lemma pump_serve_draws entry now e : e.(e_draws) <= (pump_serve uuid_v4 entry now e).2.(e_draws).
Proof.
  unfold pump_serve. destruct (_ !! _) as [w|]; [|done].
  pose proof (ev_draws _ _ _ (drop_ticket_evolves ∅ (se_request_id entry) Release now e)) as H1.
  set (e1 := drop_ticket _ _ _ _) in *. destruct (_ <=? _); [done|].
  pose proof (ev_draws _ _ _ (evaluate_pool_evolves ∅ entry now e1)) as H2.
  destruct (evaluate_pool entry now e1) as [[c| | | |] e2]; simpl in *; try lia.
  pose proof (ev_draws _ _ _ (grant_evolves uuid_v4 entry c now true e2)) as H3.
  destruct (grant uuid_v4 entry c now true e2) as [res e3]. simpl in *. lia.
Qed.

Lemma pump_loop_draws fuel now e : e.(e_draws) <= (pump_loop uuid_v4 fuel now e).2.(e_draws).
Proof.
  revert e. induction fuel as [|fuel IH]; intros e; simpl; [lia|].
  destruct (_ <=? _); [simpl; lia|].
  destruct (pump_pop_fields now e) as (o & m & adm & bucket & queue & ->).
  set (e1 := with_e_queue _ _). change (e_draws e) with (e_draws e1). destruct o as [entry|]; [|simpl; lia].
  pose proof (pump_serve_draws entry now e1) as H1. destruct (pump_serve _ _ _ e1) as [[res cont] e2]. simpl in H1.
  destruct cont; [|done]. specialize (IH e2). destruct (pump_loop _ _ _ e2) as [rs e3]. simpl in *. lia.
Qed.

(** Serving a popped entry touches only that entry's request, and a Lease it
    grants is the one that request holds. *)
Lemma pump_serve_evolves entry now e :
  inv_mid [entry] ∅ e →
  evolves ∅ e (pump_serve uuid_v4 entry now e).2 ∧
  ∀ resolution, (pump_serve uuid_v4 entry now e).1.1 = Some resolution →
    resolution.(qr_request_id) = entry.(se_request_id) ∧
    decision_settled resolution.(qr_decision) (pump_serve uuid_v4 entry now e).2.
Proof.
  intros HI. set (r := se_request_id entry).
  destruct (held_idle entry [] e HI) as ([w Hw] & _). fold r in Hw.
  destruct (inv_queue _ _ _ _ HI) as [_ _ _ Qt _ _].
  unfold pump_serve. fold r. rewrite Hw.
  pose proof (drop_ticket_evolves {[r]} r Release now e) as H1.
  assert (e_waiting (drop_ticket r Release now e) !! r = None) as Hw1.
  { rewrite drop_ticket_waiting. apply lookup_delete_eq. }
  set (e1 := drop_ticket r Release now e) in *.
  destruct (se_pre_upstream_deadline entry <=? now).
  { split; [|by intros resolution [= <-]]. apply (evolves_waiting r); [by eexists|].
    etrans; [exact H1|]. evolves_fields. }
  pose proof (evaluate_pool_evolves {[r]} entry now e1) as H2.
  assert (e_waiting (evaluate_pool entry now e1).2 = e_waiting e1) as Hw2.
  { unfold evaluate_pool. by destruct (evaluate_pool_fields _ _ _ _ _ _). }
  destruct (evaluate_pool entry now e1) as [evaluation e2]. simpl in H2, Hw2.
  assert (evolves {[r]} e (with_e_waiting (<[qt_request_id (wr_ticket w) := w]> (e_waiting e2))
            (with_e_queue (queue_push entry (e_queue e2)) e2))) as Hback.
  { etrans; [exact H1|]. etrans; [exact H2|]. rewrite (Qt r w Hw). split; simpl; [done|lia| |done].
    intros x Hx Hn. rewrite lookup_insert_ne; [done|]. set_solver. }
  destruct evaluation as [c| | | |].
  2, 3, 4, 5: simpl; split; [by apply (evolves_waiting r); [eexists|]|done].
  pose proof (grant_evolves uuid_v4 entry c now true e2) as H3.
  pose proof (grant_settled uuid_v4 entry c now true e2) as HS.
  destruct (grant uuid_v4 entry c now true e2) as [[lease|err] e3]; simpl in *.
  - split; [apply (evolves_waiting r); [by eexists|]; etrans; [exact H1|]; etrans; [exact H2|exact H3]|].
    intros resolution [= <-]. simpl. split; [done|].
    destruct (HS lease e3 eq_refl) as [? _]; [by rewrite Hw2|done].
  - split; [apply (evolves_waiting r); [by eexists|]; etrans; [exact H1|]; etrans; [exact H2|exact H3]|].
    by intros resolution [= <-].
Qed.

Lemma pump_loop_inv fuel now e :
  (pump_loop uuid_v4 fuel now e).2.(e_draws) <= bound → engine_inv e →
  engine_inv (pump_loop uuid_v4 fuel now e).2 ∧ evolves ∅ e (pump_loop uuid_v4 fuel now e).2 ∧
  resolutions_settled (pump_loop uuid_v4 fuel now e).1 (pump_loop uuid_v4 fuel now e).2.
Proof.
  revert e. induction fuel as [|fuel IH]; intros e Hd HI; simpl in *; [done|].
  destruct (_ <=? _); [done|].
  pose proof (pump_pop_inv now e HI) as HP.
  destruct (pump_pop_fields now e) as (o & m & adm & bucket & queue & HE). rewrite HE in *.
  set (e1 := with_e_queue _ _) in *. assert (evolves ∅ e e1) as H1 by evolves_fields. clearbody e1.
  destruct o as [entry|]; [|done].
  pose proof (pump_serve_inv entry now e1) as H2. destruct (pump_serve_evolves entry now e1 HP) as [H3 H4].
  destruct (pump_serve uuid_v4 entry now e1) as [[res cont] e2]. simpl in *. destruct cont.
  - pose proof (pump_loop_draws fuel now e2) as Hd2.
    specialize (IH e2). destruct (pump_loop uuid_v4 fuel now e2) as [rs e3]. simpl in *.
    destruct IH as (I1 & I2 & I3); [done|apply H2; [lia|done]|].
    split_and!; [done|etrans; [exact H1|etrans; [exact H3|done]]|].
    apply resolutions_settled_app; [|done]. intros x Hx. destruct res as [x'|]; [|set_solver].
    apply list_elem_of_singleton in Hx as ->. destruct (H4 x' eq_refl) as [_ ?]. by apply (decision_settled_evolves _ e2).
  - split_and!; [by apply H2|by etrans|]. intros x Hx. destruct res as [x'|]; [|set_solver].
    apply list_elem_of_singleton in Hx as ->. by apply H4.
Qed.

Lemma expire_waiters_settled now e : resolutions_settled (expire_waiters now e).1 (expire_waiters now e).2.
Proof. intros x. unfold expire_waiters. simpl. by intros ([r w] & -> & _)%list_elem_of_fmap. Qed.

Lemma pump_expire_inv now e :
  engine_inv e →
  engine_inv (pump_expire now e).2 ∧ evolves ∅ e (pump_expire now e).2 ∧
  resolutions_settled (pump_expire now e).1 (pump_expire now e).2.
Proof.
  intros HI. unfold pump_expire. split_and!; [|..|apply expire_waiters_settled].
  - apply expire_waiters_inv, prune_inv, expire_cancel_grace_inv, HI.
  - etrans; [apply expire_cancel_grace_evolves|]. etrans; [apply prune_evolves|]. apply expire_waiters_evolves.
Qed.

Lemma pump_draws g now e : e.(e_draws) <= (pump uuid_v4 g now e).2.(e_draws).
Proof.
  unfold pump. destruct (_ || _); [simpl; lia|].
  assert (e_draws e <= e_draws (pump_expire now e).2) as H1.
  { unfold pump_expire. apply (ev_draws ∅). etrans; [apply expire_cancel_grace_evolves|].
    etrans; [apply prune_evolves|]. apply expire_waiters_evolves. }
  destruct (pump_expire now e) as [rs e1]. simpl in H1.
  pose proof (pump_loop_draws (S (N.to_nat (fq_len (e_queue e1)))) now e1) as H2.
  destruct (pump_loop _ _ _ e1) as [rs' e2]. simpl in *. lia.
Qed.

Lemma pump_inv g now e :
  (pump uuid_v4 g now e).2.(e_draws) <= bound → engine_inv e →
  engine_inv (pump uuid_v4 g now e).2 ∧ evolves ∅ e (pump uuid_v4 g now e).2 ∧
  resolutions_settled (pump uuid_v4 g now e).1 (pump uuid_v4 g now e).2.
Proof.
  intros Hd HI. unfold pump in *. destruct (_ || _); [done|].
  destruct (pump_expire_inv now e HI) as (H1 & H2 & H3).
  destruct (pump_expire now e) as [rs e1]. cbn [fst snd] in *.
  set (fuel := S _) in *. clearbody fuel. pose proof (pump_loop_inv fuel now e1) as HL.
  destruct (pump_loop _ _ _ e1) as [rs' e2]. destruct HL as (H4 & H5 & H6); [done|done|].
  simpl in *. split_and!; [done|by etrans|]. apply resolutions_settled_app; [|done].
  by apply (resolutions_settled_evolves _ e1).
Qed.

(** *** Admission *)

Definition outcome_settled (r : result SchedulerError AdmissionDecision) e : Prop :=
  match r with Ok decision => decision_settled decision e | Err _ => True end.

(** A request that is known and does nothing yet. *)
Record fresh_request (r : RequestId) e : Prop := {
  fr_idle : idle_request r e;
  fr_permit : r ∉ e.(e_group_permits);
  fr_seen : r ∈ e.(e_seen_requests);
}.

Lemma prune_tables now e :
  (prune now e).(e_waiting) = e.(e_waiting) ∧ (prune now e).(e_request_leases) = e.(e_request_leases) ∧
  (prune now e).(e_group_permits) = e.(e_group_permits) ∧ (prune now e).(e_seen_requests) = e.(e_seen_requests) ∧
  (prune now e).(e_leases) = e.(e_leases) ∧ (prune now e).(e_queue) = e.(e_queue).
Proof.
  unfold prune. simpl. set (e1 := with_e_affinities _ e).
  change (e_waiting e) with (e_waiting e1). change (e_request_leases e) with (e_request_leases e1).
  change (e_group_permits e) with (e_group_permits e1). change (e_seen_requests e) with (e_seen_requests e1).
  change (e_leases e) with (e_leases e1). change (e_queue e) with (e_queue e1).
  set (l := filter _ _). clearbody l. clearbody e1. revert e1.
  induction l as [|x l IH]; intros e1; simpl; [done|]. by destruct (IH (expire_claim now e1 x)) as (-> & -> & -> & -> & -> & ->).
Qed.

Lemma prune_config now e : (prune now e).(e_config) = e.(e_config) ∧ (prune now e).(e_identity) = e.(e_identity).
Proof.
  unfold prune. simpl. set (e1 := with_e_affinities _ e).
  change (e_config e) with (e_config e1). change (e_identity e) with (e_identity e1).
  set (l := filter _ _). clearbody l. clearbody e1. revert e1.
  induction l as [|x l IH]; intros e1; simpl; [done|]. by destruct (IH (expire_claim now e1 x)) as (-> & ->).
Qed.

Lemma enqueue_outcome entry now slot e :
  outcome_settled (enqueue uuid_v4 entry now slot e).1 (enqueue uuid_v4 entry now slot e).2.
Proof. unfold enqueue. destruct (_ <=? _); [done|]. unfold draw. simpl. by destruct (TypedId_new _ _). Qed.

Lemma forget_evolves touched r e : evolves touched e (forget_rate_admission r e).
Proof. evolves_fields. Qed.

Lemma admit_or_queue_inv entry evaluation now e :
  let r := entry.(se_request_id) in
  fresh_request r e → inv_mid [] {[r]} e →
  engine_inv (admit_or_queue uuid_v4 entry evaluation now e).2 ∧
  evolves {[r]} e (admit_or_queue uuid_v4 entry evaluation now e).2 ∧
  outcome_settled (admit_or_queue uuid_v4 entry evaluation now e).1 (admit_or_queue uuid_v4 entry evaluation now e).2.
Proof.
  intros r [Hidle Hp Hs] HI. unfold admit_or_queue. destruct (se_bypass_queue entry); simpl.
  - split_and!; [|apply forget_evolves|done].
    apply (inv_mid_weaken [] ({[r]} ∖ {[r]})); [set_solver|]. by apply forget_rate_admission_inv.
  - split_and!; [by apply (enqueue_inv bound)|apply enqueue_evolves|apply enqueue_outcome].
Qed.

Lemma evaluate_pool_fresh entry now r e : fresh_request r e → fresh_request r (evaluate_pool entry now e).2.
Proof.
  intros [[] ? ?]. unfold evaluate_pool. destruct (evaluate_pool_fields _ _ _ _ _ _). by split.
Qed.

Lemma admit_evaluated_inv entry now e :
  let r := entry.(se_request_id) in
  (admit_evaluated uuid_v4 entry now e).2.(e_draws) <= bound →
  fresh_request r e → inv_mid [] {[r]} e →
  engine_inv (admit_evaluated uuid_v4 entry now e).2 ∧
  evolves {[r]} e (admit_evaluated uuid_v4 entry now e).2 ∧
  outcome_settled (admit_evaluated uuid_v4 entry now e).1 (admit_evaluated uuid_v4 entry now e).2.
Proof.
  intros r Hd Hf HI. unfold admit_evaluated in *.
  pose proof (evaluate_pool_inv [] {[r]} entry now e HI) as HI1.
  pose proof (evaluate_pool_evolves {[r]} entry now e) as HE1.
  pose proof (evaluate_pool_fresh entry now r e Hf) as Hf1.
  pose proof (λ c e', evaluate_pool_grants uuid_v4 bound entry c now true e e' HU) as HG.
  destruct (evaluate_pool entry now e) as [evaluation e1]. cbn [fst snd] in *.
  assert (∀ ev, engine_inv (admit_or_queue uuid_v4 entry ev now e1).2 ∧
    evolves {[r]} e (admit_or_queue uuid_v4 entry ev now e1).2 ∧
    outcome_settled (admit_or_queue uuid_v4 entry ev now e1).1 (admit_or_queue uuid_v4 entry ev now e1).2) as HQ.
  { intros ev. destruct (admit_or_queue_inv entry ev now e1 Hf1 HI1) as (?&?&?). split_and!; [done|by etrans|done]. }
  assert (engine_inv (forget_rate_admission r e1) ∧ evolves {[r]} e (forget_rate_admission r e1)) as [HF1 HF2].
  { split; [|by etrans; [exact HE1|apply forget_evolves]].
    apply (inv_mid_weaken [] ({[r]} ∖ {[r]})); [set_solver|]. by apply forget_rate_admission_inv. }
  destruct ((permits_len e1 <? effective_concurrency e1) && (fq_len (e_queue e1) =? 0)).
  - destruct evaluation as [c| | |retry|]; try apply HQ.
    + specialize (HG c e1 eq_refl). destruct Hf1 as [Hidle Hp Hs].
      destruct (grant_inv (uuid_v4 := uuid_v4) bound [] {[r]} entry c now true e1) as [_ Hgr]; try done.
      { revert Hd. by destruct (grant uuid_v4 entry c now true e1) as [[] ?]. }
      { by left. }
      specialize (Hgr HG). pose proof (grant_evolves uuid_v4 entry c now true e1) as HE2.
      pose proof (grant_settled uuid_v4 entry c now true e1) as HS.
      destruct (grant uuid_v4 entry c now true e1) as [[lease|err] e2]; [|done]. simpl in *.
      split_and!; [|etrans; [exact HE1|exact HE2]|].
      * apply (inv_mid_weaken [] ({[r]} ∖ {[r]})); [set_solver|done].
      * destruct (HS lease e2 eq_refl) as [? _]; [by apply Hidle|done].
    + destruct (_ <=? _); [split_and!; [exact HF1|exact HF2|exact I]|apply HQ].
    + split_and!; [exact HF1|exact HF2|exact I].
  - destruct evaluation; try apply HQ. split_and!; [exact HF1|exact HF2|exact I].
Qed.

Lemma admit_inv g entry now e :
  (admit_request uuid_v4 g entry now e).2.(e_draws) <= bound → engine_inv e →
  engine_inv (admit_request uuid_v4 g entry now e).2 ∧
  evolves {[entry.(se_request_id)]} e (admit_request uuid_v4 g entry now e).2 ∧
  outcome_settled (admit_request uuid_v4 g entry now e).1 (admit_request uuid_v4 g entry now e).2.
Proof.
  set (r := se_request_id entry). unfold admit_request. intros Hd HI.
  destruct (stale g e); [done|]. case_decide; [done|]. case_decide; [done|].
  fold r in Hd |- *. case_decide as Hseen; [done|]. case_decide; [done|]. destruct (_ <=? now); [done|].
  set (e0 := with_e_request_portability _ _) in *.
  assert (evolves {[r]} e (prune now e0)) as HE.
  { etrans; [|apply prune_evolves]. evolves_fields. }
  assert (engine_inv (prune now e0)) as HI1.
  { by apply prune_inv, with_portability_inv, see_request_inv. }
  assert (fresh_request r (prune now e0)) as Hf.
  { destruct (prune_tables now e0) as (T1 & T2 & T3 & T4 & _). destruct HI as [_ _ _ [R1 R2 R3]].
    split; [split|..]; rewrite ?T1, ?T2, ?T3, ?T4; simpl.
    - destruct (e_waiting e !! r) as [w|] eqn:Hw; [|done]. by apply R3 in Hw.
    - destruct (e_request_leases e !! r) as [l|] eqn:Hl; [|done]. by destruct (R2 r l Hl).
    - intros Hp. by destruct (R1 r Hp).
    - set_solver. }
  set (e1 := prune now e0) in *. clearbody e1.
  assert (∀ b, fresh_request r (with_e_group_bucket b e1)) as Hfb by (intros b; by destruct Hf as [[] ? ?]).
  assert (∀ b, inv_mid [] {[r]} (with_e_group_bucket b e1)) as HIb.
  { intros b. apply (inv_mid_weaken [] ∅); [set_solver|]. by apply with_group_bucket_inv. }
  assert (∀ b, evolves {[r]} e (with_e_group_bucket b e1)) as HEb.
  { intros b. etrans; [exact HE|]. evolves_fields. }
  destruct (e_group_bucket e1) as [bucket|].
  2:{ destruct (admit_evaluated_inv entry now e1) as (?&?&?); [exact Hd|exact Hf|apply (inv_mid_weaken [] ∅); [set_solver|exact HI1]|].
      split_and!; [done|by etrans|done]. }
  destruct (try_consume bucket now) as [consumed bucket1]. destruct consumed; simpl in Hd |- *.
  - set (e2 := with_e_group_rate_admitted _ _) in *.
    assert (fresh_request r e2) as Hf2 by (destruct (Hfb (Some bucket1)) as [[] ? ?]; by split).
    assert (inv_mid [] {[r]} e2) as HI2.
    { apply (rate_admitted_inv [] {[r]}); [|apply HIb]. intros x [->%elem_of_singleton|Hx]%elem_of_union; [left; set_solver|].
      destruct (qo_admitted _ _ _ (inv_queue _ _ _ _ HI1) x Hx); [set_solver|by right]. }
    destruct (admit_evaluated_inv entry now e2 Hd Hf2 HI2) as (?&?&?).
    split_and!; [done| |done]. etrans; [apply (HEb (Some bucket1))|]. etrans; [|done]. evolves_fields.
  - destruct (retry_after bucket1 now) as [retry bucket2].
    destruct (_ <=? _); [split_and!; [apply with_group_bucket_inv, with_group_bucket_inv, HI1|etrans; [apply (HEb (Some bucket1))|evolves_fields]|exact I]|].
    set (e2 := with_e_group_bucket (Some bucket2) _) in *.
    assert (fresh_request r e2 ∧ inv_mid [] {[r]} e2 ∧ evolves {[r]} e e2) as (Hf2 & HI2 & HE2).
    { split_and!; [by destruct Hf as [[] ? ?]| |].
      - apply with_group_bucket_inv, HIb.
      - etrans; [apply (HEb (Some bucket1))|]. evolves_fields. }
    clearbody e2. destruct (se_bypass_queue entry); simpl.
    + split_and!; [|by etrans; [exact HE2|apply forget_evolves]|exact I].
      apply (inv_mid_weaken [] ({[r]} ∖ {[r]})); [set_solver|]. by apply forget_rate_admission_inv.
    + destruct Hf2. split_and!; [by apply (enqueue_inv bound)|etrans; [exact HE2|apply enqueue_evolves]|apply enqueue_outcome].
Qed.

End operations.
