(* ===== verification/EngineOps.v ===== *)
(** The remaining operations of the Group scheduler preserve its invariant:
    cancellation, completion, lease replacement, draining, reconfiguration and
    the observations of the control plane. *)

From S2P Require Import Prelude Machine Domain TokenBucket SchedTypes FairQueue EngineState Eligibility Engine.
From S2P Require Import EngineInv EngineGrant EngineReach.
Local Open Scope N_scope.

Section operations.
Context {uuid_v4 : N → string} {bound : N} (HU : uuid_source uuid_v4 bound).
Abbreviation inv_mid := (inv_mid uuid_v4).
Abbreviation engine_inv := (engine_inv uuid_v4).
Implicit Types e : SchedulerEngine.

(** *** Cancellation and completion *)

Lemma cancel_waiting_inv r now e :
  is_Some (e.(e_waiting) !! r) → engine_inv e →
  engine_inv (drop_ticket r Release now (forget_rate_admission r (with_e_queue (queue_remove r e.(e_queue)).2 e))).
Proof.
  intros Hw HI. pose proof (expire_waiter_inv (uuid_v4 := uuid_v4) [] ∅ now r e) as HX.
  replace (drop_ticket r Release now (forget_rate_admission r (with_e_queue (queue_remove r (e_queue e)).2 e)))
    with (expire_waiter now e r); [apply HX; [set_solver|done|done]|].
  unfold expire_waiter, drop_ticket, forget_rate_admission. simpl. by destruct (e_waiting e !! r).
Qed.

Lemma cancel_inv g r now e :
  engine_inv e → engine_inv (cancel g r now e).2 ∧ evolves ∅ e (cancel g r now e).2.
Proof.
  intros HI. unfold cancel. destruct (stale g e); [done|]. case_decide as Hw.
  { split; [by apply cancel_waiting_inv|]. simpl. etrans; [|apply drop_ticket_evolves]. evolves_fields. }
  destruct (e_request_leases e !! r) as [l|] eqn:Hl.
  - set (p := if decide (r ∈ _) then _ else _).
    assert (∃ e1, p = (Ok tt, e1) ∧ e_pending_cancels e1 = e_pending_cancels e ∧
      (e1 = e ∧ (r ∉ e_group_permits e) ∨
       e1 = record_event r GroupPermitResource "group-permit" Release now
              (with_e_group_permits (e_group_permits e ∖ {[r]}) e))) as (e1 & -> & Hpc & He1).
    { unfold p, release_group_permit. case_decide; [|eexists; split_and!; [done..|by left]].
      eexists. split_and!; [done|done|by right]. }
    cbn [fst snd]. set (p2 := match e_pending_cancels e1 !! l with Some _ => _ | None => _ end).
    assert (leases_ok uuid_v4 p2 ∧ charges_ok p2 ∧ queue_ok [] ∅ p2 ∧ requests_ok p2) as (?&?&?&?).
    { destruct HI as [[L1 L2 L3 L4 L5] [] [] [R1 R2 R3]].
      destruct (L2 r l Hl) as (record & Hrec & _).
      unfold p2. destruct He1 as [[-> Hr]| ->]; simpl.
      - destruct (e_pending_cancels e !! l) as [d|] eqn:Hd; [split_and!; split; done|].
        split_and!; [|split; done..]. split; simpl; try done.
        + intros l' d' [[<- _]|[_ Hp]]%lookup_insert_Some; [by eexists|by apply (L3 l' d')].
        + intros x l' Hx. destruct (L4 x l' Hx) as [?|?]; [by left|right]. apply lookup_insert_is_Some'. by right.
      - destruct (e_pending_cancels e !! l) as [d|] eqn:Hd.
        + split_and!; [|split; done..|split; simpl; try done; set_solver]. split; simpl; try done.
          intros x l' Hx. destruct (decide (x = r)) as [->|Hne]; [right; rewrite Hl in Hx; injection Hx as <-; by eexists|].
          destruct (L4 x l' Hx) as [?|?]; [left; set_solver|by right].
        + split_and!; [|split; done..|split; simpl; try done; set_solver]. split; simpl; try done.
          * intros l' d' [[<- _]|[_ Hp]]%lookup_insert_Some; [by eexists|by apply (L3 l' d')].
          * intros x l' Hx. rewrite lookup_insert_is_Some'.
            destruct (decide (x = r)) as [->|Hne]; [right; left; congruence|].
            destruct (L4 x l' Hx) as [?|?]; [left; set_solver|right; by right]. }
    split; [by split|]. unfold p2. destruct He1 as [[-> _]| ->]; destruct (_ !! l); evolves_fields.
  - pose proof (release_group_permit_inv [] ∅ r Release now e Hl HI) as H1.
    pose proof (release_group_permit_evolves ∅ r Release now e) as H2.
    case_decide; [|done]. by destruct (release_group_permit r Release now e) as [[u|err] e1].
Qed.

Lemma drop_pending_inv l e :
  (∀ record, e.(e_leases) !! l = Some record → record.(lr_lease).(cl_request_id) ∈ e.(e_group_permits)) →
  engine_inv e → engine_inv (with_e_pending_cancels (delete l e.(e_pending_cancels)) e).
Proof.
  intros Hp [[L1 L2 L3 L4 L5] [] [] []]. split; [|split; done..]. split; simpl; try done.
  - intros l' d [_ Hd]%lookup_delete_Some. by apply (L3 l' d).
  - intros r l' Hr. destruct (decide (l' = l)) as [->|].
    + left. destruct (L2 r l Hr) as (record & Hl & <-). by apply Hp.
    + rewrite lookup_delete_ne by done. by apply L4.
Qed.

(** Forgetting a pending cancellation and releasing its Lease is releasing it. *)
Lemma release_drop_pending g l now e :
  stale g e = false → is_Some (e.(e_leases) !! l) →
  release_lease g l now (with_e_pending_cancels (delete l e.(e_pending_cancels)) e) = release_lease g l now e.
Proof.
  intros Hs [record Hl]. unfold release_lease.
  change (stale g (with_e_pending_cancels _ e)) with (stale g e). rewrite Hs. simpl. rewrite Hl.
  unfold with_e_leases, with_e_request_leases, with_e_pending_cancels. simpl. by rewrite delete_delete_eq.
Qed.

Lemma confirm_transport_cancel_inv g r now e :
  engine_inv e →
  engine_inv (confirm_transport_cancel g r now e).2 ∧ evolves ∅ e (confirm_transport_cancel g r now e).2.
Proof.
  intros HI. unfold confirm_transport_cancel. destruct (stale g e) eqn:Hs; [done|].
  destruct (e_request_leases e !! r) as [l|] eqn:Hl; [|done].
  rewrite release_drop_pending; [|done|].
  - split; [by apply release_lease_inv|apply release_lease_evolves].
  - destruct HI as [[_ L2 _ _ _] _ _ _]. destruct (L2 r l Hl) as (record & -> & _). by eexists.
Qed.

Lemma complete_request_inv g r now e :
  (complete_request uuid_v4 g r now e).2.(e_draws) <= bound → engine_inv e →
  engine_inv (complete_request uuid_v4 g r now e).2 ∧ evolves ∅ e (complete_request uuid_v4 g r now e).2 ∧
  match (complete_request uuid_v4 g r now e).1 with
  | Ok rs => resolutions_settled rs (complete_request uuid_v4 g r now e).2
  | Err _ => True
  end.
Proof.
  intros Hd HI. unfold complete_request in *. destruct (stale g e); [by simpl; auto|]. case_decide as Hl; [done|].
  apply eq_None_not_Some in Hl.
  pose proof (release_group_permit_inv [] ∅ r Release now e Hl HI) as H1.
  pose proof (release_group_permit_evolves ∅ r Release now e) as H2.
  destruct (release_group_permit r Release now e) as [[u|err] e1]; [|done]. cbn [fst snd] in *.
  pose proof (pump_inv HU g now e1) as HP. destruct (pump uuid_v4 g now e1) as [rs e2]. cbn [fst snd] in *.
  destruct HP as (?&?&?); [done|done|]. split_and!; [done|by etrans|done].
Qed.

(** Giving a Lease of a reply back: the request keeps nothing. *)
Lemma abandon_admission_inv decision now e :
  decision_settled decision e → engine_inv e →
  engine_inv (abandon_admission decision now e) ∧ evolves ∅ e (abandon_admission decision now e).
Proof.
  intros HS HI. destruct decision as [lease|ticket|rejection|]; simpl in *; [|by apply cancel_inv|done|done].
  set (g := ei_generation (e_identity e)). set (l := cl_id lease). set (r := cl_request_id lease).
  pose proof (release_lease_inv [] ∅ g l now e HI) as H1.
  pose proof (release_lease_evolves ∅ g l now e) as H2.
  split; [|etrans; [exact H2|apply release_group_permit_evolves]].
  apply release_group_permit_inv; [|done].
  destruct (e_leases e !! l) as [record|] eqn:Hl.
  - rewrite (release_lease_eq (uuid_v4 := uuid_v4) _ _ record) by
      (done || apply HI || (unfold stale; by rewrite bool_decide_eq_false_2 by tauto)).
    simpl. apply lookup_delete_None. destruct (e_request_leases e !! r) as [l'|] eqn:Hr; [|by right]. left.
    destruct HI as [[_ L2 _ _ _] _ _ _]. destruct HS as [_ HS]. specialize (HS l' Hr). subst l'.
    destruct (L2 r _ Hr) as (record' & Hl' & Hreq). fold l in Hl'. congruence.
  - destruct (e_request_leases (release_lease g l now e).2 !! r) as [l'|] eqn:Hr; [|done].
    apply (ev_leases _ _ _ H2) in Hr; [|set_solver|apply HS].
    destruct HI as [[_ L2 _ _ _] _ _ _]. destruct HS as [_ HS]. specialize (HS l' Hr). subst l'.
    destruct (L2 r _ Hr) as (record' & Hl' & Hreq). fold l in Hl'. congruence.
Qed.

(** *** Replacement *)

(** Releasing the Lease it judged as released leaves a Credential servable. *)
Lemma can_serve_released config entry now lease rt :
  can_serve config entry now (with_rt_inflight (rt.(rt_inflight) - 1) rt) →
  can_serve config entry now (released_runtime lease rt).
Proof.
  intros []. unfold released_runtime. destruct (cl_half_open lease); split; simpl in *; try done.
  intros used Hu. destruct (cv_quota used Hu) as [?|(?&?&?&?)]; [by left|right]. done.
Qed.

(** The candidate of a retry is granted once the Lease it judged as released is
    released: [replace_lease] never gives up a Lease for nothing. *)
Lemma replace_target_grants entry target l current now e e1 id :
  engine_inv e → e.(e_leases) !! l = Some current →
  retry_candidate entry target current.(lr_lease).(cl_credential_id) now e = (Some id, e1) →
  is_ok (grant uuid_v4 entry id now false (released_state l current now e1)).1 = true.
Proof.
  intros HI Hl HE.
  destruct (retry_candidate_spec entry target (cl_credential_id (lr_lease current)) now e)
    as (m' & HE1 & HR & HC).
  { intros c rt Hc. destruct HI as [_ [C1 _ _ _] _ _]. apply (ro_bound _ _ _ (C1 c rt Hc)). }
  rewrite HE in HE1, HC. cbn [fst snd] in *. subst e1. set (e1 := with_e_credentials m' e) in *.
  destruct (HC id eq_refl) as (_ & _ & rt & Hrt & _ & Hv). specialize (HR id). rewrite Hrt in HR.
  destruct (m' !! id) as [rt'|] eqn:Hrt'; [|done]. unfold without_current in Hv.
  destruct (decide (id = cl_credential_id (lr_lease current))) as [Ht|Ht].
  - apply (grant_serving uuid_v4 bound _ _ (released_runtime (lr_lease current) rt')); [done| |].
    + simpl. rewrite <- Ht, lookup_alter_eq. simpl. by rewrite Hrt'.
    + simpl. apply can_serve_released. apply (can_serve_refilled _ _ _ (with_rt_inflight (rt_inflight rt - 1) rt)); [|exact Hv].
      destruct HR as [->| ->]; [left|right]; reflexivity.
  - apply (grant_serving uuid_v4 bound _ _ rt'); [done| |].
    + simpl. by rewrite lookup_alter_ne.
    + by apply (can_serve_refilled _ _ _ rt).
Qed.

(** What [replace_lease] does, by cases. *)
Inductive replaced (request : RetryLeaseRequest) (now : Duration) (e : SchedulerEngine) :
    result SchedulerError RetryLeaseDecision → SchedulerEngine → Prop :=
  | replaced_stale : replaced request now e (Ok RetryStaleIgnored) e
  | replaced_error err : replaced request now e (Err err) e
  | replaced_none m : refilled_pool now e.(e_credentials) m →
      replaced request now e (Ok NoCandidate) (with_e_credentials m e)
  | replaced_granted m current target lease e' :
      let entry := request.(rlr_entry) in
      let l := request.(rlr_current_lease_id) in
      e.(e_leases) !! l = Some current → current.(lr_lease).(cl_request_id) = entry.(se_request_id) →
      e.(e_request_leases) !! entry.(se_request_id) = Some l → entry.(se_request_id) ∈ e.(e_group_permits) →
      refilled_pool now e.(e_credentials) m →
      grant uuid_v4 entry target now false (released_state l current now (with_e_credentials m e)) = (Ok lease, e') →
      replaced request now e (Ok (RetryGranted lease)) e'.

Lemma replace_lease_cases g request now e :
  engine_inv e →
  replaced request now e (replace_lease uuid_v4 g request now e).1 (replace_lease uuid_v4 g request now e).2.
Proof.
  intros HI. unfold replace_lease. destruct (stale g e) eqn:Hs; [constructor|]. case_decide; [constructor|].
  set (l := rlr_current_lease_id request). destruct (e_leases e !! l) as [current|] eqn:Hl; [|constructor].
  case_decide as Hchk; [constructor|]. set (r := se_request_id (rlr_entry request)) in *.
  assert (cl_request_id (lr_lease current) = r ∧ e_request_leases e !! r = Some l ∧ r ∈ e_group_permits e) as (Hreq & Hrl & Hperm).
  { split_and!; apply dec_stable; tauto. }
  pose proof (replace_target_grants (rlr_entry request) (rlr_target request) l current now e) as HT.
  destruct (retry_candidate_spec (rlr_entry request) (rlr_target request) (cl_credential_id (lr_lease current)) now e)
    as (m' & HE & HR & _).
  { intros id rt Hid. destruct HI as [_ [C1 _ _ _] _ _]. apply (ro_bound _ _ _ (C1 id rt Hid)). }
  pose proof (with_credentials_inv [] ∅ m' e (refilled_pool_frame _ _ _ HR) HI) as HI1.
  destruct (retry_candidate _ _ _ now e) as [[target|] e1]; cbn [fst snd] in *; subst e1; [|by constructor].
  rewrite (release_lease_eq (uuid_v4 := uuid_v4) g l current now) by (done || apply HI1).
  specialize (HT _ target HI Hl eq_refl).
  destruct (grant _ _ target now false _) as [[lease|err] e3] eqn:HG; [|done]. simpl.
  by apply (replaced_granted request now e m' current target).
Qed.

Lemma replace_lease_inv g request now e :
  let r := request.(rlr_entry).(se_request_id) in
  (replace_lease uuid_v4 g request now e).2.(e_draws) <= bound → engine_inv e →
  engine_inv (replace_lease uuid_v4 g request now e).2 ∧
  evolves {[r]} e (replace_lease uuid_v4 g request now e).2 ∧
  match (replace_lease uuid_v4 g request now e).1 with
  | Ok (RetryGranted lease) => settled lease (replace_lease uuid_v4 g request now e).2 ∧ lease.(cl_request_id) = r
  | _ => True
  end.
Proof.
  intros r Hd HI. pose proof (replace_lease_cases g request now e HI) as HC.
  destruct HC as [|err|m HR|m current target lease e' entry l Hl Hreq Hrl Hperm HR HG]; [done|done| |].
  { split_and!; [|evolves_fields|done]. apply with_credentials_inv; [by apply (refilled_pool_frame now)|done]. }
  pose proof (with_credentials_inv [] ∅ m e (refilled_pool_frame _ _ _ HR) HI) as HI1.
  set (e1 := with_e_credentials m e) in *. set (e2 := released_state l current now e1) in *.
  assert (engine_inv e2) as HI2 by by apply released_state_inv.
  assert (evolves {[r]} e e2) as HE2 by (etrans; [|apply released_state_evolves]; evolves_fields).
  assert (r ∈ e_seen_requests e ∧ e_waiting e !! r = None) as [Hseen Hw].
  { destruct HI as [_ _ _ [R1 _ _]]. by apply R1. }
  pose proof (grant_inv (uuid_v4 := uuid_v4) bound [] ∅ entry target now false e2) as HGI.
  pose proof (grant_evolves uuid_v4 entry target now false e2) as HE3.
  destruct (grant_settled _ _ _ _ _ _ _ _ HG) as (? & ? & _); [done|].
  rewrite HG in HGI, HE3. cbn [fst snd] in *.
  destruct HGI as [HGI _]; try done; [|by right|].
  { split; simpl; [done|]. rewrite <- Hreq. apply lookup_delete_eq. }
  split_and!; [done|by etrans|done|done].
Qed.

(** *** Draining and reconfiguration *)

(** Everything the queue held, out of the queue. *)
Lemma drain_inv e :
  engine_inv e → inv_mid (queue_drain e.(e_queue)).1 ∅ (with_e_queue (queue_drain e.(e_queue)).2 e).
Proof using Type.
  clear HU bound.
  intros [[] [] [Q1 Q2 Q3 Q4 Q5 Q6] []]. destruct (queue_drain_spec (e_queue e) Q1) as (Hwf & Hnil & HP & _).
  destruct (queue_drain (e_queue e)) as [entries q']. cbn [fst snd] in *.
  assert (queue_contents q' ++ entries ≡ₚ queue_contents (e_queue e) ++ []) as HE by (by rewrite Hnil, app_nil_r, HP).
  split; [split; done..| |split; done]. split; simpl; try done.
  - by rewrite HE.
  - intros x. by rewrite HE.
  - intros en w. rewrite HE. apply Q5.
Qed.

Lemma reject_queued_inv retry entry held now e :
  inv_mid (entry :: held) ∅ e →
  inv_mid held ∅ (reject_queued retry now entry e).2 ∧ evolves ∅ e (reject_queued retry now entry e).2.
Proof using Type.
  clear HU bound.
  intros HI. unfold reject_queued. simpl. split.
  - apply (inv_mid_weaken held ({[se_request_id entry]} ∖ {[se_request_id entry]})); [set_solver|].
    by apply forget_rate_admission_inv, drop_held_ticket_inv.
  - etrans; [apply drop_ticket_evolves|apply forget_evolves].
Qed.

Lemma disable_loop_inv entries now e :
  inv_mid entries ∅ e →
  engine_inv (disable_loop entries now e).2 ∧ evolves ∅ e (disable_loop entries now e).2.
Proof.
  revert e. induction entries as [|entry entries IH]; intros e HI; [done|]. cbn [disable_loop].
  destruct (reject_queued_inv None entry entries now e HI) as [H1 H2].
  destruct (reject_queued None now entry e) as [res e1]. cbn [fst snd] in *.
  destruct (IH e1 H1) as [H3 H4]. destruct (disable_loop entries now e1) as [rs e2]. cbn [fst snd] in *.
  split; [done|]. etrans; [exact H2|exact H4].
Qed.

Lemma disable_inv g now e :
  engine_inv e → engine_inv (disable g now e).2 ∧ evolves ∅ e (disable g now e).2.
Proof.
  intros HI. unfold disable. destruct (stale g e); [done|].
  pose proof (drain_inv (with_e_lifecycle Draining e) (with_lifecycle_inv _ _ _ _ HI)) as H1. simpl in H1.
  simpl. destruct (queue_drain (e_queue e)) as [entries q']. cbn [fst snd] in *.
  destruct (disable_loop_inv entries now _ H1) as [H2 H3]. split; [done|].
  etrans; [|exact H3]. evolves_fields.
Qed.

Lemma requeue_held_inv entry held e :
  inv_mid (entry :: held) ∅ e → inv_mid held ∅ (with_e_queue (queue_push entry e.(e_queue)) e).
Proof using Type.
  clear HU bound.
  intros [[] [] [Q1 Q2 Q3 Q4 Q5 Q6] []]. destruct (queue_push_spec entry (e_queue e) Q1) as [Hwf HP].
  assert (queue_contents (queue_push entry (e_queue e)) ++ held ≡ₚ queue_contents (e_queue e) ++ entry :: held) as HE.
  { by rewrite HP, <- Permutation_middle. }
  split; [split; done..| |split; done]. split; simpl; try done.
  - by rewrite HE.
  - intros x. by rewrite HE.
  - intros en w. rewrite HE. apply Q5.
Qed.

Lemma reconfigure_loop_inv entries version now e :
  inv_mid entries ∅ e →
  engine_inv (reconfigure_loop entries version now e).2 ∧ evolves ∅ e (reconfigure_loop entries version now e).2 ∧
  resolutions_settled (reconfigure_loop entries version now e).1 (reconfigure_loop entries version now e).2.
Proof.
  revert e. induction entries as [|entry entries IH]; intros e HI; [done|]. cbn [reconfigure_loop]. case_decide.
  - destruct (IH _ (requeue_held_inv entry entries e HI)) as (H1 & H2 & H3). split_and!; [done| |done].
    etrans; [|exact H2]. evolves_fields.
  - destruct (reject_queued_inv (Some (from_secs 1)) entry entries now e HI) as [H1 H2].
    unfold reject_queued in *. set (e1 := forget_rate_admission _ _) in *. cbn [fst snd] in *.
    destruct (IH e1 H1) as (H3 & H4 & H5). destruct (reconfigure_loop entries version now e1) as [rs e2].
    cbn [fst snd] in *. split_and!; [done|etrans; [exact H2|exact H4]|].
    intros x [->|Hx]%elem_of_cons; [exact I|by apply H5].
Qed.

Lemma reconfigure_inv g config now e :
  engine_inv e →
  engine_inv (reconfigure g config now e).2 ∧ evolves ∅ e (reconfigure g config now e).2 ∧
  match (reconfigure g config now e).1 with
  | Ok rs => resolutions_settled rs (reconfigure g config now e).2
  | Err _ => True
  end.
Proof.
  intros HI. unfold reconfigure. destruct (stale g e); [by simpl; auto|].
  destruct (group_config_invalid config); [done|]. destruct (queue_bound_invalid _ _); [done|].
  pose proof (drain_inv e HI) as H1. destruct (queue_drain (e_queue e)) as [entries q']. cbn [fst snd] in *.
  destruct (reconfigure_loop_inv entries (gc_snapshot_version config) now _ H1) as (H2 & H3 & H4).
  destruct (reconfigure_loop _ _ _ _) as [rs e1]. cbn [fst snd] in *.
  assert (evolves ∅ e (prune now (with_e_config config
    (with_e_group_bucket ((λ rate, bucket_full rate now) <$> gc_rate_limit config) e1)))) as HE.
  { etrans; [|apply prune_evolves]. etrans; [|etrans; [exact H3|]]; evolves_fields. }
  split_and!; [by apply prune_inv, with_config_inv, with_group_bucket_inv|exact HE|].
  apply (resolutions_settled_evolves _ e1); [|done]. etrans; [|apply prune_evolves]. evolves_fields.
Qed.

(** The typed part of a Credential projection: the limit is a [u32]. *)
Definition credential_typed (config : CredentialConfig) : Prop := config.(cc_concurrency_limit) <= U32_MAX.

Lemma drop_continuity_inv c e : engine_inv e → engine_inv (drop_continuity c e).
Proof.
  intros HI. unfold drop_continuity. set (e1 := with_e_affinities _ e).
  assert (engine_inv e1) as HI1 by by apply with_affinities_inv.
  change (e_session_claims (with_e_affinities _ e)) with (e_session_claims e1). clearbody e1.
  destruct HI1 as [[] HC [] []]. split; [split; done| |split; done..].
  by apply (charges_ok_drop_claims (λ key _, negb (bool_decide (key.1.1 = c)))).
Qed.

(** A Credential that no Lease uses yet. *)
Lemma insert_credential_inv config now e :
  credential_typed config → e.(e_credentials) !! config.(cc_id) = None → engine_inv e →
  engine_inv (with_e_credentials (<[config.(cc_id) := fresh_runtime config now]> e.(e_credentials)) e).
Proof.
  intros Hty Hnone [[] [C1 C2 C3 C4] [] []]. split; [split; done| |split; done..]. split; simpl; [| |done..].
  - intros c rt [[<- <-]|[_ Hc]]%lookup_insert_Some; [|by apply C1]. split; simpl; [done|done| |lia].
    symmetry. apply count_values_none. intros l record Hl Ho. unfold owned_by in Ho.
    destruct (C2 l record Hl) as [? Hs]. rewrite Ho in Hs. congruence.
  - intros l record Hl. rewrite lookup_insert_is_Some'. right. by apply (C2 l).
Qed.

Lemma reconfigure_credential_inv g config now e :
  credential_typed config → engine_inv e →
  engine_inv (reconfigure_credential g config now e).2 ∧ evolves ∅ e (reconfigure_credential g config now e).2.
Proof.
  intros Hty HI. unfold reconfigure_credential. destruct (stale g e); [done|]. destruct (_ || _); [done|].
  destruct (e_credentials e !! cc_id config) as [rt|] eqn:Hc.
  2:{ split; [by apply insert_credential_inv|evolves_fields]. }
  destruct (_ || _); [done|].
  assert (cc_id (rt_config rt) = cc_id config) as Hid by (destruct HI as [_ [C1 _ _ _] _ _]; apply (C1 _ _ Hc)).
  assert (∀ rt', runtime_frame rt rt' →
    engine_inv (with_e_credentials (<[cc_id config := rt']> (e_credentials e)) e)) as HF.
  { intros rt' Hf. apply with_credentials_inv; [|done]. by apply (credentials_frame_insert _ _ rt). }
  destruct (_ <? _).
  - set (rt' := with_rt_config config _). assert (runtime_frame rt rt') as Hf by (split_and!; done).
    specialize (HF rt' Hf). destruct (device_changed _ _); cbn [fst snd].
    + split; [by apply drop_continuity_inv|]. evolves_fields.
    + split; [done|evolves_fields].
  - split; [|evolves_fields]. apply HF. by split_and!.
Qed.

(** *** Observations and administration *)

Lemma set_state_frame f x : runtime_frame x (set_state f x).
Proof. by split_and!. Qed.

Lemma update_runtime_inv c f e :
  (∀ x, runtime_frame x (f x)) → engine_inv e →
  engine_inv (update_runtime c f e) ∧ evolves ∅ e (update_runtime c f e).
Proof.
  intros Hf HI. split; [|evolves_fields]. apply with_credentials_inv; [by apply credentials_frame_alter|done].
Qed.

Lemma record_half_open_result_inv g c ok now e :
  engine_inv e →
  engine_inv (record_half_open_result g c ok now e) ∧ evolves ∅ e (record_half_open_result g c ok now e).
Proof.
  intros HI. unfold record_half_open_result. destruct (stale g e); [done|].
  apply update_runtime_inv; [|done]. intros x. by destruct ok.
Qed.

Lemma observe_credential_cooldown_inv g update e :
  engine_inv e →
  engine_inv (observe_credential_cooldown g update e).2 ∧ evolves ∅ e (observe_credential_cooldown g update e).2.
Proof.
  intros HI. unfold observe_credential_cooldown. destruct (stale g e); [done|]. destruct (_ !! _); [|done].
  by apply update_runtime_inv.
Qed.

Lemma observe_credential_auth_inv g update e :
  engine_inv e →
  engine_inv (observe_credential_auth g update e).2 ∧ evolves ∅ e (observe_credential_auth g update e).2.
Proof.
  intros HI. unfold observe_credential_auth. destruct (_ || _); [done|]. destruct (_ !! _); [|done].
  destruct (_ <? _); [done|]. by apply update_runtime_inv.
Qed.

Lemma observe_credential_quota_inv g update e :
  engine_inv e →
  engine_inv (observe_credential_quota g update e).2 ∧ evolves ∅ e (observe_credential_quota g update e).2.
Proof.
  intros HI. unfold observe_credential_quota. destruct (_ || _); [done|]. destruct (_ !! _); [|done].
  destruct (is_some_and _ _); [done|]. by apply update_runtime_inv.
Qed.

Lemma set_credential_fence_inv g c fenced e :
  engine_inv e →
  engine_inv (set_credential_fence g c fenced e).2 ∧ evolves ∅ e (set_credential_fence g c fenced e).2.
Proof.
  intros HI. unfold set_credential_fence. destruct (stale g e); [done|]. destruct (_ !! _); [|done].
  by apply update_runtime_inv.
Qed.

Lemma remove_fenced_credential_inv g c e :
  engine_inv e →
  engine_inv (remove_fenced_credential g c e).2 ∧ evolves ∅ e (remove_fenced_credential g c e).2.
Proof.
  intros HI. unfold remove_fenced_credential. destruct (stale g e); [done|].
  destruct (e_credentials e !! c) as [rt|] eqn:Hc; [|done]. destruct (negb (rt_admin_fenced rt)); [done|].
  destruct (N.eqb_spec (rt_inflight rt) 0) as [H0|]; [|done]. simpl. split; [|evolves_fields].
  apply drop_continuity_inv. destruct HI as [[] [C1 C2 C3 C4] [] []]. split; [split; done| |split; done..].
  split; simpl; [| |done..].
  - intros c' rt' [_ Hc']%lookup_delete_Some. by apply C1.
  - intros l record Hl. rewrite lookup_delete_ne; [by apply (C2 l)|]. intros Hcl.
    pose proof (ro_inflight _ _ _ (C1 c rt Hc)) as Hi.
    pose proof (count_values_pos (owned_by c) _ l record Hl (eq_sym Hcl)). lia.
Qed.

Lemma record_success_inv key c now e :
  engine_inv e → engine_inv (record_success key c now e) ∧ evolves ∅ e (record_success key c now e).
Proof.
  intros HI. unfold record_success. destruct (_ !! _) as [entry|].
  2:{ split; [by apply with_affinities_inv|evolves_fields]. }
  case_decide; [split; [by apply with_affinities_inv|evolves_fields]|].
  destruct (_ <=? _); (split; [by apply with_affinities_inv|evolves_fields]).
Qed.

Lemma engine_new_inv identity config credentials now e :
  Forall credential_typed credentials → engine_new identity config credentials now = Ok e → engine_inv e.
Proof.
  intros Hty. unfold engine_new.
  assert (∀ runtimes m, (∀ c rt, runtimes !! c = Some rt → runtime_ok ∅ c rt) →
    build_runtimes credentials now runtimes = Ok m → ∀ c rt, m !! c = Some rt → runtime_ok ∅ c rt) as HB.
  { induction Hty as [|credential credentials Hc Hty IH]; simpl; intros runtimes m HR; [by intros [= <-]|].
    destruct (credential_config_invalid credential); [done|].
    destruct (runtimes !! cc_id credential) eqn:Hn; [done|]. apply IH.
    intros c rt [[<- <-]|[_ Hin]]%lookup_insert_Some; [|by apply HR]. split; simpl; [done|done| |lia].
    by rewrite count_values_empty. }
  destruct (build_runtimes credentials now ∅) as [m|] eqn:Hm; [|done].
  destruct (group_config_invalid config); [done|]. destruct (queue_bound_invalid _ _); [done|]. intros [= <-].
  split; split; simpl; try (by intros *; rewrite lookup_empty); try set_solver.
  - intros c rt Hrt. apply (HB ∅ m); [by intros *; rewrite lookup_empty|done|done].
  - apply queue_default_wf.
  - apply NoDup_nil_2.
  - intros r. rewrite lookup_empty. split; [by intros []|]. unfold entry_ids; simpl; set_solver.
Qed.

End operations.
