(* ===== verification/Actor.v ===== *)
(** The Group actor of [crates/gateway-scheduler/src/actor.rs]: the commands of
    its mailbox, what it does with a reply that nobody receives, and the states
    it can reach.

    The mailbox delivers commands one at a time, so a history is the sequence of
    commands in the order the actor took them. The channel of a reply is an
    input of the step: whether the receiver was already gone when the command
    was taken ([is_closed]) and whether the reply was received ([send]). *)

From S2P Require Import Prelude Machine Domain TokenBucket SchedTypes FairQueue EngineState Eligibility Engine.
From S2P Require Import EngineInv EngineGrant EngineReach EngineOps.
Local Open Scope N_scope.

Record ReplyPort := { rp_closed : bool; rp_received : bool }.

Inductive GroupCommand :=
  | CmdAdmit (generation : OwnerGeneration) (entry : ScheduleEntry) (now : Duration) (reply : ReplyPort)
  | CmdCancel (generation : OwnerGeneration) (request_id : RequestId) (now : Duration)
  | CmdReleaseLease (generation : OwnerGeneration) (lease_id : LeaseId) (now : Duration) (reply : ReplyPort)
  | CmdReplaceLease (generation : OwnerGeneration) (request : RetryLeaseRequest) (now : Duration) (reply : ReplyPort)
  | CmdObserveCredentialCooldown (generation : OwnerGeneration) (update : CredentialCooldownUpdate)
      (now : Duration) (reply : ReplyPort)
  | CmdObserveCredentialAuth (generation : OwnerGeneration) (update : CredentialAuthUpdate)
      (now : Duration) (reply : ReplyPort)
  | CmdObserveCredentialQuota (generation : OwnerGeneration) (update : CredentialQuotaUpdate)
      (now : Duration) (reply : ReplyPort)
  | CmdSetCredentialFence (generation : OwnerGeneration) (credential_id : CredentialId) (fenced : bool)
      (now : Duration) (reply : ReplyPort)
  | CmdRemoveFencedCredential (generation : OwnerGeneration) (credential_id : CredentialId)
      (now : Duration) (reply : ReplyPort)
  | CmdReconfigureGroup (generation : OwnerGeneration) (config : GroupConfig) (now : Duration) (reply : ReplyPort)
  | CmdReconfigureCredential (generation : OwnerGeneration) (config : CredentialConfig)
      (now : Duration) (reply : ReplyPort)
  | CmdConfirmTransportCancel (generation : OwnerGeneration) (request_id : RequestId) (now : Duration)
  | CmdCompleteRequest (generation : OwnerGeneration) (request_id : RequestId) (now : Duration) (reply : ReplyPort)
  | CmdTick (generation : OwnerGeneration) (now : Duration) (reply : ReplyPort)
  | CmdBeginDrain (generation : OwnerGeneration) (now : Duration)
  | CmdSnapshot
  | CmdResourceEvents
  | CmdAcknowledgeResourceEvents (through_sequence : N).

(** What a command sends on its reply channel. *)
Inductive ActorReply :=
  | ReplyAdmission (r : result SchedulerError AdmissionDecision)
  | ReplyRelease (r : result SchedulerError (LeaseRelease * list QueueResolution))
  | ReplyReplace (r : result SchedulerError RetryLeaseDecision)
  | ReplyObserved (applied : bool) (resolutions : list QueueResolution)
  | ReplyFence (r : CredentialFenceResult) (resolutions : list QueueResolution)
  | ReplyRemove (r : CredentialRemoveResult) (resolutions : list QueueResolution)
  | ReplyReconfigured (r : result SchedulerError (list QueueResolution))
  | ReplyCredential (r : result SchedulerError (bool * list QueueResolution))
  | ReplyConfirm (r : result SchedulerError LeaseRelease)
  | ReplyCompleted (r : result SchedulerError (list QueueResolution))
  | ReplyResolutions (resolutions : list QueueResolution)
  | ReplySnapshot (s : SchedulerSnapshot)
  | ReplyEvents (events : list ResourceEvent)
  | ReplyDone.

Definition abandon_resolutions (resolutions : list QueueResolution) (now : Duration) (engine : SchedulerEngine)
    : SchedulerEngine :=
  foldl (λ engine resolution, abandon_admission resolution.(qr_decision) now engine) engine resolutions.

(** [if let Err(..) = reply.send(..) { abandon_resolutions(..) }]. *)
Definition send_resolutions (reply : ReplyPort) (resolutions : list QueueResolution) (now : Duration)
    (engine : SchedulerEngine) : SchedulerEngine :=
  if reply.(rp_received) then engine else abandon_resolutions resolutions now engine.

Section with_uuid.
Variable uuid_v4 : N → string.

Definition handle_admit (generation : OwnerGeneration) (entry : ScheduleEntry) (now : Duration) (reply : ReplyPort)
    (engine : SchedulerEngine) : option ActorReply * SchedulerEngine :=
  if reply.(rp_closed) then (None, engine)
  else
    let '(r, engine) := admit_request uuid_v4 generation entry now engine in
    (Some (ReplyAdmission r),
     match reply.(rp_received), r with
     | false, Ok decision => abandon_admission decision now engine
     | _, _ => engine
     end).

(** [handle_observe_auth], [handle_observe_cooldown] and [handle_observe_quota]. *)
Definition handle_observe (observed : bool * SchedulerEngine) (generation : OwnerGeneration) (now : Duration)
    (reply : ReplyPort) : option ActorReply * SchedulerEngine :=
  let '(applied, engine) := observed in
  let '(resolutions, engine) := if applied then pump uuid_v4 generation now engine else ([], engine) in
  (Some (ReplyObserved applied resolutions), send_resolutions reply resolutions now engine).

Definition handle_release (generation : OwnerGeneration) (lease_id : LeaseId) (now : Duration) (reply : ReplyPort)
    (engine : SchedulerEngine) : option ActorReply * SchedulerEngine :=
  match release_lease generation lease_id now engine with
  | (Err e, engine) => (Some (ReplyRelease (Err e)), engine)
  | (Ok released, engine) =>
      let '(resolutions, engine) := pump uuid_v4 generation now engine in
      (Some (ReplyRelease (Ok (released, resolutions))), send_resolutions reply resolutions now engine)
  end.

Definition handle_replace (generation : OwnerGeneration) (request : RetryLeaseRequest) (now : Duration)
    (reply : ReplyPort) (engine : SchedulerEngine) : option ActorReply * SchedulerEngine :=
  let '(r, engine) := replace_lease uuid_v4 generation request now engine in
  (Some (ReplyReplace r),
   match reply.(rp_received), r with
   | false, Ok (RetryGranted lease) =>
       let engine := (release_lease generation lease.(cl_id) now engine).2 in
       match complete_request uuid_v4 generation lease.(cl_request_id) now engine with
       | (Ok resolutions, engine) => abandon_resolutions resolutions now engine
       | (Err _, engine) => engine
       end
   | _, _ => engine
   end).

Definition actor_step (command : GroupCommand) (engine : SchedulerEngine) : option ActorReply * SchedulerEngine :=
  match command with
  | CmdAdmit generation entry now reply => handle_admit generation entry now reply engine
  | CmdCancel generation request_id now =>
      let '(r, engine) := cancel generation request_id now engine in (Some (ReplyAdmission r), engine)
  | CmdReleaseLease generation lease_id now reply => handle_release generation lease_id now reply engine
  | CmdReplaceLease generation request now reply => handle_replace generation request now reply engine
  | CmdObserveCredentialCooldown generation update now reply =>
      handle_observe (observe_credential_cooldown generation update engine) generation now reply
  | CmdObserveCredentialAuth generation update now reply =>
      handle_observe (observe_credential_auth generation update engine) generation now reply
  | CmdObserveCredentialQuota generation update now reply =>
      handle_observe (observe_credential_quota generation update engine) generation now reply
  | CmdSetCredentialFence generation credential_id fenced now reply =>
      let '(r, engine) := set_credential_fence generation credential_id fenced engine in
      let '(resolutions, engine) := pump uuid_v4 generation now engine in
      (Some (ReplyFence r resolutions), send_resolutions reply resolutions now engine)
  | CmdRemoveFencedCredential generation credential_id now reply =>
      let '(r, engine) := remove_fenced_credential generation credential_id engine in
      let '(resolutions, engine) := pump uuid_v4 generation now engine in
      (Some (ReplyRemove r resolutions), send_resolutions reply resolutions now engine)
  | CmdReconfigureGroup generation config now reply =>
      match reconfigure generation config now engine with
      | (Err e, engine) => (Some (ReplyReconfigured (Err e)), engine)
      | (Ok rejections, engine) =>
          let '(resolutions, engine) := pump uuid_v4 generation now engine in
          (Some (ReplyReconfigured (Ok (rejections ++ resolutions))),
           send_resolutions reply (rejections ++ resolutions) now engine)
      end
  | CmdReconfigureCredential generation config now reply =>
      match reconfigure_credential generation config now engine with
      | (Err e, engine) => (Some (ReplyCredential (Err e)), engine)
      | (Ok applied, engine) =>
          let '(resolutions, engine) := pump uuid_v4 generation now engine in
          (Some (ReplyCredential (Ok (applied, resolutions))), send_resolutions reply resolutions now engine)
      end
  | CmdConfirmTransportCancel generation request_id now =>
      let '(r, engine) := confirm_transport_cancel generation request_id now engine in (Some (ReplyConfirm r), engine)
  | CmdCompleteRequest generation request_id now reply =>
      match complete_request uuid_v4 generation request_id now engine with
      | (Err e, engine) => (Some (ReplyCompleted (Err e)), engine)
      | (Ok resolutions, engine) =>
          (Some (ReplyCompleted (Ok resolutions)), send_resolutions reply resolutions now engine)
      end
  | CmdTick generation now reply =>
      if reply.(rp_closed) then (None, engine)
      else
        let '(resolutions, engine) := pump uuid_v4 generation now engine in
        (Some (ReplyResolutions resolutions), send_resolutions reply resolutions now engine)
  | CmdBeginDrain generation now =>
      let '(resolutions, engine) := disable generation now engine in (Some (ReplyResolutions resolutions), engine)
  | CmdSnapshot => (Some (ReplySnapshot (snapshot engine)), engine)
  | CmdResourceEvents => (Some (ReplyEvents (resource_events engine)), engine)
  | CmdAcknowledgeResourceEvents through_sequence =>
      (Some ReplyDone, acknowledge_resource_events through_sequence engine)
  end.

(** The loop of [GroupExecutor::spawn] over the commands it receives. *)
Definition actor_run (commands : list GroupCommand) (engine : SchedulerEngine) : SchedulerEngine :=
  foldl (λ engine command, (actor_step command engine).2) engine commands.

(** A Credential projection carries a [u32] limit. *)
Definition command_typed (command : GroupCommand) : Prop :=
  match command with CmdReconfigureCredential _ config _ _ => credential_typed config | _ => True end.

(** The states of a Group owner: built by [new], changed by the mailbox and by
    the engine operations that have no command. *)
Inductive reachable : SchedulerEngine → Prop :=
  | reachable_new identity config credentials now e :
      Forall credential_typed credentials → engine_new identity config credentials now = Ok e → reachable e
  | reachable_step command e :
      reachable e → command_typed command → reachable (actor_step command e).2
  | reachable_success key credential_id now e :
      reachable e → reachable (record_success key credential_id now e)
  | reachable_half_open generation credential_id succeeded now e :
      reachable e → reachable (record_half_open_result generation credential_id succeeded now e)
  | reachable_take_events e :
      reachable e → reachable (take_resource_events e).2.

End with_uuid.

(** ** Lemmas: identifiers drawn *)

Lemma cancel_draws g r now e : (cancel g r now e).2.(e_draws) = e.(e_draws).
Proof.
  unfold cancel, release_group_permit, drop_ticket.
  repeat first [done | case_decide | case_match]; simplify_eq/=; try done; by repeat case_match; simplify_eq/=.
Qed.

Lemma release_lease_draws g l now e : e.(e_draws) <= (release_lease g l now e).2.(e_draws).
Proof. apply (ev_draws ∅), release_lease_evolves. Qed.

Lemma abandon_admission_draws d now e : e.(e_draws) <= (abandon_admission d now e).(e_draws).
Proof.
  destruct d; simpl; try lia; [|rewrite cancel_draws; lia].
  etrans; [apply release_lease_draws|]. apply (ev_draws ∅), release_group_permit_evolves.
Qed.

Lemma abandon_resolutions_draws rs now e : e.(e_draws) <= (abandon_resolutions rs now e).(e_draws).
Proof.
  revert e. induction rs as [|r rs IH]; intros e; simpl; [lia|]. etrans; [|apply IH]. apply abandon_admission_draws.
Qed.

Lemma send_resolutions_draws reply rs now e : e.(e_draws) <= (send_resolutions reply rs now e).(e_draws).
Proof. unfold send_resolutions. destruct (rp_received reply); [lia|apply abandon_resolutions_draws]. Qed.

Lemma evaluate_pool_draws entry now e : (evaluate_pool entry now e).2.(e_draws) = e.(e_draws).
Proof. unfold evaluate_pool. by destruct (evaluate_pool_fields _ _ _ _ _ _). Qed.

Lemma retry_candidate_draws entry target current now e :
  (retry_candidate entry target current now e).2.(e_draws) = e.(e_draws).
Proof.
  unfold retry_candidate. destruct (match pinned_credential entry with Some _ => _ | None => _ end); [done|].
  destruct (retry_scan _ _ _ _ _ _ _ _ _) as [[cands|] m]; [|done]. by destruct (list_min _).
Qed.

Section draws.
Context (uuid_v4 : N → string).

Lemma enqueue_draws entry now slot e : e.(e_draws) <= (enqueue uuid_v4 entry now slot e).2.(e_draws).
Proof. apply (ev_draws _ _ _ (enqueue_evolves uuid_v4 entry now slot e)). Qed.

Lemma grant_draws entry c now acquire e : e.(e_draws) <= (grant uuid_v4 entry c now acquire e).2.(e_draws).
Proof. apply (ev_draws _ _ _ (grant_evolves uuid_v4 entry c now acquire e)). Qed.

Lemma admit_or_queue_draws entry ev now e : e.(e_draws) <= (admit_or_queue uuid_v4 entry ev now e).2.(e_draws).
Proof. unfold admit_or_queue. destruct (se_bypass_queue entry); [simpl; lia|apply enqueue_draws]. Qed.

Lemma admit_evaluated_draws entry now e : e.(e_draws) <= (admit_evaluated uuid_v4 entry now e).2.(e_draws).
Proof.
  unfold admit_evaluated. pose proof (evaluate_pool_draws entry now e) as HE.
  destruct (evaluate_pool entry now e) as [ev e1]. cbn [fst snd] in HE. rewrite <- HE.
  pose proof (λ ev, admit_or_queue_draws entry ev now e1) as HQ.
  pose proof (λ c, grant_draws entry c now true e1) as HG.
  destruct (_ && _).
  - destruct ev as [c| | |retry|]; try apply HQ; [|destruct (_ <=? _); [simpl; lia|apply HQ]|simpl; lia].
    specialize (HG c). by destruct (grant uuid_v4 entry c now true e1) as [[] ?].
  - destruct ev; try apply HQ. simpl. lia.
Qed.

Lemma admit_draws g entry now e : e.(e_draws) <= (admit_request uuid_v4 g entry now e).2.(e_draws).
Proof.
  unfold admit_request. destruct (stale g e); [simpl; lia|]. do 4 (case_decide; [simpl; lia|]).
  destruct (_ <=? now); [simpl; lia|]. set (e0 := with_e_request_portability _ _).
  pose proof (ev_draws _ _ _ (prune_evolves ∅ now e0)) as HP. set (e1 := prune now e0) in *. clearbody e1.
  change (e_draws e0) with (e_draws e) in HP.
  destruct (e_group_bucket e1) as [bucket|]; [|etrans; [exact HP|apply admit_evaluated_draws]].
  destruct (try_consume bucket now) as [[] bucket1]; cbn [negb].
  - etrans; [exact HP|]. etrans; [|apply admit_evaluated_draws]. simpl. lia.
  - destruct (retry_after bucket1 now) as [retry bucket2]. destruct (_ <=? _); [exact HP|].
    destruct (se_bypass_queue entry); [exact HP|]. etrans; [exact HP|]. etrans; [|apply enqueue_draws]. simpl. lia.
Qed.

Lemma replace_lease_draws g request now e : e.(e_draws) <= (replace_lease uuid_v4 g request now e).2.(e_draws).
Proof.
  unfold replace_lease. destruct (stale g e); [simpl; lia|]. case_decide; [simpl; lia|].
  destruct (_ !! _) as [current|]; [|simpl; lia]. case_decide; [simpl; lia|].
  pose proof (retry_candidate_draws (rlr_entry request) (rlr_target request) (cl_credential_id (lr_lease current)) now e) as HR.
  destruct (retry_candidate _ _ _ _ _) as [[target|] e1]; cbn [fst snd] in *; [|lia].
  pose proof (release_lease_draws g (rlr_current_lease_id request) now e1) as HL.
  destruct (release_lease _ _ _ e1) as [[|] e2]; cbn [fst snd] in *; [|lia].
  pose proof (grant_draws (rlr_entry request) target now false e2) as HG.
  destruct (grant _ _ _ _ _ e2) as [[|] e3]; cbn [fst snd] in *; lia.
Qed.

Lemma complete_request_draws g r now e : e.(e_draws) <= (complete_request uuid_v4 g r now e).2.(e_draws).
Proof.
  unfold complete_request. destruct (stale g e); [simpl; lia|]. case_decide; [simpl; lia|].
  pose proof (ev_draws _ _ _ (release_group_permit_evolves ∅ r Release now e)) as H1.
  destruct (release_group_permit r Release now e) as [[|] e1]; cbn [fst snd] in *; [|lia].
  pose proof (pump_draws (uuid_v4 := uuid_v4) g now e1) as H2. destruct (pump uuid_v4 g now e1) as [rs e2].
  cbn [fst snd] in *. lia.
Qed.

Lemma reject_queued_draws retry now entry e : e.(e_draws) <= (reject_queued retry now entry e).2.(e_draws).
Proof. unfold reject_queued. simpl. apply (ev_draws ∅), drop_ticket_evolves. Qed.

Lemma disable_draws g now e : e.(e_draws) <= (disable g now e).2.(e_draws).
Proof.
  unfold disable. destruct (stale g e); [simpl; lia|]. destruct (queue_drain _) as [entries q].
  set (e1 := with_e_queue q _). change (e_draws e) with (e_draws e1). clearbody e1. revert e1.
  induction entries as [|entry entries IH]; intros e1; cbn [disable_loop]; [simpl; lia|].
  pose proof (reject_queued_draws None now entry e1) as H1. destruct (reject_queued _ _ _ e1) as [res e2].
  specialize (IH e2). destruct (disable_loop entries now e2) as [rs e3]. cbn [fst snd] in *. lia.
Qed.

Lemma reconfigure_loop_draws entries version now e :
  e.(e_draws) <= (reconfigure_loop entries version now e).2.(e_draws).
Proof.
  revert e. induction entries as [|entry entries IH]; intros e; cbn [reconfigure_loop]; [simpl; lia|]. case_decide.
  - by etrans; [|apply IH].
  - pose proof (reject_queued_draws (Some (from_secs 1)) now entry e) as H1.
    destruct (reject_queued _ _ _ e) as [res e2].
    specialize (IH e2). destruct (reconfigure_loop entries version now e2) as [rs e3]. cbn [fst snd] in *. lia.
Qed.

Lemma reconfigure_draws g config now e : e.(e_draws) <= (reconfigure g config now e).2.(e_draws).
Proof.
  unfold reconfigure. destruct (stale g e); [simpl; lia|]. destruct (group_config_invalid _); [simpl; lia|].
  destruct (queue_bound_invalid _ _); [simpl; lia|]. destruct (queue_drain _) as [entries q].
  pose proof (reconfigure_loop_draws entries (gc_snapshot_version config) now (with_e_queue q e)) as H1.
  destruct (reconfigure_loop _ _ _ _) as [rs e1]. cbn [fst snd] in *.
  etrans; [exact H1|]. etrans; [|apply (ev_draws ∅), prune_evolves]. simpl. lia.
Qed.

Lemma reconfigure_credential_draws g config now e : (reconfigure_credential g config now e).2.(e_draws) = e.(e_draws).
Proof.
  unfold reconfigure_credential. destruct (stale g e); [done|]. destruct (_ || _); [done|].
  destruct (_ !! _); [|done]. destruct (_ || _); [done|]. destruct (_ <? _); [|done]. by destruct (device_changed _ _).
Qed.

Lemma handle_observe_draws observed g now reply :
  observed.2.(e_draws) <= (handle_observe uuid_v4 observed g now reply).2.(e_draws).
Proof.
  destruct observed as [applied e]. unfold handle_observe. destruct applied; simpl; [|apply send_resolutions_draws].
  pose proof (pump_draws (uuid_v4 := uuid_v4) g now e) as HP. destruct (pump uuid_v4 g now e) as [rs e1]. simpl in *.
  etrans; [exact HP|apply send_resolutions_draws].
Qed.

(** A pump whose resolutions are sent. *)
Lemma pump_send_draws {A} (f : list QueueResolution → A) (h : list QueueResolution → list QueueResolution) g now reply e :
  e.(e_draws) <=
  (let '(rs, e) := pump uuid_v4 g now e in (f rs, send_resolutions reply (h rs) now e)).2.(e_draws).
Proof.
  pose proof (pump_draws (uuid_v4 := uuid_v4) g now e) as HP. destruct (pump uuid_v4 g now e) as [rs e1]. simpl in *.
  etrans; [exact HP|apply send_resolutions_draws].
Qed.

Lemma actor_step_draws command e : e.(e_draws) <= (actor_step uuid_v4 command e).2.(e_draws).
Proof.
  destruct command; simpl.
  - unfold handle_admit. destruct (rp_closed reply); [simpl; lia|].
    pose proof (admit_draws generation entry now e) as HA. destruct (admit_request _ _ _ _ e) as [r e1]. simpl in *.
    destruct (rp_received reply), r; try done. etrans; [exact HA|apply abandon_admission_draws].
  - pose proof (cancel_draws generation request_id now e) as HC. destruct (cancel _ _ _ e). simpl in *. lia.
  - unfold handle_release. pose proof (release_lease_draws generation lease_id now e) as HR.
    destruct (release_lease _ _ _ e) as [[|] e1]; simpl in *; [|done]. etrans; [exact HR|].
    apply (pump_send_draws (λ rs, Some (ReplyRelease (Ok (a, rs)))) (λ rs, rs)).
  - unfold handle_replace. pose proof (replace_lease_draws generation request now e) as HR.
    destruct (replace_lease _ _ _ _ e) as [[[lease| |]|] e1]; simpl in *; destruct (rp_received reply); try done.
    etrans; [exact HR|]. etrans; [apply (release_lease_draws generation (cl_id lease) now)|].
    set (e2 := (release_lease _ _ _ e1).2). pose proof (complete_request_draws generation (cl_request_id lease) now e2) as HC.
    destruct (complete_request _ _ _ _ e2) as [[rs|] e3]; simpl in *; [|done].
    etrans; [exact HC|apply abandon_resolutions_draws].
  - etrans; [|apply handle_observe_draws]. unfold observe_credential_cooldown. by repeat case_match.
  - etrans; [|apply handle_observe_draws]. unfold observe_credential_auth. by repeat case_match.
  - etrans; [|apply handle_observe_draws]. unfold observe_credential_quota. by repeat case_match.
  - assert (e_draws (set_credential_fence generation credential_id fenced e).2 = e_draws e) as HE.
    { unfold set_credential_fence. by repeat case_match. }
    destruct (set_credential_fence _ _ _ e) as [r e1]. simpl in HE. rewrite <- HE.
    apply (pump_send_draws (λ rs, Some (ReplyFence r rs)) (λ rs, rs)).
  - assert (e_draws (remove_fenced_credential generation credential_id e).2 = e_draws e) as HE.
    { unfold remove_fenced_credential. by repeat case_match. }
    destruct (remove_fenced_credential _ _ e) as [r e1]. simpl in HE. rewrite <- HE.
    apply (pump_send_draws (λ rs, Some (ReplyRemove r rs)) (λ rs, rs)).
  - pose proof (reconfigure_draws generation config now e) as HR.
    destruct (reconfigure _ _ _ e) as [[rejections|] e1]; simpl in *; [|done]. etrans; [exact HR|].
    apply (pump_send_draws (λ rs, Some (ReplyReconfigured (Ok (rejections ++ rs)))) (λ rs, rejections ++ rs)).
  - pose proof (reconfigure_credential_draws generation config now e) as HR.
    destruct (reconfigure_credential _ _ _ e) as [[applied|] e1]; simpl in *; rewrite <- HR; [|done].
    apply (pump_send_draws (λ rs, Some (ReplyCredential (Ok (applied, rs)))) (λ rs, rs)).
  - unfold confirm_transport_cancel. destruct (stale generation e); [simpl; lia|].
    destruct (_ !! _) as [l|]; [|simpl; lia].
    pose proof (release_lease_draws generation l now (with_e_pending_cancels (delete l (e_pending_cancels e)) e)) as HR.
    by destruct (release_lease _ _ _ _) as [r e1].
  - pose proof (complete_request_draws generation request_id now e) as HC.
    destruct (complete_request _ _ _ _ e) as [[rs|] e1]; simpl in *; [|done].
    etrans; [exact HC|apply send_resolutions_draws].
  - destruct (rp_closed reply); [simpl; lia|]. apply (pump_send_draws (λ rs, Some (ReplyResolutions rs)) (λ rs, rs)).
  - pose proof (disable_draws generation now e) as HD. by destruct (disable _ _ e).
  - lia.
  - lia.
  - lia.
Qed.

End draws.

(** ** Lemmas: the invariant holds in every reachable state *)

Section invariant.
Context {uuid_v4 : N → string} {bound : N} (HU : uuid_source uuid_v4 bound).
Abbreviation engine_inv := (engine_inv uuid_v4).

Lemma abandon_resolutions_inv rs now e :
  resolutions_settled rs e → engine_inv e → engine_inv (abandon_resolutions rs now e).
Proof.
  revert e. induction rs as [|r rs IH]; intros e HS HI; simpl; [done|].
  destruct (abandon_admission_inv HU (qr_decision r) now e) as [H1 H2]; [apply HS; left|done|].
  apply IH; [|done]. apply (resolutions_settled_evolves _ e); [done|]. intros x Hx. apply HS. by right.
Qed.

Lemma send_resolutions_inv reply rs now e :
  resolutions_settled rs e → engine_inv e → engine_inv (send_resolutions reply rs now e).
Proof. intros HS HI. unfold send_resolutions. destruct (rp_received reply); [done|by apply abandon_resolutions_inv]. Qed.

Lemma pump_send_inv {A} (f : list QueueResolution → A) rejections g now reply e :
  (let '(rs, e) := pump uuid_v4 g now e in
   (f rs, send_resolutions reply (rejections ++ rs) now e)).2.(e_draws) <= bound →
  resolutions_settled rejections e → engine_inv e →
  engine_inv (let '(rs, e) := pump uuid_v4 g now e in (f rs, send_resolutions reply (rejections ++ rs) now e)).2.
Proof.
  intros Hd HS HI. pose proof (pump_inv HU g now e) as HP. destruct (pump uuid_v4 g now e) as [rs e1].
  cbn [fst snd] in *. pose proof (send_resolutions_draws reply (rejections ++ rs) now e1) as Hd1.
  destruct HP as (H1 & H2 & H3); [lia|done|]. apply send_resolutions_inv; [|done].
  apply resolutions_settled_app; [|done]. by apply (resolutions_settled_evolves _ e).
Qed.

Lemma handle_observe_inv observed g now reply :
  (handle_observe uuid_v4 observed g now reply).2.(e_draws) <= bound → engine_inv observed.2 →
  engine_inv (handle_observe uuid_v4 observed g now reply).2.
Proof.
  destruct observed as [applied e]. unfold handle_observe. destruct applied; simpl.
  - intros Hd HI. by apply (pump_send_inv (λ rs, Some (ReplyObserved true rs)) []).
  - intros _ HI. by apply send_resolutions_inv.
Qed.

Lemma actor_step_inv command e :
  (actor_step uuid_v4 command e).2.(e_draws) <= bound → command_typed command → engine_inv e →
  engine_inv (actor_step uuid_v4 command e).2.
Proof.
  intros Hd Hty HI. destruct command; simpl in Hd |- *.
  - unfold handle_admit in *. destruct (rp_closed reply); [done|].
    pose proof (admit_inv HU generation entry now e) as HA. destruct (admit_request _ _ _ _ e) as [r e1]. cbn [fst snd] in *.
    assert (e_draws e1 <= bound) as Hd1.
    { destruct (rp_received reply), r as [d|]; try done. pose proof (abandon_admission_draws d now e1). lia. }
    destruct (HA Hd1 HI) as (H1 & _ & H3). destruct (rp_received reply), r; try done. by apply (abandon_admission_inv HU).
  - pose proof (cancel_inv HU generation request_id now e HI) as [H1 _]. by destruct (cancel _ _ _ e).
  - unfold handle_release in *. pose proof (release_lease_inv [] ∅ generation lease_id now e HI) as H1.
    destruct (release_lease _ _ _ e) as [[|] e1]; cbn [fst snd] in *; [|done].
    by apply (pump_send_inv (λ rs, Some (ReplyRelease (Ok (a, rs)))) []).
  - unfold handle_replace in *. pose proof (replace_lease_inv HU generation request now e) as HR.
    destruct (replace_lease _ _ _ _ e) as [r e1]. cbn [fst snd] in *.
    destruct (rp_received reply), r as [[lease| |]|]; try (by apply HR).
    set (e2 := (release_lease generation (cl_id lease) now e1).2) in *.
    pose proof (release_lease_draws generation (cl_id lease) now e1) as Hd1. fold e2 in Hd1.
    pose proof (complete_request_draws uuid_v4 generation (cl_request_id lease) now e2) as Hd2.
    pose proof (complete_request_inv HU generation (cl_request_id lease) now e2) as HC.
    destruct (complete_request _ _ _ _ e2) as [[rs|] e3]; cbn [fst snd] in *.
    + pose proof (abandon_resolutions_draws rs now e3). destruct HC as (H1 & _ & H3); [lia| |by apply abandon_resolutions_inv].
      apply release_lease_inv, HR; [lia|done].
    + apply HC; [lia|]. apply release_lease_inv, HR; [lia|done].
  - apply handle_observe_inv; [done|by apply observe_credential_cooldown_inv].
  - apply handle_observe_inv; [done|by apply observe_credential_auth_inv].
  - apply handle_observe_inv; [done|by apply observe_credential_quota_inv].
  - destruct (set_credential_fence_inv generation credential_id fenced e HI) as [H1 _].
    destruct (set_credential_fence _ _ _ e) as [r e1]. by apply (pump_send_inv (λ rs, Some (ReplyFence r rs)) []).
  - destruct (remove_fenced_credential_inv generation credential_id e HI) as [H1 _].
    destruct (remove_fenced_credential _ _ e) as [r e1]. by apply (pump_send_inv (λ rs, Some (ReplyRemove r rs)) []).
  - destruct (reconfigure_inv generation config now e HI) as (H1 & _ & H3).
    destruct (reconfigure _ _ _ e) as [[rejections|] e1]; cbn [fst snd] in *; [|done].
    by apply (pump_send_inv (λ rs, Some (ReplyReconfigured (Ok (rejections ++ rs)))) rejections).
  - destruct (reconfigure_credential_inv generation config now e Hty HI) as [H1 _].
    destruct (reconfigure_credential _ _ _ e) as [[applied|] e1]; cbn [fst snd] in *; [|done].
    by apply (pump_send_inv (λ rs, Some (ReplyCredential (Ok (applied, rs)))) []).
  - destruct (confirm_transport_cancel_inv generation request_id now e HI) as [H1 _].
    by destruct (confirm_transport_cancel _ _ _ e).
  - pose proof (complete_request_inv HU generation request_id now e) as HC.
    destruct (complete_request _ _ _ _ e) as [[rs|] e1]; cbn [fst snd] in *; [|by apply HC].
    pose proof (send_resolutions_draws reply rs now e1).
    destruct HC as (H1 & _ & H3); [lia|done|]. by apply send_resolutions_inv.
  - destruct (rp_closed reply); [done|]. by apply (pump_send_inv (λ rs, Some (ReplyResolutions rs)) []).
  - destruct (disable_inv generation now e HI) as [H1 _]. by destruct (disable _ _ e).
  - done.
  - done.
  - by apply with_events_inv.
Qed.

(** Rule induction over the histories of the owner. *)
Lemma reachable_inv e : reachable uuid_v4 e → e.(e_draws) <= bound → engine_inv e.
Proof.
  induction 1 as [identity config credentials now e Hty Hnew|command e He IH Hty|key c now e He IH|g c ok now e He IH|e He IH];
    intros Hd.
  - by apply (engine_new_inv HU identity config credentials now).
  - apply actor_step_inv; [done|done|]. apply IH. pose proof (actor_step_draws uuid_v4 command e). lia.
  - apply record_success_inv. apply IH. unfold record_success in Hd. by repeat case_match.
  - apply record_half_open_result_inv. apply IH. unfold record_half_open_result in Hd. by repeat case_match.
  - apply with_events_inv, IH, Hd.
Qed.

End invariant.
