(* ===== verification/EnginePump.v ===== *)
(** Progress of the pump: an entry it takes off the queue is always served, so
    its loop ends, with the fuel it is given, only when the Group is at its
    concurrency or when no head of the queue can run. *)

From S2P Require Import Prelude Machine Domain TokenBucket SchedTypes FairQueue EngineState Eligibility Engine.
From S2P Require Import EngineInv EngineGrant EngineReach.
Local Open Scope N_scope.

(** Two scans that differ only in how far the buckets are refilled. *)
Record scans_agree (now : Duration) (s s' : PoolScan) : Prop := {
  sa_credentials : refilled_pool now s.(ps_credentials) s'.(ps_credentials);
  sa_candidates : s'.(ps_candidates) = s.(ps_candidates);
  sa_temporary : s'.(ps_saw_temporary) = s.(ps_saw_temporary);
  sa_recovery : s'.(ps_earliest_recovery) = s.(ps_earliest_recovery);
  sa_preferred : s'.(ps_preferred_capacity_only) = s.(ps_preferred_capacity_only);
  sa_session : s'.(ps_session_wait) = s.(ps_session_wait);
}.

(** ** Evaluating a pool twice at one instant gives the same verdict *)

Lemma eligibility_again rt config entry now y :
  refilled now rt y →
  (eligibility y config entry now).1 = (eligibility rt config entry now).1 ∧
  refilled now (eligibility rt config entry now).2 (eligibility y config entry now).2.
Proof.
  intros [->| ->]; [split; [done|by left]|].
  unfold eligibility, eligibility_paced, try_consume_preview, retry_after, quota_requires_half_open,
    quota_exhausted, deterministically_ineligible, refilled. simpl. rewrite !refill_idem.
  repeat match goal with
  | |- context [if ?b then _ else _] => destruct b
  | |- context [match ?o with Some _ => _ | None => _ end] => destruct o
  end; simpl; rewrite ?refill_idem; (split; [done|]); auto.
Qed.

Lemma refilled_pool_insert_both now m m' id x y :
  refilled_pool now m m' → refilled now x y → refilled_pool now (<[id := x]> m) (<[id := y]> m').
Proof.
  intros HR Hxy j. destruct (decide (j = id)) as [->|]; [by rewrite !lookup_insert_eq|].
  rewrite !lookup_insert_ne by done. apply HR.
Qed.

Lemma pool_scan_step_again preferred pinned claims config entry now s s' id :
  scans_agree now s s' →
  scans_agree now (pool_scan_step preferred pinned claims config entry now s id)
    (pool_scan_step preferred pinned claims config entry now s' id).
Proof.
  intros [HC H1 H2 H3 H4 H5]. unfold pool_scan_step. pose proof (HC id) as Hid.
  destruct (ps_credentials s !! id) as [x|], (ps_credentials s' !! id) as [y|]; try done.
  destruct (is_some_and _ pinned); [done|]. destruct (refilled_config _ _ _ Hid) as [Hcfg _]. rewrite Hcfg.
  destruct (session_capacity_blocked _ _ _); [split; simpl; first [exact HC|congruence]|].
  destruct (eligibility_again x config entry now y Hid) as [HE HR].
  destruct (eligibility x config entry now) as [[class recovery] x'].
  destruct (eligibility y config entry now) as [[class' recovery'] y']. simpl in HE, HR. injection HE as -> ->.
  destruct (refilled_config _ _ _ HR) as [Hc Hi].
  destruct class; split; simpl; try congruence; try (by apply refilled_pool_insert_both).
  all: rewrite ?H1, ?H2, ?H3, ?H4, ?Hc, ?Hi; done.
Qed.

Lemma pool_verdict_again preferred config entry now s s' :
  scans_agree now s s' → pool_verdict preferred config entry now s' = pool_verdict preferred config entry now s.
Proof.
  intros [HC H1 H2 H3 H4 H5]. unfold pool_verdict. rewrite H1, H2, H3, H4, H5.
  assert (∀ id, priority_of (ps_credentials s') id = priority_of (ps_credentials s) id) as HP.
  { intros id. unfold priority_of. specialize (HC id).
    destruct (ps_credentials s !! id), (ps_credentials s' !! id); try done. simpl. by destruct (refilled_config _ _ _ HC) as [-> _]. }
  assert (∀ l : list CredentialId, omap (priority_of (ps_credentials s')) l = omap (priority_of (ps_credentials s)) l) as HO.
  { induction l as [|id l IH]; csimpl; [done|]. by rewrite HP, IH. }
  assert (∀ l, retain_best_priority (ps_credentials s') l = retain_best_priority (ps_credentials s) l) as HK.
  { intros l. unfold retain_best_priority. rewrite HO. destruct (list_min _); [|done].
    apply list_filter_iff_in. intros id _. by rewrite HP. }
  assert (∀ l, best_candidate (ps_credentials s') l = best_candidate (ps_credentials s) l) as HB.
  { intros l. unfold best_candidate. f_equal. apply sort_by_ext. intros x y. unfold compare_candidates.
    pose proof (HC x) as Hx. pose proof (HC y) as Hy.
    destruct (ps_credentials s !! x), (ps_credentials s' !! x); try done.
    destruct (ps_credentials s !! y), (ps_credentials s' !! y); try done.
    by destruct (refilled_config _ _ _ Hx) as [-> ->], (refilled_config _ _ _ Hy) as [-> ->]. }
  by rewrite HK, HB.
Qed.

Lemma btree_keys_refilled now m m' : refilled_pool now m m' → btree_keys m' = btree_keys m.
Proof.
  intros HR. apply (StronglySorted_unique key_le).
  - apply btree_keys_sorted.
  - apply btree_keys_sorted.
  - apply NoDup_Permutation; [apply btree_keys_NoDup..|]. intros k. rewrite !elem_of_btree_keys.
    specialize (HR k). destruct (m !! k), (m' !! k); try done; split; intros [? ?]; eauto; done.
Qed.

Lemma evaluate_pool_fields_again m m' affinities claims config entry now :
  refilled_pool now m m' →
  (evaluate_pool_fields m' affinities claims config entry now).1 =
  (evaluate_pool_fields m affinities claims config entry now).1.
Proof.
  intros HR. unfold evaluate_pool_fields. simpl. rewrite (btree_keys_refilled now m m') by done.
  apply pool_verdict_again. set (ids := btree_keys m). clearbody ids.
  match goal with |- scans_agree _ (foldl _ ?a _) (foldl _ ?b _) => set (s := a); set (s' := b) end.
  assert (scans_agree now s s') as HS by by split. clearbody s s'. revert s s' HS.
  induction ids as [|id ids IH]; intros s s' HS; simpl; [done|]. by apply IH, pool_scan_step_again.
Qed.

Lemma evaluate_pool_fields_refilled m affinities claims config entry now :
  refilled_pool now m (evaluate_pool_fields m affinities claims config entry now).2.
Proof.
  pose proof (evaluate_pool_fields_spec m affinities claims config entry now) as HS. cbv zeta in HS.
  pose proof (evaluate_pool_fields_frame m affinities claims config entry now) as HF.
  destruct (evaluate_pool_fields _ _ _ _ _ _) as [ev m']. destruct HS as [HS _]. cbn [snd] in *. intros id.
  specialize (HF id). specialize (HS id). destruct (m !! id) as [x|].
  - destruct (HS x eq_refl) as (y & -> & ?). done.
  - by destruct (m' !! id).
Qed.

(** What the closure of [pump] promises about an entry it accepts. *)
Lemma first_runnable_accepted affinities claims config now entries scan entry scan' :
  first_runnable (pump_runnable affinities claims config now) scan entries = (Some entry, scan') →
  entry.(se_pre_upstream_deadline) <= now ∨
  ∃ id, (evaluate_pool_fields scan'.(pm_credentials) affinities claims config entry now).1 = Candidate id.
Proof.
  revert scan. induction entries as [|x entries IH]; intros scan; cbn [first_runnable]; [done|].
  destruct (pump_runnable affinities claims config now scan x) as [ok scan1] eqn:E. destruct ok; [|apply IH].
  intros [= -> ->]. unfold pump_runnable in E.
  destruct (N.leb_spec (se_pre_upstream_deadline entry) now); [by left|right].
  destruct (if decide _ then _ else _) as [ready scan2]. destruct (negb ready); [done|].
  pose proof (evaluate_pool_fields_refilled scan2.(pm_credentials) affinities claims config entry now) as HR.
  destruct (evaluate_pool_fields (pm_credentials scan2) _ _ _ _ _) as [ev m] eqn:Ev.
  injection E as Hev <-. cbn [pm_credentials snd] in *.
  rewrite (evaluate_pool_fields_again (pm_credentials scan2)) by done.
  rewrite Ev. destruct ev; try done. by eexists.
Qed.

(** ** A scan that finds nothing *)

Lemma pump_runnable_steps affinities claims config now scan entry :
  let scan' := (pump_runnable affinities claims config now scan entry).2 in
  refilled_pool now scan.(pm_credentials) scan'.(pm_credentials) ∧
  (scan'.(pm_group_bucket) = None → scan.(pm_group_bucket) = None).
Proof.
  unfold pump_runnable. destruct (_ <=? _); [done|].
  set (p := if decide _ then _ else _).
  assert (p.2.(pm_credentials) = scan.(pm_credentials) ∧
    (p.2.(pm_group_bucket) = None → scan.(pm_group_bucket) = None)) as [Hc Hb].
  { unfold p. case_decide; [done|]. destruct (pm_group_bucket scan) as [b|] eqn:E; [|done].
    by destruct (try_consume b now) as [consumed b']. }
  destruct p as [ready scan1]. cbn [fst snd] in Hc, Hb |- *. rewrite <- Hc.
  destruct (negb ready); [done|].
  pose proof (evaluate_pool_fields_refilled scan1.(pm_credentials) affinities claims config entry now) as HF.
  destruct (evaluate_pool_fields _ _ _ _ _ _) as [evaluation m]. cbn [fst snd] in *. split; [exact HF|exact Hb].
Qed.

Lemma pump_runnable_rejects affinities claims config now scan entry scan' :
  pump_runnable affinities claims config now scan entry = (false, scan') →
  now < entry.(se_pre_upstream_deadline) ∧
  (entry.(se_request_id) ∈ scan'.(pm_group_rate_admitted) ∨ scan'.(pm_group_bucket) = None →
   ∀ id, (evaluate_pool_fields scan'.(pm_credentials) affinities claims config entry now).1 ≠ Candidate id).
Proof.
  unfold pump_runnable. destruct (N.leb_spec (se_pre_upstream_deadline entry) now); [done|].
  intros HE. split; [done|]. revert HE.
  set (p := if decide _ then _ else _).
  assert (se_request_id entry ∈ p.2.(pm_group_rate_admitted) ∨ p.2.(pm_group_bucket) = None → p.1 = true) as Hready.
  { unfold p. case_decide; [done|]. destruct (pm_group_bucket scan) as [b|] eqn:E; [|done].
    destruct (try_consume b now) as [[] b']; simpl; [done|]. intros [?|?]; done. }
  destruct p as [ready scan1]. cbn [fst snd] in *. destruct ready; cbn [negb].
  2:{ intros [= <-] Hr. by apply Hready in Hr. }
  pose proof (evaluate_pool_fields_refilled scan1.(pm_credentials) affinities claims config entry now) as HF.
  destruct (evaluate_pool_fields (pm_credentials scan1) _ _ _ _ _) as [evaluation m] eqn:Ev. cbn [snd] in HF.
  intros [= Hev <-] _ id. cbn [pm_credentials].
  rewrite (evaluate_pool_fields_again (pm_credentials scan1)), Ev by done. simpl. intros ->. done.
Qed.

Lemma try_consume_fails_again b now :
  (try_consume b now).1 = false →
  (try_consume (try_consume b now).2 now).1 = false.
Proof.
  unfold try_consume. destruct (N.ltb_spec (tb_available (refill b now)) SCALE); [|done]. intros _. simpl.
  rewrite refill_idem. by destruct (N.ltb_spec (tb_available (refill b now)) SCALE); [|lia].
Qed.

(** A scan whose bucket, if any, has no token left. *)
Definition rate_exhausted (now : Duration) (bucket : option TokenBucket) : Prop :=
  ∃ b, bucket = Some b ∧ (try_consume b now).1 = false.

Lemma pump_runnable_exhausted affinities claims config now scan entry :
  rate_exhausted now scan.(pm_group_bucket) →
  rate_exhausted now (pump_runnable affinities claims config now scan entry).2.(pm_group_bucket).
Proof.
  intros (b & Hb & Hf). unfold pump_runnable. destruct (_ <=? _); [by exists b|]. rewrite Hb.
  set (p := if decide _ then _ else _).
  assert (rate_exhausted now p.2.(pm_group_bucket)) as HP.
  { unfold p. case_decide; [by exists b|]. pose proof (try_consume_fails_again b now Hf) as H2.
    destruct (try_consume b now) as [consumed b']. simpl. by exists b'. }
  destruct p as [ready scan1]. cbn [snd] in HP. destruct (negb ready); [done|]. by destruct (evaluate_pool_fields _ _ _ _ _ _).
Qed.

Lemma pump_runnable_unadmitted affinities claims config now scan entry scan' :
  pump_runnable affinities claims config now scan entry = (false, scan') →
  entry.(se_request_id) ∉ scan'.(pm_group_rate_admitted) → scan'.(pm_group_bucket) ≠ None →
  rate_exhausted now scan'.(pm_group_bucket).
Proof.
  unfold pump_runnable. destruct (_ <=? _); [done|].
  set (p := if decide _ then _ else _).
  assert (se_request_id entry ∉ p.2.(pm_group_rate_admitted) → p.2.(pm_group_bucket) ≠ None →
          rate_exhausted now p.2.(pm_group_bucket)) as HP.
  { unfold p. case_decide; [done|]. destruct (pm_group_bucket scan) as [b|] eqn:E; [|simpl; congruence].
    pose proof (try_consume_fails_again b now) as H2.
    destruct (try_consume b now) as [[] b']; simpl in *; [set_solver|]. intros _ _. exists b'. split; [done|by apply H2]. }
  destruct p as [ready scan1]. cbn [snd] in HP. destruct (negb ready); [by intros [= <-]|].
  destruct (evaluate_pool_fields _ _ _ _ _ _). by intros [= _ <-].
Qed.

(** What a scan that found nothing leaves behind, for every entry it judged. *)
Record turned_away affinities claims config (now : Duration) (scan : PumpScan) (entry : ScheduleEntry) : Prop := {
  ta_deadline : now < entry.(se_pre_upstream_deadline);
  ta_verdict : entry.(se_request_id) ∈ scan.(pm_group_rate_admitted) ∨ scan.(pm_group_bucket) = None →
    ∀ id, (evaluate_pool_fields scan.(pm_credentials) affinities claims config entry now).1 ≠ Candidate id;
  ta_rate : entry.(se_request_id) ∈ scan.(pm_group_rate_admitted) ∨ scan.(pm_group_bucket) = None ∨
    rate_exhausted now scan.(pm_group_bucket);
}.

Lemma scan_grows affinities claims config now entries scan :
  let scan' := (first_runnable (pump_runnable affinities claims config now) scan entries).2 in
  scan.(pm_group_rate_admitted) ⊆ scan'.(pm_group_rate_admitted) ∧
  (scan.(pm_group_bucket) = None → scan'.(pm_group_bucket) = None).
Proof.
  assert (∀ scan x, let scan' := (pump_runnable affinities claims config now scan x).2 in
    scan.(pm_group_rate_admitted) ⊆ scan'.(pm_group_rate_admitted) ∧
    (scan.(pm_group_bucket) = None → scan'.(pm_group_bucket) = None)) as Hstep.
  { intros s x. unfold pump_runnable. destruct (_ <=? _); [done|].
    case_decide; [by destruct (evaluate_pool_fields _ _ _ _ _ _)|].
    destruct (pm_group_bucket s) as [b|] eqn:E; [|by destruct (evaluate_pool_fields _ _ _ _ _ _)].
    destruct (try_consume b now) as [[] b']; cbn [negb]; [|done].
    destruct (evaluate_pool_fields _ _ _ _ _ _). simpl. split; [set_solver|done]. }
  revert scan. induction entries as [|x entries IH]; intros scan; cbn [first_runnable]; [done|].
  specialize (Hstep scan x). destruct (pump_runnable _ _ _ _ scan x) as [[] scan1]; [done|].
  destruct (IH scan1), Hstep. split; [set_solver|auto].
Qed.

Lemma scan_keeps_exhausted affinities claims config now entries scan :
  rate_exhausted now scan.(pm_group_bucket) →
  rate_exhausted now
    (first_runnable (pump_runnable affinities claims config now) scan entries).2.(pm_group_bucket).
Proof.
  revert scan. induction entries as [|x entries IH]; intros scan Hs; cbn [first_runnable]; [done|].
  pose proof (pump_runnable_exhausted affinities claims config now scan x Hs) as H1.
  destruct (pump_runnable _ _ _ _ _ _) as [[] scan1]; [done|]. by apply IH.
Qed.

Lemma first_runnable_rejected affinities claims config now entries scan scan' :
  NoDup (entry_ids entries) →
  first_runnable (pump_runnable affinities claims config now) scan entries = (None, scan') →
  refilled_pool now scan.(pm_credentials) scan'.(pm_credentials) ∧
  (scan'.(pm_group_bucket) = None → scan.(pm_group_bucket) = None) ∧
  ∀ entry, entry ∈ entries → turned_away affinities claims config now scan' entry.
Proof.
  revert scan. induction entries as [|x entries IH]; intros scan Hnd; cbn [first_runnable].
  { intros [= <-]. split_and!; [done|done|]. intros entry Hin. set_solver. }
  apply NoDup_cons in Hnd as [Hn Hnd].
  pose proof (pump_runnable_steps affinities claims config now scan x) as HS.
  pose proof (pump_runnable_rejects affinities claims config now scan x) as HJ.
  pose proof (pump_runnable_unadmitted affinities claims config now scan x) as HU.
  destruct (pump_runnable affinities claims config now scan x) as [ok scan1]. cbn [snd] in HS.
  destruct ok; [done|]. intros HF. destruct HS as [HS1 HS2]. destruct (IH scan1 Hnd HF) as (H1 & H2 & H3).
  split_and!; [by etrans|by intros ?%H2%HS2|].
  intros entry [->|Hin]%elem_of_cons; [|by apply H3].
  destruct (HJ scan1 eq_refl) as [Hd Hno]. specialize (HU scan1 eq_refl).
  destruct (pump_scan_spec affinities claims config now entries scan1) as [_ HA].
  destruct (scan_grows affinities claims config now entries scan1) as [HG1 HG2].
  pose proof (scan_keeps_exhausted affinities claims config now entries scan1) as HK.
  rewrite HF in HA, HK, HG1, HG2. cbn [snd] in *. split; [done| |].
  - intros Hr id. rewrite (evaluate_pool_fields_again (pm_credentials scan1)) by done. apply Hno.
    destruct Hr as [Hr|Hr]; [left|right; by apply H2]. by destruct (HA _ Hr).
  - destruct (decide (se_request_id x ∈ pm_group_rate_admitted scan1)); [left; set_solver|right].
    destruct (pm_group_bucket scan1) eqn:E; [right|left; by apply HG2]. by apply HK, HU.
Qed.

(** ** The loop *)

Lemma install_lease_queue entry lease now acquire e : (install_lease entry lease now acquire e).(e_queue) = e.(e_queue).
Proof.
  unfold install_lease. destruct (acquire_session_claim_eq entry (cl_credential_id lease) e) as (k & new & -> & _).
  by destruct new, acquire.
Qed.

Lemma grant_queue uuid_v4 entry c now acquire e : (grant uuid_v4 entry c now acquire e).2.(e_queue) = e.(e_queue).
Proof.
  unfold grant. destruct (_ !! c); [|done]. destruct (lease_execution _ _); [|done].
  destruct (charge_runtime _ _ _ _) as [[|] ?]; [|done]. unfold draw. simpl. destruct (TypedId_new _ _); [|done].
  simpl. by rewrite install_lease_queue.
Qed.

Section loop.
Context {uuid_v4 : N → string} {bound : N} (HU : uuid_source uuid_v4 bound).
Abbreviation engine_inv := (engine_inv uuid_v4).

(** An entry the closure accepted is served: the branch of [pump] that puts it
    back is never taken. *)
Lemma pump_serve_continues now e entry e1 :
  engine_inv e → pump_pop now e = (Some entry, e1) →
  (pump_serve uuid_v4 entry now e1).1.2 = true ∧ (pump_serve uuid_v4 entry now e1).2.(e_queue) = e1.(e_queue).
Proof.
  intros HI HP. pose proof (pump_pop_inv now e HI) as HI1. rewrite HP in HI1.
  destruct (held_idle entry [] e1 HI1) as ([w Hw] & _).
  unfold pump_pop in HP. pose proof (qo_wf _ _ _ (inv_queue _ _ _ _ HI)) as Hwf.
  set (scan := {| pm_group_bucket := _ |}) in *.
  set (r := pump_runnable (e_affinities e) (e_session_claims e) (e_config e) now) in *.
  pose proof (queue_pop_spec r scan (e_queue e) Hwf) as HQ.
  destruct (queue_pop_runnable r scan (e_queue e)) as [[o scan'] q']. injection HP as -> <-.
  destruct HQ as (_ & _ & Hf & _).
  apply first_runnable_accepted in Hf.
  unfold pump_serve. cbn [e_waiting with_e_queue with_e_credentials with_e_group_rate_admitted with_e_group_bucket] in Hw |- *.
  set (e1 := with_e_queue q' _) in *. rewrite Hw.
  set (e2 := drop_ticket (se_request_id entry) Release now e1).
  assert (e_credentials e2 = pm_credentials scan' ∧ e_affinities e2 = e_affinities e ∧
    e_session_claims e2 = e_session_claims e ∧ e_config e2 = e_config e ∧ e_queue e2 = q') as (C1 & C2 & C3 & C4 & C5).
  { unfold e2, drop_ticket. by destruct (e_waiting e1 !! se_request_id entry). }
  destruct (N.leb_spec (se_pre_upstream_deadline entry) now); [by split|].
  destruct Hf as [?|[id Hid]]; [lia|]. unfold evaluate_pool. rewrite C1, C2, C3, C4.
  destruct (evaluate_pool_fields _ _ _ _ _ _) as [ev m]. cbn [fst] in Hid. subst ev.
  set (e3 := with_e_credentials m e2).
  pose proof (grant_queue uuid_v4 entry id now true e3) as HQ.
  destruct (grant uuid_v4 entry id now true e3) as [res e4]. cbn [fst snd] in *. split; [done|].
  by rewrite HQ.
Qed.

(** Where the loop stops: at the concurrency limit, or after a scan that found
    nothing to run. *)
Lemma pump_loop_stops fuel now e :
  (pump_loop uuid_v4 fuel now e).2.(e_draws) <= bound → engine_inv e →
  (length (queue_contents e.(e_queue)) < fuel)%nat →
  effective_concurrency (pump_loop uuid_v4 fuel now e).2 <= permits_len (pump_loop uuid_v4 fuel now e).2 ∨
  ∃ e1, engine_inv e1 ∧ pump_pop now e1 = (None, (pump_loop uuid_v4 fuel now e).2).
Proof.
  revert e. induction fuel as [|fuel IH]; intros e Hd HI Hlen; [lia|]. cbn [pump_loop] in *.
  destruct (N.leb_spec (effective_concurrency e) (permits_len e)); [by left|].
  pose proof (pump_pop_inv now e HI) as HP. pose proof (pump_serve_continues now e) as HC.
  pose proof (qo_wf _ _ _ (inv_queue _ _ _ _ HI)) as Hwf.
  assert (match pump_pop now e with
          | (Some _, e1) => (length (queue_contents e1.(e_queue)) < length (queue_contents e.(e_queue)))%nat
          | _ => True end) as Hless.
  { unfold pump_pop. match goal with |- context [queue_pop_runnable ?r ?s _] =>
      pose proof (queue_pop_spec r s (e_queue e) Hwf) as HQ end.
    destruct (queue_pop_runnable _ _ _) as [[[entry|] scan] q]; [|done]. destruct HQ as (_ & HPc & _).
    simpl. rewrite HPc. simpl. lia. }
  destruct (pump_pop now e) as [[entry|] e1] eqn:Epop.
  - destruct (HC entry e1 HI eq_refl) as [Hcont Hq].
    pose proof (pump_serve_inv HU entry now e1) as HI2.
    destruct (pump_serve uuid_v4 entry now e1) as [[res cont] e2]. cbn [fst snd] in *. subst cont.
    pose proof (pump_loop_draws (uuid_v4 := uuid_v4) fuel now e2) as Hd2. specialize (IH e2).
    destruct (pump_loop uuid_v4 fuel now e2) as [rs e3]. cbn [fst snd] in *.
    apply IH; [done|apply HI2; [lia|done]|]. rewrite Hq. lia.
  - right. exists e. done.
Qed.

(** A scan that found nothing, seen from the state it leaves. *)
Lemma pump_pop_none now e e' :
  engine_inv e → pump_pop now e = (None, e') →
  e'.(e_queue) = e.(e_queue) ∧
  ∀ entry, entry ∈ queue_heads e'.(e_queue) →
    turned_away e'.(e_affinities) e'.(e_session_claims) e'.(e_config) now
      {| pm_group_bucket := e'.(e_group_bucket); pm_group_rate_admitted := e'.(e_group_rate_admitted);
         pm_credentials := e'.(e_credentials) |} entry.
Proof.
  intros HI HP. unfold pump_pop in HP. pose proof (qo_wf _ _ _ (inv_queue _ _ _ _ HI)) as Hwf.
  set (scan := {| pm_group_bucket := _ |}) in *.
  set (r := pump_runnable (e_affinities e) (e_session_claims e) (e_config e) now) in *.
  pose proof (queue_pop_spec r scan (e_queue e) Hwf) as HQ.
  destruct (queue_pop_runnable r scan (e_queue e)) as [[o scan'] q']. injection HP as -> <-.
  destruct HQ as [-> HF]. split; [done|]. apply first_runnable_rejected in HF as (_ & _ & HT).
  - cbn. by destruct scan'.
  - pose proof (qo_nodup _ _ _ (inv_queue _ _ _ _ HI)) as Hnd. rewrite app_nil_r in Hnd.
    apply (sublist_NoDup _ _ Hnd). unfold entry_ids. by rewrite (queue_heads_sublist _ Hwf).
Qed.

End loop.
