(* ===== verification/SampleEngine.v ===== *)
(** Concrete states of a Group owner, reached by short histories, at which the
    theorems about reachable states are instantiated. *)

From S2P Require Import Prelude Machine Domain TokenBucket SchedTypes Samples FairQueue EngineState Eligibility.
From S2P Require Import Engine EngineInv EngineReach EngineOps Actor.
Local Open Scope N_scope.

(** An identifier source: 31 digits and a character that numbers the draw. *)
Definition sample_uuid (n : N) : string :=
  "0000000000000000000000000000000" +:+ String (Ascii.ascii_of_N (48 + n mod 64)) EmptyString.

(** One Group with concurrency 1. *)
Definition sample_config : GroupConfig :=
  {| gc_snapshot_version := "v1"; gc_concurrency_limit := Some 1; gc_rate_limit := None;
     gc_queue_capacity := None; gc_pre_upstream_wait := from_secs 30;
     gc_preferred_capacity_wait := from_secs 2; gc_cancel_grace := from_secs 2;
     gc_affinity_ttl := from_hours 24; gc_affinity_migration_successes := 3;
     gc_quota_guard_basis_points := 9500 |}.

(** Sessions limited to two per Credential. *)
Definition sample_sessions : SessionCapacityConfig :=
  {| scc_enabled := true; scc_max_active_sessions := 2; scc_idle_ttl := from_secs 60; scc_new_session_wait := from_secs 1 |}.

(** Its only Credential. *)
Definition sample_engine : SchedulerEngine :=
  match engine_new sample_identity sample_config [sample_credential "c" 2 sample_sessions] 0 with
  | Ok e => e
  | Err _ =>
      {| e_identity := sample_identity; e_lifecycle := Draining; e_config := sample_config; e_group_bucket := None;
         e_credentials := ∅; e_queue := queue_default; e_waiting := ∅; e_leases := ∅; e_request_leases := ∅;
         e_pending_cancels := ∅; e_group_permits := ∅; e_seen_requests := ∅; e_request_portability := ∅;
         e_group_rate_admitted := ∅; e_affinities := ∅; e_session_claims := ∅; e_events := [];
         e_event_sequence := 0; e_resource_balance := 0%Z; e_draws := 0 |}
  end.

Definition received : ReplyPort := {| rp_closed := false; rp_received := true |}.
Definition dropped : ReplyPort := {| rp_closed := false; rp_received := false |}.

(** Admit a request of user [u]. *)
Definition sample_admit (request : string) (now : Duration) : GroupCommand :=
  CmdAdmit sample_generation (sample_entry request "u" (from_secs 30)) now received.

(** One request holds the only permit and another waits. *)
Definition sample_busy : SchedulerEngine :=
  actor_run sample_uuid [sample_admit "r1" 1; sample_admit "r2" 2] sample_engine.

(** The Lease of [r1]. *)
Definition sample_lease : LeaseId := MkTypedId ("lease_" +:+ sample_uuid 0).

(** ** Lemmas *)

Lemma sample_uuid_source : uuid_source sample_uuid 64.
Proof.
  split.
  - done.
  - intros n. unfold sample_uuid. pose proof (N.mod_lt n 64 ltac:(done)) as Hn.
    set (d := n mod 64) in *. clearbody d. clear n. rewrite is_ascii_app. apply andb_true_iff. split; [done|].
    simpl. rewrite Ascii.N_ascii_embedding by lia. by destruct (N.ltb_spec (48 + d) 128); [|lia].
  - intros i j Hi Hj. unfold sample_uuid. rewrite !N.mod_small by done. intros E. simpl in E. injection E as E.
    apply (f_equal Ascii.N_of_ascii) in E. rewrite !Ascii.N_ascii_embedding in E by lia. lia.
Qed.

Lemma reachable_run uuid commands e :
  reachable uuid e → Forall command_typed commands → reachable uuid (actor_run uuid commands e).
Proof.
  intros HR HT. unfold actor_run. revert e HR. induction HT as [|c cs Hc Hcs IH]; intros e HR; simpl; [done|].
  by apply IH, reachable_step.
Qed.

Lemma sample_engine_reachable : reachable sample_uuid sample_engine.
Proof.
  apply (reachable_new _ sample_identity sample_config [sample_credential "c" 2 sample_sessions] 0).
  - repeat constructor. unfold credential_typed. simpl. done.
  - reflexivity.
Qed.

Lemma sample_busy_reachable : reachable sample_uuid sample_busy.
Proof. apply reachable_run; [apply sample_engine_reachable|repeat constructor]. Qed.
