(* ===== verification/SchedulerSafety.v ===== *)
(** Safety of the Group owner in every reachable state: what the tables account
    for, that a Lease is given back once, that a retry swaps its Lease
    atomically, and that an old generation changes nothing. *)

From S2P Require Import Prelude Machine Domain TokenBucket SchedTypes Samples FairQueue EngineState Eligibility.
From S2P Require Import Engine EngineInv EngineGrant EngineReach EngineOps Actor SampleEngine.
Local Open Scope N_scope.

(** The generation a command names; the ledger commands name none. *)
Definition command_generation (command : GroupCommand) : option OwnerGeneration :=
  match command with
  | CmdAdmit g _ _ _ | CmdCancel g _ _ | CmdReleaseLease g _ _ _ | CmdReplaceLease g _ _ _
  | CmdObserveCredentialCooldown g _ _ _ | CmdObserveCredentialAuth g _ _ _ | CmdObserveCredentialQuota g _ _ _
  | CmdSetCredentialFence g _ _ _ _ | CmdRemoveFencedCredential g _ _ _ | CmdReconfigureGroup g _ _ _
  | CmdReconfigureCredential g _ _ _ | CmdConfirmTransportCancel g _ _ | CmdCompleteRequest g _ _ _
  | CmdTick g _ _ | CmdBeginDrain g _ => Some g
  | CmdSnapshot | CmdResourceEvents | CmdAcknowledgeResourceEvents _ => None
  end.

(** A retry of [r1] on the Credential it is on. *)
Definition sample_retry : RetryLeaseRequest :=
  {| rlr_entry := sample_entry "r1" "u" (from_secs 30); rlr_current_lease_id := sample_lease;
     rlr_target := Same (MkTypedId "c") |}.

(** ** Lemmas *)

Lemma pump_stale uuid g now e : stale g e = true → pump uuid g now e = ([], e).
Proof. intros H. unfold pump. by rewrite H. Qed.

Lemma not_stale g e : g = e.(e_identity).(ei_generation) → stale g e = false.
Proof. intros ->. unfold stale. apply bool_decide_eq_false_2. tauto. Qed.

Lemma released_runtime_exact uuid e l record :
  engine_inv uuid e → e.(e_leases) !! l = Some record →
  ∃ rt, e.(e_credentials) !! record.(lr_lease).(cl_credential_id) = Some rt ∧ 1 <= rt.(rt_inflight).
Proof.
  intros [_ [C1 C2 _ _] _ _] Hl. destruct (C2 l record Hl) as [rt Hrt]. exists rt. split; [done|].
  rewrite (ro_inflight _ _ _ (C1 _ rt Hrt)).
  pose proof (count_values_pos (owned_by (cl_credential_id (lr_lease record))) _ l record Hl eq_refl). lia.
Qed.

(** ** Properties *)

(** C1: In every reachable state a Credential's in-flight count is the number
    of Leases on it, a session claim counts the Leases that hold it, and every
    Lease is on a known Credential and, when it has a claim key, on a claim of
    that Credential. *)
Theorem lease_accounting uuid bound e
    (HU : uuid_source uuid bound) (HR : reachable uuid e) (HD : e.(e_draws) <= bound) :
  (∀ c rt, e.(e_credentials) !! c = Some rt → rt.(rt_inflight) = count_values (owned_by c) e.(e_leases)) ∧
  (∀ k claim, e.(e_session_claims) !! k = Some claim →
     claim.(sc_active_requests) = count_values (claims_key k) e.(e_leases)) ∧
  (∀ l record, e.(e_leases) !! l = Some record →
     is_Some (e.(e_credentials) !! record.(lr_lease).(cl_credential_id)) ∧
     ∀ k, record.(lr_session_claim_key) = Some k →
       k.1.1 = record.(lr_lease).(cl_credential_id) ∧ is_Some (e.(e_session_claims) !! k)).
Proof.
  destruct (reachable_inv HU e HR HD) as [_ [C1 C2 C3 C4] _ _]. split_and!; [|done|].
  - intros c rt Hc. apply (C1 c rt Hc).
  - intros l record Hl. split; [by apply (C2 l)|]. intros k. by apply (C3 l).
Qed.

Lemma lease_accounting_witness :
  ∃ rt, sample_busy.(e_credentials) !! MkTypedId "c" = Some rt ∧
        rt.(rt_inflight) = count_values (owned_by (MkTypedId "c")) sample_busy.(e_leases).
Proof.
  assert (∃ rt, sample_busy.(e_credentials) !! MkTypedId "c" = Some rt) as [rt Hrt] by (vm_compute; eexists; reflexivity).
  exists rt. split; [exact Hrt|].
  apply (lease_accounting sample_uuid 64 sample_busy sample_uuid_source sample_busy_reachable); [|exact Hrt].
  vm_compute. discriminate.
Defined.

(** C2: In every reachable state the Leases and the requests that hold them
    are in bijection, a pending cancel names an existing Lease, and every Lease
    is covered: its request still holds the Group permit, or its forced release
    is scheduled. *)
Theorem lease_tables_consistent uuid bound e
    (HU : uuid_source uuid bound) (HR : reachable uuid e) (HD : e.(e_draws) <= bound) :
  (∀ r l, e.(e_request_leases) !! r = Some l ↔
     ∃ record, e.(e_leases) !! l = Some record ∧ record.(lr_lease).(cl_request_id) = r) ∧
  (∀ l record, e.(e_leases) !! l = Some record →
     record.(lr_lease).(cl_id) = l ∧
     record.(lr_lease).(cl_owner_generation) = e.(e_identity).(ei_generation) ∧
     (record.(lr_lease).(cl_request_id) ∈ e.(e_group_permits) ∨ is_Some (e.(e_pending_cancels) !! l))) ∧
  (∀ l, is_Some (e.(e_pending_cancels) !! l) → is_Some (e.(e_leases) !! l)).
Proof.
  destruct (reachable_inv HU e HR HD) as [[L1 L2 L3 L4 _] _ _ _]. split_and!.
  - intros r l. split; [apply L2|]. intros (record & Hl & <-). by apply (L1 l).
  - intros l record Hl. destruct (L1 l record Hl) as (? & ? & Hr). split_and!; [done..|]. by apply L4.
  - intros l [d Hd]. by apply (L3 l d).
Qed.

Lemma lease_tables_consistent_witness :
  sample_busy.(e_request_leases) !! MkTypedId "r1" = Some sample_lease ∧
  ∃ record, sample_busy.(e_leases) !! sample_lease = Some record ∧
            record.(lr_lease).(cl_request_id) = MkTypedId "r1".
Proof.
  assert (sample_busy.(e_request_leases) !! MkTypedId "r1" = Some sample_lease) as H by (vm_compute; reflexivity).
  split; [exact H|].
  apply (lease_tables_consistent sample_uuid 64 sample_busy sample_uuid_source sample_busy_reachable); [|exact H].
  vm_compute. discriminate.
Defined.

(** In every reachable state the fair queue and the waiting table hold the
    same requests, each once, with the deadline of its ticket; and a waiting
    request holds neither a Group permit nor a Lease. *)
Theorem queue_tables_consistent uuid bound e
    (HU : uuid_source uuid bound) (HR : reachable uuid e) (HD : e.(e_draws) <= bound) :
  NoDup (entry_ids (queue_contents e.(e_queue))) ∧
  e.(e_queue).(fq_len) = N.of_nat (length (queue_contents e.(e_queue))) ∧
  (∀ r, is_Some (e.(e_waiting) !! r) ↔ r ∈ entry_ids (queue_contents e.(e_queue))) ∧
  (∀ entry w, entry ∈ queue_contents e.(e_queue) → e.(e_waiting) !! entry.(se_request_id) = Some w →
     w.(wr_ticket).(qt_request_id) = entry.(se_request_id) ∧
     w.(wr_ticket).(qt_deadline) = entry.(se_pre_upstream_deadline)) ∧
  (∀ r, is_Some (e.(e_waiting) !! r) → (r ∉ e.(e_group_permits)) ∧ e.(e_request_leases) !! r = None).
Proof.
  destruct (reachable_inv HU e HR HD) as [_ _ [Q1 Q2 Q3 Q4 Q5 _] [R1 R2 _]]. rewrite app_nil_r in Q2, Q3, Q5.
  split_and!; [done|apply Q1|done| |].
  - intros entry w He Hw. split; [by apply Q4|by apply Q5].
  - intros r [w Hw]. split; [intros Hp; destruct (R1 r Hp); congruence|].
    destruct (e_request_leases e !! r) as [l|] eqn:Hl; [|done]. destruct (R2 r l Hl). congruence.
Qed.

Lemma queue_tables_consistent_witness :
  is_Some (sample_busy.(e_waiting) !! MkTypedId "r2") ∧
  (MkTypedId "r2" ∉ sample_busy.(e_group_permits)) ∧ sample_busy.(e_request_leases) !! MkTypedId "r2" = None.
Proof.
  assert (is_Some (sample_busy.(e_waiting) !! MkTypedId "r2")) as H by (vm_compute; eexists; reflexivity).
  split; [exact H|].
  apply (queue_tables_consistent sample_uuid 64 sample_busy sample_uuid_source sample_busy_reachable); [|exact H].
  vm_compute. discriminate.
Defined.

(** A command of another generation changes nothing, in any state: an
    executor that lost its Group cannot take, release or move its resources. *)
Theorem stale_command_ignored uuid command g e
    (HG : command_generation command = Some g) (HS : g ≠ e.(e_identity).(ei_generation)) :
  (actor_step uuid command e).2 = e.
Proof.
  assert (stale g e = true) as H by (unfold stale; by apply bool_decide_eq_true_2).
  pose proof (λ now, pump_stale uuid g now e H) as HP.
  destruct command; simpl in HG; simplify_eq; simpl;
    unfold handle_admit, handle_release, handle_replace, handle_observe, admit_request, cancel, release_lease, replace_lease,
      observe_credential_cooldown, observe_credential_auth, observe_credential_quota, set_credential_fence,
      remove_fenced_credential, reconfigure, reconfigure_credential, confirm_transport_cancel, complete_request, disable;
    rewrite ?H; simpl; rewrite ?HP; simpl; unfold send_resolutions;
    try (destruct reply as [[] []]); simpl; done.
Qed.

Lemma stale_command_ignored_witness :
  (actor_step sample_uuid (CmdReleaseLease (MkOwnerGeneration 6) sample_lease 3 received) sample_busy).2 = sample_busy.
Proof.
  apply (stale_command_ignored sample_uuid _ (MkOwnerGeneration 6)); [reflexivity|].
  vm_compute. discriminate.
Defined.

(** C4: In every reachable state a live Lease is released exactly once: the
    release succeeds, takes the Lease out of all its tables, gives back one
    in-flight slot of its Credential (and its half-open probe), leaves every
    other Credential and Lease alone, and a second release is refused and
    changes nothing. *)
Theorem lease_released_exactly_once uuid bound e l record now later
    (HU : uuid_source uuid bound) (HR : reachable uuid e) (HD : e.(e_draws) <= bound)
    (HL : e.(e_leases) !! l = Some record) :
  let g := e.(e_identity).(ei_generation) in
  let e' := (release_lease g l now e).2 in
  let c := record.(lr_lease).(cl_credential_id) in
  (release_lease g l now e).1 = Ok Released ∧
  e'.(e_leases) = delete l e.(e_leases) ∧
  e'.(e_request_leases) = delete record.(lr_lease).(cl_request_id) e.(e_request_leases) ∧
  e'.(e_pending_cancels) = delete l e.(e_pending_cancels) ∧
  e'.(e_group_permits) = e.(e_group_permits) ∧
  (∃ rt rt', e.(e_credentials) !! c = Some rt ∧ e'.(e_credentials) = <[c := rt']> e.(e_credentials) ∧
     rt.(rt_inflight) = rt'.(rt_inflight) + 1 ∧
     (record.(lr_lease).(cl_half_open) = true → rt'.(rt_config).(cc_state).(cs_half_open_inflight) = false)) ∧
  release_lease g l later e' = (Err DuplicateRelease, e').
Proof.
  intros g e' c. pose proof (reachable_inv HU e HR HD) as HI.
  pose proof (not_stale g e eq_refl) as Hs. unfold e'.
  rewrite (release_lease_eq (uuid_v4 := uuid) g l record now e) by (done || apply HI). cbn [fst snd].
  destruct (released_runtime_exact uuid e l record HI HL) as (rt & Hrt & Hpos).
  split_and!; [done..| |].
  - exists rt, (released_runtime (lr_lease record) rt). split_and!.
    + done.
    + simpl. by rewrite (alter_as_insert _ _ _ rt).
    + unfold released_runtime. destruct (cl_half_open (lr_lease record)); simpl; lia.
    + unfold released_runtime. by intros ->.
  - unfold release_lease. simpl. unfold stale in *. simpl. rewrite Hs. by rewrite lookup_delete_eq.
Qed.

Lemma lease_released_exactly_once_witness :
  (release_lease sample_generation sample_lease 3 sample_busy).1 = Ok Released ∧
  release_lease sample_generation sample_lease 4 (release_lease sample_generation sample_lease 3 sample_busy).2 =
  (Err DuplicateRelease, (release_lease sample_generation sample_lease 3 sample_busy).2).
Proof.
  assert (is_Some (sample_busy.(e_leases) !! sample_lease)) as [record HL] by (vm_compute; eexists; reflexivity).
  assert (ei_generation (e_identity sample_busy) = sample_generation) as HG by (vm_compute; reflexivity).
  assert (e_draws sample_busy <= 64) as HD by (vm_compute; discriminate).
  rewrite <- HG.
  pose proof (lease_released_exactly_once sample_uuid 64 sample_busy sample_lease record 3 4
    sample_uuid_source sample_busy_reachable HD HL) as (H1 & _ & _ & _ & _ & _ & H2).
  split; [exact H1|exact H2].
Defined.

(** A retry swaps its Lease atomically. In every reachable state either the
    request ends with exactly the new Lease in place of the old one, under the
    same Group permit; or it keeps the Lease it had, and an error leaves the
    state as it was. *)
Theorem replace_lease_atomic uuid bound g request now e
    (HU : uuid_source uuid bound) (HR : reachable uuid e) (HD : e.(e_draws) < bound) :
  let r := request.(rlr_entry).(se_request_id) in
  let l := request.(rlr_current_lease_id) in
  let e' := (replace_lease uuid g request now e).2 in
  match (replace_lease uuid g request now e).1 with
  | Ok (RetryGranted lease) =>
      lease.(cl_request_id) = r ∧
      e.(e_request_leases) !! r = Some l ∧ e'.(e_request_leases) !! r = Some lease.(cl_id) ∧
      e'.(e_leases) !! l = None ∧ lease.(cl_id) ≠ l ∧
      (∀ x, x ≠ l → x ≠ lease.(cl_id) → e'.(e_leases) !! x = e.(e_leases) !! x) ∧
      r ∈ e.(e_group_permits) ∧ e'.(e_group_permits) = e.(e_group_permits)
  | Ok NoCandidate =>
      e'.(e_leases) = e.(e_leases) ∧ e'.(e_request_leases) = e.(e_request_leases) ∧
      e'.(e_group_permits) = e.(e_group_permits) ∧ e'.(e_session_claims) = e.(e_session_claims) ∧
      ∀ c rt, e.(e_credentials) !! c = Some rt →
        ∃ rt', e'.(e_credentials) !! c = Some rt' ∧ rt'.(rt_inflight) = rt.(rt_inflight)
  | Ok RetryStaleIgnored | Err _ => e' = e
  end.
Proof.
  pose proof (reachable_inv HU e HR ltac:(lia)) as HI.
  pose proof (replace_lease_cases HU g request now e HI) as HC. cbv zeta.
  destruct HC as [|err|m HM|m current target lease e' entry l Hl Hreq Hrl Hperm HM HG]; [done|done| |].
  - simpl. split_and!; [done..|]. intros c rt Hc. specialize (HM c). rewrite Hc in HM.
    destruct (m !! c) as [rt'|]; [|done]. exists rt'. split; [done|]. by destruct (refilled_config _ _ _ HM).
  - destruct (grant_tables _ _ _ _ _ _ _ _ HG) as [Tr _ [key TL] TRL TP _ _ [TD _]]. simpl in TL, TRL, TP, TD.
    assert (cl_id lease ≠ l) as Hne.
    { intros E. destruct HI as [[_ _ _ _ L5] _ _ _]. destruct (L5 l current Hl) as (n & Hn & Hid).
      rewrite <- E, TD in Hid. apply (inj (String.append _)) in Hid. apply (us_fresh _ _ HU) in Hid; lia. }
    split_and!; [done|done| | |done| |done|done].
    + by rewrite TRL, lookup_insert_eq.
    + by rewrite TL, lookup_insert_ne, lookup_delete_eq.
    + intros x Hx Hx'. by rewrite TL, lookup_insert_ne, lookup_delete_ne.
Qed.

Lemma replace_lease_atomic_witness :
  ∃ lease, (replace_lease sample_uuid sample_generation sample_retry 3 sample_busy).1 = Ok (RetryGranted lease) ∧
  (replace_lease sample_uuid sample_generation sample_retry 3 sample_busy).2.(e_leases) !! sample_lease = None.
Proof.
  assert (e_draws sample_busy < 64) as HD by (vm_compute; reflexivity).
  pose proof (replace_lease_atomic sample_uuid 64 sample_generation sample_retry 3 sample_busy
    sample_uuid_source sample_busy_reachable HD) as H.
  assert (∃ lease, (replace_lease sample_uuid sample_generation sample_retry 3 sample_busy).1 = Ok (RetryGranted lease))
    as [lease HN] by (vm_compute; eexists; reflexivity).
  exists lease. split; [exact HN|]. cbv zeta in H. rewrite HN in H. apply H.
Defined.
