(* ===== verification/SchedulerLiveness.v ===== *)
(** Progress of the Group owner: a waiting request is answered exactly once and
    is never lost, the pump serves whatever can be served, deadlines and cancel
    grace periods take effect, and what a dropped reply granted is given back. *)

From S2P Require Import Prelude Machine Domain TokenBucket SchedTypes Samples FairQueue EngineState Eligibility.
From S2P Require Import Engine EngineInv EngineGrant EngineReach EngineOps Actor EnginePump SampleEngine SchedulerSafety.
Local Open Scope N_scope.

(** The requests that an operation's resolutions answer. *)
Definition resolved_ids (resolutions : list QueueResolution) : list RequestId := qr_request_id <$> resolutions.

(** The waiting table [m'] is [m] without the requests [ids], which all waited
    and are listed once. *)
Record leaves_waiting (ids : list RequestId) (m m' : gmap RequestId WaitingRecord) : Prop := {
  lv_nodup : NoDup ids;
  lv_waited r : r ∈ ids → is_Some (m !! r);
  lv_gone r : r ∈ ids → m' !! r = None;
  lv_kept r : r ∉ ids → m' !! r = m !! r;
}.

(** [r1] is cancelled at 3 and its transport never answers. *)
Definition sample_cancelled : SchedulerEngine :=
  actor_run sample_uuid [CmdCancel sample_generation (MkTypedId "r1") 3] sample_busy.

(** ** Lemmas: answering *)

Lemma leaves_none m : leaves_waiting [] m m.
Proof. split; [by apply NoDup_nil|set_solver..|done]. Qed.

Lemma leaves_one r m : is_Some (m !! r) → leaves_waiting [r] m (delete r m).
Proof.
  intros Hr. split; [apply NoDup_singleton|by intros x ->%list_elem_of_singleton|..].
  - intros x ->%list_elem_of_singleton. apply lookup_delete_eq.
  - intros x Hx. apply lookup_delete_ne. set_solver.
Qed.

Lemma leaves_app ids1 ids2 m m1 m2 :
  leaves_waiting ids1 m m1 → leaves_waiting ids2 m1 m2 → leaves_waiting (ids1 ++ ids2) m m2.
Proof.
  intros [A1 A2 A3 A4] [B1 B2 B3 B4].
  assert (∀ r, r ∈ ids1 → r ∉ ids2) as Hdis.
  { intros r H1 [w Hw]%B2. by rewrite (A3 r H1) in Hw. }
  split; [by apply NoDup_app| | |].
  - intros r [Hr|Hr]%elem_of_app; [by apply A2|]. rewrite <- A4; [by apply B2|]. intros H1. by apply (Hdis r).
  - intros r [Hr|Hr]%elem_of_app; [|by apply B3]. rewrite B4 by by apply Hdis. by apply A3.
  - intros r Hr. rewrite B4, A4; set_solver.
Qed.

Lemma expire_waiter_waiting now e r : (expire_waiter now e r).(e_waiting) = delete r e.(e_waiting).
Proof. unfold expire_waiter, forget_rate_admission. simpl. by rewrite drop_ticket_waiting. Qed.

Lemma expire_fold_leaves now ids e :
  NoDup ids → (∀ r, r ∈ ids → is_Some (e.(e_waiting) !! r)) →
  leaves_waiting ids e.(e_waiting) (foldl (expire_waiter now) e ids).(e_waiting).
Proof.
  revert e. induction ids as [|r ids IH]; intros e Hnd Hw; simpl; [apply leaves_none|].
  apply NoDup_cons in Hnd as [Hr Hnd]. apply (leaves_app [r] ids _ (expire_waiter now e r).(e_waiting)).
  - rewrite expire_waiter_waiting. apply leaves_one, Hw. left.
  - apply IH; [done|]. intros x Hx. rewrite expire_waiter_waiting, lookup_delete_ne by (by intros ->).
    apply Hw. by right.
Qed.

Lemma expire_waiters_ids now e :
  resolved_ids (expire_waiters now e).1 =
  (filter (λ '(_, waiting), waiter_expired now waiting = true) (btree_iter e.(e_waiting))).*1.
Proof.
  unfold expire_waiters, resolved_ids. simpl. rewrite <- list_fmap_compose. apply list_fmap_ext. by intros i [r w] _.
Qed.

Lemma expire_waiters_leaves now e :
  leaves_waiting (resolved_ids (expire_waiters now e).1) e.(e_waiting) (expire_waiters now e).2.(e_waiting).
Proof.
  rewrite expire_waiters_ids. apply expire_fold_leaves; [apply NoDup_filter_fst|].
  intros r (w & -> & _)%elem_of_expired. by eexists.
Qed.

Lemma release_lease_waiting g l now e : (release_lease g l now e).2.(e_waiting) = e.(e_waiting).
Proof.
  unfold release_lease. destruct (stale g e); [done|]. destruct (_ !! _) as [record|]; [|done].
  set (e1 := with_e_pending_cancels _ _). change (e_waiting e) with (e_waiting e1). clearbody e1.
  destruct (release_runtime_fields (lr_lease record) e1) as [m Hm].
  destruct (release_runtime _ e1) as [[u|err] e2]; simpl in Hm; subst e2; [|done].
  destruct (release_claim_fields (lr_session_claim_key record) now (with_e_credentials m e1)) as [m' Hm'].
  by destruct (release_claim _ _ _) as [[u'|err] e3]; simpl in Hm'; subst e3.
Qed.

Lemma expire_cancel_grace_waiting now e : (expire_cancel_grace now e).(e_waiting) = e.(e_waiting).
Proof.
  unfold expire_cancel_grace. set (ids := (filter _ _).*1). clearbody ids. revert e.
  induction ids as [|l ids IH]; intros e; simpl; [done|]. by rewrite IH, release_lease_waiting.
Qed.

Lemma pump_expire_waiting now e :
  (pump_expire now e) = expire_waiters now (prune now (expire_cancel_grace now e)) ∧
  (prune now (expire_cancel_grace now e)).(e_waiting) = e.(e_waiting).
Proof.
  split; [done|]. destruct (prune_tables now (expire_cancel_grace now e)) as [-> _].
  apply expire_cancel_grace_waiting.
Qed.

Lemma grant_waiting uuid entry c now acquire e : (grant uuid entry c now acquire e).2.(e_waiting) = e.(e_waiting).
Proof.
  unfold grant. destruct (_ !! c); [|done]. destruct (lease_execution _ _); [|done].
  destruct (charge_runtime _ _ _ _) as [[|] ?]; [|done]. unfold draw. simpl. destruct (TypedId_new _ _); [|done].
  simpl. unfold install_lease. simpl.
  match goal with |- context [acquire_session_claim entry c ?y] =>
    destruct (acquire_session_claim_eq entry c y) as (k & new & -> & _) end.
  by destruct new, acquire.
Qed.

Section pump.
Context {uuid : N → string} {bound : N} (HU : uuid_source uuid bound).
Abbreviation engine_inv := (engine_inv uuid).

(** A popped entry is answered. *)
Lemma pump_serve_leaves now e entry e1 :
  engine_inv e → pump_pop now e = (Some entry, e1) →
  ∃ resolution, (pump_serve uuid entry now e1).1.1 = Some resolution ∧
    resolution.(qr_request_id) = entry.(se_request_id) ∧
    leaves_waiting [entry.(se_request_id)] e.(e_waiting) (pump_serve uuid entry now e1).2.(e_waiting).
Proof using Type.
  clear HU bound. intros HI HP. pose proof (pump_pop_inv now e HI) as HI1. rewrite HP in HI1.
  destruct (held_idle entry [] e1 HI1) as ([w Hw] & _).
  assert (e_waiting e1 = e_waiting e) as HE.
  { destruct (pump_pop_fields now e) as (o & m & adm & bucket & queue & HE). rewrite HE in HP. by injection HP as _ <-. }
  destruct (pump_serve_continues (uuid_v4 := uuid) now e entry e1 HI HP) as [Hcont _].
  unfold pump_serve in *. rewrite Hw in *. rewrite <- HE.
  assert (leaves_waiting [se_request_id entry] (e_waiting e1)
    (e_waiting (drop_ticket (se_request_id entry) Release now e1))) as HL.
  { rewrite drop_ticket_waiting. apply leaves_one. by eexists. }
  set (e2 := drop_ticket _ _ _ _) in *. destruct (_ <=? now); [by eexists|].
  assert (e_waiting (evaluate_pool entry now e2).2 = e_waiting e2) as Hev.
  { unfold evaluate_pool. by destruct (evaluate_pool_fields _ _ _ _ _ _). }
  destruct (evaluate_pool entry now e2) as [[c| | | |] e3]; simpl in Hev, Hcont; try done.
  pose proof (grant_waiting uuid entry c now true e3) as HG.
  destruct (grant uuid entry c now true e3) as [res e4]. simpl in *. rewrite HG, Hev. by eexists.
Qed.

Lemma pump_loop_leaves fuel now e :
  (pump_loop uuid fuel now e).2.(e_draws) <= bound → engine_inv e →
  leaves_waiting (resolved_ids (pump_loop uuid fuel now e).1) e.(e_waiting) (pump_loop uuid fuel now e).2.(e_waiting).
Proof using HU.
  revert e. induction fuel as [|fuel IH]; intros e Hd HI; cbn [pump_loop] in *; [apply leaves_none|].
  destruct (_ <=? _); [apply leaves_none|].
  pose proof (pump_pop_inv now e HI) as HP. pose proof (pump_serve_leaves now e) as HS.
  pose proof (pump_serve_continues (uuid_v4 := uuid) now e) as HC.
  destruct (pump_pop_fields now e) as (o & m & adm & bucket & queue & HE).
  assert (e_waiting (pump_pop now e).2 = e_waiting e) as HW by by rewrite HE.
  destruct (pump_pop now e) as [[entry|] e1] eqn:Epop.
  2:{ simpl in *. rewrite HW. apply leaves_none. }
  destruct (HS entry e1 HI eq_refl) as (res & Hres & Hid & HL). destruct (HC entry e1 HI eq_refl) as [Hcont _].
  pose proof (pump_serve_inv HU entry now e1) as HI2.
  destruct (pump_serve uuid entry now e1) as [[o' cont] e2]. cbn [fst snd] in *. subst o' cont.
  pose proof (pump_loop_draws (uuid_v4 := uuid) fuel now e2) as Hd2. specialize (IH e2).
  destruct (pump_loop uuid fuel now e2) as [rs e3]. cbn [fst snd] in *.
  unfold resolved_ids. simpl. rewrite Hid. apply (leaves_app [se_request_id entry] _ _ (e_waiting e2)); [done|].
  apply IH; [done|apply HI2; [lia|done]].
Qed.

Lemma pump_expire_leaves now e :
  leaves_waiting (resolved_ids (pump_expire now e).1) e.(e_waiting) (pump_expire now e).2.(e_waiting).
Proof using Type. destruct (pump_expire_waiting now e) as [-> <-]. apply expire_waiters_leaves. Qed.

Lemma pump_leaves g now e :
  (pump uuid g now e).2.(e_draws) <= bound → engine_inv e →
  leaves_waiting (resolved_ids (pump uuid g now e).1) e.(e_waiting) (pump uuid g now e).2.(e_waiting).
Proof using HU.
  intros Hd HI. unfold pump in *. destruct (_ || _); [apply leaves_none|].
  pose proof (pump_expire_leaves now e) as HE. destruct (pump_expire_inv now e HI) as (HI1 & _).
  destruct (pump_expire now e) as [expired e1]. cbn [fst snd] in *.
  pose proof (pump_loop_leaves (S (N.to_nat (fq_len (e_queue e1)))) now e1) as HL.
  destruct (pump_loop _ _ _ e1) as [rs e2]. cbn [fst snd] in *. unfold resolved_ids in *. rewrite fmap_app.
  by apply (leaves_app _ _ _ (e_waiting e1)), HL.
Qed.

End pump.

(** ** Lemmas: draining *)

(** What rejecting a queued entry leaves alone. *)
Record untouched (e e' : SchedulerEngine) : Prop := {
  un_leases : e'.(e_leases) = e.(e_leases);
  un_request_leases : e'.(e_request_leases) = e.(e_request_leases);
  un_permits : e'.(e_group_permits) = e.(e_group_permits);
  un_pending : e'.(e_pending_cancels) = e.(e_pending_cancels);
  un_credentials : e'.(e_credentials) = e.(e_credentials);
  un_lifecycle : e'.(e_lifecycle) = e.(e_lifecycle);
}.

#[export] Instance untouched_refl : Reflexive untouched.
Proof. by split. Qed.

#[export] Instance untouched_trans : Transitive untouched.
Proof. intros x y z [] []. split; congruence. Qed.

Lemma reject_queued_leaves uuid retry entry held now e :
  inv_mid uuid (entry :: held) ∅ e →
  (reject_queued retry now entry e).1 =
    {| qr_request_id := entry.(se_request_id); qr_decision := rejected GroupUnavailable retry |} ∧
  leaves_waiting [entry.(se_request_id)] e.(e_waiting) (reject_queued retry now entry e).2.(e_waiting) ∧
  (reject_queued retry now entry e).2.(e_queue) = e.(e_queue) ∧
  untouched e (reject_queued retry now entry e).2.
Proof.
  intros HI. destruct (held_idle entry held e HI) as ([w Hw] & _). unfold reject_queued, forget_rate_admission. simpl.
  split_and!; [done| | |].
  - rewrite drop_ticket_waiting. apply leaves_one. by eexists.
  - unfold drop_ticket. by rewrite Hw.
  - unfold drop_ticket. rewrite Hw. by split.
Qed.

Lemma disable_loop_leaves uuid entries now e :
  inv_mid uuid entries ∅ e →
  (disable_loop entries now e).1 =
    map (λ entry, {| qr_request_id := entry.(se_request_id); qr_decision := rejected GroupUnavailable None |}) entries ∧
  leaves_waiting (entry_ids entries) e.(e_waiting) (disable_loop entries now e).2.(e_waiting) ∧
  (disable_loop entries now e).2.(e_queue) = e.(e_queue) ∧
  untouched e (disable_loop entries now e).2.
Proof.
  revert e. induction entries as [|entry entries IH]; intros e HI; cbn [disable_loop map].
  { split_and!; [done|apply leaves_none|done|done]. }
  destruct (reject_queued_leaves uuid None entry entries now e HI) as (H1 & H2 & H3 & H4).
  destruct (reject_queued_inv (uuid_v4 := uuid) None entry entries now e HI) as [HI1 _].
  destruct (reject_queued None now entry e) as [res e1]. cbn [fst snd] in *. subst res.
  destruct (IH e1 HI1) as (I1 & I2 & I3 & I4). destruct (disable_loop entries now e1) as [rs e2]. cbn [fst snd] in *.
  split_and!; [by rewrite I1|by apply (leaves_app [se_request_id entry] _ _ (e_waiting e1))|congruence|by etrans].
Qed.

(** The entries a reconfiguration keeps. *)
Definition on_version (version : SnapshotVersion) (entry : ScheduleEntry) : Prop :=
  entry.(se_generic).(gar_snapshot_set).(rss_group_config) = version.

#[export] Instance on_version_dec version entry : Decision (on_version version entry).
Proof. unfold on_version. apply _. Defined.

Lemma reconfigure_loop_leaves uuid entries version now e :
  inv_mid uuid entries ∅ e →
  let others := filter (λ entry, ¬ on_version version entry) entries in
  let kept := filter (on_version version) entries in
  (reconfigure_loop entries version now e).1 =
    map (λ entry, {| qr_request_id := entry.(se_request_id);
                     qr_decision := rejected GroupUnavailable (Some (from_secs 1)) |}) others ∧
  leaves_waiting (entry_ids others) e.(e_waiting) (reconfigure_loop entries version now e).2.(e_waiting) ∧
  queue_contents (reconfigure_loop entries version now e).2.(e_queue) ≡ₚ queue_contents e.(e_queue) ++ kept ∧
  (∀ x, queue_lane x (reconfigure_loop entries version now e).2.(e_queue) =
        queue_lane x e.(e_queue) ++ filter (same_lane x) kept) ∧
  untouched e (reconfigure_loop entries version now e).2.
Proof.
  revert e. induction entries as [|entry entries IH]; intros e HI; cbn [reconfigure_loop].
  { cbn. split_and!; [done|apply leaves_none|by rewrite app_nil_r|intros x; by rewrite app_nil_r|done]. }
  cbv zeta in *. pose proof (qo_wf _ _ _ (inv_queue _ _ _ _ HI)) as Hwf.
  destruct (decide (_ = version)) as [Hv|Hv].
  - rewrite (filter_cons_False (λ x, ¬ on_version version x)) by (intros Hn; by apply Hn).
    rewrite (filter_cons_True (on_version version)) by done.
    pose proof (requeue_held_inv (uuid_v4 := uuid) entry entries e HI) as HI1.
    set (e1 := with_e_queue (queue_push entry (e_queue e)) e) in *.
    destruct (IH e1 HI1) as (I1 & I2 & I3 & I4 & I5). split_and!; [done|done| | |].
    + rewrite I3. simpl. destruct (queue_push_spec entry _ Hwf) as [_ ->]. by rewrite <- Permutation_middle.
    + intros x. rewrite I4. simpl. rewrite (queue_push_lane x entry _ Hwf), <- app_assoc. f_equal.
      by rewrite <- filter_app.
    + etrans; [|exact I5]. by split.
  - rewrite (filter_cons_True (λ x, ¬ on_version version x)) by done.
    rewrite (filter_cons_False (on_version version)) by done.
    destruct (reject_queued_leaves uuid (Some (from_secs 1)) entry entries now e HI) as (H1 & H2 & H3 & H4).
    destruct (reject_queued_inv (uuid_v4 := uuid) (Some (from_secs 1)) entry entries now e HI) as [HI1 _].
    destruct (reject_queued _ now entry e) as [res e1]. cbn [fst snd] in *. subst res.
    destruct (IH e1 HI1) as (I1 & I2 & I3 & I4 & I5).
    destruct (reconfigure_loop entries version now e1) as [rs e2]. cbn [fst snd] in *.
    split_and!; [by rewrite I1|by apply (leaves_app [se_request_id entry] _ _ (e_waiting e1))| | |by etrans].
    + by rewrite I3, H3.
    + intros x. by rewrite I4, H3.
Qed.

(** ** Lemmas: what the properties share *)

Lemma waiting_empty uuid e : engine_inv uuid e → queue_contents e.(e_queue) = [] → e.(e_waiting) = ∅.
Proof.
  intros [_ _ [_ _ Q3 _ _ _] _] He. apply map_empty. intros r. apply eq_None_not_Some. intros Hr%Q3.
  rewrite He in Hr. simpl in Hr. set_solver.
Qed.

(** Draining hands every entry to the loop of [disable] or [reconfigure]. *)
Lemma queue_drain_parts uuid e :
  engine_inv uuid e →
  inv_mid uuid (queue_drain e.(e_queue)).1 ∅ (with_e_queue (queue_drain e.(e_queue)).2 e) ∧
  queue_contents (queue_drain e.(e_queue)).2 = [] ∧
  (queue_drain e.(e_queue)).1 ≡ₚ queue_contents e.(e_queue) ∧
  (∀ x, queue_lane x e.(e_queue) = filter (same_lane x) (queue_drain e.(e_queue)).1) ∧
  ∀ x, queue_lane x (queue_drain e.(e_queue)).2 = [].
Proof.
  intros HI. split; [by apply drain_inv|].
  destruct (queue_drain_spec _ (qo_wf _ _ _ (inv_queue _ _ _ _ HI))) as ([Hw _] & H2 & H3 & H4).
  split_and!; [done|done|done|]. intros x. apply list_nil_subseteq. rewrite <- H2. by apply (fl_lane x _ Hw).
Qed.

(** ** Lemmas: an admission nobody hears about *)

(** The request has neither a ticket, nor a Lease, nor a Group permit. *)
Record holds_nothing (r : RequestId) (e : SchedulerEngine) : Prop := {
  hn_waiting : e.(e_waiting) !! r = None;
  hn_lease : e.(e_request_leases) !! r = None;
  hn_permit : r ∉ e.(e_group_permits);
}.

(** What a decision says about its request. *)
Definition decision_about (r : RequestId) (decision : result SchedulerError AdmissionDecision) (e : SchedulerEngine)
    : Prop :=
  match decision with
  | Ok (Granted lease) => lease.(cl_request_id) = r
  | Ok (Queued ticket) => ticket.(qt_request_id) = r ∧ is_Some (e.(e_waiting) !! r)
  | Ok (Rejected _) | Ok StaleIgnored | Err _ => holds_nothing r e
  end.

Lemma unseen_holds_nothing uuid r e : engine_inv uuid e → r ∉ e.(e_seen_requests) → holds_nothing r e.
Proof.
  intros [_ _ _ [R1 R2 R3]] Hr. split.
  - destruct (e_waiting e !! r) as [w|] eqn:E; [|done]. by apply R3 in E.
  - destruct (e_request_leases e !! r) as [l|] eqn:E; [|done]. by destruct (R2 r l E).
  - intros Hp. by destruct (R1 r Hp).
Qed.

Lemma enqueue_about uuid entry now slot e :
  let r := entry.(se_request_id) in
  holds_nothing r e → decision_about r (enqueue uuid entry now slot e).1 (enqueue uuid entry now slot e).2.
Proof.
  intros r [H1 H2 H3]. unfold enqueue. destruct (_ <=? _); [by split|]. unfold draw. simpl.
  destruct (TypedId_new _ _); [|by split]. simpl. split; [done|]. fold r. rewrite lookup_insert_eq. by eexists.
Qed.

Lemma admit_or_queue_about uuid entry ev now e :
  let r := entry.(se_request_id) in
  holds_nothing r e → decision_about r (admit_or_queue uuid entry ev now e).1 (admit_or_queue uuid entry ev now e).2.
Proof.
  intros r Hn. unfold admit_or_queue. destruct (se_bypass_queue entry); [by destruct Hn|]. by apply enqueue_about.
Qed.

Lemma admit_evaluated_about uuid bound entry now e :
  let r := entry.(se_request_id) in
  uuid_source uuid bound → holds_nothing r e →
  decision_about r (admit_evaluated uuid entry now e).1 (admit_evaluated uuid entry now e).2.
Proof.
  intros r HU Hn. unfold admit_evaluated.
  pose proof (λ c e', evaluate_pool_grants uuid bound entry c now true e e' HU) as HG.
  assert (holds_nothing r (evaluate_pool entry now e).2) as Hn1.
  { unfold evaluate_pool. destruct (evaluate_pool_fields _ _ _ _ _ _). by destruct Hn. }
  destruct (evaluate_pool entry now e) as [ev e1]. cbn [fst snd] in *.
  assert (holds_nothing r (forget_rate_admission r e1)) as Hf by by destruct Hn1.
  pose proof (λ ev, admit_or_queue_about uuid entry ev now e1 Hn1) as HQ.
  destruct (_ && _).
  - destruct ev as [c| | |retry|]; try apply HQ; [|destruct (_ <=? _); [done|apply HQ]|done].
    specialize (HG c e1 eq_refl). pose proof (grant_tables uuid entry c now true e1) as HT.
    destruct (grant uuid entry c now true e1) as [[lease|err] e2]; [|done]. simpl.
    by destruct (HT lease e2 eq_refl).
  - by destruct ev; try apply HQ.
Qed.

Lemma admit_about uuid bound g entry now e :
  let r := entry.(se_request_id) in
  uuid_source uuid bound → engine_inv uuid e → r ∉ e.(e_seen_requests) →
  decision_about r (admit_request uuid g entry now e).1 (admit_request uuid g entry now e).2.
Proof.
  intros r HU HI Hr. pose proof (unseen_holds_nothing uuid r e HI Hr) as Hn. unfold admit_request. fold r.
  destruct (stale g e); [done|]. case_decide; [done|]. case_decide; [done|]. case_decide; [done|].
  case_decide; [done|]. destruct (_ <=? now); [done|]. set (e0 := with_e_request_portability _ _).
  assert (holds_nothing r (prune now e0)) as Hn1.
  { destruct (prune_tables now e0) as (T1 & T2 & T3 & _). destruct Hn. by split; rewrite ?T1, ?T2, ?T3. }
  set (e1 := prune now e0) in *. clearbody e1.
  destruct (e_group_bucket e1) as [b|]; [|by apply (admit_evaluated_about uuid bound)].
  destruct (try_consume b now) as [[] b1]; cbn [negb].
  - apply (admit_evaluated_about uuid bound); [done|]. by destruct Hn1.
  - destruct (retry_after b1 now) as [retry b2]. destruct (_ <=? _); [by destruct Hn1|].
    destruct (se_bypass_queue entry); [by destruct Hn1|]. apply enqueue_about. by destruct Hn1.
Qed.

(** Giving a decision back leaves its request without anything. *)
Lemma abandon_admission_clears uuid r decision now e :
  engine_inv uuid e → decision_settled decision e → decision_about r (Ok decision) e →
  holds_nothing r (abandon_admission decision now e).
Proof.
  intros HI HS HA. destruct decision as [lease|ticket|rejection|]; simpl in *; [| |done|done].
  - destruct HS as [HSw HSl]. rewrite HA in *. set (g := ei_generation (e_identity e)). set (l := cl_id lease) in *.
    assert (e_waiting (release_lease g l now e).2 !! r = None) as Hw by by rewrite release_lease_waiting.
    assert (e_request_leases (release_lease g l now e).2 !! r = None) as Hl.
    { destruct (e_request_leases (release_lease g l now e).2 !! r) as [l'|] eqn:Hr; [|done].
      pose proof (release_lease_evolves ∅ g l now e) as HE.
      pose proof (ev_leases _ _ _ HE r l' (not_elem_of_empty r) HSw Hr) as Hr0.
      pose proof (HSl l' Hr0) as ->.
      destruct HI as [HL HC _ _]. destruct (lo_request _ _ HL r l Hr0) as (record & Hrec & Hreq).
      rewrite (release_lease_eq (uuid_v4 := uuid) g l record now e HL HC (not_stale g e eq_refl) Hrec) in Hr.
      simpl in Hr. rewrite Hreq, lookup_delete_eq in Hr. done. }
    unfold release_group_permit. case_decide; simpl; split; simpl; try done. set_solver.
  - destruct HA as [-> Hw]. unfold cancel. rewrite (not_stale _ e eq_refl), decide_True by done. simpl.
    destruct HI as [_ _ _ [R1 R2 _]]. split.
    + rewrite drop_ticket_waiting. simpl. apply lookup_delete_eq.
    + destruct (drop_ticket_tables r Release now (forget_rate_admission r (with_e_queue (queue_remove r (e_queue e)).2 e)))
        as (-> & _). simpl. destruct (e_request_leases e !! r) as [l|] eqn:E; [|done].
      destruct (R2 r l E) as [_ Hn]. rewrite Hn in Hw. by destruct Hw.
    + destruct (drop_ticket_tables r Release now (forget_rate_admission r (with_e_queue (queue_remove r (e_queue e)).2 e)))
        as (_ & -> & _). simpl. intros Hp. destruct (R1 r Hp) as [_ Hn]. rewrite Hn in Hw. by destruct Hw.
Qed.

(** ** Lemmas: a Lease that is gone stays gone *)

Definition drawn_before (uuid : N → string) (l : LeaseId) (e : SchedulerEngine) : Prop :=
  ∃ n, n < e.(e_draws) ∧ id_value l = "lease_" +:+ uuid n.

Lemma release_lease_gone g l l' now e :
  e.(e_leases) !! l = None → (release_lease g l' now e).2.(e_leases) !! l = None.
Proof.
  intros Hl. unfold release_lease. destruct (stale g e); [done|]. destruct (_ !! l') as [record|]; [|done].
  set (e1 := with_e_pending_cancels _ _).
  assert (e_leases e1 !! l = None) as H1 by (apply lookup_delete_None; by right). clearbody e1.
  destruct (release_runtime_fields (lr_lease record) e1) as [m Hm].
  destruct (release_runtime _ e1) as [[u|err] e2]; simpl in Hm; subst e2; [|done].
  destruct (release_claim_fields (lr_session_claim_key record) now (with_e_credentials m e1)) as [m' Hm'].
  by destruct (release_claim _ _ _) as [[u'|err] e3]; simpl in Hm'; subst e3.
Qed.

Lemma release_fold_gone uuid l now ids e :
  engine_inv uuid e → l ∈ ids ∨ e.(e_leases) !! l = None →
  (foldl (λ e l, (release_lease e.(e_identity).(ei_generation) l now e).2) e ids).(e_leases) !! l = None.
Proof.
  revert e. induction ids as [|x ids IH]; intros e HI Hl; simpl; [destruct Hl as [Hl|Hl]; [by apply not_elem_of_nil in Hl|exact Hl]|].
  apply IH; [exact (release_lease_inv [] ∅ _ x now e HI)|].
  destruct Hl as [[->|Hin]%elem_of_cons|Hl]; [|by left|right; by apply release_lease_gone].
  right. destruct (e_leases e !! x) as [record|] eqn:Hx; [|by apply release_lease_gone].
  rewrite (release_lease_eq (uuid_v4 := uuid) _ x record now e) by (done || apply HI || by apply not_stale).
  simpl. apply lookup_delete_eq.
Qed.

Lemma expire_waiters_leases now e : (expire_waiters now e).2.(e_leases) = e.(e_leases).
Proof.
  unfold expire_waiters. simpl. set (ids := (filter _ _).*1). clearbody ids. revert e.
  induction ids as [|x ids IH]; intros e; simpl; [done|]. rewrite IH. unfold expire_waiter, drop_ticket. simpl.
  by destruct (_ !! x).
Qed.

Lemma pump_serve_gone uuid bound l entry now e :
  uuid_source uuid bound → (pump_serve uuid entry now e).2.(e_draws) <= bound →
  drawn_before uuid l e → e.(e_leases) !! l = None → (pump_serve uuid entry now e).2.(e_leases) !! l = None.
Proof.
  intros HU Hd (n & Hn & Hid) Hl. unfold pump_serve in *. destruct (e_waiting e !! se_request_id entry) as [w|]; [|done].
  assert (e_leases (drop_ticket (se_request_id entry) Release now e) = e_leases e ∧
          e_draws (drop_ticket (se_request_id entry) Release now e) = e_draws e) as [D1 D2].
  { unfold drop_ticket. by destruct (e_waiting e !! se_request_id entry). }
  set (e1 := drop_ticket _ _ _ _) in *. destruct (_ <=? now); [simpl; congruence|].
  assert (e_leases (evaluate_pool entry now e1).2 = e_leases e ∧ e_draws (evaluate_pool entry now e1).2 = e_draws e) as [V1 V2].
  { unfold evaluate_pool. by destruct (evaluate_pool_fields _ _ _ _ _ _). }
  destruct (evaluate_pool entry now e1) as [[c| | | |] e2]; simpl in *; try congruence.
  pose proof (grant_tables uuid entry c now true e2) as HT.
  assert (e_leases e2 !! l = None) as Hl2 by congruence.
  pose proof (grant_error_leases uuid entry c now true e2) as HE.
  destruct (grant uuid entry c now true e2) as [[lease|err] e3]; simpl in *; [|by rewrite HE].
  destruct (HT lease e3 eq_refl) as [_ _ [key ->] _ _ _ _ [TD1 TD2]]. rewrite lookup_insert_ne; [done|].
  intros <-. rewrite Hid in TD1. apply (inj (String.append _)) in TD1. apply (us_fresh _ _ HU) in TD1; lia.
Qed.

Lemma pump_loop_gone uuid bound l fuel now e :
  uuid_source uuid bound → (pump_loop uuid fuel now e).2.(e_draws) <= bound →
  drawn_before uuid l e → e.(e_leases) !! l = None → (pump_loop uuid fuel now e).2.(e_leases) !! l = None.
Proof.
  intros HU. revert e. induction fuel as [|fuel IH]; intros e Hd Hdr Hl; cbn [pump_loop] in *; [done|].
  destruct (_ <=? _); [done|]. destruct (pump_pop_fields now e) as (o & m & adm & b & q & HE). rewrite HE in *.
  set (e1 := with_e_queue _ _) in *. assert (drawn_before uuid l e1 ∧ e_leases e1 !! l = None) as [Hdr1 Hl1] by done.
  clearbody e1. destruct o as [entry|]; [|done].
  pose proof (pump_serve_gone uuid bound l entry now e1 HU) as HS.
  pose proof (pump_serve_draws (uuid_v4 := uuid) entry now e1) as Hd1.
  destruct (pump_serve uuid entry now e1) as [[res cont] e2]. cbn [fst snd] in *.
  assert (drawn_before uuid l e2) as Hdr2 by (destruct Hdr1 as (n & ? & ?); exists n; split; [lia|done]).
  destruct cont; [|by apply HS].
  pose proof (pump_loop_draws (uuid_v4 := uuid) fuel now e2) as Hd2. specialize (IH e2).
  destruct (pump_loop uuid fuel now e2) as [rs e3]. cbn [fst snd] in *. apply IH; [done|done|]. apply HS; [lia|done|done].
Qed.

(** ** Properties *)

(** C3: The pump is work-conserving. After a pump of a serving Group in a
    reachable state, the Group is at its effective concurrency, or no head of
    the fair queue can be served at that instant: each is before its deadline
    and either the Group rate has no token for it, or it passed the rate limit
    and the pool evaluation, on the state the pump left, offers it no
    Credential. *)
Theorem pump_work_conserving uuid bound now e
    (HU : uuid_source uuid bound) (HR : reachable uuid e) (HS : e.(e_lifecycle) = Serving)
    (HD : (pump uuid e.(e_identity).(ei_generation) now e).2.(e_draws) <= bound) :
  let e' := (pump uuid e.(e_identity).(ei_generation) now e).2 in
  effective_concurrency e' <= permits_len e' ∨
  ∀ entry, entry ∈ queue_heads e'.(e_queue) →
    now < entry.(se_pre_upstream_deadline) ∧
    ((∃ bucket, e'.(e_group_bucket) = Some bucket ∧ (try_consume bucket now).1 = false ∧
                entry.(se_request_id) ∉ e'.(e_group_rate_admitted)) ∨
     ∀ id, (evaluate_pool entry now e').1 ≠ Candidate id).
Proof.
  cbv zeta. pose proof (pump_draws (uuid_v4 := uuid) (ei_generation (e_identity e)) now e) as Hmono.
  pose proof (reachable_inv HU e HR ltac:(lia)) as HI. clear HR. unfold pump in *.
  rewrite (not_stale _ e eq_refl), HS in *. cbn [negb orb] in *. rewrite bool_decide_eq_true_2 in * by done. cbn [negb] in *.
  destruct (pump_expire_inv (uuid_v4 := uuid) now e HI) as (HI1 & _).
  destruct (pump_expire now e) as [expired e1]. cbn [fst snd] in *.
  set (fuel := S _) in *. pose proof (pump_loop_stops HU fuel now e1) as HL.
  destruct (pump_loop uuid fuel now e1) as [rs e2]. cbn [fst snd] in *.
  destruct HL as [?|(e0 & HI0 & Hpop)]; [done|done| |by left|right].
  { unfold fuel. rewrite (qw_len _ (qo_wf _ _ _ (inv_queue _ _ _ _ HI1))). lia. }
  destruct (pump_pop_none now e0 e2 HI0 Hpop) as [_ HT]. intros entry Hin.
  destruct (HT entry Hin) as [Hd Hv Hr]. simpl in Hv, Hr. split; [done|].
  assert ((evaluate_pool entry now e2).1 = (evaluate_pool_fields (e_credentials e2) (e_affinities e2)
    (e_session_claims e2) (e_config e2) entry now).1) as HE.
  { unfold evaluate_pool. by destruct (evaluate_pool_fields _ _ _ _ _ _). }
  setoid_rewrite HE. destruct (decide (se_request_id entry ∈ e_group_rate_admitted e2)) as [Ha|Ha]; [right; apply Hv; by left|].
  destruct Hr as [?|[Hn|(b & Hb & Hf)]]; [done|right; apply Hv; by right|left; by exists b].
Qed.

(** [r2] may run as soon as [r1] gave its permit back. *)
Lemma pump_work_conserving_witness :
  let e' := (pump sample_uuid (ei_generation (e_identity sample_busy)) 3 sample_busy).2 in
  effective_concurrency e' <= permits_len e' ∨
  ∀ entry, entry ∈ queue_heads e'.(e_queue) → 3 < entry.(se_pre_upstream_deadline).
Proof.
  destruct (pump_work_conserving sample_uuid 64 3 sample_busy sample_uuid_source sample_busy_reachable) as [H|H].
  - vm_compute. reflexivity.
  - vm_compute. discriminate.
  - by left.
  - right. intros entry Hin. apply (H entry Hin).
Defined.

(** In every reachable state the pump answers a waiting request at most
    once and loses none: each one is either answered by exactly one resolution
    and waits no more, or it is not answered and still waits with its ticket;
    one whose deadline or session-slot deadline passed is answered. *)
Theorem pump_answers_once uuid bound now e
    (HU : uuid_source uuid bound) (HR : reachable uuid e) (HS : e.(e_lifecycle) = Serving)
    (HD : (pump uuid e.(e_identity).(ei_generation) now e).2.(e_draws) <= bound) :
  let '(resolutions, e') := pump uuid e.(e_identity).(ei_generation) now e in
  leaves_waiting (resolved_ids resolutions) e.(e_waiting) e'.(e_waiting) ∧
  ∀ r w, e.(e_waiting) !! r = Some w → waiter_expired now w = true →
    {| qr_request_id := r; qr_decision := rejected (expiry_kind now w) (Some (from_secs 5)) |} ∈ resolutions.
Proof.
  pose proof (pump_draws (uuid_v4 := uuid) (ei_generation (e_identity e)) now e) as Hmono.
  pose proof (reachable_inv HU e HR ltac:(lia)) as HI. clear HR.
  pose proof (pump_leaves HU (ei_generation (e_identity e)) now e HD HI) as HL.
  unfold pump in *. rewrite (not_stale _ e eq_refl), HS in *. rewrite bool_decide_eq_true_2 in * by done.
  cbn [negb orb] in *. destruct (pump_expire_waiting now e) as [HE HW]. rewrite HE in *.
  set (e1 := prune now _) in *. destruct (expire_waiters now e1) as [expired e2] eqn:Ee.
  destruct (pump_loop _ _ _ e2) as [rs e3]. cbn [fst snd] in *. split; [done|].
  intros r w Hr Hw. apply elem_of_app. left. rewrite <- HW in Hr.
  unfold expire_waiters in Ee. injection Ee as <- _. apply list_elem_of_fmap. exists (r, w). split; [done|].
  apply list_elem_of_filter. by rewrite elem_of_btree_iter.
Qed.

(** [r2] is timed out when its deadline has passed. *)
Lemma pump_answers_once_witness :
  {| qr_request_id := MkTypedId "r2"; qr_decision := rejected TimedOut (Some (from_secs 5)) |}
    ∈ (pump sample_uuid (ei_generation (e_identity sample_busy)) (from_secs 31) sample_busy).1.
Proof.
  pose proof (pump_answers_once sample_uuid 64 (from_secs 31) sample_busy sample_uuid_source sample_busy_reachable) as H.
  assert (match e_waiting sample_busy !! MkTypedId "r2" with
          | Some w => (waiter_expired (from_secs 31) w, expiry_kind (from_secs 31) w) = (true, TimedOut)
          | None => False end) as Hw by (vm_compute; reflexivity).
  assert (e_lifecycle sample_busy = Serving) as HS by (vm_compute; reflexivity).
  assert ((pump sample_uuid (ei_generation (e_identity sample_busy)) (from_secs 31) sample_busy).2.(e_draws) <= 64) as HD
    by (vm_compute; discriminate).
  specialize (H HS HD). destruct (pump sample_uuid _ _ sample_busy) as [rs e']. destruct H as [_ H].
  destruct (e_waiting sample_busy !! MkTypedId "r2") as [w|] eqn:Hr; [|destruct Hw].
  injection Hw as Hw Hk. rewrite <- Hk. exact (H _ w Hr Hw).
Defined.

(** Disabling a Group in a reachable state answers every waiting request
    once with [GroupUnavailable], in the order of the fair queue, empties the
    queue and the waiting table, and leaves Leases, permits and Credentials to
    finish. *)
Theorem disable_answers_all uuid bound now e
    (HU : uuid_source uuid bound) (HR : reachable uuid e) (HD : e.(e_draws) <= bound) :
  let '(resolutions, e') := disable e.(e_identity).(ei_generation) now e in
  e'.(e_lifecycle) = Draining ∧
  queue_contents e'.(e_queue) = [] ∧ e'.(e_waiting) = ∅ ∧
  resolved_ids resolutions ≡ₚ entry_ids (queue_contents e.(e_queue)) ∧
  (∀ resolution, resolution ∈ resolutions → resolution.(qr_decision) = rejected GroupUnavailable None) ∧
  e'.(e_leases) = e.(e_leases) ∧ e'.(e_request_leases) = e.(e_request_leases) ∧
  e'.(e_group_permits) = e.(e_group_permits) ∧ e'.(e_credentials) = e.(e_credentials).
Proof.
  pose proof (reachable_inv HU e HR HD) as HI. pose proof (disable_inv (ei_generation (e_identity e)) now e HI) as [HI' _].
  unfold disable in *. rewrite (not_stale _ e eq_refl) in *.
  destruct (queue_drain_parts uuid (with_e_lifecycle Draining e)) as (H1 & H2 & H3 & _).
  { by apply with_lifecycle_inv. }
  simpl in *. destruct (queue_drain (e_queue e)) as [entries q]. cbn [fst snd] in *.
  destruct (disable_loop_leaves uuid entries now _ H1) as (L1 & _ & L3 & [U1 U2 U3 _ U5 U6]).
  destruct (disable_loop entries now _) as [rs e']. cbn [fst snd] in *. subst rs.
  assert (queue_contents (e_queue e') = []) as Hnil by (by rewrite L3).
  split_and!; try done.
  - by apply (waiting_empty uuid).
  - unfold resolved_ids. rewrite <- H3, <- list_fmap_compose. done.
  - by intros resolution (entry & -> & _)%list_elem_of_fmap.
Qed.

Lemma disable_answers_all_witness :
  queue_contents (disable (ei_generation (e_identity sample_busy)) 3 sample_busy).2.(e_queue) = [].
Proof.
  pose proof (disable_answers_all sample_uuid 64 3 sample_busy sample_uuid_source sample_busy_reachable) as H.
  destruct (disable _ 3 sample_busy) as [rs e']. apply H. vm_compute. discriminate.
Defined.

(** A reconfiguration that succeeds in a reachable state rejects, with a
    retry hint of one second, exactly the waiting requests frozen on another
    snapshot version; the others keep their place: every lane of the fair queue
    is its old contents without the rejected entries, in the same order. Leases
    and permits are left alone. *)
Theorem reconfigure_keeps_matching_waiters uuid bound config now e resolutions e'
    (HU : uuid_source uuid bound) (HR : reachable uuid e) (HD : e.(e_draws) <= bound)
    (HE : reconfigure e.(e_identity).(ei_generation) config now e = (Ok resolutions, e')) :
  let version := config.(gc_snapshot_version) in
  e'.(e_config) = config ∧
  resolved_ids resolutions ≡ₚ
    entry_ids (filter (λ entry, ¬ on_version version entry) (queue_contents e.(e_queue))) ∧
  (∀ resolution, resolution ∈ resolutions →
     resolution.(qr_decision) = rejected GroupUnavailable (Some (from_secs 1))) ∧
  (∀ x, queue_lane x e'.(e_queue) = filter (on_version version) (queue_lane x e.(e_queue))) ∧
  e'.(e_leases) = e.(e_leases) ∧ e'.(e_request_leases) = e.(e_request_leases) ∧
  e'.(e_group_permits) = e.(e_group_permits).
Proof.
  pose proof (reachable_inv HU e HR HD) as HI. cbv zeta. unfold reconfigure in HE.
  rewrite (not_stale _ e eq_refl) in HE. destruct (group_config_invalid config); [done|].
  destruct (queue_bound_invalid config (e_credentials e)); [done|].
  destruct (queue_drain_parts uuid e HI) as (H1 & H2 & H3 & H4 & H5).
  destruct (queue_drain (e_queue e)) as [entries q]. cbn [fst snd] in *.
  destruct (reconfigure_loop_leaves uuid entries (gc_snapshot_version config) now _ H1) as (L1 & _ & L3 & L4 & [U1 U2 U3 _ _ _]).
  destruct (reconfigure_loop entries _ now _) as [rs e1]. cbn [fst snd] in *. injection HE as <- <-. subst rs.
  match goal with |- context [prune now ?x] => set (e2 := x) end.
  destruct (prune_tables now e2) as (_ & T2 & T3 & _ & T5 & T6). rewrite T2, T3, T5, T6.
  split_and!; try done.
  - by destruct (prune_config now e2) as [-> _].
  - unfold resolved_ids. rewrite <- list_fmap_compose. unfold entry_ids. by rewrite <- H3.
  - by intros resolution (entry & -> & _)%list_elem_of_fmap.
  - intros x. simpl. rewrite L4. simpl. rewrite H5, H4, !list_filter_filter. simpl.
    apply list_filter_iff. tauto.
Qed.

Lemma reconfigure_keeps_matching_waiters_witness :
  ∃ e', reconfigure (ei_generation (e_identity sample_busy)) sample_config 3 sample_busy = (Ok [], e') ∧
        e'.(e_leases) = sample_busy.(e_leases).
Proof.
  assert ((reconfigure (ei_generation (e_identity sample_busy)) sample_config 3 sample_busy).1 = Ok []) as HO
    by (vm_compute; reflexivity).
  destruct (reconfigure (ei_generation (e_identity sample_busy)) sample_config 3 sample_busy) as [r e'] eqn:E.
  cbn [fst] in HO. subst r. exists e'. split; [reflexivity|].
  apply (reconfigure_keeps_matching_waiters sample_uuid 64 sample_config 3 sample_busy [] e'
    sample_uuid_source sample_busy_reachable); [vm_compute; discriminate|exact E].
Defined.

(** An admission whose answer is not received leaves nothing behind: in
    every reachable state, a request the Group has not seen ends without a
    ticket, a Lease and a Group permit when the reply of its [Admit] command is
    dropped, whatever the decision was. *)
Theorem dropped_admission_holds_nothing uuid bound g entry now closed e
    (HU : uuid_source uuid bound) (HR : reachable uuid e)
    (HN : entry.(se_request_id) ∉ e.(e_seen_requests)) :
  let command := CmdAdmit g entry now {| rp_closed := closed; rp_received := false |} in
  (actor_step uuid command e).2.(e_draws) <= bound →
  holds_nothing entry.(se_request_id) (actor_step uuid command e).2.
Proof.
  cbv zeta. intros HD. set (reply := {| rp_closed := closed; rp_received := false |}) in *.
  pose proof (actor_step_draws uuid (CmdAdmit g entry now reply) e) as Hm.
  pose proof (reachable_inv HU e HR ltac:(lia)) as HI. simpl in *. unfold handle_admit in *.
  destruct (rp_closed reply); [by apply (unseen_holds_nothing uuid)|].
  pose proof (admit_about uuid bound g entry now e HU HI HN) as HA.
  pose proof (admit_inv HU g entry now e) as HI1.
  destruct (admit_request uuid g entry now e) as [[decision|err] e1]; cbn [fst snd] in *; [|done].
  pose proof (abandon_admission_draws decision now e1) as Hd1. simpl in HD.
  destruct HI1 as (HI1 & _ & HS); [lia|done|]. by apply (abandon_admission_clears uuid).
Qed.

Lemma dropped_admission_holds_nothing_witness :
  holds_nothing (MkTypedId "r1")
    (actor_step sample_uuid (CmdAdmit sample_generation (sample_entry "r1" "u" (from_secs 30)) 1 dropped) sample_engine).2.
Proof.
  apply (dropped_admission_holds_nothing sample_uuid 64 sample_generation (sample_entry "r1" "u" (from_secs 30)) 1 false
    sample_engine sample_uuid_source sample_engine_reachable).
  - apply (bool_decide_unpack _). vm_compute. exact I.
  - vm_compute. discriminate.
Defined.

(** The cancel grace period ends. In every reachable state of a serving
    Group, a Lease whose cancelled request never confirmed the end of its
    transport is gone after the first pump at or after its deadline, so its
    Credential slot cannot be held for ever. *)
Theorem cancel_grace_forces_release uuid bound l deadline now e
    (HU : uuid_source uuid bound) (HR : reachable uuid e) (HS : e.(e_lifecycle) = Serving)
    (HP : e.(e_pending_cancels) !! l = Some deadline) (Hnow : deadline <= now)
    (HD : (pump uuid e.(e_identity).(ei_generation) now e).2.(e_draws) <= bound) :
  is_Some (e.(e_leases) !! l) ∧
  (pump uuid e.(e_identity).(ei_generation) now e).2.(e_leases) !! l = None.
Proof.
  pose proof (pump_draws (uuid_v4 := uuid) (ei_generation (e_identity e)) now e) as Hmono.
  pose proof (reachable_inv HU e HR ltac:(lia)) as HI. clear HR.
  destruct (lo_pending _ _ (inv_leases _ _ _ _ HI) l deadline HP) as [record Hl]. split; [by eexists|].
  assert (drawn_before uuid l e) as Hdr by by apply (lo_drawn _ _ (inv_leases _ _ _ _ HI) l record).
  unfold pump in *. rewrite (not_stale _ e eq_refl), HS in *. rewrite bool_decide_eq_true_2 in * by done.
  cbn [negb orb] in *.
  assert (e_leases (pump_expire now e).2 !! l = None) as Hgone.
  { unfold pump_expire. rewrite expire_waiters_leases.
    destruct (prune_tables now (expire_cancel_grace now e)) as (_ & _ & _ & _ & -> & _).
    apply (release_fold_gone uuid); [done|left]. apply list_elem_of_fmap. exists (l, deadline). split; [done|].
    apply list_elem_of_filter. split; [done|]. by apply elem_of_btree_iter. }
  destruct (pump_expire_inv (uuid_v4 := uuid) now e HI) as (_ & HE & _). destruct (pump_expire now e) as [expired e1]. cbn [fst snd] in *.
  pose proof (pump_loop_gone uuid bound l (S (N.to_nat (fq_len (e_queue e1)))) now e1 HU) as HL.
  destruct (pump_loop _ _ _ e1) as [rs e2]. cbn [fst snd] in *. apply HL; [done| |done].
  destruct Hdr as (n & Hn & Hid). exists n. split; [|done]. pose proof (ev_draws _ _ _ HE). lia.
Qed.

Lemma cancel_grace_forces_release_witness :
  is_Some (sample_cancelled.(e_leases) !! sample_lease) ∧
  (pump sample_uuid (ei_generation (e_identity sample_cancelled)) (from_secs 3) sample_cancelled).2.(e_leases)
    !! sample_lease = None.
Proof.
  apply (cancel_grace_forces_release sample_uuid 64 sample_lease (3 + from_secs 2)).
  - exact sample_uuid_source.
  - apply reachable_run; [exact sample_busy_reachable|repeat constructor].
  - vm_compute. reflexivity.
  - vm_compute. reflexivity.
  - vm_compute. discriminate.
  - vm_compute. discriminate.
Defined.
