(* ===== verification/SchedulerCapacity.v ===== *)
(** Capacity: what a grant charges, and that admissions and the pump keep the
    Group within its effective concurrency. *)

From S2P Require Import Prelude Machine Domain TokenBucket SchedTypes Samples FairQueue EngineState Eligibility.
From S2P Require Import Engine EngineInv EngineGrant EngineReach EngineOps Actor EnginePump SampleEngine SchedulerSafety.
Local Open Scope N_scope.

(** What a Credential adds to the capacity of its Group. *)
Definition active_limit (rt : CredentialRuntime) : N :=
  if rt.(rt_config).(cc_state).(cs_lifecycle_active) then rt.(rt_config).(cc_concurrency_limit) else 0.

Definition sum_N (l : list N) : N := foldr N.add 0 l.

(** ** Lemmas: the capacity of a Group *)

#[export] Instance sum_N_perm : Proper ((≡ₚ) ==> (=)) sum_N.
Proof. intros l1 l2 HP. unfold sum_N. induction HP; simpl; lia. Qed.

Lemma foldl_saturating l a :
  a <= U32_MAX → foldl (saturating_add U32_MAX) a l = N.min U32_MAX (a + sum_N l).
Proof.
  revert a. induction l as [|x l IH]; intros a Ha; simpl; [lia|]. unfold saturating_add in *.
  rewrite IH by lia. simpl. lia.
Qed.

Lemma sum_active l :
  sum_N (map (λ rt, rt.(rt_config).(cc_concurrency_limit))
           (filter (λ rt, rt.(rt_config).(cc_state).(cs_lifecycle_active) = true) l)) =
  sum_N (map active_limit l).
Proof.
  induction l as [|rt l IH]; simpl; [done|]. rewrite filter_cons. unfold active_limit at 1.
  destruct (cs_lifecycle_active _); simpl; rewrite IH; lia.
Qed.

(** The effective capacity is the saturated sum of the limits of the active
    Credentials. *)
Lemma capacity_sum_eq m :
  capacity_sum m = N.min U32_MAX (sum_N (map_to_list (active_limit <$> m)).*2).
Proof.
  unfold capacity_sum. rewrite foldl_saturating by lia. rewrite sum_active. f_equal. rewrite N.add_0_l.
  unfold btree_values. rewrite map_to_list_fmap, <- list_fmap_compose, (btree_iter_perm m).
  change (map active_limit) with (fmap (M := list) active_limit). rewrite <- list_fmap_compose. done.
Qed.

(** Two pools whose Credentials add the same capacity. *)
Definition same_capacity (m m' : gmap CredentialId CredentialRuntime) : Prop :=
  active_limit <$> m = active_limit <$> m'.

Lemma same_capacity_sum m m' : same_capacity m m' → capacity_sum m = capacity_sum m'.
Proof. intros H. by rewrite !capacity_sum_eq, H. Qed.

Lemma same_capacity_insert m c x y :
  m !! c = Some x → active_limit y = active_limit x → same_capacity m (<[c := y]> m).
Proof.
  intros Hc Hy. unfold same_capacity. rewrite fmap_insert, insert_id; [done|]. by rewrite lookup_fmap, Hc, Hy.
Qed.

Lemma same_capacity_fmap m f : (∀ x, active_limit (f x) = active_limit x) → same_capacity m (f <$> m).
Proof. intros Hf. unfold same_capacity. rewrite <- map_fmap_compose. apply map_fmap_ext. intros. by rewrite <- Hf. Qed.

Lemma same_capacity_alter m c f : (∀ x, active_limit (f x) = active_limit x) → same_capacity m (alter f c m).
Proof.
  intros Hf. destruct (m !! c) as [x|] eqn:Hc; [|by rewrite alter_id by congruence].
  rewrite (alter_as_insert _ _ _ x) by done. by apply (same_capacity_insert _ _ x).
Qed.

Lemma same_capacity_refilled now m m' : refilled_pool now m m' → same_capacity m m'.
Proof.
  intros HR. apply map_eq. intros c. rewrite !lookup_fmap. specialize (HR c).
  destruct (m !! c) as [x|], (m' !! c) as [y|]; try done. simpl. f_equal. unfold active_limit.
  by destruct (refilled_config _ _ _ HR) as [-> _].
Qed.

#[export] Instance same_capacity_refl : Reflexive same_capacity.
Proof. by intros m. Qed.

#[export] Instance same_capacity_trans : Transitive same_capacity.
Proof. intros m1 m2 m3. unfold same_capacity. congruence. Qed.

(** ** Lemmas: charging a Credential *)

(** A Credential charged for one request. *)
Record charged (entry : ScheduleEntry) (guard : N) (now : Duration) (half_open : bool)
    (rt rt' : CredentialRuntime) : Prop := {
  ch_capacity : rt.(rt_inflight) < rt.(rt_config).(cc_concurrency_limit);
  ch_inflight : rt'.(rt_inflight) = saturating_add U32_MAX rt.(rt_inflight) 1;
  ch_token : SCALE <= (refill rt.(rt_bucket) now).(tb_available);
  ch_bucket : rt'.(rt_bucket).(tb_available) = (refill rt.(rt_bucket) now).(tb_available) - SCALE;
  ch_pacing : rt'.(rt_next_allowed_at) = (λ i, dur_add now i) <$> rt.(rt_config).(cc_min_request_interval);
  ch_half_open : half_open = quota_requires_half_open rt guard now;
  ch_probe : half_open = true →
    rt.(rt_config).(cc_state).(cs_half_open_inflight) = false ∧ rt.(rt_half_open_consumed) = false ∧
    entry.(se_generic).(gar_portability) = Portable ∧
    rt'.(rt_config).(cc_state).(cs_half_open_inflight) = true ∧ rt'.(rt_half_open_consumed) = true;
  ch_limit : active_limit rt' = active_limit rt ∧
    rt'.(rt_config).(cc_concurrency_limit) = rt.(rt_config).(cc_concurrency_limit);
}.

Lemma charge_runtime_charged entry guard now rt half_open rt' :
  charge_runtime entry guard now rt = (Ok half_open, rt') → charged entry guard now half_open rt rt'.
Proof.
  unfold charge_runtime, try_consume.
  destruct (N.ltb_spec (tb_available (refill (rt_bucket rt) now)) SCALE) as [|Ht]; [done|]. cbn [negb orb].
  simpl. destruct (N.leb_spec (cc_concurrency_limit (rt_config rt)) (rt_inflight rt)); [done|].
  set (rt1 := with_rt_next_allowed_at _ _).
  assert (quota_requires_half_open rt1 guard now = quota_requires_half_open rt guard now) as -> by done.
  destruct (quota_requires_half_open rt guard now) eqn:Eq; simpl.
  - destruct (cs_half_open_inflight _) eqn:E1; [done|]. destruct (rt_half_open_consumed rt) eqn:E2; [done|]. simpl.
    destruct (gar_portability (se_generic entry)) eqn:E3; [|done]. simpl. intros [= <- <-]. by split.
  - intros [= <- <-]. by split.
Qed.

Lemma grant_charged uuid entry c now acquire e lease e' :
  grant uuid entry c now acquire e = (Ok lease, e') →
  ∃ rt rt', e.(e_credentials) !! c = Some rt ∧ e'.(e_credentials) = <[c := rt']> e.(e_credentials) ∧
    charged entry e.(e_config).(gc_quota_guard_basis_points) now lease.(cl_half_open) rt rt' ∧
    e'.(e_config) = e.(e_config).
Proof.
  intros HG. unfold grant in HG. destruct (_ !! c) as [rt|] eqn:Hc; [|done]. destruct (lease_execution _ _); [|done].
  destruct (charge_runtime _ _ _ _) as [[h|err] rt'] eqn:Ech; [|done]. unfold draw in HG. simpl in HG.
  destruct (TypedId_new _ _) as [id|]; [|done]. injection HG as <- <-. exists rt, rt'.
  unfold install_lease. simpl.
  match goal with |- context [acquire_session_claim entry c ?y] =>
    destruct (acquire_session_claim_eq entry c y) as (k & new & -> & _) end.
  apply charge_runtime_charged in Ech. by destruct new, acquire.
Qed.

(** ** Lemmas: the Group's concurrency across the operations *)

(** A step that keeps the effective concurrency and the permits. *)
Record steady (e e' : SchedulerEngine) : Prop := {
  sd_config : e'.(e_config) = e.(e_config);
  sd_capacity : same_capacity e.(e_credentials) e'.(e_credentials);
  sd_permits : e'.(e_group_permits) = e.(e_group_permits);
}.

#[export] Instance steady_refl : Reflexive steady.
Proof. by split. Qed.

#[export] Instance steady_trans : Transitive steady.
Proof. intros x y z [] []. split; [congruence|by etrans|congruence]. Qed.

Lemma steady_effective e e' : steady e e' → effective_concurrency e' = effective_concurrency e.
Proof. intros [H1 H2 _]. unfold effective_concurrency. by rewrite H1, (same_capacity_sum _ _ H2). Qed.

Lemma steady_permits e e' : steady e e' → permits_len e' = permits_len e.
Proof. intros [_ _ H]. unfold permits_len. by rewrite H. Qed.

Lemma foldl_steady {A} (f : SchedulerEngine → A → SchedulerEngine) l e :
  (∀ e x, steady e (f e x)) → steady e (foldl f e l).
Proof. intros Hf. revert e. induction l as [|x l IH]; intros e; simpl; [done|]. etrans; [apply Hf|apply IH]. Qed.

Lemma drop_ticket_steady r action now e : steady e (drop_ticket r action now e).
Proof. unfold drop_ticket. destruct (e_waiting e !! r); destruct action; by split. Qed.

Lemma released_limit lease rt : active_limit (released_runtime lease rt) = active_limit rt.
Proof. unfold released_runtime. by destruct (cl_half_open lease). Qed.

Lemma release_lease_steady uuid l now e :
  engine_inv uuid e → steady e (release_lease e.(e_identity).(ei_generation) l now e).2.
Proof.
  intros HI. destruct (e_leases e !! l) as [record|] eqn:Hl.
  - rewrite (release_lease_eq (uuid_v4 := uuid) _ l record now e) by (done || apply HI || by apply not_stale).
    split; [done| |done]. simpl. apply same_capacity_alter. apply released_limit.
  - unfold release_lease. rewrite (not_stale _ e eq_refl), Hl. done.
Qed.

Lemma expire_cancel_grace_steady uuid now e : engine_inv uuid e → steady e (expire_cancel_grace now e).
Proof.
  intros HI. unfold expire_cancel_grace. set (ids := (filter _ _).*1). clearbody ids. revert e HI.
  induction ids as [|l ids IH]; intros e HI; simpl; [done|].
  etrans; [apply (release_lease_steady uuid l now e HI)|]. apply IH. exact (release_lease_inv [] ∅ _ l now e HI).
Qed.

Lemma prune_steady now e : steady e (prune now e).
Proof.
  unfold prune. etrans; [|etrans; [apply (foldl_steady (expire_claim now))|]].
  - instantiate (1 := with_e_affinities _ e). by split.
  - intros e' x. by split.
  - split; [done| |done]. simpl. apply same_capacity_fmap. intros x. by destruct (negb _).
Qed.

Lemma pump_expire_steady uuid now e : engine_inv uuid e → steady e (pump_expire now e).2.
Proof.
  intros HI. unfold pump_expire. etrans; [by apply (expire_cancel_grace_steady uuid)|]. etrans; [apply prune_steady|].
  unfold expire_waiters. apply foldl_steady. intros e' x. unfold expire_waiter, forget_rate_admission.
  etrans; [|etrans; [apply (drop_ticket_steady x Release now)|]]; [instantiate (1 := with_e_queue _ e')|]; by split.
Qed.

Lemma evaluate_pool_steady entry now e : steady e (evaluate_pool entry now e).2.
Proof.
  unfold evaluate_pool.
  pose proof (evaluate_pool_fields_refilled e.(e_credentials) e.(e_affinities) e.(e_session_claims) e.(e_config) entry now) as HR.
  destruct (evaluate_pool_fields _ _ _ _ _ _) as [ev m]. split; [done| |done]. by apply (same_capacity_refilled now).
Qed.

Lemma scan_refilled affinities claims config now entries scan :
  refilled_pool now scan.(pm_credentials)
    (first_runnable (pump_runnable affinities claims config now) scan entries).2.(pm_credentials).
Proof.
  revert scan. induction entries as [|x entries IH]; intros scan; cbn [first_runnable]; [done|].
  destruct (pump_runnable_steps affinities claims config now scan x) as [HS _].
  destruct (pump_runnable affinities claims config now scan x) as [[] scan1]; [done|]. by etrans; [|apply IH].
Qed.

Lemma pump_pop_steady uuid now e : engine_inv uuid e → steady e (pump_pop now e).2.
Proof.
  intros HI. unfold pump_pop.
  match goal with |- context [queue_pop_runnable ?r ?s ?q] =>
    pose proof (queue_pop_spec r s q (qo_wf _ _ _ (inv_queue _ _ _ _ HI))) as HQ;
    pose proof (scan_refilled (e_affinities e) (e_session_claims e) (e_config e) now (queue_heads q) s) as HR;
    destruct (queue_pop_runnable r s q) as [[o scan] q'] end.
  split; [done| |done]. simpl. apply (same_capacity_refilled now). destruct o as [entry|].
  - destruct HQ as (_ & _ & HF & _). by rewrite HF in HR.
  - destruct HQ as [_ HF]. by rewrite HF in HR.
Qed.

Lemma grant_effective uuid bound entry c now e :
  uuid_source uuid bound → is_ok (grant uuid entry c now true e).1 = true →
  effective_concurrency (grant uuid entry c now true e).2 = effective_concurrency e ∧
  permits_len (grant uuid entry c now true e).2 <= permits_len e + 1.
Proof.
  intros HU Hok. pose proof (grant_charged uuid entry c now true e) as HC. pose proof (grant_tables uuid entry c now true e) as HT.
  destruct (grant uuid entry c now true e) as [[lease|] e']; [|done]. simpl.
  destruct (HC lease e' eq_refl) as (rt & rt' & Hrt & Hm & Hch & Hcfg). destruct (HT lease e' eq_refl) as [_ _ _ _ HP _ _ _].
  split.
  - unfold effective_concurrency. rewrite Hcfg, Hm.
    rewrite <- (same_capacity_sum (e_credentials e)); [done|]. apply (same_capacity_insert _ _ rt); [done|apply Hch].
  - unfold permits_len. rewrite HP, size_union_alt, size_singleton.
    pose proof (subseteq_size (e_group_permits e ∖ {[se_request_id entry]}) (e_group_permits e) ltac:(set_solver)). lia.
Qed.

Lemma pump_serve_effective uuid bound entry now e :
  uuid_source uuid bound → inv_mid uuid [entry] ∅ e → (pump_serve uuid entry now e).1.2 = true →
  effective_concurrency (pump_serve uuid entry now e).2 = effective_concurrency e ∧
  permits_len (pump_serve uuid entry now e).2 <= permits_len e + 1.
Proof.
  intros HU HI Hcont. unfold pump_serve in *. destruct (held_idle entry [] e HI) as ([w Hw] & _). rewrite Hw in *.
  pose proof (drop_ticket_steady (se_request_id entry) Release now e) as H1. set (e1 := drop_ticket _ _ _ _) in *.
  destruct (_ <=? now).
  { simpl. assert (steady e (forget_rate_admission (se_request_id entry) e1)) as H by (etrans; [exact H1|by split]).
    rewrite (steady_effective _ _ H), (steady_permits _ _ H). split; [done|lia]. }
  pose proof (λ c e', evaluate_pool_grants uuid bound entry c now true e1 e' HU) as HG.
  pose proof (evaluate_pool_steady entry now e1) as H2.
  destruct (evaluate_pool entry now e1) as [[c| | | |] e2]; cbn [fst snd] in *; try done.
  pose proof (grant_effective uuid bound entry c now e2 HU (HG c e2 eq_refl)) as [H3 H4].
  destruct (grant uuid entry c now true e2) as [res e3]. cbn [fst snd] in *.
  rewrite (steady_effective _ _ H2), (steady_effective _ _ H1) in H3.
  rewrite (steady_permits _ _ H2), (steady_permits _ _ H1) in H4. done.
Qed.

Lemma pump_loop_effective uuid bound fuel now e :
  uuid_source uuid bound → (pump_loop uuid fuel now e).2.(e_draws) <= bound → engine_inv uuid e →
  effective_concurrency (pump_loop uuid fuel now e).2 = effective_concurrency e ∧
  permits_len (pump_loop uuid fuel now e).2 <= N.max (permits_len e) (effective_concurrency e).
Proof.
  intros HU. revert e. induction fuel as [|fuel IH]; intros e Hd HI; cbn [pump_loop] in *; [split; [done|simpl; lia]|].
  destruct (N.leb_spec (effective_concurrency e) (permits_len e)); [split; [done|simpl; lia]|].
  pose proof (pump_pop_inv (uuid_v4 := uuid) now e HI) as HP. pose proof (pump_pop_steady uuid now e HI) as H1.
  pose proof (pump_serve_continues (uuid_v4 := uuid) now e) as HC.
  destruct (pump_pop now e) as [[entry|] e1]; cbn [fst snd] in *.
  2:{ rewrite (steady_effective _ _ H1), (steady_permits _ _ H1). split; [done|lia]. }
  destruct (HC entry e1 HI eq_refl) as [Hcont _].
  destruct (pump_serve_effective uuid bound entry now e1 HU HP Hcont) as [H2 H3].
  pose proof (pump_serve_inv HU entry now e1) as HI2.
  destruct (pump_serve uuid entry now e1) as [[res cont] e2]. cbn [fst snd] in *. subst cont.
  pose proof (pump_loop_draws (uuid_v4 := uuid) fuel now e2) as Hd2. specialize (IH e2).
  destruct (pump_loop uuid fuel now e2) as [rs e3]. cbn [fst snd] in *.
  destruct IH as [I1 I2]; [done|apply HI2; [lia|done]|].
  rewrite (steady_effective _ _ H1) in H2. rewrite (steady_permits _ _ H1) in H3. split; [congruence|]. rewrite H2 in I2. lia.
Qed.

(** The part of [admit] that can grant. *)
Lemma admit_evaluated_granted uuid bound entry now e lease :
  uuid_source uuid bound → (admit_evaluated uuid entry now e).1 = Ok (Granted lease) →
  e.(e_queue).(fq_len) = 0 ∧ permits_len e < effective_concurrency e ∧
  permits_len (admit_evaluated uuid entry now e).2 <= effective_concurrency (admit_evaluated uuid entry now e).2.
Proof.
  intros HU HG. unfold admit_evaluated in *.
  pose proof (λ c e', evaluate_pool_grants uuid bound entry c now true e e' HU) as HO.
  pose proof (evaluate_pool_steady entry now e) as H1.
  assert (e_queue (evaluate_pool entry now e).2 = e_queue e) as Hq.
  { unfold evaluate_pool. by destruct (evaluate_pool_fields _ _ _ _ _ _). }
  destruct (evaluate_pool entry now e) as [ev e1]. cbn [fst snd] in *.
  assert (∀ ev, (admit_or_queue uuid entry ev now e1).1 ≠ Ok (Granted lease)) as HQ.
  { intros ev'. unfold admit_or_queue, enqueue. destruct (se_bypass_queue entry); [done|]. destruct (_ <=? _); [done|].
    unfold draw. simpl. by destruct (TypedId_new _ _). }
  destruct ((permits_len e1 <? effective_concurrency e1) && (fq_len (e_queue e1) =? 0)) eqn:Ec;
    [|exfalso; by destruct ev; try by apply HQ in HG].
  destruct ev as [c| | |retry|];
    try (exfalso; by apply HQ in HG); [|exfalso; destruct (_ <=? dur_add now retry); [done|by apply HQ in HG]|done].
  bool_prop. pose proof (grant_effective uuid bound entry c now e1 HU (HO c e1 eq_refl)) as [H2 H3].
  destruct (grant uuid entry c now true e1) as [[l'|] e2]; cbn [fst snd] in *; [|done].
  rewrite (steady_effective _ _ H1) in *. rewrite (steady_permits _ _ H1) in *. rewrite Hq in *.
  split_and!; [done|done|]. rewrite H2. lia.
Qed.

Lemma admit_granted_capacity uuid bound g entry now e lease :
  uuid_source uuid bound → engine_inv uuid e → (admit_request uuid g entry now e).1 = Ok (Granted lease) →
  queue_contents e.(e_queue) = [] ∧ permits_len e < effective_concurrency e ∧
  permits_len (admit_request uuid g entry now e).2 <= effective_concurrency (admit_request uuid g entry now e).2.
Proof.
  intros HU HI. unfold admit_request.
  destruct (stale g e); [done|]. do 4 (case_decide; [done|]). destruct (_ <=? now); [done|].
  set (e0 := with_e_request_portability _ _).
  assert (steady e (prune now e0)) as Hs by (etrans; [|apply prune_steady]; by split).
  destruct (prune_tables now e0) as (_ & _ & _ & _ & _ & Hq).
  change (e_queue e0) with (e_queue e) in Hq. set (e1 := prune now e0) in *. clearbody e1.
  pose proof (qo_wf _ _ _ (inv_queue _ _ _ _ HI)) as Hwf.
  assert (∀ e2, steady e e2 → e_queue e2 = e_queue e → (admit_evaluated uuid entry now e2).1 = Ok (Granted lease) →
    queue_contents e.(e_queue) = [] ∧ permits_len e < effective_concurrency e ∧
    permits_len (admit_evaluated uuid entry now e2).2 <= effective_concurrency (admit_evaluated uuid entry now e2).2) as HE.
  { intros e2 Hs2 Hq2 HG. destruct (admit_evaluated_granted uuid bound entry now e2 lease HU HG) as (L1 & L2 & L3).
    rewrite (steady_effective _ _ Hs2), (steady_permits _ _ Hs2) in L2. rewrite Hq2 in L1.
    split_and!; [by apply (queue_len_0 _ Hwf)|done|done]. }
  destruct (e_group_bucket e1) as [b|]; [|by apply HE].
  destruct (try_consume b now) as [[] b1]; cbn [negb].
  - apply HE; [|done]. etrans; [exact Hs|]. by split.
  - destruct (retry_after b1 now) as [retry b2]. destruct (_ <=? _); [done|]. destruct (se_bypass_queue entry); [done|].
    unfold enqueue. destruct (_ <=? _); [done|]. unfold draw. simpl. by destruct (TypedId_new _ _).
Qed.

(** ** Properties *)

(** What a granted Lease costs. Whatever the state, a successful [grant]
    takes exactly one in-flight slot of a Credential that was below its
    concurrency limit, one token of its rate bucket, its pacing slot and, when
    its quota is exhausted past the reset, its only half-open probe; no other
    Credential changes. *)
Theorem grant_charges_credential uuid entry c now acquire e lease e'
    (HG : grant uuid entry c now acquire e = (Ok lease, e')) :
  ∃ rt rt', e.(e_credentials) !! c = Some rt ∧ e'.(e_credentials) = <[c := rt']> e.(e_credentials) ∧
    charged entry e.(e_config).(gc_quota_guard_basis_points) now lease.(cl_half_open) rt rt'.
Proof.
  destruct (grant_charged uuid entry c now acquire e lease e' HG) as (rt & rt' & ? & ? & ? & _). by exists rt, rt'.
Qed.

Lemma grant_charges_credential_witness :
  ∃ rt, sample_engine.(e_credentials) !! MkTypedId "c" = Some rt ∧ rt.(rt_inflight) < rt.(rt_config).(cc_concurrency_limit).
Proof.
  assert (is_ok (grant sample_uuid (sample_entry "r1" "u" (from_secs 30)) (MkTypedId "c") 1 true sample_engine).1 = true) as Hok
    by (vm_compute; reflexivity).
  destruct (grant sample_uuid (sample_entry "r1" "u" (from_secs 30)) (MkTypedId "c") 1 true sample_engine) as [[lease|err] e'] eqn:E.
  - destruct (grant_charges_credential _ _ _ _ _ _ _ _ E) as (rt & rt' & H1 & _ & H2). exists rt. split; [exact H1|apply H2].
  - discriminate Hok.
Defined.

(** C10: The Group stays within its concurrency. In a reachable state an
    admission is granted only below the effective concurrency and only when
    nobody waits (a newcomer never overtakes the queue), and the pump never
    takes the Group over its effective concurrency: with [p] permits before and
    an effective concurrency of [c], at most [max p c] permits are out after. *)
Theorem group_concurrency_respected uuid bound g entry now e
    (HU : uuid_source uuid bound) (HR : reachable uuid e)
    (HA : (admit_request uuid g entry now e).2.(e_draws) <= bound)
    (HP : (pump uuid g now e).2.(e_draws) <= bound) :
  (∀ lease, (admit_request uuid g entry now e).1 = Ok (Granted lease) →
     queue_contents e.(e_queue) = [] ∧
     permits_len e < effective_concurrency e ∧
     permits_len (admit_request uuid g entry now e).2 <= effective_concurrency (admit_request uuid g entry now e).2) ∧
  effective_concurrency (pump uuid g now e).2 = effective_concurrency e ∧
  permits_len (pump uuid g now e).2 <= N.max (permits_len e) (effective_concurrency e).
Proof.
  pose proof (pump_draws (uuid_v4 := uuid) g now e) as Hmono.
  pose proof (reachable_inv HU e HR ltac:(lia)) as HI. split.
  - intros lease HG. by apply (admit_granted_capacity uuid bound g entry now e lease).
  - unfold pump in *. destruct (_ || _); [simpl; split; [done|lia]|].
    pose proof (pump_expire_steady uuid now e HI) as H1. destruct (pump_expire_inv (uuid_v4 := uuid) now e HI) as (HI1 & _).
    destruct (pump_expire now e) as [expired e1]. cbn [fst snd] in *.
    pose proof (pump_loop_effective uuid bound (S (N.to_nat (fq_len (e_queue e1)))) now e1 HU) as HL.
    destruct (pump_loop _ _ _ e1) as [rs e2]. cbn [fst snd] in *. destruct HL as [L1 L2]; [done|done|].
    rewrite (steady_effective _ _ H1) in L1, L2. by rewrite (steady_permits _ _ H1) in L2.
Qed.

Lemma group_concurrency_respected_witness :
  permits_len (pump sample_uuid sample_generation 3 sample_busy).2 <= 1.
Proof.
  destruct (group_concurrency_respected sample_uuid 64 sample_generation (sample_entry "r3" "u" (from_secs 30)) 3 sample_busy
    sample_uuid_source sample_busy_reachable) as (_ & _ & H).
  - vm_compute. discriminate.
  - vm_compute. discriminate.
  - assert (N.max (permits_len sample_busy) (effective_concurrency sample_busy) = 1) as E by (vm_compute; reflexivity).
    rewrite E in H. exact H.
Defined.
