(* ===== verification/SchedulerLedger.v ===== *)
(** The resource ledger of the Group owner against the resources that exist.

    The code keeps a running balance of the acquire and release events it
    records. It should be the number of tickets, Leases, Group permits and
    session claims. The difference is the [drift]; every operation keeps it but
    two, which drop idle session claims without recording their release. *)

From S2P Require Import Prelude Machine Domain TokenBucket SchedTypes Samples FairQueue EngineState Eligibility.
From S2P Require Import Engine EngineInv EngineGrant EngineReach EngineOps Actor EnginePump SampleEngine.
From S2P Require Import SchedulerSafety SchedulerLiveness.
Local Open Scope N_scope.

(** The resources that exist. *)
Definition live_resources (e : SchedulerEngine) : Z :=
  Z.of_nat (size e.(e_waiting) + size e.(e_leases) + size e.(e_group_permits) + size e.(e_session_claims)).

Definition drift (e : SchedulerEngine) : Z := e.(e_resource_balance) - live_resources e.

(** From [e] to [e'] the drift grows by [k], as long as the sequence number of
    the ledger fits a signed word, so that the balance cannot saturate. *)
Record moves (k : Z) (e e' : SchedulerEngine) : Prop := {
  mv_sequence : (Z.of_N e'.(e_event_sequence) <= ISIZE_MAX)%Z → e.(e_event_sequence) <= e'.(e_event_sequence);
  mv_drift : (Z.of_N e'.(e_event_sequence) <= ISIZE_MAX → Z.abs e.(e_resource_balance) <= Z.of_N e.(e_event_sequence) →
    Z.abs e'.(e_resource_balance) <= Z.of_N e'.(e_event_sequence) ∧ drift e' = drift e + k)%Z;
}.

(** An operation whose events account for the resources it takes and gives. *)
Abbreviation booked := (moves 0).

(** An operation that may lose track of resources it gives up. *)
Definition leaky (e e' : SchedulerEngine) : Prop := ∃ k, (0 <= k)%Z ∧ moves k e e'.

Definition action_sign (action : ResourceAction) : Z := match action with Acquire => 1 | Release | ForcedRelease => -1 end.

(** The commands that drop session claims without an event. *)
Definition drops_claims (command : GroupCommand) : bool :=
  match command with CmdRemoveFencedCredential _ _ _ _ | CmdReconfigureCredential _ _ _ _ => true | _ => false end.

(** One session ran and is idle; then its Credential is removed. *)
Definition leak_before : list GroupCommand :=
  [ sample_admit "r1" 1;
    CmdReleaseLease sample_generation sample_lease 2 received;
    CmdCompleteRequest sample_generation (MkTypedId "r1") 3 received;
    CmdSetCredentialFence sample_generation (MkTypedId "c") true 4 received ].

(** ** Lemmas: moves *)

#[export] Instance booked_refl : Reflexive booked.
Proof. intros e. split; [lia|]. intros _ H. split; [done|lia]. Qed.

Lemma moves_trans k1 k2 e e1 e2 : moves k1 e e1 → moves k2 e1 e2 → moves (k1 + k2) e e2.
Proof.
  intros [A1 A2] [B1 B2]. split; [lia|]. intros Hs Hb. specialize (B1 Hs). destruct A2 as [A2 A3]; [lia|done|].
  destruct (B2 Hs A2) as [B3 B4]. split; [done|]. lia.
Qed.

#[export] Instance booked_trans : Transitive booked.
Proof. intros e e1 e2 H1 H2. apply (moves_trans 0 0 _ _ _ H1 H2). Qed.

(** A change of the tables that records nothing. *)
Lemma moves_tables e e' :
  e'.(e_event_sequence) = e.(e_event_sequence) → e'.(e_resource_balance) = e.(e_resource_balance) →
  moves (live_resources e - live_resources e') e e'.
Proof. intros H1 H2. split; [lia|]. rewrite H1, H2. intros _ Hb. split; [done|]. unfold drift. rewrite ?H2. lia. Qed.

Lemma booked_tables e e' :
  e'.(e_event_sequence) = e.(e_event_sequence) → e'.(e_resource_balance) = e.(e_resource_balance) →
  live_resources e' = live_resources e → booked e e'.
Proof. intros H1 H2 H3. pose proof (moves_tables e e' H1 H2) as H. by rewrite H3, Z.sub_diag in H. Qed.

(** A table change paid for by one event. *)
Lemma moves_event k request_id kind resource_id action now e :
  k = action_sign action → moves k e (record_event request_id kind resource_id action now e).
Proof.
  intros ->. split.
  - rewrite ISIZE_MAX_val. destruct action; simpl; unfold saturating_add; rewrite U64_MAX_val; lia.
  - unfold drift, live_resources. intros Hs Hb. rewrite ISIZE_MAX_val in Hs.
    destruct action; simpl in *; unfold saturating_add, isize_saturating_add, isize_saturating_sub in *;
      rewrite ?U64_MAX_val, ?ISIZE_MAX_val, ?ISIZE_MIN_val in *; lia.
Qed.

Lemma booked_then_event k e e1 request_id kind resource_id action now :
  moves k e e1 → (k + action_sign action = 0)%Z → booked e (record_event request_id kind resource_id action now e1).
Proof. intros H1 Hk. rewrite <- Hk. eapply moves_trans; [exact H1|by apply moves_event]. Qed.

Lemma foldl_booked {A} (f : SchedulerEngine → A → SchedulerEngine) l e :
  (∀ e x, booked e (f e x)) → booked e (foldl f e l).
Proof. intros Hf. revert e. induction l as [|x l IH]; intros e; simpl; [done|]. etrans; [apply Hf|apply IH]. Qed.

Ltac same_tables := apply booked_tables; done.

Lemma drop_ticket_booked r action now e : action ≠ Acquire → booked e (drop_ticket r action now e).
Proof.
  intros Ha. unfold drop_ticket. destruct (e_waiting e !! r) as [w|] eqn:Hw; [|done].
  eapply (booked_then_event 1); [|by destruct action].
  set (e1 := with_e_waiting _ e). assert (1 = live_resources e - live_resources e1)%Z as ->; [|by apply moves_tables].
  unfold live_resources, e1. simpl. rewrite (map_size_delete_Some r (e_waiting e)) by done.
  pose proof (map_size_non_empty_iff (e_waiting e)). assert (size (e_waiting e) ≠ 0)%nat; [|lia].
  apply map_size_non_empty_iff. intros E. by rewrite E, lookup_empty in Hw.
Qed.

Lemma forget_booked r e : booked e (forget_rate_admission r e).
Proof. same_tables. Qed.

Lemma release_group_permit_booked r action now e :
  action ≠ Acquire → booked e (release_group_permit r action now e).2.
Proof.
  intros Ha. unfold release_group_permit. case_decide as Hr; [|done]. simpl.
  eapply (booked_then_event 1); [|by destruct action].
  set (e1 := with_e_group_permits _ e). assert (1 = live_resources e - live_resources e1)%Z as ->; [|by apply moves_tables].
  unfold live_resources, e1. simpl. rewrite size_difference by set_solver. rewrite size_singleton.
  assert (size (e_group_permits e) ≠ 0)%nat; [|lia]. apply size_non_empty_iff. set_solver.
Qed.

Lemma size_alter `{Countable K} {V} (f : V → V) k (m : gmap K V) : size (alter f k m) = size m.
Proof.
  destruct (m !! k) as [x|] eqn:Hk; [|by rewrite alter_id by congruence].
  rewrite (alter_as_insert _ _ _ x) by done. apply map_size_insert_Some. by eexists.
Qed.

Lemma released_state_booked l record now e :
  e.(e_leases) !! l = Some record → booked e (released_state l record now e).
Proof.
  intros Hl. unfold released_state. eapply (booked_then_event 1); [|done].
  match goal with |- moves _ e ?x => set (e1 := x) end.
  assert (1 = live_resources e - live_resources e1)%Z as ->; [|by apply moves_tables].
  unfold live_resources, e1. simpl. rewrite (map_size_delete_Some l (e_leases e)) by done.
  assert (size (released_claims (lr_session_claim_key record) now (e_session_claims e)) = size (e_session_claims e)) as ->.
  { unfold released_claims. destruct (lr_session_claim_key record) as [k|]; [|done]. apply size_alter. }
  assert (size (e_leases e) ≠ 0)%nat; [|lia]. apply map_size_non_empty_iff. intros E. by rewrite E, lookup_empty in Hl.
Qed.

Lemma release_lease_booked uuid held adm g l now e : inv_mid uuid held adm e → booked e (release_lease g l now e).2.
Proof.
  intros HI. destruct (stale g e) eqn:Hs; [unfold release_lease; by rewrite Hs|].
  destruct (e_leases e !! l) as [record|] eqn:Hl; [|unfold release_lease; by rewrite Hs, Hl].
  rewrite (release_lease_eq (uuid_v4 := uuid) g l record now e) by (done || apply HI). by apply released_state_booked.
Qed.

Lemma expire_cancel_grace_booked uuid now e : engine_inv uuid e → booked e (expire_cancel_grace now e).
Proof.
  intros HI. unfold expire_cancel_grace. set (ids := (filter _ _).*1). clearbody ids. revert e HI.
  induction ids as [|l ids IH]; intros e HI; simpl; [done|].
  etrans; [by apply (release_lease_booked uuid [] ∅)|]. apply IH. exact (release_lease_inv [] ∅ _ l now e HI).
Qed.

Lemma expire_claim_booked now k claim e :
  is_Some (e.(e_session_claims) !! k) → booked e (expire_claim now e (k, claim)).
Proof.
  intros [c Hk]. unfold expire_claim. eapply (booked_then_event 1); [|done].
  match goal with |- moves _ e ?x => set (e1 := x) end.
  assert (1 = live_resources e - live_resources e1)%Z as ->; [|by apply moves_tables].
  unfold live_resources, e1. simpl. rewrite (map_size_delete_Some k (e_session_claims e)) by done.
  assert (size (e_session_claims e) ≠ 0)%nat; [|lia]. apply map_size_non_empty_iff. intros E. by rewrite E, lookup_empty in Hk.
Qed.

Lemma expire_claims_booked now l e :
  NoDup l.*1 → (∀ k c, (k, c) ∈ l → is_Some (e.(e_session_claims) !! k)) → booked e (foldl (expire_claim now) e l).
Proof.
  revert e. induction l as [|[k c] l IH]; intros e Hnd Hl; simpl; [done|]. apply NoDup_cons in Hnd as [Hn Hnd].
  etrans; [apply (expire_claim_booked now k c), (Hl k c); left|]. apply IH; [done|].
  intros k' c' Hin. simpl. rewrite lookup_delete_ne; [apply (Hl k' c'); by right|].
  intros <-. apply Hn, list_elem_of_fmap. by exists (k, c').
Qed.

Lemma prune_booked now e : booked e (prune now e).
Proof.
  unfold prune. set (e1 := with_e_affinities _ e). set (l := filter _ _).
  transitivity e1; [same_tables|]. transitivity (foldl (expire_claim now) e1 l); [|same_tables].
  apply expire_claims_booked; [apply NoDup_filter_fst|].
  intros k c [_ Hin]%list_elem_of_filter. apply elem_of_btree_iter in Hin. by eexists.
Qed.

Lemma expire_waiters_booked now e : booked e (expire_waiters now e).2.
Proof.
  unfold expire_waiters. apply foldl_booked. intros e' x. unfold expire_waiter.
  transitivity (with_e_queue (queue_remove x (e_queue e')).2 e'); [same_tables|].
  etrans; [by apply (drop_ticket_booked x Release now)|apply forget_booked].
Qed.

Lemma pump_expire_booked uuid now e : engine_inv uuid e → booked e (pump_expire now e).2.
Proof.
  intros HI. unfold pump_expire. etrans; [by apply (expire_cancel_grace_booked uuid)|].
  etrans; [apply prune_booked|apply expire_waiters_booked].
Qed.

Lemma evaluate_pool_booked entry now e : booked e (evaluate_pool entry now e).2.
Proof. unfold evaluate_pool. destruct (evaluate_pool_fields _ _ _ _ _ _). same_tables. Qed.

(** ** Lemmas: granting and queueing *)

(** The tables of a new Lease are paid for by the events of [install_lease]. *)
Lemma install_lease_booked entry lease now (acquire : bool) e :
  e.(e_leases) !! lease.(cl_id) = None → (acquire = true → entry.(se_request_id) ∉ e.(e_group_permits)) →
  booked e (install_lease entry lease now acquire e).
Proof.
  intros Hl Hp. unfold install_lease.
  destruct (acquire_session_claim_eq entry (cl_credential_id lease) e) as (key & new & -> & _ & Hnew).
  set (p := if acquire then 1%Z else 0%Z). set (c := match new with Some _ => 1%Z | None => 0%Z end).
  match goal with |- booked e (record_event _ _ _ _ _ ?x) => set (e3 := x) end.
  eapply (booked_then_event (-1)); [|done].
  set (e1 := forget_rate_admission (se_request_id entry) _) in e3.
  assert (moves (- 1 - p - c) e e1) as H1.
  { assert (- 1 - p - c = live_resources e - live_resources e1)%Z as ->; [|apply moves_tables; by destruct acquire].
    assert (size (e_leases e1) = S (size (e_leases e))) as S1.
    { unfold e1. destruct acquire; simpl; by rewrite map_size_insert_None. }
    assert (Z.of_nat (size (e_group_permits e1)) = Z.of_nat (size (e_group_permits e)) + p)%Z as S2.
    { unfold e1, p. destruct acquire; simpl; [|lia]. rewrite size_union, size_singleton by (specialize (Hp eq_refl); set_solver). lia. }
    assert (Z.of_nat (size (e_session_claims e1)) = Z.of_nat (size (e_session_claims e)) + c)%Z as S3.
    { assert (e_session_claims e1 = acquired_claims entry key (e_session_claims e)) as -> by (unfold e1; by destruct acquire).
      unfold acquired_claims, c. destruct key as [k|].
      - destruct (e_session_claims e !! k) as [claim|] eqn:Hk.
        + rewrite map_size_insert_Some by (by eexists). destruct new as [x|]; [|lia].
          exfalso. destruct Hnew as [_ Hnew]. assert (Some x = None); [|done]. apply Hnew. by intros ? [= <-]; eexists.
        + rewrite map_size_insert_None by done. destruct new as [x|]; [lia|].
          exfalso. destruct Hnew as [Hnew _]. destruct (Hnew eq_refl k eq_refl). congruence.
      - destruct new as [x|]; [|lia]. exfalso. destruct Hnew as [_ Hnew]. assert (Some x = None); [|done]. by apply Hnew. }
    assert (e_waiting e1 = e_waiting e) as S4 by (unfold e1; by destruct acquire).
    unfold live_resources. rewrite S1, S4. lia. }
  set (e2 := if acquire then record_event _ _ _ _ _ e1 else e1) in e3.
  assert (moves (- 1 - c) e e2) as H2.
  { unfold e2. destruct acquire; [|replace (- 1 - c)%Z with (- 1 - p - c)%Z by (unfold p; lia); exact H1].
    replace (- 1 - c)%Z with (- 1 - p - c + 1)%Z by (unfold p; lia). eapply moves_trans; [exact H1|by apply moves_event]. }
  unfold e3. destruct new as [x|]; [|exact H2].
  replace (-1)%Z with (- 1 - c + 1)%Z by (unfold c; lia). eapply moves_trans; [exact H2|by apply moves_event].
Qed.

Section booked.
Context {uuid : N → string} {bound : N} (HU : uuid_source uuid bound).
Abbreviation engine_inv := (engine_inv uuid).
Abbreviation inv_mid := (inv_mid uuid).

(** A fresh draw names no existing Lease. *)
Lemma grant_booked held adm entry c now (acquire : bool) e :
  inv_mid held adm e → (grant uuid entry c now acquire e).2.(e_draws) <= bound →
  (acquire = true → entry.(se_request_id) ∉ e.(e_group_permits)) →
  booked e (grant uuid entry c now acquire e).2.
Proof.
  intros HI Hd Hp. unfold grant in *. destruct (e_credentials e !! c) as [rt|]; [|done].
  destruct (lease_execution _ _); [|done].
  destruct (charge_runtime _ _ _ _) as [[h|err] rt']; [|same_tables]. unfold draw in *. simpl in *.
  destruct (TypedId_new LeaseTag _) as [id|] eqn:Eid; [|same_tables]. simpl in *.
  match goal with |- context [install_lease entry ?x now acquire ?y] => set (lease := x) in *; set (e1 := y) in * end.
  transitivity e1; [same_tables|]. apply install_lease_booked; [|exact Hp].
  assert (e_draws (install_lease entry lease now acquire e1) = e_draws e + 1) as HE.
  { unfold install_lease. destruct (acquire_session_claim_eq entry (cl_credential_id lease) e1) as (k & new & -> & _).
    by destruct new, acquire. }
  apply eq_None_not_Some. intros [record Hl]. destruct HI as [[_ _ _ _ L5] _ _ _].
  destruct (L5 _ _ Hl) as (n & Hn & Hid). unfold TypedId_new in Eid. destruct (_ || _); [done|]. injection Eid as <-.
  apply (inj (String.append _)) in Hid. apply (us_fresh _ _ HU) in Hid; lia.
Qed.

Lemma enqueue_booked entry now slot e :
  e.(e_waiting) !! entry.(se_request_id) = None → booked e (enqueue uuid entry now slot e).2.
Proof using Type.
  intros Hw. unfold enqueue. destruct (_ <=? _); [same_tables|]. unfold draw. simpl.
  destruct (TypedId_new _ _); [|same_tables]. simpl. eapply (booked_then_event (-1)); [|done].
  match goal with |- moves _ e ?x => set (e1 := x) end.
  assert (-1 = live_resources e - live_resources e1)%Z as ->; [|by apply moves_tables].
  unfold live_resources, e1. simpl. rewrite map_size_insert_None by done. lia.
Qed.

Lemma admit_evaluated_booked entry now e :
  holds_nothing entry.(se_request_id) e → inv_mid [] {[entry.(se_request_id)]} e →
  (admit_evaluated uuid entry now e).2.(e_draws) <= bound → booked e (admit_evaluated uuid entry now e).2.
Proof.
  intros Hn HI Hd. unfold admit_evaluated in *.
  pose proof (evaluate_pool_inv [] _ entry now e HI) as HI1. pose proof (evaluate_pool_booked entry now e) as H1.
  assert (holds_nothing (se_request_id entry) (evaluate_pool entry now e).2) as [N1 N2 N3].
  { unfold evaluate_pool. destruct (evaluate_pool_fields _ _ _ _ _ _). by destruct Hn. }
  destruct (evaluate_pool entry now e) as [ev e1]. cbn [fst snd] in *.
  assert (∀ ev, booked e (admit_or_queue uuid entry ev now e1).2) as HQ.
  { intros ev'. etrans; [exact H1|]. unfold admit_or_queue. destruct (se_bypass_queue entry); [apply forget_booked|].
    by apply enqueue_booked. }
  assert (booked e (forget_rate_admission (se_request_id entry) e1)) as HF by (etrans; [exact H1|apply forget_booked]).
  destruct (_ && _).
  - destruct ev as [c| | |retry|]; try apply HQ; [|destruct (_ <=? _); [exact HF|apply HQ]|exact HF].
    pose proof (grant_booked [] {[se_request_id entry]} entry c now true e1 HI1) as HG.
    destruct (grant uuid entry c now true e1) as [[lease|err] e2]; cbn [fst snd] in *; (etrans; [exact H1|by apply HG]).
  - destruct ev; try apply HQ. exact HF.
Qed.

Lemma admit_booked g entry now e :
  engine_inv e → (admit_request uuid g entry now e).2.(e_draws) <= bound → booked e (admit_request uuid g entry now e).2.
Proof.
  intros HI. unfold admit_request. destruct (stale g e); [done|]. case_decide; [done|]. case_decide; [done|].
  case_decide as Hr; [done|]. case_decide; [done|]. destruct (_ <=? now); [done|].
  pose proof (unseen_holds_nothing uuid _ e HI Hr) as Hn. set (e0 := with_e_request_portability _ _).
  assert (booked e (prune now e0)) as Hbk by (etrans; [|apply prune_booked]; same_tables).
  assert (engine_inv (prune now e0)) as HI1 by by apply prune_inv, with_portability_inv, see_request_inv.
  assert (holds_nothing (se_request_id entry) (prune now e0)) as Hn1.
  { destruct (prune_tables now e0) as (T1 & T2 & T3 & _). destruct Hn. by split; rewrite ?T1, ?T2, ?T3. }
  set (e1 := prune now e0) in *. clearbody e1. clear HI Hn e0.
  assert (∀ m, inv_mid [] {[se_request_id entry]} (with_e_group_bucket m e1)) as HIb.
  { intros m. apply (inv_mid_weaken [] ∅); [set_solver|]. by apply with_group_bucket_inv. }
  destruct (e_group_bucket e1) as [b|].
  2:{ intros Hd. etrans; [exact Hbk|]. apply admit_evaluated_booked; [done| |done]. apply (inv_mid_weaken [] ∅); [set_solver|done]. }
  destruct (try_consume b now) as [[] b1]; cbn [negb].
  - intros Hd. etrans; [exact Hbk|]. match goal with |- booked _ (admit_evaluated _ _ _ ?x).2 => set (e2 := x) in * end.
    transitivity e2; [same_tables|]. apply admit_evaluated_booked; [by destruct Hn1| |done].
    apply (rate_admitted_inv [] {[se_request_id entry]}); [|apply HIb].
    intros x [->%elem_of_singleton|Hx]%elem_of_union; [left; set_solver|].
    destruct (qo_admitted _ _ _ (inv_queue _ _ _ _ HI1) x Hx); [set_solver|by right].
  - destruct (retry_after b1 now) as [retry b2]. intros _.
    destruct (_ <=? _); [etrans; [exact Hbk|same_tables]|]. destruct (se_bypass_queue entry); [etrans; [exact Hbk|same_tables]|].
    etrans; [exact Hbk|]. etrans; [|apply enqueue_booked; by destruct Hn1]. same_tables.
Qed.

(** *** The pump *)

Lemma pump_pop_booked now e : booked e (pump_pop now e).2.
Proof using Type.
  destruct (pump_pop_fields now e) as (o & m & adm & b & q & ->). same_tables.
Qed.

Lemma pump_serve_booked entry now e :
  inv_mid [entry] ∅ e → (pump_serve uuid entry now e).1.2 = true → (pump_serve uuid entry now e).2.(e_draws) <= bound →
  booked e (pump_serve uuid entry now e).2.
Proof.
  intros HI Hcont Hd. unfold pump_serve in *. destruct (held_idle entry [] e HI) as ([w Hw] & _ & Hp & _). rewrite Hw in *.
  pose proof (drop_ticket_booked (se_request_id entry) Release now e ltac:(done)) as H1.
  pose proof (drop_held_ticket_inv entry [] Release now e HI) as HI1.
  destruct (drop_ticket_tables (se_request_id entry) Release now e) as (_ & T2 & _).
  set (e1 := drop_ticket _ _ _ _) in *. destruct (_ <=? now); [simpl; etrans; [exact H1|apply forget_booked]|].
  pose proof (evaluate_pool_booked entry now e1) as H2. pose proof (evaluate_pool_inv [] _ entry now e1 HI1) as HI2.
  assert (e_group_permits (evaluate_pool entry now e1).2 = e_group_permits e) as Hp2.
  { rewrite <- T2. unfold evaluate_pool. by destruct (evaluate_pool_fields _ _ _ _ _ _). }
  destruct (evaluate_pool entry now e1) as [[c| | | |] e2]; cbn [fst snd] in *; try done.
  pose proof (grant_booked [] _ entry c now true e2 HI2) as HG.
  destruct (grant uuid entry c now true e2) as [res e3]. cbn [fst snd] in *.
  etrans; [exact H1|]. etrans; [exact H2|]. apply HG; [done|]. by rewrite Hp2.
Qed.

Lemma pump_loop_booked fuel now e :
  engine_inv e → (pump_loop uuid fuel now e).2.(e_draws) <= bound → booked e (pump_loop uuid fuel now e).2.
Proof.
  revert e. induction fuel as [|fuel IH]; intros e HI Hd; cbn [pump_loop] in *; [done|].
  destruct (_ <=? _); [done|].
  pose proof (pump_pop_inv (uuid_v4 := uuid) now e HI) as HP. pose proof (pump_pop_booked now e) as H1.
  pose proof (pump_serve_continues (uuid_v4 := uuid) now e) as HC.
  destruct (pump_pop now e) as [[entry|] e1]; cbn [fst snd] in *; [|done].
  destruct (HC entry e1 HI eq_refl) as [Hcont _].
  pose proof (pump_serve_booked entry now e1 HP Hcont) as H2. pose proof (pump_serve_inv HU entry now e1) as HI2.
  destruct (pump_serve uuid entry now e1) as [[res cont] e2]. cbn [fst snd] in *. subst cont.
  pose proof (pump_loop_draws (uuid_v4 := uuid) fuel now e2) as Hd2. specialize (IH e2).
  destruct (pump_loop uuid fuel now e2) as [rs e3]. cbn [fst snd] in *.
  etrans; [exact H1|]. etrans; [apply H2; lia|]. apply IH; [apply HI2; [lia|done]|done].
Qed.

Lemma pump_booked g now e :
  engine_inv e → (pump uuid g now e).2.(e_draws) <= bound → booked e (pump uuid g now e).2.
Proof.
  intros HI Hd. unfold pump in *. destruct (_ || _); [done|].
  pose proof (pump_expire_booked uuid now e HI) as H1. destruct (pump_expire_inv (uuid_v4 := uuid) now e HI) as (HI1 & _).
  destruct (pump_expire now e) as [expired e1]. cbn [fst snd] in *.
  pose proof (pump_loop_booked (S (N.to_nat (fq_len (e_queue e1)))) now e1 HI1) as HL.
  destruct (pump_loop _ _ _ e1) as [rs e2]. cbn [fst snd] in *. etrans; [exact H1|by apply HL].
Qed.

(** *** The other operations *)

Lemma cancel_booked g r now e : booked e (cancel g r now e).2.
Proof using Type.
  unfold cancel. destruct (stale g e); [done|]. case_decide.
  { cbn [snd]. transitivity (forget_rate_admission r (with_e_queue (queue_remove r (e_queue e)).2 e));
      [same_tables|by apply drop_ticket_booked]. }
  assert (booked e (if decide (r ∈ e_group_permits e) then release_group_permit r Release now e else (Ok tt, e)).2) as H1.
  { case_decide; [by apply release_group_permit_booked|done]. }
  destruct (if decide _ then _ else _) as [[u|err] e1]; cbn [snd] in *; destruct (e_request_leases e !! r); try done.
  cbn [snd]. etrans; [exact H1|].
  destruct (e_pending_cancels e1 !! _); [reflexivity|same_tables].
Qed.

Lemma abandon_admission_booked decision now e : engine_inv e → booked e (abandon_admission decision now e).
Proof using Type.
  clear HU bound. intros HI. destruct decision as [lease|ticket|rejection|]; simpl; [|apply cancel_booked|done|done].
  etrans; [by apply (release_lease_booked uuid [] ∅)|by apply release_group_permit_booked].
Qed.

Lemma abandon_resolutions_booked rs now e :
  resolutions_settled rs e → engine_inv e → booked e (abandon_resolutions rs now e).
Proof.
  revert e. induction rs as [|r rs IH]; intros e HS HI; simpl; [done|].
  destruct (abandon_admission_inv HU (qr_decision r) now e) as [H1 H2]; [apply HS; left|done|].
  etrans; [by apply abandon_admission_booked|]. apply IH; [|done].
  apply (resolutions_settled_evolves _ e); [done|]. intros x Hx. apply HS. by right.
Qed.

Lemma send_resolutions_booked reply rs now e :
  resolutions_settled rs e → engine_inv e → booked e (send_resolutions reply rs now e).
Proof.
  intros HS HI. unfold send_resolutions. destruct (rp_received reply); [done|by apply abandon_resolutions_booked].
Qed.

(** A pump whose resolutions are sent, after [rejections]. *)
Lemma pump_send_booked {A} (f : list QueueResolution → A) rejections g now reply e :
  (let '(rs, e) := pump uuid g now e in
   (f rs, send_resolutions reply (rejections ++ rs) now e)).2.(e_draws) <= bound →
  resolutions_settled rejections e → engine_inv e →
  booked e (let '(rs, e) := pump uuid g now e in (f rs, send_resolutions reply (rejections ++ rs) now e)).2.
Proof.
  intros Hd HS HI. pose proof (pump_inv HU g now e) as HP. pose proof (pump_booked g now e HI) as HB.
  destruct (pump uuid g now e) as [rs e1].
  cbn [fst snd] in *. pose proof (send_resolutions_draws reply (rejections ++ rs) now e1) as Hd1.
  destruct HP as (H1 & H2 & H3); [lia|done|]. etrans; [apply HB; lia|]. apply send_resolutions_booked; [|done].
  apply resolutions_settled_app; [|done]. by apply (resolutions_settled_evolves _ e).
Qed.

Lemma complete_request_booked g r now e :
  engine_inv e → (complete_request uuid g r now e).2.(e_draws) <= bound → booked e (complete_request uuid g r now e).2.
Proof.
  intros HI Hd. unfold complete_request in *. destruct (stale g e); [done|]. case_decide as Hl; [done|].
  apply eq_None_not_Some in Hl.
  pose proof (release_group_permit_inv [] ∅ r Release now e Hl HI) as H1.
  pose proof (release_group_permit_booked r Release now e ltac:(done)) as H2.
  destruct (release_group_permit r Release now e) as [[u|err] e1]; [|done]. cbn [fst snd] in *.
  pose proof (pump_booked g now e1 H1) as HP. destruct (pump uuid g now e1) as [rs e2]. cbn [fst snd] in *.
  etrans; [exact H2|by apply HP].
Qed.

Lemma replace_lease_booked g request now e :
  engine_inv e → (replace_lease uuid g request now e).2.(e_draws) <= bound → booked e (replace_lease uuid g request now e).2.
Proof.
  intros HI Hd. destruct (replace_lease_cases HU g request now e HI) as [|err|m HR|m current target lease e' entry l Hl Hreq Hrl Hperm HR HG];
    [done|done|same_tables|].
  pose proof (with_credentials_inv [] ∅ m e (refilled_pool_frame _ _ _ HR) HI) as HI1.
  set (e1 := with_e_credentials m e) in *.
  pose proof (released_state_inv [] ∅ l current now e1 HI1 Hl) as HI2.
  pose proof (grant_booked [] ∅ entry target now false _ HI2) as HB. rewrite HG in HB. cbn [snd] in HB.
  transitivity e1; [same_tables|]. etrans; [by apply (released_state_booked l current now)|]. by apply HB.
Qed.

Lemma disable_booked g now e : booked e (disable g now e).2.
Proof using Type.
  unfold disable. destruct (stale g e); [done|]. simpl. destruct (queue_drain _) as [entries q].
  match goal with |- booked e (disable_loop entries now ?x).2 => transitivity x; [same_tables|generalize x] end.
  clear e. induction entries as [|entry entries IH]; intros e; cbn [disable_loop]; [done|].
  assert (booked e (reject_queued None now entry e).2) as H1.
  { simpl. etrans; [by apply (drop_ticket_booked (se_request_id entry) ForcedRelease now)|apply forget_booked]. }
  destruct (reject_queued None now entry e) as [res e1]. cbn [snd] in H1. specialize (IH e1).
  destruct (disable_loop entries now e1) as [rs e2]. by etrans.
Qed.

Lemma reconfigure_booked g config now e : booked e (reconfigure g config now e).2.
Proof using Type.
  unfold reconfigure. destruct (stale g e); [done|]. destruct (group_config_invalid config); [done|].
  destruct (queue_bound_invalid _ _); [done|]. destruct (queue_drain _) as [entries q].
  assert (booked e (reconfigure_loop entries (gc_snapshot_version config) now (with_e_queue q e)).2) as H1.
  { transitivity (with_e_queue q e); [same_tables|]. generalize (with_e_queue q e). clear e.
    induction entries as [|entry entries IH]; intros e; cbn [reconfigure_loop]; [done|]. case_decide.
    - etrans; [|apply IH]. same_tables.
    - assert (booked e (reject_queued (Some (from_secs 1)) now entry e).2) as H1.
      { simpl. etrans; [by apply (drop_ticket_booked (se_request_id entry) ForcedRelease now)|apply forget_booked]. }
      destruct (reject_queued _ now entry e) as [res e1]. cbn [snd] in H1. specialize (IH e1).
      destruct (reconfigure_loop entries _ now e1) as [rs e2]. by etrans. }
  destruct (reconfigure_loop _ _ _ _) as [rs e1]. cbn [snd] in *. etrans; [exact H1|]. etrans; [|apply prune_booked]. same_tables.
Qed.

(** The two operations that drop idle claims. *)
Lemma drop_continuity_leaky c e : leaky e (drop_continuity c e).
Proof using Type.
  eexists. split; [|by apply moves_tables]. unfold live_resources, drop_continuity. simpl.
  match goal with |- context [size (btree_retain ?f ?m)] => assert (size (btree_retain f m) ≤ size m)%nat end; [|lia].
  apply map_subseteq_size, map_subseteq_spec. intros k claim Hk. by apply btree_retain_Some in Hk as [? _].
Qed.

Lemma booked_leaky e e' : booked e e' → leaky e e'.
Proof using Type. intros H. exists 0%Z. split; [lia|done]. Qed.

Lemma leaky_booked e e1 e2 : leaky e e1 → booked e1 e2 → leaky e e2.
Proof using Type. intros (k & Hk & H1) H2. exists (k + 0)%Z. split; [lia|]. by eapply moves_trans. Qed.

Lemma booked_then_leaky e e1 e2 : booked e e1 → leaky e1 e2 → leaky e e2.
Proof using Type. intros H1 (k & Hk & H2). exists (0 + k)%Z. split; [lia|]. by eapply moves_trans. Qed.

Lemma reconfigure_credential_leaky g config now e : leaky e (reconfigure_credential g config now e).2.
Proof using Type.
  unfold reconfigure_credential. destruct (stale g e); [by apply booked_leaky|].
  destruct (_ || _); [by apply booked_leaky|]. destruct (_ !! _) as [rt|]; [|apply booked_leaky; same_tables].
  destruct (_ || _); [by apply booked_leaky|]. destruct (_ <? _); [|apply booked_leaky; same_tables]. cbn [snd].
  destruct (device_changed _ _); [|apply booked_leaky; same_tables].
  eapply booked_then_leaky; [|apply drop_continuity_leaky]. same_tables.
Qed.

Lemma remove_fenced_credential_leaky g c e : leaky e (remove_fenced_credential g c e).2.
Proof using Type.
  unfold remove_fenced_credential. destruct (stale g e); [by apply booked_leaky|].
  destruct (_ !! _) as [rt|]; [|by apply booked_leaky]. destruct (negb _); [by apply booked_leaky|].
  destruct (negb _); [by apply booked_leaky|]. cbn [snd].
  eapply booked_then_leaky; [|apply drop_continuity_leaky]. same_tables.
Qed.

Lemma handle_observe_booked observed g now reply e :
  booked e observed.2 → engine_inv observed.2 → (handle_observe uuid observed g now reply).2.(e_draws) <= bound →
  booked e (handle_observe uuid observed g now reply).2.
Proof.
  destruct observed as [applied e1]. unfold handle_observe. intros H1 HI Hd. destruct applied; cbn [fst snd] in *.
  - etrans; [exact H1|]. by apply (pump_send_booked (λ rs, Some (ReplyObserved true rs)) []).
  - etrans; [exact H1|]. by apply send_resolutions_booked.
Qed.

End booked.

(** ** Lemmas: the ledger across the mailbox *)

Section mailbox.
Context {uuid : N → string} {bound : N} (HU : uuid_source uuid bound).
Abbreviation engine_inv := (engine_inv uuid).

Lemma handle_admit_booked g entry now reply e :
  engine_inv e → (handle_admit uuid g entry now reply e).2.(e_draws) <= bound →
  booked e (handle_admit uuid g entry now reply e).2.
Proof.
  intros HI Hd. unfold handle_admit in *. destruct (rp_closed reply); [reflexivity|].
  pose proof (admit_booked HU g entry now e HI) as HA. pose proof (admit_inv HU g entry now e) as HI1.
  destruct (admit_request _ _ _ _ e) as [r e1]. cbn [fst snd] in *.
  assert (e_draws e1 <= bound) as Hd1.
  { destruct (rp_received reply), r as [d|]; try done. pose proof (abandon_admission_draws d now e1). lia. }
  destruct (rp_received reply), r as [d|]; try by apply HA.
  etrans; [by apply HA|]. by apply (abandon_admission_booked (uuid := uuid)), HI1.
Qed.

Lemma handle_replace_booked g request now reply e :
  engine_inv e → (handle_replace uuid g request now reply e).2.(e_draws) <= bound →
  booked e (handle_replace uuid g request now reply e).2.
Proof.
  intros HI Hd. unfold handle_replace in *. pose proof (replace_lease_booked HU g request now e HI) as HB.
  pose proof (replace_lease_inv HU g request now e) as HR.
  destruct (replace_lease _ _ _ _ e) as [r e1]. cbn [fst snd] in *.
  destruct (rp_received reply), r as [[lease| |]|]; try (by apply HB).
  set (e2 := (release_lease g (cl_id lease) now e1).2) in *.
  pose proof (release_lease_draws g (cl_id lease) now e1) as Hd1. fold e2 in Hd1.
  pose proof (complete_request_draws uuid g (cl_request_id lease) now e2) as Hd2.
  assert (e_draws (complete_request uuid g (cl_request_id lease) now e2).2 <= bound) as Hd3.
  { destruct (complete_request _ _ _ _ e2) as [[rs|] e3]; cbn [fst snd] in *; [|done].
    pose proof (abandon_resolutions_draws rs now e3). lia. }
  assert (engine_inv e1) as HI1 by (apply HR; [lia|done]).
  assert (engine_inv e2) as HI2 by exact (release_lease_inv [] ∅ _ _ now e1 HI1).
  pose proof (complete_request_booked HU g (cl_request_id lease) now e2 HI2 Hd3) as HC.
  destruct (complete_request_inv HU g (cl_request_id lease) now e2 Hd3 HI2) as (HI3 & _ & HS).
  etrans; [apply HB; lia|]. etrans; [by apply (release_lease_booked uuid [] ∅ g (cl_id lease) now)|]. fold e2.
  destruct (complete_request _ _ _ _ e2) as [[rs|] e3]; cbn [fst snd] in *; [|done].
  etrans; [exact HC|]. by apply (abandon_resolutions_booked HU).
Qed.

Lemma actor_step_leaky command e :
  engine_inv e → command_typed command → (actor_step uuid command e).2.(e_draws) <= bound →
  leaky e (actor_step uuid command e).2 ∧ (drops_claims command = false → booked e (actor_step uuid command e).2).
Proof.
  intros HI Hty Hd.
  assert (drops_claims command = false → booked e (actor_step uuid command e).2) as HB.
  { intros Hc. destruct command; simpl in Hd, Hc |- *; try done.
    - by apply handle_admit_booked.
    - pose proof (cancel_booked generation request_id now e) as H1. by destruct (cancel _ _ _ e).
    - unfold handle_release in *. pose proof (release_lease_inv [] ∅ generation lease_id now e HI) as H1.
      pose proof (release_lease_booked uuid [] ∅ generation lease_id now e HI) as H2.
      destruct (release_lease _ _ _ e) as [[|] e1]; cbn [fst snd] in *; [|done]. etrans; [exact H2|].
      by apply (pump_send_booked HU (λ rs, Some (ReplyRelease (Ok (a, rs)))) []).
    - by apply handle_replace_booked.
    - apply (handle_observe_booked HU); [|by apply observe_credential_cooldown_inv|done].
      unfold observe_credential_cooldown. repeat case_match; try reflexivity; same_tables.
    - apply (handle_observe_booked HU); [|by apply observe_credential_auth_inv|done].
      unfold observe_credential_auth. repeat case_match; try reflexivity; same_tables.
    - apply (handle_observe_booked HU); [|by apply observe_credential_quota_inv|done].
      unfold observe_credential_quota. repeat case_match; try reflexivity; same_tables.
    - destruct (set_credential_fence_inv generation credential_id fenced e HI) as [H1 _].
      assert (booked e (set_credential_fence generation credential_id fenced e).2) as H2.
      { unfold set_credential_fence. repeat case_match; try reflexivity; same_tables. }
      destruct (set_credential_fence _ _ _ e) as [r e1]. cbn [snd] in *. etrans; [exact H2|].
      by apply (pump_send_booked HU (λ rs, Some (ReplyFence r rs)) []).
    - pose proof (reconfigure_booked generation config now e) as H2.
      destruct (reconfigure_inv generation config now e HI) as (H1 & _ & H3).
      destruct (reconfigure _ _ _ e) as [[rejections|] e1]; cbn [fst snd] in *; [|done]. etrans; [exact H2|].
      by apply (pump_send_booked HU (λ rs, Some (ReplyReconfigured (Ok (rejections ++ rs)))) rejections).
    - unfold confirm_transport_cancel. destruct (stale generation e) eqn:Hs; [reflexivity|].
      destruct (e_request_leases e !! request_id) as [l|] eqn:Hl; [|reflexivity].
      destruct HI as [[L1 L2 L3 L4 L5] HC HQ HR]. destruct (L2 request_id l Hl) as (record & Hrec & _).
      rewrite release_drop_pending by (done || by eexists).
      pose proof (release_lease_booked uuid [] ∅ generation l now e) as H2.
      assert (engine_inv e) as HI by (split; try done; by split). specialize (H2 HI). by destruct (release_lease _ _ _ _).
    - pose proof (complete_request_booked HU generation request_id now e HI) as H2.
      pose proof (complete_request_inv HU generation request_id now e) as HC.
      destruct (complete_request _ _ _ _ e) as [[rs|] e1]; cbn [fst snd] in *; [|by apply H2].
      pose proof (send_resolutions_draws reply rs now e1).
      destruct HC as (H1 & _ & H3); [lia|done|]. etrans; [apply H2; lia|]. by apply (send_resolutions_booked HU).
    - destruct (rp_closed reply); [reflexivity|]. by apply (pump_send_booked HU (λ rs, Some (ReplyResolutions rs)) []).
    - pose proof (disable_booked generation now e) as H2. by destruct (disable _ _ e).
    - same_tables. }
  split; [|exact HB]. destruct (drops_claims command) eqn:Hc; [|by apply booked_leaky, HB].
  destruct command; try done; simpl in Hd |- *.
  - destruct (remove_fenced_credential_inv generation credential_id e HI) as [H1 _].
    pose proof (remove_fenced_credential_leaky generation credential_id e) as H2.
    destruct (remove_fenced_credential _ _ e) as [r e1]. cbn [snd] in *. eapply leaky_booked; [exact H2|].
    by apply (pump_send_booked HU (λ rs, Some (ReplyRemove r rs)) []).
  - destruct (reconfigure_credential_inv generation config now e Hty HI) as [H1 _].
    pose proof (reconfigure_credential_leaky generation config now e) as H2.
    destruct (reconfigure_credential _ _ _ e) as [[applied|] e1]; cbn [fst snd] in *; [|done].
    eapply leaky_booked; [exact H2|]. by apply (pump_send_booked HU (λ rs, Some (ReplyCredential (Ok (applied, rs)))) []).
Qed.

(** The balance never undercounts. *)
Lemma reachable_drift e :
  reachable uuid e → e.(e_draws) <= bound → (Z.of_N e.(e_event_sequence) <= ISIZE_MAX)%Z →
  (Z.abs e.(e_resource_balance) <= Z.of_N e.(e_event_sequence) ∧ 0 <= drift e)%Z.
Proof.
  induction 1 as [identity config credentials now e Hty Hnew|command e He IH Hty|key c now e He IH|g c ok now e He IH|e He IH];
    intros Hd Hs.
  - unfold engine_new in Hnew. destruct (build_runtimes _ _ _); [|done]. destruct (group_config_invalid _); [done|].
    destruct (queue_bound_invalid _ _); [done|]. by injection Hnew as <-.
  - pose proof (actor_step_draws uuid command e). pose proof (reachable_inv HU e He ltac:(lia)) as HI.
    destruct (actor_step_leaky command e HI Hty Hd) as [(k & Hk & [M1 M2]) _]. specialize (M1 Hs).
    destruct IH as [I1 I2]; [lia|lia|]. destruct (M2 Hs I1). split; [done|lia].
  - assert (booked e (record_success key c now e)) as [M1 M2].
    { unfold record_success. repeat case_match; same_tables. }
    specialize (M1 Hs). assert (e_draws e <= bound) by (unfold record_success in Hd; by repeat case_match).
    destruct IH as [I1 I2]; [done|lia|]. destruct (M2 Hs I1). split; [done|lia].
  - assert (booked e (record_half_open_result g c ok now e)) as [M1 M2].
    { unfold record_half_open_result. destruct (stale g e); [reflexivity|same_tables]. }
    specialize (M1 Hs). assert (e_draws e <= bound) by (unfold record_half_open_result in Hd; by destruct (stale g e)).
    destruct IH as [I1 I2]; [done|lia|]. destruct (M2 Hs I1). split; [done|lia].
  - by apply IH.
Qed.

End mailbox.

(** ** Properties *)

(** C5: The ledger accounts for the resources of the owner. In every reachable
    state whose event sequence still fits a signed word, the balance of the
    recorded events is at least the number of tickets, Leases, Group permits and
    session claims that exist; and every command but the removal and the
    reconfiguration of a Credential keeps the difference exactly: each resource
    it takes or gives up is one event. *)
Theorem ledger_accounts_for_resources uuid bound e
    (HU : uuid_source uuid bound) (HR : reachable uuid e) (HD : e.(e_draws) <= bound)
    (HS : (Z.of_N e.(e_event_sequence) <= ISIZE_MAX)%Z) :
  (live_resources e <= e.(e_resource_balance))%Z ∧
  ∀ command, command_typed command → drops_claims command = false →
    let e' := (actor_step uuid command e).2 in
    e'.(e_draws) <= bound → (Z.of_N e'.(e_event_sequence) <= ISIZE_MAX)%Z →
    (e'.(e_resource_balance) - live_resources e' = e.(e_resource_balance) - live_resources e)%Z.
Proof.
  destruct (reachable_drift HU e HR HD HS) as [H1 H2]. split; [unfold drift in H2; lia|].
  intros command Hty Hc e' Hd Hs. pose proof (reachable_inv HU e HR HD) as HI.
  destruct (actor_step_leaky HU command e HI Hty Hd) as [_ HB]. destruct (HB Hc) as [_ HM].
  destruct (HM Hs H1) as [_ HE]. unfold drift in HE. unfold e'. lia.
Qed.

Lemma ledger_accounts_for_resources_witness :
  (live_resources sample_busy <= sample_busy.(e_resource_balance))%Z.
Proof.
  apply (ledger_accounts_for_resources sample_uuid 64 sample_busy sample_uuid_source sample_busy_reachable);
    vm_compute; discriminate.
Defined.

(** ** What a removal loses *)

(** The claims of the sessions of a Credential that no request uses. *)
Definition idle_claims (credential_id : CredentialId) (e : SchedulerEngine) : gmap SessionClaimKey SessionClaim :=
  filter (λ kv : SessionClaimKey * SessionClaim, kv.1.1.1 = credential_id ∧ kv.2.(sc_active_requests) = 0) e.(e_session_claims).

Lemma drop_continuity_moves c e : moves (Z.of_nat (size (idle_claims c e))) e (drop_continuity c e).
Proof.
  assert (Z.of_nat (size (idle_claims c e)) = live_resources e - live_resources (drop_continuity c e))%Z as ->; [|by apply moves_tables].
  unfold live_resources, drop_continuity, idle_claims. simpl.
  set (P := λ kv : SessionClaimKey * SessionClaim, kv.1.1.1 = c ∧ kv.2.(sc_active_requests) = 0).
  assert (btree_retain (λ key claim, negb (bool_decide (key.1.1 = c)) || negb (claim.(sc_active_requests) =? 0)) e.(e_session_claims)
    = filter (λ kv, ¬ P kv) e.(e_session_claims)) as ->.
  { unfold btree_retain. apply map_filter_ext. intros key claim _. unfold P. cbn. rewrite orb_true_iff, !negb_true_iff, bool_decide_eq_false, N.eqb_neq.
    destruct (decide (key.1.1 = c)), (decide (sc_active_requests claim = 0)); tauto. }
  rewrite <- (map_filter_union_complement P e.(e_session_claims)) at 2. rewrite map_size_disj_union by apply map_disjoint_filter_complement. lia.
Qed.

Section removal.
Context {uuid : N → string} {bound : N} (HU : uuid_source uuid bound).

Lemma actor_run_draws commands e : e.(e_draws) <= (actor_run uuid commands e).(e_draws).
Proof. revert e. induction commands as [|command commands IH]; intros e; [done|]. etrans; [apply (actor_step_draws uuid command e)|apply IH]. Qed.

(** No run makes up for what was lost. *)
Lemma actor_run_leaky commands e : reachable uuid e → Forall command_typed commands → (actor_run uuid commands e).(e_draws) <= bound → leaky e (actor_run uuid commands e).
Proof.
  revert e. induction commands as [|command commands IH]; intros e HR Hty Hd; [by apply booked_leaky|].
  apply Forall_cons in Hty as [Hc Hty]. pose proof (actor_run_draws commands (actor_step uuid command e).2) as Hm. cbn [actor_run foldl] in Hd |- *.
  destruct (IH (actor_step uuid command e).2) as (k2 & Hk2 & H2); [by apply reachable_step|done|exact Hd|].
  pose proof (actor_step_draws uuid command e).
  destruct (actor_step_leaky HU command e) as [(k1 & Hk1 & H1) _]; [apply (reachable_inv HU); [done|]; unfold actor_run in Hm, Hd; cbn in *; lia|done|unfold actor_run in Hm; cbn in *; lia|].
  exists (k1 + k2)%Z. split; [lia|]. by eapply moves_trans.
Qed.

(** The removal loses the idle claims. *)
Lemma removal_moves generation credential_id now reply e :
  reachable uuid e → (remove_fenced_credential generation credential_id e).1 = Removed →
  let e' := (actor_step uuid (CmdRemoveFencedCredential generation credential_id now reply) e).2 in
  e'.(e_draws) <= bound → moves (Z.of_nat (size (idle_claims credential_id e))) e e'.
Proof.
  intros HR Hrem e' Hd. pose proof (actor_step_draws uuid (CmdRemoveFencedCredential generation credential_id now reply) e) as Hm. fold e' in Hm.
  pose proof (reachable_inv HU e HR ltac:(lia)) as HI. unfold e' in *. clear e'. cbn [actor_step] in *.
  destruct (remove_fenced_credential_inv generation credential_id e HI) as [H1 _].
  assert (moves (Z.of_nat (size (idle_claims credential_id e))) e (remove_fenced_credential generation credential_id e).2) as H2.
  { unfold remove_fenced_credential in Hrem |- *. destruct (stale generation e); [done|]. destruct (_ !! _) as [rt|]; [|done]. destruct (negb _); [done|].
    destruct (negb _); [done|]. cbn [snd].
    pose proof (drop_continuity_moves credential_id (with_e_credentials (delete credential_id (e_credentials e)) e)) as H2.
    change (idle_claims credential_id (with_e_credentials _ e)) with (idle_claims credential_id e) in H2.
    rewrite <- (Z.add_0_l (Z.of_nat _)). eapply moves_trans; [|exact H2]. same_tables. }
  destruct (remove_fenced_credential generation credential_id e) as [r e1]. cbn [fst snd] in *. rewrite <- (Z.add_0_r (Z.of_nat _)). eapply moves_trans; [exact H2|].
  by apply (pump_send_booked HU (λ rs, Some (ReplyRemove r rs)) []).
Qed.
End removal.

(** C11: the ledger overcounts for ever what the removal of a Credential drops. In any state that an owner can reach, the claims of idle sessions go with the Credential that is
    removed, and no release is recorded for them: whatever commands the owner is given afterwards, as long as the UUIDs that it draws differ and its events are fewer
    than 2^63, the balance of the ledger stays above the number of the tickets, Leases, permits and session claims that exist by at least the number of the claims that
    were dropped. *)
Theorem removed_claims_stay_on_the_ledger uuid bound e generation credential_id now reply commands :
  uuid_source uuid bound → reachable uuid e → (remove_fenced_credential generation credential_id e).1 = Removed → Forall command_typed commands →
  let e' := actor_run uuid (CmdRemoveFencedCredential generation credential_id now reply :: commands) e in
  e'.(e_draws) <= bound → (Z.of_N e'.(e_event_sequence) <= ISIZE_MAX)%Z →
  (live_resources e' + Z.of_nat (size (idle_claims credential_id e)) <= (snapshot e').(ss_resource_balance))%Z.
Proof.
  intros HU HR Hrem Hty e' Hd Hs. change e' with (actor_run uuid commands (actor_step uuid (CmdRemoveFencedCredential generation credential_id now reply) e).2) in *.
  set (e1 := (actor_step uuid _ e).2) in *. pose proof (actor_run_draws (uuid := uuid) commands e1) as Hm.
  pose proof (actor_step_draws uuid (CmdRemoveFencedCredential generation credential_id now reply) e) as Hm1. fold e1 in Hm1.
  destruct (removal_moves HU generation credential_id now reply e HR Hrem) as [A1 A2]; [fold e1; lia|]. fold e1 in A1, A2.
  destruct (actor_run_leaky HU commands e1) as (k & Hk & [B1 B2]); [by apply reachable_step|done|exact Hd|].
  specialize (B1 Hs). specialize (A1 ltac:(lia)). destruct (reachable_drift HU e HR) as [H1 H2]; [lia|lia|].
  destruct A2 as [A2 A3]; [lia|done|]. destruct (B2 Hs A2) as [B3 B4]. cbn [snapshot ss_resource_balance]. unfold drift in *. lia.
Qed.

Lemma removed_claims_stay_on_the_ledger_witness :
  let e := actor_run sample_uuid [CmdRemoveFencedCredential sample_generation (MkTypedId "c") 5 received] (actor_run sample_uuid leak_before sample_engine) in
  live_resources e = 0%Z ∧ (live_resources e + 1 <= (snapshot e).(ss_resource_balance))%Z.
Proof.
  split; [vm_compute; reflexivity|].
  assert (size (idle_claims (MkTypedId "c") (actor_run sample_uuid leak_before sample_engine)) = 1%nat) as Hsize by (vm_compute; reflexivity).
  change 1%Z with (Z.of_nat 1). rewrite <- Hsize.
  apply (removed_claims_stay_on_the_ledger sample_uuid 64 (actor_run sample_uuid leak_before sample_engine) sample_generation (MkTypedId "c") 5 received [] sample_uuid_source).
  - apply reachable_run; [apply sample_engine_reachable|repeat constructor].
  - vm_compute. reflexivity.
  - constructor.
  - vm_compute. discriminate.
  - vm_compute. discriminate.
Defined.
