(* ===== verification/Transport.v ===== *)
(** Transport failures of [crates/gateway-transport/src/error.rs], with the
    constructors of [h1.rs] and [production.rs], and the application protocol of
    [crates/gateway-domain/src/transport.rs]. *)

From S2P Require Import Prelude Machine.
Local Open Scope N_scope.

Inductive HttpProtocol := H1 | H2.

#[export] Instance HttpProtocol_eq_dec : EqDecision HttpProtocol.
Proof. solve_decision. Defined.

Inductive TransportPhase :=
  | Phase_Bundle
  | Phase_Pool
  | Phase_Resolve
  | Phase_TcpConnect
  | Phase_ProxyTunnel
  | Phase_TlsHandshake
  | Phase_Alpn
  | Phase_RequestUpload
  | Phase_ResponseHeaders
  | Phase_ResponseBody
  | Phase_Cancel.

#[export] Instance TransportPhase_eq_dec : EqDecision TransportPhase.
Proof. solve_decision. Defined.

Inductive AttributionDomain :=
  | Resolver
  | DirectEgress
  | Domain_Proxy
  | BundleRuntime
  | AnthropicIncident
  | LocalRuntime
  | Cancellation.

#[export] Instance AttributionDomain_eq_dec : EqDecision AttributionDomain.
Proof. solve_decision. Defined.

Inductive FailureScope := Scope_Attempt | Scope_Connection | Scope_Egress | Scope_Bundle | Scope_Core.

#[export] Instance FailureScope_eq_dec : EqDecision FailureScope.
Proof. solve_decision. Defined.

Inductive RetrySafety := SafeBeforeSubmission | CommitUnknown | UnsafeSubmitted.

#[export] Instance RetrySafety_eq_dec : EqDecision RetrySafety.
Proof. solve_decision. Defined.

Inductive ConnectionDisposition := Reusable | Evict | ResetStream | DrainConnection | CloseConnection.

#[export] Instance ConnectionDisposition_eq_dec : EqDecision ConnectionDisposition.
Proof. solve_decision. Defined.

Inductive HealthEffect := Effect_None | TransientFailure | QuarantineEgress | QuarantineBundle | SuccessfulProbe.

#[export] Instance HealthEffect_eq_dec : EqDecision HealthEffect.
Proof. solve_decision. Defined.

Inductive TransportErrorCode :=
  | EngineUnavailable
  | BundleRejected
  | ResolverFailure
  | TcpConnectFailure
  | ProxyAuthentication
  | ProxyProtocol
  | TlsCertificate
  | Code_TlsHandshake
  | AlpnMismatch
  | CipherMismatch
  | Code_H1Framing
  | H2Protocol
  | Code_Timeout
  | Code_Cancelled
  | CancelGraceExpired
  | InternalInvariant.

#[export] Instance TransportErrorCode_eq_dec : EqDecision TransportErrorCode.
Proof. solve_decision. Defined.

Record TransportError := {
  te_code : TransportErrorCode;
  te_phase : TransportPhase;
  te_attribution_domain : AttributionDomain;
  te_failure_scope : FailureScope;
  te_retry_safety : RetrySafety;
  te_upstream_request_bytes_written : N;
  te_upstream_submission_complete : bool;
  te_connection_disposition : ConnectionDisposition;
  te_health_effect : HealthEffect;
  te_diagnostic : string;
}.

#[export] Instance TransportError_eq_dec : EqDecision TransportError.
Proof. solve_decision. Defined.

Definition engine_unavailable (diagnostic : string) : TransportError :=
  {| te_code := EngineUnavailable; te_phase := Phase_Bundle; te_attribution_domain := BundleRuntime;
     te_failure_scope := Scope_Bundle; te_retry_safety := SafeBeforeSubmission;
     te_upstream_request_bytes_written := 0; te_upstream_submission_complete := false;
     te_connection_disposition := Evict; te_health_effect := Effect_None; te_diagnostic := diagnostic |}.

Definition with_te_code (code : TransportErrorCode) (e : TransportError) : TransportError :=
  {| te_code := code; te_phase := e.(te_phase); te_attribution_domain := e.(te_attribution_domain);
     te_failure_scope := e.(te_failure_scope); te_retry_safety := e.(te_retry_safety);
     te_upstream_request_bytes_written := e.(te_upstream_request_bytes_written);
     te_upstream_submission_complete := e.(te_upstream_submission_complete);
     te_connection_disposition := e.(te_connection_disposition); te_health_effect := e.(te_health_effect);
     te_diagnostic := e.(te_diagnostic) |}.

(** [invariant] of [event.rs]. *)
Definition invariant_error (code : string) : TransportError :=
  with_te_code InternalInvariant (engine_unavailable code).

(** [h1_error] of [h1.rs]. *)
Definition h1_error (diagnostic : string) : TransportError :=
  {| te_code := Code_H1Framing; te_phase := Phase_ResponseHeaders; te_attribution_domain := BundleRuntime;
     te_failure_scope := Scope_Connection; te_retry_safety := CommitUnknown;
     te_upstream_request_bytes_written := 0; te_upstream_submission_complete := false;
     te_connection_disposition := Evict; te_health_effect := QuarantineBundle; te_diagnostic := diagnostic |}.

(** [h1_body_error], [cancelled_after_submission], [io_error] and
    [timeout_error] of [production.rs]. *)
Definition h1_body_error (diagnostic : string) (request_bytes : N) : TransportError :=
  {| te_code := Code_H1Framing; te_phase := Phase_ResponseBody; te_attribution_domain := BundleRuntime;
     te_failure_scope := Scope_Connection; te_retry_safety := UnsafeSubmitted;
     te_upstream_request_bytes_written := request_bytes; te_upstream_submission_complete := true;
     te_connection_disposition := Evict; te_health_effect := QuarantineBundle; te_diagnostic := diagnostic |}.

Definition cancelled_after_submission (request_bytes : N) : TransportError :=
  {| te_code := Code_Cancelled; te_phase := Phase_Cancel; te_attribution_domain := Cancellation;
     te_failure_scope := Scope_Attempt;
     te_retry_safety := if request_bytes =? 0 then SafeBeforeSubmission else UnsafeSubmitted;
     te_upstream_request_bytes_written := request_bytes;
     te_upstream_submission_complete := 0 <? request_bytes;
     te_connection_disposition := Evict; te_health_effect := Effect_None;
     te_diagnostic := "cancelled_transport" |}.

Definition io_error (phase : TransportPhase) (request_bytes : N) (diagnostic : string) : TransportError :=
  {| te_code := TcpConnectFailure; te_phase := phase; te_attribution_domain := AnthropicIncident;
     te_failure_scope := Scope_Connection;
     te_retry_safety := if request_bytes =? 0 then SafeBeforeSubmission else CommitUnknown;
     te_upstream_request_bytes_written := request_bytes; te_upstream_submission_complete := false;
     te_connection_disposition := Evict; te_health_effect := TransientFailure; te_diagnostic := diagnostic |}.

Definition timeout_error (phase : TransportPhase) (request_bytes : N) : TransportError :=
  with_te_code Code_Timeout (io_error phase request_bytes "upstream_timeout").
