(* ===== verification/Chunked.v ===== *)
(** The incremental decoder of the chunked transfer encoding, [ChunkDecoder] of
    [crates/gateway-transport/src/production.rs]. *)

From S2P Require Import Prelude Machine.
From S2P Require Import Bytes.
From S2P Require Import Transport.
From Stdlib Require Import Ascii.
Local Open Scope N_scope.

Record ChunkDecoder := {
  cd_buffer : bytes;
  cd_remaining : option N;
  cd_expect_data_crlf : bool;
  cd_trailers : bool;
  cd_complete : bool;
}.

#[export] Instance ChunkDecoder_eq_dec : EqDecision ChunkDecoder.
Proof. solve_decision. Defined.

Definition decoder_default : ChunkDecoder :=
  {| cd_buffer := []; cd_remaining := None; cd_expect_data_crlf := false; cd_trailers := false; cd_complete := false |}.

Definition with_buffer (buffer : bytes) (d : ChunkDecoder) : ChunkDecoder :=
  {| cd_buffer := buffer; cd_remaining := d.(cd_remaining); cd_expect_data_crlf := d.(cd_expect_data_crlf);
     cd_trailers := d.(cd_trailers); cd_complete := d.(cd_complete) |}.

Definition with_remaining (remaining : option N) (d : ChunkDecoder) : ChunkDecoder :=
  {| cd_buffer := d.(cd_buffer); cd_remaining := remaining; cd_expect_data_crlf := d.(cd_expect_data_crlf);
     cd_trailers := d.(cd_trailers); cd_complete := d.(cd_complete) |}.

Definition with_expect_data_crlf (b : bool) (d : ChunkDecoder) : ChunkDecoder :=
  {| cd_buffer := d.(cd_buffer); cd_remaining := d.(cd_remaining); cd_expect_data_crlf := b;
     cd_trailers := d.(cd_trailers); cd_complete := d.(cd_complete) |}.

Definition with_trailers (b : bool) (d : ChunkDecoder) : ChunkDecoder :=
  {| cd_buffer := d.(cd_buffer); cd_remaining := d.(cd_remaining); cd_expect_data_crlf := d.(cd_expect_data_crlf);
     cd_trailers := b; cd_complete := d.(cd_complete) |}.

Definition with_complete (b : bool) (d : ChunkDecoder) : ChunkDecoder :=
  {| cd_buffer := d.(cd_buffer); cd_remaining := d.(cd_remaining); cd_expect_data_crlf := d.(cd_expect_data_crlf);
     cd_trailers := d.(cd_trailers); cd_complete := b |}.

(** The outcome of one turn of the loop of [feed]: [break], [return Err(..)], or
    the next turn, with the payload it pushed. *)
Inductive turn :=
  | Break (d : ChunkDecoder)
  | Fail (err : TransportError) (d : ChunkDecoder)
  | Again (d : ChunkDecoder) (pushed : list bytes).

Definition chunk_too_large : TransportError := h1_body_error "h1_chunk_size_too_large" 0.

(** The size on a chunk-size line; extensions are ignored. *)
Definition chunk_size (line : bytes) : option N :=
  if utf8_valid line then from_str_radix 16 USIZE_MAX (trim (split_first ";"%char line)) else None.

Definition feed_turn (self : ChunkDecoder) : turn :=
  let buffer := self.(cd_buffer) in
  if self.(cd_complete) then Break self
  else if self.(cd_trailers) then
    if starts_with CRLF buffer then Break (with_complete true (with_buffer (drop 2 buffer) self))
    else match find_bytes (CRLF ++ CRLF) buffer with
         | Some last => Break (with_complete true (with_buffer (drop (last + 4) buffer) self))
         | None => Break self
         end
  else if self.(cd_expect_data_crlf) then
    if (length buffer <? 2)%nat then Break self
    else if negb (starts_with CRLF buffer) then Fail (h1_body_error "h1_chunk_terminator" 0) self
    else Again (with_remaining None (with_expect_data_crlf false (with_buffer (drop 2 buffer) self))) []
  else
    match self.(cd_remaining) with
    | Some remaining =>
        if remaining =? 0 then Again (with_expect_data_crlf true self) []
        else match buffer with
             | [] => Break self
             | _ =>
                 let amount := N.min remaining (N.of_nat (length buffer)) in
                 Again (with_remaining (Some (remaining - amount)) (with_buffer (drop (N.to_nat amount) buffer) self))
                   [take (N.to_nat amount) buffer]
             end
    | None =>
        match find_bytes CRLF buffer with
        | None => if (1024 <? length buffer)%nat then Fail chunk_too_large self else Break self
        | Some line_end =>
            match chunk_size (take line_end buffer) with
            | None => Fail (h1_body_error "h1_chunk_size" 0) self
            | Some size =>
                let self := with_buffer (drop (line_end + 2) buffer) self in
                Again (if size =? 0 then with_trailers true self else with_remaining (Some size) self) []
            end
        end
    end.

(** The loop of [feed]; [feed_fuel] turns are enough ([feed_stops]). *)
Fixpoint feed_loop (fuel : nat) (output : list bytes) (self : ChunkDecoder)
    : result TransportError (list bytes) * ChunkDecoder :=
  match fuel with
  | O => (Ok output, self)
  | S fuel =>
      match feed_turn self with
      | Break self => (Ok output, self)
      | Fail err self => (Err err, self)
      | Again self pushed => feed_loop fuel (output ++ pushed) self
      end
  end.

Definition feed_fuel (self : ChunkDecoder) : nat := 2 * length self.(cd_buffer) + 2.

Definition feed (self : ChunkDecoder) (incoming : bytes) : result TransportError (list bytes) * ChunkDecoder :=
  let self := with_buffer (self.(cd_buffer) ++ incoming) self in
  feed_loop (feed_fuel self) [] self.

(** The reads of [relay_chunked], one fragment after the other, up to the first error. *)
Fixpoint feed_all (self : ChunkDecoder) (fragments : list bytes) : result TransportError bytes * ChunkDecoder :=
  match fragments with
  | [] => (Ok [], self)
  | fragment :: fragments =>
      match feed self fragment with
      | (Err err, self) => (Err err, self)
      | (Ok pushed, self) =>
          match feed_all self fragments with
          | (Err err, self) => (Err err, self)
          | (Ok payload, self) => (Ok (concat pushed ++ payload), self)
          end
      end
  end.

(** ** The encoding

    A sender's side of the encoding: each chunk with its size in hexadecimal, then
    the last chunk without trailers. *)
Definition encode_chunk (chunk : bytes) : bytes :=
  format_radix 16 (N.of_nat (length chunk)) ++ CRLF ++ chunk ++ CRLF.

Definition last_chunk : bytes := "0"%char :: CRLF ++ CRLF.

Definition encode_chunks (chunks : list bytes) : bytes := concat (map encode_chunk chunks) ++ last_chunk.

(** A chunk that can be announced: not empty, and its size fits in a [usize]. *)
Definition chunk_ok (chunk : bytes) : Prop := chunk ≠ [] ∧ N.of_nat (length chunk) <= USIZE_MAX.

(** ** Runs

    [runs d payload out]: the loop, started in [d], pushes [payload] in all and
    ends in [out]. *)
Inductive runs : ChunkDecoder → bytes → result TransportError ChunkDecoder → Prop :=
  | runs_break d d' : feed_turn d = Break d' → runs d [] (Ok d')
  | runs_fail d err d' : feed_turn d = Fail err d' → runs d [] (Err err)
  | runs_again d d' pushed payload out :
      feed_turn d = Again d' pushed → runs d' payload out → runs d (concat pushed ++ payload) out.

Definition push (d : ChunkDecoder) (y : bytes) : ChunkDecoder := with_buffer (d.(cd_buffer) ++ y) d.

(** What the turns use up: the bytes of the buffer, and the passage from the end
    of a chunk's data to its terminator. *)
Definition feed_measure (d : ChunkDecoder) : nat :=
  2 * length d.(cd_buffer) + (if d.(cd_expect_data_crlf) then 0 else match d.(cd_remaining) with Some _ => 1 | None => 0 end).

(** ** The loop ends by its own exit *)

Lemma with_buffer_same d : with_buffer d.(cd_buffer) d = d.
Proof. by destruct d. Qed.

Lemma push_nil d : push d [] = d.
Proof. unfold push. by rewrite app_nil_r, with_buffer_same. Qed.

Lemma push_push d x y : push (push d x) y = push d (x ++ y).
Proof. unfold push. simpl. by rewrite <- app_assoc. Qed.

Lemma find_bytes_bound needle l n : find_bytes needle l = Some n → (n + length needle <= length l)%nat.
Proof. intros (b & a & -> & <- & _)%find_bytes_Some. rewrite !length_app. lia. Qed.

Lemma feed_turn_measure d d' pushed : feed_turn d = Again d' pushed → (feed_measure d' < feed_measure d)%nat.
Proof.
  unfold feed_turn, feed_measure. destruct d as [buffer remaining expect trailers complete]; simpl.
  destruct complete; [done|]. destruct trailers.
  { destruct (starts_with _ _); [done|]. by destruct (find_bytes _ _). }
  destruct expect.
  { destruct (length buffer <? 2)%nat eqn:E; [done|]. apply Nat.ltb_ge in E.
    destruct (negb _); [done|]. intros [= <- _]. simpl. rewrite length_skipn. lia. }
  destruct remaining as [r|].
  - destruct (N.eqb_spec r 0); [intros [= <- _]; simpl; lia|]. destruct buffer as [|c buffer]; [done|].
    intros [= <- _]. cbn [cd_buffer cd_expect_data_crlf cd_remaining with_remaining with_buffer].
    rewrite length_skipn. simpl length. lia.
  - destruct (find_bytes CRLF buffer) as [n|] eqn:Ef; [|by destruct (1024 <? _)%nat].
    apply find_bytes_bound in Ef. simpl in Ef. destruct (chunk_size _) as [size|]; [|done].
    intros [= <- _]. destruct (size =? 0); simpl; rewrite length_skipn; lia.
Qed.

Lemma feed_loop_runs fuel output d :
  (feed_measure d < fuel)%nat →
  ∃ payload out, runs d payload out ∧
    match feed_loop fuel output d with
    | (Ok pushed, d') => out = Ok d' ∧ concat pushed = concat output ++ payload
    | (Err err, _) => out = Err err
    end.
Proof.
  revert output d. induction fuel as [|fuel IH]; intros output d Hf; [lia|]. simpl.
  destruct (feed_turn d) as [d'|err d'|d' pushed] eqn:E.
  - exists [], (Ok d'). split; [by constructor|]. by rewrite app_nil_r.
  - exists [], (Err err). split; [by econstructor|done].
  - pose proof (feed_turn_measure _ _ _ E). destruct (IH (output ++ pushed) d') as (payload & out & Hr & Hl); [lia|].
    exists (concat pushed ++ payload), out. split; [by econstructor|].
    destruct (feed_loop fuel (output ++ pushed) d') as [[p|err] d'']; [|done].
    destruct Hl as [-> ->]. split; [done|]. by rewrite concat_app, app_assoc.
Qed.

Lemma feed_fuel_enough d : (feed_measure d < feed_fuel d)%nat.
Proof. unfold feed_measure, feed_fuel. destruct (cd_expect_data_crlf d), (cd_remaining d); lia. Qed.

Lemma feed_runs d incoming :
  ∃ payload out, runs (push d incoming) payload out ∧
    match feed d incoming with
    | (Ok pushed, d') => out = Ok d' ∧ concat pushed = payload
    | (Err err, _) => out = Err err
    end.
Proof. apply (feed_loop_runs _ [] (push d incoming)), feed_fuel_enough. Qed.

Lemma runs_det d p1 o1 p2 o2 : runs d p1 o1 → runs d p2 o2 → p1 = p2 ∧ o1 = o2.
Proof.
  intros H1. revert p2 o2. induction H1 as [d d' E|d e d' E|d d' pushed payload out E H1 IH]; intros p2 o2 H2;
    inversion H2; subst; try congruence; [split; congruence..|].
  rewrite E in *. simplify_eq. destruct (IH _ _ H0) as [-> ->]. done.
Qed.

(** Where a run ends: nothing more can be done with what is buffered. *)
Lemma runs_rest d p d' : runs d p (Ok d') → feed_turn d' = Break d'.
Proof.
  intros H. remember (Ok d') as out. revert d' Heqout.
  induction H as [d d1 E|d e d1 E|d d1 pushed payload out E _ IH]; intros d' Ho; simplify_eq; [|auto].
  revert E. unfold feed_turn. destruct d as [buffer remaining expect trailers complete]; simpl.
  destruct complete; [by intros [= <-]|]. destruct trailers.
  { destruct (starts_with CRLF buffer) eqn:E1; [by intros [= <-]|].
    destruct (find_bytes _ buffer) eqn:E2; intros [= <-]; [done|]. simpl. by rewrite E1, E2. }
  destruct expect.
  { destruct (length buffer <? 2)%nat eqn:E; [intros [= <-]; simpl; by rewrite E|]. by destruct (negb _). }
  destruct remaining as [r|].
  - destruct (N.eqb_spec r 0) as [|Hr]; [done|]. destruct buffer; [|done]. intros [= <-]. simpl. by rewrite (proj2 (N.eqb_neq _ _) Hr).
  - destruct (find_bytes CRLF buffer) eqn:E1; [by destruct (chunk_size _)|].
    destruct (1024 <? length buffer)%nat eqn:E2; [done|]. intros [= <-]. simpl. by rewrite E1, E2.
Qed.

(** ** More input

    A turn that does something does the same when more input is already there,
    but for a turn that hands out payload: it hands out more. *)
Lemma starts_with_app p l r : starts_with p l = true → starts_with p (l ++ r) = true.
Proof. rewrite !starts_with_spec. intros [s ->]. exists (s ++ r). by rewrite app_assoc. Qed.

Lemma starts_with_longer p l r : (length p <= length l)%nat → starts_with p (l ++ r) = starts_with p l.
Proof.
  intros Hl. destruct (starts_with p l) eqn:E; [by apply starts_with_app|].
  apply not_true_iff_false in E. apply not_true_iff_false. intros [s Hs]%starts_with_spec. apply E.
  apply starts_with_spec. apply app_eq_inv in Hs as [(k & -> & _)|(k & -> & _)]; [by exists k|].
  rewrite length_app in Hl. assert (k = []) as -> by (destruct k; simpl in *; [done|lia]).
  exists []. by rewrite !app_nil_r.
Qed.

Lemma take_drop_app {A} n (l r : list A) : (n <= length l)%nat → take n (l ++ r) = take n l ∧ drop n (l ++ r) = drop n l ++ r.
Proof. intros. by rewrite take_app_le, drop_app_le. Qed.

Definition awaits_data (d : ChunkDecoder) : Prop :=
  d.(cd_complete) = false ∧ d.(cd_trailers) = false ∧ d.(cd_expect_data_crlf) = false ∧
  ∃ r, d.(cd_remaining) = Some r ∧ r ≠ 0.

(** Data handed out in one turn or in two. *)
Lemma feed_turn_data d r y :
  awaits_data d → d.(cd_remaining) = Some r → d.(cd_buffer) ≠ [] →
  feed_turn (push d y) =
    let amount := N.min r (N.of_nat (length (d.(cd_buffer) ++ y))) in
    Again (with_remaining (Some (r - amount)) (with_buffer (drop (N.to_nat amount) (d.(cd_buffer) ++ y)) d))
      [take (N.to_nat amount) (d.(cd_buffer) ++ y)].
Proof.
  intros (Hc & Ht & He & r' & Hr & Hnz) Hr2 Hb. rewrite Hr in Hr2. simplify_eq.
  unfold feed_turn, push. simpl. rewrite Hc, Ht, He, Hr, (proj2 (N.eqb_neq _ _) Hnz).
  destruct (cd_buffer d ++ y) eqn:E; [by apply app_eq_nil in E as [? _]|]. done.
Qed.

(** The turns that hand out nothing, and a failure other than the one about a
    long chunk-size line, do not depend on the input that follows. *)
Lemma feed_turn_push d y :
  match feed_turn d with
  | Break d' => d' = d ∨ d'.(cd_complete) = true ∧ feed_turn (push d y) = Break (push d' y)
  | Fail err d' => err = chunk_too_large ∨ feed_turn (push d y) = Fail err (push d' y)
  | Again d' pushed =>
      awaits_data d ∧ d.(cd_buffer) ≠ [] ∨ feed_turn (push d y) = Again (push d' y) pushed
  end.
Proof.
  unfold feed_turn, push. destruct d as [buffer remaining expect trailers complete]; simpl.
  destruct complete; [by left|]. destruct trailers.
  { destruct (starts_with CRLF buffer) eqn:E.
    - right. rewrite starts_with_app by done. apply starts_with_spec in E as [s ->]. done.
    - destruct (find_bytes _ buffer) as [n|] eqn:Ef; [|by left]. right. split; [done|].
      pose proof (find_bytes_bound _ _ _ Ef) as Hb. simpl in Hb.
      rewrite starts_with_longer, E by (simpl; lia). rewrite (find_bytes_app _ _ y _ Ef).
      by rewrite (proj2 (take_drop_app (n + 4) buffer y ltac:(lia))). }
  destruct expect.
  { destruct (length buffer <? 2)%nat eqn:E; [by left|]. apply Nat.ltb_ge in E.
    rewrite length_app, (proj2 (Nat.ltb_ge _ _)) by lia. rewrite starts_with_longer by (simpl; lia).
    destruct (negb _); right; [done|]. by rewrite (proj2 (take_drop_app 2 buffer y ltac:(lia))). }
  destruct remaining as [r|].
  - destruct (N.eqb_spec r 0) as [|Hr]; [by right|]. destruct buffer as [|c buffer]; [by left|].
    left. split; [|done]. repeat split; try done. by exists r.
  - destruct (find_bytes CRLF buffer) as [n|] eqn:Ef; [|destruct (1024 <? _)%nat; by left].
    pose proof (find_bytes_bound _ _ _ Ef) as Hb. simpl in Hb. rewrite (find_bytes_app _ _ y _ Ef).
    destruct (take_drop_app n buffer y ltac:(lia)) as [-> _].
    destruct (take_drop_app (n + 2) buffer y ltac:(lia)) as [_ ->].
    destruct (chunk_size _) as [size|]; right; [|done]. by destruct (size =? 0).
Qed.

Lemma runs_stuck d p o : feed_turn d = Break d → runs d p o → p = [] ∧ o = Ok d.
Proof. intros E H. apply (runs_det d); [done|by constructor]. Qed.

Lemma runs_again_inv d d' pushed p o :
  feed_turn d = Again d' pushed → runs d p o → ∃ payload, runs d' payload o ∧ p = concat pushed ++ payload.
Proof.
  intros E H. destruct H as [d d1 E'|d e d1 E'|d d1 pushed' payload o E' H]; rewrite E in E'; try done.
  injection E' as <- <-. by exists payload.
Qed.

Lemma runs_again_eq d d' pushed payload out p :
  feed_turn d = Again d' pushed → runs d' payload out → p = concat pushed ++ payload → runs d p out.
Proof. intros ?? ->. by econstructor. Qed.

(** Running on an input and then on the rest is running on all of it. *)
Lemma runs_push d p d1 y p2 out :
  runs d p (Ok d1) → runs (push d1 y) p2 out → runs (push d y) (p ++ p2) out.
Proof.
  intros H. remember (Ok d1) as o eqn:Ho. revert d1 Ho p2. induction H as [d d1' E|d e d1' E|d d' pushed p o E H IH];
    intros d1 Ho p2 H2; [injection Ho as Ho; subst d1'|done|]; pose proof (feed_turn_push d y) as HP; rewrite E in HP.
  - destruct HP as [->|[Hc HP]]; [done|]. simpl.
    assert (feed_turn (push d1 y) = Break (push d1 y)) as Hd1.
    { unfold feed_turn, push. simpl. by rewrite Hc. }
    inversion H2; subst; try congruence. rewrite Hd1 in *. simplify_eq. by constructor.
  - destruct HP as [[Ha Hb]|HP].
    2: { eapply runs_again_eq; [exact HP|exact (IH d1 Ho _ H2)|]. by rewrite app_assoc. }
    pose proof Ha as (_ & _ & _ & r & Hr & Hnz).
    pose proof (feed_turn_data d r y Ha Hr Hb) as Hy. pose proof (feed_turn_data d r [] Ha Hr Hb) as Hn.
    rewrite push_nil, E, app_nil_r in Hn. cbv zeta in Hy, Hn. injection Hn as -> ->.
    destruct (N.le_gt_cases r (N.of_nat (length (cd_buffer d)))) as [Hle|Hgt].
    + rewrite length_app, !N.min_l in Hy by lia. rewrite N.min_l in * by lia.
      destruct (take_drop_app (N.to_nat r) (cd_buffer d) y ltac:(lia)) as [Et Ed]. rewrite Et, Ed in Hy.
      eapply runs_again_eq; [exact Hy|exact (IH d1 Ho _ H2)|]. simpl. by rewrite !app_nil_r, app_assoc.
    + rewrite N.min_r in * by lia. rewrite Nat2N.id, firstn_all, drop_all in *.
      set (d' := with_remaining _ _) in *.
      assert (feed_turn d' = Break d') as Hd'.
      { destruct Ha as (Hc & Ht & He & _). unfold feed_turn, d'. simpl. rewrite Hc, Ht, He.
        rewrite (proj2 (N.eqb_neq _ _)) by lia. done. }
      destruct (runs_stuck _ _ _ Hd' H) as [-> Ho']. rewrite Ho' in Ho. injection Ho as Ho. subst d1.
      destruct y as [|c y].
      { rewrite push_nil in *. rewrite app_nil_r in Hy. destruct (runs_stuck _ _ _ Hd' H2) as [-> ->].
        eapply runs_again_eq; [exact E|constructor; exact Hd'|]. simpl. by rewrite !app_nil_r. }
      assert (awaits_data (push d' (c :: y))) as Ha'.
      { destruct Ha as (Hc & Ht & He & _). repeat split; try done. eexists. split; [reflexivity|]. lia. }
      pose proof (feed_turn_data (push d' (c :: y)) _ [] Ha' eq_refl ltac:(done)) as Hy'.
      rewrite push_nil, app_nil_r in Hy'. cbv zeta in Hy'.
      destruct (runs_again_inv _ _ _ _ _ Hy' H2) as (payload & Hrun & ->).
      set (len := N.of_nat (length (cd_buffer d))) in *.
      change (cd_buffer (push d' (c :: y))) with (c :: y) in *.
      set (a' := N.min (r - len) (N.of_nat (length (c :: y)))) in *.
      assert (N.min r (N.of_nat (length (cd_buffer d ++ c :: y))) = len + a') as Hmin.
      { rewrite length_app, Nat2N.inj_add. unfold a', len. lia. }
      rewrite Hmin in Hy. assert (N.to_nat (len + a') = (length (cd_buffer d) + N.to_nat a')%nat) as Hnat by (unfold len; lia).
      rewrite Hnat, drop_app_add, take_app_add in Hy.
      eapply runs_again_eq; [exact Hy|..].
      * refine (eq_rect _ (λ x, runs x payload out) Hrun _ _).
        unfold d', push. rewrite N.sub_add_distr. done.
      * simpl. by rewrite !app_nil_r, <- !app_assoc.
Qed.

Lemma runs_push_fail d p e y :
  runs d p (Err e) → e = chunk_too_large ∨ ∃ p', runs (push d y) p' (Err e).
Proof.
  intros H. remember (Err e) as o eqn:Ho. induction H as [d d1 E|d e1 d1 E|d d' pushed p o E H IH]; [done|..];
    pose proof (feed_turn_push d y) as HP; rewrite E in HP.
  - injection Ho as ->. destruct HP as [|HP]; [by left|right]. exists []. by econstructor.
  - destruct (IH Ho) as [|[p' Hp']]; [by left|right]. destruct HP as [[Ha Hb]|HP]; [|eexists; by econstructor].
    pose proof Ha as (Hc & Ht & He & r & Hr & Hnz).
    pose proof (feed_turn_data d r y Ha Hr Hb) as Hy. pose proof (feed_turn_data d r [] Ha Hr Hb) as Hn.
    rewrite push_nil, E, app_nil_r in Hn. cbv zeta in Hy, Hn. injection Hn as -> ->.
    destruct (N.le_gt_cases r (N.of_nat (length (cd_buffer d)))) as [Hle|Hgt].
    + rewrite length_app, !N.min_l in Hy by lia. rewrite N.min_l in * by lia.
      destruct (take_drop_app (N.to_nat r) (cd_buffer d) y ltac:(lia)) as [Et Ed]. rewrite Et, Ed in Hy.
      eexists. econstructor; [exact Hy|exact Hp'].
    + exfalso. rewrite N.min_r in * by lia. rewrite Nat2N.id, drop_all in *.
      destruct (runs_stuck (with_remaining (Some (r - N.of_nat (length (cd_buffer d)))) (with_buffer [] d)) p o) as [_ ?];
        [|done|congruence].
      unfold feed_turn. simpl. rewrite Hc, Ht, He, (proj2 (N.eqb_neq _ _)) by lia. done.
Qed.

(** What [feed] answers is what the run does. *)
Lemma feed_ok d x p d' : runs (push d x) p (Ok d') ↔ ∃ pushed, feed d x = (Ok pushed, d') ∧ concat pushed = p.
Proof.
  destruct (feed_runs d x) as (p1 & o1 & Hr & Hf). split.
  - intros H. destruct (runs_det _ _ _ _ _ H Hr) as [<- <-].
    destruct (feed d x) as [[pushed|e] d1]; [|done]. destruct Hf as [[= ->] Hp]. by exists pushed.
  - intros (pushed & Hfeed & <-). rewrite Hfeed in Hf. by destruct Hf as [-> ->].
Qed.

Lemma feed_err d x p e : runs (push d x) p (Err e) → ∃ d', feed d x = (Err e, d').
Proof.
  intros H. destruct (feed_runs d x) as (p1 & o1 & Hr & Hf). destruct (runs_det _ _ _ _ _ H Hr) as [<- <-].
  destruct (feed d x) as [[pushed|e'] d1]; [by destruct Hf|]. exists d1. congruence.
Qed.

Lemma feed_all_runs d f fs :
  match feed_all d (f :: fs) with
  | (Ok p, d') => runs (push d (concat (f :: fs))) p (Ok d')
  | (Err e, _) => e = chunk_too_large ∨ ∃ p, runs (push d (concat (f :: fs))) p (Err e)
  end.
Proof.
  revert d f. induction fs as [|g fs IH]; intros d f; cbn [feed_all concat].
  - destruct (feed_runs d f) as (p & o & Hr & Hf). destruct (feed d f) as [[pushed|e] d'].
    + destruct Hf as [-> <-]. by rewrite !app_nil_r.
    + right. exists p. rewrite app_nil_r. by subst.
  - destruct (feed_runs d f) as (p & o & Hr & Hf). destruct (feed d f) as [[pushed|e] d1].
    + destruct Hf as [-> <-]. specialize (IH d1 g). cbn [feed_all concat] in IH.
      destruct (match feed d1 g with (Ok p, d) => _ | (Err e, d) => _ end) as [[p2|e] d'].
      * rewrite <- push_push. by apply (runs_push _ _ d1).
      * destruct IH as [|[p2 H2]]; [by left|right]. exists (concat pushed ++ p2). rewrite <- push_push. by apply (runs_push _ _ d1).
    + subst o. rewrite <- push_push. by eapply runs_push_fail.
Qed.

(** ** Encoding and decoding *)

Lemma hex_line_no_crlf n x : x `prefix_of` format_radix 16 n ++ [CR] → find_bytes CRLF x = None.
Proof.
  intros [y Hy]. destruct (find_bytes CRLF x) as [k|] eqn:E; [|done]. exfalso.
  apply find_bytes_Some in E as (b & a & -> & _). assert (LF ∈ format_radix 16 n ++ [CR]) as Hin.
  { rewrite Hy. apply elem_of_app. left. apply elem_of_app. right. right. left. }
  apply elem_of_app in Hin as [Hin|Hin]; [|by apply list_elem_of_singleton in Hin].
  pose proof (format_radix_digits 16 ltac:(lia) ltac:(lia) n) as HF. rewrite Forall_forall in HF.
  apply HF in Hin. apply digit_solid in Hin as (_ & Ha & _); [done|lia].
Qed.

Lemma hex_no_cr n : CR ∉ format_radix 16 n.
Proof.
  intros Hin. pose proof (format_radix_digits 16 ltac:(lia) ltac:(lia) n) as HF. rewrite Forall_forall in HF.
  apply HF, digit_solid in Hin as (_ & Ha & _); [done|lia].
Qed.

Lemma chunk_size_line n : n <= USIZE_MAX → chunk_size (format_radix 16 n) = Some n.
Proof.
  intros Hn. pose proof (format_radix_digits 16 ltac:(lia) ltac:(lia) n) as HF. unfold chunk_size.
  assert (Forall solid (format_radix 16 n)) as Hs.
  { eapply Forall_impl; [exact HF|]. intros c Hc. by apply digit_solid in Hc as (? & _); [|lia]. }
  rewrite utf8_valid_ascii by (eapply Forall_impl; [exact Hs|]; by intros c []).
  rewrite split_first_id.
  - rewrite trim_solid by done. by apply from_str_radix_format.
  - intros Hin. rewrite Forall_forall in HF. apply HF, digit_solid in Hin as (_ & Ha & _); [done|lia].
Qed.

Lemma size_nat_le n k : n < 2 ^ N.of_nat k → (N.size_nat n <= S k)%nat.
Proof.
  intros Hn. destruct n as [|p]; [simpl; lia|].
  assert (2 ^ N.of_nat (Pos.size_nat p) <= 2 * Npos p) as Hp.
  { clear. induction p as [p IH|p IH|]; [| |done]; simpl Pos.size_nat; rewrite Nat2N.inj_succ, N.pow_succ_r'; lia. }
  simpl N.size_nat. apply Nat.nlt_ge. intros Hk.
  assert (2 ^ N.of_nat (S k) < 2 ^ N.of_nat (Pos.size_nat p)) as Hlt by (apply N.pow_lt_mono_r; lia).
  rewrite Nat2N.inj_succ, N.pow_succ_r' in Hlt. lia.
Qed.

Definition start (buffer : bytes) : ChunkDecoder := with_buffer buffer decoder_default.

(** Some of the encoding of a chunk: the decoder waits, or has handed out the chunk. *)
Lemma prefix_split (p a b : bytes) :
  p `prefix_of` a ++ b → (length p < length a)%nat ∧ p `prefix_of` a ∨ ∃ q, p = a ++ q ∧ q `prefix_of` b.
Proof.
  intros [s Hs]. symmetry in Hs. apply app_eq_inv in Hs as [(k & -> & Hk)|(k & -> & Hk)].
  - right. exists k. split; [done|]. by exists s.
  - destruct k as [|c k]; [right|left].
    + exists []. rewrite !app_nil_r. split; [done|apply prefix_nil].
    + rewrite length_app. simpl. split; [lia|by exists (c :: k)].
Qed.

Lemma run_chunk c p rest :
  chunk_ok c → p `prefix_of` encode_chunk c ++ rest →
  (length p < length (encode_chunk c))%nat ∧ (∃ d', ∃ pay, runs (start p) pay (Ok d')) ∨
  ∃ r, p = encode_chunk c ++ r ∧ r `prefix_of` rest ∧ ∀ pay o, runs (start r) pay o → runs (start p) (c ++ pay) o.
Proof.
  intros [Hne Hmax] Hp. unfold encode_chunk in *. set (n := N.of_nat (length c)) in *.
  assert (n ≠ 0) as Hn by (destruct c; [done|unfold n; simpl; lia]).
  set (line := format_radix 16 n) in *.
  rewrite <- !app_assoc in Hp. rewrite (app_assoc line CRLF) in Hp.
  apply prefix_split in Hp as [[Hlen Hp]|(q & -> & Hq)].
  { left. split; [rewrite !length_app in *; simpl in *; lia|]. exists (start p), []. apply runs_break. unfold feed_turn. simpl.
    rewrite (hex_line_no_crlf n).
    - assert (length line <= 67)%nat.
      { unfold line. destruct (format_radix_length 16 ltac:(lia) ltac:(lia) n) as [_ Hfl].
        pose proof (size_nat_le n 64). unfold USIZE_MAX in Hmax. rewrite U64_MAX_val in Hmax.
        change (2 ^ N.of_nat 64) with 18446744073709551616 in *. lia. }
      rewrite length_app in Hlen. simpl in Hlen. by rewrite (proj2 (Nat.ltb_ge _ _)) by lia.
    - fold line. destruct (prefix_split p (line ++ [CR]) [LF]) as [[_ ?]|(q & -> & _)]; [by rewrite <- app_assoc|done|].
      rewrite !length_app in Hlen. simpl in Hlen. destruct q; simpl in Hlen; [|lia]. by rewrite app_nil_r. }
  set (d2 := with_remaining (Some n) (start q)).
  assert (feed_turn (start ((line ++ CRLF) ++ q)) = Again d2 []) as E1.
  { unfold feed_turn. simpl. rewrite <- app_assoc. unfold line. rewrite find_crlf by apply hex_no_cr. rewrite take_app_length.
    rewrite chunk_size_line by done. rewrite (proj2 (N.eqb_neq _ _) Hn). unfold d2, start, with_buffer. simpl.
    by rewrite drop_app_add. }
  assert (∀ pay o, runs d2 pay o → runs (start ((line ++ CRLF) ++ q)) pay o) as H1.
  { intros pay o H. by eapply runs_again_eq; [exact E1|exact H|]. }
  apply prefix_split in Hq as [[Hlen _]|(q2 & -> & Hq2)].
  { left. split; [rewrite !length_app in *; simpl in *; lia|]. destruct q as [|x q].
    { exists d2, []. apply H1, runs_break. unfold feed_turn, d2. simpl. by rewrite (proj2 (N.eqb_neq _ _) Hn). }
    assert (feed_turn d2 = Again (with_remaining (Some (n - N.of_nat (length (x :: q)))) (start [])) [x :: q]) as E2.
    { unfold feed_turn, d2. cbn [cd_complete cd_trailers cd_expect_data_crlf cd_remaining cd_buffer with_remaining start with_buffer decoder_default].
      rewrite (proj2 (N.eqb_neq _ _) Hn). rewrite N.min_r by (unfold n; lia). rewrite Nat2N.id, firstn_all, drop_all. done. }
    eexists (with_remaining _ (start [])), _. apply H1. eapply runs_again; [exact E2|]. apply runs_break.
    unfold feed_turn. simpl. rewrite (proj2 (N.eqb_neq _ _)); [done|]. unfold n in *. simpl in Hlen. lia. }
  set (d3 := with_remaining (Some 0) (start q2)). set (d4 := with_expect_data_crlf true d3).
  assert (∀ pay o, runs d4 pay o → runs (start ((line ++ CRLF) ++ c ++ q2)) (c ++ pay) o) as H2.
  { intros pay o H. apply H1. eapply (runs_again_eq _ d3 [c] pay); [| |by simpl; rewrite app_nil_r].
    - unfold feed_turn, d2. cbn [cd_complete cd_trailers cd_expect_data_crlf cd_remaining cd_buffer with_remaining start with_buffer decoder_default].
      rewrite (proj2 (N.eqb_neq _ _) Hn). destruct (c ++ q2) eqn:E; [by apply app_eq_nil in E as [? _]|]. rewrite <- E.
      rewrite length_app, N.min_l by (unfold n; lia). unfold n. rewrite Nat2N.id, take_app_length, drop_app_length, N.sub_diag. done.
    - by eapply (runs_again_eq d3 d4 []). }
  apply prefix_split in Hq2 as [[Hlen _]|(r & -> & Hr)].
  { left. split; [rewrite !length_app in *; simpl in *; lia|]. eexists d4, _. apply H2, runs_break. unfold feed_turn. simpl. simpl in Hlen.
    by rewrite (proj2 (Nat.ltb_lt _ _) Hlen). }
  right. exists r. split; [by rewrite <- !app_assoc|]. split; [done|]. intros pay o H. apply H2.
  by eapply (runs_again_eq d4 (start r) []).
Qed.

Lemma run_last_chunk p :
  p `prefix_of` last_chunk → ∃ d', runs (start p) [] (Ok d') ∧ (p = last_chunk → d' = with_complete true (with_trailers true (start []))).
Proof.
  intros [s Hs]. unfold last_chunk, CRLF in Hs. simpl in Hs.
  assert (p ∈ [[]; ["0"%char]; ["0"%char; CR]; ["0"%char; CR; LF]; ["0"%char; CR; LF; CR]; last_chunk]) as Hin.
  { destruct p as [|c0 [|c1 [|c2 [|c3 [|c4 [|c5 p]]]]]]; simplify_eq/=; repeat first [left|right]. }
  clear Hs s. rewrite !elem_of_cons, elem_of_nil in Hin. destruct_or!; try done; subst.
  1, 2, 3: eexists; split; [apply runs_break; vm_compute; reflexivity|done].
  all: eexists; split; [eapply (runs_again_eq _ _ [] []); [vm_compute; reflexivity|apply runs_break; vm_compute; reflexivity|done]|done].
Qed.

Lemma run_encoded chunks p :
  Forall chunk_ok chunks → p `prefix_of` encode_chunks chunks →
  ∃ d' pay, runs (start p) pay (Ok d') ∧
    (p = encode_chunks chunks → pay = concat chunks ∧ d' = with_complete true (with_trailers true (start []))).
Proof.
  intros HF. revert p. induction HF as [|c chunks Hc _ IH]; intros p Hp.
  - destruct (run_last_chunk p Hp) as (d' & Hr & Hd). exists d', []. split; [done|]. intros Hp'. split; [done|auto].
  - unfold encode_chunks in Hp. simpl in Hp. rewrite <- app_assoc in Hp.
    destruct (run_chunk c p _ Hc Hp) as [(Hlen & d' & pay & Hr)|(r & -> & Hr & Hrun)].
    + exists d', pay. split; [done|]. intros ->. unfold encode_chunks in Hlen. simpl in Hlen.
      rewrite !length_app in Hlen. lia.
    + destruct (IH r Hr) as (d' & pay & Hrun' & Hd). exists d', (c ++ pay). split; [by apply Hrun|].
      intros Hp'. unfold encode_chunks in Hp'. simpl in Hp'. rewrite <- app_assoc in Hp'.
      apply app_inv_head in Hp'. destruct (Hd Hp') as [-> ->]. done.
Qed.

(** Feeding the pieces of a stream none of whose prefixes fails. *)
Lemma feed_all_prefixes stream fragments :
  (∀ p, p `prefix_of` stream → ∃ d' pay, runs (start p) pay (Ok d')) →
  ∀ pre pay d, runs (start pre) pay (Ok d) → pre ++ concat fragments `prefix_of` stream →
  ∃ payload d', feed_all d fragments = (Ok payload, d') ∧ runs (start (pre ++ concat fragments)) (pay ++ payload) (Ok d').
Proof.
  intros Hall. induction fragments as [|f fs IH]; intros pre pay d Hd Hp; simpl in *.
  { exists [], d. rewrite !app_nil_r. done. }
  assert (pre ++ f `prefix_of` stream) as Hpf.
  { etrans; [|exact Hp]. exists (concat fs). by rewrite <- app_assoc. }
  destruct (Hall _ Hpf) as (d1 & pay1 & H1). destruct (feed_runs d f) as (p2 & o2 & Hr & Hf).
  pose proof (runs_push _ _ _ f _ _ Hd Hr) as H2.
  change (push (start pre) f) with (start (pre ++ f)) in H2. destruct (runs_det _ _ _ _ _ H1 H2) as [-> <-].
  destruct (feed d f) as [[pushed|e] d2]; [|done]. destruct Hf as [[= ->] <-].
  destruct (IH (pre ++ f) _ _ H2) as (payload & d' & -> & Hrun); [by rewrite <- app_assoc|].
  exists (concat pushed ++ payload), d'. split; [done|]. by rewrite <- !app_assoc in *.
Qed.

(** ** Theorems *)

(** [feed] always ends by its own exit, never for lack of turns: what it
    leaves behind either needs more input or is the point of failure. The bound
    holds in every state, also in one the program cannot reach. *)
Theorem feed_stops d incoming :
  match feed d incoming with
  | (Ok _, d') => feed_turn d' = Break d'
  | (Err e, d') => feed_turn d' = Fail e d'
  end.
Proof.
  destruct (feed_runs d incoming) as (p & o & Hr & Hf). destruct (feed d incoming) as [[pushed|e] d'] eqn:E.
  - destruct Hf as [-> _]. by eapply runs_rest.
  - clear Hr Hf. revert E. unfold feed. generalize (@nil bytes) as output, (with_buffer (cd_buffer d ++ incoming) d) as d0.
    intros output d0. generalize (feed_fuel d0) as fuel. intros fuel. revert output d0.
    induction fuel as [|fuel IH]; intros output d0; simpl; [done|].
    destruct (feed_turn d0) as [d1|e1 d1|d1 pushed] eqn:Et; [done| |apply IH]. intros [= <- <-].
    pose proof Et as Et'. unfold feed_turn in Et. repeat (destr_match; try done); by injection Et as <- <-.
Qed.

(** the fragments in which the network delivers the body do not matter.
    When the pieces are decoded without error, decoding their concatenation at
    once gives the same payload and leaves the decoder in the same state. When
    they fail, decoding at once fails with the same error, but for the limit on
    the length of a chunk-size line, which only applies to a line that is still incomplete. *)
Theorem feed_fragment_independent d fragments :
  fragments ≠ [] →
  match feed_all d fragments with
  | (Ok payload, d') => ∃ pushed, feed d (concat fragments) = (Ok pushed, d') ∧ concat pushed = payload
  | (Err e, _) => e = chunk_too_large ∨ ∃ d', feed d (concat fragments) = (Err e, d')
  end.
Proof.
  intros Hne. destruct fragments as [|f fs]; [done|]. pose proof (feed_all_runs d f fs) as H.
  destruct (feed_all d (f :: fs)) as [[p|e] d'].
  - by apply feed_ok.
  - destruct H as [|[p H]]; [by left|right]. by eapply feed_err.
Qed.

Lemma feed_fragment_independent_witness :
  (feed_all decoder_default [bs "2"; CRLF ++ bs "he"; CRLF ++ bs "0" ++ CRLF]).1 = Ok (bs "he") ∧
  ∃ pushed, (feed decoder_default (bs "2" ++ CRLF ++ bs "he" ++ CRLF ++ bs "0" ++ CRLF)).1 = Ok pushed ∧ concat pushed = bs "he".
Proof.
  split; [vm_compute; reflexivity|].
  pose proof (feed_fragment_independent decoder_default [bs "2"; CRLF ++ bs "he"; CRLF ++ bs "0" ++ CRLF] ltac:(discriminate)) as H.
  assert ((feed_all decoder_default [bs "2"; CRLF ++ bs "he"; CRLF ++ bs "0" ++ CRLF]).1 = Ok (bs "he")) as HE
    by (vm_compute; reflexivity).
  destruct (feed_all _ _) as [r d']. simpl in HE. subst r. destruct H as (pushed & Hf & Hp).
  exists pushed. split; [|exact Hp].
  change (concat [bs "2"; CRLF ++ bs "he"; CRLF ++ bs "0" ++ CRLF]) with
    (bs "2" ++ CRLF ++ bs "he" ++ CRLF ++ bs "0" ++ CRLF) in Hf.
  by rewrite Hf.
Defined.

(** C36: a body encoded in chunks is decoded to exactly its chunks' bytes,
    however the encoding is cut into fragments, and the decoder is complete
    with nothing left over, so that the connection can be used again. *)
Theorem chunked_roundtrip chunks fragments :
  Forall chunk_ok chunks → concat fragments = encode_chunks chunks →
  ∃ d', feed_all decoder_default fragments = (Ok (concat chunks), d') ∧
    d'.(cd_complete) = true ∧ d'.(cd_buffer) = [].
Proof.
  intros HF Hc.
  destruct (feed_all_prefixes (encode_chunks chunks) fragments) with (pre := @nil ascii) (pay := @nil ascii) (d := decoder_default)
    as (payload & d' & Hf & Hr).
  - intros p Hp. destruct (run_encoded chunks p HF Hp) as (d' & pay & Hr & _). by exists d', pay.
  - by apply runs_break.
  - by rewrite <- Hc.
  - simpl in Hr. rewrite Hc in Hr. destruct (run_encoded chunks _ HF (reflexivity _)) as (d2 & pay & Hr2 & Hd).
    destruct (Hd eq_refl) as [-> ->]. destruct (runs_det _ _ _ _ _ Hr Hr2) as [-> [= ->]].
    eexists. split; [exact Hf|done].
Qed.

Lemma chunked_roundtrip_witness :
  let stream := encode_chunks [bs "hello"; bs " streaming world"] in
  ∃ d', feed_all decoder_default [take 4 stream; drop 4 stream] = (Ok (bs "hello streaming world"), d') ∧
    d'.(cd_complete) = true ∧ d'.(cd_buffer) = [].
Proof.
  apply (chunked_roundtrip [bs "hello"; bs " streaming world"]
    [take 4 (encode_chunks [bs "hello"; bs " streaming world"]); drop 4 (encode_chunks [bs "hello"; bs " streaming world"])]).
  - repeat constructor; (discriminate || (vm_compute; discriminate)).
  - vm_compute. reflexivity.
Defined.

(** A size with a leading plus sign, which the grammar of the encoding does not
    have, is accepted, because [usize::from_str_radix] accepts one. *)
Lemma chunk_size_accepts_plus : chunk_size (bs "+5") = Some 5.
Proof. reflexivity. Qed.
