(* ===== verification/Http1.v ===== *)
(** HTTP/1.1 framing, [crates/gateway-transport/src/h1.rs]: the writer of the
    final upstream request and the selection of a response's body boundary.

    The response head is parsed by the library [httparse], which is a parameter
    of [parse_response_head]. *)

From S2P Require Import Prelude Machine.
From S2P Require Import Bytes.
From S2P Require Import Transport.
From Stdlib Require Import Ascii.
Local Open Scope N_scope.

(** ** The request ([gateway-domain/src/transport.rs]) *)
Record UpstreamHeader := { uh_name : bytes; uh_value : bytes }.

Record FinalUpstreamRequest := {
  fr_method : bytes;
  fr_scheme : bytes;
  fr_authority : bytes;
  fr_path_and_query : bytes;
  fr_headers : list UpstreamHeader;
  fr_body : bytes;
  fr_stream : bool;
}.

Inductive H1Framing :=
  | NoBody
  | ContentLength (length : N)
  | Framing_Chunked
  | CloseDelimited.

#[export] Instance H1Framing_eq_dec : EqDecision H1Framing.
Proof. solve_decision. Defined.

Record ParsedResponseHead := {
  prh_status : N;
  prh_headers : list (bytes * bytes);
  prh_consumed : N;
  prh_framing : H1Framing;
}.

(** ** The writer *)
Definition is_header_name_byte (c : ascii) : bool :=
  is_ascii_alphanumeric c || existsb (λ d, bool_decide (c = d)) (bs "!#$%&'*+-.^_`|~").

Definition CONTENT_LENGTH : bytes := bs "content-length".

Definition TRANSFER_ENCODING : bytes := bs "transfer-encoding".

(** [l.contains(['\r', '\n', ' '])] and the like. *)
Definition contains_any (chars l : bytes) : bool := existsb (λ c, bool_decide (c ∈ chars)) l.

Definition header_line (name value : bytes) : bytes := name ++ bs ": " ++ value ++ CRLF.

(** The loop over the headers: what is rendered so far, and whether a
    Content-Length was among it. *)
Fixpoint encode_headers (body_length : N) (headers : list UpstreamHeader) (has_content_length : bool) (rendered : bytes)
    : result TransportError (bool * bytes) :=
  match headers with
  | [] => Ok (has_content_length, rendered)
  | header :: headers =>
      if is_empty header.(uh_name)
         || existsb (λ c, negb (is_header_name_byte c)) header.(uh_name)
         || contains_any CRLF header.(uh_value)
      then Err (h1_error "h1_invalid_header")
      else if eq_ignore_ascii_case header.(uh_name) TRANSFER_ENCODING
      then Err (h1_error "h1_request_transfer_encoding_forbidden")
      else
        let is_length := eq_ignore_ascii_case header.(uh_name) CONTENT_LENGTH in
        if is_length && (has_content_length || negb (bool_decide (header.(uh_value) = to_string body_length)))
        then Err (h1_error "h1_content_length_conflict")
        else encode_headers body_length headers (has_content_length || is_length)
               (rendered ++ header_line header.(uh_name) header.(uh_value))
  end.

Definition encode_request (request : FinalUpstreamRequest) : result TransportError bytes :=
  if is_empty request.(fr_method)
     || negb (forallb is_ascii_uppercase request.(fr_method))
     || negb (starts_with (bs "/") request.(fr_path_and_query))
     || contains_any (CRLF ++ bs " ") request.(fr_path_and_query)
  then Err (h1_error "h1_invalid_request_line")
  else
    let body_length := N.of_nat (length request.(fr_body)) in
    let rendered := request.(fr_method) ++ bs " " ++ request.(fr_path_and_query) ++ bs " HTTP/1.1" ++ CRLF in
    match encode_headers body_length request.(fr_headers) false rendered with
    | Err err => Err err
    | Ok (has_content_length, rendered) =>
        let rendered :=
          if has_content_length then rendered
          else rendered ++ header_line (bs "Content-Length") (to_string body_length) in
        Ok (rendered ++ CRLF ++ request.(fr_body))
    end.

(** ** The response head *)

(** The answer of [httparse::Response::parse]. *)
Inductive HeadParse :=
  | Malformed
  | Partial
  | Complete (consumed : N) (code : option N) (headers : list (bytes * bytes)).

(** [str::from_utf8(value).trim().parse::<u64>()]. *)
Definition content_length_value (value : bytes) : option N :=
  if utf8_valid value then from_str_radix 10 U64_MAX (trim value) else None.

Definition transfer_encoding_value (value : bytes) : option bytes :=
  if utf8_valid value then Some (map to_ascii_lowercase (trim value)) else None.

(** The loop over the parsed headers. *)
Fixpoint scan_framing (headers : list (bytes * bytes)) (content_length : option N) (transfer_encoding : option bytes)
    : result TransportError (option N * option bytes) :=
  match headers with
  | [] => Ok (content_length, transfer_encoding)
  | (name, value) :: headers =>
      let after_length :=
        if eq_ignore_ascii_case name CONTENT_LENGTH then
          match content_length_value value with
          | None => Err (h1_error "h1_content_length_invalid")
          | Some v =>
              if is_some_and (λ existing, negb (existing =? v)) content_length
              then Err (h1_error "h1_content_length_ambiguous")
              else Ok (Some v)
          end
        else Ok content_length in
      match after_length with
      | Err err => Err err
      | Ok content_length =>
          if eq_ignore_ascii_case name TRANSFER_ENCODING then
            if is_some transfer_encoding then Err (h1_error "h1_transfer_encoding_ambiguous")
            else match transfer_encoding_value value with
                 | None => Err (h1_error "h1_transfer_encoding_invalid")
                 | Some encoding => scan_framing headers content_length (Some encoding)
                 end
          else scan_framing headers content_length transfer_encoding
      end
  end.

Definition bodiless (request_method : bytes) (status : N) : bool :=
  eq_ignore_ascii_case request_method (bs "HEAD") || ((100 <=? status) && (status <? 200))
  || (status =? 204) || (status =? 304).

Section with_httparse.
Variable httparse : bytes → HeadParse.

Definition parse_response_head (buffer request_method : bytes) : result TransportError ParsedResponseHead :=
  match httparse buffer with
  | Malformed => Err (h1_error "h1_response_head_malformed")
  | Partial => Err (h1_error "h1_response_head_incomplete")
  | Complete consumed code headers =>
      match code with
      | None => Err (h1_error "h1_status_missing")
      | Some status =>
          match scan_framing headers None None with
          | Err err => Err err
          | Ok (content_length, transfer_encoding) =>
              if is_some content_length && is_some transfer_encoding then Err (h1_error "h1_framing_conflict")
              else
                let head framing :=
                  {| prh_status := status; prh_headers := headers; prh_consumed := consumed; prh_framing := framing |} in
                if bodiless request_method status then Ok (head NoBody)
                else match transfer_encoding, content_length with
                     | Some encoding, _ =>
                         if bool_decide (encoding = bs "chunked") then Ok (head Framing_Chunked)
                         else Err (h1_error "h1_transfer_encoding_unsupported")
                     | None, Some length => Ok (head (ContentLength length))
                     | None, None => Ok (head CloseDelimited)
                     end
          end
      end
  end.

End with_httparse.

(** ** A reader of requests

    What a server reads: the request line up to its single spaces, then lines
    up to the empty one, each split at its first colon, then the body. *)
Fixpoint read_headers (fuel : nat) (l : bytes) : option (list UpstreamHeader * bytes) :=
  match fuel with
  | O => None
  | S fuel =>
      match find_bytes CRLF l with
      | None => None
      | Some O => Some ([], drop 2 l)
      | Some n =>
          match split_once ":"%char (take n l) with
          | Some (name, " "%char :: value) =>
              match read_headers fuel (drop (n + 2) l) with
              | Some (headers, body) => Some ({| uh_name := name; uh_value := value |} :: headers, body)
              | None => None
              end
          | _ => None
          end
      end
  end.

Definition read_request (l : bytes) : option (bytes * bytes * list UpstreamHeader * bytes) :=
  match split_once " "%char l with
  | None => None
  | Some (method, rest) =>
      match split_once " "%char rest with
      | None => None
      | Some (path, rest) =>
          match strip_prefix (bs "HTTP/1.1" ++ CRLF) rest with
          | None => None
          | Some rest =>
              match read_headers (S (length rest)) rest with
              | Some (headers, body) => Some (method, path, headers, body)
              | None => None
              end
          end
      end
  end.

(** The Content-Length header the writer adds when the request has none. *)
Definition sent_headers (request : FinalUpstreamRequest) : list UpstreamHeader :=
  request.(fr_headers) ++
  (if existsb (λ h, eq_ignore_ascii_case h.(uh_name) CONTENT_LENGTH) request.(fr_headers) then []
   else [{| uh_name := bs "Content-Length"; uh_value := to_string (N.of_nat (length request.(fr_body))) |}]).

(** ** What the writer accepts *)

Definition names (name : bytes) (h : UpstreamHeader) : bool := eq_ignore_ascii_case h.(uh_name) name.

Record header_ok (body_length : N) (h : UpstreamHeader) : Prop := {
  ho_name : h.(uh_name) ≠ [];
  ho_token : Forall (λ c, is_header_name_byte c = true) h.(uh_name);
  ho_value : (CR ∉ h.(uh_value)) ∧ (LF ∉ h.(uh_value));
  ho_coding : names TRANSFER_ENCODING h = false;
  ho_length : names CONTENT_LENGTH h = true → h.(uh_value) = to_string body_length;
}.

Record request_ok (r : FinalUpstreamRequest) : Prop := {
  ro_method : r.(fr_method) ≠ [] ∧ Forall (λ c, is_ascii_uppercase c = true) r.(fr_method);
  ro_path : ∃ rest, r.(fr_path_and_query) = "/"%char :: rest;
  ro_path_chars : (CR ∉ r.(fr_path_and_query)) ∧ (LF ∉ r.(fr_path_and_query)) ∧ (" "%char ∉ r.(fr_path_and_query));
  ro_headers : Forall (header_ok (N.of_nat (length r.(fr_body)))) r.(fr_headers);
  ro_one_length : (length (filter (names CONTENT_LENGTH) r.(fr_headers)) <= 1)%nat;
}.

Lemma contains_any_false chars l : contains_any chars l = false ↔ ∀ c, c ∈ chars → c ∉ l.
Proof.
  unfold contains_any. rewrite <- not_true_iff_false, existsb_exists. setoid_rewrite bool_decide_eq_true.
  setoid_rewrite list_elem_of_In. naive_solver.
Qed.

Lemma forallb_Forall {A} (f : A → bool) l : forallb f l = true ↔ Forall (λ x, f x = true) l.
Proof. rewrite forallb_forall, Forall_forall. by setoid_rewrite list_elem_of_In. Qed.

Lemma existsb_negb_Forall {A} (f : A → bool) l : existsb (λ x, negb (f x)) l = false ↔ Forall (λ x, f x = true) l.
Proof.
  induction l as [|x l IH]; simpl; [by split|]. rewrite orb_false_iff, negb_false_iff, Forall_cons, IH. done.
Qed.

Lemma header_guard body_length h :
  (is_empty h.(uh_name) || existsb (λ c, negb (is_header_name_byte c)) h.(uh_name)
   || contains_any CRLF h.(uh_value) = false ∧ names TRANSFER_ENCODING h = false ∧
   (names CONTENT_LENGTH h = true → h.(uh_value) = to_string body_length)) ↔ header_ok body_length h.
Proof.
  rewrite !orb_false_iff, existsb_negb_Forall, contains_any_false. split.
  - intros (((He & Ht) & Hv) & Hc & Hl). split; try done.
    + intros E. by rewrite E in He.
    + split; apply Hv; [left|right; left].
  - intros [Hn Ht [Hcr Hlf] Hc Hl]. split_and!; try done; [by destruct (uh_name h)|].
    intros c [->|[->|[]%not_elem_of_nil]%elem_of_cons]%elem_of_cons; done.
Qed.

Lemma encode_headers_spec body_length headers has rendered :
  match encode_headers body_length headers has rendered with
  | Ok (has', rendered') =>
      Forall (header_ok body_length) headers ∧
      ((if has then 1 else 0) + length (filter (names CONTENT_LENGTH) headers) <= 1)%nat ∧
      has' = has || existsb (names CONTENT_LENGTH) headers ∧
      rendered' = rendered ++ concat ((λ h, header_line h.(uh_name) h.(uh_value)) <$> headers)
  | Err _ => ¬ (Forall (header_ok body_length) headers ∧
                ((if has then 1 else 0) + length (filter (names CONTENT_LENGTH) headers) <= 1)%nat)
  end.
Proof.
  revert has rendered. induction headers as [|h headers IH]; intros has rendered; cbn [encode_headers].
  { simpl. rewrite orb_false_r, app_nil_r. destruct has; split_and!; done || lia. }
  destruct (is_empty _ || _ || _)%bool eqn:E1.
  { intros [[Hh _]%Forall_cons _]. apply header_guard in Hh as [Hh _]. congruence. }
  destruct (eq_ignore_ascii_case (uh_name h) TRANSFER_ENCODING) eqn:E2.
  { intros [[Hh _]%Forall_cons _]. apply header_guard in Hh as (_ & Hh & _). unfold names in Hh. congruence. }
  fold (names CONTENT_LENGTH h). fold (names TRANSFER_ENCODING h) in E2. destruct (names CONTENT_LENGTH h && _)%bool eqn:E3.
  { apply andb_true_iff in E3 as [E3 E4]. intros [[Hh _]%Forall_cons Hc].
    rewrite filter_cons, decide_True in Hc by (by rewrite E3). simpl in Hc. destruct has; [lia|]. simpl in E4. bool_prop.
    apply header_guard in Hh as (_ & _ & Hh). auto. }
  specialize (IH (has || names CONTENT_LENGTH h) (rendered ++ header_line (uh_name h) (uh_value h))).
  assert (header_ok body_length h) as Hok.
  { apply header_guard. split_and!; [done|done|]. intros Hn. rewrite Hn in E3. simpl in E3. bool_prop. done. }
  assert ((if has || names CONTENT_LENGTH h then 1 else 0) + length (filter (names CONTENT_LENGTH) headers) =
    (if has then 1 else 0) + length (filter (names CONTENT_LENGTH) (h :: headers)))%nat as Hcount.
  { rewrite filter_cons. destruct (names CONTENT_LENGTH h) eqn:En.
    - rewrite decide_True by done. destruct has; simpl in *; [done|lia].
    - rewrite decide_False by auto. by rewrite orb_false_r. }
  destruct (encode_headers _ _ _ _) as [[has' rendered']|err].
  - destruct IH as (HF & Hc & -> & ->). split_and!; [by constructor|by rewrite <- Hcount| |].
    + simpl. by rewrite orb_assoc.
    + simpl. by rewrite app_assoc.
  - rewrite <- Hcount. intros [[_ HF]%Forall_cons Hc]. by apply IH.
Qed.

(** ** Reading back *)

Lemma token_no_special c :
  is_header_name_byte c = true → c ≠ CR ∧ c ≠ ":"%char ∧ c ≠ LF.
Proof. intros H. split_and!; intros ->; vm_compute in H; done. Qed.

Lemma uppercase_no_space c : is_ascii_uppercase c = true → c ≠ " "%char ∧ c ≠ CR.
Proof. intros H. split; intros ->; vm_compute in H; done. Qed.

Lemma header_line_eq name value : header_line name value = (name ++ ":"%char :: " "%char :: value) ++ CRLF.
Proof. unfold header_line. rewrite <- app_assoc. done. Qed.

Definition readable (h : UpstreamHeader) : Prop :=
  Forall (λ c, is_header_name_byte c = true) h.(uh_name) ∧ (CR ∉ h.(uh_value)).

Lemma read_headers_lines headers body fuel :
  Forall readable headers → (length headers < fuel)%nat →
  read_headers fuel (concat ((λ h, header_line h.(uh_name) h.(uh_value)) <$> headers) ++ CRLF ++ body) = Some (headers, body).
Proof.
  intros HF. revert fuel. induction HF as [|h headers [Hn Hv] _ IH]; intros fuel Hf; (destruct fuel as [|fuel]; [simpl in Hf; lia|]).
  { done. }
  rewrite fmap_cons. cbn [concat]. rewrite <- app_assoc. set (rest := concat _ ++ CRLF ++ body) in *.
  rewrite header_line_eq, <- app_assoc. set (line := uh_name h ++ ":"%char :: " "%char :: uh_value h).
  assert (CR ∉ line) as Hcr.
  { unfold line. rewrite elem_of_app, !elem_of_cons. intros [Hin|[?|[?|?]]]; try done.
    rewrite Forall_forall in Hn. by apply Hn, token_no_special in Hin as []. }
  cbn [read_headers]. rewrite (find_crlf line rest Hcr).
  destruct (length line) as [|n] eqn:El; [unfold line in El; rewrite length_app in El; simpl in El; lia|].
  rewrite <- El, take_app_length. unfold line at 1. rewrite split_once_app.
  2: { intros Hin. rewrite Forall_forall in Hn. by apply Hn, token_no_special in Hin as (_ & ? & _). }
  rewrite drop_app_add. simpl drop. simpl in Hf. rewrite IH by lia. by destruct h.
Qed.

Lemma header_lines_length headers :
  (length headers <= length (concat ((λ h, header_line h.(uh_name) h.(uh_value)) <$> headers)))%nat.
Proof.
  induction headers as [|h headers IH]; [done|]. rewrite fmap_cons. cbn [concat length]. rewrite length_app.
  unfold header_line at 1. rewrite !length_app. simpl. lia.
Qed.

Lemma sent_headers_ok r :
  request_ok r → Forall readable (sent_headers r) ∧ Forall (header_ok (N.of_nat (length r.(fr_body)))) (sent_headers r) ∧
  length (filter (names CONTENT_LENGTH) (sent_headers r)) = 1%nat.
Proof.
  intros [_ _ _ HF Hc]. set (n := N.of_nat _) in *.
  assert (Forall (header_ok n) (sent_headers r)) as HF'.
  { unfold sent_headers. apply Forall_app. split; [done|]. destruct (existsb _ _); [constructor|]. fold n.
    repeat constructor; simpl; try done. 
    - intros Hin. pose proof (format_radix_digits 10 ltac:(lia) ltac:(lia) n) as HD. rewrite Forall_forall in HD.
      apply HD, digit_solid in Hin as (_ & ? & _); [done|lia].
    - intros Hin. pose proof (format_radix_digits 10 ltac:(lia) ltac:(lia) n) as HD. rewrite Forall_forall in HD.
      apply HD, digit_solid in Hin as (_ & ? & _); [done|lia]. }
  split_and!; [|done|].
  - eapply Forall_impl; [exact HF'|]. intros h [_ Ht [Hv _] _ _]. by split.
  - unfold sent_headers. rewrite filter_app, length_app. destruct (existsb _ _) eqn:E.
    + apply existsb_exists in E as (h & Hin%list_elem_of_In & Hh).
      assert (h ∈ filter (names CONTENT_LENGTH) (fr_headers r)) as Hin'.
      { apply list_elem_of_filter. split; [by apply Is_true_true|done]. }
      destruct (filter _ (fr_headers r)); [by apply not_elem_of_nil in Hin'|]. simpl in *. lia.
    + assert (filter (names CONTENT_LENGTH) (fr_headers r) = []) as ->; [|done].
      clear -E. induction (fr_headers r) as [|h l IH]; [done|]. simpl in E. apply orb_false_iff in E as [E1 E2].
      rewrite filter_cons, decide_False; [auto|]. unfold names. rewrite E1. auto.
Qed.

(** what the writer puts on the wire is read back as exactly the request it
    was given: the same method, path, headers in their order and body, nothing
    a header or a path could have injected; with exactly one Content-Length, which is the length of the
    body, and no Transfer-Encoding. The writer accepts exactly the
    well-formed requests. *)
Theorem encode_request_roundtrip request :
  match encode_request request with
  | Ok wire =>
      request_ok request ∧
      read_request wire = Some (request.(fr_method), request.(fr_path_and_query), sent_headers request, request.(fr_body)) ∧
      Forall (header_ok (N.of_nat (length request.(fr_body)))) (sent_headers request) ∧
      length (filter (names CONTENT_LENGTH) (sent_headers request)) = 1%nat
  | Err _ => ¬ request_ok request
  end.
Proof.
  unfold encode_request. destruct (_ || _ || _ || _)%bool eqn:E1.
  { intros [[Hm1 Hm2] [rest Hp] (Hc1 & Hc2 & Hc3) _ _]. apply not_false_iff_true in E1. apply E1.
    rewrite !orb_false_iff, negb_false_iff, forallb_Forall, negb_false_iff, contains_any_false.
    split_and!; [by destruct (fr_method request)|done|by rewrite Hp|].
    intros c. change (CRLF ++ bs " ") with [CR; LF; " "%char]. rewrite !elem_of_cons, elem_of_nil.
    intros [->|[->|[->|[]]]]; done. }
  rewrite !orb_false_iff, negb_false_iff, forallb_Forall, negb_false_iff, contains_any_false in E1.
  destruct E1 as (((Hm1 & Hm2) & Hp) & Hc).
  set (n := N.of_nat _) in *. set (start := _ ++ _ ++ _ ++ _ ++ CRLF).
  pose proof (encode_headers_spec n (fr_headers request) false start) as Hs.
  destruct (encode_headers _ _ _ _) as [[has rendered]|err]; [|intros [_ _ _ ??]; by apply Hs].
  destruct Hs as (HF & Hcount & -> & ->). simpl in Hcount.
  assert (request_ok request) as Hok.
  { split; [|by apply starts_with_spec in Hp as [rest ->]; exists rest| |done|done].
    - split; [|done]. intros E. by rewrite E in Hm1.
    - split_and!; apply Hc; set_solver. }
  split; [done|]. destruct (sent_headers_ok request Hok) as (Hread & Hall & Hone). split; [|done].
  set (lines := λ h, header_line h.(uh_name) h.(uh_value)).
  assert ((if false || existsb (names CONTENT_LENGTH) (fr_headers request) then start ++ concat (lines <$> fr_headers request)
    else (start ++ concat (lines <$> fr_headers request)) ++ header_line (bs "Content-Length") (to_string n)) ++ CRLF ++ fr_body request
    = fr_method request ++ " "%char :: fr_path_and_query request ++ " "%char :: (bs "HTTP/1.1" ++ CRLF) ++
      concat (lines <$> sent_headers request) ++ CRLF ++ fr_body request) as ->.
  { unfold sent_headers, start. fold (names CONTENT_LENGTH). fold n. destruct (existsb _ _); simpl orb; cbv iota.
    - rewrite app_nil_r, <- !app_assoc. done.
    - rewrite fmap_app, concat_app. simpl concat. rewrite app_nil_r, <- !app_assoc. done. }
  unfold read_request. rewrite split_once_app.
  2: { intros Hin. rewrite Forall_forall in Hm2. by apply Hm2, uppercase_no_space in Hin as []. }
  rewrite split_once_app by (apply Hc; set_solver).
  rewrite (proj2 (strip_prefix_Some (bs "HTTP/1.1" ++ CRLF) _ _) eq_refl).
  unfold lines. rewrite read_headers_lines; [done|done|].
  rewrite length_app. pose proof (header_lines_length (sent_headers request)). simpl. lia.
Qed.

Definition sample_request : FinalUpstreamRequest :=
  {| fr_method := bs "POST"; fr_scheme := bs "https"; fr_authority := bs "api.anthropic.com";
     fr_path_and_query := bs "/v1/messages";
     fr_headers := [{| uh_name := bs "Host"; uh_value := bs "api.anthropic.com" |};
                    {| uh_name := bs "X-Test"; uh_value := bs "one" |}];
     fr_body := bs "{}"; fr_stream := false |}.

Example encode_sample :
  encode_request sample_request =
  Ok (bs "POST /v1/messages HTTP/1.1" ++ CRLF ++ bs "Host: api.anthropic.com" ++ CRLF ++ bs "X-Test: one" ++ CRLF ++
      bs "Content-Length: 2" ++ CRLF ++ CRLF ++ bs "{}").
Proof. vm_compute. reflexivity. Qed.

(** ** The body boundary of a response *)

Definition values_of (name : bytes) (headers : list (bytes * bytes)) : list bytes :=
  (filter (λ h, eq_ignore_ascii_case h.1 name) headers).*2.

(** Every Content-Length is valid and they all agree; without one there is none. *)
Definition agreed_length (values : list bytes) (length : option N) : Prop :=
  (∀ v, v ∈ values → content_length_value v = length ∧ is_Some length) ∧ (values = [] → length = None).

(** At most one Transfer-Encoding, a valid one. *)
Definition single_coding (values : list bytes) (coding : option bytes) : Prop :=
  values = [] ∧ coding = None ∨ ∃ v, values = [v] ∧ transfer_encoding_value v = coding ∧ is_Some coding.

(** The rule by which a message has one body boundary. *)
Definition framing_rule (request_method : bytes) (status : N) (headers : list (bytes * bytes)) (f : H1Framing) : Prop :=
  ∃ length coding,
    agreed_length (values_of CONTENT_LENGTH headers) length ∧
    single_coding (values_of TRANSFER_ENCODING headers) coding ∧
    (length = None ∨ coding = None) ∧
    (if bodiless request_method status then f = NoBody
     else match coding, length with
          | Some c, _ => c = bs "chunked" ∧ f = Framing_Chunked
          | None, Some n => f = ContentLength n
          | None, None => f = CloseDelimited
          end).

Lemma values_of_cons name h headers :
  values_of name (h :: headers) = (if eq_ignore_ascii_case h.1 name then [h.2] else []) ++ values_of name headers.
Proof.
  unfold values_of. rewrite filter_cons. destruct (eq_ignore_ascii_case h.1 name) eqn:E.
  - by rewrite decide_True.
  - rewrite decide_False; [done|auto].
Qed.

(** The scan, from what it has already seen. *)
Definition agreed_from (seen : option N) (values : list bytes) (length : option N) : Prop :=
  (∀ v, v ∈ values → content_length_value v = length ∧ is_Some length) ∧ (values = [] → length = seen) ∧
  (is_Some seen → length = seen).

Definition single_from (seen : option bytes) (values : list bytes) (coding : option bytes) : Prop :=
  values = [] ∧ coding = seen ∨
  seen = None ∧ ∃ v, values = [v] ∧ transfer_encoding_value v = coding ∧ is_Some coding.

Lemma agreed_from_cons seen v values length :
  agreed_from seen (v :: values) length ↔
  ∃ n, content_length_value v = Some n ∧ (seen = None ∨ seen = Some n) ∧ agreed_from (Some n) values length.
Proof.
  unfold agreed_from. setoid_rewrite elem_of_cons. split.
  - intros (Hall & _ & Hs). destruct (Hall v) as [Hv [n ->]]; [by left|]. exists n. split; [done|]. split.
    + destruct seen as [m|]; [right|by left]. symmetry. apply Hs. by eexists.
    + split_and!; [intros x Hx; apply Hall; by right|done|done].
  - intros (n & Hv & Hseen & Hall & Hnil & Hs). assert (length = Some n) as -> by (apply Hs; by eexists).
    split_and!; [|done|].
    + intros x [->|Hx]; [split; [done|by eexists]|by apply Hall].
    + intros [m ->]. by destruct Hseen as [|].
Qed.

Lemma single_from_cons seen v values coding :
  single_from seen (v :: values) coding ↔
  seen = None ∧ ∃ c, transfer_encoding_value v = Some c ∧ single_from (Some c) values coding.
Proof.
  unfold single_from. split.
  - intros [[? _]|(-> & w & [= -> ->] & Hw & [c ->])]; [done|]. split; [done|]. exists c. split; [done|]. by left.
  - intros (-> & c & Hv & [[-> ->]|[? _]]); [|done]. right. split; [done|]. exists v. split_and!; done.
Qed.

Lemma agreed_from_None values length : agreed_from None values length ↔ agreed_length values length.
Proof. unfold agreed_from, agreed_length. split; [tauto|]. intros [??]. split_and!; [done..|by intros []]. Qed.

Lemma single_from_None values coding : single_from None values coding ↔ single_coding values coding.
Proof. unfold single_from, single_coding. tauto. Qed.

Lemma scan_framing_spec headers seen_length seen_coding length coding :
  scan_framing headers seen_length seen_coding = Ok (length, coding) ↔
  agreed_from seen_length (values_of CONTENT_LENGTH headers) length ∧
  single_from seen_coding (values_of TRANSFER_ENCODING headers) coding.
Proof.
  revert seen_length seen_coding. induction headers as [|[name value] headers IH]; intros sl sc.
  { simpl. unfold agreed_from, single_from. change (values_of _ []) with (@nil bytes). split.
    - intros [= <- <-]. split; [split_and!; [by intros v ?%not_elem_of_nil|done|done]|by left].
    - intros [(_ & H & _) [[_ ->]|(_ & v & ? & _)]]; [|done]. by rewrite H. }
  cbn [scan_framing]. rewrite !values_of_cons. cbn [fst snd].
  assert (∀ sl', (if eq_ignore_ascii_case name TRANSFER_ENCODING then
      if is_some sc then Err (h1_error "h1_transfer_encoding_ambiguous")
      else match transfer_encoding_value value with
           | None => Err (h1_error "h1_transfer_encoding_invalid")
           | Some encoding => scan_framing headers sl' (Some encoding)
           end
    else scan_framing headers sl' sc) = Ok (length, coding) ↔
    agreed_from sl' (values_of CONTENT_LENGTH headers) length ∧
    single_from sc ((if eq_ignore_ascii_case name TRANSFER_ENCODING then [value] else []) ++ values_of TRANSFER_ENCODING headers) coding)
    as Htail.
  { intros sl'. destruct (eq_ignore_ascii_case name TRANSFER_ENCODING); [|apply IH]. cbn [app].
    rewrite single_from_cons. destruct sc as [c|]; simpl; [split; [done|intros (_ & ? & _); done]|].
    destruct (transfer_encoding_value value) as [c|].
    - rewrite IH. naive_solver.
    - split; [done|]. intros (_ & _ & c & ? & _). done. }
  destruct (eq_ignore_ascii_case name CONTENT_LENGTH); cbn [app]; [|apply Htail].
  rewrite agreed_from_cons. destruct (content_length_value value) as [n|]; [|split; [done|by intros [(? & ? & _) _]]].
  destruct (is_some_and _ sl) eqn:E.
  - split; [done|]. intros [(m & [= <-] & Hs & _) _]. destruct sl as [k|]; [|done]. simpl in E. bool_prop.
    destruct Hs as [|[= ->]]; done.
  - rewrite Htail. split.
    + intros [? ?]. split; [|done]. exists n. split_and!; [done| |done]. destruct sl as [k|]; [right|by left].
      simpl in E. bool_prop. by subst.
    + intros [(m & [= <-] & _ & ?) ?]. done.
Qed.

(** a response head is accepted exactly when its body has one boundary: all
    lengths agree, at most one transfer coding, and not both; then that boundary
    is selected and the head is passed on unchanged. A head with two boundaries
    (differing lengths, a length beside a coding, several codings, a coding other than chunked) is refused. *)
Theorem response_framing_unambiguous httparse buffer request_method consumed status headers :
  httparse buffer = Complete consumed (Some status) headers →
  match parse_response_head httparse buffer request_method with
  | Ok head =>
      head.(prh_status) = status ∧ head.(prh_headers) = headers ∧ head.(prh_consumed) = consumed ∧
      ∀ f, framing_rule request_method status headers f ↔ f = head.(prh_framing)
  | Err _ => ∀ f, ¬ framing_rule request_method status headers f
  end.
Proof.
  intros Hp. unfold parse_response_head. rewrite Hp.
  assert (∀ f, framing_rule request_method status headers f ↔
    ∃ length coding, scan_framing headers None None = Ok (length, coding) ∧ (length = None ∨ coding = None) ∧
      (if bodiless request_method status then f = NoBody
       else match coding, length with
            | Some c, _ => c = bs "chunked" ∧ f = Framing_Chunked
            | None, Some n => f = ContentLength n
            | None, None => f = CloseDelimited
            end)) as Hrule.
  { intros f. unfold framing_rule. setoid_rewrite scan_framing_spec.
    setoid_rewrite agreed_from_None. setoid_rewrite single_from_None.
    split; intros (l & c & H); exists l, c; tauto. }
  destruct (scan_framing headers None None) as [[l c]|err] eqn:E.
  2: { intros f. rewrite Hrule. by intros (? & ? & ? & _). }
  destruct (is_some l && is_some c)%bool eqn:Eb.
  { intros f. rewrite Hrule. intros (l' & c' & [= <- <-] & [-> | ->] & _); [done|]. by rewrite andb_false_r in Eb. }
  assert (l = None ∨ c = None) as Hor by (destruct l, c; auto; done).
  assert (∀ f, framing_rule request_method status headers f ↔ 
      (if bodiless request_method status then f = NoBody
       else match c, l with
            | Some c, _ => c = bs "chunked" ∧ f = Framing_Chunked
            | None, Some n => f = ContentLength n
            | None, None => f = CloseDelimited
            end)) as Hr2.
  { intros f. rewrite Hrule. split; [by intros (l' & c' & [= <- <-] & _ & ?)|]. intros H. exists l, c. done. }
  destruct (bodiless request_method status); [done|].
  destruct c as [c|]; [case_bool_decide as Hc|].
  - split_and!; [done..|]. intros f. rewrite Hr2. simpl. naive_solver.
  - intros f. rewrite Hr2. by intros [? _].
  - destruct l as [n|]; done.
Qed.

Lemma response_framing_unambiguous_witness :
  let headers := [(bs "X-Case", bs "value"); (bs "transfer-ENCODING", bs " Chunked ")] in
  let httparse := λ _ : bytes, Complete 60 (Some 200) headers in
  (∃ head, parse_response_head httparse [] (bs "POST") = Ok head ∧ head.(prh_framing) = Framing_Chunked) ∧
  ∀ f, framing_rule (bs "POST") 200 headers f ↔ f = Framing_Chunked.
Proof.
  split; [eexists; split; vm_compute; reflexivity|].
  exact (proj2 (proj2 (proj2 (response_framing_unambiguous
    (λ _ : bytes, Complete 60 (Some 200) [(bs "X-Case", bs "value"); (bs "transfer-ENCODING", bs " Chunked ")])
    [] (bs "POST") 60 200 [(bs "X-Case", bs "value"); (bs "transfer-ENCODING", bs " Chunked ")] eq_refl)))).
Defined.

(** The grammar of Content-Length has no sign; [str::parse] accepts a plus sign. *)
Lemma content_length_accepts_plus : content_length_value (bs "+5") = Some 5.
Proof. reflexivity. Qed.
