(* ===== verification/ConnectionPool.v ===== *)
(** The Credential-isolated connection pool,
    [crates/gateway-transport/src/pool.rs], and the activation generations of
    [engine.rs].

    A catalog is a mutex around its state; a mutex is poisoned when a holder
    panicked, and every operation fails closed then. *)

From S2P Require Import Prelude Machine.
From S2P Require Import Domain.
From S2P Require Import Transport.
Local Open Scope N_scope.

(** [ActivationGeneration(u64)] of [engine.rs]. *)
Abbreviation ActivationGeneration := N (only parsing).

Definition INITIAL : ActivationGeneration := 1.

Record PoolKey := {
  pk_credential_id : CredentialId;
  pk_profile_epoch : N;
  pk_bundle_id : TransportBundleId;
  pk_bundle_version : N;
  pk_egress_binding_id : EgressBindingId;
  pk_egress_epoch : N;
  pk_authority : string;
  pk_sni : string;
  pk_protocol : HttpProtocol;
}.

Record PoolShardKey := {
  psk_pool : PoolKey;
  psk_activation_generation : ActivationGeneration;
}.

(** The fields in order: the derived [Ord] compares them lexicographically. *)
Definition protocol_rank (p : HttpProtocol) : N := match p with H1 => 0 | H2 => 1 end.

Definition shard_fields (k : PoolShardKey) :=
  let p := k.(psk_pool) in
  (p.(pk_credential_id), (p.(pk_profile_epoch), (p.(pk_bundle_id), (p.(pk_bundle_version),
   (p.(pk_egress_binding_id), (p.(pk_egress_epoch), (p.(pk_authority), (p.(pk_sni),
    (protocol_rank p.(pk_protocol), k.(psk_activation_generation)))))))))).

Definition shard_of_fields (f : CredentialId * (N * (TransportBundleId * (N * (EgressBindingId * (N *
    (string * (string * (N * N))))))))) : PoolShardKey :=
  let '(c, (pe, (b, (bv, (eb, (ee, (au, (sn, (pr, g))))))))) := f in
  {| psk_pool := {| pk_credential_id := c; pk_profile_epoch := pe; pk_bundle_id := b; pk_bundle_version := bv;
                    pk_egress_binding_id := eb; pk_egress_epoch := ee; pk_authority := au; pk_sni := sn;
                    pk_protocol := if pr =? 0 then H1 else H2 |};
     psk_activation_generation := g |}.

Lemma shard_of_shard_fields k : shard_of_fields (shard_fields k) = k.
Proof. by destruct k as [[? ? ? ? ? ? ? ? []] ?]. Qed.

#[export] Instance shard_fields_inj : Inj (=) (=) shard_fields.
Proof. intros x y H. by rewrite <- (shard_of_shard_fields x), H, shard_of_shard_fields. Qed.

#[export] Instance PoolShardKey_eq_dec : EqDecision PoolShardKey.
Proof. refine (inj_eq_dec shard_fields). Defined.

#[export] Instance PoolShardKey_countable : Countable PoolShardKey.
Proof. exact (inj_countable' shard_fields shard_of_fields shard_of_shard_fields). Defined.

#[export] Instance PoolShardKey_key_order : KeyOrder PoolShardKey := pull_key_order shard_fields _.

Section pool.
Context {T : Type}.

Record PoolEntry := {
  pe_resource : T;
  pe_activation_generation : ActivationGeneration;
}.

Record PoolState := {
  ps_shards : gmap PoolShardKey (list PoolEntry);
  ps_minimum_profile_epochs : gmap CredentialId N;
  ps_retired_through : option ActivationGeneration;
}.

Record ConnectionPoolCatalog := {
  pc_poisoned : bool;
  pc_state : PoolState;
}.

Definition pool_new : ConnectionPoolCatalog :=
  {| pc_poisoned := false;
     pc_state := {| ps_shards := ∅; ps_minimum_profile_epochs := ∅; ps_retired_through := None |} |}.

Definition with_shards (shards : gmap PoolShardKey (list PoolEntry)) (c : ConnectionPoolCatalog) : ConnectionPoolCatalog :=
  {| pc_poisoned := c.(pc_poisoned);
     pc_state := {| ps_shards := shards; ps_minimum_profile_epochs := c.(pc_state).(ps_minimum_profile_epochs);
                    ps_retired_through := c.(pc_state).(ps_retired_through) |} |}.

Definition with_minimum (minimum : gmap CredentialId N) (c : ConnectionPoolCatalog) : ConnectionPoolCatalog :=
  {| pc_poisoned := c.(pc_poisoned);
     pc_state := {| ps_shards := c.(pc_state).(ps_shards); ps_minimum_profile_epochs := minimum;
                    ps_retired_through := c.(pc_state).(ps_retired_through) |} |}.

Definition with_retired (retired : option ActivationGeneration) (c : ConnectionPoolCatalog) : ConnectionPoolCatalog :=
  {| pc_poisoned := c.(pc_poisoned);
     pc_state := {| ps_shards := c.(pc_state).(ps_shards);
                    ps_minimum_profile_epochs := c.(pc_state).(ps_minimum_profile_epochs);
                    ps_retired_through := retired |} |}.

Definition checkin (key : PoolShardKey) (entry : PoolEntry) (self : ConnectionPoolCatalog)
    : result PoolEntry unit * ConnectionPoolCatalog :=
  if negb (entry.(pe_activation_generation) =? key.(psk_activation_generation)) then (Err entry, self)
  else if self.(pc_poisoned) then (Err entry, self)
  else
    let state := self.(pc_state) in
    if is_some_and (λ retired, key.(psk_activation_generation) <=? retired) state.(ps_retired_through)
    then (Err entry, self)
    else if is_some_and (λ minimum, key.(psk_pool).(pk_profile_epoch) <? minimum)
              (state.(ps_minimum_profile_epochs) !! key.(psk_pool).(pk_credential_id))
    then (Err entry, self)
    else (Ok tt, with_shards (<[key := default [] (state.(ps_shards) !! key) ++ [entry]]> state.(ps_shards)) self).

(** [Vec::pop]: the last element and what is left. *)
Definition vec_pop {A} (l : list A) : option A * list A := (last l, removelast l).

Definition checkout (key : PoolShardKey) (self : ConnectionPoolCatalog) : option PoolEntry * ConnectionPoolCatalog :=
  if self.(pc_poisoned) then (None, self)
  else
    let shards := self.(pc_state).(ps_shards) in
    let '(entry, shards) :=
      match shards !! key with
      | None => (None, shards)
      | Some entries => let '(entry, entries) := vec_pop entries in (entry, <[key := entries]> shards)
      end in
    let shards := if is_some_and is_empty (shards !! key) then delete key shards else shards in
    (entry, with_shards shards self).

Definition drain_key (key : PoolShardKey) (self : ConnectionPoolCatalog) : list PoolEntry * ConnectionPoolCatalog :=
  if self.(pc_poisoned) then ([], self)
  else
    let shards := self.(pc_state).(ps_shards) in
    (default [] (shards !! key), with_shards (delete key shards) self).

(** [for key in keys { if let Some(mut entries) = state.shards.remove(&key) { drained.append(..) } }]. *)
Fixpoint remove_shards (keys : list PoolShardKey) (drained : list PoolEntry) (shards : gmap PoolShardKey (list PoolEntry))
    : list PoolEntry * gmap PoolShardKey (list PoolEntry) :=
  match keys with
  | [] => (drained, shards)
  | key :: keys =>
      match shards !! key with
      | Some entries => remove_shards keys (drained ++ entries) (delete key shards)
      | None => remove_shards keys drained shards
      end
  end.

Definition drain_generation (generation : ActivationGeneration) (self : ConnectionPoolCatalog)
    : list PoolEntry * ConnectionPoolCatalog :=
  if self.(pc_poisoned) then ([], self)
  else
    let retired := map_or generation (λ retired, N.max retired generation) self.(pc_state).(ps_retired_through) in
    let self := with_retired (Some retired) self in
    let keys :=
      filter (λ key : PoolShardKey, key.(psk_activation_generation) <= retired)
        (btree_keys self.(pc_state).(ps_shards)) in
    let '(drained, shards) := remove_shards keys [] self.(pc_state).(ps_shards) in
    (drained, with_shards shards self).

Definition advance_credential_profile_epoch (credential_id : CredentialId) (minimum_profile_epoch : N)
    (self : ConnectionPoolCatalog) : list PoolEntry * ConnectionPoolCatalog :=
  if self.(pc_poisoned) then ([], self)
  else
    let minimums := self.(pc_state).(ps_minimum_profile_epochs) in
    let floor := N.max (default minimum_profile_epoch (minimums !! credential_id)) minimum_profile_epoch in
    let self := with_minimum (<[credential_id := floor]> minimums) self in
    let keys :=
      filter (λ key : PoolShardKey, key.(psk_pool).(pk_credential_id) = credential_id ∧
                                    key.(psk_pool).(pk_profile_epoch) < floor)
        (btree_keys self.(pc_state).(ps_shards)) in
    let '(drained, shards) := remove_shards keys [] self.(pc_state).(ps_shards) in
    (drained, with_shards shards self).

Definition resource_count (self : ConnectionPoolCatalog) : nat :=
  if self.(pc_poisoned) then 0%nat else sum_list (length <$> btree_values self.(pc_state).(ps_shards)).

(** ** Histories *)
Inductive PoolOp :=
  | OpCheckin (key : PoolShardKey) (entry : PoolEntry)
  | OpCheckout (key : PoolShardKey)
  | OpDrainKey (key : PoolShardKey)
  | OpDrainGeneration (generation : ActivationGeneration)
  | OpAdvanceEpoch (credential_id : CredentialId) (minimum_profile_epoch : N).

(** What an operation puts into the pool, what it takes out, and the catalog it leaves. *)
Definition pool_step (op : PoolOp) (c : ConnectionPoolCatalog)
    : list PoolEntry * list PoolEntry * ConnectionPoolCatalog :=
  match op with
  | OpCheckin key entry =>
      match checkin key entry c with
      | (Ok _, c) => ([entry], [], c)
      | (Err _, c) => ([], [], c)
      end
  | OpCheckout key => let '(entry, c) := checkout key c in ([], option_list entry, c)
  | OpDrainKey key => let '(drained, c) := drain_key key c in ([], drained, c)
  | OpDrainGeneration g => let '(drained, c) := drain_generation g c in ([], drained, c)
  | OpAdvanceEpoch id minimum => let '(drained, c) := advance_credential_profile_epoch id minimum c in ([], drained, c)
  end.

Fixpoint pool_run (ops : list PoolOp) (c : ConnectionPoolCatalog)
    : list PoolEntry * list PoolEntry * ConnectionPoolCatalog :=
  match ops with
  | [] => ([], [], c)
  | op :: ops =>
      let '(i1, o1, c) := pool_step op c in
      let '(i2, o2, c) := pool_run ops c in
      (i1 ++ i2, o1 ++ o2, c)
  end.

(** Everything the pool holds. *)
Definition pool_contents (c : ConnectionPoolCatalog) : list PoolEntry := concat (btree_values c.(pc_state).(ps_shards)).

End pool.
Arguments PoolEntry : clear implicits.
Arguments PoolState : clear implicits.
Arguments ConnectionPoolCatalog : clear implicits.
Arguments PoolOp : clear implicits.

Section pool_lemmas.
Context {T : Type}.
Implicit Types (c : ConnectionPoolCatalog T) (m : gmap PoolShardKey (list (PoolEntry T))).

(** ** Contents *)

Definition held m : list (PoolEntry T) := concat (btree_values m).

Lemma held_perm m : held m ≡ₚ concat (map_to_list m).*2.
Proof. unfold held, btree_values. by rewrite btree_iter_perm. Qed.

Lemma held_insert m k l : m !! k = None → held (<[k := l]> m) ≡ₚ l ++ held m.
Proof. intros Hk. rewrite !held_perm, map_to_list_insert by done. done. Qed.

Lemma held_delete m k l : m !! k = Some l → held m ≡ₚ l ++ held (delete k m).
Proof. intros Hk. rewrite <- (insert_delete_id m k l) at 1 by done. apply held_insert, lookup_delete_eq. Qed.

Lemma held_delete_default m k : held m ≡ₚ default [] (m !! k) ++ held (delete k m).
Proof. destruct (m !! k) eqn:E; simpl; [by apply held_delete|]. by rewrite delete_id. Qed.

Lemma held_insert_default m k l : held (<[k := l]> m) ≡ₚ l ++ held (delete k m).
Proof. rewrite <- insert_delete_eq. apply held_insert, lookup_delete_eq. Qed.

Lemma remove_shards_spec keys drained m :
  let '(drained', m') := remove_shards keys drained m in
  held m' ++ drained' ≡ₚ held m ++ drained ∧
  ∀ k es, m' !! k = Some es ↔ m !! k = Some es ∧ k ∉ keys.
Proof.
  revert drained m. induction keys as [|key keys IH]; intros drained m; simpl.
  { split; [done|]. intros k es. split; [|by intros []]. intros H. split; [done|apply not_elem_of_nil]. }
  destruct (m !! key) as [entries|] eqn:E.
  - specialize (IH (drained ++ entries) (delete key m)). destruct (remove_shards _ _ _) as [d' m'].
    destruct IH as [IH1 IH2]. split.
    + rewrite IH1, (held_delete _ _ _ E). solve_Permutation.
    + intros k es. rewrite IH2, not_elem_of_cons, lookup_delete_Some. naive_solver.
  - specialize (IH drained m). destruct (remove_shards _ _ _) as [d' m']. destruct IH as [IH1 IH2]. split; [done|].
    intros k es. rewrite IH2, not_elem_of_cons. naive_solver.
Qed.

Lemma last_removelast {A} (l : list A) : removelast l ++ option_list (last l) = l.
Proof. destruct l as [|x l] using rev_ind; [done|]. by rewrite last_snoc, removelast_last. Qed.

Lemma option_list_last {A} (l : list A) : vec_pop l = (last l, removelast l).
Proof. done. Qed.

Lemma drop_empty_held m k :
  held (if is_some_and is_empty (m !! k) then delete k m else m) ≡ₚ held m.
Proof.
  destruct (m !! k) as [es|] eqn:E; simpl; [|done]. destruct (is_empty es) eqn:Ee; [|done].
  apply is_empty_spec in Ee as ->. by rewrite (held_delete m k [] E).
Qed.

(** What [checkout] takes out is the last entry of the shard. *)
Lemma checkout_eq key c :
  c.(pc_poisoned) = false →
  (checkout key c).1 = (c.(pc_state).(ps_shards) !! key) ≫= last ∧
  held (checkout key c).2.(pc_state).(ps_shards) ++ option_list (checkout key c).1 ≡ₚ held c.(pc_state).(ps_shards) ∧
  (∀ k es, (checkout key c).2.(pc_state).(ps_shards) !! k = Some es → ∃ es', c.(pc_state).(ps_shards) !! k = Some es' ∧
     es `prefix_of` es' ∧ (es = [] → es' = [])) ∧
  (checkout key c).2 = with_shards (checkout key c).2.(pc_state).(ps_shards) c.
Proof.
  intros Hp. unfold checkout. rewrite Hp. destruct (ps_shards (pc_state c) !! key) as [es|] eqn:E.
  - rewrite option_list_last, lookup_insert_eq. simpl. split_and!; [done| | |done].
    + set (m2 := <[key := removelast es]> (ps_shards (pc_state c))).
      pose proof (drop_empty_held m2 key) as Hd. unfold m2 in Hd at 1. rewrite lookup_insert_eq in Hd. simpl in Hd.
      rewrite Hd. unfold m2. rewrite held_insert_default, (held_delete_default (ps_shards (pc_state c)) key), E. simpl.
      rewrite <- (last_removelast es) at 3. solve_Permutation.
    + intros k es2. destruct (is_empty (removelast es)) eqn:Ee.
      * rewrite lookup_delete_Some. intros [Hne Hk]. rewrite lookup_insert_ne in Hk by done. by exists es2.
      * rewrite lookup_insert_Some. intros [[<- <-]|[Hne Hk]]; [|by exists es2].
        exists es. split_and!; [done| |by intros He; rewrite He in Ee].
        exists (option_list (last es)). by rewrite last_removelast.
  - rewrite E. simpl. split_and!; [done|by rewrite app_nil_r| |done]. intros k es Hk. by exists es.
Qed.

Lemma pool_step_conserves op c :
  let '(i, o, c') := pool_step op c in
  held c'.(pc_state).(ps_shards) ++ o ≡ₚ held c.(pc_state).(ps_shards) ++ i ∧ c'.(pc_poisoned) = c.(pc_poisoned).
Proof.
  destruct op as [key entry|key|key|g|id minimum]; simpl.
  - unfold checkin. destruct (negb _); [done|]. destruct (pc_poisoned c) eqn:Hp; [done|].
    destruct (is_some_and _ (ps_retired_through _)); [done|]. destruct (is_some_and _ (_ !! _)); [done|]. simpl. split; [|done].
    rewrite held_insert_default, (held_delete_default (ps_shards (pc_state c)) key). solve_Permutation.
  - destruct (pc_poisoned c) eqn:Hp.
    + unfold checkout. rewrite Hp. simpl. done.
    + destruct (checkout_eq key c Hp) as (_ & Hh & _ & Hs). destruct (checkout key c) as [entry c']. simpl in *.
      rewrite Hh, app_nil_r. split; [done|]. rewrite Hs. done.
  - unfold drain_key. destruct (pc_poisoned c) eqn:Hp; [done|]. simpl. split; [|done].
    rewrite (held_delete_default (ps_shards (pc_state c)) key), app_nil_r. apply Permutation_app_comm.
  - unfold drain_generation. destruct (pc_poisoned c) eqn:Hp; [done|].
    pose proof (remove_shards_spec (filter (λ key : PoolShardKey, psk_activation_generation key <= 
      map_or g (λ retired, N.max retired g) (ps_retired_through (pc_state c))) (btree_keys (ps_shards (pc_state c)))) [] (ps_shards (pc_state c))) as H.
    simpl. destruct (remove_shards _ _ _) as [drained m']. destruct H as [H _]. simpl. by rewrite H, !app_nil_r.
  - unfold advance_credential_profile_epoch. destruct (pc_poisoned c) eqn:Hp; [done|]. simpl.
    match goal with |- context [remove_shards ?ks [] ?m] => pose proof (remove_shards_spec ks [] m) as H end.
    destruct (remove_shards _ _ _) as [drained m']. destruct H as [H _]. simpl. by rewrite H, !app_nil_r.
Qed.

Lemma pool_run_conserves ops c :
  let '(i, o, c') := pool_run ops c in
  held c'.(pc_state).(ps_shards) ++ o ≡ₚ held c.(pc_state).(ps_shards) ++ i ∧ c'.(pc_poisoned) = c.(pc_poisoned).
Proof.
  revert c. induction ops as [|op ops IH]; intros c; simpl; [done|].
  pose proof (pool_step_conserves op c) as H1. destruct (pool_step op c) as [[i1 o1] c1]. destruct H1 as [H1 P1].
  specialize (IH c1). destruct (pool_run ops c1) as [[i2 o2] c2]. destruct IH as [H2 P2]. split; [|congruence].
  rewrite (Permutation_app_comm o1 o2), app_assoc, H2, <- app_assoc, (Permutation_app_comm i2 o1), app_assoc, H1.
  by rewrite <- app_assoc.
Qed.

Lemma resource_count_held c : c.(pc_poisoned) = false → resource_count c = length (held c.(pc_state).(ps_shards)).
Proof.
  intros Hp. unfold resource_count, held. rewrite Hp. induction (btree_values _) as [|es l IH]; [done|].
  rewrite fmap_cons. simpl. by rewrite length_app, IH.
Qed.

(** ** Freshness *)

Definition above (bound : option N) (x : N) : Prop := ∀ b, bound = Some b → b < x.

Definition at_least (bound : option N) (x : N) : Prop := ∀ b, bound = Some b → b <= x.

(** A pool reached by the operations [ops]: its entries were checked in under
    their key, of whose generation they are; neither generation nor epoch is
    obsolete; and the marks cover every drain and every advance there has been. *)
Record pool_inv (ops : list (PoolOp T)) c : Prop := {
  pi_alive : c.(pc_poisoned) = false;
  pi_entries key es : c.(pc_state).(ps_shards) !! key = Some es →
    es ≠ [] ∧ (∀ e, e ∈ es → e.(pe_activation_generation) = key.(psk_activation_generation) ∧ OpCheckin key e ∈ ops) ∧
    above c.(pc_state).(ps_retired_through) key.(psk_activation_generation) ∧
    at_least (c.(pc_state).(ps_minimum_profile_epochs) !! key.(psk_pool).(pk_credential_id)) key.(psk_pool).(pk_profile_epoch);
  pi_retired g : OpDrainGeneration g ∈ ops → ∃ r, c.(pc_state).(ps_retired_through) = Some r ∧ g <= r;
  pi_minimum id minimum : OpAdvanceEpoch id minimum ∈ ops →
    ∃ f, c.(pc_state).(ps_minimum_profile_epochs) !! id = Some f ∧ minimum <= f;
}.

Lemma pool_inv_new : pool_inv [] (pool_new (T := T)).
Proof. split; simpl; [done|by intros ??|by intros ? ?%not_elem_of_nil|by intros ?? ?%not_elem_of_nil]. Qed.

Lemma elem_of_snoc {A} (x y : A) l : x ∈ l ++ [y] ↔ x ∈ l ∨ x = y.
Proof. by rewrite elem_of_app, list_elem_of_singleton. Qed.

(** An operation that leaves the marks alone and only takes entries out. *)
Lemma pool_inv_shrink ops op c shards :
  pool_inv ops c →
  (∀ g, op ≠ OpDrainGeneration g) → (∀ id minimum, op ≠ OpAdvanceEpoch id minimum) →
  (∀ key es, shards !! key = Some es → es ≠ [] ∧ ∃ es', c.(pc_state).(ps_shards) !! key = Some es' ∧ es `prefix_of` es') →
  pool_inv (ops ++ [op]) (with_shards shards c).
Proof.
  intros [Ha He Hr Hm] H1 H2 Hs. split; [done| |..].
  - intros key es Hk. destruct (Hs key es Hk) as (Hne & es' & Hk' & Hp). destruct (He key es' Hk') as (_ & Hall & ? & ?).
    split_and!; [done| |done|done]. intros e Hin. destruct (Hall e) as [? ?].
    { destruct Hp as [k ->]. apply elem_of_app. by left. }
    split; [done|]. apply elem_of_snoc. by left.
  - intros g [Hg| <-]%elem_of_snoc; [auto|by destruct (H1 g)].
  - intros id minimum [Hg| <-]%elem_of_snoc; [auto|by destruct (H2 id minimum)].
Qed.

Lemma with_shards_same c : with_shards c.(pc_state).(ps_shards) c = c.
Proof. by destruct c as [? []]. Qed.

Lemma pool_inv_step ops op c : pool_inv ops c → pool_inv (ops ++ [op]) (pool_step op c).2.
Proof.
  intros HI. pose proof HI as [Ha He Hr Hm].
  assert (∀ op', (∀ g, op' ≠ OpDrainGeneration g) → (∀ id minimum, op' ≠ OpAdvanceEpoch id minimum) → pool_inv (ops ++ [op']) c) as Hsame.
  { intros op' H1 H2. rewrite <- (with_shards_same c). apply pool_inv_shrink; [done..|]. intros key es Hk.
    split; [by eapply He|]. by exists es. }
  destruct op as [key entry|key|key|g|id minimum]; simpl.
  - unfold checkin. destruct (negb _) eqn:Eg; [by apply Hsame|]. rewrite Ha.
    destruct (is_some_and _ (ps_retired_through _)) eqn:E1; [by apply Hsame|].
    destruct (is_some_and _ (_ !! _)) eqn:E2; [by apply Hsame|]. simpl. bool_prop. split; [done| |..].
    + intros k es. simpl. rewrite lookup_insert_Some. intros [[<- <-]|[Hne Hk]].
      * split; [intros Hnil; by apply app_eq_nil in Hnil as [_ ?]|]. split; [|split].
        { intros e [Hin| ->]%elem_of_snoc; [|split; [done|apply elem_of_snoc; by right]].
          destruct (ps_shards (pc_state c) !! key) as [es|] eqn:E; [|by apply not_elem_of_nil in Hin].
          destruct (He key es E) as (_ & Hall & _). destruct (Hall e Hin). split; [done|]. apply elem_of_snoc. by left. }
        { intros b Hb. rewrite Hb in E1. simpl in E1. by bool_prop. }
        { intros b Hb. rewrite Hb in E2. simpl in E2. by bool_prop. }
      * destruct (He k es Hk) as (? & Hall & ? & ?). split_and!; [done| |done|done].
        intros e Hin. destruct (Hall e Hin). split; [done|]. apply elem_of_snoc. by left.
    + intros g [Hg|Hg]%elem_of_snoc; [auto|done].
    + intros id minimum [Hg|Hg]%elem_of_snoc; [auto|done].
  - destruct (checkout_eq key c Ha) as (_ & _ & Hsub & Hs). destruct (checkout key c) as [entry c'] eqn:E. simpl in *.
    rewrite Hs. apply pool_inv_shrink; [done..|]. intros k es Hk. destruct (Hsub k es Hk) as (es' & Hk' & Hp & Hn).
    split; [|by exists es']. intros He'. destruct (He k es' Hk') as [Hne _]. auto.
  - unfold drain_key. rewrite Ha. simpl. apply pool_inv_shrink; [done..|]. intros k es [_ Hk]%lookup_delete_Some.
    split; [by eapply He|]. by exists es.
  - unfold drain_generation. rewrite Ha. simpl. set (r := map_or _ _ _).
    match goal with |- context [remove_shards ?ks [] ?m] => pose proof (remove_shards_spec ks [] m) as H end.
    destruct (remove_shards _ _ _) as [drained m']. destruct H as [_ H]. simpl. split; simpl; [done| |..].
    + intros k es Hk. apply H in Hk as [Hk Hnot]. destruct (He k es Hk) as (? & Hall & _ & ?).
      split_and!; [done| | |done].
      * intros e Hin. destruct (Hall e Hin). split; [done|]. apply elem_of_snoc. by left.
      * intros b [= <-]. apply N.lt_nge. intros Hle. apply Hnot. apply list_elem_of_filter. split; [done|].
        apply elem_of_btree_keys. by eexists.
    + intros g' [Hg|[= ->]]%elem_of_snoc; exists r; (split; [done|]); unfold r.
      * destruct (Hr g' Hg) as (r0 & -> & Hle). simpl. lia.
      * destruct (ps_retired_through (pc_state c)); simpl; lia.
    + intros id minimum [Hg|Hg]%elem_of_snoc; [auto|done].
  - unfold advance_credential_profile_epoch. rewrite Ha. simpl. set (f := N.max _ _).
    match goal with |- context [remove_shards ?ks [] ?m] => pose proof (remove_shards_spec ks [] m) as H end.
    destruct (remove_shards _ _ _) as [drained m']. destruct H as [_ H]. simpl. split; simpl; [done| |..].
    + intros k es Hk. apply H in Hk as [Hk Hnot]. destruct (He k es Hk) as (? & Hall & ? & Hmin).
      split_and!; [done| |done|].
      * intros e Hin. destruct (Hall e Hin). split; [done|]. apply elem_of_snoc. by left.
      * intros b. rewrite lookup_insert_Some. intros [[Hid <-]|[_ Hb]]; [|by apply Hmin].
        apply N.nlt_ge. intros Hlt. apply Hnot, list_elem_of_filter. split; [done|]. apply elem_of_btree_keys. by eexists.
    + intros g [Hg|Hg]%elem_of_snoc; [auto|done].
    + intros id' minimum' [Hg|[= -> ->]]%elem_of_snoc.
      * destruct (Hm _ _ Hg) as (f0 & Hf0 & Hle). destruct (decide (id = id')) as [->|Hne].
        { exists f. rewrite lookup_insert_eq. split; [done|]. unfold f. rewrite Hf0. simpl. lia. }
        { exists f0. by rewrite lookup_insert_ne. }
      * exists f. rewrite lookup_insert_eq. split; [done|]. unfold f. lia.
Qed.

Lemma pool_run_snoc ops op c : (pool_run (ops ++ [op]) c).2 = (pool_step op (pool_run ops c).2).2.
Proof.
  revert c. induction ops as [|op' ops IH]; intros c; simpl.
  - by destruct (pool_step op c) as [[? ?] ?].
  - destruct (pool_step op' c) as [[i1 o1] c1]. specialize (IH c1).
    destruct (pool_run (ops ++ [op]) c1) as [[? ?] ?], (pool_run ops c1) as [[? ?] ?]. done.
Qed.

Lemma pool_inv_run ops : pool_inv ops (pool_run ops pool_new).2.
Proof.
  induction ops as [|op ops IH] using rev_ind; [apply pool_inv_new|]. rewrite pool_run_snoc. by apply pool_inv_step.
Qed.

End pool_lemmas.

(** ** Theorems *)

(** nothing is lost and nothing is duplicated. Whatever operations run, the
    resources the pool holds together with those it handed out (checked out or
    drained) are those it held before together with those it accepted; and the
    resource count is the number held. *)
Theorem pool_conserves {T} (ops : list (PoolOp T)) c :
  let '(accepted, handed_out, c') := pool_run ops c in
  pool_contents c' ++ handed_out ≡ₚ pool_contents c ++ accepted ∧
  (c.(pc_poisoned) = false → resource_count c' = length (pool_contents c')).
Proof.
  pose proof (pool_run_conserves ops c) as H. destruct (pool_run ops c) as [[i o] c'].
  destruct H as [H Hp]. split; [exact H|]. intros Ha. apply resource_count_held. congruence.
Qed.

(** C37: a connection is reused only where it may be. After any history, what is
    checked out for a key was checked in for exactly that key (all nine fields
    and the activation generation), is of that generation, and is neither of a
    generation retired by an earlier drain nor of a profile epoch below one advanced to
    before; and a late check-in of such an obsolete connection is refused. *)
Theorem pool_no_stale_reuse {T} (ops : list (PoolOp T)) key :
  let c := (pool_run ops pool_new).2 in
  let current key := (∀ g, OpDrainGeneration g ∈ ops → g < key.(psk_activation_generation)) ∧
    (∀ minimum, OpAdvanceEpoch key.(psk_pool).(pk_credential_id) minimum ∈ ops → minimum <= key.(psk_pool).(pk_profile_epoch)) in
  (∀ entry, (checkout key c).1 = Some entry →
    OpCheckin key entry ∈ ops ∧ entry.(pe_activation_generation) = key.(psk_activation_generation) ∧ current key) ∧
  (∀ entry, (checkin key entry c).1 = Ok tt → entry.(pe_activation_generation) = key.(psk_activation_generation) ∧ current key).
Proof.
  intros c current. pose proof (pool_inv_run ops) as HI. fold c in HI. pose proof HI as [Ha He Hr Hm].
  assert (∀ k, above (ps_retired_through (pc_state c)) (psk_activation_generation k) →
    at_least (ps_minimum_profile_epochs (pc_state c) !! pk_credential_id (psk_pool k)) (pk_profile_epoch (psk_pool k)) →
    current k) as Hcur.
  { intros k H1 H2. split.
    - intros g Hg. destruct (Hr g Hg) as (r & Hre & Hle). specialize (H1 r Hre). lia.
    - intros minimum Hg. destruct (Hm _ _ Hg) as (f & Hf & Hle). specialize (H2 f Hf). lia. }
  split.
  - intros entry. destruct (checkout_eq key c Ha) as (-> & _). intros (es & Hk & Hlast)%bind_Some.
    destruct (He key es Hk) as (_ & Hall & H1 & H2). destruct (Hall entry) as [? ?]; [by apply last_Some_elem_of|].
    split_and!; [done|done|by apply Hcur].
  - intros entry. pose proof (pool_inv_step ops (OpCheckin key entry) c HI) as [_ He' _ _]. simpl in He'.
    unfold checkin in *. destruct (negb _) eqn:Eg; [done|]. rewrite Ha in *.
    destruct (is_some_and _ (ps_retired_through _)); [done|]. destruct (is_some_and _ (_ !! _)); [done|].
    intros _. bool_prop. split; [done|]. simpl in He'.
    destruct (He' key _ (lookup_insert_eq _ _ _)) as (_ & _ & H1 & H2). by apply Hcur.
Qed.
