(* ===== verification/TransportEvents.v ===== *)
(** The order of transport events and the machine of one connection attempt:
    [crates/gateway-transport/src/event.rs] and [attempt.rs].

    [TransportEventSink] is the trait of the same name; [MonotonicEventSink] is
    an instance over any inner sink, as in the code. *)

From S2P Require Import Prelude Machine.
From S2P Require Import Domain.
From S2P Require Import Transport.
Local Open Scope N_scope.

Inductive TransportEventKind :=
  | ConnectionReady
  | FirstUpstreamRequestByte
  | RequestBodyComplete
  | ResponseHeaders
  | FirstResponseBodyByte
  | ResponseComplete
  | CancelRequested
  | CancelConfirmed
  | Event_ConnectionDisposition.

#[export] Instance TransportEventKind_eq_dec : EqDecision TransportEventKind.
Proof. solve_decision. Defined.

Record TransportEvent := {
  ev_request_id : RequestId;
  ev_attempt_plan_id : AttemptPlanId;
  ev_connection_attempt_id : ConnectionAttemptId;
  ev_sequence : N;
  ev_monotonic_ns : N;
  ev_kind : TransportEventKind;
  ev_request_bytes_written : N;
  ev_response_bytes_read : N;
  ev_upstream_submission_complete : bool;
  ev_connection_disposition : option ConnectionDisposition;
  ev_diagnostic_code : option string;
}.

(** The trait: a sink takes an event, answers, and is left in a new state. *)
Class TransportEventSink (Sink : Type) := sink_emit : TransportEvent → Sink → result TransportError unit * Sink.

Record InMemoryEventSink := {
  im_poisoned : bool;
  im_events : list TransportEvent;
}.

Definition in_memory_default : InMemoryEventSink := {| im_poisoned := false; im_events := [] |}.

Definition sink_snapshot (self : InMemoryEventSink) : list TransportEvent :=
  if self.(im_poisoned) then [] else self.(im_events).

#[export] Instance InMemoryEventSink_sink : TransportEventSink InMemoryEventSink := λ event self,
  if self.(im_poisoned) then (Err (invariant_error "transport_event_sink_poisoned"), self)
  else (Ok tt, {| im_poisoned := false; im_events := self.(im_events) ++ [event] |}).

Record SequenceState := {
  ss_last_sequence : N;
  ss_last_main_rank : N;
  ss_promotion_seen : bool;
  ss_cancel_requested : bool;
  ss_cancel_confirmed : bool;
  ss_disposition_seen : bool;
}.

#[export] Instance SequenceState_eq_dec : EqDecision SequenceState.
Proof. solve_decision. Defined.

Definition sequence_default : SequenceState :=
  {| ss_last_sequence := 0; ss_last_main_rank := 0; ss_promotion_seen := false;
     ss_cancel_requested := false; ss_cancel_confirmed := false; ss_disposition_seen := false |}.

Definition main_rank (kind : TransportEventKind) : N :=
  match kind with
  | ConnectionReady => 1
  | FirstUpstreamRequestByte => 2
  | RequestBodyComplete => 3
  | ResponseHeaders => 4
  | FirstResponseBodyByte => 5
  | ResponseComplete => 6
  | CancelRequested | CancelConfirmed | Event_ConnectionDisposition => 0
  end.

(** The [match event.kind] of [emit]: the refusal, or the flags it leaves. *)
Definition check_phase (kind : TransportEventKind) (disposition : option ConnectionDisposition) (state : SequenceState)
    : result TransportError SequenceState :=
  match kind with
  | ConnectionReady | FirstUpstreamRequestByte | RequestBodyComplete
  | ResponseHeaders | FirstResponseBodyByte | ResponseComplete =>
      let rank := main_rank kind in
      let valid_rank := (rank =? saturating_add U8_MAX state.(ss_last_main_rank) 1) ||
                        (bool_decide (kind = ResponseComplete) && (state.(ss_last_main_rank) =? 4)) in
      if negb valid_rank || state.(ss_cancel_requested) || state.(ss_disposition_seen) ||
         (bool_decide (kind = FirstUpstreamRequestByte) && state.(ss_promotion_seen))
      then Err (invariant_error "transport_event_phase_regression")
      else Ok {| ss_last_sequence := state.(ss_last_sequence); ss_last_main_rank := rank;
                 ss_promotion_seen := bool_decide (kind = FirstUpstreamRequestByte) || state.(ss_promotion_seen);
                 ss_cancel_requested := state.(ss_cancel_requested); ss_cancel_confirmed := state.(ss_cancel_confirmed);
                 ss_disposition_seen := state.(ss_disposition_seen) |}
  | CancelRequested =>
      if state.(ss_cancel_requested) || state.(ss_cancel_confirmed) || state.(ss_disposition_seen)
      then Err (invariant_error "transport_cancel_event_duplicate")
      else Ok {| ss_last_sequence := state.(ss_last_sequence); ss_last_main_rank := state.(ss_last_main_rank);
                 ss_promotion_seen := state.(ss_promotion_seen);
                 ss_cancel_requested := true; ss_cancel_confirmed := state.(ss_cancel_confirmed);
                 ss_disposition_seen := state.(ss_disposition_seen) |}
  | CancelConfirmed =>
      if negb state.(ss_cancel_requested) || state.(ss_cancel_confirmed) || state.(ss_disposition_seen)
      then Err (invariant_error "transport_cancel_confirmation_invalid")
      else Ok {| ss_last_sequence := state.(ss_last_sequence); ss_last_main_rank := state.(ss_last_main_rank);
                 ss_promotion_seen := state.(ss_promotion_seen);
                 ss_cancel_requested := state.(ss_cancel_requested); ss_cancel_confirmed := true;
                 ss_disposition_seen := state.(ss_disposition_seen) |}
  | Event_ConnectionDisposition =>
      if state.(ss_disposition_seen) || negb (is_some disposition)
      then Err (invariant_error "transport_disposition_event_invalid")
      else Ok {| ss_last_sequence := state.(ss_last_sequence); ss_last_main_rank := state.(ss_last_main_rank);
                 ss_promotion_seen := state.(ss_promotion_seen);
                 ss_cancel_requested := state.(ss_cancel_requested); ss_cancel_confirmed := state.(ss_cancel_confirmed);
                 ss_disposition_seen := true |}
  end.

Record MonotonicEventSink (Sink : Type) := {
  ms_poisoned : bool;
  ms_inner : Sink;
  ms_state : SequenceState;
}.
Arguments Build_MonotonicEventSink {Sink}.
Arguments ms_poisoned {Sink}.
Arguments ms_inner {Sink}.
Arguments ms_state {Sink}.

Definition monotonic_new {Sink} (inner : Sink) : MonotonicEventSink Sink :=
  {| ms_poisoned := false; ms_inner := inner; ms_state := sequence_default |}.

Definition with_last_sequence (sequence : N) (state : SequenceState) : SequenceState :=
  {| ss_last_sequence := sequence; ss_last_main_rank := state.(ss_last_main_rank);
     ss_promotion_seen := state.(ss_promotion_seen); ss_cancel_requested := state.(ss_cancel_requested);
     ss_cancel_confirmed := state.(ss_cancel_confirmed); ss_disposition_seen := state.(ss_disposition_seen) |}.

(** [emit]: the flags are written before the inner sink is asked, the sequence
    number after it accepted. *)
#[export] Instance MonotonicEventSink_sink `{TransportEventSink Sink} : TransportEventSink (MonotonicEventSink Sink) := λ event self,
  if self.(ms_poisoned) then (Err (invariant_error "transport_event_sequence_poisoned"), self)
  else if negb (event.(ev_sequence) =? saturating_add U64_MAX self.(ms_state).(ss_last_sequence) 1)
  then (Err (invariant_error "transport_event_sequence_gap"), self)
  else
    match check_phase event.(ev_kind) event.(ev_connection_disposition) self.(ms_state) with
    | Err e => (Err e, self)
    | Ok state =>
        match sink_emit event self.(ms_inner) with
        | (Err e, inner) => (Err e, {| ms_poisoned := false; ms_inner := inner; ms_state := state |})
        | (Ok _, inner) =>
            (Ok tt, {| ms_poisoned := false; ms_inner := inner;
                       ms_state := with_last_sequence event.(ev_sequence) state |})
        end
    end.

(** A transport task emits a list of events; the answers and the sink it leaves. *)
Fixpoint emit_all `{TransportEventSink Sink} (events : list TransportEvent) (sink : Sink)
    : list (result TransportError unit) * Sink :=
  match events with
  | [] => ([], sink)
  | event :: events =>
      let '(answer, sink) := sink_emit event sink in
      let '(answers, sink) := emit_all events sink in
      (answer :: answers, sink)
  end.

(** ** The machine of a connection attempt *)
Inductive ConnectionAttemptState :=
  | Planned
  | PoolLookup
  | Resolving
  | TcpConnecting
  | ProxyTunneling
  | TlsHandshaking
  | AlpnNegotiating
  | ProtocolReady
  | PromotedOnFirstByte
  | FailedBeforeFirstByte
  | CancelledBeforeFirstByte.

#[export] Instance ConnectionAttemptState_eq_dec : EqDecision ConnectionAttemptState.
Proof. solve_decision. Defined.

Record ConnectionAttemptMachine := {
  am_state : ConnectionAttemptState;
  am_promoted : bool;
}.

Definition attempt_machine_default : ConnectionAttemptMachine := {| am_state := Planned; am_promoted := false |}.

Definition valid_transition (state next : ConnectionAttemptState) : bool :=
  match state, next with
  | Planned, PoolLookup
  | PoolLookup, Resolving
  | PoolLookup, ProtocolReady
  | Resolving, TcpConnecting
  | TcpConnecting, ProxyTunneling
  | TcpConnecting, TlsHandshaking
  | ProxyTunneling, TlsHandshaking
  | TlsHandshaking, AlpnNegotiating
  | AlpnNegotiating, ProtocolReady
  | ProtocolReady, PromotedOnFirstByte => true
  | state, (FailedBeforeFirstByte | CancelledBeforeFirstByte) =>
      negb (bool_decide (state = PromotedOnFirstByte)) &&
      negb (match state with FailedBeforeFirstByte | CancelledBeforeFirstByte => true | _ => false end)
  | _, _ => false
  end.

Definition transition (next : ConnectionAttemptState) (self : ConnectionAttemptMachine)
    : result TransportError unit * ConnectionAttemptMachine :=
  if negb (valid_transition self.(am_state) next)
  then (Err (with_te_code InternalInvariant (engine_unavailable "connection_attempt_invalid_transition")), self)
  else (Ok tt, {| am_state := next;
                  am_promoted := if bool_decide (next = PromotedOnFirstByte) then true else self.(am_promoted) |}).

(** The states entered by the transitions that were accepted, and the machine left. *)
Fixpoint transition_run (nexts : list ConnectionAttemptState) (self : ConnectionAttemptMachine)
    : list ConnectionAttemptState * ConnectionAttemptMachine :=
  match nexts with
  | [] => ([], self)
  | next :: nexts =>
      let '(answer, self) := transition next self in
      let '(entered, self) := transition_run nexts self in
      ((if is_ok answer then [next] else []) ++ entered, self)
  end.

(** ** The language of event streams

    A stream is a run of main events, then the events of a cancellation, then the
    disposition of the connection; each part may be cut short or missing. *)
Definition main_streams : list (list TransportEventKind) :=
  let full := [ConnectionReady; FirstUpstreamRequestByte; RequestBodyComplete; ResponseHeaders;
               FirstResponseBodyByte; ResponseComplete] in
  ((λ n, take n full) <$> seq 0 7) ++
  [[ConnectionReady; FirstUpstreamRequestByte; RequestBodyComplete; ResponseHeaders; ResponseComplete]].

Definition cancel_streams : list (list TransportEventKind) := [[]; [CancelRequested]; [CancelRequested; CancelConfirmed]].

Definition kind_streams : list (list TransportEventKind) :=
  main ← main_streams; cancel ← cancel_streams; disposition ← [[]; [Event_ConnectionDisposition]];
  [main ++ cancel ++ disposition].

Record stream_ok (events : list TransportEvent) : Prop := {
  so_kinds : ev_kind <$> events ∈ kind_streams;
  so_sequence : ev_sequence <$> events = N.of_nat <$> seq 1 (length events);
  so_disposition : Forall (λ e, e.(ev_kind) = Event_ConnectionDisposition → is_Some e.(ev_connection_disposition)) events;
}.

(** The validator's state after a stream of these kinds. *)
Definition state_of (kinds : list TransportEventKind) : SequenceState :=
  {| ss_last_sequence := N.of_nat (length kinds);
     ss_last_main_rank := foldr N.max 0 (main_rank <$> kinds);
     ss_promotion_seen := bool_decide (FirstUpstreamRequestByte ∈ kinds);
     ss_cancel_requested := bool_decide (CancelRequested ∈ kinds);
     ss_cancel_confirmed := bool_decide (CancelConfirmed ∈ kinds);
     ss_disposition_seen := bool_decide (Event_ConnectionDisposition ∈ kinds) |}.

(** The events a sink accepted, in order. *)
Definition accepted_events (events : list TransportEvent) (answers : list (result TransportError unit)) : list TransportEvent :=
  (filter (λ ea : TransportEvent * result TransportError unit, is_ok ea.2 = true) (zip events answers)).*1.

(** ** Lemmas *)

Definition all_kinds : list TransportEventKind :=
  [ConnectionReady; FirstUpstreamRequestByte; RequestBodyComplete; ResponseHeaders; FirstResponseBodyByte;
   ResponseComplete; CancelRequested; CancelConfirmed; Event_ConnectionDisposition].

Lemma check_phase_some kind disposition state :
  check_phase kind disposition state = check_phase kind (if is_some disposition then Some Evict else None) state.
Proof. by destruct kind, disposition. Qed.

(** A kind is accepted after a stream exactly when it extends the stream within the language. *)
Definition extends (kinds : list TransportEventKind) (kind : TransportEventKind) (disposed : bool) : bool :=
  bool_decide (kinds ++ [kind] ∈ kind_streams) && (negb (bool_decide (kind = Event_ConnectionDisposition)) || disposed).

Definition step_agrees (kinds : list TransportEventKind) (kind : TransportEventKind) (disposed : bool) : bool :=
  match check_phase kind (if disposed then Some Evict else None) (state_of kinds) with
  | Ok state => extends kinds kind disposed &&
                bool_decide (with_last_sequence (N.of_nat (length kinds) + 1) state = state_of (kinds ++ [kind]))
  | Err _ => negb (extends kinds kind disposed)
  end.

Lemma steps_agree : forallb (λ kinds, forallb (λ kind, step_agrees kinds kind true && step_agrees kinds kind false) all_kinds) kind_streams = true.
Proof. by vm_compute. Qed.

Lemma streams_closed : forallb (λ kinds, (length kinds <=? 9)%nat && bool_decide (removelast kinds ∈ kind_streams)) kind_streams = true.
Proof. by vm_compute. Qed.

Lemma forallb_elem {A} (f : A → bool) l x : forallb f l = true → x ∈ l → f x = true.
Proof. rewrite forallb_forall. intros H Hx%list_elem_of_In. auto. Qed.

Lemma step_agree kinds kind disposed : kinds ∈ kind_streams → step_agrees kinds kind disposed = true.
Proof.
  intros Hk. pose proof (forallb_elem _ _ _ steps_agree Hk) as H. cbv beta in H.
  assert (kind ∈ all_kinds) as Ha by (apply (bool_decide_eq_true _); by destruct kind).
  apply (forallb_elem _ _ kind) in H; [|done]. apply andb_true_iff in H as [? ?]. by destruct disposed.
Qed.

Lemma stream_length events : stream_ok events → (length events <= 9)%nat.
Proof.
  intros [Hk _ _]. apply (forallb_elem _ _ _ streams_closed) in Hk. apply andb_true_iff in Hk as [Hk _].
  apply Nat.leb_le in Hk. by rewrite length_fmap in Hk.
Qed.

Lemma stream_ok_nil : stream_ok [].
Proof. split; [|done|constructor]. apply (bool_decide_eq_true _). by vm_compute. Qed.

Lemma stream_ok_snoc events e :
  stream_ok (events ++ [e]) ↔
  stream_ok events ∧ e.(ev_sequence) = N.of_nat (length events) + 1 ∧
  extends (ev_kind <$> events) e.(ev_kind) (is_some e.(ev_connection_disposition)) = true.
Proof.
  assert ((ev_sequence <$> events ++ [e]) = N.of_nat <$> seq 1 (length (events ++ [e])) ↔
    ev_sequence <$> events = N.of_nat <$> seq 1 (length events) ∧ e.(ev_sequence) = N.of_nat (length events) + 1) as Hs.
  { rewrite length_app, seq_app, !fmap_app. simpl. split.
    - intros [? [= ?]]%app_inj_2; [|done]. split; [done|lia].
    - intros [-> ->]. do 2 f_equal. lia. }
  unfold extends. rewrite andb_true_iff, bool_decide_eq_true, orb_true_iff, negb_true_iff, bool_decide_eq_false.
  split.
  - intros [Hk Hq Hd]. apply Hs in Hq as [Hq1 Hq2]. rewrite Forall_app, Forall_singleton in Hd. destruct Hd as [Hd1 Hd2].
    rewrite fmap_app in Hk. simpl in Hk. split_and!; [split; [|done|done]|done|done|].
    + apply (forallb_elem _ _ _ streams_closed), andb_true_iff in Hk as [_ Hk]. rewrite removelast_last in Hk. by bool_prop.
    + destruct (decide (ev_kind e = Event_ConnectionDisposition)) as [Hk'|Hne]; [|by left]. right. by apply is_some_spec, Hd2.
  - intros ([Hk Hq Hd] & Hq2 & Hl & Hd2). split; [by rewrite fmap_app|by apply Hs|].
    rewrite Forall_app, Forall_singleton. split; [done|]. intros Hk'. destruct Hd2; [done|]. by apply is_some_spec.
Qed.

(** The validator around the in-memory sink, after it accepted [events]. *)
Definition sink_at (events : list TransportEvent) : MonotonicEventSink InMemoryEventSink :=
  {| ms_poisoned := false; ms_inner := {| im_poisoned := false; im_events := events |};
     ms_state := state_of (ev_kind <$> events) |}.

Lemma emit_sink_at events e :
  stream_ok events →
  (stream_ok (events ++ [e]) ∧ sink_emit e (sink_at events) = (Ok tt, sink_at (events ++ [e]))) ∨
  (¬ stream_ok (events ++ [e]) ∧ ∃ err, sink_emit e (sink_at events) = (Err err, sink_at events)).
Proof.
  intros Hok. rewrite stream_ok_snoc. unfold sink_emit, MonotonicEventSink_sink. simpl.
  pose proof (stream_length _ Hok) as Hlen. rewrite length_fmap.
  assert (saturating_add U64_MAX (N.of_nat (length events)) 1 = N.of_nat (length events) + 1) as ->.
  { apply saturating_add_small. rewrite U64_MAX_val. lia. }
  destruct (_ =? _) eqn:Eq; simpl; bool_prop; [|right; split; [naive_solver|by eexists]].
  pose proof (step_agree _ e.(ev_kind) (is_some e.(ev_connection_disposition)) (so_kinds _ Hok)) as Hs.
  unfold step_agrees in Hs. rewrite <- check_phase_some, length_fmap in Hs.
  destruct (check_phase _ _ _) as [state|err].
  - left. apply andb_true_iff in Hs as [Hx Hs]. split; [done|]. bool_prop. simpl. rewrite Eq, Hs.
    unfold sink_at. by rewrite fmap_app.
  - right. apply negb_true_iff in Hs. split; [intros (_ & _ & Hx); congruence|by eexists].
Qed.

Lemma emit_all_sink_at events done :
  stream_ok done →
  let '(answers, sink) := emit_all events (sink_at done) in
  length answers = length events ∧
  stream_ok (done ++ accepted_events events answers) ∧ sink = sink_at (done ++ accepted_events events answers) ∧
  (stream_ok (done ++ events) → Forall (λ a, is_ok a = true) answers).
Proof.
  revert done. induction events as [|e events IH]; intros done Hok; simpl; [by rewrite app_nil_r|].
  destruct (emit_sink_at done e Hok) as [[Hok' ->]|[Hno [err ->]]].
  - specialize (IH _ Hok'). destruct (emit_all events _) as [answers sink]. simpl.
    change (accepted_events (e :: events) (Ok tt :: answers)) with (e :: accepted_events events answers).
    rewrite <- !app_assoc in IH. destruct IH as (? & ? & ? & Hall). split_and!; [by f_equal|done|done|]. intros Hev.
    constructor; [done|auto].
  - specialize (IH _ Hok). destruct (emit_all events _) as [answers sink]. simpl.
    change (accepted_events (e :: events) (Err err :: answers)) with (accepted_events events answers).
    destruct IH as (? & ? & ? & Hall). split_and!; [by f_equal|done|done|]. intros Hev. destruct Hno.
    clear -Hev. revert Hev. replace (done ++ e :: events) with ((done ++ [e]) ++ events) by by rewrite <- app_assoc.
    generalize (done ++ [e]). intros l. induction events as [|e' events IH] using rev_ind; [by rewrite app_nil_r|].
    rewrite app_assoc, stream_ok_snoc. intros [? _]. auto.
Qed.

Lemma accepted_all events answers :
  length answers = length events → Forall (λ a, is_ok a = true) answers → accepted_events events answers = events.
Proof.
  revert answers. induction events as [|e events IH]; intros [|a answers] Hlen Hall; try done.
  apply Forall_cons in Hall as [Ha Hall]. injection Hlen as Hlen. destruct a; [|done].
  change (e :: accepted_events events answers = e :: events). f_equal. auto.
Qed.

(** A main event moves the flags past itself: it cannot be emitted again, its successor can. *)
Lemma check_phase_ahead kind d state state' :
  check_phase kind d state = Ok state' → main_rank kind ≠ 0 →
  state'.(ss_last_sequence) = state.(ss_last_sequence) ∧
  check_phase kind d state' = Err (invariant_error "transport_event_phase_regression") ∧
  ∀ next d', main_rank next = main_rank kind + 1 →
    (next = FirstUpstreamRequestByte → state.(ss_promotion_seen) = false) → ∃ state'', check_phase next d' state' = Ok state''.
Proof.
  intros H Hrank. destruct kind; try done; cbn [check_phase] in H;
    destruct (negb _ || _ || _ || _) eqn:E; try done; injection H as <-;
    apply orb_false_iff in E as [[[_ Ec]%orb_false_iff Ed]%orb_false_iff _];
    (split_and!; [done| |intros next d' Hn Hp; destruct next; try done]); cbn; rewrite ?Ec, ?Ed; try done; try by eexists.
  rewrite (Hp eq_refl). by eexists.
Qed.

(** *** The machine of an attempt *)

(** How many transitions can lie behind a state. *)
Definition attempt_rank (state : ConnectionAttemptState) : nat :=
  match state with
  | Planned => 0
  | PoolLookup => 1
  | Resolving => 2
  | TcpConnecting => 3
  | ProxyTunneling => 4
  | TlsHandshaking => 5
  | AlpnNegotiating => 6
  | ProtocolReady => 7
  | PromotedOnFirstByte | FailedBeforeFirstByte | CancelledBeforeFirstByte => 8
  end.

Lemma valid_transition_rank state next :
  valid_transition state next = true →
  (attempt_rank state < attempt_rank next)%nat ∧ (next = PromotedOnFirstByte → state = ProtocolReady) ∧ attempt_rank state ≠ 8%nat.
Proof. destruct state, next; try done; simpl; intros _; split_and!; (lia || done). Qed.

Lemma terminal_stuck state next : attempt_rank state = 8%nat → valid_transition state next = false.
Proof. by destruct state, next. Qed.

Lemma transition_run_spec nexts self :
  self.(am_promoted) = bool_decide (self.(am_state) = PromotedOnFirstByte) →
  let '(entered, machine) := transition_run nexts self in
  machine.(am_promoted) = bool_decide (machine.(am_state) = PromotedOnFirstByte) ∧
  (length entered + attempt_rank self.(am_state) <= 8)%nat ∧
  last (self.(am_state) :: entered) = Some machine.(am_state) ∧
  (∀ before after, entered = before ++ PromotedOnFirstByte :: after →
     last (self.(am_state) :: before) = Some ProtocolReady ∧ after = []).
Proof.
  revert self. induction nexts as [|next nexts IH]; intros self Hp; simpl.
  { split_and!; [done| |done|by intros []]. destruct (am_state self); simpl; lia. }
  unfold transition. destruct (valid_transition (am_state self) next) eqn:E; simpl.
  - destruct (valid_transition_rank _ _ E) as (Hlt & Hready & Hne).
    assert ((if bool_decide (next = PromotedOnFirstByte) then true else am_promoted self) =
            bool_decide (next = PromotedOnFirstByte)) as Hp'.
    { destruct (bool_decide (next = _)); [done|]. rewrite Hp. apply bool_decide_eq_false. intros Hs. by rewrite Hs in Hne. }
    match goal with |- context [transition_run nexts ?m] => specialize (IH m Hp'); destruct (transition_run nexts m) as [entered machine] end.
    simpl in *. destruct IH as (? & Hlen & Hlast & Hsplit). split_and!; [done|lia|done|].
    intros [|x before] after; simpl; intros [= -> He].
    + split; [f_equal; by apply Hready|]. simpl in *. destruct entered; [done|simpl in *; lia].
    + by apply Hsplit.
  - specialize (IH self Hp). destruct (transition_run nexts self) as [entered machine]. exact IH.
Qed.


(** ** Theorems *)

(** the validating sink implements the language of event streams. Around a
    sink that accepts everything, what has been recorded after any events is the
    accepted ones in order and is a legal stream (so the first request byte is
    recorded at most once and only after the connection was ready, nothing
    follows a disposition, sequence numbers count from one and there are at most
    nine events); and the events of a list are all accepted exactly when the
    list is a legal stream. *)
Theorem event_streams_legal (events : list TransportEvent) :
  let '(answers, sink) := emit_all events (monotonic_new in_memory_default) in
  let recorded := sink_snapshot sink.(ms_inner) in
  recorded = accepted_events events answers ∧
  stream_ok recorded ∧ (length recorded <= 9)%nat ∧
  (Forall (λ a, is_ok a = true) answers ↔ stream_ok events).
Proof.
  pose proof (emit_all_sink_at events [] stream_ok_nil) as H.
  change (monotonic_new in_memory_default) with (sink_at []). destruct (emit_all _ _) as [answers sink].
  destruct H as (Hlen & Hok & -> & Hall). simpl in *. split_and!; [done|done|by apply stream_length|].
  split; [|done]. intros Ha. by rewrite accepted_all in Hok.
Qed.

(** when the inner sink fails, the validator is already past the event. If a
    main event passes the checks and the inner sink refuses it, then the same
    event is refused as a regression when it is emitted again, and the next main
    event, with the same sequence number, reaches the inner sink: it can be
    recorded although its predecessor was not. *)
Theorem inner_failure_skips_event `{TransportEventSink Sink} (self : MonotonicEventSink Sink) event next inner' err :
  self.(ms_poisoned) = false →
  event.(ev_sequence) = saturating_add U64_MAX self.(ms_state).(ss_last_sequence) 1 →
  is_ok (check_phase event.(ev_kind) event.(ev_connection_disposition) self.(ms_state)) = true →
  main_rank event.(ev_kind) ≠ 0 →
  sink_emit event self.(ms_inner) = (Err err, inner') →
  next.(ev_sequence) = event.(ev_sequence) →
  main_rank next.(ev_kind) = main_rank event.(ev_kind) + 1 →
  (next.(ev_kind) = FirstUpstreamRequestByte → self.(ms_state).(ss_promotion_seen) = false) →
  let failed := (sink_emit event self).2 in
  sink_emit event failed = (Err (invariant_error "transport_event_phase_regression"), failed) ∧
  (sink_emit next failed).1 = (sink_emit next inner').1 ∧
  (sink_emit next failed).2.(ms_inner) = (sink_emit next inner').2.
Proof.
  intros Hp Hseq Hok Hrank Hinner Hseq' Hrank' Hpromo failed.
  destruct (check_phase _ _ (ms_state self)) as [state|] eqn:E; [|done].
  destruct (check_phase_ahead _ _ _ _ E Hrank) as (Hl & Hagain & Hnext).
  assert (failed = {| ms_poisoned := false; ms_inner := inner'; ms_state := state |}) as ->.
  { unfold failed, sink_emit, MonotonicEventSink_sink. by rewrite Hp, <- Hseq, N.eqb_refl, E, Hinner. }
  unfold sink_emit at 1 2 4, MonotonicEventSink_sink. simpl. rewrite Hseq', Hl, <- Hseq, N.eqb_refl, Hagain. simpl.
  destruct (Hnext next.(ev_kind) next.(ev_connection_disposition) Hrank' Hpromo) as [state' ->].
  destruct (sink_emit next inner') as [[[]|e] inner'']; done.
Qed.

Lemma inner_failure_skips_event_witness :
  let dead := {| im_poisoned := true; im_events := [] |} in
  let self := monotonic_new dead in
  let ready := {| ev_request_id := {| id_value := "request_1" |}; ev_attempt_plan_id := {| id_value := "plan_1" |};
                  ev_connection_attempt_id := {| id_value := "connection_1" |}; ev_sequence := 1; ev_monotonic_ns := 1;
                  ev_kind := ConnectionReady; ev_request_bytes_written := 0; ev_response_bytes_read := 0;
                  ev_upstream_submission_complete := false; ev_connection_disposition := None;
                  ev_diagnostic_code := None |} in
  let failed := (sink_emit ready self).2 in
  sink_emit ready failed = (Err (invariant_error "transport_event_phase_regression"), failed).
Proof.
  set (next := {| ev_request_id := {| id_value := "request_1" |}; ev_attempt_plan_id := {| id_value := "plan_1" |};
                  ev_connection_attempt_id := {| id_value := "connection_1" |}; ev_sequence := 1; ev_monotonic_ns := 1;
                  ev_kind := FirstUpstreamRequestByte; ev_request_bytes_written := 0; ev_response_bytes_read := 0;
                  ev_upstream_submission_complete := false; ev_connection_disposition := None;
                  ev_diagnostic_code := None |}).
  intros dead self ready failed.
  by destruct (inner_failure_skips_event self ready next dead (invariant_error "transport_event_sink_poisoned")) as [? _].
Defined.

(** one Messages attempt per connection attempt. Whatever states are
    requested, the machine is promoted exactly when it is in the promoted state,
    promotion is entered at most once, from a ready protocol, and then no
    transition is accepted any more; a terminal failure is never a promotion;
    and at most eight transitions are accepted. *)
Theorem attempt_promotes_once nexts :
  let '(entered, machine) := transition_run nexts attempt_machine_default in
  machine.(am_promoted) = bool_decide (machine.(am_state) = PromotedOnFirstByte) ∧
  (PromotedOnFirstByte ∈ entered ↔ machine.(am_promoted) = true) ∧
  (∀ before after, entered = before ++ PromotedOnFirstByte :: after → last before = Some ProtocolReady ∧ after = []) ∧
  (machine.(am_state) ∈ [PromotedOnFirstByte; FailedBeforeFirstByte; CancelledBeforeFirstByte] →
     ∀ next, transition next machine =
       (Err (with_te_code InternalInvariant (engine_unavailable "connection_attempt_invalid_transition")), machine)) ∧
  (length entered <= 8)%nat.
Proof.
  pose proof (transition_run_spec nexts attempt_machine_default eq_refl) as H.
  destruct (transition_run _ _) as [entered machine]. destruct H as (Hp & Hlen & Hlast & Hsplit). simpl in *.
  split_and!; [done| | | |lia].
  - rewrite Hp, bool_decide_eq_true. split.
    + intros (before & after & ->)%list_elem_of_split. destruct (Hsplit before after eq_refl) as [_ ->].
      rewrite app_comm_cons, last_snoc in Hlast. by injection Hlast.
    + intros Hs. rewrite Hs in Hlast. apply last_Some_elem_of, elem_of_cons in Hlast as [?|?]; done.
  - intros before after He. destruct (Hsplit before after He) as [Hl ->]. split; [|done].
    destruct before; [done|]. by rewrite last_cons_cons in Hl.
  - intros Ht next. unfold transition. rewrite terminal_stuck; [done|].
    apply elem_of_cons in Ht as [->|Ht]; [done|]. apply elem_of_cons in Ht as [->|Ht]; [done|].
    by apply list_elem_of_singleton in Ht as ->.
Qed.
