(* ===== verification/Usage.v ===== *)
(** Token counts, the basis of accounting and the exact cost:
    [crates/gateway-domain/src/response.rs] and the second half of
    [crates/gateway-services/src/usage.rs]. *)

From Stdlib Require Import Ascii.
From S2P Require Import Prelude Machine.
From S2P Require Import Bytes.
Local Open Scope N_scope.

Inductive UsageSource := Official | ConsoleCount | LocalEstimate | CancelEstimate.

#[export] Instance UsageSource_eq_dec : EqDecision UsageSource.
Proof. solve_decision. Defined.

Inductive UsageCompleteness := Complete | Partial | Unknown.

#[export] Instance UsageCompleteness_eq_dec : EqDecision UsageCompleteness.
Proof. solve_decision. Defined.

Record TokenCounts := {
  tc_input_tokens : option N;
  tc_output_tokens : option N;
  tc_cache_creation_input_tokens : option N;
  tc_cache_read_input_tokens : option N;
}.

#[export] Instance TokenCounts_eq_dec : EqDecision TokenCounts.
Proof. solve_decision. Defined.

Definition counts_default : TokenCounts :=
  {| tc_input_tokens := None; tc_output_tokens := None; tc_cache_creation_input_tokens := None;
     tc_cache_read_input_tokens := None |}.

Definition counts_is_empty (self : TokenCounts) : bool :=
  negb (is_some self.(tc_input_tokens)) && negb (is_some self.(tc_output_tokens)) &&
  negb (is_some self.(tc_cache_creation_input_tokens)) && negb (is_some self.(tc_cache_read_input_tokens)).

Record UsageObservation := {
  uo_source : UsageSource;
  uo_completeness : UsageCompleteness;
  uo_counts : TokenCounts;
  uo_algorithm_version : option string;
}.

#[export] Instance UsageObservation_eq_dec : EqDecision UsageObservation.
Proof. solve_decision. Defined.

Inductive UsageObservationError := UnknownWithCounts.

Definition UsageObservation_new (source : UsageSource) (completeness : UsageCompleteness) (counts : TokenCounts)
    (algorithm_version : option string) : result UsageObservationError UsageObservation :=
  if bool_decide (completeness = Unknown) && negb (counts_is_empty counts) then Err UnknownWithCounts
  else Ok {| uo_source := source; uo_completeness := completeness; uo_counts := counts;
             uo_algorithm_version := algorithm_version |}.

Record PriceSnapshot := {
  pr_input_per_million_pico_usd : N;
  pr_output_per_million_pico_usd : N;
  pr_cache_creation_per_million_pico_usd : N;
  pr_cache_read_per_million_pico_usd : N;
}.

Record CostEstimate := {
  ce_amount_usd : option bytes;
  ce_usage_completeness : UsageCompleteness;
  ce_algorithm_version : string;
}.

(** ** The final basis *)
Definition basis_rank (observation : UsageObservation) : N * N * N :=
  let source := match observation.(uo_source) with
    | Official => 4 | ConsoleCount => 3 | LocalEstimate => 2 | CancelEstimate => 1 end in
  let completeness := match observation.(uo_completeness) with Complete => 3 | Partial => 2 | Unknown => 1 end in
  let known := if bool_decide (observation.(uo_completeness) = Unknown) then 0 else 1 in
  (known, source, completeness).

(** The derived order of [(u8, u8, u8)]. *)
Definition rank_cmp (a b : N * N * N) : comparison :=
  then_with (then_with (N.compare a.1.1 b.1.1) (N.compare a.1.2 b.1.2)) (N.compare a.2 b.2).

(** [Iterator::max_by_key]: the last of the greatest elements. *)
Definition max_by_key {A K} (cmp : K → K → comparison) (key : A → K) (l : list A) : option A :=
  match l with
  | [] => None
  | x :: rest => Some (foldl (λ best y, match cmp (key best) (key y) with Gt => best | _ => y end) x rest)
  end.

Definition select_final_basis (observations : list UsageObservation) : option UsageObservation :=
  max_by_key rank_cmp basis_rank observations.

(** ** Cost *)
Definition PICO_USD_PER_USD : N := 1000000000000.

Definition TOKENS_PER_MILLION : N := 1000000.

Inductive CostError := Overflow.

#[export] Instance CostError_eq_dec : EqDecision CostError.
Proof. solve_decision. Defined.

(** [format!("{whole}.{fractional:012}")]. *)
Definition format_pico_usd (value : N) : bytes :=
  let whole := value / PICO_USD_PER_USD in
  let fractional := value mod PICO_USD_PER_USD in
  to_string whole ++ ["."%char] ++ pad_left 12 (to_string fractional).

(** One turn of the loop over the four priced fields. *)
Definition cost_field (state : N * bool) (field : option N * N) : result CostError (N * bool) :=
  let '(total, known) := state in
  match field with
  | (None, _) => Ok (total, known)
  | (Some count, rate) =>
      match checked_mul U128_MAX count rate with
      | None => Err Overflow
      | Some numerator =>
          match checked_add U128_MAX numerator (TOKENS_PER_MILLION / 2) with
          | None => Err Overflow
          | Some sum =>
              match checked_add U128_MAX total (sum / TOKENS_PER_MILLION) with
              | None => Err Overflow
              | Some total => Ok (total, true)
              end
          end
      end
  end.

Fixpoint cost_loop (state : N * bool) (fields : list (option N * N)) : result CostError (N * bool) :=
  match fields with
  | [] => Ok state
  | field :: fields =>
      match cost_field state field with
      | Err e => Err e
      | Ok state => cost_loop state fields
      end
  end.

Definition priced_fields (counts : TokenCounts) (price : PriceSnapshot) : list (option N * N) :=
  [(counts.(tc_input_tokens), price.(pr_input_per_million_pico_usd));
   (counts.(tc_output_tokens), price.(pr_output_per_million_pico_usd));
   (counts.(tc_cache_creation_input_tokens), price.(pr_cache_creation_per_million_pico_usd));
   (counts.(tc_cache_read_input_tokens), price.(pr_cache_read_per_million_pico_usd))].

Definition calculate_cost (usage : UsageObservation) (price : PriceSnapshot) (algorithm_version : string)
    : result CostError CostEstimate :=
  match cost_loop (0, false) (priced_fields usage.(uo_counts) price) with
  | Err e => Err e
  | Ok (total, known) =>
      Ok {| ce_amount_usd := if known then Some (format_pico_usd total) else None;
            ce_usage_completeness := usage.(uo_completeness);
            ce_algorithm_version := algorithm_version |}
  end.

(** ** The specification of the cost

    Unbounded arithmetic: the known fields, each priced and rounded half up to a pico-USD. *)
Definition known_fields (fields : list (option N * N)) : list (N * N) :=
  omap (λ field : option N * N, (λ count, (count, field.2)) <$> field.1) fields.

Definition round_half_up (numerator : N) : N := (numerator + 500000) / 1000000.

Definition cost_spec (fields : list (option N * N)) : N :=
  foldr (λ field rest, round_half_up (field.1 * field.2) + rest) 0 (known_fields fields).

(** What a reader of the amount gets: the decimal number in pico-USD. *)
Definition read_pico_usd (amount : bytes) : option N :=
  '(whole, fractional) ← split_once "."%char amount;
  if bool_decide (length fractional = 12%nat) then
    w ← parse_digits 10 U128_MAX 0 whole; f ← parse_digits 10 U128_MAX 0 fractional; Some (w * PICO_USD_PER_USD + f)
  else None.

(** The exact cost in millionths of a pico-USD. *)
Definition exact_cost (fields : list (option N * N)) : N :=
  foldr (λ field rest, field.1 * field.2 + rest) 0 (known_fields fields).

(** ** Lemmas *)

Lemma round_half_up_bounds x : 2 * (1000000 * round_half_up x) <= 2 * x + 1000000 ∧ 2 * x <= 2 * (1000000 * round_half_up x) + 1000000.
Proof.
  unfold round_half_up. pose proof (N.div_mod (x + 500000) 1000000 ltac:(done)) as H.
  pose proof (N.mod_lt (x + 500000) 1000000 ltac:(done)) as Hr.
  set (q := (x + 500000) / 1000000) in *. set (r := (x + 500000) mod 1000000) in *. clearbody q r. lia.
Qed.

Lemma cost_spec_rounding fields :
  2 * (1000000 * cost_spec fields) <= 2 * exact_cost fields + 1000000 * N.of_nat (length (known_fields fields)) ∧
  2 * exact_cost fields <= 2 * (1000000 * cost_spec fields) + 1000000 * N.of_nat (length (known_fields fields)).
Proof.
  unfold cost_spec, exact_cost. induction (known_fields fields) as [|[c r] l IH]; simpl foldr; simpl length; [lia|].
  simpl fst. simpl snd. pose proof (round_half_up_bounds (c * r)). lia.
Qed.

(** The checks of the loop hold exactly when nothing exceeds the width. *)
Definition cost_fits (fields : list (option N * N)) (total : N) : Prop :=
  Forall (λ field, field.1 * field.2 + 500000 <= U128_MAX) (known_fields fields) ∧ total + cost_spec fields <= U128_MAX.

Lemma checked_add_spec max a b : checked_add max a b = if a + b <=? max then Some (a + b) else None.
Proof. done. Qed.

Lemma cost_field_spec total known count rate :
  total <= U128_MAX →
  cost_field (total, known) (Some count, rate) =
  if bool_decide (count * rate + 500000 <= U128_MAX ∧ total + round_half_up (count * rate) <= U128_MAX)
  then Ok (total + round_half_up (count * rate), true) else Err Overflow.
Proof.
  intros Ht. simpl. unfold checked_mul, checked_add, round_half_up. change (TOKENS_PER_MILLION / 2) with 500000.
  change TOKENS_PER_MILLION with 1000000. generalize dependent U128_MAX. intros max Ht.
  destruct (N.leb_spec (count * rate) max) as [H1|H1]; [|rewrite bool_decide_eq_false_2; [done|lia]].
  destruct (N.leb_spec (count * rate + 500000) max) as [H2|H2]; [|rewrite bool_decide_eq_false_2; [done|lia]].
  destruct (N.leb_spec (total + (count * rate + 500000) / 1000000) max) as [H3|H3].
  - by rewrite bool_decide_eq_true_2.
  - rewrite bool_decide_eq_false_2; [done|lia].
Qed.

Lemma cost_loop_spec fields total known :
  total <= U128_MAX →
  (cost_fits fields total ∧
   cost_loop (total, known) fields = Ok (total + cost_spec fields, known || negb (is_empty (known_fields fields)))) ∨
  (¬ cost_fits fields total ∧ cost_loop (total, known) fields = Err Overflow).
Proof.
  revert total known. induction fields as [|[[count|] rate] fields IH]; intros total known Ht.
  - left. unfold cost_fits, cost_spec. simpl. rewrite N.add_0_r, orb_false_r. done.
  - change (cost_loop (total, known) ((Some count, rate) :: fields)) with
      (match cost_field (total, known) (Some count, rate) with Err e => Err e | Ok state => cost_loop state fields end).
    rewrite cost_field_spec by done.
    change (cost_spec ((Some count, rate) :: fields)) with (round_half_up (count * rate) + cost_spec fields).
    unfold cost_fits. change (known_fields ((Some count, rate) :: fields)) with ((count, rate) :: known_fields fields).
    change (cost_spec ((Some count, rate) :: fields)) with (round_half_up (count * rate) + cost_spec fields).
    rewrite Forall_cons. simpl fst. simpl snd.
    case_bool_decide as Hc.
    + destruct Hc as [Hc1 Hc2]. rewrite N.add_assoc. destruct (IH _ true Hc2) as [[[Hf1 Hf2] ->]|[Hn ->]].
      * left. split; [done|]. simpl. by rewrite orb_true_r.
      * right. split; [|done]. intros [[_ Hf] Hs]. by apply Hn.
    + right. split; [|done]. intros [[Hf _] Hs]. apply Hc. split; [done|].
      etrans; [|exact Hs]. rewrite N.add_assoc. apply N.le_add_r.
  - apply (IH total known Ht).
Qed.

(** *** The amount as text *)

Lemma dot_not_digit l : Forall (is_digit_of 10) l → "."%char ∉ l.
Proof.
  rewrite Forall_forall. intros Hd Hin. destruct (digit_solid 10 _ ltac:(done) (Hd _ Hin)) as (_ & H & _). by vm_compute in H.
Qed.

(** Printing an amount and reading it back is the identity. *)
Lemma read_format_pico value : value <= U128_MAX → read_pico_usd (format_pico_usd value) = Some value.
Proof.
  intros Hv. unfold read_pico_usd, format_pico_usd. set (whole := value / _). set (frac := value mod _).
  assert (frac < PICO_USD_PER_USD) as Hf by by apply N.mod_lt.
  assert (whole <= U128_MAX) as Hw.
  { etrans; [|exact Hv]. by apply N.Div0.div_le_upper_bound; unfold PICO_USD_PER_USD; lia. }
  change (["."%char] ++ pad_left 12 (to_string frac)) with ("."%char :: pad_left 12 (to_string frac)).
  rewrite split_once_app by by apply dot_not_digit, format_radix_digits. simpl.
  rewrite bool_decide_eq_true_2 by by apply pad_left_length. rewrite to_string_parse by done. simpl.
  rewrite pad_left_parse.
  - simpl. f_equal. rewrite N.mul_comm. symmetry. apply N.div_mod. done.
  - etrans; [apply N.lt_le_incl, Hf|]. by vm_compute.
Qed.

(** *** The last maximum *)

Lemma rank_cmp_ok : cmp_ok rank_cmp (λ _, True).
Proof. unfold rank_cmp. repeat apply then_with_ok; apply Ncompare_ok. Qed.

Lemma max_by_key_spec {A K} (cmp : K → K → comparison) (key : A → K) l best :
  cmp_ok cmp (λ _, True) → max_by_key cmp key l = Some best →
  ∃ before after, l = before ++ best :: after ∧
    (∀ y, y ∈ before → cmp (key y) (key best) ≠ Gt) ∧ (∀ y, y ∈ after → cmp (key best) (key y) = Gt).
Proof.
  intros Hc. destruct l as [|x rest]; [done|]. intros [= <-]. simpl.
  induction rest as [|y rest IH] using rev_ind.
  { exists [], []. split_and!; [done|by intros ? ?%not_elem_of_nil|by intros ? ?%not_elem_of_nil]. }
  rewrite foldl_snoc. set (best := foldl _ x rest) in *. destruct IH as (before & after & Heq & Hb & Ha).
  destruct (cmp (key best) (key y)) eqn:E.
  3: { exists before, (after ++ [y]). split_and!; [|done|].
       - rewrite app_comm_cons, Heq, <- app_assoc. done.
       - intros z [Hz| ->%list_elem_of_singleton]%elem_of_app; auto. }
  all: exists (x :: rest), []; split_and!; [by rewrite app_comm_cons| |by intros ? ?%not_elem_of_nil];
    assert (cmp (key best) (key y) ≠ Gt) as Hle by congruence; rewrite Heq;
    intros z [Hz|[->|Hz]%elem_of_cons]%elem_of_app; [|done|];
    apply (cmp_trans _ _ Hc _ (key best)); try done; [by apply Hb|];
    rewrite (cmp_opp _ _ Hc) by done; rewrite Ha by done; done.
Qed.

(** ** Theorems *)

(** cost is exact. The calculation overflows exactly when a priced field or
    the sum leaves 128 bits; otherwise there is an amount exactly when a count is
    known, and its text is the sum, in pico-USD, of the known fields each
    rounded half up. That sum differs from the exact cost by at most half a
    pico-USD per known field. *)
Theorem cost_exact (usage : UsageObservation) (price : PriceSnapshot) (version : string) :
  let fields := priced_fields usage.(uo_counts) price in
  (calculate_cost usage price version = Err Overflow ↔ ¬ cost_fits fields 0) ∧
  (∀ estimate, calculate_cost usage price version = Ok estimate →
    (estimate.(ce_amount_usd) = None ↔ counts_is_empty usage.(uo_counts) = true) ∧
    (∀ amount, estimate.(ce_amount_usd) = Some amount → read_pico_usd amount = Some (cost_spec fields))) ∧
  2 * (1000000 * cost_spec fields) <= 2 * exact_cost fields + 1000000 * N.of_nat (length (known_fields fields)) ∧
  2 * exact_cost fields <= 2 * (1000000 * cost_spec fields) + 1000000 * N.of_nat (length (known_fields fields)).
Proof.
  intros fields.
  assert (is_empty (known_fields fields) = counts_is_empty (uo_counts usage)) as Hempty.
  { unfold fields, priced_fields. by destruct (uo_counts usage) as [[] [] [] []]. }
  split; [|split; [|apply cost_spec_rounding]]; unfold calculate_cost; fold fields;
    destruct (cost_loop_spec fields 0 false) as [[Hf ->]|[Hf ->]]; try done.
  rewrite Hempty, N.add_0_l, orb_false_l. intros estimate [= <-]. cbn [ce_amount_usd].
  destruct (counts_is_empty _); simpl; split; try done. intros amount [= <-].
  apply read_format_pico. destruct Hf as [_ Hf]. exact Hf.
Qed.

(** one basis is selected. There is none only without observations; the one
    selected is an observation of the list, of greatest rank and the last such;
    so a known observation wins over every unknown one, and an official one over any other
    source when both are known. *)
Theorem final_basis_selected (observations : list UsageObservation) :
  match select_final_basis observations with
  | None => observations = []
  | Some best =>
      (∃ before after, observations = before ++ best :: after ∧
         (∀ o, o ∈ before → rank_cmp (basis_rank o) (basis_rank best) ≠ Gt) ∧
         (∀ o, o ∈ after → rank_cmp (basis_rank best) (basis_rank o) = Gt)) ∧
      (best.(uo_completeness) = Unknown → ∀ o, o ∈ observations → o.(uo_completeness) = Unknown) ∧
      (best.(uo_completeness) ≠ Unknown → best.(uo_source) ≠ Official →
         ∀ o, o ∈ observations → o.(uo_source) = Official → o.(uo_completeness) = Unknown)
  end.
Proof.
  unfold select_final_basis. destruct (max_by_key _ _ _) as [best|] eqn:E; [|by destruct observations].
  destruct (max_by_key_spec _ _ _ _ rank_cmp_ok E) as (before & after & -> & Hb & Ha).
  assert (∀ o, o ∈ before ++ best :: after → rank_cmp (basis_rank o) (basis_rank best) ≠ Gt) as Hall.
  { intros o [Ho|[->|Ho]%elem_of_cons]%elem_of_app; [by apply Hb| |].
    - unfold rank_cmp. by rewrite !N.compare_refl.
    - rewrite (cmp_opp _ _ rank_cmp_ok), Ha by done. done. }
  split_and!; [by exists before, after| |]; intros Hu.
  - intros o Ho. specialize (Hall o Ho). destruct o as [[] [] ? ?], best as [[] [] ? ?]; by simpl in *.
  - intros Hs o Ho Hs'. specialize (Hall o Ho). destruct o as [[] [] ? ?], best as [[] [] ? ?]; by simpl in *.
Qed.
