(* ===== verification/UsageObserver.v ===== *)
(** The side-channel observers of a response: the first half of
    [crates/gateway-services/src/usage.rs].

    [serde_json] is a parameter, the class [JsonValue]; so is the gzip decoder of
    [flate2], the class [GzDecoder]. The clock is read at most once per call: its
    reading is the argument [now]. *)

From Stdlib Require Import Ascii.
From S2P Require Import Prelude Machine.
From S2P Require Import Bytes.
From S2P Require Import Usage.
Local Open Scope N_scope.

(** What the observer uses of [serde_json::Value]; the text of a string is its UTF-8 bytes. *)
Class JsonValue (V : Type) := {
  from_slice : bytes → option V;
  value_get : V → string → option V;
  value_pointer : V → string → option V;
  value_as_str : V → option bytes;
  value_as_u64 : V → option N;
  value_as_object : V → option (string → option V);
}.

Definition MAX_SSE_OBSERVER_BUFFER : N := 256 * 1024.

Definition MAX_USAGE_OBJECT_BYTES : N := 64 * 1024.

Definition MAX_USAGE_DECODED_BYTES : N := 2 * 1024 * 1024 * 1024.

Definition QUOTE : ascii := "034"%char.

Definition BACKSLASH : ascii := "\"%char.

Definition len (l : bytes) : N := N.of_nat (length l).

(** ** The scanner of a non-streamed body *)
Record JsonObjectCapture := {
  oc_bytes : bytes;
  oc_depth : N;
  oc_in_string : bool;
  oc_escaped : bool;
  oc_overflowed : bool;
}.

Definition capture_new : JsonObjectCapture :=
  {| oc_bytes := ["{"%char]; oc_depth := 1; oc_in_string := false; oc_escaped := false; oc_overflowed := false |}.

(** [push]: whether the object is complete, and the capture. *)
Definition capture_push (byte : ascii) (self : JsonObjectCapture) : bool * JsonObjectCapture :=
  let '(stored, overflowed) :=
    if len self.(oc_bytes) <? MAX_USAGE_OBJECT_BYTES then (self.(oc_bytes) ++ [byte], self.(oc_overflowed))
    else (self.(oc_bytes), true) in
  if self.(oc_in_string) then
    let '(in_string, escaped) :=
      if self.(oc_escaped) then (true, false)
      else if bool_decide (byte = BACKSLASH) then (true, true)
      else if bool_decide (byte = QUOTE) then (false, self.(oc_escaped))
      else (true, self.(oc_escaped)) in
    (false, {| oc_bytes := stored; oc_depth := self.(oc_depth); oc_in_string := in_string; oc_escaped := escaped;
               oc_overflowed := overflowed |})
  else
    let '(depth, in_string) :=
      if bool_decide (byte = QUOTE) then (self.(oc_depth), true)
      else if bool_decide (byte = "{"%char) then (saturating_add USIZE_MAX self.(oc_depth) 1, false)
      else if bool_decide (byte = "}"%char) then (saturating_sub self.(oc_depth) 1, false)
      else (self.(oc_depth), false) in
    (depth =? 0, {| oc_bytes := stored; oc_depth := depth; oc_in_string := in_string; oc_escaped := self.(oc_escaped);
                    oc_overflowed := overflowed |}).

Record JsonUsageScanner := {
  js_in_string : bool;
  js_escaped : bool;
  js_string_bytes : bytes;
  js_candidate_key : option bytes;
  js_awaiting_usage_value : bool;
  js_capture : option JsonObjectCapture;
  js_overflowed : bool;
}.

Definition scanner_default : JsonUsageScanner :=
  {| js_in_string := false; js_escaped := false; js_string_bytes := []; js_candidate_key := None;
     js_awaiting_usage_value := false; js_capture := None; js_overflowed := false |}.

(** The turn of [scan] on one byte: what it completes, and the scanner. *)
Definition scan_byte (byte : ascii) (self : JsonUsageScanner) : list bytes * JsonUsageScanner :=
  match self.(js_capture) with
  | Some capture =>
      let '(complete, capture) := capture_push byte capture in
      if complete then
        (if capture.(oc_overflowed) then [] else [capture.(oc_bytes)],
         {| js_in_string := self.(js_in_string); js_escaped := self.(js_escaped);
            js_string_bytes := self.(js_string_bytes); js_candidate_key := self.(js_candidate_key);
            js_awaiting_usage_value := self.(js_awaiting_usage_value); js_capture := None;
            js_overflowed := self.(js_overflowed) || capture.(oc_overflowed) |})
      else
        ([], {| js_in_string := self.(js_in_string); js_escaped := self.(js_escaped);
                js_string_bytes := self.(js_string_bytes); js_candidate_key := self.(js_candidate_key);
                js_awaiting_usage_value := self.(js_awaiting_usage_value); js_capture := Some capture;
                js_overflowed := self.(js_overflowed) |})
  | None =>
      if self.(js_in_string) then
        let '(in_string, escaped, string_bytes, candidate_key) :=
          if self.(js_escaped) then (true, false, self.(js_string_bytes) ++ [byte], self.(js_candidate_key))
          else if bool_decide (byte = BACKSLASH) then (true, true, self.(js_string_bytes), self.(js_candidate_key))
          else if bool_decide (byte = QUOTE) then (false, self.(js_escaped), [], Some self.(js_string_bytes))
          else if len self.(js_string_bytes) <? 128
          then (true, self.(js_escaped), self.(js_string_bytes) ++ [byte], self.(js_candidate_key))
          else (true, self.(js_escaped), self.(js_string_bytes), self.(js_candidate_key)) in
        ([], {| js_in_string := in_string; js_escaped := escaped; js_string_bytes := string_bytes;
                js_candidate_key := candidate_key; js_awaiting_usage_value := self.(js_awaiting_usage_value);
                js_capture := None; js_overflowed := self.(js_overflowed) |})
      else if self.(js_awaiting_usage_value) then
        if is_ascii_whitespace byte then ([], self)
        else
          ([], {| js_in_string := false; js_escaped := self.(js_escaped); js_string_bytes := self.(js_string_bytes);
                  js_candidate_key := self.(js_candidate_key); js_awaiting_usage_value := false;
                  js_capture := if bool_decide (byte = "{"%char) then Some capture_new else None;
                  js_overflowed := self.(js_overflowed) |})
      else
        let '(in_string, escaped, string_bytes, candidate_key, awaiting) :=
          if bool_decide (byte = QUOTE) then (true, false, [], self.(js_candidate_key), false)
          else if bool_decide (byte = ":"%char)
          then (false, self.(js_escaped), self.(js_string_bytes), None,
                bool_decide (self.(js_candidate_key) = Some (bs "usage")))
          else if is_ascii_whitespace byte
          then (false, self.(js_escaped), self.(js_string_bytes), self.(js_candidate_key), false)
          else (false, self.(js_escaped), self.(js_string_bytes), None, false) in
        ([], {| js_in_string := in_string; js_escaped := escaped; js_string_bytes := string_bytes;
                js_candidate_key := candidate_key; js_awaiting_usage_value := awaiting;
                js_capture := None; js_overflowed := self.(js_overflowed) |})
  end.

Fixpoint scan_loop (l : bytes) (self : JsonUsageScanner) : list bytes * JsonUsageScanner :=
  match l with
  | [] => ([], self)
  | byte :: l =>
      let '(completed, self) := scan_byte byte self in
      let '(more, self) := scan_loop l self in
      (completed ++ more, self)
  end.

Definition with_js_overflowed (v : bool) (self : JsonUsageScanner) : JsonUsageScanner :=
  {| js_in_string := self.(js_in_string); js_escaped := self.(js_escaped);
     js_string_bytes := self.(js_string_bytes); js_candidate_key := self.(js_candidate_key);
     js_awaiting_usage_value := self.(js_awaiting_usage_value); js_capture := self.(js_capture); js_overflowed := v |}.

Definition scan (l : bytes) (self : JsonUsageScanner) : list bytes * JsonUsageScanner :=
  let '(completed, self) := scan_loop l self in
  (completed, if is_some_and oc_overflowed self.(js_capture) then with_js_overflowed true self else self).

(** ** The observer *)
Record UsageObserver := {
  ob_first_content_at : option Duration;
  ob_line_buffer : bytes;
  ob_event_data : bytes;
  ob_non_stream_scanner : JsonUsageScanner;
  ob_counts : TokenCounts;
  ob_saw_usage : bool;
  ob_saw_message_stop : bool;
  ob_observer_overflowed : bool;
  ob_decoded_bytes_seen : N;
  ob_committed_event_ordinal : N;
  ob_committed_content_event_ordinal : N;
  ob_committed_decoded_end_offset : N;
  ob_output_content_bytes : N;
  ob_output_content_seen : bool;
  ob_output_gap : bool;
  ob_ignore_next_lf : bool;
  ob_last_event_type : option bytes;
}.

(** One field replaced, the others kept. *)
Definition with_first_content_at (v : option Duration) (s : UsageObserver) : UsageObserver :=
  Build_UsageObserver v s.(ob_line_buffer) s.(ob_event_data) s.(ob_non_stream_scanner) s.(ob_counts)
    s.(ob_saw_usage) s.(ob_saw_message_stop) s.(ob_observer_overflowed) s.(ob_decoded_bytes_seen)
    s.(ob_committed_event_ordinal) s.(ob_committed_content_event_ordinal) s.(ob_committed_decoded_end_offset)
    s.(ob_output_content_bytes) s.(ob_output_content_seen) s.(ob_output_gap) s.(ob_ignore_next_lf)
    s.(ob_last_event_type).

Definition with_line_buffer (v : bytes) (s : UsageObserver) : UsageObserver :=
  Build_UsageObserver s.(ob_first_content_at) v s.(ob_event_data) s.(ob_non_stream_scanner) s.(ob_counts)
    s.(ob_saw_usage) s.(ob_saw_message_stop) s.(ob_observer_overflowed) s.(ob_decoded_bytes_seen)
    s.(ob_committed_event_ordinal) s.(ob_committed_content_event_ordinal) s.(ob_committed_decoded_end_offset)
    s.(ob_output_content_bytes) s.(ob_output_content_seen) s.(ob_output_gap) s.(ob_ignore_next_lf)
    s.(ob_last_event_type).

Definition with_event_data (v : bytes) (s : UsageObserver) : UsageObserver :=
  Build_UsageObserver s.(ob_first_content_at) s.(ob_line_buffer) v s.(ob_non_stream_scanner) s.(ob_counts)
    s.(ob_saw_usage) s.(ob_saw_message_stop) s.(ob_observer_overflowed) s.(ob_decoded_bytes_seen)
    s.(ob_committed_event_ordinal) s.(ob_committed_content_event_ordinal) s.(ob_committed_decoded_end_offset)
    s.(ob_output_content_bytes) s.(ob_output_content_seen) s.(ob_output_gap) s.(ob_ignore_next_lf)
    s.(ob_last_event_type).

Definition with_non_stream_scanner (v : JsonUsageScanner) (s : UsageObserver) : UsageObserver :=
  Build_UsageObserver s.(ob_first_content_at) s.(ob_line_buffer) s.(ob_event_data) v s.(ob_counts) s.(ob_saw_usage)
    s.(ob_saw_message_stop) s.(ob_observer_overflowed) s.(ob_decoded_bytes_seen) s.(ob_committed_event_ordinal)
    s.(ob_committed_content_event_ordinal) s.(ob_committed_decoded_end_offset) s.(ob_output_content_bytes)
    s.(ob_output_content_seen) s.(ob_output_gap) s.(ob_ignore_next_lf) s.(ob_last_event_type).

Definition with_counts (v : TokenCounts) (s : UsageObserver) : UsageObserver :=
  Build_UsageObserver s.(ob_first_content_at) s.(ob_line_buffer) s.(ob_event_data) s.(ob_non_stream_scanner) v
    s.(ob_saw_usage) s.(ob_saw_message_stop) s.(ob_observer_overflowed) s.(ob_decoded_bytes_seen)
    s.(ob_committed_event_ordinal) s.(ob_committed_content_event_ordinal) s.(ob_committed_decoded_end_offset)
    s.(ob_output_content_bytes) s.(ob_output_content_seen) s.(ob_output_gap) s.(ob_ignore_next_lf)
    s.(ob_last_event_type).

Definition with_saw_usage (v : bool) (s : UsageObserver) : UsageObserver :=
  Build_UsageObserver s.(ob_first_content_at) s.(ob_line_buffer) s.(ob_event_data) s.(ob_non_stream_scanner)
    s.(ob_counts) v s.(ob_saw_message_stop) s.(ob_observer_overflowed) s.(ob_decoded_bytes_seen)
    s.(ob_committed_event_ordinal) s.(ob_committed_content_event_ordinal) s.(ob_committed_decoded_end_offset)
    s.(ob_output_content_bytes) s.(ob_output_content_seen) s.(ob_output_gap) s.(ob_ignore_next_lf)
    s.(ob_last_event_type).

Definition with_saw_message_stop (v : bool) (s : UsageObserver) : UsageObserver :=
  Build_UsageObserver s.(ob_first_content_at) s.(ob_line_buffer) s.(ob_event_data) s.(ob_non_stream_scanner)
    s.(ob_counts) s.(ob_saw_usage) v s.(ob_observer_overflowed) s.(ob_decoded_bytes_seen)
    s.(ob_committed_event_ordinal) s.(ob_committed_content_event_ordinal) s.(ob_committed_decoded_end_offset)
    s.(ob_output_content_bytes) s.(ob_output_content_seen) s.(ob_output_gap) s.(ob_ignore_next_lf)
    s.(ob_last_event_type).

Definition with_observer_overflowed (v : bool) (s : UsageObserver) : UsageObserver :=
  Build_UsageObserver s.(ob_first_content_at) s.(ob_line_buffer) s.(ob_event_data) s.(ob_non_stream_scanner)
    s.(ob_counts) s.(ob_saw_usage) s.(ob_saw_message_stop) v s.(ob_decoded_bytes_seen)
    s.(ob_committed_event_ordinal) s.(ob_committed_content_event_ordinal) s.(ob_committed_decoded_end_offset)
    s.(ob_output_content_bytes) s.(ob_output_content_seen) s.(ob_output_gap) s.(ob_ignore_next_lf)
    s.(ob_last_event_type).

Definition with_decoded_bytes_seen (v : N) (s : UsageObserver) : UsageObserver :=
  Build_UsageObserver s.(ob_first_content_at) s.(ob_line_buffer) s.(ob_event_data) s.(ob_non_stream_scanner)
    s.(ob_counts) s.(ob_saw_usage) s.(ob_saw_message_stop) s.(ob_observer_overflowed) v
    s.(ob_committed_event_ordinal) s.(ob_committed_content_event_ordinal) s.(ob_committed_decoded_end_offset)
    s.(ob_output_content_bytes) s.(ob_output_content_seen) s.(ob_output_gap) s.(ob_ignore_next_lf)
    s.(ob_last_event_type).

Definition with_committed_event_ordinal (v : N) (s : UsageObserver) : UsageObserver :=
  Build_UsageObserver s.(ob_first_content_at) s.(ob_line_buffer) s.(ob_event_data) s.(ob_non_stream_scanner)
    s.(ob_counts) s.(ob_saw_usage) s.(ob_saw_message_stop) s.(ob_observer_overflowed) s.(ob_decoded_bytes_seen) v
    s.(ob_committed_content_event_ordinal) s.(ob_committed_decoded_end_offset) s.(ob_output_content_bytes)
    s.(ob_output_content_seen) s.(ob_output_gap) s.(ob_ignore_next_lf) s.(ob_last_event_type).

Definition with_committed_content_event_ordinal (v : N) (s : UsageObserver) : UsageObserver :=
  Build_UsageObserver s.(ob_first_content_at) s.(ob_line_buffer) s.(ob_event_data) s.(ob_non_stream_scanner)
    s.(ob_counts) s.(ob_saw_usage) s.(ob_saw_message_stop) s.(ob_observer_overflowed) s.(ob_decoded_bytes_seen)
    s.(ob_committed_event_ordinal) v s.(ob_committed_decoded_end_offset) s.(ob_output_content_bytes)
    s.(ob_output_content_seen) s.(ob_output_gap) s.(ob_ignore_next_lf) s.(ob_last_event_type).

Definition with_committed_decoded_end_offset (v : N) (s : UsageObserver) : UsageObserver :=
  Build_UsageObserver s.(ob_first_content_at) s.(ob_line_buffer) s.(ob_event_data) s.(ob_non_stream_scanner)
    s.(ob_counts) s.(ob_saw_usage) s.(ob_saw_message_stop) s.(ob_observer_overflowed) s.(ob_decoded_bytes_seen)
    s.(ob_committed_event_ordinal) s.(ob_committed_content_event_ordinal) v s.(ob_output_content_bytes)
    s.(ob_output_content_seen) s.(ob_output_gap) s.(ob_ignore_next_lf) s.(ob_last_event_type).

Definition with_output_content_bytes (v : N) (s : UsageObserver) : UsageObserver :=
  Build_UsageObserver s.(ob_first_content_at) s.(ob_line_buffer) s.(ob_event_data) s.(ob_non_stream_scanner)
    s.(ob_counts) s.(ob_saw_usage) s.(ob_saw_message_stop) s.(ob_observer_overflowed) s.(ob_decoded_bytes_seen)
    s.(ob_committed_event_ordinal) s.(ob_committed_content_event_ordinal) s.(ob_committed_decoded_end_offset) v
    s.(ob_output_content_seen) s.(ob_output_gap) s.(ob_ignore_next_lf) s.(ob_last_event_type).

Definition with_output_content_seen (v : bool) (s : UsageObserver) : UsageObserver :=
  Build_UsageObserver s.(ob_first_content_at) s.(ob_line_buffer) s.(ob_event_data) s.(ob_non_stream_scanner)
    s.(ob_counts) s.(ob_saw_usage) s.(ob_saw_message_stop) s.(ob_observer_overflowed) s.(ob_decoded_bytes_seen)
    s.(ob_committed_event_ordinal) s.(ob_committed_content_event_ordinal) s.(ob_committed_decoded_end_offset)
    s.(ob_output_content_bytes) v s.(ob_output_gap) s.(ob_ignore_next_lf) s.(ob_last_event_type).

Definition with_output_gap (v : bool) (s : UsageObserver) : UsageObserver :=
  Build_UsageObserver s.(ob_first_content_at) s.(ob_line_buffer) s.(ob_event_data) s.(ob_non_stream_scanner)
    s.(ob_counts) s.(ob_saw_usage) s.(ob_saw_message_stop) s.(ob_observer_overflowed) s.(ob_decoded_bytes_seen)
    s.(ob_committed_event_ordinal) s.(ob_committed_content_event_ordinal) s.(ob_committed_decoded_end_offset)
    s.(ob_output_content_bytes) s.(ob_output_content_seen) v s.(ob_ignore_next_lf) s.(ob_last_event_type).

Definition with_ignore_next_lf (v : bool) (s : UsageObserver) : UsageObserver :=
  Build_UsageObserver s.(ob_first_content_at) s.(ob_line_buffer) s.(ob_event_data) s.(ob_non_stream_scanner)
    s.(ob_counts) s.(ob_saw_usage) s.(ob_saw_message_stop) s.(ob_observer_overflowed) s.(ob_decoded_bytes_seen)
    s.(ob_committed_event_ordinal) s.(ob_committed_content_event_ordinal) s.(ob_committed_decoded_end_offset)
    s.(ob_output_content_bytes) s.(ob_output_content_seen) s.(ob_output_gap) v s.(ob_last_event_type).

Definition with_last_event_type (v : option bytes) (s : UsageObserver) : UsageObserver :=
  Build_UsageObserver s.(ob_first_content_at) s.(ob_line_buffer) s.(ob_event_data) s.(ob_non_stream_scanner)
    s.(ob_counts) s.(ob_saw_usage) s.(ob_saw_message_stop) s.(ob_observer_overflowed) s.(ob_decoded_bytes_seen)
    s.(ob_committed_event_ordinal) s.(ob_committed_content_event_ordinal) s.(ob_committed_decoded_end_offset)
    s.(ob_output_content_bytes) s.(ob_output_content_seen) s.(ob_output_gap) s.(ob_ignore_next_lf) v.

Definition observer_default : UsageObserver :=
  {| ob_first_content_at := None; ob_line_buffer := []; ob_event_data := []; ob_non_stream_scanner := scanner_default;
     ob_counts := counts_default; ob_saw_usage := false; ob_saw_message_stop := false; ob_observer_overflowed := false;
     ob_decoded_bytes_seen := 0; ob_committed_event_ordinal := 0; ob_committed_content_event_ordinal := 0;
     ob_committed_decoded_end_offset := 0; ob_output_content_bytes := 0; ob_output_content_seen := false;
     ob_output_gap := false; ob_ignore_next_lf := false; ob_last_event_type := None |}.

Record SseUsageEvidence := {
  se_complete_event_ordinal : N;
  se_content_event_ordinal : N;
  se_decoded_end_offset : N;
  se_last_event_type : option bytes;
  se_output_tokens_estimate : option N;
  se_gap : bool;
}.

Record ObservedResponseUsage := {
  or_first_content_at : option Duration;
  or_official : UsageObservation;
  or_sse : option SseUsageEvidence;
  or_upstream_bytes_received : N;
}.

(** The three outcomes of the first [match] of [observe_output_content]. *)
Inductive ContentEvent :=
  | NotContent
  | OpaqueContent
  | ContentFragments (pointers : list string).

Section observer.
Context {V : Type} `{JsonValue V}.

(** [value.get(key).and_then(Value::as_str)] and the like for a pointer. *)
Definition get_str (value : V) (key : string) : option bytes := value_get value key ≫= value_as_str.

Definition pointer_str (value : V) (pointer : string) : option bytes := value_pointer value pointer ≫= value_as_str.

Definition is_str (o : option bytes) (s : string) : bool := bool_decide (o = Some (bs s)).

Definition merge_u64 (value : option V) (target : option N) (observed : bool) : option N * bool :=
  match value ≫= value_as_u64 with
  | Some value => (Some value, true)
  | None => (target, observed)
  end.

Definition merge_usage (usage : V) (self : UsageObserver) : UsageObserver :=
  match value_as_object usage with
  | None => self
  | Some object =>
      let c := self.(ob_counts) in
      let '(input, observed) := merge_u64 (object "input_tokens") c.(tc_input_tokens) false in
      let '(output, observed) := merge_u64 (object "output_tokens") c.(tc_output_tokens) observed in
      let '(creation, observed) :=
        merge_u64 (object "cache_creation_input_tokens") c.(tc_cache_creation_input_tokens) observed in
      let '(read, observed) := merge_u64 (object "cache_read_input_tokens") c.(tc_cache_read_input_tokens) observed in
      with_saw_usage (self.(ob_saw_usage) || observed)
        (with_counts {| tc_input_tokens := input; tc_output_tokens := output;
                        tc_cache_creation_input_tokens := creation; tc_cache_read_input_tokens := read |} self)
  end.

Definition merge_option (usage : option V) (self : UsageObserver) : UsageObserver :=
  match usage with Some usage => merge_usage usage self | None => self end.

Definition observe_json (value : V) (self : UsageObserver) : UsageObserver :=
  let self := if is_str (get_str value "type") "message_stop" then with_saw_message_stop true self else self in
  let self := merge_option (value_get value "usage") self in
  let self := merge_option (value_pointer value "/message/usage") self in
  merge_option (value_pointer value "/delta/usage") self.

Definition content_event (value : V) : ContentEvent :=
  match get_str value "type" with
  | None => NotContent
  | Some event_type =>
      if bool_decide (event_type = bs "content_block_start") then
        let block := pointer_str value "/content_block/type" in
        if is_str block "text" then ContentFragments ["/content_block/text"%string]
        else if is_str block "thinking" then ContentFragments ["/content_block/thinking"%string]
        else if existsb (is_str block)
                  ["tool_use"; "server_tool_use"; "web_search_tool_result"; "code_execution_tool_result";
                   "bash_code_execution_tool_result"; "text_editor_code_execution_tool_result"]%string
        then ContentFragments []
        else OpaqueContent
      else if bool_decide (event_type = bs "content_block_delta") then
        let delta := pointer_str value "/delta/type" in
        if is_str delta "text_delta" then ContentFragments ["/delta/text"%string]
        else if is_str delta "thinking_delta" then ContentFragments ["/delta/thinking"%string]
        else if is_str delta "input_json_delta" then ContentFragments ["/delta/partial_json"%string]
        else if is_str delta "signature_delta" || is_str delta "citations_delta" then ContentFragments []
        else OpaqueContent
      else if starts_with (bs "content_block_") event_type then OpaqueContent
      else NotContent
  end.

(** The turn of the loop over the fragments. *)
Definition observe_fragment (now : Duration) (value : V) (self : UsageObserver) (pointer : string) : UsageObserver :=
  match pointer_str value pointer with
  | None => with_output_gap true self
  | Some fragment =>
      let self := with_output_content_seen true self in
      let self :=
        if negb (is_empty fragment) && negb (is_some self.(ob_first_content_at))
        then with_first_content_at (Some now) self else self in
      match checked_add U64_MAX self.(ob_output_content_bytes) (len fragment) with
      | Some total => with_output_content_bytes total self
      | None => with_output_gap true self
      end
  end.

Definition observe_output_content (now : Duration) (value : V) (self : UsageObserver) : UsageObserver :=
  let count (self : UsageObserver) :=
    with_committed_content_event_ordinal (saturating_add U64_MAX self.(ob_committed_content_event_ordinal) 1) self in
  match content_event value with
  | NotContent => self
  | OpaqueContent => count (with_output_gap true self)
  | ContentFragments pointers => foldl (observe_fragment now value) (count self) pointers
  end.

Definition mark_observer_gap (self : UsageObserver) : UsageObserver :=
  with_event_data [] (with_line_buffer [] (with_output_gap true (with_observer_overflowed true self))).

Definition observe_sse_line (now : Duration) (line : bytes) (self : UsageObserver) : UsageObserver :=
  if is_empty line then
    if is_empty self.(ob_event_data) then self
    else
      let data := self.(ob_event_data) in
      let self := with_event_data [] self in
      let self := with_committed_event_ordinal (saturating_add U64_MAX self.(ob_committed_event_ordinal) 1) self in
      let self := with_committed_decoded_end_offset self.(ob_decoded_bytes_seen) self in
      if bool_decide (data = bs "[DONE]") then self
      else
        match from_slice data with
        | Some value =>
            let self := observe_output_content now value self in
            let self := observe_json value self in
            with_last_event_type (get_str value "type") self
        | None => with_output_gap true self
        end
  else
    match strip_prefix (bs "data:") line with
    | None => self
    | Some data =>
        let data := default data (strip_prefix (bs " ") data) in
        if negb (is_empty self.(ob_event_data)) && (MAX_SSE_OBSERVER_BUFFER <=? len self.(ob_event_data))
        then mark_observer_gap self
        else
          let self :=
            if is_empty self.(ob_event_data) then self else with_event_data (self.(ob_event_data) ++ [LF]) self in
          if MAX_SSE_OBSERVER_BUFFER <? saturating_add USIZE_MAX (len self.(ob_event_data)) (len data)
          then mark_observer_gap self
          else with_event_data (self.(ob_event_data) ++ data) self
    end.

(** The turn of [observe_sse_bytes] on one byte: whether it returns, and the observer. *)
Definition sse_turn (now : Duration) (byte : ascii) (self : UsageObserver) : bool * UsageObserver :=
  let self := with_decoded_bytes_seen (saturating_add U64_MAX self.(ob_decoded_bytes_seen) 1) self in
  let skipped := self.(ob_ignore_next_lf) && bool_decide (byte = LF) in
  let self := if self.(ob_ignore_next_lf) then with_ignore_next_lf false self else self in
  if skipped then (false, self)
  else if bool_decide (byte = LF) || bool_decide (byte = CR) then
    let line := self.(ob_line_buffer) in
    let self := observe_sse_line now line (with_line_buffer [] self) in
    (false, with_ignore_next_lf (bool_decide (byte = CR)) self)
  else if len self.(ob_line_buffer) <? MAX_SSE_OBSERVER_BUFFER
  then (false, with_line_buffer (self.(ob_line_buffer) ++ [byte]) self)
  else (true, mark_observer_gap self).

Fixpoint sse_loop (now : Duration) (l : bytes) (self : UsageObserver) : UsageObserver :=
  match l with
  | [] => self
  | byte :: l =>
      let '(stop, self) := sse_turn now byte self in
      if stop then self else sse_loop now l self
  end.

Definition observe_sse_bytes (now : Duration) (l : bytes) (self : UsageObserver) : UsageObserver :=
  if self.(ob_observer_overflowed) then self else sse_loop now l self.

Definition observe_non_stream_body (body : bytes) (self : UsageObserver) : UsageObserver :=
  match from_slice body with
  | None => self
  | Some value =>
      let self := observe_json value self in
      if self.(ob_saw_usage) then with_saw_message_stop true self else self
  end.

(** [if let Ok(usage) = from_slice(&capture) { self.merge_usage(&usage) }]. *)
Definition merge_capture (self : UsageObserver) (capture : bytes) : UsageObserver := merge_option (from_slice capture) self.

Definition observe_non_stream_bytes (l : bytes) (self : UsageObserver) : UsageObserver :=
  let '(captures, scanner) := scan l self.(ob_non_stream_scanner) in
  let self := with_non_stream_scanner scanner self in
  let self := with_observer_overflowed (self.(ob_observer_overflowed) || scanner.(js_overflowed)) self in
  foldl merge_capture self captures.

End observer.

Definition unreachable_usage : UsageObservation :=
  {| uo_source := Official; uo_completeness := Unknown; uo_counts := counts_default; uo_algorithm_version := None |}.

Definition finish (self : UsageObserver) : UsageObservation :=
  let completeness :=
    if negb self.(ob_saw_usage) then Unknown else if self.(ob_saw_message_stop) then Complete else Partial in
  let counts := if bool_decide (completeness = Unknown) then counts_default else self.(ob_counts) in
  match UsageObservation_new Official completeness counts None with
  | Ok observation => observation
  | Err _ =>
      match UsageObservation_new Official Unknown counts_default None with
      | Ok observation => observation
      | Err _ => unreachable_usage
      end
  end.

Definition stop_when_complete (body_complete : bool) (self : UsageObserver) : UsageObserver :=
  if body_complete && self.(ob_saw_usage) then with_saw_message_stop true self else self.

Definition finish_non_stream (body_complete : bool) (self : UsageObserver) : UsageObservation :=
  finish (stop_when_complete body_complete self).

Definition finish_non_stream_observed (body_complete : bool) (self : UsageObserver) : ObservedResponseUsage :=
  let self := stop_when_complete body_complete self in
  {| or_first_content_at := self.(ob_first_content_at); or_official := finish self; or_sse := None;
     or_upstream_bytes_received := 0 |}.

Definition finish_observed (self : UsageObserver) : ObservedResponseUsage :=
  let evidence :=
    {| se_complete_event_ordinal := self.(ob_committed_event_ordinal);
       se_content_event_ordinal := self.(ob_committed_content_event_ordinal);
       se_decoded_end_offset := self.(ob_committed_decoded_end_offset);
       se_last_event_type := self.(ob_last_event_type);
       se_output_tokens_estimate :=
         if self.(ob_output_content_seen) && negb self.(ob_output_gap)
         then Some (saturating_add U64_MAX self.(ob_output_content_bytes) 3 / 4) else None;
       se_gap := self.(ob_output_gap) || self.(ob_observer_overflowed) |} in
  {| or_first_content_at := self.(ob_first_content_at); or_official := finish self; or_sse := Some evidence;
     or_upstream_bytes_received := 0 |}.

(** ** The encoded observer *)
Record UsageSink := {
  us_observer : UsageObserver;
  us_streaming : bool;
  us_decoded_bytes : N;
}.

Definition sink_new (streaming : bool) : UsageSink :=
  {| us_observer := observer_default; us_streaming := streaming; us_decoded_bytes := 0 |}.

Definition sink_finish (body_complete : bool) (self : UsageSink) : ObservedResponseUsage :=
  if self.(us_streaming) then finish_observed self.(us_observer)
  else finish_non_stream_observed body_complete self.(us_observer).

(** [<UsageSink as io::Write>::write]: whether it accepted the bytes. *)
Definition sink_write {V} `{JsonValue V} (now : Duration) (l : bytes) (self : UsageSink) : bool * UsageSink :=
  match checked_add USIZE_MAX self.(us_decoded_bytes) (len l) with
  | None => (false, self)
  | Some total =>
      if MAX_USAGE_DECODED_BYTES <? total then (false, self)
      else
        (true, {| us_observer := if self.(us_streaming) then observe_sse_bytes now l self.(us_observer)
                                 else observe_non_stream_bytes l self.(us_observer);
                  us_streaming := self.(us_streaming); us_decoded_bytes := total |})
  end.

(** [GzDecoder<UsageSink>]: a decoder owns its sink. [gz_write_all] answers
    whether the write went well; [gz_finish] gives the sink back. *)
Class GzDecoder (D : Type) := {
  gz_new : UsageSink → D;
  gz_write_all : Duration → bytes → D → bool * D;
  gz_get_ref : D → UsageSink;
  gz_finish : D → option UsageSink;
}.

Inductive EncodedUsageObserverInner (D : Type) :=
  | Identity (sink : UsageSink)
  | Gzip (decoder : D) (failed : bool)
  | Unsupported (streaming : bool).
Arguments Identity {D}.
Arguments Gzip {D}.
Arguments Unsupported {D}.

Record EncodedUsageObserver (D : Type) := {
  eo_inner : EncodedUsageObserverInner D;
  eo_upstream_bytes_received : N;
}.
Arguments Build_EncodedUsageObserver {D}.
Arguments eo_inner {D}.
Arguments eo_upstream_bytes_received {D}.

Definition unreachable_observed (streaming : bool) : ObservedResponseUsage :=
  {| or_first_content_at := None; or_official := unreachable_usage;
     or_sse := if streaming then
                 Some {| se_complete_event_ordinal := 0; se_content_event_ordinal := 0; se_decoded_end_offset := 0;
                         se_last_event_type := None; se_output_tokens_estimate := None; se_gap := true |}
               else None;
     or_upstream_bytes_received := 0 |}.

Section encoded.
Context {D : Type} `{GzDecoder D} {V : Type} `{JsonValue V}.

Definition encoded_new (content_encoding : option bytes) (streaming : bool) : EncodedUsageObserver D :=
  let sink := sink_new streaming in
  let inner :=
    match trim <$> content_encoding with
    | None => Identity sink
    | Some encoding =>
        if is_empty encoding || bool_decide (encoding = bs "identity") then Identity sink
        else if eq_ignore_ascii_case encoding (bs "gzip") then Gzip (gz_new sink) false
        else Unsupported streaming
    end in
  {| eo_inner := inner; eo_upstream_bytes_received := 0 |}.

(** [write_all] of a sink writes once: a write accepts everything or fails. *)
Definition observe (now : Duration) (l : bytes) (self : EncodedUsageObserver D) : EncodedUsageObserver D :=
  let received := saturating_add U64_MAX self.(eo_upstream_bytes_received) (len l) in
  let inner :=
    match self.(eo_inner) with
    | Identity sink => if is_empty l then Identity sink else Identity (sink_write now l sink).2
    | Gzip decoder false =>
        let '(written, decoder) := gz_write_all now l decoder in Gzip decoder (negb written)
    | Gzip decoder true => Gzip decoder true
    | Unsupported streaming => Unsupported streaming
    end in
  {| eo_inner := inner; eo_upstream_bytes_received := received |}.

Definition encoded_finish (body_complete : bool) (self : EncodedUsageObserver D) : ObservedResponseUsage :=
  let observed :=
    match self.(eo_inner) with
    | Identity sink => sink_finish body_complete sink
    | Gzip decoder failed =>
        let streaming := (gz_get_ref decoder).(us_streaming) in
        if failed then unreachable_observed streaming
        else if body_complete then
          match gz_finish decoder with
          | None => unreachable_observed streaming
          | Some sink => sink_finish true sink
          end
        else sink_finish false (gz_get_ref decoder)
    | Unsupported streaming => unreachable_observed streaming
    end in
  {| or_first_content_at := observed.(or_first_content_at); or_official := observed.(or_official);
     or_sse := observed.(or_sse); or_upstream_bytes_received := self.(eo_upstream_bytes_received) |}.

End encoded.

(** ** A sample of the JSON parameter

    A handful of documents under the names the examples send. *)
Inductive SampleValue :=
  | SampleText (text : string)
  | SampleNumber (n : N)
  | SampleEmpty
  | SampleField (key : string) (value rest : SampleValue).

Fixpoint sample_get (object : SampleValue) (key : string) : option SampleValue :=
  match object with
  | SampleField k value rest => if decide (k = key) then Some value else sample_get rest key
  | _ => None
  end.

Definition sample_documents : SampleValue :=
  SampleField "usage-7"
    (SampleField "type" (SampleText "message_delta")
      (SampleField "usage" (SampleField "output_tokens" (SampleNumber 7) SampleEmpty) SampleEmpty))
  (SampleField "stop" (SampleField "type" (SampleText "message_stop") SampleEmpty) SampleEmpty).

#[export] Instance sample_json : JsonValue SampleValue := {|
  from_slice := λ l, sample_get sample_documents (String.string_of_list_ascii l);
  value_get := sample_get;
  value_pointer := λ _ _, None;
  value_as_str := λ v, match v with SampleText t => Some (bs t) | _ => None end;
  value_as_u64 := λ v, match v with SampleNumber n => Some n | _ => None end;
  value_as_object := λ v, match v with SampleEmpty | SampleField _ _ _ => Some (sample_get v) | _ => None end;
|}.

(** ** Equality up to the instant of the first content *)
Definition anon (s : UsageObserver) : UsageObserver := with_first_content_at ((λ _, 0) <$> s.(ob_first_content_at)) s.

(** The fragments of a stream, each with the instant it is observed at. *)
Definition observe_fragments {V} `{JsonValue V} (fragments : list (Duration * bytes)) (s : UsageObserver) : UsageObserver :=
  foldl (λ s fragment, observe_sse_bytes fragment.1 fragment.2 s) s fragments.

(** ** Lemmas *)
Section observer_lemmas.
Context {V : Type} `{JsonValue V}.
Implicit Types (s : UsageObserver) (value : V).

(** *** No step reads the instant *)

Lemma anon_merge_option usage s : anon (merge_option usage s) = merge_option usage (anon s).
Proof.
  destruct usage as [usage|]; [|done]. simpl. unfold merge_usage. destruct (value_as_object usage); [|done]. simpl.
  by repeat destruct (merge_u64 _ _ _).
Qed.

Lemma anon_observe_json value s : anon (observe_json value s) = observe_json value (anon s).
Proof. unfold observe_json. rewrite !anon_merge_option. by destruct (is_str _ _). Qed.

Lemma anon_fragment now value s pointer :
  anon (observe_fragment now value s pointer) = observe_fragment 0 value (anon s) pointer.
Proof.
  unfold observe_fragment. destruct (pointer_str value pointer) as [fragment|]; [|done]. simpl.
  destruct s as [first ? ? ? ? ? ? ? ? ? ? ? total]. simpl.
  destruct fragment, first; simpl; by destruct (checked_add _ _ _).
Qed.

Lemma anon_fragments now value pointers s :
  anon (foldl (observe_fragment now value) s pointers) = foldl (observe_fragment 0 value) (anon s) pointers.
Proof. revert s. induction pointers as [|p l IH]; intros s; simpl; [done|]. by rewrite IH, anon_fragment. Qed.

Lemma anon_output now value s : anon (observe_output_content now value s) = observe_output_content 0 value (anon s).
Proof. unfold observe_output_content. destruct (content_event value); [done..|]. by rewrite anon_fragments. Qed.

Lemma anon_line now line s : anon (observe_sse_line now line s) = observe_sse_line 0 line (anon s).
Proof.
  unfold observe_sse_line. destruct (is_empty line).
  - simpl. destruct (is_empty _); [done|]. destruct (bool_decide _); [done|].
    destruct (from_slice _) as [value|]; [|done].
    match goal with |- anon (with_last_event_type ?t ?s) = _ => change (anon (with_last_event_type t s)) with (with_last_event_type t (anon s)) end.
    by rewrite anon_observe_json, anon_output.
  - destruct (strip_prefix _ _) as [data|]; [|done]. simpl. destruct (negb _ && _); [done|].
    destruct (is_empty (ob_event_data s)); simpl; by destruct (_ <? _).
Qed.

Lemma anon_turn now byte s : prod_map id anon (sse_turn now byte s) = sse_turn 0 byte (anon s).
Proof.
  unfold sse_turn. simpl. destruct (ob_ignore_next_lf s); simpl; destruct (bool_decide (byte = LF)), (bool_decide (byte = CR)),
    (len (ob_line_buffer s) <? MAX_SSE_OBSERVER_BUFFER); simpl; try done; unfold prod_map; simpl; f_equal;
    match goal with |- anon (with_ignore_next_lf ?t ?s) = _ => change (anon (with_ignore_next_lf t s)) with (with_ignore_next_lf t (anon s)) end;
    by rewrite anon_line.
Qed.

Lemma anon_loop now l s : anon (sse_loop now l s) = sse_loop 0 l (anon s).
Proof.
  revert s. induction l as [|byte l IH]; intros s; [done|]. simpl. rewrite <- (anon_turn now).
  destruct (sse_turn now byte s) as [[] s']; simpl; [done|apply IH].
Qed.

Lemma anon_observe now l s : anon (observe_sse_bytes now l s) = observe_sse_bytes 0 l (anon s).
Proof. unfold observe_sse_bytes. simpl. destruct (ob_observer_overflowed s); [done|apply anon_loop]. Qed.

(** *** What the observation of a value leaves alone *)

(** The fields that carry the stream from byte to byte, and the event ordinal. *)
Definition carrier s :=
  (s.(ob_observer_overflowed), s.(ob_decoded_bytes_seen), s.(ob_line_buffer), s.(ob_event_data), s.(ob_ignore_next_lf),
   s.(ob_committed_event_ordinal)).

Lemma carrier_merge_option usage s : carrier (merge_option usage s) = carrier s.
Proof.
  destruct usage as [usage|]; [|done]. simpl. unfold merge_usage. destruct (value_as_object usage); [|done].
  by repeat destruct (merge_u64 _ _ _).
Qed.

Lemma carrier_observe_json value s : carrier (observe_json value s) = carrier s.
Proof. unfold observe_json. rewrite !carrier_merge_option. by destruct (is_str _ _). Qed.

Lemma carrier_output now value s : carrier (observe_output_content now value s) = carrier s.
Proof.
  unfold observe_output_content. destruct (content_event value) as [| |pointers]; [done..|].
  match goal with |- carrier (foldl _ ?s0 _) = _ => change (carrier s) with (carrier s0); generalize s0 end.
  induction pointers as [|p l IH]; intros s'; simpl; [done|]. rewrite IH. unfold observe_fragment.
  destruct (pointer_str value p); [|done]. simpl. by destruct (negb _ && _); simpl; destruct (checked_add _ _ _).
Qed.

Definition observe_value (now : Duration) value s : UsageObserver :=
  with_last_event_type (get_str value "type") (observe_json value (observe_output_content now value s)).

Lemma carrier_value now value s : carrier (observe_value now value s) = carrier s.
Proof.
  unfold observe_value. change (carrier (with_last_event_type ?t ?s)) with (carrier s).
  by rewrite carrier_observe_json, carrier_output.
Qed.

(** *** Overflow is final *)

Lemma overflow_line now line s : ob_observer_overflowed s = true → ob_observer_overflowed (observe_sse_line now line s) = true.
Proof.
  intros Ho. unfold observe_sse_line. destruct (is_empty line).
  - destruct (is_empty _); [done|]. simpl. destruct (bool_decide _); [done|]. destruct (from_slice _) as [value|]; [|done].
    match goal with |- ob_observer_overflowed (with_last_event_type _ (observe_json _ (observe_output_content _ _ ?s))) = _ =>
      pose proof (carrier_value now value s) as Hc end.
    unfold carrier, observe_value in Hc. injection Hc as Hc _ _ _ _ _. exact (eq_trans Hc Ho).
  - destruct (strip_prefix _ _); [|done]. destruct (negb _ && _); [done|].
    destruct (is_empty (ob_event_data s)); simpl; by destruct (_ <? _).
Qed.

Lemma overflow_turn now byte s :
  ob_observer_overflowed s = true ∨ (sse_turn now byte s).1 = true → ob_observer_overflowed (sse_turn now byte s).2 = true.
Proof.
  unfold sse_turn. simpl. destruct (ob_ignore_next_lf s); simpl; destruct (bool_decide (byte = LF)), (bool_decide (byte = CR)),
    (len (ob_line_buffer s) <? MAX_SSE_OBSERVER_BUFFER); simpl; intros [Ho|Hs]; try done; by apply overflow_line.
Qed.

Lemma overflow_loop now l s : ob_observer_overflowed s = true → ob_observer_overflowed (sse_loop now l s) = true.
Proof.
  revert s. induction l as [|byte l IH]; intros s Ho; simpl; [done|].
  pose proof (overflow_turn now byte s (or_introl Ho)). destruct (sse_turn now byte s) as [[] s']; [done|auto].
Qed.

(** A loop that ends without overflow did not return early. *)
Lemma sse_loop_app now a b s :
  ob_observer_overflowed (sse_loop now a s) = false → sse_loop now (a ++ b) s = sse_loop now b (sse_loop now a s).
Proof.
  revert s. induction a as [|byte a IH]; intros s Ho; simpl; [done|]. simpl in Ho.
  pose proof (overflow_turn now byte s) as Ht. destruct (sse_turn now byte s) as [[] s']; [|by apply IH].
  simpl in *. rewrite Ht in Ho by auto. done.
Qed.

Lemma sse_loop_app_overflow now a b s :
  ob_observer_overflowed (sse_loop now a s) = true → ob_observer_overflowed (sse_loop now (a ++ b) s) = true.
Proof.
  revert s. induction a as [|byte a IH]; intros s Ho; simpl in *; [by apply overflow_loop|].
  destruct (sse_turn now byte s) as [[] s']; [done|by apply IH].
Qed.

Lemma observe_app now a b s :
  ob_observer_overflowed (observe_sse_bytes now (a ++ b) s) =
    ob_observer_overflowed (observe_sse_bytes now b (observe_sse_bytes now a s)) ∧
  (ob_observer_overflowed (observe_sse_bytes now (a ++ b) s) = false →
     observe_sse_bytes now (a ++ b) s = observe_sse_bytes now b (observe_sse_bytes now a s)).
Proof.
  unfold observe_sse_bytes. destruct (ob_observer_overflowed s) eqn:Es; [by rewrite !Es|].
  destruct (ob_observer_overflowed (sse_loop now a s)) eqn:Ea.
  - rewrite (sse_loop_app_overflow _ _ _ _ Ea), Ea. done.
  - by rewrite sse_loop_app.
Qed.

Lemma observe_fragments_anon fragments s :
  anon (observe_fragments fragments s) = observe_fragments ((λ f : Duration * bytes, (0, f.2)) <$> fragments) (anon s).
Proof.
  revert s. induction fragments as [|[t l] fragments IH]; intros s; [done|]. unfold observe_fragments in *. simpl.
  by rewrite IH, anon_observe.
Qed.

Lemma observe_fragments_concat fragments s :
  ob_observer_overflowed (observe_sse_bytes 0 (concat fragments.*2) s) =
    ob_observer_overflowed (observe_fragments ((λ f : Duration * bytes, (0, f.2)) <$> fragments) s) ∧
  (ob_observer_overflowed (observe_sse_bytes 0 (concat fragments.*2) s) = false →
     observe_sse_bytes 0 (concat fragments.*2) s = observe_fragments ((λ f : Duration * bytes, (0, f.2)) <$> fragments) s).
Proof.
  revert s. induction fragments as [|[t l] fragments IH]; intros s.
  - simpl. assert (observe_sse_bytes 0 [] s = s) as -> by (unfold observe_sse_bytes; by destruct (ob_observer_overflowed s)).
    done.
  - simpl. destruct (observe_app 0 l (concat fragments.*2) s) as [E1 E2].
    destruct (IH (observe_sse_bytes 0 l s)) as [F1 F2]. unfold observe_fragments in *. simpl.
    split; [etrans; [exact E1|exact F1]|]. intros Ho. etrans; [exact (E2 Ho)|]. apply F2. etrans; [symmetry; exact E1|exact Ho].
Qed.

(** *** A line and an event *)

Lemma saturating_add_add max a b c : saturating_add max (saturating_add max a b) c = saturating_add max a (b + c).
Proof. unfold saturating_add. lia. Qed.

(** The bytes of a line are stored. *)
Lemma sse_loop_line now line rest s :
  Forall (λ c, c ≠ LF ∧ c ≠ CR) line → line ≠ [] → len s.(ob_line_buffer) + len line <= MAX_SSE_OBSERVER_BUFFER →
  sse_loop now (line ++ rest) s =
  sse_loop now rest (with_line_buffer (s.(ob_line_buffer) ++ line)
    (with_ignore_next_lf false (with_decoded_bytes_seen (saturating_add U64_MAX s.(ob_decoded_bytes_seen) (len line)) s))).
Proof.
  revert s. induction line as [|c line IH]; intros s Hall Hne Hlen; [done|].
  apply Forall_cons in Hall as [[Hlf Hcr] Hall]. simpl.
  assert (sse_turn now c s = (false, with_line_buffer (s.(ob_line_buffer) ++ [c])
    (with_ignore_next_lf false (with_decoded_bytes_seen (saturating_add U64_MAX s.(ob_decoded_bytes_seen) 1) s)))) as ->.
  { unfold sse_turn. rewrite !bool_decide_eq_false_2 by done. rewrite andb_false_r. simpl.
    assert ((len (ob_line_buffer s) <? MAX_SSE_OBSERVER_BUFFER) = true) as Hlt.
    { apply N.ltb_lt. unfold len in *. simpl length in Hlen. lia. }
    destruct (ob_ignore_next_lf s) eqn:Ei; simpl; rewrite Hlt; [done|]. f_equal. by destruct s; simpl in *; subst. }
  destruct line as [|c' line].
  - simpl. done.
  - rewrite IH; [|done|done|].
    + assert (1 + len (c' :: line) = len (c :: c' :: line)) as Hl by (unfold len; simpl length; lia).
      cbn -[len]. by rewrite saturating_add_add, Hl, <- app_assoc.
    + simpl. unfold len in *. rewrite length_app. simpl length in *. lia.
Qed.

Lemma decoded_line now line s : ob_decoded_bytes_seen (observe_sse_line now line s) = ob_decoded_bytes_seen s.
Proof.
  unfold observe_sse_line. destruct (is_empty line).
  - destruct (is_empty _); [done|]. simpl. destruct (bool_decide _); [done|]. destruct (from_slice _) as [value|]; [|done].
    match goal with |- ob_decoded_bytes_seen (with_last_event_type _ (observe_json _ (observe_output_content _ _ ?s))) = _ =>
      pose proof (carrier_value now value s) as Hc end.
    unfold carrier, observe_value in Hc. injection Hc as _ Hc _ _ _ _. exact Hc.
  - destruct (strip_prefix _ _); [|done]. destruct (negb _ && _); [done|].
    destruct (is_empty (ob_event_data s)); simpl; by destruct (_ <? _).
Qed.

Lemma with_decoded_id d s : s.(ob_decoded_bytes_seen) = d → with_decoded_bytes_seen d s = s.
Proof. intros <-. by destruct s. Qed.

Lemma with_decoded_line now line d s :
  s.(ob_decoded_bytes_seen) = d → with_decoded_bytes_seen d (observe_sse_line now line s) = observe_sse_line now line s.
Proof. intros Hd. apply with_decoded_id. by rewrite decoded_line. Qed.

Lemma with_ignore_id b s : s.(ob_ignore_next_lf) = b → with_ignore_next_lf b s = s.
Proof. intros <-. by destruct s. Qed.

(** A line end, in any of its three forms, observes the line that is stored. *)
Lemma sse_loop_eol now eol rest s :
  eol ∈ [[LF]; [CR]; CRLF] → (s.(ob_ignore_next_lf) = true → eol ≠ [LF]) →
  sse_loop now (eol ++ rest) s =
  sse_loop now rest (with_ignore_next_lf (bool_decide (eol = [CR]))
    (with_decoded_bytes_seen (saturating_add U64_MAX s.(ob_decoded_bytes_seen) (len eol))
      (observe_sse_line now s.(ob_line_buffer)
        (with_line_buffer [] (with_ignore_next_lf false
          (with_decoded_bytes_seen (saturating_add U64_MAX s.(ob_decoded_bytes_seen) 1) s)))))).
Proof.
  intros Heol Hig.
  assert (∀ c, c = CR ∨ c = LF → (s.(ob_ignore_next_lf) = true → c ≠ LF) → sse_turn now c s =
    (false, with_ignore_next_lf (bool_decide (c = CR)) (observe_sse_line now s.(ob_line_buffer)
        (with_line_buffer [] (with_ignore_next_lf false
          (with_decoded_bytes_seen (saturating_add U64_MAX s.(ob_decoded_bytes_seen) 1) s)))))) as Hturn.
  { intros c Hc Hcl. unfold sse_turn. simpl.
    assert ((ob_ignore_next_lf s && bool_decide (c = LF)) = false) as ->.
    { destruct (ob_ignore_next_lf s); [|done]. simpl. apply bool_decide_eq_false. auto. }
    assert ((bool_decide (c = LF) || bool_decide (c = CR)) = true) as -> by (by destruct Hc as [->| ->]).
    destruct (ob_ignore_next_lf s) eqn:Ei; simpl; [done|]. do 3 f_equal. by rewrite with_ignore_id. }
  repeat (apply elem_of_cons in Heol as [->|Heol]); [..|by apply not_elem_of_nil in Heol]; unfold CRLF; simpl.
  - rewrite Hturn; [|by right|intros Hi _; by apply Hig]. by rewrite with_decoded_line.
  - rewrite Hturn; [|by left|done]. by rewrite with_decoded_line.
  - rewrite Hturn; [|by left|done]. unfold sse_turn at 1. simpl. rewrite decoded_line. simpl.
    by rewrite saturating_add_add.
Qed.

(** An event of one data line is in the buffer when its line has ended. *)
Lemma observe_data_line now payload s :
  s.(ob_event_data) = [] → len payload <= MAX_SSE_OBSERVER_BUFFER →
  observe_sse_line now (bs "data: " ++ payload) s = with_event_data payload s.
Proof.
  intros He Hlen. unfold observe_sse_line. simpl. rewrite He. simpl. rewrite He. rewrite (proj2 (N.ltb_ge _ _)); [done|].
  unfold saturating_add. etrans; [apply N.le_min_l|]. done.
Qed.

Lemma observe_commit now payload value s :
  s.(ob_event_data) = payload → payload ≠ [] → payload ≠ bs "[DONE]" → from_slice payload = Some value →
  observe_sse_line now [] s =
  observe_value now value (with_committed_decoded_end_offset s.(ob_decoded_bytes_seen)
    (with_committed_event_ordinal (saturating_add U64_MAX s.(ob_committed_event_ordinal) 1) (with_event_data [] s))).
Proof.
  intros <- Hne Hdone Hv. unfold observe_sse_line. simpl. destruct (is_empty _) eqn:E; [by apply is_empty_spec in E|].
  by rewrite bool_decide_eq_false_2, Hv.
Qed.

(** A second data line that does not fit marks the gap. *)
Lemma observe_data_overflow now payload s :
  s.(ob_event_data) ≠ [] → MAX_SSE_OBSERVER_BUFFER < len s.(ob_event_data) + 1 + len payload →
  len s.(ob_event_data) <= MAX_SSE_OBSERVER_BUFFER → len payload <= MAX_SSE_OBSERVER_BUFFER →
  observe_sse_line now (bs "data: " ++ payload) s = mark_observer_gap s ∨
  observe_sse_line now (bs "data: " ++ payload) s = mark_observer_gap (with_event_data (s.(ob_event_data) ++ [LF]) s).
Proof.
  intros Hne Hgt Hle1 Hle2. unfold observe_sse_line. simpl. destruct (is_empty _) eqn:E; [by apply is_empty_spec in E|].
  simpl. destruct (_ <=? _); [by left|]. right. rewrite (proj2 (N.ltb_lt _ _)); [done|].
  unfold saturating_add, len in *. simpl. rewrite length_app. simpl.
  assert (USIZE_MAX = 18446744073709551615) as -> by done. unfold MAX_SSE_OBSERVER_BUFFER in *. lia.
Qed.

(** Feeding the line of an event and its end. *)
Definition event_wire (payload eol : bytes) : bytes := bs "data: " ++ payload ++ eol ++ eol.

(** The observer when the event is committed at the offset [offset]. *)
Definition committed_at (offset : N) s : UsageObserver :=
  with_committed_decoded_end_offset offset
    (with_committed_event_ordinal (saturating_add U64_MAX s.(ob_committed_event_ordinal) 1)
       (with_ignore_next_lf false (with_decoded_bytes_seen offset s))).

Lemma sse_loop_event now s payload eol value :
  s.(ob_line_buffer) = [] → s.(ob_event_data) = [] → eol ∈ [[LF]; [CR]; CRLF] →
  Forall (λ c, c ≠ LF ∧ c ≠ CR) payload → payload ≠ [] → payload ≠ bs "[DONE]" →
  len payload + 6 <= MAX_SSE_OBSERVER_BUFFER → from_slice payload = Some value →
  let received := saturating_add U64_MAX s.(ob_decoded_bytes_seen) in
  let wire := event_wire payload eol in
  let offset := received (len wire - (if decide (eol = CRLF) then 1 else 0)) in
  sse_loop now wire s =
  with_ignore_next_lf (bool_decide (eol = [CR])) (with_decoded_bytes_seen (received (len wire))
    (observe_value now value (committed_at offset s))).
Proof.
  intros Hl He Heol Hp Hne Hdone Hlen Hv received wire offset.
  unfold wire, event_wire. rewrite app_assoc.
  assert (Forall (λ c, c ≠ LF ∧ c ≠ CR) (bs "data: ")) as Hd by (apply (bool_decide_eq_true _); by vm_compute).
  assert (len (bs "data: " ++ payload) = len payload + 6) as Hlp by (unfold len; rewrite length_app; simpl; lia).
  rewrite sse_loop_line; [|by apply Forall_app|done|rewrite Hl, Hlp; done].
  rewrite sse_loop_eol by done.
  match goal with |- context [observe_sse_line now (ob_line_buffer (with_line_buffer ?l ?a)) ?b] =>
    change (ob_line_buffer (with_line_buffer l a)) with l end.
  rewrite Hl, app_nil_l, observe_data_line by (done || lia).
  rewrite <- (app_nil_r eol), sse_loop_eol; [|done|by simpl; intros ?%bool_decide_eq_true ->].
  rewrite app_nil_r. change (sse_loop now [] ?x) with x.
  assert (len wire = len payload + 6 + len eol + len eol) as Hw.
  { unfold wire, event_wire. unfold len in *. rewrite !length_app in *. lia. }
  assert (1 <= len eol ∧ (if decide (eol = CRLF) then 1 else 0) + 1 = len eol) as [_ Hone].
  { repeat (apply elem_of_cons in Heol as [->|Heol]); [done..|by apply not_elem_of_nil in Heol]. }
  rewrite <- app_assoc in *. fold (event_wire payload eol). fold wire.
  destruct s as [? lb ed ? ? ? ? ? d]. cbn -[len observe_sse_line] in *. subst lb ed.
  rewrite (observe_commit now payload value) by done. cbn -[len]. rewrite !Hlp, !saturating_add_add.
  assert (∀ n, n + (len eol + 1) = n + len eol + len eol - (if decide (eol = CRLF) then 1 else 0)) as Hoff by (intros n; lia).
  f_equal. unfold offset, received. rewrite Hw. f_equal; [f_equal; lia|]. unfold committed_at. by rewrite Hoff.
Qed.

(** A stored data line is observed at its line feed. *)
Lemma sse_loop_data now payload s :
  s.(ob_line_buffer) = [] → Forall (λ c, c ≠ LF ∧ c ≠ CR) payload → len payload + 6 <= MAX_SSE_OBSERVER_BUFFER →
  ∃ s', (∀ rest, sse_loop now (bs "data: " ++ payload ++ [LF] ++ rest) s =
          sse_loop now rest (with_ignore_next_lf false (observe_sse_line now (bs "data: " ++ payload) s'))) ∧
        s'.(ob_line_buffer) = [] ∧ s'.(ob_event_data) = s.(ob_event_data) ∧
        s'.(ob_committed_event_ordinal) = s.(ob_committed_event_ordinal).
Proof.
  intros Hl Hp Hlen.
  assert (Forall (λ c, c ≠ LF ∧ c ≠ CR) (bs "data: ")) as Hd by (apply (bool_decide_eq_true _); by vm_compute).
  eexists. split; [intros rest; rewrite (app_assoc (bs "data: ")), sse_loop_line; [|by apply Forall_app|done|]|].
  - rewrite sse_loop_eol; [|by apply list_elem_of_here|done]. rewrite with_decoded_line by done.
    match goal with |- context [observe_sse_line now (ob_line_buffer (with_line_buffer ?l ?a)) ?b] =>
      change (ob_line_buffer (with_line_buffer l a)) with l end.
    rewrite Hl. reflexivity.
  - rewrite Hl. unfold len in *. rewrite length_app. simpl. lia.
  - done.
Qed.

Lemma sse_loop_overflow now first second s :
  s.(ob_line_buffer) = [] → s.(ob_event_data) = [] → Forall (λ c, c ≠ LF ∧ c ≠ CR) (first ++ second) → first ≠ [] →
  len first + 6 <= MAX_SSE_OBSERVER_BUFFER → len second + 6 <= MAX_SSE_OBSERVER_BUFFER →
  MAX_SSE_OBSERVER_BUFFER < len first + 1 + len second →
  ∃ s', (∀ rest, sse_loop now ((bs "data: " ++ first ++ [LF] ++ bs "data: " ++ second ++ [LF]) ++ rest) s = sse_loop now rest s') ∧
        s'.(ob_observer_overflowed) = true ∧ s'.(ob_line_buffer) = [] ∧ s'.(ob_event_data) = [] ∧
        s'.(ob_committed_event_ordinal) = s.(ob_committed_event_ordinal).
Proof.
  intros Hl He [Hf Hs]%Forall_app Hne Hl1 Hl2 Hgt.
  destruct (sse_loop_data now first s Hl Hf Hl1) as (s1 & E1 & Hlb1 & Hed1 & Ho1).
  rewrite observe_data_line in E1 by (congruence || lia).
  destruct (sse_loop_data now second (with_ignore_next_lf false (with_event_data first s1)) Hlb1 Hs Hl2) as (s2 & E2 & Hlb2 & Hed2 & Ho2).
  simpl in Hed2, Ho2.
  assert (∀ rest, sse_loop now ((bs "data: " ++ first ++ [LF] ++ bs "data: " ++ second ++ [LF]) ++ rest) s =
    sse_loop now rest (with_ignore_next_lf false (observe_sse_line now (bs "data: " ++ second) s2))) as E.
  { intros rest. rewrite <- E2, <- E1. by rewrite <- !app_assoc. }
  eexists. split; [exact E|].
  destruct (observe_data_overflow now second s2) as [->| ->]; rewrite ?Hed2; try done; try lia; split_and!; simpl; congruence.
Qed.

End observer_lemmas.

(** ** Theorems *)

(** C38: the stream observer does not depend on how the stream is cut. Whether it
    overflows is the same for every division of the bytes into fragments, at
    whatever instants they come; and while it does not, so is its whole state
    (counts, event and byte offsets, estimate, gap, pending line) except which
    instant it took for the first content. *)
Theorem sse_fragment_independent {V} `{JsonValue V} (fragments : list (Duration * bytes)) (now : Duration) (s : UsageObserver) :
  let whole := observe_sse_bytes now (concat fragments.*2) s in
  let parts := observe_fragments fragments s in
  whole.(ob_observer_overflowed) = parts.(ob_observer_overflowed) ∧
  (whole.(ob_observer_overflowed) = false → anon whole = anon parts).
Proof.
  intros whole parts. destruct (observe_fragments_concat fragments (anon s)) as [E1 E2].
  rewrite <- (anon_observe now), <- observe_fragments_anon in E1, E2. split; [exact E1|exact E2].
Qed.

(** an event is observed once, when its blank line arrives. At a boundary
    between events, a data line whose payload is a value, closed by LF, CR or
    CRLF, leaves the observer as the observation of that value does, with the
    event ordinal one higher and the end offset at the line end that committed
    it; and again at a boundary. *)
Theorem sse_event_committed {V} `{JsonValue V} (now : Duration) (s : UsageObserver) (payload eol : bytes) (value : V) :
  s.(ob_observer_overflowed) = false → s.(ob_line_buffer) = [] → s.(ob_event_data) = [] →
  eol ∈ [[LF]; [CR]; CRLF] →
  Forall (λ c, c ≠ LF ∧ c ≠ CR) payload → payload ≠ [] → payload ≠ bs "[DONE]" →
  len payload + 6 <= MAX_SSE_OBSERVER_BUFFER →
  from_slice payload = Some value →
  let received := saturating_add U64_MAX s.(ob_decoded_bytes_seen) in
  let wire := event_wire payload eol in
  let offset := received (len wire - (if decide (eol = CRLF) then 1 else 0)) in
  let s' := observe_sse_bytes now wire s in
  s' = with_ignore_next_lf (bool_decide (eol = [CR])) (with_decoded_bytes_seen (received (len wire))
         (observe_value now value (committed_at offset s))) ∧
  s'.(ob_observer_overflowed) = false ∧ s'.(ob_line_buffer) = [] ∧ s'.(ob_event_data) = [].
Proof.
  intros Ho Hl He Heol Hp Hne Hdone Hlen Hv received wire offset s'.
  enough (s' = with_ignore_next_lf (bool_decide (eol = [CR])) (with_decoded_bytes_seen (received (len wire))
         (observe_value now value (committed_at offset s)))) as Hs'.
  { split; [done|]. rewrite Hs'. simpl. pose proof (carrier_value now value (committed_at offset s)) as Hc.
    unfold carrier in Hc. simpl in Hc. injection Hc as -> _ -> -> _ _. done. }
  unfold s', observe_sse_bytes. rewrite Ho. by apply sse_loop_event.
Qed.

Lemma sse_event_committed_witness :
  let s' := observe_sse_bytes 5 (event_wire (bs "usage-7") CRLF) observer_default in
  s' = with_ignore_next_lf false (with_decoded_bytes_seen 17
         (observe_value 5 (default (SampleNumber 0) (from_slice (bs "usage-7"))) (committed_at 16 observer_default))) ∧
  tc_output_tokens s'.(ob_counts) = Some 7.
Proof.
  split; [|by vm_compute].
  destruct (sse_event_committed 5 observer_default (bs "usage-7") CRLF (default (SampleNumber 0) (from_slice (bs "usage-7"))))
    as [H _]; try done.
  - apply (bool_decide_eq_true _). by vm_compute.
  - apply (bool_decide_eq_true _). by vm_compute.
Defined.

(** after an event that does not fit, what is read depends on the fragments.
    Two data lines of one event that together exceed the buffer mark the
    observer as overflowed and the next event is still committed, and counted,
    when it comes in the same fragment, but ignored when it comes in the next one. *)
Theorem sse_overflow_keeps_reading {V} `{JsonValue V} (now : Duration) (s : UsageObserver) (first second payload : bytes) (value : V) :
  s.(ob_observer_overflowed) = false → s.(ob_line_buffer) = [] → s.(ob_event_data) = [] →
  Forall (λ c, c ≠ LF ∧ c ≠ CR) (first ++ second ++ payload) →
  first ≠ [] → payload ≠ [] → payload ≠ bs "[DONE]" → from_slice payload = Some value →
  len first + 6 <= MAX_SSE_OBSERVER_BUFFER → len second + 6 <= MAX_SSE_OBSERVER_BUFFER →
  len payload + 6 <= MAX_SSE_OBSERVER_BUFFER → MAX_SSE_OBSERVER_BUFFER < len first + 1 + len second →
  let large := bs "data: " ++ first ++ [LF] ++ bs "data: " ++ second ++ [LF] in
  let event := event_wire payload [LF] in
  let ordinal s := s.(ob_committed_event_ordinal) in
  (observe_sse_bytes now large s).(ob_observer_overflowed) = true ∧
  observe_sse_bytes now event (observe_sse_bytes now large s) = observe_sse_bytes now large s ∧
  ordinal (observe_sse_bytes now (large ++ event) s) = saturating_add U64_MAX (ordinal s) 1.
Proof.
  intros Ho Hl He [Hf [Hs Hp]%Forall_app]%Forall_app Hne1 Hne Hdone Hv Hl1 Hl2 Hlen Hgt large event ordinal.
  destruct (sse_loop_overflow now first second s) as (s' & E & Ho' & Hl' & He' & Hord); try done; [by apply Forall_app|].
  unfold observe_sse_bytes. rewrite Ho. pose proof (E []) as E0. rewrite app_nil_r in E0. fold large in E, E0.
  rewrite E0, E. change (sse_loop now [] s') with s'. rewrite Ho'. split_and!; [done|done|].
  unfold ordinal, event. rewrite (sse_loop_event now s' payload [LF] value) by (done || apply list_elem_of_here).
  match goal with |- context [observe_value now value ?s] => pose proof (carrier_value now value s) as Hc end.
  unfold carrier in Hc. injection Hc as _ _ _ _ _ Hc. etrans; [exact Hc|]. simpl. by rewrite Hord.
Qed.

Lemma sse_overflow_keeps_reading_witness :
  let first := replicate (N.to_nat 262000) "x"%char in
  let large := bs "data: " ++ first ++ [LF] ++ bs "data: " ++ first ++ [LF] in
  let event := event_wire (bs "stop") [LF] in
  observe_sse_bytes 0 event (observe_sse_bytes 0 large observer_default) = observe_sse_bytes 0 large observer_default ∧
  (observe_sse_bytes 0 (large ++ event) observer_default).(ob_committed_event_ordinal) = 1.
Proof.
  intros first. assert (len first = 262000) as Hlen by (unfold len, first; rewrite length_replicate; apply N2Nat.id).
  assert (Forall (λ c, c ≠ LF ∧ c ≠ CR) first) as Hp.
  { clear Hlen. unfold first. generalize (N.to_nat 262000). intros n. by apply Forall_replicate. }
  clearbody first. intros large event.
  destruct (sse_overflow_keeps_reading 0 observer_default first first (bs "stop")
    (default SampleEmpty (from_slice (bs "stop")))) as (_ & H1 & H2); try done; try (rewrite Hlen; by vm_compute).
  - rewrite !Forall_app. split_and!; [done|done|]. apply (bool_decide_eq_true _). by vm_compute.
  - intros ->. by vm_compute in Hlen.
Defined.

(** the decode limit skips without a trace. When a fragment would take an
    unencoded body over the limit it is dropped, the counted upstream bytes apart, and a
    later fragment that still fits is observed as if it followed directly: no gap is marked. *)
Theorem decode_limit_skips {D} `{GzDecoder D} {V} `{JsonValue V} (self : EncodedUsageObserver D) sink t1 t2 large small :
  self.(eo_inner) = Identity sink →
  MAX_USAGE_DECODED_BYTES < sink.(us_decoded_bytes) + len large →
  sink.(us_decoded_bytes) + len small <= MAX_USAGE_DECODED_BYTES → small ≠ [] → sink.(us_streaming) = true →
  let after := observe t2 small (observe t1 large self) in
  after.(eo_inner) = (observe t2 small self).(eo_inner) ∧
  after.(eo_inner) = Identity {| us_observer := observe_sse_bytes t2 small sink.(us_observer); us_streaming := true;
                                 us_decoded_bytes := sink.(us_decoded_bytes) + len small |}.
Proof.
  intros Hi Hlarge Hsmall Hne Hst after.
  assert ((observe t1 large self).(eo_inner) = Identity sink) as Hl.
  { unfold observe. rewrite Hi. simpl. destruct (is_empty large); [done|]. unfold sink_write, checked_add.
    destruct (_ <=? _); [|done]. by rewrite (proj2 (N.ltb_lt _ _) Hlarge). }
  assert (∀ o : EncodedUsageObserver D, o.(eo_inner) = Identity sink → (observe t2 small o).(eo_inner) =
    Identity {| us_observer := observe_sse_bytes t2 small sink.(us_observer); us_streaming := true;
                us_decoded_bytes := sink.(us_decoded_bytes) + len small |}) as Ho.
  { intros o Hoi. unfold observe. rewrite Hoi. simpl. destruct (is_empty small) eqn:E; [by apply is_empty_spec in E|].
    unfold sink_write, checked_add. rewrite (proj2 (N.leb_le _ _)).
    - by rewrite (proj2 (N.ltb_ge _ _) Hsmall), Hst.
    - assert (USIZE_MAX = 18446744073709551615) as -> by done. unfold MAX_USAGE_DECODED_BYTES in *. lia. }
  unfold after. by rewrite !Ho.
Qed.

(** A decoder that decodes nothing and is never used below. *)
#[export] Instance sample_decoder : GzDecoder UsageSink := {|
  gz_new := id;
  gz_write_all := λ _ _ sink, (true, sink);
  gz_get_ref := id;
  gz_finish := Some;
|}.

Lemma decode_limit_skips_witness :
  let sink := {| us_observer := observer_default; us_streaming := true; us_decoded_bytes := MAX_USAGE_DECODED_BYTES - 1 |} in
  let self : EncodedUsageObserver UsageSink := {| eo_inner := Identity sink; eo_upstream_bytes_received := 0 |} in
  let after := observe 2 (bs "x") (observe 1 (bs "yz") self) in
  after.(eo_inner) = Identity {| us_observer := observe_sse_bytes 2 (bs "x") observer_default; us_streaming := true;
                                 us_decoded_bytes := MAX_USAGE_DECODED_BYTES |}.
Proof.
  intros sink self after. destruct (decode_limit_skips self sink 1 2 (bs "yz") (bs "x")) as [_ H]; done.
Defined.
