(* ===== verification/UsageScan.v ===== *)
(** The observation of a response that is not streamed: how the scanner finds the
    usage objects of a JSON text, and why it does not matter how the text is cut. *)

From Stdlib Require Import Ascii.
From S2P Require Import Prelude Machine.
From S2P Require Import Bytes.
From S2P Require Import Usage.
From S2P Require Import UsageObserver.
Local Open Scope N_scope.

(** ** The objects of a JSON text

    Text between the quotes of a string: no bare quote, escapes in pairs. *)
Inductive string_text : bytes → Prop :=
  | text_nil : string_text []
  | text_char c l : c ≠ QUOTE → c ≠ BACKSLASH → string_text l → string_text (c :: l)
  | text_escape c l : string_text l → string_text (BACKSLASH :: c :: l).

(** Text between the braces of an object: strings closed, braces balanced outside them. *)
Inductive object_text : bytes → Prop :=
  | object_nil : object_text []
  | object_char c l : c ≠ QUOTE → c ≠ "{"%char → c ≠ "}"%char → object_text l → object_text (c :: l)
  | object_string text l : string_text text → object_text l → object_text (QUOTE :: text ++ QUOTE :: l)
  | object_nested inner l : object_text inner → object_text l → object_text ("{"%char :: inner ++ "}"%char :: l).

(** A scanner outside strings, captures and keys. *)
Definition scanner_clean (s : JsonUsageScanner) : Prop :=
  s.(js_in_string) = false ∧ s.(js_awaiting_usage_value) = false ∧ s.(js_capture) = None.

Definition white (l : bytes) : Prop := Forall (λ c, is_ascii_whitespace c = true) l.

(** ** Fragments *)

Lemma scan_loop_app a b s :
  scan_loop (a ++ b) s =
  let '(c1, s1) := scan_loop a s in let '(c2, s2) := scan_loop b s1 in (c1 ++ c2, s2).
Proof.
  revert s. induction a as [|x a IH]; intros s; simpl; [by destruct (scan_loop b s)|].
  destruct (scan_byte x s) as [c s1]. rewrite IH. destruct (scan_loop a s1) as [c1 s2], (scan_loop b s2) as [c2 s3].
  by rewrite app_assoc.
Qed.

(** The overflow flag is only ever raised, and never read. *)
Lemma scan_byte_flag x o s :
  scan_byte x (with_js_overflowed (o || s.(js_overflowed)) s) =
  let '(c, s') := scan_byte x s in (c, with_js_overflowed (o || s'.(js_overflowed)) s').
Proof.
  unfold scan_byte. simpl. destruct (js_capture s) as [capture|].
  - destruct (capture_push x capture) as [[] capture']; simpl; [by rewrite orb_assoc|done].
  - destruct (js_in_string s); simpl; [repeat (case_match; simplify_eq/=); done|].
    destruct (js_awaiting_usage_value s); simpl; [by destruct (is_ascii_whitespace x)|repeat (case_match; simplify_eq/=); done].
Qed.

Lemma scan_loop_flag l o s :
  scan_loop l (with_js_overflowed (o || s.(js_overflowed)) s) =
  let '(c, s') := scan_loop l s in (c, with_js_overflowed (o || s'.(js_overflowed)) s').
Proof.
  revert s. induction l as [|x l IH]; intros s; simpl; [done|]. rewrite scan_byte_flag.
  destruct (scan_byte x s) as [c s1]. rewrite IH. by destruct (scan_loop l s1).
Qed.

(** The flag a scanner is left with when the fragment ends. *)
Definition flagged (s : JsonUsageScanner) : bool := s.(js_overflowed) || is_some_and oc_overflowed s.(js_capture).

Lemma capture_push_overflowed x capture : capture.(oc_overflowed) = true → (capture_push x capture).2.(oc_overflowed) = true.
Proof. intros Ho. unfold capture_push. rewrite Ho. repeat (case_match; simplify_eq/=); done. Qed.

Lemma flagged_byte x s : flagged s = true → flagged (scan_byte x s).2 = true.
Proof.
  unfold flagged, scan_byte. destruct (js_capture s) as [capture|]; simpl.
  - intros Hf. pose proof (capture_push_overflowed x capture) as Hp.
    destruct (capture_push x capture) as [[] capture']; simpl in *; rewrite ?orb_false_r; apply orb_true_iff in Hf as [->|Hc];
      try done; rewrite Hp by done; apply orb_true_r.
  - rewrite orb_false_r. intros Ho. destruct (js_in_string s); [repeat (case_match; simplify_eq/=); by rewrite Ho|].
    destruct (js_awaiting_usage_value s); [destruct (is_ascii_whitespace x); simpl; by rewrite Ho|].
    repeat (case_match; simplify_eq/=); by rewrite Ho.
Qed.

Lemma flagged_loop l s : flagged s = true → flagged (scan_loop l s).2 = true.
Proof.
  revert s. induction l as [|x l IH]; intros s Hf; simpl; [done|]. apply (flagged_byte x) in Hf.
  destruct (scan_byte x s) as [c s1]. specialize (IH s1 Hf). by destruct (scan_loop l s1).
Qed.

Lemma scan_eq l s :
  scan l s = let '(c, s') := scan_loop l s in (c, with_js_overflowed (flagged s') s').
Proof.
  unfold scan, flagged. destruct (scan_loop l s) as [c s']. destruct (is_some_and _ _); simpl.
  - by rewrite orb_true_r.
  - rewrite orb_false_r. by destruct s'.
Qed.

Lemma with_flag_twice a b s : with_js_overflowed a (with_js_overflowed b s) = with_js_overflowed a s.
Proof. done. Qed.

Lemma scan_app a b s :
  scan (a ++ b) s = let '(c1, s1) := scan a s in let '(c2, s2) := scan b s1 in (c1 ++ c2, s2).
Proof.
  rewrite !scan_eq, scan_loop_app. destruct (scan_loop a s) as [c1 s1]. rewrite scan_eq.
  pose proof (flagged_loop b s1) as Hf.
  assert (with_js_overflowed (flagged s1) s1 = with_js_overflowed (flagged s1 || js_overflowed s1) s1) as ->.
  { f_equal. unfold flagged. by destruct (js_overflowed s1), (is_some_and _ _). }
  rewrite scan_loop_flag. destruct (scan_loop b s1) as [c2 s2]. rewrite with_flag_twice. f_equal. f_equal.
  unfold flagged at 2. simpl. rewrite <- orb_assoc. fold (flagged s2). simpl in Hf.
  destruct (flagged s1); [by rewrite Hf|done].
Qed.

Section merge.
Context {V : Type} `{JsonValue V}.

Lemma merge_captures_commute scanner o captures s :
  foldl merge_capture (with_observer_overflowed o (with_non_stream_scanner scanner s)) captures =
  with_observer_overflowed o (with_non_stream_scanner scanner (foldl merge_capture s captures)).
Proof.
  revert s. induction captures as [|capture captures IH]; intros s; simpl; [done|]. rewrite <- IH. f_equal.
  unfold merge_capture, merge_option. destruct (from_slice capture) as [usage|]; [|done].
  unfold merge_usage. destruct (value_as_object usage); [|done]. simpl. by repeat destruct (merge_u64 _ _ _).
Qed.

Lemma merge_captures_fields captures s :
  (foldl merge_capture s captures).(ob_non_stream_scanner) = s.(ob_non_stream_scanner) ∧
  (foldl merge_capture s captures).(ob_observer_overflowed) = s.(ob_observer_overflowed).
Proof.
  revert s. induction captures as [|capture captures IH]; intros s; simpl; [done|]. destruct (IH (merge_capture s capture)) as [-> ->].
  unfold merge_capture, merge_option. destruct (from_slice capture) as [usage|]; [|done].
  unfold merge_usage. destruct (value_as_object usage); [|done]. by repeat destruct (merge_u64 _ _ _).
Qed.

Lemma non_stream_app a b s :
  observe_non_stream_bytes (a ++ b) s = observe_non_stream_bytes b (observe_non_stream_bytes a s).
Proof.
  unfold observe_non_stream_bytes. rewrite scan_app. destruct (scan a _) as [c1 s1] eqn:E1.
  rewrite merge_captures_commute. cbn [ob_non_stream_scanner with_observer_overflowed with_non_stream_scanner].
  destruct (scan b s1) as [c2 s2] eqn:E2. rewrite foldl_app, !merge_captures_commute.
  assert (js_overflowed s1 = true → js_overflowed s2 = true) as Hmono.
  { intros Hs1. rewrite scan_eq in E2. pose proof (flagged_loop b s1) as Hf. destruct (scan_loop b s1) as [c s'].
    injection E2 as _ <-. simpl. apply Hf. unfold flagged. by rewrite Hs1. }
  cbn [ob_observer_overflowed with_observer_overflowed with_non_stream_scanner].
  assert (ob_observer_overflowed s || js_overflowed s1 || js_overflowed s2 = ob_observer_overflowed s || js_overflowed s2) as ->; [|done].
  destruct (js_overflowed s1); [rewrite Hmono by done; by rewrite !orb_true_r|by rewrite orb_false_r].
Qed.
End merge.

(** ** Captures *)

(** A capture that is going on: not in a string, nothing lost. *)
Definition capture_at (stored : bytes) (depth : N) : JsonObjectCapture :=
  {| oc_bytes := stored; oc_depth := depth; oc_in_string := false; oc_escaped := false; oc_overflowed := false |}.

Definition capture_in_string (stored : bytes) (depth : N) : JsonObjectCapture :=
  {| oc_bytes := stored; oc_depth := depth; oc_in_string := true; oc_escaped := false; oc_overflowed := false |}.

Definition with_capture (capture : option JsonObjectCapture) (s : JsonUsageScanner) : JsonUsageScanner :=
  {| js_in_string := s.(js_in_string); js_escaped := s.(js_escaped); js_string_bytes := s.(js_string_bytes);
     js_candidate_key := s.(js_candidate_key); js_awaiting_usage_value := s.(js_awaiting_usage_value);
     js_capture := capture; js_overflowed := s.(js_overflowed) |}.

Lemma scan_capture_byte x rest capture capture' s :
  capture_push x capture = (false, capture') →
  scan_loop (x :: rest) (with_capture (Some capture) s) = scan_loop rest (with_capture (Some capture') s).
Proof. intros Hp. simpl. unfold scan_byte. simpl. rewrite Hp. simpl. by destruct (scan_loop rest _). Qed.

Lemma len_cons x l : len (x :: l) = len l + 1.
Proof. unfold len. simpl length. lia. Qed.

Lemma len_app a b : len (a ++ b) = len a + len b.
Proof. unfold len. rewrite length_app. lia. Qed.

Ltac stored_bytes := repeat (rewrite len_app in * || rewrite len_cons in *); change (len []) with 0 in *; lia.

Lemma capture_push_plain x stored depth :
  len stored < MAX_USAGE_OBJECT_BYTES → x ≠ QUOTE → x ≠ "{"%char → x ≠ "}"%char → depth ≠ 0 →
  capture_push x (capture_at stored depth) = (false, capture_at (stored ++ [x]) depth).
Proof.
  intros Hlen Hq Ho Hc Hd. unfold capture_push. simpl. rewrite (proj2 (N.ltb_lt _ _) Hlen), !bool_decide_eq_false_2 by done.
  by rewrite (proj2 (N.eqb_neq _ _) Hd).
Qed.

Lemma scan_string_text text rest stored depth s :
  string_text text → len stored + len text + 1 <= MAX_USAGE_OBJECT_BYTES → depth ≠ 0 →
  scan_loop (text ++ QUOTE :: rest) (with_capture (Some (capture_in_string stored depth)) s) =
  scan_loop rest (with_capture (Some (capture_at (stored ++ text ++ [QUOTE]) depth)) s).
Proof.
  intros Ht. revert stored. induction Ht as [|c l Hq Hb Ht IH|c l Ht IH]; intros stored Hlen Hd; simpl app.
  - apply scan_capture_byte. unfold capture_push. simpl. rewrite (proj2 (N.ltb_lt _ _)) by stored_bytes. done.
  - rewrite (scan_capture_byte _ _ _ (capture_in_string (stored ++ [c]) depth)); [rewrite IH; [by rewrite <- app_assoc|stored_bytes|done]|].
    unfold capture_push. simpl. rewrite (proj2 (N.ltb_lt _ _)) by stored_bytes.
    by rewrite !bool_decide_eq_false_2.
  - set (escaping := {| oc_bytes := stored ++ [BACKSLASH]; oc_depth := depth; oc_in_string := true; oc_escaped := true;
                        oc_overflowed := false |}).
    rewrite (scan_capture_byte _ _ _ escaping).
    + rewrite (scan_capture_byte _ _ _ (capture_in_string ((stored ++ [BACKSLASH]) ++ [c]) depth)).
      * rewrite IH; [by rewrite <- !app_assoc|stored_bytes|done].
      * unfold capture_push. simpl. rewrite (proj2 (N.ltb_lt _ _)) by stored_bytes. done.
    + unfold capture_push. simpl. rewrite (proj2 (N.ltb_lt _ _)) by stored_bytes. done.
Qed.

Lemma scan_object_text l rest stored depth s :
  object_text l → len stored + len l <= MAX_USAGE_OBJECT_BYTES → depth ≠ 0 → depth + len l <= USIZE_MAX →
  scan_loop (l ++ rest) (with_capture (Some (capture_at stored depth)) s) =
  scan_loop rest (with_capture (Some (capture_at (stored ++ l) depth)) s).
Proof.
  intros Ho. revert stored depth rest.
  induction Ho as [|c l Hq Hopen Hclose Ho IH|text l Ht Ho IH|inner l Hi IHi Ho IH]; intros stored depth rest Hlen Hd Hu; simpl app.
  - by rewrite app_nil_r.
  - erewrite scan_capture_byte; [|apply capture_push_plain; try done; stored_bytes].
    rewrite IH; [by rewrite <- app_assoc|stored_bytes|done|stored_bytes].
  - erewrite scan_capture_byte.
    2: { unfold capture_push. simpl. rewrite (proj2 (N.ltb_lt _ _)) by stored_bytes. simpl.
         rewrite (proj2 (N.eqb_neq _ _) Hd). reflexivity. }
    rewrite <- app_assoc. simpl. change {| oc_bytes := _; oc_depth := _; oc_in_string := true; oc_escaped := _; oc_overflowed := _ |}
      with (capture_in_string (stored ++ [QUOTE]) depth).
    rewrite scan_string_text by (done || stored_bytes).
    rewrite IH; [by rewrite <- !app_assoc; simpl; rewrite <- ?app_assoc|stored_bytes|done|stored_bytes].
  - erewrite scan_capture_byte.
    2: { unfold capture_push. simpl. rewrite (proj2 (N.ltb_lt _ _)) by stored_bytes. simpl.
         rewrite saturating_add_small by stored_bytes. rewrite (proj2 (N.eqb_neq (depth + 1) 0)) by lia. reflexivity. }
    change {| oc_bytes := _; oc_depth := _; oc_in_string := _; oc_escaped := _; oc_overflowed := _ |}
      with (capture_at (stored ++ ["{"%char]) (depth + 1)).
    rewrite <- app_assoc, IHi by (done || stored_bytes).
    change (("}"%char :: l) ++ rest) with ("}"%char :: l ++ rest).
    erewrite scan_capture_byte.
    2: { unfold capture_push. simpl. rewrite (proj2 (N.ltb_lt _ _)) by stored_bytes. simpl.
         unfold saturating_sub. rewrite N.add_sub. rewrite (proj2 (N.eqb_neq depth 0)) by done. reflexivity. }
    change {| oc_bytes := _; oc_depth := _; oc_in_string := _; oc_escaped := _; oc_overflowed := _ |}
      with (capture_at (((stored ++ ["{"%char]) ++ inner) ++ ["}"%char]) depth).
    rewrite IH; [|stored_bytes|done|stored_bytes]. do 4 f_equal. by rewrite <- !app_assoc.
Qed.

Lemma white_not c : is_ascii_whitespace c = true → c ≠ QUOTE ∧ c ≠ ":"%char.
Proof. intros Hw. split; intros ->; by vm_compute in Hw. Qed.

(** White space changes nothing outside strings and captures. *)
Lemma scan_white w rest s :
  s.(js_in_string) = false → s.(js_capture) = None → white w → scan_loop (w ++ rest) s = scan_loop rest s.
Proof.
  intros Hs Hc. induction 1 as [|c w Hw Hall IH]; [done|].
  change (scan_loop ((c :: w) ++ rest) s) with
    (let '(completed, s) := scan_byte c s in let '(more, s) := scan_loop (w ++ rest) s in (completed ++ more, s)).
  assert (scan_byte c s = ([], s)) as ->; [|rewrite IH; by destruct (scan_loop rest s)].
  destruct (white_not c Hw) as [Hq Hcolon]. unfold scan_byte. rewrite Hc, Hs, Hw, !bool_decide_eq_false_2 by done.
  destruct (js_awaiting_usage_value s) eqn:Ea; [done|]. destruct s; simpl in *; by subst.
Qed.

(** The key and the colon, with white space between them, announce a usage value. *)
Lemma scan_usage_key white1 rest s :
  scanner_clean s → white white1 →
  scan_loop (QUOTE :: bs "usage" ++ QUOTE :: white1 ++ ":"%char :: rest) s =
  scan_loop rest {| js_in_string := false; js_escaped := false; js_string_bytes := []; js_candidate_key := None;
                    js_awaiting_usage_value := true; js_capture := None; js_overflowed := s.(js_overflowed) |}.
Proof.
  intros (Hs & Ha & Hc) Hw.
  change (QUOTE :: bs "usage" ++ QUOTE :: white1 ++ ":"%char :: rest) with ((QUOTE :: bs "usage" ++ [QUOTE]) ++ white1 ++ ":"%char :: rest).
  rewrite scan_loop_app. destruct s as [ins esc strs cand await cap over]. simpl in Hs, Ha, Hc. subst ins await cap.
  set (keyed := {| js_in_string := false; js_escaped := false; js_string_bytes := []; js_candidate_key := Some (bs "usage");
                   js_awaiting_usage_value := false; js_capture := None; js_overflowed := over |}).
  match goal with |- context [scan_loop (QUOTE :: _) ?s] =>
    assert (scan_loop (QUOTE :: bs "usage" ++ [QUOTE]) s = ([], keyed)) as -> by done end.
  rewrite scan_white by done. change (":"%char :: rest) with ([":"%char] ++ rest). rewrite scan_loop_app. simpl.
  by destruct (scan_loop rest _).
Qed.

(** ** Theorems *)

(** a body that is not streamed is observed the same however it is cut:
    observing the fragments one after the other is observing their
    concatenation, in every field. *)
Theorem non_stream_fragment_independent {V} `{JsonValue V} (first : bytes) (fragments : list bytes) (s : UsageObserver) :
  foldl (λ s l, observe_non_stream_bytes l s) (observe_non_stream_bytes first s) fragments =
  observe_non_stream_bytes (first ++ concat fragments) s.
Proof.
  revert first. induction fragments as [|l fragments IH]; intros first; simpl; [by rewrite app_nil_r|].
  by rewrite <- non_stream_app, IH, app_assoc.
Qed.

(** the usage object of a text is captured, whole and alone. From a clean
    scanner, the key "usage", a colon and an object, with any white space around the
    colon, yield exactly the text of that object, however strings, escapes
    and braces nest in it, and leave the scanner clean. *)
Theorem usage_object_captured (s : JsonUsageScanner) (white1 white2 inner : bytes) :
  scanner_clean s → white white1 → white white2 → object_text inner → len inner + 2 <= MAX_USAGE_OBJECT_BYTES →
  let object := "{"%char :: inner ++ ["}"%char] in
  let '(captured, s') := scan (QUOTE :: bs "usage" ++ QUOTE :: white1 ++ ":"%char :: white2 ++ object) s in
  captured = [object] ∧ scanner_clean s' ∧ s'.(js_overflowed) = s.(js_overflowed).
Proof.
  intros Hs Hw1 Hw2 Ho Hlen object. rewrite scan_eq, scan_usage_key by done.
  match goal with |- context [scan_loop _ ?s] => set (awaiting := s) end.
  rewrite scan_white by done. unfold object.
  assert (∀ rest, scan_loop ("{"%char :: rest) awaiting =
    scan_loop rest (with_capture (Some (capture_at ["{"%char] 1)) (with_capture None
      {| js_in_string := false; js_escaped := false; js_string_bytes := []; js_candidate_key := None;
         js_awaiting_usage_value := false; js_capture := None; js_overflowed := s.(js_overflowed) |}))) as ->.
  { intros rest. simpl. by destruct (scan_loop rest _). }
  rewrite scan_object_text; [|done|unfold len in *; simpl length; lia|done|].
  2: { assert (USIZE_MAX = 18446744073709551615) as -> by done. unfold MAX_USAGE_OBJECT_BYTES in *. lia. }
  simpl. unfold scan_byte. simpl. unfold capture_push. simpl.
  rewrite (proj2 (N.ltb_lt _ _)) by (unfold len in *; simpl length; lia). simpl. unfold flagged. simpl.
  by rewrite !orb_false_r.
Qed.

Lemma usage_object_captured_witness :
  let inner := QUOTE :: bs "a}" ++ QUOTE :: bs ":{}" in
  let '(captured, s') :=
    scan (QUOTE :: bs "usage" ++ QUOTE :: [] ++ ":"%char :: bs " " ++ "{"%char :: inner ++ ["}"%char]) scanner_default in
  captured = [ "{"%char :: inner ++ ["}"%char] ] ∧ scanner_clean s' ∧ s'.(js_overflowed) = false.
Proof.
  apply (usage_object_captured scanner_default [] (bs " ")); [done|constructor|by repeat constructor| |by vm_compute].
  apply object_string; [repeat (constructor; [done..|]); constructor|].
  apply object_char; [done..|]. apply (object_nested [] []); constructor.
Defined.
