(* ===== verification/Quota.v ===== *)
(** Subscription quota observations: [crates/gateway-services/src/quota.rs].

    [Sha256] is a parameter: the digest of the bytes it was updated with. *)

From Stdlib Require Import Ascii.
From S2P Require Import Prelude Machine.
From S2P Require Import Bytes.
Local Open Scope N_scope.

Inductive SubscriptionQuotaWindow := FiveHour | SevenDay.

#[export] Instance SubscriptionQuotaWindow_eq_dec : EqDecision SubscriptionQuotaWindow.
Proof. solve_decision. Defined.

Definition window_code (self : SubscriptionQuotaWindow) : string :=
  match self with FiveHour => "five_hour" | SevenDay => "seven_day" end.

(** A header: its name and its value. *)
Abbreviation header := (bytes * bytes)%type.

Definition matching_values (headers : list header) (name : bytes) : list bytes :=
  omap (λ h : header, if eq_ignore_ascii_case h.1 name then Some h.2 else None) headers.

Definition strict_header_text (value : bytes) : option bytes :=
  if utf8_valid value then
    let value := trim value in
    if negb (is_empty value) && (length value <=? 64)%nat && negb (existsb (λ c, bool_decide (c = ","%char)) value)
    then Some value else None
  else None.

Definition parse_utilization_nanos (value : bytes) : option N :=
  let '(whole, fractional) := default (value, []) (split_once "."%char value) in
  if negb (bool_decide (whole = bs "0") || bool_decide (whole = bs "1")) || (9 <? length fractional)%nat ||
     negb (forallb is_ascii_digit fractional) ||
     (bool_decide (whole = bs "1") && existsb (λ c, negb (bool_decide (c = "0"%char))) fractional)
  then None
  else if bool_decide (whole = bs "1") then Some 1000000000
  else if is_empty fractional then Some 0
  else
    fraction ← from_str_radix 10 U32_MAX fractional;
    checked_mul U32_MAX fraction (10 ^ N.of_nat (9 - length fractional)).

Section parse.
Context {Digest : Type} (sha256 : bytes → Digest).

Record SubscriptionQuotaObservation := {
  qo_window : SubscriptionQuotaWindow;
  qo_utilization_nanos : N;
  qo_reset_epoch_seconds : N;
  qo_header_digest : Digest;
}.

Record SubscriptionQuotaParse := {
  qp_observations : list SubscriptionQuotaObservation;
  qp_rejected_windows : N;
}.

Definition NUL : ascii := "000"%char.

Definition reject (parsed : SubscriptionQuotaParse) : SubscriptionQuotaParse :=
  {| qp_observations := parsed.(qp_observations);
     qp_rejected_windows := saturating_add U8_MAX parsed.(qp_rejected_windows) 1 |}.

(** The turn of the loop for one window. *)
Definition parse_window (headers : list header) (parsed : SubscriptionQuotaParse)
    (window_prefix : SubscriptionQuotaWindow * bytes) : SubscriptionQuotaParse :=
  let '(window, prefix) := window_prefix in
  let utilization_name := prefix ++ bs "-utilization" in
  let reset_name := prefix ++ bs "-reset" in
  match matching_values headers utilization_name, matching_values headers reset_name with
  | [], [] => parsed
  | [utilization], [reset] =>
      match strict_header_text utilization with
      | None => reject parsed
      | Some utilization_text =>
          match strict_header_text reset with
          | None => reject parsed
          | Some reset_text =>
              match parse_utilization_nanos utilization_text with
              | None => reject parsed
              | Some utilization_nanos =>
                  match from_str_radix 10 U64_MAX reset_text with
                  | None => reject parsed
                  | Some reset_epoch_seconds =>
                      let digest :=
                        sha256 (utilization_name ++ [NUL] ++ utilization_text ++ [NUL] ++ reset_name ++ [NUL] ++ reset_text) in
                      {| qp_observations := parsed.(qp_observations) ++
                           [{| qo_window := window; qo_utilization_nanos := utilization_nanos;
                               qo_reset_epoch_seconds := reset_epoch_seconds; qo_header_digest := digest |}];
                         qp_rejected_windows := parsed.(qp_rejected_windows) |}
                  end
              end
          end
      end
  | _, _ => reject parsed
  end.

Definition quota_windows : list (SubscriptionQuotaWindow * bytes) :=
  [(FiveHour, bs "anthropic-ratelimit-unified-5h"); (SevenDay, bs "anthropic-ratelimit-unified-7d")].

Definition parse_subscription_quota_headers (headers : list header) : SubscriptionQuotaParse :=
  foldl (parse_window headers) {| qp_observations := []; qp_rejected_windows := 0 |} quota_windows.

End parse.
Arguments SubscriptionQuotaObservation : clear implicits.
Arguments SubscriptionQuotaParse : clear implicits.

(** The names a window reads. *)
Definition window_prefix (window : SubscriptionQuotaWindow) : bytes :=
  match window with FiveHour => bs "anthropic-ratelimit-unified-5h" | SevenDay => bs "anthropic-ratelimit-unified-7d" end.

(** What a window yields by itself: nothing, a rejection ([None]) or an observation. *)
Definition window_outcome {Digest} (sha256 : bytes → Digest) (window : SubscriptionQuotaWindow) (headers : list header)
    : option (option (SubscriptionQuotaObservation Digest)) :=
  let parsed := parse_window sha256 headers {| qp_observations := []; qp_rejected_windows := 0 |} (window, window_prefix window) in
  match parsed.(qp_observations), parsed.(qp_rejected_windows) with
  | observation :: _, _ => Some (Some observation)
  | [], 0 => None
  | [], _ => Some None
  end.

Definition rejection {A} (outcome : option (option A)) : N := match outcome with Some None => 1 | _ => 0 end.

(** The text of a utilization: all nine digits. *)
Definition format_utilization (nanos : N) : bytes :=
  if nanos =? 1000000000 then bs "1" else bs "0." ++ pad_left 9 (to_string nanos).

(** The value of a digit string. *)
Definition digits_value (l : bytes) : N := foldl (λ n c, 10 * n + (byte c - 48)) 0 l.

(** ** Lemmas *)

Lemma digit_value c : is_ascii_digit c = true → to_digit 10 c = Some (byte c - 48) ∧ byte c - 48 < 10.
Proof.
  intros Hc. unfold to_digit. rewrite Hc. unfold is_ascii_digit, in_range in Hc. apply andb_true_iff in Hc as [H1 H2].
  apply N.leb_le in H1, H2. assert (byte c - 48 < 10) as Hlt by lia. by rewrite (proj2 (N.ltb_lt _ _) Hlt).
Qed.

Lemma parse_digits_value max acc l :
  forallb is_ascii_digit l = true → acc * 10 ^ N.of_nat (length l) + 10 ^ N.of_nat (length l) <= max + 1 →
  parse_digits 10 max acc l = Some (foldl (λ n c, 10 * n + (byte c - 48)) acc l) ∧
  foldl (λ n c, 10 * n + (byte c - 48)) acc l < acc * 10 ^ N.of_nat (length l) + 10 ^ N.of_nat (length l).
Proof.
  revert acc. induction l as [|c l IH]; intros acc Hd Hm; cbn [length foldl parse_digits forallb] in *.
  - change (10 ^ N.of_nat 0) with 1 in *. split; [done|lia].
  - apply andb_true_iff in Hd as [Hc Hd]. destruct (digit_value c Hc) as [-> Hlt].
    rewrite Nat2N.inj_succ, N.pow_succ_r' in *. set (p := 10 ^ N.of_nat (length l)) in *.
    assert (1 <= p) as Hp by (apply (N.pow_le_mono_r 10 0); lia).
    unfold checked_mul, checked_add. rewrite (proj2 (N.leb_le (acc * 10) max)) by nia.
    rewrite (proj2 (N.leb_le (acc * 10 + _) max)) by nia.
    rewrite (N.mul_comm acc 10). destruct (IH (10 * acc + (byte c - 48))) as [-> H2]; [done|nia|]. split; [done|nia].
Qed.

Lemma digits_value_bound l : forallb is_ascii_digit l = true → digits_value l < 10 ^ N.of_nat (length l).
Proof.
  intros Hd. pose proof (parse_digits_value (10 ^ N.of_nat (length l)) 0 l Hd ltac:(lia)) as [_ H]. unfold digits_value. lia.
Qed.

Lemma fraction_parse l :
  l ≠ [] → (length l <= 9)%nat → forallb is_ascii_digit l = true →
  from_str_radix 10 U32_MAX l = Some (digits_value l) ∧ digits_value l * 10 ^ N.of_nat (9 - length l) < 1000000000.
Proof.
  intros Hne Hlen Hd. assert (10 ^ N.of_nat (length l) * 10 ^ N.of_nat (9 - length l) = 1000000000) as Hp.
  { rewrite <- N.pow_add_r, <- Nat2N.inj_add. by replace (length l + (9 - length l))%nat with 9%nat by lia. }
  assert (1 <= 10 ^ N.of_nat (9 - length l)) as Hq by (apply (N.pow_le_mono_r 10 0); lia).
  pose proof (digits_value_bound l Hd). split; [|nia]. destruct l as [|c l]; [done|]. unfold from_str_radix.
  rewrite decide_False by (intros ->; by simpl in Hd).
  apply (parse_digits_value U32_MAX 0 (c :: l) Hd). rewrite U32_MAX_val. nia.
Qed.

Lemma parse_window_outcome {Digest} (sha256 : bytes → Digest) headers parsed window :
  parse_window sha256 headers parsed (window, window_prefix window) =
  match window_outcome sha256 window headers with
  | None => parsed
  | Some None => reject parsed
  | Some (Some o) => {| qp_observations := parsed.(qp_observations) ++ [o]; qp_rejected_windows := parsed.(qp_rejected_windows) |}
  end.
Proof. unfold window_outcome, parse_window. repeat (case_match; try done). Qed.

(** The grammar of a utilization: a zero or a one, and up to nine decimals, which are zeros after a one. *)
Definition utilization_text (whole fractional text : bytes) : Prop :=
  (text = whole ++ "."%char :: fractional ∨ text = whole ∧ fractional = []) ∧
  (whole = bs "0" ∨ whole = bs "1" ∧ Forall (λ c, c = "0"%char) fractional) ∧
  (length fractional <= 9)%nat ∧ forallb is_ascii_digit fractional = true.

Lemma digits_value_zeros l n : Forall (λ c, c = "0"%char) l → foldl (λ n c, 10 * n + (byte c - 48)) n l = n * 10 ^ N.of_nat (length l).
Proof.
  intros Hl. revert n. induction Hl as [|c l -> Hl IH]; intros n; cbn [foldl length]; [lia|].
  rewrite IH, Nat2N.inj_succ, N.pow_succ_r'. change (byte "0"%char - 48) with 0. lia.
Qed.

Lemma utilization_split whole fractional text :
  (whole = bs "0" ∨ whole = bs "1") → (text = whole ++ "."%char :: fractional ∨ text = whole ∧ fractional = []) →
  default (text, []) (split_once "."%char text) = (whole, fractional).
Proof. intros [-> | ->] [-> | [-> ->]]; done. Qed.

Lemma existsb_nonzero l : existsb (λ c, negb (bool_decide (c = "0"%char))) l = false ↔ Forall (λ c, c = "0"%char) l.
Proof.
  rewrite <- not_true_iff_false, existsb_exists, Forall_forall. split.
  - intros Hn c Hc. destruct (decide (c = "0"%char)) as [|Hne]; [done|]. destruct Hn. exists c.
    split; [by apply list_elem_of_In|]. by rewrite bool_decide_eq_false_2.
  - intros Hall (c & Hc%list_elem_of_In & H). rewrite (Hall c Hc) in H. done.
Qed.

(** What the parser makes of a text of the grammar. *)
Definition utilization_value (whole fractional : bytes) : N :=
  if bool_decide (whole = bs "1") then 1000000000 else digits_value fractional * 10 ^ N.of_nat (9 - length fractional).

Lemma parse_utilization_text whole fractional text :
  utilization_text whole fractional text → parse_utilization_nanos text = Some (utilization_value whole fractional).
Proof.
  intros (Hshape & Hwhole & Hlen & Hd). unfold parse_utilization_nanos, utilization_value.
  rewrite (utilization_split whole fractional) by (done || naive_solver). rewrite Hd.
  rewrite (proj2 (Nat.ltb_ge 9 (length fractional)) Hlen). destruct Hwhole as [-> | [-> Hz%existsb_nonzero]]; simpl.
  - destruct (is_empty fractional) eqn:E.
    + by apply is_empty_spec in E as ->.
    + assert (fractional ≠ []) as Hne by (intros ->; done). destruct (fraction_parse _ Hne Hlen Hd) as [-> Hlt]. simpl.
      unfold checked_mul. rewrite (proj2 (N.leb_le _ U32_MAX)); [done|]. rewrite U32_MAX_val. lia.
  - by rewrite Hz.
Qed.

Lemma parse_utilization_grammar text n :
  parse_utilization_nanos text = Some n → ∃ whole fractional, utilization_text whole fractional text.
Proof.
  unfold parse_utilization_nanos. destruct (default _ _) as [whole fractional] eqn:E.
  destruct (_ || _) eqn:Eg; [done|]. intros _. exists whole, fractional.
  apply orb_false_iff in Eg as [[[Hw Hlen]%orb_false_iff Hd%negb_false_iff]%orb_false_iff Hz].
  apply negb_false_iff, orb_true_iff in Hw. rewrite !bool_decide_eq_true in Hw. apply Nat.ltb_ge in Hlen.
  split_and!; [| |done|done].
  - destruct (split_once _ _) as [[]|] eqn:Es; simpl in E; injection E as <- <-; [left; by apply split_once_Some|by right].
  - destruct Hw as [->|Hw]; [by left|]. right. split; [done|].
    rewrite (proj2 (bool_decide_eq_true _) Hw) in Hz. by apply existsb_nonzero.
Qed.

Lemma utilization_value_exact whole fractional text :
  utilization_text whole fractional text →
  utilization_value whole fractional <= 1000000000 ∧
  utilization_value whole fractional * 10 ^ N.of_nat (length fractional) = digits_value (whole ++ fractional) * 1000000000.
Proof.
  intros (_ & Hwhole & Hlen & Hd). unfold utilization_value.
  assert (10 ^ N.of_nat (length fractional) * 10 ^ N.of_nat (9 - length fractional) = 1000000000) as Hp.
  { rewrite <- N.pow_add_r, <- Nat2N.inj_add. by replace (length fractional + (9 - length fractional))%nat with 9%nat by lia. }
  destruct Hwhole as [-> | [-> Hz]]; simpl.
  - change (digits_value ("0"%char :: fractional)) with (digits_value fractional).
    pose proof (digits_value_bound fractional Hd). split; nia.
  - split; [done|]. change (digits_value ("1"%char :: fractional)) with (foldl (λ n c, 10 * n + (byte c - 48)) 1 fractional).
    rewrite digits_value_zeros by done. lia.
Qed.

Lemma digit_of_is_digit c : is_digit_of 10 c → is_ascii_digit c = true.
Proof.
  intros (d & Hd & ->). unfold is_ascii_digit, in_range. rewrite digit_char_byte by lia.
  rewrite (proj2 (N.ltb_lt _ _) Hd). apply andb_true_iff. rewrite !N.leb_le. lia.
Qed.

(** ** Theorems *)

(** a utilization is read exactly, without floating point. A text is
    accepted exactly when it is a zero or a one with at most nine decimals and at most one
    in value; the result, in billionths, is at most 10^9 and is the decimal
    number times 10^9, without rounding; and every result from 0 to 10^9 is read
    back from the nine decimals it is written with. *)
Theorem utilization_exact (text : bytes) (n : N) :
  (parse_utilization_nanos text = Some n ↔
     ∃ whole fractional, utilization_text whole fractional text ∧ n <= 1000000000 ∧
       n * 10 ^ N.of_nat (length fractional) = digits_value (whole ++ fractional) * 1000000000) ∧
  (n <= 1000000000 → parse_utilization_nanos (format_utilization n) = Some n).
Proof.
  split.
  - split.
    + intros Hp. destruct (parse_utilization_grammar _ _ Hp) as (whole & fractional & Ht). exists whole, fractional.
      rewrite (parse_utilization_text _ _ _ Ht) in Hp. injection Hp as <-. split; [done|]. by eapply utilization_value_exact.
    + intros (whole & fractional & Ht & _ & Hn). rewrite (parse_utilization_text _ _ _ Ht). f_equal.
      destruct (utilization_value_exact _ _ _ Ht) as [_ Hv].
      assert (1 <= 10 ^ N.of_nat (length fractional)) by (apply (N.pow_le_mono_r 10 0); lia). nia.
  - intros Hn. unfold format_utilization. destruct (N.eqb_spec n 1000000000) as [->|Hne]; [done|].
    set (fractional := pad_left 9 (to_string n)).
    assert (length fractional = 9%nat) as Hlen by (apply pad_left_length; [change (10 ^ N.of_nat 9) with 1000000000; lia|done]).
    assert (forallb is_ascii_digit fractional = true) as Hd.
    { apply forallb_forall. intros c Hc%list_elem_of_In. apply elem_of_app in Hc as [[-> _]%elem_of_replicate|Hc]; [done|].
      apply digit_of_is_digit. revert c Hc. apply Forall_forall. by apply format_radix_digits. }
    rewrite (parse_utilization_text (bs "0") fractional).
    + unfold utilization_value. simpl. rewrite Hlen.
      destruct (parse_digits_value 1000000000 0 fractional Hd) as [Hp _]; [by rewrite Hlen|].
      unfold fractional in Hp at 1. rewrite pad_left_parse in Hp by done. injection Hp as Hp. unfold digits_value. rewrite <- Hp.
      change (10 ^ N.of_nat (9 - 9)) with 1. by rewrite N.mul_1_r.
    + split_and!; [by left|by left|lia|done].
Qed.

(** the windows are independent. The observations are those of the five-hour
    window and then those of the seven-day window, each at most one; the
    rejections are counted; and what a window yields depends only on the
    values of its own two headers, so a malformed or ambiguous window never
    suppresses the other. *)
Theorem quota_windows_independent {Digest} (sha256 : bytes → Digest) (headers : list header) :
  let outcome window := window_outcome sha256 window headers in
  let parsed := parse_subscription_quota_headers sha256 headers in
  parsed.(qp_observations) = option_list (mjoin (outcome FiveHour)) ++ option_list (mjoin (outcome SevenDay)) ∧
  parsed.(qp_rejected_windows) = rejection (outcome FiveHour) + rejection (outcome SevenDay) ∧
  (∀ window headers',
     (∀ suffix, suffix ∈ [bs "-utilization"; bs "-reset"] →
        matching_values headers (window_prefix window ++ suffix) = matching_values headers' (window_prefix window ++ suffix)) →
     outcome window = window_outcome sha256 window headers').
Proof.
  intros outcome parsed. split_and!; [| |].
  3: { intros window headers' Hs. unfold outcome, window_outcome, parse_window.
       rewrite (Hs (bs "-utilization")), (Hs (bs "-reset")); [done|..]; by repeat constructor. }
  all: unfold parsed, parse_subscription_quota_headers;
    change quota_windows with [(FiveHour, window_prefix FiveHour); (SevenDay, window_prefix SevenDay)]; cbn [foldl];
    rewrite (parse_window_outcome sha256 headers _ FiveHour), (parse_window_outcome sha256 headers _ SevenDay);
    fold (outcome FiveHour) (outcome SevenDay); by destruct (outcome FiveHour) as [[]|], (outcome SevenDay) as [[]|].
Qed.
