(* ===== verification/Reservation.v ===== *)
(** Admission of large responses, the delivery state and the limits of the
    response pipeline: the first part of
    [crates/gateway-services/src/response.rs], with the value objects of
    [crates/gateway-domain/src/response.rs].

    Every call of [acquire_with_timeout] is a process that shares the semaphore
    and the counter of the waiting calls; the processes interleave at the atomic
    operations. The semaphore is tokio's: the class [Semaphore] says what is
    relied on. *)

From S2P Require Import Prelude Machine.
From S2P Require Import Bytes.
From S2P Require Import Transport.
Local Open Scope N_scope.

Inductive ResponseMode := Streaming | NonStreaming.

Inductive DeliveryOutcome :=
  | Delivery_Complete
  | Delivery_ClientDisconnected
  | Delivery_ClientWriteTimeout
  | Delivery_UpstreamBodyError
  | BufferRejected
  | CancelledBeforeCommit.

#[export] Instance DeliveryOutcome_eq_dec : EqDecision DeliveryOutcome.
Proof. solve_decision. Defined.

Inductive BufferTier := Memory | EncryptedSpill.

#[export] Instance BufferTier_eq_dec : EqDecision BufferTier.
Proof. solve_decision. Defined.

Inductive ResponseError :=
  | InvalidConfiguration
  | ResponseTooLarge
  | ResponseTotalTimeout
  | ReservationQueueFull
  | ReservationTimeout
  | ReservationClosed
  | Response_Cancelled
  | ClientDisconnected
  | ClientWriteTimeout
  | BackpressureInvariant
  | SpillIo
  | SpillCrypto
  | SpillFormat
  | SpillCleanup
  | Response_Transport (error : TransportError).

#[export] Instance ResponseError_eq_dec : EqDecision ResponseError.
Proof. solve_decision. Defined.

(** ** The limits *)
Record ResponseConfig := {
  rcf_memory_threshold_bytes : N;
  rcf_max_non_stream_bytes : N;
  rcf_max_large_responses : N;
  rcf_large_response_queue_capacity : N;
  rcf_reservation_wait : Duration;
  rcf_stream_inflight_bytes : N;
  rcf_client_write_idle : Duration;
  rcf_non_stream_total : Duration;
}.

Definition response_config_default : ResponseConfig :=
  {| rcf_memory_threshold_bytes := 8 * 1024 * 1024;
     rcf_max_non_stream_bytes := 64 * 1024 * 1024;
     rcf_max_large_responses := 32;
     rcf_large_response_queue_capacity := 64;
     rcf_reservation_wait := from_secs 30;
     rcf_stream_inflight_bytes := 1024 * 1024;
     rcf_client_write_idle := from_mins 2;
     rcf_non_stream_total := from_mins 5 |}.

(** ** The producer's termination: the first one recorded stays *)
Inductive ProducerTermination := Producer_Complete | Producer_ClientWriteTimeout | Producer_UpstreamBodyError | Producer_Cancelled.

#[export] Instance ProducerTermination_eq_dec : EqDecision ProducerTermination.
Proof. solve_decision. Defined.

(** The discriminants; [AtomicU8] starts at zero. *)
Definition termination_code (state : ProducerTermination) : N :=
  match state with
  | Producer_Complete => 1
  | Producer_ClientWriteTimeout => 2
  | Producer_UpstreamBodyError => 3
  | Producer_Cancelled => 4
  end.

Abbreviation PreparedDeliveryState := N (only parsing).

Definition delivery_default : PreparedDeliveryState := 0.

Definition delivery_finish (state : ProducerTermination) (self : PreparedDeliveryState) : PreparedDeliveryState :=
  if self =? 0 then termination_code state else self.

Definition finish_external (complete : bool) (self : PreparedDeliveryState) : PreparedDeliveryState :=
  delivery_finish (if complete then Producer_Complete else Producer_UpstreamBodyError) self.

Definition delivery_is_terminal (self : PreparedDeliveryState) : bool := negb (self =? 0).

Definition eof_outcome (self : PreparedDeliveryState) : DeliveryOutcome :=
  if self =? termination_code Producer_Complete then Delivery_Complete
  else if self =? termination_code Producer_ClientWriteTimeout then Delivery_ClientWriteTimeout
  else if self =? termination_code Producer_Cancelled then Delivery_ClientDisconnected
  else Delivery_UpstreamBodyError.

(** ** The semaphore *)
Class Semaphore (S : Type) := {
  sem_new : N → S;
  sem_available : S → N;
  sem_try_acquire : S → option S;
  sem_release : S → S;
  sem_new_available n : sem_available (sem_new n) = n;
  sem_acquire_some s s' : sem_try_acquire s = Some s' → 0 < sem_available s ∧ sem_available s' = sem_available s - 1;
  sem_acquire_none s : sem_try_acquire s = None → sem_available s = 0;
  sem_release_available s : sem_available (sem_release s) = sem_available s + 1;
}.

(** A counter. *)
#[export] Program Instance counter_semaphore : Semaphore N := {|
  sem_new := λ n, n;
  sem_available := λ s, s;
  sem_try_acquire := λ s, checked_sub s 1;
  sem_release := λ s, s + 1;
|}.
Next Obligation. done. Qed.
Next Obligation. intros s s' H. apply checked_sub_Some in H. simpl in *. lia. Qed.
Next Obligation. intros s H. by apply checked_sub_1_None in H. Qed.
Next Obligation. done. Qed.

(** ** The reservation pool *)
Record ReservationPool (S : Type) := {
  rp_permits : S;
  rp_capacity : N;
  rp_waiting : N;
  rp_queue_capacity : N;
  rp_wait_timeout : Duration;
}.
Arguments Build_ReservationPool {S}.
Arguments rp_permits {S}.
Arguments rp_capacity {S}.
Arguments rp_waiting {S}.
Arguments rp_queue_capacity {S}.
Arguments rp_wait_timeout {S}.

Section pool.
Context {S : Type} `{Semaphore S}.

Definition reservation_pool_new (permits queue_capacity : N) (wait_timeout : Duration) : result ResponseError (ReservationPool S) :=
  if (permits =? 0) || (wait_timeout =? 0) then Err InvalidConfiguration
  else Ok {| rp_permits := sem_new permits; rp_capacity := permits; rp_waiting := 0;
             rp_queue_capacity := queue_capacity; rp_wait_timeout := wait_timeout |}.

Definition pool_active (self : ReservationPool S) : N := saturating_sub self.(rp_capacity) (sem_available self.(rp_permits)).

Definition with_permits (permits : S) (self : ReservationPool S) : ReservationPool S :=
  {| rp_permits := permits; rp_capacity := self.(rp_capacity); rp_waiting := self.(rp_waiting);
     rp_queue_capacity := self.(rp_queue_capacity); rp_wait_timeout := self.(rp_wait_timeout) |}.

Definition with_waiting (waiting : N) (self : ReservationPool S) : ReservationPool S :=
  {| rp_permits := self.(rp_permits); rp_capacity := self.(rp_capacity); rp_waiting := waiting;
     rp_queue_capacity := self.(rp_queue_capacity); rp_wait_timeout := self.(rp_wait_timeout) |}.

(** Where a call of [acquire_with_timeout] stands: between two atomic operations,
    at its only [await] ([Waiting]), or finished. *)
Inductive AcquirePhase :=
  | Entered (wait_timeout : Duration)
  | NoPermit
  | Counted (previous : N)
  | Waiting
  | Leaving (answer : result ResponseError unit)
  | Holding
  | Refused (error : ResponseError)
  | Released
  | Dropped.

#[export] Instance AcquirePhase_eq_dec : EqDecision AcquirePhase.
Proof. solve_decision. Defined.

(** What makes a call move: the next operation, the arms of the [select!], the
    caller dropping the future at the [await], or dropping the reservation. *)
Inductive AcquireEvent :=
  | Proceed
  | CancellationFired
  | TimerFired
  | PermitReady
  | FutureDropped
  | ReservationDropped.

Definition acquire_step (event : AcquireEvent) (phase : AcquirePhase) (self : ReservationPool S)
    : option (AcquirePhase * ReservationPool S) :=
  match phase, event with
  | Entered wait_timeout, Proceed =>
      match sem_try_acquire self.(rp_permits) with
      | Some permits => Some (Holding, with_permits permits self)
      | None => if wait_timeout =? 0 then Some (Refused ReservationTimeout, self) else Some (NoPermit, self)
      end
  | NoPermit, Proceed => Some (Counted self.(rp_waiting), with_waiting (wrapping_add USIZE_MAX self.(rp_waiting) 1) self)
  | Counted previous, Proceed =>
      if self.(rp_queue_capacity) <=? previous
      then Some (Leaving (Err ReservationQueueFull), self)
      else Some (Waiting, self)
  | Waiting, CancellationFired => Some (Leaving (Err Response_Cancelled), self)
  | Waiting, TimerFired => Some (Leaving (Err ReservationTimeout), self)
  | Waiting, PermitReady =>
      match sem_try_acquire self.(rp_permits) with
      | Some permits => Some (Leaving (Ok tt), with_permits permits self)
      | None => None
      end
  | Waiting, FutureDropped => Some (Dropped, self)
  | Leaving answer, Proceed =>
      Some (match answer with Ok _ => Holding | Err e => Refused e end,
            with_waiting (wrapping_add USIZE_MAX self.(rp_waiting) USIZE_MAX) self)
  | Holding, ReservationDropped => Some (Released, with_permits (sem_release self.(rp_permits)) self)
  | _, _ => None
  end.

(** The calls so far and the pool they share. *)
Record PoolSystem := {
  sys_calls : list AcquirePhase;
  sys_pool : ReservationPool S;
}.

Inductive SystemEvent :=
  | Call (wait_timeout : Duration)
  | Step (call : nat) (event : AcquireEvent).

Definition system_step (event : SystemEvent) (sys : PoolSystem) : option PoolSystem :=
  match event with
  | Call wait_timeout =>
      if N.of_nat (length sys.(sys_calls)) <? USIZE_MAX
      then Some {| sys_calls := sys.(sys_calls) ++ [Entered wait_timeout]; sys_pool := sys.(sys_pool) |}
      else None
  | Step call event =>
      phase ← sys.(sys_calls) !! call;
      '(phase, pool) ← acquire_step event phase sys.(sys_pool);
      Some {| sys_calls := <[call := phase]> sys.(sys_calls); sys_pool := pool |}
  end.

Fixpoint system_run (events : list SystemEvent) (sys : PoolSystem) : option PoolSystem :=
  match events with
  | [] => Some sys
  | event :: events => sys ← system_step event sys; system_run events sys
  end.

(** The states a pool can be in, whatever the interleaving. *)
Inductive reachable (permits queue_capacity : N) (wait_timeout : Duration) : PoolSystem → Prop :=
  | reach_new pool :
      reservation_pool_new permits queue_capacity wait_timeout = Ok pool →
      reachable permits queue_capacity wait_timeout {| sys_calls := []; sys_pool := pool |}
  | reach_step event sys sys' :
      reachable permits queue_capacity wait_timeout sys → system_step event sys = Some sys' →
      reachable permits queue_capacity wait_timeout sys'.

(** What a call weighs: on the counter, on the queue, and on the permits. *)
Definition counted (phase : AcquirePhase) : N :=
  match phase with Counted _ | Waiting | Leaving _ | Dropped => 1 | _ => 0 end.

Definition queued (queue_capacity : N) (phase : AcquirePhase) : N :=
  match phase with
  | Counted previous => if previous <? queue_capacity then 1 else 0
  | Waiting | Dropped => 1
  | Leaving (Err ReservationQueueFull) => 0
  | Leaving _ => 1
  | _ => 0
  end.

Definition permitted (phase : AcquirePhase) : N := match phase with Holding | Leaving (Ok _) => 1 | _ => 0 end.

Definition total (weight : AcquirePhase → N) (calls : list AcquirePhase) : N := foldr (λ phase n, weight phase + n) 0 calls.

(** The number of calls at a phase. *)
Definition at_phase (phase : AcquirePhase) (calls : list AcquirePhase) : N := N.of_nat (length (filter (λ p, p = phase) calls)).

(** ** Lemmas *)

Lemma total_app weight a b : total weight (a ++ b) = total weight a + total weight b.
Proof. unfold total. induction a as [|x a IH]; simpl; [done|]. rewrite IH. lia. Qed.

Lemma total_insert weight calls i phase phase' :
  calls !! i = Some phase → total weight (<[i := phase']> calls) + weight phase = total weight calls + weight phase'.
Proof.
  revert i. induction calls as [|x calls IH]; intros [|i] Hi; try done; simpl in *.
  - injection Hi as ->. lia.
  - specialize (IH i Hi). fold (total weight). lia.
Qed.

Lemma total_le weight calls : (∀ phase, weight phase <= 1) → total weight calls <= N.of_nat (length calls).
Proof. intros Hw. induction calls as [|x calls IH]; simpl; [done|]. specialize (Hw x). lia. Qed.

Lemma total_elem weight calls phase : phase ∈ calls → weight phase <= total weight calls.
Proof. induction 1 as [|x calls H0 IH]; simpl; lia. Qed.

Lemma total_mono w1 w2 calls : (∀ phase, w1 phase <= w2 phase) → total w1 calls <= total w2 calls.
Proof. intros Hw. induction calls as [|x calls IH]; simpl; [done|]. specialize (Hw x). lia. Qed.

Record pool_ok (permits queue_capacity : N) (sys : PoolSystem) : Prop := {
  po_calls : N.of_nat (length sys.(sys_calls)) <= USIZE_MAX;
  po_capacity : sys.(sys_pool).(rp_capacity) = permits;
  po_queue_capacity : sys.(sys_pool).(rp_queue_capacity) = queue_capacity;
  po_waiting : sys.(sys_pool).(rp_waiting) = total counted sys.(sys_calls);
  po_permits : sem_available sys.(sys_pool).(rp_permits) + total permitted sys.(sys_calls) = permits;
  po_queued : total (queued queue_capacity) sys.(sys_calls) <= queue_capacity;
}.

Lemma queued_counted queue_capacity phase : queued queue_capacity phase <= counted phase.
Proof. destruct phase as [| |p| |[[]|[]]| | | |]; simpl; try lia. destruct (p <? queue_capacity); lia. Qed.

Lemma counted_le phase : counted phase <= 1.
Proof. destruct phase; simpl; lia. Qed.

Lemma wrapping_pred n : 0 < n → n <= USIZE_MAX → wrapping_add USIZE_MAX n USIZE_MAX = n - 1.
Proof.
  intros Hn Hm. unfold wrapping_add. replace (n + USIZE_MAX) with (n - 1 + 1 * (USIZE_MAX + 1)) by lia.
  rewrite N.Div0.mod_add. apply N.mod_small. lia.
Qed.

(** One move keeps the weights: the pool changes by what the call's weights change by. *)
Lemma acquire_step_weights event phase pool phase' pool' :
  acquire_step event phase pool = Some (phase', pool') →
  pool'.(rp_capacity) = pool.(rp_capacity) ∧ pool'.(rp_queue_capacity) = pool.(rp_queue_capacity) ∧
  sem_available pool'.(rp_permits) + permitted phase' = sem_available pool.(rp_permits) + permitted phase ∧
  ((pool'.(rp_waiting) = pool.(rp_waiting) ∧ counted phase' = counted phase ∧
      queued pool.(rp_queue_capacity) phase' = queued pool.(rp_queue_capacity) phase) ∨
   (phase = NoPermit ∧ phase' = Counted pool.(rp_waiting) ∧ pool'.(rp_waiting) = wrapping_add USIZE_MAX pool.(rp_waiting) 1) ∨
   (counted phase = 1 ∧ counted phase' = 0 ∧ queued pool.(rp_queue_capacity) phase' = 0 ∧
      pool'.(rp_waiting) = wrapping_add USIZE_MAX pool.(rp_waiting) USIZE_MAX)).
Proof.
  destruct phase as [wait| |previous| |answer| | | |], event; simpl; try done.
  - destruct (sem_try_acquire _) as [permits|] eqn:E.
    + intros [= <- <-]. apply sem_acquire_some in E as [? E]. simpl. rewrite E. split_and!; [done|done|lia|by left].
    + destruct (wait =? 0); intros [= <- <-]; simpl; (split_and!; [done|done|lia|by left]).
  - intros [= <- <-]. simpl. split_and!; [done|done|done|right; by left].
  - destruct (N.leb_spec pool.(rp_queue_capacity) previous) as [Hle|Hlt]; intros [= <- <-]; simpl;
      (split_and!; [done|done|done|left; split_and!; [done|done|]]).
    + by rewrite (proj2 (N.ltb_ge _ _) Hle).
    + by rewrite (proj2 (N.ltb_lt _ _) Hlt).
  - intros [= <- <-]. by split_and!; [..|left].
  - intros [= <- <-]. by split_and!; [..|left].
  - destruct (sem_try_acquire _) as [permits|] eqn:E; [|done]. intros [= <- <-].
    apply sem_acquire_some in E as [? E]. simpl. rewrite E. split_and!; [done|done|lia|by left].
  - intros [= <- <-]. by split_and!; [..|left].
  - intros [= <- <-]. destruct answer; simpl; (split_and!; [done|done|lia|right; right; done]).
  - intros [= <- <-]. simpl. rewrite sem_release_available. split_and!; [done|done|lia|by left].
Qed.

Lemma pool_ok_step permits queue_capacity event sys sys' :
  pool_ok permits queue_capacity sys → system_step event sys = Some sys' → pool_ok permits queue_capacity sys'.
Proof.
  intros [Hlen Hcap Hqcap Hw Hp Hq]. destruct event as [wait|i event]; simpl.
  - destruct (N.ltb_spec (N.of_nat (length (sys_calls sys))) USIZE_MAX) as [Hlt|]; [|done]. intros [= <-].
    split; simpl; rewrite ?length_app, ?total_app; simpl; lia.
  - destruct (sys_calls sys !! i) as [phase|] eqn:Ei; [|done]. simpl.
    destruct (acquire_step event phase (sys_pool sys)) as [[phase' pool']|] eqn:E; [|done]. intros [= <-].
    destruct (acquire_step_weights _ _ _ _ _ E) as (Hc1 & Hc2 & Hc3 & Hc4).
    pose proof (total_insert counted _ _ _ phase' Ei) as Tc. pose proof (total_insert permitted _ _ _ phase' Ei) as Tp.
    pose proof (total_insert (queued queue_capacity) _ _ _ phase' Ei) as Tq.
    pose proof (total_le counted (<[i:=phase']> (sys_calls sys)) counted_le) as Tl. rewrite length_insert in Tl.
    pose proof (total_elem counted _ _ (list_elem_of_lookup_2 _ _ _ Ei)) as Te.
    pose proof (total_mono (queued queue_capacity) counted (sys_calls sys) (queued_counted queue_capacity)) as Tm.
    rewrite Hqcap in Hc4. split; simpl; [by rewrite length_insert|congruence|congruence| |lia|].
    + destruct Hc4 as [(-> & Hc & _)|[(-> & -> & ->)|(H1 & H2 & _ & ->)]].
      * lia.
      * simpl in Tc. rewrite wrapping_add_small; lia.
      * rewrite wrapping_pred; [lia|lia|]. pose proof (total_le counted (sys_calls sys) counted_le). lia.
    + destruct Hc4 as [(_ & _ & Hc)|[(-> & -> & _)|(H1 & H2 & H3 & _)]].
      * lia.
      * rewrite Hw in *. simpl in Tq. destruct (N.ltb_spec (total counted (sys_calls sys)) queue_capacity); lia.
      * lia.
Qed.

Lemma at_phase_le weight a b calls :
  a ≠ b → weight a = 1 → weight b = 1 → at_phase a calls + at_phase b calls <= total weight calls.
Proof.
  intros Hne Ha Hb. unfold at_phase. induction calls as [|x calls IH]; simpl; [done|].
  rewrite !filter_cons. fold (total weight). destruct (decide (x = a)) as [->|]; [|destruct (decide (x = b)) as [->|]];
    rewrite ?decide_False by done; simpl length; try rewrite Ha; try rewrite Hb; lia.
Qed.

(** A dropped call stays dropped. *)
Lemma dropped_step event sys sys' :
  system_step event sys = Some sys' → at_phase Dropped sys.(sys_calls) <= at_phase Dropped sys'.(sys_calls).
Proof.
  unfold at_phase. destruct event as [wait|i event]; simpl.
  - destruct (_ <? _); [|done]. intros [= <-]. simpl. rewrite filter_app, length_app. lia.
  - destruct (sys_calls sys !! i) as [phase|] eqn:Ei; [|done]. simpl.
    destruct (acquire_step event phase (sys_pool sys)) as [[phase' pool']|] eqn:E; [|done]. intros [= <-]. simpl.
    assert (phase ≠ Dropped) as Hne by (intros ->; by destruct event).
    clear E. revert i Ei. induction (sys_calls sys) as [|x calls IH]; intros [|i] Ei; try done; simpl in *.
    + injection Ei as ->. rewrite !filter_cons, (decide_False (P := phase = Dropped)) by done.
      destruct (decide _); simpl; lia.
    + specialize (IH i Ei). rewrite !filter_cons. destruct (decide _); simpl; lia.
Qed.

Lemma dropped_run events sys sys' :
  system_run events sys = Some sys' → at_phase Dropped sys.(sys_calls) <= at_phase Dropped sys'.(sys_calls).
Proof.
  revert sys. induction events as [|event events IH]; intros sys; simpl; [intros [= ->]; lia|].
  destruct (system_step event sys) as [sys1|] eqn:E; [|done]. intros H1%IH. apply dropped_step in E. lia.
Qed.

Lemma service_reachable_run permits queue_capacity wait_timeout events sys sys' :
  reachable permits queue_capacity wait_timeout sys → system_run events sys = Some sys' →
  reachable permits queue_capacity wait_timeout sys'.
Proof.
  revert sys. induction events as [|event events IH]; intros sys Hr; simpl; [by intros [= <-]|].
  destruct (system_step event sys) as [sys1|] eqn:E; [|done]. apply IH. by eapply reach_step.
Qed.

Lemma reachable_ok permits queue_capacity wait_timeout sys :
  reachable permits queue_capacity wait_timeout sys → pool_ok permits queue_capacity sys.
Proof.
  induction 1 as [pool Hnew|event sys sys' _ IH Hstep]; [|by eapply pool_ok_step].
  unfold reservation_pool_new in Hnew. destruct (_ || _); [done|]. injection Hnew as <-. split; simpl; try done.
  - rewrite sem_new_available. lia.
  - lia.
Qed.

End pool.
Arguments PoolSystem : clear implicits.

(** ** The delivery state *)

(** the first termination recorded is the one reported. After any sequence of
    terminations the outcome at end of file is that of the first (an upstream
    body error when there is none), and the state is terminal exactly when there was one. *)
Theorem first_termination_wins (states : list ProducerTermination) :
  let self := foldl (λ self state, delivery_finish state self) delivery_default states in
  delivery_is_terminal self = negb (is_empty states) ∧
  eof_outcome self =
    match head states with
    | Some Producer_Complete => Delivery_Complete
    | Some Producer_ClientWriteTimeout => Delivery_ClientWriteTimeout
    | Some Producer_Cancelled => Delivery_ClientDisconnected
    | Some Producer_UpstreamBodyError | None => Delivery_UpstreamBodyError
    end.
Proof.
  destruct states as [|state states]; [done|]. simpl.
  assert (foldl (λ self state, delivery_finish state self) (delivery_finish state delivery_default) states =
          termination_code state) as ->; [|by destruct state].
  change (delivery_finish state delivery_default) with (termination_code state).
  induction states as [|state' states IH]; simpl; [done|]. by destruct state.
Qed.

(** ** Theorems *)

(** the reservation pool keeps its two bounds under every interleaving. The
    permits out and the permits left are the capacity, so [active] counts the
    reservations that are out and never exceeds the capacity; the counter is the
    number of calls between its increment and its decrement; and the calls that
    wait and those dropped while they waited together never exceed the queue
    capacity. *)
Theorem reservation_bounds {S} `{Semaphore S} permits queue_capacity wait_timeout (sys : PoolSystem S) :
  reachable permits queue_capacity wait_timeout sys →
  let pool := sys.(sys_pool) in
  pool_active pool = total permitted sys.(sys_calls) ∧ pool_active pool <= permits ∧
  at_phase Holding sys.(sys_calls) <= permits ∧
  pool.(rp_waiting) = total counted sys.(sys_calls) ∧
  at_phase Waiting sys.(sys_calls) + at_phase Dropped sys.(sys_calls) <= queue_capacity.
Proof.
  intros Hr%reachable_ok pool. destruct Hr as [_ Hcap Hqcap Hw Hp Hq]. unfold pool_active, saturating_sub, pool.
  pose proof (at_phase_le permitted Holding (Leaving (Ok tt)) (sys_calls sys) ltac:(done) eq_refl eq_refl).
  pose proof (at_phase_le (queued queue_capacity) Waiting Dropped (sys_calls sys) ltac:(done) eq_refl eq_refl).
  split_and!; [lia|lia|lia|done|lia].
Qed.

(** One call holds the only permit and another waits. *)
Definition sample_calls : list SystemEvent :=
  [Call 5; Step 0 Proceed; Call 5; Step 1 Proceed; Step 1 Proceed; Step 1 Proceed].

Definition sample_pool : PoolSystem N :=
  {| sys_calls := [];
     sys_pool := {| rp_permits := 1; rp_capacity := 1; rp_waiting := 0; rp_queue_capacity := 1; rp_wait_timeout := 5 |} |}.

Lemma sample_run_reachable events sys : system_run events sample_pool = Some sys → reachable 1 1 5 sys.
Proof. apply service_reachable_run. by apply reach_new. Qed.

Lemma reservation_bounds_witness :
  ∃ sys : PoolSystem N, system_run sample_calls sample_pool = Some sys ∧ sys.(sys_calls) = [Holding; Waiting] ∧
    at_phase Waiting sys.(sys_calls) + at_phase Dropped sys.(sys_calls) <= 1.
Proof.
  eexists. split; [by vm_compute|]. split; [done|].
  apply (reservation_bounds 1 1 5). by apply (sample_run_reachable sample_calls).
Defined.

(** a dropped future keeps its place in the queue for ever. Nothing decrements
    the counter for a call whose future was dropped at the [await]: when as many
    calls were dropped as the queue has places, no call waits from then on,
    whatever happens, and the counter refuses every call that finds no permit. *)
Theorem dropped_futures_fill_queue {S} `{Semaphore S} permits queue_capacity wait_timeout (sys sys' : PoolSystem S) events :
  reachable permits queue_capacity wait_timeout sys →
  at_phase Dropped sys.(sys_calls) = queue_capacity →
  system_run events sys = Some sys' →
  at_phase Waiting sys'.(sys_calls) = 0 ∧ queue_capacity <= sys'.(sys_pool).(rp_waiting).
Proof.
  intros Hr Hd Hrun. pose proof (dropped_run _ _ _ Hrun).
  pose proof (reachable_ok _ _ _ _ (service_reachable_run _ _ _ _ _ _ Hr Hrun)) as [_ _ _ Hw _ Hq].
  pose proof (at_phase_le (queued queue_capacity) Waiting Dropped (sys_calls sys') ltac:(done) eq_refl eq_refl).
  pose proof (at_phase_le counted Waiting Dropped (sys_calls sys') ltac:(done) eq_refl eq_refl). lia.
Qed.

(** The waiting call is dropped and the reservation given back; a new holder is
    admitted and the next call refused although nobody waits. *)
Lemma dropped_futures_fill_queue_witness :
  let dropped := sample_calls ++ [Step 1 FutureDropped; Step 0 ReservationDropped] in
  let later := [Call 5; Step 2 Proceed; Call 5; Step 3 Proceed; Step 3 Proceed; Step 3 Proceed; Step 3 Proceed] in
  ∃ sys sys' : PoolSystem N, system_run dropped sample_pool = Some sys ∧ system_run later sys = Some sys' ∧
    pool_active sys.(sys_pool) = 0 ∧ sys'.(sys_calls) !! 3%nat = Some (Refused ReservationQueueFull) ∧
    at_phase Waiting sys'.(sys_calls) = 0.
Proof.
  intros dropped later. eexists _, _. split; [by vm_compute|]. split; [by vm_compute|]. split; [done|]. split; [done|].
  eapply (dropped_futures_fill_queue 1 1 5 _ _ later).
  - by apply (sample_run_reachable dropped).
  - done.
  - by vm_compute.
Defined.
