(* ===== verification/Spill.v ===== *)
(** The encrypted spill file of a large response: [SpillWriter], [SpillFile] and
    [relay_spill] of [crates/gateway-services/src/response.rs].

    The file system is a map from paths to contents. Whether an operation on it
    succeeds, the random nonces and what the client does with a frame are
    given from outside: [io_ok], [read_ok], [getrandom] and [client]. The cipher is the
    class [Aead]. *)

From Stdlib Require Import Ascii.
From S2P Require Import Prelude Machine.
From S2P Require Import Bytes.
From S2P Require Import Transport.
From S2P Require Import Reservation.
Local Open Scope N_scope.

Definition ENCRYPTED_FRAME_PLAINTEXT : N := 64 * 1024.

Definition AES_GCM_NONCE_LEN : N := 12.

Definition AES_GCM_TAG_LEN : N := 16.

Definition size (l : bytes) : N := N.of_nat (length l).

(** AES-256-GCM: what was encrypted is decrypted with the same key, nonce and
    associated data, and a ciphertext is its message and a tag. *)
Class Aead (C : Type) := {
  aead_new : bytes → option C;
  aead_encrypt : C → bytes → bytes → bytes → option bytes;
  aead_decrypt : C → bytes → bytes → bytes → option bytes;
  aead_decrypt_encrypt c nonce aad msg ciphertext :
    aead_encrypt c nonce aad msg = Some ciphertext → aead_decrypt c nonce aad ciphertext = Some msg;
  aead_size c nonce aad msg ciphertext :
    aead_encrypt c nonce aad msg = Some ciphertext → size ciphertext = size msg + AES_GCM_TAG_LEN;
}.

(** ** The outside world *)
Record World := {
  w_files : gmap string bytes;
  w_operations : nat;
  w_draws : nat;
}.

(** What an operation on the file system is told, and the monad of fallible code over the world. *)
Definition io (A : Type) : Type := World → result ResponseError A * World.

Definition io_ret {A} (a : A) : io A := λ w, (Ok a, w).

Definition io_throw {A} (e : ResponseError) : io A := λ w, (Err e, w).

Definition io_bind {A B} (m : io A) (k : A → io B) : io B := λ w,
  match m w with
  | (Ok a, w) => k a w
  | (Err e, w) => (Err e, w)
  end.

Notation "'let*' x := m 'in' k" := (io_bind m (λ x, k)) (at level 10, x pattern, m at level 100, k at level 200).

Definition of_option {A} (e : ResponseError) (o : option A) : io A :=
  match o with Some a => io_ret a | None => io_throw e end.

(** ** Frames *)

(** [write_u32] and [read_u32]: big endian. *)
Definition u32_be (n : N) : bytes :=
  [ascii_of_N (n / 2 ^ 24 mod 256); ascii_of_N (n / 2 ^ 16 mod 256); ascii_of_N (n / 2 ^ 8 mod 256); ascii_of_N (n mod 256)].

Definition u32_of (l : bytes) : N := foldl (λ n c, 256 * n + byte c) 0 l.

(** [read_exact]: the bytes read and the rest, when there are enough. *)
Definition read_exact (n : N) (l : bytes) : option (bytes * bytes) :=
  if size l <? n then None else Some (take (N.to_nat n) l, drop (N.to_nat n) l).

(** [slice::chunks]; every turn takes at least one byte, so the length is fuel enough. *)
Fixpoint chunks_from (fuel : nat) (n : nat) (l : bytes) : list bytes :=
  match fuel, l with
  | O, _ | _, [] => []
  | S fuel, _ => take n l :: chunks_from fuel n (drop n l)
  end.

Definition chunks (n : nat) (l : bytes) : list bytes := chunks_from (length l) n l.

Record SpillWriter := {
  sw_path : string;
  sw_aad : bytes;
  sw_key : bytes;
  sw_finalized : bool;
}.

Record SpillFile := {
  sf_path : string;
  sf_aad : bytes;
  sf_key : bytes;
}.

Inductive ClientEvent := FrameSent | ClientGone | ClientIdle | ClientCancelled.

Section spill.
Context {C : Type} `{Aead C} (io_ok : nat → bool) (getrandom : nat → option bytes) (read_ok : nat → bool)
  (client : nat → ClientEvent).

(** One operation on the file system; it may fail. *)
Definition operation (e : ResponseError) (f : gmap string bytes → option (gmap string bytes)) : io unit := λ w,
  let w' := {| w_files := w.(w_files); w_operations := S w.(w_operations); w_draws := w.(w_draws) |} in
  if io_ok w.(w_operations) then
    match f w.(w_files) with
    | Some files => (Ok tt, {| w_files := files; w_operations := S w.(w_operations); w_draws := w.(w_draws) |})
    | None => (Err e, w')
    end
  else (Err e, w').

Definition remove_file (e : ResponseError) (path : string) : io unit :=
  operation e (λ files, if decide (is_Some (files !! path)) then Some (delete path files) else None).

Definition draw_nonce : io bytes := λ w,
  let w' := {| w_files := w.(w_files); w_operations := w.(w_operations); w_draws := S w.(w_draws) |} in
  match getrandom w.(w_draws) with
  | Some nonce => (Ok nonce, w')
  | None => (Err SpillCrypto, w')
  end.

Definition append (path : string) (l : bytes) : io unit :=
  operation SpillIo (λ files, Some (<[path := default [] (files !! path) ++ l]> files)).

(** [SpillWriter::create]: the directory, then the new file. *)
Definition spill_create (directory file_id : string) (key : bytes) : io SpillWriter :=
  let* _ := operation SpillIo Some in
  let path := (directory +:+ "/" +:+ file_id +:+ ".r7spill")%string in
  let* _ := operation SpillIo (λ files, if decide (is_Some (files !! path)) then None else Some (<[path := []]> files)) in
  io_ret {| sw_path := path; sw_aad := bs ("super-gateway-response-spill-v1:" +:+ file_id)%string; sw_key := key;
            sw_finalized := false |}.

(** The turn of [write_plaintext] for one chunk. *)
Definition write_frame (cipher : C) (self : SpillWriter) (chunk : bytes) : io unit :=
  let* nonce := draw_nonce in
  let* ciphertext := of_option SpillCrypto (aead_encrypt cipher nonce self.(sw_aad) chunk) in
  let* length := of_option SpillCrypto (if size ciphertext <=? U32_MAX then Some (size ciphertext) else None) in
  let* _ := append self.(sw_path) (u32_be length) in
  let* _ := append self.(sw_path) nonce in
  append self.(sw_path) ciphertext.

Fixpoint write_frames (cipher : C) (self : SpillWriter) (l : list bytes) : io unit :=
  match l with
  | [] => io_ret tt
  | chunk :: l => let* _ := write_frame cipher self chunk in write_frames cipher self l
  end.

Definition write_plaintext (l : bytes) (self : SpillWriter) : io unit :=
  let* cipher := of_option SpillCrypto (aead_new self.(sw_key)) in
  write_frames cipher self (chunks (N.to_nat ENCRYPTED_FRAME_PLAINTEXT) l).

(** [SpillWriter::finish]: flush, then sync. *)
Definition spill_finish (self : SpillWriter) : io SpillFile :=
  let* _ := operation SpillIo Some in
  let* _ := operation SpillIo Some in
  io_ret {| sf_path := self.(sw_path); sf_aad := self.(sw_aad); sf_key := self.(sw_key) |}.

(** [Drop]: a writer that was not finished removes its file; a failure is ignored. *)
Definition spill_drop (self : SpillWriter) : World → World := λ w,
  if self.(sw_finalized) then w else (remove_file SpillIo self.(sw_path) w).2.

(** The loop of [relay_spill_inner] on what is left of the file: the frames sent and how it ended. *)
Fixpoint relay_frames (fuel : nat) (cipher : C) (aad : bytes) (file : bytes) (sent : list bytes)
    : list bytes * result ResponseError unit :=
  match fuel with
  | O => (sent, Ok tt)
  | S fuel =>
      if negb (read_ok (length sent)) then (sent, Err SpillIo)
      else
      match read_exact 4 file with
      | None => (sent, Ok tt)
      | Some (prefix, file) =>
          let length := u32_of prefix in
          if ENCRYPTED_FRAME_PLAINTEXT + AES_GCM_TAG_LEN <? length then (sent, Err SpillFormat)
          else
            match read_exact AES_GCM_NONCE_LEN file with
            | None => (sent, Err SpillIo)
            | Some (nonce, file) =>
                match read_exact length file with
                | None => (sent, Err SpillIo)
                | Some (ciphertext, file) =>
                    match aead_decrypt cipher nonce aad ciphertext with
                    | None => (sent, Err SpillCrypto)
                    | Some plaintext =>
                        match client (List.length sent) with
                        | ClientCancelled => (sent, Err Response_Cancelled)
                        | ClientGone => (sent, Err ClientDisconnected)
                        | ClientIdle => (sent, Err ClientWriteTimeout)
                        | FrameSent => relay_frames fuel cipher aad file (sent ++ [plaintext])
                        end
                    end
                end
            end
      end
  end.

Definition relay_spill_inner (spill : SpillFile) : World → list bytes * result ResponseError unit * World := λ w,
  match operation SpillIo (λ files, if decide (is_Some (files !! spill.(sf_path))) then Some files else None) w with
  | (Err e, w) => ([], Err e, w)
  | (Ok _, w) =>
      match aead_new spill.(sf_key) with
      | None => ([], Err SpillCrypto, w)
      | Some cipher =>
          let file := default [] (w.(w_files) !! spill.(sf_path)) in
          let '(sent, answer) := relay_frames (S (length file)) cipher spill.(sf_aad) file [] in
          (sent, answer, w)
      end
  end.

(** [result.and(cleanup)]. *)
Definition relay_spill (spill : SpillFile) : World → list bytes * result ResponseError unit * World := λ w,
  let '(sent, answer, w) := relay_spill_inner spill w in
  let '(cleanup, w) := remove_file SpillCleanup spill.(sf_path) w in
  (sent, match answer with Ok _ => cleanup | Err e => Err e end, w).

End spill.

(** Several calls of [write_plaintext] on one writer. *)
Fixpoint write_parts `{Aead C} (io_ok : nat → bool) (getrandom : nat → option bytes) (parts : list bytes) (self : SpillWriter) : io unit :=
  match parts with
  | [] => io_ret tt
  | part :: parts =>
      let* _ := write_plaintext io_ok getrandom part self in write_parts io_ok getrandom parts self
  end.

(** The life of a spill file up to its relay. *)
Definition spill_parts `{Aead C} (io_ok : nat → bool) (getrandom : nat → option bytes) (directory file_id : string) (key : bytes)
    (parts : list bytes) : io SpillFile :=
  let* writer := spill_create io_ok directory file_id key in
  let* _ := write_parts io_ok getrandom parts writer in
  spill_finish io_ok writer.

(** A file of frames: the encryption of each chunk, after its length and its nonce. *)
Inductive framed `{Aead C} (cipher : C) (aad : bytes) : list bytes → bytes → Prop :=
  | framed_nil : framed cipher aad [] []
  | framed_cons chunk nonce ciphertext l file :
      aead_encrypt cipher nonce aad chunk = Some ciphertext → size nonce = AES_GCM_NONCE_LEN →
      size chunk <= ENCRYPTED_FRAME_PLAINTEXT → framed cipher aad l file →
      framed cipher aad (chunk :: l) (u32_be (size ciphertext) ++ nonce ++ ciphertext ++ file).

(** ** Lemmas *)

Lemma size_app a b : size (a ++ b) = size a + size b.
Proof. unfold size. rewrite length_app. lia. Qed.

Lemma read_exact_app n a b : size a = n → read_exact n (a ++ b) = Some (a, b).
Proof.
  intros <-. unfold read_exact. rewrite (proj2 (N.ltb_ge _ _)) by (rewrite size_app; lia).
  unfold size. by rewrite Nat2N.id, take_app_length, drop_app_length.
Qed.

Lemma u32_of_be n : n < 2 ^ 32 → u32_of (u32_be n) = n.
Proof.
  intros Hn. unfold u32_of, u32_be. cbn [foldl]. rewrite !N_ascii_embedding by by apply N.mod_lt.
  rewrite (N.mod_small (n / 2 ^ 24)) by (apply N.Div0.div_lt_upper_bound; exact Hn).
  pose proof (N.div_mod (n / 2 ^ 16) 256 ltac:(done)) as H1. pose proof (N.div_mod (n / 2 ^ 8) 256 ltac:(done)) as H2.
  pose proof (N.div_mod n 256 ltac:(done)) as H3. rewrite !N.Div0.div_div in *.
  change (2 ^ 16 * 256) with (2 ^ 24) in *. change (2 ^ 8 * 256) with (2 ^ 16) in *. change (2 ^ 8) with 256 in *. lia.
Qed.

Lemma chunks_spec n l : n ≠ 0%nat →
  concat (chunks n l) = l ∧ Forall (λ c, c ≠ [] ∧ (length c <= n)%nat) (chunks n l).
Proof.
  intros Hn. unfold chunks. assert (length l <= length l)%nat as Hf by done. revert Hf.
  generalize (length l) at 2 3 4. intros fuel. revert l. induction fuel as [|fuel IH]; intros [|c l] Hf; simpl in *; try done; try lia.
  destruct (IH (drop n (c :: l))) as [H1 H2].
  { rewrite length_drop. simpl. lia. }
  split; [by rewrite H1, take_drop|]. constructor; [|done]. split; [by destruct n|]. rewrite length_take. lia.
Qed.

Section spill_lemmas.
Context {C : Type} `{Aead C} (io_ok : nat → bool) (getrandom : nat → option bytes) (read_ok : nat → bool) (client : nat → ClientEvent).
Context (Hnonce : ∀ n nonce, getrandom n = Some nonce → size nonce = AES_GCM_NONCE_LEN).

Lemma framed_app cipher aad l1 l2 file1 file2 :
  framed cipher aad l1 file1 → framed cipher aad l2 file2 → framed cipher aad (l1 ++ l2) (file1 ++ file2).
Proof.
  induction 1 as [|chunk nonce ciphertext l file He Hn Hs Hf IH]; intros H2; simpl; [done|].
  rewrite <- !app_assoc. constructor; auto.
Qed.

Lemma io_bind_ok {A B} (m : io A) (k : A → io B) w b w' :
  io_bind m k w = (Ok b, w') → ∃ a w1, m w = (Ok a, w1) ∧ k a w1 = (Ok b, w').
Proof. unfold io_bind. destruct (m w) as [[a|e] w1]; [|done]. intros Hk. by exists a, w1. Qed.

Lemma operation_ok e f w w' :
  operation io_ok e f w = (Ok tt, w') → ∃ files, f w.(w_files) = Some files ∧ w'.(w_files) = files.
Proof.
  unfold operation. destruct (io_ok _); [|done]. destruct (f _) as [files|]; [|done]. intros [= <-]. by exists files.
Qed.

Lemma append_ok path l w w' :
  append io_ok path l w = (Ok tt, w') → w'.(w_files) = <[path := default [] (w.(w_files) !! path) ++ l]> w.(w_files).
Proof. intros (files & [= <-] & ->)%operation_ok. done. Qed.

(** The file grows by frames of what is written. *)
Lemma write_frame_ok cipher self chunk w w' :
  size chunk <= ENCRYPTED_FRAME_PLAINTEXT → write_frame io_ok getrandom cipher self chunk w = (Ok tt, w') →
  ∃ frame, framed cipher self.(sw_aad) [chunk] frame ∧
    w'.(w_files) = <[self.(sw_path) := default [] (w.(w_files) !! self.(sw_path)) ++ frame]> w.(w_files).
Proof.
  intros Hs. unfold write_frame. intros (nonce & w1 & Hd & Hrest)%io_bind_ok.
  apply io_bind_ok in Hrest as (ct & w2 & He & Hrest). apply io_bind_ok in Hrest as (len & w3 & Hl & Hrest).
  apply io_bind_ok in Hrest as ([] & w4 & H1%append_ok & Hrest).
  apply io_bind_ok in Hrest as ([] & w5 & H2%append_ok & H3%append_ok).
  assert (w3.(w_files) = w.(w_files) ∧ len = size ct ∧ aead_encrypt cipher nonce self.(sw_aad) chunk = Some ct ∧ size nonce = AES_GCM_NONCE_LEN) as (Hw & -> & Henc & Hn).
  { unfold draw_nonce in Hd. destruct (getrandom _) eqn:Eg; [|done]. injection Hd as <- <-.
    destruct (aead_encrypt _ _ _ _) as [ct'|] eqn:Ee; [|done]. injection He as <- <-.
    destruct (_ <=? _); [|done]. injection Hl as <- <-. split_and!; [done|done|done|by eapply Hnonce]. }
  exists (u32_be (size ct) ++ nonce ++ ct). split.
  - rewrite <- (app_nil_r ct) at 2. by repeat constructor.
  - rewrite H3, H2, H1, Hw. rewrite !lookup_insert_eq. simpl. rewrite !insert_insert_eq. by rewrite <- !app_assoc.
Qed.

Lemma write_frames_ok cipher self l w w' :
  Forall (λ c, size c <= ENCRYPTED_FRAME_PLAINTEXT) l → write_frames io_ok getrandom cipher self l w = (Ok tt, w') →
  is_Some (w.(w_files) !! self.(sw_path)) →
  ∃ frames, framed cipher self.(sw_aad) l frames ∧
    w'.(w_files) = <[self.(sw_path) := default [] (w.(w_files) !! self.(sw_path)) ++ frames]> w.(w_files).
Proof.
  intros Hl. revert w. induction Hl as [|chunk l Hs Hl IH]; intros w; simpl.
  - intros [= <-] [content Hc]. exists []. split; [constructor|]. rewrite Hc, app_nil_r. simpl. by rewrite insert_id.
  - intros ([] & w1 & H1 & H2)%io_bind_ok _. destruct (write_frame_ok _ _ _ _ _ Hs H1) as (frame & Hf & Hw1).
    destruct (IH w1 H2) as (frames & Hfs & Hw'). { rewrite Hw1. by rewrite lookup_insert_eq. }
    exists (frame ++ frames). split; [by apply (framed_app cipher _ [chunk])|].
    rewrite Hw', Hw1, lookup_insert_eq. simpl. by rewrite insert_insert_eq, app_assoc.
Qed.

Lemma chunks_small l : Forall (λ c, size c <= ENCRYPTED_FRAME_PLAINTEXT) (chunks (N.to_nat ENCRYPTED_FRAME_PLAINTEXT) l).
Proof.
  assert (∀ n, n ≠ 0 → Forall (λ c, size c <= n) (chunks (N.to_nat n) l)) as Hn; [|by apply Hn].
  intros n Hn. destruct (chunks_spec (N.to_nat n) l ltac:(lia)) as [_ Hc].
  eapply Forall_impl; [exact Hc|]. intros c [_ Hle]. simpl in *. unfold size. lia.
Qed.

Lemma chunks_concat l : concat (chunks (N.to_nat ENCRYPTED_FRAME_PLAINTEXT) l) = l.
Proof.
  assert (∀ n, n ≠ 0 → concat (chunks (N.to_nat n) l) = l) as Hn; [|by apply Hn].
  intros n Hn. by apply (chunks_spec (N.to_nat n) l ltac:(lia)).
Qed.

Lemma write_parts_ok cipher parts self w w' :
  aead_new self.(sw_key) = Some cipher → write_parts io_ok getrandom parts self w = (Ok tt, w') →
  is_Some (w.(w_files) !! self.(sw_path)) →
  ∃ l frames, concat l = concat parts ∧ framed cipher self.(sw_aad) l frames ∧
    w'.(w_files) = <[self.(sw_path) := default [] (w.(w_files) !! self.(sw_path)) ++ frames]> w.(w_files).
Proof.
  intros Hc. revert w. induction parts as [|part parts IH]; intros w; simpl.
  - intros [= <-] [content Hf]. exists [], []. split_and!; [done|constructor|]. rewrite Hf, app_nil_r. simpl. by rewrite insert_id.
  - intros ([] & w1 & H1 & H2)%io_bind_ok Hf. unfold write_plaintext in H1. rewrite Hc in H1.
    destruct (write_frames_ok cipher self _ w w1 (chunks_small part) H1 Hf) as (frames1 & Hf1 & Hw1).
    destruct (IH w1 H2) as (l & frames & Hcat & Hf2 & Hw'). { rewrite Hw1. by rewrite lookup_insert_eq. }
    exists (chunks (N.to_nat ENCRYPTED_FRAME_PLAINTEXT) part ++ l), (frames1 ++ frames).
    rewrite concat_app, chunks_concat, Hcat. split_and!; [done|by apply framed_app|].
    rewrite Hw', Hw1, lookup_insert_eq. simpl. by rewrite insert_insert_eq, app_assoc.
Qed.

Lemma spill_create_ok directory file_id key w w' writer :
  spill_create io_ok directory file_id key w = (Ok writer, w') →
  writer.(sw_key) = key ∧ writer.(sw_finalized) = false ∧ w.(w_files) !! writer.(sw_path) = None ∧
  w'.(w_files) = <[writer.(sw_path) := []]> w.(w_files).
Proof.
  unfold spill_create. intros ([] & w1 & (f1 & [= <-] & H1)%operation_ok & Hrest)%io_bind_ok.
  apply io_bind_ok in Hrest as ([] & w2 & (f2 & Hf & H2)%operation_ok & [= <- <-]). simpl.
  destruct (decide _) as [|Hn]; [done|]. injection Hf as <-. rewrite H1 in *. split_and!; [done|done| |done].
  by apply eq_None_not_Some.
Qed.

Lemma spill_finish_ok writer w w' file :
  spill_finish io_ok writer w = (Ok file, w') →
  w'.(w_files) = w.(w_files) ∧ file = {| sf_path := writer.(sw_path); sf_aad := writer.(sw_aad); sf_key := writer.(sw_key) |}.
Proof.
  unfold spill_finish. intros ([] & w1 & (f1 & [= <-] & H1)%operation_ok & Hrest)%io_bind_ok.
  apply io_bind_ok in Hrest as ([] & w2 & (f2 & [= <-] & H2)%operation_ok & [= <- <-]). split; [congruence|done].
Qed.

Lemma spill_parts_ok directory file_id key cipher parts w w' file :
  aead_new key = Some cipher → spill_parts io_ok getrandom directory file_id key parts w = (Ok file, w') →
  ∃ l content, concat l = concat parts ∧ framed cipher file.(sf_aad) l content ∧ file.(sf_key) = key ∧
    w.(w_files) !! file.(sf_path) = None ∧ w'.(w_files) = <[file.(sf_path) := content]> w.(w_files).
Proof.
  intros Hc. unfold spill_parts. intros (writer & w1 & Hcreate & Hrest)%io_bind_ok.
  apply io_bind_ok in Hrest as ([] & w2 & Hwrite & Hfin). apply spill_create_ok in Hcreate as (Hk & _ & Hnew & Hw1).
  destruct (write_parts_ok cipher parts writer w1 w2) as (l & frames & Hcat & Hf & Hw2).
  { by rewrite Hk. } { done. } { by rewrite Hw1, lookup_insert_eq. }
  apply spill_finish_ok in Hfin as [Hw' ->]. exists l, frames. simpl. split_and!; [done|done|done|done|].
  rewrite Hw', Hw2, Hw1, lookup_insert_eq. simpl. by rewrite insert_insert_eq.
Qed.

Lemma relay_frames_spec cipher aad l file fuel sent :
  framed cipher aad l file → (length file < fuel)%nat →
  let '(sent', answer) := relay_frames read_ok client fuel cipher aad file sent in
  (∃ k, sent' = sent ++ take k l) ∧ (answer = Ok tt → sent' = sent ++ l) ∧
  ((∀ n, read_ok n = true) → (∀ n, client n = FrameSent) → answer = Ok tt).
Proof.
  intros Hf. revert fuel sent. induction Hf as [|chunk nonce ct l file He Hn Hs Hf IH]; intros [|fuel] sent Hfuel; try lia; cbn [relay_frames].
  - destruct (read_ok _) eqn:Er; simpl.
    + split_and!; [by exists 0%nat; rewrite app_nil_r|by rewrite app_nil_r|done].
    + split_and!; [by exists 0%nat; rewrite app_nil_r|done|intros Hr; by rewrite Hr in Er].
  - destruct (read_ok _) eqn:Er; cbn [negb]; [|split_and!; [by exists 0%nat; rewrite app_nil_r|done|intros Hr; by rewrite Hr in Er]].
    pose proof (aead_size _ _ _ _ _ He) as Hsize.
    rewrite read_exact_app by done. rewrite u32_of_be.
    2: { rewrite Hsize. unfold ENCRYPTED_FRAME_PLAINTEXT, AES_GCM_TAG_LEN in *. lia. }
    rewrite (proj2 (N.ltb_ge _ _)) by lia. rewrite read_exact_app by done. rewrite read_exact_app by done.
    rewrite (aead_decrypt_encrypt _ _ _ _ _ He). destruct (client _) eqn:Ecl.
    2,3,4: split_and!; [by exists 0%nat; rewrite app_nil_r|done|intros _ Hcl; by rewrite Hcl in Ecl].
    specialize (IH fuel (sent ++ [chunk])). destruct (relay_frames _ _ _ _ _ _ _) as [sent' answer].
    destruct IH as ((k & ->) & Hok & Hall).
    { rewrite !length_app in Hfuel. simpl in Hfuel. lia. }
    split_and!; [exists (S k); by rewrite <- app_assoc|intros Ha; rewrite (Hok Ha); by rewrite <- app_assoc|done].
Qed.

End spill_lemmas.

Lemma concat_take_prefix {A} k (l : list (list A)) : concat (take k l) `prefix_of` concat l.
Proof. exists (concat (drop k l)). by rewrite <- concat_app, take_drop. Qed.

(** The relay of a file of frames. *)
Lemma relay_spill_spec {C} `{Aead C} io_ok read_ok client file cipher l content w :
  aead_new file.(sf_key) = Some cipher → framed cipher file.(sf_aad) l content → w.(w_files) !! file.(sf_path) = Some content →
  let '(sent, answer, w2) := relay_spill io_ok read_ok client file w in
  concat sent `prefix_of` concat l ∧ (answer = Ok tt → concat sent = concat l) ∧
  ((∀ n, io_ok n = true) → w2.(w_files) = delete file.(sf_path) w.(w_files)) ∧
  ((∀ n, io_ok n = true) → (∀ n, read_ok n = true) → (∀ n, client n = FrameSent) → answer = Ok tt).
Proof.
  intros Hc Hf Hw. assert (is_Some (w_files w !! sf_path file)) as Hin by by rewrite Hw.
  unfold relay_spill, relay_spill_inner, remove_file, operation. rewrite decide_True by done.
  assert (default [] (w_files w !! sf_path file) = content) as Hcontent by by rewrite Hw.
  pose proof (relay_frames_spec read_ok client cipher (sf_aad file) l content (S (length content)) [] Hf ltac:(lia)) as Hr.
  destruct (io_ok (w_operations w)) eqn:Eio.
  - rewrite Hc. cbn [w_files w_operations]. rewrite Hcontent.
    destruct (relay_frames _ _ _ _ _ _ _) as [sent answer]. destruct Hr as ((k & ->) & Hok & Hall). simpl in *.
    rewrite decide_True by done.
    destruct (io_ok (S _)) eqn:Eio'.
    + split_and!; [apply concat_take_prefix| |done|intros _ Hr Hcl; by rewrite Hall].
      destruct answer as [[]|]; [|done]. intros _. by rewrite Hok.
    + split_and!; [apply concat_take_prefix|by destruct answer| |]; intros Hio; by rewrite Hio in Eio'.
  - cbn [w_files w_operations]. rewrite decide_True by done.
    destruct (io_ok (S _)); split_and!; try done; try apply prefix_nil; intros Hio; by rewrite Hio in Eio.
Qed.

(** ** Theorems *)

(** C40: what is spilled is relayed. When a file was created, written in any number
    of parts and finished, its relay sends frames that are a prefix of the
    concatenated parts whatever the client, the disk and the decryption do; it ends
    well only after sending all of them, which it does when the client takes every frame
    and the disk works; and then the files are those there were before. *)
Theorem spill_roundtrip {C} `{Aead C} io_ok getrandom read_ok client directory file_id key cipher parts w w1 file :
  (∀ n nonce, getrandom n = Some nonce → size nonce = AES_GCM_NONCE_LEN) →
  aead_new key = Some cipher →
  spill_parts io_ok getrandom directory file_id key parts w = (Ok file, w1) →
  let '(sent, answer, w2) := relay_spill io_ok read_ok client file w1 in
  concat sent `prefix_of` concat parts ∧ (answer = Ok tt → concat sent = concat parts) ∧
  ((∀ n, io_ok n = true) → w2.(w_files) = w.(w_files)) ∧
  ((∀ n, io_ok n = true) → (∀ n, read_ok n = true) → (∀ n, client n = FrameSent) → answer = Ok tt).
Proof.
  intros Hnonce Hc Hparts.
  destruct (spill_parts_ok _ _ Hnonce _ _ _ _ _ _ _ _ Hc Hparts) as (l & content & Hcat & Hf & Hk & Hnew & Hw1).
  pose proof (relay_spill_spec io_ok read_ok client file cipher l content w1) as Hr.
  rewrite Hw1, Hk, lookup_insert_eq, Hcat, delete_insert_eq, delete_id in Hr by done. by apply Hr.
Qed.

(** A cipher that appends sixteen zero bytes. *)
Definition sample_tag : bytes := replicate 16 "000"%char.

#[export] Program Instance sample_aead : Aead unit := {|
  aead_new := λ _, Some tt;
  aead_encrypt := λ _ _ _ msg, Some (msg ++ sample_tag);
  aead_decrypt := λ _ _ _ ciphertext, Some (take (length ciphertext - 16) ciphertext);
|}.
Next Obligation.
  intros c nonce aad msg ciphertext Hc. injection Hc as <-. rewrite length_app. change (length sample_tag) with 16%nat.
  rewrite Nat.add_sub. by rewrite take_app_length.
Qed.
Next Obligation.
  intros c nonce aad msg ciphertext Hc. injection Hc as <-. by rewrite size_app.
Qed.

Definition sample_world : World := {| w_files := ∅; w_operations := 0; w_draws := 0 |}.

Lemma spill_roundtrip_witness :
  let nonces n := Some (replicate 12 (ascii_of_nat n)) in
  ∃ file w1, spill_parts (λ _, true) nonces "spill" "f1" [] [bs "hello "; bs "world"] sample_world = (Ok file, w1) ∧
  let '(sent, answer, w2) := relay_spill (λ _, true) (λ _, true) (λ _, FrameSent) file w1 in
  answer = Ok tt ∧ concat sent = bs "hello world" ∧ w2.(w_files) = ∅.
Proof.
  intros nonces. eexists _, _. split; [by vm_compute|].
  match goal with |- context [relay_spill _ _ _ ?f ?w] => pose proof (spill_roundtrip (λ _, true) nonces (λ _, true) (λ _, FrameSent)
    "spill" "f1" [] tt [bs "hello "; bs "world"] sample_world w f) as H end.
  destruct (relay_spill _ _ _ _ _) as [[sent answer] w2].
  destruct H as (_ & H1 & H2 & H3); [by intros n nonce [= <-]|done|by vm_compute|].
  split_and!; [by apply H3|by apply H1, H3|by apply H2].
Defined.
