(* ===== verification/ResponsePipeline.v ===== *)
(** The preparation of a client response, streamed or buffered:
    [prepare_streaming] and [prepare_non_stream] of
    [crates/gateway-services/src/response.rs].

    What the awaits of a task observe is its input: the arms of its [select!]s
    as a list of events, the fate of each chunk it hands over, and the
    parameters of [Spill]. What it does is its result: the bytes sent, the calls
    of the side writer, the termination recorded and the usage reported. *)

From Stdlib Require Import Ascii.
From S2P Require Import Prelude Machine.
From S2P Require Import Bytes.
From S2P Require Import Transport.
From S2P Require Import Usage.
From S2P Require Import UsageObserver.
From S2P Require Import Reservation.
From S2P Require Import Spill.
Local Open Scope N_scope.

(** ** The side writer *)
Inductive SideCall :=
  | SideObserve (l : bytes)
  | SideFinish (complete : bool).

(** [Option<Box<dyn ResponseSideWriter>>]: the calls it got, when there is one. *)
Abbreviation SideWriter := (option (list SideCall)).

Definition side_call (call : SideCall) (self : SideWriter) : SideWriter := (λ calls, calls ++ [call]) <$> self.

Definition finish_side_writer (complete : bool) (self : SideWriter) : SideWriter := side_call (SideFinish complete) self.

(** ** The pipeline *)
Definition pipeline_new (config : ResponseConfig) (spill_key : bytes) : result ResponseError (ReservationPool N) :=
  if (config.(rcf_memory_threshold_bytes) =? 0)
     || (config.(rcf_max_non_stream_bytes) <? config.(rcf_memory_threshold_bytes))
     || (config.(rcf_stream_inflight_bytes) =? 0)
     || (config.(rcf_client_write_idle) =? 0)
     || (config.(rcf_non_stream_total) =? 0)
     || negb (size spill_key =? 32)
  then Err InvalidConfiguration
  else reservation_pool_new config.(rcf_max_large_responses) config.(rcf_large_response_queue_capacity) config.(rcf_reservation_wait).

(** [split_bytes]; every turn takes at least one byte, so the length is fuel enough. *)
Fixpoint split_from (fuel : nat) (maximum : N) (l : bytes) : list bytes :=
  match fuel with
  | O => []
  | S fuel =>
      if maximum <? size l then take (N.to_nat maximum) l :: split_from fuel maximum (drop (N.to_nat maximum) l)
      else if is_empty l then [] else [l]
  end.

Definition split_bytes (l : bytes) (maximum : N) : list bytes := split_from (S (length l)) (N.max maximum 1) l.

Section pipeline.
Context {D : Type} `{GzDecoder D} {V : Type} `{JsonValue V} {C : Type} `{Aead C}.
Context (config : ResponseConfig).

(** ** Streaming *)

(** What happens to a chunk: its permits, then its place in the channel. *)
Inductive ChunkFate :=
  | ChunkSent
  | PermitCancelled
  | PermitClosed
  | PermitTimeout
  | SendDisconnected
  | SendTimeout.

(** What the loop's [select!] gives, the end of the list being the end of the
    channel; with an item, the instant and the permits available when it is split. *)
Inductive StreamEvent :=
  | StreamCancelled
  | StreamItem (now : Duration) (available : N) (item : result TransportError bytes).

Record StreamTask := {
  sk_sent : list bytes;
  sk_error : option ResponseError;
  sk_state : PreparedDeliveryState;
  sk_cancelled : bool;
  sk_side : SideWriter;
  sk_observer : EncodedUsageObserver D;
}.

(** Observing an item: the side writer first, then the usage. *)
Definition task_observe (now : Duration) (l : bytes) (task : StreamTask) : StreamTask :=
  {| sk_sent := task.(sk_sent); sk_error := task.(sk_error); sk_state := task.(sk_state); sk_cancelled := task.(sk_cancelled);
     sk_side := side_call (SideObserve l) task.(sk_side); sk_observer := observe now l task.(sk_observer) |}.

Definition task_send (chunk : bytes) (task : StreamTask) : StreamTask :=
  {| sk_sent := task.(sk_sent) ++ [chunk]; sk_error := task.(sk_error); sk_state := task.(sk_state);
     sk_cancelled := task.(sk_cancelled); sk_side := task.(sk_side); sk_observer := task.(sk_observer) |}.

(** The end of the task: the termination, whether it cancels, and the error item if it sends one. *)
Definition task_end (state : ProducerTermination) (cancel : bool) (error : option ResponseError) (complete : bool)
    (task : StreamTask) : StreamTask * ObservedResponseUsage :=
  ({| sk_sent := task.(sk_sent); sk_error := error; sk_state := delivery_finish state task.(sk_state);
      sk_cancelled := task.(sk_cancelled) || cancel; sk_side := finish_side_writer complete task.(sk_side);
      sk_observer := task.(sk_observer) |},
   encoded_finish complete task.(sk_observer)).

(** The loop over the chunks of one item; a chunk that is not sent ends the task. *)
Fixpoint send_chunks (fate : nat → ChunkFate) (chunks : list bytes) (task : StreamTask)
    : StreamTask + (StreamTask * ObservedResponseUsage) :=
  match chunks with
  | [] => inl task
  | chunk :: chunks =>
      if U32_MAX <? size chunk
      then inr (task_end Producer_UpstreamBodyError true (Some BackpressureInvariant) false task)
      else
        match fate (length task.(sk_sent)) with
        | PermitCancelled => inr (task_end Producer_Cancelled false None false task)
        | PermitClosed => inr (task_end Producer_UpstreamBodyError false None false task)
        | PermitTimeout => inr (task_end Producer_ClientWriteTimeout true None false task)
        | SendDisconnected => inr (task_end Producer_Cancelled true None false task)
        | SendTimeout => inr (task_end Producer_ClientWriteTimeout true None false task)
        | ChunkSent => send_chunks fate chunks (task_send chunk task)
        end
  end.

(** The loop over the upstream items, and what follows it; [cancelled] is the
    token when the channel is found closed. *)
Fixpoint stream_loop (fate : nat → ChunkFate) (cancelled : bool) (events : list StreamEvent) (task : StreamTask)
    : StreamTask * ObservedResponseUsage :=
  match events with
  | [] =>
      if cancelled then task_end Producer_Cancelled false None false task
      else task_end Producer_Complete false None true task
  | StreamCancelled :: _ => task_end Producer_Cancelled false None false task
  | StreamItem _ _ (Err error) :: _ => task_end Producer_UpstreamBodyError false (Some (Response_Transport error)) false task
  | StreamItem now available (Ok l) :: events =>
      match send_chunks fate (split_bytes l (N.max available 1)) (task_observe now l task) with
      | inl task => stream_loop fate cancelled events task
      | inr done => done
      end
  end.

Definition prepare_streaming (content_encoding : option bytes) (side_writer : SideWriter) (fate : nat → ChunkFate)
    (cancelled : bool) (events : list StreamEvent) : StreamTask * ObservedResponseUsage :=
  stream_loop fate cancelled events
    {| sk_sent := []; sk_error := None; sk_state := delivery_default; sk_cancelled := false; sk_side := side_writer;
       sk_observer := encoded_new content_encoding true |}.

(** ** Buffering *)
Context (io_ok : nat → bool) (getrandom : nat → option bytes).
Context (acquire : result ResponseError unit) (directory file_id : string) (spill_key : bytes).

Inductive UpstreamEvent :=
  | UpstreamCancelled
  | TotalTimeout
  | Upstream (now : Duration) (item : result TransportError bytes).

Record Preparing := {
  pr_memory : bytes;
  pr_spill : option SpillWriter;
  pr_total : N;
  pr_observer : EncodedUsageObserver D;
  pr_side : SideWriter;
  pr_cancelled : bool;
  pr_reservation : bool;
  pr_world : World;
}.

Definition with_pr_memory (memory : bytes) (s : Preparing) : Preparing :=
  Build_Preparing memory s.(pr_spill) s.(pr_total) s.(pr_observer) s.(pr_side) s.(pr_cancelled) s.(pr_reservation) s.(pr_world).

Definition with_pr_spill (spill : option SpillWriter) (s : Preparing) : Preparing :=
  Build_Preparing s.(pr_memory) spill s.(pr_total) s.(pr_observer) s.(pr_side) s.(pr_cancelled) s.(pr_reservation) s.(pr_world).

Definition with_pr_total (total : N) (s : Preparing) : Preparing :=
  Build_Preparing s.(pr_memory) s.(pr_spill) total s.(pr_observer) s.(pr_side) s.(pr_cancelled) s.(pr_reservation) s.(pr_world).

Definition with_pr_observed (observer : EncodedUsageObserver D) (side : SideWriter) (s : Preparing) : Preparing :=
  Build_Preparing s.(pr_memory) s.(pr_spill) s.(pr_total) observer side s.(pr_cancelled) s.(pr_reservation) s.(pr_world).

Definition with_pr_side (side : SideWriter) (s : Preparing) : Preparing := with_pr_observed s.(pr_observer) side s.

Definition with_pr_cancelled (cancelled : bool) (s : Preparing) : Preparing :=
  Build_Preparing s.(pr_memory) s.(pr_spill) s.(pr_total) s.(pr_observer) s.(pr_side) cancelled s.(pr_reservation) s.(pr_world).

Definition with_pr_reservation (reservation : bool) (s : Preparing) : Preparing :=
  Build_Preparing s.(pr_memory) s.(pr_spill) s.(pr_total) s.(pr_observer) s.(pr_side) s.(pr_cancelled) reservation s.(pr_world).

Definition with_pr_world (world : World) (s : Preparing) : Preparing :=
  Build_Preparing s.(pr_memory) s.(pr_spill) s.(pr_total) s.(pr_observer) s.(pr_side) s.(pr_cancelled) s.(pr_reservation) world.

(** The start of the spill: the reservation, the file, what memory holds. *)
Definition start_spill (s : Preparing) : result ResponseError unit * Preparing :=
  match (if s.(pr_reservation) then Ok tt else acquire) with
  | Err e => (Err e, s)
  | Ok _ =>
      let s := with_pr_reservation false s in
      match spill_create io_ok directory file_id spill_key s.(pr_world) with
      | (Err e, world) => (Err e, with_pr_world world s)
      | (Ok writer, world) =>
          match write_plaintext io_ok getrandom s.(pr_memory) writer world with
          | (Err e, world) => (Err e, with_pr_world (spill_drop io_ok writer world) s)
          | (Ok _, world) => (Ok tt, with_pr_spill (Some writer) (with_pr_memory [] (with_pr_world world s)))
          end
      end
  end.

(** [if let Some(writer) = spill.as_mut() { writer.write_plaintext(&bytes).await? }]. *)
Definition append_spill (l : bytes) (s : Preparing) : result ResponseError unit * Preparing :=
  match s.(pr_spill) with
  | None => (Ok tt, s)
  | Some writer =>
      let '(answer, world) := write_plaintext io_ok getrandom l writer s.(pr_world) in (answer, with_pr_world world s)
  end.

(** The turn of the loop on the bytes of one item. *)
Definition buffer_bytes (now : Duration) (l : bytes) (s : Preparing) : result ResponseError unit * Preparing :=
  let s := with_pr_observed (observe now l s.(pr_observer)) (side_call (SideObserve l) s.(pr_side)) s in
  match checked_add USIZE_MAX s.(pr_total) (size l) with
  | None => (Err ResponseTooLarge, s)
  | Some total =>
      let s := with_pr_total total s in
      if config.(rcf_max_non_stream_bytes) <? total
      then (Err ResponseTooLarge, with_pr_side (finish_side_writer false s.(pr_side)) (with_pr_cancelled true s))
      else if negb (is_some s.(pr_spill)) && (total <=? config.(rcf_memory_threshold_bytes))
      then (Ok tt, with_pr_memory (s.(pr_memory) ++ l) s)
      else
        match (if is_some s.(pr_spill) then (Ok tt, s) else start_spill s) with
        | (Err e, s) => (Err e, s)
        | (Ok _, s) => append_spill l s
        end
  end.

Fixpoint buffer_loop (events : list UpstreamEvent) (s : Preparing) : result ResponseError unit * Preparing :=
  match events with
  | [] => (Ok tt, s)
  | UpstreamCancelled :: _ => (Err Response_Cancelled, with_pr_side (finish_side_writer false s.(pr_side)) s)
  | TotalTimeout :: _ =>
      (Err ResponseTotalTimeout, with_pr_side (finish_side_writer false s.(pr_side)) (with_pr_cancelled true s))
  | Upstream _ (Err error) :: _ => (Err (Response_Transport error), with_pr_side (finish_side_writer false s.(pr_side)) s)
  | Upstream now (Ok l) :: events =>
      match buffer_bytes now l s with
      | (Err e, s) => (Err e, s)
      | (Ok _, s) => buffer_loop events s
      end
  end.

(** The end of the function: the local [spill] is dropped when an error is returned. *)
Definition drop_spill (s : Preparing) : Preparing :=
  match s.(pr_spill) with
  | None => s
  | Some writer => with_pr_world (spill_drop io_ok writer s.(pr_world)) s
  end.

Inductive PreparedBody :=
  | MemoryBody (l : bytes)
  | SpillBody (file : SpillFile).

Record PreparedNonStream := {
  pn_body : PreparedBody;
  pn_usage : ObservedResponseUsage;
  pn_admission : bool;
}.

Definition pn_tier (self : PreparedNonStream) : BufferTier :=
  match self.(pn_body) with MemoryBody _ => Memory | SpillBody _ => EncryptedSpill end.

Definition prepare_non_stream (events : list UpstreamEvent) (content_encoding : option bytes) (side_writer : SideWriter)
    (reservation : bool) (world : World) : result ResponseError PreparedNonStream * Preparing :=
  let s := {| pr_memory := []; pr_spill := None; pr_total := 0; pr_observer := encoded_new content_encoding false;
              pr_side := side_writer; pr_cancelled := false; pr_reservation := reservation; pr_world := world |} in
  match buffer_loop events s with
  | (Err e, s) => (Err e, drop_spill s)
  | (Ok _, s) =>
      let s := with_pr_side (finish_side_writer true s.(pr_side)) s in
      let usage := encoded_finish true s.(pr_observer) in
      match s.(pr_spill) with
      | None => (Ok {| pn_body := MemoryBody s.(pr_memory); pn_usage := usage; pn_admission := s.(pr_reservation) |}, s)
      | Some writer =>
          match spill_finish io_ok writer s.(pr_world) with
          | (Err e, world) => (Err e, drop_spill (with_pr_world world s))
          | (Ok file, world) =>
              (Ok {| pn_body := SpillBody file; pn_usage := usage; pn_admission := false |}, with_pr_world world s)
          end
      end
  end.

(** The task that relays the file: what it records and the item it sends last, given the answer of [relay_spill]. *)
Definition spill_task (answer : result ResponseError unit) (state : PreparedDeliveryState)
    : PreparedDeliveryState * option ResponseError :=
  match answer with
  | Ok _ => (delivery_finish Producer_Complete state, None)
  | Err ClientWriteTimeout => (delivery_finish Producer_ClientWriteTimeout state, Some ClientWriteTimeout)
  | Err Response_Cancelled | Err ClientDisconnected => (delivery_finish Producer_Cancelled state, None)
  | Err e => (delivery_finish Producer_UpstreamBodyError state, Some e)
  end.

End pipeline.


(** The items of a stream, up to its first error or cancellation. *)
Fixpoint stream_items (events : list StreamEvent) : list (Duration * bytes) :=
  match events with
  | StreamItem now _ (Ok l) :: events => (now, l) :: stream_items events
  | _ => []
  end.

Definition observe_items {D} `{GzDecoder D} {V} `{JsonValue V} (items : list (Duration * bytes)) (self : EncodedUsageObserver D)
    : EncodedUsageObserver D := foldl (λ self item, observe item.1 item.2 self) self items.

Definition side_items (items : list (Duration * bytes)) : SideWriter → SideWriter :=
  fmap (λ calls, calls ++ (SideObserve <$> items.*2)).

(** ** Lemmas *)

Lemma split_from_spec fuel n l : n ≠ 0 → (length l < fuel)%nat →
  concat (split_from fuel n l) = l ∧ Forall (λ c, c ≠ [] ∧ size c <= n) (split_from fuel n l).
Proof.
  intros Hn. revert l. induction fuel as [|fuel IH]; intros l Hf; [lia|]. cbn [split_from].
  destruct (n <? size l) eqn:E.
  - apply N.ltb_lt in E. unfold size in E. destruct (IH (drop (N.to_nat n) l)) as [H1 H2].
    { rewrite length_drop. lia. }
    cbn [concat]. rewrite H1, take_drop. split; [done|]. constructor; [|done]. unfold size. rewrite length_take. split; [|lia].
    intros Ht. apply (f_equal length) in Ht. rewrite length_take in Ht. simpl in Ht. lia.
  - apply N.ltb_ge in E. destruct l as [|c l]; simpl; [done|]. rewrite app_nil_r. split; [done|]. by repeat constructor.
Qed.

(** The chunks are the bytes, none is empty, none is above the maximum. *)
Lemma split_bytes_spec l maximum :
  concat (split_bytes l maximum) = l ∧ Forall (λ c, c ≠ [] ∧ size c <= N.max maximum 1) (split_bytes l maximum).
Proof. apply split_from_spec; lia. Qed.

Lemma side_items_app a b side : side_items (a ++ b) side = side_items b (side_items a side).
Proof. destruct side; simpl; [|done]. f_equal. by rewrite !fmap_app, app_assoc. Qed.

Lemma side_items_one now l side : side_call (SideObserve l) side = side_items [(now, l)] side.
Proof. done. Qed.

Section stream_lemmas.
Context {D : Type} `{GzDecoder D} {V : Type} `{JsonValue V}.
Implicit Types (task : StreamTask (D := D)).

(** The task after some items and some chunks. *)
Definition task_after (items : list (Duration * bytes)) (sent : list bytes) task : StreamTask :=
  {| sk_sent := task.(sk_sent) ++ sent; sk_error := task.(sk_error); sk_state := task.(sk_state);
     sk_cancelled := task.(sk_cancelled); sk_side := side_items items task.(sk_side);
     sk_observer := observe_items items task.(sk_observer) |}.

Lemma task_after_nil task : task_after [] [] task = task.
Proof. destruct task as [s e st c [side|] o]; unfold task_after; simpl; by rewrite ?app_nil_r. Qed.

Lemma task_after_app i1 s1 i2 s2 task : task_after i2 s2 (task_after i1 s1 task) = task_after (i1 ++ i2) (s1 ++ s2) task.
Proof. unfold task_after, observe_items. simpl. by rewrite side_items_app, foldl_app, app_assoc. Qed.

Lemma task_send_after chunk task : task_send chunk task = task_after [] [chunk] task.
Proof. destruct task as [s e st c [side|] o]; unfold task_after, task_send; simpl; by rewrite ?app_nil_r. Qed.

Lemma task_observe_after now l task : task_observe now l task = task_after [(now, l)] [] task.
Proof. unfold task_after, task_observe. simpl. by rewrite app_nil_r. Qed.

(** A task that ends before the end of its body. *)
Definition task_ends task (done : StreamTask * ObservedResponseUsage) : Prop :=
  ∃ state cancel error, done = task_end state cancel error false task ∧ state ≠ Producer_Complete ∧
    (is_Some error → state = Producer_UpstreamBodyError) ∧ (state = Producer_ClientWriteTimeout → cancel = true).

Ltac ends := eexists _, _, _; split; [reflexivity|]; split_and!; first [done|by intros [? [=]]].

Lemma send_chunks_spec fate chunks task :
  match send_chunks fate chunks task with
  | inl task' => task' = task_after [] chunks task
  | inr done => ∃ k, task_ends (task_after [] (take k chunks) task) done
  end.
Proof.
  revert task. induction chunks as [|chunk chunks IH]; intros task; cbn [send_chunks]; [by rewrite task_after_nil|].
  destruct (_ <? _); [exists 0%nat; rewrite task_after_nil; ends|].
  destruct (fate _); try (exists 0%nat; rewrite task_after_nil; ends).
  specialize (IH (task_send chunk task)). destruct (send_chunks _ _ _) as [task'|done].
  - rewrite IH, task_send_after, task_after_app. done.
  - destruct IH as (k & Hk). exists (S k). rewrite task_send_after, task_after_app in Hk. exact Hk.
Qed.

Lemma send_chunks_sent fate chunks task :
  (∀ n, fate n = ChunkSent) → Forall (λ c, size c <= U32_MAX) chunks → send_chunks fate chunks task = inl (task_after [] chunks task).
Proof.
  intros Hfate Hc. revert task. induction Hc as [|chunk chunks Hs Hc IH]; intros task; cbn [send_chunks]; [by rewrite task_after_nil|].
  rewrite (proj2 (N.ltb_ge _ _) Hs), Hfate, IH, task_send_after, task_after_app. done.
Qed.

Lemma stream_loop_spec fate cancelled events task :
  ∃ items sent, items `prefix_of` stream_items events ∧ concat sent `prefix_of` concat items.*2 ∧ Forall (.≠ []) sent ∧
  (task_ends (task_after items sent task) (stream_loop fate cancelled events task) ∨
   (length items = length events ∧ cancelled = false ∧ concat sent = concat items.*2 ∧
    stream_loop fate cancelled events task = task_end Producer_Complete false None true (task_after items sent task))).
Proof.
  revert task. induction events as [|[|now available [l|e]] events IH]; intros task; cbn [stream_loop stream_items].
  - exists [], []. rewrite task_after_nil. split_and!; [done|done|done|]. destruct cancelled; [|by right].
    left. ends.
  - exists [], []. rewrite task_after_nil. split_and!; [done|done|done|]. left. ends.
  - rewrite task_observe_after. destruct (split_bytes_spec l (N.max available 1)) as [Hcat Hne].
    assert (Forall (.≠ []) (split_bytes l (N.max available 1))) as Hne' by (eapply Forall_impl; [exact Hne|]; by intros c []).
    pose proof (send_chunks_spec fate (split_bytes l (N.max available 1)) (task_after [(now, l)] [] task)) as Hs.
    destruct (send_chunks _ _ _) as [task'|done].
    + subst task'. rewrite task_after_app. simpl app.
      destruct (IH (task_after [(now, l)] (split_bytes l (N.max available 1)) task)) as (items & sent & Hi & Hp & Hf & Hend).
      rewrite task_after_app in Hend. exists ((now, l) :: items), (split_bytes l (N.max available 1) ++ sent).
      rewrite concat_app, Hcat. simpl. split_and!; [by apply prefix_cons|by apply prefix_app|by apply Forall_app|].
      destruct Hend as [Hend|(Hl & -> & Hc & Hend)]; [by left|right]. split_and!; [by f_equal|done|by rewrite Hc|done].
    + destruct Hs as (k & Hk). rewrite task_after_app in Hk. exists [(now, l)], (take k (split_bytes l (N.max available 1))).
      split_and!; [by apply prefix_cons, prefix_nil| |by apply Forall_take|by left].
      simpl. rewrite app_nil_r. rewrite <- Hcat at 2. apply concat_take_prefix.
  - exists [], []. rewrite task_after_nil. split_and!; [done|done|done|]. left. ends.
Qed.

End stream_lemmas.

Lemma elem_of_concat_size (c l : bytes) chunks : concat chunks = l → c ∈ chunks → size c <= size l.
Proof.
  intros <- Hc. apply list_elem_of_split in Hc as (l1 & l2 & ->). rewrite concat_app. simpl. rewrite !size_app. lia.
Qed.

Lemma split_bytes_small l maximum : size l <= U32_MAX → Forall (λ c, size c <= U32_MAX) (split_bytes l maximum).
Proof.
  intros Hl. apply Forall_forall. intros c Hc.
  pose proof (elem_of_concat_size c l _ (proj1 (split_bytes_spec l maximum)) Hc). lia.
Qed.

Lemma stream_items_length events : (length (stream_items events) <= length events)%nat.
Proof. induction events as [|[|now available [l|e]] events IH]; simpl; lia. Qed.

Definition good_item (event : StreamEvent) : Prop :=
  match event with StreamItem _ _ (Ok l) => size l <= U32_MAX | _ => False end.

Lemma stream_loop_complete {D} `{GzDecoder D} {V} `{JsonValue V} fate events (task : StreamTask (D := D)) :
  (∀ n, fate n = ChunkSent) → Forall good_item events →
  ∃ task', stream_loop fate false events task = task_end Producer_Complete false None true task' ∧ task'.(sk_state) = task.(sk_state).
Proof.
  intros Hfate Hgood. revert task. induction Hgood as [|[|now available [l|e]] events Hg Hgood IH]; intros task; simpl; try done.
  - by exists task.
  - simpl in Hg. rewrite send_chunks_sent by (done || by apply split_bytes_small).
    destruct (IH (task_after [] (split_bytes l (N.max available 1)) (task_observe now l task))) as (task' & Ht & Hst).
    by exists task'.
Qed.

(** *** Buffering *)

(** The items of a response that is not streamed, up to its first error or interruption. *)
Fixpoint upstream_items (events : list UpstreamEvent) : list (Duration * bytes) :=
  match events with
  | Upstream now (Ok l) :: events => (now, l) :: upstream_items events
  | _ => []
  end.

(** The operations of a writer change its file and no other. *)
Definition touches {A} (path : string) (m : io A) : Prop :=
  ∀ w, is_Some (w.(w_files) !! path) → ∃ content, (m w).2.(w_files) = <[path := content]> w.(w_files).

Lemma touches_same {A} path (m : io A) : (∀ w, (m w).2.(w_files) = w.(w_files)) → touches path m.
Proof. intros Hm w [content Hc]. exists content. by rewrite Hm, insert_id. Qed.

Lemma touches_bind {A B} path (m : io A) (k : A → io B) : touches path m → (∀ a, touches path (k a)) → touches path (io_bind m k).
Proof.
  intros Hm Hk w Hw. destruct (Hm w Hw) as [c1 H1]. unfold io_bind. destruct (m w) as [[a|e] w1]; [|by exists c1].
  simpl in H1. destruct (Hk a w1) as [c2 H2]; [by rewrite H1, lookup_insert_eq|]. exists c2. by rewrite H2, H1, insert_insert_eq.
Qed.

Lemma touches_option {A} path e (o : option A) : touches path (of_option e o).
Proof. apply touches_same. by destruct o. Qed.

Lemma touches_append io_ok path l : touches path (append io_ok path l).
Proof.
  intros w Hw. unfold append, operation. destruct (io_ok _); simpl; [by eexists|]. destruct Hw as [content Hc].
  exists content. by rewrite insert_id.
Qed.

Lemma touches_write `{Aead C} io_ok getrandom l writer : touches writer.(sw_path) (write_plaintext io_ok getrandom l writer).
Proof.
  apply touches_bind; [apply touches_option|]. intros cipher. generalize (chunks (N.to_nat ENCRYPTED_FRAME_PLAINTEXT) l).
  intros parts. induction parts as [|chunk parts IH]; simpl; [by apply touches_same|]. apply touches_bind; [|done].
  unfold write_frame. repeat (apply touches_bind; [|intros ?]); try apply touches_option; try apply touches_append.
  apply touches_same. intros w. unfold draw_nonce. by destruct (getrandom _).
Qed.

Lemma spill_create_err io_ok directory file_id key w e w' :
  spill_create io_ok directory file_id key w = (Err e, w') → w'.(w_files) = w.(w_files).
Proof.
  unfold spill_create, io_bind, operation. destruct (io_ok _); simpl; [|by intros [= <- <-]].
  destruct (io_ok _); simpl; [|by intros [= <- <-]]. destruct (decide _); by intros [= <- <-].
Qed.

Lemma spill_finish_files io_ok writer w : (spill_finish io_ok writer w).2.(w_files) = w.(w_files).
Proof. unfold spill_finish, io_bind, operation. by repeat (destruct (io_ok _); simpl). Qed.

Section buffer_lemmas.
Context {D : Type} `{GzDecoder D} {V : Type} `{JsonValue V} {C : Type} `{Aead C}.
Context (config : ResponseConfig) (io_ok : nat → bool) (getrandom : nat → option bytes).
Context (acquire : result ResponseError unit) (directory file_id : string) (spill_key : bytes).
Context (encoding : option bytes) (side_writer : SideWriter) (reservation : bool) (world : World).
Implicit Types (s : Preparing (D := D)).

(** The files are those of the beginning and that of the writer. *)
Definition owned s : Prop :=
  match s.(pr_spill) with
  | None => s.(pr_world).(w_files) = world.(w_files)
  | Some writer => writer.(sw_finalized) = false ∧ world.(w_files) !! writer.(sw_path) = None ∧
      ∃ content, s.(pr_world).(w_files) = <[writer.(sw_path) := content]> world.(w_files)
  end.

Lemma spill_drop_files writer w content : (∀ n, io_ok n = true) → writer.(sw_finalized) = false →
  world.(w_files) !! writer.(sw_path) = None → w.(w_files) = <[writer.(sw_path) := content]> world.(w_files) →
  (spill_drop io_ok writer w).(w_files) = world.(w_files).
Proof.
  intros Hio Hf Hn Hw. unfold spill_drop. rewrite Hf. unfold remove_file, operation. rewrite Hio, Hw, decide_True.
  - simpl. by rewrite delete_insert_eq, delete_id.
  - by rewrite lookup_insert_eq.
Qed.

Lemma owned_drop s : (∀ n, io_ok n = true) → owned s → (drop_spill io_ok s).(pr_world).(w_files) = world.(w_files).
Proof.
  intros Hio. unfold owned, drop_spill. destruct (pr_spill s) as [writer|]; [|done]. intros (Hf & Hn & content & Hw).
  by eapply spill_drop_files.
Qed.

Lemma owned_start s : (∀ n, io_ok n = true) → s.(pr_spill) = None → owned s →
  owned (start_spill io_ok getrandom acquire directory file_id spill_key s).2.
Proof.
  intros Hio Hs Ho. unfold start_spill. destruct (if pr_reservation s then _ else _) as [?|e]; [|done].
  unfold owned in Ho. rewrite Hs in Ho. simpl. destruct (spill_create _ _ _ _ _) as [[writer|e] w] eqn:Ec.
  - apply spill_create_ok in Ec as (_ & Hf & Hn & Hw). rewrite Ho in *.
    destruct (touches_write io_ok getrandom (pr_memory s) writer w) as [content Hc]; [by rewrite Hw, lookup_insert_eq|].
    rewrite Hw, insert_insert_eq in Hc. destruct (write_plaintext _ _ _ _ _) as [[[]|e] w']; unfold owned; simpl in *.
    + split_and!; [done|done|by exists content].
    + rewrite Hs. by eapply spill_drop_files.
  - apply spill_create_err in Ec. unfold owned. simpl. by rewrite Hs, Ec.
Qed.

Lemma owned_append l s : owned s → owned (append_spill io_ok getrandom l s).2.
Proof.
  unfold append_spill. destruct (pr_spill s) as [writer|] eqn:Hs; [|done]. unfold owned at 1. rewrite Hs.
  intros (Hf & Hn & content & Hw).
  destruct (touches_write io_ok getrandom l writer (pr_world s)) as [content' Hc]; [by rewrite Hw, lookup_insert_eq|].
  rewrite Hw, insert_insert_eq in Hc. destruct (write_plaintext _ _ _ _ _) as [answer w']. unfold owned. simpl in *. rewrite Hs.
  split_and!; [done|done|by exists content'].
Qed.

Lemma owned_bytes now l s : (∀ n, io_ok n = true) → owned s →
  owned (buffer_bytes config io_ok getrandom acquire directory file_id spill_key now l s).2.
Proof.
  intros Hio Ho. unfold buffer_bytes. destruct (checked_add _ _ _) as [total|]; [|done]. destruct (_ <? _); [done|].
  set (s1 := with_pr_total _ _). assert (owned s1) as Ho1 by done. clearbody s1. destruct (negb _ && _); [done|].
  destruct (is_some (pr_spill s1)) eqn:Es; [by apply owned_append|].
  pose proof (owned_start s1 Hio) as Hst. destruct (start_spill _ _ _ _ _ _ _) as [[[]|e] s2].
  - apply owned_append, Hst; [by destruct (pr_spill s1)|done].
  - apply Hst; [by destruct (pr_spill s1)|done].
Qed.

Lemma owned_loop events s : (∀ n, io_ok n = true) → owned s →
  owned (buffer_loop config io_ok getrandom acquire directory file_id spill_key events s).2.
Proof.
  intros Hio. revert s. induction events as [|[| |now [l|e]] events IH]; intros s Ho; simpl; try done.
  pose proof (owned_bytes now l s Hio Ho) as Hb. destruct (buffer_bytes _ _ _ _ _ _ _ _ _ _) as [[[]|e] s1]; [by apply IH|done].
Qed.

(** What has been received is in memory, below the threshold, or in the frames of the file. *)
Definition buffered (cipher : C) (l : bytes) s : Prop :=
  match s.(pr_spill) with
  | None => s.(pr_memory) = l ∧ size l <= config.(rcf_memory_threshold_bytes) ∧
      s.(pr_reservation) = reservation ∧ s.(pr_world).(w_files) = world.(w_files)
  | Some writer =>
      writer.(sw_key) = spill_key ∧ config.(rcf_memory_threshold_bytes) < size l ∧ world.(w_files) !! writer.(sw_path) = None ∧
      ∃ chunks content, concat chunks = l ∧ framed cipher writer.(sw_aad) chunks content ∧
        s.(pr_world).(w_files) = <[writer.(sw_path) := content]> world.(w_files)
  end.

Definition holds (cipher : C) (items : list (Duration * bytes)) s : Prop :=
  s.(pr_total) = size (concat items.*2) ∧ s.(pr_total) <= config.(rcf_max_non_stream_bytes) ∧
  s.(pr_side) = side_items items side_writer ∧ s.(pr_observer) = observe_items items (encoded_new encoding false) ∧
  buffered cipher (concat items.*2) s.

Context (cipher : C) (Hnonce : ∀ n nonce, getrandom n = Some nonce → size nonce = AES_GCM_NONCE_LEN).
Context (Hkey : aead_new spill_key = Some cipher).

(** One more part of the file. *)
Lemma write_buffered l part (writer : SpillWriter) w w' chunks content :
  writer.(sw_key) = spill_key → concat chunks = l → framed cipher writer.(sw_aad) chunks content →
  w.(w_files) = <[writer.(sw_path) := content]> world.(w_files) → write_plaintext io_ok getrandom part writer w = (Ok tt, w') →
  ∃ chunks content, concat chunks = l ++ part ∧ framed cipher writer.(sw_aad) chunks content ∧
    w'.(w_files) = <[writer.(sw_path) := content]> world.(w_files).
Proof.
  intros Hk Hl Hf Hw Hp. destruct (write_parts_ok io_ok getrandom Hnonce cipher [part] writer w w') as (chunks' & content' & Hcat & Hf' & Hw').
  - by rewrite Hk.
  - simpl. unfold io_bind. by rewrite Hp.
  - by rewrite Hw, lookup_insert_eq.
  - simpl in Hcat. rewrite app_nil_r in Hcat. exists (chunks ++ chunks'), (content ++ content').
    rewrite Hw, lookup_insert_eq, insert_insert_eq in Hw'. rewrite concat_app, Hl, Hcat. split_and!; [done|by apply framed_app|done].
Qed.

Lemma start_buffered l s s' :
  buffered cipher l s → s.(pr_spill) = None → start_spill io_ok getrandom acquire directory file_id spill_key s = (Ok tt, s') →
  ∃ writer, s'.(pr_spill) = Some writer ∧
    s'.(pr_total) = s.(pr_total) ∧ s'.(pr_side) = s.(pr_side) ∧ s'.(pr_observer) = s.(pr_observer) ∧
    writer.(sw_key) = spill_key ∧ world.(w_files) !! writer.(sw_path) = None ∧
    ∃ chunks content, concat chunks = l ∧ framed cipher writer.(sw_aad) chunks content ∧
      s'.(pr_world).(w_files) = <[writer.(sw_path) := content]> world.(w_files).
Proof.
  intros Hb Hs. unfold buffered in Hb. rewrite Hs in Hb. destruct Hb as (Hm & _ & _ & Hw). unfold start_spill.
  destruct (if pr_reservation s then _ else _) as [?|e]; [|done]. simpl.
  destruct (spill_create _ _ _ _ _) as [[writer|e] w] eqn:Ec; [|done]. apply spill_create_ok in Ec as (Hk & _ & Hn & Hw1).
  destruct (write_plaintext _ _ _ _ _) as [[[]|e] w'] eqn:Ew; [|done]. intros [= <-]. exists writer. rewrite Hw in *.
  split_and!; try done. rewrite Hm in Ew. eapply (write_buffered [] l writer w w' [] []); try done. constructor.
Qed.

Lemma append_buffered l part s s' (writer : SpillWriter) :
  s.(pr_spill) = Some writer → writer.(sw_key) = spill_key → world.(w_files) !! writer.(sw_path) = None →
  config.(rcf_memory_threshold_bytes) < size (l ++ part) →
  (∃ chunks content, concat chunks = l ∧ framed cipher writer.(sw_aad) chunks content ∧
    s.(pr_world).(w_files) = <[writer.(sw_path) := content]> world.(w_files)) →
  append_spill io_ok getrandom part s = (Ok tt, s') →
  buffered cipher (l ++ part) s' ∧ s'.(pr_total) = s.(pr_total) ∧ s'.(pr_side) = s.(pr_side) ∧ s'.(pr_observer) = s.(pr_observer).
Proof.
  intros Hs Hk Hn Hl (chunks & content & Hcat & Hf & Hw). unfold append_spill. rewrite Hs.
  destruct (write_plaintext _ _ _ _ _) as [[[]|e] w'] eqn:Ew; [|done]. intros [= <-]. split; [|done].
  unfold buffered. simpl. rewrite Hs. split_and!; [done|done|done|]. by eapply write_buffered.
Qed.

Lemma holds_bytes now l items s s' :
  holds cipher items s → buffer_bytes config io_ok getrandom acquire directory file_id spill_key now l s = (Ok tt, s') →
  holds cipher (items ++ [(now, l)]) s'.
Proof.
  intros (Ht & Hmax & Hside & Hobs & Hb). unfold buffer_bytes. destruct (checked_add _ _ _) as [total|] eqn:Ec; [|done].
  unfold checked_add in Ec. destruct (_ <=? USIZE_MAX); [|done]. injection Ec as <-.
  destruct (_ <? _) eqn:Emax; [done|]. apply N.ltb_ge in Emax.
  set (s1 := with_pr_total _ _). assert (buffered cipher (concat items.*2) s1) as Hb1 by done.
  assert (∀ s2, s2.(pr_total) = s1.(pr_total) → s2.(pr_side) = s1.(pr_side) → s2.(pr_observer) = s1.(pr_observer) →
    buffered cipher (concat items.*2 ++ l) s2 → holds cipher (items ++ [(now, l)]) s2) as Hend.
  { intros s2 E1 E2 E3 E4. unfold holds. rewrite E1, E2, E3, fmap_app, concat_app. simpl. rewrite app_nil_r, size_app, Ht.
    split_and!; [done|by rewrite <- Ht|by rewrite Hside, side_items_app|unfold observe_items; by rewrite foldl_app, Hobs|done]. }
  assert (pr_total s1 = size (concat items.*2) + size l) as Htotal by by rewrite <- Ht.
  clearbody s1. destruct (pr_spill s1) as [writer|] eqn:Es; simpl.
  - unfold buffered in Hb1. rewrite Es in Hb1. destruct Hb1 as (Hk & Hl & Hn & Hfile). intros Ha.
    eapply append_buffered in Ha as (Hb2 & E1 & E2 & E3); try done; [by apply Hend|]. rewrite size_app. lia.
  - destruct (_ <=? _) eqn:Eth.
    + apply N.leb_le in Eth. intros [= <-]. apply Hend; [done|done|done|]. unfold buffered in *. simpl. rewrite Es in *.
      destruct Hb1 as (Hm & Hsz & Hr & Hw). split_and!; [by rewrite Hm|rewrite size_app; lia|done|done].
    + apply N.leb_gt in Eth. destruct (start_spill _ _ _ _ _ _ _) as [[[]|e] s2] eqn:Est; [|done]. intros Ha.
      destruct (start_buffered _ _ _ Hb1 Es Est) as (writer & Hs2 & F1 & F2 & F3 & Hk & Hn & Hfile).
      destruct (append_buffered (concat items.*2) l s2 s' writer) as (Hb2 & E1 & E2 & E3); try done; [rewrite size_app; lia|]. apply Hend; try done; congruence.
Qed.

Lemma holds_loop events items s s' :
  holds cipher items s → buffer_loop config io_ok getrandom acquire directory file_id spill_key events s = (Ok tt, s') →
  holds cipher (items ++ upstream_items events) s' ∧ length (upstream_items events) = length events.
Proof.
  revert items s. induction events as [|[| |now [l|e]] events IH]; intros items s Hh; simpl; try done.
  - intros [= <-]. by rewrite app_nil_r.
  - destruct (buffer_bytes _ _ _ _ _ _ _ _ _ _) as [[[]|e] s1] eqn:Eb; [|done]. intros Hl.
    destruct (IH _ _ (holds_bytes _ _ _ _ _ Hh Eb) Hl) as [Hh' Hlen]. rewrite <- app_assoc in Hh'. split; [done|by f_equal].
Qed.

End buffer_lemmas.

(** ** Theorems *)

(** C39: a streamed response reaches the client unchanged. Whatever the upstream, the
    client and the cancellation do, the bytes sent are a prefix of the bytes received; the side writer
    observes every item received, in order, and is finished exactly once; the usage is
    reported once, of the same items; both are told the body is complete exactly when the termination
    recorded is [Complete], and then the client was sent all the bytes received. An error item is only sent
    with the termination [UpstreamBodyError], and a client write timeout cancels
    the upstream. When no item fails and the client takes every chunk, the body is complete. *)
Theorem stream_transparent {D} `{GzDecoder D} {V} `{JsonValue V} encoding side_writer fate cancelled events :
  let '(task, usage) := prepare_streaming (D := D) encoding side_writer fate cancelled events in
  ∃ items complete, items `prefix_of` stream_items events ∧
    concat task.(sk_sent) `prefix_of` concat items.*2 ∧
    task.(sk_side) = finish_side_writer complete (side_items items side_writer) ∧
    usage = encoded_finish complete (observe_items items (encoded_new encoding true)) ∧
    (complete = true ↔ task.(sk_state) = termination_code Producer_Complete) ∧
    (complete = true → items = stream_items events ∧ concat task.(sk_sent) = concat items.*2) ∧
    (is_Some task.(sk_error) → task.(sk_state) = termination_code Producer_UpstreamBodyError) ∧
    (task.(sk_state) = termination_code Producer_ClientWriteTimeout → task.(sk_cancelled) = true) ∧
    ((∀ n, fate n = ChunkSent) → cancelled = false → Forall good_item events → complete = true).
Proof.
  unfold prepare_streaming. set (task0 := {| sk_sent := _ |}).
  pose proof (stream_loop_complete fate events task0) as Hall.
  destruct (stream_loop_spec fate cancelled events task0)
    as (items & sent & Hi & Hp & _ & [(state & cancel & error & Hend & Hst & Herr & Hto)|(Hl & -> & Hc & Hend)]);
    rewrite Hend in *.
  - exists items, false. simpl. split_and!; try done.
    + by destruct state.
    + intros He. by rewrite (Herr He).
    + destruct state; try done. intros _. by rewrite Hto.
    + intros Hf -> Hg. destruct (Hall Hf Hg) as (task' & Ht & Hs). rewrite Hend in Ht.
      apply (f_equal (λ done, done.1.(sk_state))) in Ht. simpl in Ht. rewrite Hs in Ht. by destruct state.
  - exists items, true. simpl. split_and!; try done; intros _. split; [|done]. apply prefix_length_eq; [done|].
    rewrite Hl. apply stream_items_length.
Qed.

(** a response that is not streamed is delivered whole or not at all. When it is
    prepared, every item was received and observed, its size is within the
    maximum, the side writer is finished as complete, and the usage is that of the complete
    body. Up to the threshold the body is in memory and keeps its
    reservation; above it, it is in a new encrypted file, no other file is changed, and the relay of that
    file sends a prefix of the body, ends well only after all of it, and leaves the
    files as they were. *)
Theorem non_stream_delivery {D} `{GzDecoder D} {V} `{JsonValue V} {C} `{Aead C} config io_ok getrandom acquire directory file_id
    spill_key cipher events encoding side_writer reservation world prepared s :
  (∀ n nonce, getrandom n = Some nonce → size nonce = AES_GCM_NONCE_LEN) → aead_new spill_key = Some cipher →
  prepare_non_stream (D := D) config io_ok getrandom acquire directory file_id spill_key events encoding side_writer reservation world =
    (Ok prepared, s) →
  let items := upstream_items events in
  let body := concat items.*2 in
  length items = length events ∧ size body <= config.(rcf_max_non_stream_bytes) ∧
  s.(pr_side) = finish_side_writer true (side_items items side_writer) ∧
  prepared.(pn_usage) = encoded_finish true (observe_items items (encoded_new encoding false)) ∧
  match prepared.(pn_body) with
  | MemoryBody l => l = body ∧ size body <= config.(rcf_memory_threshold_bytes) ∧ prepared.(pn_admission) = reservation ∧
      s.(pr_world).(w_files) = world.(w_files)
  | SpillBody file => config.(rcf_memory_threshold_bytes) < size body ∧ prepared.(pn_admission) = false ∧
      world.(w_files) !! file.(sf_path) = None ∧
      ∀ read_ok client, let '(sent, answer, w) := relay_spill io_ok read_ok client file s.(pr_world) in
        concat sent `prefix_of` body ∧ (answer = Ok tt → concat sent = body) ∧
        ((∀ n, io_ok n = true) → w.(w_files) = world.(w_files))
  end.
Proof.
  intros Hnonce Hkey. unfold prepare_non_stream. set (s0 := {| pr_memory := _ |}).
  destruct (buffer_loop _ _ _ _ _ _ _ _ _) as [[[]|e] s1] eqn:El; [|done].
  eapply (holds_loop config io_ok getrandom acquire directory file_id spill_key encoding side_writer reservation world cipher) with (items := []) in El
    as [(Ht & Hmax & Hside & Hobs & Hb) Hlen]; try done.
  2: { unfold holds, buffered. simpl. split_and!; try done; try apply N.le_0_l. by destruct side_writer; simpl; rewrite ?app_nil_r. }
  simpl app in *. intros Hp. cbn zeta. rewrite <- Ht, <- Hside, <- Hobs. unfold buffered in Hb.
  simpl in Hp. destruct (pr_spill s1) as [writer|] eqn:Es.
  - destruct (spill_finish _ _ _) as [[file|e] w] eqn:Ef; [|done]. injection Hp as <- <-.
    apply spill_finish_ok in Ef as [Hw ->]. destruct Hb as (Hk & Hl & Hn & chunks & content & Hcat & Hf & Hfile).
    simpl in *. rewrite Ht. split_and!; try done; [lia|]. intros read_ok client.
    pose proof (relay_spill_spec io_ok read_ok client {| sf_path := writer.(sw_path); sf_aad := writer.(sw_aad); sf_key := writer.(sw_key) |}
      cipher chunks content w) as Hr. simpl in Hr. rewrite Hk, Hcat, Hw, Hfile, lookup_insert_eq, delete_insert_eq, delete_id in Hr by done.
    rewrite Hk. destruct (relay_spill _ _ _ _ _) as [[sent answer] w2]. destruct Hr as (H1' & H2' & H3' & _); [done..|].
    by split_and!.
  - injection Hp as <- <-. simpl. rewrite Ht in *. destruct Hb as (-> & Hsz & Hr & Hw). by split_and!.
Qed.

(** a response that is not prepared leaves no file. When the file system works, an error of
    [prepare_non_stream], whatever its cause, leaves the files as they were. *)
Theorem non_stream_failure_leaves_no_file {D} `{GzDecoder D} {V} `{JsonValue V} {C} `{Aead C} config io_ok getrandom acquire
    directory file_id spill_key events encoding side_writer reservation world e s :
  (∀ n, io_ok n = true) →
  prepare_non_stream (D := D) config io_ok getrandom acquire directory file_id spill_key events encoding side_writer reservation world =
    (Err e, s) →
  s.(pr_world).(w_files) = world.(w_files).
Proof.
  intros Hio. unfold prepare_non_stream. set (s0 := {| pr_memory := _ |}).
  pose proof (owned_loop config io_ok getrandom acquire directory file_id spill_key world events s0 Hio eq_refl) as Ho.
  destruct (buffer_loop _ _ _ _ _ _ _ _ _) as [[[]|e'] s1]; [|intros [= <- <-]; by apply owned_drop].
  destruct (pr_spill _) as [writer|] eqn:Es; [|done]. pose proof (spill_finish_files io_ok writer) as Hf.
  match goal with |- context [spill_finish io_ok writer ?w] => specialize (Hf w); destruct (spill_finish io_ok writer w) as [[file|e''] w'] end;
    [done|]. intros [= <- <-]. apply owned_drop; [done|]. unfold owned in *. simpl in *. rewrite Es in *. by rewrite Hf.
Qed.

(** ** Samples *)

Definition sample_stream : list StreamEvent := [StreamItem 5 16 (Ok (bs "data: x")); StreamItem 6 2 (Ok (bs "yes"))].

Lemma stream_transparent_witness :
  let '(task, usage) := prepare_streaming (D := UsageSink) None (Some []) (λ _, ChunkSent) false sample_stream in
  task.(sk_sent) = [bs "data: x"; bs "ye"; bs "s"] ∧ task.(sk_state) = termination_code Producer_Complete ∧
  concat task.(sk_sent) = bs "data: xyes".
Proof.
  pose proof (stream_transparent (D := UsageSink) None (Some []) (λ _, ChunkSent) false sample_stream) as Ht.
  destruct (prepare_streaming _ _ _ _ _) as [task usage] eqn:Ep.
  destruct Ht as (items & complete & _ & _ & _ & _ & Hst & Hall & _ & _ & Hc).
  assert (complete = true) as ->. { apply Hc; [done|done|]. by repeat constructor. }
  destruct (Hall eq_refl) as [-> Hcat]. split_and!; [|by apply Hst|exact Hcat].
  apply (f_equal (λ done, done.1.(sk_sent))) in Ep. simpl in Ep. rewrite <- Ep. by vm_compute.
Defined.

(** A threshold of eight bytes and a maximum of twenty. *)
Definition sample_config : ResponseConfig :=
  {| rcf_memory_threshold_bytes := 8; rcf_max_non_stream_bytes := 20; rcf_max_large_responses := 1;
     rcf_large_response_queue_capacity := 1; rcf_reservation_wait := from_secs 1; rcf_stream_inflight_bytes := 16;
     rcf_client_write_idle := from_secs 1; rcf_non_stream_total := from_mins 5 |}.

Definition sample_nonces (n : nat) : option bytes := Some (replicate 12 (ascii_of_nat n)).

Definition sample_prepare (io_ok : nat → bool) (events : list UpstreamEvent) :=
  prepare_non_stream (D := UsageSink) sample_config io_ok sample_nonces (Ok tt) "spill" "f1" [] events None (Some []) true sample_world.

Definition sample_upstream : list UpstreamEvent := [Upstream 5 (Ok (bs "hello ")); Upstream 6 (Ok (bs "world"))].

Lemma non_stream_delivery_witness :
  ∃ file usage s, sample_prepare (λ _, true) sample_upstream =
      (Ok {| pn_body := SpillBody file; pn_usage := usage; pn_admission := false |}, s) ∧
    s.(pr_side) = Some [SideObserve (bs "hello "); SideObserve (bs "world"); SideFinish true] ∧
    let '(sent, answer, w) := relay_spill (λ _, true) (λ _, true) (λ _, FrameSent) file s.(pr_world) in
    answer = Ok tt ∧ concat sent = bs "hello world" ∧ w.(w_files) = ∅.
Proof.
  eexists _, _, _. split; [by vm_compute|].
  match goal with |- pr_side ?s = _ ∧ _ => set (s0 := s) end.
  match goal with |- context [relay_spill _ _ _ ?f _] => set (file := f) end.
  destruct (non_stream_delivery (D := UsageSink) sample_config (λ _, true) sample_nonces (Ok tt) "spill" "f1" [] tt sample_upstream
    None (Some []) true sample_world
    {| pn_body := SpillBody file; pn_usage := encoded_finish true
      (observe_items (upstream_items sample_upstream) (encoded_new (D := UsageSink) None false)); pn_admission := false |} s0)
    as (_ & _ & Hside & _ & _ & _ & _ & Hrelay); [by intros n nonce [= <-]|done|by vm_compute|].
  split; [exact Hside|]. specialize (Hrelay (λ _, true) (λ _, FrameSent)).
  destruct (relay_spill _ _ _ _ _) as [[sent answer] w] eqn:Er. destruct Hrelay as (_ & Hall & Hfiles).
  assert (answer = Ok tt) as ->. { apply (f_equal (λ x, x.1.2)) in Er. vm_compute in Er. done. }
  split_and!; [done|by apply Hall|by apply Hfiles].
Defined.

Lemma non_stream_failure_leaves_no_file_witness :
  let failing := [Upstream 5 (Ok (bs "hello ")); Upstream 6 (Ok (bs "world")); TotalTimeout] in
  ∃ s, sample_prepare (λ _, true) failing = (Err ResponseTotalTimeout, s) ∧ s.(pr_cancelled) = true ∧ s.(pr_world).(w_files) = ∅.
Proof.
  intros failing. eexists. split; [by vm_compute|]. split; [done|].
  match goal with |- w_files (pr_world ?s) = _ => apply (non_stream_failure_leaves_no_file (D := UsageSink) sample_config (λ _, true)
    sample_nonces (Ok tt) "spill" "f1" [] failing None (Some []) true sample_world ResponseTotalTimeout s) end; [done|by vm_compute].
Defined.
