(* ===== verification/Json.v ===== *)
(** JSON values as the policy code handles them: the data of [serde_json::Value],
    what the code uses of that library, and the text operations on its strings.

    The library is a parameter, the class [SerdeJson]: its numbers, its maps, its
    reader and its writer, with the documented laws. An object is the list of
    its entries in the order the map iterates them (the feature [preserve_order] is
    on); a number [f64] in JSON is never NaN. *)

From Stdlib Require Import Ascii.
From S2P Require Import Prelude Machine.
From S2P Require Import Bytes.
Local Open Scope N_scope.

(** ** Values *)
#[warnings="-register-all"]
Inductive Value (Num : Type) : Type :=
  | JNull
  | JBool (b : bool)
  | JNumber (n : Num)
  | JString (s : bytes)
  | JArray (l : list (Value Num))
  | JObject (m : list (bytes * Value Num)).
Arguments JNull {Num}.
Arguments JBool {Num}.
Arguments JNumber {Num}.
Arguments JString {Num}.
Arguments JArray {Num}.
Arguments JObject {Num}.

(** What the reader of the library hands to a visitor, in the order of the text. The
    flag of a sequence or of a map tells whether it ends where it should, and
    [JsonInvalid] is what cannot be read. *)
#[warnings="-register-all"]
Inductive Json (F : Type) : Type :=
  | JsonNull
  | JsonBool (b : bool)
  | JsonI64 (z : Z)
  | JsonU64 (n : N)
  | JsonF64 (f : F)
  | JsonString (s : bytes)
  | JsonSeq (items : list (Json F)) (ended : bool)
  | JsonMap (entries : list (bytes * Json F)) (ended : bool)
  | JsonInvalid.
Arguments JsonNull {F}.
Arguments JsonBool {F}.
Arguments JsonI64 {F}.
Arguments JsonU64 {F}.
Arguments JsonF64 {F}.
Arguments JsonString {F}.
Arguments JsonSeq {F}.
Arguments JsonMap {F}.
Arguments JsonInvalid {F}.

(** [Map::get] over the entries. *)
Fixpoint map_get {V} (key : bytes) (m : list (bytes * V)) : option V :=
  match m with
  | [] => None
  | (k, v) :: m => if bool_decide (k = key) then Some v else map_get key m
  end.

Class SerdeJson (Num F : Type) := {
  (** Numbers: conversions and equality. *)
  as_u64 : Num → option N;
  as_i64 : Num → option Z;
  as_f64 : Num → option F;
  num_eqb : Num → Num → bool;
  num_of_i64 : Z → Num;
  num_of_u64 : N → Num;
  from_f64 : F → option Num;
  num_eqb_refl n : num_eqb n n = true;
  num_eqb_sym n1 n2 : num_eqb n1 n2 = num_eqb n2 n1;
  as_u64_num n : n <= U64_MAX → as_u64 (num_of_u64 n) = Some n;
  (** [f64]: [<=], [max], [min], and [total_cmp] is equal. *)
  f64_le : F → F → bool;
  f64_max : F → F → F;
  f64_min : F → F → F;
  f64_same : F → F → bool;
  f64_one : F;
  f64_le_trans f g h : f64_le f g = true → f64_le g h = true → f64_le f h = true;
  f64_le_total f g : f64_le f g = true ∨ f64_le g f = true;
  f64_max_spec f g : f64_le f (f64_max f g) = true ∧ f64_le g (f64_max f g) = true ∧ (f64_max f g = f ∨ f64_max f g = g);
  f64_min_spec f g : f64_le (f64_min f g) f = true ∧ f64_le (f64_min f g) g = true ∧ (f64_min f g = f ∨ f64_min f g = g);
  f64_same_eq f g : f64_same f g = true ↔ f = g;
  (** [Map::insert]: in place when the key is there, at the end when it is not. [Map::remove]: the
      other entries stay, in an order that is not promised. *)
  map_insert : bytes → Value Num → list (bytes * Value Num) → list (bytes * Value Num);
  map_remove : bytes → list (bytes * Value Num) → list (bytes * Value Num);
  map_insert_new key v m : key ∉ m.*1 → map_insert key v m = m ++ [(key, v)];
  map_insert_there key v m1 v0 m2 : key ∉ m1.*1 → map_insert key v (m1 ++ (key, v0) :: m2) = m1 ++ (key, v) :: m2;
  map_remove_none key m : key ∉ m.*1 → map_remove key m = m;
  map_remove_perm key v m1 m2 : key ∉ (m1 ++ m2).*1 → map_remove key (m1 ++ (key, v) :: m2) ≡ₚ m1 ++ m2;
  (** The array index of a JSON pointer (RFC 6901): digits without a leading zero. *)
  parse_index : bytes → option N;
  parse_index_some token index : parse_index token = Some index → token = to_string index ∧ index <= USIZE_MAX;
  parse_index_to_string index : index <= USIZE_MAX → parse_index (to_string index) = Some index;
  (** [Deserializer::from_slice] with a visitor, [Deserializer::end], [to_vec]. *)
  json_text : bytes → Json F;
  json_end : bytes → bool;
  to_vec : Value Num → option bytes;
}.

(** The order of [str], that of its bytes. *)
Lemma string_of_bytes_inj : Inj (=) (=) String.string_of_list_ascii.
Proof.
  intros a b E. rewrite <- (String.list_ascii_of_string_of_list_ascii a), <- (String.list_ascii_of_string_of_list_ascii b).
  by f_equal.
Qed.

#[export] Instance bytes_key_order : KeyOrder bytes := pull_key_order String.string_of_list_ascii string_of_bytes_inj.

Section values.
Context {Num F : Type} `{SerdeJson Num F}.
Implicit Types (v : Value Num) (m : list (bytes * Value Num)).

(** ** Accessors *)
Definition as_str v : option bytes := match v with JString s => Some s | _ => None end.

Definition as_bool v : option bool := match v with JBool b => Some b | _ => None end.

Definition as_array v : option (list (Value Num)) := match v with JArray l => Some l | _ => None end.

Definition as_object v : option (list (bytes * Value Num)) := match v with JObject m => Some m | _ => None end.

Definition is_null v : bool := match v with JNull => true | _ => false end.

Definition value_as_u64 v : option N := match v with JNumber n => as_u64 n | _ => None end.

Definition value_as_i64 v : option Z := match v with JNumber n => as_i64 n | _ => None end.

Definition value_as_f64 v : option F := match v with JNumber n => as_f64 n | _ => None end.

(** [Value::get] with a string. *)
Definition get (key : bytes) v : option (Value Num) := as_object v ≫= map_get key.

Definition contains_key (key : bytes) m : bool := is_some (map_get key m).

(** [json!(f64)]. *)
Definition value_of_f64 (f : F) : Value Num := match from_f64 f with Some n => JNumber n | None => JNull end.

(** [PartialEq]: maps are equal whatever their order. *)
Fixpoint value_eqb (a b : Value Num) : bool :=
  match a, b with
  | JNull, JNull => true
  | JBool a, JBool b => Bool.eqb a b
  | JNumber a, JNumber b => num_eqb a b
  | JString a, JString b => bool_decide (a = b)
  | JArray a, JArray b =>
      (fix go a b :=
         match a, b with
         | [], [] => true
         | x :: a, y :: b => value_eqb x y && go a b
         | _, _ => false
         end) a b
  | JObject a, JObject b =>
      (length a =? length b)%nat
      && forallb (λ '(k, v), match map_get k b with Some w => value_eqb v w | None => false end) a
  | _, _ => false
  end.

Definition option_value_eqb (a b : option (Value Num)) : bool :=
  match a, b with
  | None, None => true
  | Some a, Some b => value_eqb a b
  | _, _ => false
  end.

End values.

(** ** Text *)

(** [str::split] on a character, and [str::rfind]. *)
Fixpoint split (sep : ascii) (l : bytes) : list bytes :=
  match l with
  | [] => [[]]
  | c :: l =>
      if bool_decide (c = sep) then [] :: split sep l
      else match split sep l with
           | part :: parts => (c :: part) :: parts
           | [] => [[c]]
           end
  end.

(** The part before the last [sep] and the part after it. *)
Definition rsplit_once (sep : ascii) (l : bytes) : option (bytes * bytes) :=
  match split_once sep (rev l) with
  | Some (after, before) => Some (rev before, rev after)
  | None => None
  end.

(** [str::replace] of a pattern that is not empty; every turn takes at least one byte. *)
Fixpoint replace_from (fuel : nat) (pattern replacement l : bytes) : bytes :=
  match fuel, l with
  | O, _ | _, [] => l
  | S fuel, c :: l' =>
      match strip_prefix pattern l with
      | Some rest => replacement ++ replace_from fuel pattern replacement rest
      | None => c :: replace_from fuel pattern replacement l'
      end
  end.

Definition replace (pattern replacement l : bytes) : bytes := replace_from (length l) pattern replacement l.

(** The segment of a pointer, with its escapes removed. *)
Definition unescape (segment : bytes) : bytes := replace (bs "~0") (bs "~") (replace (bs "~1") (bs "/") segment).

(** ** Pointers *)
Section pointers.
Context {Num F : Type} `{SerdeJson Num F}.
Implicit Types (v : Value Num).

Definition pointer_step (token : bytes) v : option (Value Num) :=
  match v with
  | JObject m => map_get token m
  | JArray l => parse_index token ≫= λ index, l !! N.to_nat index
  | _ => None
  end.

(** The tokens of a pointer: none for the empty one, which is the whole value. *)
Definition pointer_tokens (p : bytes) : option (list bytes) :=
  match p with
  | [] => Some []
  | "/"%char :: _ => Some (unescape <$> tail (split "/" p))
  | _ => None
  end.

Fixpoint pointer_walk (tokens : list bytes) v : option (Value Num) :=
  match tokens with
  | [] => Some v
  | token :: tokens => pointer_step token v ≫= pointer_walk tokens
  end.

(** [Value::pointer]. *)
Definition pointer (p : bytes) v : option (Value Num) := pointer_tokens p ≫= λ tokens, pointer_walk tokens v.

(** Writing through the place that a step reaches. *)
Definition step_update (token : bytes) (new : Value Num) v : Value Num :=
  match v with
  | JObject m => JObject (map_insert token new m)
  | JArray l => match parse_index token with Some index => JArray (<[N.to_nat index := new]> l) | None => v end
  | _ => v
  end.

(** [Value::pointer_mut] and what is done at the place it gives, which may fail. *)
Fixpoint walk_update {E} (tokens : list bytes) (missing : E) (f : Value Num → result E (Value Num)) v : result E (Value Num) :=
  match tokens with
  | [] => f v
  | token :: tokens =>
      match pointer_step token v with
      | None => Err missing
      | Some child =>
          match walk_update tokens missing f child with
          | Err e => Err e
          | Ok child => Ok (step_update token child v)
          end
      end
  end.

End pointers.

(** ** Well-formed values: no object has a key twice *)
#[warnings="-register-all"]
Inductive wf {Num} : Value Num → Prop :=
  | wf_null : wf JNull
  | wf_bool b : wf (JBool b)
  | wf_number n : wf (JNumber n)
  | wf_string s : wf (JString s)
  | wf_array l : Forall wf l → wf (JArray l)
  | wf_object m : NoDup m.*1 → Forall wf m.*2 → wf (JObject m).

(** ** Lemmas *)
(** A token that does not begin with a digit is no index. *)
Lemma letter_no_index {Num F} `{SerdeJson Num F} c token : is_ascii_digit c = false → parse_index (c :: token) = None.
Proof.
  intros Hc. destruct (parse_index (c :: token)) as [index|] eqn:E; [|done]. apply parse_index_some in E as [E _].
  assert (Forall (is_digit_of 10) (format_radix 10 index)) as Hd by (by apply format_radix_digits). unfold to_string in E. rewrite <- E in Hd.
  apply Forall_cons in Hd as [(d & Hd & ->) _]. assert (is_ascii_digit (digit_char d) = true); [|congruence]. clear -Hd.
  assert (d < 16) as Hlt by lia. revert Hd. apply (digit_cases (λ d, d < 10 → is_ascii_digit (digit_char d) = true)); [repeat constructor; done|exact Hlt].
Qed.

Lemma letter_step {Num F} `{SerdeJson Num F} c token v : is_ascii_digit c = false → pointer_step (c :: token) v = get (c :: token) v.
Proof. intros Hc. destruct v; try done. cbn [pointer_step]. by rewrite letter_no_index. Qed.


Lemma value_ind' {Num} (P : Value Num → Prop) :
  P JNull → (∀ b, P (JBool b)) → (∀ n, P (JNumber n)) → (∀ s, P (JString s)) →
  (∀ l, Forall P l → P (JArray l)) → (∀ m, Forall P m.*2 → P (JObject m)) → ∀ v, P v.
Proof.
  intros H1 H2 H3 H4 Hl Hm. fix go 1. intros [|b|n|s|l|m]; [apply H1|apply H2|apply H3|apply H4|apply Hl|apply Hm].
  - induction l as [|v l IH]; constructor; [apply go|exact IH].
  - induction m as [|[k v] m IH]; constructor; [apply go|exact IH].
Qed.

Lemma json_ind' {F} (P : Json F → Prop) :
  P JsonNull → (∀ b, P (JsonBool b)) → (∀ z, P (JsonI64 z)) → (∀ n, P (JsonU64 n)) → (∀ f, P (JsonF64 f)) → (∀ s, P (JsonString s)) →
  (∀ l ended, Forall P l → P (JsonSeq l ended)) → (∀ m ended, Forall P m.*2 → P (JsonMap m ended)) → P JsonInvalid → ∀ v, P v.
Proof.
  intros H1 H2 H3 H4 H5 H6 Hl Hm H7. fix go 1. intros [|b|z|n|f|s|l ended|m ended|];
    [apply H1|apply H2|apply H3|apply H4|apply H5|apply H6|apply Hl|apply Hm|apply H7].
  - induction l as [|v l IH]; constructor; [apply go|exact IH].
  - induction m as [|[k v] m IH]; constructor; [apply go|exact IH].
Qed.

Lemma filter_all {A} (P : A → Prop) `{!∀ x, Decision (P x)} l : Forall P l → filter P l = l.
Proof. induction 1 as [|x l Hx Hl IH]; [done|]. by rewrite filter_cons_True, IH. Qed.

Section map_lemmas.
Context {V : Type}.
Implicit Types (m : list (bytes * V)).

Lemma map_get_None key m : map_get key m = None ↔ key ∉ m.*1.
Proof.
  induction m as [|[k v] m IH]; simpl; [by split; [intros _ ?%elem_of_nil|]|]. case_bool_decide; rewrite not_elem_of_cons; naive_solver.
Qed.

Lemma map_get_split key v m : map_get key m = Some v → ∃ m1 m2, m = m1 ++ (key, v) :: m2 ∧ key ∉ m1.*1.
Proof.
  induction m as [|[k w] m IH]; simpl; [done|]. case_bool_decide as E; [intros [= <-]; subst; exists [], m; by split; [|apply not_elem_of_nil]|].
  intros (m1 & m2 & -> & Hn)%IH. exists ((k, w) :: m1), m2. simpl. rewrite not_elem_of_cons. naive_solver.
Qed.

Lemma map_get_app key m1 m2 : map_get key (m1 ++ m2) = match map_get key m1 with Some v => Some v | None => map_get key m2 end.
Proof. induction m1 as [|[k v] m1 IH]; simpl; [done|]. by case_bool_decide. Qed.

Lemma map_get_elem key v m : NoDup m.*1 → (key, v) ∈ m → map_get key m = Some v.
Proof.
  induction m as [|[k w] m IH]; simpl; [by intros _ ?%elem_of_nil|]. intros [Hk Hnd]%NoDup_cons. rewrite elem_of_cons. intros [[= -> ->]|Hin].
  - by rewrite bool_decide_eq_true_2.
  - rewrite bool_decide_eq_false_2; [by apply IH|]. intros ->. apply Hk. apply list_elem_of_fmap. by exists (key, v).
Qed.

Lemma map_get_in key v m : map_get key m = Some v → (key, v) ∈ m.
Proof. intros (m1 & m2 & -> & _)%map_get_split. apply elem_of_app. right. apply elem_of_cons. by left. Qed.

Lemma map_get_Some key v m : NoDup m.*1 → map_get key m = Some v ↔ (key, v) ∈ m.
Proof. intros Hnd. split; [apply map_get_in|by apply map_get_elem]. Qed.

(** The order of the entries does not matter to [get]. *)
Lemma map_get_perm key m m' : NoDup m.*1 → m ≡ₚ m' → map_get key m = map_get key m'.
Proof.
  intros Hnd Hp. assert (NoDup m'.*1) as Hnd' by by rewrite <- Hp. apply option_eq. intros v.
  rewrite !map_get_Some by done. by rewrite Hp.
Qed.

End map_lemmas.

Section json_lemmas.
Context {Num F : Type} `{SerdeJson Num F}.
Implicit Types (v : Value Num) (m : list (bytes * Value Num)).

Lemma map_get_insert key key' v m : map_get key' (map_insert key v m) = if bool_decide (key' = key) then Some v else map_get key' m.
Proof.
  destruct (map_get key m) as [v0|] eqn:E.
  - apply map_get_split in E as (m1 & m2 & -> & Hn). rewrite map_insert_there by done. rewrite !map_get_app. simpl.
    destruct (decide (key' = key)) as [->|E1].
    + apply map_get_None in Hn as ->. by rewrite !bool_decide_eq_true_2.
    + by rewrite (bool_decide_eq_false_2 (key = key')), (bool_decide_eq_false_2 (key' = key)) by congruence.
  - apply map_get_None in E as Hn. rewrite map_insert_new by done. rewrite map_get_app. simpl. destruct (decide (key' = key)) as [->|E1].
    + by rewrite E, !bool_decide_eq_true_2.
    + rewrite (bool_decide_eq_false_2 (key = key')), (bool_decide_eq_false_2 (key' = key)) by congruence. by destruct (map_get key' m).
Qed.

Lemma map_insert_keys key v m : (map_insert key v m).*1 = if bool_decide (key ∈ m.*1) then m.*1 else m.*1 ++ [key].
Proof.
  case_bool_decide as E.
  - destruct (map_get key m) as [v0|] eqn:E0; [|by apply map_get_None in E0].
    apply map_get_split in E0 as (m1 & m2 & -> & Hn). rewrite map_insert_there by done. by rewrite !fmap_app.
  - rewrite map_insert_new by done. by rewrite fmap_app.
Qed.

Lemma map_insert_NoDup key v m : NoDup m.*1 → NoDup (map_insert key v m).*1.
Proof.
  intros Hnd. rewrite map_insert_keys. case_bool_decide as E; [done|]. apply NoDup_app. split_and!; [done| |apply NoDup_singleton].
  intros k Hk ->%list_elem_of_singleton. done.
Qed.

Lemma map_remove_key key m : NoDup m.*1 → ∃ m', map_remove key m ≡ₚ m' ∧ m' = filter (λ entry, entry.1 ≠ key) m.
Proof.
  intros Hnd. eexists. split; [|done]. destruct (map_get key m) as [v|] eqn:E.
  - apply map_get_split in E as (m1 & m2 & -> & Hn). rewrite fmap_app in Hnd. simpl in Hnd.
    apply NoDup_app in Hnd as (Hnd1 & Hd & [Hn2 Hnd2]%NoDup_cons).
    assert (∀ m', key ∉ m'.*1 → filter (λ entry : bytes * Value Num, entry.1 ≠ key) m' = m') as Hid.
    { intros m' Hm'. apply filter_all. apply Forall_forall. intros [k w] Hin Ek. simpl in Ek. subst. apply Hm'.
      apply list_elem_of_fmap. by exists (key, w). }
    rewrite map_remove_perm by (rewrite fmap_app, not_elem_of_app; done). rewrite filter_app, filter_cons_False by naive_solver.
    by rewrite !Hid.
  - apply map_get_None in E. rewrite map_remove_none by done. rewrite filter_all; [done|]. apply Forall_forall.
    intros [k w] Hin Ek. simpl in Ek. subst. apply E. apply list_elem_of_fmap. by exists (key, w).
Qed.

Lemma map_remove_NoDup key m : NoDup m.*1 → NoDup (map_remove key m).*1.
Proof.
  intros Hnd. destruct (map_remove_key key m Hnd) as (m' & -> & ->). eapply sublist_NoDup; [exact Hnd|].
  apply fmap_sublist, sublist_filter.
Qed.

Lemma map_get_remove key key' m : NoDup m.*1 → map_get key' (map_remove key m) = if bool_decide (key' = key) then None else map_get key' m.
Proof.
  intros Hnd. pose proof (map_remove_NoDup key m Hnd) as Hnd'. destruct (map_remove_key key m Hnd) as (m' & Hp & ->).
  apply option_eq. intros w. rewrite map_get_Some by done. rewrite Hp, list_elem_of_filter. simpl.
  case_bool_decide as E; subst; [naive_solver|]. rewrite map_get_Some by done. naive_solver.
Qed.

Lemma wf_object_iff m : wf (JObject m) ↔ NoDup m.*1 ∧ Forall wf m.*2.
Proof. split; [by inversion 1|]. intros []. by constructor. Qed.

Lemma wf_array_iff (l : list (Value Num)) : wf (JArray l) ↔ Forall wf l.
Proof. split; [by inversion 1|]. by constructor. Qed.

Lemma wf_map_get key v m : wf (JObject m) → map_get key m = Some v → wf v.
Proof.
  intros [_ Hm]%wf_object_iff Hg%map_get_in. rewrite Forall_fmap, Forall_forall in Hm. by apply (Hm (key, v)).
Qed.

Lemma wf_get key v w : wf v → get key v = Some w → wf w.
Proof. destruct v; simpl; try done. apply wf_map_get. Qed.

Lemma wf_insert key v m : wf (JObject m) → wf v → wf (JObject (map_insert key v m)).
Proof.
  intros [Hnd Hm]%wf_object_iff Hv. apply wf_object_iff. split; [by apply map_insert_NoDup|].
  destruct (map_get key m) as [v0|] eqn:E.
  - apply map_get_split in E as (m1 & m2 & -> & Hn). rewrite map_insert_there by done. rewrite fmap_app, Forall_app in *. simpl in *.
    rewrite Forall_cons in *. naive_solver.
  - apply map_get_None in E. rewrite map_insert_new by done. rewrite fmap_app, Forall_app. simpl. by repeat constructor.
Qed.

Lemma wf_remove key m : wf (JObject m) → wf (JObject (map_remove key m)).
Proof.
  intros [Hnd Hm]%wf_object_iff. apply wf_object_iff. split; [by apply map_remove_NoDup|].
  destruct (map_remove_key key m Hnd) as (m' & -> & ->). rewrite Forall_fmap, Forall_forall in *. intros entry Hin. apply Hm.
  by apply list_elem_of_filter in Hin as [_ Hin].
Qed.

Lemma map_remove_values (P : Value Num → Prop) key m : NoDup m.*1 → Forall P m.*2 → Forall P (map_remove key m).*2.
Proof.
  intros Hnd Hm. destruct (map_remove_key key m Hnd) as (m' & -> & ->). rewrite Forall_fmap, Forall_forall in *. intros entry Hin.
  apply Hm. by apply list_elem_of_filter in Hin as [_ Hin].
Qed.

Lemma get_object_insert key key' v m : get key' (JObject (map_insert key v m)) = if bool_decide (key' = key) then Some v else get key' (JObject m).
Proof. apply map_get_insert. Qed.

Lemma get_object_remove key key' m : wf (JObject m) → get key' (JObject (map_remove key m)) = if bool_decide (key' = key) then None else get key' (JObject m).
Proof. intros [Hnd _]%wf_object_iff. by apply map_get_remove. Qed.

Lemma pointer_step_wf token v w : wf v → pointer_step token v = Some w → wf w.
Proof.
  destruct v; simpl; try done.
  - rewrite wf_array_iff, Forall_forall. intros Hl. destruct (parse_index token); simpl; [|done]. intros Hw%list_elem_of_lookup_2. auto.
  - apply wf_map_get.
Qed.

Lemma step_update_wf token new v : wf v → wf new → wf (step_update token new v).
Proof.
  intros Hv Hn. destruct v; simpl; try done; [|by apply wf_insert]. destruct (parse_index token); [|done].
  rewrite wf_array_iff in *. by apply Forall_insert.
Qed.

Lemma walk_update_wf {E} tokens (missing : E) f v w :
  (∀ v w, wf v → f v = Ok w → wf w) → wf v → walk_update tokens missing f v = Ok w → wf w.
Proof.
  intros Hf. revert v w. induction tokens as [|token tokens IH]; intros v w Hv; simpl; [by apply Hf|].
  destruct (pointer_step token v) as [child|] eqn:E1; [|done]. pose proof (pointer_step_wf _ _ _ Hv E1) as Hc.
  destruct (walk_update _ _ _ _) as [child'|] eqn:E2; [|done]. intros [= <-]. apply step_update_wf; [done|]. by eapply IH.
Qed.

(** Equality is reflexive on well-formed values. *)
Lemma value_eqb_refl v : wf v → value_eqb v v = true.
Proof.
  induction v as [|b|n|s|l IH|m IH] using value_ind'; intros Hv; simpl.
  - done.
  - by destruct b.
  - apply num_eqb_refl.
  - by apply bool_decide_eq_true_2.
  - apply wf_array_iff in Hv. induction l as [|v l IHl]; [done|]. apply Forall_cons in IH as [IH1 IH2], Hv as [Hv1 Hv2].
    rewrite IH1 by done. simpl. by apply IHl.
  - apply wf_object_iff in Hv as [Hnd Hm]. apply andb_true_iff. split; [by apply Nat.eqb_eq|]. apply forallb_forall. intros [k v] Hin.
    apply list_elem_of_In in Hin. rewrite (map_get_elem k v) by done. rewrite Forall_fmap, Forall_forall in IH, Hm.
    apply (IH (k, v) Hin). by apply (Hm (k, v)).
Qed.

End json_lemmas.

(** ** A small instance: integers for numbers, a table for the reader *)
Fixpoint sample_insert {Num} (key : bytes) (v : Value Num) (m : list (bytes * Value Num)) : list (bytes * Value Num) :=
  match m with
  | [] => [(key, v)]
  | (k, w) :: m => if bool_decide (k = key) then (k, v) :: m else (k, w) :: sample_insert key v m
  end.

(** The last entry takes the place of the one that is removed. *)
Fixpoint swap_remove {V} (key : bytes) (m : list (bytes * V)) : list (bytes * V) :=
  match m with
  | [] => []
  | (k, v) :: m =>
      if bool_decide (k = key) then match last m with Some entry => entry :: removelast m | None => [] end
      else (k, v) :: swap_remove key m
  end.

Lemma parse_digits_max radix max acc l n : acc <= max → parse_digits radix max acc l = Some n → n <= max.
Proof.
  revert acc. induction l as [|c l IH]; intros acc Ha; simpl; [by intros [= <-]|]. destruct (to_digit radix c) as [d|]; [|done].
  unfold checked_mul, checked_add. destruct (_ <=? max); [|done]. destruct (_ + d <=? max) eqn:E; [|done]. apply N.leb_le in E. by apply IH.
Qed.

Lemma from_str_radix_max radix max l n : from_str_radix radix max l = Some n → n <= max.
Proof.
  unfold from_str_radix. destruct l as [|c l]; [done|]. destruct (decide _); [destruct l; [done|]|]; apply parse_digits_max; lia.
Qed.

Definition sample_parse_index (token : bytes) : option N :=
  from_str_radix 10 USIZE_MAX token ≫= λ index, if bool_decide (token = to_string index) then Some index else None.

Definition table_get {V} (table : list (string * V)) (l : bytes) : option V := map_get l (prod_map bs id <$> table).

Section sample.
Context (texts : list (string * Json Z)) (printed : Value Z → option bytes).

Lemma swap_remove_perm {V} key (v : V) m1 m2 : key ∉ (m1 ++ m2).*1 → swap_remove key (m1 ++ (key, v) :: m2) ≡ₚ m1 ++ m2.
Proof.
  induction m1 as [|[k w] m1 IH]; simpl.
  - intros _. rewrite bool_decide_eq_true_2 by done. destruct m2 as [|m2 entry _] using rev_ind; [done|].
    rewrite last_snoc, removelast_last. by rewrite Permutation_app_comm.
  - rewrite not_elem_of_cons. intros [Hk Hn]. rewrite bool_decide_eq_false_2 by done. by rewrite IH.
Qed.

#[export] Program Instance sample_serde : SerdeJson Z Z := {|
  as_u64 := λ z, if (0 <=? z)%Z && (Z.to_N z <=? U64_MAX) then Some (Z.to_N z) else None;
  as_i64 := λ z, if (ISIZE_MIN <=? z)%Z && (z <=? ISIZE_MAX)%Z then Some z else None;
  as_f64 := Some;
  num_eqb := Z.eqb;
  num_of_i64 := id;
  num_of_u64 := Z.of_N;
  from_f64 := Some;
  f64_le := Z.leb;
  f64_max := Z.max;
  f64_min := Z.min;
  f64_same := Z.eqb;
  f64_one := 1%Z;
  map_insert := sample_insert;
  map_remove := swap_remove;
  parse_index := sample_parse_index;
  json_text := λ l, default JsonInvalid (table_get texts l);
  json_end := λ _, true;
  to_vec := printed;
|}.
Next Obligation. apply Z.eqb_refl. Qed.
Next Obligation. apply Z.eqb_sym. Qed.
Next Obligation. intros n Hn. simpl. rewrite (proj2 (Z.leb_le _ _)), N2Z.id, (proj2 (N.leb_le _ _)) by lia. done. Qed.
Next Obligation. intros f g h. simpl. lia. Qed.
Next Obligation. intros f g. simpl. lia. Qed.
Next Obligation. intros f g. simpl. lia. Qed.
Next Obligation. intros f g. simpl. lia. Qed.
Next Obligation. intros f g. apply Z.eqb_eq. Qed.
Next Obligation.
  intros key v m. simpl. induction m as [|[k w] m IH]; simpl; [done|]. rewrite not_elem_of_cons. intros [Hk Hn].
  rewrite bool_decide_eq_false_2 by done. by rewrite IH.
Qed.
Next Obligation.
  intros key v m1 v0 m2. simpl. induction m1 as [|[k w] m1 IH]; simpl; [by rewrite bool_decide_eq_true_2|].
  rewrite not_elem_of_cons. intros [Hk Hn]. rewrite bool_decide_eq_false_2 by done. by rewrite IH.
Qed.
Next Obligation.
  intros key m. simpl. induction m as [|[k w] m IH]; simpl; [done|]. rewrite not_elem_of_cons. intros [Hk Hn].
  rewrite bool_decide_eq_false_2 by done. by rewrite IH.
Qed.
Next Obligation. intros key v m1 m2. apply swap_remove_perm. Qed.
Next Obligation.
  intros token index. simpl. unfold sample_parse_index. destruct (from_str_radix _ _ _) as [i|] eqn:E; simpl; [|done].
  case_bool_decide; [|done]. intros [= ->]. split; [done|]. by apply from_str_radix_max in E.
Qed.
Next Obligation.
  intros index Hi. simpl. unfold sample_parse_index, to_string. rewrite from_str_radix_format by done. simpl. by rewrite bool_decide_eq_true_2.
Qed.

End sample.
