(* ===== verification/RequestParser.v ===== *)
(** The parser of a Messages request: [crates/gateway-policy/src/parser.rs].

    The reader of [serde_json] and the digest are parameters. The visitor that
    rejects duplicate keys is [unique_value]; it sees a text in the order of its
    characters, so the first thing wrong decides the error. *)

From Stdlib Require Import Ascii.
From S2P Require Import Prelude Machine.
From S2P Require Import Bytes.
From S2P Require Import Domain.
From S2P Require Import Json.
Local Open Scope N_scope.

Definition KNOWN_TOP_LEVEL : list bytes :=
  bs <$> ["model"; "max_tokens"; "messages"; "system"; "stream"; "temperature"; "top_p"; "top_k"; "stop_sequences"; "tools";
          "tool_choice"; "thinking"; "metadata"; "output_config"; "context_management"]%string.

Definition KNOWN_CONTENT_TYPES : list bytes :=
  bs <$> ["text"; "image"; "document"; "tool_use"; "tool_result"; "server_tool_use"; "web_search_tool_result"; "thinking";
          "redacted_thinking"]%string.

(** [FieldPresence] of the domain. *)
Inductive FieldPresence := Missing | PresentNull | PresentValue.

#[export] Instance FieldPresence_eq_dec : EqDecision FieldPresence.
Proof. solve_decision. Defined.

Inductive ParseError :=
  | InvalidJson
  | RootNotObject
  | DuplicateKey
  | UnknownExtension (path : bytes).

(** What the visitor fails with: its own error, or one of the library. *)
Inductive JsonError := DuplicateObjectKey | OtherJsonError.

Definition map_json_error (e : JsonError) : ParseError :=
  match e with DuplicateObjectKey => DuplicateKey | OtherJsonError => InvalidJson end.

Definition escape_pointer (value : bytes) : bytes := replace (bs "/") (bs "~1") (replace (bs "~") (bs "~0") value).

(** [Vec::sort_unstable] on strings; equal strings are the same. *)
Definition sort_paths (l : list bytes) : list bytes := sort_by key_cmp l.

Section parser.
Context {Num F : Type} `{SerdeJson Num F} (digest_of : bytes → Digest).

Record KnownMessagesProjection := {
  km_model : option bytes;
  km_stream : option bool;
  km_fields : gmap bytes (Value Num);
}.

Record ParsedRequest := {
  pq_raw_digest : Digest;
  pq_raw_body : bytes;
  pq_tree : Value Num;
  pq_known : KnownMessagesProjection;
  pq_unknown_top_level : list bytes;
  pq_unknown_content_blocks : list bytes;
  pq_presence_map : gmap bytes FieldPresence;
}.

(** [UniqueValueVisitor]. *)
Fixpoint unique_value (j : Json F) : result JsonError (Value Num) :=
  match j with
  | JsonNull => Ok JNull
  | JsonBool b => Ok (JBool b)
  | JsonI64 z => Ok (JNumber (num_of_i64 z))
  | JsonU64 n => Ok (JNumber (num_of_u64 n))
  | JsonF64 f => match from_f64 f with Some n => Ok (JNumber n) | None => Err OtherJsonError end
  | JsonString s => Ok (JString s)
  | JsonSeq items ended =>
      (fix visit_seq items values :=
         match items with
         | [] => if ended : bool then Ok (JArray values) else Err OtherJsonError
         | j :: items =>
             match unique_value j with
             | Err e => Err e
             | Ok v => visit_seq items (values ++ [v])
             end
         end) items []
  | JsonMap entries ended =>
      (fix visit_map entries values :=
         match entries with
         | [] => if ended : bool then Ok (JObject values) else Err OtherJsonError
         | (key, j) :: entries =>
             if contains_key key values then Err DuplicateObjectKey
             else
               match unique_value j with
               | Err e => Err e
               | Ok v => visit_map entries (map_insert key v values)
               end
         end) entries []
  | JsonInvalid => Err OtherJsonError
  end.

Definition unknown_block (block : Value Num) : bool :=
  is_some_and (λ kind, negb (bool_decide (kind ∈ KNOWN_CONTENT_TYPES))) (get (bs "type") block ≫= as_str).

Definition index_path (prefix : bytes) (index : nat) : bytes := prefix ++ to_string (N.of_nat index).

(** The paths of the unknown blocks of one list. *)
Definition unknown_blocks_at (prefix : bytes) (blocks : list (Value Num)) : list bytes :=
  concat (imap (λ index block, if unknown_block block then [index_path prefix index] else []) blocks).

Definition collect_unknown_content_blocks (value : option (Value Num)) (messages : bool) : list bytes :=
  match value with
  | None => []
  | Some value =>
      match as_array value with
      | None => []
      | Some items =>
          if messages then
            concat (imap (λ index message,
              match get (bs "content") message ≫= as_array with
              | None => []
              | Some content => unknown_blocks_at (index_path (bs "/messages/") index ++ bs "/content/") content
              end) items)
          else unknown_blocks_at (bs "/system/") items
      end
  end.

(** The turn of the loop over the known names: the presence and the field of one. *)
Definition known_presence (object : list (bytes * Value Num)) (name : bytes) : FieldPresence :=
  match map_get name object with
  | None => Missing
  | Some JNull => PresentNull
  | Some _ => PresentValue
  end.

Definition known_loop (object : list (bytes * Value Num)) (names : list bytes)
    : gmap bytes FieldPresence * gmap bytes (Value Num) :=
  foldl (λ '(presence_map, fields) name,
    (<[name := known_presence object name]> presence_map,
     match map_get name object with None => fields | Some value => <[name := value]> fields end)) (∅, ∅) names.

Definition parse_messages_request (raw_body : bytes) (strict : bool) : result ParseError ParsedRequest :=
  match unique_value (json_text raw_body) with
  | Err e => Err (map_json_error e)
  | Ok tree =>
      if negb (json_end raw_body) then Err InvalidJson
      else
        match as_object tree with
        | None => Err RootNotObject
        | Some object =>
            let '(presence_map, fields) := known_loop object KNOWN_TOP_LEVEL in
            let unknown_top_level :=
              sort_paths ((λ key, "/"%char :: escape_pointer key) <$>
                filter (λ key, key ∉ KNOWN_TOP_LEVEL) object.*1) in
            let unknown_content_blocks :=
              sort_paths (collect_unknown_content_blocks (map_get (bs "messages") object) true
                ++ collect_unknown_content_blocks (map_get (bs "system") object) false) in
            match (if strict then head (unknown_top_level ++ unknown_content_blocks) else None) with
            | Some path => Err (UnknownExtension path)
            | None =>
                Ok {| pq_raw_digest := digest_of raw_body; pq_raw_body := raw_body; pq_tree := tree;
                      pq_known := {| km_model := map_get (bs "model") object ≫= as_str;
                                     km_stream := map_get (bs "stream") object ≫= as_bool; km_fields := fields |};
                      pq_unknown_top_level := unknown_top_level; pq_unknown_content_blocks := unknown_content_blocks;
                      pq_presence_map := presence_map |}
            end
        end
  end.

(** ** What a text denotes: no key twice, nothing unreadable *)
Inductive reads : Json F → Value Num → Prop :=
  | reads_null : reads JsonNull JNull
  | reads_bool b : reads (JsonBool b) (JBool b)
  | reads_i64 z : reads (JsonI64 z) (JNumber (num_of_i64 z))
  | reads_u64 n : reads (JsonU64 n) (JNumber (num_of_u64 n))
  | reads_f64 f n : from_f64 f = Some n → reads (JsonF64 f) (JNumber n)
  | reads_string s : reads (JsonString s) (JString s)
  | reads_seq items l : reads_list items l → reads (JsonSeq items true) (JArray l)
  | reads_map entries m : NoDup entries.*1 → reads_entries entries m → reads (JsonMap entries true) (JObject m)
with reads_list : list (Json F) → list (Value Num) → Prop :=
  | reads_nil : reads_list [] []
  | reads_cons j v items l : reads j v → reads_list items l → reads_list (j :: items) (v :: l)
with reads_entries : list (bytes * Json F) → list (bytes * Value Num) → Prop :=
  | reads_no_entry : reads_entries [] []
  | reads_entry key j v entries m : reads j v → reads_entries entries m → reads_entries ((key, j) :: entries) ((key, v) :: m).

End parser.

(** ** Lemmas *)
Section parser_lemmas.
Context {Num F : Type} `{SerdeJson Num F}.

Scheme reads_mut := Induction for reads Sort Prop
  with reads_list_mut := Induction for reads_list Sort Prop
  with reads_entries_mut := Induction for reads_entries Sort Prop.

Lemma reads_list_snoc items l j v : reads_list items l → reads j v → reads_list (items ++ [j]) (l ++ [v]).
Proof. induction 1; simpl; repeat constructor; auto. Qed.

Lemma reads_entries_keys entries m : reads_entries entries m → m.*1 = entries.*1.
Proof. induction 1; simpl; [done|by f_equal]. Qed.

Lemma reads_entries_snoc entries m key j v : reads_entries entries m → reads j v → reads_entries (entries ++ [(key, j)]) (m ++ [(key, v)]).
Proof. induction 1; simpl; repeat constructor; auto. Qed.

(** A text that can be read denotes a value without a repeated key. *)
Lemma reads_wf j v : reads j v → wf v.
Proof.
  intros Hr. induction Hr using reads_mut with
    (P0 := λ items l _, Forall wf l) (P1 := λ entries m _, Forall wf m.*2); try by constructor.
  constructor; [|done]. by erewrite reads_entries_keys.
Qed.

(** The visitor gives what the text denotes, and fails on any other text. *)
Lemma unique_value_spec j : match unique_value j with Ok v => reads j v | Err _ => ∀ v, ¬ reads j v end.
Proof.
  induction j as [|b|z|n|f|s|items ended IH|entries ended IH|] using json_ind'; cbn [unique_value]; try by constructor.
  - destruct (from_f64 f) as [n|] eqn:E; [by constructor|]. intros v Hr. inversion Hr; congruence.
  - match goal with |- match ?go items [] with _ => _ end => set (visit := go) end.
    assert (∀ done values rest, reads_list done values → Forall (λ j, match unique_value j with Ok v => reads j v | Err _ => ∀ v, ¬ reads j v end) rest →
      match visit rest values with Ok v => reads (JsonSeq (done ++ rest) ended) v | Err _ => ∀ v, ¬ reads (JsonSeq (done ++ rest) ended) v end) as Hgo.
    { intros done values rest. revert done values. induction rest as [|j rest IHr]; intros done values Hd Hf; simpl.
      - rewrite app_nil_r. destruct ended; [by constructor|]. intros v Hr. inversion Hr.
      - apply Forall_cons in Hf as [Hj Hf]. destruct (unique_value j) as [v|e].
        + rewrite (cons_middle j), (app_assoc done). apply IHr; [by apply reads_list_snoc|done].
        + intros v Hr. inversion Hr as [| | | | | |? l Hl|]; subst. clear -Hj Hl. revert l Hl.
          induction done as [|d done IHd]; simpl; intros l Hl; inversion Hl; subst; [by eapply Hj|by eapply IHd]. }
    apply (Hgo [] [] items); [constructor|done].
  - match goal with |- match ?go entries [] with _ => _ end => set (visit := go) end.
    assert (∀ done values rest, reads_entries done values → NoDup done.*1 →
      Forall (λ j, match unique_value j with Ok v => reads j v | Err _ => ∀ v, ¬ reads j v end) rest.*2 →
      match visit rest values with Ok v => reads (JsonMap (done ++ rest) ended) v | Err _ => ∀ v, ¬ reads (JsonMap (done ++ rest) ended) v end) as Hgo.
    { intros done values rest. revert done values. induction rest as [|[key j] rest IHr]; intros done values Hd Hnd Hf; simpl.
      - rewrite app_nil_r. destruct ended; [by constructor|]. intros v Hr. inversion Hr.
      - rewrite fmap_cons in Hf. apply Forall_cons in Hf as [Hj Hf]. simpl in Hj. unfold contains_key. destruct (map_get key values) as [old|] eqn:Eg; simpl.
        + intros v Hr. inversion Hr as [| | | | | | |? m Hnd']; subst. apply map_get_in, (list_elem_of_fmap_2 fst) in Eg. simpl in Eg.
          rewrite (reads_entries_keys _ _ Hd) in Eg. rewrite fmap_app in Hnd'. apply NoDup_app in Hnd' as (_ & Hdis & _).
          eapply Hdis; [exact Eg|]. simpl. apply elem_of_cons. by left.
        + apply map_get_None in Eg. destruct (unique_value j) as [v|e].
          * rewrite map_insert_new by done. rewrite (cons_middle (key, j)), (app_assoc done). apply IHr; [by apply reads_entries_snoc| |exact Hf].
            rewrite (reads_entries_keys _ _ Hd) in Eg. rewrite fmap_app. simpl. apply NoDup_app. split_and!; [done| |apply NoDup_singleton].
            by intros k Hk ->%list_elem_of_singleton.
          * intros v Hr. inversion Hr as [| | | | | | |? m ? Hm]; subst. clear -Hj Hm. revert m Hm.
            induction done as [|[k d] done IHd]; simpl; intros m Hm; inversion Hm; subst; [by eapply Hj|by eapply IHd]. }
    apply (Hgo [] [] entries); [constructor|constructor|done].
  - intros v Hr. inversion Hr.
Qed.

Lemma known_loop_spec (object : list (bytes * Value Num)) names :
  let '(presence_map, fields) := known_loop object names in
  ∀ name, presence_map !! name = (if bool_decide (name ∈ names) then Some (known_presence object name) else None) ∧
    fields !! name = (if bool_decide (name ∈ names) then map_get name object else None).
Proof.
  unfold known_loop. induction names as [|name names IH] using rev_ind.
  { intros name. rewrite bool_decide_eq_false_2 by apply not_elem_of_nil. done. }
  rewrite foldl_app. destruct (foldl _ _ _) as [presence_map fields]. simpl. intros name'. destruct (IH name') as [IH1 IH2].
  destruct (decide (name' = name)) as [->|Hne].
  - rewrite (bool_decide_eq_true_2 (name ∈ _ ++ _)) by (apply elem_of_app; right; by apply list_elem_of_singleton).
    rewrite lookup_insert_eq. split; [done|]. destruct (map_get name object) eqn:E; [by rewrite lookup_insert_eq|].
    rewrite IH2. by destruct (bool_decide _).
  - rewrite lookup_insert_ne by done. assert (bool_decide (name' ∈ names ++ [name]) = bool_decide (name' ∈ names)) as ->.
    { apply bool_decide_ext. rewrite elem_of_app, list_elem_of_singleton. naive_solver. }
    split; [done|]. destruct (map_get name object); [by rewrite lookup_insert_ne|done].
Qed.

Lemma sort_paths_nil l : sort_paths l = [] ↔ l = [].
Proof.
  unfold sort_paths. split; [|by intros ->]. intros Hs. apply Permutation_nil_r. rewrite <- Hs. symmetry. apply sort_by_perm.
Qed.

Lemma fmap_nil_iff {A B} (f : A → B) l : f <$> l = [] ↔ l = [].
Proof. by destruct l. Qed.

(** The root of a readable text, when it is an object. *)
Definition denotes (raw_body : bytes) (object : list (bytes * Value Num)) : Prop :=
  reads (json_text raw_body) (JObject object) ∧ json_end raw_body = true.

Lemma reads_unique j v : reads j v → unique_value j = Ok v.
Proof.
  intros Hr. pose proof (unique_value_spec j) as Hs. destruct (unique_value j) as [w|]; [|by destruct (Hs v)].
  f_equal. revert w Hs. induction Hr using reads_mut with
    (P0 := λ items l _, ∀ l', reads_list items l' → l' = l) (P1 := λ entries m _, ∀ m', reads_entries entries m' → m' = m);
    intros w Hw; inversion Hw; subst; try congruence; f_equal; auto. f_equal. auto.
Qed.

(** A request that is parsed is the object its bytes denote. *)
Lemma parse_Ok digest_of raw_body strict parsed :
  parse_messages_request digest_of raw_body strict = Ok parsed →
  parsed.(pq_raw_body) = raw_body ∧ ∃ object, denotes raw_body object ∧ parsed.(pq_tree) = JObject object ∧ wf parsed.(pq_tree).
Proof.
  unfold parse_messages_request, denotes. pose proof (unique_value_spec (json_text raw_body)) as Hs.
  destruct (unique_value _) as [tree|e]; [|done]. destruct (json_end raw_body); [|done]. cbn [negb].
  destruct tree as [| | | | |object]; cbn [as_object]; try done. destruct (known_loop _ _) as [presence_map fields].
  destruct (if strict then _ else _); [done|]. intros [= <-]. split; [done|]. exists object. split_and!; try done. by eapply reads_wf.
Qed.

End parser_lemmas.

(** ** Theorems *)

(** a request is parsed exactly. The parser succeeds on the texts that denote an object in which no
    object has a key twice, and on no others, but that in strict mode an unknown field
    or block is an error naming the first of their sorted paths; what it gives is the value denoted,
    which is well formed, the bytes it was given, and a projection that agrees with the
    value on every known name. *)
Theorem request_parsed_exactly {Num F} `{SerdeJson Num F} digest_of raw_body strict :
  match parse_messages_request digest_of raw_body strict with
  | Ok parsed =>
      ∃ object, denotes raw_body object ∧ parsed.(pq_tree) = JObject object ∧ wf parsed.(pq_tree) ∧
        parsed.(pq_raw_body) = raw_body ∧ parsed.(pq_raw_digest) = digest_of raw_body ∧
        (∀ name, name ∈ KNOWN_TOP_LEVEL →
          parsed.(pq_known).(km_fields) !! name = map_get name object ∧
          parsed.(pq_presence_map) !! name = Some (known_presence object name)) ∧
        (parsed.(pq_unknown_top_level) = [] ↔ ∀ name, is_Some (map_get name object) → name ∈ KNOWN_TOP_LEVEL) ∧
        (strict = true → parsed.(pq_unknown_top_level) = [] ∧ parsed.(pq_unknown_content_blocks) = [])
  | Err (UnknownExtension path) => strict = true ∧
      ∃ parsed, parse_messages_request digest_of raw_body false = Ok parsed ∧
        head (parsed.(pq_unknown_top_level) ++ parsed.(pq_unknown_content_blocks)) = Some path
  | Err _ => ∀ object, ¬ denotes raw_body object
  end.
Proof.
  unfold parse_messages_request, denotes. pose proof (unique_value_spec (json_text raw_body)) as Hs.
  destruct (unique_value _) as [tree|e]; [|destruct e; intros object [Hd _]; by eapply Hs].
  destruct (json_end raw_body) eqn:Ee; cbn [negb]; [|by intros object [_ ?]].
  destruct tree as [| | | | |object]; cbn [as_object]; try (intros object [Hd _]; apply reads_unique in Hs, Hd; rewrite Hs in Hd; discriminate Hd).
  pose proof (known_loop_spec object KNOWN_TOP_LEVEL) as Hk. destruct (known_loop _ _) as [presence_map fields].
  set (top := sort_paths (_ <$> _)). set (blocks := sort_paths _).
  assert (top = [] ↔ ∀ name, is_Some (map_get name object) → name ∈ KNOWN_TOP_LEVEL) as Htop.
  { unfold top. rewrite sort_paths_nil, fmap_nil_iff. split.
    - intros Hf name [value Hv]. destruct (decide (name ∈ KNOWN_TOP_LEVEL)) as [|Hn]; [done|].
      assert (name ∈ filter (λ key, key ∉ KNOWN_TOP_LEVEL) object.*1) as Hin.
      { apply list_elem_of_filter. split; [done|]. apply map_get_in in Hv. by apply (list_elem_of_fmap_2 fst) in Hv. }
      rewrite Hf in Hin. by apply elem_of_nil in Hin.
    - intros Hall. destruct (filter _ _) as [|name l] eqn:Ef; [done|]. assert (name ∈ filter (λ key, key ∉ KNOWN_TOP_LEVEL) object.*1) as Hin.
      { rewrite Ef. apply elem_of_cons. by left. }
      apply list_elem_of_filter in Hin as [Hn Hin]. destruct Hn. apply Hall. destruct (map_get name object) eqn:Eg; [done|].
      by apply map_get_None in Eg. }
  destruct (if strict then _ else _) as [path|] eqn:Est.
  - destruct strict; [|done]. split; [done|]. eexists. by split.
  - exists object. simpl. split_and!; try done; [by eapply reads_wf| |].
    + intros name Hname. destruct (Hk name) as [-> ->]. by rewrite bool_decide_eq_true_2.
    + intros ->. destruct top as [|]; [|done]. by destruct blocks.
Qed.
