(* ===== verification/SystemSegments.v ===== *)
(** The segments of a Claude Code system value:
    [crates/gateway-policy/src/system_segments.rs].

    A text is its UTF-8 bytes; offsets and indices, which the length of a value in
    memory bounds, are natural numbers. *)

From Stdlib Require Import Ascii.
From S2P Require Import Prelude Machine.
From S2P Require Import Bytes.
From S2P Require Import Json.

(** ** Text *)
Definition contains (needle l : bytes) : bool := is_some (find_bytes needle l).

Definition str_to_lowercase (l : bytes) : bytes := to_ascii_lowercase <$> l.

(** [str::split_inclusive]. *)
Fixpoint split_inclusive (sep : ascii) (l : bytes) : list bytes :=
  match l with
  | [] => []
  | c :: l =>
      if bool_decide (c = sep) then [c] :: split_inclusive sep l
      else match split_inclusive sep l with
           | part :: parts => (c :: part) :: parts
           | [] => [[c]]
           end
  end.

(** [str::trim_start_matches] and [trim_end_matches] on a set of characters. *)
Fixpoint trim_start_matches (f : ascii → bool) (l : bytes) : bytes :=
  match l with
  | [] => []
  | c :: l' => if f c then trim_start_matches f l' else l
  end.

Definition trim_end_matches (f : ascii → bool) (l : bytes) : bytes := rev (trim_start_matches f (rev l)).

(** [str::lines]: without the line ending. *)
Definition lines (l : bytes) : list bytes :=
  (λ line, match rev line with
           | "010"%char :: "013"%char :: line => rev line
           | "010"%char :: line => rev line
           | _ => line
           end) <$> split_inclusive LF l.

(** [Iterator::enumerate] and [Iterator::find_map]. *)
Definition enumerate {A} (l : list A) : list (nat * A) := imap pair l.

Definition find_map {A B} (f : A → option B) (l : list A) : option B := head (omap f l).

(** ** Data *)
Inductive OsFamily := OsWindows | OsMacos | OsLinux.

Inductive Flag := BoundaryUnresolved | UnknownVersion | SystemAsString | BillingMalformed.

#[export] Instance Flag_eq_dec : EqDecision Flag.
Proof. solve_decision. Defined.

Record Billing := {
  bl_cc_version : bytes;
  bl_client_version : bytes;
  bl_fp3 : bytes;
  bl_cc_entrypoint : bytes;
  bl_cch : option bytes;
}.

Record DynamicSection := {
  ds_index : nat;
  ds_kind : bytes;
}.

Inductive Boundary :=
  | Resolved (static_end dynamic_start : nat)
  | Unresolved.

Record EnvironmentField := {
  ef_value : bytes;
  ef_byte_range : nat * nat;
}.

Record EnvironmentBlock := {
  eb_index : nat;
  eb_primary_working_directory : option EnvironmentField;
  eb_is_git_repository : option EnvironmentField;
  eb_platform : option EnvironmentField;
  eb_shell : option EnvironmentField;
  eb_os_version : option EnvironmentField;
  eb_model : option EnvironmentField;
  eb_platform_normalized : option OsFamily;
}.

Record SystemSegments := {
  sg_billing : option Billing;
  sg_static_blocks : list nat;
  sg_boundary : Boundary;
  sg_dynamic : list DynamicSection;
  sg_environment : option EnvironmentBlock;
  sg_cache_control_points : list nat;
  sg_flags : list Flag;
}.

(** ** Billing *)
Definition is_version (version : bytes) : bool :=
  let components := split "." version in
  (length components =? 3)%nat
  && forallb (λ component, negb (is_empty component) && forallb is_ascii_digit component) components.

Definition is_fp3 (fp3 : bytes) : bool :=
  (length fp3 =? 3)%nat && forallb (λ c, is_ascii_digit c || in_range 97 102 (byte c)) fp3.

Definition is_known_version (version : bytes) : bool := bool_decide (version = bs "2.1.220") || bool_decide (version = bs "2.1.241").

Definition BILLING_HEADER : bytes := bs "x-anthropic-billing-header:".

(** The loop over the fields: a repeated key keeps its last value, and a field without [=] refuses the text. *)
Fixpoint billing_values (fields : list bytes) (values : gmap bytes bytes) : option (gmap bytes bytes) :=
  match fields with
  | [] => Some values
  | field :: fields =>
      let field := trim field in
      if is_empty field then billing_values fields values
      else
        match split_once "=" field with
        | None => None
        | Some (key, value) => billing_values fields (<[key := value]> values)
        end
  end.

Definition parse_billing (text : bytes) : option Billing :=
  payload ← strip_prefix BILLING_HEADER (trim_start text);
  values ← billing_values (split ";" payload) ∅;
  cc_version ← values !! bs "cc_version";
  '(client_version, fp3) ← rsplit_once "." cc_version;
  if negb (is_version client_version) || negb (is_fp3 fp3) then None
  else
    cc_entrypoint ← values !! bs "cc_entrypoint";
    Some {| bl_cc_version := cc_version; bl_client_version := client_version; bl_fp3 := fp3;
            bl_cc_entrypoint := cc_entrypoint; bl_cch := values !! bs "cch" |}.

(** ** Headings *)
Definition is_dynamic_heading (text : bytes) : bool :=
  let lower := str_to_lowercase text in
  existsb (λ heading, starts_with (bs heading) lower)
    ["communicating"; "pronouns"; "session_guidance"; "# environment"; "session guidance"]%string.

Definition dynamic_kind (text : bytes) : bytes :=
  let lower := str_to_lowercase text in
  if starts_with (bs "# environment") lower then bs "environment"
  else if starts_with (bs "pronouns") lower then bs "pronouns"
  else if starts_with (bs "session_guidance") lower || starts_with (bs "session guidance") lower then bs "session_guidance"
  else bs "communicating".

Definition has_environment_heading (text : bytes) : bool :=
  existsb (λ line, eq_ignore_ascii_case (trim line) (bs "# environment")) (lines text).

Definition normalize_os (value : bytes) : option OsFamily :=
  let value := str_to_lowercase (trim value) in
  if existsb (λ name, bool_decide (value = bs name)) ["win32"; "windows"]%string then Some OsWindows
  else if existsb (λ name, bool_decide (value = bs name)) ["darwin"; "macos"; "mac os"]%string then Some OsMacos
  else if bool_decide (value = bs "linux") then Some OsLinux
  else None.

(** ** The environment block *)
Definition is_eol (c : ascii) : bool := bool_decide (c = CR) || bool_decide (c = LF).

(** The turn of [field] on one line that begins at [offset]. *)
Definition field_at (text label : bytes) (offset : nat) (line : bytes) : option EnvironmentField :=
  let indent := (length line - length (trim_start line))%nat in
  let rest := drop indent line in
  let '(content, bullet) :=
    match strip_prefix (bs "- ") rest with
    | Some content => (content, 2%nat)
    | None => match strip_prefix (bs "* ") rest with Some content => (content, 2%nat) | None => (rest, 0%nat) end
    end in
  match strip_prefix label content with
  | None => None
  | Some after =>
      let without_eol := trim_end_matches is_eol after in
      let leading := (length without_eol - length (trim_start without_eol))%nat in
      let value := trim without_eol in
      let value_start := (offset + indent + bullet + length label + leading)%nat in
      let value_end := (value_start + length value)%nat in
      if ((value_start <=? value_end) && (value_end <=? length text))%nat
      then Some {| ef_value := value; ef_byte_range := (value_start, value_end) |}
      else None
  end.

Fixpoint field_from (text label : bytes) (offset : nat) (rest : list bytes) : option EnvironmentField :=
  match rest with
  | [] => None
  | line :: rest =>
      match field_at text label offset line with
      | Some field => Some field
      | None => field_from text label (offset + length line) rest
      end
  end.

Definition field (text label : bytes) : option EnvironmentField := field_from text label 0 (split_inclusive LF text).

Definition parse_environment (index : nat) (text : bytes) : EnvironmentBlock :=
  let platform := field text (bs "Platform:") in
  {| eb_index := index;
     eb_primary_working_directory := field text (bs "Primary working directory:");
     eb_is_git_repository := field text (bs "Is a git repository:");
     eb_platform := platform;
     eb_shell := field text (bs "Shell:");
     eb_os_version := field text (bs "OS Version:");
     eb_model :=
       (λ value,
          let trimmed := trim_end_matches (λ c, bool_decide (c = "."%char)) value.(ef_value) in
          let start := value.(ef_byte_range).1 in
          {| ef_value := trimmed; ef_byte_range := (start, (start + length trimmed)%nat) |})
       <$> field text (bs "The exact model ID is");
     eb_platform_normalized := platform ≫= λ field, normalize_os field.(ef_value) |}.

(** ** The segments *)
Record Block := {
  bk_text : option bytes;
  bk_cache_control : bool;
}.

Section segments.
Context {Num : Type}.
Implicit Types (system value : Value Num).

Definition block value : Block :=
  match as_object value with
  | None => {| bk_text := as_str value; bk_cache_control := false |}
  | Some object =>
      {| bk_text := map_get (bs "text") object ≫= as_str;
         bk_cache_control := is_some_and (λ value, negb (is_null value)) (map_get (bs "cache_control") object) |}
  end.

Definition system_blocks system : list Block :=
  match system with
  | JString text => [{| bk_text := Some text; bk_cache_control := false |}]
  | JArray values => block <$> values
  | _ => []
  end.

End segments.

Definition cache_points (blocks : list Block) : list nat :=
  omap (λ '(index, item), if item.(bk_cache_control) then Some index else None) (enumerate blocks).

(** The last block of the static prompt, and the first dynamic heading after it. *)
Definition find_static_end (texts : list (option bytes)) : option nat :=
  last (omap (λ '(index, text), value ← text; if contains (bs "# Tone and style") value then Some index else None) (enumerate texts)).

Definition find_dynamic_start (texts : list (option bytes)) (static_end : nat) : option nat :=
  find_map (λ '(index, text), text ← text; if is_dynamic_heading (trim_start text) then Some index else None)
    (drop (static_end + 1) (enumerate texts)).

Definition find_boundary (blocks : list Block) : Boundary :=
  let texts := bk_text <$> blocks in
  match find_static_end texts with
  | None => Unresolved
  | Some static_end =>
      match find_dynamic_start texts static_end with
      | None => Unresolved
      | Some dynamic_start =>
          match filter (λ point, (static_end < point)%nat ∧ (point < dynamic_start)%nat) (cache_points blocks) with
          | [point] => Resolved static_end (Nat.min (point + 1) (length blocks))
          | _ => Resolved static_end dynamic_start
          end
      end
  end.

Definition segment_blocks (as_string : bool) (blocks : list Block) : SystemSegments :=
  let texts := bk_text <$> blocks in
  let first := head texts ≫= id in
  let billing := first ≫= parse_billing in
  let boundary := find_boundary blocks in
  {| sg_billing := billing;
     sg_static_blocks :=
       match boundary with
       | Resolved static_end _ => let start := if is_some billing then 1%nat else 0%nat in seq start (S static_end - start)
       | Unresolved => []
       end;
     sg_boundary := boundary;
     sg_dynamic :=
       match boundary with
       | Resolved _ dynamic_start =>
           omap (λ '(index, text),
             text ← text;
             let text := trim_start text in
             if is_dynamic_heading text then Some {| ds_index := index; ds_kind := dynamic_kind text |} else None)
             (drop dynamic_start (enumerate texts))
       | Unresolved => []
       end;
     sg_environment :=
       find_map (λ '(index, text), value ← text; if has_environment_heading value then Some (parse_environment index value) else None)
         (enumerate texts);
     sg_cache_control_points := cache_points blocks;
     sg_flags :=
       (if as_string : bool then [SystemAsString] else [])
       ++ (if is_some_and (λ text, starts_with BILLING_HEADER (trim_start text) && negb (is_some billing)) first
           then [BillingMalformed] else [])
       ++ (if is_some_and (λ item, negb (is_known_version item.(bl_client_version))) billing then [UnknownVersion] else [])
       ++ (match boundary with Unresolved => [BoundaryUnresolved] | Resolved _ _ => [] end) |}.

Definition parse {Num} (system : Value Num) : SystemSegments :=
  segment_blocks (match system with JString _ => true | _ => false end) (system_blocks system).

(** ** Lemmas *)

Lemma trim_front_suffix w2 w3 l : ∃ p, l = p ++ trim_front w2 w3 l.
Proof.
  induction l as [l IH] using (well_founded_induction (well_founded_ltof _ (@length ascii))).
  assert (∀ p l', l = p ++ l' → p ≠ [] → ∃ p', l = p' ++ trim_front w2 w3 l') as Hsub.
  { intros p l' -> Hp. destruct (IH l') as [p' Hp'].
    - unfold ltof. rewrite length_app. destruct p; [done|simpl; lia].
    - exists (p ++ p'). by rewrite <- app_assoc, <- Hp'. }
  destruct l as [|a l1]; [by exists []|]. simpl. destruct (white1 a); [by apply (Hsub [a] l1)|].
  destruct l1 as [|b l2]; [by exists []|]. destruct (w2 a b); [by apply (Hsub [a; b] l2)|].
  destruct l2 as [|c l3]; [by exists []|]. destruct (w3 a b c); [by apply (Hsub [a; b; c] l3)|by exists []].
Qed.

Lemma trim_start_suffix l : ∃ p, l = p ++ trim_start l.
Proof. apply trim_front_suffix. Qed.

Lemma trim_end_prefix l : ∃ s, l = trim_end l ++ s.
Proof.
  unfold trim_end. destruct (trim_front_suffix (λ b a, white2 a b) (λ c b a, white3 a b c) (rev l)) as [p Hp].
  exists (rev p). rewrite <- rev_app_distr, <- Hp. by rewrite rev_involutive.
Qed.

Lemma trim_end_matches_prefix f l : ∃ s, l = trim_end_matches f l ++ s.
Proof.
  assert (∀ l, ∃ p, l = p ++ trim_start_matches f l) as Hm.
  { clear l. induction l as [|c l [p Hp]]; simpl; [by exists []|]. destruct (f c); [|by exists []]. exists (c :: p). simpl. by f_equal. }
  unfold trim_end_matches. destruct (Hm (rev l)) as [p Hp]. exists (rev p). rewrite <- rev_app_distr, <- Hp. by rewrite rev_involutive.
Qed.

Lemma split_inclusive_concat sep l : concat (split_inclusive sep l) = l.
Proof.
  induction l as [|c l IH]; simpl; [done|]. case_bool_decide; simpl; [by f_equal|].
  destruct (split_inclusive sep l) as [|part parts]; simpl in *; by f_equal.
Qed.

Lemma app_drop_length {A} (p l : list A) : drop (length (p ++ l) - length l) (p ++ l) = l.
Proof. rewrite length_app, Nat.add_sub. apply drop_app_length. Qed.

(** The slice of a text that a range names. *)
Definition slice (text : bytes) (range : nat * nat) : bytes := take (range.2 - range.1) (drop range.1 text).

Lemma slice_middle before value after : slice (before ++ value ++ after) (length before, (length before + length value)%nat) = value.
Proof. unfold slice. simpl. rewrite drop_app_length, Nat.add_comm, Nat.add_sub. apply take_app_length. Qed.

Lemma field_at_slice text label before line after value :
  text = before ++ line ++ after → field_at text label (length before) line = Some value →
  ∃ p s, text = p ++ value.(ef_value) ++ s ∧ value.(ef_byte_range) = (length p, (length p + length value.(ef_value))%nat).
Proof.
  intros -> . unfold field_at. destruct (trim_start_suffix line) as [indent Hi].
  remember (trim_start line) as rest eqn:Er. clear Er. subst line. rewrite app_drop_length, length_app, Nat.add_sub.
  destruct (match strip_prefix (bs "- ") rest with Some _ => _ | None => _ end) as [content bullet] eqn:Eb.
  assert (∃ mark, rest = mark ++ content ∧ length mark = bullet) as (mark & -> & <-).
  { destruct (strip_prefix (bs "- ") rest) eqn:E1; [apply strip_prefix_Some in E1; injection Eb as <- <-; by eexists|].
    destruct (strip_prefix (bs "* ") rest) eqn:E2; [apply strip_prefix_Some in E2; injection Eb as <- <-; by eexists|].
    injection Eb as <- <-. by exists []. }
  destruct (strip_prefix label content) as [tail|] eqn:El; [|done]. apply strip_prefix_Some in El as ->.
  destruct (trim_end_matches_prefix is_eol tail) as [eol He]. set (line := trim_end_matches is_eol tail) in *. clearbody line. subst tail.
  unfold trim. destruct (trim_start_suffix line) as [leading Hl].
  remember (trim_start line) as start eqn:Er. clear Er. subst line. rewrite length_app, Nat.add_sub.
  destruct (trim_end_prefix start) as [white Hw]. set (found := trim_end start) in *. clearbody found. subst start.
  destruct (_ && _); [|done]. intros [= <-]. simpl.
  exists (before ++ indent ++ mark ++ label ++ leading), (white ++ eol ++ after). split.
  - by rewrite <- !app_assoc.
  - rewrite !length_app. f_equal; lia.
Qed.

Lemma field_from_slice text label before rest value :
  text = before ++ concat rest → field_from text label (length before) rest = Some value →
  ∃ p s, text = p ++ value.(ef_value) ++ s ∧ value.(ef_byte_range) = (length p, (length p + length value.(ef_value))%nat).
Proof.
  revert before. induction rest as [|line rest IH]; intros before Ht; simpl; [done|].
  destruct (field_at _ _ _ _) as [found|] eqn:E; [intros [= <-]; by eapply field_at_slice|].
  rewrite <- length_app. apply IH. by rewrite <- app_assoc.
Qed.

Lemma field_slice text label value :
  field text label = Some value →
  ∃ p s, text = p ++ value.(ef_value) ++ s ∧ value.(ef_byte_range) = (length p, (length p + length value.(ef_value))%nat).
Proof. apply (field_from_slice text label []). simpl. by rewrite split_inclusive_concat. Qed.

Lemma enumerate_lookup {A} (l : list A) i j x : enumerate l !! i = Some (j, x) ↔ i = j ∧ l !! i = Some x.
Proof.
  unfold enumerate. rewrite list_lookup_imap. destruct (l !! i); simpl; naive_solver.
Qed.

Lemma elem_of_enumerate {A} (l : list A) i x : (i, x) ∈ enumerate l ↔ l !! i = Some x.
Proof.
  rewrite list_elem_of_lookup. setoid_rewrite enumerate_lookup. naive_solver.
Qed.

Lemma find_map_Some {A B} (f : A → option B) l y : find_map f l = Some y → ∃ x, x ∈ l ∧ f x = Some y.
Proof. unfold find_map. intros Hh%head_Some_elem_of. by apply list_elem_of_omap in Hh. Qed.

Definition environment_fields (env : EnvironmentBlock) : list EnvironmentField :=
  omap id [env.(eb_primary_working_directory); env.(eb_is_git_repository); env.(eb_platform); env.(eb_shell);
           env.(eb_os_version); env.(eb_model)].

Lemma slice_of text p s value : text = p ++ value.(ef_value) ++ s →
  value.(ef_byte_range) = (length p, (length p + length value.(ef_value))%nat) → slice text value.(ef_byte_range) = value.(ef_value).
Proof. intros -> ->. apply slice_middle. Qed.

Lemma parse_environment_slices index text value :
  value ∈ environment_fields (parse_environment index text) → slice text value.(ef_byte_range) = value.(ef_value).
Proof.
  assert (∀ label value, field text label = Some value → slice text value.(ef_byte_range) = value.(ef_value)) as Hf.
  { intros label v (p & s & Ht & Hr)%field_slice. by eapply slice_of. }
  intros (o & Ho & Hv)%list_elem_of_omap. unfold id in Hv. simpl in Ho. rewrite !elem_of_cons in Ho. subst o.
  destruct Ho as [E|[E|[E|[E|[E|[E|[]%elem_of_nil]]]]]]; try by eapply Hf.
  symmetry in E. apply fmap_Some in E as (full & (p & s & Ht & Hr)%field_slice & ->). simpl.
  destruct (trim_end_matches_prefix (λ c, bool_decide (c = "."%char)) (ef_value full)) as [dots Hd]. rewrite Hr. simpl.
  set (trimmed := trim_end_matches _ _) in *. rewrite Ht, Hd, <- app_assoc. apply slice_middle.
Qed.

Lemma cache_points_spec blocks point :
  point ∈ cache_points blocks ↔ ∃ item, blocks !! point = Some item ∧ item.(bk_cache_control) = true.
Proof.
  unfold cache_points. rewrite list_elem_of_omap. split.
  - intros ([i item] & Hin%elem_of_enumerate & Hc). destruct (bk_cache_control item) eqn:E; [|done]. injection Hc as <-. by exists item.
  - intros (item & Hl & Hc). exists (point, item). rewrite elem_of_enumerate, Hc. done.
Qed.

Lemma find_boundary_resolved blocks s d :
  find_boundary blocks = Resolved s d →
  (s < d <= length blocks)%nat ∧
  (∃ item text, blocks !! s = Some item ∧ item.(bk_text) = Some text ∧ contains (bs "# Tone and style") text = true).
Proof.
  unfold find_boundary. destruct (find_static_end _) as [static_end|] eqn:Es; [|done].
  destruct (find_dynamic_start _ _) as [start|] eqn:Ed; [|done].
  assert (static_end < start < length blocks)%nat as Hlt.
  { unfold find_dynamic_start in Ed. apply find_map_Some in Ed as ([i text] & Hin & Hi).
    destruct text as [text|]; simpl in Hi; [|done]. destruct (is_dynamic_heading _); [|done]. injection Hi as ->.
    apply list_elem_of_lookup in Hin as [j Hj]. rewrite lookup_drop in Hj. apply enumerate_lookup in Hj as [<- Hl].
    apply lookup_lt_Some in Hl. rewrite length_fmap in Hl. lia. }
  assert (∃ item text, blocks !! static_end = Some item ∧ item.(bk_text) = Some text ∧ contains (bs "# Tone and style") text = true) as Htone.
  { unfold find_static_end in Es. apply last_Some_elem_of in Es. apply list_elem_of_omap in Es as ([i text] & Hin%elem_of_enumerate & Hi).
    destruct text as [text|]; simpl in Hi; [|done]. destruct (contains _ text) eqn:Ec; [|done]. injection Hi as ->.
    rewrite list_lookup_fmap in Hin. apply fmap_Some in Hin as (item & Hl & Ht). by exists item, text. }
  destruct (filter _ _) as [|point [|point' points]] eqn:Ep; intros [= <- <-]; split; try done; try lia.
  assert (point ∈ filter (λ point, (static_end < point)%nat ∧ (point < start)%nat) (cache_points blocks)) as Hp by (rewrite Ep; by apply list_elem_of_singleton).
  apply list_elem_of_filter in Hp as [Hp _]. lia.
Qed.

Lemma segments_respect_boundary_end {Num} (system : Value Num) :
  match (parse system).(sg_boundary) with
  | Resolved _ dynamic_start => (dynamic_start <= length (system_blocks system))%nat
  | Unresolved => True
  end.
Proof.
  unfold parse. cbn [sg_boundary segment_blocks]. destruct (find_boundary _) eqn:Eb; [|done]. apply find_boundary_resolved in Eb as [? _]. lia.
Qed.

(** ** Theorems *)

(** the values reported for the environment block are slices of it: each byte range, taken
    from the text of the block that the index names, gives back the value. *)
Theorem environment_fields_are_slices {Num} (system : Value Num) env :
  (parse system).(sg_environment) = Some env →
  ∃ item text, system_blocks system !! env.(eb_index) = Some item ∧ item.(bk_text) = Some text ∧ has_environment_heading text = true ∧
    ∀ value, value ∈ environment_fields env → slice text value.(ef_byte_range) = value.(ef_value).
Proof.
  unfold parse. generalize (system_blocks system) as blocks. intros blocks He. apply find_map_Some in He as ([i text] & Hin%elem_of_enumerate & Hi).
  destruct text as [text|]; simpl in Hi; [|done]. destruct (has_environment_heading text) eqn:Eh; [|done]. injection Hi as <-.
  rewrite list_lookup_fmap in Hin. apply fmap_Some in Hin as (item & Hl & Ht). exists item, text. split_and!; [done|done|done|].
  intros value. apply parse_environment_slices.
Qed.

(** the segments of a system value. When the boundary is resolved it lies inside the blocks, the
    static prompt ends at a block that holds its last heading, the static blocks are those up
    to that one, without the billing block, and every dynamic section is a text block
    after the boundary that begins with its heading; when it is not, nothing is called static or dynamic,
    and a flag says so. *)
Theorem segments_respect_boundary {Num} (system : Value Num) :
  let segments := parse system in
  let blocks := system_blocks system in
  match segments.(sg_boundary) with
  | Resolved static_end dynamic_start =>
      (static_end < dynamic_start <= length blocks)%nat ∧
      (∃ item text, blocks !! static_end = Some item ∧ item.(bk_text) = Some text ∧ contains (bs "# Tone and style") text = true) ∧
      (∀ index, index ∈ segments.(sg_static_blocks) ↔
        (index <= static_end)%nat ∧ (is_Some segments.(sg_billing) → index ≠ 0%nat)) ∧
      (∀ section, section ∈ segments.(sg_dynamic) → (dynamic_start <= section.(ds_index))%nat ∧
        ∃ item text, blocks !! section.(ds_index) = Some item ∧ item.(bk_text) = Some text ∧
          is_dynamic_heading (trim_start text) = true ∧ section.(ds_kind) = dynamic_kind (trim_start text)) ∧
      BoundaryUnresolved ∉ segments.(sg_flags)
  | Unresolved => segments.(sg_static_blocks) = [] ∧ segments.(sg_dynamic) = [] ∧ BoundaryUnresolved ∈ segments.(sg_flags)
  end.
Proof.
  unfold parse. generalize (system_blocks system) as blocks. intros blocks. cbn zeta. unfold segment_blocks.
  cbn [sg_boundary sg_static_blocks sg_dynamic sg_billing sg_flags]. set (billing := _ ≫= parse_billing).
  destruct (find_boundary blocks) as [s d|] eqn:Eb.
  - destruct (find_boundary_resolved _ _ _ Eb) as [Hlt Htone]. split; [done|]. split; [done|]. split_and!.
    + intros index. rewrite elem_of_seq. destruct billing; simpl; [|naive_solver lia].
      split; [intros ?; split; [lia|]; intros _; lia|]. intros [Hle Hz]. specialize (Hz (mk_is_Some _ _ eq_refl)). lia.
    + intros section ([i text] & Hin & Hi)%list_elem_of_omap. destruct text as [text|]; simpl in Hi; [|done].
      destruct (is_dynamic_heading _) eqn:Eh; [|done]. injection Hi as <-. simpl.
      apply list_elem_of_lookup in Hin as [j Hj]. rewrite lookup_drop in Hj. apply enumerate_lookup in Hj as [<- Hl].
      rewrite list_lookup_fmap in Hl. apply fmap_Some in Hl as (item & Hl & Ht). split; [lia|]. by exists item, text.
    + rewrite !not_elem_of_app. split_and!; repeat case_match; try apply not_elem_of_nil; by intros [=]%list_elem_of_singleton.
  - split_and!; [done|done|]. rewrite !elem_of_app. do 3 right. by apply list_elem_of_singleton.
Qed.

Definition sample_system : Value Z :=
  JArray [JObject [(bs "text", JString (bs "x-anthropic-billing-header: cc_version=2.1.220.abc; cc_entrypoint=cli;"))];
          JObject [(bs "text", JString (bs "# Tone and style")); (bs "cache_control", JBool true)];
          JObject [(bs "text", JString (bs "# Environment" ++ [LF] ++ bs " - Platform: linux" ++ [LF] ++ bs "Shell: zsh"))]].

Lemma environment_fields_are_slices_witness :
  ∃ env text, (parse sample_system).(sg_environment) = Some env ∧
    bk_text <$> system_blocks sample_system !! 2%nat = Some (Some text) ∧
    (ef_value <$> environment_fields env) = [bs "linux"; bs "zsh"] ∧
    ((λ value, slice text value.(ef_byte_range)) <$> environment_fields env) = [bs "linux"; bs "zsh"].
Proof.
  eexists _, _. split; [by vm_compute|]. split; [by vm_compute|]. split; [by vm_compute|].
  match goal with |- context [environment_fields ?e] => set (env := e) end.
  destruct (environment_fields_are_slices sample_system env) as (item & text & Hl & Ht & _ & Hall); [by vm_compute|].
  vm_compute in Hl. injection Hl as <-. injection Ht as <-.
  transitivity (ef_value <$> environment_fields env); [|by vm_compute]. apply list_fmap_ext. intros i value Hv. apply Hall.
  by apply list_elem_of_lookup_2 in Hv.
Defined.
