(* ===== verification/SystemAlign.v ===== *)
(** The alignment of the environment block of a system value with the environment of the
    selected credential: [crates/super-gatewayd/src/system_env_align.rs].

    The text is edited in place; what an error leaves of it is the second result. *)

From Stdlib Require Import Ascii.
From S2P Require Import Prelude Machine.
From S2P Require Import Bytes.
From S2P Require Import Json.
From S2P Require Import SystemSegments.

Record EnvironmentTarget := {
  et_os_family : OsFamily;
  et_shell : option bytes;
  et_os_version : option bytes;
}.

Inductive EnvironmentAlignError := InvalidReplacement | InvalidRange.

(** ** Text ([str::is_char_boundary], [str::get] and [String::replace_range]) *)
Definition is_char_boundary (l : bytes) (i : nat) : bool :=
  (i =? 0)%nat || (i =? length l)%nat || is_some_and (λ c, negb (continuation c)) (l !! i).

Definition str_get (text : bytes) (range : nat * nat) : option bytes :=
  if (range.1 <=? range.2)%nat && is_char_boundary text range.1 && is_char_boundary text range.2 then Some (slice text range) else None.

Definition replace_range (range : nat * nat) (replacement text : bytes) : bytes :=
  take range.1 text ++ replacement ++ drop range.2 text.

(** ** The edits *)
Abbreviation Edit := ((nat * nat) * bytes)%type.

Definition push_edit (edits : list Edit) (field : option EnvironmentField) (replacement : option bytes) : list Edit :=
  match field, replacement with
  | Some field, Some replacement => edits ++ [(field.(ef_byte_range), replacement)]
  | _, _ => edits
  end.

Definition platform_name (os : OsFamily) : bytes :=
  match os with OsWindows => bs "win32" | OsMacos => bs "darwin" | OsLinux => bs "linux" end.

(** From the end of the text to its start. *)
Definition environment_edits (environment : EnvironmentBlock) (target : EnvironmentTarget) : list Edit :=
  let edits := push_edit [] environment.(eb_platform) (Some (platform_name target.(et_os_family))) in
  let edits := push_edit edits environment.(eb_shell) target.(et_shell) in
  let edits := push_edit edits environment.(eb_os_version) target.(et_os_version) in
  sort_by (λ a b : Edit, (b.1.1 ?= a.1.1)%nat) edits.

Fixpoint apply_edits (edits : list Edit) (text : bytes) (changed : bool) : result EnvironmentAlignError bool * bytes :=
  match edits with
  | [] => (Ok changed, text)
  | (range, replacement) :: edits =>
      match str_get text range with
      | None => (Err InvalidRange, text)
      | Some current =>
          if bool_decide (current = replacement) then apply_edits edits text changed
          else apply_edits edits (replace_range range replacement text) true
      end
  end.

Section align.
Context {Num F : Type} `{SerdeJson Num F}.
Implicit Types (system block : Value Num).

(** [block_text_mut]: the text of a block, and the block with another one. *)
Definition block_text block : option bytes :=
  match block with
  | JString text => Some text
  | JObject object => map_get (bs "text") object ≫= as_str
  | _ => None
  end.

Definition set_block_text (text : bytes) block : Value Num :=
  match block with
  | JString _ => JString text
  | JObject object => JObject (map_insert (bs "text") (JString text) object)
  | _ => block
  end.

(** The text of the block that an index names, and the system with another one. *)
Definition system_text system (index : nat) : option bytes :=
  match system with
  | JString text => if (index =? 0)%nat then Some text else None
  | JArray blocks => blocks !! index ≫= block_text
  | _ => None
  end.

Definition set_system_text (text : bytes) system (index : nat) : Value Num :=
  match system with
  | JString _ => JString text
  | JArray blocks => JArray (alter (set_block_text text) index blocks)
  | _ => system
  end.

Definition align_system_environment system (target : EnvironmentTarget) : result EnvironmentAlignError bool * Value Num :=
  if existsb (existsb is_eol) (omap id [target.(et_shell); target.(et_os_version)]) then (Err InvalidReplacement, system)
  else
    match (parse system).(sg_environment) with
    | None => (Ok false, system)
    | Some environment =>
        match system_text system environment.(eb_index) with
        | None => (Err InvalidRange, system)
        | Some text =>
            let '(outcome, text) := apply_edits (environment_edits environment target) text false in
            (outcome, set_system_text text system environment.(eb_index))
        end
    end.

End align.

(** ** Lemmas *)

(** What precedes a text was trimmed by itself. *)
Lemma trim_front_consumed w2 w3 p l l' : trim_front w2 w3 (p ++ l) = l → trim_front w2 w3 (p ++ l') = trim_front w2 w3 l'.
Proof.
  induction p as [p IH] using (well_founded_induction (well_founded_ltof _ (@length ascii))). unfold ltof in IH.
  assert (∀ q, length (trim_front w2 w3 q) <= length q)%nat as Hlen.
  { intros q. destruct (trim_front_suffix w2 w3 q) as [r Hr]. rewrite Hr at 2. rewrite length_app. lia. }
  assert (∀ q, trim_front w2 w3 q = l → (length l <= length q)%nat) as Hge by (intros q <-; apply Hlen).
  destruct p as [|a [|b [|c p]]]; simpl app; intros E; simpl in E |- *; [done|..].
  - destruct (white1 a) eqn:Ew; [done|]. exfalso. destruct l as [|b l2]; [done|].
    destruct (w2 a b); [apply Hge in E; simpl in E; lia|]. destruct l2 as [|c l3]; [by apply (f_equal length) in E; simpl in E; lia|].
    destruct (w3 a b c); [apply Hge in E; simpl in E; lia|]. apply (f_equal length) in E. simpl in E. lia.
  - destruct (white1 a); [by apply (IH [b]); [simpl; lia|]|]. destruct (w2 a b); [done|]. exfalso. destruct l as [|c l3]; [done|].
    destruct (w3 a b c); [apply Hge in E; simpl in E; lia|]. apply (f_equal length) in E. simpl in E. lia.
  - destruct (white1 a); [by apply (IH (b :: c :: p)); [simpl; lia|]|]. destruct (w2 a b); [by apply (IH (c :: p)); [simpl; lia|]|].
    destruct (w3 a b c); [by apply (IH p); [simpl; lia|]|]. apply (f_equal length) in E. simpl in E. rewrite length_app in E. lia.
Qed.

Lemma trim_start_consumed p l l' : trim_start (p ++ l) = l → trim_start (p ++ l') = trim_start l'.
Proof. apply trim_front_consumed. Qed.

Lemma trim_end_consumed l s l' : trim_end (l ++ s) = l → trim_end (l' ++ s) = trim_end l'.
Proof.
  unfold trim_end. rewrite !rev_app_distr. intros E. f_equal. apply (trim_front_consumed _ _ _ (rev l)).
  rewrite <- E at 2. by rewrite rev_involutive.
Qed.

Lemma trim_start_matches_app f p l : Forall (λ c, f c = true) p → trim_start_matches f (p ++ l) = trim_start_matches f l.
Proof. induction 1 as [|c p Hc Hp IH]; simpl; [done|]. by rewrite Hc. Qed.

Lemma trim_start_matches_split f l : ∃ p, Forall (λ c, f c = true) p ∧ l = p ++ trim_start_matches f l ∧
  match trim_start_matches f l with [] => True | c :: _ => f c = false end.
Proof.
  induction l as [|c l (p & Hp & El & Ht)]; simpl; [by exists []|]. destruct (f c) eqn:Ec; [|by exists []].
  exists (c :: p). split_and!; [by constructor|by rewrite El at 1|done].
Qed.

Lemma trim_end_matches_split f l : ∃ s, Forall (λ c, f c = true) s ∧ l = trim_end_matches f l ++ s ∧
  match last (trim_end_matches f l) with None => True | Some c => f c = false end.
Proof.
  unfold trim_end_matches. destruct (trim_start_matches_split f (rev l)) as (p & Hp & El & Ht). exists (rev p). split_and!.
  - by apply Forall_rev.
  - by rewrite <- rev_app_distr, <- El, rev_involutive.
  - destruct (trim_start_matches f (rev l)) as [|c r]; [done|]. simpl. by rewrite last_snoc.
Qed.

Lemma trim_end_matches_app f l s :
  Forall (λ c, f c = true) s → match last l with None => True | Some c => f c = false end → trim_end_matches f (l ++ s) = l.
Proof.
  intros Hs Hl. unfold trim_end_matches. rewrite rev_app_distr, trim_start_matches_app by by apply Forall_rev.
  destruct l as [|c l _] using rev_ind; [done|]. rewrite last_snoc in Hl. rewrite rev_app_distr. simpl. rewrite Hl.
  change (rev (c :: rev l) = l ++ [c]). simpl. by rewrite rev_involutive.
Qed.

(** ** A field on a line *)

(** Labels, which begin with neither a space nor a bullet. *)
Definition plain_label (label : bytes) : Prop :=
  (∃ c l, label = c :: l ∧ solid c ∧ c ≠ "-"%char ∧ c ≠ "*"%char ∧ to_ascii_lowercase c ≠ "#"%char) ∧ (LF ∉ label).

(** Replacements: a line of text that begins and ends with a printable ASCII character. *)
Definition clean (value : bytes) : Prop :=
  (∃ c l, value = c :: l ∧ solid c) ∧ (∃ l d, value = l ++ [d] ∧ solid d) ∧ Forall (λ c, is_eol c = false) value.

(** How a line is read: the indent, the bullet, the label and the space before the value, the space and the line ending after it. *)
Record splits (label line pre value post : bytes) : Prop := {
  sp_line : line = pre ++ value ++ post;
  sp_parts : ∃ indent mark leading white eol,
    pre = indent ++ mark ++ label ++ leading ∧ post = white ++ eol ∧
    (mark = bs "- " ∨ mark = bs "* " ∨ mark = []) ∧
    trim_start line = mark ++ label ++ leading ++ value ++ post ∧
    Forall (λ c, is_eol c = true) eol ∧
    match last (leading ++ value ++ white) with None => True | Some c => is_eol c = false end ∧
    trim_start (leading ++ value ++ white) = value ++ white ∧ trim_end (value ++ white) = value;
}.

(** The content of a line after its bullet. *)
Definition bulleted (rest : bytes) : bytes * nat :=
  match strip_prefix (bs "- ") rest with
  | Some content => (content, 2%nat)
  | None => match strip_prefix (bs "* ") rest with Some content => (content, 2%nat) | None => (rest, 0%nat) end
  end.

Lemma bulleted_label mark label tail :
  plain_label label → (mark = bs "- " ∨ mark = bs "* " ∨ mark = []) → bulleted (mark ++ label ++ tail) = (label ++ tail, length mark).
Proof.
  intros ((c & l & -> & _ & H1 & H2 & _) & _) Hm. unfold bulleted. change (bs "- ") with ["-"; " "]%char in *. change (bs "* ") with ["*"; " "]%char in *.
  destruct Hm as [-> |[-> | ->]]; simpl; [done|done|]. rewrite decide_False by congruence. by rewrite decide_False by congruence.
Qed.

Lemma bulleted_split rest content bullet : bulleted rest = (content, bullet) →
  ∃ mark, (mark = bs "- " ∨ mark = bs "* " ∨ mark = []) ∧ rest = mark ++ content ∧ bullet = length mark.
Proof.
  unfold bulleted. destruct (strip_prefix (bs "- ") rest) eqn:E1; [apply strip_prefix_Some in E1; intros [= <- <-]; exists (bs "- "); by eauto|].
  destruct (strip_prefix (bs "* ") rest) eqn:E2; [apply strip_prefix_Some in E2; intros [= <- <-]; exists (bs "* "); by eauto|].
  intros [= <- <-]. exists []. by eauto.
Qed.

Lemma field_at_splits text label offset line field :
  field_at text label offset line = Some field →
  ∃ pre post, splits label line pre field.(ef_value) post ∧
    field.(ef_byte_range) = (offset + length pre, offset + length pre + length field.(ef_value))%nat.
Proof.
  unfold field_at. destruct (trim_start_suffix line) as [indent Hi]. remember (trim_start line) as rest eqn:Er.
  subst line. rewrite app_drop_length, length_app, Nat.add_sub. fold (bulleted rest). destruct (bulleted rest) as [content bullet] eqn:Eb.
  apply bulleted_split in Eb as (mark & Hm & -> & ->). destruct (strip_prefix label content) as [tail|] eqn:El; [|done].
  apply strip_prefix_Some in El as ->. destruct (trim_end_matches_split is_eol tail) as (eol & Heol & He & Hlast).
  set (wo := trim_end_matches is_eol tail) in *. clearbody wo. subst tail. unfold trim. destruct (trim_start_suffix wo) as [leading Hl].
  remember (trim_start wo) as start eqn:Es. destruct (trim_end_prefix start) as [white Hw]. remember (trim_end start) as value eqn:Ev.
  rewrite Hw in Hl, Es, Ev |- *. clear Hw start. subst wo. rewrite length_app, Nat.add_sub.
  destruct (_ && _); [|done]. intros [= <-]. simpl. exists (indent ++ mark ++ label ++ leading), (white ++ eol). split; [split|].
  - by rewrite <- !app_assoc.
  - exists indent, mark, leading, white, eol. rewrite <- Er, <- Es, <- Ev. split_and!; try done. by rewrite <- !app_assoc.
  - rewrite !length_app. f_equal; lia.
Qed.

Lemma splits_field_at text label offset line pre value post :
  plain_label label → (offset + length line <= length text)%nat → splits label line pre value post →
  field_at text label offset line = Some {| ef_value := value; ef_byte_range := (offset + length pre, offset + length pre + length value)%nat |}.
Proof.
  intros Hlab Hlen [Hline (indent & mark & leading & white & eol & Hpre & Hpost & Hm & Ht & Heol & Hlast & Hs & He)].
  assert (line = indent ++ mark ++ label ++ leading ++ value ++ post) as Hli by by rewrite Hline, Hpre, <- !app_assoc.
  clear Hline. subst line pre post. unfold field_at. rewrite Ht, app_drop_length.
  fold (bulleted (mark ++ label ++ leading ++ value ++ white ++ eol)). rewrite (bulleted_label mark label) by done.
  rewrite (proj2 (strip_prefix_Some label _ _) eq_refl). assert (leading ++ value ++ white ++ eol = (leading ++ value ++ white) ++ eol) as E.
  { by rewrite <- !app_assoc. }
  rewrite E, (trim_end_matches_app is_eol (leading ++ value ++ white) eol) by done. unfold trim. rewrite Hs, He.
  rewrite !length_app in *. rewrite (proj2 (Nat.leb_le _ _)), (proj2 (Nat.leb_le _ _)) by lia. cbn [andb]. do 2 f_equal. f_equal; lia.
Qed.

(** Another value in its place is read back. *)
Lemma splits_replace label line pre value post value' :
  plain_label label → clean value' → splits label line pre value post → splits label (pre ++ value' ++ post) pre value' post.
Proof.
  intros ((c & l & El & Hc & _) & _) ((c1 & l1 & E1 & Hc1) & (l2 & d2 & E2 & Hd2) & Heols)
    [Hline (indent & mark & leading & white & eol & Hpre & Hpost & Hm & Ht & Heol & Hlast & Hs & He)].
  split; [done|]. exists indent, mark, leading, white, eol.
  assert (trim_start (value' ++ white) = value' ++ white) as Hv' by (rewrite E1; by apply trim_start_solid).
  split_and!; try done.
  - assert (pre ++ value' ++ post = indent ++ mark ++ label ++ leading ++ value' ++ post) as -> by by rewrite Hpre, <- !app_assoc.
    assert (line = indent ++ mark ++ label ++ leading ++ value ++ post) as Hli by by rewrite Hline, Hpre, <- !app_assoc.
    rewrite Hli in Ht. rewrite (trim_start_consumed _ _ _ Ht). rewrite El. destruct Hm as [-> |[-> | ->]]; by apply trim_start_solid.
  - destruct white as [|w white _] using rev_ind.
    + rewrite app_nil_r, E2, app_assoc, last_snoc. rewrite E2, Forall_app, Forall_singleton in Heols. apply Heols.
    + rewrite !app_assoc, last_snoc in *. done.
  - rewrite (trim_start_consumed _ _ _ Hs). done.
  - rewrite (trim_end_consumed _ _ _ He), E2. by apply trim_end_solid.
Qed.

(** A line has one label. *)
Lemma splits_other label label' text offset line pre value post :
  plain_label label → (∀ tail, strip_prefix label' (label ++ tail) = None) → splits label line pre value post →
  field_at text label' offset line = None.
Proof.
  intros Hlab Hother [Hline (indent & mark & leading & white & eol & Hpre & Hpost & Hm & Ht & _)].
  assert (line = indent ++ mark ++ label ++ leading ++ value ++ post) as Hli by by rewrite Hline, Hpre, <- !app_assoc.
  unfold field_at. rewrite Ht. clear Hline. subst line. rewrite app_drop_length.
  fold (bulleted (mark ++ label ++ leading ++ value ++ post)). rewrite (bulleted_label mark label) by done. by rewrite Hother.
Qed.

(** ** The lines of a text *)

(** Every line ends with the line feed and has no other one, but the last one, which need not. *)
Definition line_ok (last_line : bool) (line : bytes) : Prop :=
  (∃ body, (LF ∉ body) ∧ line = body ++ [LF]) ∨ (last_line = true ∧ (LF ∉ line) ∧ line ≠ []).

Fixpoint shaped (lines : list bytes) : Prop :=
  match lines with [] => True | line :: rest => line_ok (is_empty rest) line ∧ shaped rest end.

Lemma split_inclusive_body sep body l : sep ∉ body → split_inclusive sep (body ++ sep :: l) = (body ++ [sep]) :: split_inclusive sep l.
Proof.
  induction body as [|c body IH]; simpl; intros Hn; [by rewrite bool_decide_eq_true_2|]. rewrite not_elem_of_cons in Hn.
  rewrite bool_decide_eq_false_2 by naive_solver. by rewrite IH by naive_solver.
Qed.

Lemma split_inclusive_last sep body : body ≠ [] → sep ∉ body → split_inclusive sep body = [body].
Proof.
  induction body as [|c body IH]; [done|]. intros _ Hn. rewrite not_elem_of_cons in Hn. simpl.
  rewrite bool_decide_eq_false_2 by naive_solver. destruct body as [|d body]; [done|]. by rewrite IH by naive_solver.
Qed.

Lemma shaped_split lines : shaped lines → split_inclusive LF (concat lines) = lines.
Proof.
  induction lines as [|line lines IH]; [done|]. intros [[(body & Hn & ->)|(Hl & Hn & Hne)] Hs]; simpl.
  - rewrite <- app_assoc. simpl. rewrite split_inclusive_body by done. by rewrite IH.
  - destruct lines; [|done]. simpl. rewrite app_nil_r. by apply split_inclusive_last.
Qed.

Lemma split_inclusive_shaped l : shaped (split_inclusive LF l).
Proof.
  induction l as [|c l IH]; simpl; [done|]. case_bool_decide as E; [split; [left|done]|].
  { exists []. split; [apply not_elem_of_nil|by subst]. }
  destruct (split_inclusive LF l) as [|part parts]; simpl in *.
  - split; [right|done]. split_and!; [done|by rewrite list_elem_of_singleton|done].
  - destruct IH as [Hp IH]. split; [|done]. destruct Hp as [(body & Hn & ->)|(Hl & Hn & _)]; [left; exists (c :: body)|right].
    + by rewrite not_elem_of_cons.
    + by rewrite not_elem_of_cons.
Qed.

Lemma shaped_insert lines i line line' :
  lines !! i = Some line → (∀ b, line_ok b line → line_ok b line') → shaped lines → shaped (<[i := line']> lines).
Proof.
  revert i. induction lines as [|l lines IH]; intros [|i]; simpl; try done; intros Hl Hok [Hs1 Hs2]; simplify_eq.
  - by split; [apply Hok|].
  - split; [|by apply IH]. by destruct lines, i.
Qed.

(** A value is between line feeds, so that another one keeps the shape of its line. *)
Lemma splits_line_ok label line pre value post value' b :
  plain_label label → Forall (λ c, is_eol c = false) value' → splits label line pre value post → line_ok b line →
  line_ok b (pre ++ value' ++ post).
Proof.
  intros [(c & l & El & _) Hlf] Hv' [Hline (indent & mark & leading & white & eol & Hpre & Hpost & Hm & Ht & Heol & Hlast & Hs & He)] Hok.
  assert (LF ∉ value') as Hn'. { intros Hin. rewrite Forall_forall in Hv'. by apply Hv' in Hin. }
  set (q := indent ++ mark ++ label ++ leading ++ value ++ white).
  assert (line = q ++ eol) as Eq by (rewrite Hline, Hpre, Hpost; unfold q; by rewrite <- !app_assoc).
  assert (last q ≠ Some LF) as Hq.
  { unfold q. rewrite !last_app. destruct (last (leading ++ value ++ white)) as [d|] eqn:Ed.
    - rewrite !last_app in Ed. rewrite Ed. intros [= ->]. done.
    - rewrite !last_app in Ed. rewrite Ed. destruct (last label) as [d|] eqn:Edl; [|by apply last_None in Edl; subst].
      intros [= ->]. apply Hlf. by apply last_Some_elem_of in Edl. }
  assert (∃ eol', (LF ∉ (q ++ eol')) ∧ (eol = eol' ++ [LF] ∨ (b = true ∧ eol = eol'))) as (eol' & Hnq & Hcase).
  { destruct Hok as [(body & Hn & Hb)|(Hb & Hn & Hne)]; [|exists eol; rewrite <- Eq; by split; [|right]].
    destruct eol as [|e eol _] using rev_ind.
    - rewrite app_nil_r in Eq. exfalso. apply Hq. by rewrite <- Eq, Hb, last_snoc.
    - rewrite Hb, app_assoc in Eq. apply app_inj_2 in Eq as [Eb Ee]; [|done]. injection Ee as <-. exists eol. rewrite <- Eb. by split; [|left]. }
  unfold q in Hnq. rewrite !not_elem_of_app in Hnq. destruct Hnq as ((N1 & N2 & N3 & N4 & N5 & N6) & N7).
  destruct Hcase as [->|[-> ->]]; [left|right].
  - exists (pre ++ value' ++ white ++ eol'). rewrite Hpre, Hpost. split; [by rewrite !not_elem_of_app|by rewrite <- !app_assoc].
  - rewrite Hpre, Hpost. split_and!; [done|by rewrite !not_elem_of_app|]. rewrite El. by destruct indent, mark.
Qed.

(** Where the field of a label is: the first line that has the label. *)
Definition located (label : bytes) (lines : list bytes) (i : nat) (pre value post : bytes) : Prop :=
  (∃ line, lines !! i = Some line ∧ splits label line pre value post) ∧
  ∀ j line, (j < i)%nat → lines !! j = Some line → ∀ pre value post, ¬ splits label line pre value post.

(** The offset of a line. *)
Definition line_offset (lines : list bytes) (i : nat) : nat := length (concat (take i lines)).

Lemma line_bound lines i line : lines !! i = Some line → (line_offset lines i + length line <= length (concat lines))%nat.
Proof.
  intros Hl. unfold line_offset. rewrite <- (take_drop_middle _ _ _ Hl) at 2. rewrite concat_app, !length_app. simpl. rewrite length_app. lia.
Qed.

Lemma field_from_lines label text before rest lines :
  plain_label label → text = concat lines → lines = before ++ rest →
  match field_from text label (length (concat before)) rest with
  | Some field => ∃ i line pre post, rest !! i = Some line ∧ splits label line pre field.(ef_value) post ∧
      (∀ j line, (j < i)%nat → rest !! j = Some line → ∀ pre value post, ¬ splits label line pre value post) ∧
      let start := (line_offset lines (length before + i) + length pre)%nat in
      field.(ef_byte_range) = (start, start + length field.(ef_value))%nat
  | None => ∀ line, line ∈ rest → ∀ pre value post, ¬ splits label line pre value post
  end.
Proof.
  intros Hlab Ht. revert before. induction rest as [|line rest IH]; intros before Hl; simpl; [by intros line ?%elem_of_nil|].
  assert (line_offset lines (length before) = length (concat before)) as Hoff by (unfold line_offset; rewrite Hl; by rewrite take_app_length).
  assert (lines !! length before = Some line) as Hlook by (rewrite Hl; by apply list_lookup_middle).
  pose proof (line_bound _ _ _ Hlook) as Hb. rewrite Hoff, <- Ht in Hb.
  destruct (field_at _ _ _ _) as [found|] eqn:Ef.
  - apply field_at_splits in Ef as (pre & post & Hsp & Hr). exists 0%nat, line, pre, post. cbv zeta. rewrite Nat.add_0_r, Hoff, Hr.
    split_and!; [done|done|intros; lia|done].
  - assert (∀ pre value post, ¬ splits label line pre value post) as Hno.
    { intros pre value post Hsp. rewrite (splits_field_at text label _ line pre value post) in Ef by done. done. }
    specialize (IH (before ++ [line])). rewrite concat_app, length_app in IH. simpl in IH. rewrite app_nil_r, <- app_assoc in IH.
    specialize (IH Hl). destruct (field_from _ _ _ rest) as [found|].
    + destruct IH as (i & line' & pre & post & Hi & Hsp & Hfirst & Hr). exists (S i), line', pre, post. rewrite length_app in Hr. simpl in Hr.
      rewrite <- Nat.add_assoc in Hr. split_and!; [done|done| |done]. intros [|j] l Hj Hlj; [injection Hlj as <-; apply Hno|]. apply (Hfirst j); [lia|done].
    + intros l [->|Hin]%elem_of_cons; [done|by apply IH].
Qed.

Lemma field_lines label lines :
  plain_label label → shaped lines →
  match field (concat lines) label with
  | Some field => ∃ i pre post, located label lines i pre field.(ef_value) post ∧
      let start := (line_offset lines i + length pre)%nat in field.(ef_byte_range) = (start, start + length field.(ef_value))%nat
  | None => ∀ line, line ∈ lines → ∀ pre value post, ¬ splits label line pre value post
  end.
Proof.
  intros Hlab Hs. unfold field. rewrite shaped_split by done. pose proof (field_from_lines label _ [] lines lines Hlab eq_refl eq_refl) as Hf.
  simpl in Hf. destruct (field_from _ _ _ _); [|done]. destruct Hf as (i & line & pre & post & Hi & Hsp & Hfirst & Hr).
  exists i, pre, post. split; [split; [by exists line|done]|done].
Qed.

Lemma located_field label lines i pre value post :
  plain_label label → shaped lines → located label lines i pre value post →
  ef_value <$> field (concat lines) label = Some value.
Proof.
  intros Hlab Hs [(line & Hl & Hsp) Hfirst]. pose proof (field_lines label lines Hlab Hs) as Hf. destruct (field _ _) as [found|].
  - destruct Hf as (i' & pre' & post' & [(line' & Hl' & Hsp') Hfirst'] & _). simpl. f_equal.
    destruct (decide (i < i')%nat); [by destruct (Hfirst' i line ltac:(done) Hl pre value post)|].
    destruct (decide (i' < i)%nat); [by destruct (Hfirst i' line' ltac:(done) Hl' pre' (ef_value found) post')|].
    assert (i' = i) as -> by lia. assert (line' = line) as -> by congruence.
    pose proof (splits_field_at line label 0 line _ _ _ Hlab ltac:(lia) Hsp) as E1.
    pose proof (splits_field_at line label 0 line _ _ _ Hlab ltac:(lia) Hsp') as E2. congruence.
  - destruct (Hf line (list_elem_of_lookup_2 _ _ _ Hl) _ _ _ Hsp).
Qed.

(** ** The edits on the lines *)

(** An edit of the value of a label on a line. *)
Record LineEdit := {
  le_index : nat;
  le_label : bytes;
  le_pre : bytes;
  le_value : bytes;
  le_post : bytes;
  le_replacement : bytes;
}.

Definition edited (lines : list bytes) (e : LineEdit) : list bytes :=
  <[e.(le_index) := e.(le_pre) ++ e.(le_replacement) ++ e.(le_post)]> lines.

Definition edit_range (lines : list bytes) (e : LineEdit) : Edit :=
  let start := (line_offset lines e.(le_index) + length e.(le_pre))%nat in
  ((start, start + length e.(le_value))%nat, e.(le_replacement)).

Definition edit_there (lines : list bytes) (e : LineEdit) : Prop :=
  lines !! e.(le_index) = Some (e.(le_pre) ++ e.(le_value) ++ e.(le_post)).

Lemma edit_text lines e : edit_there lines e →
  concat lines = (concat (take e.(le_index) lines) ++ e.(le_pre)) ++ e.(le_value) ++ (e.(le_post) ++ concat (drop (S e.(le_index)) lines)) ∧
  concat (edited lines e) = (concat (take e.(le_index) lines) ++ e.(le_pre)) ++ e.(le_replacement) ++ (e.(le_post) ++ concat (drop (S e.(le_index)) lines)).
Proof.
  intros Hl. split.
  - rewrite <- (take_drop_middle _ _ _ Hl) at 1. rewrite concat_app. simpl. by rewrite <- !app_assoc.
  - unfold edited. rewrite insert_take_drop by (by eapply lookup_lt_Some). rewrite concat_app. simpl. by rewrite <- !app_assoc.
Qed.

(** The range of an edit gives its value, and the edit changes its line and no other. *)
Lemma edit_range_spec lines e : edit_there lines e →
  (∀ current, str_get (concat lines) (edit_range lines e).1 = Some current → current = e.(le_value)) ∧
  replace_range (edit_range lines e).1 e.(le_replacement) (concat lines) = concat (edited lines e).
Proof.
  intros Hl. destruct (edit_text _ _ Hl) as [Ht Ht']. unfold edit_range. cbn [fst].
  assert (line_offset lines (le_index e) + length (le_pre e) = length (concat (take (le_index e) lines) ++ le_pre e))%nat as Eo
    by (unfold line_offset; by rewrite length_app). rewrite Eo, Ht, Ht'. set (before := _ ++ le_pre e). set (after := le_post e ++ _). split.
  - unfold str_get. destruct (_ && _); [|done]. intros current [= <-]. apply slice_middle.
  - unfold replace_range. cbn [fst snd]. rewrite take_app_length. f_equal. f_equal. rewrite drop_app_add. by rewrite drop_app_length.
Qed.

Lemma edited_there lines e e' : (e'.(le_index) < e.(le_index))%nat → edit_there lines e' →
  edit_there (edited lines e) e' ∧ edit_range (edited lines e) e' = edit_range lines e'.
Proof.
  intros Hlt Hl. unfold edit_there, edited, edit_range, line_offset. split; [by rewrite list_lookup_insert_ne by lia|].
  by rewrite take_insert_ge by lia.
Qed.

(** Edits from the last line to the first one are the edits of their lines. *)
Lemma apply_edits_lines edits lines changed changed' text :
  StronglySorted (λ e e', (e'.(le_index) < e.(le_index))%nat) edits → Forall (edit_there lines) edits →
  apply_edits (edit_range lines <$> edits) (concat lines) changed = (Ok changed', text) →
  text = concat (foldl edited lines edits).
Proof.
  intros Hs. revert lines changed. induction Hs as [|e edits Hs IH Hlt]; intros lines changed Ht; [by intros [= _ <-]|].
  apply Forall_cons in Ht as [He Ht]. destruct (edit_range_spec _ _ He) as [Hget Hrep].
  assert (Forall (edit_there (edited lines e)) edits ∧ edit_range lines <$> edits = edit_range (edited lines e) <$> edits) as [Ht' Hr].
  { rewrite !Forall_forall in *. split; [intros e' Hin; apply edited_there; auto|]. apply list_fmap_ext. intros i e' Hi%list_elem_of_lookup_2.
    symmetry. apply edited_there; auto. }
  rewrite fmap_cons, Hr. cbn [foldl]. assert ((edit_range lines e).2 = le_replacement e) as Er by done.
  destruct (edit_range lines e) as [range replacement]. cbn [fst snd] in *. subst replacement. cbn [apply_edits].
  destruct (str_get _ _) as [current|]; [|done]. specialize (Hget _ eq_refl). subst current.
  case_bool_decide as E; [|rewrite Hrep; by apply IH].
  assert (edited lines e = lines) as Eid; [|rewrite Eid in *; by apply IH].
  unfold edited. rewrite <- E. by apply list_insert_id.
Qed.

Lemma foldl_edited_other edits lines j : j ∉ (le_index <$> edits) → foldl edited lines edits !! j = lines !! j.
Proof.
  revert lines. induction edits as [|e edits IH]; intros lines Hj; simpl; [done|]. rewrite fmap_cons, not_elem_of_cons in Hj.
  rewrite IH by naive_solver. unfold edited. by rewrite list_lookup_insert_ne by naive_solver.
Qed.

Lemma foldl_edited_lookup edits lines e :
  NoDup (le_index <$> edits) → Forall (edit_there lines) edits → e ∈ edits →
  foldl edited lines edits !! e.(le_index) = Some (e.(le_pre) ++ e.(le_replacement) ++ e.(le_post)).
Proof.
  revert lines. induction edits as [|e0 edits IH]; intros lines Hnd Ht Hin; [by apply elem_of_nil in Hin|]. cbn [foldl].
  rewrite fmap_cons in Hnd. apply NoDup_cons in Hnd as [Hn Hnd]. apply Forall_cons in Ht as [He Ht]. apply elem_of_cons in Hin as [->|Hin].
  - rewrite foldl_edited_other by done. unfold edited. apply list_lookup_insert_eq. by eapply lookup_lt_Some.
  - apply IH; [done| |done]. rewrite Forall_forall in Ht |- *. intros e' Hin'. unfold edit_there, edited. rewrite list_lookup_insert_ne; [by apply Ht|].
    intros E. apply Hn. rewrite E. by apply list_elem_of_fmap_2.
Qed.

Lemma foldl_edited_shaped edits lines :
  NoDup (le_index <$> edits) → shaped lines →
  Forall (λ e, edit_there lines e ∧ ∃ line, plain_label e.(le_label) ∧ Forall (λ c, is_eol c = false) e.(le_replacement) ∧
    splits e.(le_label) line e.(le_pre) e.(le_value) e.(le_post)) edits →
  shaped (foldl edited lines edits).
Proof.
  revert lines. induction edits as [|e edits IH]; intros lines Hnd Hs Hf; [done|]. cbn [foldl]. rewrite fmap_cons in Hnd.
  apply NoDup_cons in Hnd as [Hn Hnd]. apply Forall_cons in Hf as [(Ht & line & Hlab & Heol & Hsp) Hf]. apply IH; [done| |].
  - eapply shaped_insert; [exact Ht| |done]. intros b Hok. rewrite <- (sp_line _ _ _ _ _ Hsp) in Hok. by eapply splits_line_ok.
  - rewrite Forall_forall in Hf |- *. intros e' Hin. destruct (Hf e' Hin) as [Ht' Hrest]. split; [|done].
    unfold edit_there, edited. rewrite list_lookup_insert_ne; [done|]. intros E. apply Hn. rewrite E. by apply list_elem_of_fmap_2.
Qed.

(** ** The edits of the environment *)

(** The labels that are read, by which every other one is refused on the same line. *)
Definition environment_labels : list bytes :=
  bs <$> ["Primary working directory:"; "Is a git repository:"; "Platform:"; "Shell:"; "OS Version:"; "The exact model ID is"]%string.

#[local] Instance solid_dec c : Decision (solid c).
Proof. unfold solid. apply _. Defined.

Lemma environment_labels_plain label : label ∈ environment_labels → plain_label label.
Proof.
  unfold environment_labels. intros (s & -> & Hs)%list_elem_of_fmap.
  assert (match bs s with [] => False | c :: _ => solid c ∧ c ≠ "-"%char ∧ c ≠ "*"%char ∧ to_ascii_lowercase c ≠ "#"%char end ∧ LF ∉ bs s) as [Hc Hlf].
  { rewrite !elem_of_cons in Hs. destruct Hs as [->|[->|[->|[->|[->|[->|[]%elem_of_nil]]]]]]; by_decide. }
  split; [|done]. destruct (bs s) as [|c l]; [done|]. by exists c, l.
Qed.

Lemma environment_labels_apart label label' tail :
  label ∈ environment_labels → label' ∈ environment_labels → label ≠ label' → strip_prefix label' (label ++ tail) = None.
Proof.
  unfold environment_labels. intros (s & -> & Hs)%list_elem_of_fmap (s' & -> & Hs')%list_elem_of_fmap. rewrite !elem_of_cons in Hs, Hs'.
  destruct Hs as [->|[->|[->|[->|[->|[->|[]%elem_of_nil]]]]]], Hs' as [->|[->|[->|[->|[->|[->|[]%elem_of_nil]]]]]];
    first [done|intros _; reflexivity].
Qed.

(** An edit of a text: its label is one that is read, at its first line. *)
Record edit_ok (lines : list bytes) (e : LineEdit) : Prop := {
  eo_label : e.(le_label) ∈ environment_labels;
  eo_located : located e.(le_label) lines e.(le_index) e.(le_pre) e.(le_value) e.(le_post);
  eo_clean : clean e.(le_replacement);
}.

Lemma edit_ok_there lines e : edit_ok lines e → edit_there lines e.
Proof. intros [_ [(line & Hl & Hsp) _] _]. unfold edit_there. by rewrite <- (sp_line _ _ _ _ _ Hsp). Qed.

(** A line of an edit has no other label. *)
Lemma edit_line_other label e line pre value post :
  label ∈ environment_labels → e.(le_label) ∈ environment_labels → label ≠ e.(le_label) → splits e.(le_label) line pre value post →
  ∀ pre' value' post', ¬ splits label line pre' value' post'.
Proof.
  intros Hl He Hne Hsp pre' value' post' Hsp'.
  pose proof (splits_other e.(le_label) label line 0 line pre value post (environment_labels_plain _ He)
    (λ tail, environment_labels_apart _ _ tail He Hl (not_eq_sym Hne)) Hsp) as E.
  by rewrite (splits_field_at line label 0 line pre' value' post' (environment_labels_plain _ Hl) ltac:(lia) Hsp') in E.
Qed.

(** Edits of different labels are on different lines. *)
Lemma edit_indices_apart lines edits :
  Forall (edit_ok lines) edits → NoDup (le_label <$> edits) → NoDup (le_index <$> edits).
Proof.
  induction 1 as [|e edits He Hes IH]; [constructor|]. rewrite !fmap_cons, NoDup_cons. intros [Hn Hnd].
  constructor; [|by apply IH]. intros (e' & Ei & Hin)%list_elem_of_fmap. rewrite Forall_forall in Hes. destruct (Hes e' Hin) as [Hl' [(line' & Hli' & Hsp') _] _].
  destruct He as [Hl [(line & Hli & Hsp) _] _]. rewrite Ei in Hli. assert (line' = line) as -> by congruence.
  eapply (edit_line_other (le_label e) e'); [done|done| |exact Hsp'|exact Hsp]. intros E. apply Hn. rewrite E. by apply list_elem_of_fmap_2.
Qed.

Section edits.
Context (lines : list bytes) (edits : list LineEdit).
Hypothesis Hshaped : shaped lines.
Hypothesis Hok : Forall (edit_ok lines) edits.
Hypothesis Hlabels : NoDup (le_label <$> edits).

Lemma edits_indices : NoDup (le_index <$> edits).
Proof. by eapply edit_indices_apart. Qed.

Abbreviation lines' := (foldl edited lines edits).

Lemma edits_there : Forall (edit_there lines) edits.
Proof. eapply Forall_impl; [exact Hok|]. apply edit_ok_there. Qed.

Lemma edits_shaped : shaped lines'.
Proof.
  apply foldl_edited_shaped; [apply edits_indices|done|]. eapply Forall_impl; [exact Hok|]. intros e He. split; [by apply edit_ok_there|].
  destruct He as [Hl [(line & Hli & Hsp) _] (_ & _ & Hc)]. exists line. split_and!; [by apply environment_labels_plain|done|done].
Qed.

(** A line after the edits: an edited one, which has the label of its edit, or the old one. *)
Lemma edits_line j line' : lines' !! j = Some line' →
  (∃ e line, e ∈ edits ∧ j = e.(le_index) ∧ lines !! j = Some line ∧
    splits e.(le_label) line e.(le_pre) e.(le_value) e.(le_post) ∧ splits e.(le_label) line' e.(le_pre) e.(le_replacement) e.(le_post)) ∨
  lines !! j = Some line' ∧ j ∉ (le_index <$> edits).
Proof.
  intros Hl. destruct (decide (j ∈ (le_index <$> edits))) as [Hin|Hout]; [left|right; by rewrite foldl_edited_other in Hl].
  apply list_elem_of_fmap in Hin as (e & -> & Hin). pose proof (foldl_edited_lookup edits lines e edits_indices edits_there Hin) as E.
  rewrite Hl in E. injection E as ->. pose proof (proj1 (Forall_forall _ _) Hok e Hin) as [Hlab [(line & Hli & Hsp) _] Hc].
  exists e, line. split_and!; try done. eapply splits_replace; [by apply environment_labels_plain|done|exact Hsp].
Qed.

(** The value of a label after the edits. *)
Lemma edits_field label : label ∈ environment_labels →
  ef_value <$> field (concat lines') label =
    match list_find (λ e, e.(le_label) = label) edits with
    | Some (_, e) => Some e.(le_replacement)
    | None => ef_value <$> field (concat lines) label
    end.
Proof.
  intros Hlab. pose proof (environment_labels_plain _ Hlab) as Hplain. destruct (list_find _ _) as [[k e]|] eqn:Ef.
  - apply list_find_Some in Ef as (Hk & <- & _). pose proof (list_elem_of_lookup_2 _ _ _ Hk) as Hin.
    pose proof (proj1 (Forall_forall _ _) Hok e Hin) as [_ [(line & Hli & Hsp) Hfirst] Hc].
    apply (located_field _ _ e.(le_index) e.(le_pre) _ e.(le_post)); [done|apply edits_shaped|]. split.
    + exists (e.(le_pre) ++ e.(le_replacement) ++ e.(le_post)). split; [by apply (foldl_edited_lookup _ _ _ edits_indices edits_there)|].
      by eapply splits_replace.
    + intros j line' Hj Hl'. apply edits_line in Hl' as [(e' & old & Hin' & -> & Hold & Hsp1 & Hsp2)|[Hl' _]]; [|by apply (Hfirst j)].
      pose proof (proj1 (Forall_forall _ _) Hok e' Hin') as [Hlab' _ _].
      eapply (edit_line_other (le_label e) e'); [exact Hlab|exact Hlab'| |exact Hsp2].
      intros E. rewrite <- E in Hsp1. by apply (Hfirst _ _ Hj Hold) in Hsp1.
  - rewrite list_find_None in Ef. rewrite Forall_forall in Ef. pose proof (field_lines label lines Hplain Hshaped) as Hf.
    destruct (field (concat lines) label) as [found|].
    + destruct Hf as (i & pre & post & [(line & Hli & Hsp) Hfirst] & _). simpl.
      apply (located_field _ _ i pre _ post); [done|apply edits_shaped|]. split.
      * exists line. split; [|done]. rewrite foldl_edited_other; [done|]. intros (e & -> & Hin)%list_elem_of_fmap.
        pose proof (proj1 (Forall_forall _ _) Hok e Hin) as [Hlab' [(line' & Hli' & Hsp') _] _]. assert (line' = line) as -> by congruence.
        eapply (edit_line_other label e); [done|done| |exact Hsp'|exact Hsp]. intros E. by apply (Ef e Hin).
      * intros j line' Hj Hl'. apply edits_line in Hl' as [(e' & old & Hin' & -> & Hold & Hsp1 & Hsp2)|[Hl' _]]; [|by apply (Hfirst j)].
        pose proof (proj1 (Forall_forall _ _) Hok e' Hin') as [Hlab' _ _].
        eapply (edit_line_other label e'); [exact Hlab|exact Hlab'| |exact Hsp2]. intros E. by apply (Ef e' Hin').
    + pose proof (field_lines label lines' Hplain edits_shaped) as Hf'. destruct (field (concat lines') label) as [found|]; [|done].
      destruct Hf' as (i & pre & post & [(line' & Hl' & Hsp) _] & _).
      apply edits_line in Hl' as [(e' & old & Hin' & -> & Hold & Hsp1 & Hsp2)|[Hl' _]].
      * pose proof (proj1 (Forall_forall _ _) Hok e' Hin') as [Hlab' _ _].
        destruct (edit_line_other label e' line' _ _ _ Hlab Hlab' (not_eq_sym (Ef e' Hin')) Hsp2 _ _ _ Hsp).
      * destruct (Hf line' (list_elem_of_lookup_2 _ _ _ Hl') _ _ _ Hsp).
Qed.

End edits.

(** ** The edits from the end of the text to its start *)

Lemma push_edit_lines lines edits label replacement :
  shaped lines → label ∈ environment_labels → label ∉ (le_label <$> edits) → Forall (edit_ok lines) edits →
  (∀ r, replacement = Some r → clean r) →
  ∃ edits', push_edit (edit_range lines <$> edits) (field (concat lines) label) replacement = edit_range lines <$> edits' ∧
    Forall (edit_ok lines) edits' ∧
    ((edits' = edits ∧ (field (concat lines) label = None ∨ replacement = None)) ∨
     ∃ e, edits' = edits ++ [e] ∧ e.(le_label) = label ∧ replacement = Some e.(le_replacement) ∧ is_Some (field (concat lines) label)).
Proof.
  intros Hs Hlab Hnew Hok Hr. pose proof (field_lines label lines (environment_labels_plain _ Hlab) Hs) as Hf. unfold push_edit.
  destruct (field _ _) as [found|]; [|exists edits; split_and!; by auto]. destruct replacement as [r|]; [|exists edits; split_and!; by auto].
  destruct Hf as (i & pre & post & Hloc & Hrange). set (e := {| le_index := i; le_label := label; le_pre := pre; le_value := ef_value found; le_post := post; le_replacement := r |}).
  exists (edits ++ [e]). split_and!.
  - rewrite fmap_app. simpl. unfold edit_range at 3. simpl. by rewrite Hrange.
  - apply Forall_app. split; [done|]. apply Forall_singleton. split; [done|done|by apply Hr].
  - right. by exists e.
Qed.

Lemma sort_by_fmap {A B} (f : A → B) cmp (l : list A) : sort_by cmp (f <$> l) = f <$> sort_by (λ x y, cmp (f x) (f y)) l.
Proof.
  unfold sort_by. induction l as [|x l IH]; [done|]. rewrite fmap_cons. cbn [foldr]. rewrite IH. generalize (foldr (sort_insert (λ x y, cmp (f x) (f y))) [] l) as s.
  induction s as [|y s IHs]; [done|]. rewrite fmap_cons. cbn [sort_insert]. destruct (cmp (f x) (f y)); [done|done|]. by rewrite fmap_cons, IHs.
Qed.

Lemma line_offset_lt lines i j line : (i < j)%nat → lines !! i = Some line → (line_offset lines i + length line <= line_offset lines j)%nat.
Proof.
  intros Hlt Hl. unfold line_offset. replace (take j lines) with (take (S i) lines ++ take (j - S i) (drop (S i) lines)).
  - rewrite (take_S_r _ _ _ Hl), !concat_app, !length_app. simpl. rewrite app_nil_r. lia.
  - rewrite take_take_drop. f_equal. lia.
Qed.

Lemma splits_pre label line pre value post : plain_label label → splits label line pre value post → pre ≠ [].
Proof.
  intros [(c & l & -> & _) _] [_ (indent & mark & leading & white & eol & -> & _)]. by destruct indent, mark.
Qed.

(** Edits with greater starts are on later lines. *)
Lemma edit_starts lines e e' :
  edit_ok lines e → edit_ok lines e' → e.(le_index) ≠ e'.(le_index) → ((edit_range lines e').1.1 <= (edit_range lines e).1.1)%nat →
  (e'.(le_index) < e.(le_index))%nat.
Proof.
  intros [_ [(line & Hl & Hsp) _] _] [Hlab' [(line' & Hl' & Hsp') _] _] Hne Hle.
  destruct (decide (e'.(le_index) < e.(le_index))%nat); [done|]. exfalso. unfold edit_range in Hle. cbn [fst] in Hle.
  pose proof (line_offset_lt lines (le_index e) (le_index e') line ltac:(lia) Hl) as Ho. rewrite (sp_line _ _ _ _ _ Hsp), !length_app in Ho.
  pose proof (splits_pre _ _ _ _ _ (environment_labels_plain _ Hlab') Hsp') as Hpre. destruct (le_pre e'); [done|]. simpl in Hle. lia.
Qed.

(** The labels that the alignment replaces, and the values it writes. *)
Definition replacements (target : EnvironmentTarget) : list (bytes * option bytes) :=
  [(bs "Platform:", Some (platform_name target.(et_os_family))); (bs "Shell:", target.(et_shell)); (bs "OS Version:", target.(et_os_version))].

Definition target_ok (target : EnvironmentTarget) : Prop :=
  (∀ r, target.(et_shell) = Some r → clean r) ∧ (∀ r, target.(et_os_version) = Some r → clean r).

Lemma platform_name_clean os : clean (platform_name os).
Proof.
  unfold clean. destruct os; (split_and!;
    [eexists _, _; split; [reflexivity|split; by_decide]
    |match goal with |- ∃ l d, ?x = _ ∧ _ => exists (rev (tail (rev x))), (default " "%char (head (rev x))); split; [reflexivity|split; by_decide] end
    |by_decide]).
Qed.

Lemma replacements_clean target label r : target_ok target → (label, Some r) ∈ replacements target → clean r.
Proof.
  intros [Hshell Hos]. unfold replacements. rewrite !elem_of_cons. intros [[= -> ->]|[[= -> E]|[[= -> E]|[]%elem_of_nil]]]; auto using platform_name_clean.
Qed.

Lemma replacements_labels target : NoDup (replacements target).*1 ∧ ∀ label r, (label, r) ∈ replacements target → label ∈ environment_labels.
Proof.
  split; [by_decide|]. intros label r Hin%(list_elem_of_fmap_2 fst). simpl fst in Hin. revert Hin. unfold environment_labels.
  change (replacements target).*1 with (bs <$> ["Platform:"; "Shell:"; "OS Version:"]%string). intros (name & -> & Hin)%list_elem_of_fmap.
  apply list_elem_of_fmap_2. rewrite !elem_of_cons in *. naive_solver.
Qed.

Lemma push_edits_lines lines pairs edits :
  shaped lines → NoDup pairs.*1 → (∀ label r, (label, r) ∈ pairs → label ∈ environment_labels) →
  (∀ label r, (label, Some r) ∈ pairs → clean r) → (∀ label, label ∈ pairs.*1 → label ∉ (le_label <$> edits)) →
  Forall (edit_ok lines) edits → NoDup (le_label <$> edits) →
  ∃ edits', foldl (λ edits '(label, r), push_edit edits (field (concat lines) label) r) (edit_range lines <$> edits) pairs = edit_range lines <$> edits' ∧
    Forall (edit_ok lines) edits' ∧ NoDup (le_label <$> edits') ∧
    ∀ label r, (∃ e, e ∈ edits' ∧ e.(le_label) = label ∧ e.(le_replacement) = r) ↔
      (∃ e, e ∈ edits ∧ e.(le_label) = label ∧ e.(le_replacement) = r) ∨ (label, Some r) ∈ pairs ∧ is_Some (field (concat lines) label).
Proof.
  intros Hs. revert edits. induction pairs as [|[label r] pairs IH]; intros edits Hnd Hlab Hclean Hnew Hok Hnde.
  { exists edits. split_and!; try done. intros label r. split; [by left|]. intros [?|[[]%elem_of_nil _]]; done. }
  apply NoDup_cons in Hnd as [Hn Hnd].
  destruct (push_edit_lines lines edits label r Hs) as (edits1 & E1 & Hok1 & H1); [by eapply Hlab; left|apply Hnew; by left|done| |].
  { intros r' ->. eapply Hclean. by left. }
  cbn [foldl]. rewrite E1. destruct (IH edits1) as (edits' & E' & Hok' & Hnd' & H'); try done.
  - intros label' r' Hin. eapply Hlab. by right.
  - intros label' r' Hin. eapply Hclean. by right.
  - intros label' Hin. destruct H1 as [[-> _]|(e & -> & <- & _)]; [apply Hnew; by right|]. rewrite fmap_app, not_elem_of_app. split; [apply Hnew; by right|].
    simpl. rewrite list_elem_of_singleton. intros ->. done.
  - destruct H1 as [[-> _]|(e & -> & <- & _)]; [done|]. rewrite fmap_app. apply NoDup_app. split_and!; [done| |apply NoDup_singleton].
    simpl. intros l Hl ->%list_elem_of_singleton. revert Hl. apply Hnew. by left.
  - exists edits'. split_and!; try done. intros label' r'. rewrite H', elem_of_cons. destruct H1 as [[-> Hnone]|(e & -> & <- & -> & Hf)].
    + split; [naive_solver|]. intros [?|[[[= El Er]|?] [found Hf]]]; [by left| |by right].
      exfalso. subst. destruct Hnone as [E|E]; congruence.
    + setoid_rewrite elem_of_app. setoid_rewrite list_elem_of_singleton. naive_solver.
Qed.

Lemma environment_edits_lines lines index target :
  shaped lines → target_ok target →
  ∃ edits, environment_edits (parse_environment index (concat lines)) target = edit_range lines <$> edits ∧ Forall (edit_ok lines) edits ∧
    NoDup (le_label <$> edits) ∧ StronglySorted (λ e e', (e'.(le_index) < e.(le_index))%nat) edits ∧
    ∀ label r, (∃ e, e ∈ edits ∧ e.(le_label) = label ∧ e.(le_replacement) = r) ↔
      (label, Some r) ∈ replacements target ∧ is_Some (field (concat lines) label).
Proof.
  intros Hs Ht. destruct (replacements_labels target) as [Hnd Hlab].
  destruct (push_edits_lines lines (replacements target) [] Hs Hnd Hlab) as (edits & E & Hok & Hndl & Hspec);
    [intros label r; by apply replacements_clean|intros label _; apply not_elem_of_nil|done|apply NoDup_nil_2|].
  unfold environment_edits. cbn [parse_environment eb_platform eb_shell eb_os_version]. cbn [foldl replacements] in E.
  change (edit_range lines <$> []) with (@nil Edit) in E. rewrite E, sort_by_fmap. set (cmp := λ _ _, _).
  exists (sort_by cmp edits). pose proof (sort_by_perm cmp edits) as Hp. split_and!; [done|by rewrite Hp|by rewrite Hp| |].
  - assert (Forall (edit_ok lines) (sort_by cmp edits)) as Hok' by by rewrite Hp.
    assert (NoDup (le_index <$> sort_by cmp edits)) as Hni by (rewrite Hp; by eapply edit_indices_apart).
    assert (StronglySorted (λ e e', cmp e e' ≠ Gt) (sort_by cmp edits)) as Hsort.
    { apply (sort_by_sorted cmp (λ _, True)); [|by apply Forall_true]. unfold cmp.
      split; [intros; apply Nat.compare_antisym|]. intros x y z _ _ _. rewrite !Nat.compare_le_iff. lia. }
    clear Hp. induction Hsort as [|e es Hes IH He]; [constructor|]. rewrite fmap_cons in Hni. apply NoDup_cons in Hni as [Hn Hni].
    apply Forall_cons in Hok' as [Hoke Hok']. constructor; [by apply IH|]. rewrite Forall_forall in He, Hok' |- *. intros e' Hin.
    apply (edit_starts lines); [done|by apply Hok'| |].
    + intros Ei. apply Hn. rewrite Ei. by apply list_elem_of_fmap_2.
    + specialize (He e' Hin). unfold cmp in He. by apply Nat.compare_le_iff in He.
  - intros label r. setoid_rewrite Hp. rewrite Hspec. split; [intros [(e & []%elem_of_nil & _)|?]; done|by right].
Qed.

(** ** The heading *)

(** [str::lines] of one line. *)
Definition strip_eol (line : bytes) : bytes :=
  match rev line with
  | "010"%char :: "013"%char :: line => rev line
  | "010"%char :: line => rev line
  | _ => line
  end.

Lemma strip_eol_app line : ∃ s, line = strip_eol line ++ s ∧ Forall (λ c, is_eol c = true) s.
Proof.
  unfold strip_eol. remember (rev line) as l eqn:El. apply (f_equal (@rev ascii)) in El. rewrite rev_involutive in El. subst line.
  destruct l as [|c l]; [by exists []|]. destruct (decide (c = LF)) as [->|Hc].
  - change LF with "010"%char. destruct l as [|d l]; [by exists [LF]; split; [|repeat constructor]|].
    destruct (decide (d = CR)) as [->|Hd]; [exists [CR; LF]; simpl; rewrite <- app_assoc; by split; [|repeat constructor]|].
    exists [LF]. split; [|by repeat constructor]. unfold CR in Hd. destruct d as [[] [] [] [] [] [] [] []]; try reflexivity. by destruct Hd.
  - exists []. split; [|done]. rewrite app_nil_r. unfold LF in Hc. destruct c as [[] [] [] [] [] [] [] []]; try reflexivity. by destruct Hc.
Qed.

Definition is_heading (line : bytes) : bool := eq_ignore_ascii_case (trim (strip_eol line)) (bs "# environment").

Lemma has_environment_heading_lines ls : shaped ls → has_environment_heading (concat ls) = existsb is_heading ls.
Proof.
  intros Hs. unfold has_environment_heading, lines. rewrite shaped_split by done. induction ls as [|l ls IH]; [done|].
  rewrite fmap_cons. cbn [existsb]. f_equal. apply IH, Hs.
Qed.

(** A line with a label is not the heading. *)
Lemma splits_not_heading label line pre value post : plain_label label → splits label line pre value post → is_heading line = false.
Proof.
  intros [(c & l & El & Hc & Hc1 & Hc2 & Hc3) _] [Hline (indent & mark & leading & white & eol & Hpre & Hpost & Hm & Ht & _)].
  assert (∃ c0 r, mark ++ label = c0 :: r ∧ solid c0 ∧ to_ascii_lowercase c0 ≠ "#"%char ∧ is_eol c0 = false) as (c0 & r & Ec & Hs0 & Hl0 & He0).
  { rewrite El. destruct Hm as [-> |[-> | ->]]; [eexists _, _; split; [reflexivity|split_and!; by_decide]..|].
    exists c, l. split_and!; try done. apply (bool_decide_unpack _). revert Hc. unfold solid. clear.
    destruct c as [[] [] [] [] [] [] [] []]; intros [H1 H2]; done. }
  assert (line = indent ++ c0 :: (r ++ leading ++ value ++ post)) as Hli.
  { rewrite Hline, Hpre, <- !app_assoc. do 2 f_equal. rewrite (app_assoc mark), Ec. done. }
  rewrite (app_assoc mark), Ec in Ht. simpl in Ht.
  destruct (strip_eol_app line) as (s & Es & Hse). assert (∃ r', strip_eol line = indent ++ c0 :: r') as [r' Er].
  { rewrite Hli in Es at 1. apply app_eq_inv in Es as [(k & E1 & E2)|(k & E1 & E2)].
    - exfalso. subst s. rewrite Forall_app, Forall_cons in Hse. destruct Hse as (_ & Hse & _). congruence.
    - destruct k as [|k0 k]; simpl in E2; [subst s; rewrite Forall_cons in Hse; destruct Hse; congruence|]. injection E2 as -> _. by exists k. }
  unfold is_heading, trim. rewrite Er. rewrite Hli in Ht. rewrite (trim_start_consumed _ _ _ Ht), trim_start_solid by done.
  destruct (trim_end_prefix (c0 :: r')) as [s' Hs']. destruct (trim_end (c0 :: r')) as [|d rest]; [done|]. injection Hs' as <- _.
  unfold eq_ignore_ascii_case. apply bool_decide_eq_false_2. cbn [map]. intros E.
  assert (head (map to_ascii_lowercase (bs "# environment")) = Some "#"%char) as E2 by reflexivity. rewrite <- E in E2. cbn [head] in E2. congruence.
Qed.

Lemma existsb_false_lookup {A} (f : A → bool) l : existsb f l = false ↔ ∀ i x, l !! i = Some x → f x = false.
Proof.
  split.
  - intros He i x Hx. destruct (f x) eqn:E; [|done]. exfalso. apply not_true_iff_false in He. apply He, existsb_exists.
    exists x. split; [|done]. by apply list_elem_of_lookup_2, list_elem_of_In in Hx.
  - intros Hall. apply not_true_iff_false. intros (x & Hin & Hf)%existsb_exists. apply list_elem_of_In, list_elem_of_lookup in Hin as [i Hi].
    by rewrite (Hall i x Hi) in Hf.
Qed.

Lemma edits_heading lines edits :
  shaped lines → Forall (edit_ok lines) edits → NoDup (le_label <$> edits) →
  has_environment_heading (concat lines) = true → has_environment_heading (concat (foldl edited lines edits)) = true.
Proof.
  intros Hs Hok Hnd Hh. rewrite has_environment_heading_lines in Hh by done. rewrite has_environment_heading_lines by by apply edits_shaped.
  apply not_false_iff_true. intros Hf. apply not_false_iff_true in Hh. apply Hh. clear Hh. rewrite existsb_false_lookup in *. intros i line Hl.
  destruct (decide (i ∈ (le_index <$> edits))) as [Hin|Hout]; [|apply (Hf i); by rewrite foldl_edited_other].
  apply list_elem_of_fmap in Hin as (e & -> & Hin). pose proof (proj1 (Forall_forall _ _) Hok e Hin) as [Hlab [(line' & Hl' & Hsp) _] _].
  assert (line' = line) as -> by congruence. by eapply splits_not_heading; [apply environment_labels_plain|].
Qed.

(** ** The text that is aligned *)

Definition value_of (o : option EnvironmentField) : option bytes := ef_value <$> o.

Lemma apply_edits_text index text target changed text' :
  target_ok target → has_environment_heading text = true →
  apply_edits (environment_edits (parse_environment index text) target) text false = (Ok changed, text') →
  has_environment_heading text' = true ∧
  ∀ label, label ∈ environment_labels →
    value_of (field text' label) =
      match list_find (λ entry, entry.1 = label) (replacements target) with
      | Some (_, (_, Some r)) => (λ _, r) <$> field text label
      | _ => value_of (field text label)
      end.
Proof.
  intros Ht Hh Happly. pose proof (split_inclusive_shaped text) as Hs. pose proof (split_inclusive_concat LF text) as Hc.
  set (ls := split_inclusive LF text) in *. clearbody ls. subst text.
  destruct (environment_edits_lines ls index target Hs Ht) as (edits & E & Hok & Hnd & Hsort & Hspec). rewrite E in Happly.
  apply apply_edits_lines in Happly as ->; [|done|eapply Forall_impl; [exact Hok|apply edit_ok_there]].
  split; [by apply edits_heading|]. intros label Hlab. unfold value_of. rewrite edits_field by done.
  destruct (replacements_labels target) as [Hndr _].
  assert (∀ r, (label, Some r) ∈ replacements target ↔ ∃ k, list_find (λ entry, entry.1 = label) (replacements target) = Some (k, (label, Some r))) as Hfind.
  { intros r. split.
    - intros Hin. destruct (list_find_elem_of (λ entry, entry.1 = label) (replacements target) (label, Some r) Hin eq_refl) as [[k [l o]] Hk].
      pose proof Hk as Hk'. apply list_find_Some in Hk' as (Hk1 & Hl & _). simpl in Hl. subst l. apply list_elem_of_lookup in Hin as [j Hj].
      assert (k = j) as -> by (eapply (NoDup_lookup _ k j label Hndr); rewrite list_lookup_fmap; by rewrite ?Hk1, ?Hj).
      exists j. rewrite Hk. congruence.
    - intros [k (Hk & _)%list_find_Some]. by eapply list_elem_of_lookup_2. }
  destruct (list_find _ edits) as [[k e]|] eqn:Ef.
  - apply list_find_Some in Ef as (Hk & El & _). assert ((label, Some e.(le_replacement)) ∈ replacements target ∧ is_Some (field (concat ls) label)) as [Hin [old Hold]].
    { apply Hspec. exists e. split_and!; [by eapply list_elem_of_lookup_2|done|done]. }
    apply Hfind in Hin as [j ->]. by rewrite Hold.
  - rewrite list_find_None, Forall_forall in Ef. destruct (list_find _ (replacements target)) as [[k [l [r|]]]|] eqn:Er; try done.
    destruct (field (concat ls) label) as [old|] eqn:Eold; [|done]. exfalso.
    assert (l = label) as -> by by apply list_find_Some in Er as (_ & ? & _).
    destruct (proj2 (Hspec label r)) as (e & Hin & El & _); [split; [by apply Hfind; exists k|by eexists]|]. by apply (Ef e Hin).
Qed.

Lemma normalize_platform os : normalize_os (platform_name os) = Some os.
Proof. by destruct os. Qed.

(** The values of the block, label by label. *)
Lemma apply_edits_values text text' target :
  (∀ label, label ∈ environment_labels →
    value_of (field text' label) =
      match list_find (λ entry, entry.1 = label) (replacements target) with
      | Some (_, (_, Some r)) => (λ _, r) <$> field text label
      | _ => value_of (field text label)
      end) →
  let old := parse_environment 0 text in
  let new := parse_environment 0 text' in
  value_of new.(eb_platform) = (λ _, platform_name target.(et_os_family)) <$> old.(eb_platform) ∧
  new.(eb_platform_normalized) = (λ _, target.(et_os_family)) <$> old.(eb_platform) ∧
  value_of new.(eb_shell) = match target.(et_shell) with Some r => (λ _, r) <$> old.(eb_shell) | None => value_of old.(eb_shell) end ∧
  value_of new.(eb_os_version) =
    match target.(et_os_version) with Some r => (λ _, r) <$> old.(eb_os_version) | None => value_of old.(eb_os_version) end ∧
  value_of new.(eb_primary_working_directory) = value_of old.(eb_primary_working_directory) ∧
  value_of new.(eb_is_git_repository) = value_of old.(eb_is_git_repository) ∧
  value_of new.(eb_model) = value_of old.(eb_model).
Proof.
  intros Hv old new. unfold old, new, parse_environment.
  cbn [eb_platform eb_platform_normalized eb_shell eb_os_version eb_primary_working_directory eb_is_git_repository eb_model].
  assert (∀ name, name ∈ ["Primary working directory:"; "Is a git repository:"; "Platform:"; "Shell:"; "OS Version:"; "The exact model ID is"]%string →
    bs name ∈ environment_labels) as Hin by (intros name; apply list_elem_of_fmap_2).
  pose proof (λ name H, Hv (bs name) (Hin name H)) as Hn. clear Hv Hin.
  assert (value_of (field text' (bs "Platform:")) = (λ _, platform_name (et_os_family target)) <$> field text (bs "Platform:")) as Hplat
    by exact (Hn "Platform:"%string ltac:(by_decide)).
  split_and!; [done| |exact (Hn "Shell:"%string ltac:(by_decide))|exact (Hn "OS Version:"%string ltac:(by_decide))
    |exact (Hn "Primary working directory:"%string ltac:(by_decide))|exact (Hn "Is a git repository:"%string ltac:(by_decide))|].
  - revert Hplat. unfold value_of. destruct (field text' _) as [f'|], (field text _); try done. intros [= E]. cbn. rewrite E. f_equal. apply normalize_platform.
  - assert (value_of (field text' (bs "The exact model ID is")) = value_of (field text (bs "The exact model ID is"))) as E
      by exact (Hn "The exact model ID is"%string ltac:(by_decide)).
    transitivity (trim_end_matches (λ c, bool_decide (c = "."%char)) <$> value_of (field text' (bs "The exact model ID is"))); [by destruct (field text' (bs "The exact model ID is"))|].
    rewrite E. by destruct (field text (bs "The exact model ID is")).
Qed.

(** ** The system value *)

Lemma omap_imap_shift {A B} (f : nat * A → option B) l (h : nat → nat) :
  omap f (imap (λ n, pair (S (h n))) l) = omap (λ '(i, x), f (S i, x)) (imap (λ n, pair (h n)) l).
Proof. revert h. induction l as [|a l IH]; intros h; [done|]. simpl. destruct (f _); [f_equal|]; apply (IH (h ∘ S)). Qed.

Lemma find_map_enumerate {A B} (f : nat * A → option B) l y :
  find_map f (enumerate l) = Some y ↔
    ∃ i x, l !! i = Some x ∧ f (i, x) = Some y ∧ ∀ j x, (j < i)%nat → l !! j = Some x → f (j, x) = None.
Proof.
  unfold find_map, enumerate. generalize 0%nat as k. intros _. revert f. induction l as [|a l IH]; intros f; simpl.
  { split; [done|]. by intros (i & x & ? & _). }
  destruct (f (0%nat, a)) as [b|] eqn:E; simpl.
  - split.
    + intros [= <-]. exists 0%nat, a. split_and!; [done|done|lia].
    + intros ([|i] & x & Hl & Hf & Hfirst); simpl in Hl; [congruence|]. specialize (Hfirst 0%nat a ltac:(lia) eq_refl). congruence.
  - assert (omap f (imap (pair ∘ S) l) = omap (λ '(i, x), f (S i, x)) (imap pair l)) as Eo.
    { apply (omap_imap_shift f l id). }
    setoid_rewrite Eo. rewrite (IH (λ '(i, x), f (S i, x))). split.
    + intros (i & x & Hl & Hf & Hfirst). exists (S i), x. split_and!; [done|done|]. intros [|j] x' Hj Hl'; simpl in Hl'; [congruence|].
      apply (Hfirst j x'); [lia|done].
    + intros ([|i] & x & Hl & Hf & Hfirst); simpl in Hl; [congruence|]. exists i, x. split_and!; [done|done|].
      intros j x' Hj Hl'. apply (Hfirst (S j) x'); [lia|done].
Qed.

Section systems.
Context {Num F : Type} `{SerdeJson Num F}.
Implicit Types (system value : Value Num).

Lemma block_set_text text value : is_Some (block_text value) →
  block (set_block_text text value) = {| bk_text := Some text; bk_cache_control := (block value).(bk_cache_control) |}.
Proof.
  intros [old Hold]. destruct value; try done. unfold set_block_text, block. cbn [as_object bk_cache_control].
  rewrite !map_get_insert. by rewrite bool_decide_eq_true_2, bool_decide_eq_false_2 by done.
Qed.

Lemma system_text_block system index text : system_text system index = Some text →
  ∃ item, system_blocks system !! index = Some item ∧ item.(bk_text) = Some text.
Proof.
  destruct system; try done; cbn [system_text system_blocks].
  - destruct (Nat.eqb_spec index 0); [|done]. intros [= ->]. subst. by eexists.
  - intros (value & Hl & Ht)%bind_Some. exists (block value). rewrite list_lookup_fmap, Hl. split; [done|]. by destruct value.
Qed.

(** The text of a block is replaced, and the block keeps its cache marker. *)
Lemma system_blocks_set system index old text : system_text system index = Some old →
  ∃ item, system_blocks system !! index = Some item ∧
    system_blocks (set_system_text text system index) =
      <[index := {| bk_text := Some text; bk_cache_control := item.(bk_cache_control) |}]> (system_blocks system).
Proof.
  destruct system; try done; cbn [system_text system_blocks set_system_text].
  - destruct (Nat.eqb_spec index 0); [|done]. subst. by eexists.
  - intros (value & Hl & Ht)%bind_Some. exists (block value). rewrite list_lookup_fmap, Hl. split; [done|].
    rewrite <- (block_set_text text value) by by eexists. apply list_eq. intros i. rewrite list_lookup_fmap. destruct (decide (i = index)) as [->|Hne].
    + rewrite list_lookup_alter_eq, Hl. symmetry. apply list_lookup_insert_eq. rewrite length_fmap. by eapply lookup_lt_Some.
    + by rewrite list_lookup_alter_ne, list_lookup_insert_ne, list_lookup_fmap by done.
Qed.

Lemma parse_environment_block system env :
  (parse system).(sg_environment) = Some env ↔
    ∃ item text, system_blocks system !! env.(eb_index) = Some item ∧ item.(bk_text) = Some text ∧ has_environment_heading text = true ∧
      env = parse_environment env.(eb_index) text ∧
      ∀ j item text, (j < env.(eb_index))%nat → system_blocks system !! j = Some item → item.(bk_text) = Some text → has_environment_heading text = false.
Proof.
  unfold parse. cbn [sg_environment segment_blocks]. generalize (system_blocks system) as blocks. intros blocks. rewrite find_map_enumerate. split.
  - intros (i & [text|] & Hl & Hf & Hfirst); simpl in Hf; [|done]. destruct (has_environment_heading text) eqn:Eh; [|done]. injection Hf as <-.
    rewrite list_lookup_fmap in Hl. apply fmap_Some in Hl as (item & Hl & Ht). exists item, text. cbn [eb_index parse_environment]. split_and!; try done.
    intros j item' text' Hj Hl' Ht'. specialize (Hfirst j (Some text') Hj). rewrite list_lookup_fmap, Hl' in Hfirst. simpl in Hfirst.
    rewrite Ht' in Hfirst. specialize (Hfirst eq_refl). by destruct (has_environment_heading text').
  - intros (item & text & Hl & Ht & Hh & He & Hfirst). exists env.(eb_index), (Some text). rewrite list_lookup_fmap, Hl. simpl. rewrite Ht, Hh, <- He.
    split_and!; [done|done|]. intros j o Hj Hl'. rewrite list_lookup_fmap in Hl'. apply fmap_Some in Hl' as (item' & Hl' & ->).
    destruct (bk_text item') as [text'|] eqn:Ht'; [|done]. simpl. by rewrite (Hfirst j item' text').
Qed.

(** the alignment of the environment of a request. Without an environment block nothing changes. With one, the
    system that results has it at the same place: its platform is the one of the target, its shell and its
    version of the operating system are those of the target where the block and the target both have them, and
    every other value of the block, every other block, and every cache marker is what it was. *)
Theorem environment_aligned system target changed system' :
  target_ok target → align_system_environment system target = (Ok changed, system') →
  match (parse system).(sg_environment) with
  | None => system' = system ∧ changed = false
  | Some env => ∃ env', (parse system').(sg_environment) = Some env' ∧ env'.(eb_index) = env.(eb_index) ∧
      value_of env'.(eb_platform) = (λ _, platform_name target.(et_os_family)) <$> env.(eb_platform) ∧
      env'.(eb_platform_normalized) = (λ _, target.(et_os_family)) <$> env.(eb_platform) ∧
      value_of env'.(eb_shell) = match target.(et_shell) with Some r => (λ _, r) <$> env.(eb_shell) | None => value_of env.(eb_shell) end ∧
      value_of env'.(eb_os_version) =
        match target.(et_os_version) with Some r => (λ _, r) <$> env.(eb_os_version) | None => value_of env.(eb_os_version) end ∧
      value_of env'.(eb_primary_working_directory) = value_of env.(eb_primary_working_directory) ∧
      value_of env'.(eb_is_git_repository) = value_of env.(eb_is_git_repository) ∧
      value_of env'.(eb_model) = value_of env.(eb_model) ∧
      (∀ i, i ≠ env.(eb_index) → system_blocks system' !! i = system_blocks system !! i) ∧
      bk_cache_control <$> system_blocks system' = bk_cache_control <$> system_blocks system
  end.
Proof.
  intros Ht. unfold align_system_environment. destruct (existsb _ _); [done|].
  destruct (sg_environment (parse system)) as [env|] eqn:Eenv; [|by intros [= <- <-]].
  pose proof Eenv as Hb. apply parse_environment_block in Hb as (item & text & Hl & Hit & Hh & He & Hfirst).
  destruct (system_text system _) as [text0|] eqn:Etext; [|done].
  destruct (system_text_block _ _ _ Etext) as (item0 & Hl0 & Hit0). assert (text0 = text) as -> by congruence.
  destruct (apply_edits _ _ _) as [outcome text'] eqn:Ea. intros [= -> <-]. rewrite He in Ea.
  destruct (apply_edits_text _ _ _ _ _ Ht Hh Ea) as [Hh' Hv].
  destruct (system_blocks_set system env.(eb_index) text text' Etext) as (item1 & Hl1 & Eb). assert (item1 = item) as -> by congruence.
  assert ((parse (set_system_text text' system env.(eb_index))).(sg_environment) = Some (parse_environment env.(eb_index) text')) as Enew.
  { apply parse_environment_block. rewrite Eb. cbn [eb_index parse_environment].
    exists {| bk_text := Some text'; bk_cache_control := item.(bk_cache_control) |}, text'. split_and!; [|done|done|done|].
    - apply list_lookup_insert_eq. by eapply lookup_lt_Some.
    - intros j item' text'' Hj. rewrite list_lookup_insert_ne by lia. by apply Hfirst. }
  rewrite Enew, Eb. eexists. split; [done|]. set (index := eb_index env) in *. clearbody index. subst env.
  destruct (apply_edits_values text text' target Hv) as (H1 & H2 & H3 & H4 & H5 & H6 & H7).
  unfold parse_environment. cbn [eb_index eb_platform eb_platform_normalized eb_shell eb_os_version eb_primary_working_directory eb_is_git_repository eb_model].
  split_and!; try done.
  - intros i Hi. by rewrite list_lookup_insert_ne.
  - rewrite list_fmap_insert. apply list_insert_id. by rewrite list_lookup_fmap, Hl.
Qed.

End systems.

Definition sample_target : EnvironmentTarget :=
  {| et_os_family := OsMacos; et_shell := Some (bs "fish"); et_os_version := Some (bs "Darwin 25.0") |}.

Definition sample_aligned : Value Z := Eval vm_compute in (align_system_environment (H := sample_serde [] (λ _, None)) sample_system sample_target).2.

Lemma sample_target_ok : target_ok sample_target.
Proof.
  split; intros r [= <-]; split_and!; try by_decide.
  - eexists _, _. split; [reflexivity|split; by_decide].
  - exists (bs "fis"), "h"%char. split; [done|split; by_decide].
  - eexists _, _. split; [reflexivity|split; by_decide].
  - exists (bs "Darwin 25."), "0"%char. split; [done|split; by_decide].
Qed.

Lemma sample_alignment : align_system_environment (H := sample_serde [] (λ _, None)) sample_system sample_target = (Ok true, sample_aligned).
Proof. by vm_compute. Qed.

Lemma sample_environment : ∃ env, (parse sample_system).(sg_environment) = Some env ∧ is_Some env.(eb_platform) ∧ is_Some env.(eb_shell).
Proof. eexists. split; [by vm_compute|]. split; by eexists. Qed.

Lemma environment_aligned_witness :
  ∃ env, (parse sample_aligned).(sg_environment) = Some env ∧ value_of env.(eb_platform) = Some (bs "darwin") ∧
    env.(eb_platform_normalized) = Some OsMacos ∧ value_of env.(eb_shell) = Some (bs "fish") ∧
    bk_cache_control <$> system_blocks sample_aligned = bk_cache_control <$> system_blocks sample_system.
Proof.
  destruct sample_environment as (old & Eold & [platform Ep] & [shell Es]).
  pose proof (environment_aligned (H := sample_serde [] (λ _, None)) sample_system sample_target true sample_aligned sample_target_ok sample_alignment) as Hw.
  rewrite Eold in Hw. destruct Hw as (env & Eenv & _ & Hp & Hn & Hs & _ & _ & _ & _ & _ & Hc). rewrite Ep in Hp, Hn. cbn [sample_target et_shell] in Hs. rewrite Es in Hs.
  exists env. split_and!; assumption.
Defined.
