(* ===== verification/SystemBilling.v ===== *)
(** The billing block of a Claude Code system value:
    [crates/gateway-policy/src/billing.rs].

    SHA-256 is a parameter; [Digest::of] writes it in hexadecimal. What [ensure_billing_block] does to
    the value it is given is its second result. *)

From Stdlib Require Import Ascii.
From S2P Require Import Prelude Machine.
From S2P Require Import Bytes.
From S2P Require Import Json.
From S2P Require Import SystemSegments.

Definition FP3_SALT : bytes := bs "59cf53e54c78".

Inductive CchPolicy := Omit | Zero00.

Definition cch_policy_for_version (client_version : bytes) : CchPolicy :=
  if bool_decide (client_version = bs "2.1.220") then Zero00 else Omit.

Inductive BillingAction := Preserved | Rewritten | Inserted.

#[export] Instance BillingAction_eq_dec : EqDecision BillingAction.
Proof. solve_decision. Defined.

Inductive BillingError := InvalidSystem | EmptyVersion.

(** [str::chars] of UTF-8: a character is a byte and the continuation bytes after it. *)
Fixpoint chars (l : bytes) : list bytes :=
  match l with
  | [] => []
  | c :: l =>
      match chars l with
      | (d :: char) :: rest => if continuation d then (c :: d :: char) :: rest else [c] :: (d :: char) :: rest
      | rest => [c] :: rest
      end
  end.

(** The parts of a text around the first occurrence of a pattern. *)
Definition find_split (pattern l : bytes) : option (bytes * bytes) :=
  (λ n, (take n l, drop (n + length pattern) l)) <$> find_bytes pattern l.

Definition looks_like_billing_header (text : bytes) : bool := starts_with BILLING_HEADER (trim_start text).

Definition CC_VERSION : bytes := bs "cc_version=".

Definition billing_version (text : bytes) : option bytes :=
  payload ← strip_prefix BILLING_HEADER (trim_start text);
  value ← find_map (λ part, strip_prefix CC_VERSION (trim part)) (split ";" payload);
  fst <$> rsplit_once "." value.

Definition rewrite_version_and_fp3 (text target_version fingerprint : bytes) : bytes :=
  match find_split CC_VERSION text with
  | None => text
  | Some (before, after) =>
      let rest := match find_bytes [";"%char] after with Some offset => drop offset after | None => [] end in
      before ++ CC_VERSION ++ target_version ++ bs "." ++ fingerprint ++ rest
  end.

Definition render_billing_block (client_version fingerprint : bytes) (cch_policy : CchPolicy) : result BillingError bytes :=
  if is_empty (trim client_version) then Err EmptyVersion
  else
    let rendered := bs "x-anthropic-billing-header: cc_version=" ++ client_version ++ bs "." ++ fingerprint ++ bs "; cc_entrypoint=cli;" in
    Ok (rendered ++ match cch_policy with Zero00 => bs " cch=00000;" | Omit => [] end).

(** The object [json!({"type":"text","text":text})]. *)
Definition text_block {Num} (text : bytes) : Value Num := JObject [(bs "type", JString (bs "text")); (bs "text", JString text)].

(** [{byte:02x}]. *)
Definition hex_byte (c : ascii) : bytes := [digit_char (byte c / 16); digit_char (byte c mod 16)]%N.

Definition digest_of (sha256 : bytes → bytes) (l : bytes) : bytes := concat (hex_byte <$> sha256 l).

Section billing.
Context {Num F : Type} `{SerdeJson Num F} (sha256 : bytes → bytes).
Implicit Types (body system : Value Num).

Definition fp3 (first_user_text client_version : bytes) : bytes :=
  let chars := chars first_user_text in
  let at_index n := default (bs "0") (chars !! n) in
  take 3 (digest_of sha256 (FP3_SALT ++ at_index 4%nat ++ at_index 7%nat ++ at_index 20%nat ++ client_version)).

(** The blocks of the first user message, and the first text among them. *)
Definition first_user_text body : option bytes :=
  messages ← get (bs "messages") body ≫= as_array;
  message ← snd <$> list_find (λ message, (get (bs "role") message ≫= as_str) = Some (bs "user")) messages;
  blocks ← get (bs "content") message ≫= as_array;
  find_map (λ block,
    if bool_decide ((get (bs "type") block ≫= as_str) = Some (bs "text")) then get (bs "text") block ≫= as_str else None) blocks.

(** The first block when it is a billing block: its entries and its text. *)
Definition billing_head (values : list (Value Num)) : option (list (bytes * Value Num) * bytes) :=
  first ← head values;
  object ← as_object first;
  text ← map_get (bs "text") object ≫= as_str;
  if looks_like_billing_header text then Some (object, text) else None.

Definition ensure_billing_block system (target_version first_user_text : bytes) (cch_policy : CchPolicy)
    : result BillingError BillingAction * Value Num :=
  if is_empty (trim target_version) then (Err EmptyVersion, system)
  else
    let fingerprint := fp3 first_user_text target_version in
    match render_billing_block target_version fingerprint cch_policy with
    | Err e => (Err e, system)
    | Ok rendered =>
        let replacement text :=
          if is_some (billing_version text) then rewrite_version_and_fp3 text target_version fingerprint else rendered in
        match system with
        | JNull => (Ok Inserted, JArray [text_block rendered])
        | JString text =>
            if looks_like_billing_header text then
              if bool_decide (billing_version text = Some target_version) then (Ok Preserved, JString text)
              else (Ok Rewritten, JString (replacement text))
            else (Ok Inserted, JArray [text_block rendered; text_block text])
        | JArray values =>
            match billing_head values with
            | Some (object, text) =>
                let rest := tail values in
                if bool_decide (billing_version text = Some target_version) then
                  if is_some_and (λ value, negb (is_null value)) (map_get (bs "cache_control") object)
                  then (Ok Rewritten, JArray (JObject (map_remove (bs "cache_control") object) :: rest))
                  else (Ok Preserved, JArray values)
                else
                  (Ok Rewritten,
                   JArray (JObject (map_remove (bs "cache_control") (map_insert (bs "text") (JString (replacement text)) object)) :: rest))
            | None => (Ok Inserted, JArray (text_block rendered :: values))
            end
        | _ => (Err InvalidSystem, system)
        end
    end.

End billing.

(** ** Lemmas *)

Lemma split_cons_app sep a b : sep ∉ a → split sep (a ++ sep :: b) = a :: split sep b.
Proof.
  induction a as [|c a IH]; simpl; [by rewrite bool_decide_eq_true_2|]. rewrite not_elem_of_cons. intros [Hc Ha].
  rewrite bool_decide_eq_false_2 by done. by rewrite IH.
Qed.

Lemma rsplit_once_app sep a b : sep ∉ b → rsplit_once sep (a ++ sep :: b) = Some (a, b).
Proof.
  intros Hb. unfold rsplit_once. rewrite rev_app_distr. simpl. rewrite <- app_assoc. simpl. rewrite split_once_app; [by rewrite !rev_involutive|].
  rewrite list_elem_of_In, <- in_rev, <- list_elem_of_In. exact Hb.
Qed.

Lemma split_Forall (P : ascii → Prop) sep l : Forall (Forall P) (split sep l) → Forall (λ c, P c ∨ c = sep) l.
Proof.
  induction l as [|c l IH]; simpl; [by constructor|]. case_bool_decide as E.
  - intros [_ Hl]%Forall_cons. constructor; [by right|auto].
  - destruct (split sep l) as [|part parts] eqn:El; intros [Hp Hl]%Forall_cons.
    + constructor; [|by apply IH]. apply Forall_cons in Hp as [Hp _]. by left.
    + apply Forall_cons in Hp as [Hp Hpart]. constructor; [by left|]. apply IH. by constructor.
Qed.

(** The characters of a version and of a fingerprint. *)
Definition plain (c : ascii) : Prop := is_ascii_digit c = true ∨ in_range 97 102 (byte c) = true ∨ c = "."%char.

Lemma plain_solid c : plain c → solid c ∧ c ≠ ";"%char ∧ c ≠ "="%char ∧ c ≠ " "%char.
Proof.
  unfold plain, solid, is_ascii_digit, white1, in_range. intros Hc. split; [split|].
  - destruct Hc as [Hc|[Hc| ->]]; [| |done]; bool_prop; lia.
  - destruct Hc as [Hc|[Hc| ->]]; [| |done]; bool_prop; apply orb_false_iff; split;
      [apply andb_false_iff; right; apply N.leb_gt; lia|apply N.eqb_neq; lia|apply andb_false_iff; right; apply N.leb_gt; lia|apply N.eqb_neq; lia].
  - split_and!; intros ->; destruct Hc as [Hc|[Hc|Hc]]; done.
Qed.

Lemma is_version_plain v : is_version v = true → Forall plain v ∧ v ≠ [].
Proof.
  unfold is_version. intros Hv. apply andb_true_iff in Hv as [Hl Hv]. split; [|by intros ->].
  eapply Forall_impl; [apply (split_Forall (λ c, is_ascii_digit c = true) ".")|].
  - apply Forall_forall. intros part Hp. apply Forall_forall. intros c Hc.
    rewrite forallb_forall in Hv. specialize (Hv part (proj1 (list_elem_of_In _ _) Hp)). apply andb_true_iff in Hv as [_ Hv].
    rewrite forallb_forall in Hv. by apply Hv, list_elem_of_In.
  - intros c [Hc| ->]; [by left|by right; right].
Qed.

Lemma is_fp3_plain f : is_fp3 f = true → Forall plain f ∧ "."%char ∉ f.
Proof.
  unfold is_fp3. intros [_ Hf]%andb_true_iff. rewrite forallb_forall in Hf. split.
  - apply Forall_forall. intros c Hc%list_elem_of_In. apply Hf in Hc. apply orb_true_iff in Hc as [Hc|Hc]; [by left|by right; left].
  - intros Hc%list_elem_of_In. by apply Hf in Hc.
Qed.

Lemma hex_digit_char d : (d < 16)%N → is_ascii_digit (digit_char d) || in_range 97 102 (byte (digit_char d)) = true.
Proof. apply (digit_cases (λ d, is_ascii_digit (digit_char d) || in_range 97 102 (byte (digit_char d)) = true)). by repeat constructor. Qed.

Lemma hex_byte_hex c : forallb (λ c, is_ascii_digit c || in_range 97 102 (byte c)) (hex_byte c) = true.
Proof.
  assert (byte c < 256)%N as Hc. { unfold byte. apply N_ascii_bounded. }
  unfold hex_byte. cbn [forallb]. rewrite !hex_digit_char; [done|by apply N.mod_lt|by apply N.Div0.div_lt_upper_bound].
Qed.

(** The fingerprint is three hexadecimal digits, as its own parser wants. *)
Lemma fp3_is_fp3 sha256 text version : (∀ l, length (sha256 l) = 32%nat) → is_fp3 (fp3 sha256 text version) = true.
Proof.
  intros Hsha. unfold fp3, digest_of. set (input := FP3_SALT ++ _). specialize (Hsha input).
  destruct (sha256 input) as [|a [|b l]]; try done. unfold is_fp3. simpl.
  pose proof (hex_byte_hex a) as Ha. pose proof (hex_byte_hex b) as Hb. cbn [forallb hex_byte] in Ha, Hb.
  apply andb_true_iff in Ha as [Ha1 Ha], Hb as [Hb1 Hb]. apply andb_true_iff in Ha as [Ha2 _].
  cbn [forallb]. by rewrite Ha1, Ha2, Hb1.
Qed.

Lemma trim_start_space l : trim_start (" "%char :: l) = trim_start l.
Proof. done. Qed.

Lemma trim_start_solid_app l r : Forall solid l → l ≠ [] → trim_start (l ++ r) = l ++ r.
Proof. destruct l as [|c l]; [done|]. intros [Hc _]%Forall_cons _. by apply trim_start_solid. Qed.

Lemma strip_prefix_app p l : strip_prefix p (p ++ l) = Some l.
Proof. by apply strip_prefix_Some. Qed.

Lemma plain_trim l : Forall plain l → trim (bs " cc_version=" ++ l) = CC_VERSION ++ l.
Proof.
  intros Hl. change (bs " cc_version=" ++ l) with (" "%char :: CC_VERSION ++ l). unfold trim. rewrite trim_start_space.
  apply trim_solid. apply Forall_app. split; [by repeat constructor|]. eapply Forall_impl; [exact Hl|]. intros c Hc. by apply plain_solid.
Qed.

(** The payload of a rendered block, cut at its semicolons. *)
Lemma rendered_fields v f (entries : bytes) : Forall plain (v ++ bs "." ++ f) →
  split ";" (bs " cc_version=" ++ v ++ bs "." ++ f ++ [";"%char] ++ entries) = (bs " cc_version=" ++ v ++ bs "." ++ f) :: split ";" entries.
Proof.
  intros Hp. replace (bs " cc_version=" ++ v ++ bs "." ++ f ++ [";"%char] ++ entries)
    with ((bs " cc_version=" ++ v ++ bs "." ++ f) ++ ";"%char :: entries) by by rewrite <- !app_assoc.
  apply split_cons_app. rewrite not_elem_of_app. split; [by_decide|].
  intros Hin. rewrite Forall_forall in Hp. by destruct (plain_solid _ (Hp _ Hin)) as (_ & ? & _).
Qed.

Lemma rendered_parses v f cch text :
  is_version v = true → is_fp3 f = true → render_billing_block v f cch = Ok text →
  looks_like_billing_header text = true ∧ billing_version text = Some v ∧
  parse_billing text = Some {| bl_cc_version := v ++ bs "." ++ f; bl_client_version := v; bl_fp3 := f; bl_cc_entrypoint := bs "cli";
                               bl_cch := match cch with Zero00 => Some (bs "00000") | Omit => None end |}.
Proof.
  intros Hv Hf. destruct (is_version_plain _ Hv) as [Hpv Hne]. destruct (is_fp3_plain _ Hf) as [Hpf Hdot].
  assert (Forall plain (v ++ bs "." ++ f)) as Hp. { apply Forall_app_2; [done|]. apply Forall_app_2; [|done]. apply Forall_singleton. by right; right. }
  unfold render_billing_block. destruct (is_empty (trim v)); [done|]. intros E. match type of E with Ok ?t = _ => assert (text = t) as -> by congruence end. clear E.
  set (entries := bs " cc_entrypoint=cli;" ++ match cch with Zero00 => bs " cch=00000;" | Omit => [] end).
  match goal with |- context [looks_like_billing_header ?t] =>
    replace t with (BILLING_HEADER ++ bs " cc_version=" ++ v ++ bs "." ++ f ++ [";"%char] ++ entries) end.
  2: { change (bs "x-anthropic-billing-header: cc_version=") with (BILLING_HEADER ++ bs " cc_version="). unfold entries. rewrite <- !app_assoc. reflexivity. }
  assert (∀ l, trim_start (BILLING_HEADER ++ l) = BILLING_HEADER ++ l) as Htrim by done.
  unfold looks_like_billing_header, billing_version, parse_billing, starts_with. rewrite Htrim, strip_prefix_app. cbn [mbind option_bind].
  rewrite rendered_fields by done. split_and!; [done| |].
  - unfold find_map. cbn [omap list_omap]. rewrite plain_trim by done. rewrite strip_prefix_app. cbn [head mbind option_bind].
    change (v ++ bs "." ++ f) with (v ++ "."%char :: f). by rewrite rsplit_once_app.
  - cbn [billing_values]. rewrite plain_trim by done. change (is_empty (CC_VERSION ++ v ++ bs "." ++ f)) with false. cbn iota.
    change (CC_VERSION ++ v ++ bs "." ++ f) with (bs "cc_version" ++ "="%char :: (v ++ bs "." ++ f)).
    rewrite split_once_app by by_decide.
    set (cc := v ++ bs "." ++ f).
    assert (billing_values (split ";" entries) (<[bs "cc_version" := cc]> ∅) =
      Some (match cch with Zero00 => <[bs "cch" := bs "00000"]> | Omit => id end (<[bs "cc_entrypoint" := bs "cli"]> (<[bs "cc_version" := cc]> ∅)))) as ->.
    { unfold entries. by destruct cch. }
    assert (rsplit_once "." cc = Some (v, f)) as Hr by by apply rsplit_once_app.
    assert (∀ a b, bs a ≠ bs b → a ≠ b) as Hbs by by intros a b Hab ->.
    cbn [mbind option_bind].
    assert ((match cch with Zero00 => <[bs "cch" := bs "00000"]> | Omit => id end (<[bs "cc_entrypoint" := bs "cli"]> (<[bs "cc_version" := cc]> (∅ : gmap bytes bytes)))) !! bs "cc_version" = Some cc) as ->.
    { destruct cch; simpl; rewrite ?lookup_insert_ne by done; by rewrite lookup_insert_eq. }
    cbn [mbind option_bind]. rewrite Hr. cbn [mbind option_bind]. rewrite Hv, Hf. cbn [negb orb].
    destruct cch; simpl; rewrite ?lookup_insert_eq, ?lookup_insert_ne by done; by rewrite ?lookup_insert_eq.
Qed.

(** ** Theorems *)

(** The blocks of a system value, a string being one text block. *)
Definition blocks_of {Num} (system : Value Num) : list (Value Num) :=
  match system with
  | JString text => [text_block text]
  | JArray values => values
  | _ => []
  end.

Lemma billing_head_text_block {Num} text (rest : list (Value Num)) :
  looks_like_billing_header text = true → billing_head (text_block text :: rest) = Some ([(bs "type", JString (bs "text")); (bs "text", JString text)], text).
Proof. intros Hl. unfold billing_head. simpl. by rewrite Hl. Qed.

Lemma version_not_empty v : is_version v = true → is_empty (trim v) = false.
Proof.
  intros Hv. destruct (is_version_plain _ Hv) as [Hp Hne]. rewrite trim_solid; [by destruct v|].
  eapply Forall_impl; [exact Hp|]. intros c Hc. by apply plain_solid.
Qed.

(** a billing block is put in once. For a version of three numbers, [ensure_billing_block] fails
    only on a value that is neither null, a string nor an array, and leaves it alone. A preserved value is
    unchanged and announces the version; an inserted block comes before the blocks there
    were, parses as the version, the fingerprint and the entrypoint it was rendered from, and is preserved by
    another call, whatever the prompt; a rewrite changes the first block only. *)
Theorem billing_block_ensured {Num F} `{SerdeJson Num F} sha256 (system : Value Num) version text cch :
  (∀ l, length (sha256 l) = 32%nat) → is_version version = true →
  let '(answer, system') := ensure_billing_block sha256 system version text cch in
  match answer with
  | Err e => e = InvalidSystem ∧ system' = system ∧ match system with JNull | JString _ | JArray _ => False | _ => True end
  | Ok Preserved => system' = system ∧
      ∃ header, billing_version header = Some version ∧
        match system with JString s => s = header | JArray values => snd <$> billing_head values = Some header | _ => False end
  | Ok Inserted =>
      ∃ header, system' = JArray (text_block header :: blocks_of system) ∧
        parse_billing header = Some {| bl_cc_version := version ++ bs "." ++ fp3 sha256 text version; bl_client_version := version;
          bl_fp3 := fp3 sha256 text version; bl_cc_entrypoint := bs "cli";
          bl_cch := match cch with Zero00 => Some (bs "00000") | Omit => None end |} ∧
        ∀ text' cch', ensure_billing_block sha256 system' version text' cch' = (Ok Preserved, system')
  | Ok Rewritten => tail (blocks_of system') = tail (blocks_of system) ∧ length (blocks_of system') = length (blocks_of system)
  end.
Proof.
  intros Hsha Hv. pose proof (version_not_empty _ Hv) as Hne. pose proof (fp3_is_fp3 sha256 text version Hsha) as Hf.
  destruct (render_billing_block version (fp3 sha256 text version) cch) as [header|e] eqn:Er.
  2: { exfalso. unfold render_billing_block in Er. by rewrite Hne in Er. }
  destruct (rendered_parses _ _ _ _ Hv Hf Er) as (Hlook & Hver & Hparse).
  assert (∀ rest text' cch', ensure_billing_block sha256 (JArray (text_block header :: rest)) version text' cch' =
    (Ok Preserved, JArray (text_block header :: rest))) as Hagain.
  { intros rest text' cch'. unfold ensure_billing_block. rewrite Hne. unfold render_billing_block. rewrite Hne.
    by rewrite billing_head_text_block, bool_decide_eq_true_2. }
  destruct (ensure_billing_block sha256 system version text cch) as [answer system'] eqn:E.
  unfold ensure_billing_block in E. rewrite Hne, Er in E. destruct system as [|b|n|s|values|m]; try (by injection E as <- <-).
  - injection E as <- <-. exists header. split_and!; [done|exact Hparse|]. intros text' cch'. apply Hagain.
  - destruct (looks_like_billing_header s).
    + case_bool_decide as Eb; injection E as <- <-; [|done]. split; [done|]. by exists s.
    + injection E as <- <-. exists header. split_and!; [done|exact Hparse|]. intros text' cch'. apply Hagain.
  - destruct (billing_head values) as [[object s]|] eqn:Eh.
    + destruct values as [|first rest]; [done|]. case_bool_decide as Eb; [|by injection E as <- <-].
      destruct (is_some_and _ _); injection E as <- <-; [done|]. split; [done|]. exists s. split; [done|]. by apply (f_equal (fmap snd)) in Eh.
    + injection E as <- <-. exists header. split_and!; [done|exact Hparse|]. intros text' cch'. apply Hagain.
Qed.

(** A digest of thirty-two zero bytes. *)
Definition sample_sha256 (l : bytes) : bytes := replicate 32 "000"%char.

Lemma billing_block_ensured_witness :
  let system : Value Z := JString (bs "You are helpful.") in
  let '(answer, system') :=
    ensure_billing_block (H := sample_serde [] (λ _, None)) sample_sha256 system (bs "2.1.220") (bs "hello there") Zero00 in
  answer = Ok Inserted ∧
  system' = JArray [text_block (bs "x-anthropic-billing-header: cc_version=2.1.220.000; cc_entrypoint=cli; cch=00000;");
                    text_block (bs "You are helpful.")].
Proof.
  intros system.
  pose proof (billing_block_ensured (H := sample_serde [] (λ _, None)) sample_sha256 system (bs "2.1.220") (bs "hello there") Zero00) as Hb.
  assert (ensure_billing_block (H := sample_serde [] (λ _, None)) sample_sha256 system (bs "2.1.220") (bs "hello there") Zero00 =
    (Ok Inserted, JArray [text_block (bs "x-anthropic-billing-header: cc_version=2.1.220.000; cc_entrypoint=cli; cch=00000;");
                          text_block (bs "You are helpful.")])) as He by by vm_compute.
  rewrite He in Hb. destruct Hb as (header & Hs & _); [done|done|]. rewrite He. split; [done|]. rewrite Hs. by injection Hs as <-.
Defined.

(** The rewrite takes the first [cc_version=] of the text, even inside the name of another field: the field that is
    read then keeps its old version, although the answer is [Rewritten]. *)
Lemma rewrite_misses_version :
  let text := bs "x-anthropic-billing-header: xcc_version=1; cc_version=1.0.0.abc; cc_entrypoint=cli;" in
  let '(answer, system') :=
    ensure_billing_block (H := sample_serde [] (λ _, None)) sample_sha256 (JString text : Value Z) (bs "2.1.220") (bs "hello") Omit in
  answer = Ok Rewritten ∧ (as_str system' ≫= billing_version) = Some (bs "1.0.0").
Proof. by vm_compute. Qed.
