(* ===== verification/SystemRewrite.v ===== *)
(** The rewrites of a system value by the policy:
    [crates/gateway-policy/src/system_rewrite.rs].

    What a function does to the value it is given is its result; indices and
    lengths, which the size of a value in memory bounds, are natural numbers. *)

From Stdlib Require Import Ascii.
From S2P Require Import Prelude Machine.
From S2P Require Import Bytes.
From S2P Require Import Json.
From S2P Require Import SystemSegments.
From S2P Require Import SystemBilling.

Inductive SystemRewrite := StaticSegment | Whole.

Definition CACHE_CONTROL : bytes := bs "cache_control".

Section rewrite.
Context {Num F : Type} `{SerdeJson Num F}.
Implicit Types (system replacement content block : Value Num) (blocks : list (Value Num)).

Definition is_empty_replacement content : bool :=
  match content with
  | JNull => true
  | JString text => is_empty (trim text)
  | JArray blocks => is_empty blocks
  | _ => false
  end.

Definition as_blocks replacement : list (Value Num) :=
  match replacement with
  | JString text => [text_block text]
  | JArray blocks => blocks
  | _ => []
  end.

(** A cache breakpoint on a block. *)
Definition cache_control block : option (Value Num) :=
  match as_object block ≫= map_get CACHE_CONTROL with
  | Some value => if is_null value then None else Some value
  | None => None
  end.

Definition has_point block : bool := is_some (cache_control block).

Definition count_points blocks : nat := length (filter (λ block, has_point block = true) blocks).

Definition last_cache_control blocks : option (Value Num) := find_map cache_control (rev blocks).

(** [object.insert] and [object.remove] on a block, which change nothing else than an object. *)
Definition set_cache_control (value : Value Num) block : Value Num :=
  match block with JObject m => JObject (map_insert CACHE_CONTROL value m) | _ => block end.

Definition clear_cache_control block : Value Num :=
  match block with JObject m => JObject (map_remove CACHE_CONTROL m) | _ => block end.

(** The loop over the candidates. *)
Fixpoint drop_points (candidates : list nat) (excess : nat) blocks : list (Value Num) :=
  match candidates with
  | [] => blocks
  | index :: candidates =>
      if (excess =? 0)%nat then blocks
      else if is_some_and has_point (blocks !! index)
      then drop_points candidates (excess - 1) (alter clear_cache_control index blocks)
      else drop_points candidates excess blocks
  end.

(** The range of the inserted blocks, then the rest. *)
Definition budget_candidates (len : nat) (inserted : nat * nat) : list nat :=
  let inside index := (inserted.1 <= index)%nat ∧ (index < inserted.2)%nat in
  filter (λ index, (index < len)%nat) (seq inserted.1 (inserted.2 - inserted.1))
  ++ filter (λ index, ¬ inside index) (seq 0 len).

Definition enforce_breakpoint_budget blocks (budget : nat) (inserted : nat * nat) : list (Value Num) :=
  let excess := (count_points blocks - budget)%nat in
  if (excess =? 0)%nat then blocks
  else drop_points (budget_candidates (length blocks) inserted) excess blocks.

Definition abs_diff (a b : nat) : nat := ((a - b) + (b - a))%nat.

Definition candidate_cmp (a b : nat * nat) : comparison := then_with (a.1 ?= b.1)%nat (a.2 ?= b.2)%nat.

(** Where the breakpoint of a source block goes: the free index nearest to its place. *)
Definition transfer_target (source_len target_len source_index : nat) (used : list nat) : option nat :=
  let mapped :=
    if ((source_len =? 1) || (target_len =? 1))%nat then 0%nat
    else ((source_index * (target_len - 1) + (source_len - 1) / 2) / (source_len - 1))%nat in
  let candidates := sort_by candidate_cmp ((λ index, (abs_diff index mapped, index)) <$> seq 0 target_len) in
  snd <$> find_map (λ candidate, if bool_decide (candidate.2 ∈ used) then None else Some candidate) candidates.

Definition transfer_step (source_len target_len : nat) (state : list nat * list (Value Num)) (cache : nat * Value Num)
    : list nat * list (Value Num) :=
  let '(used, target) := state in
  match transfer_target source_len target_len cache.1 used with
  | None => state
  | Some target_index =>
      match target !! target_index with
      | Some (JObject m) =>
          if has_point (JObject m) then state
          else (target_index :: used, <[target_index := JObject (map_insert CACHE_CONTROL cache.2 m)]> target)
      | _ => state
      end
  end.

Definition transfer_cache_controls (current : option (Value Num)) replacement : Value Num :=
  match current, replacement with
  | Some (JArray source), JArray target =>
      if is_empty target then JArray target
      else
        let caches := omap (λ '(index, block), (λ cache, (index, cache)) <$> cache_control block) (enumerate source) in
        JArray (foldl (transfer_step (length source) (length target)) ([], target) caches).2
  | _, _ => replacement
  end.

(** The static segment: the blocks kept before it, the new ones, the blocks kept after it. *)
Definition replace_static_blocks blocks (start dynamic_start : nat) replacement (budget : nat) : list (Value Num) :=
  let dynamic_start := Nat.max (Nat.min dynamic_start (length blocks)) start in
  let replacement_blocks := as_blocks replacement in
  let replacement_blocks :=
    if (count_points replacement_blocks =? 0)%nat then
      match last_cache_control (drop start (take dynamic_start blocks)) with
      | Some inherited => alter (set_cache_control inherited) (length replacement_blocks - 1) replacement_blocks
      | None => replacement_blocks
      end
    else replacement_blocks in
  enforce_breakpoint_budget (take start blocks ++ replacement_blocks ++ drop dynamic_start blocks) budget
    (start, (start + length replacement_blocks)%nat).

Definition has_billing (segments : SystemSegments) : bool :=
  is_some segments.(sg_billing) || bool_decide (BillingMalformed ∈ segments.(sg_flags)).

(** A text that replaces a list of blocks becomes a block. *)
Definition whole_replacement system replacement : Value Num :=
  match system, replacement with
  | JArray _, JString text => JArray [text_block text]
  | _, _ => replacement
  end.

Definition enforce_value (budget : nat) next : Value Num :=
  match next with
  | JArray blocks => JArray (enforce_breakpoint_budget blocks budget (0%nat, length blocks))
  | _ => next
  end.

Definition replace_system_static system replacement : SystemRewrite * Value Num :=
  let segments := parse system in
  let budget := length segments.(sg_cache_control_points) in
  match system, segments.(sg_boundary) with
  | JArray blocks, Resolved _ dynamic_start =>
      let start := if has_billing segments then 1%nat else 0%nat in
      (StaticSegment, JArray (replace_static_blocks blocks start dynamic_start replacement budget))
  | _, _ => (Whole, enforce_value budget (transfer_cache_controls (Some system) (whole_replacement system replacement)))
  end.

Definition strip_client_system system : option (Value Num) :=
  match system with
  | JArray (first :: _) => if has_billing (parse system) then Some (JArray [clear_cache_control first]) else None
  | _ => None
  end.

End rewrite.

(** ** Lemmas *)
Section rewrite_lemmas.
Context {Num F : Type} `{SerdeJson Num F}.
Implicit Types (system replacement block : Value Num) (blocks : list (Value Num)).

Lemma has_point_clear block : wf block → has_point (clear_cache_control block) = false.
Proof.
  destruct block as [| | | | |m]; try done. intros [Hnd _]%wf_object_iff. unfold has_point, cache_control. simpl.
  by rewrite map_get_remove, bool_decide_eq_true_2.
Qed.

Lemma wf_clear block : wf block → wf (clear_cache_control block).
Proof. destruct block; try done. apply wf_remove. Qed.

Lemma wf_set value block : wf value → wf block → wf (set_cache_control value block).
Proof. destruct block; try done. intros. by apply wf_insert. Qed.

Lemma wf_cache_control block value : wf block → cache_control block = Some value → wf value.
Proof.
  unfold cache_control. destruct block as [| | | | |m]; try done. simpl. intros Hm. destruct (map_get CACHE_CONTROL m) as [v|] eqn:E; [|done].
  destruct (is_null v); [done|]. intros [= <-]. by eapply wf_map_get.
Qed.

Lemma count_points_cons block blocks : count_points (block :: blocks) = ((if has_point block then 1 else 0) + count_points blocks)%nat.
Proof. unfold count_points. rewrite filter_cons. destruct (has_point block); [by rewrite decide_True|by rewrite decide_False]. Qed.

(** Clearing a block that has a point takes one away. *)
Lemma count_points_clear blocks index block :
  blocks !! index = Some block → wf block → has_point block = true →
  S (count_points (alter clear_cache_control index blocks)) = count_points blocks.
Proof.
  revert index. induction blocks as [|b blocks IH]; intros [|index] Hl Hwf Hp; simplify_eq/=; rewrite !count_points_cons.
  - by rewrite has_point_clear, Hp.
  - by rewrite <- (IH index) by done; destruct (has_point b).
Qed.

Definition point_at blocks (index : nat) : bool := is_some_and has_point (blocks !! index).

Lemma point_at_alter blocks index i :
  Forall wf blocks → point_at (alter clear_cache_control index blocks) i = if bool_decide (i = index) then false else point_at blocks i.
Proof.
  intros Hwf. unfold point_at. case_bool_decide as E; [subst i; rewrite list_lookup_alter_eq|by rewrite list_lookup_alter_ne].
  destruct (blocks !! index) as [block|] eqn:El; [|done]. simpl. apply has_point_clear. by eapply Forall_lookup_1.
Qed.

Lemma count_points_at blocks : count_points blocks = length (filter (λ i, point_at blocks i = true) (seq 0 (length blocks))).
Proof.
  induction blocks as [|block blocks IH]; [done|]. rewrite count_points_cons, IH. simpl. rewrite filter_cons. change (point_at (block :: blocks) 0) with (has_point block).
  assert (∀ l, length (filter (λ i, point_at (block :: blocks) i = true) (S <$> l)) = length (filter (λ i, point_at blocks i = true) l)) as Hs.
  { induction l as [|i l IHl]; [done|]. rewrite fmap_cons, !filter_cons. change (point_at (block :: blocks) (S i)) with (point_at blocks i).
    destruct (decide _); simpl; by rewrite IHl. }
  rewrite <- fmap_S_seq. destruct (has_point block); simpl; by rewrite Hs.
Qed.

(** The loop takes as many points away as it was asked to, or all that it can reach. *)
Lemma drop_points_count candidates excess blocks :
  Forall wf blocks → NoDup candidates →
  (count_points (drop_points candidates excess blocks) +
   Nat.min excess (length (filter (λ i, point_at blocks i = true) candidates)) = count_points blocks)%nat.
Proof.
  revert excess blocks. induction candidates as [|index candidates IH]; intros excess blocks Hwf Hnd; simpl; [lia|].
  apply NoDup_cons in Hnd as [Hin Hnd]. destruct excess as [|excess]; simpl; [lia|]. rewrite filter_cons.
  change (is_some_and has_point (blocks !! index)) with (point_at blocks index).
  destruct (point_at blocks index) eqn:Ep; simpl.
  - unfold point_at in Ep. destruct (blocks !! index) as [block|] eqn:El; [|done]. simpl in Ep.
    assert (Forall wf (alter clear_cache_control index blocks)) as Hwf' by (apply Forall_alter; [done|]; intros; by apply wf_clear).
    rewrite Nat.sub_0_r. specialize (IH excess _ Hwf' Hnd). rewrite <- (count_points_clear blocks index block El (Forall_lookup_1 _ _ _ _ Hwf El) Ep).
    rewrite <- IH. simpl. f_equal. f_equal.
    assert (filter (λ i, point_at (alter clear_cache_control index blocks) i = true) candidates = filter (λ i, point_at blocks i = true) candidates) as ->; [|done].
    apply list_filter_iff_in. intros i Hi. rewrite point_at_alter by done. by rewrite bool_decide_eq_false_2 by by intros ->.
  - by apply (IH (S excess)).
Qed.

Lemma budget_candidates_perm len inserted : budget_candidates len inserted ≡ₚ seq 0 len.
Proof.
  unfold budget_candidates. apply NoDup_Permutation.
  - apply NoDup_app. split_and!; [apply NoDup_filter, NoDup_seq| |apply NoDup_filter, NoDup_seq].
    intros i [_ Hi]%list_elem_of_filter [Hn _]%list_elem_of_filter. rewrite elem_of_seq in Hi. lia.
  - apply NoDup_seq.
  - intros i. rewrite elem_of_app, !list_elem_of_filter, !elem_of_seq. lia.
Qed.

Lemma enforce_budget blocks budget inserted :
  Forall wf blocks → (count_points (enforce_breakpoint_budget blocks budget inserted) <= budget)%nat.
Proof.
  intros Hwf. unfold enforce_breakpoint_budget. destruct (_ =? 0)%nat eqn:E; [apply Nat.eqb_eq in E; lia|]. apply Nat.eqb_neq in E.
  pose proof (drop_points_count (budget_candidates (length blocks) inserted) (count_points blocks - budget) blocks Hwf) as Hd.
  pose proof (budget_candidates_perm (length blocks) inserted) as Hp. specialize (Hd ltac:(rewrite Hp; apply NoDup_seq)).
  assert (length (filter (λ i, point_at blocks i = true) (budget_candidates (length blocks) inserted)) = count_points blocks) as Hc.
  { rewrite count_points_at. apply Permutation_length. by rewrite Hp. }
  lia.
Qed.

(** *** What is kept: everything but the breakpoints *)
Definition same_but_cache block block' : Prop :=
  match block, block' with
  | JObject m, JObject m' => ∀ key, key ≠ CACHE_CONTROL → map_get key m' = map_get key m
  | JObject _, _ | _, JObject _ => False
  | _, _ => block' = block
  end.

#[export] Instance same_but_cache_refl : Reflexive same_but_cache.
Proof. intros []; simpl; done. Qed.

#[export] Instance same_but_cache_trans : Transitive same_but_cache.
Proof. intros [] [] []; simpl; try congruence; try done. intros Ha Hb key Hk. by rewrite Hb, Ha. Qed.

Lemma same_clear block : wf block → same_but_cache block (clear_cache_control block).
Proof.
  destruct block as [| | | | |m]; try done. intros [Hnd _]%wf_object_iff key Hk. by rewrite map_get_remove, bool_decide_eq_false_2.
Qed.

Lemma same_set value block : same_but_cache block (set_cache_control value block).
Proof. destruct block as [| | | | |m]; try done. intros key Hk. by rewrite map_get_insert, bool_decide_eq_false_2. Qed.

Lemma same_alter f index blocks :
  (∀ block, block ∈ blocks → same_but_cache block (f block)) → Forall2 same_but_cache blocks (alter f index blocks).
Proof.
  intros Hf. apply Forall2_same_length_lookup. split; [by rewrite length_alter|]. intros i x y Hx Hy.
  destruct (decide (i = index)) as [->|]; [|rewrite list_lookup_alter_ne in Hy by done; by simplify_eq].
  rewrite list_lookup_alter_eq, Hx in Hy. injection Hy as <-. apply Hf. by eapply list_elem_of_lookup_2.
Qed.

Lemma drop_points_same candidates excess blocks :
  Forall wf blocks → Forall2 same_but_cache blocks (drop_points candidates excess blocks) ∧ Forall wf (drop_points candidates excess blocks).
Proof.
  revert excess blocks. induction candidates as [|index candidates IH]; intros excess blocks Hwf; simpl; [done|].
  destruct (excess =? 0)%nat; [done|]. destruct (is_some_and _ _); [|by apply IH].
  destruct (IH (excess - 1)%nat (alter clear_cache_control index blocks)) as [H1 H2].
  { apply Forall_alter; [done|]. intros. by apply wf_clear. }
  split; [|done]. etrans; [|exact H1]. apply same_alter. intros block Hin. apply same_clear. rewrite Forall_forall in Hwf. auto.
Qed.

Lemma enforce_same blocks budget inserted :
  Forall wf blocks →
  Forall2 same_but_cache blocks (enforce_breakpoint_budget blocks budget inserted) ∧ Forall wf (enforce_breakpoint_budget blocks budget inserted).
Proof. intros Hwf. unfold enforce_breakpoint_budget. destruct (_ =? 0)%nat; [done|]. by apply drop_points_same. Qed.

Lemma wf_as_blocks replacement : wf replacement → Forall wf (as_blocks replacement).
Proof.
  destruct replacement; simpl; try by constructor.
  - intros _. repeat constructor; simpl; [|by apply not_elem_of_nil]. intros Hin. by apply list_elem_of_singleton in Hin.
  - by rewrite wf_array_iff.
Qed.

Lemma last_cache_control_wf blocks value : Forall wf blocks → last_cache_control blocks = Some value → wf value.
Proof.
  intros Hwf (block & Hin & Hc)%find_map_Some. eapply wf_cache_control; [|exact Hc]. rewrite Forall_forall in Hwf. apply Hwf.
  by rewrite list_elem_of_In, in_rev, <- list_elem_of_In.
Qed.

Lemma transfer_step_wf source_len target_len used target cache :
  Forall wf target → wf cache.2 → let '(_, target') := transfer_step source_len target_len (used, target) cache in
  Forall wf target' ∧ Forall2 same_but_cache target target'.
Proof.
  intros Ht Hc. unfold transfer_step. destruct (transfer_target _ _ _ _) as [i|]; [|done].
  destruct (target !! i) as [[| | | | |m]|] eqn:El; try done. destruct (has_point _); [done|].
  pose proof (Forall_lookup_1 _ _ _ _ Ht El) as Hm. split; [apply Forall_insert; [done|by apply wf_insert]|].
  apply Forall2_same_length_lookup. split; [by rewrite length_insert|]. intros j x y Hx Hy.
  apply list_lookup_insert_Some in Hy as [(<- & <- & _)|[_ Hy]]; [|by simplify_eq]. simplify_eq. apply (same_set cache.2 (JObject m)).
Qed.

Lemma transfer_fold_wf source_len target_len caches used target :
  Forall wf target → Forall (λ cache, wf cache.2) caches →
  let '(_, target') := foldl (transfer_step source_len target_len) (used, target) caches in
  Forall wf target' ∧ Forall2 same_but_cache target target'.
Proof.
  intros Ht Hc. revert used target Ht. induction Hc as [|cache caches Hw Hc IH]; intros used target Ht; cbn [foldl]; [done|].
  pose proof (transfer_step_wf source_len target_len used target cache Ht Hw) as Hstep.
  destruct (transfer_step _ _ _ _) as [used1 target1]. destruct Hstep as [Ht1 Hs1]. specialize (IH used1 target1 Ht1).
  destruct (foldl _ _ _) as [used2 target2]. destruct IH as [H2 Hs2]. split; [done|]. by etrans.
Qed.

Lemma transfer_wf system target :
  wf system → Forall wf target →
  ∃ target', transfer_cache_controls (Some system) (JArray target) = JArray target' ∧ Forall wf target' ∧ Forall2 same_but_cache target target'.
Proof.
  intros Hs Ht. unfold transfer_cache_controls. destruct system as [| | | |source|]; try (by exists target). destruct (is_empty target); [by exists target|].
  set (caches := omap _ _). assert (Forall (λ cache : nat * Value Num, wf cache.2) caches) as Hc.
  { apply Forall_forall. intros cache ([i block] & Hin%elem_of_enumerate & Hf)%list_elem_of_omap. apply fmap_Some in Hf as (value & Hv & ->). simpl.
    rewrite wf_array_iff in Hs. eapply wf_cache_control; [|exact Hv]. exact (Forall_lookup_1 _ _ _ _ Hs Hin). }
  pose proof (transfer_fold_wf (length source) (length target) caches [] target Ht Hc) as Hf. destruct (foldl _ _ _) as [used target'].
  exists target'. done.
Qed.

End rewrite_lemmas.

(** ** Theorems *)
Section rewrite_theorems.
Context {Num F : Type} `{SerdeJson Num F}.
Implicit Types (system replacement block : Value Num) (blocks : list (Value Num)).

(** The breakpoints of a system value. *)
Definition points system : nat := match system with JArray blocks => count_points blocks | _ => 0%nat end.

Lemma block_has_point block' : bk_cache_control (block block') = has_point block'.
Proof.
  unfold block, has_point, cache_control. destruct block' as [| | | | |m]; try done.
  cbn [as_object mbind option_bind bk_cache_control]. fold CACHE_CONTROL.
  destruct (map_get CACHE_CONTROL m) as [v|]; simpl; [|done]. by destruct (is_null v).
Qed.

Lemma cache_points_count blocks : length (cache_points (block <$> blocks)) = count_points blocks.
Proof.
  unfold cache_points, enumerate. assert (∀ k, length (omap (λ '(index, item), if bk_cache_control item then Some index else None)
    (imap (λ i, pair (k + i)%nat) (block <$> blocks))) = count_points blocks) as Hk; [|exact (Hk 0%nat)].
  induction blocks as [|b blocks IH]; intros k; [done|]. rewrite count_points_cons, <- (IH (S k)), fmap_cons, imap_cons.
  assert (imap ((λ i, pair (k + i)%nat) ∘ S) (block <$> blocks) = imap (λ i, pair (S k + i)%nat) (block <$> blocks)) as ->.
  { apply imap_ext. intros i x _. unfold compose. f_equal. lia. }
  cbn [omap list_omap]. rewrite block_has_point. by destruct (has_point b).
Qed.

Lemma budget_points system : length (parse system).(sg_cache_control_points) = points system.
Proof. destruct system as [| | | |l|]; try done. apply cache_points_count. Qed.

Lemma replace_static_blocks_spec blocks start dynamic_start replacement budget :
  Forall wf blocks → wf replacement →
  let new := replace_static_blocks blocks start dynamic_start replacement budget in
  Forall2 same_but_cache
    (take start blocks ++ as_blocks replacement ++ drop (Nat.max (Nat.min dynamic_start (length blocks)) start) blocks) new ∧
  (count_points new <= budget)%nat ∧ Forall wf new.
Proof.
  intros Hb Hr. unfold replace_static_blocks. set (from := Nat.max _ _). set (added := if (_ =? 0)%nat then _ else _).
  pose proof (wf_as_blocks _ Hr) as Hadd. assert (Forall wf added ∧ Forall2 same_but_cache (as_blocks replacement) added) as [Hwf Hsame].
  { unfold added. destruct (_ =? 0)%nat; [|done]. destruct (last_cache_control _) as [inherited|] eqn:El; [|done].
    apply last_cache_control_wf in El; [|by apply Forall_drop, Forall_take]. split.
    - apply Forall_alter; [done|]. intros. by apply wf_set.
    - apply same_alter. intros. apply same_set. }
  clearbody added. assert (Forall wf (take start blocks ++ added ++ drop from blocks)) as Hall.
  { repeat apply Forall_app_2; [by apply Forall_take|done|by apply Forall_drop]. }
  split; [|split; [by apply enforce_budget|by apply enforce_same]]. etrans; [|by apply enforce_same]. apply Forall2_app; [done|]. by apply Forall2_app.
Qed.

Definition array_same (next next' : Value Num) : Prop :=
  match next, next' with
  | JArray blocks, JArray new => Forall2 same_but_cache blocks new
  | JArray _, _ | _, JArray _ => False
  | _, _ => next' = next
  end.

Lemma whole_spec system next :
  wf system → wf next →
  let next' := enforce_value (points system) (transfer_cache_controls (Some system) next) in
  array_same next next' ∧ (points next' <= points system)%nat ∧ wf next'.
Proof.
  intros Hs Hn next'. destruct next as [| | | |blocks|];
    try (destruct system; (split; [exact eq_refl|split; [apply Nat.le_0_l|exact Hn]])). apply wf_array_iff in Hn. subst next'.
  destruct (transfer_wf system blocks Hs Hn) as (target & -> & Ht & Hsame).
  split; [|split; [by apply enforce_budget|by apply wf_array_iff, enforce_same]].
  change (Forall2 same_but_cache blocks (enforce_breakpoint_budget target (points system) (0%nat, length target))).
  etrans; [exact Hsame|]. by apply enforce_same.
Qed.

Lemma wf_whole_replacement system replacement : wf replacement → wf (whole_replacement system replacement).
Proof.
  destruct system, replacement; try done. intros _. apply wf_array_iff. apply (wf_as_blocks (JString s)), wf_string.
Qed.

(** The rewrites keep the value well formed. *)
Lemma replace_system_static_wf system replacement : wf system → wf replacement → wf (replace_system_static system replacement).2.
Proof.
  intros Hs Hr. unfold replace_system_static. rewrite budget_points.
  pose proof (whole_spec system (whole_replacement system replacement) Hs (wf_whole_replacement _ _ Hr)) as (_ & _ & Hwhole).
  destruct system as [| | | |blocks|]; try exact Hwhole. destruct (sg_boundary _) as [static_end dynamic_start|]; [|exact Hwhole].
  rewrite wf_array_iff in Hs. apply wf_array_iff. by apply replace_static_blocks_spec.
Qed.

Lemma strip_client_system_wf system value : wf system → strip_client_system system = Some value → wf value.
Proof.
  intros Hs. unfold strip_client_system. destruct system as [| | | |[|first rest]|]; try done. destruct (has_billing _); [|done].
  intros [= <-]. apply wf_array_iff, Forall_cons in Hs as [Hs _]. apply wf_array_iff. constructor; [by apply wf_clear|constructor].
Qed.

End rewrite_theorems.

(** a rewrite keeps within the cache budget. Whatever the replacement of the system value and
    whether its boundary is resolved, the rewritten value has no more cache breakpoints than the client sent. *)
Theorem breakpoints_within_budget {Num F} `{SerdeJson Num F} (system replacement : Value Num) :
  wf system → wf replacement → (points (replace_system_static system replacement).2 <= points system)%nat.
Proof.
  intros Hs Hr. unfold replace_system_static. rewrite budget_points.
  pose proof (whole_spec system (whole_replacement system replacement) Hs (wf_whole_replacement _ _ Hr)) as (_ & Hwhole & _).
  destruct system as [| | | |blocks|]; try exact Hwhole. destruct (sg_boundary _) as [static_end dynamic_start|]; [|exact Hwhole].
  rewrite wf_array_iff in Hs. by apply replace_static_blocks_spec.
Qed.

(** only the static segment is replaced. When the boundary of the client's blocks is resolved, the blocks before
    the static prompt, which are the billing block if there is one, and those from the boundary on are
    kept, and the replacement stands between them; otherwise the whole value is the replacement, a text among
    blocks being a block. What is kept and what is put in is unchanged but for the breakpoints. *)
Theorem static_segment_replaced {Num F} `{SerdeJson Num F} (system replacement : Value Num) :
  wf system → wf replacement →
  let segments := parse system in
  let start := if has_billing segments then 1%nat else 0%nat in
  match system, segments.(sg_boundary) with
  | JArray blocks, Resolved _ dynamic_start =>
      ∃ new, replace_system_static system replacement = (StaticSegment, JArray new) ∧
        Forall2 same_but_cache (take start blocks ++ as_blocks replacement ++ drop (Nat.max dynamic_start start) blocks) new
  | _, _ =>
      ∃ next, replace_system_static system replacement = (Whole, next) ∧ array_same (whole_replacement system replacement) next
  end.
Proof.
  intros Hs Hr. cbn zeta. pose proof (segments_respect_boundary_end system) as Hend.
  pose proof (whole_spec system (whole_replacement system replacement) Hs (wf_whole_replacement _ _ Hr)) as [Hwhole _].
  unfold replace_system_static. rewrite budget_points. destruct system as [| | | |blocks|]; try (by eexists).
  destruct (sg_boundary _) as [static_end dynamic_start|]; [|by eexists]. rewrite wf_array_iff in Hs. eexists. split; [done|].
  destruct (replace_static_blocks_spec blocks (if has_billing (parse (JArray blocks)) then 1%nat else 0%nat) dynamic_start replacement
    (points (JArray blocks)) Hs Hr) as [Hsame _]. simpl in Hend. rewrite length_fmap in Hend. by rewrite Nat.min_l in Hsame.
Qed.

(** stripping the client's system keeps its billing block at most: the first block, without its
    breakpoint and otherwise unchanged, when it announces a billing header, well formed or not; nothing
    otherwise. *)
Theorem strip_keeps_billing {Num F} `{SerdeJson Num F} (system : Value Num) :
  wf system →
  match strip_client_system system with
  | Some kept => ∃ first rest block, system = JArray (first :: rest) ∧ has_billing (parse system) = true ∧
      kept = JArray [block] ∧ same_but_cache first block ∧ has_point block = false
  | None => match system with JArray (_ :: _) => has_billing (parse system) = false | _ => True end
  end.
Proof.
  intros Hs. unfold strip_client_system. destruct system as [| | | |[|first rest]|]; try done.
  destruct (has_billing _) eqn:Eb; [|done]. apply wf_array_iff, Forall_cons in Hs as [Hs _].
  exists first, rest, (clear_cache_control first). split_and!; try done; [by apply same_clear|by apply has_point_clear].
Qed.

(** ** Samples *)
Lemma sample_system_wf : wf sample_system.
Proof.
  apply wf_array_iff. repeat (apply Forall_cons; split); try apply Forall_nil; try done; apply wf_object_iff;
    (split; [by_decide|repeat constructor]).
Qed.

Definition sample_replaced : Value Z :=
  (replace_system_static (H := sample_serde [] (λ _, None)) sample_system (JString (bs "Platform prompt."))).2.

Lemma sample_replaced_eq :
  sample_replaced =
    JArray [JObject [(bs "text", JString (bs "x-anthropic-billing-header: cc_version=2.1.220.abc; cc_entrypoint=cli;"))];
            JObject [(bs "type", JString (bs "text")); (bs "text", JString (bs "Platform prompt.")); (bs "cache_control", JBool true)];
            JObject [(bs "text", JString (bs "# Environment" ++ [LF] ++ bs " - Platform: linux" ++ [LF] ++ bs "Shell: zsh"))]].
Proof. by vm_compute. Qed.

Lemma breakpoints_within_budget_witness : points sample_system = 1%nat ∧ (points sample_replaced <= 1)%nat.
Proof.
  split; [by vm_compute|].
  apply (breakpoints_within_budget (H := sample_serde [] (λ _, None)) sample_system (JString (bs "Platform prompt.")));
    [apply sample_system_wf|constructor].
Defined.

Lemma static_segment_replaced_witness :
  ∃ new, replace_system_static (H := sample_serde [] (λ _, None)) sample_system (JString (bs "Platform prompt.")) = (StaticSegment, JArray new) ∧
    length new = 3%nat.
Proof.
  destruct (static_segment_replaced (H := sample_serde [] (λ _, None)) sample_system (JString (bs "Platform prompt.")))
    as (new & Hnew & Hsame); [apply sample_system_wf|constructor|]. exists new. split; [exact Hnew|]. by apply Forall2_length in Hsame.
Defined.

Lemma strip_keeps_billing_witness :
  strip_client_system (H := sample_serde [] (λ _, None)) sample_system =
    Some (JArray [JObject [(bs "text", JString (bs "x-anthropic-billing-header: cc_version=2.1.220.abc; cc_entrypoint=cli;"))]]).
Proof.
  pose proof (strip_keeps_billing (H := sample_serde [] (λ _, None)) sample_system sample_system_wf) as Hs.
  destruct (strip_client_system sample_system) as [kept|] eqn:E; [|by vm_compute in Hs]. rewrite <- E. by vm_compute.
Defined.
