(* ===== verification/Capability.v ===== *)
(** Model capabilities: the compilation of published rules and the validation of a
    request against them, [crates/gateway-policy/src/capability.rs].

    A [BTreeSet] is a finite set and a [BTreeMap] a finite map, iterated in key order. The
    functions that report a failure without a value are options. *)

From Stdlib Require Import Ascii.
From S2P Require Import Prelude Machine.
From S2P Require Import Bytes.
From S2P Require Import Json.

Definition MAX_CONDITION_DEPTH : nat := 8.

Definition MAX_CONDITION_NODES : nat := 128.

Definition MAX_DIRECT_CHILDREN : nat := 32.

Definition MAX_WILDCARDS : nat := 3.

Definition MAX_PATH_EXPANSIONS : nat := 1024.

Definition REQUEST_FACTS : list bytes := bs <$> ["client_class"; "model"; "stream"]%string.

(** ** Data *)
Inductive CapabilityAction := Required | Allowed | Forbidden.

#[export] Instance CapabilityAction_eq_dec : EqDecision CapabilityAction.
Proof. solve_decision. Defined.

Inductive JsonType := TypeNull | TypeBoolean | TypeInteger | TypeNumber | TypeString | TypeArray | TypeObject.

#[export] Instance JsonType_eq_dec : EqDecision JsonType.
Proof. solve_decision. Defined.

Definition JsonType_index (t : JsonType) : nat :=
  match t with TypeNull => 0 | TypeBoolean => 1 | TypeInteger => 2 | TypeNumber => 3 | TypeString => 4 | TypeArray => 5 | TypeObject => 6 end.

#[export] Instance JsonType_countable : Countable JsonType.
Proof.
  refine (inj_countable JsonType_index
    (λ n, [TypeNull; TypeBoolean; TypeInteger; TypeNumber; TypeString; TypeArray; TypeObject] !! n) _).
  by intros [].
Defined.

Inductive MatchMode := AnyMatch | AllMatch.

#[warnings="-register-all"]
Inductive CapabilityCondition (Num : Type) : Type :=
  | Always
  | CondAll (conditions : list (CapabilityCondition Num))
  | CondAny (conditions : list (CapabilityCondition Num))
  | CondNot (condition : CapabilityCondition Num)
  | Present (path : bytes) (mode : MatchMode)
  | Equals (path : bytes) (value : Value Num) (mode : MatchMode)
  | CondIn (path : bytes) (values : list (Value Num)) (mode : MatchMode).
Arguments Always {Num}.
Arguments CondAll {Num}.
Arguments CondAny {Num}.
Arguments CondNot {Num}.
Arguments Present {Num}.
Arguments Equals {Num}.
Arguments CondIn {Num}.

Record CapabilityRule (Num F : Type) := {
  cr_id : bytes;
  cr_path : bytes;
  cr_action : CapabilityAction;
  cr_types : gset JsonType;
  cr_enum_values : list (Value Num);
  cr_minimum : option F;
  cr_maximum : option F;
  cr_exclusive_maximum_path : option bytes;
  cr_required_children : gset bytes;
  cr_when : CapabilityCondition Num;
}.
Arguments Build_CapabilityRule {Num F}.
Arguments cr_id {Num F}.
Arguments cr_path {Num F}.
Arguments cr_action {Num F}.
Arguments cr_types {Num F}.
Arguments cr_enum_values {Num F}.
Arguments cr_minimum {Num F}.
Arguments cr_maximum {Num F}.
Arguments cr_exclusive_maximum_path {Num F}.
Arguments cr_required_children {Num F}.
Arguments cr_when {Num F}.

Record EvaluationContext (Num : Type) := {
  ec_headers : gmap bytes (Value Num);
  ec_request : gmap bytes (Value Num);
}.
Arguments Build_EvaluationContext {Num}.
Arguments ec_headers {Num}.
Arguments ec_request {Num}.

Inductive CapabilityCompileError := EmptyIdentifier | InvalidPath | ConditionLimit | EmptyRange | CompileConflict.

Inductive RuntimeCapabilityError := PathExpansionLimit | RuntimeConflict.

Record CapabilityDiagnostic := {
  cd_path : bytes;
  cd_code : bytes;
}.

#[export] Instance CapabilityDiagnostic_eq_dec : EqDecision CapabilityDiagnostic.
Proof. solve_decision. Defined.

(** The derived order: the path, then the code. *)
Definition diagnostic_cmp (a b : CapabilityDiagnostic) : comparison :=
  then_with (key_cmp a.(cd_path) b.(cd_path)) (key_cmp a.(cd_code) b.(cd_code)).

(** [Vec::dedup]: of equal neighbours the first stays. *)
Fixpoint dedup {A} `{EqDecision A} (l : list A) : list A :=
  match l with
  | [] => []
  | x :: l => match dedup l with
              | [] => [x]
              | y :: l => if bool_decide (x = y) then x :: l else x :: y :: l
              end
  end.

(** ** Paths *)
Definition is_ascii_bytes (l : bytes) : bool := forallb (λ c, byte c <? 128)%N l.

Definition validate_path (path : bytes) : result CapabilityCompileError unit :=
  match strip_prefix (bs "body:") path with
  | Some pointer =>
      if negb (starts_with (bs "/") pointer)
         || (MAX_WILDCARDS <? length (filter (λ segment, segment = bs "*") (split "/" pointer)))%nat
      then Err InvalidPath else Ok tt
  | None =>
      match strip_prefix (bs "header:") path with
      | Some header =>
          if is_empty header || negb (bool_decide (header = to_ascii_lowercase <$> header)) || negb (is_ascii_bytes header)
          then Err InvalidPath else Ok tt
      | None =>
          if is_some_and (λ name, bool_decide (name ∈ REQUEST_FACTS)) (strip_prefix (bs "request:") path)
          then Ok tt else Err InvalidPath
      end
  end.

Definition validate_relative_path (path : bytes) : result CapabilityCompileError unit :=
  match validate_path path with
  | Err e => Err e
  | Ok _ => if negb (starts_with (bs "body:/") path) || bool_decide ("*"%char ∈ path) then Err InvalidPath else Ok tt
  end.

Definition is_scalar {Num} (value : Value Num) : bool :=
  match value with JNull | JBool _ | JNumber _ | JString _ => true | _ => false end.

(** [walk]: the number of nodes so far is threaded through. *)
Fixpoint walk {Num} (condition : CapabilityCondition Num) (depth nodes : nat) : result CapabilityCompileError nat :=
  let nodes := S nodes in
  if ((MAX_CONDITION_DEPTH <? depth) || (MAX_CONDITION_NODES <? nodes))%nat then Err ConditionLimit
  else
    match condition with
    | Always => Ok nodes
    | CondAll conditions | CondAny conditions =>
        if (MAX_DIRECT_CHILDREN <? length conditions)%nat then Err ConditionLimit
        else
          (fix walk_children conditions nodes :=
             match conditions with
             | [] => Ok nodes
             | child :: conditions =>
                 match walk child (S depth) nodes with
                 | Err e => Err e
                 | Ok nodes => walk_children conditions nodes
                 end
             end) conditions nodes
    | CondNot condition => walk condition (S depth) nodes
    | Present path _ => match validate_path path with Err e => Err e | Ok _ => Ok nodes end
    | Equals path value _ =>
        match validate_path path with
        | Err e => Err e
        | Ok _ => if is_scalar value then Ok nodes else Err CompileConflict
        end
    | CondIn path values _ =>
        match validate_path path with
        | Err e => Err e
        | Ok _ => if forallb is_scalar values then Ok nodes else Err CompileConflict
        end
    end.

Definition validate_condition {Num} (condition : CapabilityCondition Num) : result CapabilityCompileError nat := walk condition 1 0.

Section capability.
Context {Num F : Type} `{SerdeJson Num F}.
Implicit Types (tree value : Value Num) (context : EvaluationContext Num) (rule : CapabilityRule Num F).

(** The turn of the loop over the segments: the values one level deeper. *)
Fixpoint expand_segment (segment : bytes) (values next : list (Value Num)) : result RuntimeCapabilityError (list (Value Num)) :=
  match values with
  | [] => Ok next
  | value :: values =>
      let next :=
        if bool_decide (segment = bs "*") then next ++ default [] (as_array value)
        else next ++ option_list (get segment value) in
      if (MAX_PATH_EXPANSIONS <? length next)%nat then Err PathExpansionLimit
      else expand_segment segment values next
  end.

Fixpoint expand_segments (segments : list bytes) (values : list (Value Num)) : result RuntimeCapabilityError (list (Value Num)) :=
  match segments with
  | [] => Ok values
  | segment :: segments =>
      match expand_segment (unescape segment) values [] with
      | Err e => Err e
      | Ok next => expand_segments segments next
      end
  end.

Definition expand_path (path : bytes) tree context : result RuntimeCapabilityError (list (Value Num)) :=
  match strip_prefix (bs "body:") path with
  | Some pointer => expand_segments (tail (split "/" pointer)) [tree]
  | None =>
      match strip_prefix (bs "header:") path with
      | Some name => Ok (option_list (context.(ec_headers) !! name))
      | None =>
          match strip_prefix (bs "request:") path with
          | Some name => Ok (option_list (context.(ec_request) !! name))
          | None => Ok []
          end
      end
  end.

Definition reduce (matches : list bool) (mode : MatchMode) : bool :=
  negb (is_empty matches) && match mode with AnyMatch => existsb id matches | AllMatch => forallb id matches end.

(** [==] on numbers read as [f64]. *)
Definition f64_eq (f g : F) : bool := f64_le f g && f64_le g f.

Definition option_f64_eq (f g : option F) : bool :=
  match f, g with None, None => true | Some f, Some g => f64_eq f g | _, _ => false end.

Definition strict_equal (left right : Value Num) : bool :=
  match left, right with
  | JNumber a, JNumber b => option_f64_eq (as_f64 a) (as_f64 b)
  | _, _ => value_eqb left right
  end.

Definition type_matches (kind : JsonType) value : bool :=
  match kind with
  | TypeNull => is_null value
  | TypeBoolean => is_some (as_bool value)
  | TypeInteger => is_some (value_as_i64 value) || is_some (value_as_u64 value)
  | TypeNumber => match value with JNumber _ => true | _ => false end
  | TypeString => is_some (as_str value)
  | TypeArray => is_some (as_array value)
  | TypeObject => is_some (as_object value)
  end.

Fixpoint condition_matches (condition : CapabilityCondition Num) tree context : result RuntimeCapabilityError bool :=
  match condition with
  | Always => Ok true
  | CondAll conditions =>
      (fix all conditions :=
         match conditions with
         | [] => Ok true
         | child :: conditions =>
             match condition_matches child tree context with
             | Err e => Err e
             | Ok false => Ok false
             | Ok true => all conditions
             end
         end) conditions
  | CondAny conditions =>
      (fix any conditions :=
         match conditions with
         | [] => Ok false
         | child :: conditions =>
             match condition_matches child tree context with
             | Err e => Err e
             | Ok true => Ok true
             | Ok false => any conditions
             end
         end) conditions
  | CondNot condition =>
      match condition_matches condition tree context with Err e => Err e | Ok b => Ok (negb b) end
  | Present path mode =>
      match expand_path path tree context with Err e => Err e | Ok values => Ok (reduce ((λ _, true) <$> values) mode) end
  | Equals path value mode =>
      match expand_path path tree context with
      | Err e => Err e
      | Ok values => Ok (reduce ((λ candidate, strict_equal candidate value) <$> values) mode)
      end
  | CondIn path expected mode =>
      match expand_path path tree context with
      | Err e => Err e
      | Ok values => Ok (reduce ((λ candidate, existsb (strict_equal candidate) expected) <$> values) mode)
      end
  end.

(** ** Effective constraints *)
Record EffectiveConstraints := {
  ef_action : CapabilityAction;
  ef_types : gset JsonType;
  ef_enum_values : list (Value Num);
  ef_minimum : option F;
  ef_maximum : option F;
  ef_exclusive_maximum_path : option bytes;
  ef_required_children : gset bytes;
}.

Definition merge_action (left right : CapabilityAction) : option CapabilityAction :=
  match left, right with
  | Forbidden, Forbidden => Some Forbidden
  | Forbidden, _ | _, Forbidden => None
  | Required, _ | _, Required => Some Required
  | _, _ => Some Allowed
  end.

(** What the loop has merged so far. *)
Record Merging := {
  mg_action : option CapabilityAction;
  mg_types : option (gset JsonType);
  mg_enum_values : option (list (Value Num));
  mg_minimum : option F;
  mg_maximum : option F;
  mg_exclusive_maximum_path : option bytes;
  mg_required_children : gset bytes;
}.

Definition merging_start : Merging :=
  {| mg_action := None; mg_types := None; mg_enum_values := None; mg_minimum := None; mg_maximum := None;
     mg_exclusive_maximum_path := None; mg_required_children := ∅ |}.

Definition merge_bound (f : F → F → F) (a b : option F) : option F :=
  match a, b with
  | Some a, Some b => Some (f a b)
  | None, b => b
  | a, None => a
  end.

Definition merge_step (s : Merging) rule : option Merging :=
  action ← match s.(mg_action) with None => Some rule.(cr_action) | Some current => merge_action current rule.(cr_action) end;
  let types :=
    if bool_decide (rule.(cr_types) = ∅) then s.(mg_types)
    else Some (match s.(mg_types) with None => rule.(cr_types) | Some current => current ∩ rule.(cr_types) end) in
  let enum_values :=
    if is_empty rule.(cr_enum_values) then s.(mg_enum_values)
    else Some (match s.(mg_enum_values) with
               | None => rule.(cr_enum_values)
               | Some current => filter (λ candidate, existsb (strict_equal candidate) rule.(cr_enum_values) = true) current
               end) in
  exclusive_maximum_path ←
    match rule.(cr_exclusive_maximum_path) with
    | None => Some s.(mg_exclusive_maximum_path)
    | Some path =>
        if is_some_and (λ current, negb (bool_decide (current = path))) s.(mg_exclusive_maximum_path) then None else Some (Some path)
    end;
  Some {| mg_action := Some action; mg_types := types; mg_enum_values := enum_values;
          mg_minimum := merge_bound f64_max s.(mg_minimum) rule.(cr_minimum);
          mg_maximum := merge_bound f64_min s.(mg_maximum) rule.(cr_maximum);
          mg_exclusive_maximum_path := exclusive_maximum_path;
          mg_required_children := s.(mg_required_children) ∪ rule.(cr_required_children) |}.

Fixpoint merge_loop (s : Merging) (rules : list (CapabilityRule Num F)) : option Merging :=
  match rules with
  | [] => Some s
  | rule :: rules => s ← merge_step s rule; merge_loop s rules
  end.

(** [minimum.zip(maximum).is_some_and(|(min, max)| min > max)]. *)
Definition empty_range (minimum maximum : option F) : bool :=
  match minimum, maximum with Some min, Some max => negb (f64_le min max) | _, _ => false end.

Definition merge_rules (rules : list (CapabilityRule Num F)) : option EffectiveConstraints :=
  s ← merge_loop merging_start rules;
  let types := default ∅ s.(mg_types) in
  let enum_values := default [] s.(mg_enum_values) in
  if existsb (λ rule, negb (bool_decide (rule.(cr_types) = ∅))) rules && bool_decide (types = ∅)
     || existsb (λ rule, negb (is_empty rule.(cr_enum_values))) rules && is_empty enum_values
     || empty_range s.(mg_minimum) s.(mg_maximum)
  then None
  else
    Some {| ef_action := default Allowed s.(mg_action); ef_types := types; ef_enum_values := enum_values;
            ef_minimum := s.(mg_minimum); ef_maximum := s.(mg_maximum);
            ef_exclusive_maximum_path := s.(mg_exclusive_maximum_path);
            ef_required_children := s.(mg_required_children) |}.

(** ** Compilation *)
Record CompiledCapabilitySnapshot := {
  cs_id : bytes;
  cs_model_id : bytes;
  cs_rules : list (CapabilityRule Num F);
}.

(** [entry(path).or_default().push(rule)]. *)
Definition group_by_path (rules : list (CapabilityRule Num F)) : gmap bytes (list (CapabilityRule Num F)) :=
  foldl (λ groups rule, <[rule.(cr_path) := default [] (groups !! rule.(cr_path)) ++ [rule]]> groups) ∅ rules.

Definition is_always (condition : CapabilityCondition Num) : bool := match condition with Always => true | _ => false end.

Definition validate_unconditional_intersections (rules : list (CapabilityRule Num F)) : bool :=
  forallb (λ group, is_some (merge_rules group)) (btree_values (group_by_path (filter (λ rule, is_always rule.(cr_when) = true) rules))).

(** The turn of the checking loop. *)
Definition check_rule rule : result CapabilityCompileError unit :=
  match validate_path rule.(cr_path) with
  | Err e => Err e
  | Ok _ =>
      match (match rule.(cr_exclusive_maximum_path) with None => Ok tt | Some path => validate_relative_path path end) with
      | Err e => Err e
      | Ok _ =>
          match validate_condition rule.(cr_when) with
          | Err e => Err e
          | Ok _ =>
              if empty_range rule.(cr_minimum) rule.(cr_maximum) then Err EmptyRange
              else if negb (forallb is_scalar rule.(cr_enum_values)) then Err CompileConflict
              else Ok tt
          end
      end
  end.

Fixpoint check_rules (rules : list (CapabilityRule Num F)) : result CapabilityCompileError unit :=
  match rules with
  | [] => Ok tt
  | rule :: rules => match check_rule rule with Err e => Err e | Ok _ => check_rules rules end
  end.

Definition compile (id model_id : bytes) (rules : list (CapabilityRule Num F)) : result CapabilityCompileError CompiledCapabilitySnapshot :=
  if is_empty id || is_empty model_id || existsb (λ rule, is_empty rule.(cr_id)) rules then Err EmptyIdentifier
  else
    match check_rules rules with
    | Err e => Err e
    | Ok _ =>
        let rules := sort_by (λ left right, key_cmp left.(cr_id) right.(cr_id)) rules in
        if validate_unconditional_intersections rules then Ok {| cs_id := id; cs_model_id := model_id; cs_rules := rules |}
        else Err CompileConflict
    end.

(** ** Validation *)
Definition diagnostic (path : bytes) (code : string) : CapabilityDiagnostic := {| cd_path := path; cd_code := bs code |}.

Fixpoint active_rules (rules : list (CapabilityRule Num F)) tree context
    : result RuntimeCapabilityError (list (CapabilityRule Num F)) :=
  match rules with
  | [] => Ok []
  | rule :: rules =>
      match condition_matches rule.(cr_when) tree context with
      | Err e => Err e
      | Ok matches =>
          match active_rules rules tree context with
          | Err e => Err e
          | Ok active => Ok (if matches : bool then rule :: active else active)
          end
      end
  end.

Definition out_of_range (constraints : EffectiveConstraints) (number : F) : bool :=
  is_some_and (λ min, negb (f64_le min number)) constraints.(ef_minimum)
  || is_some_and (λ max, negb (f64_le number max)) constraints.(ef_maximum).

(** The exclusive maximum of one value: whether it is violated. *)
Definition exceeds_relative (constraints : EffectiveConstraints) value tree context : result RuntimeCapabilityError bool :=
  match constraints.(ef_exclusive_maximum_path), value_as_f64 value with
  | Some relative_path, Some number =>
      match expand_path relative_path tree context with
      | Err e => Err e
      | Ok relative_values =>
          if (1 <? length relative_values)%nat then Err RuntimeConflict
          else Ok (is_some_and (λ maximum, f64_le maximum number) (head relative_values ≫= value_as_f64))
      end
  | _, _ => Ok false
  end.

(** The turn of the loop on one value: its diagnostics. *)
Definition value_diagnostics (path : bytes) (constraints : EffectiveConstraints) value tree context
    : result RuntimeCapabilityError (list CapabilityDiagnostic) :=
  if negb (bool_decide (constraints.(ef_types) = ∅)) && negb (existsb (λ kind, type_matches kind value) (elements constraints.(ef_types)))
  then Ok [diagnostic path "invalid_type"]
  else
    match exceeds_relative constraints value tree context with
    | Err e => Err e
    | Ok exceeds =>
        Ok ((if negb (is_empty constraints.(ef_enum_values)) && negb (existsb (λ allowed, strict_equal allowed value) constraints.(ef_enum_values))
             then [diagnostic path "invalid_enum"] else [])
            ++ (if is_some_and (out_of_range constraints) (value_as_f64 value) then [diagnostic path "out_of_range"] else [])
            ++ (if exceeds : bool then [diagnostic path "exclusive_maximum"] else [])
            ++ (if is_some_and (λ object, existsb (λ child, negb (contains_key child object)) (elements constraints.(ef_required_children)))
                     (as_object value)
                then [diagnostic path "required_child"] else []))
    end.

Fixpoint values_diagnostics (path : bytes) (constraints : EffectiveConstraints) (values : list (Value Num)) tree context
    : result RuntimeCapabilityError (list CapabilityDiagnostic) :=
  match values with
  | [] => Ok []
  | value :: values =>
      match value_diagnostics path constraints value tree context with
      | Err e => Err e
      | Ok found => match values_diagnostics path constraints values tree context with Err e => Err e | Ok rest => Ok (found ++ rest) end
      end
  end.

(** The turn of the loop over the paths. *)
Definition path_diagnostics (path : bytes) (rules : list (CapabilityRule Num F)) tree context (final_pass : bool)
    : result RuntimeCapabilityError (list CapabilityDiagnostic) :=
  match merge_rules rules with
  | None => Err RuntimeConflict
  | Some constraints =>
      match expand_path path tree context with
      | Err e => Err e
      | Ok values =>
          if is_empty values then
            Ok (if final_pass && bool_decide (constraints.(ef_action) = Required) then [diagnostic path "required"] else [])
          else if bool_decide (constraints.(ef_action) = Forbidden) then Ok [diagnostic path "forbidden"]
          else values_diagnostics path constraints values tree context
      end
  end.

Fixpoint paths_diagnostics (groups : list (bytes * list (CapabilityRule Num F))) tree context (final_pass : bool)
    : result RuntimeCapabilityError (list CapabilityDiagnostic) :=
  match groups with
  | [] => Ok []
  | (path, rules) :: groups =>
      match path_diagnostics path rules tree context final_pass with
      | Err e => Err e
      | Ok found => match paths_diagnostics groups tree context final_pass with Err e => Err e | Ok rest => Ok (found ++ rest) end
      end
  end.

Definition validate (self : CompiledCapabilitySnapshot) tree context (final_pass : bool)
    : result RuntimeCapabilityError (list CapabilityDiagnostic) :=
  match active_rules self.(cs_rules) tree context with
  | Err e => Err e
  | Ok active =>
      match paths_diagnostics (btree_iter (group_by_path active)) tree context final_pass with
      | Err e => Err e
      | Ok diagnostics => Ok (dedup (sort_by diagnostic_cmp diagnostics))
      end
  end.

(** ** The catalog *)
Definition catalog_new (snapshots : list CompiledCapabilitySnapshot) : result CapabilityCompileError (gmap bytes CompiledCapabilitySnapshot) :=
  foldl (λ models snapshot,
    match models with
    | Err e => Err e
    | Ok models =>
        if is_some (models !! snapshot.(cs_model_id)) then Err CompileConflict
        else Ok (<[snapshot.(cs_model_id) := snapshot]> models)
    end) (Ok ∅) snapshots.

Definition catalog_get (model_id : bytes) (models : gmap bytes CompiledCapabilitySnapshot) : option CompiledCapabilitySnapshot :=
  models !! model_id.

End capability.

(** ** What a rule asks of a request *)
Section satisfaction.
Context {Num F : Type} `{SerdeJson Num F}.
Implicit Types (tree value : Value Num) (context : EvaluationContext Num) (rule : CapabilityRule Num F).

Definition value_satisfies rule value tree context : Prop :=
  (rule.(cr_types) = ∅ ∨ ∃ kind, kind ∈ rule.(cr_types) ∧ type_matches kind value = true) ∧
  (rule.(cr_enum_values) = [] ∨ ∃ allowed, allowed ∈ rule.(cr_enum_values) ∧ strict_equal allowed value = true) ∧
  (∀ number, value_as_f64 value = Some number →
    (∀ min, rule.(cr_minimum) = Some min → f64_le min number = true) ∧
    (∀ max, rule.(cr_maximum) = Some max → f64_le number max = true) ∧
    (∀ path, rule.(cr_exclusive_maximum_path) = Some path →
      ∃ relative, expand_path path tree context = Ok relative ∧ (length relative <= 1)%nat ∧
        ∀ maximum, (head relative ≫= value_as_f64) = Some maximum → f64_le maximum number = false)) ∧
  (∀ object child, value = JObject object → child ∈ rule.(cr_required_children) → is_Some (map_get child object)).

Definition rule_satisfied rule tree context (final_pass : bool) : Prop :=
  ∃ values, expand_path rule.(cr_path) tree context = Ok values ∧
    (values = [] → final_pass = true → rule.(cr_action) ≠ Required) ∧
    (values ≠ [] → rule.(cr_action) ≠ Forbidden) ∧
    ∀ value, value ∈ values → value_satisfies rule value tree context.

(** ** Lemmas *)

Lemma f64_le_refl f : f64_le f f = true.
Proof. by destruct (f64_le_total f f). Qed.

Lemma strict_equal_refl_scalar value : is_scalar value = true → strict_equal value value = true.
Proof.
  destruct value as [|b|n|s| |]; try done; simpl; intros _; [by destruct b| |by apply bool_decide_eq_true_2].
  destruct (as_f64 n); simpl; [|done]. unfold f64_eq. by rewrite f64_le_refl.
Qed.

(** Two values equal to a scalar are equal. *)
Lemma strict_equal_euclid c w v : is_scalar c = true → strict_equal c w = true → strict_equal c v = true → strict_equal w v = true.
Proof.
  destruct c as [|b|n|s| |]; try done; intros _; destruct w as [|b'|n'|s'| |]; simpl; try done; destruct v as [|b''|n''|s''| |]; simpl; try done.
  - destruct b, b', b''; done.
  - destruct (as_f64 n), (as_f64 n'), (as_f64 n''); simpl; try done. unfold f64_eq. intros [H1 H2]%andb_true_iff [H3 H4]%andb_true_iff.
    apply andb_true_iff. split; eapply f64_le_trans; eauto.
  - intros ->%bool_decide_eq_true ->%bool_decide_eq_true. by apply bool_decide_eq_true.
Qed.

(** What has been merged is at least as strict as a rule. *)
Definition stricter (s : Merging (Num := Num) (F := F)) rule : Prop :=
  (∃ action, s.(mg_action) = Some action ∧ (rule.(cr_action) = Forbidden → action = Forbidden) ∧
    (rule.(cr_action) = Required → action = Required)) ∧
  (rule.(cr_types) ≠ ∅ → ∃ types, s.(mg_types) = Some types ∧ types ⊆ rule.(cr_types)) ∧
  (rule.(cr_enum_values) ≠ [] → ∃ values, s.(mg_enum_values) = Some values ∧
    ∀ c, c ∈ values → is_scalar c = true ∧ ∃ w, w ∈ rule.(cr_enum_values) ∧ strict_equal c w = true) ∧
  (∀ min, rule.(cr_minimum) = Some min → ∃ m, s.(mg_minimum) = Some m ∧ f64_le min m = true) ∧
  (∀ max, rule.(cr_maximum) = Some max → ∃ m, s.(mg_maximum) = Some m ∧ f64_le m max = true) ∧
  (∀ path, rule.(cr_exclusive_maximum_path) = Some path → s.(mg_exclusive_maximum_path) = Some path) ∧
  rule.(cr_required_children) ⊆ s.(mg_required_children).

Lemma merge_action_some a b c : merge_action a b = Some c →
  (a = Forbidden ↔ c = Forbidden) ∧ (b = Forbidden ↔ c = Forbidden) ∧ (a = Required → c = Required) ∧ (b = Required → c = Required).
Proof. destruct a, b; simpl; intros [= <-]; done. Qed.

Definition scalar_enums (s : Merging (Num := Num) (F := F)) : Prop :=
  ∀ values c, s.(mg_enum_values) = Some values → c ∈ values → is_scalar c = true.

Lemma merge_step_scalar s rule s' : forallb is_scalar rule.(cr_enum_values) = true → scalar_enums s → merge_step s rule = Some s' → scalar_enums s'.
Proof.
  intros Hr Hs Hm. unfold merge_step in Hm. destruct (match mg_action s with None => _ | Some _ => _ end) as [action|]; simpl in Hm; [|done].
  destruct (match cr_exclusive_maximum_path rule with None => _ | Some _ => _ end) as [path|]; simpl in Hm; [|done]. injection Hm as <-.
  intros values c. simpl. rewrite forallb_forall in Hr. destruct (is_empty _); [apply Hs|]. intros [= <-] Hc.
  destruct (mg_enum_values s) as [current|] eqn:E; [|by apply Hr, list_elem_of_In]. apply list_elem_of_filter in Hc as [_ Hc]. by eapply Hs.
Qed.

Lemma merge_step_keeps s rule s' r : merge_step s rule = Some s' → stricter s r → stricter s' r.
Proof.
  unfold merge_step. destruct (match mg_action s with None => _ | Some _ => _ end) as [action|] eqn:Ea; simpl; [|done].
  destruct (match cr_exclusive_maximum_path rule with None => _ | Some _ => _ end) as [path|] eqn:Ep; simpl; [|done]. intros [= <-].
  intros ((a & Ha & Hf & Hr) & Ht & He & Hmin & Hmax & Hx & Hc). unfold stricter. simpl. split_and!.
  - rewrite Ha in Ea. apply merge_action_some in Ea as (H1 & _ & H2 & _). exists action. naive_solver.
  - intros Hne. destruct (Ht Hne) as (types & -> & Hsub). destruct (bool_decide _); [by exists types|]. eexists. split; [done|]. set_solver.
  - intros Hne. destruct (He Hne) as (values & -> & Hv). destruct (is_empty _); [by exists values|]. eexists. split; [done|].
    intros c [_ Hin]%list_elem_of_filter. by apply Hv.
  - intros min Hmn. destruct (Hmin min Hmn) as (m & -> & Hle). destruct (cr_minimum rule) as [m'|]; simpl; [|by exists m].
    eexists. split; [done|]. eapply f64_le_trans; [done|]. apply f64_max_spec.
  - intros max Hmx. destruct (Hmax max Hmx) as (m & -> & Hle). destruct (cr_maximum rule) as [m'|]; simpl; [|by exists m].
    eexists. split; [done|]. eapply f64_le_trans; [|done]. apply f64_min_spec.
  - intros p Hp. rewrite (Hx p Hp) in Ep. destruct (cr_exclusive_maximum_path rule) as [q|]; [|congruence]. simpl in Ep.
    case_bool_decide; simpl in Ep; congruence.
  - set_solver.
Qed.

Lemma merge_step_takes s rule s' :
  forallb is_scalar rule.(cr_enum_values) = true → scalar_enums s → merge_step s rule = Some s' → stricter s' rule.
Proof.
  intros Hscalar Hs. pose proof Hscalar as Hall. rewrite forallb_forall in Hall. unfold merge_step.
  destruct (match mg_action s with None => _ | Some _ => _ end) as [action|] eqn:Ea; simpl; [|done].
  destruct (match cr_exclusive_maximum_path rule with None => _ | Some _ => _ end) as [path|] eqn:Ep; simpl; [|done]. intros [= <-].
  unfold stricter. simpl. split_and!.
  - exists action. split; [done|]. destruct (mg_action s) as [a|]; [|naive_solver]. apply merge_action_some in Ea. naive_solver.
  - intros Hne. rewrite bool_decide_eq_false_2 by done. eexists. split; [done|]. destruct (mg_types s); set_solver.
  - intros Hne. destruct (is_empty _) eqn:E; [by apply is_empty_spec in E|]. eexists. split; [done|]. intros c Hc.
    destruct (mg_enum_values s) as [current|] eqn:Ec.
    + apply list_elem_of_filter in Hc as [Hex Hin]. split; [by eapply Hs|]. apply existsb_exists in Hex as (w & Hw%list_elem_of_In & Heq). by exists w.
    + assert (is_scalar c = true) as Hsc by by apply Hall, list_elem_of_In. split; [done|]. exists c. split; [done|]. by apply strict_equal_refl_scalar.
  - intros min ->. destruct (mg_minimum s) as [m|]; simpl; eexists; (split; [done|]); [apply f64_max_spec|apply f64_le_refl].
  - intros max ->. destruct (mg_maximum s) as [m|]; simpl; eexists; (split; [done|]); [apply f64_min_spec|apply f64_le_refl].
  - intros p Hp. rewrite Hp in Ep. destruct (is_some_and _ _); [done|]. by injection Ep as <-.
  - set_solver.
Qed.

Lemma merge_loop_stricter rules s s' :
  Forall (λ rule, forallb is_scalar rule.(cr_enum_values) = true) rules → scalar_enums s → merge_loop s rules = Some s' →
  (∀ rule, rule ∈ rules → stricter s' rule) ∧ (∀ rule, stricter s rule → stricter s' rule).
Proof.
  intros Hr. revert s. induction Hr as [|rule rules Hrule Hr IH]; intros s Hs; simpl.
  - intros [= <-]. split; [|done]. by intros rule ?%elem_of_nil.
  - destruct (merge_step s rule) as [s1|] eqn:E; simpl; [|done]. intros Hl.
    destruct (IH s1 (merge_step_scalar _ _ _ Hrule Hs E) Hl) as [Hin Hkeep]. split.
    + intros r [->|Hr']%elem_of_cons; [|by apply Hin]. apply Hkeep. by eapply merge_step_takes.
    + intros r Hst. apply Hkeep. by eapply merge_step_keeps.
Qed.

End satisfaction.

Section soundness.
Context {Num F : Type} `{SerdeJson Num F}.
Implicit Types (tree value : Value Num) (context : EvaluationContext Num) (rule : CapabilityRule Num F).

Lemma values_diagnostics_nil path constraints values tree context :
  values_diagnostics path constraints values tree context = Ok [] →
  ∀ value, value ∈ values → value_diagnostics path constraints value tree context = Ok [].
Proof.
  induction values as [|v values IH]; simpl; [by intros _ value ?%elem_of_nil|].
  destruct (value_diagnostics _ _ _ _ _) as [found|] eqn:E; [|done]. destruct (values_diagnostics _ _ _ _ _) as [rest|]; [|done].
  intros [= Hf]. apply app_eq_nil in Hf as [-> ->]. intros value [->|Hin]%elem_of_cons; [done|by apply IH].
Qed.

(** A value without a diagnostic satisfies every rule that was merged. *)
Lemma value_sound path rules constraints rule value tree context :
  Forall (λ rule, forallb is_scalar rule.(cr_enum_values) = true) rules → merge_rules rules = Some constraints → rule ∈ rules →
  value_diagnostics path constraints value tree context = Ok [] → value_satisfies rule value tree context.
Proof.
  intros Hscalar Hm Hin. unfold merge_rules in Hm. destruct (merge_loop merging_start rules) as [s|] eqn:Es; simpl in Hm; [|done].
  destruct (merge_loop_stricter rules merging_start s Hscalar ltac:(done) Es) as [Hst _].
  destruct (Hst rule Hin) as (_ & Ht & He & Hmin & Hmax & Hx & Hc).
  destruct (_ || _) eqn:Eguard; [done|]. apply orb_false_iff in Eguard as [Eguard _]. apply orb_false_iff in Eguard as [Gt Ge].
  injection Hm as <-. unfold value_diagnostics. cbn [ef_types ef_enum_values ef_minimum ef_maximum ef_required_children ef_exclusive_maximum_path].
  destruct (negb (bool_decide (_ = ∅)) && _) eqn:Etypes; [done|]. destruct (exceeds_relative _ _ _ _) as [exceeds|] eqn:Ex; [|done].
  intros [= Hnil]. apply app_eq_nil in Hnil as [Hn1 Hnil]. apply app_eq_nil in Hnil as [Hn2 Hnil]. apply app_eq_nil in Hnil as [Hn3 Hn4].
  split_and!.
  - destruct (decide (cr_types rule = ∅)) as [|Hne]; [by left|right]. destruct (Ht Hne) as (types & Hty & Hsub). rewrite Hty in *. simpl in *.
    assert (types ≠ ∅) as Hnt.
    { intros ->. apply andb_false_iff in Gt as [Gt|Gt]; [|by rewrite bool_decide_eq_true_2 in Gt].
      apply not_true_iff_false in Gt. destruct Gt. apply existsb_exists. exists rule. split; [by apply list_elem_of_In|].
      by rewrite bool_decide_eq_false_2. }
    rewrite bool_decide_eq_false_2 in Etypes by done. apply negb_false_iff, existsb_exists in Etypes as (kind & Hk%list_elem_of_In%elem_of_elements & Hkm).
    exists kind. split; [by apply Hsub|done].
  - destruct (decide (cr_enum_values rule = [])) as [|Hne]; [by left|right]. destruct (He Hne) as (values & Hv & Hall). rewrite Hv in *. simpl in *.
    destruct (is_empty values) eqn:Eempty.
    { apply is_empty_spec in Eempty as ->. apply andb_false_iff in Ge as [Ge|Ge]; [|done]. apply not_true_iff_false in Ge. destruct Ge.
      apply existsb_exists. exists rule. split; [by apply list_elem_of_In|]. by destruct (cr_enum_values rule). }
    simpl in Hn1. destruct (existsb (λ allowed, strict_equal allowed value) values) eqn:Eex; [|done]. apply existsb_exists in Eex as (c & Hcin%list_elem_of_In & Hcv).
    destruct (Hall c Hcin) as (Hsc & w & Hw & Hcw). exists w. split; [done|]. by eapply strict_equal_euclid.
  - intros number Hnum. rewrite Hnum in Hn2. simpl in Hn2. unfold out_of_range in Hn2. simpl in Hn2. split_and!.
    + intros min Hmn. destruct (Hmin min Hmn) as (m & Hm & Hle). rewrite Hm in Hn2. simpl in Hn2. destruct (f64_le m number) eqn:E; [|done].
      by eapply f64_le_trans.
    + intros max Hmx. destruct (Hmax max Hmx) as (m & Hm & Hle). rewrite Hm in Hn2. simpl in Hn2.
      destruct (f64_le number m) eqn:E; [by eapply f64_le_trans|]. by rewrite orb_true_r in Hn2.
    + intros relative_path Hp. unfold exceeds_relative in Ex. simpl in Ex. rewrite (Hx _ Hp), Hnum in Ex.
      destruct (expand_path relative_path tree context) as [relative|]; [|done]. destruct (1 <? _)%nat eqn:El; [done|].
      injection Ex as <-. apply Nat.ltb_ge in El. exists relative. split_and!; [done|done|]. intros maximum Hmax'.
      rewrite Hmax' in Hn3. simpl in Hn3. by destruct (f64_le maximum number).
  - intros object child -> Hchild. simpl in Hn4. destruct (existsb (λ child, negb (contains_key child object)) _) eqn:Eex; [done|]. apply not_true_iff_false in Eex.
    destruct (map_get child object) as [v|] eqn:Eg; [by exists v|]. destruct Eex. apply existsb_exists. exists child. split.
    + apply list_elem_of_In, elem_of_elements. by apply Hc.
    + unfold contains_key. by rewrite Eg.
Qed.

Lemma path_sound path rules rule tree context final_pass :
  Forall (λ rule, forallb is_scalar rule.(cr_enum_values) = true) rules → Forall (λ rule, rule.(cr_path) = path) rules → rule ∈ rules →
  path_diagnostics path rules tree context final_pass = Ok [] → rule_satisfied rule tree context final_pass.
Proof.
  intros Hscalar Hpath Hin. unfold path_diagnostics. destruct (merge_rules rules) as [constraints|] eqn:Em; [|done].
  pose proof (proj1 (Forall_forall _ _) Hpath rule Hin) as Hp. simpl in Hp.
  destruct (expand_path path tree context) as [values|] eqn:Ee; [|done]. intros Hd. exists values. rewrite Hp.
  assert ((rule.(cr_action) = Forbidden → constraints.(ef_action) = Forbidden) ∧ (rule.(cr_action) = Required → constraints.(ef_action) = Required)) as [Hf Hr].
  { pose proof Em as Em'. unfold merge_rules in Em'. destruct (merge_loop merging_start rules) as [s|] eqn:Es; simpl in Em'; [|done].
    destruct (merge_loop_stricter rules merging_start s Hscalar ltac:(done) Es) as [Hst _].
    destruct (Hst rule Hin) as ((a & Ha & Hf & Hr) & _). destruct (_ || _); [done|]. injection Em' as <-. simpl. by rewrite Ha. }
  destruct (is_empty values) eqn:Ev.
  - apply is_empty_spec in Ev as ->. split_and!; [done| |done|by intros value ?%elem_of_nil]. intros _ -> Hact. simpl in Hd.
    by rewrite bool_decide_eq_true_2 in Hd by by apply Hr.
  - case_bool_decide as Eforb; [done|]. split_and!; [done|by intros ->|naive_solver|]. intros value Hv.
    eapply value_sound; [exact Hscalar|exact Em|done|]. by eapply values_diagnostics_nil.
Qed.

Lemma active_rules_spec rules active tree context :
  active_rules rules tree context = Ok active →
  ∀ rule, rule ∈ active ↔ rule ∈ rules ∧ condition_matches rule.(cr_when) tree context = Ok true.
Proof.
  revert active. induction rules as [|r rules IH]; intros active; simpl.
  - intros [= <-] rule. rewrite elem_of_nil. naive_solver.
  - destruct (condition_matches _ _ _) as [[]|] eqn:Ec; [| |done]; destruct (active_rules _ _ _) as [rest|]; try done; intros [= <-] rule;
      rewrite ?elem_of_cons, (IH rest eq_refl); naive_solver congruence.
Qed.

Lemma group_by_path_spec (rules : list (CapabilityRule Num F)) path :
  group_by_path rules !! path = let group := filter (λ rule, rule.(cr_path) = path) rules in if is_empty group then None else Some group.
Proof.
  unfold group_by_path. induction rules as [|rule rules IH] using rev_ind; [done|]. rewrite foldl_app. simpl in *. rewrite filter_app.
  destruct (decide (path = cr_path rule)) as [->|Hne].
  - rewrite lookup_insert_eq, IH, filter_cons_True by done. destruct (filter _ rules); simpl; done.
  - rewrite lookup_insert_ne by done. rewrite filter_cons_False by done. by rewrite app_nil_r.
Qed.

Lemma paths_diagnostics_nil groups tree context final_pass :
  paths_diagnostics groups tree context final_pass = Ok [] →
  ∀ path rules, (path, rules) ∈ groups → path_diagnostics path rules tree context final_pass = Ok [].
Proof.
  induction groups as [|[p g] groups IH]; simpl; [by intros _ path rules ?%elem_of_nil|].
  destruct (path_diagnostics _ _ _ _ _) as [found|] eqn:E; [|done]. destruct (paths_diagnostics _ _ _ _) as [rest|]; [|done].
  intros [= Hf]. apply app_eq_nil in Hf as [-> ->]. intros path rules [[= -> ->]|Hin]%elem_of_cons; [done|by apply IH].
Qed.

Lemma dedup_nil {A} `{EqDecision A} (l : list A) : dedup l = [] → l = [].
Proof. destruct l as [|x l]; simpl; [done|]. destruct (dedup l); [done|]. by case_bool_decide. Qed.

Lemma check_rules_scalar (rules : list (CapabilityRule Num F)) :
  check_rules rules = Ok tt → Forall (λ rule, forallb is_scalar rule.(cr_enum_values) = true) rules.
Proof.
  induction rules as [|rule rules IH]; simpl; [by constructor|]. destruct (check_rule rule) as [[]|] eqn:E; [|done]. intros Hc.
  constructor; [|by apply IH]. unfold check_rule in E. repeat (case_match; try done);
  match goal with Hn : negb _ = false |- _ => by apply negb_false_iff in Hn end.
Qed.

Lemma compile_Ok id model_id (rules : list (CapabilityRule Num F)) snapshot :
  compile id model_id rules = Ok snapshot →
  snapshot.(cs_rules) = sort_by (λ left right, key_cmp left.(cr_id) right.(cr_id)) rules ∧ check_rules rules = Ok tt ∧
  validate_unconditional_intersections snapshot.(cs_rules) = true ∧ snapshot.(cs_id) = id ∧ snapshot.(cs_model_id) = model_id.
Proof.
  unfold compile. destruct (_ || _); [done|]. destruct (check_rules rules) as [[]|]; [|done].
  destruct (validate_unconditional_intersections _) eqn:Ev; [|done]. intros [= <-]. done.
Qed.

(** Without a diagnostic, an active rule is satisfied. *)
Lemma validate_sound id model_id (rules : list (CapabilityRule Num F)) snapshot tree context final_pass rule :
  compile id model_id rules = Ok snapshot → validate snapshot tree context final_pass = Ok [] →
  rule ∈ rules → condition_matches rule.(cr_when) tree context = Ok true →
  rule_satisfied rule tree context final_pass.
Proof.
  intros Hc Hv Hin Hmatch. destruct (compile_Ok _ _ _ _ Hc) as (Hrules & Hcheck & _ & _ & _). unfold validate in Hv.
  destruct (active_rules _ _ _) as [active|] eqn:Ea; [|done]. pose proof (active_rules_spec _ _ _ _ Ea) as Hact. rewrite Hrules in Hact.
  destruct (paths_diagnostics _ _ _ _) as [diagnostics|] eqn:Ed; [|done]. injection Hv as Hd.
  apply dedup_nil in Hd. assert (diagnostics = []) as ->.
  { apply Permutation_nil_r. rewrite <- Hd. symmetry. apply sort_by_perm. }
  set (group := filter (λ r : CapabilityRule Num F, r.(cr_path) = rule.(cr_path)) active).
  assert (rule ∈ group) as Hg. { apply list_elem_of_filter. split; [done|]. apply Hact. by rewrite sort_by_perm. }
  assert (group_by_path active !! rule.(cr_path) = Some group) as Hl.
  { rewrite group_by_path_spec. fold group. cbn zeta. destruct group; [by apply elem_of_nil in Hg|done]. }
  eapply path_sound; [| |exact Hg|].
  - apply Forall_forall. intros r [_ Hr]%list_elem_of_filter. apply Hact in Hr as [Hr _]. rewrite sort_by_perm in Hr.
    pose proof (proj1 (Forall_forall _ _) (check_rules_scalar _ Hcheck) r Hr) as Hs. exact Hs.
  - apply Forall_forall. by intros r [Hr _]%list_elem_of_filter.
  - eapply paths_diagnostics_nil; [exact Ed|]. by apply elem_of_btree_iter.
Qed.

End soundness.

(** ** Theorems *)

(** a request without a diagnostic satisfies every active rule. Of a compiled capability, whatever the
    rules that share a path are merged into, when [validate] reports nothing then each published rule
    whose condition holds is satisfied on its own by every value at its path: the type,
    the enumeration, the range, the exclusive maximum and the required children, and the path is present when
    it is required, in the final pass, and absent when it is forbidden. *)
Theorem capability_sound {Num F} `{SerdeJson Num F} id model_id (rules : list (CapabilityRule Num F)) snapshot tree context final_pass rule :
  compile id model_id rules = Ok snapshot → validate snapshot tree context final_pass = Ok [] →
  rule ∈ rules → condition_matches rule.(cr_when) tree context = Ok true →
  rule_satisfied rule tree context final_pass.
Proof. apply validate_sound. Qed.

(** The size and the depth of a condition, and what its leaves must be. *)
Fixpoint condition_size {Num} (condition : CapabilityCondition Num) : nat :=
  match condition with
  | CondAll conditions | CondAny conditions => S (sum_list (condition_size <$> conditions))
  | CondNot condition => S (condition_size condition)
  | _ => 1
  end.

Fixpoint condition_depth {Num} (condition : CapabilityCondition Num) : nat :=
  match condition with
  | CondAll conditions | CondAny conditions => S (max_list (condition_depth <$> conditions))
  | CondNot condition => S (condition_depth condition)
  | _ => 1
  end.

Inductive well_formed_condition {Num} : CapabilityCondition Num → Prop :=
  | wfc_always : well_formed_condition Always
  | wfc_all conditions : (length conditions <= MAX_DIRECT_CHILDREN)%nat → well_formed_conditions conditions → well_formed_condition (CondAll conditions)
  | wfc_any conditions : (length conditions <= MAX_DIRECT_CHILDREN)%nat → well_formed_conditions conditions → well_formed_condition (CondAny conditions)
  | wfc_not condition : well_formed_condition condition → well_formed_condition (CondNot condition)
  | wfc_present path mode : validate_path path = Ok tt → well_formed_condition (Present path mode)
  | wfc_equals path value mode : validate_path path = Ok tt → is_scalar value = true → well_formed_condition (Equals path value mode)
  | wfc_in path values mode : validate_path path = Ok tt → forallb is_scalar values = true → well_formed_condition (CondIn path values mode)
with well_formed_conditions {Num} : list (CapabilityCondition Num) → Prop :=
  | wfc_nil : well_formed_conditions []
  | wfc_cons condition conditions : well_formed_condition condition → well_formed_conditions conditions →
      well_formed_conditions (condition :: conditions).

Lemma condition_ind' {Num} (P : CapabilityCondition Num → Prop) :
  P Always → (∀ l, Forall P l → P (CondAll l)) → (∀ l, Forall P l → P (CondAny l)) → (∀ c, P c → P (CondNot c)) →
  (∀ path mode, P (Present path mode)) → (∀ path value mode, P (Equals path value mode)) →
  (∀ path values mode, P (CondIn path values mode)) → ∀ c, P c.
Proof.
  intros H1 Hall Hany Hnot H2 H3 H4. fix go 1. intros [|l|l|c|path mode|path value mode|path values mode];
    [apply H1|apply Hall|apply Hany|apply Hnot, go|apply H2|apply H3|apply H4]; (induction l as [|c l IH]; constructor; [apply go|exact IH]).
Qed.

Lemma condition_size_pos {Num} (c : CapabilityCondition Num) : (1 <= condition_size c)%nat ∧ (1 <= condition_depth c)%nat.
Proof. destruct c; simpl; lia. Qed.

(** One condition within the bounds that are left, and the children of one node. *)
Definition walk_exact {Num} (c : CapabilityCondition Num) : Prop := ∀ depth nodes n,
  walk c depth nodes = Ok n ↔
    n = (nodes + condition_size c)%nat ∧ (n <= MAX_CONDITION_NODES)%nat ∧ (depth + condition_depth c <= S MAX_CONDITION_DEPTH)%nat ∧
    well_formed_condition c.

Lemma walk_children_exact {Num} (l : list (CapabilityCondition Num)) depth nodes n :
  Forall walk_exact l →
  (fix walk_children conditions nodes :=
     match conditions with
     | [] => Ok nodes
     | child :: conditions =>
         match walk child (S depth) nodes with
         | Err e => Err e
         | Ok nodes => walk_children conditions nodes
         end
     end) l nodes = Ok n ↔
  n = (nodes + sum_list (condition_size <$> l))%nat ∧ (l = [] ∨ n <= MAX_CONDITION_NODES)%nat ∧
    (l = [] ∨ S depth + max_list (condition_depth <$> l) <= S MAX_CONDITION_DEPTH)%nat ∧ well_formed_conditions l.
Proof.
  intros Hl. revert nodes. induction Hl as [|c l Hc Hl IH]; intros nodes; simpl.
  - rewrite Nat.add_0_r. split; [intros [= <-]; split_and!; auto; constructor|by intros (-> & _)].
  - change (list_fmap _ nat condition_size l) with (condition_size <$> l). change (list_fmap _ nat condition_depth l) with (condition_depth <$> l).
    pose proof (condition_size_pos c) as [Hs Hd]. split.
    + destruct (walk c (S depth) nodes) as [m|] eqn:E; [|done]. apply Hc in E as (-> & Hm & Hdepth & Hwf). intros Hw.
      apply IH in Hw as (-> & Hn & Hdl & Hwl). split_and!; [lia| |right|by constructor].
      * right. destruct Hn as [->|Hn]; [simpl; lia|lia].
      * destruct Hdl as [->|Hdl]; [simpl; lia|lia].
    + intros (-> & [?|Hn] & [?|Hd'] & Hwf); try done. inversion Hwf as [|? ? Hwc Hwl]; subst.
      assert (walk c (S depth) nodes = Ok (nodes + condition_size c)%nat) as ->. { apply Hc. split_and!; [done|lia|lia|done]. }
      apply IH. split_and!; [lia|right; lia|right; lia|done].
Qed.

(** [walk] past its guard, on the count of the node itself. *)
Definition walk_node {Num} (condition : CapabilityCondition Num) (depth nodes : nat) : result CapabilityCompileError nat :=
  match condition with
  | Always => Ok nodes
  | CondAll conditions | CondAny conditions =>
      if (MAX_DIRECT_CHILDREN <? length conditions)%nat then Err ConditionLimit
      else
        (fix walk_children conditions nodes :=
           match conditions with
           | [] => Ok nodes
           | child :: conditions =>
               match walk child (S depth) nodes with
               | Err e => Err e
               | Ok nodes => walk_children conditions nodes
               end
           end) conditions nodes
  | CondNot condition => walk condition (S depth) nodes
  | Present path _ => match validate_path path with Err e => Err e | Ok _ => Ok nodes end
  | Equals path value _ =>
      match validate_path path with Err e => Err e | Ok _ => if is_scalar value then Ok nodes else Err CompileConflict end
  | CondIn path values _ =>
      match validate_path path with Err e => Err e | Ok _ => if forallb is_scalar values then Ok nodes else Err CompileConflict end
  end.

Lemma walk_guarded {Num} (c : CapabilityCondition Num) :
  (∀ depth nodes n, (depth <= MAX_CONDITION_DEPTH)%nat → (S nodes <= MAX_CONDITION_NODES)%nat →
    walk_node c depth (S nodes) = Ok n ↔
      n = (nodes + condition_size c)%nat ∧ (n <= MAX_CONDITION_NODES)%nat ∧ (depth + condition_depth c <= S MAX_CONDITION_DEPTH)%nat ∧
      well_formed_condition c) → walk_exact c.
Proof.
  intros Hnode depth nodes n. pose proof (condition_size_pos c) as [Hs Hd].
  assert (walk c depth nodes = if ((MAX_CONDITION_DEPTH <? depth) || (MAX_CONDITION_NODES <? S nodes))%nat then Err ConditionLimit
    else walk_node c depth (S nodes)) as -> by by destruct c.
  destruct (_ || _) eqn:G.
  - apply orb_true_iff in G as [G|G]; apply Nat.ltb_lt in G; (split; [done|]); intros (-> & Hn & Hdd & _); lia.
  - apply orb_false_iff in G as [G1 G2]. apply Nat.ltb_ge in G1, G2. by apply Hnode.
Qed.

Lemma walk_node_children {Num} (l : list (CapabilityCondition Num)) c depth nodes n :
  (c = CondAll l ∨ c = CondAny l) → (depth <= MAX_CONDITION_DEPTH)%nat → (S nodes <= MAX_CONDITION_NODES)%nat → Forall walk_exact l →
  walk_node c depth (S nodes) = Ok n ↔
    n = (nodes + condition_size c)%nat ∧ (n <= MAX_CONDITION_NODES)%nat ∧ (depth + condition_depth c <= S MAX_CONDITION_DEPTH)%nat ∧
    well_formed_condition c.
Proof.
  intros Hc Hdepth Hnodes Hl.
  assert (well_formed_condition c ↔ (length l <= MAX_DIRECT_CHILDREN)%nat ∧ well_formed_conditions l) as ->.
  { destruct Hc as [->| ->]; (split; [by inversion 1|intros []; by constructor]). }
  assert (condition_size c = S (sum_list (condition_size <$> l)) ∧ condition_depth c = S (max_list (condition_depth <$> l))) as [-> ->].
  { by destruct Hc as [->| ->]. }
  pose proof (walk_children_exact l depth (S nodes) n Hl) as Hwc.
  assert (walk_node c depth (S nodes) = if (MAX_DIRECT_CHILDREN <? length l)%nat then Err ConditionLimit else
    (fix walk_children conditions nodes :=
       match conditions with
       | [] => Ok nodes
       | child :: conditions =>
           match walk child (S depth) nodes with
           | Err e => Err e
           | Ok nodes => walk_children conditions nodes
           end
       end) l (S nodes)) as -> by by destruct Hc as [->| ->].
  destruct (MAX_DIRECT_CHILDREN <? length l)%nat eqn:El.
  - apply Nat.ltb_lt in El. split; [done|]. intros (_ & _ & _ & Hlen & _). lia.
  - apply Nat.ltb_ge in El. rewrite Hwc. split.
    + intros (-> & Hn & Hd & Hwf). destruct Hn as [->|Hn]; [simpl; split_and!; [lia|lia|lia|done|constructor]|].
      destruct Hd as [->|Hd]; [simpl in *; split_and!; [lia|lia|lia|done|constructor]|]. split_and!; [lia|lia|lia|done|done].
    + intros (-> & Hn & Hd & _ & Hwf). split_and!; [lia|right; lia|right; lia|done].
Qed.

(** the condition check is exact. A condition tree is accepted when it has at most a hundred and
    twenty-eight nodes, at most eight levels, at most thirty-two children per node, valid
    paths and scalar operands, and otherwise it is not. *)
Theorem condition_check_exact {Num} (condition : CapabilityCondition Num) :
  is_ok (validate_condition condition) = true ↔
    (condition_size condition <= MAX_CONDITION_NODES)%nat ∧ (condition_depth condition <= MAX_CONDITION_DEPTH)%nat ∧
    well_formed_condition condition.
Proof.
  assert (walk_exact condition) as Hw.
  { induction condition as [|l IH|l IH|c IH|path mode|path value mode|path values mode] using condition_ind';
      apply walk_guarded; intros depth nodes n Hdepth Hnodes; cbn [walk_node condition_size condition_depth].
    - split; [intros [= <-]; split_and!; [lia|lia|lia|constructor]|intros (-> & _); f_equal; lia].
    - apply (walk_node_children l (CondAll l)); auto.
    - apply (walk_node_children l (CondAny l)); auto.
    - split.
      + intros (-> & Hn & Hd & Hwf)%IH. split_and!; [lia|lia|lia|by constructor].
      + intros (-> & Hn & Hd & Hwf). apply IH. inversion Hwf; subst. split_and!; [lia|lia|lia|done].
    - destruct (validate_path path) as [[]|] eqn:E; split; try done.
      + intros [= <-]. split_and!; [lia|lia|lia|by constructor].
      + intros (-> & _). f_equal. lia.
      + intros (_ & _ & _ & Hwf). inversion Hwf. congruence.
    - destruct (validate_path path) as [[]|] eqn:E; [destruct (is_scalar value) eqn:Es|]; split; try done.
      + intros [= <-]. split_and!; [lia|lia|lia|by constructor].
      + intros (-> & _). f_equal. lia.
      + intros (_ & _ & _ & Hwf). inversion Hwf. congruence.
      + intros (_ & _ & _ & Hwf). inversion Hwf. congruence.
    - destruct (validate_path path) as [[]|] eqn:E; [destruct (forallb is_scalar values) eqn:Es|]; split; try done.
      + intros [= <-]. split_and!; [lia|lia|lia|by constructor].
      + intros (-> & _). f_equal. lia.
      + intros (_ & _ & _ & Hwf). inversion Hwf. congruence.
      + intros (_ & _ & _ & Hwf). inversion Hwf. congruence. }
  unfold validate_condition. split.
  - destruct (walk condition 1 0) as [n|] eqn:E; [|done]. intros _. apply Hw in E as (-> & Hn & Hd & Hwf).
    unfold MAX_CONDITION_DEPTH in *. split_and!; [lia|lia|done].
  - intros (Hn & Hd & Hwf). assert (walk condition 1 0 = Ok (condition_size condition)) as ->; [|done].
    apply Hw. unfold MAX_CONDITION_DEPTH in *. split_and!; [lia|lia|lia|done].
Qed.

Section order.
Context {Num F : Type} `{SerdeJson Num F}.
Implicit Types (tree value : Value Num) (rules : list (CapabilityRule Num F)).

Lemma check_rules_ok rules : check_rules rules = Ok tt ↔ Forall (λ rule, check_rule rule = Ok tt) rules.
Proof.
  induction rules as [|rule rules IH]; simpl; [by split; [constructor|]|]. rewrite Forall_cons, <- IH.
  destruct (check_rule rule) as [[]|]; naive_solver.
Qed.

(** Rules with distinct identifiers are sorted in one way. *)
Lemma sort_rules_unique rules rules' :
  NoDup (cr_id <$> rules) → rules ≡ₚ rules' →
  sort_by (λ left right, key_cmp left.(cr_id) right.(cr_id)) rules = sort_by (λ left right, key_cmp left.(cr_id) right.(cr_id)) rules'.
Proof.
  intros Hnd Hp. set (cmp := λ left right : CapabilityRule Num F, _).
  assert (cmp_ok cmp (λ _, True)) as Hok by exact (cmp_ok_pull cr_id key_cmp (λ _, True) (λ _, True) (λ _ _, I) (key_cmp_ok _)).
  apply (StronglySorted_unique_strong (λ x y, cmp x y ≠ Gt)).
  - intros x y. rewrite !sort_by_perm, <- Hp. intros Hx Hy Hxy Hyx.
    assert (cr_id x = cr_id y) as E.
    { unfold cmp, key_cmp in Hxy, Hyx. destruct (decide (cr_id x = cr_id y)) as [|Hne]; [done|]. rewrite decide_False in Hyx by congruence.
      destruct (decide (key_le (cr_id x) (cr_id y))); [|done]. destruct (decide (key_le (cr_id y) (cr_id x))); [|done].
      by apply (anti_symm key_le). }
    apply list_elem_of_lookup in Hx as [i Hi], Hy as [j Hj]. assert (i = j) as ->; [|congruence].
    eapply NoDup_lookup; [exact Hnd| |]; rewrite list_lookup_fmap; [by rewrite Hi|by rewrite Hj, E].
  - apply (sort_by_sorted _ (λ _, True)); [done|by apply Forall_true].
  - apply (sort_by_sorted _ (λ _, True)); [done|by apply Forall_true].
  - by rewrite !sort_by_perm.
Qed.

Lemma expand_segment_bound segment (values next found : list (Value Num)) :
  (length next <= MAX_PATH_EXPANSIONS)%nat → expand_segment segment values next = Ok found → (length found <= MAX_PATH_EXPANSIONS)%nat.
Proof.
  revert next. induction values as [|v values IH]; intros next Hn; cbn [expand_segment]; [by intros [= <-]|]. cbn zeta.
  destruct (_ <? _)%nat eqn:E; [done|]. apply Nat.ltb_ge in E. by apply IH.
Qed.

Lemma expand_path_bound path tree (context : EvaluationContext Num) found :
  expand_path path tree context = Ok found → (length found <= MAX_PATH_EXPANSIONS)%nat.
Proof.
  assert (∀ o : option (Value Num), (length (option_list o) <= MAX_PATH_EXPANSIONS)%nat) as Ho by (intros []; unfold MAX_PATH_EXPANSIONS; simpl; lia).
  unfold expand_path. destruct (strip_prefix (bs "body:") path) as [pointer|].
  - assert (length [tree] <= MAX_PATH_EXPANSIONS)%nat as H1 by (unfold MAX_PATH_EXPANSIONS; simpl; lia). revert H1.
    generalize [tree] as values. induction (tail (split "/" pointer)) as [|segment segments IH]; intros values Hv; cbn [expand_segments]; [by intros [= <-]|].
    destruct (expand_segment _ _ _) as [next|] eqn:E; [|done]. apply IH. apply expand_segment_bound in E; [done|]. simpl. lia.
  - destruct (strip_prefix _ _); [intros [= <-]; apply Ho|]. destruct (strip_prefix _ _); intros [= <-]; [apply Ho|]. simpl. lia.
Qed.

End order.

(** a capability does not depend on the order of its rules. When the identifiers of the rules are
    distinct, any order of them compiles to the same snapshot. *)
Theorem capability_order_irrelevant {Num F} `{SerdeJson Num F} id model_id (rules rules' : list (CapabilityRule Num F)) snapshot :
  NoDup (cr_id <$> rules) → rules ≡ₚ rules' → compile id model_id rules = Ok snapshot → compile id model_id rules' = Ok snapshot.
Proof.
  intros Hnd Hp. unfold compile. rewrite (sort_rules_unique rules rules' Hnd Hp). destruct (is_empty id || is_empty model_id); [done|].
  assert (existsb (λ rule, is_empty (cr_id rule)) rules' = existsb (λ rule, is_empty (cr_id rule)) rules) as ->.
  { apply eq_iff_eq_true. rewrite !existsb_exists. setoid_rewrite <- list_elem_of_In. by setoid_rewrite Hp. }
  destruct (_ || _); [done|]. destruct (check_rules rules) as [[]|] eqn:Ec; [|done].
  assert (check_rules rules' = Ok tt) as ->; [|done]. apply check_rules_ok. rewrite <- Hp. by apply check_rules_ok.
Qed.

(** ** Samples *)
Definition sample_rule (id path : string) (action : CapabilityAction) (types : gset JsonType) (minimum maximum : option Z) : CapabilityRule Z Z :=
  {| cr_id := bs id; cr_path := bs path; cr_action := action; cr_types := types; cr_enum_values := []; cr_minimum := minimum;
     cr_maximum := maximum; cr_exclusive_maximum_path := None; cr_required_children := ∅; cr_when := Always |}.

Definition sample_rules : list (CapabilityRule Z Z) :=
  [sample_rule "b" "body:/max_tokens" Required {[TypeInteger]} (Some 1%Z) None;
   sample_rule "a" "body:/max_tokens" Allowed ∅ None (Some 4096%Z)].

Definition sample_request (max_tokens : Z) : Value Z := JObject [(bs "model", JString (bs "m")); (bs "max_tokens", JNumber max_tokens)].

Definition sample_context : EvaluationContext Z := {| ec_headers := ∅; ec_request := ∅ |}.

Definition sample_snapshot : CompiledCapabilitySnapshot (Num := Z) (F := Z) :=
  {| cs_id := bs "c"; cs_model_id := bs "m"; cs_rules := rev sample_rules |}.

Lemma capability_sound_witness :
  let json := sample_serde [] (λ _, None) in
  compile (bs "c") (bs "m") sample_rules = Ok sample_snapshot ∧ validate sample_snapshot (sample_request 100) sample_context true = Ok [] ∧
  validate sample_snapshot (sample_request 5000) sample_context true = Ok [diagnostic (bs "body:/max_tokens") "out_of_range"] ∧
  ∀ rule, rule ∈ sample_rules → rule_satisfied rule (sample_request 100) sample_context true.
Proof.
  intros json. assert (compile (bs "c") (bs "m") sample_rules = Ok sample_snapshot) as Hc by by vm_compute.
  assert (validate sample_snapshot (sample_request 100) sample_context true = Ok []) as Hv by by vm_compute.
  split_and!; [done|done|by vm_compute|]. intros rule Hr.
  apply (capability_sound (bs "c") (bs "m") sample_rules sample_snapshot); [done|done|done|].
  unfold sample_rules in Hr. rewrite !elem_of_cons in Hr. destruct Hr as [->|[->|[]%elem_of_nil]]; reflexivity.
Defined.

Lemma capability_order_irrelevant_witness :
  let json := sample_serde [] (λ _, None) in
  compile (bs "c") (bs "m") (rev sample_rules) = Ok sample_snapshot.
Proof.
  intros json. apply (capability_order_irrelevant (bs "c") (bs "m") sample_rules); [by_decide|apply Permutation_swap|by vm_compute].
Defined.
