(* ===== verification/Policy.v ===== *)
(** The request policy: the compilation of rule sets, the adjustment of a request and
    the Group enforcement, [crates/gateway-policy/src/engine.rs].

    The functions that change a value in place return it. [serde_json] and SHA-256 are parameters. *)

From Stdlib Require Import Ascii.
From S2P Require Import Prelude Machine.
From S2P Require Import Bytes.
From S2P Require Import Domain.
From S2P Require Import Json.
From S2P Require Import RequestParser.
From S2P Require Import SystemSegments.
From S2P Require Import SystemBilling.
From S2P Require Import SystemRewrite.
From S2P Require Import Capability.

(** ** Data *)
Inductive ClientClass := ClaudeCodeCli | NonClaudeCodeCli.

Inductive ChangeRisk := LowRisk | MediumRisk | HighRisk.

Record AppliedChange := {
  ac_rule_id : bytes;
  ac_path : bytes;
  ac_before_digest : Digest;
  ac_after_digest : Digest;
  ac_reason : bytes;
  ac_risk : ChangeRisk;
}.

Inductive SchemaMode := Compatible | Strict.

Inductive SystemPolicy (Num : Type) :=
  | Preserve
  | StripClient
  | Replace (platform_system_ref : bytes) (content : Value Num)
  | StripAll.
Arguments Preserve {Num}.
Arguments StripClient {Num}.
Arguments Replace {Num}.
Arguments StripAll {Num}.

(** In the order of the derived [Ord]. *)
Inductive RulePhase := StructureRepair | DefaultPhase | RangePhase | SystemPhase | ToolsPhase | ThinkingCache | BetaMetadata.

Definition phase_index (phase : RulePhase) : nat :=
  match phase with
  | StructureRepair => 0 | DefaultPhase => 1 | RangePhase => 2 | SystemPhase => 3 | ToolsPhase => 4 | ThinkingCache => 5 | BetaMetadata => 6
  end.

Inductive RuleAction (Num F : Type) :=
  | SetDefault (path : bytes) (value : Value Num)
  | SetValue (path : bytes) (value : Value Num)
  | RemoveValue (path : bytes)
  | ClampNumber (path : bytes) (minimum maximum : option F).
Arguments SetDefault {Num F}.
Arguments SetValue {Num F}.
Arguments RemoveValue {Num F}.
Arguments ClampNumber {Num F}.

Definition action_path {Num F} (self : RuleAction Num F) : bytes :=
  match self with SetDefault path _ | SetValue path _ | RemoveValue path | ClampNumber path _ _ => path end.

Record RuleDefinition (Num F : Type) := {
  rd_id : bytes;
  rd_phase : RulePhase;
  rd_action : RuleAction Num F;
  rd_when : CapabilityCondition Num;
  rd_reason : bytes;
  rd_risk : ChangeRisk;
}.
Arguments Build_RuleDefinition {Num F}.
Arguments rd_id {Num F}.
Arguments rd_phase {Num F}.
Arguments rd_action {Num F}.
Arguments rd_when {Num F}.
Arguments rd_reason {Num F}.
Arguments rd_risk {Num F}.

Record CompiledRuleSet (Num F : Type) := {
  rs_id : bytes;
  rs_rules : list (RuleDefinition Num F);
}.
Arguments Build_CompiledRuleSet {Num F}.
Arguments rs_id {Num F}.
Arguments rs_rules {Num F}.

Record PolicyContext (Num : Type) := {
  pc_client_class : ClientClass;
  pc_client_os : ClientOs;
  pc_protocol_headers : gmap bytes (Value Num);
  pc_affinity_credential : option CredentialId;
}.
Arguments Build_PolicyContext {Num}.
Arguments pc_client_class {Num}.
Arguments pc_client_os {Num}.
Arguments pc_protocol_headers {Num}.
Arguments pc_affinity_credential {Num}.

Inductive PolicyError :=
  | PolicyParse (e : ParseError)
  | InvalidStructure
  | ModelUnavailable
  | PolicyCapability (diagnostics : list CapabilityDiagnostic)
  | CapabilityPathExpansionLimit
  | CapabilityRuntimeConflict
  | Serializer.

(** The replay body, the request the scheduler sees and the record of its changes. *)
Record RequestReplayBody (Num : Type) := {
  rb_bytes : bytes;
  rb_tree : Value Num;
  rb_reused_original : bool;
}.
Arguments Build_RequestReplayBody {Num}.
Arguments rb_bytes {Num}.
Arguments rb_tree {Num}.
Arguments rb_reused_original {Num}.

Record AdjustedRequest (Num : Type) := {
  aq_generic : GenericAdjustedRequest;
  aq_replay_body : RequestReplayBody Num;
  aq_change_set : list AppliedChange;
}.
Arguments Build_AdjustedRequest {Num}.
Arguments aq_generic {Num}.
Arguments aq_replay_body {Num}.
Arguments aq_change_set {Num}.

Definition client_os_as_str (os : ClientOs) : bytes :=
  match os with Windows => bs "windows" | MacOs => bs "macos" | Linux => bs "linux" end.

Section policy.
Context {Num F : Type} `{SerdeJson Num F} (sha256 : bytes → bytes).
Implicit Types (tree value : Value Num) (context : EvaluationContext Num) (rule : RuleDefinition Num F).

(** [Digest::of]. *)
Definition digest (l : bytes) : Digest := String.string_of_list_ascii (digest_of sha256 l).

(** ** Rule sets *)
Definition validate_mutation_path (path : bytes) : result CapabilityCompileError unit :=
  match strip_prefix (bs "body:") path with
  | None => Err InvalidPath
  | Some pointer =>
      if negb (starts_with (bs "/") pointer) || bool_decide ("*"%char ∈ pointer) || bool_decide (pointer = bs "/model")
         || starts_with (bs "/model/") pointer || bool_decide (pointer = bs "/messages") || starts_with (bs "/messages/") pointer
      then Err InvalidPath else Ok tt
  end.

Definition check_definition rule : result CapabilityCompileError unit :=
  match validate_mutation_path (action_path rule.(rd_action)) with
  | Err e => Err e
  | Ok _ =>
      match validate_condition rule.(rd_when) with
      | Err e => Err e
      | Ok _ =>
          match rule.(rd_action) with
          | ClampNumber _ minimum maximum => if empty_range minimum maximum then Err EmptyRange else Ok tt
          | _ => Ok tt
          end
      end
  end.

Fixpoint check_definitions (rules : list (RuleDefinition Num F)) : result CapabilityCompileError unit :=
  match rules with
  | [] => Ok tt
  | rule :: rules => match check_definition rule with Err e => Err e | Ok _ => check_definitions rules end
  end.

(** The phase, the layer, the identifier. *)
Definition layered_cmp (left right : nat * RuleDefinition Num F) : comparison :=
  then_with (phase_index left.2.(rd_phase) ?= phase_index right.2.(rd_phase))%nat
    (then_with (left.1 ?= right.1)%nat (key_cmp left.2.(rd_id) right.2.(rd_id))).

Definition layered (layers : list (list (RuleDefinition Num F))) : list (nat * RuleDefinition Num F) :=
  concat (imap (λ layer, fmap (pair layer)) layers).

Definition compile_layers (id : bytes) (layers : list (list (RuleDefinition Num F))) : result CapabilityCompileError (CompiledRuleSet Num F) :=
  if is_empty id || existsb (λ rule, is_empty rule.(rd_id) || is_empty rule.(rd_reason)) (concat layers) then Err EmptyIdentifier
  else
    match check_definitions (layered layers).*2 with
    | Err e => Err e
    | Ok _ => Ok {| rs_id := id; rs_rules := (sort_by layered_cmp (layered layers)).*2 |}
    end.

Definition compile_rules (id : bytes) (rules : list (RuleDefinition Num F)) : result CapabilityCompileError (CompiledRuleSet Num F) :=
  compile_layers id [rules].

(** ** Mutations *)
Definition split_pointer (p : bytes) : result PolicyError (bytes * bytes) :=
  match rsplit_once "/" p with
  | None => Err InvalidStructure
  | Some (parent, leaf) =>
      let leaf := unescape leaf in
      if is_empty leaf then Err InvalidStructure else Ok (parent, leaf)
  end.

(** What happens at the place of a parent, [None] being a parent that is missing. *)
Definition update_parent (parent : bytes) (f : Value Num → result PolicyError (Value Num)) tree : result (option PolicyError) (Value Num) :=
  let f value := match f value with Ok value => Ok value | Err e => Err (Some e) end in
  if is_empty parent then f tree
  else
    match pointer_tokens parent with
    | None => Err None
    | Some tokens => walk_update tokens None f tree
    end.

Definition set_leaf (leaf : bytes) value (parent : Value Num) : result PolicyError (Value Num) :=
  match parent with
  | JObject object => Ok (JObject (map_insert leaf value object))
  | JArray array =>
      match from_str_radix 10 USIZE_MAX leaf with
      | None => Err InvalidStructure
      | Some index => if (index <? N.of_nat (length array))%N then Ok (JArray (<[N.to_nat index := value]> array)) else Err InvalidStructure
      end
  | _ => Err InvalidStructure
  end.

Definition remove_leaf (leaf : bytes) (parent : Value Num) : result PolicyError (Value Num) :=
  match parent with
  | JObject object => Ok (JObject (map_remove leaf object))
  | JArray array =>
      match from_str_radix 10 USIZE_MAX leaf with
      | None => Err InvalidStructure
      | Some index => Ok (JArray (if (index <? N.of_nat (length array))%N then delete (N.to_nat index) array else array))
      end
  | _ => Err InvalidStructure
  end.

Definition set_pointer (p : bytes) value tree : result PolicyError (Value Num) :=
  match split_pointer p with
  | Err e => Err e
  | Ok (parent, leaf) =>
      match update_parent parent (set_leaf leaf value) tree with
      | Ok tree => Ok tree
      | Err None => Err InvalidStructure
      | Err (Some e) => Err e
      end
  end.

Definition remove_pointer (p : bytes) tree : result PolicyError (Value Num) :=
  match split_pointer p with
  | Err e => Err e
  | Ok (parent, leaf) =>
      match update_parent parent (remove_leaf leaf) tree with
      | Ok tree => Ok tree
      | Err None => Ok tree
      | Err (Some e) => Err e
      end
  end.

Definition value_digest (value : option (Value Num)) : Digest :=
  match value with
  | None => digest (bs "gateway:missing")
  | Some value => match to_vec value with None => digest (bs "gateway:serializer-error") | Some l => digest l end
  end.

Definition change (rule_id path : bytes) (before after : option (Value Num)) (reason : bytes) (risk : ChangeRisk) : AppliedChange :=
  {| ac_rule_id := rule_id; ac_path := path; ac_before_digest := value_digest before; ac_after_digest := value_digest after;
     ac_reason := reason; ac_risk := risk |}.

Definition map_runtime_error (e : RuntimeCapabilityError) : PolicyError :=
  match e with PathExpansionLimit => CapabilityPathExpansionLimit | RuntimeConflict => CapabilityRuntimeConflict end.

(** [number.max(minimum).min(maximum)] with the bounds there are. *)
Definition clamp (number : F) (minimum maximum : option F) : F :=
  let bounded := match minimum with Some minimum => f64_max number minimum | None => number end in
  match maximum with Some maximum => f64_min bounded maximum | None => bounded end.

Definition apply_action (action : RuleAction Num F) (p : bytes) (before : option (Value Num)) tree : result PolicyError (Value Num) :=
  match action with
  | SetDefault _ value => if is_some before then Ok tree else set_pointer p value tree
  | SetValue _ value => set_pointer p value tree
  | RemoveValue _ => remove_pointer p tree
  | ClampNumber _ minimum maximum =>
      match before ≫= value_as_f64 with
      | None => Ok tree
      | Some number =>
          let bounded := clamp number minimum maximum in
          if f64_same bounded number then Ok tree else set_pointer p (value_of_f64 bounded) tree
      end
  end.

(** The turn of the loop on one rule. *)
Definition apply_rule rule (evaluation : EvaluationContext Num) tree : result PolicyError (Value Num * list AppliedChange) :=
  match condition_matches rule.(rd_when) tree evaluation with
  | Err e => Err (map_runtime_error e)
  | Ok false => Ok (tree, [])
  | Ok true =>
      match strip_prefix (bs "body:") (action_path rule.(rd_action)) with
      | None => Err CapabilityRuntimeConflict
      | Some p =>
          let before := pointer p tree in
          match apply_action rule.(rd_action) p before tree with
          | Err e => Err e
          | Ok tree =>
              let after := pointer p tree in
              Ok (tree, if option_value_eqb before after then []
                        else [change rule.(rd_id) p before after rule.(rd_reason) rule.(rd_risk)])
          end
      end
  end.

Fixpoint apply_rules (rules : list (RuleDefinition Num F)) (evaluation : EvaluationContext Num) tree (changes : list AppliedChange)
    : result PolicyError (Value Num * list AppliedChange) :=
  match rules with
  | [] => Ok (tree, changes)
  | rule :: rules =>
      match apply_rule rule evaluation tree with
      | Err e => Err e
      | Ok (tree, new) => apply_rules rules evaluation tree (changes ++ new)
      end
  end.

(** ** Enforcement *)
Record EnforcementOutcome := {
  eo_attribution_suppressed : bool;
  eo_system_template_pending : bool;
}.

Definition outcome_default : EnforcementOutcome := {| eo_attribution_suppressed := false; eo_system_template_pending := false |}.

(** What the policy makes of the current system value: [None] when it leaves it alone. *)
Definition enforced_system (policy : SystemPolicy Num) (current : option (Value Num))
    : EnforcementOutcome * option (option (Value Num) * string) :=
  match policy with
  | Preserve => (outcome_default, None)
  | StripClient => (outcome_default, Some (current ≫= strip_client_system, "system_strip_client"%string))
  | Replace _ content =>
      if is_empty_replacement content then ({| eo_attribution_suppressed := false; eo_system_template_pending := true |}, None)
      else (outcome_default, Some (Some (replace_system_static (default JNull current) content).2, "system_replace"%string))
  | StripAll => ({| eo_attribution_suppressed := true; eo_system_template_pending := false |}, Some (None, "system_strip_all"%string))
  end.

Definition is_string_or_array value : bool := match value with JString _ | JArray _ => true | _ => false end.

Definition apply_enforcement (policy : SystemPolicy Num) tree (changes : list AppliedChange)
    : result PolicyError (EnforcementOutcome * Value Num * list AppliedChange) :=
  let current := get (bs "system") tree in
  if is_some_and (λ value, negb (is_string_or_array value)) current then Err InvalidStructure
  else
    match enforced_system policy current with
    | (outcome, None) => Ok (outcome, tree, changes)
    | (outcome, Some (next, reason)) =>
        match (match next with Some value => set_pointer (bs "/system") value tree | None => remove_pointer (bs "/system") tree end) with
        | Err e => Err e
        | Ok tree =>
            let after := get (bs "system") tree in
            Ok (outcome, tree,
                if option_value_eqb current after then changes
                else changes ++ [change (bs "group_enforcement.system") (bs "/system") current after (bs reason) HighRisk])
        end
    end.

(** [canonicalize_system_order]: the entries again, the system before the messages. *)
Definition reorder_entry (system : option (Value Num)) (reordered : list (bytes * Value Num)) (entry : bytes * Value Num)
    : list (bytes * Value Num) :=
  let reordered :=
    if bool_decide (entry.1 = bs "messages") then
      match system with Some system => map_insert (bs "system") system reordered | None => reordered end
    else reordered in
  if bool_decide (entry.1 = bs "system") then reordered else map_insert entry.1 entry.2 reordered.

Definition canonicalize_system_order tree : Value Num :=
  match tree with
  | JObject object =>
      if negb (contains_key (bs "system") object) || negb (contains_key (bs "messages") object) then tree
      else JObject (foldl (reorder_entry (map_get (bs "system") object)) [] object)
  | _ => tree
  end.

(** ** Portability *)
Definition pin_reasons_of_key (key : bytes) : list PinReason :=
  if bool_decide (key = bs "continuation") || bool_decide (key = bs "continuation_token") then [Continuation]
  else if bool_decide (key = bs "file_id") || bool_decide (key = bs "container_id") || bool_decide (key = bs "batch_id")
  then [AccountResource]
  else if bool_decide (key = bs "credential_extension") then [CredentialExtension]
  else [].

Fixpoint scan_pin_reasons value : list PinReason :=
  match value with
  | JObject object => concat (map (λ '(key, value), pin_reasons_of_key key ++ scan_pin_reasons value) object)
  | JArray values => concat (map scan_pin_reasons values)
  | _ => []
  end.

(** The set of the reasons, in the order of [PinReason]. *)
Definition reason_set (found : list PinReason) : list PinReason :=
  filter (λ reason, reason ∈ found) [Continuation; AccountResource; CredentialExtension; Domain.UnknownExtension].

Definition classify_portability (parsed : ParsedRequest (Num := Num)) tree (affinity_credential : option CredentialId) : Portability :=
  let unknown :=
    if is_empty parsed.(pq_unknown_top_level) && is_empty parsed.(pq_unknown_content_blocks) then [] else [Domain.UnknownExtension] in
  let reasons := reason_set (unknown ++ scan_pin_reasons tree) in
  if is_empty reasons then Portable else Pinned affinity_credential reasons.

(** ** Processing *)
Definition evaluation_context (self : PolicyContext Num) (model : bytes) (stream : bool) : EvaluationContext Num :=
  {| ec_headers := self.(pc_protocol_headers);
     ec_request :=
       <[bs "stream" := JBool stream]> (<[bs "client_os" := JString (client_os_as_str self.(pc_client_os))]>
       (<[bs "model" := JString model]> (<[bs "client_class" := JString
         (match self.(pc_client_class) with ClaudeCodeCli => bs "claude_code_cli" | NonClaudeCodeCli => bs "non_claude_code_cli" end)]> ∅))) |}.

Record RequestPolicy := {
  rp_schema_mode : SchemaMode;
  rp_capabilities : gmap bytes (CompiledCapabilitySnapshot (Num := Num) (F := F));
  rp_enforcement : SystemPolicy Num;
  rp_ruleset : option (CompiledRuleSet Num F);
  rp_snapshots : RequestSnapshotSet;
}.

(** The model that is not empty, and the mode of the response. *)
Definition base_model (object : list (bytes * Value Num)) : option bytes :=
  match map_get (bs "model") object ≫= as_str with
  | Some model => if is_empty model then None else Some model
  | None => None
  end.

Definition base_stream (object : list (bytes * Value Num)) : option bool :=
  match map_get (bs "stream") object with
  | None => Some false
  | Some (JBool value) => Some value
  | Some _ => None
  end.

Definition validate_base_structure tree (require_max_tokens : bool) : result PolicyError (bytes * bool) :=
  match as_object tree with
  | None => Err InvalidStructure
  | Some object =>
      match base_model object with
      | None => Err InvalidStructure
      | Some model =>
          if negb (is_some (map_get (bs "messages") object ≫= as_array))
             || require_max_tokens && negb (is_some (map_get (bs "max_tokens") object))
             || is_some_and (λ value, negb (is_null value) && negb (is_some (value_as_u64 value))) (map_get (bs "max_tokens") object)
          then Err InvalidStructure
          else match base_stream object with None => Err InvalidStructure | Some stream => Ok (model, stream) end
      end
  end.

Definition filter_count_tokens_diagnostics (diagnostics : list CapabilityDiagnostic) (require_max_tokens : bool) : list CapabilityDiagnostic :=
  if require_max_tokens then diagnostics
  else filter (λ diagnostic, diagnostic.(cd_path) ≠ bs "body:/max_tokens") diagnostics.

(** A capability check whose diagnostics are an error. *)
Definition require_valid (capability : CompiledCapabilitySnapshot (Num := Num) (F := F)) tree evaluation (final_pass require_max_tokens : bool)
    : result PolicyError unit :=
  match validate capability tree evaluation final_pass with
  | Err e => Err (map_runtime_error e)
  | Ok diagnostics =>
      let diagnostics := filter_count_tokens_diagnostics diagnostics require_max_tokens in
      if is_empty diagnostics then Ok tt else Err (PolicyCapability diagnostics)
  end.

(** The adjustment between the two checks: the rules, the enforcement, the order of the keys. *)
Definition adjust (self : RequestPolicy) tree evaluation : result PolicyError (EnforcementOutcome * Value Num * list AppliedChange) :=
  match (match self.(rp_ruleset) with None => Ok (tree, []) | Some ruleset => apply_rules ruleset.(rs_rules) evaluation tree [] end) with
  | Err e => Err e
  | Ok (tree, changes) =>
      match apply_enforcement self.(rp_enforcement) tree changes with
      | Err e => Err e
      | Ok (outcome, tree, changes) => Ok (outcome, if is_empty changes then tree else canonicalize_system_order tree, changes)
      end
  end.

Definition process_with_options (self : RequestPolicy) (raw_body : bytes) (context : PolicyContext Num) (require_max_tokens : bool)
    : result PolicyError (AdjustedRequest Num) :=
  match parse_messages_request digest raw_body (match self.(rp_schema_mode) with Strict => true | Compatible => false end) with
  | Err e => Err (PolicyParse e)
  | Ok parsed =>
      match validate_base_structure parsed.(pq_tree) require_max_tokens with
      | Err e => Err e
      | Ok (model_id, stream) =>
          match catalog_get model_id self.(rp_capabilities) with
          | None => Err ModelUnavailable
          | Some capability =>
              let evaluation := evaluation_context context model_id stream in
              match require_valid capability parsed.(pq_tree) evaluation false require_max_tokens with
              | Err e => Err e
              | Ok _ =>
                  match adjust self parsed.(pq_tree) evaluation with
                  | Err e => Err e
                  | Ok (outcome, tree, changes) =>
                      if negb (bool_decide ((get (bs "model") tree ≫= as_str) = Some model_id)) then Err CapabilityRuntimeConflict
                      else
                        match require_valid capability tree evaluation true require_max_tokens with
                        | Err e => Err e
                        | Ok _ =>
                            match (if is_empty changes then Ok (parsed.(pq_raw_body), true)
                                   else match to_vec tree with None => Err Serializer | Some l => Ok (l, false) end) with
                            | Err e => Err e
                            | Ok (replay, reused_original) =>
                                Ok {| aq_generic :=
                                        {| gar_body_digest := digest replay;
                                           gar_model_id := String.string_of_list_ascii model_id;
                                           gar_stream := stream;
                                           gar_portability := classify_portability parsed tree context.(pc_affinity_credential);
                                           gar_attribution_suppressed := outcome.(eo_attribution_suppressed);
                                           gar_system_template_pending := outcome.(eo_system_template_pending);
                                           gar_snapshot_set := self.(rp_snapshots) |};
                                      aq_replay_body := {| rb_bytes := replay; rb_tree := tree; rb_reused_original := reused_original |};
                                      aq_change_set := changes |}
                            end
                        end
                  end
              end
          end
      end
  end.

(** [process] and [process_count_tokens]. *)
Definition process (self : RequestPolicy) (raw_body : bytes) (context : PolicyContext Num) : result PolicyError (AdjustedRequest Num) :=
  process_with_options self raw_body context true.

Definition process_count_tokens (self : RequestPolicy) (raw_body : bytes) (context : PolicyContext Num)
    : result PolicyError (AdjustedRequest Num) :=
  process_with_options self raw_body context false.

(** [simulate]: the digest of the adjusted sample and its changes. *)
Definition simulate (self : CompiledRuleSet Num F) (request : Value Num) (context : PolicyContext Num)
    : result PolicyError (Digest * list AppliedChange) :=
  match as_object request with
  | None => Err InvalidStructure
  | Some object =>
      match base_model object with
      | None => Err InvalidStructure
      | Some model =>
          if negb (is_some (map_get (bs "messages") object ≫= as_array))
             || negb (is_some (map_get (bs "max_tokens") object ≫= value_as_u64))
          then Err InvalidStructure
          else
            match base_stream object with
            | None => Err InvalidStructure
            | Some stream =>
                match apply_rules self.(rs_rules) (evaluation_context context model stream) request [] with
                | Err e => Err e
                | Ok (request, changes) =>
                    match to_vec request with None => Err Serializer | Some adjusted => Ok (digest adjusted, changes) end
                end
            end
      end
  end.

(** ** The base policy *)
Definition base_rule (id path : string) (action : CapabilityAction) (kinds : gset JsonType) (minimum : option F) : CapabilityRule Num F :=
  {| cr_id := bs id; cr_path := bs path; cr_action := action; cr_types := kinds; cr_enum_values := []; cr_minimum := minimum;
     cr_maximum := None; cr_exclusive_maximum_path := None; cr_required_children := ∅; cr_when := Always |}.

Definition base_rules : list (CapabilityRule Num F) :=
  [base_rule "model" "body:/model" Required {[TypeString]} None;
   base_rule "max_tokens" "body:/max_tokens" Required {[TypeInteger]} (Some f64_one);
   base_rule "messages" "body:/messages" Required {[TypeArray]} None;
   base_rule "stream" "body:/stream" Allowed {[TypeBoolean]} None;
   base_rule "system" "body:/system" Allowed {[TypeString; TypeArray]} None].

Fixpoint base_snapshots (model_ids : list bytes) : result CapabilityCompileError (list (CompiledCapabilitySnapshot (Num := Num) (F := F))) :=
  match model_ids with
  | [] => Ok []
  | model_id :: model_ids =>
      match compile (bs "capability:" ++ model_id ++ bs ":base") model_id base_rules with
      | Err e => Err e
      | Ok snapshot => match base_snapshots model_ids with Err e => Err e | Ok rest => Ok (snapshot :: rest) end
      end
  end.

Definition base_for_models (model_ids : list bytes) (snapshots : RequestSnapshotSet) : result CapabilityCompileError RequestPolicy :=
  match base_snapshots model_ids with
  | Err e => Err e
  | Ok models =>
      match catalog_new models with
      | Err e => Err e
      | Ok capabilities =>
          Ok {| rp_schema_mode := Compatible; rp_capabilities := capabilities; rp_enforcement := Preserve; rp_ruleset := None;
                rp_snapshots := snapshots |}
      end
  end.

End policy.
