(* ===== verification/PolicyProofs.v ===== *)
(** What the request policy promises: the prompt and the model are out of the reach of a rule set, the Group
    enforcement has the last word on the system value, and the bytes that are replayed agree with the record
    of the changes. *)

From Stdlib Require Import Ascii.
From S2P Require Import Prelude Machine.
From S2P Require Import Bytes.
From S2P Require Import Domain.
From S2P Require Import TokenBucket SchedTypes Samples.
From S2P Require Import Json.
From S2P Require Import RequestParser.
From S2P Require Import SystemSegments.
From S2P Require Import SystemRewrite.
From S2P Require Import Capability.
From S2P Require Import Policy.

Lemma nat_cmp_ok (P : nat → Prop) : cmp_ok Nat.compare P.
Proof.
  split; [intros; apply Nat.compare_antisym|]. intros x y z _ _ _. rewrite !Nat.compare_le_iff. lia.
Qed.

Lemma StronglySorted_lookup {A} (R : relation A) l i j x y :
  StronglySorted R l → (i < j)%nat → l !! i = Some x → l !! j = Some y → R x y.
Proof.
  intros Hs Hij Hx Hy. rewrite <- (take_drop_middle _ _ _ Hx), StronglySorted_app, StronglySorted_cons, Forall_forall in Hs.
  destruct Hs as (_ & _ & Hs & _). apply Hs, list_elem_of_lookup. exists (j - S i)%nat. rewrite lookup_drop. by replace (S i + (j - S i))%nat with j by lia.
Qed.

(** ** Text of pointers *)

(** A replacement by a character that the result does not have took no place. *)
Lemma replace_from_absent fuel pattern c l : c ∉ replace_from fuel pattern [c] l → replace_from fuel pattern [c] l = l.
Proof.
  revert l. induction fuel as [|fuel IH]; intros [|a l]; simpl; try done.
  destruct (strip_prefix pattern (a :: l)) as [rest|]; simpl; rewrite not_elem_of_cons; [by intros []|].
  intros [_ Hn]. by rewrite IH.
Qed.

(** A key without a slash and a tilde has one spelling. *)
Lemma unescape_plain key token : "/"%char ∉ key → "~"%char ∉ key → unescape token = key → token = key.
Proof.
  unfold unescape, replace. intros Hs Ht <-. set (mid := replace_from _ (bs "~1") _ _) in *.
  rewrite (replace_from_absent (length mid) (bs "~0") "~") in Hs |- * by done.
  unfold mid in *. by rewrite (replace_from_absent (length token) (bs "~1") "/").
Qed.

Lemma split_not_nil sep l : split sep l ≠ [].
Proof. destruct l as [|c l]; simpl; [done|]. case_bool_decide; [done|]. by destruct (split sep l). Qed.

Lemma split_first_part sep l part parts : split sep l = part :: parts → (l = part ∧ parts = []) ∨ ∃ rest, l = part ++ sep :: rest.
Proof.
  revert part parts. induction l as [|c l IH]; simpl; intros part parts; [by intros [= <- <-]; left|].
  case_bool_decide as E; [intros [= <- <-]; right; exists l; by rewrite E|].
  destruct (split sep l) as [|first others] eqn:Es; [by apply split_not_nil in Es|]. intros [= <- <-].
  destruct (IH first others eq_refl) as [[-> ->]|[rest ->]]; [by left|right; by exists rest].
Qed.

Lemma rsplit_once_Some sep l before after : rsplit_once sep l = Some (before, after) → l = before ++ sep :: after.
Proof.
  unfold rsplit_once. destruct (split_once sep (rev l)) as [[a b]|] eqn:E; [|done]. intros [= <- <-].
  apply split_once_Some, (f_equal (@rev _)) in E. rewrite rev_involutive in E. rewrite E, rev_app_distr. simpl. by rewrite <- app_assoc.
Qed.

(** A pointer that does not lead to the field of this name, nor into it. *)
Definition outside (key p : bytes) : Prop :=
  starts_with (bs "/") p = true ∧ p ≠ "/"%char :: key ∧ starts_with ("/"%char :: key ++ bs "/") p = false.

Lemma outside_spec key p before after :
  "/"%char ∉ key → "~"%char ∉ key → outside key p → p = before ++ "/"%char :: after →
  (before = [] → unescape after ≠ key) ∧
  (before ≠ [] → ∀ tokens, pointer_tokens before = Some tokens → ∃ token rest, tokens = token :: rest ∧ token ≠ key).
Proof.
  intros Hs Ht (Hp & Hne & Hin) ->. split.
  - intros -> E%unescape_plain; [|done..]. by subst.
  - intros Hb tokens. destruct before as [|c before]; [done|]. simpl in Hp |- *. unfold starts_with in Hp. simpl in Hp.
    case_decide as Ec; [|done]. subst c. simpl. destruct (split "/" before) as [|part parts] eqn:E.
    { by apply split_not_nil in E. }
    intros [= <-]. eexists _, _. split; [done|]. intros Et%unescape_plain; [|done..]. subst part.
    apply not_true_iff_false in Hin. apply Hin. apply starts_with_spec.
    apply split_first_part in E as [[-> ->]|[rest ->]]; [exists after|exists (rest ++ "/"%char :: after)];
      simpl; by rewrite <- ?app_assoc.
Qed.

Section proofs.
Context {Num F : Type} `{SerdeJson Num F} (sha256 : bytes → bytes).
Implicit Types (tree value : Value Num) (evaluation : EvaluationContext Num) (rule : RuleDefinition Num F).

(** ** Mutations at a pointer *)

(** A mutation at a pointer outside a field leaves the field alone. *)
Lemma update_outside {key p before after} f tree tree' :
  "/"%char ∉ key → "~"%char ∉ key → outside key p → p = before ++ "/"%char :: after → wf tree →
  (∀ v v', wf v → f v = Ok v' → unescape after ≠ key → get key v' = get key v) →
  update_parent before f tree = Ok tree' → get key tree' = get key tree.
Proof.
  intros Hs Ht Hp Hb Hw Hf. destruct (outside_spec _ _ _ _ Hs Ht Hp Hb) as [Hroot Hchild]. unfold update_parent.
  destruct before as [|c before]; cbn [is_empty].
  - destruct (f tree) as [v|] eqn:E; [|done]. intros [= <-]. by apply Hf; [..|apply Hroot].
  - destruct (pointer_tokens _) as [tokens|] eqn:E; [|done]. destruct (Hchild ltac:(done) _ eq_refl) as (token & rest & -> & Hk).
    cbn [walk_update]. destruct (pointer_step token tree) as [child|]; [|done].
    destruct (walk_update rest _ _ child) as [child'|]; [|done]. intros [= <-].
    destruct tree as [| | | |l|m]; try done; simpl; [by destruct (parse_index token)|].
    rewrite get_object_insert. by rewrite bool_decide_eq_false_2.
Qed.

Lemma set_leaf_get key leaf value v v' : set_leaf leaf value v = Ok v' → leaf ≠ key → get key v' = get key v.
Proof.
  intros E Hne. destruct v as [| | | |l|m]; simpl in E; try done.
  - destruct (from_str_radix _ _ _); [|done]. destruct (_ <? _)%N; [|done]. by injection E as <-.
  - injection E as <-. rewrite get_object_insert. by rewrite bool_decide_eq_false_2.
Qed.

Lemma remove_leaf_get key leaf v v' : wf v → remove_leaf leaf v = Ok v' → leaf ≠ key → get key v' = get key v.
Proof.
  intros Hw E Hne. destruct v as [| | | |l|m]; simpl in E; try done.
  - destruct (from_str_radix _ _ _); [|done]. by injection E as <-.
  - injection E as <-. rewrite get_object_remove by done.
    by rewrite bool_decide_eq_false_2.
Qed.

Lemma split_pointer_Ok p parent leaf : split_pointer p = Ok (parent, leaf) → ∃ after, p = parent ++ "/"%char :: after ∧ leaf = unescape after.
Proof.
  unfold split_pointer. destruct (rsplit_once "/" p) as [[before after]|] eqn:E; [|done]. apply rsplit_once_Some in E.
  destruct (is_empty _); [done|]. intros [= <- <-]. by exists after.
Qed.

Lemma set_pointer_outside key p value tree tree' :
  "/"%char ∉ key → "~"%char ∉ key → outside key p → wf tree → set_pointer p value tree = Ok tree' → get key tree' = get key tree.
Proof.
  intros Hs Ht Hp Hw. unfold set_pointer. destruct (split_pointer p) as [[parent leaf]|] eqn:E; [|done].
  apply split_pointer_Ok in E as (after & E & ->). destruct (update_parent _ _ _) as [v|[]] eqn:Eu; [|done..]. intros [= <-].
  eapply update_outside; [done..|exact E|done| |exact Eu]. intros v1 v2 _. apply set_leaf_get.
Qed.

Lemma remove_pointer_outside key p tree tree' :
  "/"%char ∉ key → "~"%char ∉ key → outside key p → wf tree → remove_pointer p tree = Ok tree' → get key tree' = get key tree.
Proof.
  intros Hs Ht Hp Hw. unfold remove_pointer. destruct (split_pointer p) as [[parent leaf]|] eqn:E; [|done].
  apply split_pointer_Ok in E as (after & E & ->). destruct (update_parent _ _ _) as [v|[]] eqn:Eu; [|done|by intros [= <-]]. intros [= <-].
  eapply update_outside; [done..|exact E|done| |exact Eu]. intros v1 v2. apply remove_leaf_get.
Qed.

(** Well-formedness. *)
Lemma update_parent_wf parent f tree tree' :
  (∀ v v', wf v → f v = Ok v' → wf v') → wf tree → update_parent parent f tree = Ok tree' → wf tree'.
Proof.
  intros Hf Hw. unfold update_parent.
  assert (∀ v v', wf v → match f v with Ok value => Ok value | Err e => Err (Some e) end = Ok v' → wf v') as Hf'.
  { intros v v' Hv. destruct (f v) eqn:E; [|done]. intros [= <-]. by eapply Hf. }
  destruct (is_empty parent); [by apply Hf'|]. destruct (pointer_tokens parent); [|done]. by apply walk_update_wf.
Qed.

Lemma set_pointer_wf p value tree tree' : wf tree → wf value → set_pointer p value tree = Ok tree' → wf tree'.
Proof.
  intros Hw Hv. unfold set_pointer. destruct (split_pointer p) as [[parent leaf]|]; [|done].
  destruct (update_parent _ _ _) as [v|[]] eqn:Eu; [|done..]. intros [= <-]. eapply update_parent_wf; [|exact Hw|exact Eu].
  intros [| | | |l|m] v' Hl; simpl; try done; [|intros [= <-]; by apply wf_insert].
  destruct (from_str_radix _ _ _); [|done]. destruct (_ <? _)%N; [|done]. intros [= <-]. rewrite wf_array_iff in *. by apply Forall_insert.
Qed.

Lemma remove_pointer_wf p tree tree' : wf tree → remove_pointer p tree = Ok tree' → wf tree'.
Proof.
  intros Hw. unfold remove_pointer. destruct (split_pointer p) as [[parent leaf]|]; [|done].
  destruct (update_parent _ _ _) as [v|[]] eqn:Eu; [|done|by intros [= <-]]. intros [= <-]. eapply update_parent_wf; [|exact Hw|exact Eu].
  intros [| | | |l|m] v' Hl; simpl; try done; [|intros [= <-]; by apply wf_remove].
  destruct (from_str_radix _ _ _); [|done]. intros [= <-]. rewrite wf_array_iff in *. destruct (_ <? _)%N; [|done]. by apply Forall_delete.
Qed.

(** ** Rules *)

(** The values a rule writes are JSON values, which have no key twice. *)
Definition rule_wf rule : Prop :=
  match rule.(rd_action) with SetDefault _ value | SetValue _ value => wf value | _ => True end.

(** A rule that compiles has its target in the body, outside the model and the messages. *)
Definition rule_outside (key : bytes) rule : Prop :=
  ∃ p, strip_prefix (bs "body:") (action_path rule.(rd_action)) = Some p ∧ outside key p.

(** The fields no rule may touch. *)
Definition immutable (key : bytes) : Prop := key = bs "model" ∨ key = bs "messages".

Lemma immutable_plain key : immutable key → ("/"%char ∉ key) ∧ ("~"%char ∉ key) ∧ key ≠ bs "system".
Proof. by intros [-> | ->]; split_and!; by_decide. Qed.

Lemma validate_mutation_outside key path :
  immutable key → validate_mutation_path path = Ok tt → ∃ p, strip_prefix (bs "body:") path = Some p ∧ outside key p.
Proof.
  unfold validate_mutation_path. intros Hk. destruct (strip_prefix _ path) as [p|]; [|done]. destruct (_ || _) eqn:E; [done|]. intros _.
  exists p. split; [done|]. repeat (apply orb_false_iff in E as [E ?E]). unfold outside.
  apply negb_false_iff in E. split; [done|]. rewrite !bool_decide_eq_false in *. by destruct Hk as [-> | ->].
Qed.

Lemma check_definition_outside key rule : immutable key → check_definition rule = Ok tt → rule_outside key rule.
Proof.
  unfold check_definition. intros Hk. destruct (validate_mutation_path _) as [[]|] eqn:E; [|done]. intros _.
  by apply (validate_mutation_outside key) in E.
Qed.

Lemma check_definitions_outside key rules :
  immutable key → check_definitions rules = Ok tt → Forall (rule_outside key) rules.
Proof.
  intros Hk. induction rules as [|rule rules IH]; simpl; [constructor|]. destruct (check_definition rule) as [[]|] eqn:E; [|done].
  intros Hc. constructor; [by apply check_definition_outside|by apply IH].
Qed.


(** What compiles is the rules of the layers, in the order of their phase, layer and identifier. *)
Lemma layered_from_values n (layers : list (list (RuleDefinition Num F))) :
  (concat (imap (λ layer, fmap (pair (n + layer)%nat)) layers)).*2 = concat layers.
Proof.
  revert n. induction layers as [|rules layers IH]; intros n; [done|]. rewrite imap_cons. cbn [concat]. rewrite fmap_app.
  f_equal; [rewrite <- list_fmap_compose; by apply list_fmap_id|]. rewrite <- (IH (S n)). do 2 f_equal. apply imap_ext.
  intros i x _. simpl. by rewrite Nat.add_succ_r.
Qed.

Lemma layered_values (layers : list (list (RuleDefinition Num F))) : (layered layers).*2 = concat layers.
Proof. apply (layered_from_values 0). Qed.

Lemma layered_cmp_ok : cmp_ok layered_cmp (λ _ : nat * RuleDefinition Num F, True).
Proof.
  apply then_with_ok; [|apply then_with_ok].
  - exact (cmp_ok_pull (λ entry : nat * RuleDefinition Num F, phase_index entry.2.(rd_phase)) Nat.compare (λ _, True) (λ _, True) (λ _ _, I) (nat_cmp_ok _)).
  - exact (cmp_ok_pull fst Nat.compare (λ _, True) (λ _, True) (λ _ _, I) (nat_cmp_ok _)).
  - exact (cmp_ok_pull (λ entry : nat * RuleDefinition Num F, entry.2.(rd_id)) key_cmp (λ _, True) (λ _, True) (λ _ _, I) (key_cmp_ok _)).
Qed.

Lemma compile_layers_Ok id layers (ruleset : CompiledRuleSet Num F) :
  compile_layers id layers = Ok ruleset →
  ruleset.(rs_rules) ≡ₚ concat layers ∧ check_definitions (concat layers) = Ok tt ∧
  ∃ entries, ruleset.(rs_rules) = entries.*2 ∧ entries ≡ₚ layered layers ∧ StronglySorted (λ a b, layered_cmp a b ≠ Gt) entries.
Proof.
  unfold compile_layers. destruct (_ || _); [done|]. destruct (check_definitions _) as [[]|] eqn:E; [|done]. intros [= <-]. simpl.
  rewrite layered_values in E. split_and!; [by rewrite sort_by_perm, layered_values|done|].
  exists (sort_by layered_cmp (layered layers)). split_and!; [done|apply sort_by_perm|].
  apply (sort_by_sorted _ (λ _, True)); [apply layered_cmp_ok|by apply Forall_true].
Qed.

(** ** The adjustment keeps the immutable fields *)

(** What a step of the adjustment keeps. *)
Definition keeps tree tree' : Prop := wf tree' ∧ ∀ key, immutable key → get key tree' = get key tree.

Lemma keeps_refl tree : wf tree → keeps tree tree.
Proof. by split. Qed.

Lemma keeps_trans tree1 tree2 tree3 : keeps tree1 tree2 → keeps tree2 tree3 → keeps tree1 tree3.
Proof. intros [_ H12] [Hw H23]. split; [done|]. intros key Hk. by rewrite H23, H12. Qed.

Lemma set_pointer_keeps p value tree tree' :
  (∀ key, immutable key → outside key p) → wf tree → wf value → set_pointer p value tree = Ok tree' → keeps tree tree'.
Proof.
  intros Hp Hw Hv Hs. split; [exact (set_pointer_wf _ _ _ _ Hw Hv Hs)|]. intros key Hk. destruct (immutable_plain _ Hk) as (? & ? & _).
  eapply set_pointer_outside; [done..|by apply Hp|done|exact Hs].
Qed.

Lemma remove_pointer_keeps p tree tree' :
  (∀ key, immutable key → outside key p) → wf tree → remove_pointer p tree = Ok tree' → keeps tree tree'.
Proof.
  intros Hp Hw Hs. split; [exact (remove_pointer_wf _ _ _ Hw Hs)|]. intros key Hk. destruct (immutable_plain _ Hk) as (? & ? & _).
  eapply remove_pointer_outside; [done..|by apply Hp|done|exact Hs].
Qed.

Definition rule_ok rule : Prop := rule_wf rule ∧ ∀ key, immutable key → rule_outside key rule.

Lemma apply_action_keeps rule p before tree tree' :
  rule_wf rule → (∀ key, immutable key → outside key p) → wf tree → apply_action rule.(rd_action) p before tree = Ok tree' → keeps tree tree'.
Proof.
  unfold rule_wf. intros Hr Hp Hw. destruct (rd_action rule) as [q value|q value|q|q minimum maximum]; cbn [apply_action].
  - destruct (is_some before); [intros [= <-]; by apply keeps_refl|]. by apply set_pointer_keeps.
  - by apply set_pointer_keeps.
  - by apply remove_pointer_keeps.
  - destruct (before ≫= value_as_f64) as [number|]; [|intros [= <-]; by apply keeps_refl].
    destruct (f64_same _ _); [intros [= <-]; by apply keeps_refl|]. apply set_pointer_keeps; [done..|].
    unfold value_of_f64. destruct (from_f64 _); constructor.
Qed.

Lemma apply_rule_keeps rule evaluation tree tree' new :
  rule_ok rule → wf tree → apply_rule sha256 rule evaluation tree = Ok (tree', new) → keeps tree tree'.
Proof.
  intros [Hr Ho] Hw. unfold apply_rule. destruct (condition_matches _ _ _) as [[]|]; [|intros [= <- _]; by apply keeps_refl|done].
  destruct (strip_prefix _ _) as [p|] eqn:Ep; [|done]. destruct (apply_action _ _ _ _) as [tree1|] eqn:Ea; [|done]. intros [= <- _].
  eapply apply_action_keeps; [done| |done|exact Ea]. intros key Hk. destruct (Ho _ Hk) as (q & Hq & Hout). congruence.
Qed.

Lemma apply_rules_keeps rules evaluation tree tree' changes changes' :
  Forall rule_ok rules → wf tree → apply_rules sha256 rules evaluation tree changes = Ok (tree', changes') → keeps tree tree'.
Proof.
  intros Hr. revert tree changes. induction Hr as [|rule rules Hrule Hrules IH]; intros tree changes Hw; simpl.
  { intros [= <- _]. by apply keeps_refl. }
  destruct (apply_rule _ _ _ _) as [[tree1 new]|] eqn:Ea; [|done]. intros Hrest.
  pose proof (apply_rule_keeps _ _ _ _ _ Hrule Hw Ea) as Hk. eapply keeps_trans; [exact Hk|]. eapply IH; [apply Hk|exact Hrest].
Qed.

(** ** The order of the keys *)

(** The entries but the system one. *)
Definition kept m : list (bytes * Value Num) := filter (λ entry, entry.1 ≠ bs "system") m.

Lemma reorder_other (system : option (Value Num)) acc m :
  bs "messages" ∉ m.*1 → NoDup (acc.*1 ++ (kept m).*1) → foldl (reorder_entry system) acc m = acc ++ kept m.
Proof.
  unfold kept. revert acc. induction m as [|[key value] m IH]; intros acc Hm Hnd; cbn [foldl]; [by rewrite app_nil_r|].
  rewrite fmap_cons, not_elem_of_cons in Hm. destruct Hm as [Hne Hm]. cbn [fst] in Hne. unfold reorder_entry at 2. cbn [fst snd].
  rewrite (bool_decide_eq_false_2 (key = bs "messages")) by congruence. case_bool_decide as E.
  - rewrite filter_cons_False in Hnd |- * by naive_solver. by apply IH.
  - rewrite filter_cons_True in Hnd |- * by done. rewrite fmap_cons in Hnd. cbn [fst] in Hnd. rewrite map_insert_new.
    2: { apply NoDup_app in Hnd as (_ & Hd & _). intros Hin. eapply Hd; [exact Hin|]. apply elem_of_cons. by left. }
    rewrite IH; [by rewrite <- app_assoc|done|]. rewrite fmap_app. cbn. by rewrite <- app_assoc.
Qed.

Lemma kept_keys m key : key ∈ (kept m).*1 → key ∈ m.*1 ∧ key ≠ bs "system".
Proof.
  intros ([k v] & -> & [Hne Hin]%list_elem_of_filter)%list_elem_of_fmap. split; [|done]. by apply (list_elem_of_fmap_2 fst) in Hin.
Qed.

Lemma kept_NoDup m : NoDup m.*1 → NoDup (kept m).*1.
Proof. intros Hm. eapply sublist_NoDup; [exact Hm|]. apply fmap_sublist, sublist_filter. Qed.

(** The object again, with the system immediately before the messages. *)
Lemma canonical_order m system m1 messages m2 :
  NoDup m.*1 → map_get (bs "system") m = Some system → m = m1 ++ (bs "messages", messages) :: m2 →
  canonicalize_system_order (JObject m) = JObject (kept m1 ++ (bs "system", system) :: (bs "messages", messages) :: kept m2).
Proof.
  intros Hnd Hsys Em. assert (map_get (bs "messages") m = Some messages) as Hmsg.
  { apply map_get_Some; [done|]. rewrite Em. apply elem_of_app. right. apply elem_of_cons. by left. }
  unfold canonicalize_system_order, contains_key. rewrite Hsys, Hmsg. cbn [is_some negb orb]. f_equal.
  rewrite Em in Hnd |- *. rewrite fmap_app, fmap_cons in Hnd. cbn [fst] in Hnd. apply NoDup_app in Hnd as (Hnd1 & Hd & Hnd2).
  apply NoDup_cons in Hnd2 as [Hm2 Hnd2]. assert (bs "messages" ∉ m1.*1) as Hm1.
  { intros Hin. eapply Hd; [exact Hin|]. apply elem_of_cons. by left. }
  assert (bs "messages" ≠ bs "system") as Hne by by_decide.
  rewrite foldl_app, (reorder_other _ [] m1) by (try done; by apply kept_NoDup). rewrite app_nil_l. cbn [foldl].
  unfold reorder_entry at 2. cbn [fst snd].
  rewrite (bool_decide_eq_true_2 (bs "messages" = bs "messages")), (bool_decide_eq_false_2 (bs "messages" = bs "system")) by done.
  rewrite (map_insert_new (bs "system")) by (intros []%kept_keys; done). rewrite map_insert_new.
  2: { rewrite fmap_app, elem_of_app. cbn [fmap list_fmap fst]. rewrite list_elem_of_singleton. intros [[]%kept_keys|]; done. }
  rewrite reorder_other; [by rewrite <- !app_assoc|done|]. rewrite !fmap_app, <- !app_assoc. apply NoDup_app. split_and!.
  - by apply kept_NoDup.
  - intros key [Hk Hs]%kept_keys Hin. cbn [fmap list_fmap fst app] in Hin. rewrite !elem_of_cons in Hin. destruct Hin as [->|[->|Hin]]; [done..|].
    apply kept_keys in Hin as [Hin _]. eapply Hd; [exact Hk|]. apply elem_of_cons. by right.
  - cbn [fmap list_fmap fst app]. rewrite !NoDup_cons, not_elem_of_cons. split_and!; [done|by intros []%kept_keys|by intros []%kept_keys|by apply kept_NoDup].
Qed.

Lemma kept_perm m system : NoDup m.*1 → map_get (bs "system") m = Some system → m ≡ₚ (bs "system", system) :: kept m.
Proof.
  intros Hnd Hs%(map_get_Some _ _ _ Hnd). apply NoDup_Permutation; [by eapply NoDup_fmap_1| |].
  - apply NoDup_cons. split; [by intros [Hn _]%list_elem_of_filter|]. by apply NoDup_filter, (NoDup_fmap_1 fst).
  - intros [key value]. rewrite elem_of_cons. unfold kept. rewrite list_elem_of_filter. cbn [fst]. split.
    + intros Hin. destruct (decide (key = bs "system")) as [->|Hne]; [|by right]. left. f_equal.
      apply (map_get_Some _ _ _ Hnd) in Hin, Hs. congruence.
    + intros [[= -> ->]|[_ Hin]]; done.
Qed.

(** The entries in another order. *)
Lemma canonical_perm m : NoDup m.*1 → ∃ m', canonicalize_system_order (JObject m) = JObject m' ∧ m' ≡ₚ m.
Proof.
  intros Hnd. destruct (map_get (bs "system") m) as [system|] eqn:Es.
  2: { exists m. unfold canonicalize_system_order, contains_key. by rewrite Es. }
  destruct (map_get (bs "messages") m) as [messages|] eqn:Em.
  2: { exists m. unfold canonicalize_system_order, contains_key. by rewrite Es, Em. }
  apply map_get_split in Em as (m1 & m2 & Em & _). rewrite (canonical_order m system m1 messages m2) by done.
  eexists. split; [done|]. rewrite (kept_perm m system) by done. rewrite Em. unfold kept. rewrite filter_app, filter_cons_True by by_decide.
  by rewrite <- Permutation_middle.
Qed.

Lemma canonical_get m key : NoDup m.*1 → get key (canonicalize_system_order (JObject m)) = get key (JObject m).
Proof. intros Hnd. destruct (canonical_perm m Hnd) as (m' & -> & Hp). symmetry. by apply map_get_perm. Qed.

(** Ordering the keys changes no field. *)
Lemma canonical_keeps tree : wf tree → wf (canonicalize_system_order tree) ∧ ∀ key, get key (canonicalize_system_order tree) = get key tree.
Proof.
  intros Hw. destruct tree as [| | | | |m]; try done. apply wf_object_iff in Hw as [Hnd Hm]. split; [|intros key; by apply canonical_get].
  destruct (canonical_perm m Hnd) as (m' & -> & Hp). apply wf_object_iff. by rewrite Hp.
Qed.

(** ** The Group enforcement *)

(** The system value a policy makes of the one it finds. *)
Definition system_after (policy : SystemPolicy Num) (current : option (Value Num)) : option (Value Num) :=
  match (enforced_system policy current).2 with Some (next, _) => next | None => current end.

Definition policy_wf (policy : SystemPolicy Num) : Prop := match policy with Replace _ content => wf content | _ => True end.

Lemma system_outside key : immutable key → outside key (bs "/system").
Proof. by intros [-> | ->]; unfold outside; split_and!; by_decide. Qed.

Lemma system_after_wf policy current value :
  policy_wf policy → (∀ v, current = Some v → wf v) → system_after policy current = Some value → wf value.
Proof.
  unfold system_after. intros Hp Hc. destruct policy as [| |ref content|]; cbn [enforced_system snd]; [by apply Hc| | |done].
  - intros (system & Hsys & Hs)%bind_Some. eapply strip_client_system_wf; [|exact Hs]. by apply Hc.
  - destruct (is_empty_replacement content); cbn [snd]; [by apply Hc|]. intros [= <-]. apply replace_system_static_wf; [|done].
    destruct current; [by apply Hc|constructor].
Qed.

(** The places under the root. *)
Lemma set_system value tree tree' : set_pointer (bs "/system") value tree = Ok tree' → get (bs "system") tree' = Some value.
Proof.
  change (set_pointer (bs "/system") value tree) with
    (match (match set_leaf (bs "system") value tree with Ok v => Ok v | Err e => Err (Some e) end) with
     | Ok tree => Ok tree | Err None => Err InvalidStructure | Err (Some e) => Err e end).
  destruct tree as [| | | |l|m]; try done; intros E.
  injection E as <-. rewrite get_object_insert. by rewrite bool_decide_eq_true_2.
Qed.

Lemma remove_system tree tree' : wf tree → remove_pointer (bs "/system") tree = Ok tree' → get (bs "system") tree' = None.
Proof.
  change (remove_pointer (bs "/system") tree) with
    (match (match remove_leaf (bs "system") tree with Ok v => Ok v | Err e => Err (Some e) end) with
     | Ok tree => Ok tree | Err None => Ok tree | Err (Some e) => Err e end).
  intros Hw. destruct tree as [| | | |l|m]; try done; intros E.
  injection E as <-. rewrite get_object_remove by done. by rewrite bool_decide_eq_true_2.
Qed.

Lemma apply_enforcement_spec policy tree changes outcome tree' changes' :
  policy_wf policy → wf tree → apply_enforcement sha256 policy tree changes = Ok (outcome, tree', changes') →
  keeps tree tree' ∧ outcome = (enforced_system policy (get (bs "system") tree)).1 ∧
  get (bs "system") tree' = system_after policy (get (bs "system") tree).
Proof.
  intros Hp Hw. unfold apply_enforcement. set (current := get (bs "system") tree). destruct (is_some_and _ _); [done|].
  pose proof (λ value, system_after_wf policy current value Hp (λ v Hv, wf_get _ _ _ Hw Hv)) as Hn. unfold system_after in *.
  destruct (enforced_system policy current) as [outcome0 [[next reason]|]]; cbn [fst snd] in *.
  2: { intros [= <- <- _]. split_and!; [by apply keeps_refl|done..]. }
  destruct next as [value|].
  - destruct (set_pointer _ _ _) as [tree1|] eqn:Es; [|done]. intros [= <- <- _]. split_and!; [|done|by apply set_system in Es].
    eapply set_pointer_keeps; [apply system_outside|done| |exact Es]. by apply Hn.
  - destruct (remove_pointer _ _) as [tree1|] eqn:Es; [|done]. intros [= <- <- _]. split_and!; [|done|by apply remove_system in Es].
    eapply remove_pointer_keeps; [apply system_outside|done|exact Es].
Qed.

(** A policy whose values are JSON values and whose rule set was compiled. *)
Record policy_ok (self : RequestPolicy (Num := Num) (F := F)) : Prop := {
  po_enforcement : policy_wf self.(rp_enforcement);
  po_rules : ∀ ruleset, self.(rp_ruleset) = Some ruleset → ∃ id layers, compile_layers id layers = Ok ruleset ∧ Forall rule_wf (concat layers);
}.

Lemma compiled_rules_ok id layers (ruleset : CompiledRuleSet Num F) :
  compile_layers id layers = Ok ruleset → Forall rule_wf (concat layers) → Forall rule_ok ruleset.(rs_rules).
Proof.
  intros (Hp & Hc & _)%compile_layers_Ok Hw. rewrite Hp. apply Forall_forall. intros rule Hin. split.
  - by rewrite Forall_forall in Hw; apply Hw.
  - intros key Hk. pose proof (check_definitions_outside key _ Hk Hc) as Ho. rewrite Forall_forall in Ho. by apply Ho.
Qed.

(** The rules of a policy on a tree, before the enforcement. *)
Definition ruled (self : RequestPolicy (Num := Num) (F := F)) tree evaluation : result PolicyError (Value Num * list AppliedChange) :=
  match self.(rp_ruleset) with None => Ok (tree, []) | Some ruleset => apply_rules sha256 ruleset.(rs_rules) evaluation tree [] end.

Lemma adjust_spec self tree evaluation outcome tree' changes :
  policy_ok self → wf tree → adjust sha256 self tree evaluation = Ok (outcome, tree', changes) →
  keeps tree tree' ∧ ∃ middle changes0, ruled self tree evaluation = Ok (middle, changes0) ∧
    outcome = (enforced_system self.(rp_enforcement) (get (bs "system") middle)).1 ∧
    get (bs "system") tree' = system_after self.(rp_enforcement) (get (bs "system") middle).
Proof.
  intros [He Hr] Hw. unfold adjust. change (match rp_ruleset self with None => _ | Some _ => _ end) with (ruled self tree evaluation).
  destruct (ruled self tree evaluation) as [[middle changes0]|] eqn:Er; [|done].
  assert (keeps tree middle) as Hk.
  { unfold ruled in Er. destruct (rp_ruleset self) as [ruleset|]; [|injection Er as <- _; by apply keeps_refl].
    destruct (Hr _ eq_refl) as (id & layers & Hc & Hrw). eapply apply_rules_keeps; [by eapply compiled_rules_ok|done|exact Er]. }
  destruct (apply_enforcement _ _ _ _) as [[[outcome1 tree1] changes1]|] eqn:Ea; [|done].
  apply apply_enforcement_spec in Ea as (Hk1 & Ho & Hs); [|done|apply Hk]. intros [= <- <- <-].
  assert (wf tree1) as Hw1 by apply Hk1. pose proof (canonical_keeps tree1 Hw1) as [Hwc Hgc]. split.
  - eapply keeps_trans; [exact Hk|]. eapply keeps_trans; [exact Hk1|]. destruct (is_empty changes1); [by apply keeps_refl|]. by split.
  - exists middle, changes0. split_and!; [done|done|]. rewrite <- Hs. destruct (is_empty changes1); [done|apply Hgc].
Qed.

End proofs.

(** ** Processing *)
Section processing.
Context {Num F : Type} `{SerdeJson Num F} (sha256 : bytes → bytes).
Implicit Types (self : RequestPolicy (Num := Num) (F := F)) (context : PolicyContext Num).

(** The base structure names the model that the object has. *)
Lemma validate_base_structure_Ok (object : list (bytes * Value Num)) require model stream :
  validate_base_structure (JObject object) require = Ok (model, stream) →
  map_get (bs "model") object = Some (JString model) ∧ model ≠ [] ∧ (∃ messages, map_get (bs "messages") object = Some (JArray messages)) ∧
  stream = default false (map_get (bs "stream") object ≫= as_bool).
Proof.
  unfold validate_base_structure. cbn [as_object]. unfold base_model, base_stream. destruct (map_get (bs "model") object) as [[| | |m| |]|]; try done.
  cbn [mbind option_bind as_str]. destruct (is_empty m) eqn:Em; [done|].
  destruct (map_get (bs "messages") object) as [[| | | |messages|]|]; try done. cbn [mbind option_bind as_array is_some negb orb].
  destruct (_ || _); [done|]. destruct (map_get (bs "stream") object) as [[|b| | | |]|]; try done; intros [= <- <-]; split_and!; try done;
    try (by intros ->); by eexists.
Qed.

(** What a processed request is made of. *)
Record made_of self raw_body context (require_max_tokens : bool) (adjusted : AdjustedRequest Num)
    (object : list (bytes * Value Num)) (model : bytes) : Prop := {
  mo_denotes : denotes raw_body object;
  mo_wf : wf (JObject object);
  mo_model : map_get (bs "model") object = Some (JString model);
  mo_messages : ∃ messages, map_get (bs "messages") object = Some (JArray messages);
  mo_name : adjusted.(aq_generic).(gar_model_id) = String.string_of_list_ascii model;
  mo_stream : adjusted.(aq_generic).(gar_stream) = default false (map_get (bs "stream") object ≫= as_bool);
  mo_digest : adjusted.(aq_generic).(gar_body_digest) = digest sha256 adjusted.(aq_replay_body).(rb_bytes);
  mo_replay : adjusted.(aq_replay_body).(rb_reused_original) = is_empty adjusted.(aq_change_set) ∧
    Some adjusted.(aq_replay_body).(rb_bytes) =
      (if is_empty adjusted.(aq_change_set) then Some raw_body else to_vec adjusted.(aq_replay_body).(rb_tree));
  mo_adjust : ∃ outcome,
    let evaluation := evaluation_context context model adjusted.(aq_generic).(gar_stream) in
    adjust sha256 self (JObject object) evaluation = Ok (outcome, adjusted.(aq_replay_body).(rb_tree), adjusted.(aq_change_set)) ∧
    adjusted.(aq_generic).(gar_attribution_suppressed) = outcome.(eo_attribution_suppressed) ∧
    adjusted.(aq_generic).(gar_system_template_pending) = outcome.(eo_system_template_pending);
  mo_valid : ∃ capability,
    let evaluation := evaluation_context context model adjusted.(aq_generic).(gar_stream) in
    catalog_get model self.(rp_capabilities) = Some capability ∧
    require_valid capability (JObject object) evaluation false require_max_tokens = Ok tt ∧
    require_valid capability adjusted.(aq_replay_body).(rb_tree) evaluation true require_max_tokens = Ok tt;
}.

Lemma process_Ok self raw_body context require_max_tokens adjusted :
  process_with_options sha256 self raw_body context require_max_tokens = Ok adjusted →
  ∃ object model, made_of self raw_body context require_max_tokens adjusted object model.
Proof.
  unfold process_with_options. destruct (parse_messages_request _ _ _) as [parsed|] eqn:Ep; [|done].
  apply parse_Ok in Ep as (Eraw & object & Hd & Et & Hw). rewrite Eraw, Et in *.
  destruct (validate_base_structure _ _) as [[model stream]|] eqn:Eb; [|done]. apply validate_base_structure_Ok in Eb as (Hm & _ & Hmsg & Hs).
  destruct (catalog_get _ _) as [capability|] eqn:Ec; [|done]. cbv zeta.
  destruct (require_valid _ _ _ false _) as [[]|] eqn:Ev1; [|done]. destruct (adjust _ _ _ _) as [[[outcome tree] changes]|] eqn:Ea; [|done].
  destruct (negb _); [done|]. destruct (require_valid _ _ _ true _) as [[]|] eqn:Ev2; [|done].
  destruct (is_empty changes) eqn:Ech.
  - intros [= <-]. exists object, model. split; cbn; rewrite ?Ech; try done; [by eexists|by exists capability].
  - destruct (to_vec tree) as [l|] eqn:Ev; [|done]. intros [= <-]. exists object, model.
    split; cbn; rewrite ?Ech; try done; [by eexists|by exists capability].
Qed.

End processing.

(** ** Theorems *)

(** C12: the prompt is out of the reach of the policy. Whatever rule set was compiled and whatever the Group
    enforces, a request that is processed keeps the model and the messages that the client's bytes denote: in the
    tree that is replayed both fields are the same values, the messages are an array, and the model of the
    generic request is the client's. The tree has no key twice. *)
Theorem prompt_immutable {Num F} `{SerdeJson Num F} sha256 self raw_body context require_max_tokens adjusted :
  policy_ok self → process_with_options sha256 self raw_body context require_max_tokens = Ok adjusted →
  ∃ object model, denotes raw_body object ∧ map_get (bs "model") object = Some (JString model) ∧
    adjusted.(aq_generic).(gar_model_id) = String.string_of_list_ascii model ∧
    let tree := adjusted.(aq_replay_body).(rb_tree) in
    wf tree ∧ get (bs "model") tree = Some (JString model) ∧
    ∃ messages, map_get (bs "messages") object = Some (JArray messages) ∧ get (bs "messages") tree = Some (JArray messages).
Proof.
  intros Hok (object & model & Hm)%process_Ok. destruct Hm as [Hd Hw Hmodel [messages Hmsg] Hname _ _ _ [outcome [Ha _]] _].
  apply (adjust_spec _ _ _ _ _ _ _ Hok Hw) in Ha as [[Hwt Hk] _]. exists object, model. cbv zeta.
  rewrite (Hk (bs "model")), (Hk (bs "messages")) by ((by left) || (by right)). split_and!; try done. by exists messages.
Qed.

(** C13: the Group enforcement has the last word on the system value. Of the tree that the rules left, the replayed
    tree has the same system value when the policy preserves it, its billing block at most when the
    client's is stripped, the platform's in place of the static segment when it is replaced (or the same one, marked pending, when
    the platform's is empty), and none, with the attribution suppressed, when all is stripped. No rule
    can weaken it. *)
Theorem enforcement_has_last_word {Num F} `{SerdeJson Num F} sha256 self raw_body context require_max_tokens adjusted :
  policy_ok self → process_with_options sha256 self raw_body context require_max_tokens = Ok adjusted →
  ∃ object model ruled_tree changes,
    denotes raw_body object ∧
    ruled sha256 self (JObject object) (evaluation_context context model adjusted.(aq_generic).(gar_stream)) = Ok (ruled_tree, changes) ∧
    let before := get (bs "system") ruled_tree in
    let after := get (bs "system") adjusted.(aq_replay_body).(rb_tree) in
    let suppressed := adjusted.(aq_generic).(gar_attribution_suppressed) in
    let pending := adjusted.(aq_generic).(gar_system_template_pending) in
    match self.(rp_enforcement) with
    | Preserve => after = before ∧ suppressed = false ∧ pending = false
    | StripClient => after = before ≫= strip_client_system ∧ suppressed = false ∧ pending = false
    | Replace _ content =>
        suppressed = false ∧ pending = is_empty_replacement content ∧
        after = if pending then before else Some (replace_system_static (default JNull before) content).2
    | StripAll => after = None ∧ suppressed = true ∧ pending = false
    end.
Proof.
  intros Hok (object & model & Hm)%process_Ok. destruct Hm as [Hd Hw _ _ _ _ _ _ [outcome (Ha & Hs & Hp)] _].
  apply (adjust_spec _ _ _ _ _ _ _ Hok Hw) in Ha as (_ & middle & changes & Hr & Ho & Hsys).
  exists object, model, middle, changes. split_and!; [done|done|]. cbv zeta. rewrite Hs, Hp, Hsys, Ho. unfold system_after.
  destruct (rp_enforcement self) as [| |ref content|]; cbn [enforced_system fst snd]; [done..| |done].
  by destruct (is_empty_replacement content).
Qed.

(** what is replayed is what was checked. The digest of the generic request is of the bytes that are
    replayed; they are the client's own when no change is recorded and the serialization of the adjusted tree otherwise;
    and that tree satisfies every rule of the model's capability that its own fields make active. *)
Theorem replayed_request_checked {Num F} `{SerdeJson Num F} sha256 self raw_body context adjusted id model_id rules capability :
  process sha256 self raw_body context = Ok adjusted →
  adjusted.(aq_generic).(gar_model_id) = String.string_of_list_ascii model_id →
  compile id model_id rules = Ok capability → catalog_get model_id self.(rp_capabilities) = Some capability →
  let replay := adjusted.(aq_replay_body) in
  let evaluation := evaluation_context context model_id adjusted.(aq_generic).(gar_stream) in
  adjusted.(aq_generic).(gar_body_digest) = digest sha256 replay.(rb_bytes) ∧
  (adjusted.(aq_change_set) = [] → replay.(rb_reused_original) = true ∧ replay.(rb_bytes) = raw_body) ∧
  (adjusted.(aq_change_set) ≠ [] → replay.(rb_reused_original) = false ∧ to_vec replay.(rb_tree) = Some replay.(rb_bytes)) ∧
  ∀ rule, rule ∈ rules → condition_matches rule.(cr_when) replay.(rb_tree) evaluation = Ok true →
    rule_satisfied rule replay.(rb_tree) evaluation true.
Proof.
  intros (object & model & Hm)%process_Ok Hname Hc Hcat. destruct Hm as [_ _ _ _ Hn _ Hdig [Hre Hbytes] _ [capability' (Hcat' & _ & Hv)]].
  rewrite Hn in Hname. apply string_of_bytes_inj in Hname as ->. simplify_eq. cbv zeta. split_and!; [done| | |].
  - intros E. rewrite E in Hre, Hbytes. by injection Hbytes as <-.
  - intros E. rewrite Hre. destruct (aq_change_set adjusted); [done|]. by split.
  - intros rule Hin Hact. unfold require_valid in Hv. destruct (validate _ _ _ _) as [diagnostics|] eqn:Ev; [|done].
    cbn [filter_count_tokens_diagnostics] in Hv. destruct diagnostics; [|done]. by eapply validate_sound.
Qed.

(** rules run in the order of their phase, then of their layer, then of their identifier. What
    compiles is the rules of all the layers; one that stands before another one is of an earlier phase, or of the same phase
    and an earlier layer, or of the same layer and no greater identifier; and its target is in
    the body, at neither the model nor the messages. *)
Theorem rules_in_layer_order {Num F} `{SerdeJson Num F} id layers (ruleset : CompiledRuleSet Num F) :
  compile_layers id layers = Ok ruleset →
  ∃ entries, ruleset.(rs_rules) = entries.*2 ∧ entries ≡ₚ layered layers ∧
    (∀ i j left right, (i < j)%nat → entries !! i = Some left → entries !! j = Some right →
      let phase entry := phase_index entry.2.(rd_phase) in
      (phase left < phase right)%nat ∨ phase left = phase right ∧
        ((left.1 < right.1)%nat ∨ left.1 = right.1 ∧ key_le left.2.(rd_id) right.2.(rd_id))) ∧
    ∀ rule, rule ∈ ruleset.(rs_rules) → ∀ key, immutable key → rule_outside key rule.
Proof.
  intros (Hp & Hc & entries & He & Hpe & Hs)%compile_layers_Ok. exists entries. split_and!; [done|done| |].
  - intros i j left right Hij Hl Hr. pose proof (StronglySorted_lookup _ _ _ _ _ _ Hs Hij Hl Hr) as Hcmp.
    unfold layered_cmp in Hcmp. cbv zeta. destruct (Nat.compare_spec (phase_index left.2.(rd_phase)) (phase_index right.2.(rd_phase))) as [E|E|E];
      [|by left|done]. right. split; [done|]. cbn [then_with] in Hcmp.
    destruct (Nat.compare_spec left.1 right.1) as [E1|E1|E1]; [|by left|done]. right. split; [done|]. cbn [then_with] in Hcmp.
    unfold key_cmp in Hcmp. destruct (decide (_ = _)) as [->|]; [done|]. by destruct (decide (key_le _ _)).
  - intros rule Hin key Hk. pose proof (check_definitions_outside key _ Hk Hc) as Ho. rewrite Forall_forall in Ho. apply Ho. by rewrite <- Hp.
Qed.

(** ** Samples *)

(** A request, and the reader that knows it. *)
Definition sample_entries (extra : list (bytes * Json Z)) : Json Z :=
  JsonMap ([(bs "model", JsonString (bs "m")); (bs "max_tokens", JsonU64 32); (bs "messages", JsonSeq [] true)] ++ extra) true.

#[local] Instance policy_serde : SerdeJson Z Z :=
  sample_serde [("plain", sample_entries [(bs "system", JsonString (bs "client"))]);
                ("stops", sample_entries [(bs "stop_sequences", JsonSeq [JsonString (bs "a")] true)])]%string (λ _, Some (bs "printed")).

Definition sample_definition (id : string) (path : bytes) (value : Value Z) : RuleDefinition Z Z :=
  {| rd_id := bs id; rd_phase := SystemPhase; rd_action := SetValue path value; rd_when := Always; rd_reason := bs "sample"; rd_risk := LowRisk |}.

Definition sample_layers (path : bytes) (value : Value Z) : list (list (RuleDefinition Z Z)) :=
  [[sample_definition "z" (bs "body:/system") (JString (bs "rule"))]; [sample_definition "a" path value]].

Definition sample_ruleset (path : bytes) (value : Value Z) : CompiledRuleSet Z Z :=
  {| rs_id := bs "rules"; rs_rules := concat (sample_layers path value) |}.

Definition sample_capability : CompiledCapabilitySnapshot (Num := Z) (F := Z) :=
  match compile (bs "capability:m:base") (bs "m") base_rules with Ok snapshot => snapshot | Err _ => sample_snapshot end.

Definition sample_policy (enforcement : SystemPolicy Z) (ruleset : option (CompiledRuleSet Z Z)) : RequestPolicy (Num := Z) (F := Z) :=
  {| rp_schema_mode := Compatible; rp_capabilities := {[bs "m" := sample_capability]}; rp_enforcement := enforcement; rp_ruleset := ruleset;
     rp_snapshots := sample_snapshots |}.

Definition sample_policy_context : PolicyContext Z :=
  {| pc_client_class := NonClaudeCodeCli; pc_client_os := Windows; pc_protocol_headers := ∅; pc_affinity_credential := None |}.

Definition sample_strip_all : RequestPolicy (Num := Z) (F := Z) :=
  sample_policy StripAll (Some (sample_ruleset (bs "body:/temperature") (JNumber 1%Z))).

Lemma sample_base_policy :
  base_for_models [bs "m"] sample_snapshots = Ok (sample_policy Preserve None).
Proof. by vm_compute. Qed.

Lemma sample_policy_ok : policy_ok sample_strip_all.
Proof.
  split; [exact I|]. intros ruleset [= <-]. exists (bs "rules"), (sample_layers (bs "body:/temperature") (JNumber 1%Z)).
  split; [by vm_compute|]. repeat constructor.
Qed.

(** The processing of the sample, through each entry. *)
Abbreviation sample_processed := (process_with_options id sample_strip_all (bs "plain") sample_policy_context true).
Abbreviation sample_process := (process id sample_strip_all (bs "plain") sample_policy_context).

Definition sample_adjusted : option (AdjustedRequest Z) :=
  Eval vm_compute in match sample_processed with Ok adjusted => Some adjusted | Err _ => None end.

Lemma sample_processed_eq : match sample_adjusted with Some adjusted => sample_processed = Ok adjusted | None => False end.
Proof. by vm_compute. Qed.

Lemma sample_process_eq : match sample_adjusted with Some adjusted => sample_process = Ok adjusted | None => False end.
Proof. by vm_compute. Qed.

Lemma prompt_immutable_witness :
  ∃ adjusted, sample_processed = Ok adjusted ∧ get (bs "messages") adjusted.(aq_replay_body).(rb_tree) = Some (JArray []) ∧ length adjusted.(aq_change_set) = 3%nat.
Proof.
  pose proof sample_processed_eq as E. destruct sample_adjusted as [adjusted|] eqn:Ea; [|done]. exists adjusted. split; [exact E|].
  destruct (prompt_immutable id _ _ _ _ _ sample_policy_ok E) as (object & model & _ & _ & _ & _ & _ & messages & _ & _).
  injection Ea as <-. split; reflexivity.
Defined.

Lemma enforcement_has_last_word_witness :
  ∃ adjusted, sample_processed = Ok adjusted ∧ get (bs "system") adjusted.(aq_replay_body).(rb_tree) = None.
Proof.
  pose proof sample_processed_eq as E. destruct sample_adjusted as [adjusted|]; [|done]. exists adjusted. split; [exact E|].
  destruct (enforcement_has_last_word id _ _ _ _ _ sample_policy_ok E) as (object & model & tree & changes & _ & _ & Hs). apply Hs.
Defined.

Lemma replayed_request_checked_witness :
  ∃ adjusted, sample_process = Ok adjusted ∧ adjusted.(aq_replay_body).(rb_reused_original) = false.
Proof.
  pose proof sample_process_eq as E. destruct sample_adjusted as [adjusted|] eqn:Ea; [|done]. exists adjusted. split; [exact E|].
  destruct (replayed_request_checked id sample_strip_all (bs "plain") sample_policy_context adjusted (bs "capability:m:base") (bs "m") base_rules
    sample_capability E) as (_ & _ & Hchanged & _).
  - injection Ea as <-. reflexivity.
  - by vm_compute.
  - by vm_compute.
  - apply Hchanged. injection Ea as <-. discriminate.
Defined.

Lemma rules_in_layer_order_witness :
  compile_layers (bs "rules") (sample_layers (bs "body:/temperature") (JNumber 1%Z)) = Ok (sample_ruleset (bs "body:/temperature") (JNumber 1%Z)) ∧
  rd_id <$> (sample_ruleset (bs "body:/temperature") (JNumber 1%Z)).(rs_rules) = [bs "z"; bs "a"].
Proof.
  assert (compile_layers (bs "rules") (sample_layers (bs "body:/temperature") (JNumber 1%Z)) = Ok (sample_ruleset (bs "body:/temperature") (JNumber 1%Z))) as E by by vm_compute.
  split; [exact E|]. destruct (rules_in_layer_order _ _ _ E) as (entries & _). by vm_compute.
Defined.

(** A rule whose array index has a sign or a leading zero writes through [str::parse], while the value is read
    before and after through the JSON pointer, which does not accept it: the tree changes, no change is recorded, and the
    client's bytes are replayed with a tree that they do not denote. *)
Lemma unrecorded_write :
  ∃ adjusted,
    process id (sample_policy Preserve (Some {| rs_id := bs "rules"; rs_rules := [sample_definition "a" (bs "body:/stop_sequences/+0") (JString (bs "b"))] |}))
      (bs "stops") sample_policy_context = Ok adjusted ∧
    compile_rules (bs "rules") [sample_definition "a" (bs "body:/stop_sequences/+0") (JString (bs "b"))] =
      Ok {| rs_id := bs "rules"; rs_rules := [sample_definition "a" (bs "body:/stop_sequences/+0") (JString (bs "b"))] |} ∧
    adjusted.(aq_change_set) = [] ∧ adjusted.(aq_replay_body).(rb_reused_original) = true ∧ adjusted.(aq_replay_body).(rb_bytes) = bs "stops" ∧
    get (bs "stop_sequences") adjusted.(aq_replay_body).(rb_tree) = Some (JArray [JString (bs "b")]).
Proof. eexists. split; [by vm_compute|]. by vm_compute. Qed.
