(* ===== verification/ClientRequest.v ===== *)
(** What a client's request is known by: the provider and the endpoint that it asks for ([crates/gateway-domain/src/provider.rs],
    [crates/gateway-api/src/data.rs]), how its system was told ([request.rs]), and the product that it says it is
    ([client_identity.rs]). *)

From Stdlib Require Import Ascii.
From S2P Require Import Prelude Machine.
From S2P Require Import Bytes.
Local Open Scope N_scope.

(** ** The provider *)
Inductive Provider := Provider_Anthropic | Provider_Openai.

#[export] Instance Provider_eq_dec : EqDecision Provider.
Proof. solve_decision. Defined.

Inductive OpenAiAuthKind := Auth_Oauth | Auth_ApiKey.

Inductive OpenAiEndpoint := Responses | ChatCompletions | Compact.

#[export] Instance OpenAiEndpoint_eq_dec : EqDecision OpenAiEndpoint.
Proof. solve_decision. Defined.

Definition upstream_url (self : OpenAiEndpoint) (auth : OpenAiAuthKind) : bytes :=
  match auth, self with
  | Auth_Oauth, Compact => bs "https://chatgpt.com/backend-api/codex/responses/compact"
  | Auth_Oauth, _ => bs "https://chatgpt.com/backend-api/codex/responses"
  | Auth_ApiKey, Responses => bs "https://api.openai.com/v1/responses"
  | Auth_ApiKey, ChatCompletions => bs "https://api.openai.com/v1/chat/completions"
  | Auth_ApiKey, Compact => bs "https://api.openai.com/v1/responses/compact"
  end.

Inductive DispatchEndpoint := Messages | CountTokens | OpenAi (endpoint : OpenAiEndpoint).

#[export] Instance DispatchEndpoint_eq_dec : EqDecision DispatchEndpoint.
Proof. solve_decision. Defined.

Inductive OsResolution := Os_Header | Os_EnvironmentOnly | Os_SessionSticky | Os_GroupDefault.

(** ** The product *)
Record ClientIdentity := {
  ci_name : option bytes;
  ci_version : option bytes;
}.

Definition identity_default : ClientIdentity := {| ci_name := None; ci_version := None |}.

(** [split_ascii_whitespace]: [word] is what was read of the current word. *)
Fixpoint words_onto (word : bytes) (l : bytes) : list bytes :=
  match l with
  | [] => match word with [] => [] | _ => [word] end
  | c :: l =>
      if is_ascii_whitespace c then match word with [] => words_onto [] l | _ => word :: words_onto [] l end
      else words_onto (word ++ [c]) l
  end.

Definition split_ascii_whitespace (l : bytes) : list bytes := words_onto [] l.

Fixpoint skip_while (p : ascii → bool) (l : bytes) : bytes :=
  match l with
  | [] => []
  | c :: rest => if p c then skip_while p rest else l
  end.

(** [trim_end_matches] with a list of characters. *)
Definition trim_end_matches (chars : list ascii) (l : bytes) : bytes :=
  reverse (skip_while (λ c, existsb (Ascii.eqb c) chars) (reverse l)).

Definition made_of (others : list ascii) (l : bytes) : bool :=
  forallb (λ c, is_ascii_alphanumeric c || existsb (Ascii.eqb c) others) l.

(** One word of a User-Agent. *)
Definition product_of (word : bytes) : option (bytes * option bytes) :=
  '(name, version) ← split_once "/" word;
  if is_empty name || (80 <? length name)%nat || negb (made_of ["-"; "_"; "."]%char name) then None
  else
    let version := trim_end_matches [";"; ")"; ","]%char version in
    let version :=
      if negb (is_empty version) && (length version <=? 80)%nat && made_of ["-"; "_"; "."; "+"]%char version then Some version else None in
    Some (name, version).

Definition known (name : bytes) : option bytes :=
  let name := to_ascii_lowercase <$> name in
  if bool_decide (name = bs "claude-cli") || bool_decide (name = bs "claude-code") then Some (bs "Claude Code")
  else if bool_decide (name = bs "codex_cli_rs") || bool_decide (name = bs "codex-cli") || bool_decide (name = bs "codex") then Some (bs "Codex")
  else None.

Definition from_user_agent (user_agent : option bytes) : ClientIdentity :=
  match user_agent with
  | None => identity_default
  | Some ua =>
      let products := omap product_of (split_ascii_whitespace ua) in
      match (match List.find (λ p, is_some (known p.1)) products with Some p => Some p | None => head products end) with
      | None => identity_default
      | Some (name, version) => {| ci_name := Some (default name (known name)); ci_version := version |}
      end
  end.

Example agent_claude : from_user_agent (Some (bs "claude-cli/2.1.245 (external, cli)")) =
  {| ci_name := Some (bs "Claude Code"); ci_version := Some (bs "2.1.245") |}.
Proof. by vm_compute. Qed.

Example agent_unknown : from_user_agent (Some (bs "custom/1.2.3")) = {| ci_name := Some (bs "custom"); ci_version := Some (bs "1.2.3") |}.
Proof. by vm_compute. Qed.

Example agent_none : from_user_agent (Some (bs "not-a-product")) = identity_default.
Proof. by vm_compute. Qed.
