(* ===== verification/Dispatch.v ===== *)
(** What the dispatcher makes of failures and of rejected responses, and what it records of them:
    [crates/super-gatewayd/src/production_dispatcher.rs], from [map_rejection] on, with the error classes of
    [crates/gateway-api/src/data.rs].

    [serde_json::from_slice] and the parsing of UUIDs are parameters. The receiver of a response body is the list of
    the items that it will still give; which of its calls run into the timeout is a parameter as well. *)

From Stdlib Require Import Ascii.
From S2P Require Import Prelude Machine.
From S2P Require Import Bytes.
From S2P Require Import Domain.
From S2P Require Import TokenBucket.
From S2P Require Import Retry.
From S2P Require Import SchedTypes.
From S2P Require Import Transport.
From S2P Require Import Usage.
From S2P Require Import Quota.
From S2P Require Import Reservation.
From S2P Require Import Json.
From S2P Require Import SystemSegments.
From S2P Require Import SystemBilling.
From S2P Require Import ClientRequest.
Local Open Scope N_scope.

(** ** Data *)
Inductive DispatchError :=
  | InvalidRequest
  | ContinuationUnavailable
  | Unavailable
  | Overloaded (retry_after_seconds : N)
  | GroupRateLimited (retry_after_seconds : N)
  | CredentialCooldown (retry_after_seconds : N)
  | Dispatch_QueueFull (retry_after_seconds : N)
  | BundleUnavailable
  | PreUpstreamTimeout (retry_after_seconds : N)
  | DeterministicUnavailable
  | DeadlineExceeded
  | Dispatch_Cancelled.

Record RuntimeRequestLimits := {
  rl_pre_upstream_wait : Duration;
  rl_upstream_connect : Duration;
  rl_upstream_non_stream_total : Duration;
  rl_upstream_stream_idle : Duration;
  rl_min_retry_budget : Duration;
  rl_cancel_grace : Duration;
  rl_queue_full_retry_after : Duration;
  rl_queue_wait_retry_after : Duration;
}.

(** A response before its delivery. *)
Inductive BodyKind := Sse | NonStream.

Abbreviation BodyItem := (result TransportError bytes).

Record RawUpstreamResponse := {
  rw_status : N;
  rw_headers : list (bytes * bytes);
  rw_kind : BodyKind;
  rw_body : list BodyItem;
}.

Definition byte_len (l : bytes) : N := N.of_nat (length l).

(** ** Durations ([Duration::as_secs], [as_millis], [from_millis]) *)
Definition NANOS_PER_MILLI : N := 1000000.

Definition as_secs (d : Duration) : N := d / NANOS_PER_SEC.

Definition as_millis (d : Duration) : N := d / NANOS_PER_MILLI.

Definition from_millis (n : N) : Duration := n * NANOS_PER_MILLI.

(** [u64::try_from(n).unwrap_or(u64::MAX)]. *)
Definition u64_or_max (n : N) : N := if n <=? U64_MAX then n else U64_MAX.

Definition duration_millis (value : Duration) : N := u64_or_max (as_millis value).

Definition retry_after_seconds (value : Duration) : N := N.max (u64_or_max (div_ceil (as_millis value) 1000)) 1.

(** ** Errors *)
Definition map_rejection (rejection : Rejection) (limits : RuntimeRequestLimits) : DispatchError :=
  let scheduler_retry_seconds :=
    match rejection.(rj_retry_after) with None => 1 | Some value => N.max (as_secs value) 1 end in
  match rejection.(rj_kind) with
  | QueueFull =>
      Dispatch_QueueFull
        (match rejection.(rj_retry_after) with
         | None => retry_after_seconds limits.(rl_queue_full_retry_after)
         | Some value => N.max (as_secs value) 1
         end)
  | GroupRateDeadline => GroupRateLimited scheduler_retry_seconds
  | CooldownBeyondDeadline => CredentialCooldown scheduler_retry_seconds
  | TimedOut | SessionCapacityDeadline => PreUpstreamTimeout (retry_after_seconds limits.(rl_queue_wait_retry_after))
  | SchedTypes.Cancelled => Dispatch_Cancelled
  | GroupUnavailable | DuplicateRequest => DeterministicUnavailable
  end.

Definition map_transport_error (error : TransportError) : DispatchError :=
  match error.(te_code) with
  | Code_Timeout => DeadlineExceeded
  | Code_Cancelled | CancelGraceExpired => Dispatch_Cancelled
  | EngineUnavailable | BundleRejected | AlpnMismatch | InternalInvariant => DeterministicUnavailable
  | _ => Unavailable
  end.

Definition transport_error_code (code : TransportErrorCode) : bytes :=
  bs match code with
     | EngineUnavailable => "engine_unavailable"
     | BundleRejected => "bundle_rejected"
     | ResolverFailure => "resolver_failure"
     | TcpConnectFailure => "tcp_connect_failure"
     | ProxyAuthentication => "proxy_authentication"
     | ProxyProtocol => "proxy_protocol"
     | TlsCertificate => "tls_certificate"
     | Code_TlsHandshake => "tls_handshake"
     | AlpnMismatch => "alpn_mismatch"
     | CipherMismatch => "cipher_mismatch"
     | Code_H1Framing => "h1_framing"
     | H2Protocol => "h2_protocol"
     | Code_Timeout => "timeout"
     | Code_Cancelled => "cancelled"
     | CancelGraceExpired => "cancel_grace_expired"
     | InternalInvariant => "internal_invariant"
     end.

Definition map_response_error (error : ResponseError) : DispatchError :=
  match error with
  | ResponseTotalTimeout => DeadlineExceeded
  | Response_Transport error => map_transport_error error
  | Response_Cancelled | ClientDisconnected => Dispatch_Cancelled
  | _ => Unavailable
  end.

(** [500 | 502 | 503 | 504]. *)
Definition is_upstream_5xx (status : N) : bool := existsb (N.eqb status) [500; 502; 503; 504].

Definition retry_error_class_for_status (status : N) : option RetryErrorClass :=
  if status =? 401 then Some Authentication401
  else if status =? 429 then Some RateLimited429
  else if status =? 529 then Some Overloaded529
  else if is_upstream_5xx status then Some Upstream5xx
  else None.

(** [request_id.as_bytes()[15]] is the parameter [last_byte]. *)
Definition retry_backoff (status messages_attempts last_byte : N) (retry_after : Duration) : Duration :=
  if status =? 429 then retry_after
  else if negb (is_upstream_5xx status || (status =? 529)) then 0
  else
    let exponent := N.min (saturating_sub messages_attempts 1) 3 in
    let base_ms := saturating_mul U64_MAX 100 (N.shiftl 1 exponent) in
    let jitter_percent := saturating_add U64_MAX 50 (last_byte mod 101) in
    from_millis (saturating_mul U64_MAX base_ms jitter_percent / 100).

Definition trusted_retry_after_headers (headers : list (bytes * bytes)) : option Duration :=
  match filter (λ header : bytes * bytes, eq_ignore_ascii_case header.1 (bs "retry-after") = true) headers with
  | [(_, value)] =>
      if utf8_valid value
      then (λ seconds, from_secs (N.min (N.max seconds 1) 900)) <$> from_str_radix 10 U64_MAX (trim value)
      else None
  | _ => None
  end.

Definition trusted_retry_after (response : RawUpstreamResponse) : option Duration := trusted_retry_after_headers response.(rw_headers).

Definition map_retry_status (status : N) (retry_after : Duration) : DispatchError :=
  if status =? 429 then CredentialCooldown (if retry_after =? 0 then 60 else N.max (as_secs retry_after) 1)
  else if is_upstream_5xx status || (status =? 529) then Overloaded (N.max (as_secs retry_after) 1)
  else Unavailable.

(** ** What is recorded *)
Definition bit (b : bool) : N := if b then 1 else 0.

Definition known_usage_field_mask (usage : UsageObservation) : N :=
  N.lor (N.lor (N.lor (bit (is_some usage.(uo_counts).(tc_input_tokens)))
    (N.shiftl (bit (is_some usage.(uo_counts).(tc_output_tokens))) 1))
    (N.shiftl (bit (is_some usage.(uo_counts).(tc_cache_creation_input_tokens))) 2))
    (N.shiftl (bit (is_some usage.(uo_counts).(tc_cache_read_input_tokens))) 3).

Definition estimate_cancel_input_tokens (generic_request_bytes : bytes) : N :=
  saturating_add U64_MAX (u64_or_max (N.of_nat (length generic_request_bytes))) 3 / 4.

Definition PICO_SCALE : N := 1000000000000.

Definition decimal_usd_to_pico_text (value : bytes) : option bytes :=
  let '(whole, fractional) := default (value, []) (split_once "."%char value) in
  if is_empty whole || negb (forallb is_ascii_digit whole) || (12 <? length fractional)%nat
     || negb (forallb is_ascii_digit fractional)
  then None
  else
    whole ← from_str_radix 10 U128_MAX whole ≫= λ whole, checked_mul U128_MAX whole PICO_SCALE;
    fractional ←
      (if is_empty fractional then Some 0
       else from_str_radix 10 U128_MAX fractional ≫= λ n, checked_mul U128_MAX n (10 ^ N.of_nat (12 - length fractional)));
    to_string <$> checked_add U128_MAX whole fractional.

Definition parse_client_os_code (value : bytes) : option ClientOs :=
  if bool_decide (value = bs "windows") then Some Windows
  else if bool_decide (value = bs "macos") then Some MacOs
  else if bool_decide (value = bs "linux") then Some Linux
  else None.

(** ** Text ([String::from_utf8_lossy]) *)

Definition REPLACEMENT_CHARACTER : bytes := [ascii_of_N 239; ascii_of_N 191; ascii_of_N 189].

(** The next character of a text that is not empty: whether it is well-formed, and its number of bytes; of an ill-formed
    one the longest start that a well-formed character could have. *)
Definition next_char (l : bytes) : bool * nat :=
  match l with
  | [] => (true, 0%nat)
  | a :: rest =>
      let at_ (i : nat) (f : ascii → bool) := is_some_and f (rest !! i) in
      if byte a <? 128 then (true, 1%nat)
      else if in_range 194 223 (byte a) then if at_ 0%nat continuation then (true, 2%nat) else (false, 1%nat)
      else if in_range 224 239 (byte a) then
        if at_ 0%nat (λ b, if byte a =? 224 then in_range 160 191 (byte b)
                           else if byte a =? 237 then in_range 128 159 (byte b) else continuation b)
        then if at_ 1%nat continuation then (true, 3%nat) else (false, 2%nat)
        else (false, 1%nat)
      else if in_range 240 244 (byte a) then
        if at_ 0%nat (λ b, if byte a =? 240 then in_range 144 191 (byte b)
                           else if byte a =? 244 then in_range 128 143 (byte b) else continuation b)
        then if at_ 1%nat continuation
             then if at_ 2%nat continuation then (true, 4%nat) else (false, 3%nat)
             else (false, 2%nat)
        else (false, 1%nat)
      else (false, 1%nat)
  end.

Fixpoint lossy_from (fuel : nat) (l : bytes) : bytes :=
  match fuel, l with
  | O, _ | _, [] => []
  | S fuel, _ =>
      let '(ok, n) := next_char l in
      (if ok : bool then take n l else REPLACEMENT_CHARACTER) ++ lossy_from fuel (drop n l)
  end.

Definition from_utf8_lossy (l : bytes) : bytes := lossy_from (length l) l.

Definition to_lowercase_ascii (l : bytes) : bytes := to_ascii_lowercase <$> l.

(** [chars().take(n).collect()]. *)
Definition take_chars (n : nat) (text : bytes) : bytes := concat (take n (chars text)).

(** ** Rejections of the client and of the account *)
Definition THIRD_PARTY_REJECTION_BODY_PREVIEW_BYTES : nat := 64 * 1024.

(** [(400..500).contains(&status) && status != 429]. *)
Definition body_eligible (status : N) : bool := (400 <=? status) && (status <? 500) && negb (status =? 429).

Definition is_third_party_rejection (status : N) (headers : list (bytes * bytes)) (body_preview : option bytes) : bool :=
  if negb (body_eligible status) then false
  else if existsb (λ header : bytes * bytes, starts_with (bs "x-cc-") (to_lowercase_ascii header.1)) headers then true
  else
    match body_preview with
    | None => false
    | Some body =>
        let body := to_lowercase_ascii (from_utf8_lossy body) in
        existsb (λ needle, contains (bs needle) body)
          ["attestation"; "third-party client"; "third party client"; "third_party_client"]%string
    end.

Section rejections.
Context {Num F : Type} `{SerdeJson Num F} (from_slice : bytes → option (Value Num)).

Definition account_error_message (body_preview : option bytes) : bytes :=
  match body_preview with
  | None => []
  | Some body =>
      match from_slice body ≫= λ value, pointer (bs "/error/message") value ≫= as_str with
      | Some message => take_chars 300 message
      | None => take_chars 300 (trim (from_utf8_lossy (take 512 body)))
      end
  end.

Definition account_rejection (status : N) (body_preview : option bytes) : option (bytes * bytes) :=
  if negb (status =? 403) && negb (status =? 400) then None
  else
    body ← body_preview;
    let body := to_lowercase_ascii (from_utf8_lossy body) in
    if status =? 403 then
      let code :=
        if existsb (λ needle, contains (bs needle) body) ["suspended"; "banned"; "violation"]%string
        then bs "account_suspended" else bs "account_forbidden" in
      Some (code, account_error_message body_preview)
    else
      (λ entry : string * string, (bs entry.2, account_error_message body_preview)) <$>
      find_map (λ entry : string * string, if contains (bs entry.1) body then Some entry else None)
        [("credit balance", "credit_balance"); ("organization has been disabled", "organization_disabled");
         ("identity verification", "identity_verification_required")]%string.

End rejections.

(** The state of the preview loop. *)
Record Preview := {
  pv_prefix : list BodyItem;
  pv_preview : bytes;
  pv_exhausted : bool;
  pv_upstream : list BodyItem;
}.

(** The loop: [patience] is the number of receives that answer in time. The channel is closed when its items are all taken. *)
Fixpoint preview_loop (patience : nat) (upstream prefix : list BodyItem) (preview : bytes) : Preview :=
  if (THIRD_PARTY_REJECTION_BODY_PREVIEW_BYTES <=? length preview)%nat
  then {| pv_prefix := prefix; pv_preview := preview; pv_exhausted := false; pv_upstream := upstream |}
  else
    match patience, upstream with
    | O, _ => {| pv_prefix := prefix; pv_preview := preview; pv_exhausted := false; pv_upstream := upstream |}
    | S _, [] => {| pv_prefix := prefix; pv_preview := preview; pv_exhausted := true; pv_upstream := [] |}
    | S patience, item :: upstream =>
        match item with
        | Ok l =>
            let remaining := (THIRD_PARTY_REJECTION_BODY_PREVIEW_BYTES - length preview)%nat in
            preview_loop patience upstream (prefix ++ [item]) (preview ++ take (Nat.min (length l) remaining) l)
        | Err _ => {| pv_prefix := prefix ++ [item]; pv_preview := preview; pv_exhausted := true; pv_upstream := upstream |}
        end
    end.

(** What the relay task sends when nobody closes its channel. *)
Definition replay_response_body (patience : nat) (upstream : list BodyItem) : list BodyItem * bytes :=
  let loop := preview_loop patience upstream [] [] in
  (loop.(pv_prefix) ++ (if loop.(pv_exhausted) then [] else loop.(pv_upstream)), loop.(pv_preview)).

Definition classify_and_replay_response (patience : nat) (response : RawUpstreamResponse)
    : RawUpstreamResponse * bool * option bytes :=
  let header_rejection := is_third_party_rejection response.(rw_status) response.(rw_headers) None in
  if negb (body_eligible response.(rw_status)) || header_rejection then (response, header_rejection, None)
  else
    let '(body, preview) := replay_response_body patience response.(rw_body) in
    let response := {| rw_status := response.(rw_status); rw_headers := response.(rw_headers);
                       rw_kind := response.(rw_kind); rw_body := body |} in
    (response, is_third_party_rejection response.(rw_status) response.(rw_headers) (Some preview), Some preview).

(** ** The capture of a response body *)
Inductive ResponseCaptureEvent :=
  | Capture_Body (l : bytes)
  | Capture_Finished (complete : bool).

(** The tap, with what it put in the channel. [tp_sender] says whether it still holds the sender. *)
Record PlainResponseCaptureTap := {
  tp_sender : bool;
  tp_gap : bool;
  tp_truncated : bool;
  tp_observed : N;
  tp_limit : N;
  tp_finished : bool;
  tp_sent : list ResponseCaptureEvent;
}.

Definition plain_response_capture_channel (limit : N) : PlainResponseCaptureTap :=
  {| tp_sender := true; tp_gap := false; tp_truncated := false; tp_observed := 0; tp_limit := limit; tp_finished := false; tp_sent := [] |}.

(** [try_send]: [fits] says whether the channel has room and its receiver is there. *)
Definition tap_observe (fits : bool) (l : bytes) (self : PlainResponseCaptureTap) : PlainResponseCaptureTap :=
  if self.(tp_finished) || self.(tp_gap) then self
  else
    let remaining := saturating_sub self.(tp_limit) self.(tp_observed) in
    if remaining =? 0
    then Build_PlainResponseCaptureTap self.(tp_sender) self.(tp_gap) true self.(tp_observed) self.(tp_limit) self.(tp_finished) self.(tp_sent)
    else
      let truncated := self.(tp_truncated) || (remaining <? byte_len l) in
      let l := take (N.to_nat (N.min (byte_len l) remaining)) l in
      let observed := saturating_add USIZE_MAX self.(tp_observed) (byte_len l) in
      if self.(tp_sender) && negb fits
      then Build_PlainResponseCaptureTap false true truncated observed self.(tp_limit) self.(tp_finished) self.(tp_sent)
      else Build_PlainResponseCaptureTap self.(tp_sender) self.(tp_gap) truncated observed self.(tp_limit) self.(tp_finished)
             (if self.(tp_sender) then self.(tp_sent) ++ [Capture_Body l] else self.(tp_sent)).

Definition tap_finish (fits complete : bool) (self : PlainResponseCaptureTap) : PlainResponseCaptureTap :=
  if self.(tp_finished) then self
  else
    Build_PlainResponseCaptureTap false (self.(tp_gap) || (self.(tp_sender) && negb fits)) self.(tp_truncated) self.(tp_observed) self.(tp_limit) true
      (if self.(tp_sender) && fits then self.(tp_sent) ++ [Capture_Finished complete] else self.(tp_sent)).

(** [Drop]. *)
Definition tap_drop (fits : bool) (self : PlainResponseCaptureTap) : PlainResponseCaptureTap := tap_finish fits false self.

(** The task that stores the body: the loop over the events, and the arguments of [capture_response_body]. *)
Fixpoint capture_loop (events : list ResponseCaptureEvent) (body : bytes) : bytes * bool :=
  match events with
  | [] => (body, false)
  | Capture_Body l :: events => capture_loop events (body ++ l)
  | Capture_Finished value :: _ => (body, value)
  end.

Definition persist_plain_response_body (tap : PlainResponseCaptureTap) : bytes * bool :=
  let '(body, complete) := capture_loop tap.(tp_sent) [] in
  (body, complete && negb tap.(tp_gap) && negb tap.(tp_truncated)).

(** ** Resource events *)
Record SchedulerResourceEventRecord (Uuid : Type) := {
  sr_event_id : Uuid;
  sr_request_id : Uuid;
  sr_resource_kind_code : string;
  sr_resource_token_id : option string;
  sr_action_code : string;
  sr_portability_code : string;
  sr_owner_generation : Z;
  sr_event_sequence : Z;
  sr_release_reason_code : option string;
}.
Arguments Build_SchedulerResourceEventRecord {Uuid}.

(** [to_be_bytes] of an unsigned integer. *)
Fixpoint to_be_bytes (width : nat) (n : N) : bytes :=
  match width with
  | O => []
  | S width => to_be_bytes width (n / 256) ++ [ascii_of_N (n mod 256)]
  end.

(** Setting the version and the variant of a UUID. *)
Definition stamp (version : N) (l : bytes) : bytes :=
  let set (i : nat) (mask bits : N) (l : bytes) := alter (λ c, ascii_of_N (N.lor (N.land (byte c) mask) bits)) i l in
  set 8%nat 63 128 (set 6%nat 15 version l).

(** [i64::try_from]. *)
Definition i64_of (n : N) : option Z := if (Z.of_N n <=? ISIZE_MAX)%Z then Some (Z.of_N n) else None.

(** [strip_prefix("req_").unwrap_or(id)]. *)
Definition plain_request_id (id : RequestId) : bytes :=
  let id := bs (TypedId_as_str id) in default id (strip_prefix (bs "req_") id).

Definition is_unknown_extension (reason : PinReason) : bool := match reason with UnknownExtension => true | _ => false end.

Section resource_events.
Context {Uuid : Type} (parse_str : bytes → option Uuid) (from_bytes : bytes → Uuid) (as_bytes : Uuid → bytes) (sha256 : bytes → bytes).

Definition parse_uuid (value : bytes) : result DispatchError Uuid :=
  match parse_str value with Some id => Ok id | None => Err Unavailable end.

Definition request_uuid (request_id : RequestId) : result DispatchError Uuid := parse_uuid (plain_request_id request_id).

Definition scheduler_resource_record (group_id : Uuid) (event : ResourceEvent)
    : result DispatchError (SchedulerResourceEventRecord Uuid) :=
  match parse_str (plain_request_id event.(re_request_id)) with
  | None => Err Unavailable
  | Some request_id =>
      let digest :=
        sha256 (bs "gateway-scheduler-resource-event-v1" ++ [ascii_of_N 0] ++ as_bytes group_id
                ++ to_be_bytes 8 event.(re_generation).(og_value) ++ to_be_bytes 8 event.(re_sequence)) in
      match i64_of event.(re_generation).(og_value), i64_of event.(re_sequence) with
      | Some generation, Some sequence =>
          Ok {| sr_event_id := from_bytes (stamp 128 (take 16 digest));
                sr_request_id := request_id;
                sr_resource_kind_code :=
                  match event.(re_resource_kind) with
                  | GroupPermitResource => "group_permit"
                  | QueueTicketResource => "queue_ticket"
                  | SessionClaimResource => "session_claim"
                  | CredentialLeaseResource => "credential_lease"
                  end;
                sr_resource_token_id := Some event.(re_resource_id);
                sr_action_code :=
                  match event.(re_action) with Acquire => "acquire" | Release => "release" | ForcedRelease => "forced_release" end;
                sr_portability_code :=
                  match event.(re_portability) with
                  | Portable => "portable"
                  | Pinned _ reasons => if existsb is_unknown_extension reasons then "unknown" else "account_bound"
                  end;
                sr_owner_generation := generation;
                sr_event_sequence := sequence;
                sr_release_reason_code :=
                  if bool_decide (event.(re_action) = ForcedRelease) then Some "forced_release"%string else None |}%string
      | _, _ => Err Unavailable
      end
  end.

End resource_events.

(** ** Lemmas *)

Lemma digits_fold_ge acc l : acc <= foldl (λ n c, 10 * n + (byte c - 48)) acc l.
Proof. revert acc. induction l as [|c l IH]; intros acc; simpl; [done|]. etrans; [|apply IH]. lia. Qed.

(** Parsing digits is exact, and fails only above the maximum. *)
Lemma parse_digits_exact max acc l : forallb is_ascii_digit l = true → acc <= max →
  parse_digits 10 max acc l =
    let value := foldl (λ n c, 10 * n + (byte c - 48)) acc l in if value <=? max then Some value else None.
Proof.
  revert acc. induction l as [|c l IH]; intros acc Hd Hm; cbn [parse_digits foldl forallb] in *.
  { by rewrite (proj2 (N.leb_le _ _)). }
  apply andb_true_iff in Hd as [Hc Hd]. destruct (digit_value c Hc) as [-> _]. unfold checked_mul, checked_add.
  pose proof (digits_fold_ge (10 * acc + (byte c - 48)) l) as Hge. rewrite (N.mul_comm acc).
  destruct (N.leb_spec (10 * acc) max) as [H1|H1]; [destruct (N.leb_spec (10 * acc + (byte c - 48)) max) as [H2|H2]|].
  - by apply IH.
  - cbv zeta. by rewrite (proj2 (N.leb_gt _ _)) by lia.
  - cbv zeta. by rewrite (proj2 (N.leb_gt _ _)) by lia.
Qed.

Lemma digits_parse max l : l ≠ [] → forallb is_ascii_digit l = true →
  from_str_radix 10 max l = if digits_value l <=? max then Some (digits_value l) else None.
Proof.
  intros Hne Hd. destruct l as [|c l]; [done|]. unfold from_str_radix. rewrite decide_False by (intros ->; by simpl in Hd).
  apply (parse_digits_exact max 0 (c :: l) Hd). apply N.le_0_l.
Qed.

(** A decimal amount: digits, and at most twelve of them after a point. *)
Definition pico_grammar (value whole fractional : bytes) : Prop :=
  (value = whole ++ "."%char :: fractional ∨ value = whole ∧ fractional = []) ∧
  whole ≠ [] ∧ forallb is_ascii_digit whole = true ∧ forallb is_ascii_digit fractional = true ∧ (length fractional <= 12)%nat.

Definition pico_amount (whole fractional : bytes) : N :=
  digits_value whole * PICO_SCALE + digits_value fractional * 10 ^ N.of_nat (12 - length fractional).

Lemma digits_no_point l : forallb is_ascii_digit l = true → "."%char ∉ l.
Proof. intros Hd Hin. rewrite forallb_forall in Hd. by specialize (Hd _ (proj1 (list_elem_of_In _ _) Hin)). Qed.

Lemma pico_split value whole fractional : pico_grammar value whole fractional →
  default (value, []) (split_once "."%char value) = (whole, fractional).
Proof.
  intros [Hv (_ & Hd & _)]. apply digits_no_point in Hd. destruct Hv as [->|[-> ->]].
  - by rewrite split_once_app.
  - apply split_once_None in Hd as ->. done.
Qed.

Lemma pico_fraction_bound fractional : forallb is_ascii_digit fractional = true → (length fractional <= 12)%nat →
  digits_value fractional <= U128_MAX ∧ 10 ^ N.of_nat (12 - length fractional) <= PICO_SCALE ∧
  digits_value fractional * 10 ^ N.of_nat (12 - length fractional) < PICO_SCALE.
Proof.
  intros Hd Hl. pose proof (digits_value_bound _ Hd) as Hb.
  assert (10 ^ N.of_nat (length fractional) * 10 ^ N.of_nat (12 - length fractional) = PICO_SCALE) as Hp.
  { rewrite <- N.pow_add_r, <- Nat2N.inj_add. by replace (length fractional + (12 - length fractional))%nat with 12%nat by lia. }
  assert (1 <= 10 ^ N.of_nat (12 - length fractional)) by (apply (N.pow_le_mono_r 10 0); lia).
  assert (1 <= 10 ^ N.of_nat (length fractional)) by (apply (N.pow_le_mono_r 10 0); lia).
  assert (PICO_SCALE <= U128_MAX) by (by vm_compute). split_and!; nia.
Qed.

Lemma decimal_pico value whole fractional : pico_grammar value whole fractional →
  decimal_usd_to_pico_text value =
    if pico_amount whole fractional <=? U128_MAX then Some (to_string (pico_amount whole fractional)) else None.
Proof.
  intros Hg. pose proof (pico_split _ _ _ Hg) as Hs. destruct Hg as (_ & Hne & Hdw & Hdf & Hl). unfold decimal_usd_to_pico_text. rewrite Hs, Hdw, Hdf.
  assert (is_empty whole = false) as -> by by destruct whole. rewrite (proj2 (Nat.ltb_ge _ _)) by done. cbn [negb orb].
  rewrite (digits_parse _ whole) by done. destruct (pico_fraction_bound _ Hdf Hl) as (Hb1 & Hb2 & Hb3). set (f := digits_value fractional * _) in *.
  assert ((if is_empty fractional then Some 0
           else from_str_radix 10 U128_MAX fractional ≫= λ n, checked_mul U128_MAX n (10 ^ N.of_nat (12 - length fractional))) = Some f) as Ef.
  { destruct fractional as [|c l] eqn:E; [done|]. cbn [is_empty]. rewrite digits_parse by done. rewrite (proj2 (N.leb_le _ _)) by done.
    cbn [mbind option_bind]. unfold checked_mul. fold f. by rewrite (proj2 (N.leb_le _ _)) by (assert (PICO_SCALE <= U128_MAX) by (by vm_compute); lia). }
  rewrite Ef. unfold pico_amount. fold f. unfold checked_mul, checked_add. set (w := digits_value whole) in *.
  destruct (N.leb_spec w U128_MAX) as [Hw|Hw]; cbn [mbind option_bind].
  - destruct (N.leb_spec (w * PICO_SCALE) U128_MAX) as [Hws|Hws]; cbn [mbind option_bind].
    + destruct (w * PICO_SCALE + f <=? U128_MAX); done.
    + by rewrite (proj2 (N.leb_gt _ _)) by lia.
  - rewrite (proj2 (N.leb_gt _ _)); [done|]. unfold PICO_SCALE. lia.
Qed.

Lemma decimal_pico_grammar value text : decimal_usd_to_pico_text value = Some text → ∃ whole fractional, pico_grammar value whole fractional.
Proof.
  unfold decimal_usd_to_pico_text. destruct (split_once "."%char value) as [[whole fractional]|] eqn:Es; cbn [default from_option id].
  - apply split_once_Some in Es as ->. destruct (_ || _ || _ || _)%bool eqn:E; [done|]. bool_prop. intros _.
    exists whole, fractional. split; [by left|]. split_and!; try done; [by destruct whole|by apply Nat.ltb_ge].
  - destruct (_ || _ || _ || _)%bool eqn:E; [done|]. bool_prop. intros _. exists value, []. split; [by right|]. split_and!; try done; [by destruct value|simpl; lia].
Qed.

Lemma digits_value_string n : digits_value (to_string n) = n ∧ forallb is_ascii_digit (to_string n) = true ∧ to_string n ≠ [].
Proof.
  pose proof (format_radix_digits 10 ltac:(done) ltac:(done) n) as Hd. pose proof (format_radix_length 10 ltac:(done) ltac:(done) n) as Hlen.
  assert (forallb is_ascii_digit (to_string n) = true) as Hdig.
  { apply forallb_forall. intros c Hin%list_elem_of_In. rewrite Forall_forall in Hd. by apply digit_of_is_digit, Hd. }
  split_and!; [|done|]; [|intros E; unfold to_string in E; rewrite E in Hlen; simpl in Hlen; lia].
  pose proof (to_string_parse n n ltac:(lia)) as Hp. rewrite parse_digits_exact in Hp by (done || lia). cbv zeta in Hp.
  destruct (_ <=? n); [by injection Hp|done].
Qed.

Lemma digits_value_padded k n : digits_value (pad_left k (to_string n)) = n ∧ forallb is_ascii_digit (pad_left k (to_string n)) = true.
Proof.
  destruct (digits_value_string n) as (Hv & Hd & _). unfold pad_left. split.
  - unfold digits_value. rewrite foldl_app. assert (∀ k, foldl (λ n c, 10 * n + (byte c - 48)) 0 (replicate k "0"%char) = 0) as ->; [|done].
    clear. induction k as [|k IH]; [done|]. simpl. done.
  - rewrite forallb_app, Hd. rewrite andb_true_r. generalize (k - length (to_string n))%nat as j. induction j as [|j IH]; [done|]. simpl. done.
Qed.

Lemma as_secs_le a b : a <= b → as_secs a <= as_secs b.
Proof. apply N.Div0.div_le_mono. Qed.

(** ** The preview *)

(** An error ends a body. *)
Definition errors_last (body : list BodyItem) : Prop := ∀ i e, body !! i = Some (Err e) → S i = length body.

Definition item_bytes (item : BodyItem) : bytes := match item with Ok l => l | Err _ => [] end.

Definition body_bytes (body : list BodyItem) : bytes := concat (item_bytes <$> body).

Lemma errors_last_tail item body : errors_last (item :: body) → errors_last body.
Proof. intros Hl i e Hi. specialize (Hl (S i) e Hi). simpl in Hl. lia. Qed.

Lemma preview_loop_spec patience upstream prefix preview :
  errors_last upstream → (length preview <= THIRD_PARTY_REJECTION_BODY_PREVIEW_BYTES)%nat →
  preview = take THIRD_PARTY_REJECTION_BODY_PREVIEW_BYTES (body_bytes prefix) →
  let loop := preview_loop patience upstream prefix preview in
  loop.(pv_prefix) ++ (if loop.(pv_exhausted) then [] else loop.(pv_upstream)) = prefix ++ upstream ∧
  (length loop.(pv_preview) <= THIRD_PARTY_REJECTION_BODY_PREVIEW_BYTES)%nat ∧
  loop.(pv_preview) = take THIRD_PARTY_REJECTION_BODY_PREVIEW_BYTES (body_bytes loop.(pv_prefix)) ∧
  (∃ rest, prefix ++ upstream = loop.(pv_prefix) ++ rest).
Proof.
  revert upstream prefix preview. induction patience as [|patience IH]; intros upstream prefix preview Hl Hlen Hp; cbn zeta.
  - cbn [preview_loop]. destruct (_ <=? _)%nat; cbn [pv_prefix pv_exhausted pv_upstream pv_preview]; split_and!; try done; by eexists.
  - cbn [preview_loop]. destruct (Nat.leb_spec THIRD_PARTY_REJECTION_BODY_PREVIEW_BYTES (length preview)) as [Hfull|Hroom].
    { cbn [pv_prefix pv_exhausted pv_upstream pv_preview]. split_and!; try done. by eexists. }
    destruct upstream as [|[l|e] upstream]; cbn [pv_prefix pv_exhausted pv_upstream pv_preview].
    + rewrite !app_nil_r. split_and!; try done. exists []. by rewrite app_nil_r.
    + specialize (IH upstream (prefix ++ [Ok l]) (preview ++ take (Nat.min (length l) (THIRD_PARTY_REJECTION_BODY_PREVIEW_BYTES - length preview)) l)).
      rewrite <- app_assoc in IH. apply IH.
      * by eapply errors_last_tail.
      * rewrite length_app, length_take. lia.
      * clear IH. assert (length preview = length (body_bytes prefix)) as Elen by (rewrite Hp, length_take in *; lia).
        unfold body_bytes in *. rewrite fmap_app, concat_app, take_app, <- Hp. f_equal. simpl. rewrite app_nil_r, <- Elen.
        rewrite Nat.min_comm, <- take_take. by rewrite firstn_all.
    + assert (upstream = []) as ->. { specialize (Hl 0%nat e eq_refl). simpl in Hl. by destruct upstream. }
      rewrite app_nil_r. split_and!; try done.
      * subst preview. unfold body_bytes. rewrite fmap_app, concat_app. simpl. by rewrite app_nil_r.
      * exists []. by rewrite app_nil_r.
Qed.

(** ** The capture *)

Definition sent_body (events : list ResponseCaptureEvent) : bytes :=
  concat (omap (λ event, match event with Capture_Body l => Some l | Capture_Finished _ => None end) events).

Definition is_body (event : ResponseCaptureEvent) : Prop := match event with Capture_Body _ => True | Capture_Finished _ => False end.

Definition tap_observe_all (items : list (bool * bytes)) (tap : PlainResponseCaptureTap) : PlainResponseCaptureTap :=
  foldl (λ tap '(fits, l), tap_observe fits l tap) tap items.

Record tap_inv (seen : bytes) (tap : PlainResponseCaptureTap) : Prop := {
  ti_open : tap.(tp_finished) = false;
  ti_sender : tap.(tp_sender) = negb tap.(tp_gap);
  ti_bodies : Forall is_body tap.(tp_sent);
  ti_prefix : ∃ rest, seen = sent_body tap.(tp_sent) ++ rest;
  ti_within : byte_len (sent_body tap.(tp_sent)) <= tap.(tp_limit);
  ti_count : tap.(tp_gap) = false → tap.(tp_observed) = byte_len (sent_body tap.(tp_sent));
  ti_exact : tap.(tp_gap) = false → tap.(tp_truncated) = false → sent_body tap.(tp_sent) = seen;
  ti_full : tap.(tp_gap) = false → tap.(tp_truncated) = true → tap.(tp_observed) = tap.(tp_limit);
}.

Lemma sent_body_snoc events l : sent_body (events ++ [Capture_Body l]) = sent_body events ++ l.
Proof. unfold sent_body. rewrite omap_app, concat_app. simpl. by rewrite app_nil_r. Qed.

#[local] Arguments sent_body : simpl never.
#[local] Arguments byte_len : simpl never.
#[local] Arguments saturating_add : simpl never.

Lemma tap_observe_inv fits l seen tap : tap.(tp_limit) <= USIZE_MAX → tap_inv seen tap → tap_inv (seen ++ l) (tap_observe fits l tap).
Proof.
  intros Hmax [Hopen Hsender Hbodies [rest Hrest] Hwithin Hcount Hexact Hfull]. unfold tap_observe. rewrite Hopen. cbn [orb].
  destruct (tp_gap tap) eqn:Egap.
  { split; rewrite ?Egap; try done. exists (rest ++ l). by rewrite Hrest, app_assoc. }
  specialize (Hcount eq_refl). specialize (Hexact eq_refl). specialize (Hfull eq_refl). unfold saturating_sub. cbn [negb] in Hsender. rewrite Hsender.
  destruct (N.eqb_spec (tp_limit tap - tp_observed tap) 0) as [Ez|Ez].
  { split; cbn; rewrite ?Egap; try done; [exists (rest ++ l); by rewrite Hrest, app_assoc|]. intros _ _. lia. }
  assert (tp_truncated tap = false) as Etr. { destruct (tp_truncated tap); [|done]. specialize (Hfull eq_refl). lia. }
  rewrite Etr in *. cbn [orb]. specialize (Hexact eq_refl). set (kept := take _ l).
  assert (byte_len kept = N.min (byte_len l) (tp_limit tap - tp_observed tap)) as Hkept.
  { unfold kept, byte_len. rewrite length_take. lia. }
  destruct fits; cbn [andb negb].
  - split; cbn; rewrite ?sent_body_snoc; try done.
    + apply Forall_app. by split; [|repeat constructor].
    + exists (drop (N.to_nat (N.min (byte_len l) (tp_limit tap - tp_observed tap))) l). rewrite Hexact, <- app_assoc. f_equal. symmetry. apply take_drop.
    + unfold byte_len in *. rewrite length_app. lia.
    + intros _. unfold saturating_add, byte_len in *. rewrite length_app. lia.
    + intros _ Ht. bool_prop. rewrite Hexact. f_equal. unfold kept. rewrite take_ge; [done|]. unfold byte_len in *. lia.
    + intros _ Ht. apply N.ltb_lt in Ht. unfold saturating_add. lia.
  - split; cbn; try done. exists (rest ++ l). by rewrite Hrest, app_assoc.
Qed.

Lemma capture_loop_bodies events tail body : Forall is_body events →
  capture_loop (events ++ tail) body = capture_loop tail (body ++ sent_body events).
Proof.
  intros Hb. revert body. induction Hb as [|[l|v] events He Hb IH]; intros body; [by rewrite app_nil_r| |done]. simpl. rewrite IH.
  by rewrite <- app_assoc.
Qed.

Lemma tap_observe_all_inv items seen tap : tap.(tp_limit) <= USIZE_MAX → tap_inv seen tap →
  tap_inv (seen ++ concat items.*2) (tap_observe_all items tap) ∧ (tap_observe_all items tap).(tp_limit) = tap.(tp_limit).
Proof.
  revert seen tap. induction items as [|[fits l] items IH]; intros seen tap Hmax Hinv; [by rewrite app_nil_r|].
  cbn [tap_observe_all foldl]. fold (tap_observe_all items (tap_observe fits l tap)).
  assert ((tap_observe fits l tap).(tp_limit) = tap.(tp_limit)) as El. { unfold tap_observe. by repeat case_match. }
  destruct (IH (seen ++ l) (tap_observe fits l tap)) as [IH1 IH2]; [by rewrite El|by apply tap_observe_inv|].
  rewrite fmap_cons. simpl. rewrite app_assoc. split; [done|by rewrite IH2].
Qed.

(** ** Theorems *)

(** the amount of a cost record in pico-USD. A text is converted exactly when it is decimal digits, with at most twelve after
    a point, and its amount in pico-USD fits in 128 bits; the result is that amount, without rounding; and every amount that the cost
    calculation writes is converted back to itself. *)
Theorem decimal_pico_exact value text :
  (decimal_usd_to_pico_text value = Some text ↔
    ∃ whole fractional, pico_grammar value whole fractional ∧ pico_amount whole fractional <= U128_MAX ∧
      text = to_string (pico_amount whole fractional)) ∧
  ∀ amount, amount <= U128_MAX → decimal_usd_to_pico_text (format_pico_usd amount) = Some (to_string amount).
Proof.
  split; [split|].
  - intros Ht. destruct (decimal_pico_grammar _ _ Ht) as (whole & fractional & Hg). rewrite (decimal_pico _ _ _ Hg) in Ht.
    exists whole, fractional. destruct (N.leb_spec (pico_amount whole fractional) U128_MAX); [|done]. by injection Ht as <-.
  - intros (whole & fractional & Hg & Hle & ->). rewrite (decimal_pico _ _ _ Hg). by rewrite (proj2 (N.leb_le _ _)).
  - intros amount Hle. unfold format_pico_usd. set (w := amount / _). set (f := amount mod _).
    assert (f < PICO_USD_PER_USD) as Hf by by apply N.mod_lt.
    destruct (digits_value_string w) as (Hw1 & Hw2 & Hw3). destruct (digits_value_padded 12 f) as [Hf1 Hf2].
    assert (length (pad_left 12 (to_string f)) = 12%nat) as Hlen by by apply pad_left_length.
    assert (pico_grammar (to_string w ++ ["."%char] ++ pad_left 12 (to_string f)) (to_string w) (pad_left 12 (to_string f))) as Hg.
    { split; [by left|]. split_and!; try done. by rewrite Hlen. }
    rewrite (decimal_pico _ _ _ Hg). unfold pico_amount. rewrite Hw1, Hf1, Hlen, Nat.sub_diag, N.mul_1_r.
    assert (w * PICO_SCALE + f = amount) as ->; [|by rewrite (proj2 (N.leb_le _ _))].
    rewrite N.mul_comm. symmetry. by apply N.div_mod.
Qed.

(** classifying a response leaves it as it was: the client gets the same status, the same headers and the same items of the body,
    however many of them the preview waited for. The preview is the start of the body, of at most 64 KiB; only
    a response of the 4xx class other than 429 is ever called a rejection of the client, and one whose headers
    say so is called it without a look at its body. *)
Theorem response_replayed patience response :
  errors_last response.(rw_body) →
  let '(replayed, rejected, preview) := classify_and_replay_response patience response in
  replayed = response ∧
  (rejected = true → 400 <= response.(rw_status) < 500 ∧ response.(rw_status) ≠ 429) ∧
  match preview with
  | None => rejected = is_third_party_rejection response.(rw_status) response.(rw_headers) None
  | Some preview =>
      rejected = is_third_party_rejection response.(rw_status) response.(rw_headers) (Some preview) ∧
      (length preview <= THIRD_PARTY_REJECTION_BODY_PREVIEW_BYTES)%nat ∧ ∃ rest, body_bytes response.(rw_body) = preview ++ rest
  end.
Proof.
  intros Hl. unfold classify_and_replay_response.
  assert (∀ preview, is_third_party_rejection (rw_status response) (rw_headers response) preview = true →
    400 <= response.(rw_status) < 500 ∧ response.(rw_status) ≠ 429) as Hclass.
  { intros preview. unfold is_third_party_rejection. destruct (body_eligible _) eqn:E; [|done]. unfold body_eligible in E. bool_prop. intros _. lia. }
  destruct (negb _ || _) eqn:E; [split_and!; try done; by apply Hclass|]. unfold replay_response_body.
  destruct (preview_loop_spec patience response.(rw_body) [] [] Hl) as (Hsame & Hlen & Hpre & rest & Hrest); [simpl; lia|done|].
  rewrite Hsame. cbn [app rw_status rw_headers]. split_and!; try done.
  - by destruct response.
  - by apply Hclass.
  - rewrite Hpre. exists (drop THIRD_PARTY_REJECTION_BODY_PREVIEW_BYTES (body_bytes (pv_prefix (preview_loop patience (rw_body response) [] []))) ++ body_bytes rest).
    rewrite app_assoc, take_drop. unfold body_bytes. rewrite <- concat_app, <- fmap_app, <- Hrest. done.
Qed.

(** what is kept of a response body. It is the start of what was sent to the client, within the limit, whatever the channel
    could take; and it is called complete only when the response was complete and nothing of it is missing. *)
Theorem capture_exact limit items fits complete :
  limit <= USIZE_MAX →
  let tap := tap_finish fits complete (tap_observe_all items (plain_response_capture_channel limit)) in
  let '(body, whole) := persist_plain_response_body tap in
  byte_len body <= limit ∧ (∃ rest, concat items.*2 = body ++ rest) ∧ (whole = true → complete = true ∧ body = concat items.*2).
Proof.
  intros Hmax. set (start := plain_response_capture_channel limit).
  assert (tap_inv [] start) as Hstart by (split; try done; [by exists []|apply N.le_0_l]).
  destruct (tap_observe_all_inv items [] start Hmax Hstart) as [[Hopen Hsender Hbodies [rest Hrest] Hwithin _ Hexact _] Elimit].
  rewrite app_nil_l in *. rewrite Elimit in Hwithin. change (tp_limit start) with limit in Hwithin.
  set (tap := tap_observe_all items start) in *. cbv zeta. unfold persist_plain_response_body, tap_finish. rewrite Hopen, Hsender.
  cbn [tp_sent tp_gap tp_truncated]. destruct (tp_gap tap) eqn:Egap; cbn [negb andb orb].
  - rewrite <- (app_nil_r (tp_sent tap)), capture_loop_bodies by done. cbn [capture_loop app]. split_and!; try done. by exists rest.
  - destruct fits; cbn [negb orb].
    + rewrite capture_loop_bodies by done. cbn [capture_loop app]. split_and!; [done|by exists rest|]. intros Hw. bool_prop. split; [done|]. by apply Hexact.
    + rewrite <- (app_nil_r (tp_sent tap)), capture_loop_bodies by done. cbn [capture_loop app]. split_and!; try done. by exists rest.
Qed.

(** the backoff before the next attempt: what the upstream asked for after 429, and for an overload or a failure between
    50 milliseconds and 1.2 seconds, with a base that doubles with each attempt up to the fourth; other responses are
    not waited for. A trusted Retry-After is between one second and fifteen minutes. *)
Theorem retry_waits_bounded status messages_attempts last_byte retry_after headers :
  (retry_backoff 429 messages_attempts last_byte retry_after = retry_after) ∧
  (status ∈ [500; 502; 503; 504; 529] →
    from_millis 50 <= retry_backoff status messages_attempts last_byte retry_after <= from_millis 1200 ∧
    ∃ percent, 50 <= percent <= 150 ∧
      retry_backoff status messages_attempts last_byte retry_after = from_millis (2 ^ N.min (messages_attempts - 1) 3 * percent)) ∧
  (status ∉ [429; 500; 502; 503; 504; 529] → retry_backoff status messages_attempts last_byte retry_after = 0) ∧
  ∀ wait, trusted_retry_after_headers headers = Some wait → from_secs 1 <= wait <= from_secs 900.
Proof.
  split; [done|]. split; [|split].
  - intros Hs. assert ((status =? 429) = false ∧ is_upstream_5xx status || (status =? 529) = true) as [E1 E2].
    { rewrite !elem_of_cons in Hs. destruct Hs as [->|[->|[->|[->|[->|[]%elem_of_nil]]]]]; done. }
    unfold retry_backoff. rewrite E1, E2. cbn [negb]. unfold saturating_sub. set (e := N.min (messages_attempts - 1) 3).
    assert (e = 0 ∨ e = 1 ∨ e = 2 ∨ e = 3) as He by lia. pose proof (N.mod_lt last_byte 101 ltac:(done)) as Hm. set (j := last_byte mod 101) in *.
    assert (saturating_add U64_MAX 50 j = 50 + j) as -> by (unfold saturating_add; apply N.min_l; assert (150 <= U64_MAX) by (by vm_compute); lia).
    assert (saturating_mul U64_MAX 100 (N.shiftl 1 e) = 100 * 2 ^ e) as ->.
    { rewrite N.shiftl_1_l. unfold saturating_mul. apply N.min_l. by destruct He as [->|[->|[->| ->]]]. }
    assert (2 ^ e <= 8 ∧ 1 <= 2 ^ e) as [H8 H1] by (destruct He as [->|[->|[->| ->]]]; by vm_compute).
    assert (saturating_mul U64_MAX (100 * 2 ^ e) (50 + j) = 2 ^ e * (50 + j) * 100) as ->.
    { unfold saturating_mul. rewrite N.min_l; [lia|]. assert (120000 <= U64_MAX) by (by vm_compute). nia. }
    rewrite N.div_mul by done. split; [unfold from_millis; nia|]. exists (50 + j). split; [lia|done].
  - intros Hs. rewrite !not_elem_of_cons in Hs. destruct Hs as (H1 & H2 & H3 & H4 & H5 & H6 & _). unfold retry_backoff, is_upstream_5xx. cbn [existsb].
    by rewrite !(proj2 (N.eqb_neq _ _)) by done.
  - unfold trusted_retry_after_headers. intros wait. destruct (filter _ _) as [|[name value] [|]]; try done. destruct (utf8_valid value); [|done].
    destruct (from_str_radix _ _ _) as [seconds|]; [|done]. intros [= <-]. unfold from_secs. nia.
Qed.

(** ** Samples *)

Definition sample_response : RawUpstreamResponse :=
  {| rw_status := 403; rw_headers := [(bs "content-type", bs "application/json")]; rw_kind := NonStream;
     rw_body := [Ok (bs "Third-Party "); Ok (bs "client refused")] |}.

Lemma response_replayed_witness :
  ∃ replayed preview, classify_and_replay_response 5 sample_response = (replayed, true, Some preview) ∧ replayed = sample_response ∧
    preview = bs "Third-Party client refused".
Proof.
  pose proof (response_replayed 5 sample_response) as Hw.
  assert (classify_and_replay_response 5 sample_response = (sample_response, true, Some (bs "Third-Party client refused"))) as E by by vm_compute.
  rewrite E in Hw. destruct Hw as [Hsame _].
  - intros [|[|i]] e Hi; done.
  - eexists _, _. split; [exact E|]. by split.
Defined.

Lemma capture_exact_witness :
  ∃ body, persist_plain_response_body (tap_finish true true (tap_observe_all [(true, bs "ab"); (true, bs "c")] (plain_response_capture_channel 3))) = (body, true) ∧
    body = bs "abc".
Proof.
  pose proof (capture_exact 3 [(true, bs "ab"); (true, bs "c")] true true) as Hw. cbv zeta in Hw.
  destruct (persist_plain_response_body _) as [body whole] eqn:E in Hw. destruct Hw as (_ & _ & Hw); [by vm_compute|].
  assert (whole = true) as Ew by (transitivity (body, whole).2; [done|rewrite <- E; by vm_compute]). subst whole.
  exists body. split; [exact E|]. by apply Hw.
Defined.

Lemma decimal_pico_exact_sample :
  decimal_usd_to_pico_text (bs "12.5") = Some (bs "12500000000000") ∧ decimal_usd_to_pico_text (bs ".5") = None ∧
  decimal_usd_to_pico_text (bs "1.0000000000001") = None.
Proof. by vm_compute. Qed.
