(* ===== verification/HeaderCapture.v ===== *)
(** Redacted snapshots of headers: [crates/gateway-domain/src/header_capture.rs].

    The time of the capture is an argument. A header is a name and the bytes of its value. *)

From Stdlib Require Import Ascii.
From S2P Require Import Prelude Machine.
From S2P Require Import Bytes.
From S2P Require Import SystemAlign.
From S2P Require Import Dispatch.
Local Open Scope N_scope.

Inductive HeaderTransport := Transport_Http | WebsocketHandshake.

Record CapturedHeader := {
  ch_name : bytes;
  ch_value : bytes;
  ch_redacted : bool;
}.

Record HeaderSnapshot := {
  hs_entries : list CapturedHeader;
  hs_captured_at_ms : N;
  hs_transport : HeaderTransport;
  hs_reused : bool;
  hs_attempt_ordinal : option N;
  hs_truncated : bool;
}.

Definition SENSITIVE_PARTS : list bytes :=
  bs <$> ["authorization"; "cookie"; "api-key"; "api_key"; "apikey"; "token"; "secret"; "session"; "account-id"; "account_id"; "device";
          "fingerprint"; "profile-seed"; "session-hmac"; "sec-websocket-key"]%string.

Definition sensitive_header (name : bytes) : bool := existsb (λ part, is_some (find_bytes part name)) SENSITIVE_PARTS.

(** [while !value.is_char_boundary(keep) { keep -= 1 }]. *)
Fixpoint floor_char_boundary (value : bytes) (keep : nat) : nat :=
  if is_char_boundary value keep then keep
  else match keep with O => O | S keep => floor_char_boundary value keep end.

(** The value of a header that may be shown, within a limit, and whether something of it is left out. *)
Definition shown_value (limit : nat) (value : bytes) : bytes * bool :=
  let shown := from_utf8_lossy (take (Nat.min (length value) limit) value) in
  let keep := floor_char_boundary shown (Nat.min (length shown) limit) in
  (take keep shown, (limit <? length value)%nat || (keep <? length shown)%nat).

Definition MAX_CAPTURED_FIELDS : nat := 128.

Definition MAX_CAPTURED_BYTES : nat := 64 * 1024.

Definition MAX_CAPTURED_VALUE : nat := 16 * 1024.

(** The loop: the entries in order, and whether something was left out. *)
Fixpoint capture_headers (headers : list (bytes * bytes)) (remaining : nat) (entries : list CapturedHeader) (truncated : bool)
    : list CapturedHeader * bool :=
  match headers with
  | [] => (entries, truncated)
  | (name, value) :: headers =>
      if (length entries =? MAX_CAPTURED_FIELDS)%nat || (remaining <=? length name)%nat then (entries, true)
      else
        let name := to_lowercase_ascii name in
        let redacted := sensitive_header name in
        let '(value, truncated) :=
          if redacted then (bs "[REDACTED]", truncated)
          else
            let '(value, cut) := shown_value (Nat.min (remaining - length name) MAX_CAPTURED_VALUE) value in
            (value, truncated || cut) in
        if (remaining <? length name + length value)%nat then (entries, true)
        else
          capture_headers headers (remaining - (length name + length value))
            (entries ++ [{| ch_name := name; ch_value := value; ch_redacted := redacted |}]) truncated
  end.

Definition capture_snapshot (captured_at_ms : N) (transport : HeaderTransport) (headers : list (bytes * bytes)) : HeaderSnapshot :=
  let '(entries, truncated) := capture_headers headers MAX_CAPTURED_BYTES [] false in
  {| hs_entries := entries; hs_captured_at_ms := captured_at_ms; hs_transport := transport; hs_reused := false;
     hs_attempt_ordinal := None; hs_truncated := truncated |}.

(** The bytes that the entries take. *)
Definition captured_bytes (entries : list CapturedHeader) : nat := sum_list_with (λ e, length e.(ch_name) + length e.(ch_value))%nat entries.

(** What an entry shows of a header. *)
Record captured_from (header : bytes * bytes) (entry : CapturedHeader) : Prop := {
  cf_name : entry.(ch_name) = to_lowercase_ascii header.1;
  cf_redacted : entry.(ch_redacted) = sensitive_header entry.(ch_name);
  cf_hidden : entry.(ch_redacted) = true → entry.(ch_value) = bs "[REDACTED]";
  cf_shown : entry.(ch_redacted) = false → ∃ n, entry.(ch_value) `prefix_of` from_utf8_lossy (take n header.2);
  cf_short : (length entry.(ch_value) <= MAX_CAPTURED_VALUE)%nat;
}.

(** ** Lemmas *)

Lemma floor_char_boundary_le value keep : (floor_char_boundary value keep <= keep)%nat.
Proof. induction keep as [|keep IH]; cbn [floor_char_boundary]; [destruct (is_char_boundary _ _); lia|]. destruct (is_char_boundary _ _); lia. Qed.

Lemma shown_value_spec limit value :
  let '(shown, cut) := shown_value limit value in
  (length shown <= limit)%nat ∧ (∃ n, shown `prefix_of` from_utf8_lossy (take n value)) ∧ (cut = false → shown = from_utf8_lossy value).
Proof.
  unfold shown_value. set (lossy := from_utf8_lossy _). pose proof (floor_char_boundary_le lossy (Nat.min (length lossy) limit)) as Hk.
  split_and!.
  - rewrite length_take. lia.
  - eexists. apply prefix_take.
  - rewrite orb_false_iff, !Nat.ltb_ge. intros [Hl Hk']. unfold lossy in *. rewrite (take_ge value) in Hk' |- * by lia. apply take_ge. lia.
Qed.

Lemma prefix_entry {A} (l : list A) n : take n l `prefix_of` l.
Proof. exists (drop n l). by rewrite take_drop. Qed.

Lemma capture_headers_spec headers remaining entries truncated :
  (length entries <= MAX_CAPTURED_FIELDS)%nat → (captured_bytes entries + remaining <= MAX_CAPTURED_BYTES)%nat →
  let '(all, cut) := capture_headers headers remaining entries truncated in
  ∃ more, all = entries ++ more ∧ (length all <= MAX_CAPTURED_FIELDS)%nat ∧ (captured_bytes all <= MAX_CAPTURED_BYTES)%nat ∧
    Forall2 captured_from (take (length more) headers) more ∧
    (truncated = true → cut = true) ∧
    (cut = false → Forall2 (λ header entry, entry.(ch_redacted) = false → entry.(ch_value) = from_utf8_lossy header.2) headers more).
Proof.
  revert remaining entries truncated. induction headers as [|[name value] headers IH]; intros remaining entries truncated Hlen Hsum; cbn [capture_headers].
  { exists []. rewrite app_nil_r. split_and!; try done; lia. }
  assert (∃ more : list CapturedHeader, entries = entries ++ more ∧ (length entries <= MAX_CAPTURED_FIELDS)%nat ∧ (captured_bytes entries <= MAX_CAPTURED_BYTES)%nat ∧
    Forall2 captured_from (take (length more) ((name, value) :: headers)) more ∧ (truncated = true → true = true) ∧
    (true = false → Forall2 (λ header entry, entry.(ch_redacted) = false → entry.(ch_value) = from_utf8_lossy header.2) ((name, value) :: headers) more)) as Hstop.
  { exists []. rewrite app_nil_r. split_and!; try done; lia. }
  destruct (_ || _) eqn:Eg; [exact Hstop|]. apply orb_false_iff in Eg as [Ef%Nat.eqb_neq Er%Nat.leb_gt].
  assert (length (to_lowercase_ascii name) = length name) as Hln by apply length_fmap.
  set (limit := Nat.min (remaining - length (to_lowercase_ascii name)) MAX_CAPTURED_VALUE).
  pose proof (shown_value_spec limit value) as Hsh. destruct (shown_value limit value) as [shown cut]. destruct Hsh as (Hl & Hp & Hc).
  set (name' := to_lowercase_ascii name) in *. destruct (if sensitive_header name' then _ else _) as [v tr] eqn:Ev.
  destruct (_ <? _)%nat eqn:El; [exact Hstop|]. apply Nat.ltb_ge in El.
  assert (captured_from (name, value) {| ch_name := name'; ch_value := v; ch_redacted := sensitive_header name' |} ∧ (truncated = true → tr = true) ∧
    (tr = false → sensitive_header name' = false → v = from_utf8_lossy value)) as (Hfrom & Htr & Hwhole).
  { destruct (sensitive_header name') eqn:Es; injection Ev as [= <- <-].
    - split; [|done]. split; cbn [ch_name ch_value ch_redacted]; [done|by rewrite Es|done|done|]. by apply Nat.leb_le.
    - split; [split; cbn [ch_name ch_value ch_redacted]; [done|by rewrite Es|done|done|lia]|]. split; [by intros ->|]. intros [_ Hcut]%orb_false_iff _. by apply Hc. }
  specialize (IH (remaining - (length name' + length v))%nat (entries ++ [{| ch_name := name'; ch_value := v; ch_redacted := sensitive_header name' |}]) tr).
  destruct (capture_headers headers _ _ tr) as [all final].
  destruct IH as (more & -> & Hla & Hsa & Hall & Htrue & Hfalse).
  { rewrite length_app. cbn [length]. lia. }
  { unfold captured_bytes in *. rewrite sum_list_with_app. cbn [sum_list_with ch_name ch_value]. lia. }
  exists ({| ch_name := name'; ch_value := v; ch_redacted := sensitive_header name' |} :: more). rewrite <- app_assoc in *. split_and!; try done.
  - cbn [length take]. by constructor.
  - intros Ht. by apply Htrue, Htr.
  - intros Hf. constructor; [|by apply Hfalse]. cbn. intros Hs. apply Hwhole; [|done]. destruct tr; [|done]. by rewrite Htrue in Hf.
Qed.

(** ** Properties *)

(** a snapshot is bounded, and it shows no secret. It has at most 128 entries of 64 KiB together and 16 KiB of value each; they are the first headers in their
    order, with their names in lower case; the value of a header whose name holds a sensitive part is never in it, not even in part, and that of another is
    the start of its text; and a snapshot that does not say it is truncated shows every header and each of these values whole. *)
Theorem snapshot_redacted captured_at_ms transport headers :
  let snapshot := capture_snapshot captured_at_ms transport headers in
  let entries := snapshot.(hs_entries) in
  (length entries <= 128)%nat ∧ (captured_bytes entries <= 64 * 1024)%nat ∧
  Forall2 captured_from (take (length entries) headers) entries ∧
  (snapshot.(hs_truncated) = false → length entries = length headers ∧
    Forall2 (λ header entry, entry.(ch_redacted) = false → entry.(ch_value) = from_utf8_lossy header.2) headers entries).
Proof.
  unfold capture_snapshot. pose proof (capture_headers_spec headers MAX_CAPTURED_BYTES [] false (Nat.le_0_l _) (Nat.le_refl _)) as H.
  destruct (capture_headers _ _ _ _) as [entries cut]. destruct H as (more & -> & Hl & Hs & Hall & _ & Hwhole). cbn [hs_entries hs_truncated app] in *.
  split_and!; [done|done|done|]. intros Hc. specialize (Hwhole Hc). split; [|done]. symmetry. by eapply Forall2_length.
Qed.

Example sample_snapshot_capture :
  let snapshot := capture_snapshot 7 Transport_Http [(bs "Authorization", bs "Bearer secret"); (bs "X-Trace", bs "first"); (bs "x-trace", bs "second")] in
  map (λ e, (e.(ch_name), e.(ch_value))) snapshot.(hs_entries) =
    [(bs "authorization", bs "[REDACTED]"); (bs "x-trace", bs "first"); (bs "x-trace", bs "second")] ∧ snapshot.(hs_truncated) = false.
Proof. by vm_compute. Qed.
