(* ===== verification/Bundle.v ===== *)
(** Signed transport bundles: [crates/gateway-transport/src/bundle.rs].

    JSON (strict decoding and the canonical form of RFC 8785), SHA-256, base64, Ed25519 and semantic versions are
    parameters. A text is a byte string. *)

From Stdlib Require Import Ascii.
From S2P Require Import Prelude Machine.
From S2P Require Import Bytes.
From S2P Require Import Transport.
From S2P Require Import Dispatch.
Local Open Scope N_scope.

Definition ENVELOPE_VERSION : bytes := bs "1.0.0".

Definition SCHEMA_VERSION : bytes := bs "1.1.0".

Definition SIGNATURE_DOMAIN : bytes := bs "transport_bundle_v1".

Definition POOL_FIELDS : list bytes :=
  bs <$> ["credential_id"; "profile_epoch"; "bundle_id"; "bundle_version"; "egress_binding_id"; "egress_epoch"; "authority"; "sni";
          "protocol"]%string.

(** ** Data *)
Inductive BundleLifecycle := Lifecycle_Draft | Lifecycle_Verified | Lifecycle_Canary | Lifecycle_Active | Lifecycle_Retired.

#[export] Instance BundleLifecycle_eq_dec : EqDecision BundleLifecycle.
Proof. solve_decision. Defined.

Inductive BundleEvidenceGate := Gate_Pending | Gate_Passed | Gate_Failed.

#[export] Instance BundleEvidenceGate_eq_dec : EqDecision BundleEvidenceGate.
Proof. solve_decision. Defined.

Inductive BundleRuntimeState := Loadable | Quarantined.

#[export] Instance BundleRuntimeState_eq_dec : EqDecision BundleRuntimeState.
Proof. solve_decision. Defined.

Record HeaderTemplate := {
  ht_name : bytes;
  ht_value_template : bytes;
  ht_sensitive : bool;
}.

Record TlsProfile := {
  tl_client_hello_profile : bytes;
  tl_alpn : list bytes;
  tl_cipher_suite_ids : list N;
  tl_supported_group_ids : list N;
  tl_key_share_group_ids : list N;
  tl_extension_order : list N;
  tl_grease_enabled : bool;
  tl_permute_extensions : bool;
  tl_session_resumption : bool;
  tl_min_tls_version : option bytes;
  tl_max_tls_version : option bytes;
}.

Record Http1Profile := {
  h1_request_line_form : bytes;
  h1_header_order : list HeaderTemplate;
  h1_framing : bytes;
}.

Record Http2Profile := {
  h2_settings_order : list bytes;
  h2_initial_window_size : N;
  h2_pseudo_header_order : list bytes;
  h2_header_order : list HeaderTemplate;
}.

Record BundleConnectionPolicy := {
  bc_pool_key_fields : list bytes;
  bc_reuse_policy : bytes;
  bc_resumption_cache_scope : bytes;
}.

Inductive ApplicationProfile :=
  | App_H1 (authority : bytes) (tls : TlsProfile) (http1 : Http1Profile) (connection : BundleConnectionPolicy)
  | App_H2 (authority : bytes) (tls : TlsProfile) (http2 : Http2Profile) (connection : BundleConnectionPolicy).

Definition app_tls (self : ApplicationProfile) : TlsProfile :=
  match self with App_H1 _ tls _ _ | App_H2 _ tls _ _ => tls end.

Definition app_connection (self : ApplicationProfile) : BundleConnectionPolicy :=
  match self with App_H1 _ _ _ connection | App_H2 _ _ _ connection => connection end.

Definition app_authority (self : ApplicationProfile) : bytes :=
  match self with App_H1 authority _ _ _ | App_H2 authority _ _ _ => authority end.

Record EngineBuild := {
  eb_target : bytes;
  eb_artifact_digest : bytes;
  eb_boringssl_revision : bytes;
  eb_compiler : bytes;
}.

Record TransportBundlePayload := {
  bp_schema_version : bytes;
  bp_engine_abi_version : bytes;
  bp_bundle_id : bytes;
  bp_artifact_version : N;
  bp_lifecycle : BundleLifecycle;
  bp_evidence_gate : BundleEvidenceGate;
  bp_runtime_state : BundleRuntimeState;
  bp_backend_id : bytes;
  bp_required_capabilities : list bytes;
  bp_source_archetype_version_id : bytes;
  bp_capture_cohort : bytes;
  bp_application : ApplicationProfile;
  bp_min_engine_build : bytes;
  bp_max_engine_build : option bytes;
  bp_engine_builds : list EngineBuild;
  bp_supported_targets : list bytes;
  bp_evidence_hashes : list bytes;
  bp_created_at : bytes;
}.

Record BundleCanonicalization := {
  bz_algorithm : bytes;
  bz_hash_algorithm : bytes;
  bz_canonical_hash : bytes;
}.

Record BundleSignature := {
  sg_domain : bytes;
  sg_algorithm : bytes;
  sg_key_id : bytes;
  sg_detached_signature_base64 : bytes;
}.

Record SignedBundleEnvelope := {
  sb_envelope_version : bytes;
  sb_payload : TransportBundlePayload;
  sb_canonicalization : BundleCanonicalization;
  sb_signature : BundleSignature;
}.

Inductive TrustKeyStatus := Key_Current | Key_Historical | Key_Revoked.

#[export] Instance TrustKeyStatus_eq_dec : EqDecision TrustKeyStatus.
Proof. solve_decision. Defined.

Record TrustKey := {
  tk_key_id : bytes;
  tk_status : TrustKeyStatus;
  tk_public_key_base64 : bytes;
  tk_valid_from_unix_seconds : option N;
  tk_valid_until_unix_seconds : option N;
}.

Record BundleTrustStore := {
  ts_format_version : bytes;
  ts_domain : bytes;
  ts_keys : list TrustKey;
}.

Record BundleLoadContext := {
  lc_engine_abi_version : bytes;
  lc_engine_build : bytes;
  lc_target : bytes;
  lc_supported_capabilities : gset bytes;
  lc_now_unix_seconds : N;
  lc_for_new_activation : bool;
}.

Record VerifiedBundle := {
  vb_payload : TransportBundlePayload;
  vb_canonical_payload : bytes;
  vb_canonical_hash : bytes;
  vb_signer_key_id : bytes;
}.

Inductive BundleLoadError :=
  | Load_Schema
  | Load_Algorithm
  | Load_HashMismatch
  | Load_Trust
  | Load_Signature
  | Load_Compatibility
  | Load_Capability
  | Load_Lifecycle
  | Load_WireContract
  | Load_Privacy.

(** ** Checks *)
Definition NUL : ascii := "000"%char.

Definition signature_preimage (canonical_hash canonical_payload : bytes) : bytes :=
  SIGNATURE_DOMAIN ++ [NUL] ++ canonical_hash ++ [NUL] ++ canonical_payload.

Definition validate_algorithms (envelope : SignedBundleEnvelope) (trust_store : BundleTrustStore) : result BundleLoadError unit :=
  if negb (bool_decide (envelope.(sb_envelope_version) = ENVELOPE_VERSION))
     || negb (bool_decide (envelope.(sb_payload).(bp_schema_version) = SCHEMA_VERSION))
     || negb (bool_decide (envelope.(sb_canonicalization).(bz_algorithm) = bs "jcs_rfc8785"))
     || negb (bool_decide (envelope.(sb_canonicalization).(bz_hash_algorithm) = bs "sha256"))
     || negb (bool_decide (envelope.(sb_signature).(sg_domain) = SIGNATURE_DOMAIN))
     || negb (bool_decide (envelope.(sb_signature).(sg_algorithm) = bs "ed25519"))
     || negb (bool_decide (trust_store.(ts_domain) = SIGNATURE_DOMAIN))
     || negb (bool_decide (trust_store.(ts_format_version) = ENVELOPE_VERSION))
  then Err Load_Algorithm else Ok tt.

(** The wire contract of each protocol. *)
Definition wire_contract (application : ApplicationProfile) : bool :=
  match application with
  | App_H1 _ tls http1 _ =>
      existsb (λ value, bool_decide (value = bs "http/1.1")) tls.(tl_alpn)
      && negb (existsb (λ value, bool_decide (value = bs "h2")) tls.(tl_alpn))
      && bool_decide (http1.(h1_request_line_form) = bs "origin")
      && bool_decide (http1.(h1_framing) = bs "content-length")
  | App_H2 _ tls _ _ => bool_decide (head tls.(tl_alpn) = Some (bs "h2"))
  end.

Definition select_key (trust_store : BundleTrustStore) (key_id : bytes) (context : BundleLoadContext) : result BundleLoadError TrustKey :=
  match filter (λ key, key.(tk_key_id) = key_id) trust_store.(ts_keys) with
  | [] => Err Load_Trust
  | key :: rest =>
      if negb (is_empty rest)
         || bool_decide (key.(tk_status) = Key_Revoked)
         || (context.(lc_for_new_activation) && negb (bool_decide (key.(tk_status) = Key_Current)))
         || is_some_and (λ start, context.(lc_now_unix_seconds) <? start) key.(tk_valid_from_unix_seconds)
         || is_some_and (λ limit, limit <=? context.(lc_now_unix_seconds)) key.(tk_valid_until_unix_seconds)
      then Err Load_Trust else Ok key
  end.

Definition contains_literal_secret (canonical_payload : bytes) : bool :=
  let lowered := to_lowercase_ascii (from_utf8_lossy canonical_payload) in
  existsb (λ marker, is_some (find_bytes marker lowered))
    [bs "bearer "; bs "sk-ant-"; bs "setup-token-"; bs "refresh_token" ++ ["034"%char] ++ bs ":" ++ ["034"%char]].

(** [{:02x}] of each byte of the digest. *)
Definition hex_bytes (l : bytes) : bytes := concat ((λ c, pad_left 2 (format_radix 16 (byte c))) <$> l).

Section verification.
Context {Version : Type} (parse_version : bytes → option Version) (version_cmp : Version → Version → comparison).
Context (jcs_to_vec : TransportBundlePayload → option bytes) (from_slice : bytes → option SignedBundleEnvelope).
Context (sha256 : bytes → bytes) (base64_decode : bytes → option bytes) (base64_encode : bytes → bytes).
Context {VerifyingKey Signature SigningKey : Type} (verifying_key : bytes → option VerifyingKey) (signature_from_slice : bytes → option Signature).
Context (verify_strict : VerifyingKey → bytes → Signature → bool) (sign_bytes : SigningKey → bytes → bytes).

Definition sha256_hex (l : bytes) : bytes := hex_bytes (sha256 l).

Definition engine_range (payload : TransportBundlePayload) (context : BundleLoadContext) : result BundleLoadError bool :=
  current ← ok_or Load_Compatibility (parse_version context.(lc_engine_build));
  minimum ← ok_or Load_Compatibility (parse_version payload.(bp_min_engine_build));
  maximum ← match payload.(bp_max_engine_build) with
            | None => Ok None
            | Some maximum => maximum ← ok_or Load_Compatibility (parse_version maximum); Ok (Some maximum)
            end;
  Ok (negb (bool_decide (version_cmp current minimum = Lt)
            || is_some_and (λ maximum, bool_decide (version_cmp current maximum = Gt)) maximum)).

Definition validate_payload (payload : TransportBundlePayload) (context : BundleLoadContext) : result BundleLoadError unit :=
  if negb (bool_decide (payload.(bp_engine_abi_version) = context.(lc_engine_abi_version)))
     || is_empty payload.(bp_bundle_id)
     || (payload.(bp_artifact_version) =? 0)
     || is_empty payload.(bp_evidence_hashes)
     || negb (bool_decide (context.(lc_target) ∈ payload.(bp_supported_targets)))
     || negb (existsb (λ build, bool_decide (build.(eb_target) = context.(lc_target))) payload.(bp_engine_builds))
  then Err Load_Compatibility
  else
    in_range ← engine_range payload context;
    _ ← guard_or Load_Compatibility in_range;
    if existsb (λ capability, negb (bool_decide (capability ∈ context.(lc_supported_capabilities)))) payload.(bp_required_capabilities)
    then Err Load_Capability
    else if negb (bool_decide (payload.(bp_evidence_gate) = Gate_Passed))
            || negb (bool_decide (payload.(bp_runtime_state) = Loadable))
            || bool_decide (payload.(bp_lifecycle) = Lifecycle_Draft) || bool_decide (payload.(bp_lifecycle) = Lifecycle_Retired)
    then Err Load_Lifecycle
    else
      let application := payload.(bp_application) in
      if negb (bool_decide (app_authority application = bs "api.anthropic.com"))
         || negb (bool_decide ((app_connection application).(bc_pool_key_fields) = POOL_FIELDS))
         || negb (bool_decide ((app_connection application).(bc_reuse_policy) = bs "exact_pool_key"))
         || (app_tls application).(tl_session_resumption)
         || negb (bool_decide ((app_connection application).(bc_resumption_cache_scope) = bs "disabled"))
      then Err Load_WireContract
      else if wire_contract application then Ok tt else Err Load_WireContract.

Definition verify_signature (key : TrustKey) (signature : BundleSignature) (canonical_hash canonical_payload : bytes)
    : result BundleLoadError unit :=
  public_bytes ← ok_or Load_Trust (base64_decode key.(tk_public_key_base64));
  _ ← guard_or Load_Trust (length public_bytes =? 32)%nat;
  verifying_key ← ok_or Load_Trust (verifying_key public_bytes);
  signature_bytes ← ok_or Load_Signature (base64_decode signature.(sg_detached_signature_base64));
  parsed_signature ← ok_or Load_Signature (signature_from_slice signature_bytes);
  guard_or Load_Signature (verify_strict verifying_key (signature_preimage canonical_hash canonical_payload) parsed_signature).

Definition verify (self : SignedBundleEnvelope) (trust_store : BundleTrustStore) (context : BundleLoadContext)
    : result BundleLoadError VerifiedBundle :=
  _ ← validate_algorithms self trust_store;
  _ ← validate_payload self.(sb_payload) context;
  canonical_payload ← ok_or Load_Schema (jcs_to_vec self.(sb_payload));
  if contains_literal_secret canonical_payload then Err Load_Privacy
  else
    let canonical_hash := sha256_hex canonical_payload in
    if negb (bool_decide (canonical_hash = self.(sb_canonicalization).(bz_canonical_hash))) then Err Load_HashMismatch
    else
      key ← select_key trust_store self.(sb_signature).(sg_key_id) context;
      _ ← verify_signature key self.(sb_signature) canonical_hash canonical_payload;
      Ok {| vb_payload := self.(sb_payload); vb_canonical_payload := canonical_payload; vb_canonical_hash := canonical_hash;
            vb_signer_key_id := key.(tk_key_id) |}.

Definition verify_json (l : bytes) (trust_store : BundleTrustStore) (context : BundleLoadContext) : result BundleLoadError VerifiedBundle :=
  envelope ← ok_or Load_Schema (from_slice l);
  verify envelope trust_store context.

Definition sign (payload : TransportBundlePayload) (key_id : bytes) (signing_key : SigningKey) : result BundleLoadError SignedBundleEnvelope :=
  canonical_payload ← ok_or Load_Schema (jcs_to_vec payload);
  let canonical_hash := sha256_hex canonical_payload in
  let signature := sign_bytes signing_key (signature_preimage canonical_hash canonical_payload) in
  Ok {| sb_envelope_version := ENVELOPE_VERSION; sb_payload := payload;
        sb_canonicalization := {| bz_algorithm := bs "jcs_rfc8785"; bz_hash_algorithm := bs "sha256"; bz_canonical_hash := canonical_hash |};
        sb_signature :=
          {| sg_domain := SIGNATURE_DOMAIN; sg_algorithm := bs "ed25519"; sg_key_id := key_id;
             sg_detached_signature_base64 := base64_encode signature |} |}.

End verification.

(** ** Specification

    The conditions under which a bundle may be loaded, apart from the order in which the loader looks at them. *)
Section specification.
Context {Version : Type} (parse_version : bytes → option Version) (version_cmp : Version → Version → comparison).
Context (jcs_to_vec : TransportBundlePayload → option bytes) (sha256 : bytes → bytes) (base64_decode : bytes → option bytes).
Context {VerifyingKey Signature : Type} (verifying_key : bytes → option VerifyingKey) (signature_from_slice : bytes → option Signature).
Context (verify_strict : VerifyingKey → bytes → Signature → bool).

Definition SECRET_MARKERS : list bytes :=
  [bs "bearer "; bs "sk-ant-"; bs "setup-token-"; bs "refresh_token" ++ ["034"%char] ++ bs ":" ++ ["034"%char]].

Record runs_here (payload : TransportBundlePayload) (context : BundleLoadContext) : Prop := {
  rh_identity : payload.(bp_engine_abi_version) = context.(lc_engine_abi_version) ∧ payload.(bp_bundle_id) ≠ [] ∧
    payload.(bp_artifact_version) ≠ 0 ∧ payload.(bp_evidence_hashes) ≠ [];
  rh_target : context.(lc_target) ∈ payload.(bp_supported_targets) ∧
    ∃ build, build ∈ payload.(bp_engine_builds) ∧ build.(eb_target) = context.(lc_target);
  rh_range : ∃ current minimum, parse_version context.(lc_engine_build) = Some current ∧
    parse_version payload.(bp_min_engine_build) = Some minimum ∧ version_cmp current minimum ≠ Lt ∧
    ∀ text, payload.(bp_max_engine_build) = Some text → ∃ maximum, parse_version text = Some maximum ∧ version_cmp current maximum ≠ Gt;
  rh_capabilities : ∀ capability, capability ∈ payload.(bp_required_capabilities) → capability ∈ context.(lc_supported_capabilities);
  rh_lifecycle : payload.(bp_evidence_gate) = Gate_Passed ∧ payload.(bp_runtime_state) = Loadable ∧
    payload.(bp_lifecycle) ∈ [Lifecycle_Verified; Lifecycle_Canary; Lifecycle_Active];
}.

Record wire_ok (application : ApplicationProfile) : Prop := {
  wo_authority : app_authority application = bs "api.anthropic.com";
  wo_isolation : (app_connection application).(bc_pool_key_fields) = POOL_FIELDS ∧
    (app_connection application).(bc_reuse_policy) = bs "exact_pool_key" ∧
    (app_connection application).(bc_resumption_cache_scope) = bs "disabled" ∧ (app_tls application).(tl_session_resumption) = false;
  wo_protocol : match application with
    | App_H1 _ tls http1 _ => (bs "http/1.1" ∈ tls.(tl_alpn)) ∧ (bs "h2" ∉ tls.(tl_alpn)) ∧
        http1.(h1_request_line_form) = bs "origin" ∧ http1.(h1_framing) = bs "content-length"
    | App_H2 _ tls _ _ => ∃ rest, tls.(tl_alpn) = bs "h2" :: rest
    end;
}.

(** The key that may approve: the only one of its name, in its time, and current where a new activation is approved. *)
Record trusted (trust_store : BundleTrustStore) (key_id : bytes) (context : BundleLoadContext) (key : TrustKey) : Prop := {
  tr_unique : filter (λ key, key.(tk_key_id) = key_id) trust_store.(ts_keys) = [key];
  tr_status : key.(tk_status) ≠ Key_Revoked ∧ (context.(lc_for_new_activation) = true → key.(tk_status) = Key_Current);
  tr_from : ∀ start, key.(tk_valid_from_unix_seconds) = Some start → start <= context.(lc_now_unix_seconds);
  tr_until : ∀ limit, key.(tk_valid_until_unix_seconds) = Some limit → context.(lc_now_unix_seconds) < limit;
}.

Record signed_by (key : TrustKey) (signature : BundleSignature) (message : bytes) : Prop := {
  si_by : ∃ public_bytes vk signature_bytes parsed, base64_decode key.(tk_public_key_base64) = Some public_bytes ∧
    length public_bytes = 32%nat ∧ verifying_key public_bytes = Some vk ∧
    base64_decode signature.(sg_detached_signature_base64) = Some signature_bytes ∧
    signature_from_slice signature_bytes = Some parsed ∧ verify_strict vk message parsed = true;
}.

Record admissible (envelope : SignedBundleEnvelope) (trust_store : BundleTrustStore) (context : BundleLoadContext)
    (canonical : bytes) (key : TrustKey) : Prop := {
  ad_formats : envelope.(sb_envelope_version) = ENVELOPE_VERSION ∧ envelope.(sb_payload).(bp_schema_version) = SCHEMA_VERSION ∧
    envelope.(sb_canonicalization).(bz_algorithm) = bs "jcs_rfc8785" ∧ envelope.(sb_canonicalization).(bz_hash_algorithm) = bs "sha256" ∧
    envelope.(sb_signature).(sg_domain) = SIGNATURE_DOMAIN ∧ envelope.(sb_signature).(sg_algorithm) = bs "ed25519" ∧
    trust_store.(ts_domain) = SIGNATURE_DOMAIN ∧ trust_store.(ts_format_version) = ENVELOPE_VERSION;
  ad_runs : runs_here envelope.(sb_payload) context;
  ad_wire : wire_ok envelope.(sb_payload).(bp_application);
  ad_canonical : jcs_to_vec envelope.(sb_payload) = Some canonical;
  ad_private : ∀ marker, marker ∈ SECRET_MARKERS → find_bytes marker (to_lowercase_ascii (from_utf8_lossy canonical)) = None;
  ad_hash : envelope.(sb_canonicalization).(bz_canonical_hash) = sha256_hex sha256 canonical;
  ad_trusted : trusted trust_store envelope.(sb_signature).(sg_key_id) context key;
  ad_signed : signed_by key envelope.(sb_signature) (signature_preimage (sha256_hex sha256 canonical) canonical);
}.

(** ** Lemmas *)

Lemma existsb_false_iff {A} (f : A → bool) l : existsb f l = false ↔ ∀ x, x ∈ l → f x = false.
Proof.
  induction l as [|y l IH]; cbn [existsb]; [split; [intros _ x []%elem_of_nil|done]|].
  rewrite orb_false_iff, IH. setoid_rewrite elem_of_cons. naive_solver.
Qed.

Lemma algorithms_Ok envelope trust_store u : validate_algorithms envelope trust_store = Ok u ↔
  envelope.(sb_envelope_version) = ENVELOPE_VERSION ∧ envelope.(sb_payload).(bp_schema_version) = SCHEMA_VERSION ∧
  envelope.(sb_canonicalization).(bz_algorithm) = bs "jcs_rfc8785" ∧ envelope.(sb_canonicalization).(bz_hash_algorithm) = bs "sha256" ∧
  envelope.(sb_signature).(sg_domain) = SIGNATURE_DOMAIN ∧ envelope.(sb_signature).(sg_algorithm) = bs "ed25519" ∧
  trust_store.(ts_domain) = SIGNATURE_DOMAIN ∧ trust_store.(ts_format_version) = ENVELOPE_VERSION.
Proof. unfold validate_algorithms. rewrite refuse_Ok, !orb_false_iff, !negb_false_iff, !bool_decide_eq_true. destruct u. tauto. Qed.

Lemma engine_range_Ok payload context : engine_range parse_version version_cmp payload context = Ok true ↔
  ∃ current minimum, parse_version context.(lc_engine_build) = Some current ∧
    parse_version payload.(bp_min_engine_build) = Some minimum ∧ version_cmp current minimum ≠ Lt ∧
    ∀ text, payload.(bp_max_engine_build) = Some text → ∃ maximum, parse_version text = Some maximum ∧ version_cmp current maximum ≠ Gt.
Proof.
  unfold engine_range. rewrite bind_Ok. setoid_rewrite ok_or_Ok. apply exist_proper. intros current. rewrite bind_Ok. setoid_rewrite ok_or_Ok.
  split.
  - intros (Hc & minimum & Hm & H). exists minimum. do 2 (split; [done|]).
    destruct (bp_max_engine_build payload) as [text|]; [destruct (parse_version text) as [maximum|] eqn:Et; [|done]|].
    all: cbn [mbind result_bind ok_or is_some_and] in H; injection H as [= H]; rewrite negb_true_iff, orb_false_iff in H;
      destruct H as [Hlt Hgt]; (split; [by apply bool_decide_eq_false in Hlt|]).
    + intros ? [= <-]. exists maximum. split; [done|]. by apply bool_decide_eq_false in Hgt.
    + done.
  - intros (minimum & Hc & Hm & Hlt & Hmax). split; [done|]. exists minimum. split; [done|].
    destruct (bp_max_engine_build payload) as [text|]; [destruct (Hmax text eq_refl) as (maximum & Et & Hgt); rewrite Et|].
    all: cbn [mbind result_bind ok_or is_some_and]; f_equal; rewrite negb_true_iff, orb_false_iff; (split; [by apply bool_decide_eq_false|]).
    + by apply bool_decide_eq_false.
    + done.
Qed.

Lemma wire_contract_spec application : wire_contract application = true ↔
  match application with
  | App_H1 _ tls http1 _ => (bs "http/1.1" ∈ tls.(tl_alpn)) ∧ (bs "h2" ∉ tls.(tl_alpn)) ∧
      http1.(h1_request_line_form) = bs "origin" ∧ http1.(h1_framing) = bs "content-length"
  | App_H2 _ tls _ _ => ∃ rest, tls.(tl_alpn) = bs "h2" :: rest
  end.
Proof.
  assert (∀ (x : bytes) l, existsb (λ value, bool_decide (value = x)) l = true ↔ x ∈ l) as Hin.
  { intros x l. rewrite existsb_exists. setoid_rewrite bool_decide_eq_true. setoid_rewrite <- list_elem_of_In. naive_solver. }
  destruct application as [? tls http1 ?|? tls ? ?]; cbn [wire_contract].
  - rewrite !andb_true_iff, negb_true_iff, Hin, !bool_decide_eq_true, <- not_true_iff_false, Hin. tauto.
  - rewrite bool_decide_eq_true. destruct (tl_alpn tls) as [|x rest]; cbn [head]; [naive_solver|].
    split; [intros [= ->]; eauto|intros (rest' & [= -> _]); done].
Qed.

Lemma payload_Ok payload context u : validate_payload parse_version version_cmp payload context = Ok u ↔
  runs_here payload context ∧ wire_ok payload.(bp_application).
Proof.
  assert (∀ b : bool, (if b then Ok tt else Err Load_WireContract) = Ok u ↔ b = true) as Hlast by (intros []; destruct u; naive_solver).
  assert (∀ A (l : list A), is_empty l = false ↔ l ≠ []) as He by (intros A []; naive_solver).
  assert (existsb (λ build, bool_decide (build.(eb_target) = context.(lc_target))) payload.(bp_engine_builds) = true ↔
    ∃ build, build ∈ payload.(bp_engine_builds) ∧ build.(eb_target) = context.(lc_target)) as Hb.
  { rewrite existsb_exists. setoid_rewrite <- list_elem_of_In. by setoid_rewrite bool_decide_eq_true. }
  assert (existsb (λ capability, negb (bool_decide (capability ∈ context.(lc_supported_capabilities)))) payload.(bp_required_capabilities) = false ↔
    ∀ capability, capability ∈ payload.(bp_required_capabilities) → capability ∈ context.(lc_supported_capabilities)) as Hc.
  { rewrite existsb_false_iff. setoid_rewrite negb_false_iff. by setoid_rewrite bool_decide_eq_true. }
  unfold validate_payload. rewrite refuse_Ok, !orb_false_iff, !negb_false_iff, !bool_decide_eq_true, N.eqb_neq, !He, Hb. split.
  - intros (Hid & (in_range & Hr & ([] & ->%guard_or_Ok & H)%bind_Ok)%bind_Ok).
    rewrite !refuse_Ok, Hlast, wire_contract_spec, !orb_false_iff, !negb_false_iff, !bool_decide_eq_true, !bool_decide_eq_false, Hc in H.
    split; [split|split]; [tauto|tauto|by apply engine_range_Ok|tauto| |tauto|tauto|tauto].
    split_and!; [tauto..|]. rewrite !elem_of_cons. destruct (bp_lifecycle payload); naive_solver.
  - intros [[Hid Htgt Hrange Hcaps (Hg & Hs & Hl)] [Ha Hi Hw]]. split; [tauto|].
    apply bind_Ok. exists true. split; [by apply engine_range_Ok|]. apply bind_Ok. exists tt. split; [done|].
    rewrite !refuse_Ok, Hlast, wire_contract_spec, !orb_false_iff, !negb_false_iff, !bool_decide_eq_true, !bool_decide_eq_false, Hc.
    rewrite !elem_of_cons, elem_of_nil in Hl. split_and!; try tauto; intros E; rewrite E in Hl; naive_solver.
Qed.

Lemma select_key_Ok trust_store key_id context key : select_key trust_store key_id context = Ok key ↔ trusted trust_store key_id context key.
Proof.
  unfold select_key. destruct (filter _ _) as [|k rest] eqn:Ef; [split; [done|intros [Hu _ _ _]; congruence]|].
  rewrite refuse_Ok, !orb_false_iff, negb_false_iff, andb_false_iff, negb_false_iff, bool_decide_eq_true, bool_decide_eq_false, is_empty_spec.
  split.
  - intros [((((-> & Hr) & Hc) & Hfrom) & Huntil) [= ->]]. split; [done|split; [done|]| |].
    + destruct (lc_for_new_activation context); naive_solver.
    + intros start Es. rewrite Es in Hfrom. cbn in Hfrom. by apply N.ltb_ge in Hfrom.
    + intros limit El. rewrite El in Huntil. cbn in Huntil. by apply N.leb_gt in Huntil.
  - intros [Hu [Hr Hc] Hfrom Huntil]. assert (k = key ∧ rest = []) as [-> ->] by (rewrite Ef in Hu; by injection Hu).
    split_and!; try done.
    + destruct (lc_for_new_activation context); naive_solver.
    + destruct (tk_valid_from_unix_seconds key) as [start|]; [|done]. by apply N.ltb_ge, Hfrom.
    + destruct (tk_valid_until_unix_seconds key) as [limit|]; [|done]. by apply N.leb_gt, Huntil.
Qed.

Lemma signature_Ok key signature hash payload u :
  verify_signature base64_decode verifying_key signature_from_slice verify_strict key signature hash payload = Ok u ↔
  signed_by key signature (signature_preimage hash payload).
Proof.
  unfold verify_signature. rewrite bind_Ok. setoid_rewrite ok_or_Ok. setoid_rewrite bind_Ok. setoid_rewrite guard_or_Ok.
  setoid_rewrite bind_Ok. setoid_rewrite ok_or_Ok. setoid_rewrite bind_Ok. setoid_rewrite ok_or_Ok. setoid_rewrite bind_Ok. setoid_rewrite ok_or_Ok.
  setoid_rewrite guard_or_Ok. setoid_rewrite Nat.eqb_eq. split.
  - intros (pb & Hp & [] & Hlen & vk & Hvk & sb & Hsb & parsed & Hpa & Hv). split. by exists pb, vk, sb, parsed.
  - intros [(pb & vk & sb & parsed & Hp & Hlen & Hvk & Hsb & Hpa & Hv)]. exists pb. split; [done|]. exists tt. split; [done|]. exists vk. split; [done|]. exists sb. split; [done|]. by exists parsed.
Qed.

(** [sign] writes the digest of a payload in the form that the loader recomputes. *)
Lemma preimage_parts hash payload hash' payload' : NUL ∉ hash → NUL ∉ hash' →
  signature_preimage hash payload = signature_preimage hash' payload' → hash = hash' ∧ payload = payload'.
Proof.
  unfold signature_preimage. intros H1 H2 E. do 2 apply (inj (app _)) in E. revert hash' H2 E.
  induction hash as [|c hash IH]; intros [|c' hash'] H2 E; cbn in E.
  - by injection E.
  - injection E as [= E1 _]. destruct H2. rewrite <- E1. apply elem_of_cons. by left.
  - injection E as [= E1 _]. destruct H1. rewrite E1. apply elem_of_cons. by left.
  - injection E as [= -> E]. rewrite not_elem_of_cons in H1, H2. destruct (IH (proj2 H1) hash' (proj2 H2) E) as [-> ->]. done.
Qed.

Lemma digit_char_not_nul d : d < 16 → digit_char d ≠ NUL.
Proof. intros Hd E%(f_equal byte). revert E. unfold digit_char. rewrite N_ascii_embedding by (destruct (d <? 10) eqn:?; lia). change (byte NUL) with 0. destruct (d <? 10); lia. Qed.

Lemma hex_no_nul l : NUL ∉ hex_bytes l.
Proof.
  unfold hex_bytes. rewrite list_elem_of_In, in_concat. intros (part & Hp & Hin). apply list_elem_of_In, list_elem_of_fmap in Hp as (c & -> & _).
  apply list_elem_of_In in Hin. unfold pad_left in Hin. apply elem_of_app in Hin as [[Hz _]%elem_of_replicate|Hin]; [done|].
  pose proof (format_radix_digits 16 ltac:(lia) ltac:(lia) (byte c)) as Hd. rewrite Forall_forall in Hd. destruct (Hd _ Hin) as (d & Hlt & E).
  by eapply digit_char_not_nul.
Qed.

(** ** Properties *)

(** a bundle is loaded exactly when it is admissible. The loader answers with a verified bundle exactly when the formats and algorithms are
    those of this version, the bundle runs here, its wire contract isolates connections as the pool does, its canonical payload
    holds no secret and has the digest of the envelope, and a trusted key of the store signed that digest and that payload; the answer then is
    the payload as it was, with its canonical form, its digest and the key. *)
Theorem bundle_loaded_iff_admissible envelope trust_store context verified :
  verify parse_version version_cmp jcs_to_vec sha256 base64_decode verifying_key signature_from_slice verify_strict
    envelope trust_store context = Ok verified ↔
  ∃ canonical key, admissible envelope trust_store context canonical key ∧
    verified = {| vb_payload := envelope.(sb_payload); vb_canonical_payload := canonical; vb_canonical_hash := sha256_hex sha256 canonical;
                  vb_signer_key_id := envelope.(sb_signature).(sg_key_id) |}.
Proof.
  unfold verify. rewrite bind_Ok. setoid_rewrite algorithms_Ok. setoid_rewrite bind_Ok. setoid_rewrite payload_Ok.
  setoid_rewrite bind_Ok. setoid_rewrite ok_or_Ok. setoid_rewrite refuse_Ok. setoid_rewrite refuse_Ok.
  setoid_rewrite bind_Ok. setoid_rewrite select_key_Ok. setoid_rewrite bind_Ok. setoid_rewrite signature_Ok.
  unfold contains_literal_secret. setoid_rewrite existsb_false_iff. setoid_rewrite negb_false_iff. setoid_rewrite bool_decide_eq_true.
  assert (∀ m l, is_some (find_bytes m l) = false ↔ find_bytes m l = None) as Hm by (intros m l; destruct (find_bytes m l); naive_solver).
  setoid_rewrite Hm. assert (∀ key, trusted trust_store (sg_key_id (sb_signature envelope)) context key → tk_key_id key = sg_key_id (sb_signature envelope)) as Hid.
  { intros key [Hu _ _ _]. assert (key ∈ [key]) as Hin by by left. rewrite <- Hu in Hin. apply list_elem_of_filter in Hin. tauto. }
  split.
  - intros ([] & Hf & [] & [Hr Hw] & canonical & Hc & Hp & Hh & key & Ht & [] & Hs & [= <-]). exists canonical, key. split; [by split|]. by rewrite (Hid key Ht).
  - intros (canonical & key & [Hf Hr Hw Hc Hp Hh Ht Hs] & ->). exists tt. split; [done|]. exists tt. split; [done|]. exists canonical. split_and!; [done..|].
    exists key. split; [done|]. exists tt. split; [done|]. by rewrite (Hid key Ht).
Qed.

End specification.

(** what is signed is loaded again, and it cannot be exchanged. An envelope that [sign] makes of a payload that may run here, with a key that
    the store trusts under the name in the envelope, is loaded and gives back that payload; and any envelope
    for which the signed message is the same has the same canonical payload. *)
Theorem signed_bundle_loads {Version} (parse_version : bytes → option Version) version_cmp jcs_to_vec sha256
    (base64_decode : bytes → option bytes) base64_encode
    {VerifyingKey Signature SigningKey : Type} (verifying_key : bytes → option VerifyingKey) (signature_from_slice : bytes → option Signature)
    verify_strict (sign_bytes : SigningKey → bytes → bytes) payload key_id signing_key envelope trust_store context key vk public_bytes canonical :
  (∀ l, base64_decode (base64_encode l) = Some l) →
  (∀ message, ∃ parsed, signature_from_slice (sign_bytes signing_key message) = Some parsed ∧ verify_strict vk message parsed = true) →
  base64_decode key.(tk_public_key_base64) = Some public_bytes → length public_bytes = 32%nat → verifying_key public_bytes = Some vk →
  sign jcs_to_vec sha256 base64_encode sign_bytes payload key_id signing_key = Ok envelope →
  payload.(bp_schema_version) = SCHEMA_VERSION → trust_store.(ts_domain) = SIGNATURE_DOMAIN → trust_store.(ts_format_version) = ENVELOPE_VERSION →
  runs_here parse_version version_cmp payload context → wire_ok payload.(bp_application) → trusted trust_store key_id context key →
  jcs_to_vec payload = Some canonical →
  (∀ marker, marker ∈ SECRET_MARKERS → find_bytes marker (to_lowercase_ascii (from_utf8_lossy canonical)) = None) →
  verify parse_version version_cmp jcs_to_vec sha256 base64_decode verifying_key signature_from_slice verify_strict envelope trust_store context =
    Ok {| vb_payload := payload; vb_canonical_payload := canonical; vb_canonical_hash := sha256_hex sha256 canonical; vb_signer_key_id := key_id |} ∧
  ∀ canonical', signature_preimage (sha256_hex sha256 canonical') canonical' = signature_preimage (sha256_hex sha256 canonical) canonical →
    canonical' = canonical.
Proof.
  intros Hb64 Hsig Hpk Hlen Hvk Hsign Hschema Hd Hf Hruns Hwire Htr Hc Hp. unfold sign in Hsign. rewrite Hc in Hsign. injection Hsign as [= <-]. split.
  - apply bundle_loaded_iff_admissible. exists canonical, key. split; [|done]. split; cbn; try done.
    destruct (Hsig (signature_preimage (sha256_hex sha256 canonical) canonical)) as (parsed & Hpa & Hv).
    split. exists public_bytes, vk, (sign_bytes signing_key (signature_preimage (sha256_hex sha256 canonical) canonical)), parsed. split_and!; [done|done|done|apply Hb64|done|done].
  - intros canonical' E. apply preimage_parts in E as [_ E]; [done|apply hex_no_nul..].
Qed.

(** ** Witnesses *)

(** A toy signature: the key, then the message. *)
Definition sample_key : bytes := replicate 32 "k"%char.

Definition sample_profile : TlsProfile :=
  {| tl_client_hello_profile := bs "cli"; tl_alpn := [bs "http/1.1"]; tl_cipher_suite_ids := [4865]; tl_supported_group_ids := [29];
     tl_key_share_group_ids := [29]; tl_extension_order := [0; 11; 10; 16]; tl_grease_enabled := true; tl_permute_extensions := false;
     tl_session_resumption := false; tl_min_tls_version := None; tl_max_tls_version := None |}.

Definition sample_payload : TransportBundlePayload :=
  {| bp_schema_version := SCHEMA_VERSION; bp_engine_abi_version := bs "1.0"; bp_bundle_id := bs "bundle"; bp_artifact_version := 1;
     bp_lifecycle := Lifecycle_Verified; bp_evidence_gate := Gate_Passed; bp_runtime_state := Loadable; bp_backend_id := bs "boringssl-h1-v1";
     bp_required_capabilities := [bs "ordered_http1"]; bp_source_archetype_version_id := bs "arch"; bp_capture_cohort := bs "windows";
     bp_application :=
       App_H1 (bs "api.anthropic.com") sample_profile
         {| h1_request_line_form := bs "origin";
            h1_header_order := [{| ht_name := bs "host"; ht_value_template := bs "{authority}"; ht_sensitive := false |};
                                {| ht_name := bs "authorization"; ht_value_template := bs "{authorization}"; ht_sensitive := true |}];
            h1_framing := bs "content-length" |}
         {| bc_pool_key_fields := POOL_FIELDS; bc_reuse_policy := bs "exact_pool_key"; bc_resumption_cache_scope := bs "disabled" |};
     bp_min_engine_build := bs "1"; bp_max_engine_build := Some (bs "3");
     bp_engine_builds := [{| eb_target := bs "linux"; eb_artifact_digest := []; eb_boringssl_revision := []; eb_compiler := [] |}];
     bp_supported_targets := [bs "linux"]; bp_evidence_hashes := [bs "evidence"]; bp_created_at := bs "today" |}.

Definition sample_context : BundleLoadContext :=
  {| lc_engine_abi_version := bs "1.0"; lc_engine_build := bs "2"; lc_target := bs "linux";
     lc_supported_capabilities := {[ bs "ordered_http1"; bs "tls_client_hello" ]}; lc_now_unix_seconds := 50; lc_for_new_activation := true |}.

Definition sample_trust_key : TrustKey :=
  {| tk_key_id := bs "root"; tk_status := Key_Current; tk_public_key_base64 := sample_key; tk_valid_from_unix_seconds := Some 10;
     tk_valid_until_unix_seconds := Some 100 |}.

Definition sample_trust_store : BundleTrustStore :=
  {| ts_format_version := ENVELOPE_VERSION; ts_domain := SIGNATURE_DOMAIN; ts_keys := [sample_trust_key] |}.

Definition sample_sign (key message : bytes) : bytes := key ++ message.

Definition sample_verify (key message signature : bytes) : bool := bool_decide (signature = key ++ message).

Definition sample_jcs (payload : TransportBundlePayload) : option bytes := Some (payload.(bp_bundle_id) ++ payload.(bp_backend_id)).

Definition sample_version (l : bytes) : option N := from_str_radix 10 U64_MAX l.

Lemma sample_runs : runs_here sample_version N.compare sample_payload sample_context.
Proof.
  split.
  - split_and!; by_decide.
  - split; [by_decide|]. eexists. split; [by left|done].
  - exists 2, 1. split_and!; [by vm_compute|by vm_compute|by vm_compute|]. intros text [= <-]. exists 3. split; by vm_compute.
  - intros capability ->%list_elem_of_singleton. by_decide.
  - split_and!; [done|done|by_decide].
Qed.

Lemma sample_wire : wire_ok sample_payload.(bp_application).
Proof. split; [done|done|]. split_and!; [by_decide|by_decide|done|done]. Qed.

Lemma sample_trusted : trusted sample_trust_store (bs "root") sample_context sample_trust_key.
Proof. split; [done|done| |]. - by intros start [= <-]. - by intros limit [= <-]. Qed.

Lemma signed_bundle_loads_witness : ∃ envelope verified,
  sign sample_jcs (λ l, take 4 l) id sample_sign sample_payload (bs "root") sample_key = Ok envelope ∧
  verify sample_version N.compare sample_jcs (λ l, take 4 l) Some Some Some sample_verify envelope sample_trust_store sample_context = Ok verified.
Proof.
  eexists _, _. split; [reflexivity|].
  eapply (signed_bundle_loads sample_version N.compare sample_jcs (λ l, take 4 l) Some id Some Some sample_verify sample_sign sample_payload
    (bs "root") sample_key _ sample_trust_store sample_context sample_trust_key sample_key sample_key (bs "bundleboringssl-h1-v1")).
  - done.
  - intros message. exists (sample_key ++ message). split; [done|]. by apply bool_decide_eq_true.
  - done.
  - done.
  - done.
  - reflexivity.
  - done.
  - done.
  - done.
  - apply sample_runs.
  - apply sample_wire.
  - apply sample_trusted.
  - done.
  - intros marker. unfold SECRET_MARKERS. rewrite !elem_of_cons, elem_of_nil. intros [->|[->|[->|[->|[]]]]]; by vm_compute.
Defined.
