(* ===== verification/EngineCatalog.v ===== *)
(** The catalog of compiled transport engines: [crates/gateway-transport/src/engine.rs].

    A catalog is an immutable value; the handle is the catalog that is visible now. *)

From Stdlib Require Import Ascii.
From S2P Require Import Prelude Machine.
From S2P Require Import Bytes.
From S2P Require Import Domain.
From S2P Require Import Transport.
From S2P Require Import Json.
From S2P Require Import ConnectionPool.
From S2P Require Import Dispatch.
From S2P Require Import Bundle.
Local Open Scope N_scope.

(** ** Data *)
Inductive EngineCompileError :=
  | InvalidBundleId
  | SelfTest
  | DuplicateKey
  | EmptyCatalog
  | GenerationOverflow.

Abbreviation ActivationGeneration := N (only parsing).

Definition INITIAL : ActivationGeneration := 1.

Definition generation_next (self : ActivationGeneration) : result EngineCompileError ActivationGeneration :=
  ok_or GenerationOverflow (checked_add U64_MAX self 1).

Record EngineKey := {
  ek_bundle_id : TransportBundleId;
  ek_bundle_version : N;
  ek_bundle_hash : bytes;
  ek_engine_abi : bytes;
  ek_backend_id : bytes;
  ek_protocol : HttpProtocol;
}.

(** The derived order compares the fields as they are declared. *)
Definition key_fields (k : EngineKey) : TransportBundleId * (N * (bytes * (bytes * (bytes * N)))) :=
  (k.(ek_bundle_id), (k.(ek_bundle_version), (k.(ek_bundle_hash), (k.(ek_engine_abi), (k.(ek_backend_id), protocol_rank k.(ek_protocol)))))).

Definition key_of_fields (f : TransportBundleId * (N * (bytes * (bytes * (bytes * N))))) : EngineKey :=
  let '(b, (v, (h, (a, (k, p))))) := f in
  {| ek_bundle_id := b; ek_bundle_version := v; ek_bundle_hash := h; ek_engine_abi := a; ek_backend_id := k;
     ek_protocol := if p =? 0 then H1 else H2 |}.

Lemma key_of_key_fields k : key_of_fields (key_fields k) = k.
Proof. by destruct k as [? ? ? ? ? []]. Qed.

#[export] Instance key_fields_inj : Inj (=) (=) key_fields.
Proof. intros x y H. by rewrite <- (key_of_key_fields x), H, key_of_key_fields. Qed.

#[export] Instance EngineKey_eq_dec : EqDecision EngineKey.
Proof. refine (inj_eq_dec key_fields). Defined.

#[export] Instance EngineKey_countable : Countable EngineKey.
Proof. exact (inj_countable' key_fields key_of_fields key_of_key_fields). Defined.

#[export] Instance EngineKey_key_order : KeyOrder EngineKey := pull_key_order key_fields _.

Inductive CompiledApplicationProfile :=
  | Compiled_H1 (profile : Http1Profile)
  | Compiled_H2 (profile : Http2Profile).

Record CompiledTransportEngine := {
  te_key : EngineKey;
  te_source_archetype_version_id : bytes;
  te_capture_cohort : bytes;
  te_authority : bytes;
  te_tls : TlsProfile;
  te_application : CompiledApplicationProfile;
  te_headers : list HeaderTemplate;
  te_evidence_hashes : list bytes;
}.

Definition te_protocol (self : CompiledTransportEngine) : HttpProtocol := self.(te_key).(ek_protocol).

(** ** Compilation *)
Definition header_rejected (header : HeaderTemplate) : bool :=
  is_empty header.(ht_name)
  || existsb (λ c, (128 <=? byte c) || bool_decide (c = CR) || bool_decide (c = LF)) header.(ht_name)
  || existsb (λ c, bool_decide (c = CR) || bool_decide (c = LF)) header.(ht_value_template).

Definition self_test (self : CompiledTransportEngine) : result EngineCompileError unit :=
  if negb (bool_decide (self.(te_authority) = bs "api.anthropic.com"))
     || (self.(te_key).(ek_bundle_version) =? 0)
     || is_empty self.(te_evidence_hashes)
     || existsb header_rejected self.(te_headers)
  then Err SelfTest else Ok tt.

Definition compiled_profile (application : ApplicationProfile)
    : HttpProtocol * bytes * TlsProfile * CompiledApplicationProfile * list HeaderTemplate :=
  match application with
  | App_H1 authority tls http1 _ => (H1, authority, tls, Compiled_H1 http1, http1.(h1_header_order))
  | App_H2 authority tls http2 _ => (H2, authority, tls, Compiled_H2 http2, http2.(h2_header_order))
  end.

Definition TransportBundleId_new (value : bytes) : option TransportBundleId :=
  match TypedId_new TransportBundleTag (String.string_of_list_ascii value) with Ok id => Some id | Err _ => None end.

Definition compile_engine (bundle : VerifiedBundle) : result EngineCompileError CompiledTransportEngine :=
  let payload := bundle.(vb_payload) in
  bundle_id ← ok_or InvalidBundleId (TransportBundleId_new payload.(bp_bundle_id));
  let '(protocol, authority, tls, application, headers) := compiled_profile payload.(bp_application) in
  let engine :=
    {| te_key := {| ek_bundle_id := bundle_id; ek_bundle_version := payload.(bp_artifact_version);
                    ek_bundle_hash := bundle.(vb_canonical_hash); ek_engine_abi := payload.(bp_engine_abi_version);
                    ek_backend_id := payload.(bp_backend_id); ek_protocol := protocol |};
       te_source_archetype_version_id := payload.(bp_source_archetype_version_id); te_capture_cohort := payload.(bp_capture_cohort);
       te_authority := authority; te_tls := tls; te_application := application; te_headers := headers;
       te_evidence_hashes := payload.(bp_evidence_hashes) |} in
  _ ← self_test engine;
  Ok engine.

(** ** The catalog *)
Record EngineCatalog := {
  ec_generation : ActivationGeneration;
  ec_entries : gmap EngineKey CompiledTransportEngine;
}.

Definition empty_for_local (generation : ActivationGeneration) : EngineCatalog :=
  {| ec_generation := generation; ec_entries := ∅ |}.

Fixpoint build_entries (engines : list CompiledTransportEngine) (entries : gmap EngineKey CompiledTransportEngine)
    : result EngineCompileError (gmap EngineKey CompiledTransportEngine) :=
  match engines with
  | [] => Ok entries
  | engine :: engines =>
      if is_some (entries !! engine.(te_key)) then Err DuplicateKey
      else build_entries engines (<[engine.(te_key) := engine]> entries)
  end.

Definition build (generation : ActivationGeneration) (engines : list CompiledTransportEngine) : result EngineCompileError EngineCatalog :=
  entries ← build_entries engines ∅;
  if bool_decide (entries = ∅) then Err EmptyCatalog
  else Ok {| ec_generation := generation; ec_entries := entries |}.

Definition catalog_get (self : EngineCatalog) (key : EngineKey) : option CompiledTransportEngine := self.(ec_entries) !! key.

Definition exact_match (source_archetype_version_id bundle_id : bytes) (bundle_version : N) (bundle_hash : bytes)
    (engine : CompiledTransportEngine) : bool :=
  bool_decide (engine.(te_source_archetype_version_id) = source_archetype_version_id)
  && bool_decide (bs (TypedId_as_str engine.(te_key).(ek_bundle_id)) = bundle_id)
  && (engine.(te_key).(ek_bundle_version) =? bundle_version)
  && bool_decide (engine.(te_key).(ek_bundle_hash) = bundle_hash).

Definition find_exact (self : EngineCatalog) (source_archetype_version_id bundle_id : bytes) (bundle_version : N) (bundle_hash : bytes)
    : option CompiledTransportEngine :=
  List.find (exact_match source_archetype_version_id bundle_id bundle_version bundle_hash) (btree_values self.(ec_entries)).

Definition catalog_len (self : EngineCatalog) : nat := size self.(ec_entries).

Definition catalog_is_empty (self : EngineCatalog) : bool := bool_decide (self.(ec_entries) = ∅).

Definition contains_bundle_id (self : EngineCatalog) (bundle_id : bytes) : bool :=
  existsb (λ key, bool_decide (bs (TypedId_as_str key.(ek_bundle_id)) = bundle_id)) (btree_keys self.(ec_entries)).

Record CatalogActivation := {
  ca_previous : ActivationGeneration;
  ca_current : ActivationGeneration;
}.

Record PreparedCatalogActivation := {
  pa_catalog : EngineCatalog;
  pa_activation : CatalogActivation;
}.

Record EngineCatalogHandle := { eh_current : EngineCatalog }.

Definition handle_new (initial : EngineCatalog) : EngineCatalogHandle := {| eh_current := initial |}.

Definition catalog_snapshot (self : EngineCatalogHandle) : EngineCatalog := self.(eh_current).

Definition stage (self : EngineCatalogHandle) (engines : list CompiledTransportEngine) : result EngineCompileError PreparedCatalogActivation :=
  let previous_catalog := catalog_snapshot self in
  next_generation ← generation_next previous_catalog.(ec_generation);
  next ← build next_generation engines;
  Ok {| pa_catalog := next; pa_activation := {| ca_previous := previous_catalog.(ec_generation); ca_current := next_generation |} |}.

Definition publish (prepared : PreparedCatalogActivation) (self : EngineCatalogHandle) : CatalogActivation * EngineCatalogHandle :=
  (prepared.(pa_activation), {| eh_current := prepared.(pa_catalog) |}).

(** One activation: staging, and publication when it succeeded; the callers do not interleave two of them. *)
Definition activate (engines : list CompiledTransportEngine) (self : EngineCatalogHandle)
    : result EngineCompileError CatalogActivation * EngineCatalogHandle :=
  match stage self engines with
  | Err e => (Err e, self)
  | Ok prepared => let '(activation, self) := publish prepared self in (Ok activation, self)
  end.

Fixpoint activate_all (requests : list (list CompiledTransportEngine)) (self : EngineCatalogHandle)
    : list (result EngineCompileError CatalogActivation) * EngineCatalogHandle :=
  match requests with
  | [] => ([], self)
  | engines :: requests =>
      let '(answer, self) := activate engines self in
      let '(answers, self) := activate_all requests self in
      (answer :: answers, self)
  end.

(** ** Lemmas *)

Lemma build_entries_spec engines entries : (∀ k e, entries !! k = Some e → e.(te_key) = k) →
  match build_entries engines entries with
  | Ok entries' => (∀ k e, entries' !! k = Some e ↔ (e ∈ engines ∧ e.(te_key) = k) ∨ entries !! k = Some e) ∧ NoDup (te_key <$> engines) ∧
      (∀ e, e ∈ engines → entries !! e.(te_key) = None)
  | Err e => e = DuplicateKey ∧ ¬ (NoDup (te_key <$> engines) ∧ ∀ e, e ∈ engines → entries !! e.(te_key) = None)
  end.
Proof.
  revert entries. induction engines as [|engine engines IH]; intros entries Hk; cbn [build_entries fmap list_fmap].
  - split_and!; [set_solver|by apply NoDup_nil_2|set_solver].
  - destruct (is_some (entries !! te_key engine)) eqn:E.
    { split; [done|]. intros [_ Hn]. rewrite (Hn engine) in E by (by left). done. }
    assert (entries !! te_key engine = None) as Hnone by (by destruct (entries !! te_key engine)).
    specialize (IH (<[te_key engine:=engine]> entries)). destruct (build_entries engines _) as [entries'|err].
    + destruct IH as (Hl & Hnd & Hn). { intros k e [[<- <-]|[_ H]]%lookup_insert_Some; [done|by apply Hk]. }
      assert (∀ e, e ∈ engines → te_key e ≠ te_key engine ∧ entries !! te_key e = None) as Hf.
      { intros e He. specialize (Hn e He). by apply lookup_insert_None in Hn as [? ?]. }
      split_and!.
      * intros k e. rewrite Hl, lookup_insert_Some, elem_of_cons. split.
        -- intros [[? ?]|[[<- <-]|[? ?]]]; [left; tauto|left; tauto|by right].
        -- intros [[[->|He] <-]|Hl']; [by right; left|by left|]. right. right. split; [|done]. intros <-. congruence.
      * apply NoDup_cons. split; [|done]. rewrite list_elem_of_fmap. intros (e & He & Hin). by destruct (Hf e Hin).
      * intros e [->|He]%elem_of_cons; [done|by apply Hf].
    + destruct IH as [-> Hn]. { intros k e [[<- <-]|[_ H]]%lookup_insert_Some; [done|by apply Hk]. }
      split; [done|]. intros [[Hnotin Hnd]%NoDup_cons Hfree]. apply Hn. split; [done|]. intros e He. apply lookup_insert_None. split.
      * apply Hfree. by right.
      * intros Ek. apply Hnotin. rewrite list_elem_of_fmap. by exists e.
Qed.

Lemma build_entries_result generation engines catalog : build generation engines = Ok catalog ↔
  engines ≠ [] ∧ NoDup (te_key <$> engines) ∧ catalog.(ec_generation) = generation ∧
  ∀ k e, catalog.(ec_entries) !! k = Some e ↔ e ∈ engines ∧ e.(te_key) = k.
Proof.
  unfold build. pose proof (build_entries_spec engines ∅ ltac:(intros k e; by rewrite lookup_empty)) as Hb.
  destruct (build_entries engines ∅) as [entries|err]; cbn [mbind result_bind].
  - destruct Hb as (Hl & Hnd & _). assert (∀ k e, entries !! k = Some e ↔ e ∈ engines ∧ te_key e = k) as Hl' by (intros k e; rewrite Hl, lookup_empty; naive_solver).
    destruct (bool_decide (entries = ∅)) eqn:Ee; bool_prop.
    + split; [done|]. intros (Hne & _). destruct engines as [|e engines]; [done|]. exfalso.
      assert (entries !! te_key e = Some e) as Hc by (apply Hl'; split; [by left|done]). by rewrite Ee, lookup_empty in Hc.
    + split.
      * intros [= <-]. split_and!; [|done|done|done]. intros ->. apply Ee, map_eq. intros k. rewrite lookup_empty.
        destruct (entries !! k) as [e|] eqn:Ek; [|done]. apply Hl' in Ek as [[]%elem_of_nil _].
      * intros (_ & _ & <- & Hc). f_equal. destruct catalog as [g cs]. cbn in *. f_equal. apply map_eq. intros k. apply option_eq. intros e. by rewrite Hl', Hc.
  - split; [done|]. destruct Hb as [_ Hn]. intros (_ & Hnd & _). by destruct Hn.
Qed.

Lemma find_exact_Some self archetype bundle_id version hash engine : find_exact self archetype bundle_id version hash = Some engine →
  (∃ k, self.(ec_entries) !! k = Some engine) ∧ exact_match archetype bundle_id version hash engine = true.
Proof.
  unfold find_exact. intros [Hin Hm]%List.find_some. split; [|done]. apply list_elem_of_In, list_elem_of_fmap in Hin as ([k e] & -> & Hin).
  exists k. by apply elem_of_btree_iter.
Qed.

Lemma find_exact_None self archetype bundle_id version hash : find_exact self archetype bundle_id version hash = None ↔
  ∀ k e, self.(ec_entries) !! k = Some e → exact_match archetype bundle_id version hash e = false.
Proof.
  unfold find_exact. split.
  - intros Hn k e Hk. eapply List.find_none in Hn; [done|]. apply list_elem_of_In, list_elem_of_fmap. exists (k, e). split; [done|]. by apply elem_of_btree_iter.
  - intros Hall. destruct (List.find _ _) as [e|] eqn:E; [|done]. apply List.find_some in E as [Hin Hm].
    apply list_elem_of_In, list_elem_of_fmap in Hin as ([k e'] & -> & Hin). apply elem_of_btree_iter in Hin. cbn [snd] in Hm.
    by rewrite (Hall _ _ Hin) in Hm.
Qed.

Lemma exact_match_spec archetype bundle_id version hash engine : exact_match archetype bundle_id version hash engine = true ↔
  engine.(te_source_archetype_version_id) = archetype ∧ bs (TypedId_as_str engine.(te_key).(ek_bundle_id)) = bundle_id ∧
  engine.(te_key).(ek_bundle_version) = version ∧ engine.(te_key).(ek_bundle_hash) = hash.
Proof. unfold exact_match. rewrite !andb_true_iff, !bool_decide_eq_true, N.eqb_eq. tauto. Qed.

Lemma TransportBundleId_new_Some value id : TransportBundleId_new value = Some id → bs (TypedId_as_str id) = value.
Proof.
  unfold TransportBundleId_new, TypedId_new. destruct (_ || _); [done|]. intros [= <-]. cbn. apply String.list_ascii_of_string_of_list_ascii.
Qed.

(** ** Properties *)

Section signed_engines.
Context {Version : Type} (parse_version : bytes → option Version) (version_cmp : Version → Version → comparison).
Context (jcs_to_vec : TransportBundlePayload → option bytes) (sha256 : bytes → bytes) (base64_decode : bytes → option bytes).
Context {VerifyingKey Signature : Type} (verifying_key : bytes → option VerifyingKey) (signature_from_slice : bytes → option Signature).
Context (verify_strict : VerifyingKey → bytes → Signature → bool) (trust_store : BundleTrustStore) (context : BundleLoadContext).

(** An engine that the loader made of an envelope. *)
Definition loaded_from (engine : CompiledTransportEngine) (envelope : SignedBundleEnvelope) : Prop := ∃ bundle,
  verify parse_version version_cmp jcs_to_vec sha256 base64_decode verifying_key signature_from_slice verify_strict
    envelope trust_store context = Ok bundle ∧ compile_engine bundle = Ok engine.

Abbreviation admits := (admissible parse_version version_cmp jcs_to_vec sha256 base64_decode verifying_key signature_from_slice verify_strict).

(** What compilation takes from the payload. *)
Lemma compiled_engine_Ok bundle engine : compile_engine bundle = Ok engine →
  let application := bundle.(vb_payload).(bp_application) in
  engine.(te_source_archetype_version_id) = bundle.(vb_payload).(bp_source_archetype_version_id) ∧
  bs (TypedId_as_str engine.(te_key).(ek_bundle_id)) = bundle.(vb_payload).(bp_bundle_id) ∧
  engine.(te_key).(ek_bundle_version) = bundle.(vb_payload).(bp_artifact_version) ∧
  engine.(te_key).(ek_bundle_hash) = bundle.(vb_canonical_hash) ∧
  (te_protocol engine, engine.(te_authority), engine.(te_tls), engine.(te_application), engine.(te_headers)) = compiled_profile application ∧
  ∀ header, header ∈ engine.(te_headers) → header.(ht_name) ≠ [] ∧ (CR ∉ header.(ht_value_template)) ∧ (LF ∉ header.(ht_value_template)).
Proof.
  unfold compile_engine. intros (id & Hid%ok_or_Ok%TransportBundleId_new_Some & H)%bind_Ok. revert H.
  destruct (compiled_profile _) as [[[[protocol authority] tls] application] headers] eqn:Ep. intros ([] & Ht & [= <-])%bind_Ok. cbn.
  unfold self_test in Ht. rewrite refuse_Ok, !orb_false_iff in Ht. destruct Ht as [[_ Hh] _]. split_and!; try done.
  intros header Hin. rewrite existsb_false_iff in Hh. specialize (Hh header Hin). unfold header_rejected in Hh.
  rewrite !orb_false_iff in Hh. destruct Hh as [[Hn _] Hv]. rewrite existsb_false_iff in Hv.
  split; [intros E; by rewrite E in Hn|]. split; intros Hc; specialize (Hv _ Hc); apply orb_false_iff in Hv as [Hcr Hlf]; bool_prop; done.
Qed.

(** C20: an engine is what its signed bundle says. The engine that [find_exact] gives, in a catalog of engines that the loader made, comes from an admissible envelope: a trusted
    key signed its payload, whose digest is the hash that was asked for, with exactly the archetype, the name and the
    version that were asked for. No other cohort is taken in its place. It speaks to the provider's authority alone and without resumption of sessions, with the protocol of
    the bundle, and its header templates hold no line break. When none is given, no engine of the catalog is the one that was asked for. *)
Theorem engine_is_the_signed_one generation engines catalog archetype bundle_id version hash :
  (∀ engine, engine ∈ engines → ∃ envelope, loaded_from engine envelope) →
  build generation engines = Ok catalog →
  match find_exact catalog archetype bundle_id version hash with
  | Some engine => ∃ envelope canonical key, loaded_from engine envelope ∧ admits envelope trust_store context canonical key ∧
      let payload := envelope.(sb_payload) in
      payload.(bp_source_archetype_version_id) = archetype ∧ payload.(bp_bundle_id) = bundle_id ∧
      payload.(bp_artifact_version) = version ∧ hash = sha256_hex sha256 canonical ∧
      engine.(te_authority) = bs "api.anthropic.com" ∧ engine.(te_tls).(tl_session_resumption) = false ∧
      (te_protocol engine, engine.(te_authority), engine.(te_tls), engine.(te_application), engine.(te_headers)) = compiled_profile payload.(bp_application) ∧
      (∀ header, header ∈ engine.(te_headers) → header.(ht_name) ≠ [] ∧ (CR ∉ header.(ht_value_template)) ∧ (LF ∉ header.(ht_value_template)))
  | None => ∀ engine, engine ∈ engines → exact_match archetype bundle_id version hash engine = false
  end.
Proof.
  intros Hload (_ & _ & _ & Hl)%build_entries_result. destruct (find_exact _ _ _ _ _) as [engine|] eqn:Ef.
  - apply find_exact_Some in Ef as ([k Hk] & (Ea & Eb & Ev & Eh)%exact_match_spec). apply Hl in Hk as [Hin _].
    destruct (Hload engine Hin) as (envelope & bundle & Hv & Hc). pose proof Hv as (canonical & key & Had & ->)%bundle_loaded_iff_admissible.
    pose proof (compiled_engine_Ok _ _ Hc) as (E1 & E2 & E3 & E4 & E5 & E6). cbn in *.
    exists envelope, canonical, key. split; [by eexists|]. split; [done|]. destruct Had as [_ _ [Hauth (_ & _ & _ & Hres) _] _ _ _ _ _].
    split_and!; [congruence..| | |done|done].
    all: destruct (bp_application _); cbn in *; injection E5 as [= _ E51 E52 _ _]; by rewrite ?E51, ?E52.
  - intros engine Hin. eapply find_exact_None; [exact Ef|]. by apply Hl.
Qed.

End signed_engines.

(** every publication is a new generation. Over any sequence of activations the visible catalog is that of the last one that succeeded, built of its engines alone,
    and its generation has grown by one for each that succeeded, so that going back to an earlier set of engines is a generation of its own; an activation that fails
    leaves what is visible. *)
Theorem activations_advance requests handle :
  let '(answers, handle') := activate_all requests handle in
  length answers = length requests ∧
  handle'.(eh_current).(ec_generation) = handle.(eh_current).(ec_generation) + N.of_nat (length (filter (λ a, is_ok a = true) answers)) ∧
  match last (filter (λ p, is_ok p.1 = true) (zip answers requests)) with
  | None => handle' = handle
  | Some (_, engines) => build handle'.(eh_current).(ec_generation) engines = Ok handle'.(eh_current)
  end ∧
  ∀ i activation, answers !! i = Some (Ok activation) →
    activation.(ca_previous) = handle.(eh_current).(ec_generation) + N.of_nat (length (filter (λ a, is_ok a = true) (take i answers))) ∧
    activation.(ca_current) = activation.(ca_previous) + 1.
Proof.
  revert handle. induction requests as [|engines requests IH]; intros handle; cbn [activate_all].
  - split_and!; [done|cbn; lia|done|done].
  - unfold activate. destruct (stage handle engines) as [prepared|e] eqn:Es.
    + unfold stage, generation_next, checked_add, catalog_snapshot in Es. destruct (_ <=? _); cbn [ok_or mbind result_bind] in Es; [|done].
      destruct (build _ engines) as [next|] eqn:Eb; [|done]. cbn [mbind result_bind] in Es. injection Es as [= <-]. cbn [publish pa_catalog pa_activation].
      pose proof (proj1 (build_entries_result _ _ _) Eb) as (_ & _ & Hg & _). specialize (IH {| eh_current := next |}). cbn [eh_current] in IH. rewrite Hg in IH.
      destruct (activate_all requests _) as [answers handle'']. destruct IH as (Hlen & Hgen & Hlast & Hat). split_and!.
      * cbn. lia.
      * rewrite Hgen, filter_cons_True by done. cbn [length]. lia.
      * cbn [zip zip_with]. rewrite filter_cons_True by done. rewrite last_cons. destruct (last (filter _ (zip answers requests))) as [[]|]; [done|].
        subst handle''. cbn. by rewrite Hg.
      * intros [|i] activation; cbn [lookup list_lookup].
        -- intros [= <-]. cbn. split; lia.
        -- intros Hi. specialize (Hat i activation Hi) as [-> ->]. cbn [take]. rewrite filter_cons_True by done. cbn [length]. lia.
    + specialize (IH handle). destruct (activate_all requests _) as [answers handle'']. destruct IH as (Hlen & Hgen & Hlast & Hat). split_and!.
      * cbn. lia.
      * by rewrite filter_cons_False.
      * cbn [zip zip_with]. by rewrite filter_cons_False.
      * intros [|i] activation; cbn [lookup list_lookup]; [done|]. intros Hi. cbn [take]. rewrite filter_cons_False by done. by apply Hat.
Qed.

(** ** Witnesses *)

Definition sample_verify_envelope (envelope : SignedBundleEnvelope) : result BundleLoadError VerifiedBundle :=
  verify sample_version N.compare sample_jcs (λ l, take 4 l) Some Some Some sample_verify envelope sample_trust_store sample_context.

Definition sample_compiled : option (SignedBundleEnvelope * CompiledTransportEngine) :=
  match sign sample_jcs (λ l, take 4 l) id sample_sign sample_payload (bs "root") sample_key with
  | Ok envelope =>
      match sample_verify_envelope envelope with
      | Ok bundle => match compile_engine bundle with Ok engine => Some (envelope, engine) | Err _ => None end
      | Err _ => None
      end
  | Err _ => None
  end.

Definition sample_loaded : SignedBundleEnvelope * CompiledTransportEngine :=
  Eval vm_compute in match sample_compiled with Some p => p | None => ({| sb_envelope_version := []; sb_payload := sample_payload;
    sb_canonicalization := {| bz_algorithm := []; bz_hash_algorithm := []; bz_canonical_hash := [] |};
    sb_signature := {| sg_domain := []; sg_algorithm := []; sg_key_id := []; sg_detached_signature_base64 := [] |} |},
    {| te_key := {| ek_bundle_id := MkTypedId ""; ek_bundle_version := 0; ek_bundle_hash := []; ek_engine_abi := []; ek_backend_id := []; ek_protocol := H1 |};
       te_source_archetype_version_id := []; te_capture_cohort := []; te_authority := []; te_tls := sample_profile;
       te_application := Compiled_H2 {| h2_settings_order := []; h2_initial_window_size := 0; h2_pseudo_header_order := []; h2_header_order := [] |};
       te_headers := []; te_evidence_hashes := [] |}) end.

Lemma sample_loaded_from :
  loaded_from sample_version N.compare sample_jcs (λ l, take 4 l) Some Some Some sample_verify sample_trust_store sample_context sample_loaded.2 sample_loaded.1.
Proof. eexists. split; vm_compute; reflexivity. Qed.

Definition sample_catalog : EngineCatalog := {| ec_generation := 1; ec_entries := {[ sample_loaded.2.(te_key) := sample_loaded.2 ]} |}.

Lemma sample_catalog_built : build 1 [sample_loaded.2] = Ok sample_catalog.
Proof.
  apply build_entries_result. split_and!; [done|apply NoDup_singleton|done|]. intros k e. unfold sample_catalog, ec_entries.
  rewrite lookup_singleton_Some, list_elem_of_singleton. naive_solver.
Qed.

Lemma sample_found : find_exact sample_catalog (bs "arch") (bs "bundle") 1 (bs "62756e64") = Some sample_loaded.2.
Proof. vm_compute. reflexivity. Qed.

Lemma sample_engines_loaded engine : engine ∈ [sample_loaded.2] → ∃ envelope,
  loaded_from sample_version N.compare sample_jcs (λ l, take 4 l) Some Some Some sample_verify sample_trust_store sample_context engine envelope.
Proof. intros ->%list_elem_of_singleton. exists sample_loaded.1. exact sample_loaded_from. Qed.

Lemma engine_is_the_signed_one_witness : ∃ envelope canonical key,
  admissible sample_version N.compare sample_jcs (λ l, take 4 l) Some Some Some sample_verify
    envelope sample_trust_store sample_context canonical key ∧ bs "62756e64" = sha256_hex (λ l, take 4 l) canonical.
Proof.
  pose proof (engine_is_the_signed_one sample_version N.compare sample_jcs (λ l, take 4 l) Some Some Some sample_verify sample_trust_store sample_context
    1 [sample_loaded.2] sample_catalog (bs "arch") (bs "bundle") 1 (bs "62756e64") sample_engines_loaded sample_catalog_built) as H.
  rewrite sample_found in H. destruct H as (envelope & canonical & key & _ & Had & _ & _ & _ & Hh & _).
  exists envelope, canonical, key. split; [exact Had|exact Hh].
Defined.
