(* ===== verification/AttemptSnapshot.v ===== *)
(** The immutable values of one attempt: the egress route, the identity and the deadlines of
    [crates/gateway-domain/src/transport.rs], and the attempt of [crates/gateway-transport/src/port.rs]. *)

From Stdlib Require Import Ascii.
From S2P Require Import Prelude Machine.
From S2P Require Import Bytes.
From S2P Require Import Domain.
From S2P Require Import Http1.
From S2P Require Import Dispatch.
From S2P Require Import Bundle.
From S2P Require Import EngineCatalog.
Local Open Scope N_scope.

(** ** Routes *)
Inductive Socks5DnsMode := Dns_Local | Dns_Remote.

Record ProxyCredentials := { px_username : bytes; px_password : bytes }.

Inductive ProxyHop :=
  | Hop_HttpConnect (host : bytes) (port : N) (credentials : option ProxyCredentials)
  | Hop_HttpsConnect (host : bytes) (port : N) (credentials : option ProxyCredentials)
  | Hop_Socks5 (host : bytes) (port : N) (dns : Socks5DnsMode) (credentials : option ProxyCredentials).

Definition hop_from_row (proxy_type_code host : bytes) (port : N) (credentials : option ProxyCredentials) : option ProxyHop :=
  if bool_decide (proxy_type_code = bs "http_connect") then Some (Hop_HttpConnect host port credentials)
  else if bool_decide (proxy_type_code = bs "https_connect") then Some (Hop_HttpsConnect host port credentials)
  else if bool_decide (proxy_type_code = bs "socks5") then Some (Hop_Socks5 host port Dns_Remote credentials)
  else None.

Definition hop_endpoint (self : ProxyHop) : bytes * N :=
  match self with
  | Hop_HttpConnect host port _ | Hop_HttpsConnect host port _ | Hop_Socks5 host port _ _ => (host, port)
  end.

Inductive EgressRouteSnapshot :=
  | Route_Direct
  | Route_HttpConnect (host : bytes) (port : N) (credentials : option ProxyCredentials)
  | Route_HttpsConnect (host : bytes) (port : N) (credentials : option ProxyCredentials)
  | Route_Socks5 (host : bytes) (port : N) (dns : Socks5DnsMode) (credentials : option ProxyCredentials)
  | Route_WithRelay (primary relay : ProxyHop).

Definition from_proxy_row (proxy_type_code host : bytes) (port : N) (credentials : option ProxyCredentials) : option EgressRouteSnapshot :=
  if bool_decide (proxy_type_code = bs "http_connect") then Some (Route_HttpConnect host port credentials)
  else if bool_decide (proxy_type_code = bs "https_connect") then Some (Route_HttpsConnect host port credentials)
  else if bool_decide (proxy_type_code = bs "socks5") then Some (Route_Socks5 host port Dns_Remote credentials)
  else None.

Definition from_hops (primary : ProxyHop) (relay : option ProxyHop) : EgressRouteSnapshot :=
  match relay with
  | None =>
      match primary with
      | Hop_HttpConnect host port credentials => Route_HttpConnect host port credentials
      | Hop_HttpsConnect host port credentials => Route_HttpsConnect host port credentials
      | Hop_Socks5 host port dns credentials => Route_Socks5 host port dns credentials
      end
  | Some relay => Route_WithRelay primary relay
  end.

Definition is_proxied (self : EgressRouteSnapshot) : bool := match self with Route_Direct => false | _ => true end.

(** ** One attempt *)
Record AttemptIdentitySnapshot := {
  ai_credential_id : CredentialId;
  ai_token_version : N;
  ai_profile_id : CredentialProfileId;
  ai_profile_epoch : N;
  ai_device_identity_id : DeviceIdentityId;
  ai_device_epoch : N;
  ai_archetype_version_id : ArchetypeVersionId;
  ai_bundle_id : TransportBundleId;
  ai_bundle_version : N;
  ai_bundle_hash : Digest;
  ai_egress_binding_id : EgressBindingId;
  ai_proxy_endpoint_id : option ProxyEndpointId;
  ai_egress_epoch : N;
  ai_session_derivation_version : N;
}.

Record AttemptDeadlines := {
  ad_connect : Duration;
  ad_upstream_total : Duration;
  ad_stream_idle : Duration;
  ad_cancel_grace : Duration;
}.

Definition deadlines_default : AttemptDeadlines :=
  {| ad_connect := from_secs 5; ad_upstream_total := from_mins 5; ad_stream_idle := from_secs 30; ad_cancel_grace := from_secs 2 |}.

Record TransportAttemptSnapshot := {
  as_request_id : RequestId;
  as_attempt_plan_id : AttemptPlanId;
  as_identity : AttemptIdentitySnapshot;
  as_egress : EgressRouteSnapshot;
  as_request : FinalUpstreamRequest;
  as_deadlines : AttemptDeadlines;
}.

(** The cancellation token of an attempt is its own; what it does is seen in the calls. *)
Record TransportAttempt := {
  at_connection_attempt_id : ConnectionAttemptId;
  at_ordinal : N;
  at_snapshot : TransportAttemptSnapshot;
  at_engine : CompiledTransportEngine;
  at_activation_generation : ActivationGeneration;
}.

(** The hops of a route, the last one first. *)
Definition route_hops (route : EgressRouteSnapshot) : option (ProxyHop * option ProxyHop) :=
  match route with
  | Route_Direct => None
  | Route_HttpConnect host port credentials => Some (Hop_HttpConnect host port credentials, None)
  | Route_HttpsConnect host port credentials => Some (Hop_HttpsConnect host port credentials, None)
  | Route_Socks5 host port dns credentials => Some (Hop_Socks5 host port dns credentials, None)
  | Route_WithRelay primary relay => Some (primary, Some relay)
  end.

(** a route is its hops. A route made of hops is proxied and gives these hops back, a route with a proxy is made of its hops, and a row gives the
    route of the hop that it gives. *)
Theorem routes_are_their_hops :
  (∀ primary relay, is_proxied (from_hops primary relay) = true ∧ route_hops (from_hops primary relay) = Some (primary, relay)) ∧
  (∀ route, match route_hops route with Some (primary, relay) => from_hops primary relay = route | None => is_proxied route = false end) ∧
  (∀ code host port credentials,
    from_proxy_row code host port credentials = (λ hop, from_hops hop None) <$> hop_from_row code host port credentials ∧
    ∀ hop, hop_from_row code host port credentials = Some hop → hop_endpoint hop = (host, port)).
Proof.
  split_and!.
  - by intros [] [].
  - by intros [].
  - intros code host port credentials. unfold from_proxy_row, hop_from_row.
    do 3 (case_bool_decide; [split; [done|by intros hop [= <-]]|]). done.
Qed.
