(* ===== verification/FinalRequest.v ===== *)
(** The request that is sent upstream: [build_final_request] of
    [crates/super-gatewayd/src/production_dispatcher.rs] and what it calls.

    HMAC-SHA256, SHA-256, the reader of serde_json and the texts of UUIDs are parameters; the random identifier of the
    request is an argument. Of a selected credential and an environment the records hold the fields that these functions read; of the connection of a
    WebSocket, a request says whether it has one. *)

From Stdlib Require Import Ascii.
From S2P Require Import Prelude Machine.
From S2P Require Import Bytes.
From S2P Require Import Domain.
From S2P Require Import Transport.
From S2P Require Import Http1.
From S2P Require Import Json.
From S2P Require Import SystemSegments.
From S2P Require Import SystemAlign.
From S2P Require Import SystemBilling.
From S2P Require Import SystemRewrite.
From S2P Require Import TokenBucket SchedTypes Samples.
From S2P Require Import RequestParser.
From S2P Require Import Capability.
From S2P Require Import Policy.
From S2P Require Import ClientRequest.
From S2P Require Import HeaderCapture.
From S2P Require Import Dispatch.
From S2P Require Import Bundle.
From S2P Require Import EngineCatalog.
From S2P Require Import AttemptSnapshot.
Local Open Scope N_scope.

(** ** Data *)
Record SelectedEnvironment := {
  se_os_family : OsFamily;
  se_shell : option bytes;
  se_os_version : option bytes;
}.

Record SelectedCredential (Num Uuid : Type) := {
  sc_auth_kind : bytes;
  sc_auth_secret : bytes;
  sc_session_hmac : bytes;
  sc_account_uuid : Uuid;
  sc_device_id : bytes;
  sc_egress : EgressRouteSnapshot;
  sc_proxy_endpoint_id : option ProxyEndpointId;
  sc_transport_bundle_id : Uuid;
  sc_client_version : bytes;
  sc_environment : SelectedEnvironment;
  sc_system_template : option (Value Num);
}.
Arguments Build_SelectedCredential {Num Uuid}.
Arguments sc_auth_kind {Num Uuid}.
Arguments sc_auth_secret {Num Uuid}.
Arguments sc_session_hmac {Num Uuid}.
Arguments sc_account_uuid {Num Uuid}.
Arguments sc_device_id {Num Uuid}.
Arguments sc_egress {Num Uuid}.
Arguments sc_proxy_endpoint_id {Num Uuid}.
Arguments sc_transport_bundle_id {Num Uuid}.
Arguments sc_client_version {Num Uuid}.
Arguments sc_environment {Num Uuid}.
Arguments sc_system_template {Num Uuid}.

(** What the dispatcher reads of a [DispatchRequest] once it holds a Lease. *)
Record DispatchRequest (Num : Type) := {
  dr_started_at : Duration;
  dr_client_identity : ClientIdentity;
  dr_original_headers : option HeaderSnapshot;
  dr_openai_connection : bool;
  dr_endpoint : DispatchEndpoint;
  dr_request_id : RequestId;
  dr_owner_user_id : UserId;
  dr_platform_key_id : PlatformKeyId;
  dr_group_id : GroupId;
  dr_base_session_id : SessionId;
  dr_agent_id : AgentId;
  dr_client_class : ClientClass;
  dr_client_app : option bytes;
  dr_client_os : ClientOs;
  dr_os_resolution : OsResolution;
  dr_os_mismatch : bool;
  dr_identity_conflict : bool;
  dr_accepted_at : Duration;
  dr_pre_upstream_deadline : Duration;
  dr_original_body : bytes;
  dr_generic : AdjustedRequest Num;
  dr_anthropic_version : option bytes;
  dr_anthropic_beta : option bytes;
}.
Arguments Build_DispatchRequest {Num}.
Arguments dr_started_at {Num}.
Arguments dr_client_identity {Num}.
Arguments dr_original_headers {Num}.
Arguments dr_openai_connection {Num}.
Arguments dr_endpoint {Num}.
Arguments dr_request_id {Num}.
Arguments dr_owner_user_id {Num}.
Arguments dr_platform_key_id {Num}.
Arguments dr_group_id {Num}.
Arguments dr_base_session_id {Num}.
Arguments dr_agent_id {Num}.
Arguments dr_client_class {Num}.
Arguments dr_client_app {Num}.
Arguments dr_client_os {Num}.
Arguments dr_os_resolution {Num}.
Arguments dr_os_mismatch {Num}.
Arguments dr_identity_conflict {Num}.
Arguments dr_accepted_at {Num}.
Arguments dr_pre_upstream_deadline {Num}.
Arguments dr_original_body {Num}.
Arguments dr_generic {Num}.
Arguments dr_anthropic_version {Num}.
Arguments dr_anthropic_beta {Num}.

Definition DEFAULT_CLAUDE_CODE_BETA : bytes :=
  bs "claude-code-20250219,oauth-2025-04-20,interleaved-thinking-2025-05-14,prompt-caching-scope-2026-01-05,effort-2025-11-24,context-management-2025-06-27,extended-cache-ttl-2025-04-11".

(** ** The beta header *)
Definition beta_contains (beta name : bytes) : bool := existsb (λ item, bool_decide (item = name)) (split "," beta).

Definition normalize_client_app (value : option bytes) : bytes :=
  match value with
  | Some value => if bool_decide (value = bs "cli") || bool_decide (value = bs "cli-bg") then value else bs "cli"
  | None => bs "cli"
  end.

(** ** Header templates *)
Record HeaderTemplateFields := {
  hf_authority : bytes;
  hf_authorization : bytes;
  hf_session_id : bytes;
  hf_anthropic_version : bytes;
  hf_anthropic_beta : bytes;
  hf_content_length : N;
  hf_retry_count : N;
  hf_client_request_id : bytes;
}.

Definition template_tokens (fields : HeaderTemplateFields) : list (bytes * bytes) :=
  [(bs "{authority}", fields.(hf_authority));
   (bs "{authorization}", fields.(hf_authorization));
   (bs "{session_id}", fields.(hf_session_id));
   (bs "{anthropic_version}", fields.(hf_anthropic_version));
   (bs "{anthropic_beta}", fields.(hf_anthropic_beta));
   (bs "{content_type}", bs "application/json");
   (bs "{content_length}", to_string fields.(hf_content_length));
   (bs "{retry_count}", to_string fields.(hf_retry_count));
   (bs "{client_request_id}", fields.(hf_client_request_id))].

(** [contains(['{', '}', '\r', '\n'])]. *)
Definition unrendered (l : bytes) : bool := contains_any (bs "{}" ++ CRLF) l.

Definition render_template (template : bytes) (fields : HeaderTemplateFields) : result DispatchError bytes :=
  let rendered := foldl (λ rendered '(token, value), replace token value rendered) template (template_tokens fields) in
  if unrendered rendered then Err DeterministicUnavailable else Ok rendered.

(** ** Identities *)
Section identities.
Context (hmac_sha256 : bytes → bytes → option bytes) {Uuid : Type} (from_bytes : bytes → Uuid) (uuid_to_string : Uuid → bytes).

Definition derive_device_id (profile_seed : bytes) (device_epoch : Z) : result DispatchError bytes :=
  if (device_epoch <? 1)%Z then Err DeterministicUnavailable
  else
    digest ← ok_or DeterministicUnavailable
      (hmac_sha256 profile_seed (bs "gateway-device-profile-v1" ++ [ascii_of_N 0] ++ to_be_bytes 8 (Z.to_N device_epoch)));
    Ok (concat (hex_byte <$> digest)).

Definition derive_session_id (secret base_session : bytes) : result DispatchError bytes :=
  digest ← ok_or DeterministicUnavailable
    (hmac_sha256 secret (bs "gateway-credential-session-v1" ++ [ascii_of_N 0] ++ base_session));
  Ok (uuid_to_string (from_bytes (stamp 64 (take 16 digest)))).

End identities.

Definition is_ascii_hexdigit (c : ascii) : bool := is_ascii_digit c || in_range 65 70 (byte c) || in_range 97 102 (byte c).

(** ** The body *)
Section body.
Context {Num F : Type} `{SerdeJson Num F}.
Context (from_str : bytes → option (Value Num)) (sha256 : bytes → bytes) (hmac_sha256 : bytes → bytes → option bytes).
Context {Uuid : Type} (parse_str : bytes → option Uuid) (from_bytes : bytes → Uuid) (uuid_to_string : Uuid → bytes).
Implicit Types (body value : Value Num) (object : list (bytes * Value Num)).

(** [object.get_mut(key)] and what is done with it: the entry keeps its place. *)
Definition update_key (key : bytes) (f : Value Num → Value Num) object : list (bytes * Value Num) :=
  match map_get key object with Some value => map_insert key (f value) object | None => object end.

Definition apply_system_template body (template : option (Value Num)) : Value Num :=
  match template with
  | None => body
  | Some template =>
      if is_empty_replacement template then body
      else
        match body with
        | JObject object =>
            match map_get (bs "system") object with
            | Some system => JObject (map_insert (bs "system") (replace_system_static system template).2 object)
            | None =>
                let system := match template with JString text => JArray [text_block text] | other => other end in
                JObject (map_insert (bs "system") system object)
            end
        | _ => body
        end
  end.

(** The cache lifetime of an object. *)
Definition downgrade_entry object : list (bytes * Value Num) :=
  update_key (bs "cache_control") (λ cache_control,
    match cache_control with
    | JObject entries =>
        if bool_decide ((map_get (bs "ttl") entries ≫= as_str) = Some (bs "1h"))
        then JObject (map_insert (bs "ttl") (JString (bs "5m")) entries) else cache_control
    | _ => cache_control
    end) object.

(** The recursion goes to the children of the object that was changed, of which the depth of the value is a bound. *)
Fixpoint value_depth value : nat :=
  match value with
  | JArray items => S (foldr Nat.max 0%nat (map value_depth items))
  | JObject object => S (foldr Nat.max 0%nat (map (λ entry, value_depth entry.2) object))
  | _ => 0%nat
  end.

Fixpoint downgrade_from (fuel : nat) value : Value Num :=
  match fuel with
  | O => value
  | S fuel =>
      match value with
      | JArray items => JArray (map (downgrade_from fuel) items)
      | JObject object => JObject (map (λ entry, (entry.1, downgrade_from fuel entry.2)) (downgrade_entry object))
      | _ => value
      end
  end.

Definition downgrade_cache_ttl value : Value Num := downgrade_from (S (value_depth value)) value.

(** The removal of a key of [output_config]. *)
Definition remove_output_config (key : bytes) object : list (bytes * Value Num) :=
  update_key (bs "output_config") (λ value, match value with JObject entries => JObject (map_remove key entries) | _ => value end) object.

Definition thinking_enabled object : bool :=
  is_some_and (λ kind, negb (bool_decide (kind = bs "disabled")))
    ((map_get (bs "thinking") object ≫= get (bs "type")) ≫= as_str).

Definition apply_beta_body_symmetry body (beta : bytes) : result DispatchError (Value Num * bytes) :=
  match body with
  | JObject object =>
      let object := map_remove (bs "betas") object in
      let object := if beta_contains beta (bs "context-management-2025-06-27") then object else map_remove (bs "context_management") object in
      let object := if beta_contains beta (bs "effort-2025-11-24") then object else remove_output_config (bs "effort") object in
      let object :=
        if negb (beta_contains beta (bs "fast-mode-2026-02-01"))
           && bool_decide ((map_get (bs "speed") object ≫= as_str) = Some (bs "fast"))
        then map_remove (bs "speed") object else object in
      let object := if beta_contains beta (bs "structured-outputs-2025-12-15") then object else remove_output_config (bs "format") object in
      let object := if beta_contains beta (bs "task-budgets-2026-03-13") then object else remove_output_config (bs "task_budget") object in
      let beta :=
        if thinking_enabled object && negb (beta_contains beta (bs "interleaved-thinking-2025-05-14"))
        then (if is_empty beta then [] else beta ++ bs ",") ++ bs "interleaved-thinking-2025-05-14" else beta in
      let body := JObject object in
      Ok (if beta_contains beta (bs "extended-cache-ttl-2025-04-11") then body else downgrade_cache_ttl body, beta)
  | _ => Err DeterministicUnavailable
  end.

Definition parse_user_id_string (raw : bytes) : option (Value Num) :=
  match from_str raw with
  | Some (JObject object) => Some (JObject object)
  | _ =>
      rest ← strip_prefix (bs "user_") raw;
      '(device_id, rest) ← find_split (bs "_account_") rest;
      '(account_uuid, session_id) ← find_split (bs "_session_") rest;
      if negb (length device_id =? 64)%nat || negb (forallb is_ascii_hexdigit device_id)
         || negb (is_some (parse_str account_uuid)) || negb (is_some (parse_str session_id))
      then None
      else Some (JObject [(bs "device_id", JString device_id); (bs "account_uuid", JString account_uuid); (bs "session_id", JString session_id)])
  end.

Definition normalize_user_identity (identity : list (bytes * Value Num)) (device_id : bytes) (account_uuid : Uuid)
    (session_hmac session_id : bytes) : result DispatchError (list (bytes * Value Num)) :=
  let parent_session := map_get (bs "parent_session_id") identity ≫= as_str in
  let identity := map_insert (bs "device_id") (JString device_id) identity in
  let identity := map_insert (bs "account_uuid") (JString (uuid_to_string account_uuid)) identity in
  let identity := map_insert (bs "session_id") (JString session_id) identity in
  match parent_session with
  | None => Ok identity
  | Some parent_session =>
      parent ← derive_session_id hmac_sha256 from_bytes uuid_to_string session_hmac parent_session;
      Ok (map_insert (bs "parent_session_id") (JString parent) identity)
  end.

(** The identity that the client wrote. *)
Definition client_identity (metadata : list (bytes * Value Num)) : list (bytes * Value Num) :=
  default [] (
    match map_get (bs "user_id") metadata with
    | Some (JString raw) => parse_user_id_string raw
    | Some (JObject object) => Some (JObject object)
    | _ => None
    end ≫= as_object).

Definition rewrite_metadata_identity body (selected : SelectedCredential Num Uuid) (session_id : bytes) : result DispatchError (Value Num) :=
  match body with
  | JObject object =>
      match map_get (bs "metadata") object with
      | Some (JObject metadata) =>
          identity ← normalize_user_identity (client_identity metadata) selected.(sc_device_id) selected.(sc_account_uuid)
            selected.(sc_session_hmac) session_id;
          text ← ok_or DeterministicUnavailable (to_vec (JObject identity));
          Ok (JObject (map_insert (bs "metadata") (JObject (map_insert (bs "user_id") (JString text) metadata)) object))
      | _ => Ok body
      end
  | _ => Ok body
  end.

(** The environment and the billing block of the system value. *)
Definition align_system system (selected : SelectedCredential Num Uuid) (first_user_text : bytes) : result DispatchError (Value Num) :=
  let target := {| et_os_family := selected.(sc_environment).(se_os_family); et_shell := selected.(sc_environment).(se_shell);
                   et_os_version := selected.(sc_environment).(se_os_version) |} in
  match align_system_environment system target with
  | (Err _, _) => Err DeterministicUnavailable
  | (Ok _, system) =>
      match ensure_billing_block sha256 system selected.(sc_client_version) first_user_text
              (cch_policy_for_version selected.(sc_client_version)) with
      | (Err _, _) => Err DeterministicUnavailable
      | (Ok _, system) => Ok system
      end
  end.

(** What is attributed to the client, unless that is suppressed. *)
Definition attribute_body body (selected : SelectedCredential Num Uuid) (session_id : bytes) : result DispatchError (Value Num) :=
  let first_user_text := default [] (first_user_text body) in
  match body with
  | JObject object =>
      body ← match map_get (bs "system") object with
             | Some system => system ← align_system system selected first_user_text; Ok (JObject (map_insert (bs "system") system object))
             | None => Ok body
             end;
      rewrite_metadata_identity body selected session_id
  | _ => Err DeterministicUnavailable
  end.

(** The body of a Claude Code request, as a value and with the beta header. *)
Definition claude_code_tree (request : DispatchRequest Num) (selected : SelectedCredential Num Uuid) (session_id anthropic_beta : bytes)
    : result DispatchError (Value Num * bytes) :=
  let generic := request.(dr_generic) in
  let body := generic.(aq_replay_body).(rb_tree) in
  let body :=
    if generic.(aq_generic).(gar_system_template_pending) then apply_system_template body selected.(sc_system_template) else body in
  body ← (if generic.(aq_generic).(gar_attribution_suppressed) then Ok body else attribute_body body selected session_id);
  '(body, anthropic_beta) ← apply_beta_body_symmetry body anthropic_beta;
  Ok (canonicalize_system_order body, anthropic_beta).

(** ** The headers *)
Record HeaderState := {
  hs_headers : list UpstreamHeader;
  hs_auth_seen : bool;
  hs_x_app_seen : bool;
  hs_beta_seen : bool;
}.

Definition is_console (selected : SelectedCredential Num Uuid) : bool := bool_decide (selected.(sc_auth_kind) = bs "console_api_key").

Definition PROXY_HEADERS : list bytes :=
  bs <$> ["proxy-connection"; "proxy-authorization"; "forwarded"; "host-forwarded"; "x-forwarded-host"]%string.

(** The header of the credential: the one name that is allowed. *)
Definition auth_header (selected : SelectedCredential Num Uuid) : bytes := if is_console selected then bs "x-api-key" else bs "authorization".

(** What the templates are filled with. *)
Record HeaderInputs := {
  hi_is_claude_code : bool;
  hi_stream : bool;
  hi_x_app : bytes;
  hi_fields : HeaderTemplateFields;
}.

(** The template of the value of a header. *)
Definition value_template (inputs : HeaderInputs) (canonical : bytes) (template : HeaderTemplate) : bytes :=
  if negb inputs.(hi_is_claude_code) then template.(ht_value_template)
  else if bool_decide (canonical = bs "anthropic-beta") then inputs.(hi_fields).(hf_anthropic_beta)
  else if bool_decide (canonical = bs "anthropic-version") then inputs.(hi_fields).(hf_anthropic_version)
  else if bool_decide (canonical = bs "x-app") then inputs.(hi_x_app)
  else if bool_decide (canonical = bs "x-client-request-id") then inputs.(hi_fields).(hf_client_request_id)
  else if bool_decide (canonical = bs "x-stainless-helper-method") then bs "stream"
  else template.(ht_value_template).

Definition is_auth_name (canonical : bytes) : bool := bool_decide (canonical = bs "authorization") || bool_decide (canonical = bs "x-api-key").

(** One turn of the loop over the templates. *)
Definition header_step (selected : SelectedCredential Num Uuid) (inputs : HeaderInputs) (state : HeaderState) (template : HeaderTemplate)
    : result DispatchError HeaderState :=
  let canonical := map to_ascii_lowercase template.(ht_name) in
  if bool_decide (canonical ∈ PROXY_HEADERS) then Err DeterministicUnavailable
  else if inputs.(hi_is_claude_code) && bool_decide (canonical = bs "x-stainless-helper-method") && negb inputs.(hi_stream) then Ok state
  else
    value ← render_template (value_template inputs canonical template) inputs.(hi_fields);
    if is_auth_name canonical && (negb (bool_decide (canonical = auth_header selected)) || state.(hs_auth_seen))
    then Err DeterministicUnavailable
    else
      Ok {| hs_headers := state.(hs_headers) ++ [{| uh_name := template.(ht_name); uh_value := value |}];
            hs_auth_seen := state.(hs_auth_seen) || is_auth_name canonical;
            hs_x_app_seen := state.(hs_x_app_seen) || (inputs.(hi_is_claude_code) && bool_decide (canonical = bs "x-app"));
            hs_beta_seen := state.(hs_beta_seen) || (inputs.(hi_is_claude_code) && bool_decide (canonical = bs "anthropic-beta")) |}.

Fixpoint header_loop (selected : SelectedCredential Num Uuid) (inputs : HeaderInputs) (templates : list HeaderTemplate) (state : HeaderState)
    : result DispatchError HeaderState :=
  match templates with
  | [] => Ok state
  | template :: templates => state ← header_step selected inputs state template; header_loop selected inputs templates state
  end.

(** The headers that no template gave. *)
Definition missing_headers (inputs : HeaderInputs) (state : HeaderState) : list UpstreamHeader :=
  if inputs.(hi_is_claude_code) then
    (if state.(hs_x_app_seen) then [] else [{| uh_name := bs "x-app"; uh_value := inputs.(hi_x_app) |}])
    ++ (if state.(hs_beta_seen) then [] else [{| uh_name := bs "anthropic-beta"; uh_value := inputs.(hi_fields).(hf_anthropic_beta) |}])
  else [].

Definition content_length_header (protocol : HttpProtocol) (body_length : N) (headers : list UpstreamHeader) : list UpstreamHeader :=
  if bool_decide (protocol = H1) && negb (existsb (names CONTENT_LENGTH) headers)
  then [{| uh_name := bs "Content-Length"; uh_value := to_string body_length |}] else [].

(** The value of the header of the credential. *)
Definition authorization (selected : SelectedCredential Num Uuid) : result DispatchError bytes :=
  let auth := selected.(sc_auth_secret) in
  if negb (utf8_valid auth) || is_empty auth || contains_any CRLF auth then Err DeterministicUnavailable
  else Ok (if is_console selected then auth else bs "Bearer " ++ auth).

(** The body with the beta header that it needs. *)
Definition final_body (request : DispatchRequest Num) (selected : SelectedCredential Num Uuid) (session_id anthropic_beta : bytes)
    : result DispatchError (bytes * bytes) :=
  match request.(dr_client_class) with
  | ClaudeCodeCli =>
      '(tree, anthropic_beta) ← claude_code_tree request selected session_id anthropic_beta;
      body ← ok_or DeterministicUnavailable (to_vec tree);
      Ok (body, anthropic_beta)
  | NonClaudeCodeCli => Ok (request.(dr_generic).(aq_replay_body).(rb_bytes), anthropic_beta)
  end.

Definition request_path (request : DispatchRequest Num) (selected : SelectedCredential Num Uuid) : result DispatchError bytes :=
  path ← match request.(dr_endpoint) with
         | Messages => Ok (bs "/v1/messages")
         | CountTokens => Ok (bs "/v1/messages/count_tokens")
         | OpenAi _ => Err DeterministicUnavailable
         end;
  Ok (if is_console selected then path else path ++ bs "?beta=true").

Definition is_claude_code (request : DispatchRequest Num) : bool :=
  match request.(dr_client_class) with ClaudeCodeCli => true | NonClaudeCodeCli => false end.

(** [client_request_id] is the text of [Uuid::new_v4()]. *)
Definition build_final_request (client_request_id : bytes) (request : DispatchRequest Num) (selected : SelectedCredential Num Uuid)
    (engine : CompiledTransportEngine) (session_id : bytes) (retry_count : N) : result DispatchError FinalUpstreamRequest :=
  authorization ← authorization selected;
  let anthropic_version := if is_claude_code request then bs "2023-06-01" else default (bs "2023-06-01") request.(dr_anthropic_version) in
  let anthropic_beta := if is_claude_code request then DEFAULT_CLAUDE_CODE_BETA else default [] request.(dr_anthropic_beta) in
  '(body, anthropic_beta) ← final_body request selected session_id anthropic_beta;
  let stream := request.(dr_generic).(aq_generic).(gar_stream) in
  let inputs :=
    {| hi_is_claude_code := is_claude_code request;
       hi_stream := stream;
       hi_x_app := normalize_client_app request.(dr_client_app);
       hi_fields :=
         {| hf_authority := engine.(te_authority); hf_authorization := authorization; hf_session_id := session_id;
            hf_anthropic_version := anthropic_version; hf_anthropic_beta := anthropic_beta; hf_content_length := byte_len body;
            hf_retry_count := retry_count; hf_client_request_id := client_request_id |} |} in
  state ← header_loop selected inputs engine.(te_headers)
    {| hs_headers := []; hs_auth_seen := false; hs_x_app_seen := false; hs_beta_seen := false |};
  if negb state.(hs_auth_seen) then Err DeterministicUnavailable
  else
    let headers := state.(hs_headers) ++ missing_headers inputs state in
    let headers := headers ++ content_length_header (te_protocol engine) (byte_len body) headers in
    path_and_query ← request_path request selected;
    Ok {| fr_method := bs "POST"; fr_scheme := bs "https"; fr_authority := engine.(te_authority); fr_path_and_query := path_and_query;
          fr_headers := headers; fr_body := body; fr_stream := stream |}.

End body.
