(* ===== verification/Programs.v ===== *)
(** Asynchronous code as programs: a program is a tree of calls to its surroundings, each with the continuation for every
    answer it may get. What happens in a run is the list of the calls with their answers, and a property of all runs is proved
    over the tree, with an observer of the events as ghost state. *)

From S2P Require Import Prelude.

Section programs.
Context {Call : Type → Type}.

Inductive Prog (A : Type) : Type :=
  | Ret (a : A)
  | Do {B : Type} (c : Call B) (k : B → Prog A).

Inductive Event : Type :=
  | Ev {B : Type} (c : Call B) (b : B).

Fixpoint prog_bind {A B} (p : Prog A) (f : A → Prog B) : Prog B :=
  match p with
  | Ret _ a => f a
  | Do _ c k => Do _ c (λ b, prog_bind (k b) f)
  end.

(** The surroundings answer a call in the light of what happened before it. *)
Definition Oracle := list Event → ∀ B, Call B → B.

Fixpoint run {A} (oracle : Oracle) (p : Prog A) (past : list Event) : list Event * A :=
  match p with
  | Ret _ a => (past, a)
  | Do _ c k => let b := oracle past _ c in run oracle (k b) (past ++ [Ev c b])
  end.

(** ** Reasoning *)
Section observers.
Context {Obs : Type} (observe1 : Event → Obs → Obs) (allowed : ∀ B, Call B → Obs → Prop).

Definition allowed_event (event : Event) (o : Obs) : Prop := match event with Ev c _ => allowed _ c o end.

(** What an observer has seen after some events. *)
Definition observe (events : list Event) (o : Obs) : Obs := foldl (λ o event, observe1 event o) o events.

(** Whatever the answers are, each call is allowed when it is made, and the result is as the postcondition says. *)
Fixpoint safe {A} (p : Prog A) (o : Obs) (Q : A → Obs → Prop) : Prop :=
  match p with
  | Ret _ a => Q a o
  | Do _ c k => allowed _ c o ∧ ∀ b, safe (k b) (observe1 (Ev c b) o) Q
  end.

Lemma safe_mono {A} (p : Prog A) o (Q R : A → Obs → Prop) : safe p o Q → (∀ a o', Q a o' → R a o') → safe p o R.
Proof. revert o. induction p as [a|B c k IH]; intros o; cbn; [auto|]. intros [Hc Hk] HQ. split; [done|]. intros b. by apply IH. Qed.

Lemma safe_bind {A B} (p : Prog A) (f : A → Prog B) o (Q : B → Obs → Prop) :
  safe p o (λ a o', safe (f a) o' Q) → safe (prog_bind p f) o Q.
Proof. revert o. induction p as [a|C c k IH]; intros o; cbn; [done|]. intros [Hc Hk]. split; [done|]. intros b. by apply IH. Qed.

Lemma safe_conj {A} (p : Prog A) o (Q R : A → Obs → Prop) : safe p o Q → safe p o R → safe p o (λ a o', Q a o' ∧ R a o').
Proof. revert o. induction p as [a|B c k IH]; intros o; cbn; [done|]. intros [Hc Hk] [_ Hk']. split; [done|]. intros b. by apply IH. Qed.

Lemma observe_snoc events event o : observe (events ++ [event]) o = observe1 event (observe events o).
Proof. unfold observe. by rewrite foldl_app. Qed.

(** Every run of a safe program: its calls were allowed when they were made, and its result is as promised. *)
Lemma run_safe {A} (oracle : Oracle) (p : Prog A) o (Q : A → Obs → Prop) past : safe p (observe past o) Q →
  let '(events, a) := run oracle p past in
  Q a (observe events o) ∧ past `prefix_of` events ∧
  ∀ i event, length past ≤ i → events !! i = Some event → allowed_event event (observe (take i events) o).
Proof.
  revert past. induction p as [a|B c k IH]; intros past; cbn [safe run].
  - intros HQ. split_and!; [done|done|]. intros i event Hi Hlt%lookup_lt_Some. lia.
  - intros [Hc Hk]. specialize (IH (oracle past B c) (past ++ [Ev c (oracle past B c)])). rewrite observe_snoc in IH. specialize (IH (Hk _)).
    destruct (run oracle _ _) as [events a]. destruct IH as (HQ & [more ->] & Hall). split_and!; [done|exists ([Ev c (oracle past B c)] ++ more); by rewrite app_assoc|].
    intros i event Hi Hl. destruct (decide (i = length past)) as [->|Hne].
    + rewrite <- app_assoc in Hl |- *. rewrite lookup_app_r, Nat.sub_diag in Hl by lia. injection Hl as [= <-]. by rewrite take_app_length.
    + apply (Hall i event); [|done]. rewrite length_app. cbn. lia.
Qed.

(** What the allowed calls keep holds all along a run. *)
Lemma run_invariant {A} (oracle : Oracle) (p : Prog A) o (Q : A → Obs → Prop) (P : Obs → Prop) : safe p o Q → P o →
  (∀ event o', allowed_event event o' → P o' → P (observe1 event o')) →
  let '(events, a) := run oracle p [] in ∀ n, P (observe (take n events) o).
Proof.
  intros Hsafe Ho Hstep. pose proof (run_safe oracle p o Q [] Hsafe) as Hrun. destruct (run oracle p []) as [events a].
  destruct Hrun as (_ & _ & Hall). induction n as [|n IH]; [exact Ho|].
  destruct (events !! n) as [event|] eqn:E.
  - rewrite (take_S_r _ _ event E), observe_snoc. apply Hstep; [|exact IH]. apply Hall; [cbn; lia|exact E].
  - apply lookup_ge_None in E. rewrite take_ge in IH by done. by rewrite take_ge by lia.
Qed.

End observers.
End programs.
Arguments Prog : clear implicits.
Arguments Event : clear implicits.
Arguments Oracle : clear implicits.
Arguments Ret {Call A} a.
Arguments Do {Call A B} c k.
Arguments Ev {Call B} c b.

(** A program that is safe is safe where more calls are allowed. *)
Lemma safe_allow {Call : Type → Type} {Obs A} (observe1 : Event Call → Obs → Obs) (allowed allowed' : ∀ B, Call B → Obs → Prop) (p : Prog Call A) o Q :
  safe observe1 allowed p o Q → (∀ B (c : Call B) o, allowed B c o → allowed' B c o) → safe observe1 allowed' p o Q.
Proof. intros Hp Hall. revert o Hp. induction p as [a|B c k IH]; intros o; cbn; [done|]. intros [Hc Hk]. split; [by apply Hall|]. intros b. by apply IH. Qed.

(** Programs that cannot fail, for the files that make these their instances. *)
Definition prog_mbind {Call : Type → Type} : MBind (Prog Call) := λ A B f p, prog_bind p f.

Definition prog_mret {Call : Type → Type} : MRet (Prog Call) := λ A, Ret.

Definition ask {Call : Type → Type} {B} (c : Call B) : Prog Call B := Do c Ret.

(** ** Programs that may fail *)
Definition Fallible (Call : Type → Type) (E A : Type) : Type := Prog Call (result E A).

Section fallible.
Context {Call : Type → Type} {E : Type}.

#[export] Instance fallible_bind : MBind (Fallible Call E) := λ A B f p,
  prog_bind p (λ r, match r with Ok a => f a | Err e => Ret (Err e) end).

#[export] Instance fallible_ret : MRet (Fallible Call E) := λ A a, Ret (Ok a).

(** A call whose answer is not a failure; the failure of this program; a result of pure code. *)
Definition call {B} (c : Call B) : Fallible Call E B := Do c (λ b, Ret (Ok b)).

Definition fail {A} (e : E) : Fallible Call E A := Ret (Err e).

Definition pure {A} (r : result E A) : Fallible Call E A := Ret r.

(** The [?] of a call that answers with a result, and of one whose failure is mapped to [e]. *)
Definition call_ok {B} (c : Call (result E B)) : Fallible Call E B := Do c (λ r, Ret r).

Definition call_or (e : E) (c : Call bool) : Fallible Call E unit := Do c (λ ok, Ret (if ok : bool then Ok tt else Err e)).

Context {Obs : Type} (observe1 : Event Call → Obs → Obs) (allowed : ∀ B, Call B → Obs → Prop).

Lemma safe_mbind {A B} (p : Fallible Call E A) (f : A → Fallible Call E B) o (Q : result E B → Obs → Prop) :
  safe observe1 allowed p o (λ r o', match r with Ok a => safe observe1 allowed (f a) o' Q | Err e => Q (Err e) o' end) →
  safe observe1 allowed (p ≫= f) o Q.
Proof. intros Hp. apply safe_bind. eapply safe_mono; [exact Hp|]. by intros [a|e] o'. Qed.

Abbreviation ok := (safe observe1 allowed).

Implicit Types (o : Obs).

Lemma safe_call {B A} (c : Call B) (f : B → Fallible Call E A) o (Q : result E A → Obs → Prop) :
  allowed _ c o → (∀ b, ok (f b) (observe1 (Ev c b) o) Q) → ok (call c ≫= f) o Q.
Proof. by split. Qed.

Lemma safe_call_ok {B A} (c : Call (result E B)) (f : B → Fallible Call E A) o (Q : result E A → Obs → Prop) :
  allowed _ c o → (∀ b, ok (f b) (observe1 (Ev c (Ok b)) o) Q) → (∀ e, Q (Err e) (observe1 (Ev c (Err e)) o)) →
  ok (call_ok c ≫= f) o Q.
Proof. intros Hc Hok Herr. split; [done|]. by intros [b|e]; cbn. Qed.

Lemma safe_call_or {A} e (c : Call bool) (f : unit → Fallible Call E A) o (Q : result E A → Obs → Prop) :
  allowed _ c o → ok (f tt) (observe1 (Ev c true) o) Q → Q (Err e) (observe1 (Ev c false) o) →
  ok (call_or e c ≫= f) o Q.
Proof. intros Hc Hok Herr. split; [done|]. by intros []; cbn. Qed.

Lemma safe_pure {B A} (r : result E B) (f : B → Fallible Call E A) o (Q : result E A → Obs → Prop) :
  (∀ b, r = Ok b → ok (f b) o Q) → (∀ e, r = Err e → Q (Err e) o) → ok (pure r ≫= f) o Q.
Proof. destruct r; cbn; auto. Qed.

Lemma safe_ret {B A} (b : B) (f : B → Fallible Call E A) o (Q : result E A → Obs → Prop) : ok (f b) o Q → ok (mret b ≫= f) o Q.
Proof. done. Qed.

(** A block whose runs end as [R] says. *)
Lemma safe_block {B A} (p : Fallible Call E B) (f : B → Fallible Call E A) o (R : result E B → Obs → Prop) (Q : result E A → Obs → Prop) :
  ok p o R → (∀ b o', R (Ok b) o' → ok (f b) o' Q) → (∀ e o', R (Err e) o' → Q (Err e) o') → ok (p ≫= f) o Q.
Proof. intros Hp Hok Herr. apply safe_mbind. eapply safe_mono; [exact Hp|]. intros [b|e] o' HR; auto. Qed.

End fallible.
