(* ===== verification/Interleaving.v ===== *)
(** Programs that run at the same time: threads over one store. A schedule chooses the thread that makes its next call; a call on the store is answered by the store,
    at once, and every other call by the surroundings. What one thread has seen is a run of its program, so that a property of all runs of a program holds of every
    thread in every interleaving. *)

From S2P Require Import Prelude.
From S2P Require Import Programs.

(** The calls of a thread that it has made, up to what is left of it. *)
Section follows.
Context {Call : Type → Type}.

Inductive follows {A} : Prog Call A → list (Event Call) → Prog Call A → Prop :=
  | follows_nil p : follows p [] p
  | follows_cons {B} (c : Call B) k b events p : follows (k b) events p → follows (Do c k) (Ev c b :: events) p.

Lemma follows_snoc {A B} (p : Prog Call A) events (c : Call B) k b : follows p events (Do c k) → follows p (events ++ [Ev c b]) (k b).
Proof.
  remember (Do c k) as q eqn:Eq. induction 1 as [p|C d l x events p Hf IH]; [subst; repeat constructor|]. cbn. constructor. by apply IH.
Qed.

Context {Obs : Type} (observe1 : Event Call → Obs → Obs) (allowed : ∀ B, Call B → Obs → Prop).

Lemma follows_safe {A} (p : Prog Call A) events p' o Q : follows p events p' → safe observe1 allowed p o Q → safe observe1 allowed p' (observe observe1 events o) Q.
Proof. intros Hf. revert o. induction Hf as [p|B c k b events p Hf IH]; intros o; [done|]. intros [_ Hk]. apply (IH (observe1 (Ev c b) o)). apply Hk. Qed.

(** What the allowed calls keep holds all along. *)
Lemma follows_keeps {A} (p : Prog Call A) events p' o Q (P : Obs → Prop) : follows p events p' → safe observe1 allowed p o Q → P o →
  (∀ event o', allowed_event allowed event o' → P o' → P (observe1 event o')) → P (observe observe1 events o).
Proof.
  intros Hf. revert o. induction Hf as [p|B c k b events p Hf IH]; intros o; [done|]. intros [Hc Hk] Ho Hstep.
  apply (IH (observe1 (Ev c b) o)); [apply Hk|by apply Hstep|done].
Qed.
End follows.

Section system.
Context {Call : Type → Type} {Store : Type} (shared : ∀ B, Call B → Store → option (B * Store)).
Abbreviation Thread := (Prog Call unit).
Abbreviation History := (list (nat * Event Call)).

Record System := {
  sy_threads : list Thread;
  sy_store : Store;
  sy_history : History;
}.

Definition start (threads : list Thread) (store : Store) : System := {| sy_threads := threads; sy_store := store; sy_history := [] |}.

(** The surroundings, in the light of what happened. *)
Definition Answers := History → ∀ B, Call B → B.

(** The next call of a thread, if it has one. *)
Definition turn (answers : Answers) (i : nat) (s : System) : System :=
  match s.(sy_threads) !! i with
  | Some (Do c k) =>
      let '(b, store) := match shared _ c s.(sy_store) with Some answer => answer | None => (answers s.(sy_history) _ c, s.(sy_store)) end in
      {| sy_threads := <[i := k b]> s.(sy_threads); sy_store := store; sy_history := s.(sy_history) ++ [(i, Ev c b)] |}
  | _ => s
  end.

Definition interleave (answers : Answers) (schedule : list nat) (s : System) : System := foldl (λ s i, turn answers i s) s schedule.

(** Every thread has ended. *)
Definition ended (s : System) : Prop := Forall (λ p : Thread, p = Ret tt) s.(sy_threads).

(** The calls of one thread. *)
Definition of_thread (i : nat) (history : History) : list (Event Call) := omap (λ '(j, event), if bool_decide (j = i) then Some event else None) history.

Lemma of_thread_snoc i j event history : of_thread i (history ++ [(j, event)]) = of_thread i history ++ (if bool_decide (j = i) then [event] else []).
Proof. unfold of_thread. rewrite omap_app. cbn. by destruct (bool_decide (j = i)). Qed.

Lemma turn_cases answers i s :
  turn answers i s = s ∨ ∃ B (c : Call B) k b store, s.(sy_threads) !! i = Some (Do c k) ∧
    match shared _ c s.(sy_store) with Some answer => answer = (b, store) | None => b = answers s.(sy_history) _ c ∧ store = s.(sy_store) end ∧
    turn answers i s = {| sy_threads := <[i := k b]> s.(sy_threads); sy_store := store; sy_history := s.(sy_history) ++ [(i, Ev c b)] |}.
Proof.
  unfold turn. destruct (sy_threads s !! i) as [[[]|B c k]|] eqn:E; [by left| |by left]. right. exists B, c, k.
  destruct (shared B c (sy_store s)) as [[b store]|] eqn:Es; [exists b, store|eexists _, _]; by split_and!.
Qed.

(** What every turn keeps. *)
Lemma interleave_ind answers (P : System → Prop) schedule s : P s →
  (∀ i s B (c : Call B) k b store, P s → s.(sy_threads) !! i = Some (Do c k) →
    match shared _ c s.(sy_store) with Some answer => answer = (b, store) | None => b = answers s.(sy_history) _ c ∧ store = s.(sy_store) end →
    P {| sy_threads := <[i := k b]> s.(sy_threads); sy_store := store; sy_history := s.(sy_history) ++ [(i, Ev c b)] |}) →
  P (interleave answers schedule s).
Proof.
  intros Hs Hstep. revert s Hs. induction schedule as [|i schedule IH]; intros s Hs; [done|]. apply IH.
  destruct (turn_cases answers i s) as [->|(B & c & k & b & store & Ht & Ha & ->)]; [done|by apply Hstep].
Qed.

(** The same, where what is known of the states reached may be used. *)
Lemma interleave_reach answers (P : System → Prop) s0 : P s0 →
  (∀ schedule i B (c : Call B) k b store s', s' = interleave answers (schedule ++ [i]) s0 → let s := interleave answers schedule s0 in P s →
    s.(sy_threads) !! i = Some (Do c k) →
    match shared _ c s.(sy_store) with Some answer => answer = (b, store) | None => b = answers s.(sy_history) _ c ∧ store = s.(sy_store) end →
    s' = {| sy_threads := <[i := k b]> s.(sy_threads); sy_store := store; sy_history := s.(sy_history) ++ [(i, Ev c b)] |} → P s') →
  ∀ schedule, P (interleave answers schedule s0).
Proof.
  intros Hs Hstep schedule. induction schedule as [|i schedule IH] using rev_ind; [done|].
  assert (interleave answers (schedule ++ [i]) s0 = turn answers i (interleave answers schedule s0)) as E by (unfold interleave; by rewrite foldl_app).
  destruct (turn_cases answers i (interleave answers schedule s0)) as [Eq|(B & c & k & b & store & Ht & Ha & Eq)].
  - by rewrite E, Eq.
  - eapply (Hstep schedule i B c k b store _ eq_refl IH Ht Ha). by rewrite E.
Qed.

(** Each thread follows its program. *)
Lemma interleave_follows answers schedule threads store i p : threads !! i = Some p →
  let s := interleave answers schedule (start threads store) in
  ∃ p', s.(sy_threads) !! i = Some p' ∧ follows p (of_thread i s.(sy_history)) p'.
Proof.
  intros Hp. apply (interleave_ind answers (λ s, ∃ p', s.(sy_threads) !! i = Some p' ∧ follows p (of_thread i s.(sy_history)) p')).
  - exists p. split; [done|constructor].
  - intros j s B c k b st (p' & Hp' & Hf) Hj _. cbn [sy_threads sy_history]. rewrite of_thread_snoc. destruct (bool_decide_reflect (j = i)) as [->|Hne].
    + rewrite Hj in Hp'. injection Hp' as <-. exists (k b). split; [apply list_lookup_insert_eq; by eapply lookup_lt_Some|by apply follows_snoc].
    + exists p'. rewrite app_nil_r. split; [by rewrite list_lookup_insert_ne|done].
Qed.

Lemma interleave_length answers schedule threads store : length (interleave answers schedule (start threads store)).(sy_threads) = length threads.
Proof. apply (interleave_ind answers (λ s, length s.(sy_threads) = length threads)); [done|]. intros. cbn. by rewrite length_insert. Qed.

(** Every call is one of a thread. *)
Lemma interleave_indices answers schedule threads store : Forall (λ entry : nat * Event Call, (entry.1 < length threads)%nat) (interleave answers schedule (start threads store)).(sy_history).
Proof.
  apply (interleave_ind answers (λ s, length s.(sy_threads) = length threads ∧ Forall (λ entry : nat * Event Call, (entry.1 < length threads)%nat) s.(sy_history))); [by split|].
  intros i s B c k b st [Hl Hall] Hi _. cbn. split; [by rewrite length_insert|]. apply Forall_app. split; [done|]. constructor; [|done]. cbn. rewrite <- Hl. by eapply lookup_lt_Some.
Qed.
End system.

(** ** Counting *)
Section counting.
Context {Call : Type → Type} (f : Event Call → bool).
Implicit Types (history : list (nat * Event Call)).

Definition count (events : list (Event Call)) : nat := length (filter (λ event, f event = true) events).

Lemma count_app a b : count (a ++ b) = (count a + count b)%nat.
Proof. unfold count. by rewrite filter_app, length_app. Qed.

Lemma count_cons event events : count (event :: events) = ((if f event then 1 else 0) + count events)%nat.
Proof. unfold count. rewrite filter_cons. destruct (f event); [by rewrite decide_True|by rewrite decide_False]. Qed.

Lemma count_pos events : (0 < count events)%nat ↔ ∃ event, event ∈ events ∧ f event = true.
Proof.
  unfold count. split.
  - intros Hn. destruct (filter _ events) as [|event l] eqn:E; [cbn in Hn; lia|]. exists event. assert (event ∈ filter (λ event, f event = true) events) as Hin by (rewrite E; left).
    apply list_elem_of_filter in Hin as [? ?]. by split.
  - intros (event & Hin & Hf). assert (event ∈ filter (λ event, f event = true) events) as Hin' by by apply list_elem_of_filter. destruct (filter _ events); [by apply elem_of_nil in Hin'|cbn; lia].
Qed.

Lemma count_history history i event : count (history ++ [(i, event)]).*2 = (count history.*2 + if f event then 1 else 0)%nat.
Proof. rewrite fmap_app, count_app. change ([(i, event)].*2) with [event]. rewrite count_cons. change (count []) with 0%nat. lia. Qed.

Lemma count_thread_le i history : (count (of_thread i history) <= count history.*2)%nat.
Proof.
  induction history as [|[j event] history IH] using rev_ind; [done|]. rewrite count_history, of_thread_snoc, count_app. destruct (bool_decide _); [rewrite count_cons|]; change (count []) with 0%nat; lia.
Qed.

Lemma count_two_threads i j history : i ≠ j → (count (of_thread i history) + count (of_thread j history) <= count history.*2)%nat.
Proof.
  intros Hne. induction history as [|[k event] history IH] using rev_ind; [done|]. rewrite count_history, !of_thread_snoc, !count_app.
  repeat case_bool_decide; subst; try done; rewrite ?count_cons; change (count []) with 0%nat; lia.
Qed.

Lemma of_thread_none history n i : Forall (λ entry : nat * Event Call, (entry.1 < n)%nat) history → (n <= i)%nat → of_thread i history = [].
Proof.
  intros Hall Hi. induction Hall as [|[j event] history Hj _ IH]; [done|]. unfold of_thread in *. cbn in *. rewrite bool_decide_false by lia. exact IH.
Qed.

(** All the calls are those of the threads. *)
Lemma count_threads history n : Forall (λ entry : nat * Event Call, (entry.1 < n)%nat) history →
  count history.*2 = sum_list ((λ i, count (of_thread i history)) <$> seq 0 n).
Proof.
  induction history as [|[j event] history IH] using rev_ind; intros Hall.
  - cbn. induction (seq 0 n) as [|i l IH]; [done|]. cbn. by rewrite <- IH.
  - apply Forall_app in Hall as [Hall Hj]. apply Forall_cons in Hj as [Hj _]. cbn in Hj. rewrite fmap_app, count_app, IH by done. cbn [fmap list_fmap snd].
    rewrite count_cons. cbn [count filter list_filter length]. rewrite Nat.add_0_r.
    assert (∀ l, NoDup l → sum_list ((λ i, count (of_thread i (history ++ [(j, event)]))) <$> l) =
      (sum_list ((λ i, count (of_thread i history)) <$> l) + if bool_decide (j ∈ l) then if f event then 1 else 0 else 0)%nat) as Hl.
    { intros l. induction l as [|i l IHl]; [done|]. intros [Hi Hd]%NoDup_cons. cbn [fmap list_fmap sum_list]. rewrite IHl, of_thread_snoc, count_app by done.
      destruct (bool_decide_reflect (j = i)) as [->|Hne].
      - rewrite (bool_decide_false (i ∈ l)), bool_decide_true by (done || by left). rewrite count_cons. cbn. lia.
      - assert (bool_decide (j ∈ i :: l) = bool_decide (j ∈ l)) as ->. { apply bool_decide_ext. rewrite elem_of_cons. naive_solver. } cbn. lia. }
    rewrite Hl by apply NoDup_seq. rewrite bool_decide_true; [done|]. apply elem_of_seq. lia.
Qed.
End counting.

Lemma sum_list_le {A} (f g : A → nat) l : (∀ x, x ∈ l → (f x <= g x)%nat) → (sum_list (f <$> l) <= sum_list (g <$> l))%nat.
Proof. induction l as [|x l IH]; intros Hle; [done|]. cbn. specialize (IH (λ x Hx, Hle x (list_elem_of_further _ _ _ Hx))). pose proof (Hle x (list_elem_of_here _ _)). lia. Qed.

Lemma sum_list_eq {A} (f g : A → nat) l : (∀ x, x ∈ l → f x = g x) → sum_list (f <$> l) = sum_list (g <$> l).
Proof. induction l as [|x l IH]; intros Hle; [done|]. cbn. rewrite (Hle x) by left. f_equal. apply IH. intros y Hy. apply Hle. by right. Qed.

Lemma sum_list_add {A} (f g : A → nat) l : sum_list ((λ x, f x + g x)%nat <$> l) = (sum_list (f <$> l) + sum_list (g <$> l))%nat.
Proof. induction l as [|x l IH]; [done|]. cbn. rewrite IH. lia. Qed.
