(* ===== verification/FinalRequestProofs.v ===== *)
(** What the request that is sent upstream promises: its headers are filled in as their templates say, it carries one credential,
    its body keeps what the client asked, and the identity in it is that of the credential. *)

From Stdlib Require Import Ascii.
From S2P Require Import Prelude Machine.
From S2P Require Import Bytes.
From S2P Require Import Domain.
From S2P Require Import Transport.
From S2P Require Import Http1.
From S2P Require Import Quota.
From S2P Require Import Json.
From S2P Require Import SystemSegments.
From S2P Require Import SystemAlign.
From S2P Require Import SystemBilling.
From S2P Require Import SystemRewrite.
From S2P Require Import TokenBucket SchedTypes Samples.
From S2P Require Import RequestParser.
From S2P Require Import Capability.
From S2P Require Import Policy.
From S2P Require Import PolicyProofs.
From S2P Require Import ClientRequest.
From S2P Require Import Dispatch.
From S2P Require Import Bundle.
From S2P Require Import EngineCatalog.
From S2P Require Import AttemptSnapshot.
From S2P Require Import FinalRequest.
Local Open Scope N_scope.

(** ** Templates

    A template is text without braces and tokens. *)
Inductive Part := Lit (l : bytes) | Tok (name : bytes).

Definition brace_free (l : bytes) : Prop := ("{"%char ∉ l) ∧ ("}"%char ∉ l).

Definition token (name : bytes) : bytes := "{"%char :: name ++ ["}"%char].

Definition part_text (part : Part) : bytes := match part with Lit l => l | Tok name => token name end.

Definition part_ok (part : Part) : Prop := brace_free (match part with Lit l => l | Tok name => name end).

(** One replacement. *)
Definition fill (name value : bytes) (part : Part) : Part :=
  match part with Tok name' => if bool_decide (name' = name) then Lit value else part | Lit _ => part end.

Lemma replace_from_plain fuel pattern value l rest :
  "{"%char ∉ l → (length (l ++ rest) <= fuel)%nat →
  replace_from fuel ("{"%char :: pattern) value (l ++ rest) = l ++ replace_from (fuel - length l) ("{"%char :: pattern) value rest.
Proof.
  revert fuel. induction l as [|c l IH]; intros fuel Hn Hf; [by rewrite Nat.sub_0_r|]. rewrite not_elem_of_cons in Hn. destruct Hn as [Hc Hn].
  destruct fuel as [|fuel]; [simpl in Hf; lia|]. cbn [replace_from app]. cbn [strip_prefix]. rewrite decide_False by congruence.
  f_equal. rewrite IH; [done|done|]. simpl in Hf. lia.
Qed.

(** Two names that have no brace are followed by the same brace only when they are equal. *)
Lemma strip_token name name' rest : brace_free name → brace_free name' →
  strip_prefix (token name) (token name' ++ rest) = if bool_decide (name' = name) then Some rest else None.
Proof.
  intros [_ H1] [_ H2]. unfold token. cbn [strip_prefix app]. rewrite decide_True by done. rewrite <- app_assoc. cbn [app].
  revert name' H2. induction name as [|c name IH]; intros [|d name'] H2; cbn [app strip_prefix].
  - by rewrite decide_True.
  - rewrite not_elem_of_cons in H2. rewrite decide_False by naive_solver. by rewrite bool_decide_eq_false_2.
  - rewrite not_elem_of_cons in H1. rewrite decide_False by naive_solver. by rewrite bool_decide_eq_false_2.
  - rewrite not_elem_of_cons in H1, H2. case_decide as E.
    + subst d. rewrite IH by naive_solver. do 2 case_bool_decide; naive_solver.
    + by rewrite bool_decide_eq_false_2 by congruence.
Qed.

Lemma replace_parts fuel name value parts : brace_free name → Forall part_ok parts → (length (concat (part_text <$> parts)) <= fuel)%nat →
  replace_from fuel (token name) value (concat (part_text <$> parts)) = concat (part_text <$> (fill name value <$> parts)).
Proof.
  intros Hname Hp. revert fuel. induction Hp as [|part parts Hok Hp IH]; intros fuel Hf; [by destruct fuel|].
  rewrite !fmap_cons in *. cbn [concat] in *. destruct part as [l|name']; cbn [part_text fill] in *.
  - unfold token at 1. rewrite replace_from_plain by (apply Hok || done). f_equal. apply IH. rewrite length_app in Hf. lia.
  - destruct fuel as [|fuel]; [simpl in Hf; lia|].
    assert (∀ pattern v, replace_from (S fuel) pattern v (token name' ++ concat (part_text <$> parts)) =
      match strip_prefix pattern (token name' ++ concat (part_text <$> parts)) with
      | Some rest => v ++ replace_from fuel pattern v rest
      | None => "{"%char :: replace_from fuel pattern v ((name' ++ ["}"%char]) ++ concat (part_text <$> parts))
      end) as E by done.
    rewrite E, strip_token by done. clear E. rewrite length_app in Hf. unfold token in Hf. cbn [length] in Hf. case_bool_decide as En; cbn [part_text].
    + f_equal. apply IH. lia.
    + unfold token at 1 2. rewrite replace_from_plain.
      * cbn [app]. f_equal. f_equal. rewrite IH; [done|]. lia.
      * rewrite not_elem_of_app, list_elem_of_singleton. split; [apply Hok|done].
      * rewrite length_app. lia.
Qed.

Lemma fill_ok name value part : part_ok part → (part = Tok name → brace_free value) → part_ok (fill name value part).
Proof. intros Hp Hv. destruct part as [l|name']; cbn [fill]; [done|]. case_bool_decide; [subst; by apply Hv|done]. Qed.

(** The replacements one after the other are one substitution. *)
Definition substitute (tokens : list (bytes * bytes)) (part : Part) : bytes :=
  match part with
  | Lit l => l
  | Tok name => default (token name) (map_get name tokens)
  end.

Lemma replace_all_parts tokens parts :
  Forall (λ entry, brace_free entry.1) tokens → Forall part_ok parts →
  (∀ name value, Tok name ∈ parts → map_get name tokens = Some value → brace_free value) → NoDup tokens.*1 →
  foldl (λ rendered '(name, value), replace (token name) value rendered) (concat (part_text <$> parts)) tokens =
    concat (substitute tokens <$> parts).
Proof.
  intros Ht. revert parts. induction Ht as [|[name value] tokens Hname Ht IH]; intros parts Hp Hv Hnd; cbn [foldl].
  { by apply (f_equal (@concat ascii)), list_fmap_ext; intros i [l|name] _. }
  apply NoDup_cons in Hnd as [Hn Hnd]. cbn [fst] in Hname, Hn. unfold replace. rewrite replace_parts by done.
  rewrite IH; [|..|done].
  - rewrite <- list_fmap_compose. f_equal. apply list_fmap_ext. intros i [l|name'] _; [done|]. cbn [compose fill substitute map_get].
    destruct (decide (name' = name)) as [->|Hne]; [by rewrite !bool_decide_eq_true_2|].
    rewrite !bool_decide_eq_false_2 by congruence. done.
  - rewrite Forall_fmap. rewrite Forall_forall in Hp |- *. intros part Hin. cbn. apply fill_ok; [by apply Hp|]. intros ->.
    apply (Hv name); [done|]. cbn [map_get]. by rewrite bool_decide_eq_true_2.
  - intros name' value' Hin%list_elem_of_fmap Hg. destruct Hin as ([l|name0] & E & Hin); cbn [fill] in E; [done|].
    case_bool_decide as E0; [done|]. injection E as ->. apply (Hv name0); [done|]. cbn [map_get]. by rewrite bool_decide_eq_false_2 by congruence.
Qed.

Definition token_values (fields : HeaderTemplateFields) : list (bytes * bytes) :=
  [(bs "authority", fields.(hf_authority));
   (bs "authorization", fields.(hf_authorization));
   (bs "session_id", fields.(hf_session_id));
   (bs "anthropic_version", fields.(hf_anthropic_version));
   (bs "anthropic_beta", fields.(hf_anthropic_beta));
   (bs "content_type", bs "application/json");
   (bs "content_length", to_string fields.(hf_content_length));
   (bs "retry_count", to_string fields.(hf_retry_count));
   (bs "client_request_id", fields.(hf_client_request_id))].

Lemma template_tokens_eq fields : template_tokens fields = prod_map token id <$> token_values fields.
Proof. reflexivity. Qed.

Lemma token_names_ok fields : Forall (λ entry, brace_free entry.1) (token_values fields) ∧ NoDup (token_values fields).*1.
Proof. unfold brace_free. split; by_decide. Qed.

Lemma render_fold (tokens : list (bytes * bytes)) template :
  foldl (λ rendered '(token, value), replace token value rendered) template (prod_map token id <$> tokens) =
  foldl (λ rendered '(name, value), replace (token name) value rendered) template tokens.
Proof. revert template. induction tokens as [|[name value] tokens IH]; intros template; [done|]. rewrite fmap_cons. cbn. apply IH. Qed.

Lemma unrendered_app l : brace_free l → unrendered l = contains_any CRLF l.
Proof.
  intros [H1 H2]. apply eq_true_iff_eq. rewrite <- !not_false_iff_true. apply not_iff_compat. unfold unrendered. rewrite !contains_any_false.
  split; [intros Hall c Hc; apply Hall, elem_of_app; by right|]. intros Hall c [Hc|Hc]%elem_of_app; [|by apply Hall].
  change (bs "{}") with ["{"; "}"]%char in Hc. rewrite !elem_of_cons in Hc. destruct Hc as [->|[->|[]%elem_of_nil]]; done.
Qed.

Lemma brace_free_concat (ls : list bytes) : Forall brace_free ls → brace_free (concat ls).
Proof.
  induction 1 as [|l ls [H1 H2] _ [IH1 IH2]]; [split; apply not_elem_of_nil|]. cbn [concat]. split; by rewrite not_elem_of_app.
Qed.

(** What a template says, when the values of its tokens have no braces. *)
Lemma template_rendered fields parts :
  Forall part_ok parts →
  (∀ name, Tok name ∈ parts → ∃ value, map_get name (token_values fields) = Some value ∧ brace_free value) →
  render_template (concat (part_text <$> parts)) fields =
    let text := concat (substitute (token_values fields) <$> parts) in
    if contains_any CRLF text then Err DeterministicUnavailable else Ok text.
Proof.
  intros Hp Hv. destruct (token_names_ok fields) as [Hnames Hnd]. unfold render_template. rewrite template_tokens_eq, render_fold.
  rewrite replace_all_parts; [|done|done| |done].
  2: { intros name value Hin Hg. destruct (Hv name Hin) as (value' & Hg' & Hb). congruence. }
  rewrite unrendered_app; [done|]. apply brace_free_concat. rewrite Forall_fmap, Forall_forall. rewrite Forall_forall in Hp.
  intros [l|name] Hin; [by apply (Hp _ Hin)|].
  change (brace_free (default (token name) (map_get name (token_values fields)))). by destruct (Hv name Hin) as (value & -> & Hb).
Qed.

Lemma render_clean template fields value : render_template template fields = Ok value →
  (CR ∉ value) ∧ (LF ∉ value) ∧ brace_free value.
Proof.
  unfold render_template. destruct (unrendered _) eqn:E; [done|]. intros [= <-]. unfold unrendered in E. rewrite contains_any_false in E.
  unfold brace_free. split_and!; apply E; by_decide.
Qed.

(** A template that is one token. *)
Lemma render_token name value fields :
  map_get name (token_values fields) = Some value → brace_free name → brace_free value → (CR ∉ value) → (LF ∉ value) →
  render_template (token name) fields = Ok value.
Proof.
  intros Hg Hn Hb Hcr Hlf. pose proof (template_rendered fields [Tok name]) as Hr. cbn [fmap list_fmap concat part_text substitute] in Hr.
  rewrite !app_nil_r, Hg in Hr. cbn [default from_option id] in Hr. rewrite Hr.
  - cbv zeta. rewrite (proj2 (contains_any_false CRLF value)); [done|]. intros c. change CRLF with [CR; LF]. rewrite !elem_of_cons.
    intros [->|[->|[]%elem_of_nil]]; done.
  - by apply Forall_singleton.
  - intros name' [= ->]%list_elem_of_singleton. by exists value.
Qed.

Lemma digits_clean n : brace_free (to_string n) ∧ (CR ∉ to_string n) ∧ (LF ∉ to_string n).
Proof.
  destruct (digits_value_string n) as (_ & Hd & _). rewrite forallb_forall in Hd.
  assert (∀ c, is_ascii_digit c = false → c ∉ to_string n) as Hnot by (intros c Hc Hin%list_elem_of_In%Hd; congruence).
  unfold brace_free. split_and!; by apply Hnot.
Qed.

(** ** Headers *)

Definition canonical_name (h : UpstreamHeader) : bytes := map to_ascii_lowercase h.(uh_name).

Definition is_auth (h : UpstreamHeader) : bool := is_auth_name (canonical_name h).

Definition is_named (name : string) (h : UpstreamHeader) : bool := bool_decide (canonical_name h = bs name).

(** The templates that are sent. *)
Definition kept_template (inputs : HeaderInputs) (template : HeaderTemplate) : bool :=
  negb (inputs.(hi_is_claude_code) && bool_decide (map to_ascii_lowercase template.(ht_name) = bs "x-stainless-helper-method") && negb inputs.(hi_stream)).

Section headers.
Context {Num Uuid : Type}.
Implicit Types (selected : SelectedCredential Num Uuid).

(** A header that its template gave. *)
Record rendered selected (inputs : HeaderInputs) (template : HeaderTemplate) (h : UpstreamHeader) : Prop := {
  rd_name : h.(uh_name) = template.(ht_name);
  rd_value : render_template (value_template inputs (canonical_name h) template) inputs.(hi_fields) = Ok h.(uh_value);
  rd_proxy : canonical_name h ∉ PROXY_HEADERS;
  rd_auth : is_auth h = true → canonical_name h = auth_header selected;
}.

Lemma header_loop_spec selected inputs templates state state' :
  header_loop selected inputs templates state = Ok state' →
  ∃ hs, state'.(hs_headers) = state.(hs_headers) ++ hs ∧
    Forall2 (rendered selected inputs) (filter (λ t, kept_template inputs t = true) templates) hs ∧
    ((if state.(hs_auth_seen) then 1 else 0) + length (filter (λ h, is_auth h = true) hs) <= 1)%nat ∧
    state'.(hs_auth_seen) = state.(hs_auth_seen) || existsb is_auth hs ∧
    state'.(hs_x_app_seen) = state.(hs_x_app_seen) || (inputs.(hi_is_claude_code) && existsb (is_named "x-app") hs) ∧
    state'.(hs_beta_seen) = state.(hs_beta_seen) || (inputs.(hi_is_claude_code) && existsb (is_named "anthropic-beta") hs).
Proof.
  revert state. induction templates as [|t templates IH]; intros state; cbn [header_loop].
  { intros [= <-]. exists []. rewrite app_nil_r. cbn [existsb]. rewrite !andb_false_r, !orb_false_r. split_and!; try done. destruct (hs_auth_seen state); simpl; lia. }
  unfold header_step. set (canonical := map to_ascii_lowercase (ht_name t)). case_bool_decide as Hproxy; [done|].
  destruct (_ && _ && _) eqn:Eskip.
  { cbn [mbind result_bind]. intros (hs & H1)%IH. exists hs. rewrite filter_cons_False; [done|]. unfold kept_template. fold canonical. by rewrite Eskip. }
  destruct (render_template _ _) as [value|] eqn:Er; [|done]. cbn [mbind result_bind].
  set (h := {| uh_name := ht_name t; uh_value := value |}). destruct (is_auth_name canonical && _) eqn:Eauth; [done|].
  cbn [mbind result_bind]. intros (hs & H1 & H2 & H3 & H4 & H5 & H6)%IH. cbn [hs_headers hs_auth_seen hs_x_app_seen hs_beta_seen] in *.
  assert (canonical_name h = canonical) as Ec by done. assert (is_auth h = is_auth_name canonical) as Ea by done.
  exists (h :: hs). rewrite filter_cons_True by (unfold kept_template; fold canonical; by rewrite Eskip). cbn [existsb].
  change (is_named "x-app" h) with (bool_decide (canonical = bs "x-app")). change (is_named "anthropic-beta" h) with (bool_decide (canonical = bs "anthropic-beta")).
  split_and!.
  - by rewrite H1, <- app_assoc.
  - constructor; [|done]. split; [done|done|done|]. rewrite Ea, Ec. intros E. rewrite E in Eauth. cbn [andb] in Eauth. bool_prop. done.
  - rewrite filter_cons. rewrite Ea. destruct (is_auth_name canonical); cbn [andb orb] in *.
    + rewrite decide_True by done. bool_prop. destruct (hs_auth_seen state); [done|]. rewrite orb_true_r in H3. simpl in *. lia.
    + rewrite decide_False by done. by rewrite orb_false_r in H3.
  - by rewrite H4, Ea, orb_assoc.
  - rewrite H5. by rewrite <- !orb_assoc, <- andb_orb_distrib_r.
  - rewrite H6. by rewrite <- !orb_assoc, <- andb_orb_distrib_r.
Qed.

End headers.

(** ** The request *)

Section requests.
Context {Num F : Type} `{SerdeJson Num F}.
Context (from_str : bytes → option (Value Num)) (sha256 : bytes → bytes) (hmac_sha256 : bytes → bytes → option bytes).
Context {Uuid : Type} (parse_str : bytes → option Uuid) (from_bytes : bytes → Uuid) (uuid_to_string : Uuid → bytes).
Implicit Types (request : DispatchRequest Num) (selected : SelectedCredential Num Uuid) (engine : CompiledTransportEngine).

Abbreviation final_body' := (final_body from_str sha256 hmac_sha256 parse_str from_bytes uuid_to_string).
Abbreviation claude_code_tree' := (claude_code_tree from_str sha256 hmac_sha256 parse_str from_bytes uuid_to_string).
Abbreviation build' := (build_final_request from_str sha256 hmac_sha256 parse_str from_bytes uuid_to_string).

Definition start_beta request : bytes := if is_claude_code request then DEFAULT_CLAUDE_CODE_BETA else default [] request.(dr_anthropic_beta).

(** The beta header of Claude Code has every capability that could be added to it or that a cache lifetime needs. *)
Lemma default_beta_contains :
  beta_contains DEFAULT_CLAUDE_CODE_BETA (bs "context-management-2025-06-27") = true ∧
  beta_contains DEFAULT_CLAUDE_CODE_BETA (bs "effort-2025-11-24") = true ∧
  beta_contains DEFAULT_CLAUDE_CODE_BETA (bs "fast-mode-2026-02-01") = false ∧
  beta_contains DEFAULT_CLAUDE_CODE_BETA (bs "structured-outputs-2025-12-15") = false ∧
  beta_contains DEFAULT_CLAUDE_CODE_BETA (bs "task-budgets-2026-03-13") = false ∧
  beta_contains DEFAULT_CLAUDE_CODE_BETA (bs "interleaved-thinking-2025-05-14") = true ∧
  beta_contains DEFAULT_CLAUDE_CODE_BETA (bs "extended-cache-ttl-2025-04-11") = true.
Proof. by vm_compute. Qed.

(** The object after the capabilities that the beta header of Claude Code does not have. *)
Definition default_symmetry (object : list (bytes * Value Num)) : list (bytes * Value Num) :=
  let object := map_remove (bs "betas") object in
  let object := if bool_decide ((map_get (bs "speed") object ≫= as_str) = Some (bs "fast")) then map_remove (bs "speed") object else object in
  remove_output_config (bs "task_budget") (remove_output_config (bs "format") object).

Lemma symmetry_default (body : Value Num) answer : apply_beta_body_symmetry body DEFAULT_CLAUDE_CODE_BETA = Ok answer →
  ∃ object, body = JObject object ∧ answer = (JObject (default_symmetry object), DEFAULT_CLAUDE_CODE_BETA).
Proof.
  destruct default_beta_contains as (E1 & E2 & E3 & E4 & E5 & E6 & E7). destruct body as [| | | | |object]; try done.
  unfold apply_beta_body_symmetry. rewrite E1, E2, E3, E4, E5, E6. cbn [negb andb]. rewrite andb_false_r, E7. intros [= <-]. by exists object.
Qed.

Lemma final_body_Ok request selected session_id body beta :
  final_body' request selected session_id (start_beta request) = Ok (body, beta) →
  beta = start_beta request ∧
  if is_claude_code request
  then ∃ tree, claude_code_tree' request selected session_id DEFAULT_CLAUDE_CODE_BETA = Ok (tree, beta) ∧ to_vec tree = Some body
  else body = request.(dr_generic).(aq_replay_body).(rb_bytes).
Proof.
  unfold final_body, start_beta, is_claude_code. destruct (dr_client_class request); [|by intros [= <- <-]].
  destruct (claude_code_tree' _ _ _ _) as [[tree beta']|] eqn:Et; [|done]. cbn [mbind result_bind].
  destruct (to_vec tree) as [text|] eqn:Ev; [|done]. intros [= <- <-]. split; [|by exists tree].
  unfold claude_code_tree in Et. destruct (if gar_attribution_suppressed _ then _ else _) as [tree'|] in Et; [|done]. cbn [mbind result_bind] in Et.
  destruct (apply_beta_body_symmetry _ _) as [answer|] eqn:Es in Et; [|done]. apply symmetry_default in Es as (object & -> & ->).
  by injection Et as _ <-.
Qed.

(** What the templates of a request are filled with. *)
Definition request_inputs (client_request_id authorization session_id body : bytes) (retry_count : N) request engine : HeaderInputs :=
  {| hi_is_claude_code := is_claude_code request;
     hi_stream := request.(dr_generic).(aq_generic).(gar_stream);
     hi_x_app := normalize_client_app request.(dr_client_app);
     hi_fields :=
       {| hf_authority := engine.(te_authority); hf_authorization := authorization; hf_session_id := session_id;
          hf_anthropic_version := if is_claude_code request then bs "2023-06-01" else default (bs "2023-06-01") request.(dr_anthropic_version);
          hf_anthropic_beta := start_beta request; hf_content_length := byte_len body;
          hf_retry_count := retry_count; hf_client_request_id := client_request_id |} |}.

Record built (client_request_id : bytes) request selected engine (session_id : bytes) (retry_count : N) (r : FinalUpstreamRequest)
    (auth : bytes) (inputs : HeaderInputs) (hs : list UpstreamHeader) : Prop := {
  bu_auth : authorization selected = Ok auth;
  bu_inputs : inputs = request_inputs client_request_id auth session_id r.(fr_body) retry_count request engine;
  bu_body : final_body' request selected session_id (start_beta request) = Ok (r.(fr_body), start_beta request);
  bu_headers : Forall2 (rendered selected inputs) (filter (λ t, kept_template inputs t = true) engine.(te_headers)) hs;
  bu_one_auth : length (filter (λ h, is_auth h = true) hs) = 1%nat;
  bu_sent : ∃ added, r.(fr_headers) = hs ++ added ∧
    added = (if is_claude_code request then
               (if existsb (is_named "x-app") hs then [] else [{| uh_name := bs "x-app"; uh_value := inputs.(hi_x_app) |}])
               ++ (if existsb (is_named "anthropic-beta") hs then [] else [{| uh_name := bs "anthropic-beta"; uh_value := DEFAULT_CLAUDE_CODE_BETA |}])
             else []) ++
            (if bool_decide (te_protocol engine = H1) && negb (existsb (names CONTENT_LENGTH) hs)
             then [{| uh_name := bs "Content-Length"; uh_value := to_string (byte_len r.(fr_body)) |}] else []);
  bu_path : request_path request selected = Ok r.(fr_path_and_query);
  bu_method : r.(fr_method) = bs "POST" ∧ r.(fr_scheme) = bs "https" ∧ r.(fr_authority) = engine.(te_authority) ∧
    r.(fr_stream) = request.(dr_generic).(aq_generic).(gar_stream);
}.

Lemma filter_auth_pos hs : existsb is_auth hs = true → (1 <= length (filter (λ h, is_auth h = true) hs))%nat.
Proof.
  intros (h & Hin%list_elem_of_In & Ha)%existsb_exists. destruct (filter _ hs) eqn:E; [|simpl; lia].
  assert (h ∈ filter (λ h, is_auth h = true) hs) as Hf by by apply list_elem_of_filter. rewrite E in Hf. by apply elem_of_nil in Hf.
Qed.

Lemma build_final_request_Ok client_request_id request selected engine session_id retry_count r :
  build' client_request_id request selected engine session_id retry_count = Ok r →
  ∃ auth inputs hs, built client_request_id request selected engine session_id retry_count r auth inputs hs.
Proof.
  unfold build_final_request. fold (start_beta request). destruct (authorization selected) as [auth|] eqn:Ea; [|done]. cbn [mbind result_bind].
  destruct (final_body' _ _ _ _) as [[body beta]|] eqn:Eb; [|done]. cbn [mbind result_bind]. destruct (final_body_Ok _ _ _ _ _ Eb) as [-> _].
  set (inputs := Build_HeaderInputs _ _ _ _). destruct (header_loop _ _ _ _) as [state|] eqn:Eh; [|done]. cbn [mbind result_bind].
  apply header_loop_spec in Eh as (hs & H1 & H2 & H3 & H4 & H5 & H6). cbn [hs_headers hs_auth_seen hs_x_app_seen hs_beta_seen app orb] in *.
  rewrite H4. destruct (existsb is_auth hs) eqn:Eauth; [|done]. cbn [negb].
  destruct (request_path request selected) as [path|] eqn:Ep; [|done]. cbn [mbind result_bind]. intros [= <-].
  exists auth, inputs, hs. split; try done; cbn [fr_body fr_headers].
  - pose proof (filter_auth_pos _ Eauth). simpl in H3. lia.
  - rewrite H1. eexists. split; [by rewrite <- app_assoc|]. f_equal.
    + unfold missing_headers. rewrite H5, H6. change (hi_is_claude_code inputs) with (is_claude_code request).
      change (hf_anthropic_beta (hi_fields inputs)) with (start_beta request). unfold start_beta. by destruct (is_claude_code request).
    + unfold content_length_header. rewrite existsb_app. unfold missing_headers. destruct (hi_is_claude_code inputs); [|by rewrite orb_false_r].
      destruct (hs_x_app_seen state), (hs_beta_seen state); by rewrite orb_false_r.
Qed.

Lemma forall2_headers selected inputs templates hs (P : UpstreamHeader → Prop) :
  Forall2 (rendered selected inputs) templates hs → (∀ t h, t ∈ templates → rendered selected inputs t h → P h) → Forall P hs.
Proof.
  intros Hf Hp. apply Forall_forall. intros h [i Hi]%list_elem_of_lookup. destruct (Forall2_lookup_r _ _ _ _ _ Hf Hi) as (t & Ht & Hr).
  apply (Hp t); [by eapply list_elem_of_lookup_2|done].
Qed.

(** What holds of the headers of the templates and of the added ones holds of all. *)
Lemma built_headers client_request_id request selected engine session_id retry_count r auth inputs hs (P : UpstreamHeader → Prop) :
  built client_request_id request selected engine session_id retry_count r auth inputs hs →
  (∀ t h, t ∈ engine.(te_headers) → rendered selected inputs t h → P h) →
  P {| uh_name := bs "x-app"; uh_value := normalize_client_app request.(dr_client_app) |} →
  P {| uh_name := bs "anthropic-beta"; uh_value := DEFAULT_CLAUDE_CODE_BETA |} →
  P {| uh_name := bs "Content-Length"; uh_value := to_string (byte_len r.(fr_body)) |} → Forall P r.(fr_headers).
Proof.
  intros [_ Hi _ Hh _ (added & -> & ->) _ _] Ht Hx Hb Hl. rewrite Forall_app. split.
  - eapply forall2_headers; [exact Hh|]. intros t h [_ Hin]%list_elem_of_filter. by apply Ht.
  - rewrite Hi. cbn [request_inputs hi_x_app]. apply Forall_app. split.
    + destruct (is_claude_code request); [|done]. apply Forall_app. split; case_match; by repeat constructor.
    + case_match; by repeat constructor.
Qed.

Lemma normalize_client_app_cases app : normalize_client_app app = bs "cli" ∨ normalize_client_app app = bs "cli-bg".
Proof. unfold normalize_client_app. destruct app as [value|]; [|by left]. do 2 case_bool_decide; subst; auto. Qed.

Lemma filter_none (f : UpstreamHeader → bool) hs : Forall (λ h, f h = false) hs → filter (λ h, f h = true) hs = [].
Proof. induction 1 as [|h hs Hh _ IH]; [done|]. rewrite filter_cons_False; [done|by rewrite Hh]. Qed.

(** The added headers are none of the credential. *)
Lemma added_not_auth client_request_id request selected engine session_id retry_count r auth inputs hs :
  built client_request_id request selected engine session_id retry_count r auth inputs hs →
  filter (λ h, is_auth h = true) r.(fr_headers) = filter (λ h, is_auth h = true) hs.
Proof.
  intros [_ _ _ _ _ (added & -> & ->) _ _]. rewrite filter_app, (filter_none is_auth (_ ++ _)); [apply app_nil_r|].
  rewrite Forall_app. split; [|case_match; by repeat constructor].
  destruct (is_claude_code request); [|done]. apply Forall_app. split; case_match; by repeat constructor.
Qed.

Lemma normalize_clean app : brace_free (normalize_client_app app) ∧ (CR ∉ normalize_client_app app) ∧ (LF ∉ normalize_client_app app).
Proof. unfold brace_free. destruct (normalize_client_app_cases app) as [-> | ->]; split_and!; by_decide. Qed.

Lemma beta_clean : (CR ∉ DEFAULT_CLAUDE_CODE_BETA) ∧ (LF ∉ DEFAULT_CLAUDE_CODE_BETA).
Proof. split; by_decide. Qed.

Lemma authorization_clean selected auth : authorization selected = Ok auth →
  auth = (if is_console selected then selected.(sc_auth_secret) else bs "Bearer " ++ selected.(sc_auth_secret)) ∧
  (CR ∉ auth) ∧ (LF ∉ auth) ∧ (brace_free selected.(sc_auth_secret) → brace_free auth).
Proof.
  unfold authorization. destruct (_ || _ || contains_any CRLF _) eqn:E; [done|]. bool_prop. rewrite contains_any_false in *.
  assert ((CR ∉ selected.(sc_auth_secret)) ∧ (LF ∉ selected.(sc_auth_secret))) as [Hcr Hlf] by (split; match goal with Hc : ∀ c, _ |- _ => apply Hc end; by_decide).
  set (auth' := if is_console selected then _ else _). intros Ea. assert (auth = auth') as -> by congruence. split; [done|]. unfold auth', brace_free.
  destruct (is_console selected); [done|]. rewrite !not_elem_of_app. split_and!; [by_decide|done|by_decide|done|]. intros [Hb1 Hb2]. split_and!; [by_decide|done|by_decide|done].
Qed.

(** C21: the credential of a request is sent once. Exactly one header of the request is one of authorization, under the only name that the kind of the
    credential allows; where every template of such a name is the token of the authorization, and the secret holds no brace, its value is the secret, as a bearer token or
    as it is (a token of the templates that stands in a secret is replaced in it: [token_in_secret]);
    no header is one that a proxy would read; no value holds a line break; a request of Claude Code names its application and its
    capabilities; and the request goes to the authority of the engine over https. *)
Theorem one_credential_sent client_request_id request selected engine session_id retry_count r :
  build' client_request_id request selected engine session_id retry_count = Ok r →
  (∃ h, filter (λ h, is_auth h = true) r.(fr_headers) = [h] ∧ canonical_name h = auth_header selected ∧
    ((∀ t, t ∈ engine.(te_headers) → is_auth_name (map to_ascii_lowercase t.(ht_name)) = true → t.(ht_value_template) = bs "{authorization}") →
      brace_free selected.(sc_auth_secret) →
      h.(uh_value) = if is_console selected then selected.(sc_auth_secret) else bs "Bearer " ++ selected.(sc_auth_secret))) ∧
  Forall (λ h, (canonical_name h ∉ PROXY_HEADERS) ∧ (CR ∉ h.(uh_value)) ∧ (LF ∉ h.(uh_value))) r.(fr_headers) ∧
  (is_claude_code request = true → existsb (is_named "x-app") r.(fr_headers) = true ∧ existsb (is_named "anthropic-beta") r.(fr_headers) = true) ∧
  r.(fr_method) = bs "POST" ∧ r.(fr_scheme) = bs "https" ∧ r.(fr_authority) = engine.(te_authority).
Proof.
  intros (auth & inputs & hs & Hb)%build_final_request_Ok. pose proof (added_not_auth _ _ _ _ _ _ _ _ _ _ Hb) as Hf.
  pose proof Hb as [Ha Hi _ Hh Hone (added & Hsent & Hadded) _ (Hm1 & Hm2 & Hm3 & _)]. split_and!; try done.
  - rewrite Hf. destruct (filter _ hs) as [|h [|]] eqn:Ef; [done| |done]. exists h. split; [done|].
    assert (h ∈ filter (λ h, is_auth h = true) hs) as [Hauth Hin]%list_elem_of_filter by (rewrite Ef; by apply list_elem_of_singleton).
    apply list_elem_of_lookup in Hin as [i Hl]. destruct (Forall2_lookup_r _ _ _ _ _ Hh Hl) as (t & Ht & [Hn Hv _ Hd]).
    apply list_elem_of_lookup_2, list_elem_of_filter in Ht as [_ Ht]. split; [by apply Hd|]. intros Htemplate Hbrace.
    unfold is_auth, canonical_name in Hauth. rewrite Hn in Hauth. specialize (Htemplate t Ht Hauth).
    assert (value_template inputs (canonical_name h) t = bs "{authorization}") as Ev.
    { rewrite <- Htemplate. unfold canonical_name. rewrite Hn. unfold is_auth_name in Hauth. apply orb_true_iff in Hauth as [E|E]; apply bool_decide_eq_true in E; rewrite E;
        unfold value_template; by destruct (hi_is_claude_code inputs). }
    rewrite Ev in Hv. change (bs "{authorization}") with (token (bs "authorization")) in Hv.
    destruct (authorization_clean _ _ Ha) as (<- & Hcr & Hlf & Hbf). rewrite (render_token (bs "authorization") auth) in Hv; [by injection Hv|by rewrite Hi| |by apply Hbf|done|done].
    unfold brace_free. split; by_decide.
  - eapply built_headers; [exact Hb|..].
    + intros t h _ [_ Hv Hp _]. apply render_clean in Hv as (H1 & H2 & _). done.
    + destruct (normalize_clean (dr_client_app request)) as (_ & ? & ?). split_and!; [by_decide|done|done].
    + split_and!; by_decide.
    + destruct (digits_clean (byte_len (fr_body r))) as (_ & ? & ?). split_and!; [by_decide|done|done].
  - intros Hc. rewrite Hsent, Hadded, Hc, !existsb_app. destruct (existsb (is_named "x-app") hs), (existsb (is_named "anthropic-beta") hs); done.
Qed.

(** What an engine must be for its headers to be sent. *)
Definition length_template (t : HeaderTemplate) : bool := bool_decide (map to_ascii_lowercase t.(ht_name) = CONTENT_LENGTH).

Record engine_ok engine : Prop := {
  eo_names : ∀ t, t ∈ engine.(te_headers) → t.(ht_name) ≠ [] ∧ Forall (λ c, is_header_name_byte c = true) t.(ht_name);
  eo_coding : ∀ t, t ∈ engine.(te_headers) → map to_ascii_lowercase t.(ht_name) ≠ TRANSFER_ENCODING;
  eo_length : ∀ t, t ∈ engine.(te_headers) → length_template t = true → t.(ht_value_template) = bs "{content_length}";
  eo_one : (length (filter (λ t, length_template t = true) engine.(te_headers)) <= 1)%nat;
}.

Lemma names_canonical name h : map to_ascii_lowercase name = name → names name h = bool_decide (canonical_name h = name).
Proof. intros E. unfold names, eq_ignore_ascii_case. by rewrite E. Qed.

Lemma rendered_length selected inputs templates hs : Forall2 (rendered selected inputs) templates hs →
  length (filter (names CONTENT_LENGTH) hs) = length (filter (λ t, length_template t = true) templates).
Proof.
  induction 1 as [|t h templates hs [Hn _ _ _] Hf IH]; [done|]. rewrite !filter_cons.
  assert (names CONTENT_LENGTH h = length_template t) as -> by (rewrite names_canonical by done; unfold canonical_name, length_template; by rewrite Hn).
  destruct (length_template t); simpl; rewrite IH; done.
Qed.

Lemma filter_filter_length {A} (P Q : A → Prop) `{!∀ x, Decision (P x), !∀ x, Decision (Q x)} (l : list A) :
  (length (filter P (filter Q l)) <= length (filter P l))%nat.
Proof.
  induction l as [|x l IH]; [done|]. rewrite (filter_cons Q), (filter_cons P). case_decide; [rewrite filter_cons|]; case_decide; simpl; lia.
Qed.

Lemma filter_none_names hs : existsb (names CONTENT_LENGTH) hs = false → filter (names CONTENT_LENGTH) hs = [].
Proof.
  induction hs as [|h hs IH]; [done|]. cbn [existsb]. rewrite orb_false_iff. intros [Eh E]. rewrite filter_cons_False by (rewrite Eh; auto). by apply IH.
Qed.

Lemma request_path_ok request selected path : request_path request selected = Ok path →
  (∃ rest, path = "/"%char :: rest) ∧ (CR ∉ path) ∧ (LF ∉ path) ∧ (" "%char ∉ path) ∧
  ∀ endpoint, request.(dr_endpoint) ≠ OpenAi endpoint.
Proof.
  unfold request_path. destruct (dr_endpoint request); cbn [mbind result_bind]; [| |done];
    (intros [= <-]; destruct (is_console selected); (split; [by eexists|split_and!; [by_decide..|done]])).
Qed.

(** C23: let the header templates of an engine meet four conditions: every name is non-empty and made of the bytes of a header name; none is Transfer-Encoding;
    each Content-Length template is the token for the length of the body, and nothing more; and there is at most one. Then a request that is built for the engine is well-formed for the
    writer of HTTP/1.1: its request line and its headers can be written, and the one Content-Length it may have is the length of its body; and it has one when the
    engine speaks HTTP/1.1. *)
Theorem final_request_encodable client_request_id request selected engine session_id retry_count r :
  engine_ok engine →
  build' client_request_id request selected engine session_id retry_count = Ok r →
  request_ok r ∧ (te_protocol engine = H1 → existsb (names CONTENT_LENGTH) r.(fr_headers) = true).
Proof.
  intros [Hnames Hcoding Hlength Hone] (auth & inputs & hs & Hb)%build_final_request_Ok.
  pose proof Hb as [Ha Hi _ Hh _ (added & Hsent & Hadded) Hpath (Hm1 & Hm2 & _)]. destruct (request_path_ok _ _ _ Hpath) as (Hslash & Hc1 & Hc2 & Hc3 & _).
  assert (length (filter (names CONTENT_LENGTH) hs) <= 1)%nat as Hhs.
  { rewrite (rendered_length _ _ _ _ Hh). etrans; [apply filter_filter_length|done]. }
  split; [split|].
  - rewrite Hm1. split; [done|by_decide].
  - done.
  - done.
  - eapply built_headers; [exact Hb|..].
    + intros t h Hin [Hn Hv _ _]. destruct (Hnames t Hin) as [Hne Htok]. destruct (render_clean _ _ _ Hv) as (Hcr & Hlf & _).
      split; [by rewrite Hn|by rewrite Hn|done| |].
      * rewrite names_canonical by done. apply bool_decide_eq_false_2. unfold canonical_name. rewrite Hn. by apply Hcoding.
      * rewrite names_canonical by done. rewrite bool_decide_eq_true. unfold canonical_name. rewrite Hn. intros Hl.
        unfold canonical_name in Hv. rewrite Hn, Hl in Hv.
        assert (value_template inputs CONTENT_LENGTH t = bs "{content_length}") as Ev.
        { rewrite <- (Hlength t Hin); [|by apply bool_decide_eq_true_2]. unfold value_template. by destruct (hi_is_claude_code inputs). }
        rewrite Ev in Hv. change (bs "{content_length}") with (token (bs "content_length")) in Hv.
        destruct (digits_clean (byte_len (fr_body r))) as (Hd1 & Hd2 & Hd3). rewrite (render_token _ (to_string (byte_len (fr_body r)))) in Hv;
          [by injection Hv as <-|by rewrite Hi| |exact Hd1|exact Hd2|exact Hd3]. unfold brace_free. split; by_decide.
    + destruct (normalize_clean (dr_client_app request)) as (_ & Hx1 & Hx2). split; [done|cbn [uh_name]; by_decide|done|done|done].
    + split; [done|cbn [uh_name]; by_decide|by apply beta_clean|done|done].
    + destruct (digits_clean (byte_len (fr_body r))) as (_ & Hd2 & Hd3). split; [done|cbn [uh_name]; by_decide|done|done|done].
  - rewrite Hsent, Hadded, !filter_app, !length_app.
    assert (filter (names CONTENT_LENGTH) (if is_claude_code request then
        (if existsb (is_named "x-app") hs then [] else [{| uh_name := bs "x-app"; uh_value := hi_x_app inputs |}]) ++
        (if existsb (is_named "anthropic-beta") hs then [] else [{| uh_name := bs "anthropic-beta"; uh_value := DEFAULT_CLAUDE_CODE_BETA |}])
      else []) = []) as -> by (destruct (is_claude_code request), (existsb (is_named "x-app") hs), (existsb (is_named "anthropic-beta") hs); done).
    destruct (existsb (names CONTENT_LENGTH) hs) eqn:El.
    + rewrite andb_false_r. simpl. lia.
    + rewrite (filter_none_names _ El). destruct (bool_decide _); simpl; lia.
  - intros Hp. rewrite Hsent, Hadded, (bool_decide_eq_true_2 _ Hp). cbn [andb]. rewrite !existsb_app.
    destruct (existsb (names CONTENT_LENGTH) hs); [done|]. cbn [negb]. by rewrite orb_true_r.
Qed.

(** *** The body *)
Implicit Types (object : list (bytes * Value Num)).

(** An object that has the fields of another one, some keys apart. *)
Definition object_keeps (keys : list bytes) object object' : Prop :=
  NoDup object'.*1 ∧ ∀ key, key ∉ keys → map_get key object' = map_get key object.

Lemma object_keeps_trans keys1 keys2 o1 o2 o3 : object_keeps keys1 o1 o2 → object_keeps keys2 o2 o3 → object_keeps (keys1 ++ keys2) o1 o3.
Proof.
  intros [_ H12] [Hnd H23]. split; [done|]. intros key. rewrite not_elem_of_app. intros [? ?]. rewrite H23 by done. by apply H12.
Qed.

Lemma keeps_insert key value object : NoDup object.*1 → object_keeps [key] object (map_insert key value object).
Proof.
  intros Hnd. split; [by apply map_insert_NoDup|]. intros key' Hne. rewrite list_elem_of_singleton in Hne. rewrite map_get_insert.
  by rewrite bool_decide_eq_false_2.
Qed.

Lemma keeps_remove key object : NoDup object.*1 → object_keeps [key] object (map_remove key object).
Proof.
  intros Hnd. split; [by apply map_remove_NoDup|]. intros key' Hne. rewrite list_elem_of_singleton in Hne. rewrite map_get_remove by done.
  by rewrite bool_decide_eq_false_2.
Qed.

Lemma object_keeps_refl keys object : NoDup object.*1 → object_keeps keys object object.
Proof. by split. Qed.

Lemma keeps_weaken keys keys' object object' : object_keeps keys object object' → (∀ key, key ∈ keys → key ∈ keys') → object_keeps keys' object object'.
Proof. intros [Hnd Hk] Hsub. split; [done|]. intros key Hn. apply Hk. auto. Qed.

Lemma keeps_update key f object : NoDup object.*1 → object_keeps [key] object (update_key key f object).
Proof. intros Hnd. unfold update_key. destruct (map_get key object); [by apply keeps_insert|by apply object_keeps_refl]. Qed.

Lemma map_get_update key f object : map_get key (update_key key f object) = f <$> map_get key object.
Proof. unfold update_key. destruct (map_get key object) eqn:E; [|by rewrite E]. by rewrite map_get_insert, bool_decide_eq_true_2. Qed.

Lemma template_keeps object template : NoDup object.*1 →
  ∃ object', apply_system_template (JObject object) template = JObject object' ∧ object_keeps [bs "system"] object object'.
Proof.
  intros Hnd. unfold apply_system_template. destruct template as [template|]; [|by exists object].
  destruct (is_empty_replacement template); [by exists object|].
  destruct (map_get (bs "system") object); eexists; (split; [done|by apply keeps_insert]).
Qed.

Lemma metadata_keeps object selected session_id body' : NoDup object.*1 →
  rewrite_metadata_identity from_str hmac_sha256 parse_str from_bytes uuid_to_string (JObject object) selected session_id = Ok body' →
  ∃ object', body' = JObject object' ∧ object_keeps [bs "metadata"] object object' ∧
    ∀ metadata, map_get (bs "metadata") object = Some (JObject metadata) → ∃ identity text,
      normalize_user_identity hmac_sha256 from_bytes uuid_to_string (client_identity from_str parse_str metadata) selected.(sc_device_id)
        selected.(sc_account_uuid) selected.(sc_session_hmac) session_id = Ok identity ∧
      to_vec (JObject identity) = Some text ∧
      map_get (bs "metadata") object' = Some (JObject (map_insert (bs "user_id") (JString text) metadata)).
Proof.
  intros Hnd. unfold rewrite_metadata_identity. destruct (map_get (bs "metadata") object) as [[| | | | |metadata]|] eqn:Em;
    try (intros [= <-]; exists object; split_and!; [done|by apply object_keeps_refl|congruence]).
  destruct (normalize_user_identity _ _ _ _ _ _ _ _) as [identity|] eqn:En; [|done]. cbn [mbind result_bind].
  destruct (to_vec (JObject identity)) as [text|] eqn:Ev; [|done]. cbn [mbind result_bind ok_or]. intros [= <-]. eexists. split; [done|]. split; [by apply keeps_insert|].
  intros metadata' [= <-]. exists identity, text. split_and!; [done|done|]. by rewrite map_get_insert, bool_decide_eq_true_2.
Qed.

Lemma attribute_keeps object selected session_id body' : NoDup object.*1 →
  attribute_body from_str sha256 hmac_sha256 parse_str from_bytes uuid_to_string (JObject object) selected session_id = Ok body' →
  ∃ object1 object', body' = JObject object' ∧ object_keeps [bs "system"] object object1 ∧
    rewrite_metadata_identity from_str hmac_sha256 parse_str from_bytes uuid_to_string (JObject object1) selected session_id = Ok (JObject object') ∧
    object_keeps [bs "system"; bs "metadata"] object object'.
Proof.
  intros Hnd. unfold attribute_body. set (text := default [] _).
  assert (∀ body1, match map_get (bs "system") object with
      | Some system => system ← align_system sha256 system selected text; Ok (JObject (map_insert (bs "system") system object))
      | None => Ok (JObject object)
      end = Ok body1 → ∃ object1, body1 = JObject object1 ∧ object_keeps [bs "system"] object object1) as Hsys.
  { intros body1. destruct (map_get (bs "system") object) as [system|]; [|intros [= <-]; eexists; by split; [|apply object_keeps_refl]].
    destruct (align_system _ _ _ _); [|done]. cbn [mbind result_bind]. intros [= <-]. eexists. split; [done|by apply keeps_insert]. }
  destruct (match map_get (bs "system") object with Some _ => _ | None => _ end) as [body1|]; [|done]. cbn [mbind result_bind].
  destruct (Hsys body1 eq_refl) as (object1 & -> & Hk1). intros Hm. pose proof Hm as Hm'. apply metadata_keeps in Hm' as (object' & -> & Hk2 & _); [|apply Hk1].
  exists object1, object'. split_and!; [done|done|done|]. exact (object_keeps_trans _ _ _ _ _ Hk1 Hk2).
Qed.

Lemma symmetry_keeps object : NoDup object.*1 →
  object_keeps [bs "betas"; bs "speed"; bs "output_config"] object (default_symmetry object) ∧
  map_get (bs "betas") (default_symmetry object) = None ∧
  map_get (bs "speed") (default_symmetry object) =
    (if bool_decide ((map_get (bs "speed") object ≫= as_str) = Some (bs "fast")) then None else map_get (bs "speed") object) ∧
  map_get (bs "output_config") (default_symmetry object) =
    (λ value, match value with
              | JObject entries => JObject (map_remove (bs "task_budget") (map_remove (bs "format") entries)) | _ => value end)
    <$> map_get (bs "output_config") object.
Proof.
  intros Hnd. unfold default_symmetry. set (o1 := map_remove (bs "betas") object).
  assert (object_keeps [bs "betas"] object o1) as [Hnd1 K1] by by apply keeps_remove.
  assert (map_get (bs "speed") o1 = map_get (bs "speed") object) as -> by (apply K1; by_decide).
  set (o2 := if bool_decide _ then _ else _).
  assert (object_keeps [bs "speed"] o1 o2) as [Hnd2 K2] by (unfold o2; case_match; [by apply keeps_remove|by apply object_keeps_refl]).
  unfold remove_output_config. set (o3 := update_key _ _ o2). assert (object_keeps [bs "output_config"] o2 o3) as [Hnd3 K3] by by apply keeps_update.
  pose proof (keeps_update (bs "output_config") (λ value, match value with JObject entries => JObject (map_remove (bs "task_budget") entries) | _ => value end) o3 Hnd3) as [Hnd4 K4].
  split_and!.
  - split; [done|]. intros key. rewrite !not_elem_of_cons. intros (N1 & N2 & N3 & _).
    rewrite K4, K3, K2, K1; [done|by rewrite list_elem_of_singleton..].
  - rewrite K4, K3, K2 by by_decide. unfold o1. rewrite map_get_remove by done. by rewrite bool_decide_eq_true_2.
  - rewrite K4, K3 by by_decide. unfold o2. case_match; [|apply K1; by_decide]. rewrite map_get_remove by done. by rewrite bool_decide_eq_true_2.
  - rewrite map_get_update. unfold o3. rewrite map_get_update. rewrite K2, K1 by by_decide.
    destruct (map_get (bs "output_config") object) as [[]|]; done.
Qed.

(** The steps that make the body of a Claude Code request. *)
Lemma claude_tree_steps request selected session_id tree beta :
  wf request.(dr_generic).(aq_replay_body).(rb_tree) →
  claude_code_tree' request selected session_id DEFAULT_CLAUDE_CODE_BETA = Ok (tree, beta) →
  ∃ object object1 object2, request.(dr_generic).(aq_replay_body).(rb_tree) = JObject object ∧ NoDup object.*1 ∧
    object_keeps [bs "system"] object object1 ∧
    (if request.(dr_generic).(aq_generic).(gar_attribution_suppressed) then object2 = object1
     else attribute_body from_str sha256 hmac_sha256 parse_str from_bytes uuid_to_string (JObject object1) selected session_id = Ok (JObject object2)) ∧
    object_keeps [bs "system"; bs "metadata"] object object2 ∧
    ∀ key, get key tree = map_get key (default_symmetry object2).
Proof.
  intros Hw. unfold claude_code_tree. set (body := rb_tree _) in *.
  set (body1 := if gar_system_template_pending _ then _ else _).
  destruct (if gar_attribution_suppressed _ then _ else _) as [body2|] eqn:Ea; [|done]. cbn [mbind result_bind].
  destruct (apply_beta_body_symmetry _ _) as [answer|] eqn:Es; [|done]. apply symmetry_default in Es as (object2 & -> & ->).
  cbn [mbind result_bind]. intros Et. assert (tree = canonicalize_system_order (JObject (default_symmetry object2))) as -> by congruence. clear Et.
  assert (∃ object1, body1 = JObject object1) as [object1 E1].
  { destruct (gar_attribution_suppressed _); [injection Ea as ->; by eexists|]. unfold attribute_body in Ea. destruct body1; try done. by eexists. }
  assert (∃ object, body = JObject object) as [object Eo].
  { unfold body1, apply_system_template in E1. destruct (gar_system_template_pending _); [|by eexists].
    destruct (sc_system_template selected); [|by eexists]. destruct (is_empty_replacement _); [by eexists|]. destruct body; try done. by eexists. }
  rewrite Eo in Hw. apply wf_object_iff in Hw as [Hnd _].
  assert (object_keeps [bs "system"] object object1) as Hk1.
  { unfold body1 in E1. rewrite Eo in E1. destruct (gar_system_template_pending _); [|injection E1 as <-; by apply object_keeps_refl].
    destruct (template_keeps object (sc_system_template selected) Hnd) as (o & Eo' & Hk). congruence. }
  rewrite E1 in Ea. exists object, object1, object2. split_and!; [done|done|done|..].
  - destruct (gar_attribution_suppressed _); [congruence|done].
  - destruct (gar_attribution_suppressed _).
    + injection Ea as <-. eapply keeps_weaken; [exact Hk1|]. intros key ->%list_elem_of_singleton. by_decide.
    + apply attribute_keeps in Ea as (_ & object' & [= <-] & _ & _ & Hk2); [|apply Hk1].
      eapply keeps_weaken; [exact (object_keeps_trans _ _ _ _ _ Hk1 Hk2)|]. intros key. rewrite elem_of_app, !elem_of_cons. naive_solver.
  - assert (NoDup object2.*1) as Hnd2.
    { destruct (gar_attribution_suppressed _); [injection Ea as <-; apply Hk1|]. apply attribute_keeps in Ea as (_ & object' & [= <-] & _ & _ & Hk2); [apply Hk2|apply Hk1]. }
    intros key. rewrite canonical_get; [done|]. by apply symmetry_keeps.
Qed.

(** the body of the request keeps what the client asked. The body of a client other than Claude Code is sent byte for byte as the policy left it. That
    of Claude Code is the text of a value that has every field the policy left, the model, the messages and the tools among them, apart
    from the system value and the metadata; the betas are out of it, the speed is there unless it is fast, and the output
    configuration loses its format and its task budget and nothing else. *)
Theorem client_body_kept client_request_id request selected engine session_id retry_count r :
  wf request.(dr_generic).(aq_replay_body).(rb_tree) →
  build' client_request_id request selected engine session_id retry_count = Ok r →
  let original := request.(dr_generic).(aq_replay_body) in
  if is_claude_code request then
    ∃ tree, to_vec tree = Some r.(fr_body) ∧
      (∀ key, key ∉ [bs "system"; bs "metadata"; bs "betas"; bs "speed"; bs "output_config"] → get key tree = get key original.(rb_tree)) ∧
      get (bs "betas") tree = None ∧
      get (bs "speed") tree =
        (if bool_decide ((get (bs "speed") original.(rb_tree) ≫= as_str) = Some (bs "fast")) then None else get (bs "speed") original.(rb_tree)) ∧
      (∀ key, key ∉ [bs "format"; bs "task_budget"] →
        (get (bs "output_config") tree ≫= get key) = (get (bs "output_config") original.(rb_tree) ≫= get key)) ∧
      (request.(dr_generic).(aq_generic).(gar_attribution_suppressed) = true → get (bs "metadata") tree = get (bs "metadata") original.(rb_tree))
  else r.(fr_body) = original.(rb_bytes).
Proof.
  intros Hw (auth & inputs & hs & [_ _ Hbody _ _ _ _ _])%build_final_request_Ok. cbv zeta. apply final_body_Ok in Hbody as [_ Hbody].
  destruct (is_claude_code request); [|done]. destruct Hbody as (tree & Ht & Hv). exists tree. split; [done|].
  destruct (claude_tree_steps _ _ _ _ _ Hw Ht) as (object & object1 & object2 & Eo & Hnd & Hk1 & Hs & [Hnd2 Hk2] & Hget).
  rewrite Eo in Hw |- *. destruct (symmetry_keeps object2 Hnd2) as ([_ Hk3] & Hbetas & Hspeed & Houtput).
  assert (∀ key, key ∉ [bs "system"; bs "metadata"] → map_get key object2 = get key (JObject object)) as Hk by (intros key Hn; by apply Hk2).
  split_and!.
  - intros key. rewrite !not_elem_of_cons. intros (N1 & N2 & N3 & N4 & N5 & _). rewrite Hget, Hk3 by (rewrite !not_elem_of_cons; split_and!; try done; apply not_elem_of_nil).
    apply Hk. rewrite !not_elem_of_cons. split_and!; try done; apply not_elem_of_nil.
  - by rewrite Hget.
  - rewrite Hget, Hspeed, Hk by by_decide. done.
  - intros key. rewrite !not_elem_of_cons. intros (N1 & N2 & _). rewrite Hget, Houtput, Hk by by_decide.
    destruct (get (bs "output_config") (JObject object)) as [value|] eqn:Eout; [|done]. pose proof (wf_get _ _ _ Hw Eout) as Hwv.
    destruct value as [| | | | |entries]; try done. cbn. apply wf_object_iff in Hwv as [Hnde _]. unfold get. cbn [as_object mbind option_bind].
    rewrite map_get_remove by by apply map_remove_NoDup. rewrite bool_decide_eq_false_2 by done.
    rewrite map_get_remove by done. by rewrite bool_decide_eq_false_2.
  - intros E. rewrite E in Hs. subst object2. rewrite Hget, Hk3 by by_decide. apply Hk1. by_decide.
Qed.

Lemma normalize_spec (identity identity' : list (bytes * Value Num)) device_id (account_uuid : Uuid) session_hmac session_id :
  normalize_user_identity hmac_sha256 from_bytes uuid_to_string identity device_id account_uuid session_hmac session_id = Ok identity' →
  map_get (bs "device_id") identity' = Some (JString device_id) ∧
  map_get (bs "account_uuid") identity' = Some (JString (uuid_to_string account_uuid)) ∧
  map_get (bs "session_id") identity' = Some (JString session_id) ∧
  (match map_get (bs "parent_session_id") identity ≫= as_str with
   | Some parent => ∃ derived, derive_session_id hmac_sha256 from_bytes uuid_to_string session_hmac parent = Ok derived ∧
       map_get (bs "parent_session_id") identity' = Some (JString derived)
   | None => map_get (bs "parent_session_id") identity' = map_get (bs "parent_session_id") identity
   end) ∧
  ∀ key, key ∉ [bs "device_id"; bs "account_uuid"; bs "session_id"; bs "parent_session_id"] → map_get key identity' = map_get key identity.
Proof.
  unfold normalize_user_identity. set (i1 := map_insert (bs "device_id") _ identity). set (i2 := map_insert (bs "account_uuid") _ i1).
  set (i3 := map_insert (bs "session_id") _ i2).
  assert (∀ key, map_get key i3 = if bool_decide (key = bs "session_id") then Some (JString session_id)
    else if bool_decide (key = bs "account_uuid") then Some (JString (uuid_to_string account_uuid))
    else if bool_decide (key = bs "device_id") then Some (JString device_id) else map_get key identity) as Hi.
  { intros key. unfold i3, i2, i1. by rewrite !map_get_insert. }
  assert (map_get (bs "device_id") i3 = Some (JString device_id) ∧ map_get (bs "account_uuid") i3 = Some (JString (uuid_to_string account_uuid)) ∧
    map_get (bs "session_id") i3 = Some (JString session_id) ∧ map_get (bs "parent_session_id") i3 = map_get (bs "parent_session_id") identity) as (D & A & S & Pa)
    by (rewrite !Hi; done).
  assert (∀ key, key ∉ [bs "device_id"; bs "account_uuid"; bs "session_id"; bs "parent_session_id"] → map_get key i3 = map_get key identity) as Ho.
  { intros key. rewrite !not_elem_of_cons. intros (N1 & N2 & N3 & N4 & _). rewrite Hi. by rewrite !bool_decide_eq_false_2 by done. }
  destruct (map_get (bs "parent_session_id") identity ≫= as_str) as [parent|]; [|by intros [= <-]].
  destruct (derive_session_id _ _ _ _ _) as [derived|] eqn:Ed; [|done]. cbn [mbind result_bind]. intros [= <-]. split_and!.
  - rewrite map_get_insert. by rewrite bool_decide_eq_false_2 by by_decide.
  - rewrite map_get_insert. by rewrite bool_decide_eq_false_2 by by_decide.
  - rewrite map_get_insert. by rewrite bool_decide_eq_false_2 by by_decide.
  - exists derived. split; [done|]. by rewrite map_get_insert, bool_decide_eq_true_2.
  - intros key Hn. rewrite map_get_insert, bool_decide_eq_false_2; [by apply Ho|]. rewrite !not_elem_of_cons in Hn. naive_solver.
Qed.

(** C22: the identity in the metadata of a Claude Code request is that of the credential. Unless attribution is suppressed, the user of a request with metadata is
    the text of an object that names the device, the account and the session of the credential, whatever the client wrote; a parent session
    that the client named is derived with the key of the credential, and nothing else that the client wrote is lost. *)
Theorem identity_of_credential client_request_id request selected engine session_id retry_count r metadata :
  wf request.(dr_generic).(aq_replay_body).(rb_tree) →
  is_claude_code request = true → request.(dr_generic).(aq_generic).(gar_attribution_suppressed) = false →
  get (bs "metadata") request.(dr_generic).(aq_replay_body).(rb_tree) = Some (JObject metadata) →
  build' client_request_id request selected engine session_id retry_count = Ok r →
  ∃ tree metadata' identity text, to_vec tree = Some r.(fr_body) ∧ get (bs "metadata") tree = Some (JObject metadata') ∧
    map_get (bs "user_id") metadata' = Some (JString text) ∧ to_vec (JObject identity) = Some text ∧
    (∀ key, key ≠ bs "user_id" → map_get key metadata' = map_get key metadata) ∧
    map_get (bs "device_id") identity = Some (JString selected.(sc_device_id)) ∧
    map_get (bs "account_uuid") identity = Some (JString (uuid_to_string selected.(sc_account_uuid))) ∧
    map_get (bs "session_id") identity = Some (JString session_id) ∧
    let client := client_identity from_str parse_str metadata in
    (match map_get (bs "parent_session_id") client ≫= as_str with
     | Some parent => ∃ derived, derive_session_id hmac_sha256 from_bytes uuid_to_string selected.(sc_session_hmac) parent = Ok derived ∧
         map_get (bs "parent_session_id") identity = Some (JString derived)
     | None => map_get (bs "parent_session_id") identity = map_get (bs "parent_session_id") client
     end) ∧
    ∀ key, key ∉ [bs "device_id"; bs "account_uuid"; bs "session_id"; bs "parent_session_id"] → map_get key identity = map_get key client.
Proof.
  intros Hw Hclaude Hsup Hmeta (auth & inputs & hs & [_ _ Hbody _ _ _ _ _])%build_final_request_Ok. apply final_body_Ok in Hbody as [_ Hbody].
  rewrite Hclaude in Hbody. destruct Hbody as (tree & Ht & Hv).
  destruct (claude_tree_steps _ _ _ _ _ Hw Ht) as (object & object1 & object2 & Eo & Hnd & [Hnd1 Hk1] & Hs & [Hnd2 _] & Hget). rewrite Hsup in Hs.
  apply attribute_keeps in Hs as (object3 & object' & [= <-] & [Hnd3 Hk3] & Hm & _); [|done].
  apply metadata_keeps in Hm as (object' & [= <-] & _ & Hm); [|done].
  destruct (Hm metadata) as (identity & text & Hn & Htext & Hmeta').
  { rewrite Hk3, Hk1 by by_decide. rewrite Eo in Hmeta. exact Hmeta. }
  apply normalize_spec in Hn as (H1 & H2 & H3 & H4 & H5). destruct (symmetry_keeps object2 Hnd2) as ([_ Hks] & _).
  exists tree, (map_insert (bs "user_id") (JString text) metadata), identity, text. cbv zeta. split_and!; try done.
  - rewrite Hget, Hks by by_decide. done.
  - by rewrite map_get_insert, bool_decide_eq_true_2.
  - intros key Hne. rewrite map_get_insert. by rewrite bool_decide_eq_false_2.
Qed.

End requests.

(** the templates of the headers are filled in at once. When the values of its tokens have no braces, a template of text and tokens is rendered
    to the text with the values in the places of the tokens, no matter that the tokens are replaced one after the other, and refused exactly when that would hold a
    line break; and whatever the template, no rendered value has a brace or a line break. *)
Theorem header_templates_filled fields parts template :
  (Forall part_ok parts →
    (∀ name, Tok name ∈ parts → ∃ value, map_get name (token_values fields) = Some value ∧ brace_free value) →
    render_template (concat (part_text <$> parts)) fields =
      let text := concat (substitute (token_values fields) <$> parts) in
      if contains_any CRLF text then Err DeterministicUnavailable else Ok text) ∧
  ∀ value, render_template template fields = Ok value → (CR ∉ value) ∧ (LF ∉ value) ∧ brace_free value.
Proof. split; [apply template_rendered|intros value; apply render_clean]. Qed.

(** A secret that is itself a token is replaced, not refused. *)
Lemma token_in_secret :
  render_template (bs "{authorization}")
    {| hf_authority := bs "api"; hf_authorization := bs "Bearer {session_id}"; hf_session_id := bs "s"; hf_anthropic_version := bs "v";
       hf_anthropic_beta := bs "b"; hf_content_length := 0; hf_retry_count := 0; hf_client_request_id := bs "c" |} = Ok (bs "Bearer s").
Proof. by vm_compute. Qed.

(** ** Samples *)

Definition final_tree : Value Z :=
  JObject [(bs "model", JString (bs "m")); (bs "betas", JNull); (bs "speed", JString (bs "fast")); (bs "messages", JArray []);
           (bs "system", sample_system); (bs "metadata", JObject [(bs "user_id", JString (bs "someone"))])].

Definition final_generic : AdjustedRequest Z :=
  {| aq_generic := {| gar_body_digest := ""%string; gar_model_id := "m"%string; gar_stream := true; gar_portability := Portable;
                      gar_attribution_suppressed := false; gar_system_template_pending := false;
                      gar_snapshot_set := sample_snapshots |};
     aq_replay_body := {| rb_bytes := bs "raw"; rb_tree := final_tree; rb_reused_original := false |};
     aq_change_set := [] |}.

Definition final_dispatch : DispatchRequest Z :=
  {| dr_started_at := 0; dr_client_identity := identity_default; dr_original_headers := None; dr_openai_connection := false;
     dr_endpoint := Messages; dr_request_id := MkTypedId "req_1"; dr_owner_user_id := MkTypedId "user"; dr_platform_key_id := MkTypedId "key";
     dr_group_id := MkTypedId "group"; dr_base_session_id := MkTypedId "session"; dr_agent_id := MkTypedId "agent"; dr_client_class := ClaudeCodeCli;
     dr_client_os := MacOs; dr_os_resolution := Os_GroupDefault; dr_os_mismatch := false; dr_identity_conflict := false; dr_accepted_at := 0;
     dr_pre_upstream_deadline := 30; dr_original_body := bs "raw"; dr_client_app := Some (bs "cli-bg"); dr_generic := final_generic;
     dr_anthropic_version := None; dr_anthropic_beta := None |}.

Definition final_selected : SelectedCredential Z bytes :=
  {| sc_auth_kind := bs "oauth"; sc_auth_secret := bs "secret"; sc_session_hmac := bs "key"; sc_account_uuid := bs "account";
     sc_device_id := bs "device"; sc_egress := Route_Direct; sc_proxy_endpoint_id := None; sc_transport_bundle_id := bs "bundle"; sc_client_version := bs "2.1.220";
     sc_environment := {| se_os_family := OsMacos; se_shell := Some (bs "fish"); se_os_version := None |}; sc_system_template := None |}.

Definition final_template (name value : string) : HeaderTemplate := {| ht_name := bs name; ht_value_template := bs value; ht_sensitive := false |}.

Definition final_engine : CompiledTransportEngine :=
  {| te_key := {| ek_bundle_id := MkTypedId "bundle"; ek_bundle_version := 1; ek_bundle_hash := bs "hash"; ek_engine_abi := bs "1.0";
                  ek_backend_id := bs "backend"; ek_protocol := H1 |};
     te_source_archetype_version_id := bs "arch"; te_capture_cohort := bs "windows"; te_authority := bs "api.anthropic.com";
     te_tls := sample_profile;
     te_application := Compiled_H1 {| h1_request_line_form := bs "origin"; h1_header_order := []; h1_framing := bs "content-length" |};
     te_evidence_hashes := [bs "evidence"];
     te_headers := [final_template "Authorization" "{authorization}"; final_template "Content-Length" "{content_length}";
                    final_template "X-Stainless-Retry-Count" "{retry_count}"] |}.

#[local] Instance final_serde : SerdeJson Z Z := sample_serde [] (λ _, Some (bs "printed")).

Definition sample_build : result DispatchError FinalUpstreamRequest :=
  build_final_request (λ _, None) sample_sha256 (λ _ l, Some l) (Uuid := bytes) Some id id (bs "request") final_dispatch final_selected
    final_engine (bs "session") 1.

Definition sample_final : FinalUpstreamRequest :=
  Eval vm_compute in match sample_build with Ok r => r | Err _ => Http1.sample_request end.

Lemma sample_built : build_final_request (λ _, None) sample_sha256 (λ _ l, Some l) (Uuid := bytes) Some id id (bs "request") final_dispatch final_selected
    final_engine (bs "session") 1 = Ok sample_final.
Proof. by vm_compute. Qed.

Lemma final_tree_wf : wf final_tree.
Proof.
  apply wf_object_iff. split; [by_decide|]. cbn [final_tree fmap list_fmap snd].
  rewrite !Forall_cons. split_and!; [constructor..|by apply wf_array_iff|apply sample_system_wf| |done].
  apply wf_object_iff. split; [by_decide|]. by repeat constructor.
Qed.

Lemma one_credential_sent_witness :
  filter (λ h, is_auth h = true) sample_final.(fr_headers) = [{| uh_name := bs "Authorization"; uh_value := bs "Bearer secret" |}].
Proof.
  destruct (one_credential_sent _ _ _ _ _ _ _ _ _ _ _ _ _ sample_built) as ((h & Hf & _ & Hv) & _).
  assert (h.(uh_value) = bs "Bearer secret") as Ev.
  { apply Hv; [|split; by_decide]. intros t Hin. cbn [final_engine te_headers] in Hin. rewrite !elem_of_cons in Hin.
    destruct Hin as [->|[->|[->|[]%elem_of_nil]]]; by vm_compute. }
  rewrite Hf. destruct h as [name value]. cbn [uh_value] in Ev. subst value. f_equal. f_equal.
  assert (head (filter (λ h, is_auth h = true) sample_final.(fr_headers)) = Some {| uh_name := bs "Authorization"; uh_value := bs "Bearer secret" |}) as Hh by by vm_compute.
  rewrite Hf in Hh. by injection Hh.
Defined.

Lemma final_engine_ok : engine_ok final_engine.
Proof.
  split; [| | |by vm_compute].
  - intros t. cbn [final_engine te_headers]. rewrite !elem_of_cons. intros [->|[->|[->|[]%elem_of_nil]]]; (split; [done|by_decide]).
  - intros t. cbn [final_engine te_headers]. rewrite !elem_of_cons. intros [->|[->|[->|[]%elem_of_nil]]]; by_decide.
  - intros t. cbn [final_engine te_headers]. rewrite !elem_of_cons. intros [->|[->|[->|[]%elem_of_nil]]]; by vm_compute.
Qed.

Lemma final_request_encodable_witness : request_ok sample_final ∧ existsb (names CONTENT_LENGTH) sample_final.(fr_headers) = true.
Proof.
  destruct (final_request_encodable _ _ _ _ _ _ _ _ _ _ _ _ _ final_engine_ok sample_built) as [Hok Hl]. split; [exact Hok|]. by apply Hl.
Defined.

Lemma client_body_kept_witness :
  ∃ tree, to_vec tree = Some sample_final.(fr_body) ∧ get (bs "model") tree = Some (JString (bs "m")) ∧ get (bs "betas") tree = None ∧
    get (bs "speed") tree = None.
Proof.
  destruct (client_body_kept _ _ _ _ _ _ _ final_dispatch _ _ _ _ _ final_tree_wf sample_built) as (tree & Hv & Hk & Hb & Hs & _).
  exists tree. split; [exact Hv|]. split; [rewrite Hk; [by vm_compute|by_decide]|]. split; [exact Hb|]. rewrite Hs. by vm_compute.
Defined.

Lemma identity_of_credential_witness :
  ∃ identity text, to_vec (JObject identity) = Some text ∧ map_get (bs "device_id") identity = Some (JString (bs "device")) ∧
    map_get (bs "session_id") identity = Some (JString (bs "session")).
Proof.
  destruct (identity_of_credential _ _ _ _ _ _ _ final_dispatch _ _ _ _ _ [(bs "user_id", JString (bs "someone"))] final_tree_wf eq_refl eq_refl eq_refl sample_built)
    as (_ & _ & identity & text & _ & _ & _ & Ht & _ & Hd & _ & Hs & _).
  exists identity, text. by split_and!.
Defined.

Lemma header_templates_filled_witness :
  let fields := {| hf_authority := bs "api"; hf_authorization := bs "Bearer x"; hf_session_id := bs "s"; hf_anthropic_version := bs "v";
                   hf_anthropic_beta := bs "b"; hf_content_length := 12; hf_retry_count := 1; hf_client_request_id := bs "c" |} in
  render_template (concat (part_text <$> [Lit (bs "n="); Tok (bs "content_length"); Lit (bs "/"); Tok (bs "retry_count")])) fields = Ok (bs "n=12/1").
Proof.
  intros fields. destruct (header_templates_filled fields [Lit (bs "n="); Tok (bs "content_length"); Lit (bs "/"); Tok (bs "retry_count")] []) as [Hr _].
  rewrite Hr; [by vm_compute| |].
  - rewrite !Forall_cons. unfold part_ok, brace_free. split_and!; by_decide.
  - intros name. rewrite !elem_of_cons. intros [[=]|[[= ->]|[[=]|[[= ->]|[]%elem_of_nil]]]]; (eexists; split; [reflexivity|unfold brace_free; split; by_decide]).
Defined.
