(* ===== verification/DispatchLoop.v ===== *)
(** The loop over the attempts of one request: [dispatch_after_lease] of
    [crates/super-gatewayd/src/production_dispatcher.rs], with the Lease guard and the sink of the first byte.

    The calls to storage, to the owner of the Group, to the transport and to the runtime are the calls of a program ([Programs]); a call whose failure the code
    maps to one error answers with a boolean. What the code only logs is left out. *)

From Stdlib Require Import Ascii.
From S2P Require Import Prelude Machine.
From S2P Require Import Bytes.
From S2P Require Import Domain.
From S2P Require Import Transport.
From S2P Require Import TransportEvents.
From S2P Require Import Http1.
From S2P Require Import Quota.
From S2P Require Import Reservation.
From S2P Require Import Json.
From S2P Require Import TokenBucket SchedTypes Samples.
From S2P Require Import Retry.
From S2P Require Import RequestParser.
From S2P Require Import Policy.
From S2P Require Import Dispatch.
From S2P Require Import HeaderCapture.
From S2P Require Import Bundle.
From S2P Require Import EngineCatalog.
From S2P Require Import AttemptSnapshot.
From S2P Require Import FinalRequest.
From S2P Require Import Programs.
Local Open Scope N_scope.

(** ** The first byte of a request *)

(** [std::time::Instant] in nanoseconds; the last one that the clock of the system can hold. *)
Abbreviation Instant := N (only parsing).

Definition INSTANT_MAX : N := (2 ^ 63 - 1) * NANOS_PER_SEC + (NANOS_PER_SEC - 1).

Definition instant_checked_add (a : Instant) (d : Duration) : option Instant := checked_add INSTANT_MAX a d.

Definition saturating_duration_since (later earlier : Instant) : Duration := saturating_sub later earlier.

(** [fb_now] is what [Instant::now()] gives in [emit]. *)
Record FirstByteEventSink := {
  fb_now : Instant;
  fb_request_bytes : N;
  fb_first_byte_at : option Instant;
  fb_transport_terminal : bool;
}.

Definition first_byte_default : FirstByteEventSink :=
  {| fb_now := 0; fb_request_bytes := 0; fb_first_byte_at := None; fb_transport_terminal := false |}.

#[export] Instance FirstByteEventSink_sink : TransportEventSink FirstByteEventSink := λ event self,
  let first := bool_decide (event.(ev_kind) = FirstUpstreamRequestByte) in
  let ended := bool_decide (event.(ev_kind) = ResponseComplete) || bool_decide (event.(ev_kind) = CancelConfirmed) in
  (Ok tt,
   {| fb_now := self.(fb_now);
      fb_request_bytes := if first then N.max event.(ev_request_bytes_written) 1 else self.(fb_request_bytes);
      fb_first_byte_at := if first then match self.(fb_first_byte_at) with Some at_ => Some at_ | None => Some self.(fb_now) end
                          else self.(fb_first_byte_at);
      fb_transport_terminal := self.(fb_transport_terminal) || ended |}).

Abbreviation AttemptSink := (MonotonicEventSink FirstByteEventSink).

Definition set_now (now : Instant) (sink : AttemptSink) : AttemptSink :=
  {| ms_poisoned := sink.(ms_poisoned);
     ms_inner := {| fb_now := now; fb_request_bytes := sink.(ms_inner).(fb_request_bytes);
                    fb_first_byte_at := sink.(ms_inner).(fb_first_byte_at);
                    fb_transport_terminal := sink.(ms_inner).(fb_transport_terminal) |};
     ms_state := sink.(ms_state) |}.

Definition emit_timed (sink : AttemptSink) (event : Instant * TransportEvent) : AttemptSink :=
  (sink_emit event.2 (set_now event.1 sink)).2.

(** What the transport does when it is polled to the end: the events that it emits in each poll, and its result. *)
Record Execution := {
  xe_polls : list (list (Instant * TransportEvent));
  xe_result : result TransportError RawUpstreamResponse;
}.

(** The [select!], which asks for the first byte before it polls: the sink when the first byte is seen, unless the execution ends before, and
    the sink at the end. *)
Fixpoint poll_loop (polls : list (list (Instant * TransportEvent))) (sink : AttemptSink) : option AttemptSink * AttemptSink :=
  match polls with
  | [] => (None, sink)
  | events :: polls =>
      let sink := foldl emit_timed sink events in
      match polls with
      | [] => (None, sink)
      | _ => if 0 <? sink.(ms_inner).(fb_request_bytes) then (Some sink, foldl emit_timed sink (concat polls)) else poll_loop polls sink
      end
  end.

(** ** Data *)
Inductive CredentialServiceError :=
  | Service_Conflict
  | Service_WaitingEgress
  | Service_RateLimited (retry_after : Duration)
  | Service_Transient
  | Service_InvalidAuthentication
  | Service_AccountMismatch
  | Service_ManualRecoveryRequired
  | Service_WorkerTimeout
  | Service_EvidencePending.

Definition auth_is_lost (error : CredentialServiceError) : bool :=
  match error with
  | Service_InvalidAuthentication | Service_AccountMismatch | Service_ManualRecoveryRequired => true
  | _ => false
  end.

Record AttemptTelemetry (Uuid : Type) := {
  tm_intent_id : Uuid;
  tm_connection_attempt_id : Uuid;
  tm_attempt_id : Uuid;
  tm_request_id : Uuid;
  tm_credential_id : Uuid;
  tm_token_version : Z;
  tm_profile_epoch : Z;
  tm_egress_epoch : Z;
  tm_transport_bundle_id : Uuid;
  tm_connection_ordinal : N;
  tm_messages_ordinal : N;
  tm_reason_code : string;
}.
Arguments Build_AttemptTelemetry {Uuid}.
Arguments tm_intent_id {Uuid}.
Arguments tm_connection_attempt_id {Uuid}.
Arguments tm_attempt_id {Uuid}.
Arguments tm_request_id {Uuid}.
Arguments tm_credential_id {Uuid}.
Arguments tm_token_version {Uuid}.
Arguments tm_profile_epoch {Uuid}.
Arguments tm_egress_epoch {Uuid}.
Arguments tm_transport_bundle_id {Uuid}.
Arguments tm_connection_ordinal {Uuid}.
Arguments tm_messages_ordinal {Uuid}.
Arguments tm_reason_code {Uuid}.

Record SubmissionIntentArm (Uuid : Type) := {
  sm_intent_id : Uuid;
  sm_request_id : Uuid;
  sm_ordinal : N;
  sm_credential_id : Uuid;
  sm_token_version : Z;
  sm_profile_epoch : Z;
  sm_egress_epoch : Z;
  sm_transport_bundle_id : Uuid;
  sm_generic_adjusted_request_hash : bytes;
}.
Arguments Build_SubmissionIntentArm {Uuid}.

Record BodyCaptureConfig := {
  bo_enabled : bool;
  bo_max_bytes : N;
}.

Record QuotaProjection := {
  qj_observation_version : N;
  qj_used_basis_points : N;
  qj_reset_after : Duration;
}.

(** What the dispatcher reads of a prepared response. *)
Record PreparedClientResponse := {
  pc_mode : ResponseMode;
  pc_buffer_tier : option BufferTier;
}.

(** The Lease guard: what it does to its Lease. *)
Inductive GuardOp :=
  | GuardNew (lease : CredentialLease)
  | GuardReplace (lease : CredentialLease)
  | GuardDefer (delay : Duration)
  | GuardDisarm.

Record LeaseGuard := {
  lg_lease : option CredentialLease;
  lg_release_delay : Duration;
}.

Definition guard_apply (op : GuardOp) (self : option LeaseGuard) : option LeaseGuard :=
  match op with
  | GuardNew lease => Some {| lg_lease := Some lease; lg_release_delay := 0 |}
  | GuardReplace lease => (λ _, {| lg_lease := Some lease; lg_release_delay := 0 |}) <$> self
  | GuardDefer delay => (λ self, {| lg_lease := self.(lg_lease); lg_release_delay := delay |}) <$> self
  | GuardDisarm => (λ self, {| lg_lease := None; lg_release_delay := self.(lg_release_delay) |}) <$> self
  end.

(** [Drop]: the Lease that is released, and after how long. *)
Definition guard_drop (self : option LeaseGuard) : option (CredentialLease * Duration) :=
  guard ← self; lease ← guard.(lg_lease); Some (lease, guard.(lg_release_delay)).

(** ** The calls *)
Inductive DispatchCall (Num Uuid : Type) : Type → Type :=
  (* storage *)
  | ResolveModelId (model_id : string) : DispatchCall Num Uuid (option (option Uuid))
  | AdvanceRequestPhase (from to : string) : DispatchCall Num Uuid bool
  | LoadSelectedCredential (lease : CredentialLease) : DispatchCall Num Uuid (result DispatchError (SelectedCredential Num Uuid))
  | RecordRequestReasoning (body : bytes) : DispatchCall Num Uuid bool
  | BeginHeaderAttempt (ordinal : N) : DispatchCall Num Uuid bool
  | CaptureUpstreamHeaders (response : bool) (headers : HeaderSnapshot) : DispatchCall Num Uuid bool
  | CaptureFinalRequestBody (body : option (Value Num)) : DispatchCall Num Uuid bool
  | MarkBodyDigestMismatch : DispatchCall Num Uuid bool
  | RecordUpstreamBodyDigest (digest : bytes) : DispatchCall Num Uuid bool
  | ArmSubmissionIntent (intent : SubmissionIntentArm Uuid) : DispatchCall Num Uuid bool
  | InsertConnectionAttempt (telemetry : AttemptTelemetry Uuid) (bundle_hash authority : bytes) (protocol : string)
      (proxy_endpoint_id : option Uuid) (generation : Z) : DispatchCall Num Uuid bool
  | PromoteAttempt (telemetry : AttemptTelemetry Uuid) (request_bytes : Z) (status : option N) : DispatchCall Num Uuid bool
  | UpdateAttemptStatus (telemetry : AttemptTelemetry Uuid) (status : N) : DispatchCall Num Uuid bool
  | FailAttempt (telemetry : AttemptTelemetry Uuid) (request_bytes : N) (is_final : bool) : DispatchCall Num Uuid bool
  | CompleteAttempt (telemetry : AttemptTelemetry Uuid) (retry_decision : string) : DispatchCall Num Uuid bool
  | MarkAttemptFinal (telemetry : AttemptTelemetry Uuid) : DispatchCall Num Uuid bool
  | RecordThirdPartyRejection (telemetry : AttemptTelemetry Uuid) (client_os : ClientOs) : DispatchCall Num Uuid unit
  | PersistQuota (credential_id : Uuid) (observations : list (Uuid * SubscriptionQuotaObservation bytes)) :
      DispatchCall Num Uuid (option (option QuotaProjection))
  | PersistCooldown (overload : bool) (telemetry : AttemptTelemetry Uuid) (explicit_seconds : option Z) : DispatchCall Num Uuid (option Z)
  | PersistAccountRejection (telemetry : AttemptTelemetry Uuid) (code message : bytes) : DispatchCall Num Uuid (option (option Uuid))
  | ClearCooldown (credential_id : Uuid) : DispatchCall Num Uuid bool
  | ProjectTransportHealth (lease : CredentialLease) (proxy_endpoint_id : option ProxyEndpointId) (error : TransportError) :
      DispatchCall Num Uuid (result DispatchError unit)
  | StartResponseDelivery (delivery_id attempt_id : Uuid) (streaming : bool) (tier : option BufferTier) : DispatchCall Num Uuid bool
  (* the owner of the Group *)
  | OwnerValid : DispatchCall Num Uuid bool
  | LockCoordination : DispatchCall Num Uuid unit
  | OwnerReplace (entry : ScheduleEntry) (current : CredentialLease) (target : RetryCredentialTarget) :
      DispatchCall Num Uuid (option RetryLeaseDecision)
  | OwnerRelease (lease : CredentialLease) : DispatchCall Num Uuid bool
  | OwnerComplete (request_id : RequestId) : DispatchCall Num Uuid unit
  | FlushResourceEvents : DispatchCall Num Uuid bool
  | InvalidateOwner : DispatchCall Num Uuid unit
  | BeginDrain : DispatchCall Num Uuid unit
  | RouteResolutions : DispatchCall Num Uuid unit
  | ObserveCooldown (update : CredentialCooldownUpdate) : DispatchCall Num Uuid (result DispatchError unit)
  | ObserveAuth (update : CredentialAuthUpdate) : DispatchCall Num Uuid (result DispatchError unit)
  | ObserveQuota (update : CredentialQuotaUpdate) : DispatchCall Num Uuid unit
  | FenceCredential (group_id credential_id : Uuid) : DispatchCall Num Uuid unit
  (* the maintenance of credentials *)
  | Maintain (credential_id : CredentialId) : DispatchCall Num Uuid (result CredentialServiceError N)
  | MaintainWithin (limit : Duration) (credential_id : CredentialId) : DispatchCall Num Uuid (option (result CredentialServiceError N))
  (* the transport *)
  | EnginesSnapshot : DispatchCall Num Uuid EngineCatalog
  | Execute (attempt : TransportAttempt) : DispatchCall Num Uuid Execution
  | PreviewPatience : DispatchCall Num Uuid nat
  | CancelAttempt (ordinal : N) : DispatchCall Num Uuid unit
  | DrainBody (ordinal : N) : DispatchCall Num Uuid bool
  | PrepareResponse (raw : RawUpstreamResponse) : DispatchCall Num Uuid (result ResponseError PreparedClientResponse)
  (* the runtime *)
  | NowInstant : DispatchCall Num Uuid Instant
  | ClockNow : DispatchCall Num Uuid Duration
  | UnixMillis : DispatchCall Num Uuid N
  | NowV7 : DispatchCall Num Uuid Uuid
  | NewV4 : DispatchCall Num Uuid Uuid
  | SleepOrCancelled (backoff : Duration) : DispatchCall Num Uuid bool
  | CancelRequest : DispatchCall Num Uuid unit
  | Guard (op : GuardOp) : DispatchCall Num Uuid unit.
Arguments ResolveModelId {Num Uuid}.
Arguments AdvanceRequestPhase {Num Uuid}.
Arguments LoadSelectedCredential {Num Uuid}.
Arguments RecordRequestReasoning {Num Uuid}.
Arguments BeginHeaderAttempt {Num Uuid}.
Arguments CaptureUpstreamHeaders {Num Uuid}.
Arguments CaptureFinalRequestBody {Num Uuid}.
Arguments MarkBodyDigestMismatch {Num Uuid}.
Arguments RecordUpstreamBodyDigest {Num Uuid}.
Arguments ArmSubmissionIntent {Num Uuid}.
Arguments InsertConnectionAttempt {Num Uuid}.
Arguments PromoteAttempt {Num Uuid}.
Arguments UpdateAttemptStatus {Num Uuid}.
Arguments FailAttempt {Num Uuid}.
Arguments CompleteAttempt {Num Uuid}.
Arguments MarkAttemptFinal {Num Uuid}.
Arguments RecordThirdPartyRejection {Num Uuid}.
Arguments PersistQuota {Num Uuid}.
Arguments PersistCooldown {Num Uuid}.
Arguments PersistAccountRejection {Num Uuid}.
Arguments ClearCooldown {Num Uuid}.
Arguments ProjectTransportHealth {Num Uuid}.
Arguments StartResponseDelivery {Num Uuid}.
Arguments OwnerValid {Num Uuid}.
Arguments LockCoordination {Num Uuid}.
Arguments OwnerReplace {Num Uuid}.
Arguments OwnerRelease {Num Uuid}.
Arguments OwnerComplete {Num Uuid}.
Arguments FlushResourceEvents {Num Uuid}.
Arguments InvalidateOwner {Num Uuid}.
Arguments BeginDrain {Num Uuid}.
Arguments RouteResolutions {Num Uuid}.
Arguments ObserveCooldown {Num Uuid}.
Arguments ObserveAuth {Num Uuid}.
Arguments ObserveQuota {Num Uuid}.
Arguments FenceCredential {Num Uuid}.
Arguments Maintain {Num Uuid}.
Arguments MaintainWithin {Num Uuid}.
Arguments EnginesSnapshot {Num Uuid}.
Arguments Execute {Num Uuid}.
Arguments PreviewPatience {Num Uuid}.
Arguments CancelAttempt {Num Uuid}.
Arguments DrainBody {Num Uuid}.
Arguments PrepareResponse {Num Uuid}.
Arguments NowInstant {Num Uuid}.
Arguments ClockNow {Num Uuid}.
Arguments UnixMillis {Num Uuid}.
Arguments NowV7 {Num Uuid}.
Arguments NewV4 {Num Uuid}.
Arguments SleepOrCancelled {Num Uuid}.
Arguments CancelRequest {Num Uuid}.
Arguments Guard {Num Uuid}.

(** ** The program *)
Record LoopState := {
  lo_budget : ConnectionAttemptBudget;
  lo_messages_attempts : N;
  lo_refresh_attempted : bool;
  lo_next_attempt_reason : string;
  lo_upstream_total_deadline : option Instant;
  lo_lease : CredentialLease;
}.

Definition with_lo_attempts (n : N) (s : LoopState) : LoopState :=
  {| lo_budget := s.(lo_budget); lo_messages_attempts := n; lo_refresh_attempted := s.(lo_refresh_attempted);
     lo_next_attempt_reason := s.(lo_next_attempt_reason); lo_upstream_total_deadline := s.(lo_upstream_total_deadline);
     lo_lease := s.(lo_lease) |}.

Definition with_lo_refreshed (s : LoopState) : LoopState :=
  {| lo_budget := s.(lo_budget); lo_messages_attempts := s.(lo_messages_attempts); lo_refresh_attempted := true;
     lo_next_attempt_reason := s.(lo_next_attempt_reason); lo_upstream_total_deadline := s.(lo_upstream_total_deadline);
     lo_lease := s.(lo_lease) |}.

Definition with_lo_deadline (deadline : option Instant) (s : LoopState) : LoopState :=
  {| lo_budget := s.(lo_budget); lo_messages_attempts := s.(lo_messages_attempts); lo_refresh_attempted := s.(lo_refresh_attempted);
     lo_next_attempt_reason := s.(lo_next_attempt_reason); lo_upstream_total_deadline := deadline; lo_lease := s.(lo_lease) |}.

Definition with_lo_budget (budget : ConnectionAttemptBudget) (s : LoopState) : LoopState :=
  {| lo_budget := budget; lo_messages_attempts := s.(lo_messages_attempts); lo_refresh_attempted := s.(lo_refresh_attempted);
     lo_next_attempt_reason := s.(lo_next_attempt_reason); lo_upstream_total_deadline := s.(lo_upstream_total_deadline);
     lo_lease := s.(lo_lease) |}.

Definition with_lo_lease (reason : string) (lease : CredentialLease) (s : LoopState) : LoopState :=
  {| lo_budget := s.(lo_budget); lo_messages_attempts := s.(lo_messages_attempts); lo_refresh_attempted := s.(lo_refresh_attempted);
     lo_next_attempt_reason := reason; lo_upstream_total_deadline := s.(lo_upstream_total_deadline); lo_lease := lease |}.

(** [hex_nibble] and [decode_sha256]. *)
Definition hex_nibble (c : ascii) : result DispatchError N :=
  if in_range 48 57 (byte c) then Ok (byte c - 48)
  else if in_range 97 102 (byte c) then Ok (byte c - 97 + 10)
  else Err DeterministicUnavailable.

Fixpoint hex_pairs (value : bytes) : result DispatchError bytes :=
  match value with
  | high :: low :: value =>
      high ← hex_nibble high;
      low ← hex_nibble low;
      rest ← hex_pairs value;
      Ok (ascii_of_N (N.lor (N.shiftl high 4) low) :: rest)
  | _ => Ok []
  end.

Definition decode_sha256 (value : bytes) : result DispatchError bytes :=
  if negb (length value =? 64)%nat then Err DeterministicUnavailable else hex_pairs value.

(** The [?] of an [i64::try_from]. *)
Definition to_i64 (n : N) : result DispatchError Z := ok_or Unavailable (i64_of n).

Section dispatch.
Context {Num F : Type} `{SerdeJson Num F}.
Context (from_slice : bytes → option (Value Num)) (from_str : bytes → option (Value Num)).
Context (sha256 : bytes → bytes) (hmac_sha256 : bytes → bytes → option bytes).
Context {Uuid : Type} (parse_str : bytes → option Uuid) (from_bytes : bytes → Uuid) (as_bytes uuid_to_string uuid_simple : Uuid → bytes).

(** The request and what is known of it; whether there is a maintainer of credentials. *)
Context (request : DispatchRequest Num) (request_uuid : Uuid) (request_limits : RuntimeRequestLimits) (entry : ScheduleEntry)
  (body_capture : BodyCaptureConfig) (maintainer : bool).

Abbreviation M := (Fallible (DispatchCall Num Uuid) DispatchError).

Definition is_stream : bool := request.(dr_generic).(aq_generic).(gar_stream).

Definition credential_uuid (lease : CredentialLease) : result DispatchError Uuid :=
  parse_uuid parse_str (bs (TypedId_as_str lease.(cl_credential_id))).

(** ** The records of an attempt *)
Definition create_attempt_telemetry (lease : CredentialLease) (selected : SelectedCredential Num Uuid) (engine : CompiledTransportEngine)
    (activation_generation connection_ordinal messages_ordinal : N) (reason_code : string) : M (AttemptTelemetry Uuid) :=
  lease_profile ← pure (ok_or DeterministicUnavailable (anthropic_profile lease));
  intent_id ← call NowV7;
  connection_attempt_id ← call NowV7;
  attempt_id ← call NowV7;
  credential_id ← pure (credential_uuid lease);
  token_version ← pure (to_i64 lease.(cl_token_version));
  profile_epoch ← pure (to_i64 lease_profile.(cp_profile_epoch));
  egress_epoch ← pure (to_i64 lease_profile.(cp_egress_epoch));
  _ ← call_or Unavailable (ArmSubmissionIntent
        {| sm_intent_id := intent_id; sm_request_id := request_uuid; sm_ordinal := messages_ordinal; sm_credential_id := credential_id;
           sm_token_version := token_version; sm_profile_epoch := profile_epoch; sm_egress_epoch := egress_epoch;
           sm_transport_bundle_id := selected.(sc_transport_bundle_id);
           sm_generic_adjusted_request_hash := sha256 request.(dr_generic).(aq_replay_body).(rb_bytes) |});
  let protocol := match te_protocol engine with H1 => "h1"%string | H2 => "h2"%string end in
  bundle_hash ← pure (decode_sha256 (bs lease_profile.(cp_bundle_hash)));
  proxy_endpoint_id ← pure (match selected.(sc_proxy_endpoint_id) with
                            | None => Ok None
                            | Some value => id ← parse_uuid parse_str (bs (TypedId_as_str value)); Ok (Some id)
                            end);
  let telemetry :=
    {| tm_intent_id := intent_id; tm_connection_attempt_id := connection_attempt_id; tm_attempt_id := attempt_id;
       tm_request_id := request_uuid; tm_credential_id := credential_id; tm_token_version := token_version;
       tm_profile_epoch := profile_epoch; tm_egress_epoch := egress_epoch;
       tm_transport_bundle_id := selected.(sc_transport_bundle_id); tm_connection_ordinal := connection_ordinal;
       tm_messages_ordinal := messages_ordinal; tm_reason_code := reason_code |} in
  _ ← pure (to_i64 lease_profile.(cp_bundle_version));
  generation ← pure (to_i64 activation_generation);
  _ ← call_or Unavailable (InsertConnectionAttempt telemetry bundle_hash engine.(te_authority) protocol proxy_endpoint_id generation);
  mret telemetry.

Definition promote_attempt_telemetry (telemetry : AttemptTelemetry Uuid) (request_bytes : N) (status : option N) : M unit :=
  request_bytes ← pure (to_i64 request_bytes);
  if (request_bytes <=? 0)%Z then fail Unavailable else call_or Unavailable (PromoteAttempt telemetry request_bytes status).

Definition update_attempt_http_status (telemetry : AttemptTelemetry Uuid) (status : N) : M unit :=
  call_or Unavailable (UpdateAttemptStatus telemetry status).

Definition fail_attempt_telemetry (telemetry : AttemptTelemetry Uuid) (request_bytes : N) (is_final : bool) : M unit :=
  call_or Unavailable (FailAttempt telemetry request_bytes is_final).

Definition complete_attempt_for_retry (telemetry : AttemptTelemetry Uuid) (retry_decision : string) : M unit :=
  call_or Unavailable (CompleteAttempt telemetry retry_decision).

Definition mark_attempt_final (telemetry : AttemptTelemetry Uuid) : M unit := call_or Unavailable (MarkAttemptFinal telemetry).

(** [persist_rate_limit_cooldown] and [persist_overload_cooldown]. *)
Definition persist_cooldown (overload : bool) (telemetry : AttemptTelemetry Uuid) (trusted : option Duration) : M Duration :=
  explicit_seconds ← pure (match trusted with None => Ok None | Some duration => n ← to_i64 (as_secs duration); Ok (Some n) end);
  let explicit_seconds := if overload then (λ n, Z.max 1 (Z.min n 900)) <$> explicit_seconds else explicit_seconds in
  answer ← call (PersistCooldown overload telemetry explicit_seconds);
  seconds ← pure (ok_or Unavailable answer);
  mret (from_secs (Z.to_N (Z.max 1 (Z.min seconds 900)))).

Fixpoint draw_ids {A} (items : list A) : M (list (Uuid * A)) :=
  match items with
  | [] => mret []
  | item :: items => id ← call NowV7; rest ← draw_ids items; mret ((id, item) :: rest)
  end.

Definition observe_subscription_quota_headers (credential_id : CredentialId) (headers : list (bytes * bytes)) (now : Duration) : M unit :=
  let parsed := parse_subscription_quota_headers sha256 headers in
  if is_empty parsed.(qp_observations _) then mret tt
  else
    match parse_str (bs (TypedId_as_str credential_id)) with
    | None => mret tt
    | Some credential_uuid =>
        observations ← draw_ids parsed.(qp_observations _);
        answer ← call (PersistQuota credential_uuid observations);
        match answer with
        | Some (Some projection) =>
            call (ObserveQuota {| cqu_credential_id := credential_id; cqu_observation_version := projection.(qj_observation_version);
                                  cqu_used_basis_points := projection.(qj_used_basis_points);
                                  cqu_reset_at := dur_add now projection.(qj_reset_after) |})
        | _ => mret tt
        end
    end.

(** ** Body and header capture *)
Definition request_json (body : bytes) : option (Value Num) :=
  if negb body_capture.(bo_enabled) || (body_capture.(bo_max_bytes) <? byte_len body) then None else from_slice body.

(** The snapshot of an attempt. *)
Definition capture_attempt_headers (response : bool) (ordinal : N) (headers : list (bytes * bytes)) : M bool :=
  millis ← call UnixMillis;
  let snapshot := capture_snapshot millis Transport_Http headers in
  let snapshot := {| hs_entries := snapshot.(hs_entries); hs_captured_at_ms := snapshot.(hs_captured_at_ms);
                     hs_transport := snapshot.(hs_transport); hs_reused := snapshot.(hs_reused);
                     hs_attempt_ordinal := Some ordinal; hs_truncated := snapshot.(hs_truncated) |} in
  if response : bool then call (CaptureUpstreamHeaders true snapshot)
  else
    begun ← call (BeginHeaderAttempt ordinal);
    if begun : bool then call (CaptureUpstreamHeaders false snapshot) else mret false.

Definition capture_final_request (ordinal : N) (final_request : FinalUpstreamRequest) : M unit :=
  if negb body_capture.(bo_enabled) then mret tt
  else
    _ ← capture_attempt_headers false ordinal (map (λ h, (h.(uh_name), h.(uh_value))) final_request.(fr_headers));
    let final_body := request_json final_request.(fr_body) in
    captured ← call (CaptureFinalRequestBody final_body);
    if captured : bool then
      let encoded := final_body ≫= to_vec in
      if is_some final_body && negb (bool_decide (encoded = Some final_request.(fr_body)))
      then _ ← call MarkBodyDigestMismatch; mret tt
      else mret tt
    else mret tt.

(** ** One attempt *)
Definition remaining_upstream (s : LoopState) : M (option Duration) :=
  match s.(lo_upstream_total_deadline) with
  | None => mret None
  | Some deadline => now ← call NowInstant; mret (Some (saturating_duration_since deadline now))
  end.

Definition typed_id (tag : IdTag) (prefix : string) (id : Uuid) : result DispatchError (TypedId tag) :=
  match TypedId_new tag (prefix ++ String.string_of_list_ascii (uuid_simple id)) with Ok id => Ok id | Err _ => Err Unavailable end.

Definition attempt_identity (lease : CredentialLease) (profile : CredentialProfileConfig) (proxy : option ProxyEndpointId)
    : AttemptIdentitySnapshot :=
  {| ai_credential_id := lease.(cl_credential_id); ai_token_version := lease.(cl_token_version);
     ai_profile_id := profile.(cp_profile_id); ai_profile_epoch := profile.(cp_profile_epoch);
     ai_device_identity_id := profile.(cp_device_identity_id); ai_device_epoch := profile.(cp_device_epoch);
     ai_archetype_version_id := profile.(cp_archetype_version_id); ai_bundle_id := profile.(cp_bundle_id);
     ai_bundle_version := profile.(cp_bundle_version); ai_bundle_hash := profile.(cp_bundle_hash);
     ai_egress_binding_id := profile.(cp_egress_binding_id); ai_proxy_endpoint_id := proxy;
     ai_egress_epoch := profile.(cp_egress_epoch); ai_session_derivation_version := 1 |}.

(** From the top of the loop to the attempt that is given to the transport: the attempt, its telemetry and the proxy whose health it shows. *)
Definition prepare_attempt (s : LoopState) : M (TransportAttempt * AttemptTelemetry Uuid * option ProxyEndpointId) :=
  remaining ← remaining_upstream s;
  if negb is_stream && is_some_and (λ remaining, remaining <? request_limits.(rl_min_retry_budget)) remaining then fail DeadlineExceeded
  else
    let attempt_upstream_total := default request_limits.(rl_upstream_non_stream_total) remaining in
    let attempt_connect := match remaining with
                           | None => request_limits.(rl_upstream_connect)
                           | Some remaining => N.min request_limits.(rl_upstream_connect) remaining
                           end in
    let connection_ordinal := s.(lo_budget).(cab_attempts) in
    let messages_ordinal := saturating_add U8_MAX s.(lo_messages_attempts) 1 in
    let lease := s.(lo_lease) in
    lease_profile ← pure (ok_or DeterministicUnavailable (anthropic_profile lease));
    selected ← call_ok (LoadSelectedCredential lease);
    catalog ← call EnginesSnapshot;
    engine ← pure (ok_or DeterministicUnavailable
      (find_exact catalog (bs (TypedId_as_str lease_profile.(cp_archetype_version_id))) (bs (TypedId_as_str lease_profile.(cp_bundle_id)))
        lease_profile.(cp_bundle_version) (bs lease_profile.(cp_bundle_hash))));
    derived_session ← pure (derive_session_id hmac_sha256 from_bytes uuid_to_string selected.(sc_session_hmac)
      (bs (TypedId_as_str request.(dr_base_session_id))));
    client_request_id ← call NewV4;
    final_request ← pure (build_final_request from_str sha256 hmac_sha256 parse_str from_bytes uuid_to_string (uuid_to_string client_request_id)
      request selected engine derived_session connection_ordinal);
    _ ← call (RecordRequestReasoning final_request.(fr_body));
    _ ← capture_final_request connection_ordinal final_request;
    _ ← call_or Unavailable (RecordUpstreamBodyDigest (sha256 final_request.(fr_body)));
    attempt_telemetry ← create_attempt_telemetry lease selected engine catalog.(ec_generation) connection_ordinal messages_ordinal
      s.(lo_next_attempt_reason);
    plan ← call NowV7;
    attempt_plan_id ← pure (typed_id AttemptPlanTag "plan_" plan);
    connection_attempt_id ← pure (typed_id ConnectionAttemptTag "conn_" attempt_telemetry.(tm_connection_attempt_id));
    mret ({| at_connection_attempt_id := connection_attempt_id; at_ordinal := connection_ordinal;
             at_snapshot :=
               {| as_request_id := request.(dr_request_id); as_attempt_plan_id := attempt_plan_id;
                  as_identity := attempt_identity lease lease_profile selected.(sc_proxy_endpoint_id);
                  as_egress := selected.(sc_egress); as_request := final_request;
                  as_deadlines :=
                    {| ad_connect := attempt_connect; ad_upstream_total := attempt_upstream_total;
                       ad_stream_idle := request_limits.(rl_upstream_stream_idle); ad_cancel_grace := request_limits.(rl_cancel_grace) |} |};
             at_engine := engine; at_activation_generation := catalog.(ec_generation) |},
          attempt_telemetry, selected.(sc_proxy_endpoint_id)).

(** The deadline of a response that is not streamed runs from the first byte of the first request. *)
Definition first_byte_deadline (sink : AttemptSink) (s : LoopState) : LoopState :=
  match is_stream, s.(lo_upstream_total_deadline), sink.(ms_inner).(fb_first_byte_at) with
  | false, None, Some first_byte_at => with_lo_deadline (instant_checked_add first_byte_at request_limits.(rl_upstream_non_stream_total)) s
  | _, _, _ => s
  end.

Definition count_message (s : LoopState) : LoopState := with_lo_attempts (saturating_add U8_MAX s.(lo_messages_attempts) 1) s.

(** The execution of an attempt: its result, its sink, whether the attempt was promoted, and the state. *)
Definition execute_attempt (attempt : TransportAttempt) (telemetry : AttemptTelemetry Uuid) (s : LoopState)
    : M (result TransportError RawUpstreamResponse * AttemptSink * bool * LoopState) :=
  execution ← call (Execute attempt);
  let '(seen, sink) := poll_loop execution.(xe_polls) (monotonic_new first_byte_default) in
  match seen with
  | Some first_byte =>
      _ ← promote_attempt_telemetry telemetry first_byte.(ms_inner).(fb_request_bytes) None;
      let s := first_byte_deadline first_byte (count_message s) in
      mret (execution.(xe_result), sink, true, first_byte_deadline sink s)
  | None => mret (execution.(xe_result), sink, false, first_byte_deadline sink s)
  end.

(** [discard_raw_response]: whether the body was drained in time. *)
Definition discard_raw_response (ordinal : N) : M bool :=
  _ ← call (CancelAttempt ordinal);
  call (DrainBody ordinal).

(** [RuntimeGroup::replace_lease]: the owner replaces the Lease, and its events are recorded before the replacement is handed over; when they cannot be recorded, the
    owner is fenced and the replacement is given back. The resolutions of other requests, which are routed to them, are left out. *)
Definition replace_lease_call (lease : CredentialLease) (target : RetryCredentialTarget) : M (option CredentialLease) :=
  valid ← call OwnerValid;
  if negb valid then fail Unavailable
  else
    _ ← call LockCoordination;
    answer ← call (OwnerReplace entry lease target);
    decision ← pure (ok_or Unavailable answer);
    flushed ← call FlushResourceEvents;
    if negb flushed then
      _ ← call InvalidateOwner;
      _ ← call BeginDrain;
      _ ← (match decision with
           | RetryGranted lease => _ ← call (OwnerRelease lease); call (OwnerComplete lease.(cl_request_id))
           | _ => mret tt
           end);
      _ ← call FlushResourceEvents;
      _ ← call RouteResolutions;
      fail Unavailable
    else
      match decision with
      | RetryGranted lease => mret (Some lease)
      | NoCandidate => mret None
      | RetryStaleIgnored => fail Unavailable
      end.

(** [RuntimeGroup::release_lease_only]. *)
Definition release_lease_only (lease : CredentialLease) : M bool :=
  released ← call (OwnerRelease lease);
  if negb released then mret false
  else
    flushed ← call FlushResourceEvents;
    if negb flushed then mret false else _ ← call RouteResolutions; mret true.

(** How an attempt ends the loop, or lets it go on. *)
Inductive Turn :=
  | Continue (s : LoopState)
  | Break (raw : RawUpstreamResponse) (telemetry : AttemptTelemetry Uuid) (sink : AttemptSink) (s : LoopState).

Definition remaining_deadline (s : LoopState) : M Duration :=
  remaining ← remaining_upstream s; mret (default DURATION_MAX remaining).

Definition uuid_last_byte (id : Uuid) : N := match as_bytes id !! 15%nat with Some c => byte c | None => 0 end.

Definition retry_context (error : RetryErrorClass) (refresh_attempted : bool) (remaining proposed_backoff : Duration) (s : LoopState)
    (alternate_credential_available : bool) : RetryContext :=
  {| rx_error := error; rx_portability := request.(dr_generic).(aq_generic).(gar_portability); rx_response_committed := false;
     rx_body_replayable := bool_decide (digest sha256 request.(dr_generic).(aq_replay_body).(rb_bytes) = request.(dr_generic).(aq_generic).(gar_body_digest));
     rx_messages_attempts := s.(lo_messages_attempts); rx_refresh_already_attempted := refresh_attempted;
     rx_same_credential_available := true; rx_alternate_credential_available := alternate_credential_available;
     rx_remaining_deadline := remaining; rx_min_retry_budget := request_limits.(rl_min_retry_budget);
     rx_proposed_backoff := proposed_backoff |}.

(** The search for a Credential that may serve the next attempt: another one, then the same one after the backoff. [on_cancel] is what is done
    when the request is cancelled while it waits. *)
Definition find_replacement (context : bool → RetryContext) (decision : RetryDecision) (on_cancel : M unit) (s : LoopState)
    : M (option CredentialLease * RetryDecision) :=
  replacement ←
    match decision.(rd_strategy) with
    | Some SwitchCredential => replace_lease_call s.(lo_lease) (Alternate s.(lo_lease).(cl_credential_id))
    | _ => mret None
    end;
  let decision :=
    if negb (is_some replacement) && bool_decide (decision.(rd_strategy) = Some SwitchCredential) then decide_retry (context false) else decision in
  if negb (is_some replacement) && bool_decide (decision.(rd_strategy) = Some SameCredential) then
    _ ← (if negb (decision.(rd_backoff) =? 0) then
           cancelled ← call (SleepOrCancelled decision.(rd_backoff));
           if cancelled : bool then (_ ← on_cancel; fail Dispatch_Cancelled) else mret tt
         else mret tt);
    replacement ← replace_lease_call s.(lo_lease) (Same s.(lo_lease).(cl_credential_id));
    mret (replacement, decision)
  else mret (replacement, decision).

Definition strategy_code (strategy : option RetryStrategy) : string :=
  match strategy with
  | Some SwitchCredential => "switch_credential"
  | Some SameCredential => "same_credential"
  | Some RefreshSameCredential => "refresh_same_credential"
  | None => "none"
  end.

Definition guard_replace (lease : CredentialLease) : M unit := call (Guard (GuardReplace lease)).

(** A response whose status may be retried. *)
Definition retry_status (raw : RawUpstreamResponse) (error_class : RetryErrorClass) (telemetry : AttemptTelemetry Uuid) (sink : AttemptSink)
    (ordinal : N) (retry_after : Duration) (s : LoopState) : M Turn :=
  let status := raw.(rw_status) in
  remaining ← remaining_deadline s;
  let proposed_backoff := retry_backoff status s.(lo_messages_attempts) (uuid_last_byte request_uuid) retry_after in
  let context := retry_context error_class s.(lo_refresh_attempted) remaining proposed_backoff s in
  let decision := decide_retry (context true) in
  if negb decision.(rd_allowed) then mret (Break raw telemetry sink s)
  else
    discarded ← discard_raw_response ordinal;
    if negb discarded then (_ ← mark_attempt_final telemetry; fail Unavailable)
    else
      '(replacement, decision) ← find_replacement context decision (mret tt) s;
      match replacement with
      | Some replacement =>
          _ ← guard_replace replacement;
          _ ← complete_attempt_for_retry telemetry (strategy_code decision.(rd_strategy));
          let reason :=
            if bool_decide (replacement.(cl_credential_id) = s.(lo_lease).(cl_credential_id)) then
              match error_class with
              | RateLimited429 => "rate_limit_retry"
              | Overloaded529 | Upstream5xx => "overload_retry"
              | _ => "credential_switch"
              end
            else "credential_switch" in
          mret (Continue (with_lo_lease reason replacement s))
      | None => _ ← mark_attempt_final telemetry; fail (map_retry_status status retry_after)
      end.

(** The replay after a 401: [None] when the loop goes on to the retry of the status. *)
Definition refresh_replay (raw : RawUpstreamResponse) (telemetry : AttemptTelemetry Uuid) (sink : AttemptSink) (ordinal : N) (s : LoopState)
    : M (option Turn * LoopState) :=
  if (raw.(rw_status) =? 401) && negb s.(lo_refresh_attempted) && (s.(lo_messages_attempts) <? 3) then
    if negb maintainer then mret (Some (Break raw telemetry sink s), s)
    else
      let lease := s.(lo_lease) in
      let s := with_lo_refreshed s in
      outcome ←
        match s.(lo_upstream_total_deadline) with
        | Some deadline =>
            now ← call NowInstant;
            answer ← call (MaintainWithin (saturating_duration_since deadline now) lease.(cl_credential_id));
            match answer with
            | Some outcome => mret outcome
            | None =>
                _ ← discard_raw_response ordinal;
                _ ← mark_attempt_final telemetry;
                fail DeadlineExceeded
            end
        | None => call (Maintain lease.(cl_credential_id))
        end;
      match outcome with
      | Ok token_version =>
          _ ← call_ok (ObserveAuth {| cau_credential_id := lease.(cl_credential_id); cau_token_version := token_version; cau_auth_healthy := true |});
          discarded ← discard_raw_response ordinal;
          if negb discarded then (_ ← mark_attempt_final telemetry; fail Unavailable)
          else
            replacement ← replace_lease_call lease (Same lease.(cl_credential_id));
            match replacement with
            | Some replacement =>
                _ ← guard_replace replacement;
                _ ← complete_attempt_for_retry telemetry "refresh_same_credential";
                mret (Some (Continue (with_lo_lease "oauth_refresh_replay" replacement s)), s)
            | None => _ ← mark_attempt_final telemetry; fail Unavailable
            end
      | Err error =>
          _ ← (if auth_is_lost error then
                 call_ok (ObserveAuth {| cau_credential_id := lease.(cl_credential_id); cau_token_version := lease.(cl_token_version);
                                         cau_auth_healthy := false |})
               else mret tt);
          mret (None, s)
      end
  else mret (None, s).

(** The cooldown of the Credential that a status asks for, and the wait that a retry owes. *)
Definition observe_cooldown (lease : CredentialLease) (cooldown : option Duration) : M unit :=
  match cooldown with
  | Some cooldown =>
      now ← call ClockNow;
      call_ok (ObserveCooldown {| ccu_credential_id := lease.(cl_credential_id); ccu_cooldown_until := Some (dur_add now cooldown) |})
  | None => call_ok (ObserveCooldown {| ccu_credential_id := lease.(cl_credential_id); ccu_cooldown_until := None |})
  end.

Definition rate_limit_cooldown (raw : RawUpstreamResponse) (telemetry : AttemptTelemetry Uuid) (lease : CredentialLease) : M Duration :=
  if raw.(rw_status) =? 429 then
    cooldown ← persist_cooldown false telemetry (trusted_retry_after raw);
    _ ← observe_cooldown lease (Some cooldown);
    mret cooldown
  else mret (default 0 (trusted_retry_after raw)).

Definition project_status (raw : RawUpstreamResponse) (account_rejection : option (bytes * bytes)) (telemetry : AttemptTelemetry Uuid)
    (lease : CredentialLease) : M unit :=
  _ ← (if raw.(rw_status) =? 529 then
         cooldown ← persist_cooldown true telemetry (trusted_retry_after raw);
         observe_cooldown lease (Some cooldown)
       else
         match account_rejection with
         | Some (error_code, error_message) =>
             answer ← call (PersistAccountRejection telemetry error_code error_message);
             group ← pure (ok_or Unavailable answer);
             match group with
             | Some group_uuid => call (FenceCredential group_uuid telemetry.(tm_credential_id))
             | None => mret tt
             end
         | None => mret tt
         end);
  if negb (raw.(rw_status) =? 429) && negb (raw.(rw_status) =? 529) && negb (is_some account_rejection) then
    cleared ← call (ClearCooldown telemetry.(tm_credential_id));
    if cleared : bool then observe_cooldown lease None else mret tt
  else mret tt.

(** The arm of a response. *)
Definition handle_response (raw : RawUpstreamResponse) (telemetry : AttemptTelemetry Uuid) (sink : AttemptSink) (promoted : bool) (ordinal : N)
    (s : LoopState) : M Turn :=
  let lease := s.(lo_lease) in
  _ ← (if body_capture.(bo_enabled) then (_ ← capture_attempt_headers true ordinal raw.(rw_headers); mret tt) else mret tt);
  patience ← call PreviewPatience;
  let '(raw, body_third_party_rejection, body_preview) := classify_and_replay_response patience raw in
  let request_bytes := sink.(ms_inner).(fb_request_bytes) in
  if request_bytes =? 0 then (_ ← fail_attempt_telemetry telemetry 0 false; fail Unavailable)
  else
    s ← (if promoted : bool then (_ ← update_attempt_http_status telemetry raw.(rw_status); mret s)
         else (_ ← promote_attempt_telemetry telemetry request_bytes (Some raw.(rw_status)); mret (count_message s)));
    _ ← (if body_third_party_rejection : bool then call (RecordThirdPartyRejection telemetry request.(dr_client_os)) else mret tt);
    now ← call ClockNow;
    _ ← observe_subscription_quota_headers lease.(cl_credential_id) raw.(rw_headers) now;
    let account_rejection :=
      if ((raw.(rw_status) =? 403) || (raw.(rw_status) =? 400)) && negb body_third_party_rejection
      then account_rejection from_slice raw.(rw_status) body_preview else None in
    retry_after ← rate_limit_cooldown raw telemetry lease;
    _ ← project_status raw account_rejection telemetry lease;
    '(turn, s) ← refresh_replay raw telemetry sink ordinal s;
    match turn with
    | Some turn => mret turn
    | None =>
        match retry_error_class_for_status raw.(rw_status) with
        | Some error_class => retry_status raw error_class telemetry sink ordinal retry_after s
        | None => mret (Break raw telemetry sink s)
        end
    end.

Definition retry_reason (replacement : CredentialLease) (s : LoopState) : string :=
  if bool_decide (replacement.(cl_credential_id) = s.(lo_lease).(cl_credential_id)) then "network_retry" else "credential_switch".

(** A failure after request bytes went out. *)
Definition handle_submitted_error (error : TransportError) (telemetry : AttemptTelemetry Uuid) (request_bytes : N) (s : LoopState) : M Turn :=
  let gave_up : M Turn := _ ← fail_attempt_telemetry telemetry request_bytes true; fail (map_transport_error error) in
  if bool_decide (error.(te_retry_safety) = CommitUnknown) then
    remaining ← remaining_deadline s;
    let proposed_backoff := retry_backoff 503 s.(lo_messages_attempts) (uuid_last_byte request_uuid) 0 in
    let context := retry_context NetworkBeforeCommit false remaining proposed_backoff s in
    '(replacement, _) ← find_replacement context (decide_retry (context true)) (fail_attempt_telemetry telemetry request_bytes true) s;
    match replacement with
    | Some replacement =>
        _ ← guard_replace replacement;
        _ ← fail_attempt_telemetry telemetry request_bytes false;
        mret (Continue (with_lo_lease (retry_reason replacement s) replacement s))
    | None => gave_up
    end
  else gave_up.

(** A failure before any request byte. *)
Definition handle_unsubmitted_error (error : TransportError) (telemetry : AttemptTelemetry Uuid) (ordinal : N) (s : LoopState) : M Turn :=
  _ ← fail_attempt_telemetry telemetry 0 false;
  if negb (bool_decide (error.(te_retry_safety) = SafeBeforeSubmission)) || (3 <=? ordinal) then fail (map_transport_error error)
  else
    let lease := s.(lo_lease) in
    same ← replace_lease_call lease (Same lease.(cl_credential_id));
    replacement ←
      match same with
      | Some _ => mret same
      | None =>
          if is_portable request.(dr_generic).(aq_generic).(gar_portability)
          then replace_lease_call lease (Alternate lease.(cl_credential_id)) else mret None
      end;
    match replacement with
    | None => fail (map_transport_error error)
    | Some replacement =>
        _ ← guard_replace replacement;
        mret (Continue (with_lo_lease (retry_reason replacement s) replacement s))
    end.

(** The arm of a transport error. *)
Definition handle_error (error : TransportError) (telemetry : AttemptTelemetry Uuid) (sink : AttemptSink) (promoted : bool)
    (proxy_endpoint_id : option ProxyEndpointId) (ordinal : N) (s : LoopState) : M Turn :=
  _ ← call_ok (ProjectTransportHealth s.(lo_lease) proxy_endpoint_id error);
  let request_bytes := N.max sink.(ms_inner).(fb_request_bytes) error.(te_upstream_request_bytes_written) in
  if 0 <? request_bytes then
    s ← (if promoted : bool then mret s
         else (_ ← promote_attempt_telemetry telemetry request_bytes None; mret (count_message s)));
    handle_submitted_error error telemetry request_bytes s
  else handle_unsubmitted_error error telemetry ordinal s.

(** One turn of the loop. *)
Definition attempt_turn (s : LoopState) : M Turn :=
  let '(begun, budget) := budget_begin s.(lo_budget) in
  if negb begun then fail Unavailable
  else
    let s := with_lo_budget budget s in
    let ordinal := budget.(cab_attempts) in
    '(attempt, telemetry, proxy_endpoint_id) ← prepare_attempt s;
    '(execution, sink, promoted, s) ← execute_attempt attempt telemetry s;
    match execution with
    | Ok raw => handle_response raw telemetry sink promoted ordinal s
    | Err error => handle_error error telemetry sink promoted proxy_endpoint_id ordinal s
    end.

(** The loop, which a budget of three attempts ends before four turns; [None] when the fuel does not suffice. *)
Fixpoint attempt_loop (fuel : nat) (s : LoopState) : M (option (RawUpstreamResponse * AttemptTelemetry Uuid * AttemptSink * LoopState)) :=
  match fuel with
  | O => mret None
  | S fuel =>
      turn ← attempt_turn s;
      match turn with
      | Continue s => attempt_loop fuel s
      | Break raw telemetry sink s => mret (Some (raw, telemetry, sink, s))
      end
  end.

Definition ATTEMPT_FUEL : nat := 4.

(** ** The response *)
Record RequestCompletion := {
  rc_delivery_id : Uuid;
  rc_attempt_id : Uuid;
  rc_model_id : Uuid;
  rc_lease : option CredentialLease;
  rc_sink : AttemptSink;
  rc_cancel_grace : Duration;
  rc_cancel_input_tokens : N;
  rc_cancel_input_basis_digest : bytes;
}.

Record UpstreamResponse := {
  ur_prepared : PreparedClientResponse;
  ur_raw : RawUpstreamResponse;
  ur_completion : RequestCompletion;
}.

Definition is_streaming (mode : ResponseMode) : bool := match mode with Streaming => true | NonStreaming => false end.

(** After the loop: the response is prepared, recorded and given its completion. *)
Definition finish_response (model_id : Uuid) (raw : RawUpstreamResponse) (telemetry : AttemptTelemetry Uuid) (sink : AttemptSink) (lease : CredentialLease)
    : M UpstreamResponse :=
  let cancelled {A} (e : DispatchError) : M A := _ ← call CancelRequest; fail e in
  _ ← call (Guard (GuardDefer request_limits.(rl_cancel_grace)));
  answer ← call (PrepareResponse raw);
  response ← match answer with Ok response => mret response | Err error => cancelled (map_response_error error) end;
  delivery_id ← call NowV7;
  started ← call (StartResponseDelivery delivery_id telemetry.(tm_attempt_id) (is_streaming response.(pc_mode)) response.(pc_buffer_tier));
  if negb started then cancelled Unavailable
  else
    completion_lease ←
      (if is_streaming response.(pc_mode) then mret (Some lease)
       else
         released ← release_lease_only lease;
         if released : bool then mret None else cancelled Unavailable);
    _ ← call (Guard GuardDisarm);
    mret {| ur_prepared := response; ur_raw := raw;
            ur_completion :=
              {| rc_delivery_id := delivery_id; rc_attempt_id := telemetry.(tm_attempt_id); rc_model_id := model_id; rc_lease := completion_lease;
                 rc_sink := sink; rc_cancel_grace := request_limits.(rl_cancel_grace);
                 rc_cancel_input_tokens := estimate_cancel_input_tokens request.(dr_generic).(aq_replay_body).(rb_bytes);
                 rc_cancel_input_basis_digest := sha256 request.(dr_generic).(aq_replay_body).(rb_bytes) |} |}.

Definition initial_loop_state (lease : CredentialLease) : LoopState :=
  {| lo_budget := budget_default; lo_messages_attempts := 0; lo_refresh_attempted := false; lo_next_attempt_reason := "initial";
     lo_upstream_total_deadline := None; lo_lease := lease |}.

(** [None]: the loop ran out of fuel. *)
Definition dispatch_after_lease (lease : CredentialLease) (current_phase : string) : M (option UpstreamResponse) :=
  answer ← call (ResolveModelId request.(dr_generic).(aq_generic).(gar_model_id));
  resolved ← pure (ok_or Unavailable answer);
  model_id ← pure (ok_or DeterministicUnavailable resolved);
  _ ← call (Guard (GuardNew lease));
  _ ← call_or Unavailable (AdvanceRequestPhase current_phase "submitting");
  exit ← attempt_loop ATTEMPT_FUEL (initial_loop_state lease);
  match exit with
  | None => mret None
  | Some (raw, telemetry, sink, s) =>
      response ← finish_response model_id raw telemetry sink s.(lo_lease);
      mret (Some response)
  end.

End dispatch.
