(* ===== verification/DispatchLoopProofs.v ===== *)
(** What the loop over the attempts of one request promises: the Lease of the request is never lost, and attempts follow one another
    in an orderly way. Both hold in every run, whatever storage, the owner of the Group, the transport and the clock answer, and
    at every call, so also when the future is dropped while it waits. *)

From Stdlib Require Import Ascii.
From S2P Require Import Prelude Machine.
From S2P Require Import Bytes.
From S2P Require Import Domain.
From S2P Require Import Transport.
From S2P Require Import TransportEvents.
From S2P Require Import Http1.
From S2P Require Import Quota.
From S2P Require Import Reservation.
From S2P Require Import Json.
From S2P Require Import TokenBucket SchedTypes Samples.
From S2P Require Import Retry.
From S2P Require Import SystemBilling.
From S2P Require Import RequestParser.
From S2P Require Import Policy.
From S2P Require Import Dispatch.
From S2P Require Import HeaderCapture.
From S2P Require Import Bundle.
From S2P Require Import EngineCatalog.
From S2P Require Import AttemptSnapshot.
From S2P Require Import FinalRequest.
From S2P Require Import FinalRequestProofs.
From S2P Require Import Programs.
From S2P Require Import DispatchLoop.
Local Open Scope N_scope.

(** ** The observer *)
Record Seen (Uuid : Type) := {
  sn_guard : option LeaseGuard;
  sn_lease : option CredentialLease;
  sn_attempts : list TransportAttempt;
  sn_open : option (AttemptTelemetry Uuid);
  sn_refreshes : nat;
  sn_clear : bool;
  sn_unreleased : option CredentialLease;
  sn_replaced : option CredentialLease;
}.
Arguments Build_Seen {Uuid}.
Arguments sn_guard {Uuid}.
Arguments sn_lease {Uuid}.
Arguments sn_attempts {Uuid}.
Arguments sn_open {Uuid}.
Arguments sn_refreshes {Uuid}.
Arguments sn_clear {Uuid}.
Arguments sn_unreleased {Uuid}.
Arguments sn_replaced {Uuid}.

Definition with_sn_open {Uuid} (open : option (AttemptTelemetry Uuid)) (o : Seen Uuid) : Seen Uuid :=
  {| sn_guard := o.(sn_guard); sn_lease := o.(sn_lease); sn_attempts := o.(sn_attempts); sn_open := open;
     sn_refreshes := o.(sn_refreshes); sn_clear := o.(sn_clear); sn_unreleased := o.(sn_unreleased); sn_replaced := o.(sn_replaced) |}.

Definition with_sn_lease {Uuid} (lease : option CredentialLease) (o : Seen Uuid) : Seen Uuid :=
  {| sn_guard := o.(sn_guard); sn_lease := lease; sn_attempts := o.(sn_attempts); sn_open := o.(sn_open);
     sn_refreshes := o.(sn_refreshes); sn_clear := o.(sn_clear); sn_unreleased := o.(sn_unreleased); sn_replaced := o.(sn_replaced) |}.

Definition with_sn_unreleased {Uuid} (lease : CredentialLease) (o : Seen Uuid) : Seen Uuid :=
  {| sn_guard := o.(sn_guard); sn_lease := o.(sn_lease); sn_attempts := o.(sn_attempts); sn_open := o.(sn_open);
     sn_refreshes := o.(sn_refreshes); sn_clear := o.(sn_clear); sn_unreleased := Some lease; sn_replaced := o.(sn_replaced) |}.

Definition with_sn_replaced {Uuid} (old new : CredentialLease) (o : Seen Uuid) : Seen Uuid :=
  {| sn_guard := o.(sn_guard); sn_lease := Some new; sn_attempts := o.(sn_attempts); sn_open := o.(sn_open);
     sn_refreshes := o.(sn_refreshes); sn_clear := o.(sn_clear); sn_unreleased := o.(sn_unreleased); sn_replaced := Some old |}.

(** What a call and its answer change: the guard; the Lease that the scheduler counts for the request; the attempts that were given to the
    transport; the attempt whose record is open; the refreshes; whether the last attempt has left nothing to be read; the Lease that the owner failed to release; and
    the Lease that the owner has replaced since the guard was last changed. *)
Definition seen_call {Num Uuid B} (c : DispatchCall Num Uuid B) : B → Seen Uuid → Seen Uuid :=
  match c in DispatchCall _ _ B return B → Seen Uuid → Seen Uuid with
  | Guard op => λ _ o,
      {| sn_guard := guard_apply op o.(sn_guard); sn_lease := o.(sn_lease); sn_attempts := o.(sn_attempts); sn_open := o.(sn_open);
         sn_refreshes := o.(sn_refreshes); sn_clear := o.(sn_clear); sn_unreleased := o.(sn_unreleased); sn_replaced := None |}
  | OwnerReplace _ current _ => λ answer o, match answer with Some (RetryGranted lease) => with_sn_replaced current lease o | _ => o end
  | OwnerRelease lease => λ released o, if released : bool then with_sn_lease None o else with_sn_unreleased lease o
  | InsertConnectionAttempt telemetry _ _ _ _ _ => λ inserted o, if inserted : bool then with_sn_open (Some telemetry) o else o
  | FailAttempt _ _ _ => λ done o, if done : bool then with_sn_open None o else o
  | CompleteAttempt _ _ => λ done o, if done : bool then with_sn_open None o else o
  | MarkAttemptFinal _ => λ done o, if done : bool then with_sn_open None o else o
  | Execute attempt => λ execution o,
      {| sn_guard := o.(sn_guard); sn_lease := o.(sn_lease); sn_attempts := o.(sn_attempts) ++ [attempt]; sn_open := o.(sn_open);
         sn_refreshes := o.(sn_refreshes); sn_clear := negb (is_ok execution.(xe_result)); sn_unreleased := o.(sn_unreleased); sn_replaced := o.(sn_replaced) |}
  | DrainBody _ => λ drained o,
      {| sn_guard := o.(sn_guard); sn_lease := o.(sn_lease); sn_attempts := o.(sn_attempts); sn_open := o.(sn_open);
         sn_refreshes := o.(sn_refreshes); sn_clear := o.(sn_clear) || drained; sn_unreleased := o.(sn_unreleased); sn_replaced := o.(sn_replaced) |}
  | Maintain _ => λ _ o,
      {| sn_guard := o.(sn_guard); sn_lease := o.(sn_lease); sn_attempts := o.(sn_attempts); sn_open := o.(sn_open);
         sn_refreshes := S o.(sn_refreshes); sn_clear := o.(sn_clear); sn_unreleased := o.(sn_unreleased); sn_replaced := o.(sn_replaced) |}
  | MaintainWithin _ _ => λ _ o,
      {| sn_guard := o.(sn_guard); sn_lease := o.(sn_lease); sn_attempts := o.(sn_attempts); sn_open := o.(sn_open);
         sn_refreshes := S o.(sn_refreshes); sn_clear := o.(sn_clear); sn_unreleased := o.(sn_unreleased); sn_replaced := o.(sn_replaced) |}
  | _ => λ _ o, o
  end.

Definition seen_step {Num Uuid} (event : Event (DispatchCall Num Uuid)) (o : Seen Uuid) : Seen Uuid :=
  match event with Ev c b => seen_call c b o end.

(** A request that has been granted a Lease, and has no guard yet. *)
Definition granted_only {Uuid} (lease : CredentialLease) : Seen Uuid :=
  {| sn_guard := None; sn_lease := Some lease; sn_attempts := []; sn_open := None; sn_refreshes := 0; sn_clear := true; sn_unreleased := None; sn_replaced := None |}.

(** The guard holds the Lease that the scheduler counts. *)
Definition guarded {Uuid} (o : Seen Uuid) : Prop :=
  ∃ lease delay, o.(sn_guard) = Some {| lg_lease := Some lease; lg_release_delay := delay |} ∧ o.(sn_lease) = Some lease.

(** Every Lease that the scheduler counts is the guard's. *)
Definition covered {Uuid} (o : Seen Uuid) : Prop :=
  ∀ lease, o.(sn_lease) = Some lease → ∃ delay, guard_drop o.(sn_guard) = Some (lease, delay).

(** The scheduler counts a replacement, and the guard still holds the Lease that it replaced. *)
Definition orphaned {Uuid} (o : Seen Uuid) : Prop :=
  ∃ old new delay, o.(sn_guard) = Some {| lg_lease := Some old; lg_release_delay := delay |} ∧ o.(sn_lease) = Some new ∧ o.(sn_replaced) = Some old.

(** A failure leaves every counted Lease to the guard, short of one that the owner failed to release. *)
Definition settled {Uuid} (o : Seen Uuid) : Prop := covered o ∨ is_Some o.(sn_unreleased) ∧ o.(sn_lease) = o.(sn_unreleased).

Lemma guarded_covered {Uuid} (o : Seen Uuid) : guarded o → covered o.
Proof. intros (lease & delay & Hg & Hl) lease' E. rewrite Hl in E. injection E as <-. exists delay. by rewrite Hg. Qed.

Lemma guarded_settled {Uuid} (o : Seen Uuid) : guarded o → settled o.
Proof. intros Ho. left. by apply guarded_covered. Qed.

Lemma released_covered {Uuid} (o : Seen Uuid) : o.(sn_lease) = None → covered o.
Proof. intros E lease El. congruence. Qed.

Section dispatch.
Context {Num F : Type} `{SerdeJson Num F}.
Context (from_slice : bytes → option (Value Num)) (from_str : bytes → option (Value Num)).
Context (sha256 : bytes → bytes) (hmac_sha256 : bytes → bytes → option bytes).
Context {Uuid : Type} (parse_str : bytes → option Uuid) (from_bytes : bytes → Uuid) (as_bytes uuid_to_string uuid_simple : Uuid → bytes).
Context (request : DispatchRequest Num) (request_uuid : Uuid) (request_limits : RuntimeRequestLimits) (entry : ScheduleEntry)
  (body_capture : BodyCaptureConfig) (maintainer : bool).
Implicit Types (o : Seen Uuid) (telemetry : AttemptTelemetry Uuid) (s : LoopState).

Abbreviation portable := (is_portable request.(dr_generic).(aq_generic).(gar_portability)).

(** The budgets that an attempt is given. *)
Definition deadlines_ok (attempt : TransportAttempt) : Prop :=
  let deadlines := attempt.(at_snapshot).(as_deadlines) in
  deadlines.(ad_connect) <= request_limits.(rl_upstream_connect) ∧
  (request.(dr_generic).(aq_generic).(gar_stream) = false →
    deadlines.(ad_upstream_total) = request_limits.(rl_upstream_non_stream_total) ∨
    request_limits.(rl_min_retry_budget) <= deadlines.(ad_upstream_total)).

(** An attempt may start: the last one is over, nothing of it can be read any more, it is one of three, and it carries the identity of the Lease and
    the engine of the Lease's bundle. *)
Record may_execute (attempt : TransportAttempt) o : Prop := {
  me_budget : (length o.(sn_attempts) < 3)%nat;
  me_ordinal : attempt.(at_ordinal) = N.of_nat (S (length o.(sn_attempts)));
  me_clear : o.(sn_clear) = true;
  me_recorded : ∃ telemetry, o.(sn_open) = Some telemetry ∧ telemetry.(tm_connection_ordinal) = attempt.(at_ordinal);
  me_identity : ∃ lease profile proxy, o.(sn_lease) = Some lease ∧ anthropic_profile lease = Some profile ∧
    attempt.(at_snapshot).(as_identity) = attempt_identity lease profile proxy ∧
    exact_match (bs (TypedId_as_str profile.(cp_archetype_version_id))) (bs (TypedId_as_str profile.(cp_bundle_id)))
      profile.(cp_bundle_version) (bs profile.(cp_bundle_hash)) attempt.(at_engine) = true;
  me_deadlines : deadlines_ok attempt;
}.

(** What each call may rely on. Those that do not wait, and the first, are free. *)
Definition allowed_call {B} (c : DispatchCall Num Uuid B) o : Prop :=
  match c with
  | Guard _ | CancelRequest => True
  | ResolveModelId _ => guard_drop o.(sn_guard) = None
  | OwnerReplace e current target =>
      guarded o ∧ e = entry ∧ o.(sn_lease) = Some current ∧
      match target with
      | Same expected => expected = current.(cl_credential_id)
      | Alternate exclude => exclude = current.(cl_credential_id) ∧ portable = true
      end
  | OwnerRelease lease => (guarded o ∨ orphaned o) ∧ o.(sn_lease) = Some lease
  | FlushResourceEvents | InvalidateOwner | BeginDrain | OwnerComplete _ | RouteResolutions => covered o ∨ orphaned o
  | InsertConnectionAttempt telemetry _ _ _ _ _ =>
      guarded o ∧ o.(sn_open) = None ∧ telemetry.(tm_connection_ordinal) = N.of_nat (S (length o.(sn_attempts)))
  | PromoteAttempt telemetry _ _ | UpdateAttemptStatus telemetry _ | FailAttempt telemetry _ _ | CompleteAttempt telemetry _
  | MarkAttemptFinal telemetry => guarded o ∧ o.(sn_open) = Some telemetry
  | Execute attempt => guarded o ∧ may_execute attempt o
  | CancelAttempt ordinal | DrainBody ordinal => guarded o ∧ o.(sn_clear) = false ∧ ordinal = N.of_nat (length o.(sn_attempts))
  | Maintain _ | MaintainWithin _ _ => guarded o ∧ o.(sn_refreshes) = 0%nat
  | PrepareResponse _ => guarded o ∧ o.(sn_clear) = false
  | _ => guarded o
  end.

Definition allowed B (c : DispatchCall Num Uuid B) o : Prop := allowed_call c o.

Abbreviation holds := (safe seen_step allowed).

(** The state between two attempts, and during one. *)
Definition seen_at (lease : CredentialLease) (attempts : list TransportAttempt) (open : option (AttemptTelemetry Uuid)) (refreshes : nat)
    (clear : bool) : Seen Uuid :=
  {| sn_guard := Some {| lg_lease := Some lease; lg_release_delay := 0 |}; sn_lease := Some lease; sn_attempts := attempts;
     sn_open := open; sn_refreshes := refreshes; sn_clear := clear; sn_unreleased := None; sn_replaced := None |}.

Lemma seen_at_guarded lease attempts open refreshes clear : guarded (seen_at lease attempts open refreshes clear).
Proof. by eexists _, _. Qed.
#[local] Hint Resolve seen_at_guarded : core.

Lemma seen_at_settled lease attempts open refreshes clear : settled (seen_at lease attempts open refreshes clear).
Proof. apply guarded_settled. auto. Qed.
#[local] Hint Resolve seen_at_settled : core.

(** A block that observes nothing: it ends where it began, and may fail. *)
Definition quiet {A} (p : Fallible (DispatchCall Num Uuid) DispatchError A) : Prop :=
  ∀ o, guarded o → holds p o (λ _ o', o' = o).

Lemma quiet_bind {A B} (p : Fallible (DispatchCall Num Uuid) DispatchError A) (f : A → Fallible (DispatchCall Num Uuid) DispatchError B) :
  quiet p → (∀ a, quiet (f a)) → quiet (p ≫= f).
Proof. intros Hp Hf o Ho. eapply safe_block; [by apply Hp|intros a o' ->; by apply Hf|by intros e o' ->]. Qed.

Lemma quiet_ret {A} (a : A) : quiet (mret a).
Proof. by intros o Ho. Qed.

Lemma quiet_fail {A} e : quiet (fail e : Fallible (DispatchCall Num Uuid) DispatchError A).
Proof. by intros o Ho. Qed.

Lemma quiet_pure {A} (r : result DispatchError A) : quiet (pure r).
Proof. by intros o Ho. Qed.

Lemma quiet_if {A} (b : bool) (p q : Fallible (DispatchCall Num Uuid) DispatchError A) : quiet p → quiet q → quiet (if b then p else q).
Proof. by destruct b. Qed.

(** A call that observes nothing. *)
Definition unseen {B} (c : DispatchCall Num Uuid B) : Prop := (∀ b o, seen_call c b o = o) ∧ (∀ o, guarded o → allowed_call c o).

Lemma quiet_call {B} (c : DispatchCall Num Uuid B) : unseen c → quiet (call c).
Proof. intros [Hs Ha] o Ho. split; [by apply Ha|]. intros b. apply Hs. Qed.

Lemma quiet_call_ok {B} (c : DispatchCall Num Uuid (result DispatchError B)) : unseen c → quiet (call_ok c).
Proof. intros [Hs Ha] o Ho. split; [by apply Ha|]. intros b. apply Hs. Qed.

Lemma quiet_call_or e (c : DispatchCall Num Uuid bool) : unseen c → quiet (call_or e c).
Proof. intros [Hs Ha] o Ho. split; [by apply Ha|]. intros []; apply Hs. Qed.

Ltac quiet_step :=
  first
  [ apply quiet_bind; [|intros ?]
  | apply quiet_ret | apply quiet_fail | apply quiet_pure
  | apply quiet_call; by split
  | apply quiet_call_ok; by split
  | apply quiet_call_or; by split
  | apply quiet_if
  | progress cbv zeta
  | case_match ].

Ltac quiet_block := repeat quiet_step.

Abbreviation M := (Fallible (DispatchCall Num Uuid) DispatchError).

Lemma quiet_remaining s : quiet (remaining_upstream s).
Proof. unfold remaining_upstream. quiet_block. Qed.

Lemma quiet_remaining_deadline s : quiet (remaining_deadline s).
Proof. unfold remaining_deadline. apply quiet_bind; [apply quiet_remaining|]. intros. quiet_block. Qed.

Lemma quiet_capture_headers response ordinal headers : quiet (capture_attempt_headers response ordinal headers).
Proof. unfold capture_attempt_headers. quiet_block. Qed.

Lemma quiet_capture_final ordinal final_request : quiet (capture_final_request from_slice body_capture ordinal final_request).
Proof. unfold capture_final_request. apply quiet_if; [apply quiet_ret|]. apply quiet_bind; [apply quiet_capture_headers|]. intros. quiet_block. Qed.

Lemma quiet_persist_cooldown overload telemetry trusted : quiet (persist_cooldown overload telemetry trusted).
Proof. unfold persist_cooldown. quiet_block. Qed.

Lemma quiet_observe_cooldown lease cooldown : quiet (observe_cooldown lease cooldown).
Proof. unfold observe_cooldown. quiet_block. Qed.

Lemma quiet_draw_ids {A} (items : list A) : quiet (draw_ids items).
Proof. induction items as [|item items IH]; cbn [draw_ids]; [apply quiet_ret|]. quiet_step; [quiet_step|]. apply quiet_bind; [exact IH|]. intros. quiet_step. Qed.

Lemma quiet_quota credential_id headers now : quiet (observe_subscription_quota_headers sha256 parse_str credential_id headers now).
Proof.
  unfold observe_subscription_quota_headers. cbv zeta. apply quiet_if; [apply quiet_ret|]. destruct (parse_str _); [|apply quiet_ret].
  apply quiet_bind; [apply quiet_draw_ids|]. intros. quiet_block.
Qed.

Lemma quiet_rate_limit raw telemetry lease : quiet (rate_limit_cooldown raw telemetry lease).
Proof.
  unfold rate_limit_cooldown. apply quiet_if; [|apply quiet_ret]. apply quiet_bind; [apply quiet_persist_cooldown|]. intros.
  apply quiet_bind; [apply quiet_observe_cooldown|]. intros. apply quiet_ret.
Qed.

Lemma quiet_project_status raw rejection telemetry lease : quiet (project_status raw rejection telemetry lease).
Proof.
  unfold project_status. apply quiet_bind.
  - apply quiet_if; [|quiet_block]. apply quiet_bind; [apply quiet_persist_cooldown|]. intros. apply quiet_observe_cooldown.
  - intros. apply quiet_if; [|apply quiet_ret]. quiet_step; [quiet_step|]. apply quiet_if; [apply quiet_observe_cooldown|apply quiet_ret].
Qed.

(** ** The search for the next Credential *)

Definition refreshes_of s : nat := if s.(lo_refresh_attempted) then 1 else 0.

(** The owner has granted another Lease in the place of the one that the guard still holds. *)
Definition seen_replaced (old new : CredentialLease) (attempts : list TransportAttempt) (open : option (AttemptTelemetry Uuid)) (refreshes : nat)
    (clear : bool) : Seen Uuid := with_sn_replaced old new (seen_at old attempts open refreshes clear).

Lemma decide_switch_portable c : (decide_retry c).(rd_strategy) = Some SwitchCredential → is_portable c.(rx_portability) = true.
Proof.
  unfold decide_retry, denied. do 4 (case_match; [done|]). destruct (retry_strategy c) as [strategy|] eqn:E; [|done].
  cbn [rd_strategy]. intros [= ->]. apply retry_strategy_spec in E. inversion E; subst.
  all: match goal with Hc : can_switch _ |- _ => destruct Hc as [-> _]; done end.
Qed.

(** What is left when a search ends. *)
Definition search_post {A} (lease : CredentialLease) (attempts : list TransportAttempt) (open : option (AttemptTelemetry Uuid)) (refreshes : nat)
    (clear : bool) (found : A → option CredentialLease) (r : result DispatchError A) o : Prop :=
  match r with
  | Err _ => settled o
  | Ok a =>
      match found a with
      | Some replacement => o = seen_replaced lease replacement attempts open refreshes clear
      | None => o = seen_at lease attempts open refreshes clear
      end
  end.

(** A call or a check of a block whose failure leaves the guard as it is. *)
Ltac pass :=
  lazymatch goal with
  | |- safe _ _ (call _ ≫= _) _ _ => apply safe_call; [cbn; auto|intros ?; cbn [seen_step seen_call]]
  | |- safe _ _ (call_ok _ ≫= _) _ _ =>
      apply safe_call_ok; [cbn; auto|intros ?; cbn [seen_step seen_call]|intros; apply seen_at_settled]
  | |- safe _ _ (call_or _ _ ≫= _) _ _ => apply safe_call_or; [cbn; auto|cbn [seen_step seen_call]|apply seen_at_settled]
  | |- safe _ _ (pure _ ≫= _) _ _ => apply safe_pure; [intros ? ?|intros; apply seen_at_settled]
  end.

Lemma safe_ok {A B} (a : A) (f : A → M B) o (Q : result DispatchError B → Seen Uuid → Prop) : holds (f a) o Q → holds (pure (Ok a) ≫= f) o Q.
Proof. done. Qed.

Lemma safe_last {B} (c : DispatchCall Num Uuid B) o (Q : result DispatchError B → Seen Uuid → Prop) :
  allowed_call c o → (∀ b, Q (Ok b) (seen_call c b o)) → holds (call c) o Q.
Proof. by split. Qed.

Lemma replace_lease_holds lease target attempts open refreshes clear :
  match target with
  | Same expected => expected = lease.(cl_credential_id)
  | Alternate exclude => exclude = lease.(cl_credential_id) ∧ portable = true
  end →
  holds (replace_lease_call entry lease target : M _) (seen_at lease attempts open refreshes clear)
    (search_post lease attempts open refreshes clear id).
Proof.
  intros Ht. unfold replace_lease_call. apply safe_call; [cbn; auto|]. intros []; cbn [negb]; [|apply seen_at_settled]. pass. apply safe_call; [cbn; split_and!; [auto|done|done|exact Ht]|].
  intros answer. cbn [seen_step seen_call]. destruct answer as [decision|]; [|apply seen_at_settled]. apply safe_ok.
  set (o0 := seen_at lease attempts open refreshes clear). set (o := match decision with RetryGranted new => with_sn_replaced lease new o0 | _ => o0 end).
  assert (covered o ∨ orphaned o) as Ho.
  { unfold o, o0. destruct decision; [right; by eexists _, _, _|left; apply guarded_covered; auto..]. }
  apply safe_call; [exact Ho|]. intros []; cbn [negb].
  - unfold o, o0 in *. destruct decision; cbn; auto.
  - apply safe_call; [exact Ho|]. intros []. apply safe_call; [exact Ho|]. intros []. cbn [seen_step seen_call].
    apply (safe_block _ _ _ _ _ (λ _ o', (covered o' ∨ orphaned o') ∧ settled o')).
    + unfold o, o0 in *. destruct decision as [new| |]; [|split; [exact Ho|auto]..].
      apply safe_call; [split; [right; by eexists _, _, _|done]|]. intros []; cbn [seen_step seen_call]; apply safe_last.
      * left. by apply released_covered.
      * intros []. split; [left; by apply released_covered|left; by apply released_covered].
      * right. by eexists _, _, _.
      * intros []. split; [right; by eexists _, _, _|right; by split].
    + intros [] o' [Ho' Hs]. apply safe_call; [exact Ho'|]. intros flushed. apply safe_call; [exact Ho'|]. by intros [].
    + by intros e o' [_ Hs].
Qed.

Lemma find_replacement_holds context decision on_cancel s attempts open refreshes clear :
  (decision.(rd_strategy) = Some SwitchCredential → portable = true) →
  (holds on_cancel (seen_at s.(lo_lease) attempts open refreshes clear) (λ _ o, settled o)) →
  holds (find_replacement entry context decision on_cancel s : M _) (seen_at s.(lo_lease) attempts open refreshes clear)
    (search_post s.(lo_lease) attempts open refreshes clear fst).
Proof.
  intros Hport Hcancel. unfold find_replacement.
  assert (∀ decision', holds ((_ ← (if negb (decision'.(rd_backoff) =? 0) then
             cancelled ← call (SleepOrCancelled decision'.(rd_backoff)); if cancelled : bool then (_ ← on_cancel; fail Dispatch_Cancelled) else mret tt
           else mret tt);
      replacement ← replace_lease_call entry s.(lo_lease) (Same s.(lo_lease).(cl_credential_id));
      mret (replacement, decision')) : M (option CredentialLease * RetryDecision)) (seen_at s.(lo_lease) attempts open refreshes clear)
      (search_post s.(lo_lease) attempts open refreshes clear fst)) as Hsame.
  { intros decision'. eapply (safe_block _ _ _ _ _ (λ r o, match r with Ok _ => o = seen_at s.(lo_lease) attempts open refreshes clear | Err _ => settled o end)).
    - destruct (negb (rd_backoff decision' =? 0)); [|done]. apply safe_call; [cbn; auto|]. intros []; [|done].
      eapply safe_block; [exact Hcancel|by intros|by intros].
    - intros [] o ->. eapply safe_block; [by apply replace_lease_holds| |by intros]. intros [replacement|] o Ho; exact Ho.
    - by intros. }
  eapply safe_block.
  - instantiate (1 := search_post s.(lo_lease) attempts open refreshes clear id).
    destruct (rd_strategy decision) as [[]|] eqn:Es; try done. apply replace_lease_holds. auto.
  - intros [replacement|] o Ho; cbn [id is_some negb andb].
    + exact Ho.
    + cbn in Ho. subst o. cbv zeta. destruct (bool_decide (rd_strategy _ = Some SameCredential)); [apply Hsame|done].
  - by intros.
Qed.


(** ** The end of an attempt *)

(** After an attempt: the loop goes on with nothing open and nothing to be read, or it ends with the response of this attempt. *)
Definition turn_post (budget : ConnectionAttemptBudget) (attempts : list TransportAttempt) telemetry (r : result DispatchError (Turn (Uuid := Uuid))) o : Prop :=
  match r with
  | Err _ => settled o
  | Ok (Continue s) => o = seen_at s.(lo_lease) attempts None (refreshes_of s) true ∧ s.(lo_budget) = budget
  | Ok (Break _ telemetry' _ s) =>
      o = seen_at s.(lo_lease) attempts (Some telemetry) (refreshes_of s) false ∧ telemetry' = telemetry ∧ s.(lo_budget) = budget
  end.

Lemma closing_holds {A} (p : M unit) lease attempts telemetry refreshes clear e (Q : result DispatchError A → Seen Uuid → Prop) :
  (∀ r o, settled o → Q (Err r) o) →
  holds p (seen_at lease attempts (Some telemetry) refreshes clear) (λ _ o, settled o) →
  holds (_ ← p; fail e) (seen_at lease attempts (Some telemetry) refreshes clear) Q.
Proof. intros HQ Hp. eapply safe_block; [exact Hp|intros [] o Ho; by apply HQ|intros e' o Ho; by apply HQ]. Qed.

Lemma mark_final_holds lease attempts telemetry refreshes clear :
  holds (mark_attempt_final telemetry : M _) (seen_at lease attempts (Some telemetry) refreshes clear) (λ _ o, settled o).
Proof. split; [cbn; auto|]. intros []; [|apply seen_at_settled]. apply guarded_settled. by eexists _, _. Qed.

Lemma fail_attempt_holds lease attempts telemetry refreshes clear n final :
  holds (fail_attempt_telemetry telemetry n final : M _) (seen_at lease attempts (Some telemetry) refreshes clear)
    (λ r o, match r with Ok _ => o = seen_at lease attempts None refreshes clear | Err _ => settled o end).
Proof. split; [cbn; auto|]. intros []; cbn; [done|auto]. Qed.

Lemma fail_attempt_guarded lease attempts telemetry refreshes clear n final :
  holds (fail_attempt_telemetry telemetry n final : M _) (seen_at lease attempts (Some telemetry) refreshes clear) (λ _ o, settled o).
Proof. eapply safe_mono; [apply fail_attempt_holds|]. intros [[]|e] o Ho; [subst o; auto|exact Ho]. Qed.

(** The replaced Lease goes to the guard, and the record of the attempt is closed. *)
Lemma adopt_holds {A} (p : M unit) (a : A) lease replacement attempts telemetry refreshes clear (Q : result DispatchError A → Seen Uuid → Prop) :
  (∀ e o, settled o → Q (Err e) o) →
  holds p (seen_at replacement attempts (Some telemetry) refreshes clear)
    (λ r o, match r with Ok _ => o = seen_at replacement attempts None refreshes clear | Err _ => settled o end) →
  Q (Ok a) (seen_at replacement attempts None refreshes clear) →
  holds (_ ← guard_replace replacement; _ ← p; mret a) (seen_replaced lease replacement attempts (Some telemetry) refreshes clear) Q.
Proof.
  intros HQ Hp Ha. apply safe_call; [done|]. intros []. cbn [seen_step seen_call]. eapply safe_block; [exact Hp| |by intros; apply HQ].
  intros [] o ->. exact Ha.
Qed.

Lemma complete_holds lease attempts telemetry refreshes clear decision :
  holds (complete_attempt_for_retry telemetry decision : M _) (seen_at lease attempts (Some telemetry) refreshes clear)
    (λ r o, match r with Ok _ => o = seen_at lease attempts None refreshes clear | Err _ => settled o end).
Proof. split; [cbn; auto|]. intros []; cbn; [done|auto]. Qed.

Lemma discard_holds ordinal lease attempts open refreshes : ordinal = N.of_nat (length attempts) →
  holds (discard_raw_response ordinal : M bool) (seen_at lease attempts open refreshes false)
    (λ r o, match r with Ok drained => o = seen_at lease attempts open refreshes drained | Err _ => False end).
Proof. intros Ho. apply safe_call; [cbn; auto|]. intros []. split; [cbn; auto|]. by intros []. Qed.

(** A drained response: the attempt may be retried; otherwise the request fails. *)
Lemma discard_or_fail {A} ordinal lease attempts telemetry refreshes (k : M A) (Q : result DispatchError A → Seen Uuid → Prop) :
  ordinal = N.of_nat (length attempts) → (∀ e o, settled o → Q (Err e) o) →
  holds k (seen_at lease attempts (Some telemetry) refreshes true) Q →
  holds (discarded ← discard_raw_response ordinal; if negb discarded then (_ ← mark_attempt_final telemetry; fail Unavailable) else k)
    (seen_at lease attempts (Some telemetry) refreshes false) Q.
Proof.
  intros Ho HQ Hk. eapply safe_block; [by apply discard_holds| |by intros]. intros [] o ->; [exact Hk|].
  apply closing_holds; [exact HQ|apply mark_final_holds].
Qed.

Lemma retry_status_holds raw error_class telemetry sink ordinal retry_after s attempts :
  ordinal = N.of_nat (length attempts) →
  holds (retry_status sha256 as_bytes request request_uuid request_limits entry raw error_class telemetry sink ordinal retry_after s : M _)
    (seen_at s.(lo_lease) attempts (Some telemetry) (refreshes_of s) false) (turn_post s.(lo_budget) attempts telemetry).
Proof.
  intros Ho. unfold retry_status. cbv zeta. eapply safe_block; [apply quiet_remaining_deadline; auto| |intros e o ->; apply seen_at_settled].
  intros remaining o ->. destruct (negb (rd_allowed _)); [done|]. apply discard_or_fail; [done|by intros|].
  eapply safe_block.
  - apply find_replacement_holds; [|apply seen_at_settled]. intros Es%decide_switch_portable. exact Es.
  - intros [[replacement|] decision] o Hpost; cbn [search_post fst] in Hpost; subst o.
    + apply adopt_holds; [by intros|apply complete_holds|done].
    + apply closing_holds; [by intros|apply mark_final_holds].
  - by intros.
Qed.

Lemma refresh_replay_holds raw telemetry sink ordinal s attempts :
  ordinal = N.of_nat (length attempts) →
  holds (refresh_replay entry maintainer raw telemetry sink ordinal s : M _)
    (seen_at s.(lo_lease) attempts (Some telemetry) (refreshes_of s) false)
    (λ r o, match r with
            | Err _ => settled o
            | Ok (Some turn, _) => turn_post s.(lo_budget) attempts telemetry (Ok turn) o
            | Ok (None, s') => o = seen_at s'.(lo_lease) attempts (Some telemetry) (refreshes_of s') false ∧ s'.(lo_budget) = s.(lo_budget)
            end).
Proof.
  intros Ho. unfold refresh_replay. destruct (_ && _ && _) eqn:Eg; [|done]. apply andb_true_iff in Eg as [[_ Hr%negb_true_iff]%andb_true_iff _].
  destruct (negb maintainer); [done|]. cbv zeta. assert (refreshes_of s = 0%nat) as Hn by (unfold refreshes_of; by rewrite Hr). rewrite Hn.
  eapply safe_block.
  - instantiate (1 := λ r o, match r with Ok _ => o = seen_at s.(lo_lease) attempts (Some telemetry) 1 false | Err _ => settled o end).
    cbn [lo_upstream_total_deadline with_lo_refreshed]. destruct (lo_upstream_total_deadline s) as [deadline|].
    + apply safe_call; [cbn; auto|]. intros now. apply safe_call; [cbn; auto|]. intros [outcome|]; [done|]. cbn [seen_step seen_call].
      eapply safe_block; [by apply (discard_holds ordinal s.(lo_lease) attempts (Some telemetry) 1)| |by intros]. intros drained o ->.
      apply closing_holds; [by intros|apply mark_final_holds].
    + split; [cbn; auto|]. by intros outcome.
  - intros [token_version|error] o ->.
    + apply safe_call_ok; [cbn; auto| |intros; apply seen_at_settled]. intros []. cbn [seen_step seen_call].
      apply discard_or_fail; [done|by intros|]. eapply safe_block; [by apply replace_lease_holds| |by intros].
      intros [replacement|] o Hpost; cbn [search_post id] in Hpost; subst o.
      * apply adopt_holds; [by intros|apply complete_holds|done].
      * apply closing_holds; [by intros|apply mark_final_holds].
    + eapply (safe_block _ _ _ _ _ (λ r o, o = seen_at s.(lo_lease) attempts (Some telemetry) 1 false)).
      * destruct (auth_is_lost error); [|done]. split; [cbn; auto|]. by intros.
      * intros [] o ->. by split.
      * intros e o ->. apply seen_at_settled.
  - by intros.
Qed.


(** ** One attempt *)

Lemma create_telemetry_holds lease selected engine generation ordinal messages reason attempts refreshes clear :
  ordinal = N.of_nat (S (length attempts)) →
  holds (create_attempt_telemetry sha256 parse_str request request_uuid lease selected engine generation ordinal messages reason : M _)
    (seen_at lease attempts None refreshes clear)
    (λ r o, match r with
            | Ok telemetry => o = seen_at lease attempts (Some telemetry) refreshes clear ∧ telemetry.(tm_connection_ordinal) = ordinal
            | Err _ => settled o
            end).
Proof.
  intros Ho. unfold create_attempt_telemetry. do 11 pass. cbv zeta. do 2 pass. apply safe_call_or; [cbn; auto| |apply seen_at_settled]. by split.
Qed.

Lemma prepare_holds s attempts :
  (length attempts < 3)%nat → s.(lo_budget).(cab_attempts) = N.of_nat (S (length attempts)) →
  holds (prepare_attempt from_slice from_str sha256 hmac_sha256 parse_str from_bytes uuid_to_string uuid_simple request request_uuid request_limits
      body_capture s : M _) (seen_at s.(lo_lease) attempts None (refreshes_of s) true)
    (λ r o, match r with
            | Ok (attempt, telemetry, _) => o = seen_at s.(lo_lease) attempts (Some telemetry) (refreshes_of s) true ∧ may_execute attempt o
            | Err _ => settled o
            end).
Proof.
  intros Hlt Hb. unfold prepare_attempt. eapply safe_block; [apply quiet_remaining; auto| |intros e o ->; apply seen_at_settled].
  intros remaining o ->. destruct (negb _ && _) eqn:Er; [apply seen_at_settled|]. cbv zeta.
  apply safe_pure; [|intros; apply seen_at_settled]. intros profile Hprofile%ok_or_Ok. do 2 pass.
  apply safe_pure; [|intros; apply seen_at_settled]. intros engine Hengine%ok_or_Ok. do 4 pass.
  eapply safe_block; [apply quiet_capture_final; auto| |intros e o ->; apply seen_at_settled]. intros [] o ->. pass.
  eapply safe_block; [by apply create_telemetry_holds| |by intros]. intros telemetry o [-> Ht]. do 3 pass.
  split; [done|]. apply find_exact_Some in Hengine as [_ Hexact].
  split; cbn [sn_attempts sn_clear sn_open sn_lease seen_at at_ordinal at_snapshot as_identity at_engine].
  - done.
  - done.
  - done.
  - by eexists.
  - by eexists _, _, _.
  - split; cbn [as_deadlines ad_connect ad_upstream_total at_snapshot].
    + destruct remaining; lia.
    + intros Hs. unfold is_stream in Er. rewrite Hs in Er. destruct remaining as [remaining|]; [right|by left]. cbn in Er |- *. by apply N.ltb_ge in Er.
Qed.

Lemma promote_holds telemetry n status lease attempts refreshes clear :
  holds (promote_attempt_telemetry telemetry n status : M _) (seen_at lease attempts (Some telemetry) refreshes clear)
    (λ _ o, o = seen_at lease attempts (Some telemetry) refreshes clear).
Proof.
  unfold promote_attempt_telemetry. apply safe_pure; [intros bytes _|done]. destruct (_ <=? _)%Z; [done|]. split; [cbn; auto|]. by intros [].
Qed.

Lemma handle_response_holds raw telemetry sink promoted ordinal s attempts :
  ordinal = N.of_nat (length attempts) →
  holds (handle_response from_slice sha256 parse_str as_bytes request request_uuid request_limits entry body_capture maintainer
      raw telemetry sink promoted ordinal s : M _)
    (seen_at s.(lo_lease) attempts (Some telemetry) (refreshes_of s) false) (turn_post s.(lo_budget) attempts telemetry).
Proof.
  intros Ho. unfold handle_response. cbv zeta. eapply safe_block.
  { instantiate (1 := λ _ o, o = seen_at s.(lo_lease) attempts (Some telemetry) (refreshes_of s) false). destruct (bo_enabled body_capture); [|done].
    eapply safe_block; [apply quiet_capture_headers; auto|by intros b o ->|by intros e o ->]. }
  2: { intros e o ->. apply seen_at_settled. }
  intros [] o ->. pass. destruct (classify_and_replay_response _ _) as [[raw' rejected] preview].
  destruct (_ =? 0). { apply closing_holds; [by intros|apply fail_attempt_guarded]. }
  eapply safe_block.
  { instantiate (1 := λ r o, o = seen_at s.(lo_lease) attempts (Some telemetry) (refreshes_of s) false ∧
      match r with Ok s' => s'.(lo_lease) = s.(lo_lease) ∧ s'.(lo_budget) = s.(lo_budget) ∧ refreshes_of s' = refreshes_of s | Err _ => True end).
    destruct promoted.
    - apply safe_call_or; [cbn; auto|by split|by split].
    - eapply safe_block; [apply promote_holds|by intros [] o ->|by intros e o ->]. }
  2: { intros e o [-> _]. apply seen_at_settled. }
  intros s' o [-> (El & Eb & En)]. rewrite <- El, <- Eb, <- En. eapply safe_block.
  { instantiate (1 := λ _ o, o = seen_at s'.(lo_lease) attempts (Some telemetry) (refreshes_of s') false). destruct rejected; [|done].
    split; [cbn; auto|]. by intros []. }
  2: { intros e o ->. apply seen_at_settled. }
  intros [] o ->. pass. eapply safe_block; [apply quiet_quota; auto| |intros e o ->; apply seen_at_settled]. intros [] o ->.
  eapply safe_block; [apply quiet_rate_limit; auto| |intros e o ->; apply seen_at_settled]. intros retry_after o ->.
  eapply safe_block; [apply quiet_project_status; auto| |intros e o ->; apply seen_at_settled]. intros [] o ->.
  eapply safe_block; [by apply refresh_replay_holds| |by intros]. intros [[turn|] s''] o; [by intros Ht|].
  intros [-> Eb']. rewrite <- Eb'. destruct (retry_error_class_for_status _); [|done]. by apply retry_status_holds.
Qed.

Lemma handle_error_holds error telemetry sink promoted proxy ordinal s attempts :
  holds (handle_error sha256 as_bytes request request_uuid request_limits entry error telemetry sink promoted proxy ordinal s : M _)
    (seen_at s.(lo_lease) attempts (Some telemetry) (refreshes_of s) true) (turn_post s.(lo_budget) attempts telemetry).
Proof.
  unfold handle_error. pass. cbv zeta. destruct (0 <? _).
  - eapply safe_block.
    { instantiate (1 := λ r o, o = seen_at s.(lo_lease) attempts (Some telemetry) (refreshes_of s) true ∧
        match r with Ok s' => s'.(lo_lease) = s.(lo_lease) ∧ s'.(lo_budget) = s.(lo_budget) ∧ refreshes_of s' = refreshes_of s | Err _ => True end).
      destruct promoted; [done|]. eapply safe_block; [apply promote_holds|by intros [] o ->|by intros e o ->]. }
    2: { intros e o [-> _]. apply seen_at_settled. }
    intros s' o [-> (El & Eb & En)]. rewrite <- El, <- Eb, <- En. unfold handle_submitted_error. cbv zeta.
    destruct (bool_decide _); [|apply closing_holds; [by intros|apply fail_attempt_guarded]].
    eapply safe_block; [apply quiet_remaining_deadline; auto| |intros e o ->; apply seen_at_settled]. intros remaining o ->.
    eapply safe_block.
    + apply find_replacement_holds; [|apply fail_attempt_guarded]. intros Es%decide_switch_portable. exact Es.
    + intros [[replacement|] decision] o Hpost; cbn [search_post fst] in Hpost; subst o.
      * apply adopt_holds; [by intros|apply fail_attempt_holds|done].
      * apply closing_holds; [by intros|apply fail_attempt_guarded].
    + by intros.
  - unfold handle_unsubmitted_error. eapply safe_block; [apply fail_attempt_holds| |by intros]. intros [] o ->.
    destruct (_ || _); [apply seen_at_settled|]. cbv zeta. eapply safe_block; [by apply replace_lease_holds| |by intros].
    intros same o Hsame. eapply safe_block.
    { instantiate (1 := search_post s.(lo_lease) attempts None (refreshes_of s) true id). destruct same as [same|]; [exact Hsame|].
      cbn [search_post id] in Hsame. subst o. destruct (is_portable _) eqn:Ep; [|done]. by apply replace_lease_holds. }
    2: { by intros. }
    intros [replacement|] o' Hpost; cbn [search_post id] in Hpost; subst o'; [|apply seen_at_settled].
    apply safe_call; [done|]. by intros [].
Qed.


(** ** The loop *)

(** What holds before each turn: one attempt has been made for each unit of the budget, in order. *)
Record turn_ready s (attempts : list TransportAttempt) : Prop := {
  tr_budget : s.(lo_budget).(cab_attempts) = N.of_nat (length attempts);
  tr_few : (length attempts <= 3)%nat;
}.

Lemma attempt_turn_holds s attempts : turn_ready s attempts →
  holds (attempt_turn from_slice from_str sha256 hmac_sha256 parse_str from_bytes as_bytes uuid_to_string uuid_simple request request_uuid
      request_limits entry body_capture maintainer s : M _)
    (seen_at s.(lo_lease) attempts None (refreshes_of s) true)
    (λ r o, match r with
            | Err _ => settled o
            | Ok _ => ∃ attempt telemetry budget, turn_post budget (attempts ++ [attempt]) telemetry r o ∧
                budget.(cab_attempts) = N.of_nat (S (length attempts)) ∧ (length attempts < 3)%nat
            end).
Proof.
  intros [Hb Hfew]. unfold attempt_turn, budget_begin. destruct (3 <=? _) eqn:E3; [apply seen_at_settled|]. apply N.leb_gt in E3. cbn [negb]. cbv zeta.
  set (s1 := with_lo_budget _ s). assert (s1.(lo_budget).(cab_attempts) = N.of_nat (S (length attempts))) as Hb1 by (cbn; lia).
  assert (length attempts < 3)%nat as Hlt by lia.
  change (seen_at (lo_lease s) attempts None (refreshes_of s) true) with (seen_at (lo_lease s1) attempts None (refreshes_of s1) true).
  eapply safe_block; [by apply prepare_holds| |by intros]. intros [[attempt telemetry] proxy] o [-> Hmay].
  unfold execute_attempt. apply safe_mbind. apply safe_call; [split; [auto|exact Hmay]|]. intros execution. cbn [seen_step seen_call].
  set (ordinal := cab_attempts _). assert (ordinal = N.of_nat (length (attempts ++ [attempt]))) as Hord by (rewrite length_app; cbn; unfold ordinal; cbn; lia).
  set (o1 := {| sn_guard := _ |}).
  assert (o1 = seen_at (lo_lease s1) (attempts ++ [attempt]) (Some telemetry) (refreshes_of s1) (negb (is_ok (xe_result execution)))) as -> by done.
  assert (∀ sink promoted s2, lo_lease s2 = lo_lease s1 → lo_budget s2 = lo_budget s1 → refreshes_of s2 = refreshes_of s1 →
    holds (match xe_result execution with
           | Ok raw => handle_response from_slice sha256 parse_str as_bytes request request_uuid request_limits entry body_capture maintainer
               raw telemetry sink promoted ordinal s2
           | Err error => handle_error sha256 as_bytes request request_uuid request_limits entry error telemetry sink promoted proxy ordinal s2
           end : M _)
      (seen_at (lo_lease s1) (attempts ++ [attempt]) (Some telemetry) (refreshes_of s1) (negb (is_ok (xe_result execution))))
      (λ r o, match r with
              | Err _ => settled o
              | Ok _ => ∃ attempt telemetry budget, turn_post budget (attempts ++ [attempt]) telemetry r o ∧
                  budget.(cab_attempts) = N.of_nat (S (length attempts)) ∧ (length attempts < 3)%nat
              end)) as Hhandle.
  { intros sink promoted s2 El Eb En. rewrite <- El, <- En. destruct (xe_result execution) as [raw|error]; cbn [is_ok negb].
    - eapply safe_mono; [by apply handle_response_holds|]. intros [turn|e] o Ho; [|exact Ho]. exists attempt, telemetry, (lo_budget s2). by rewrite Eb in *.
    - eapply safe_mono; [apply handle_error_holds|]. intros [turn|e] o Ho; [|exact Ho]. exists attempt, telemetry, (lo_budget s2). by rewrite Eb in *. }
  destruct (poll_loop _ _) as [seen sink].
  assert (∀ sink' s2, lo_lease (first_byte_deadline request request_limits sink' s2) = lo_lease s2 ∧
    lo_budget (first_byte_deadline request request_limits sink' s2) = lo_budget s2 ∧
    refreshes_of (first_byte_deadline request request_limits sink' s2) = refreshes_of s2) as Hfb.
  { intros sink' s2. unfold first_byte_deadline. repeat case_match; done. }
  destruct seen as [first_byte|].
  - eapply safe_block; [apply promote_holds| |intros e o ->; apply seen_at_settled]. intros [] o ->. cbv zeta. apply Hhandle.
    all: destruct (Hfb sink (first_byte_deadline request request_limits first_byte (count_message s1))) as (E1 & E2 & E3').
    all: destruct (Hfb first_byte (count_message s1)) as (E4 & E5 & E6); by rewrite ?E1, ?E2, ?E3', ?E4, ?E5, ?E6.
  - apply Hhandle; apply Hfb.
Qed.

Definition exit_post (r : result DispatchError (option (RawUpstreamResponse * AttemptTelemetry Uuid * AttemptSink * LoopState))) o : Prop :=
  match r with
  | Err _ => settled o
  | Ok None => False
  | Ok (Some (_, telemetry, _, s)) => ∃ attempts refreshes, o = seen_at s.(lo_lease) attempts (Some telemetry) refreshes false
  end.

Lemma attempt_loop_holds fuel s attempts : turn_ready s attempts → (3 < length attempts + fuel)%nat →
  holds (attempt_loop from_slice from_str sha256 hmac_sha256 parse_str from_bytes as_bytes uuid_to_string uuid_simple request request_uuid
      request_limits entry body_capture maintainer fuel s : M _)
    (seen_at s.(lo_lease) attempts None (refreshes_of s) true) exit_post.
Proof.
  revert s attempts. induction fuel as [|fuel IH]; intros s attempts Hready Hfuel; [destruct Hready; lia|]. cbn [attempt_loop].
  eapply safe_block; [by apply attempt_turn_holds| |by intros]. intros turn o (attempt & telemetry & budget & Hpost & Hb & Hlt).
  destruct turn as [s'|raw telemetry' sink s']; cbn [turn_post] in Hpost.
  - destruct Hpost as [-> Eb]. apply IH; [split|]; rewrite ?Eb, length_app; cbn; lia.
  - destruct Hpost as (-> & -> & _). by eexists _, _.
Qed.

(** What is promised at the end: a response has its Lease in its completion, or the Lease is released; a failure leaves it to the guard. *)
Definition dispatch_post (lease : CredentialLease) (r : result DispatchError (option (UpstreamResponse (Uuid := Uuid)))) o : Prop :=
  match r with
  | Ok None => False
  | Ok (Some response) =>
      guard_drop o.(sn_guard) = None ∧ response.(ur_completion).(rc_lease) = o.(sn_lease) ∧
      (o.(sn_lease) = None ↔ response.(ur_prepared).(pc_mode) = NonStreaming) ∧ o.(sn_clear) = false ∧
      ∃ telemetry, o.(sn_open) = Some telemetry ∧ telemetry.(tm_attempt_id) = response.(ur_completion).(rc_attempt_id)
  | Err _ => settled o ∨ o = granted_only lease
  end.

Lemma finish_holds model_id raw telemetry sink lease attempts refreshes :
  holds (finish_response sha256 request request_limits model_id raw telemetry sink lease : M _)
    (seen_at lease attempts (Some telemetry) refreshes false)
    (λ r o, match r with Err _ => settled o | Ok response => dispatch_post lease (Ok (Some response)) o end).
Proof.
  unfold finish_response. cbv zeta. apply safe_call; [done|]. intros []. cbn [seen_step seen_call].
  set (o1 := {| sn_guard := _ |}). assert (guarded o1) as Hg by (by eexists _, _). pose proof (guarded_settled o1 Hg) as Hset.
  assert (∀ A (e : DispatchError) o (Q : result DispatchError A → Seen Uuid → Prop), Q (Err e) o →
    holds ((_ ← call CancelRequest; fail e) : M A) o Q) as Hcancel.
  { intros A e o Q HQ. apply safe_call; [done|]. by intros []. }
  apply safe_call; [cbn; auto|]. intros answer. cbn [seen_step seen_call].
  eapply (safe_block _ _ _ _ _ (λ _ o, o = o1)); [destruct answer as [response|error]; [done|by apply Hcancel]| |by intros e o ->].
  intros response o ->. apply safe_call; [cbn; auto|]. intros delivery_id. cbn [seen_step seen_call].
  apply safe_call; [cbn; auto|]. intros started. cbn [seen_step seen_call]. destruct started; cbn [negb]; [|by apply Hcancel].
  destruct (pc_mode response) eqn:Em; cbn [is_streaming].
  - apply safe_ret. apply safe_call; [done|]. intros []. cbn. split_and!; try done; [by rewrite Em|by exists telemetry].
  - apply safe_mbind. set (o2 := with_sn_lease None o1). assert (covered o2) as Ho2 by by apply released_covered.
    eapply (safe_block _ _ _ _ _ (λ r o, match r with Ok true => o = o2 | Ok false => settled o | Err _ => False end)).
    + unfold release_lease_only. apply safe_call; [split; [by left|done]|]. intros []; cbn [negb seen_step seen_call]; [|apply guarded_settled; by eexists _, _].
      apply safe_call; [by left|]. intros []; cbn [negb seen_step seen_call]; [|by left]. apply safe_call; [by left|]. by intros [].
    + intros [] o Ho; [|by apply Hcancel]. subst o. apply safe_call; [done|]. intros []. cbn. split_and!; try done; by exists telemetry.
    + done.
Qed.

Lemma dispatch_holds lease phase :
  holds (dispatch_after_lease from_slice from_str sha256 hmac_sha256 parse_str from_bytes as_bytes uuid_to_string uuid_simple request request_uuid
      request_limits entry body_capture maintainer lease phase : M _)
    (granted_only lease) (dispatch_post lease).
Proof.
  unfold dispatch_after_lease. apply safe_call; [done|]. intros answer. cbn [seen_step seen_call].
  apply safe_pure; [intros resolved _|by right]. apply safe_pure; [intros model_id _|by right].
  apply safe_call; [done|]. intros []. cbn [seen_step seen_call].
  set (o1 := {| sn_guard := _ |}). assert (o1 = seen_at lease [] None (refreshes_of (initial_loop_state lease)) true) as -> by done.
  apply safe_call_or; [cbn; auto| |left; apply seen_at_settled]. cbn [seen_step seen_call].
  eapply safe_block; [apply (attempt_loop_holds _ (initial_loop_state lease) []); [split; cbn; lia|unfold ATTEMPT_FUEL; cbn; lia]| |intros e o Ho; by left].
  intros [[[[raw telemetry] sink] s]|] o; cbn [exit_post]; [|done]. intros (attempts & refreshes & ->).
  eapply safe_block; [apply finish_holds| |intros e o Ho; by left]. intros response o Ho. exact Ho.
Qed.

(** ** Properties *)

(** Whether the future waits for the answer of a call, and may so be dropped there. *)
Definition waits {B} (c : DispatchCall Num Uuid B) : bool :=
  match c with Guard _ | CancelRequest | OwnerValid | InvalidateOwner => false | _ => true end.

(** The calls of the owner of the Group by which a Lease is replaced or released, and what records them. *)
Definition owner_call {B} (c : DispatchCall Num Uuid B) : bool :=
  match c with OwnerReplace _ _ _ | OwnerRelease _ | OwnerComplete _ | FlushResourceEvents | BeginDrain | RouteResolutions => true | _ => false end.

Definition first_call (event : Event (DispatchCall Num Uuid)) : bool := match event with Ev (ResolveModelId _) _ => true | _ => false end.

(** Surroundings in which nothing works. *)
Definition failing_answer B (c : DispatchCall Num Uuid B) : B :=
  match c in DispatchCall _ _ B return B with
  | ResolveModelId _ => None
  | AdvanceRequestPhase _ _ | RecordRequestReasoning _ | BeginHeaderAttempt _ | CaptureUpstreamHeaders _ _ | CaptureFinalRequestBody _
  | MarkBodyDigestMismatch | RecordUpstreamBodyDigest _ | ArmSubmissionIntent _ | InsertConnectionAttempt _ _ _ _ _ _ | PromoteAttempt _ _ _
  | UpdateAttemptStatus _ _ | FailAttempt _ _ _ | CompleteAttempt _ _ | MarkAttemptFinal _ | ClearCooldown _ | StartResponseDelivery _ _ _ _
  | DrainBody _ | SleepOrCancelled _ | OwnerValid | OwnerRelease _ | FlushResourceEvents => false
  | OwnerReplace _ _ _ => None
  | LockCoordination | OwnerComplete _ | InvalidateOwner | BeginDrain | RouteResolutions => tt
  | LoadSelectedCredential _ | ProjectTransportHealth _ _ _ | ObserveCooldown _ | ObserveAuth _ => Err Unavailable
  | RecordThirdPartyRejection _ _ | ObserveQuota _ | FenceCredential _ _ | CancelAttempt _ | CancelRequest | Guard _ => tt
  | PersistQuota _ _ | PersistCooldown _ _ _ | PersistAccountRejection _ _ _ | MaintainWithin _ _ => None
  | Maintain _ => Err Service_Transient
  | EnginesSnapshot => empty_for_local INITIAL
  | Execute _ => {| xe_polls := []; xe_result := Err (engine_unavailable "unavailable") |}
  | PrepareResponse _ => Err SpillIo
  | PreviewPatience => 0%nat
  | NowInstant | ClockNow | UnixMillis => 0
  | NowV7 | NewV4 => request_uuid
  end.

Abbreviation dispatch := (dispatch_after_lease from_slice from_str sha256 hmac_sha256 parse_str from_bytes as_bytes uuid_to_string uuid_simple
  request request_uuid request_limits entry body_capture maintainer).

(** What the observer has seen before the [i]-th call, and at the end. *)
Definition seen_before (lease : CredentialLease) (events : list (Event (DispatchCall Num Uuid))) (i : nat) : Seen Uuid :=
  observe seen_step (take i events) (granted_only lease).

Definition seen_after (lease : CredentialLease) (events : list (Event (DispatchCall Num Uuid))) : Seen Uuid :=
  observe seen_step events (granted_only lease).

(** C19: the guard keeps the Lease of a request. In every run, wherever the future waits after the guard exists, except for the owner of the Group while it replaces or
    releases the Lease, dropping it releases exactly the Lease that the scheduler then counts for the request. While it waits for the owner, or for the record of what the
    owner did, each counted Lease is still the guard's, or the owner has granted a replacement and the guard holds the Lease that it replaced: a future dropped there
    loses the replacement. A failure leaves every counted Lease to the guard, short of a replacement that the owner failed to release; and a response leaves nothing to
    the guard: it is streamed and its completion holds the Lease, or it is not and the Lease was released. The look-up of the model comes before the
    guard: a run in which that fails ends with the Lease still counted and nobody to release it. *)
Theorem lease_kept_by_guard lease phase :
  (∀ oracle, let '(events, r) := run oracle (dispatch lease phase) [] in
    (∀ i B (c : DispatchCall Num Uuid B) b, events !! i = Some (Ev c b) → waits c = true → first_call (Ev c b) = false →
      if owner_call c then covered (seen_before lease events i) ∨ orphaned (seen_before lease events i)
      else ∃ held delay, guard_drop (seen_before lease events i).(sn_guard) = Some (held, delay) ∧ (seen_before lease events i).(sn_lease) = Some held) ∧
    match r with
    | Ok (Some response) =>
        guard_drop (seen_after lease events).(sn_guard) = None ∧
        response.(ur_completion).(rc_lease) = (seen_after lease events).(sn_lease) ∧
        ((seen_after lease events).(sn_lease) = None ↔ response.(ur_prepared).(pc_mode) = NonStreaming)
    | Ok None => False
    | Err _ => settled (seen_after lease events) ∨ seen_after lease events = granted_only lease
    end) ∧
  (∃ oracle, let '(events, r) := run oracle (dispatch lease phase) [] in
    r = Err Unavailable ∧ (seen_after lease events).(sn_lease) = Some lease ∧ guard_drop (seen_after lease events).(sn_guard) = None).
Proof.
  assert (∀ o, guarded o → ∃ held delay, guard_drop o.(sn_guard) = Some (held, delay) ∧ o.(sn_lease) = Some held) as Hg.
  { intros o (held & delay & Hgu & Hl). exists held, delay. by rewrite Hgu. }
  split.
  - intros oracle. pose proof (run_safe seen_step allowed oracle _ _ _ [] (dispatch_holds lease phase)) as Hrun.
    destruct (run oracle _ []) as [events r]. destruct Hrun as (Hpost & _ & Hall). split.
    + intros i B c b Hi Hw Hf. specialize (Hall i (Ev c b) ltac:(cbn; lia) Hi). fold (seen_before lease events i) in Hall.
      destruct c; cbn in Hw, Hf; try done; cbn [owner_call allowed_event allowed allowed_call] in Hall |- *;
        first [exact Hall | apply Hg; exact Hall | apply Hg; by destruct Hall | left; apply guarded_covered; by destruct Hall
              | destruct Hall as [[Hall|Hall] _]; [left; by apply guarded_covered|by right]].
    + change (observe seen_step events (granted_only lease)) with (seen_after lease events) in Hpost.
      destruct r as [[response|]|e]; cbn [dispatch_post] in Hpost; [|done|].
      * by destruct Hpost as (H1' & H2' & H3' & _).
      * exact Hpost.
  - by exists (λ _, failing_answer).
Qed.

(** What the calls keep of the attempts. *)
Record attempts_ok o : Prop := {
  ao_few : (length o.(sn_attempts) <= 3)%nat;
  ao_ordinals : ∀ k attempt, o.(sn_attempts) !! k = Some attempt → attempt.(at_ordinal) = N.of_nat (S k);
  ao_refreshes : (o.(sn_refreshes) <= 1)%nat;
}.

Lemma attempts_ok_step event o : allowed_event allowed event o → attempts_ok o → attempts_ok (seen_step event o).
Proof.
  destruct event as [B c b]. cbn [allowed_event seen_step]. intros Hc [Hf Ho Hr].
  destruct c; cbn [allowed allowed_call] in Hc; cbn [seen_call]; try (by split); try (destruct b; by split).
  - destruct b as [[]|]; by split.
  - destruct Hc as [_ Hn]. split; [exact Hf|exact Ho|]. cbn. lia.
  - destruct Hc as [_ Hn]. split; [exact Hf|exact Ho|]. cbn. lia.
  - destruct Hc as [_ [Hlt Hord _ _ _ _]]. split; cbn; [rewrite length_app; cbn; lia| |exact Hr].
    intros k a [Hk|[Hk Ha]]%lookup_app_Some; [by apply Ho|]. apply list_lookup_singleton_Some in Ha as [Hk' <-]. rewrite Hord. f_equal. lia.
Qed.

(** The call that closes the record of an attempt. *)
Definition closes_record (event : Event (DispatchCall Num Uuid)) : option (AttemptTelemetry Uuid) :=
  match event with Ev (FailAttempt telemetry _ _) _ | Ev (CompleteAttempt telemetry _) _ | Ev (MarkAttemptFinal telemetry) _ => Some telemetry | _ => None end.

(** C18: attempts follow one another. In every run there are at most three attempts, numbered from one, and at most one refresh of the Credential. A record is opened
    for the next attempt only when none is open, so when that of the last attempt was closed, and a record is closed only while it is the open one. An attempt starts
    when its own record is open and nothing of the last response can still be read, with the identity of the Lease that the
    scheduler counts then, with the engine of exactly the bundle of that Lease, and within the budgets: one that is not streamed starts with its whole time or with at
    least the budget of a retry. Only the current Lease is replaced, by one of the same Credential or, when the request is portable, of another.
    The loop always ends, and the response that it gives is that of the last attempt, whose record is open and which was not drained. *)
Theorem attempts_in_order oracle lease phase :
  let '(events, r) := run oracle (dispatch lease phase) [] in
  (∀ i attempt execution, events !! i = Some (Ev (Execute attempt) execution) → may_execute attempt (seen_before lease events i)) ∧
  (∀ i telemetry hash authority protocol proxy generation inserted,
    events !! i = Some (Ev (InsertConnectionAttempt telemetry hash authority protocol proxy generation) inserted) →
    (seen_before lease events i).(sn_open) = None ∧ telemetry.(tm_connection_ordinal) = N.of_nat (S (length (seen_before lease events i).(sn_attempts)))) ∧
  (∀ i event telemetry, events !! i = Some event → closes_record event = Some telemetry → (seen_before lease events i).(sn_open) = Some telemetry) ∧
  (∀ n, attempts_ok (seen_before lease events n)) ∧
  (∀ i e current target answer, events !! i = Some (Ev (OwnerReplace e current target) answer) →
    e = entry ∧ (seen_before lease events i).(sn_lease) = Some current ∧
    match target with
    | Same expected => expected = current.(cl_credential_id)
    | Alternate exclude => exclude = current.(cl_credential_id) ∧ portable = true
    end) ∧
  match r with
  | Ok (Some response) => (seen_after lease events).(sn_clear) = false ∧
      ∃ telemetry, (seen_after lease events).(sn_open) = Some telemetry ∧ telemetry.(tm_attempt_id) = response.(ur_completion).(rc_attempt_id)
  | Ok None => False
  | Err _ => True
  end.
Proof.
  pose proof (run_safe seen_step allowed oracle _ _ _ [] (dispatch_holds lease phase)) as Hrun.
  pose proof (run_invariant seen_step allowed oracle _ _ _ attempts_ok (dispatch_holds lease phase)) as Hinv.
  destruct (run oracle _ []) as [events r]. destruct Hrun as (Hpost & _ & Hall). split_and!.
  - intros i attempt execution Hi. specialize (Hall i _ ltac:(cbn; lia) Hi). exact (proj2 Hall).
  - intros i telemetry hash authority protocol proxy generation inserted Hi. specialize (Hall i _ ltac:(cbn; lia) Hi). exact (proj2 Hall).
  - intros i event telemetry Hi Hc. specialize (Hall i _ ltac:(cbn; lia) Hi). destruct event as [B c b].
    destruct c; cbn in Hc; try done; injection Hc as <-; exact (proj2 Hall).
  - apply Hinv; [split; cbn; [lia|done|lia]|apply attempts_ok_step].
  - intros i e current target answer Hi. specialize (Hall i _ ltac:(cbn; lia) Hi). exact (proj2 Hall).
  - change (observe seen_step events (granted_only lease)) with (seen_after lease events) in Hpost.
    destruct r as [[response|]|e]; cbn [dispatch_post] in Hpost; [|done|done]. by destruct Hpost as (_ & _ & _ & H4' & H5').
Qed.

End dispatch.

(** ** A run: the first connection fails, no Credential but another one is free, and the second attempt is answered. *)
#[local] Instance loop_serde : SerdeJson Z Z := sample_serde [] (λ _, Some (bs "printed")).

Definition loop_hash : bytes := replicate 64 "a"%char.

Definition loop_engine : CompiledTransportEngine :=
  {| te_key := {| ek_bundle_id := MkTypedId "bundle"; ek_bundle_version := 1; ek_bundle_hash := loop_hash; ek_engine_abi := bs "1.0";
                  ek_backend_id := bs "backend"; ek_protocol := H1 |};
     te_source_archetype_version_id := bs "arch"; te_capture_cohort := bs "windows"; te_authority := bs "api.anthropic.com";
     te_tls := sample_profile; te_application := final_engine.(te_application); te_headers := final_engine.(te_headers);
     te_evidence_hashes := [bs "evidence"] |}.

Definition loop_catalog : EngineCatalog := {| ec_generation := 3; ec_entries := {[ loop_engine.(te_key) := loop_engine ]} |}.

Definition loop_lease (lease credential : string) : CredentialLease :=
  {| cl_id := MkTypedId lease; cl_request_id := MkTypedId "req_1"; cl_credential_id := MkTypedId credential; cl_client_os := MacOs;
     cl_owner_generation := sample_generation; cl_token_version := 2;
     cl_execution := Anthropic
       {| cp_profile_id := MkTypedId "profile"; cp_profile_epoch := 1; cp_device_identity_id := MkTypedId "device"; cp_device_epoch := 1;
          cp_archetype_version_id := MkTypedId "arch"; cp_bundle_id := MkTypedId "bundle"; cp_bundle_version := 1;
          cp_bundle_hash := String.string_of_list_ascii loop_hash; cp_egress_binding_id := MkTypedId "egress"; cp_egress_epoch := 1; cp_bundle_epoch := 1 |};
     cl_half_open := false |}.

Definition loop_event (sequence : N) (kind : TransportEventKind) : Instant * TransportEvent :=
  (sequence, {| ev_request_id := MkTypedId "req_1"; ev_attempt_plan_id := MkTypedId "plan"; ev_connection_attempt_id := MkTypedId "conn";
                ev_sequence := sequence; ev_monotonic_ns := sequence; ev_kind := kind; ev_request_bytes_written := 9; ev_response_bytes_read := 0;
                ev_upstream_submission_complete := false; ev_connection_disposition := None; ev_diagnostic_code := None |}).

Definition loop_response : RawUpstreamResponse := {| rw_status := 200; rw_headers := []; rw_kind := Sse; rw_body := [Ok (bs "data")] |}.

Definition executions (events : list (Event (DispatchCall Z bytes))) : list TransportAttempt :=
  omap (λ event, match event with Ev (Execute attempt) _ => Some attempt | _ => None end) events.

(** Surroundings in which everything works, but the first connection and the search for the same Credential. *)
Definition loop_answer (past : list (Event (DispatchCall Z bytes))) B (c : DispatchCall Z bytes B) : B :=
  match c in DispatchCall _ _ B return B with
  | ResolveModelId _ => Some (Some (bs "model"))
  | AdvanceRequestPhase _ _ | RecordRequestReasoning _ | BeginHeaderAttempt _ | CaptureUpstreamHeaders _ _ | CaptureFinalRequestBody _
  | MarkBodyDigestMismatch | RecordUpstreamBodyDigest _ | ArmSubmissionIntent _ | InsertConnectionAttempt _ _ _ _ _ _ | PromoteAttempt _ _ _
  | UpdateAttemptStatus _ _ | FailAttempt _ _ _ | CompleteAttempt _ _ | MarkAttemptFinal _ | ClearCooldown _ | StartResponseDelivery _ _ _ _
  | DrainBody _ | OwnerValid | OwnerRelease _ | FlushResourceEvents => true
  | SleepOrCancelled _ => false
  | LoadSelectedCredential _ => Ok final_selected
  | OwnerReplace _ _ (Same _) => Some NoCandidate
  | OwnerReplace _ _ (Alternate _) => Some (RetryGranted (loop_lease "lease2" "other"))
  | LockCoordination | OwnerComplete _ | InvalidateOwner | BeginDrain | RouteResolutions => tt
  | ProjectTransportHealth _ _ _ | ObserveCooldown _ | ObserveAuth _ => Ok tt
  | RecordThirdPartyRejection _ _ | ObserveQuota _ | FenceCredential _ _ | CancelAttempt _ | CancelRequest | Guard _ => tt
  | PersistQuota _ _ | PersistAccountRejection _ _ _ | MaintainWithin _ _ => None
  | PersistCooldown _ _ _ => Some 60%Z
  | Maintain _ => Err Service_Transient
  | EnginesSnapshot => loop_catalog
  | Execute attempt =>
      if attempt.(at_ordinal) =? 1 then {| xe_polls := [[]]; xe_result := Err (io_error Phase_Resolve 0 "resolver") |}
      else {| xe_polls := [[loop_event 1 ConnectionReady; loop_event 2 FirstUpstreamRequestByte]; [loop_event 3 RequestBodyComplete]];
              xe_result := Ok loop_response |}
  | PrepareResponse _ => Ok {| pc_mode := Streaming; pc_buffer_tier := None |}
  | PreviewPatience => 1%nat
  | NowInstant | ClockNow | UnixMillis => 5
  | NowV7 | NewV4 => bs "uuid"
  end.

Definition loop_limits : RuntimeRequestLimits :=
  {| rl_pre_upstream_wait := from_secs 30; rl_upstream_connect := from_secs 5; rl_upstream_non_stream_total := from_mins 5;
     rl_upstream_stream_idle := from_secs 30; rl_min_retry_budget := from_secs 1; rl_cancel_grace := from_secs 2;
     rl_queue_full_retry_after := from_secs 1; rl_queue_wait_retry_after := from_secs 1 |}.

Definition loop_run := run loop_answer
  (dispatch_after_lease (λ _, None) (λ _, None) sample_sha256 (λ _ l, Some l) (Uuid := bytes) Some id id id id final_dispatch (bs "uuid")
    loop_limits (sample_entry "req_1" "user" 0) {| bo_enabled := true; bo_max_bytes := 1000 |} true (loop_lease "lease1" "first") "accepted") [].

Example sample_loop_run :
  let '(events, r) := loop_run in
  map (λ attempt, (attempt.(at_ordinal), attempt.(at_snapshot).(as_identity).(ai_credential_id))) (executions events) =
    [(1, MkTypedId "first"); (2, MkTypedId "other")] ∧
  match r with
  | Ok (Some response) => response.(ur_raw) = loop_response ∧ response.(ur_completion).(rc_lease) = Some (loop_lease "lease2" "other")
  | _ => False
  end.
Proof. by vm_compute. Qed.

(** In that run, a future that is dropped while the replacement is recorded loses it: the scheduler counts the Lease of the other Credential, the guard holds that of the
    first. *)
Definition is_flush (event : Event (DispatchCall Z bytes)) : bool := match event with Ev FlushResourceEvents _ => true | _ => false end.

Definition flushes (events : list (Event (DispatchCall Z bytes))) : list nat := (filter (λ entry : nat * Event (DispatchCall Z bytes), is_flush entry.2 = true) (imap pair events)).*1.

Example replacement_lost_at_flush :
  let events := loop_run.1 in let seen i := seen_before (loop_lease "lease1" "first") events i in
  map (λ i, (cl_id <$> (seen i).(sn_lease), (λ held, (held.1).(cl_id)) <$> guard_drop (seen i).(sn_guard))) (flushes events) =
    [(Some (MkTypedId "lease1"), Some (MkTypedId "lease1")); (Some (MkTypedId "lease2"), Some (MkTypedId "lease1"))].
Proof. by vm_compute. Qed.
