(* ===== verification/Float64.v ===== *)
(** The [f64] of Rust where the code uses it: binary64 numbers that are neither negative nor out of the normal range, as rationals. An
    operation is the exact one, rounded to 53 bits, to the nearest and to the even one of two. *)

From Stdlib Require Import QArith Qpower Qround Qabs Qreduction Lqa.
From S2P Require Import Prelude Machine.
Local Open Scope Q_scope.

Abbreviation F64 := Q (only parsing).

(** The integer next to [x], the even one of two. *)
Definition nearest_even (x : Q) : Z :=
  let low := Qfloor x in
  match Qcompare (x - inject_Z low) (1 # 2) with
  | Lt => low
  | Gt => (low + 1)%Z
  | Eq => if Z.even low then low else (low + 1)%Z
  end.

Definition pow2 (e : Z) : Q := Qpower 2 e.

(** The exponent [e] with [2^e <= q < 2^(e+1)]. *)
Definition exponent (q : Q) : Z :=
  let e := (Z.log2 (Qnum q) - Z.log2 (Zpos (Qden q)))%Z in
  if Qle_bool (pow2 e) q then e else (e - 1)%Z.

Definition MANTISSA_DIGITS : Z := 53.

Definition rnd (q : Q) : F64 :=
  if Qle_bool q 0 then 0
  else
    let ulp := pow2 (exponent q - (MANTISSA_DIGITS - 1)) in
    Qred (inject_Z (nearest_even (q / ulp)) * ulp).

(** ** The operations *)
Definition f64_of_N (n : N) : F64 := rnd (inject_Z (Z.of_N n)).

Definition f64_add (x y : F64) : F64 := rnd (x + y).

Definition f64_sub (x y : F64) : F64 := rnd (x - y).

Definition f64_mul (x y : F64) : F64 := rnd (x * y).

Definition f64_div (x y : F64) : F64 := rnd (x / y).

Definition f64_at_least (x y : F64) : bool := Qle_bool y x.

Definition f64_min2 (x y : F64) : F64 := if Qle_bool x y then x else y.

Definition f64_max2 (x y : F64) : F64 := if Qle_bool x y then y else x.

Definition f64_ceil (x : F64) : F64 := inject_Z (Qceiling x).

(** [as u64], which saturates. *)
Definition f64_as_u64 (x : F64) : N := N.min U64_MAX (Z.to_N (Qfloor x)).

(** [Duration::as_secs_f64]. *)
Definition as_secs_f64 (d : Duration) : F64 :=
  f64_add (f64_of_N (d / NANOS_PER_SEC)) (f64_div (f64_of_N (d mod NANOS_PER_SEC)) (f64_of_N NANOS_PER_SEC)).

(** ** The rounding error *)
Definition UNIT : Q := 1 # 9007199254740992.

Lemma pow2_pos e : 0 < pow2 e.
Proof. apply Qpower_0_lt. lra. Qed.

Lemma pow2_add a b : pow2 (a + b) == pow2 a * pow2 b.
Proof. apply Qpower_plus. lra. Qed.

Lemma pow2_Z n : (0 <= n)%Z → pow2 n == inject_Z (2 ^ n).
Proof. intros Hn. by rewrite Zpower_Qpower. Qed.

(** [2^(log2 n - log2 d)] is within a factor of two of [n / d]. *)
Lemma pow2_log2 (n : Z) (d : positive) : (0 < n)%Z →
  let e := (Z.log2 n - Z.log2 (Zpos d))%Z in pow2 (e - 1) <= (n # d) /\ (n # d) < pow2 (e + 1).
Proof.
  intros Hn e. pose proof (Z.log2_spec n Hn) as [Hn1 Hn2]. pose proof (Z.log2_spec (Zpos d) eq_refl) as [Hd1 Hd2].
  pose proof (Z.log2_nonneg n) as Hln. pose proof (Z.log2_nonneg (Zpos d)) as Hld.
  rewrite Zle_Qle, <- pow2_Z in Hn1, Hd1 by lia. rewrite Zlt_Qlt, <- pow2_Z in Hn2, Hd2 by lia.
  assert ((n # d) * inject_Z (Zpos d) == inject_Z n) as Hq by (unfold Qeq; cbn; lia).
  assert (0 < inject_Z (Zpos d)) as Hd0 by done.
  assert (pow2 (e - 1) * pow2 (Z.succ (Z.log2 (Zpos d))) == pow2 (Z.log2 n)) as E1 by (rewrite <- pow2_add; f_equiv; lia).
  assert (pow2 (e + 1) * pow2 (Z.log2 (Zpos d)) == pow2 (Z.succ (Z.log2 n))) as E2 by (rewrite <- pow2_add; f_equiv; lia).
  pose proof (pow2_pos (e - 1)). pose proof (pow2_pos (e + 1)). split.
  - apply (Qmult_le_r _ _ _ Hd0). rewrite Hq. nra.
  - apply (Qmult_lt_r _ _ _ Hd0). rewrite Hq. nra.
Qed.

Lemma exponent_spec q : 0 < q → pow2 (exponent q) <= q /\ q < pow2 (exponent q + 1).
Proof.
  destruct q as [n d]. intros Hq. assert (0 < n)%Z as Hn by (unfold Qlt in Hq; cbn in Hq; lia).
  pose proof (pow2_log2 n d Hn) as [Hl Hu]. unfold exponent. cbn [Qnum Qden].
  destruct (Qle_bool _ _) eqn:E.
  - apply Qle_bool_iff in E. split; [done|exact Hu].
  - split; [exact Hl|]. replace (Z.log2 n - Z.log2 (Zpos d) - 1 + 1)%Z with (Z.log2 n - Z.log2 (Zpos d))%Z by lia.
    apply Qnot_le_lt. intros Hle. apply Qle_bool_iff in Hle. congruence.
Qed.

Lemma nearest_even_error x : Qabs (inject_Z (nearest_even x) - x) <= 1 # 2.
Proof.
  unfold nearest_even. pose proof (Qfloor_le x) as Hl. pose proof (Qlt_floor x) as Hu. rewrite inject_Z_plus in Hu.
  apply Qabs_Qle_condition.
  destruct (Qcompare _ _) eqn:E; [apply Qeq_alt in E; destruct (Z.even _)|apply Qlt_alt in E|apply Qgt_alt in E]; rewrite ?inject_Z_plus;
    change (inject_Z 1) with 1 in *; split; lra.
Qed.

(** A rounding moves a value by at most its 2{^53}th part. *)
Lemma rnd_error q : 0 <= q → Qabs (rnd q - q) <= q * UNIT.
Proof.
  intros Hq. unfold rnd. destruct (Qle_bool q 0) eqn:E.
  - apply Qle_bool_iff in E. apply Qabs_Qle_condition. unfold UNIT. split; lra.
  - assert (0 < q) as Hpos. { apply Qnot_le_lt. intros Hle. apply Qle_bool_iff in Hle. congruence. }
    pose proof (exponent_spec q Hpos) as [Hlow _]. set (e := exponent q) in *. clearbody e.
    assert (pow2 e == pow2 (e - (MANTISSA_DIGITS - 1)) * 4503599627370496) as Ep.
    { replace e with (e - (MANTISSA_DIGITS - 1) + 52)%Z at 1 by (unfold MANTISSA_DIGITS; lia). by rewrite pow2_add. }
    pose proof (pow2_pos (e - (MANTISSA_DIGITS - 1))) as Hu. set (ulp := pow2 (e - (MANTISSA_DIGITS - 1))) in *. clearbody ulp.
    pose proof (nearest_even_error (q / ulp)) as Hn. set (m := inject_Z (nearest_even (q / ulp))) in *. clearbody m.
    rewrite Qred_correct. assert (q == q / ulp * ulp) as Hx by (field; lra). set (x := q / ulp) in *. clearbody x.
    apply Qabs_Qle_condition in Hn as [Hn1 Hn2]. apply Qabs_Qle_condition. unfold UNIT. rewrite Hx in Hlow |- *. split; nra.
Qed.

Lemma rnd_le q : 0 <= q → rnd q <= q * (1 + UNIT).
Proof. intros Hq%rnd_error. apply Qabs_Qle_condition in Hq as [_ Hq]. lra. Qed.

Lemma rnd_nonneg q : 0 <= q → 0 <= rnd q.
Proof. intros Hq. pose proof (rnd_error q Hq) as Hr. apply Qabs_Qle_condition in Hr as [Hr _]. unfold UNIT in Hr. lra. Qed.

(** ** Against the machine *)
Example third_rounded : f64_div 1 3 = 6004799503160661 # 18014398509481984.
Proof. by vm_compute. Qed.

Example tie_to_even : rnd (9007199254740993 # 1) = 9007199254740992 # 1.
Proof. by vm_compute. Qed.

Example tenth_and_fifth : f64_add (f64_div 1 10) (f64_div 2 10) = 1351079888211149 # 4503599627370496.
Proof. by vm_compute. Qed.
