(* ===== verification/AccessLimits.v ===== *)
(** The admission limiters of the edge, [crates/gateway-api/src/edge.rs]: the token bucket of each key and endpoint, the hard limit on the
    concurrent requests of a key, and the memory of the systems of the sessions ([data.rs], [ClientOsSessionCache]).

    A [Mutex] makes each operation atomic; the instant of an operation is an argument, because the clock is read before the lock is taken. *)

From Stdlib Require Import QArith Lqa.
From stdpp Require Import strings.
From S2P Require Import Prelude Machine.
From S2P Require Import Float64.
From S2P Require Import Domain.
Local Open Scope N_scope.

(** ** The rate limiter *)
Record RateLimit := {
  rt_requests_per_minute : N;
  rt_burst : N;
}.

Definition DEFAULT_MESSAGES : RateLimit := {| rt_requests_per_minute := 60; rt_burst := 10 |}.

Definition DEFAULT_MODELS : RateLimit := {| rt_requests_per_minute := 60; rt_burst := 10 |}.

Definition DEFAULT_COUNT_TOKENS : RateLimit := {| rt_requests_per_minute := 120; rt_burst := 20 |}.

Record Bucket := {
  bk_tokens : F64;
  bk_last_refill : Duration;
}.

Abbreviation RateBuckets := (gmap string Bucket).

Inductive RateDecision :=
  | Rate_Allowed
  | Rate_Limited (retry_after : N).

Definition MAX_BUCKETS : nat := 32 * 1024.

Definition STALE_AFTER : Duration := from_secs 3600.

(** The buckets that an operation at [now] keeps. *)
Definition prune_buckets (now : Duration) (buckets : RateBuckets) : RateBuckets :=
  if (MAX_BUCKETS <? size buckets)%nat
  then filter (λ kv, saturating_sub now STALE_AFTER <= kv.2.(bk_last_refill)) buckets
  else buckets.

Definition refill_per_second (config : RateLimit) : F64 := f64_div (f64_of_N config.(rt_requests_per_minute)) (f64_of_N 60).

Definition refill_bucket (now : Duration) (config : RateLimit) (bucket : Bucket) : Bucket :=
  let elapsed := as_secs_f64 (saturating_sub now bucket.(bk_last_refill)) in
  {| bk_tokens := f64_min2 (f64_add bucket.(bk_tokens) (f64_mul elapsed (refill_per_second config))) (f64_of_N config.(rt_burst));
     bk_last_refill := now |}.

Definition allow (now : Duration) (key : string) (config : RateLimit) (buckets : RateBuckets) : RateDecision * RateBuckets :=
  if (config.(rt_requests_per_minute) =? 0) || (config.(rt_burst) =? 0) then (Rate_Limited 60, buckets)
  else
    let buckets := prune_buckets now buckets in
    let bucket := default {| bk_tokens := f64_of_N config.(rt_burst); bk_last_refill := now |} (buckets !! key) in
    let bucket := refill_bucket now config bucket in
    if f64_at_least bucket.(bk_tokens) 1 then
      (Rate_Allowed, <[key := {| bk_tokens := f64_sub bucket.(bk_tokens) 1; bk_last_refill := bucket.(bk_last_refill) |}]> buckets)
    else
      let seconds := f64_max2 (f64_ceil (f64_div (f64_sub 1 bucket.(bk_tokens)) (refill_per_second config))) 1 in
      (Rate_Limited (f64_as_u64 seconds), <[key := bucket]> buckets).

(** ** The limit on concurrent requests *)
Abbreviation ConcurrencyState := (gmap string N).

(** [true]: a permit of the key is given. *)
Definition try_acquire (key : string) (limit : N) (active : ConcurrencyState) : bool * ConcurrencyState :=
  let count := default 0 (active !! key) in
  if limit <=? count then (false, <[key := count]> active) else (true, <[key := count + 1]> active).

(** [Drop] of a permit. *)
Definition permit_drop (key : string) (active : ConcurrencyState) : ConcurrencyState :=
  match active !! key with
  | None => active
  | Some count =>
      let count := saturating_sub count 1 in
      if count =? 0 then delete key active else <[key := count]> active
  end.

(** ** The systems of the sessions *)
Record ClientOsSessionEntry := {
  os_os : ClientOs;
  os_last_seen : Duration;
}.

Record ClientOsSessionCache := {
  oc_entries : gmap string ClientOsSessionEntry;
  oc_ttl : Duration;
  oc_capacity : nat;
}.

Definition session_cache_new (ttl : Duration) (capacity : nat) : ClientOsSessionCache :=
  {| oc_entries := ∅; oc_ttl := ttl; oc_capacity := Nat.max capacity 1 |}.

Definition session_cache_default : ClientOsSessionCache := session_cache_new (from_secs (24 * 3600)) (32 * 1024).

Definition prune_os_sessions (now ttl : Duration) (entries : gmap string ClientOsSessionEntry) : gmap string ClientOsSessionEntry :=
  filter (λ kv, saturating_sub now ttl <= kv.2.(os_last_seen)) entries.

Section sessions.
(** The order in which a [HashMap] is read: unspecified, but all of its entries. *)
Context (hash_order : gmap string ClientOsSessionEntry → list (string * ClientOsSessionEntry)).

Definition seen_order (left right : string * ClientOsSessionEntry) : comparison := left.2.(os_last_seen) ?= right.2.(os_last_seen).

Definition remember (now : Duration) (session_digest : string) (os : ClientOs) (self : ClientOsSessionCache) : ClientOsSessionCache :=
  let entries := prune_os_sessions now self.(oc_ttl) self.(oc_entries) in
  let entries :=
    if (self.(oc_capacity) <=? size entries)%nat && negb (is_some (entries !! session_digest)) then
      match min_by seen_order (hash_order entries) with
      | Some (oldest, _) => delete oldest entries
      | None => entries
      end
    else entries in
  {| oc_entries := <[session_digest := {| os_os := os; os_last_seen := now |}]> entries; oc_ttl := self.(oc_ttl); oc_capacity := self.(oc_capacity) |}.

Definition resolve_session (now : Duration) (session_digest : string) (self : ClientOsSessionCache) : option ClientOs * ClientOsSessionCache :=
  let entries := prune_os_sessions now self.(oc_ttl) self.(oc_entries) in
  match entries !! session_digest with
  | None => (None, {| oc_entries := entries; oc_ttl := self.(oc_ttl); oc_capacity := self.(oc_capacity) |})
  | Some entry =>
      (Some entry.(os_os),
       {| oc_entries := <[session_digest := {| os_os := entry.(os_os); os_last_seen := now |}]> entries; oc_ttl := self.(oc_ttl);
          oc_capacity := self.(oc_capacity) |})
  end.
End sessions.

(** ** The rate over any window *)
Record RateCall := {
  ra_now : Duration;
  ra_key : string;
  ra_config : RateLimit;
}.

Fixpoint allow_all (calls : list RateCall) (buckets : RateBuckets) : list RateDecision * RateBuckets :=
  match calls with
  | [] => ([], buckets)
  | c :: calls =>
      let '(decision, buckets) := allow c.(ra_now) c.(ra_key) c.(ra_config) buckets in
      let '(decisions, buckets) := allow_all calls buckets in
      (decision :: decisions, buckets)
  end.

Definition is_allowed (decision : RateDecision) : bool := match decision with Rate_Allowed => true | _ => false end.

(** How many requests of a key were admitted. *)
Fixpoint admitted (key : string) (calls : list RateCall) (decisions : list RateDecision) : nat :=
  match calls, decisions with
  | c :: calls, d :: decisions =>
      ((if bool_decide (c.(ra_key) = key) && is_allowed d then 1 else 0) + admitted key calls decisions)%nat
  | _, _ => 0%nat
  end.

(** The instants of the calls do not go back, which the lock alone does not guarantee. *)
Definition in_time_order (calls : list RateCall) : Prop := StronglySorted (λ a b, a.(ra_now) <= b.(ra_now)) calls.

Definition EPSILON : Q := 1 # 1125899906842624.

(** What a rate limit promises for [n] calls over [span]. *)
Definition rate_bound (config : RateLimit) (span : Duration) (n : nat) : Q :=
  (let burst := inject_Z (Z.of_N config.(rt_burst)) in
   let per_minute := inject_Z (Z.of_N config.(rt_requests_per_minute)) in
   burst + per_minute * inject_Z (Z.of_N span) / 60000000000 * (1 + EPSILON) + inject_Z (Z.of_nat (S n)) * burst * EPSILON)%Q.

Section rates.
Local Open Scope Q_scope.
Context (config : RateLimit).
Abbreviation burst := (inject_Z (Z.of_N config.(rt_burst))).
Abbreviation per_minute := (inject_Z (Z.of_N config.(rt_requests_per_minute))).

Definition seconds (d : Duration) : Q := inject_Z (Z.of_N d) / 1000000000.

Lemma N_nonneg n : 0 <= inject_Z (Z.of_N n).
Proof. rewrite <- (Zle_Qle 0). lia. Qed.

Lemma rounded_N n : 0 <= f64_of_N n ∧ f64_of_N n <= inject_Z (Z.of_N n) * (1 + UNIT).
Proof. split; [apply rnd_nonneg|apply rnd_le]; apply N_nonneg. Qed.

Lemma sixty_exact : f64_of_N 60 = 60.
Proof. by vm_compute. Qed.

Lemma billion_exact : f64_of_N NANOS_PER_SEC = 1000000000.
Proof. by vm_compute. Qed.

Lemma refill_rate_le : 0 <= refill_per_second config ∧ refill_per_second config <= per_minute / 60 * ((1 + UNIT) * (1 + UNIT)).
Proof.
  unfold refill_per_second, f64_div. rewrite sixty_exact. pose proof (rounded_N config.(rt_requests_per_minute)) as [Hn Hle].
  set (x := f64_of_N _) in *. clearbody x. assert (0 <= x / 60) as Hx by (unfold Qdiv; change (/ 60) with (1 # 60); lra).
  split; [by apply rnd_nonneg|]. eapply Qle_trans; [by apply rnd_le|].
  unfold Qdiv in *. change (/ 60) with (1 # 60) in *. unfold UNIT in *. nra.
Qed.

Lemma secs_f64_le d : 0 <= as_secs_f64 d ∧ as_secs_f64 d <= seconds d * ((1 + UNIT) * (1 + UNIT) * (1 + UNIT)).
Proof.
  unfold as_secs_f64, f64_add, f64_div. rewrite billion_exact.
  pose proof (rounded_N (d / NANOS_PER_SEC)) as [Ha Ha']. pose proof (rounded_N (d mod NANOS_PER_SEC)) as [Hb Hb'].
  assert (seconds d == inject_Z (Z.of_N (d / NANOS_PER_SEC)) + inject_Z (Z.of_N (d mod NANOS_PER_SEC)) / 1000000000) as ->.
  { unfold seconds. rewrite (N.div_mod d NANOS_PER_SEC) at 1 by done.
    rewrite N2Z.inj_add, N2Z.inj_mul, inject_Z_plus, inject_Z_mult. change (inject_Z (Z.of_N NANOS_PER_SEC)) with 1000000000. field. }
  pose proof (N_nonneg (d / NANOS_PER_SEC)) as Hp. pose proof (N_nonneg (d mod NANOS_PER_SEC)) as Hq.
  set (x := f64_of_N (d / NANOS_PER_SEC)) in *. set (y := f64_of_N (d mod NANOS_PER_SEC)) in *. clearbody x y.
  set (p := inject_Z (Z.of_N (d / NANOS_PER_SEC))) in *. set (q := inject_Z (Z.of_N (d mod NANOS_PER_SEC))) in *. clearbody p q. unfold Qdiv in *. change (/ 1000000000) with (1 # 1000000000) in *.
  assert (0 <= y * (1 # 1000000000)) as Hy by lra. pose proof (rnd_nonneg _ Hy) as Hr. pose proof (rnd_le _ Hy) as Hr'.
  set (r := rnd _) in *. clearbody r. assert (0 <= x + r) as Hs by lra.
  split; [by apply rnd_nonneg|]. eapply Qle_trans; [by apply rnd_le|]. unfold UNIT in *. nra.
Qed.

(** What a bucket gains over a duration, and what rounding may add in a call. *)
Definition gain (d : Duration) : Q := per_minute / 60 * seconds d * (1 + EPSILON).

Definition drift : Q := burst * (4 * UNIT).

Lemma seconds_add a b : seconds (a + b) == seconds a + seconds b.
Proof. unfold seconds. rewrite N2Z.inj_add, inject_Z_plus. field. Qed.

Lemma seconds_nonneg d : 0 <= seconds d.
Proof. unfold seconds, Qdiv. change (/ 1000000000) with (1 # 1000000000). pose proof (N_nonneg d). lra. Qed.

Lemma gain_add a b : gain (a + b) == gain a + gain b.
Proof. unfold gain. rewrite seconds_add. ring. Qed.

Lemma gain_nonneg d : 0 <= gain d.
Proof.
  unfold gain, Qdiv. change (/ 60) with (1 # 60). unfold EPSILON. pose proof (N_nonneg config.(rt_requests_per_minute)). pose proof (seconds_nonneg d). nra.
Qed.

Lemma gain_mono a b : (a <= b)%N → gain a <= gain b.
Proof. intros Hab. replace b with (a + (b - a))%N by lia. rewrite gain_add. pose proof (gain_nonneg (b - a)). lra. Qed.

Lemma drift_nonneg : 0 <= drift.
Proof. unfold drift, UNIT. pose proof (N_nonneg config.(rt_burst)). lra. Qed.

Lemma seven_roundings : (1 + UNIT) * (1 + UNIT) * (1 + UNIT) * ((1 + UNIT) * (1 + UNIT)) * (1 + UNIT) * (1 + UNIT) <= 1 + EPSILON.
Proof. by vm_compute. Qed.

Lemma refilled_le elapsed : let g := f64_mul (as_secs_f64 elapsed) (refill_per_second config) in 0 <= g ∧ g * (1 + UNIT) <= gain elapsed.
Proof.
  cbv zeta. unfold f64_mul. pose proof (secs_f64_le elapsed) as [Ha Ha']. pose proof refill_rate_le as [Hr Hr'].
  set (x := as_secs_f64 elapsed) in *. set (y := refill_per_second config) in *. clearbody x y.
  assert (0 <= x * y) as Hxy by nra. split; [by apply rnd_nonneg|]. pose proof (rnd_le _ Hxy) as Hle.
  assert (0 <= per_minute / 60) as Hp. { unfold Qdiv. change (/ 60) with (1 # 60). pose proof (N_nonneg config.(rt_requests_per_minute)). lra. }
  unfold gain. pose proof seven_roundings as H7. pose proof (seconds_nonneg elapsed) as Hs.
  set (p := per_minute / 60) in *. set (z := seconds elapsed) in *. set (g := rnd _) in *. clearbody p z g.
  set (k := 1 + UNIT) in *. assert (0 < k) as Hk by (unfold k, UNIT; lra).
  assert (x * y <= z * (k * k * k) * (p * (k * k))) as Hprod.
  { apply Qle_trans with (x * (p * (k * k))); [rewrite !(Qmult_comm x); by apply Qmult_le_compat_r|].
    apply Qmult_le_compat_r; [done|]. apply Qmult_le_0_compat; [done|]. nra. }
  apply Qle_trans with (p * z * (k * k * k * (k * k) * k * k)); [nra|].
  rewrite (Qmult_comm (p * z)), (Qmult_comm (p * z)). apply Qmult_le_compat_r; [done|]. nra.
Qed.

(** A refill never leaves more than the burst, and adds at most the gain of the time that went by. *)
Lemma refill_bounds now bucket : 0 <= bucket.(bk_tokens) →
  let t := (refill_bucket now config bucket).(bk_tokens) in
  0 <= t ∧ t <= burst * (1 + UNIT) ∧
  (bucket.(bk_tokens) <= burst * 2 → t <= bucket.(bk_tokens) + gain (now - bucket.(bk_last_refill)) + burst * (2 * UNIT)).
Proof.
  intros H0. unfold refill_bucket. cbn [bk_tokens]. unfold saturating_sub.
  pose proof (refilled_le (now - bucket.(bk_last_refill))) as Hg. cbv zeta in Hg. destruct Hg as [Hg Hg'].
  pose proof (rounded_N config.(rt_burst)) as [Hb Hb']. unfold f64_min2, f64_add.
  set (g := f64_mul _ _) in *. set (t0 := bk_tokens bucket) in *. set (c := f64_of_N _) in *. clearbody g t0 c.
  assert (0 <= t0 + g) as Hs by lra. pose proof (rnd_nonneg _ Hs) as Hr. pose proof (rnd_le _ Hs) as Hr'.
  destruct (Qle_bool _ _) eqn:E.
  - apply Qle_bool_iff in E. split_and!; [done|lra|]. intros H2. unfold UNIT in *. lra.
  - assert (¬ rnd (t0 + g) <= c) as Hn by (rewrite <- Qle_bool_iff; by rewrite E). apply Qnot_le_lt in Hn.
    split_and!; [done|done|]. intros H2. unfold UNIT in *. lra.
Qed.

End rates.

Local Open Scope Q_scope.

Definition not_negative (buckets : RateBuckets) : Prop := map_Forall (λ _ bucket, 0 <= bucket.(bk_tokens)) buckets.

Lemma prune_lookup key now buckets : prune_buckets now buckets !! key = buckets !! key ∨
  (prune_buckets now buckets !! key = None ∧ ∃ bucket, buckets !! key = Some bucket ∧ (bucket.(bk_last_refill) + STALE_AFTER <= now)%N).
Proof.
  unfold prune_buckets. destruct (_ <? _)%nat; [|by left]. rewrite map_lookup_filter.
  destruct (buckets !! key) as [bucket|] eqn:E; [|by left]. cbn. destruct (decide (saturating_sub now STALE_AFTER <= bk_last_refill bucket)%N) as [Hle|Hgt].
  - left. by rewrite option_guard_True.
  - right. rewrite option_guard_False by done. split; [done|]. exists bucket. split; [done|]. unfold saturating_sub in Hgt. lia.
Qed.

Lemma prune_not_negative now buckets : not_negative buckets → not_negative (prune_buckets now buckets).
Proof. unfold prune_buckets. intros H. destruct (_ <? _)%nat; [|done]. intros k b [Hl _]%map_lookup_filter_Some. by eapply H. Qed.

(** The bucket of a call, after its refill and after the decision. *)
Lemma allow_spec now k c buckets : not_negative buckets →
  let '(decision, buckets') := allow now k c buckets in
  not_negative buckets' ∧
  (∀ k', k' ≠ k → buckets' !! k' = buckets !! k' ∨ buckets' !! k' = prune_buckets now buckets !! k') ∧
  ((decision = Rate_Limited 60 ∧ buckets' = buckets ∧ (c.(rt_requests_per_minute) = 0 ∨ c.(rt_burst) = 0)%N) ∨
   ∃ tokens, let bucket := default {| bk_tokens := f64_of_N c.(rt_burst); bk_last_refill := now |} (prune_buckets now buckets !! k) in
     buckets' !! k = Some {| bk_tokens := tokens; bk_last_refill := now |} ∧ 0 <= tokens ∧
     let t := (refill_bucket now c bucket).(bk_tokens) in
     tokens <= if is_allowed decision then (t - 1) * (1 + UNIT) else t).
Proof.
  intros Hnn. unfold allow. destruct (_ || _) eqn:Ez.
  { split_and!; [done|by left|]. left. split_and!; [done|done|]. apply orb_true_iff in Ez as [E|E]; apply N.eqb_eq in E; auto. }
  pose proof (prune_not_negative now _ Hnn) as Hp. set (pruned := prune_buckets now buckets) in *.
  set (bucket := default _ _). assert (0 <= bucket.(bk_tokens)) as H0.
  { unfold bucket. destruct (pruned !! k) as [b|] eqn:E; [by apply (Hp _ _ E)|]. apply rounded_N. }
  assert (0 <= (refill_bucket now c bucket).(bk_tokens)) as Ht.
  { pose proof (refill_bounds c now bucket H0) as Hb. by destruct Hb. }
  destruct (f64_at_least _ 1) eqn:E.
  - apply Qle_bool_iff in E. set (t := (refill_bucket now c bucket).(bk_tokens)) in *. assert (0 <= t - 1) as Hs by lra. split_and!.
    + apply map_Forall_insert_2; [by apply rnd_nonneg|done].
    + intros k' Hne. right. by rewrite lookup_insert_ne by done.
    + right. eexists. split_and!; [by rewrite lookup_insert_eq|by apply rnd_nonneg|by apply rnd_le].
  - split_and!.
    + by apply map_Forall_insert_2.
    + intros k' Hne. right. by rewrite lookup_insert_ne by done.
    + right. eexists. split_and!; [by rewrite lookup_insert_eq|done|]. apply Qle_refl.
Qed.

(** ** A window *)
Section window.
Context (key : string) (config : RateLimit) (Hhour : (config.(rt_burst) <= 60 * config.(rt_requests_per_minute))%N).
Abbreviation burst := (inject_Z (Z.of_N config.(rt_burst))).

(** What is known of the bucket of the key while the window is counted: what it had at its last call. *)
Definition tracked (buckets : RateBuckets) (now last : Duration) (available : Q) : Prop :=
  0 <= available ∧ (last <= now)%N ∧
  match buckets !! key with
  | Some bucket => bucket.(bk_last_refill) = last ∧ bucket.(bk_tokens) <= available ∧ bucket.(bk_tokens) <= burst * 2
  | None => (last + STALE_AFTER <= now)%N
  end.

(** An hour refills the whole burst, so that a bucket may be forgotten after it. *)
Lemma hour_refills d : (STALE_AFTER <= d)%N → burst <= gain config d.
Proof using Hhour.
  intros Hd. apply Qle_trans with (gain config STALE_AFTER); [|by apply gain_mono].
  unfold gain, seconds. change (inject_Z (Z.of_N STALE_AFTER)) with 3600000000000. unfold EPSILON.
  assert (burst <= 60 * inject_Z (Z.of_N config.(rt_requests_per_minute))) as Hb.
  { change 60 with (inject_Z 60). rewrite <- inject_Z_mult, <- Zle_Qle. lia. }
  pose proof (N_nonneg config.(rt_requests_per_minute)). unfold Qdiv. change (/ 60) with (1 # 60). change (/ 1000000000) with (1 # 1000000000). lra.
Qed.

Lemma tracked_other buckets now last available now' k c : k ≠ key → not_negative buckets → tracked buckets now last available → (now <= now')%N →
  tracked (allow now' k c buckets).2 now' last available.
Proof.
  intros Hne Hnn (H0 & Hl & Ht) Hnow. pose proof (allow_spec now' k c buckets Hnn) as Ha. destruct (allow now' k c buckets) as [d b'].
  destruct Ha as (_ & Hother & _). cbn [snd]. split_and!; [done|lia|]. specialize (Hother key (not_eq_sym Hne)).
  destruct (prune_lookup key now' buckets) as [Hp|(Hp & b & Hb & Hst)]; rewrite Hp in Hother.
  - assert (b' !! key = buckets !! key) as -> by (by destruct Hother). destruct (buckets !! key); [done|lia].
  - rewrite Hb in Ht, Hother. destruct Ht as (<- & Ht). destruct Hother as [->| ->]; [done|lia].
Qed.

(** A call of the key: what is admitted is paid from what is available, the time that went by and the drift. *)
Lemma tracked_own buckets now last available now' : (0 < config.(rt_requests_per_minute))%N → (0 < config.(rt_burst))%N →
  not_negative buckets → tracked buckets now last available → (now <= now')%N →
  let '(decision, buckets') := allow now' key config buckets in
  tracked buckets' now' now' (available + gain config (now' - last) + drift config - (if is_allowed decision then 1 else 0)).
Proof using Hhour.
  intros Hpm Hbu Hnn (H0 & Hl & Ht) Hnow. pose proof (allow_spec now' key config buckets Hnn) as Ha.
  destruct (allow now' key config buckets) as [d b']. destruct Ha as (_ & _ & [(_ & _ & [Hz|Hz])|(tokens & Hb' & Ht0 & Hle)]); [lia..|].
  set (bucket := default _ _) in Hle. cbv zeta in Hle.
  assert (0 <= bucket.(bk_tokens)) as Hb0.
  { unfold bucket. destruct (prune_buckets now' buckets !! key) as [b|] eqn:E; [by apply (prune_not_negative now' _ Hnn _ _ E)|]. apply rounded_N. }
  destruct (refill_bounds config now' bucket Hb0) as (Hr0 & Hr1 & Hr2). set (t := (refill_bucket now' config bucket).(bk_tokens)) in *.
  pose proof (N_nonneg config.(rt_burst)) as HB. pose proof (gain_nonneg config (now' - last)) as HG.
  assert (t <= available + gain config (now' - last) + burst * (2 * UNIT)) as Hgain.
  { unfold bucket in Hr2. destruct (prune_lookup key now' buckets) as [Hp|(Hp & b & Hb & Hst)]; rewrite Hp in Hr2; clear Hp.
    - destruct (buckets !! key) as [b|]; unfold default, id in Hr2; cbn [from_option] in Hr2.
      + destruct Ht as (<- & Ht & Ht2). specialize (Hr2 Ht2). lra.
      + pose proof (hour_refills (now' - last) ltac:(lia)). unfold UNIT in *. lra.
    - rewrite Hb in Ht. destruct Ht as (<- & Ht & Ht2). pose proof (hour_refills (now' - b.(bk_last_refill)) ltac:(lia)). unfold UNIT in *. lra. }
  assert (t - 1 <= burst * 2) as Ht2 by (unfold UNIT in *; lra).
  split_and!; [|lia|rewrite Hb'; cbn; split_and!; [done| |]]; unfold drift, UNIT in *; destruct (is_allowed d) in Hle |- *; lra.
Qed.

(** The first call of the key in the window finds at most a full bucket. *)
Lemma untracked_own buckets now' : (0 < config.(rt_requests_per_minute))%N → (0 < config.(rt_burst))%N → not_negative buckets →
  let '(decision, buckets') := allow now' key config buckets in
  tracked buckets' now' now' (burst + drift config - (if is_allowed decision then 1 else 0)).
Proof.
  intros Hpm Hbu Hnn. pose proof (allow_spec now' key config buckets Hnn) as Ha.
  destruct (allow now' key config buckets) as [d b']. destruct Ha as (_ & _ & [(_ & _ & [Hz|Hz])|(tokens & Hb' & Ht0 & Hle)]); [lia..|].
  set (bucket := default _ _) in Hle. cbv zeta in Hle.
  assert (0 <= bucket.(bk_tokens)) as Hb0.
  { unfold bucket. destruct (prune_buckets now' buckets !! key) as [b|] eqn:E; [by apply (prune_not_negative now' _ Hnn _ _ E)|]. apply rounded_N. }
  destruct (refill_bounds config now' bucket Hb0) as (Hr0 & Hr1 & _). set (t := (refill_bucket now' config bucket).(bk_tokens)) in *.
  pose proof (N_nonneg config.(rt_burst)) as HB.
  split_and!; [|lia|rewrite Hb'; cbn; split_and!; [done| |]]; unfold drift, UNIT in *; destruct (is_allowed d) in Hle |- *; lra.
Qed.

Definition of_key (calls : list RateCall) : Prop := Forall (λ c, c.(ra_key) = key → c.(ra_config) = config) calls.

Definition within (start finish : Duration) (calls : list RateCall) : Prop := Forall (λ c, start <= c.(ra_now) ∧ c.(ra_now) <= finish)%N calls.

Lemma within_tail c calls start finish : Forall (λ x, c.(ra_now) <= x.(ra_now))%N calls → within start finish calls → within c.(ra_now) finish calls.
Proof. unfold within. rewrite !Forall_forall. intros H1 H2 x Hx. split; [by apply H1|by apply H2]. Qed.

Lemma allow_not_negative now k c buckets : not_negative buckets → not_negative (allow now k c buckets).2.
Proof. intros Hnn. pose proof (allow_spec now k c buckets Hnn) as H. destruct (allow now k c buckets). by destruct H. Qed.

Lemma admitted_cons c calls d ds :
  inject_Z (Z.of_nat (admitted key (c :: calls) (d :: ds))) ==
  (if bool_decide (c.(ra_key) = key) && is_allowed d then 1 else 0) + inject_Z (Z.of_nat (admitted key calls ds)).
Proof. cbn [admitted]. rewrite Nat2Z.inj_add, inject_Z_plus. by destruct (_ && _). Qed.

Lemma calls_drift n : inject_Z (Z.of_nat (S n)) * drift config == drift config + inject_Z (Z.of_nat n) * drift config.
Proof. rewrite Nat2Z.inj_succ. unfold Z.succ. rewrite inject_Z_plus. ring. Qed.

Lemma tracked_window calls now last available finish buckets : (0 < config.(rt_requests_per_minute))%N → (0 < config.(rt_burst))%N →
  not_negative buckets → tracked buckets now last available → of_key calls → in_time_order calls → within now finish calls → (now <= finish)%N →
  inject_Z (Z.of_nat (admitted key calls (allow_all calls buckets).1)) <=
    available + gain config (finish - last) + inject_Z (Z.of_nat (length calls)) * drift config.
Proof using Hhour.
  intros Hpm Hbu. revert now last available buckets.
  induction calls as [|c calls IH]; intros now last available buckets Hnn Ht Hkey Hsort Hin Hfin.
  { cbn. destruct Ht as (H0 & _). pose proof (gain_nonneg config (finish - last)). pose proof (drift_nonneg config). change (inject_Z (Z.of_nat 0)) with 0. lra. }
  apply Forall_cons in Hkey as [Hk Hkey], Hin as [[Hc1 Hc2] Hin]. apply StronglySorted_inv in Hsort as [Hsort Hle].
  pose proof (within_tail c calls _ finish Hle Hin) as Hin'.
  cbn [allow_all length]. pose proof (allow_not_negative c.(ra_now) c.(ra_key) c.(ra_config) buckets Hnn) as Hnn'.
  pose proof (drift_nonneg config) as Hd. rewrite (calls_drift (length calls)).
  destruct (decide (c.(ra_key) = key)) as [Ek|Hne].
  - pose proof (Hk Ek) as Ec. rewrite Ek, Ec in Hnn' |- *. pose proof (tracked_own buckets now last available c.(ra_now) Hpm Hbu Hnn Ht Hc1) as Hown.
    destruct (allow _ key config buckets) as [d b'] eqn:Ea. cbn [snd] in Hnn'.
    specialize (IH _ _ _ b' Hnn' Hown Hkey Hsort Hin' Hc2). destruct (allow_all calls b') as [ds b''] eqn:El. cbn [fst] in IH |- *.
    rewrite admitted_cons, (bool_decide_true _ Ek). cbn [andb].
    assert (gain config (finish - last) == gain config (c.(ra_now) - last) + gain config (finish - c.(ra_now))) as Eg.
    { rewrite <- gain_add. destruct Ht as (_ & Hl & _). f_equiv. lia. }
    rewrite Eg. destruct (is_allowed d); lra.
  - pose proof (tracked_other buckets now last available c.(ra_now) _ c.(ra_config) Hne Hnn Ht Hc1) as Hoth.
    destruct (allow _ _ _ buckets) as [d b'] eqn:Ea. cbn [snd] in Hnn', Hoth.
    specialize (IH _ _ _ b' Hnn' Hoth Hkey Hsort Hin' Hc2). destruct (allow_all calls b') as [ds b''] eqn:El. cbn [fst] in IH |- *.
    rewrite admitted_cons, (bool_decide_false _ Hne). cbn [andb]. lra.
Qed.

Lemma untracked_window calls start finish buckets : (0 < config.(rt_requests_per_minute))%N → (0 < config.(rt_burst))%N →
  not_negative buckets → of_key calls → in_time_order calls → within start finish calls →
  inject_Z (Z.of_nat (admitted key calls (allow_all calls buckets).1)) <=
    burst + gain config (finish - start) + inject_Z (Z.of_nat (length calls)) * drift config.
Proof using Hhour.
  intros Hpm Hbu. revert buckets. induction calls as [|c calls IH]; intros buckets Hnn Hkey Hsort Hin.
  { cbn. pose proof (gain_nonneg config (finish - start)). pose proof (drift_nonneg config). pose proof (N_nonneg config.(rt_burst)).
    change (inject_Z (Z.of_nat 0)) with 0. lra. }
  apply Forall_cons in Hkey as [Hk Hkey], Hin as [[Hc1 Hc2] Hin]. apply StronglySorted_inv in Hsort as [Hsort Hle].
  cbn [allow_all length]. pose proof (allow_not_negative c.(ra_now) c.(ra_key) c.(ra_config) buckets Hnn) as Hnn'.
  pose proof (drift_nonneg config) as Hd. rewrite (calls_drift (length calls)).
  destruct (decide (c.(ra_key) = key)) as [Ek|Hne].
  - pose proof (within_tail c calls _ finish Hle Hin) as Hin'. pose proof (Hk Ek) as Ec. rewrite Ek, Ec in Hnn' |- *. pose proof (untracked_own buckets c.(ra_now) Hpm Hbu Hnn) as Hown.
    destruct (allow _ key config buckets) as [d b'] eqn:Ea. cbn [snd] in Hnn'.
    pose proof (tracked_window calls _ _ _ finish b' Hpm Hbu Hnn' Hown Hkey Hsort Hin' Hc2) as Hw.
    destruct (allow_all calls b') as [ds b''] eqn:El. cbn [fst] in Hw |- *.
    rewrite admitted_cons, (bool_decide_true _ Ek). cbn [andb].
    pose proof (gain_mono config (finish - c.(ra_now)) (finish - start) ltac:(lia)). destruct (is_allowed d); lra.
  - destruct (allow _ _ _ buckets) as [d b'] eqn:Ea. cbn [snd] in Hnn'. specialize (IH b' Hnn' Hkey Hsort Hin).
    destruct (allow_all calls b') as [ds b''] eqn:El. cbn [fst] in IH |- *.
    rewrite admitted_cons, (bool_decide_false _ Hne). cbn [andb]. lra.
Qed.

(** A limit of nothing admits nothing. *)
Lemma zero_window calls buckets : (config.(rt_requests_per_minute) = 0 ∨ config.(rt_burst) = 0)%N → of_key calls →
  admitted key calls (allow_all calls buckets).1 = 0%nat.
Proof.
  intros Hz. revert buckets. induction calls as [|c calls IH]; intros buckets Hkey; [done|].
  apply Forall_cons in Hkey as [Hk Hkey]. cbn [allow_all]. destruct (allow _ _ _ buckets) as [d b'] eqn:Ea. specialize (IH b' Hkey).
  destruct (allow_all calls b') as [ds b''] eqn:El. cbn [fst admitted] in IH |- *. rewrite IH.
  destruct (decide (c.(ra_key) = key)) as [Ek|Hne]; [|by rewrite bool_decide_false].
  rewrite (Hk Ek) in Ea. unfold allow in Ea. assert ((config.(rt_requests_per_minute) =? 0)%N || (config.(rt_burst) =? 0)%N = true) as Eo.
  { apply orb_true_iff. rewrite !N.eqb_eq. done. }
  rewrite Eo in Ea. injection Ea as [= <- <-]. cbn [is_allowed]. by rewrite andb_false_r.
Qed.
End window.

Lemma allow_all_not_negative calls buckets : not_negative buckets → not_negative (allow_all calls buckets).2.
Proof.
  revert buckets. induction calls as [|c calls IH]; intros buckets Hnn; [done|]. cbn [allow_all].
  pose proof (allow_not_negative c.(ra_now) c.(ra_key) c.(ra_config) buckets Hnn) as Hnn'. destruct (allow _ _ _ buckets) as [d b']. cbn [snd] in Hnn'.
  specialize (IH b' Hnn'). by destruct (allow_all calls b').
Qed.

Local Close Scope Q_scope.
Local Open Scope N_scope.

(** ** The concurrent requests of a key *)
Record PermitTable := {
  pt_active : ConcurrencyState;
  pt_held : list string;
}.

(** A request asks for a permit of its key, with the limit of its grant; a permit that is held is dropped. *)
Inductive permit_step (limit_of : string → N) : PermitTable → PermitTable → Prop :=
  | acquire_step key limit active active' held : limit <= limit_of key → try_acquire key limit active = (true, active') →
      permit_step limit_of {| pt_active := active; pt_held := held |} {| pt_active := active'; pt_held := key :: held |}
  | refused_step key limit active active' held : limit <= limit_of key → try_acquire key limit active = (false, active') →
      permit_step limit_of {| pt_active := active; pt_held := held |} {| pt_active := active'; pt_held := held |}
  | drop_step key active before after :
      permit_step limit_of {| pt_active := active; pt_held := before ++ key :: after |}
        {| pt_active := permit_drop key active; pt_held := before ++ after |}.

Definition no_permits : PermitTable := {| pt_active := ∅; pt_held := [] |}.

Definition permits_reachable (limit_of : string → N) : PermitTable → Prop := rtc (permit_step limit_of) no_permits.

(** The permits of a key that are held. *)
Definition held_of (key : string) (held : list string) : nat := length (filter (λ k, k = key) held).

Definition permits_ok (limit_of : string → N) (t : PermitTable) : Prop :=
  ∀ key, default 0 (t.(pt_active) !! key) = N.of_nat (held_of key t.(pt_held)) ∧ N.of_nat (held_of key t.(pt_held)) <= limit_of key.

Lemma held_of_cons key k held : held_of key (k :: held) = ((if decide (k = key) then 1 else 0) + held_of key held)%nat.
Proof. unfold held_of. rewrite filter_cons. by destruct (decide (k = key)). Qed.

Lemma held_of_remove key k before after : held_of key (before ++ k :: after) = ((if decide (k = key) then 1 else 0) + held_of key (before ++ after))%nat.
Proof. unfold held_of. rewrite !filter_app, filter_cons, !length_app. destruct (decide (k = key)); cbn; lia. Qed.

Lemma try_acquire_lookup key limit active : let '(given, active') := try_acquire key limit active in
  (given = true ↔ default 0 (active !! key) < limit) ∧
  (∀ k, default 0 (active' !! k) = default 0 (active !! k) + if given && bool_decide (key = k) then 1 else 0).
Proof.
  unfold try_acquire. destruct (limit <=? _) eqn:E; [apply N.leb_le in E|apply N.leb_gt in E]; (split; [by split; [intros|lia]|]); intros k.
  - rewrite N.add_0_r. destruct (decide (key = k)) as [<-|Hne]; [by rewrite lookup_insert_eq|by rewrite lookup_insert_ne].
  - cbn [andb]. case_bool_decide as Hk; [subst; by rewrite lookup_insert_eq|]. by rewrite lookup_insert_ne, N.add_0_r.
Qed.

Lemma permit_drop_lookup key active k : default 0 (permit_drop key active !! k) = default 0 (active !! k) - if decide (key = k) then 1 else 0.
Proof.
  unfold permit_drop. destruct (active !! key) as [count|] eqn:E.
  - unfold saturating_sub. destruct (decide (key = k)) as [<-|Hne]; destruct (N.eqb_spec (count - 1) 0) as [E0|E0];
      rewrite ?lookup_delete_eq, ?lookup_delete_ne, ?lookup_insert_eq, ?lookup_insert_ne, ?E by done; cbn; lia.
  - destruct (decide (key = k)) as [<-|]; [|by rewrite N.sub_0_r]. by rewrite E.
Qed.

Lemma permit_step_ok limit_of t t' : permit_step limit_of t t' → permits_ok limit_of t → permits_ok limit_of t'.
Proof.
  intros Hstep H k. specialize (H k) as [H1 H2]. destruct Hstep as [key limit active active' held Hl E|key limit active active' held Hl E|key active before after];
    cbn [pt_active pt_held] in *.
  - pose proof (try_acquire_lookup key limit active) as Ht. rewrite E in Ht. destruct Ht as [Ht Hd]. rewrite Hd, held_of_cons. cbn [andb].
    destruct (decide (key = k)) as [->|Hne].
    + rewrite bool_decide_true by done. pose proof (proj1 Ht eq_refl). lia.
    + rewrite bool_decide_false by done. lia.
  - pose proof (try_acquire_lookup key limit active) as Ht. rewrite E in Ht. destruct Ht as [_ Hd]. rewrite Hd. cbn [andb]. lia.
  - rewrite permit_drop_lookup. rewrite held_of_remove in H1, H2. destruct (decide (key = k)); lia.
Qed.

Lemma permits_reachable_ok limit_of t : permits_reachable limit_of t → permits_ok limit_of t.
Proof.
  intros H. unfold permits_reachable in H. remember no_permits as t0 eqn:E. assert (permits_ok limit_of t0) as H0 by (subst; intros key; split; [done|apply N.le_0_l]).
  clear E. induction H as [|t0 t1 t Hs _ IH]; [done|]. apply IH. by eapply permit_step_ok.
Qed.

(** ** The systems of the sessions *)
Inductive SessionOp :=
  | Op_Remember (now : Duration) (digest : string) (os : ClientOs)
  | Op_Resolve (now : Duration) (digest : string).

Definition op_now (op : SessionOp) : Duration := match op with Op_Remember now _ _ => now | Op_Resolve now _ => now end.

Section session_proofs.
Context (hash_order : gmap string ClientOsSessionEntry → list (string * ClientOsSessionEntry)).
Context (hash_order_all : ∀ m, hash_order m ≡ₚ map_to_list m).

Definition session_step (op : SessionOp) (self : ClientOsSessionCache) : option ClientOs * ClientOsSessionCache :=
  match op with
  | Op_Remember now digest os => (None, remember hash_order now digest os self)
  | Op_Resolve now digest => resolve_session now digest self
  end.

Definition session_run (ops : list SessionOp) (self : ClientOsSessionCache) : ClientOsSessionCache :=
  foldl (λ self op, (session_step op self).2) self ops.

(** The system that was remembered last for a session. *)
Definition last_remembered (digest : string) (ops : list SessionOp) : option ClientOs :=
  foldl (λ found op, match op with Op_Remember _ d os => if decide (d = digest) then Some os else found | Op_Resolve _ _ => found end) None ops.

Lemma last_remembered_snoc digest ops op : last_remembered digest (ops ++ [op]) =
  match op with Op_Remember _ d os => if decide (d = digest) then Some os else last_remembered digest ops | Op_Resolve _ _ => last_remembered digest ops end.
Proof. unfold last_remembered. by rewrite foldl_app. Qed.

Lemma prune_os_size now ttl entries : (size (prune_os_sessions now ttl entries) <= size entries)%nat.
Proof. apply map_subseteq_size, map_filter_subseteq. Qed.

Record sessions_ok (ttl : Duration) (capacity : nat) (ops : list SessionOp) (self : ClientOsSessionCache) : Prop := {
  so_ttl : self.(oc_ttl) = ttl;
  so_capacity : self.(oc_capacity) = Nat.max capacity 1;
  so_bounded : (size self.(oc_entries) <= Nat.max capacity 1)%nat;
  so_sticky : ∀ digest entry, self.(oc_entries) !! digest = Some entry → last_remembered digest ops = Some entry.(os_os);
}.

Lemma pruned_lookup now ttl entries digest entry : prune_os_sessions now ttl entries !! digest = Some entry →
  entries !! digest = Some entry ∧ saturating_sub now ttl <= entry.(os_last_seen).
Proof. unfold prune_os_sessions. by intros H%map_lookup_filter_Some. Qed.

(** What [remember] keeps before it adds its entry. *)
Lemma remembered_entries now digest os self : (0 < self.(oc_capacity))%nat → (size self.(oc_entries) <= self.(oc_capacity))%nat →
  ∃ kept, kept ⊆ self.(oc_entries) ∧
    (remember hash_order now digest os self).(oc_entries) = <[digest := {| os_os := os; os_last_seen := now |}]> kept ∧
    ((size kept < self.(oc_capacity))%nat ∨ (size kept <= self.(oc_capacity))%nat ∧ is_Some (kept !! digest)).
Proof using hash_order_all.
  intros Hcap Hsize. unfold remember. cbn [oc_entries]. set (entries := prune_os_sessions _ _ _).
  assert (entries ⊆ self.(oc_entries)) as Hsub by apply map_filter_subseteq. pose proof (prune_os_size now self.(oc_ttl) self.(oc_entries)) as Hp.
  fold entries in Hp. destruct (_ && _) eqn:E.
  - apply andb_true_iff in E as [Hc%Nat.leb_le Hd].
    destruct (min_by seen_order (hash_order entries)) as [[oldest e]|] eqn:Em.
    + exists (delete oldest entries). split_and!; [etrans; [apply delete_subseteq|done]|done|].
      apply (min_by_spec seen_order (λ _, True)) in Em as [Hin _]; [|apply Ncompare_ok|done].
      rewrite hash_order_all, elem_of_map_to_list in Hin. left. rewrite map_size_delete, Hin. lia.
    + apply min_by_None in Em. pose proof (hash_order_all entries) as Hperm. rewrite Em in Hperm. apply Permutation_nil, map_to_list_empty_iff in Hperm.
      rewrite Hperm, map_size_empty in Hc. lia.
  - exists entries. split_and!; [done|done|]. apply andb_false_iff in E as [E%Nat.leb_gt|E].
    + left. lia.
    + right. split; [lia|]. destruct (entries !! digest); [by eexists|done].
Qed.

Lemma session_step_ok ttl capacity ops op self : sessions_ok ttl capacity ops self → sessions_ok ttl capacity (ops ++ [op]) (session_step op self).2.
Proof using hash_order_all.
  intros [Httl Hcap Hsize Hsticky]. destruct op as [now digest os|now digest]; cbn [session_step snd].
  - destruct (remembered_entries now digest os self ltac:(lia) ltac:(lia)) as (kept & Hsub & He & Hk). split; [done|done| |]; rewrite He.
    + destruct Hk as [Hk|[Hk [e Hd]]]; [|rewrite map_size_insert, Hd; cbn; lia].
      rewrite map_size_insert. destruct (kept !! digest); cbn; lia.
    + intros d entry Hl. rewrite last_remembered_snoc. destruct (decide (digest = d)) as [<-|Hne].
      * rewrite lookup_insert_eq in Hl. by injection Hl as [= <-].
      * rewrite lookup_insert_ne in Hl by done. apply Hsticky. by eapply lookup_weaken.
  - unfold resolve_session. pose proof (prune_os_size now self.(oc_ttl) self.(oc_entries)) as Hp.
    destruct (prune_os_sessions _ _ _ !! digest) as [entry|] eqn:El; cbn [snd]; (split; [done|done| |]); cbn [oc_entries].
    + rewrite map_size_insert, El. cbn. lia.
    + intros d e Hl. rewrite last_remembered_snoc. destruct (decide (digest = d)) as [<-|Hne].
      * rewrite lookup_insert_eq in Hl. injection Hl as [= <-]. cbn. apply Hsticky. by apply pruned_lookup in El as [El _].
      * rewrite lookup_insert_ne in Hl by done. apply Hsticky. by apply pruned_lookup in Hl as [Hl _].
    + lia.
    + intros d e Hl. rewrite last_remembered_snoc. apply Hsticky. by apply pruned_lookup in Hl as [Hl _].
Qed.

Lemma session_run_ok ttl capacity ops : sessions_ok ttl capacity ops (session_run ops (session_cache_new ttl capacity)).
Proof using hash_order_all.
  induction ops as [|op ops IH] using rev_ind.
  - split; [done|done| |]; cbn; [rewrite map_size_empty; lia|]. intros d e. by rewrite lookup_empty.
  - unfold session_run. rewrite foldl_app. by apply session_step_ok.
Qed.
End session_proofs.

(** ** Properties *)

(** C27: the rate limit of a key holds over every window of calls, whatever the other keys do and whatever happened before: as long as the instants
    of the window do not go back and an hour refills a burst, at most the burst and the rate over the length of the window are admitted, and a
    part in 2{^50} for the rounding of the code's floating-point numbers. *)
Theorem key_rate_bounded key config before window start finish :
  config.(rt_burst) <= 60 * config.(rt_requests_per_minute) → of_key key config window → in_time_order window → within start finish window →
  (inject_Z (Z.of_nat (admitted key window (allow_all window (allow_all before ∅).2).1)) <= rate_bound config (finish - start) (length window))%Q.
Proof.
  intros Hhour Hkey Hsort Hin. assert (not_negative (allow_all before ∅).2) as Hnn by (by apply allow_all_not_negative, map_Forall_empty).
  pose proof (N_nonneg config.(rt_burst)) as HB. pose proof (N_nonneg config.(rt_requests_per_minute)) as HP. pose proof (N_nonneg (finish - start)) as HS.
  pose proof (N_nonneg (N.of_nat (length window))) as HL. rewrite nat_N_Z in HL.
  destruct (decide (0 < config.(rt_requests_per_minute) ∧ 0 < config.(rt_burst))) as [[Hpm Hbu]|Hz].
  - eapply Qle_trans; [by apply (untracked_window key config Hhour _ start finish)|].
    unfold rate_bound, gain, drift, seconds, Qdiv. rewrite Nat2Z.inj_succ. unfold Z.succ. rewrite inject_Z_plus. change (inject_Z 1) with 1%Q.
    change (/ 60)%Q with (1 # 60)%Q. change (/ 1000000000)%Q with (1 # 1000000000)%Q. change (/ 60000000000)%Q with (1 # 60000000000)%Q. unfold EPSILON, UNIT. nra.
  - rewrite (zero_window key config) by (done || lia). unfold rate_bound, Qdiv. rewrite Nat2Z.inj_succ. unfold Z.succ. rewrite inject_Z_plus.
    change (/ 60000000000)%Q with (1 # 60000000000)%Q. change (inject_Z (Z.of_nat 0)) with 0%Q. change (inject_Z 1) with 1%Q. unfold EPSILON. nra.
Qed.

(** the limit on the concurrent requests of a key is exact: in every reachable state the count of a key is the number of its permits that are held,
    it never exceeds the largest limit that was asked for the key, and a permit is given exactly when the count is below the limit of the request. *)
Theorem key_permits_exact limit_of t key limit : permits_reachable limit_of t →
  let held := N.of_nat (held_of key t.(pt_held)) in
  default 0 (t.(pt_active) !! key) = held ∧ held <= limit_of key ∧ ((try_acquire key limit t.(pt_active)).1 = true ↔ held < limit).
Proof.
  intros H%permits_reachable_ok. destruct (H key) as [Hd Hl]. pose proof (try_acquire_lookup key limit t.(pt_active)) as Ht.
  destruct (try_acquire _ _ _) as [given active]. destruct Ht as [Ht _]. cbv zeta. rewrite <- Hd in Hl |- *. done.
Qed.

(** the memory of the systems of the sessions is bounded by its capacity, and what it answers for a session is what was remembered last for it;
    what is remembered is answered until the time to live has passed. *)
Theorem session_os_sticky hash_order ttl capacity ops : (∀ m, hash_order m ≡ₚ map_to_list m) →
  let cache := session_run hash_order ops (session_cache_new ttl capacity) in
  (size cache.(oc_entries) <= Nat.max capacity 1)%nat ∧
  (∀ now digest os, (resolve_session now digest cache).1 = Some os → last_remembered digest ops = Some os) ∧
  (∀ now later digest os, later <= now + ttl → (resolve_session later digest (remember hash_order now digest os cache)).1 = Some os).
Proof.
  intros Hperm cache. destruct (session_run_ok hash_order Hperm ttl capacity ops) as [Httl Hcap Hsize Hsticky]. fold cache in Httl, Hcap, Hsize, Hsticky.
  split_and!; [done| |].
  - intros now digest os. unfold resolve_session. destruct (prune_os_sessions _ _ _ !! digest) as [entry|] eqn:E; [|done].
    intros [= <-]. apply Hsticky. by apply pruned_lookup in E as [E _].
  - intros now later digest os Hlater. unfold resolve_session, remember. cbn [oc_ttl oc_entries]. rewrite Httl.
    assert (∀ m, prune_os_sessions later ttl (<[digest := {| os_os := os; os_last_seen := now |}]> m) !! digest = Some {| os_os := os; os_last_seen := now |}) as ->; [|done].
    intros m. unfold prune_os_sessions. apply map_lookup_filter_Some. rewrite lookup_insert_eq. split; [done|]. unfold saturating_sub. cbn. lia.
Qed.

(** ** Samples *)
Definition sample_call (now : N) (key : string) : RateCall := {| ra_now := now * NANOS_PER_SEC; ra_key := key; ra_config := DEFAULT_MESSAGES |}.

Lemma key_rate_bounded_witness :
  DEFAULT_MESSAGES.(rt_burst) <= 60 * DEFAULT_MESSAGES.(rt_requests_per_minute) ∧
  (inject_Z (Z.of_nat (admitted "a" [sample_call 1 "a"; sample_call 2 "b"; sample_call 3 "a"]
    (allow_all [sample_call 1 "a"; sample_call 2 "b"; sample_call 3 "a"] (allow_all [sample_call 5 "a"] ∅).2).1)) <=
  rate_bound DEFAULT_MESSAGES (2 * NANOS_PER_SEC) 3)%Q.
Proof.
  split; [by vm_compute|]. apply (key_rate_bounded "a" DEFAULT_MESSAGES [sample_call 5 "a"] [sample_call 1 "a"; sample_call 2 "b"; sample_call 3 "a"]
    (1 * NANOS_PER_SEC) (3 * NANOS_PER_SEC)).
  - by vm_compute.
  - by repeat constructor.
  - repeat constructor; by vm_compute.
  - repeat constructor; by vm_compute.
Defined.

(** The answers of a bucket of two: its burst, a refusal that says how long to wait, and a token after that time. *)
Example sample_rates :
  let config := {| rt_requests_per_minute := 40; rt_burst := 2 |} in
  let call now := {| ra_now := now * NANOS_PER_SEC; ra_key := "k"; ra_config := config |} in
  (allow_all [call 0; call 0; call 0; call 2; call 2] ∅).1 = [Rate_Allowed; Rate_Allowed; Rate_Limited 2; Rate_Allowed; Rate_Limited 2].
Proof. by vm_compute. Qed.

(** The clock is read before the lock is taken, so that the instants can go back in the order of the lock; each return to an earlier instant lets the
    same time be counted again. *)
Example instants_may_go_back :
  let config := {| rt_requests_per_minute := 60; rt_burst := 1 |} in
  let call now := {| ra_now := now * NANOS_PER_SEC; ra_key := "k"; ra_config := config |} in
  (allow_all [call 10; call 9; call 10; call 9; call 10; call 9; call 10] ∅).1 =
    [Rate_Allowed; Rate_Limited 1; Rate_Allowed; Rate_Limited 1; Rate_Allowed; Rate_Limited 1; Rate_Allowed].
Proof. by vm_compute. Qed.

Lemma key_permits_exact_witness :
  permits_reachable (λ _, 1) {| pt_active := <["k" := 1]> ∅; pt_held := ["k"] |} ∧ (try_acquire "k" 1 (<["k" := 1]> ∅)).1 ≠ true.
Proof.
  assert (permits_reachable (λ _, 1) {| pt_active := <["k" := 1]> ∅; pt_held := ["k"] |}) as Hr.
  { eapply rtc_l; [|apply rtc_refl]. apply (acquire_step _ "k" 1); [done|]. unfold try_acquire. by rewrite lookup_empty. }
  split; [done|]. intros E. apply (key_permits_exact (λ _, 1) _ "k" 1 Hr) in E. by vm_compute in E.
Defined.

Lemma session_os_sticky_witness :
  (∀ m : gmap string ClientOsSessionEntry, map_to_list m ≡ₚ map_to_list m) ∧
  (size (session_run map_to_list [Op_Remember 1 "a" MacOs; Op_Remember 2 "b" Linux] (session_cache_new 5 1)).(oc_entries) <= 1)%nat.
Proof.
  split; [done|]. by apply (session_os_sticky map_to_list 5 1 [Op_Remember 1 "a" MacOs; Op_Remember 2 "b" Linux]).
Defined.
