(* ===== verification/EdgeGates.v ===== *)
(** The gates of the edge that need no state: [crates/gateway-api/src/edge.rs], from [classify_route] to [safe_upstream_header], with the
    grants and the resolvers of [crates/gateway-api/src/data.rs].

    A [HeaderMap] is the finite map of its names, in lower case, to their values, which are in the order of their arrival; it keeps no order of the names. Which values are visible text
    ([HeaderValue::to_str]), addresses, networks, SHA-256 and the keyed digest of the lookup are parameters. *)

From Stdlib Require Import Ascii.
From S2P Require Import Prelude Machine.
From S2P Require Import Bytes.
From S2P Require Import Domain.
From S2P Require Import Json.
From S2P Require Import SystemSegments.
From S2P Require Import SystemBilling.
From S2P Require Import RequestParser.
From S2P Require Import Capability.
From S2P Require Import Policy.
From S2P Require Import ClientRequest.
From S2P Require Import Dispatch.
From S2P Require Import AccessLimits.
Local Open Scope N_scope.

(** ** Errors *)
Record GatewayError := {
  ge_status : N;
  ge_kind : bytes;
  ge_message : bytes;
  ge_retry_after : option N;
  ge_allow : option bytes;
}.

Definition error_new (status : N) (kind message : string) : GatewayError :=
  {| ge_status := status; ge_kind := bs kind; ge_message := bs message; ge_retry_after := None; ge_allow := None |}.

Definition with_retry_after (retry_after : N) (e : GatewayError) : GatewayError :=
  {| ge_status := e.(ge_status); ge_kind := e.(ge_kind); ge_message := e.(ge_message); ge_retry_after := Some retry_after; ge_allow := e.(ge_allow) |}.

Definition error_authentication : GatewayError := error_new 401 "authentication_error" "Invalid API key.".

Definition error_permission : GatewayError := error_new 403 "permission_error" "This request is not permitted.".

Definition error_not_found : GatewayError := error_new 404 "not_found_error" "The requested resource could not be found.".

Definition error_method (allow : string) : GatewayError :=
  {| ge_status := 405; ge_kind := bs "invalid_request_error"; ge_message := bs "Method not allowed."; ge_retry_after := None; ge_allow := Some (bs allow) |}.

Definition error_invalid_body : GatewayError := error_new 400 "invalid_request_error" "Invalid request body.".

Definition error_model_unavailable : GatewayError :=
  error_new 400 "invalid_request_error" "The requested model is not available for this API key.".

Definition error_bundle_unavailable : GatewayError :=
  error_new 503 "bundle_unavailable" "The requested client environment is temporarily unavailable.".

Definition error_too_large : GatewayError := error_new 413 "request_too_large" "Request is too large.".

Definition error_rate_limited (retry_after : N) : GatewayError :=
  with_retry_after (N.max retry_after 1) (error_new 429 "rate_limit_error" "Rate limit exceeded.").

Definition error_unavailable_without_retry : GatewayError := error_new 503 "api_error" "Service unavailable.".

Definition error_unavailable (retry_after : N) : GatewayError := with_retry_after (N.max retry_after 1) error_unavailable_without_retry.

Definition error_timeout : GatewayError := error_new 504 "timeout_error" "Request timed out.".

Definition error_internal : GatewayError := with_retry_after 1 (error_new 500 "api_error" "Internal server error.").

Definition map_policy_error (error : PolicyError) : GatewayError :=
  match error with
  | ModelUnavailable => error_model_unavailable
  | PolicyCapability (diagnostic :: _) =>
      {| ge_status := 400; ge_kind := bs "invalid_request_error";
         ge_message := bs "Invalid request at " ++ diagnostic.(cd_path) ++ bs ": " ++ diagnostic.(cd_code) ++ bs "."; ge_retry_after := None; ge_allow := None |}
  | PolicyCapability [] => error_invalid_body
  | CapabilityRuntimeConflict | Serializer => error_internal
  | _ => error_invalid_body
  end.

(** ** Routes *)
Inductive Method := GET | POST | OtherMethod (name : bytes).

#[export] Instance Method_eq_dec : EqDecision Method.
Proof. solve_decision. Defined.

Inductive EndpointPermission := Permission_Messages | Permission_Models.

#[export] Instance EndpointPermission_eq_dec : EqDecision EndpointPermission.
Proof. solve_decision. Defined.

Inductive BusinessRoute :=
  | Route_OpenAi (endpoint : OpenAiEndpoint)
  | Route_Messages
  | Route_CountTokens
  | Route_Models
  | Route_Unknown.

Definition expected_method (self : BusinessRoute) : Method :=
  match self with Route_Messages | Route_CountTokens | Route_OpenAi _ => POST | Route_Models | Route_Unknown => GET end.

Definition permission (self : BusinessRoute) : option EndpointPermission :=
  match self with
  | Route_Messages | Route_CountTokens | Route_OpenAi _ => Some Permission_Messages
  | Route_Models => Some Permission_Models
  | Route_Unknown => None
  end.

Definition method_error (self : BusinessRoute) : GatewayError :=
  match self with
  | Route_Messages | Route_CountTokens | Route_OpenAi _ => error_method "POST"
  | Route_Models => error_method "GET"
  | Route_Unknown => error_not_found
  end.

Definition one_of (names : list string) (l : bytes) : bool := existsb (λ name, bool_decide (bs name = l)) names.

Definition classify_route (path : bytes) : BusinessRoute :=
  if one_of ["/v1/responses"; "/responses"] path then Route_OpenAi Responses
  else if one_of ["/v1/chat/completions"; "/chat/completions"] path then Route_OpenAi ChatCompletions
  else if one_of ["/v1/responses/compact"; "/responses/compact"] path then Route_OpenAi Compact
  else if one_of ["/v1/messages"] path then Route_Messages
  else if one_of ["/v1/messages/count_tokens"] path then Route_CountTokens
  else if one_of ["/v1/models"; "/models"; "/backend-api/codex/models"] path then Route_Models
  else if starts_with (bs "/v1/models/") path || starts_with (bs "/models/") path then Route_Models
  else Route_Unknown.

Definition is_openai_route (route : BusinessRoute) : bool := match route with Route_OpenAi _ => true | _ => false end.

(** ** Headers *)
Abbreviation HeaderMap := (gmap bytes (list bytes)).

Definition get_all (name : string) (headers : HeaderMap) : list bytes := default [] (headers !! bs name).

Definition header_remove (name : string) (headers : HeaderMap) : HeaderMap := delete (bs name) headers.

Definition header_insert (name : string) (value : bytes) (headers : HeaderMap) : HeaderMap := <[bs name := [value]]> headers.

Definition header_append (name value : bytes) (headers : HeaderMap) : HeaderMap := <[name := default [] (headers !! name) ++ [value]]> headers.

Definition header_present (name : string) (headers : HeaderMap) : bool := negb (is_empty (get_all name headers)).

Section headers.
Context (visible : bytes → bool).

Definition to_str (value : bytes) : option bytes := if visible value then Some value else None.

Definition header_string (headers : HeaderMap) (name : string) : option bytes :=
  match get_all name headers with
  | [value] =>
      value ← to_str value;
      if negb (is_empty value) && (length value <=? 1024)%nat then Some value else None
  | _ => None
  end.

Definition contains (needle haystack : bytes) : bool := is_some (find_bytes needle haystack).

Definition header_contains (headers : HeaderMap) (name needle : string) : bool :=
  is_some_and (λ value, contains (bs needle) (to_lowercase_ascii value)) (header_string headers name).

(** ** Authentication *)
Definition normalize_api_key (value : bytes) : option bytes :=
  if is_empty value || negb (bool_decide (trim value = value)) || (512 <? length value)%nat || existsb (Ascii.eqb ",") value then None
  else Some value.

Definition normalize_bearer (value : bytes) : option bytes :=
  '(scheme, secret) ← split_once " " value;
  if negb (eq_ignore_ascii_case scheme (bs "bearer")) || existsb (Ascii.eqb " ") secret then None else normalize_api_key secret.

Definition constant_equal (left right : bytes) : bool := (length left =? length right)%nat && bool_decide (left = right).

Definition scrub_auth (headers : HeaderMap) : HeaderMap := header_remove "authorization" (header_remove "x-api-key" headers).

(** The secret that the headers present. *)
Definition presented_secret (headers : HeaderMap) : option bytes :=
  let api_values := get_all "x-api-key" headers in
  let auth_values := get_all "authorization" headers in
  let api := (head api_values ≫= to_str) ≫= normalize_api_key in
  let bearer := (head auth_values ≫= to_str) ≫= normalize_bearer in
  match api, bearer with
  | Some api, Some bearer => if constant_equal api bearer then Some api else None
  | Some api, None => if is_empty auth_values then Some api else None
  | None, Some bearer => if is_empty api_values then Some bearer else None
  | None, None => None
  end.

Definition authenticate {Grant} (access : bytes → option Grant) (headers : HeaderMap) : option Grant * HeaderMap :=
  let api_values := get_all "x-api-key" headers in
  let auth_values := get_all "authorization" headers in
  if (1 <? length api_values)%nat || (1 <? length auth_values)%nat || (is_empty api_values && is_empty auth_values) then (None, scrub_auth headers)
  else (presented_secret headers ≫= access, scrub_auth headers).

(** ** Framing *)
Definition valid_content_type (value : bytes) : bool :=
  match trim <$> split ";" value with
  | media :: parameters =>
      eq_ignore_ascii_case media (bs "application/json") &&
      forallb (λ parameter,
        match split_once "=" parameter with
        | Some (name, value) => eq_ignore_ascii_case (trim name) (bs "charset") && eq_ignore_ascii_case (trim value) (bs "utf-8")
        | None => false
        end) parameters
  | [] => false
  end.

Definition header_text (headers : HeaderMap) (name : string) : option bytes := head (get_all name headers) ≫= to_str.

Definition content_length (headers : HeaderMap) : option N := header_text headers "content-length" ≫= from_str_radix 10 USIZE_MAX.

Definition validate_framing (headers : HeaderMap) : result GatewayError unit :=
  if negb (length (get_all "content-type" headers) =? 1)%nat || (1 <? length (get_all "content-length" headers))%nat
     || (1 <? length (get_all "transfer-encoding" headers))%nat
     || (header_present "content-length" headers && header_present "transfer-encoding" headers)
  then Err error_invalid_body
  else
    match header_text headers "content-type" with
    | None => Err error_invalid_body
    | Some content_type =>
        if negb (valid_content_type content_type) then Err error_invalid_body
        else if is_some_and (λ value, negb (eq_ignore_ascii_case value (bs "identity"))) (header_text headers "content-encoding") then Err error_invalid_body
        else if header_present "content-length" headers && negb (is_some (content_length headers)) then Err error_invalid_body
        else Ok tt
    end.
End headers.

(** ** Addresses *)
Section addresses.
Context (visible : bytes → bool) {IpAddr IpNet : Type} `{EqDecision IpAddr} (parse_ip : bytes → option IpAddr) (net_contains : IpNet → IpAddr → bool).

Definition trusts (networks : list IpNet) (address : IpAddr) : bool := existsb (λ network, net_contains network address) networks.

Definition source_ip (trusted : list IpNet) (peer : IpAddr) (headers : HeaderMap) : IpAddr :=
  if negb (trusts trusted peer) then peer
  else
    match header_text visible headers "x-forwarded-for" with
    | None => peer
    | Some forwarded =>
        let chain := default [] (mapM parse_ip (trim <$> split "," forwarded)) ++ [peer] in
        default peer (List.find (λ address, negb (trusts trusted address)) (rev chain))
    end.
End addresses.

(** ** Grants *)
#[export] Instance ClientClass_eq_dec : EqDecision ClientClass.
Proof. solve_decision. Defined.

Record AccessGrant (Num F IpNet : Type) := {
  ag_provider : Provider;
  ag_owner_user_id : UserId;
  ag_platform_key_id : PlatformKeyId;
  ag_group_id : GroupId;
  ag_permissions : list EndpointPermission;
  ag_key_model_scope : gset bytes;
  ag_group_model_scope : gset bytes;
  ag_body_limit_bytes : N;
  ag_messages_rate : RateLimit;
  ag_count_tokens_rate : RateLimit;
  ag_models_rate : RateLimit;
  ag_concurrency_limit : N;
  ag_ip_allowlist : list IpNet;
  ag_accepted_client_classes : list ClientClass;
  ag_default_os_family : ClientOs;
  ag_policy : RequestPolicy (Num := Num) (F := F);
}.
Arguments Build_AccessGrant {Num F IpNet}.
Arguments ag_provider {Num F IpNet}.
Arguments ag_owner_user_id {Num F IpNet}.
Arguments ag_platform_key_id {Num F IpNet}.
Arguments ag_group_id {Num F IpNet}.
Arguments ag_permissions {Num F IpNet}.
Arguments ag_key_model_scope {Num F IpNet}.
Arguments ag_group_model_scope {Num F IpNet}.
Arguments ag_body_limit_bytes {Num F IpNet}.
Arguments ag_messages_rate {Num F IpNet}.
Arguments ag_count_tokens_rate {Num F IpNet}.
Arguments ag_models_rate {Num F IpNet}.
Arguments ag_concurrency_limit {Num F IpNet}.
Arguments ag_ip_allowlist {Num F IpNet}.
Arguments ag_accepted_client_classes {Num F IpNet}.
Arguments ag_default_os_family {Num F IpNet}.
Arguments ag_policy {Num F IpNet}.

Section resolvers.
Context {Grant : Type} (sha256 : bytes → bytes) (lookup_digest : bytes → bytes → option bytes).

(** The last entry with the digest: every entry is compared. *)
Definition resolve_entries (candidate : bytes) (entries : list (bytes * Grant)) : option Grant :=
  foldl (λ found entry, if bool_decide (entry.1 = candidate) then Some entry.2 else found) None entries.

(** [InMemoryAccessResolver]. *)
Definition in_memory_new (entries : list (bytes * Grant)) : list (bytes * Grant) := prod_map sha256 id <$> entries.

Definition in_memory_resolve (entries : list (bytes * Grant)) (secret : bytes) : option Grant := resolve_entries (sha256 secret) entries.

(** [VersionedDigestAccessResolver]. *)
Definition versioned_resolve (digest_key : bytes) (entries : list (bytes * Grant)) (secret : bytes) : option Grant :=
  candidate ← lookup_digest digest_key (bs "platform-key:v1:" ++ secret); resolve_entries candidate entries.
End resolvers.

Definition model_in_scope (model : bytes) (scope : gset bytes) : bool := bool_decide (scope = ∅) || bool_decide (model ∈ scope).

(** ** The client of a request *)
Record ClassifiedClient := {
  cl_class : ClientClass;
  cl_base_session : SessionId;
  cl_agent : AgentId;
  cl_session_cache_key : option string;
  cl_identity_conflict : bool;
}.

Section clients.
Context {Num F : Type} `{SerdeJson Num F} (visible : bytes → bool) (sha256 : bytes → bytes) (from_str : bytes → option (Value Num)).
Implicit Types (tree : Value Num).

Definition valid_identity_component (value : bytes) : bool :=
  negb (is_empty value) && (length value <=? 128)%nat && made_of ["-"; "_"; ":"; "."]%char value.

(** The last occurrence of a separator, that is the first one from the back. *)
Definition rsplit_once_text (separator l : bytes) : option (bytes * bytes) :=
  position ← find_bytes (rev separator) (rev l);
  Some (take (length l - position - length separator) l, drop (length l - position) l).

Definition metadata_session_id tree : option bytes :=
  user_id ← pointer (bs "/metadata/user_id") tree ≫= as_str;
  let user_id := trim user_id in
  match rsplit_once_text (bs "_session_") user_id with
  | Some (_, suffix) => Some (trim suffix)
  | None =>
      if starts_with (bs "{") user_id then
        parsed ← from_str user_id; session_id ← get (bs "session_id") parsed ≫= as_str; Some (trim session_id)
      else None
  end.

(** [Value::to_string]. *)
Definition value_text value : bytes := default [] (to_vec value).

Definition count_signals (signals : list bool) : nat := length (filter (λ b, b = true) signals).

Definition client_class headers tree : ClientClass :=
  let user_id := pointer (bs "/metadata/user_id") tree ≫= as_str in
  if (2 <=? count_signals
        [header_contains visible headers "user-agent" "claude-code";
         is_some (header_string visible headers "x-claude-code-session-id");
         header_contains visible headers "x-app" "claude" || header_contains visible headers "x-stainless-lang" "js";
         is_some_and (λ value, contains (bs "session") value || starts_with (bs "user_") value) user_id;
         is_some_and (λ system, contains (bs "claude code") (to_lowercase_ascii (value_text system))) (get (bs "system") tree)])%nat
  then ClaudeCodeCli else NonClaudeCodeCli.

Definition class_debug (class : ClientClass) : bytes :=
  match class with ClaudeCodeCli => bs "ClaudeCodeCli" | NonClaudeCodeCli => bs "NonClaudeCodeCli" end.

(** An identifier from the first 32 digits of a digest; the fallback is for a text that is no identifier. *)
Definition digest_id (tag : IdTag) (prefix fallback : string) (source : bytes) : TypedId tag :=
  match TypedId_new tag (prefix ++ String.substring 0 32 (digest sha256 source)) with
  | Ok id => id
  | Err _ => MkTypedId fallback
  end.

Definition session_cache_key (session : bytes) : string := digest sha256 (bs "client-os-session:v1|" ++ session).

Definition classify_client (headers : HeaderMap) tree (platform_key_id : PlatformKeyId) : ClassifiedClient :=
  let class := client_class headers tree in
  let valid o := session ← o; if valid_identity_component session then Some session else None in
  let header_session := valid (header_string visible headers "x-claude-code-session-id") in
  let metadata_session := valid (metadata_session_id tree) in
  let identity_conflict :=
    match header_session, metadata_session with Some header, Some metadata => negb (bool_decide (header = metadata)) | _, _ => false end in
  let selected_session := if identity_conflict then None else match header_session with Some session => Some session | None => metadata_session end in
  let session_seed :=
    match selected_session with
    | Some session => bs "claude-session:v1|" ++ session
    | None => bs "anonymous-session:v1|" ++ bs (TypedId_as_str platform_key_id) ++ bs "|" ++ class_debug class
    end in
  let agent_source := default (bs "main") (valid (header_string visible headers "x-claude-code-agent-id")) in
  {| cl_class := class; cl_base_session := digest_id SessionTag "ses_" "ses_fallback" session_seed;
     cl_agent := digest_id AgentTag "agt_" "agt_fallback" (bs "claude-agent:v1|" ++ agent_source);
     cl_session_cache_key := session_cache_key <$> header_session; cl_identity_conflict := identity_conflict |}.

Definition parse_client_os (value : bytes) : option ClientOs :=
  let value := to_lowercase_ascii (trim value) in
  if one_of ["windows"] value then Some Windows
  else if one_of ["macos"; "mac_os"; "mac os"] value then Some MacOs
  else if one_of ["linux"] value then Some Linux
  else None.

Definition client_os_of_family (os : OsFamily) : ClientOs := match os with OsWindows => Windows | OsMacos => MacOs | OsLinux => Linux end.

(** What the headers and the body say of the system, and whether they disagree. *)
Definition os_evidence (headers : HeaderMap) tree : option ClientOs * option ClientOs * bool :=
  let header_os := header_string visible headers "x-stainless-os" ≫= parse_client_os in
  let environment_os :=
    client_os_of_family <$> (get (bs "system") tree ≫= λ system,
      environment ← (SystemSegments.parse system).(sg_environment); environment.(eb_platform_normalized)) in
  (header_os, environment_os,
   match header_os, environment_os with Some header, Some environment => negb (bool_decide (header = environment)) | _, _ => false end).

Definition protocol_headers (headers : HeaderMap) : gmap bytes (Value Num) :=
  list_to_map (omap (λ name, (λ value, (bs name, JString value)) <$> header_string visible headers name) ["anthropic-version"; "anthropic-beta"]).
End clients.

(** ** The models *)
Record ModelRecord (Num : Type) := {
  mr_openai_metadata : option (Value Num);
  mr_provider : Provider;
  mr_id : bytes;
  mr_display_name : bytes;
  mr_created_at : bytes;
}.
Arguments Build_ModelRecord {Num}.
Arguments mr_openai_metadata {Num}.
Arguments mr_provider {Num}.
Arguments mr_id {Num}.
Arguments mr_display_name {Num}.
Arguments mr_created_at {Num}.

(** [dedup_by] the identifier: of equal neighbours the first stays. *)
Fixpoint dedup_after {Num} (last : option bytes) (models : list (ModelRecord Num)) : list (ModelRecord Num) :=
  match models with
  | [] => []
  | m :: models => if bool_decide (last = Some m.(mr_id)) then dedup_after last models else m :: dedup_after (Some m.(mr_id)) models
  end.

Definition model_cmp {Num} (left right : ModelRecord Num) : comparison := key_cmp left.(mr_id) right.(mr_id).

(** [StaticModelCatalog::new]. *)
Definition catalog_new {Num} (models : list (ModelRecord Num)) : list (ModelRecord Num) := dedup_after None (sort_by model_cmp models).

Fixpoint percent_decode_bytes (value : bytes) : option bytes :=
  match value with
  | [] => Some []
  | "%"%char :: high :: low :: rest =>
      high ← to_digit 16 high; low ← to_digit 16 low; rest ← percent_decode_bytes rest; Some (ascii_of_N (high * 16 + low) :: rest)
  | "+"%char :: rest => cons " "%char <$> percent_decode_bytes rest
  | c :: rest => cons c <$> percent_decode_bytes rest
  end.

Definition percent_decode (value : bytes) : option bytes :=
  output ← percent_decode_bytes value; if utf8_valid output then Some output else None.

Record ModelsQuery := {
  mq_limit : nat;
  mq_after_id : option bytes;
}.

Fixpoint parse_pairs (items : list bytes) (limit : option nat) (after_id : option bytes) : result GatewayError (option nat * option bytes) :=
  match items with
  | [] => Ok (limit, after_id)
  | item :: items =>
      let '(name, value) := match split_once "=" item with Some parts => parts | None => (item, []) end in
      match percent_decode value with
      | None => Err error_invalid_body
      | Some value =>
          if bool_decide (name = bs "limit") && negb (is_some limit) then
            match from_str_radix 10 USIZE_MAX value with
            | Some parsed => if in_range 1 100 parsed then parse_pairs items (Some (N.to_nat parsed)) after_id else Err error_invalid_body
            | None => Err error_invalid_body
            end
          else if bool_decide (name = bs "after_id") && negb (is_some after_id) && negb (is_empty value) then parse_pairs items limit (Some value)
          else Err error_invalid_body
      end
  end.

Definition models_query_parse (query : option bytes) : result GatewayError ModelsQuery :=
  pairs ← parse_pairs (filter (λ value, value ≠ []) (split "&" (default [] query))) None None;
  Ok {| mq_limit := default 20%nat pairs.1; mq_after_id := pairs.2 |}.

Definition visible_models {Num F IpNet} (grant : AccessGrant Num F IpNet) (published : list (ModelRecord Num)) : list (ModelRecord Num) :=
  filter (λ model, model.(mr_provider) = grant.(ag_provider) ∧
    model_in_scope model.(mr_id) grant.(ag_group_model_scope) = true ∧ model_in_scope model.(mr_id) grant.(ag_key_model_scope) = true) published.

Record ModelsPage (Num : Type) := {
  mg_data : list (ModelRecord Num);
  mg_has_more : bool;
  mg_first_id : option bytes;
  mg_last_id : option bytes;
}.
Arguments Build_ModelsPage {Num}.
Arguments mg_data {Num}.
Arguments mg_has_more {Num}.
Arguments mg_first_id {Num}.
Arguments mg_last_id {Num}.

(** The index of the first model with an identifier. *)
Fixpoint model_position {Num} (id : bytes) (models : list (ModelRecord Num)) : option nat :=
  match models with
  | [] => None
  | m :: models => if bool_decide (m.(mr_id) = id) then Some 0%nat else S <$> model_position id models
  end.

Definition models_page {Num} (query : ModelsQuery) (visible : list (ModelRecord Num)) : result GatewayError (ModelsPage Num) :=
  start ← (match query.(mq_after_id) with
           | None => Ok 0%nat
           | Some after_id => match model_position after_id visible with Some index => Ok (S index) | None => Err error_invalid_body end
           end : result GatewayError nat);
  let finish := Nat.min (start + query.(mq_limit)) (length visible) in
  let page := take (finish - start) (drop start visible) in
  Ok {| mg_data := page; mg_has_more := (finish <? length visible)%nat; mg_first_id := mr_id <$> head page; mg_last_id := mr_id <$> last page |}.

(** ** The headers of a response *)
Definition connection_nominated_headers (headers : list (bytes * bytes)) : list bytes :=
  filter (λ value, value ≠ [])
    (concat ((λ h, to_lowercase_ascii ∘ trim <$> split "," (from_utf8_lossy h.2)) <$>
      filter (λ h, eq_ignore_ascii_case h.1 (bs "connection") = true) headers)).

Definition SAFE_UPSTREAM_HEADERS : list string :=
  ["content-type"; "content-encoding"; "content-length"; "cache-control"; "request-id"; "anthropic-request-id"; "x-request-id"].

Definition safe_upstream_header (name : bytes) (nominated : list bytes) : bool :=
  negb (bool_decide (name ∈ nominated)) && one_of SAFE_UPSTREAM_HEADERS name.

Section upstream_headers.
(** [HeaderName::from_bytes] and [HeaderValue::from_bytes]. *)
Context (header_name : bytes → option bytes) (header_value : bytes → option bytes).

Definition client_headers (headers : list (bytes * bytes)) : HeaderMap :=
  let nominated := connection_nominated_headers headers in
  foldl (λ client h, header_append h.1 h.2 client) ∅
    (omap (λ h, name ← header_name h.1; if safe_upstream_header name nominated then value ← header_value h.2; Some (name, value) else None) headers).
End upstream_headers.
