(* ===== verification/EdgeGatesProofs.v ===== *)
(** What the gates of the edge promise: which secret is accepted, which address a request is taken to come from, that the pages of the models
    are the models, and that percent-encoding is undone. *)

From Stdlib Require Import Ascii.
From S2P Require Import Prelude Machine.
From S2P Require Import Bytes.
From S2P Require Import Domain.
From S2P Require Import Json.
From S2P Require Import SystemBilling.
From S2P Require Import Policy.
From S2P Require Import PolicyProofs.
From S2P Require Import ClientRequest.
From S2P Require Import Dispatch.
From S2P Require Import AccessLimits.
From S2P Require Import EdgeGates.
Local Open Scope N_scope.

(** ** Authentication *)
Lemma scrub_auth_lookup headers name :
  scrub_auth headers !! name = if bool_decide (name = bs "x-api-key" ∨ name = bs "authorization") then None else headers !! name.
Proof.
  unfold scrub_auth, header_remove. case_bool_decide as E.
  - destruct E as [->|E]; [|by rewrite E, lookup_delete_eq]. by rewrite lookup_delete_ne, lookup_delete_eq by by_decide.
  - apply Decidable.not_or in E as [? ?]. by rewrite !lookup_delete_ne by congruence.
Qed.

Section authentication.
Context (visible : bytes → bool).

(** A secret that a key may be. *)
Record well_formed_secret (secret : bytes) : Prop := {
  ws_not_empty : secret ≠ [];
  ws_trimmed : trim secret = secret;
  ws_short : (length secret <= 512)%nat;
  ws_no_comma : ","%char ∉ secret;
}.

(** What the two headers may hold: nothing, or the one secret. *)
Definition api_key_of (values : list bytes) (secret : bytes) : Prop :=
  values = [] ∨ (values = [secret] ∧ visible secret = true ∧ well_formed_secret secret).

Definition bearer_of (values : list bytes) (secret : bytes) : Prop :=
  values = [] ∨ ∃ scheme, values = [scheme ++ " "%char :: secret] ∧ visible (scheme ++ " "%char :: secret) = true ∧
    eq_ignore_ascii_case scheme (bs "bearer") = true ∧ (" "%char ∉ scheme) ∧ (" "%char ∉ secret) ∧ well_formed_secret secret.

(** The headers present one secret, in one header or the same in both. *)
Record presents (headers : HeaderMap) (secret : bytes) : Prop := {
  pr_api : api_key_of (get_all "x-api-key" headers) secret;
  pr_bearer : bearer_of (get_all "authorization" headers) secret;
  pr_some : get_all "x-api-key" headers ≠ [] ∨ get_all "authorization" headers ≠ [];
}.

Lemma existsb_char c l : existsb (Ascii.eqb c) l = false ↔ c ∉ l.
Proof.
  rewrite <- not_true_iff_false, existsb_exists, list_elem_of_In. split; intros H.
  - intros Hin. apply H. exists c. split; [done|]. apply Ascii.eqb_refl.
  - intros (x & Hin & E%Ascii.eqb_eq). by subst.
Qed.

Lemma normalize_api_key_Some value secret : normalize_api_key value = Some secret ↔ value = secret ∧ well_formed_secret secret.
Proof.
  unfold normalize_api_key. destruct (_ || _) eqn:E.
  - split; [done|]. intros [-> [Hne Htr Hlen Hc]]. exfalso. apply existsb_char in Hc. rewrite Hc, orb_false_r in E.
    rewrite bool_decide_true in E by done. destruct secret; [done|]. cbn [is_empty negb orb] in E. apply Nat.ltb_lt in E. lia.
  - apply orb_false_iff in E as [E Ec%existsb_char]. apply orb_false_iff in E as [E El%Nat.ltb_ge]. apply orb_false_iff in E as [Ee Et].
    apply negb_false_iff, bool_decide_eq_true in Et. split.
    + intros [= ->]. split; [done|]. split; [|done|done|done]. by destruct secret.
    + by intros [-> _].
Qed.

Lemma split_once_fresh sep l before after : split_once sep l = Some (before, after) → (sep ∉ before).
Proof.
  revert before. induction l as [|c l IH]; intros before; simpl; [done|]. case_decide as Hc.
  - intros [= <- <-]. apply not_elem_of_nil.
  - destruct (split_once sep l) as [[b a]|]; [|done]. intros [= <- <-]. apply not_elem_of_cons. split; [congruence|by apply IH].
Qed.

Lemma normalize_bearer_Some value secret : normalize_bearer value = Some secret ↔
  ∃ scheme, value = scheme ++ " "%char :: secret ∧ eq_ignore_ascii_case scheme (bs "bearer") = true ∧ (" "%char ∉ scheme) ∧ (" "%char ∉ secret) ∧
    well_formed_secret secret.
Proof.
  unfold normalize_bearer. split.
  - destruct (split_once " " value) as [[scheme rest]|] eqn:E; [|done]. cbn [mbind option_bind].
    destruct (_ || _) eqn:Eo; [done|]. apply orb_false_iff in Eo as [Hb%negb_false_iff Hc%existsb_char].
    intros [-> Hw]%normalize_api_key_Some. exists scheme. split_and!; [by apply split_once_Some|done|by eapply split_once_fresh|done|done].
  - intros (scheme & -> & Hb & Hs & Hsec & Hw). rewrite split_once_app by done. cbn [mbind option_bind].
    apply existsb_char in Hsec. rewrite Hb, Hsec. by apply normalize_api_key_Some.
Qed.

Lemma read_Some {A} (values : list bytes) (f : bytes → option A) a : length values = 1%nat →
  (head values ≫= to_str visible) ≫= f = Some a ↔ ∃ value, values = [value] ∧ visible value = true ∧ f value = Some a.
Proof.
  destruct values as [|value [|]]; [done| |done]. intros _. cbn [head mbind option_bind]. unfold to_str. split.
  - destruct (visible value) eqn:E; [|done]. intros Hf. by exists value.
  - intros (value' & [= <-] & -> & Hf). done.
Qed.

Lemma constant_equal_spec left right : constant_equal left right = true ↔ left = right.
Proof. unfold constant_equal. rewrite andb_true_iff, Nat.eqb_eq, bool_decide_eq_true. split; [tauto|by intros ->]. Qed.

(** A header that occurs once, and one that is absent. *)
Lemma api_key_one value secret : api_key_of [value] secret ↔ (head [value] ≫= to_str visible) ≫= normalize_api_key = Some secret.
Proof.
  rewrite read_Some by done. unfold api_key_of. split.
  - intros [|([= ->] & Hv & Hw)]; [done|]. exists secret. split_and!; [done|done|by apply normalize_api_key_Some].
  - intros (? & [= <-] & Hv & [-> Hw]%normalize_api_key_Some). by right.
Qed.

Lemma bearer_one value secret : bearer_of [value] secret ↔ (head [value] ≫= to_str visible) ≫= normalize_bearer = Some secret.
Proof.
  rewrite read_Some by done. unfold bearer_of. split.
  - intros [|(scheme & [= ->] & Hv & Hs)]; [done|]. eexists. split_and!; [done|done|]. apply normalize_bearer_Some. by exists scheme.
  - intros (? & [= <-] & Hv & (scheme & -> & Hs)%normalize_bearer_Some). right. by exists scheme.
Qed.

Lemma presents_read headers secret : presents headers secret ↔
  (length (get_all "x-api-key" headers) <= 1)%nat ∧ (length (get_all "authorization" headers) <= 1)%nat ∧
  (get_all "x-api-key" headers ≠ [] ∨ get_all "authorization" headers ≠ []) ∧ presented_secret visible headers = Some secret.
Proof.
  unfold presented_secret. set (api := get_all "x-api-key" headers). set (auth := get_all "authorization" headers).
  assert (presents headers secret ↔ api_key_of api secret ∧ bearer_of auth secret ∧ (api ≠ [] ∨ auth ≠ [])) as ->.
  { split; [by intros [? ? ?]|by intros (? & ? & ?)]. }
  clearbody api auth. destruct api as [|a [|a' api]], auth as [|b [|b' auth]]; cbn [length is_empty].
  - naive_solver.
  - rewrite bearer_one. cbn [head mbind option_bind]. destruct (_ ≫= normalize_bearer) as [s|]; naive_solver (auto; lia || by left).
  - split; [|intros (_ & ? & _); lia]. intros (_ & [|(? & ? & _)] & _); done.
  - rewrite api_key_one. cbn [head mbind option_bind]. destruct (_ ≫= normalize_api_key) as [s|]; naive_solver (auto; lia || by left).
  - rewrite api_key_one, bearer_one. destruct (_ ≫= normalize_api_key) as [s|], (_ ≫= normalize_bearer) as [s'|]; try naive_solver.
    destruct (constant_equal s s') eqn:E.
    + apply constant_equal_spec in E as ->. naive_solver (auto; lia).
    + split; [|naive_solver]. intros ([= ->] & [= ->] & _). by rewrite (proj2 (constant_equal_spec _ _) eq_refl) in E.
  - split; [|intros (_ & ? & _); lia]. intros (_ & [|(? & ? & _)] & _); done.
  - split; [|intros (? & _); lia]. intros ([|(? & _)] & _); done.
  - split; [|intros (? & _); lia]. intros ([|(? & _)] & _); done.
  - split; [|intros (? & _); lia]. intros ([|(? & _)] & _); done.
Qed.
End authentication.

(** ** The chain of proxies *)
Lemma split_app sep a b : split sep (a ++ sep :: b) = split sep a ++ split sep b.
Proof.
  induction a as [|c a IH]; simpl; [by rewrite bool_decide_true|]. case_bool_decide; [by rewrite IH|]. rewrite IH.
  destruct (split sep a) as [|part parts] eqn:E; [by apply split_not_nil in E|done].
Qed.

Lemma mapM_app_option {A B} (f : A → option B) l1 l2 : mapM f (l1 ++ l2) = (r1 ← mapM f l1; r2 ← mapM f l2; Some (r1 ++ r2)).
Proof.
  induction l1 as [|x l1 IH]; [simpl; by destruct (mapM f l2)|]. simpl. destruct (f x); [|done]. simpl. rewrite IH.
  destruct (mapM f l1); [|done]. simpl. by destruct (mapM f l2).
Qed.

Lemma find_app {A} (f : A → bool) l1 l2 : List.find f (l1 ++ l2) = match List.find f l1 with Some x => Some x | None => List.find f l2 end.
Proof. induction l1 as [|x l1 IH]; [done|]. simpl. by destruct (f x). Qed.

Lemma find_none_all {A} (f : A → bool) l : Forall (λ x, f x = false) l → List.find f l = None.
Proof. induction 1 as [|x l Hx _ IH]; [done|]. simpl. by rewrite Hx. Qed.

Section chain_proofs.
Context (visible : bytes → bool) {IpAddr IpNet : Type} `{EqDecision IpAddr} (parse_ip : bytes → option IpAddr) (net_contains : IpNet → IpAddr → bool).
Context (trusted : list IpNet) (peer : IpAddr).
Abbreviation address_of := (source_ip visible parse_ip net_contains trusted peer).
Abbreviation trusted_hop := (trusts net_contains trusted).

(** The addresses that a list of forwarded addresses names. *)
Definition hops_of (value : bytes) : option (list IpAddr) := mapM parse_ip (trim <$> split "," value).

Lemma hops_of_app a b : hops_of (a ++ ","%char :: b) = (r1 ← hops_of a; r2 ← hops_of b; Some (r1 ++ r2)).
Proof. unfold hops_of. by rewrite split_app, fmap_app, mapM_app_option. Qed.

(** The nearest hop that is not a trusted proxy. *)
Lemma nearest_untrusted before client after : trusted_hop client = false → Forall (λ hop, trusted_hop hop = true) after →
  List.find (λ address, negb (trusted_hop address)) (rev (before ++ client :: after)) = Some client.
Proof.
  intros Hc Ha. rewrite rev_app_distr. cbn [rev]. rewrite <- app_assoc, find_app.
  rewrite find_none_all; [|rewrite <- Permutation_rev; eapply Forall_impl; [exact Ha|]; intros hop Hh; by cbv beta; rewrite Hh].
  cbn [app List.find]. by rewrite Hc.
Qed.

Lemma address_of_chain headers value : trusted_hop peer = true → header_text visible headers "x-forwarded-for" = Some value →
  address_of headers = default peer (List.find (λ address, negb (trusted_hop address)) (rev (default [] (hops_of value) ++ [peer]))).
Proof. intros Hp Hv. unfold source_ip. by rewrite Hp, Hv. Qed.
End chain_proofs.

(** ** The pages of the models *)

(** A client that asks for every page, each after the last model of the page before. *)
Fixpoint all_pages {Num} (fuel limit : nat) (after_id : option bytes) (visible : list (ModelRecord Num)) : option (list (list (ModelRecord Num))) :=
  match fuel with
  | O => None
  | S fuel =>
      match models_page {| mq_limit := limit; mq_after_id := after_id |} visible with
      | Err _ => None
      | Ok page => if page.(mg_has_more) then cons page.(mg_data) <$> all_pages fuel limit page.(mg_last_id) visible else Some [page.(mg_data)]
      end
  end.

Lemma fmap_keeps_sublist {A B} (f : A → B) l k : l `sublist_of` k → (f <$> l) `sublist_of` (f <$> k).
Proof. induction 1; by constructor. Qed.

Section paging.
Context {Num : Type}.
Implicit Types (models : list (ModelRecord Num)).

Lemma model_position_app models m rest : m.(mr_id) ∉ mr_id <$> models → model_position m.(mr_id) (models ++ m :: rest) = Some (length models).
Proof.
  induction models as [|x models IH]; simpl; [by rewrite bool_decide_true|]. rewrite not_elem_of_cons. intros [Hx Hm].
  rewrite bool_decide_false by congruence. by rewrite IH.
Qed.

Lemma page_split (k limit : nat) models : (k <= length models)%nat → (1 <= limit)%nat →
  let page := take (Nat.min (k + limit) (length models) - k) (drop k models) in
  drop k models = page ++ drop (Nat.min (k + limit) (length models)) models ∧ length page = (Nat.min (k + limit) (length models) - k)%nat.
Proof.
  intros Hk Hl page. split.
  - unfold page. rewrite <- (take_drop (Nat.min (k + limit) (length models) - k) (drop k models)) at 1. rewrite drop_drop. do 2 f_equal. lia.
  - unfold page. rewrite length_take, length_drop. lia.
Qed.

Lemma all_pages_from fuel limit models k after_id : NoDup (mr_id <$> models) → (1 <= limit)%nat → (k <= length models)%nat → (length models - k < fuel)%nat →
  (k = 0%nat ∧ after_id = None ∨ ∃ before m, take k models = before ++ [m] ∧ after_id = Some m.(mr_id)) →
  ∃ pages, all_pages fuel limit after_id models = Some pages ∧ concat pages = drop k models ∧ Forall (λ page, length page <= limit)%nat pages.
Proof.
  intros Hnd Hl. revert k after_id. induction fuel as [|fuel IH]; intros k after_id Hk Hf Hafter; [lia|]. cbn [all_pages]. unfold models_page.
  cbn [mq_limit mq_after_id].
  assert ((match after_id with None => Ok 0%nat | Some after_id => match model_position after_id models with Some index => Ok (S index) | None => Err error_invalid_body end
    end : result GatewayError nat) = Ok k) as ->.
  { destruct Hafter as [[-> ->]|(before & m & Ht & ->)]; [done|]. pose proof (take_drop k models) as E. rewrite Ht, <- app_assoc in E. cbn [app] in E.
    rewrite <- E, fmap_app, fmap_cons in Hnd. apply NoDup_app in Hnd as (_ & Hd & _).
    rewrite <- E, model_position_app; [|intros Hin; apply (Hd _ Hin); left].
    apply (f_equal length) in Ht. rewrite length_take, length_app in Ht. cbn in Ht. do 2 f_equal. lia. }
  cbn [mbind result_bind]. destruct (page_split k limit models Hk Hl) as [Hpage Hlen]. set (page := take _ (drop k models)) in *. cbn [mg_has_more mg_data mg_last_id].
  destruct (Nat.ltb_spec (Nat.min (k + limit) (length models)) (length models)) as [Hmore|Hdone].
  - destruct (exists_last (l := page)) as (front & m & Ep); [intros E; rewrite E in Hlen; cbn in Hlen; lia|].
    destruct (IH (k + limit)%nat (mr_id <$> last page)) as (pages & E & Hc & Hall); [lia|lia| |].
    + right. exists (take k models ++ front), m. rewrite Ep, last_snoc. split; [|done].
      rewrite <- app_assoc, <- Ep. rewrite <- (take_drop k models) at 1. rewrite take_app, take_take, length_take.
      f_equal; [f_equal; lia|]. unfold page. f_equal. lia.
    + exists (page :: pages). rewrite E. split; [done|]. cbn [concat]. rewrite Hc. split; [|constructor; [lia|done]].
      rewrite Hpage at 1. do 2 f_equal. lia.
  - exists [page]. split; [done|]. cbn [concat]. rewrite app_nil_r. split; [|repeat constructor; lia].
    rewrite Hpage. rewrite drop_ge by lia. by rewrite app_nil_r.
Qed.

(** The catalog is sorted by identifier, so that equal identifiers are neighbours. *)
Lemma dedup_after_sorted last models : StronglySorted (λ x y, model_cmp x y ≠ Gt) models →
  (∀ id, last = Some id → Forall (λ m, key_le id m.(mr_id)) models) →
  (dedup_after last models) `sublist_of` models ∧ NoDup (mr_id <$> dedup_after last models) ∧ (∀ id, last = Some id → id ∉ mr_id <$> dedup_after last models).
Proof.
  revert last. induction models as [|m models IH]; intros last Hs Hlast; cbn [dedup_after]; [split_and!; [done|constructor|intros ? _; apply not_elem_of_nil]|].
  apply StronglySorted_inv in Hs as [Hs Hm]. case_bool_decide as E.
  - destruct (IH last Hs) as (Hsub & Hnd & Hid); [intros id Hid; by apply Hlast in Hid; inversion Hid|]. split_and!; [by constructor|done|done].
  - destruct (IH (Some m.(mr_id)) Hs) as (Hsub & Hnd & Hid).
    { intros id [= <-]. eapply Forall_impl; [exact Hm|]. intros x Hx. by apply key_cmp_le. }
    split_and!; [by constructor|cbn; constructor; [by apply Hid|done]|].
    intros id ->. cbn. apply not_elem_of_cons. split; [congruence|]. intros Hin.
    apply list_elem_of_fmap in Hin as (x & Heq & Hx). apply (Hid m.(mr_id)); [done|].
    specialize (Hlast id eq_refl). apply Forall_cons in Hlast as [Hle _].
    eapply elem_of_sublist in Hx; [|exact Hsub]. rewrite Forall_forall in Hm. apply Hm in Hx as Hge. unfold model_cmp in Hge. apply key_cmp_le in Hge.
    rewrite <- Heq in Hge. exfalso. apply E. f_equal. by apply (anti_symm key_le).
Qed.

Lemma dedup_after_ids last models m : m ∈ models → last = Some m.(mr_id) ∨ m.(mr_id) ∈ mr_id <$> dedup_after last models.
Proof.
  revert last. induction models as [|x models IH]; intros last Hm; [by apply elem_of_nil in Hm|]. cbn [dedup_after]. case_bool_decide as E.
  - apply elem_of_cons in Hm as [->|Hm]; [by left|by apply IH].
  - right. cbn. apply elem_of_cons in Hm as [->|Hm]; [left|]. destruct (IH (Some x.(mr_id)) Hm) as [[= ->]|Hin]; [left|by right].
Qed.

Lemma sublist_sorted {A} (R : relation A) (l k : list A) : l `sublist_of` k → StronglySorted R k → StronglySorted R l.
Proof.
  induction 1 as [|x l k Hs IH|x l k Hs IH]; intros Hk; [done|..]; apply StronglySorted_inv in Hk as [Hk Hx].
  - constructor; [by apply IH|]. apply Forall_forall. intros y Hy. rewrite Forall_forall in Hx. apply Hx. by eapply elem_of_sublist.
  - by apply IH.
Qed.

Lemma sort_models_sorted models : StronglySorted (λ x y, model_cmp x y ≠ Gt) (sort_by model_cmp models).
Proof.
  apply (sort_by_sorted _ (λ _, True)); [|by apply Forall_forall].
  exact (cmp_ok_pull mr_id key_cmp (λ _, True) (λ _, True) (λ _ _, I) (key_cmp_ok _)).
Qed.

Lemma catalog_sublist models : catalog_new models `sublist_of` sort_by model_cmp models.
Proof. apply dedup_after_sorted; [apply sort_models_sorted|done]. Qed.

Lemma catalog_elem models m : m ∈ catalog_new models → m ∈ models.
Proof. intros Hm. eapply elem_of_sublist in Hm; [|apply catalog_sublist]. by rewrite sort_by_perm in Hm. Qed.

Lemma catalog_complete models m : m ∈ models → (∀ twin, twin ∈ models → twin.(mr_id) = m.(mr_id) → twin = m) → m ∈ catalog_new models.
Proof.
  intros Hm Htwin. destruct (dedup_after_ids None (sort_by model_cmp models) m) as [|Hin]; [by rewrite sort_by_perm|done|].
  apply list_elem_of_fmap in Hin as (twin & E & Hin). rewrite <- (Htwin twin); [done|by apply catalog_elem|done].
Qed.

Lemma catalog_NoDup models : NoDup (mr_id <$> catalog_new models).
Proof. apply dedup_after_sorted; [apply sort_models_sorted|done]. Qed.

(** A list that is sorted, without duplicates, is sorted strictly. *)
Lemma sorted_strictly models : StronglySorted (λ x y, model_cmp x y ≠ Gt) models → NoDup (mr_id <$> models) →
  StronglySorted (λ x y, key_le x.(mr_id) y.(mr_id) ∧ x.(mr_id) ≠ y.(mr_id)) models.
Proof.
  induction 1 as [|m models Hs IH Hm]; intros Hnd; constructor; apply NoDup_cons in Hnd as [Hn Hnd]; [by apply IH|].
  apply Forall_forall. intros x Hx. rewrite Forall_forall in Hm. split; [by apply key_cmp_le, Hm|]. intros E. apply Hn. rewrite E. by apply list_elem_of_fmap_2.
Qed.
End paging.

(** ** The query of a page *)
Definition percent_encode (l : bytes) : bytes := concat ((λ c, "%"%char :: hex_byte c) <$> l).

Definition query_text (limit : N) (after_id : bytes) : bytes :=
  bs "limit=" ++ format_radix 10 limit ++ "&"%char :: bs "after_id=" ++ percent_encode after_id.

Lemma percent_decode_encode l : percent_decode_bytes (percent_encode l) = Some l.
Proof.
  induction l as [|c l IH]; [done|]. unfold percent_encode. rewrite fmap_cons. cbn [concat hex_byte app percent_decode_bytes].
  assert (byte c < 256) as Hc by apply N_ascii_bounded.
  rewrite !to_digit_digit_char by (done || by apply N.mod_lt || by apply N.Div0.div_lt_upper_bound). cbn [mbind option_bind].
  fold (percent_encode l). rewrite IH. cbn [mbind option_bind]. do 2 f_equal. rewrite N.mul_comm, <- N.div_mod by done. apply ascii_N_embedding.
Qed.

Lemma percent_decode_plain l : Forall (λ c, c ≠ "%"%char ∧ c ≠ "+"%char) l → percent_decode_bytes l = Some l.
Proof.
  induction 1 as [|c l [Hp Hq] _ IH]; [done|]. simpl.
  destruct (decide (c = "%"%char)) as [->|_]; [done|]. destruct (decide (c = "+"%char)) as [->|_]; [done|].
  destruct c as [[] [] [] [] [] [] [] []]; try (by rewrite IH); done.
Qed.

Lemma digit_shape radix c : radix <= 16 → is_digit_of radix c → c ≠ "%"%char ∧ c ≠ "+"%char ∧ c ≠ "&"%char ∧ c ≠ "="%char ∧ byte c < 128.
Proof.
  intros Hr (d & Hd & ->). apply (digit_cases (λ d, digit_char d ≠ "%"%char ∧ digit_char d ≠ "+"%char ∧ digit_char d ≠ "&"%char ∧
    digit_char d ≠ "="%char ∧ byte (digit_char d) < 128)); [|lia]. repeat constructor; done.
Qed.

Lemma percent_encode_no_sep l : "&"%char ∉ percent_encode l.
Proof.
  induction l as [|c l IH]; [apply not_elem_of_nil|]. unfold percent_encode. rewrite fmap_cons. cbn [concat hex_byte app]. fold (percent_encode l).
  assert (byte c < 256) as Hc by apply N_ascii_bounded.
  assert (∀ d, d < 16 → "&"%char ≠ digit_char d) as Hd.
  { intros d Hlt E. assert (is_digit_of 16 "&"%char) as Hs%(digit_shape 16); [by exists d|by destruct Hs as (_ & _ & ? & _)|done]. }
  rewrite !not_elem_of_cons. split_and!; [done|by apply Hd, N.Div0.div_lt_upper_bound|by apply Hd, N.mod_lt|done].
Qed.

Lemma split_single sep l : sep ∉ l → split sep l = [l].
Proof.
  induction l as [|c l IH]; [done|]. rewrite not_elem_of_cons. intros [Hc Hl]. simpl. rewrite bool_decide_false by congruence. by rewrite IH.
Qed.

Lemma number_plain n : Forall (λ c, c ≠ "%"%char ∧ c ≠ "+"%char ∧ c ≠ "&"%char ∧ byte c < 128) (format_radix 10 n).
Proof.
  eapply Forall_impl; [by apply format_radix_digits|]. intros c Hc. cbv beta.
  destruct (digit_shape 10 c) as (? & ? & ? & _ & ?); done.
Qed.

(** ** Properties *)

(** C24: a request is given the grant of a secret exactly when its headers present that one well-formed secret, in one of the two headers or the same
    one in both; the two headers are removed on every path, and every other header keeps its values in their order. *)
Theorem secret_accepted_exactly {Grant} visible (access : bytes → option Grant) headers :
  (∀ grant, (authenticate visible access headers).1 = Some grant ↔ ∃ secret, presents visible headers secret ∧ access secret = Some grant) ∧
  ∀ name, (authenticate visible access headers).2 !! name =
    if bool_decide (name = bs "x-api-key" ∨ name = bs "authorization") then None else headers !! name.
Proof.
  unfold authenticate. destruct (_ || _) eqn:E; (split; [|by apply scrub_auth_lookup]); intros grant; cbn [fst].
  - split; [done|]. intros (secret & (Ha & Hb & Hs & _)%presents_read & _). exfalso.
    rewrite (proj2 (Nat.ltb_ge _ _) Ha), (proj2 (Nat.ltb_ge _ _) Hb) in E. destruct Hs, (get_all "x-api-key" headers), (get_all "authorization" headers); done.
  - apply orb_false_iff in E as [[Ha%Nat.ltb_ge Hb%Nat.ltb_ge]%orb_false_iff E]. split.
    + intros Hg. destruct (presented_secret visible headers) as [secret|] eqn:Ep; [|done]. exists secret. split; [|done].
      apply presents_read. split_and!; [done|done| |done]. destruct (get_all "x-api-key" headers), (get_all "authorization" headers); naive_solver.
    + intros (secret & (_ & _ & _ & ->)%presents_read & Hg). done.
Qed.

(** C25: what a client puts in front of the forwarded addresses that the trusted proxies add chooses nothing: behind a trusted peer the address of the request is
    the nearest hop that is not a trusted proxy, unless the part in front is no list of addresses, when it is the peer's own. *)
Theorem forged_hops_choose_nothing {IpAddr IpNet} visible (parse_ip : bytes → option IpAddr) (net_contains : IpNet → IpAddr → bool)
    trusted peer headers forged honest before client after :
  trusts net_contains trusted peer = true →
  header_text visible headers "x-forwarded-for" = Some (forged ++ ","%char :: honest) →
  hops_of parse_ip honest = Some (before ++ client :: after) →
  trusts net_contains trusted client = false → Forall (λ hop, trusts net_contains trusted hop = true) after →
  source_ip visible parse_ip net_contains trusted peer headers = if is_some (hops_of parse_ip forged) then client else peer.
Proof.
  intros Hp Hv Hh Hc Ha. rewrite (address_of_chain _ _ _ _ _ _ _ Hp Hv), hops_of_app, Hh.
  destruct (hops_of parse_ip forged) as [hops|]; cbn [mbind option_bind default is_some].
  - unfold default, id. cbn [from_option].
    replace ((hops ++ before ++ client :: after) ++ [peer]) with ((hops ++ before) ++ client :: (after ++ [peer])) by (by rewrite <- !app_assoc).
    erewrite nearest_untrusted; [|done|]; [done|]. apply Forall_app. by repeat constructor.
  - cbn [app rev List.find]. by rewrite Hp.
Qed.

(** C26: a client that asks for the pages of the models one after the other, with room for at least one model on a page, gets, after finitely many, the models that its grant shows of the catalog, each once and
    in the order of their identifiers, and no page is longer than it asked. These are published models of the provider and of the scopes of the grant; every such model
    is among them, short of one that shares its identifier with another. *)
Theorem pages_are_the_models {Num F IpNet} (grant : AccessGrant Num F IpNet) models limit : (1 <= limit)%nat →
  let visible := visible_models grant (catalog_new models) in
  let shown m := mr_provider m = grant.(ag_provider) ∧ model_in_scope (mr_id m) grant.(ag_group_model_scope) = true ∧ model_in_scope (mr_id m) grant.(ag_key_model_scope) = true in
  (∀ m, m ∈ visible → m ∈ models ∧ shown m) ∧
  (∀ m, m ∈ models → shown m → (∀ twin, twin ∈ models → twin.(mr_id) = m.(mr_id) → twin = m) → m ∈ visible) ∧
  NoDup (mr_id <$> visible) ∧ StronglySorted (λ x y, key_le x.(mr_id) y.(mr_id) ∧ x.(mr_id) ≠ y.(mr_id)) visible ∧
  ∃ pages, all_pages (S (length visible)) limit None visible = Some pages ∧ concat pages = visible ∧ Forall (λ page, length page <= limit)%nat pages.
Proof.
  intros Hl visible shown.
  assert (visible `sublist_of` catalog_new models) as Hsub by apply sublist_filter.
  assert (NoDup (mr_id <$> visible)) as Hnd by (eapply sublist_NoDup; [apply (catalog_NoDup models)|by apply fmap_keeps_sublist]).
  split_and!; [| |done| |].
  - intros m [Hshown Hm]%list_elem_of_filter. split; [by apply catalog_elem|exact Hshown].
  - intros m Hm Hshown Htwin. apply list_elem_of_filter. split; [exact Hshown|by apply catalog_complete].
  - apply sorted_strictly; [|done]. eapply sublist_sorted; [|apply sort_models_sorted]. etrans; [exact Hsub|apply catalog_sublist].
  - apply (all_pages_from (S (length visible)) limit visible 0 None); [done|done|lia|lia|by left].
Qed.

(** the query of a page is read as it was written: its limit, and the identifier in percent encoding, whatever bytes it has. *)
Theorem models_query_roundtrip limit after_id : 1 <= limit <= 100 → after_id ≠ [] → utf8_valid after_id = true →
  models_query_parse (Some (query_text limit after_id)) = Ok {| mq_limit := N.to_nat limit; mq_after_id := Some after_id |}.
Proof.
  intros Hl Hne Hutf. unfold models_query_parse, query_text. cbn [default from_option id].
  pose proof (number_plain limit) as Hn. rewrite app_assoc, split_cons_app; [rewrite split_single|].
  - rewrite !filter_cons, filter_nil, !decide_True by done. cbn [parse_pairs].
    change (bs "limit=" ++ format_radix 10 limit) with (bs "limit" ++ "="%char :: format_radix 10 limit). rewrite split_once_app by (by by_decide).
    unfold percent_decode at 1. rewrite percent_decode_plain by (eapply Forall_impl; [exact Hn|]; tauto). cbn [mbind option_bind].
    rewrite utf8_valid_ascii by (eapply Forall_impl; [exact Hn|]; tauto). rewrite bool_decide_true by done. cbn [is_some negb andb].
    rewrite from_str_radix_format by (done || unfold USIZE_MAX; rewrite ?U64_MAX_val; lia). assert (in_range 1 100 limit = true) as -> by (unfold in_range; apply andb_true_iff; split; apply N.leb_le; lia).
    change (bs "after_id=" ++ percent_encode after_id) with (bs "after_id" ++ "="%char :: percent_encode after_id). rewrite split_once_app by (by by_decide).
    unfold percent_decode. rewrite percent_decode_encode. cbn [mbind option_bind]. rewrite Hutf, bool_decide_false, bool_decide_true by done.
    cbn [is_some negb andb]. by destruct after_id.
  - apply not_elem_of_app. split; [by by_decide|apply percent_encode_no_sep].
  - apply not_elem_of_app. split; [by by_decide|]. intros Hin. rewrite Forall_forall in Hn. by apply Hn in Hin as (_ & _ & ? & _).
Qed.

(** ** Samples *)
(** Addresses that are numbers, and networks of one address. *)
Definition sample_ip (value : bytes) : option N := from_str_radix 10 U32_MAX value.

Definition sample_forwarded (values : list string) : HeaderMap := {[ bs "x-forwarded-for" := (λ value, bs value) <$> values ]}.

Definition sample_source (values : list string) : N := source_ip (λ _, true) sample_ip N.eqb [1; 2] 1 (sample_forwarded values).

Lemma forged_hops_choose_nothing_witness :
  header_text (λ _, true) (sample_forwarded ["9,5,2"]) "x-forwarded-for" = Some (bs "9,5,2") ∧ sample_source ["9,5,2"] = 5.
Proof.
  split; [by vm_compute|].
  apply (forged_hops_choose_nothing (λ _, true) sample_ip N.eqb [1; 2] 1 (sample_forwarded ["9,5,2"]) (bs "9") (bs "5,2") [] 5 [2]).
  - by vm_compute.
  - by vm_compute.
  - by vm_compute.
  - by vm_compute.
  - repeat constructor.
Defined.

(** One word that is no address, in front of what the proxies added, and the request is taken to come from the proxy itself. *)
Example forged_word_hides_client : sample_source ["9,5,2"] = 5 ∧ sample_source ["unknown,5,2"] = 1.
Proof. by vm_compute. Qed.

(** A proxy that adds a line of its own after the client's is not heard: only the first line is read. *)
Example first_line_is_believed : sample_source ["9"; "5,2"] = 9.
Proof. by vm_compute. Qed.

Definition sample_model (provider : Provider) (id : string) : ModelRecord Z :=
  {| mr_openai_metadata := None; mr_provider := provider; mr_id := bs id; mr_display_name := bs id; mr_created_at := [] |}.

Definition sample_scope_grant : AccessGrant Z Z N :=
  {| ag_provider := Provider_Anthropic; ag_owner_user_id := MkTypedId "u"; ag_platform_key_id := MkTypedId "k"; ag_group_id := MkTypedId "g";
     ag_permissions := [Permission_Models]; ag_key_model_scope := ∅; ag_group_model_scope := {[ bs "a"; bs "b"; bs "c" ]}; ag_body_limit_bytes := 1024;
     ag_messages_rate := DEFAULT_MESSAGES; ag_count_tokens_rate := DEFAULT_COUNT_TOKENS; ag_models_rate := DEFAULT_MODELS; ag_concurrency_limit := 1;
     ag_ip_allowlist := []; ag_accepted_client_classes := []; ag_default_os_family := Linux; ag_policy := sample_strip_all |}.

Definition sample_models : list (ModelRecord Z) := sample_model Provider_Anthropic <$> ["d"; "c"; "a"; "b"; "a"].

Lemma pages_are_the_models_witness :
  (1 <= 2)%nat ∧ NoDup (mr_id <$> visible_models sample_scope_grant (catalog_new sample_models)) ∧
  (map mr_id <$> default [] (all_pages 4 2 None (visible_models sample_scope_grant (catalog_new sample_models)))) = [[bs "a"; bs "b"]; [bs "c"]].
Proof.
  split; [lia|]. split; [|by vm_compute]. by apply (pages_are_the_models sample_scope_grant sample_models 2); lia.
Defined.

(** The catalog keeps one model of an identifier, whatever its provider: the grant of the other provider does not see it. *)
Example catalog_hides_twin :
  visible_models sample_scope_grant (catalog_new [sample_model Provider_Openai "a"; sample_model Provider_Anthropic "a"]) = [].
Proof. by vm_compute. Qed.

Lemma models_query_roundtrip_witness :
  1 <= 20 <= 100 ∧ models_query_parse (Some (query_text 20 (bs "claude 1+2%"))) = Ok {| mq_limit := 20; mq_after_id := Some (bs "claude 1+2%") |}.
Proof. split; [lia|]. by apply (models_query_roundtrip 20 (bs "claude 1+2%")); [lia|done|vm_compute]. Defined.
