(* ===== verification/Edge.v ===== *)
(** The handler of the data plane: [edge_entry], [messages], [models] and the body of a response, of [crates/gateway-api/src/edge.rs].

    The handler is a program over the calls that reach the shared state of the process and the services ([Programs]): the snapshot of the runtime, the
    limiters and the memory of the sessions ([AccessLimits]), the authorizer of the spend, the dispatcher. An awaited call may be answered by the end of the
    future itself, which is what a client that goes away does to its handler; the permit that is held then is given back. *)

From Stdlib Require Import Ascii.
From S2P Require Import Prelude Machine.
From S2P Require Import Bytes.
From S2P Require Import Domain.
From S2P Require Import Reservation.
From S2P Require Import Json.
From S2P Require Import SystemSegments.
From S2P Require Import SystemBilling.
From S2P Require Import RequestParser.
From S2P Require Import Capability.
From S2P Require Import Policy.
From S2P Require Import ClientRequest.
From S2P Require Import Dispatch.
From S2P Require Import HeaderCapture.
From S2P Require Import FinalRequest.
From S2P Require Import AccessLimits.
From S2P Require Import EdgeGates.
From S2P Require Import Programs.
Local Open Scope N_scope.

(** ** The body of a response *)

(** [cs_permit]: the key whose permit the stream holds. *)
Record ClientBodyStream := {
  cs_permit : option PlatformKeyId;
  cs_completion : bool;
  cs_bytes_delivered : N;
  cs_completed : bool;
}.

(** What the stream does to its surroundings. *)
Inductive StreamEffect :=
  | CancelUpstream
  | ReleasePermit (key : PlatformKeyId)
  | DeliveryFinished (outcome : DeliveryOutcome) (bytes_delivered : N)
  | ReportCompleted (outcome : DeliveryOutcome) (bytes_delivered : N).

#[export] Instance StreamEffect_eq_dec : EqDecision StreamEffect.
Proof. solve_decision. Defined.

(** What the channel of the body answers: an item, its end, or nothing yet. *)
Inductive PollRecv := Recv_Item (item : result ResponseError bytes) | Recv_Closed | Recv_Pending.

(** What the client is given. *)
Inductive PollBody := Body_Chunk (l : bytes) | Body_Interrupted | Body_End | Body_Pending.

Definition take_permit (self : ClientBodyStream) : list StreamEffect * ClientBodyStream :=
  (match self.(cs_permit) with Some key => [ReleasePermit key] | None => [] end,
   {| cs_permit := None; cs_completion := self.(cs_completion); cs_bytes_delivered := self.(cs_bytes_delivered); cs_completed := self.(cs_completed) |}).

Definition stream_finish (outcome : DeliveryOutcome) (self : ClientBodyStream) : list StreamEffect * ClientBodyStream :=
  let '(released, self) := take_permit self in
  (released ++ [DeliveryFinished outcome self.(cs_bytes_delivered)] ++
     (if self.(cs_completion) then [ReportCompleted outcome self.(cs_bytes_delivered)] else []),
   {| cs_permit := self.(cs_permit); cs_completion := false; cs_bytes_delivered := self.(cs_bytes_delivered); cs_completed := true |}).

Definition interrupted_outcome (error : ResponseError) : DeliveryOutcome :=
  match error with
  | ClientWriteTimeout => Delivery_ClientWriteTimeout
  | Response_Cancelled | ClientDisconnected => Delivery_ClientDisconnected
  | _ => Delivery_UpstreamBodyError
  end.

(** [state] is what the producer recorded of its end. *)
Definition poll_next (recv : PollRecv) (state : PreparedDeliveryState) (self : ClientBodyStream) : PollBody * list StreamEffect * ClientBodyStream :=
  match recv with
  | Recv_Item (Ok l) =>
      (Body_Chunk l, [],
       {| cs_permit := self.(cs_permit); cs_completion := self.(cs_completion);
          cs_bytes_delivered := saturating_add U64_MAX self.(cs_bytes_delivered) (N.of_nat (length l)); cs_completed := self.(cs_completed) |})
  | Recv_Item (Err error) =>
      let '(effects, self) := stream_finish (interrupted_outcome error) self in (Body_Interrupted, CancelUpstream :: effects, self)
  | Recv_Closed => let '(effects, self) := stream_finish (eof_outcome state) self in (Body_End, effects, self)
  | Recv_Pending => (Body_Pending, [], self)
  end.

Definition stream_drop (self : ClientBodyStream) : list StreamEffect * ClientBodyStream :=
  let '(effects, self) :=
    if self.(cs_completed) then ([], self)
    else let '(effects, self) := stream_finish Delivery_ClientDisconnected self in (CancelUpstream :: effects, self) in
  let '(released, self) := take_permit self in
  (effects ++ released, self).

(** The delivery to a WebSocket, which is finished by the socket or by its drop. *)
Record WebSocketDelivery := {
  wd_completion : bool;
  wd_bytes_delivered : N;
}.

Definition delivery_report (outcome : DeliveryOutcome) (self : WebSocketDelivery) : list StreamEffect * WebSocketDelivery :=
  (if self.(wd_completion) then [ReportCompleted outcome self.(wd_bytes_delivered)] else [],
   {| wd_completion := false; wd_bytes_delivered := self.(wd_bytes_delivered) |}).

Definition delivery_drop (self : WebSocketDelivery) : list StreamEffect * WebSocketDelivery := delivery_report Delivery_ClientDisconnected self.

(** ** Data *)
Inductive SpendDecision := Spend_Allowed | Spend_Limited | Spend_Unavailable.

(** The answer of an awaited call, or the end of the future that awaits it. *)
Inductive Await (A : Type) := Answered (a : A) | FutureEnds.
Arguments Answered {A} a.
Arguments FutureEnds {A}.

Section handler.
Context {Num F IpAddr IpNet : Type} `{SerdeJson Num F} `{EqDecision IpAddr}.
Context (visible : bytes → bool) (header_name header_value : bytes → option bytes) (sha256 : bytes → bytes) (from_slice : bytes → option (Value Num)).
Context (parse_ip : bytes → option IpAddr) (net_contains : IpNet → IpAddr → bool) (DEFAULT_PEER : IpAddr).
(** The order in which a [HeaderMap] is iterated. *)
Context (header_iter : HeaderMap → list (bytes * bytes)).
Abbreviation Grant := (AccessGrant Num F IpNet).
Abbreviation Tree := (Value Num).

Record ManagementRuntimeSnapshot := {
  ms_access : bytes → option Grant;
  ms_models : list (ModelRecord Num);
}.

(** An [http] request: its target, its headers, the peer of its connection, and what the WebSocket loop adds to it. *)
Record EdgeRequest := {
  eq_method : Method;
  eq_path : bytes;
  eq_query : option bytes;
  eq_headers : HeaderMap;
  eq_peer : option IpAddr;
  eq_started_at : option Duration;
  eq_original_headers : option HeaderSnapshot;
  eq_openai_connection : bool;
}.

Record DataPlaneState := {
  ds_trusted_proxies : list IpNet;
  ds_platform_body_limit_bytes : N;
}.

(** What the dispatcher prepared, as far as the edge reads it. *)
Record EdgeResponse := {
  er_status : N;
  er_headers : list (bytes * bytes);
  er_completion : bool;
}.

(** The calls of a handler. *)
Inductive EdgeCall : Type → Type :=
  | NewRequestId : EdgeCall string
  | InstantNow : EdgeCall Duration
  | SystemTimeMs : EdgeCall N
  | RuntimeSnapshot : EdgeCall ManagementRuntimeSnapshot
  | MonotonicNow : EdgeCall Duration
  | ReadBody (limit : N) : EdgeCall (Await (option bytes))
  | RememberOs (session : string) (os : ClientOs) : EdgeCall unit
  | ResolveOs (session : string) : EdgeCall (option ClientOs)
  | AuthorizeSpend (owner : UserId) (key : PlatformKeyId) : EdgeCall (Await SpendDecision)
  | AllowRate (key : string) (rate : RateLimit) : EdgeCall RateDecision
  | AcquirePermit (key : PlatformKeyId) (limit : N) : EdgeCall bool
  | DropPermit (key : PlatformKeyId) : EdgeCall unit
  | RequestAccepted : EdgeCall unit
  | DispatchMessage (request : DispatchRequest Num) : EdgeCall (Await (result DispatchError EdgeResponse))
  | SpawnUsageObserver : EdgeCall unit
  | Committed : EdgeCall (Await bool)
  | ResponseCommitted : EdgeCall unit
  | WebsocketIdle : EdgeCall (Await (option Duration))
  | AcquireSocketKey (key : PlatformKeyId) (limit : N) : EdgeCall bool
  | DropSocketKey (key : PlatformKeyId) : EdgeCall unit
  | UpgradeParts : EdgeCall (Await bool)
  | AcquireConnection : EdgeCall bool.

(** How a handler ends without a response of its own. *)
Inductive Exit :=
  | Refused (error : GatewayError)
  | ContinuationConflict
  | FutureDropped.

Inductive ResponseBody :=
  | Body_Json (value : Tree)
  | Body_Stream (stream : ClientBodyStream) (delivery : option WebSocketDelivery)
  | Body_Upgrade (idle : Duration) (source : IpAddr).

Record HttpResponse := {
  hr_status : N;
  hr_headers : HeaderMap;
  hr_body : ResponseBody;
}.

Abbreviation M A := (Fallible EdgeCall Exit A).

Definition refuse {A} (error : GatewayError) : M A := fail (Refused error).

Definition await {B} (c : EdgeCall (Await B)) : M B :=
  answer ← call c; match answer with Answered b => mret b | FutureEnds => fail FutureDropped end.

(** A block during which the permit of a key is held, unless the block gives a response, which takes the permit with it. *)
Definition holding {A} (key : PlatformKeyId) (p : M A) : M A :=
  prog_bind p (λ r, match r with Ok a => Ret (Ok a) | Err e => _ ← call (DropPermit key); fail e end).

(** ** Responses *)
Definition with_request_id (request_id : bytes) (response : HttpResponse) : HttpResponse :=
  match header_value request_id with
  | None => response
  | Some value =>
      {| hr_status := response.(hr_status); hr_headers := header_insert "request-id" value response.(hr_headers);
         hr_body := response.(hr_body) |}
  end.

Definition json_response (status : N) (value : Tree) : HttpResponse :=
  {| hr_status := status; hr_headers := {[ bs "content-type" := [bs "application/json"] ]}; hr_body := Body_Json value |}.

Definition error_envelope (error : GatewayError) (request_id : bytes) : Tree :=
  JObject [(bs "type", JString (bs "error"));
           (bs "error", JObject [(bs "type", JString error.(ge_kind)); (bs "message", JString error.(ge_message))]);
           (bs "request_id", JString request_id)].

Definition error_response (request_id : bytes) (error : GatewayError) : HttpResponse :=
  let response := json_response error.(ge_status) (error_envelope error request_id) in
  let headers := match error.(ge_retry_after) with Some seconds => header_insert "retry-after" (format_radix 10 seconds) response.(hr_headers) | None => response.(hr_headers) end in
  let headers := match error.(ge_allow) with Some methods => header_insert "allow" methods headers | None => headers end in
  with_request_id request_id {| hr_status := response.(hr_status); hr_headers := headers; hr_body := response.(hr_body) |}.

Definition continuation_response (request_id : bytes) : HttpResponse :=
  with_request_id request_id (json_response 409
    (JObject [(bs "error", JObject [(bs "type", JString (bs "invalid_request_error")); (bs "code", JString (bs "continuation_unavailable"));
      (bs "message", JString (bs "The response is unknown to this key or its account is unavailable."))])])).

(** The response to a refusal; none when nobody waits for it. *)
Definition exit_response (request_id : bytes) (r : result Exit HttpResponse) : option HttpResponse :=
  match r with
  | Ok response => Some response
  | Err (Refused error) => Some (error_response request_id error)
  | Err ContinuationConflict => Some (continuation_response request_id)
  | Err FutureDropped => None
  end.

(** ** The models *)

(** [str::parse::<i64>]. *)
Definition parse_i64 (l : bytes) : option Z :=
  match l with
  | "-"%char :: digits => if is_empty digits then None else Z.opp ∘ Z.of_N <$> parse_digits 10 (2 ^ 63) 0 digits
  | _ => Z.of_N <$> from_str_radix 10 (2 ^ 63 - 1) l
  end.

Definition openai_model (model : ModelRecord Num) : Tree :=
  JObject [(bs "id", JString model.(mr_id)); (bs "object", JString (bs "model"));
           (bs "created", JNumber (num_of_i64 (default 0%Z (parse_i64 model.(mr_created_at))))); (bs "owned_by", JString (bs "openai"))].

Definition model_dto (model : ModelRecord Num) : Tree :=
  JObject [(bs "id", JString model.(mr_id)); (bs "type", JString (bs "model")); (bs "display_name", JString model.(mr_display_name));
           (bs "created_at", JString model.(mr_created_at))].

Definition optional_string (o : option bytes) : Tree := match o with Some s => JString s | None => JNull end.

Definition page_body (page : ModelsPage Num) : Tree :=
  JObject [(bs "data", JArray (model_dto <$> page.(mg_data))); (bs "has_more", JBool page.(mg_has_more));
           (bs "first_id", optional_string page.(mg_first_id)); (bs "last_id", optional_string page.(mg_last_id))].

(** The path of one model, and the query of the Codex client. *)
Definition model_path (path : bytes) : option bytes :=
  match strip_prefix (bs "/v1/models/") path with Some id => Some id | None => strip_prefix (bs "/models/") path end.

Definition codex_query (request : EdgeRequest) : bool :=
  bool_decide (request.(eq_path) = bs "/backend-api/codex/models") ||
  is_some_and (λ query, existsb (starts_with (bs "client_version=")) (split "&" query)) request.(eq_query).

Definition openai_models (request : EdgeRequest) (visible_list : list (ModelRecord Num)) : result GatewayError Tree :=
  match model_path request.(eq_path) with
  | Some id =>
      match List.find (λ model, bool_decide (model.(mr_id) = id)) visible_list with
      | Some model => Ok (openai_model model)
      | None => Err error_not_found
      end
  | None =>
      if codex_query request then Ok (JObject [(bs "models", JArray (omap mr_openai_metadata visible_list))])
      else Ok (JObject [(bs "object", JString (bs "list")); (bs "data", JArray (openai_model <$> visible_list))])
  end.

Definition models_body (request : EdgeRequest) (grant : Grant) (published : list (ModelRecord Num)) : result GatewayError Tree :=
  let visible_list := visible_models grant published in
  if bool_decide (grant.(ag_provider) = Provider_Openai) then openai_models request visible_list
  else
    match models_query_parse request.(eq_query) with
    | Err error => Err error
    | Ok query => match models_page query visible_list with Ok page => Ok (page_body page) | Err error => Err error end
    end.

Definition models (request : EdgeRequest) (grant : Grant) (published : list (ModelRecord Num)) (request_id : bytes) : M HttpResponse :=
  decision ← call (AllowRate ("models:" ++ TypedId_as_str grant.(ag_platform_key_id)) grant.(ag_models_rate));
  match decision with
  | Rate_Limited retry_after => refuse (error_rate_limited retry_after)
  | Rate_Allowed =>
      match models_body request grant published with
      | Err error => refuse error
      | Ok body => mret (with_request_id request_id (json_response 200 body))
      end
  end.

(** ** The gates of a message *)
Definition resolve_client_os (headers : HeaderMap) (tree : Tree) (default_os : ClientOs) (session_cache_key : option string)
    : M (ClientOs * OsResolution * bool) :=
  let '(header_os, environment_os, mismatch) := os_evidence visible headers tree in
  let remember_as (os : ClientOs) : M unit := match session_cache_key with Some key => call (RememberOs key os) | None => mret tt end in
  match header_os, environment_os with
  | Some os, _ => _ ← remember_as os; mret (os, Os_Header, mismatch)
  | None, Some os => _ ← remember_as os; mret (os, Os_EnvironmentOnly, false)
  | None, None =>
      sticky ← match session_cache_key with Some key => call (ResolveOs key) | None => mret None end;
      match sticky with
      | Some os => mret (os, Os_SessionSticky, false)
      | None => mret (default_os, Os_GroupDefault, false)
      end
  end.

Definition authorize_spend (grant : Grant) : M unit :=
  decision ← await (AuthorizeSpend grant.(ag_owner_user_id) grant.(ag_platform_key_id));
  match decision with
  | Spend_Allowed => mret tt
  | Spend_Limited => refuse (error_rate_limited 60)
  | Spend_Unavailable => refuse (error_unavailable 1)
  end.

(** The session and the class of a client of OpenAI. *)
Definition openai_client (headers : HeaderMap) (request_id : bytes) (client : ClassifiedClient) : result GatewayError ClassifiedClient :=
  let session :=
    match header_string visible headers "session_id" with
    | Some session => session
    | None => default request_id (header_string visible headers "x-session-id")
    end in
  match TypedId_new SessionTag ("ses_" ++ String.substring 0 32 (digest sha256 session)) with
  | Err _ => Err error_invalid_body
  | Ok base_session =>
      Ok {| cl_class := NonClaudeCodeCli; cl_base_session := base_session; cl_agent := client.(cl_agent);
            cl_session_cache_key := client.(cl_session_cache_key); cl_identity_conflict := client.(cl_identity_conflict) |}
  end.

(** A request of OpenAI is replayed as it is. *)
Definition openai_request (grant : Grant) (tree : Tree) (model body : bytes) : AdjustedRequest Num :=
  {| aq_generic :=
       {| gar_body_digest := digest sha256 body; gar_model_id := String.string_of_list_ascii model;
          gar_stream := default false (get (bs "stream") tree ≫= as_bool); gar_portability := Portable; gar_attribution_suppressed := true;
          gar_system_template_pending := false; gar_snapshot_set := grant.(ag_policy).(rp_snapshots) |};
     aq_replay_body := {| rb_bytes := body; rb_tree := tree; rb_reused_original := true |};
     aq_change_set := [] |}.

Definition is_count_tokens (endpoint : DispatchEndpoint) : bool := match endpoint with CountTokens => true | _ => false end.

Definition policy_result (r : result PolicyError (AdjustedRequest Num)) : M (AdjustedRequest Num) :=
  match r with Ok generic => mret generic | Err error => refuse (map_policy_error error) end.

Definition adjust_request (endpoint : DispatchEndpoint) (grant : Grant) (tree : Tree) (model body : bytes) (context : PolicyContext Num)
    : M (AdjustedRequest Num) :=
  match endpoint with
  | OpenAi _ =>
      snapshot ← call RuntimeSnapshot;
      if negb (existsb (λ m, bool_decide (m.(mr_provider) = grant.(ag_provider)) && bool_decide (m.(mr_id) = model)) snapshot.(ms_models))
      then refuse error_model_unavailable
      else if is_some_and (λ v, negb (is_some (as_bool v))) (get (bs "stream") tree) then refuse error_invalid_body
      else mret (openai_request grant tree model body)
  | CountTokens => policy_result (process_count_tokens sha256 grant.(ag_policy) body context)
  | Messages => policy_result (process sha256 grant.(ag_policy) body context)
  end.

Definition rate_key (endpoint : DispatchEndpoint) (key : PlatformKeyId) : string :=
  (if is_count_tokens endpoint then "count_tokens" else "messages") ++ ":" ++ TypedId_as_str key.

Definition endpoint_rate (endpoint : DispatchEndpoint) (grant : Grant) : RateLimit :=
  if is_count_tokens endpoint then grant.(ag_count_tokens_rate) else grant.(ag_messages_rate).

Definition dispatch_failure (error : DispatchError) : Exit :=
  match error with
  | InvalidRequest => Refused error_invalid_body
  | ContinuationUnavailable => ContinuationConflict
  | Unavailable => Refused (error_unavailable 1)
  | BundleUnavailable => Refused error_bundle_unavailable
  | Overloaded seconds | Dispatch_QueueFull seconds | PreUpstreamTimeout seconds => Refused (error_unavailable seconds)
  | GroupRateLimited seconds | CredentialCooldown seconds => Refused (error_rate_limited seconds)
  | DeterministicUnavailable | Dispatch_Cancelled => Refused error_unavailable_without_retry
  | DeadlineExceeded => Refused error_timeout
  end.

Definition response_status (status : N) : N := if in_range 100 999 status then status else 502.

Definition upstream_response (response : EdgeResponse) (permit : PlatformKeyId) (websocket : bool) : M HttpResponse :=
  _ ← (if response.(er_completion) then call SpawnUsageObserver else mret tt);
  _ ← (if response.(er_completion) then committed ← await Committed; (if committed : bool then mret tt else refuse error_unavailable_without_retry) else mret tt);
  _ ← call ResponseCommitted;
  let stream :=
    {| cs_permit := Some permit; cs_completion := response.(er_completion) && negb websocket; cs_bytes_delivered := 0; cs_completed := false |} in
  let delivery := if websocket then Some {| wd_completion := response.(er_completion); wd_bytes_delivered := 0 |} else None in
  mret {| hr_status := response_status response.(er_status); hr_headers := client_headers header_name header_value response.(er_headers);
          hr_body := Body_Stream stream delivery |}.

(** Everything before the limiters: what the dispatcher will be given, without what is read from the clock. *)
Definition message_request (state : DataPlaneState) (request : EdgeRequest) (grant : Grant) (request_id : string) (endpoint : DispatchEndpoint)
    : M (DispatchRequest Num) :=
  accepted_at ← call MonotonicNow;
  started_at ← match request.(eq_started_at) with Some instant => mret instant | None => call InstantNow end;
  match validate_framing visible request.(eq_headers) with
  | Err error => refuse error
  | Ok _ =>
  let effective_limit := N.min grant.(ag_body_limit_bytes) (N.max state.(ds_platform_body_limit_bytes) 1) in
  if is_some_and (λ len, effective_limit <? len) (content_length visible request.(eq_headers)) then refuse error_too_large else
  let headers := request.(eq_headers) in
  read ← await (ReadBody effective_limit);
  match read with
  | None => refuse error_too_large
  | Some body =>
  match from_slice body with
  | None => refuse error_invalid_body
  | Some tree =>
  let classified := classify_client visible sha256 from_slice headers tree grant.(ag_platform_key_id) in
  match (if bool_decide (grant.(ag_provider) = Provider_Openai) then openai_client headers (bs request_id) classified else Ok classified) with
  | Err error => refuse error
  | Ok client =>
  if negb (bool_decide (client.(cl_class) ∈ grant.(ag_accepted_client_classes))) then refuse error_permission else
  match get (bs "model") tree ≫= as_str with
  | None => refuse error_invalid_body
  | Some model =>
  if negb (model_in_scope model grant.(ag_group_model_scope)) || negb (model_in_scope model grant.(ag_key_model_scope)) then refuse error_model_unavailable else
  '(client_os, os_resolution, os_mismatch) ← resolve_client_os headers tree grant.(ag_default_os_family) client.(cl_session_cache_key);
  let context :=
    {| pc_client_class := client.(cl_class); pc_client_os := client_os; pc_protocol_headers := protocol_headers visible headers;
       pc_affinity_credential := None |} in
  generic ← adjust_request endpoint grant tree model body context;
  mret {| dr_started_at := started_at; dr_client_identity := from_user_agent (header_text visible headers "user-agent");
          dr_original_headers := request.(eq_original_headers); dr_openai_connection := request.(eq_openai_connection); dr_endpoint := endpoint;
          dr_request_id := (match TypedId_new RequestTag request_id with Ok id => id | Err _ => MkTypedId "req_fallback" end);
          dr_owner_user_id := grant.(ag_owner_user_id); dr_platform_key_id := grant.(ag_platform_key_id); dr_group_id := grant.(ag_group_id);
          dr_base_session_id := client.(cl_base_session); dr_agent_id := client.(cl_agent); dr_client_class := client.(cl_class);
          dr_client_app := header_string visible headers "x-app"; dr_client_os := client_os; dr_os_resolution := os_resolution;
          dr_os_mismatch := os_mismatch; dr_identity_conflict := client.(cl_identity_conflict); dr_accepted_at := accepted_at;
          dr_pre_upstream_deadline := dur_add accepted_at (from_secs 30); dr_original_body := body; dr_generic := generic;
          dr_anthropic_version := header_string visible headers "anthropic-version"; dr_anthropic_beta := header_string visible headers "anthropic-beta" |}
  end end end end end.

(** The limiters, in their order. *)
Definition limit_request (grant : Grant) (endpoint : DispatchEndpoint) : M unit :=
  _ ← (if is_count_tokens endpoint then mret tt else authorize_spend grant);
  decision ← call (AllowRate (rate_key endpoint grant.(ag_platform_key_id)) (endpoint_rate endpoint grant));
  match decision with
  | Rate_Limited retry_after => refuse (error_rate_limited retry_after)
  | Rate_Allowed =>
      given ← call (AcquirePermit grant.(ag_platform_key_id) grant.(ag_concurrency_limit));
      if given : bool then mret tt else refuse (error_rate_limited 2)
  end.

Definition messages (state : DataPlaneState) (request : EdgeRequest) (grant : Grant) (request_id : string) (endpoint : DispatchEndpoint) : M HttpResponse :=
  dispatch ← message_request state request grant request_id endpoint;
  _ ← limit_request grant endpoint;
  holding grant.(ag_platform_key_id)
    (_ ← call RequestAccepted;
     answer ← await (DispatchMessage dispatch);
     match answer with
     | Err error => fail (dispatch_failure error)
     | Ok response => upstream_response response grant.(ag_platform_key_id) request.(eq_openai_connection)
     end).

(** ** The entry *)
Definition address_allowed (grant : Grant) (source : IpAddr) : bool := is_empty grant.(ag_ip_allowlist) || trusts net_contains grant.(ag_ip_allowlist) source.

Definition request_source (state : DataPlaneState) (request : EdgeRequest) : IpAddr :=
  source_ip visible parse_ip net_contains state.(ds_trusted_proxies) (default DEFAULT_PEER request.(eq_peer)) request.(eq_headers).

Definition provider_fits (route : BusinessRoute) (grant : Grant) : bool :=
  bool_decide (is_openai_route route = bool_decide (grant.(ag_provider) = Provider_Openai)) || match route with Route_Models | Route_Unknown => true | _ => false end.

Definition is_websocket (request : EdgeRequest) (route : BusinessRoute) : bool :=
  bool_decide (request.(eq_method) = GET) && match route with Route_OpenAi Responses => true | _ => false end.

(** The gates of every route: [None] when the request may go on. *)
Definition entry_refusal (request : EdgeRequest) (route : BusinessRoute) (grant : Grant) (source : IpAddr) : option GatewayError :=
  if negb (provider_fits route grant) then Some error_permission
  else if negb (is_websocket request route) && negb (bool_decide (request.(eq_method) = expected_method route)) then Some (method_error route)
  else if is_some_and (λ p, negb (bool_decide (p ∈ grant.(ag_permissions)))) (permission route) then Some error_permission
  else if negb (address_allowed grant source) then Some error_permission
  else None.

(** A socket of the Responses endpoint: [headers] are those of the request before its secret was removed. *)
Definition openai_websocket (state : DataPlaneState) (request : EdgeRequest) (headers : HeaderMap) : M HttpResponse :=
  idle ← await WebsocketIdle;
  match idle with
  | None => refuse error_unavailable_without_retry
  | Some idle =>
      let source := request_source state request in
      snapshot ← call RuntimeSnapshot;
      match (authenticate visible snapshot.(ms_access) headers).1 with
      | None => refuse error_authentication
      | Some grant =>
          given ← call (AcquireSocketKey grant.(ag_platform_key_id) 32);
          if negb given then refuse (error_rate_limited 2)
          else
            let held : M HttpResponse :=
              upgraded ← await UpgradeParts;
              if negb upgraded then refuse error_invalid_body
              else
                slot ← call AcquireConnection;
                if negb slot then refuse (error_rate_limited 2)
                else mret {| hr_status := 101; hr_headers := ∅; hr_body := Body_Upgrade idle source |} in
            prog_bind held (λ r, match r with Ok a => Ret (Ok a) | Err e => _ ← call (DropSocketKey grant.(ag_platform_key_id)); fail e end)
      end
  end.

(** A turn of the socket: the request that [messages] is given, or the end of the socket. *)
Definition turn_request (request : EdgeRequest) (headers : HeaderMap) (source : IpAddr) (snapshot : ManagementRuntimeSnapshot) (text : bytes)
    (started_at : Duration) (ingress : HeaderSnapshot) : option (Grant * EdgeRequest * bytes) :=
  body ← from_slice text;
  if negb (bool_decide ((get (bs "type") body ≫= as_str) = Some (bs "response.create"))) then None
  else
    match body with
    | JObject object =>
        let body := JObject (map_insert (bs "stream") (JBool true) (map_remove (bs "type") object)) in
        let '(found, auth) := authenticate visible snapshot.(ms_access) headers in
        grant ← found;
        if negb (bool_decide (grant.(ag_provider) = Provider_Openai)) || negb (bool_decide (Permission_Messages ∈ grant.(ag_permissions))) then None
        else if negb (address_allowed grant source) then None
        else
          Some (grant,
                {| eq_method := POST; eq_path := bs "/v1/responses"; eq_query := None; eq_headers := auth; eq_peer := None; eq_started_at := Some started_at;
                   eq_original_headers := Some ingress; eq_openai_connection := true |},
                default [] (to_vec body))
    | _ => None
    end.

Definition edge_gates (state : DataPlaneState) (request : EdgeRequest) (request_id : string) : M HttpResponse :=
  let route := classify_route request.(eq_path) in
  snapshot ← call RuntimeSnapshot;
  now_ms ← call SystemTimeMs;
  let original_headers := capture_snapshot now_ms Transport_Http (header_iter request.(eq_headers)) in
  let '(found, headers) := authenticate visible snapshot.(ms_access) request.(eq_headers) in
  match found with
  | None => refuse error_authentication
  | Some grant =>
  let ws_auth_headers := request.(eq_headers) in
  let request :=
    {| eq_method := request.(eq_method); eq_path := request.(eq_path); eq_query := request.(eq_query); eq_headers := headers; eq_peer := request.(eq_peer);
       eq_started_at := request.(eq_started_at); eq_original_headers := Some original_headers; eq_openai_connection := request.(eq_openai_connection) |} in
  match entry_refusal request route grant (request_source state request) with
  | Some error => refuse error
  | None =>
  if is_websocket request route then openai_websocket state request ws_auth_headers
  else
    match route with
    | Route_OpenAi endpoint => messages state request grant request_id (OpenAi endpoint)
    | Route_Messages => messages state request grant request_id Messages
    | Route_CountTokens => messages state request grant request_id CountTokens
    | Route_Models => models request grant snapshot.(ms_models) (bs request_id)
    | Route_Unknown => refuse error_not_found
    end
  end end.

Definition edge_entry (state : DataPlaneState) (request : EdgeRequest) : Prog EdgeCall (option HttpResponse) :=
  Do InstantNow (λ started_at,
  Do NewRequestId (λ id,
    let request :=
      {| eq_method := request.(eq_method); eq_path := request.(eq_path); eq_query := request.(eq_query); eq_headers := request.(eq_headers);
         eq_peer := request.(eq_peer); eq_started_at := Some started_at; eq_original_headers := None; eq_openai_connection := false |} in
    prog_bind (edge_gates state request ("req_" ++ id)) (λ r, Ret (exit_response (bs ("req_" ++ id)) r)))).
End handler.
