(* ===== verification/EdgeProofs.v ===== *)
(** What the handler of the data plane promises: a message reaches the dispatcher only through every gate, the permit of its key is held while it is
    there and given back on every path, and the delivery of a response is accounted for once. *)

From Stdlib Require Import Ascii.
From S2P Require Import Prelude Machine.
From S2P Require Import Bytes.
From S2P Require Import Domain.
From S2P Require Import Reservation.
From S2P Require Import Json.
From S2P Require Import Policy.
From S2P Require Import PolicyProofs.
From S2P Require Import ClientRequest.
From S2P Require Import Dispatch.
From S2P Require Import FinalRequest.
From S2P Require Import AccessLimits.
From S2P Require Import EdgeGates.
From S2P Require Import EdgeGatesProofs.
From S2P Require Import Programs.
From S2P Require Import Edge.
Local Open Scope N_scope.

(** ** The handler *)
Section handler_proofs.
Context {Num F IpAddr IpNet : Type} `{SerdeJson Num F} `{EqDecision IpAddr}.
Context (visible : bytes → bool) (header_name header_value : bytes → option bytes) (sha256 : bytes → bytes) (from_slice : bytes → option (Value Num)).
Context (parse_ip : bytes → option IpAddr) (net_contains : IpNet → IpAddr → bool) (DEFAULT_PEER : IpAddr) (header_iter : HeaderMap → list (bytes * bytes)).
Abbreviation Grant := (AccessGrant Num F IpNet).
Abbreviation Snapshot := (ManagementRuntimeSnapshot (Num := Num) (F := F) (IpNet := IpNet)).
Abbreviation Call := (EdgeCall (Num := Num) (F := F) (IpNet := IpNet)).
Abbreviation Request := (EdgeRequest (IpAddr := IpAddr)).
Abbreviation Response := (HttpResponse (Num := Num) (IpAddr := IpAddr)).

(** What an observer has seen of the calls of a handler. *)
Record EdgeSeen := {
  es_snapshot : option Snapshot;
  es_body : option (N * bytes);
  es_spend : option (UserId * PlatformKeyId);
  es_rate : option (string * RateLimit);
  es_held : list PlatformKeyId;
  es_dispatched : nat;
}.

Definition unseen : EdgeSeen :=
  {| es_snapshot := None; es_body := None; es_spend := None; es_rate := None; es_held := []; es_dispatched := 0 |}.

Definition see_snapshot (snapshot : Snapshot) (s : EdgeSeen) : EdgeSeen :=
  {| es_snapshot := Some (default snapshot s.(es_snapshot)); es_body := s.(es_body); es_spend := s.(es_spend); es_rate := s.(es_rate);
     es_held := s.(es_held); es_dispatched := s.(es_dispatched) |}.

Definition see_body (body : option (N * bytes)) (s : EdgeSeen) : EdgeSeen :=
  {| es_snapshot := s.(es_snapshot); es_body := body; es_spend := s.(es_spend); es_rate := s.(es_rate);
     es_held := s.(es_held); es_dispatched := s.(es_dispatched) |}.

Definition see_spend (spend : option (UserId * PlatformKeyId)) (s : EdgeSeen) : EdgeSeen :=
  {| es_snapshot := s.(es_snapshot); es_body := s.(es_body); es_spend := spend; es_rate := s.(es_rate);
     es_held := s.(es_held); es_dispatched := s.(es_dispatched) |}.

Definition see_rate (rate : option (string * RateLimit)) (s : EdgeSeen) : EdgeSeen :=
  {| es_snapshot := s.(es_snapshot); es_body := s.(es_body); es_spend := s.(es_spend); es_rate := rate;
     es_held := s.(es_held); es_dispatched := s.(es_dispatched) |}.

Definition see_held (held : list PlatformKeyId) (s : EdgeSeen) : EdgeSeen :=
  {| es_snapshot := s.(es_snapshot); es_body := s.(es_body); es_spend := s.(es_spend); es_rate := s.(es_rate);
     es_held := held; es_dispatched := s.(es_dispatched) |}.

Definition see_dispatch (s : EdgeSeen) : EdgeSeen :=
  {| es_snapshot := s.(es_snapshot); es_body := s.(es_body); es_spend := s.(es_spend); es_rate := s.(es_rate);
     es_held := s.(es_held); es_dispatched := S s.(es_dispatched) |}.

Definition see {B} (c : Call B) : B → EdgeSeen → EdgeSeen :=
  match c in EdgeCall B return B → EdgeSeen → EdgeSeen with
  | RuntimeSnapshot => see_snapshot
  | ReadBody limit => λ answer, see_body (match answer with Answered (Some body) => Some (limit, body) | _ => None end)
  | AuthorizeSpend owner key => λ answer, see_spend (match answer with Answered Spend_Allowed => Some (owner, key) | _ => None end)
  | AllowRate key rate => λ decision, see_rate (match decision with Rate_Allowed => Some (key, rate) | _ => None end)
  | AcquirePermit key _ => λ given s, if given then see_held (key :: s.(es_held)) s else s
  | DropPermit key => λ _ s, see_held (filter (λ k, k ≠ key) s.(es_held)) s
  | DispatchMessage _ => λ _, see_dispatch
  | _ => λ _ s, s
  end.

Definition see_event (event : Event Call) (s : EdgeSeen) : EdgeSeen := match event with Ev c b => see c b s end.

(** The request as it is after authentication. *)
Definition scrubbed (request : Request) : HeaderMap := delete (bs "authorization") (delete (bs "x-api-key") request.(eq_headers)).

(** A request that was made for the dispatcher, of the body that was read. *)
Record made_of_body (headers : HeaderMap) (grant : Grant) (endpoint : DispatchEndpoint) (limit : N) (dispatch : DispatchRequest Num) : Prop := {
  mb_framing : validate_framing visible headers = Ok tt;
  mb_limit : limit <= grant.(ag_body_limit_bytes);
  mb_class : dispatch.(dr_client_class) ∈ grant.(ag_accepted_client_classes);
  mb_model : ∃ tree model, from_slice dispatch.(dr_original_body) = Some tree ∧ get (bs "model") tree ≫= as_str = Some model ∧
    model_in_scope model grant.(ag_group_model_scope) = true ∧ model_in_scope model grant.(ag_key_model_scope) = true ∧
    match endpoint with
    | OpenAi _ => dispatch.(dr_generic) = openai_request sha256 grant tree model dispatch.(dr_original_body)
    | CountTokens => ∃ context, process_count_tokens sha256 grant.(ag_policy) dispatch.(dr_original_body) context = Ok dispatch.(dr_generic)
    | Messages => ∃ context, process sha256 grant.(ag_policy) dispatch.(dr_original_body) context = Ok dispatch.(dr_generic)
    end;
  mb_identity : dispatch.(dr_owner_user_id) = grant.(ag_owner_user_id) ∧ dispatch.(dr_platform_key_id) = grant.(ag_platform_key_id) ∧
    dispatch.(dr_group_id) = grant.(ag_group_id) ∧ dispatch.(dr_endpoint) = endpoint;
}.

(** What was asked of the limiters before a dispatch. *)
Record limited (grant : Grant) (endpoint : DispatchEndpoint) (s : EdgeSeen) : Prop := {
  lm_spend : is_count_tokens endpoint = false → s.(es_spend) = Some (grant.(ag_owner_user_id), grant.(ag_platform_key_id));
  lm_rate : s.(es_rate) = Some (rate_key endpoint grant.(ag_platform_key_id), endpoint_rate endpoint grant);
  lm_held : s.(es_held) = [grant.(ag_platform_key_id)];
  lm_first : s.(es_dispatched) = 0%nat;
}.

(** The calls that the observer reads: at most one permit is held, nothing is asked after the dispatch, and a message is dispatched when [passed] says so. *)
Section messages_proofs.
Context (passed : Grant → DispatchEndpoint → HeaderMap → EdgeSeen → Prop).

Definition edge_allowed B (c : Call B) (s : EdgeSeen) : Prop :=
  match c with
  | AcquirePermit _ _ => s.(es_held) = [] ∧ s.(es_dispatched) = 0%nat
  | DropPermit key => s.(es_held) = [key]
  | DispatchMessage dispatch => ∃ grant endpoint headers limit, passed grant endpoint headers s ∧
      s.(es_body) = Some (limit, dispatch.(dr_original_body)) ∧ made_of_body headers grant endpoint limit dispatch ∧ limited grant endpoint s
  | _ => True
  end.

Abbreviation ok := (safe see_event edge_allowed).

Lemma safe_await {B A} (c : Call (Await B)) (f : B → Fallible Call Exit A) s (Q : result Exit A → EdgeSeen → Prop) :
  edge_allowed _ c s → (∀ b, ok (f b) (see c (Answered b) s) Q) → Q (Err FutureDropped) (see c FutureEnds s) → ok (await c ≫= f) s Q.
Proof. intros Hc Hb Hd. split; [done|]. intros [b|]; [apply Hb|exact Hd]. Qed.

(** A state in which nothing is held and nothing was dispatched, as the gates keep it. *)
Record idle (s0 s : EdgeSeen) : Prop := {
  id_snapshot : is_Some s0.(es_snapshot) → s.(es_snapshot) = s0.(es_snapshot);
  id_held : s.(es_held) = [];
  id_dispatched : s.(es_dispatched) = 0%nat;
}.

Lemma idle_body s0 s body : idle s0 s → idle s0 (see_body body s).
Proof. by intros []. Qed.

Lemma idle_snapshot s0 s snapshot : is_Some s0.(es_snapshot) → idle s0 s → idle s0 (see_snapshot snapshot s).
Proof. intros [x E] [Hs Hh Hd]. split; [|done|done]. intros Hi. cbn. rewrite (Hs Hi), E. done. Qed.
Lemma idle_refl s : s.(es_held) = [] → s.(es_dispatched) = 0%nat → idle s s.
Proof. by split. Qed.

Lemma resolve_client_os_holds headers tree os key s : ok (resolve_client_os visible headers tree os key) s (λ r s', s' = s ∧ ∃ x, r = Ok x).
Proof.
  unfold resolve_client_os. destruct (os_evidence visible headers tree) as [[[header|] [environment|]] mismatch], key as [key|];
    try (split; [done|]; intros []; cbn; eauto); cbn; eauto.
Qed.

(** The request that the policy, or the replay of OpenAI, makes of a body. *)
Definition adjusted_as (grant : Grant) (endpoint : DispatchEndpoint) (tree : Value Num) (model body : bytes) (generic : AdjustedRequest Num) : Prop :=
  match endpoint with
  | OpenAi _ => generic = openai_request sha256 grant tree model body
  | CountTokens => ∃ context, process_count_tokens sha256 grant.(ag_policy) body context = Ok generic
  | Messages => ∃ context, process sha256 grant.(ag_policy) body context = Ok generic
  end.

Lemma adjust_request_holds s0 endpoint grant tree model body context s : is_Some s0.(es_snapshot) → idle s0 s →
  ok (adjust_request sha256 endpoint grant tree model body context) s
    (λ r s', idle s0 s' ∧ s'.(es_body) = s.(es_body) ∧ match r with Ok generic => adjusted_as grant endpoint tree model body generic | Err _ => True end).
Proof.
  intros Hs Hi. unfold adjust_request, policy_result. destruct endpoint as [| |endpoint].
  - destruct (process sha256 _ body context) as [generic|] eqn:E; cbn; eauto.
  - destruct (process_count_tokens sha256 _ body context) as [generic|] eqn:E; cbn; eauto.
  - split; [done|]. intros snapshot. cbn [prog_bind]. pose proof (idle_snapshot s0 s snapshot Hs Hi) as Hi'.
    destruct (negb _); [done|]. by destruct (is_some_and _ _).
Qed.

Lemma message_request_holds s0 (state : DataPlaneState (IpNet := IpNet)) (request : Request) grant request_id endpoint s : is_Some s0.(es_snapshot) → idle s0 s →
  ok (message_request visible sha256 from_slice state request grant request_id endpoint) s
    (λ r s', idle s0 s' ∧ match r with
      | Ok dispatch => ∃ limit, s'.(es_body) = Some (limit, dispatch.(dr_original_body)) ∧ made_of_body request.(eq_headers) grant endpoint limit dispatch
      | Err _ => True end).
Proof.
  intros Hs Hi. unfold message_request. apply safe_call; [done|]. intros accepted_at. cbn [see_event see].
  apply (safe_block see_event edge_allowed _ _ _ (λ _ s', s' = s)); [by destruct (eq_started_at request)| |by intros ? ? ->]. intros started_at ? ->.
  destruct (validate_framing _ _) as [[]|] eqn:Ef; [|done]. cbv zeta. destruct (is_some_and _ _); [done|].
  apply safe_await; [done| |by cbn; split; [apply idle_body|]]. intros [body|]; [|by split; [apply idle_body|]].
  destruct (from_slice body) as [tree|] eqn:Et; [|by split; [apply idle_body|]].
  destruct (if bool_decide _ then _ else _) as [client|]; [|by split; [apply idle_body|]].
  destruct (negb _) eqn:Ec; [by split; [apply idle_body|]|]. apply negb_false_iff, bool_decide_eq_true in Ec.
  destruct (get (bs "model") tree ≫= as_str) as [model|] eqn:Em; [|by split; [apply idle_body|]].
  destruct (_ || _) eqn:Es; [by split; [apply idle_body|]|]. apply orb_false_iff in Es as [Eg%negb_false_iff Ek%negb_false_iff].
  apply (safe_block see_event edge_allowed _ _ _ (λ r s', s' = see_body (Some (N.min (ag_body_limit_bytes grant) (N.max (ds_platform_body_limit_bytes state) 1), body)) s));
    [eapply safe_mono; [apply resolve_client_os_holds|by intros ? ? [-> _]]| |intros ? ? ->; by split; [apply idle_body|]].
  intros [[client_os os_resolution] os_mismatch] ? ->. cbv zeta.
  eapply safe_block; [apply (adjust_request_holds s0); [done|by apply idle_body]| |by intros ? ? (? & _ & _)].
  intros generic s' (Hi' & Hb & Ha). split; [done|]. eexists. split; [exact Hb|]. split; cbn; try done; [apply N.le_min_l|].
  exists tree, model. split_and!; try done.
Qed.

Lemma limit_request_holds s0 grant endpoint s : idle s0 s →
  ok (limit_request (IpNet := IpNet) grant endpoint) s
    (λ r s', (is_Some s0.(es_snapshot) → s'.(es_snapshot) = s0.(es_snapshot)) ∧ s'.(es_body) = s.(es_body) ∧
      match r with Ok _ => limited grant endpoint s' | Err _ => s'.(es_held) = [] ∧ s'.(es_dispatched) = 0%nat end).
Proof.
  intros [Hs Hh Hd]. unfold limit_request.
  apply (safe_block see_event edge_allowed _ _ _ (λ r s', idle s0 s' ∧ s'.(es_body) = s.(es_body) ∧
    (r = Ok tt → is_count_tokens endpoint = false → s'.(es_spend) = Some (grant.(ag_owner_user_id), grant.(ag_platform_key_id))))).
  - destruct (is_count_tokens endpoint); [done|]. unfold authorize_spend. apply safe_await; [done| |done].
    intros []; (split; [by split|]); by split.
  - intros [] s' ([Hs' Hh' Hd'] & Hb' & Hsp). apply safe_call; [done|]. intros [|retry_after]; [|by split_and!].
    apply safe_call; [by split|]. intros []; cbn; [|by split_and!]. split_and!; [done|done|]. split; cbn; [|done|by rewrite Hh'|done].
    intros Hct. by apply Hsp.
  - intros e s' ([Hs' Hh' Hd'] & Hb' & _). by split_and!.
Qed.

(** What a handler leaves: a response takes the permit with it, every other end has given it back. *)
Definition settled (r : result Exit Response) (s : EdgeSeen) : Prop :=
  match r with
  | Ok response => match response.(hr_body) with Body_Stream stream _ => s.(es_held) = option_list stream.(cs_permit) | _ => s.(es_held) = [] end
  | Err _ => s.(es_held) = []
  end.

Lemma holding_holds {key} (p : Fallible Call Exit Response) s Q :
  ok p s (λ r s', match r with Ok a => Q (Ok a) s' | Err e => s'.(es_held) = [key] ∧ Q (Err e) (see_held [] s') end) →
  ok (holding key p) s Q.
Proof.
  intros Hp. apply safe_bind. eapply safe_mono; [exact Hp|]. intros [a|e] s'; [done|]. intros [Hh HQ]. split; [done|]. intros []. cbn.
  rewrite Hh. rewrite filter_cons, filter_nil, decide_False by (intros Hn; by apply Hn). exact HQ.
Qed.

Lemma upstream_response_holds response key websocket s : s.(es_held) = [key] →
  ok (upstream_response header_name header_value response key websocket) s
    (λ r s', s'.(es_held) = [key] ∧ match r with
      | Ok r => match r.(hr_body (IpAddr := IpAddr)) with Body_Stream stream _ => stream.(cs_permit) = Some key | _ => False end
      | Err _ => True end).
Proof.
  intros Hh. unfold upstream_response. destruct (er_completion response).
  - apply safe_call; [done|]. intros [].
    apply (safe_block see_event edge_allowed _ _ _ (λ _ s', s'.(es_held) = [key])); [|intros [] s' Hs'; split; [done|by intros []]|done].
    apply safe_await; [done|by intros []|done].
  - split; [done|]. by intros [].
Qed.

Lemma messages_holds s0 (state : DataPlaneState (IpNet := IpNet)) (request : Request) grant request_id endpoint s : is_Some s0.(es_snapshot) → idle s0 s →
  (∀ s', s'.(es_snapshot) = s0.(es_snapshot) → passed grant endpoint request.(eq_headers) s') →
  ok (messages visible header_name header_value sha256 from_slice state request grant request_id endpoint) s settled.
Proof.
  intros Hs Hi Hp. unfold messages. eapply safe_block; [by apply (message_request_holds s0)| |by intros e s' [[] _]].
  intros dispatch s1 (Hi1 & limit & Hb & Hm). eapply safe_block; [by apply (limit_request_holds s0)| |by intros e s' (_ & _ & ? & _)].
  intros [] s2 (Hs2 & Hb2 & Hl). apply holding_holds. apply safe_call; [done|]. intros []. destruct Hl as [H1 H2 H3 H4].
  apply safe_await.
  - exists grant, endpoint, (eq_headers request), limit. split_and!; [apply Hp, Hs2, Hs|by rewrite <- Hb|done|done].
  - intros [response|error]; [|by split]. eapply safe_mono; [apply (upstream_response_holds _ grant.(ag_platform_key_id)); exact H3|].
    intros [r|e] s' [Hh' Hr]; [|by split]. unfold settled. destruct (hr_body r); [done| |done]. by rewrite Hr.
  - by split.
Qed.
End messages_proofs.

(** ** The entry *)
Definition endpoint_route (endpoint : DispatchEndpoint) : BusinessRoute :=
  match endpoint with OpenAi endpoint => Route_OpenAi endpoint | Messages => Route_Messages | CountTokens => Route_CountTokens end.

(** A request that passed authentication and the gates of every route, in the runtime that was read first. *)
Record entered (state : DataPlaneState (IpNet := IpNet)) (request : Request) (grant : Grant) (endpoint : DispatchEndpoint) (headers : HeaderMap) (s : EdgeSeen) : Prop := {
  en_grant : ∃ snapshot secret, s.(es_snapshot) = Some snapshot ∧ presents visible request.(eq_headers) secret ∧ snapshot.(ms_access) secret = Some grant;
  en_headers : headers = scrubbed request;
  en_method : request.(eq_method) = POST;
  en_route : classify_route request.(eq_path) = endpoint_route endpoint;
  en_provider : is_openai_route (endpoint_route endpoint) = bool_decide (grant.(ag_provider) = Provider_Openai);
  en_permission : Permission_Messages ∈ grant.(ag_permissions);
  en_address : grant.(ag_ip_allowlist) = [] ∨
    trusts net_contains grant.(ag_ip_allowlist) (request_source visible parse_ip net_contains DEFAULT_PEER state request) = true;
}.

Lemma authenticate_spec {G} (access : bytes → option G) headers : (authenticate visible access headers).2 = delete (bs "authorization") (delete (bs "x-api-key") headers) ∧
  ∀ grant, (authenticate visible access headers).1 = Some grant → ∃ secret, presents visible headers secret ∧ access secret = Some grant.
Proof.
  unfold authenticate. destruct (_ || _) eqn:E; (split; [done|]); intros grant; [done|]. cbn [fst].
  apply orb_false_iff in E as [[Ha%Nat.ltb_ge Hb%Nat.ltb_ge]%orb_false_iff E].
  destruct (presented_secret visible headers) as [secret|] eqn:Ep; [|done]. intros Hg. exists secret. split; [|done].
  apply presents_read. split_and!; [done|done| |done]. destruct (get_all "x-api-key" headers), (get_all "authorization" headers); naive_solver.
Qed.

(** The headers of the secret say nothing of the address. *)
Lemma scrubbed_forwarded headers :
  header_text visible (delete (bs "authorization") (delete (bs "x-api-key") headers)) "x-forwarded-for" = header_text visible headers "x-forwarded-for".
Proof.
  unfold header_text, get_all. by rewrite !lookup_delete_ne by by_decide.
Qed.

Lemma entry_refusal_None request route (grant : Grant) source : entry_refusal net_contains request route grant source = None →
  provider_fits route grant = true ∧ (is_websocket request route = true ∨ request.(eq_method (IpAddr := IpAddr)) = expected_method route) ∧
  (∀ p, permission route = Some p → p ∈ grant.(ag_permissions)) ∧ address_allowed net_contains grant source = true.
Proof.
  unfold entry_refusal. destruct (provider_fits route grant); [|done]. cbn [negb].
  destruct (negb (is_websocket request route) && _) eqn:Em; [done|]. destruct (is_some_and _ _) eqn:Ep; [done|].
  destruct (address_allowed net_contains grant source); [|done]. intros _. split_and!; [done| | |done].
  - destruct (is_websocket request route); [by left|]. cbn in Em. apply negb_false_iff, bool_decide_eq_true in Em. by right.
  - intros p Hp. rewrite Hp in Ep. cbn in Ep. by apply negb_false_iff, bool_decide_eq_true in Ep.
Qed.

Lemma openai_websocket_holds passed state (request : Request) headers s : s.(es_held) = [] →
  safe see_event (edge_allowed passed) (openai_websocket visible parse_ip net_contains DEFAULT_PEER state request headers) s settled.
Proof.
  intros Hh. unfold openai_websocket. apply safe_await; [done| |done]. intros [duration|]; [|done]. apply safe_call; [done|]. intros snapshot.
  destruct (authenticate _ _ _) as [[grant|] rest]; [|done]. cbn [fst]. apply safe_call; [done|]. intros [|]; [|done]. cbn [negb].
  apply safe_bind. apply safe_await; [done| |split; [done|by intros []]]. intros [|]; cbn [negb]; [|split; [done|by intros []]].
  apply safe_call; [done|]. intros [|]; cbn [negb]; [done|split; [done|by intros []]].
Qed.

Lemma with_request_id_body request_id (response : Response) : (with_request_id header_value request_id response).(hr_body) = response.(hr_body).
Proof. unfold with_request_id. by destruct (header_value request_id). Qed.

Lemma edge_gates_holds state (request : Request) request_id s : s.(es_held) = [] → s.(es_dispatched) = 0%nat → s.(es_snapshot) = None →
  safe see_event (edge_allowed (entered state request))
    (edge_gates visible header_name header_value sha256 from_slice parse_ip net_contains DEFAULT_PEER header_iter state request request_id) s settled.
Proof.
  intros Hh Hd Hn. unfold edge_gates. apply safe_call; [done|]. intros snapshot. apply safe_call; [done|]. intros now_ms. cbn [see_event see].
  pose proof (authenticate_spec snapshot.(ms_access) request.(eq_headers)) as [Eh Hg]. destruct (authenticate _ _ _) as [[grant|] headers]; [|done].
  cbn [fst snd] in Eh, Hg. destruct (Hg grant eq_refl) as (secret & Hpres & Hacc). clear Hg. set (inner := Build_EdgeRequest _ _ _ _ _ _ _ _).
  set (s1 := see_snapshot snapshot s). assert (idle s1 s1) as Hi by by split. assert (is_Some s1.(es_snapshot)) as Hs by done.
  destruct (entry_refusal _ _ _ _ _) eqn:Er; [done|]. apply entry_refusal_None in Er as (Hfit & Hmethod & Hperm & Haddr).
  destruct (is_websocket inner _) eqn:Ew; [by apply openai_websocket_holds|].
  destruct Hmethod as [|Hmethod]; [congruence|].
  assert (∀ endpoint, classify_route request.(eq_path) = endpoint_route endpoint → ∀ s', s'.(es_snapshot) = s1.(es_snapshot) →
    entered state request grant endpoint headers s') as Hent.
  { intros endpoint Hr s' Hs'. rewrite Hr in Hfit, Hmethod, Hperm. unfold provider_fits in Hfit. split; [|done|by destruct endpoint|done| | |].
    - exists snapshot, secret. rewrite Hs'. cbn. by rewrite Hn.
    - apply orb_true_iff in Hfit as [Hf%bool_decide_eq_true|Hf]; [done|by destruct endpoint].
    - apply Hperm. by destruct endpoint.
    - unfold address_allowed in Haddr. apply orb_true_iff in Haddr as [Ha|Ha]; [left; by destruct (ag_ip_allowlist grant)|right].
      rewrite <- Ha. unfold request_source, source_ip. cbn [inner eq_headers eq_peer]. by rewrite Eh, scrubbed_forwarded. }
  change (eq_path inner) with (eq_path request) in *.
  destruct (classify_route _) as [endpoint| | | |] eqn:Er.
  1, 2, 3: apply (messages_holds _ s1); [done|done|by apply Hent].
  2: done.
  apply safe_call; [done|]. intros [|]; [|done]. cbn [see_event see]. destruct (models_body _ _ _); [|done].
  unfold settled. cbn. by rewrite with_request_id_body.
Qed.

(** The permit that a reply takes with it. *)
Definition kept_permit (reply : option Response) : list PlatformKeyId :=
  match reply with
  | Some response => match response.(hr_body) with Body_Stream stream _ => option_list stream.(cs_permit) | _ => [] end
  | None => []
  end.

Lemma settled_reply r request_id s : settled r s → s.(es_held) = kept_permit (exit_response header_value request_id r).
Proof.
  destruct r as [response|[error| |]]; cbn; [by destruct (hr_body response)|..|done]; intros ->.
  - unfold error_response. by rewrite with_request_id_body.
  - unfold continuation_response. by rewrite with_request_id_body.
Qed.

Abbreviation entry := (edge_entry visible header_name header_value sha256 from_slice parse_ip net_contains DEFAULT_PEER header_iter).

Lemma edge_entry_holds state (request : Request) :
  safe see_event (edge_allowed (entered state request)) (entry state request) unseen (λ reply s, s.(es_held) = kept_permit reply).
Proof.
  split; [done|]. intros started_at. split; [done|]. intros id. cbn [see_event see]. set (inner := Build_EdgeRequest _ _ _ _ _ _ _ _).
  apply safe_bind. eapply safe_mono; [|intros r s Hs; cbn; by apply settled_reply].
  eapply safe_allow; [by apply (edge_gates_holds state inner)|].
  intros B c s. destruct c; cbn; auto. intros (grant & endpoint & headers & limit & [] & Hrest).
  exists grant, endpoint, headers, limit. by split.
Qed.
End handler_proofs.

(** ** The delivery of a response *)

(** The body is polled until it ends or fails, and then dropped; a client that goes away drops it before. *)
Fixpoint stream_run (recvs : list (PollRecv * PreparedDeliveryState)) (self : ClientBodyStream) : list PollBody * list StreamEffect * ClientBodyStream :=
  match recvs with
  | [] => ([], [], self)
  | (recv, state) :: recvs =>
      let '(body, effects, self) := poll_next recv state self in
      match body with
      | Body_Interrupted | Body_End => ([body], effects, self)
      | _ => let '(bodies, more, self) := stream_run recvs self in (body :: bodies, effects ++ more, self)
      end
  end.

Definition deliver (recvs : list (PollRecv * PreparedDeliveryState)) (self : ClientBodyStream) : list PollBody * list StreamEffect :=
  let '(bodies, effects, self) := stream_run recvs self in (bodies, effects ++ (stream_drop self).1).

Definition fresh_stream (key : PlatformKeyId) (completion : bool) : ClientBodyStream :=
  {| cs_permit := Some key; cs_completion := completion; cs_bytes_delivered := 0; cs_completed := false |}.

(** What the channel gave before its end, and how it ended: its outcome, and whether it was closed. *)
Fixpoint received (recvs : list (PollRecv * PreparedDeliveryState)) : list bytes * DeliveryOutcome * bool :=
  match recvs with
  | [] => ([], Delivery_ClientDisconnected, false)
  | (Recv_Item (Ok l), _) :: recvs => let '(chunks, outcome, closed) := received recvs in (l :: chunks, outcome, closed)
  | (Recv_Item (Err error), _) :: _ => ([], interrupted_outcome error, false)
  | (Recv_Closed, state) :: _ => ([], eof_outcome state, true)
  | (Recv_Pending, _) :: recvs => received recvs
  end.

Definition body_chunks (bodies : list PollBody) : list bytes := omap (λ body, match body with Body_Chunk l => Some l | _ => None end) bodies.

Definition stream_bytes (chunks : list bytes) (start : N) : N := N.min U64_MAX (start + N.of_nat (length (concat chunks))).

Lemma stream_run_received recvs key completion start : start <= U64_MAX →
  let self := {| cs_permit := Some key; cs_completion := completion; cs_bytes_delivered := start; cs_completed := false |} in
  let '(chunks, outcome, closed) := received recvs in
  let total := stream_bytes chunks start in
  body_chunks (deliver recvs self).1 = chunks ∧
  (deliver recvs self).2 = (if closed then [] else [CancelUpstream]) ++ [ReleasePermit key; DeliveryFinished outcome total] ++
    (if completion then [ReportCompleted outcome total] else []).
Proof.
  revert start. induction recvs as [|[recv state] recvs IH]; intros start Hs; cbn zeta.
  - unfold deliver, stream_bytes. cbn. rewrite N.add_0_r, N.min_r by done. by destruct completion.
  - destruct recv as [[l|error]| |]; cbn [received].
    + assert (saturating_add U64_MAX start (N.of_nat (length l)) <= U64_MAX) as Hle by apply N.le_min_l || (unfold saturating_add; lia).
      specialize (IH _ Hle). cbn zeta in IH. destruct (received recvs) as [[chunks outcome] closed]. unfold deliver in *. cbn [stream_run poll_next cs_permit cs_completion cs_bytes_delivered cs_completed].
      destruct (stream_run recvs _) as [[bodies more] self]. cbn [fst snd app] in *. destruct IH as [Hc He]. split; [cbn; by rewrite <- Hc|].
      rewrite He. assert (stream_bytes chunks (saturating_add U64_MAX start (N.of_nat (length l))) = stream_bytes (l :: chunks) start) as ->; [|done].
      unfold stream_bytes, saturating_add. cbn [concat]. rewrite length_app. lia.
    + unfold deliver, stream_bytes. cbn. rewrite N.add_0_r, N.min_r by done. by destruct completion.
    + unfold deliver, stream_bytes. cbn. rewrite N.add_0_r, N.min_r by done. by destruct completion.
    + specialize (IH _ Hs). cbn zeta in IH. destruct (received recvs) as [[chunks outcome] closed]. unfold deliver in *. cbn [stream_run poll_next].
      destruct (stream_run recvs _) as [[bodies more] self]. exact IH.
Qed.

(** A message that was dispatched is counted. *)
Lemma dispatched_mono {Num F IpNet} (events : list (Event (EdgeCall (Num := Num) (F := F) (IpNet := IpNet)))) s :
  (es_dispatched s <= es_dispatched (observe see_event events s))%nat.
Proof. revert s. induction events as [|[B c b] events IH]; intros s; [done|]. etrans; [|apply IH]. destruct c; cbn; try lia; destruct b; cbn; lia. Qed.

Lemma dispatched_seen {Num F IpNet} (events : list (Event (EdgeCall (Num := Num) (F := F) (IpNet := IpNet)))) s j dispatch answer :
  events !! j = Some (Ev (DispatchMessage dispatch) answer) → (0 < es_dispatched (observe see_event events s))%nat.
Proof.
  revert s j. induction events as [|e events IH]; intros s [|j]; [done..| |apply IH].
  intros [= ->]. eapply Nat.lt_le_trans; [|apply (dispatched_mono events)]. cbn. lia.
Qed.

(** ** Properties *)

(** C14: a message reaches the dispatcher only through every gate of the edge, in every run and whatever the surroundings answer: the secret of its headers
    resolved to the grant in the runtime that was read first, the method, the provider, the permission, the address, the framing, the size, the class and the model
    were allowed by that grant, the request is the policy's own of the body that was read, the spend was authorized unless it counts tokens, the rate of
    the key allowed it, the only permit that is held is the key's, and nothing was dispatched before. *)
Theorem dispatch_behind_gates {Num F IpAddr IpNet} `{SerdeJson Num F, EqDecision IpAddr} visible header_name header_value sha256 from_slice parse_ip net_contains DEFAULT_PEER header_iter
    (state : DataPlaneState (IpNet := IpNet)) (request : EdgeRequest (IpAddr := IpAddr)) oracle i dispatch answer :
  let '(events, reply) := run oracle
    (edge_entry (F := F) visible header_name header_value sha256 from_slice parse_ip net_contains DEFAULT_PEER header_iter state request) [] in
  events !! i = Some (Ev (DispatchMessage dispatch) answer) →
  let seen := observe see_event (take i events) unseen in
  ∃ grant endpoint headers limit, entered visible parse_ip net_contains DEFAULT_PEER state request grant endpoint headers seen ∧
    seen.(es_body) = Some (limit, dispatch.(dr_original_body)) ∧ made_of_body visible sha256 from_slice headers grant endpoint limit dispatch ∧
    limited grant endpoint seen.
Proof.
  pose proof (edge_entry_holds visible header_name header_value sha256 from_slice parse_ip net_contains DEFAULT_PEER header_iter state request) as Hsafe.
  apply (run_safe _ _ oracle _ _ _ []) in Hsafe. destruct (run _ _ _) as [events reply]. destruct Hsafe as (_ & _ & Hall). intros Hi.
  exact (Hall i _ (Nat.le_0_l i) Hi).
Qed.

(** C15: the permit of a key is given back: at every moment of a run at most one permit is held, no permit is asked for once a message was dispatched, and at the
    end the only one that may be held is the one that the reply carries, when it is streamed; a handler whose future is dropped holds none. *)
Theorem permit_given_back {Num F IpAddr IpNet} `{SerdeJson Num F, EqDecision IpAddr} visible header_name header_value sha256 from_slice parse_ip net_contains DEFAULT_PEER header_iter
    (state : DataPlaneState (IpNet := IpNet)) (request : EdgeRequest (IpAddr := IpAddr)) oracle :
  let '(events, reply) := run oracle
    (edge_entry (F := F) visible header_name header_value sha256 from_slice parse_ip net_contains DEFAULT_PEER header_iter state request) [] in
  (∀ n, (length (es_held (observe see_event (take n events) unseen)) <= 1)%nat) ∧
  (∀ i j key limit given dispatch answer, events !! i = Some (Ev (AcquirePermit key limit) given) → events !! j = Some (Ev (DispatchMessage dispatch) answer) → (i < j)%nat) ∧
  es_held (observe see_event events unseen) = kept_permit reply.
Proof.
  pose proof (edge_entry_holds visible header_name header_value sha256 from_slice parse_ip net_contains DEFAULT_PEER header_iter state request) as Hsafe.
  pose proof (run_invariant _ _ oracle _ _ _ (λ s, length s.(es_held) <= 1)%nat Hsafe) as Hinv.
  apply (run_safe _ _ oracle _ _ _ []) in Hsafe. destruct (run _ _ _) as [events reply]. destruct Hsafe as (Hend & _ & Hall). split_and!; [| |by destruct Hend].
  2: { intros i j key limit given dispatch answer Hi Hj. destruct (Hall i _ (Nat.le_0_l i) Hi) as [_ H0]. apply Nat.nle_gt. intros Hle.
       assert (i ≠ j) as Hne.
       { intros ->. rewrite Hj in Hi. by apply (f_equal (λ e, match e with Some (Ev (AcquirePermit _ _) _) => true | _ => false end)) in Hi. }
       rewrite <- (lookup_take_lt _ i) in Hj by lia. apply dispatched_seen with (s := unseen) in Hj. lia. }
  apply Hinv; [cbn; lia|]. intros [B c b] s Hc. destruct c; cbn in *; try done.
  - destruct b; [|done]. destruct Hc as [-> _]. cbn. lia.
  - rewrite Hc. intros _. rewrite filter_cons, filter_nil. case_decide; cbn; lia.
Qed.

(** the delivery of a response is accounted for exactly once, however its channel and its client behave: the client is given the chunks that were received, unchanged
    and in order; the permit of the key is released once, the bytes and the outcome of the end are reported once, and the upstream is cancelled unless the channel
    was closed. *)
Theorem delivery_accounted_once key completion recvs :
  let '(chunks, outcome, closed) := received recvs in
  let '(bodies, effects) := deliver recvs (fresh_stream key completion) in
  let total := N.min U64_MAX (N.of_nat (length (concat chunks))) in
  body_chunks bodies = chunks ∧
  effects = (if closed then [] else [CancelUpstream]) ++ [ReleasePermit key; DeliveryFinished outcome total] ++
    (if completion then [ReportCompleted outcome total] else []).
Proof.
  pose proof (stream_run_received recvs key completion 0 (N.le_0_l _)) as Hr. cbn zeta in Hr. unfold fresh_stream. destruct (received recvs) as [[chunks outcome] closed].
  destruct (deliver _ _) as [bodies effects]. exact Hr.
Qed.

(** ** Samples *)
#[local] Instance edge_serde : SerdeJson Z Z := sample_serde [] (λ _, Some (bs "printed")).

Definition sample_edge_grant : AccessGrant Z Z N :=
  {| ag_provider := Provider_Openai; ag_owner_user_id := MkTypedId "u"; ag_platform_key_id := MkTypedId "k"; ag_group_id := MkTypedId "g";
     ag_permissions := [Permission_Messages]; ag_key_model_scope := ∅; ag_group_model_scope := {[ bs "m" ]}; ag_body_limit_bytes := 1024;
     ag_messages_rate := DEFAULT_MESSAGES; ag_count_tokens_rate := DEFAULT_COUNT_TOKENS; ag_models_rate := DEFAULT_MODELS; ag_concurrency_limit := 5;
     ag_ip_allowlist := [7]; ag_accepted_client_classes := [NonClaudeCodeCli]; ag_default_os_family := Linux; ag_policy := sample_strip_all |}.

Definition sample_runtime : ManagementRuntimeSnapshot (Num := Z) (F := Z) (IpNet := N) :=
  {| ms_access := λ secret, if bool_decide (secret = bs "secret") then Some sample_edge_grant else None; ms_models := [sample_model Provider_Openai "m"] |}.

Definition sample_edge_request : EdgeRequest (IpAddr := N) :=
  {| eq_method := POST; eq_path := bs "/v1/responses"; eq_query := None;
     eq_headers := {[ bs "authorization" := [bs "Bearer secret"]; bs "content-type" := [bs "application/json"]; bs "x-forwarded-for" := [bs "7"] ]};
     eq_peer := Some 1; eq_started_at := None; eq_original_headers := None; eq_openai_connection := false |}.

Definition sample_edge_state : DataPlaneState (IpNet := N) := {| ds_trusted_proxies := [1]; ds_platform_body_limit_bytes := 4096 |}.

(** Surroundings that let everything pass; [ending] is the answer of the dispatcher. *)
Definition sample_edge_answer (ending : Await (result DispatchError EdgeResponse)) B (c : EdgeCall (Num := Z) (F := Z) (IpNet := N) B) : B :=
  match c in EdgeCall B return B with
  | NewRequestId => "1"%string
  | InstantNow | SystemTimeMs | MonotonicNow => 5
  | RuntimeSnapshot => sample_runtime
  | ReadBody _ => Answered (Some (bs "body"))
  | RememberOs _ _ | DropPermit _ | RequestAccepted | SpawnUsageObserver | ResponseCommitted | DropSocketKey _ => tt
  | ResolveOs _ => None
  | AuthorizeSpend _ _ => Answered Spend_Allowed
  | AllowRate _ _ => Rate_Allowed
  | AcquirePermit _ _ | AcquireSocketKey _ _ | AcquireConnection => true
  | DispatchMessage _ => ending
  | Committed | UpgradeParts => Answered true
  | WebsocketIdle => Answered None
  end.

Definition sample_iter (headers : HeaderMap) : list (bytes * bytes) := concat (map (λ h : bytes * list bytes, map (pair h.1) h.2) (map_to_list headers)).

Definition sample_edge_run (ending : Await (result DispatchError EdgeResponse)) :=
  run (λ _, sample_edge_answer ending)
    (edge_entry (F := Z) (λ _, true) Some Some id (λ _, Some (JObject [(bs "model", JString (bs "m"))])) sample_ip N.eqb 0 sample_iter sample_edge_state sample_edge_request) [].

(** The index of the dispatch in the run. *)
Definition dispatches {Num F IpNet} (events : list (Event (EdgeCall (Num := Num) (F := F) (IpNet := IpNet)))) : list nat :=
  omap (λ '(i, event), match event with Ev c _ => match c with DispatchMessage _ => Some i | _ => None end end) (imap pair events).

Example sample_edge_dispatches : dispatches (sample_edge_run FutureEnds).1 = [11%nat].
Proof. by vm_compute. Qed.

Lemma dispatch_behind_gates_witness :
  ∃ dispatch answer, (sample_edge_run FutureEnds).1 !! 11%nat = Some (Ev (DispatchMessage dispatch) answer) ∧
    dispatch.(dr_platform_key_id) = MkTypedId "k"%string ∧ (observe see_event (take 11 (sample_edge_run FutureEnds).1) unseen).(es_held) = [MkTypedId "k"%string].
Proof.
  pose proof (dispatch_behind_gates (λ _, true) Some Some id (λ _, Some (JObject [(bs "model", JString (bs "m"))])) sample_ip N.eqb 0
    sample_iter sample_edge_state sample_edge_request (λ _, sample_edge_answer FutureEnds) 11) as Hgates.
  eexists _, _. split; [vm_compute; reflexivity|]. split; [vm_compute; reflexivity|].
  fold (sample_edge_run FutureEnds) in Hgates. destruct (sample_edge_run FutureEnds) as [events reply] eqn:E.
  edestruct Hgates as (grant & endpoint & headers & limit & Hent & Hbody & Hmade & Hlim).
  - apply (f_equal fst) in E. cbn [fst] in E. rewrite <- E. vm_compute. reflexivity.
  - destruct Hlim as [_ _ Hheld _]. cbn [fst]. rewrite Hheld. destruct Hmade as [_ _ _ _ (_ & Hk & _)]. cbn in Hk. by rewrite <- Hk.
Defined.

(** The three ends of the dispatch: the client goes away, the dispatcher refuses, a response takes the permit. *)
Example sample_edge_ends :
  (sample_edge_run FutureEnds).2 = None ∧
  (hr_status <$> (sample_edge_run (Answered (Err DeadlineExceeded))).2) = Some 504 ∧
  kept_permit (sample_edge_run (Answered (Ok {| er_status := 200; er_headers := []; er_completion := true |}))).2 = [MkTypedId "k"%string].
Proof. by vm_compute. Qed.

(** A request of OpenAI reads the runtime twice: its models may be of another generation than its grant. *)
Example openai_reads_two_runtimes :
  length (omap (λ event, match event with Ev c _ => match c with RuntimeSnapshot => Some tt | _ => None end end) (sample_edge_run FutureEnds).1) = 2%nat.
Proof. by vm_compute. Qed.
