(* ===== verification/Delivery.v ===== *)
(** The completion of a request: [RequestCompletion] of super-gatewayd [production_dispatcher.rs]: what is recorded when the usage of a response is observed and when its
    delivery ends, and how the resources of the scheduler are given back.

    The hooks run at the same time, on shared flags and a latch behind a mutex: each is a program, and they are interleaved ([Interleaving]). What the code only logs is
    left out. *)

From Stdlib Require Import Ascii.
From S2P Require Import Prelude Machine.
From S2P Require Import Bytes.
From S2P Require Import Usage.
From S2P Require Import UsageObserver.
From S2P Require Import Reservation.
From S2P Require Import SchedTypes.
From S2P Require Import ClientRequest.
From S2P Require Import Dispatch.
From S2P Require Import Programs.
From S2P Require Import Interleaving.
Local Open Scope N_scope.

(** ** Records *)
Record DeliveryReport := {
  dv_finished_at : N;
  dv_outcome : DeliveryOutcome;
  dv_bytes_delivered : N;
}.

Record DeliveryComplete (Uuid : Type) := {
  dc_delivery_id : Uuid;
  dc_outcome : DeliveryOutcome;
  dc_response_committed : bool;
  dc_upstream_bytes_received : Z;
  dc_bytes_delivered : Z;
  dc_peak_backpressure_bytes : Z;
  dc_spill_bytes : Z;
}.
Arguments Build_DeliveryComplete {Uuid}.

Record CancelEvidence := {
  cv_input_basis_digest : bytes;
  cv_sse_complete_event_ordinal : option Z;
  cv_sse_content_event_ordinal : option Z;
  cv_sse_decoded_end_offset : option Z;
  cv_sse_last_event_type : option bytes;
  cv_sse_gap : option bool;
}.

Record UsagePersist (Uuid : Type) := {
  up_observation_id : Uuid;
  up_request_id : Uuid;
  up_attempt_id : option Uuid;
  up_model_id : option Uuid;
  up_observation : UsageObservation;
  up_select_as_final : bool;
  up_selection_reason_code : option string;
  up_cancel_evidence : option CancelEvidence;
}.
Arguments Build_UsagePersist {Uuid}.
Arguments up_observation {Uuid}.
Arguments up_cancel_evidence {Uuid}.

Record PriceBasis (Uuid : Type) := {
  pb_price_entry_id : Uuid;
  pb_snapshot : PriceSnapshot;
}.
Arguments pb_price_entry_id {Uuid}.
Arguments pb_snapshot {Uuid}.

Record CostPersist (Uuid : Type) := {
  cp_cost_id : Uuid;
  cp_usage_observation_id : Uuid;
  cp_price_entry_id : option Uuid;
  cp_price_snapshot : PriceSnapshot;
  cp_estimate : CostEstimate;
  cp_amount_pico_usd : option bytes;
  cp_known_field_mask : N;
}.
Arguments Build_CostPersist {Uuid}.

(** The fields of a completion that do not change. *)
Record RequestCompletion (Uuid : Type) := {
  rc_started_at : N;
  rc_endpoint : DispatchEndpoint;
  rc_lease : option CredentialLease;
  rc_request_uuid : Uuid;
  rc_delivery_id : Uuid;
  rc_attempt_id : Uuid;
  rc_model_id : Uuid;
  rc_cancel_grace : Duration;
  rc_cancel_input_tokens : N;
  rc_cancel_input_basis_digest : bytes;
}.
Arguments rc_started_at {Uuid}.
Arguments rc_endpoint {Uuid}.
Arguments rc_lease {Uuid}.
Arguments rc_request_uuid {Uuid}.
Arguments rc_delivery_id {Uuid}.
Arguments rc_attempt_id {Uuid}.
Arguments rc_model_id {Uuid}.
Arguments rc_cancel_grace {Uuid}.
Arguments rc_cancel_input_tokens {Uuid}.
Arguments rc_cancel_input_basis_digest {Uuid}.

(** ** The shared state *)
Record UsageTerminalLatch := {
  ul_outcome : option DeliveryOutcome;
  ul_observed : option ObservedResponseUsage;
  ul_cancel_persist_started : bool;
}.

Record CompletionStore := {
  st_finished : bool;
  st_committed : bool;
  st_latch : UsageTerminalLatch;
}.

Definition store_new : CompletionStore :=
  {| st_finished := false; st_committed := false; st_latch := {| ul_outcome := None; ul_observed := None; ul_cancel_persist_started := false |} |}.

Definition with_latch (latch : UsageTerminalLatch) (self : CompletionStore) : CompletionStore :=
  {| st_finished := self.(st_finished); st_committed := self.(st_committed); st_latch := latch |}.

Definition client_gone (outcome : DeliveryOutcome) : bool :=
  match outcome with Delivery_ClientDisconnected | Delivery_ClientWriteTimeout => true | _ => false end.

(** The critical section of [maybe_persist_cancel_estimate]. *)
Definition latch_start (latch : UsageTerminalLatch) : option ObservedResponseUsage * UsageTerminalLatch :=
  let cancelled := is_some_and client_gone latch.(ul_outcome) in
  match latch.(ul_observed) with
  | None => (None, latch)
  | Some observed =>
      if negb cancelled || latch.(ul_cancel_persist_started) || bool_decide (observed.(or_official).(uo_completeness) = Complete) then (None, latch)
      else (Some observed, {| ul_outcome := latch.(ul_outcome); ul_observed := Some observed; ul_cancel_persist_started := true |})
  end.

(** ** The calls *)
Inductive DeliveryCall (Uuid : Type) : Type → Type :=
  (* the shared state *)
  | SwapFinished : DeliveryCall Uuid bool
  | StoreCommitted : DeliveryCall Uuid unit
  | LoadCommitted : DeliveryCall Uuid bool
  | LatchOutcome (outcome : DeliveryOutcome) : DeliveryCall Uuid unit
  | LatchObserved (observed : ObservedResponseUsage) : DeliveryCall Uuid unit
  | LatchStart : DeliveryCall Uuid (option ObservedResponseUsage)
  | LatchReset : DeliveryCall Uuid unit
  (* storage *)
  | PriceBasisForRequest : DeliveryCall Uuid (option (option (PriceBasis Uuid)))
  | AppendUsage (record : UsagePersist Uuid) (cost : option (CostPersist Uuid)) : DeliveryCall Uuid bool
  | CommitClientResponse : DeliveryCall Uuid bool
  | RecordRequestTiming (first_content_ms duration_ms : option Z) : DeliveryCall Uuid bool
  | ObserveUpstreamBytes (count : Z) : DeliveryCall Uuid bool
  | CompleteRequestLifecycle (delivery : DeliveryComplete Uuid) : DeliveryCall Uuid bool
  (* the owner of the Group *)
  | CancelActive : DeliveryCall Uuid unit
  | ConfirmTransportCancel : DeliveryCall Uuid unit
  | ReleaseAndComplete (lease : CredentialLease) : DeliveryCall Uuid unit
  | CompleteRequestOnly : DeliveryCall Uuid unit
  (* the transport and the runtime *)
  | TransportTerminalWithin (grace : Duration) : DeliveryCall Uuid bool
  | DeliveryNow : DeliveryCall Uuid N
  | FreshId : DeliveryCall Uuid Uuid
  | RetrySleep (delay : Duration) : DeliveryCall Uuid unit.
Arguments SwapFinished {Uuid}.
Arguments StoreCommitted {Uuid}.
Arguments LoadCommitted {Uuid}.
Arguments LatchOutcome {Uuid}.
Arguments LatchObserved {Uuid}.
Arguments LatchStart {Uuid}.
Arguments LatchReset {Uuid}.
Arguments PriceBasisForRequest {Uuid}.
Arguments AppendUsage {Uuid}.
Arguments CommitClientResponse {Uuid}.
Arguments RecordRequestTiming {Uuid}.
Arguments ObserveUpstreamBytes {Uuid}.
Arguments CompleteRequestLifecycle {Uuid}.
Arguments CancelActive {Uuid}.
Arguments ConfirmTransportCancel {Uuid}.
Arguments ReleaseAndComplete {Uuid}.
Arguments CompleteRequestOnly {Uuid}.
Arguments TransportTerminalWithin {Uuid}.
Arguments DeliveryNow {Uuid}.
Arguments FreshId {Uuid}.
Arguments RetrySleep {Uuid}.

(** What the shared state answers. *)
Definition shared {Uuid} B (c : DeliveryCall Uuid B) (store : CompletionStore) : option (B * CompletionStore) :=
  match c in DeliveryCall _ B return option (B * CompletionStore) with
  | SwapFinished => Some (store.(st_finished), {| st_finished := true; st_committed := store.(st_committed); st_latch := store.(st_latch) |})
  | StoreCommitted => Some (tt, {| st_finished := store.(st_finished); st_committed := true; st_latch := store.(st_latch) |})
  | LoadCommitted => Some (store.(st_committed), store)
  | LatchOutcome outcome =>
      Some (tt, with_latch {| ul_outcome := Some outcome; ul_observed := store.(st_latch).(ul_observed);
                              ul_cancel_persist_started := store.(st_latch).(ul_cancel_persist_started) |} store)
  | LatchObserved observed =>
      Some (tt, with_latch {| ul_outcome := store.(st_latch).(ul_outcome); ul_observed := Some observed;
                              ul_cancel_persist_started := store.(st_latch).(ul_cancel_persist_started) |} store)
  | LatchStart => let '(answer, latch) := latch_start store.(st_latch) in Some (answer, with_latch latch store)
  | LatchReset =>
      Some (tt, with_latch {| ul_outcome := store.(st_latch).(ul_outcome); ul_observed := store.(st_latch).(ul_observed); ul_cancel_persist_started := false |} store)
  | _ => None
  end.

(** ** The hooks *)
Definition i64_or_max (n : N) : Z := default ISIZE_MAX (i64_of n).

Definition elapsed_ms (started ended : N) : Z := i64_or_max (saturating_sub ended started / NANOS_PER_MILLI).

Section hooks.
Context {Uuid : Type} (self : RequestCompletion Uuid).
Abbreviation Hook := (Prog (DeliveryCall Uuid)).

#[local] Existing Instance prog_mbind.
#[local] Existing Instance prog_mret.

Definition selection_reason (usage : UsageObservation) : string :=
  match usage.(uo_source), usage.(uo_completeness) with
  | Official, Complete => "official_complete"
  | Official, Partial => "official_partial"
  | ConsoleCount, _ => "console_count"
  | LocalEstimate, _ => "local_estimate"
  | CancelEstimate, _ => "cancel_estimate"
  | _, _ => "unknown"
  end.

(** The cost of the usage, with its amount in pico-USD. *)
Definition cost_of (usage : UsageObservation) (price : PriceSnapshot) : option (CostEstimate * option bytes) :=
  match calculate_cost usage price "estimated-api-value-v1" with
  | Err _ => None
  | Ok estimate =>
      match estimate.(ce_amount_usd) with
      | Some amount => (λ pico, (estimate, Some pico)) <$> decimal_usd_to_pico_text amount
      | None => Some (estimate, None)
      end
  end.

Definition cost_record (cost_id observation_id : Uuid) (usage : UsageObservation) (price : PriceBasis Uuid) (estimate : CostEstimate) (amount : option bytes) : CostPersist Uuid :=
  {| cp_cost_id := cost_id; cp_usage_observation_id := observation_id; cp_price_entry_id := Some price.(pb_price_entry_id); cp_price_snapshot := price.(pb_snapshot);
     cp_estimate := estimate; cp_amount_pico_usd := amount; cp_known_field_mask := known_usage_field_mask usage |}.

(** The attempts to store a record, each after a longer wait. *)
Fixpoint append_loop (record : UsagePersist Uuid) (cost : option (CostPersist Uuid)) (retries : list N) : Hook bool :=
  match retries with
  | [] => mret false
  | retry :: retries =>
      stored ← ask (AppendUsage record cost);
      if stored : bool then mret true
      else if retry <? 3 then _ ← ask (RetrySleep (N.shiftl 100 retry * NANOS_PER_MILLI)); append_loop record cost retries
      else mret false
  end.

Definition persist_usage_observation (usage : UsageObservation) (cancel_evidence : option CancelEvidence) : Hook bool :=
  observation_id ← ask FreshId;
  basis ← ask PriceBasisForRequest;
  cost ← (match basis with
          | Some (Some price) =>
              match cost_of usage price.(pb_snapshot) with
              | Some (estimate, amount) => cost_id ← ask FreshId; mret (Some (cost_record cost_id observation_id usage price estimate amount))
              | None => mret None
              end
          | _ => mret None
          end);
  append_loop
    {| up_observation_id := observation_id; up_request_id := self.(rc_request_uuid); up_attempt_id := Some self.(rc_attempt_id); up_model_id := Some self.(rc_model_id);
       up_observation := usage; up_select_as_final := true; up_selection_reason_code := Some (selection_reason usage); up_cancel_evidence := cancel_evidence |}
    cost [0; 1; 2; 3].

Definition estimate_usage (observed : ObservedResponseUsage) : UsageObservation :=
  {| uo_source := CancelEstimate; uo_completeness := Partial;
     uo_counts := {| tc_input_tokens := Some self.(rc_cancel_input_tokens);
                     tc_output_tokens := (match observed.(or_sse) with Some evidence => if evidence.(se_gap) then None else evidence.(se_output_tokens_estimate) | None => None end);
                     tc_cache_creation_input_tokens := None; tc_cache_read_input_tokens := None |};
     uo_algorithm_version := Some "cancel-boundary-v1"%string |}.

Definition estimate_evidence (observed : ObservedResponseUsage) : CancelEvidence :=
  match observed.(or_sse) with
  | None => {| cv_input_basis_digest := self.(rc_cancel_input_basis_digest); cv_sse_complete_event_ordinal := None; cv_sse_content_event_ordinal := None;
               cv_sse_decoded_end_offset := None; cv_sse_last_event_type := None; cv_sse_gap := None |}
  | Some evidence =>
      {| cv_input_basis_digest := self.(rc_cancel_input_basis_digest); cv_sse_complete_event_ordinal := i64_of evidence.(se_complete_event_ordinal);
         cv_sse_content_event_ordinal := i64_of evidence.(se_content_event_ordinal); cv_sse_decoded_end_offset := i64_of evidence.(se_decoded_end_offset);
         cv_sse_last_event_type := evidence.(se_last_event_type); cv_sse_gap := Some evidence.(se_gap) |}
  end.

Definition maybe_persist_cancel_estimate : Hook unit :=
  observed ← ask LatchStart;
  match observed with
  | None => mret tt
  | Some observed =>
      stored ← persist_usage_observation (estimate_usage observed) (Some (estimate_evidence observed));
      if stored : bool then mret tt else ask LatchReset
  end.

Definition is_messages : bool := bool_decide (self.(rc_endpoint) = Messages).

Definition committed : Hook unit :=
  stored ← ask CommitClientResponse;
  if stored : bool then ask StoreCommitted else mret tt.

Definition usage_observed (observed : ObservedResponseUsage) : Hook unit :=
  _ ← (match observed.(or_first_content_at) with
       | Some first => ask (RecordRequestTiming (Some (elapsed_ms self.(rc_started_at) first)) None)
       | None => mret true
       end);
  _ ← ask (ObserveUpstreamBytes (i64_or_max observed.(or_upstream_bytes_received)));
  _ ← (if is_messages then persist_usage_observation observed.(or_official) None else mret true);
  _ ← ask (LatchObserved observed);
  if is_messages then maybe_persist_cancel_estimate else mret tt.

Definition is_cancelled (outcome : DeliveryOutcome) : bool :=
  match outcome with Delivery_ClientDisconnected | Delivery_ClientWriteTimeout | CancelledBeforeCommit => true | _ => false end.

Definition finish_scheduler_resources (outcome : DeliveryOutcome) : Hook unit :=
  match self.(rc_lease) with
  | Some lease =>
      if is_cancelled outcome then
        _ ← ask CancelActive;
        terminal ← ask (TransportTerminalWithin self.(rc_cancel_grace));
        if terminal : bool then ask ConfirmTransportCancel else mret tt
      else ask (ReleaseAndComplete lease)
  | None => ask CompleteRequestOnly
  end.

Definition lifecycle (outcome : DeliveryOutcome) (committed : bool) (delivered : N) : DeliveryComplete Uuid :=
  {| dc_delivery_id := self.(rc_delivery_id); dc_outcome := outcome; dc_response_committed := committed; dc_upstream_bytes_received := i64_or_max delivered;
     dc_bytes_delivered := i64_or_max delivered; dc_peak_backpressure_bytes := 0; dc_spill_bytes := 0 |}.

Definition completed (report : DeliveryReport) : Hook unit :=
  finished ← ask SwapFinished;
  if finished : bool then mret tt
  else
    _ ← ask (RecordRequestTiming None (Some (elapsed_ms self.(rc_started_at) report.(dv_finished_at))));
    _ ← ask (LatchOutcome report.(dv_outcome));
    _ ← (if is_messages then maybe_persist_cancel_estimate else mret tt);
    committed ← ask LoadCommitted;
    _ ← ask (CompleteRequestLifecycle (lifecycle report.(dv_outcome) committed report.(dv_bytes_delivered)));
    finish_scheduler_resources report.(dv_outcome).

(** [Drop]. *)
Definition dropped : Hook unit :=
  finished ← ask SwapFinished;
  if finished : bool then mret tt
  else
    committed ← ask LoadCommitted;
    now ← ask DeliveryNow;
    _ ← ask (RecordRequestTiming None (Some (elapsed_ms self.(rc_started_at) now)));
    _ ← ask (CompleteRequestLifecycle (lifecycle Delivery_ClientDisconnected committed 0));
    finish_scheduler_resources Delivery_ClientDisconnected.

(** The hooks that may run. *)
Inductive Actor := Act_committed | Act_usage (observed : ObservedResponseUsage) | Act_completed (report : DeliveryReport) | Act_dropped.

Definition hook (actor : Actor) : Hook unit :=
  match actor with
  | Act_committed => committed
  | Act_usage observed => usage_observed observed
  | Act_completed report => completed report
  | Act_dropped => dropped
  end.
End hooks.
