(* ===== verification/DeliveryProofs.v ===== *)
(** What the completion of a request promises in every interleaving of its hooks: its end is recorded and its resources are given back once, and the usage of a request
    that the client left is estimated once. *)

From Stdlib Require Import Ascii.
From S2P Require Import Prelude Machine.
From S2P Require Import Usage.
From S2P Require Import UsageObserver.
From S2P Require Import Reservation.
From S2P Require Import SchedTypes.
From S2P Require Import ClientRequest.
From S2P Require Import Programs.
From S2P Require Import Interleaving.
From S2P Require Import Delivery.
Local Open Scope N_scope.

Section proofs.
Context {Uuid : Type} (self : RequestCompletion Uuid).
Abbreviation Call := (DeliveryCall Uuid).
Abbreviation Local := (list (Event Call)).
#[local] Existing Instance prog_mbind.
Implicit Types (e : Event Call) (o l : Local).

(** ** What is counted *)
Definition won e : bool := match e with Ev c b => match c in DeliveryCall _ B return B → bool with SwapFinished => negb | _ => λ _, false end b end.

Definition swaps e : bool := match e with Ev SwapFinished _ => true | _ => false end.

Definition closes e : bool := match e with Ev (CompleteRequestLifecycle _) _ => true | _ => false end.

Definition frees e : bool := match e with Ev (CancelActive | ReleaseAndComplete _ | CompleteRequestOnly) _ => true | _ => false end.

Definition outcomes e : bool := match e with Ev (LatchOutcome _) _ => true | _ => false end.

Definition observations e : bool := match e with Ev (LatchObserved _) _ => true | _ => false end.

Definition starts e : bool := match e with Ev LatchStart _ => true | _ => false end.

Definition resets e : bool := match e with Ev LatchReset _ => true | _ => false end.

(** A store of the estimate is begun; a record with evidence is stored; a store fails. *)
Definition begun e : bool :=
  match e with Ev c b => match c in DeliveryCall _ B return B → bool with LatchStart => λ answer, is_some answer | _ => λ _, false end b end.

Definition estimates e : bool :=
  match e with Ev c b => match c in DeliveryCall _ B return B → bool with AppendUsage record _ => λ stored, stored && is_some record.(up_cancel_evidence) | _ => λ _, false end b end.

Definition refused e : bool := match e with Ev c b => match c in DeliveryCall _ B return B → bool with AppendUsage _ _ => negb | _ => λ _, false end b end.

(** The calls that store usage, and those that estimate it. *)
Definition plain e : bool := match e with Ev (PriceBasisForRequest | AppendUsage _ _ | FreshId | RetrySleep _) _ => true | _ => false end.

Definition quiet e : bool := plain e || starts e || resets e.

(** The latch was set, and the estimate not yet considered. *)
Definition pending o : bool := foldl (λ b e, outcomes e || observations e || b && negb (starts e)) false o.

Definition append_event e o : Local := o ++ [e].

Lemma count_event (f : Event Call → bool) e o : count f (append_event e o) = (count f o + if f e then 1 else 0)%nat.
Proof. unfold append_event. rewrite count_app, count_cons. cbn. by destruct (f e). Qed.

Lemma pending_snoc o e : pending (o ++ [e]) = outcomes e || observations e || pending o && negb (starts e).
Proof. unfold pending. by rewrite foldl_app. Qed.

Lemma pending_event e o : pending (append_event e o) = outcomes e || observations e || pending o && negb (starts e).
Proof. apply pending_snoc. Qed.

Lemma count_none (f g : Event Call → bool) l : (∀ e, g e = true → f e = false) → Forall (λ e, g e = true) l → count f l = 0%nat.
Proof. intros Hfg. induction 1 as [|e l He _ IH]; [done|]. by rewrite count_cons, IH, (Hfg e He). Qed.

Lemma pending_plain o l : Forall (λ e, plain e = true) l → pending (o ++ l) = pending o.
Proof.
  unfold pending. rewrite foldl_app. generalize (foldl (λ b e, outcomes e || observations e || b && negb (starts e)) false o). intros b Hl. revert b.
  induction Hl as [|e l He _ IH]; intros b; [done|]. cbn. rewrite IH. destruct e as [B [] x]; try done; cbn; by destruct b.
Qed.

Definition balanced o : Prop := (count estimates o + count resets o <= count begun o)%nat.

Definition has_room o : Prop := (count estimates o + count resets o < count begun o)%nat.

Context (outcome_ok : DeliveryOutcome → Prop) (observed_ok : ObservedResponseUsage → Prop).

Definition hook_allowed B (c : Call B) o : Prop :=
  match c with
  | CompleteRequestLifecycle _ => (count closes o < count won o)%nat
  | CancelActive | ReleaseAndComplete _ | CompleteRequestOnly => (count frees o < count won o)%nat
  | AppendUsage record _ => is_some record.(up_cancel_evidence) = true → has_room o
  | LatchReset => has_room o ∧ (0 < count refused o)%nat
  | LatchOutcome outcome => outcome_ok outcome ∧ (count outcomes o < count won o)%nat
  | LatchObserved observed => observed_ok observed
  | _ => True
  end.

Abbreviation ok := (safe append_event hook_allowed).

(** ** What the calls keep *)
Definition sound o : Prop :=
  balanced o ∧ (count closes o <= count won o)%nat ∧ (count frees o <= count won o)%nat ∧ (0 < count resets o → 0 < count refused o)%nat ∧
  (count outcomes o <= count won o)%nat.

Lemma sound_step e o : allowed_event hook_allowed e o → sound o → sound (append_event e o).
Proof.
  unfold sound, balanced. rewrite !count_event. destruct e as [B c b]. destruct c; cbn; unfold has_room; try lia.
  all: destruct b; cbn; try lia.
  all: destruct (up_cancel_evidence record); cbn; intuition lia.
Qed.

(** What a block of calls that store usage adds. *)
Lemma append_loop_safe record cost retries o (Q : bool → Local → Prop) :
  (is_some record.(up_cancel_evidence) = true → has_room o) →
  (∀ stored l, Forall (λ e, plain e = true) l → (stored = false → retries ≠ [] → 0 < count refused l)%nat →
    count estimates l = (if stored && is_some record.(up_cancel_evidence) then 1 else 0)%nat → Q stored (o ++ l)) →
  ok (append_loop record cost retries) o Q.
Proof.
  revert o. induction retries as [|retry retries IH]; intros o Hroom HQ; cbn [append_loop].
  - specialize (HQ false []). rewrite app_nil_r in HQ. by apply HQ.
  - split; [done|]. intros [].
    + apply (HQ true [Ev (AppendUsage record cost) true]); [by constructor|done|]. rewrite count_cons. cbn. by destruct (up_cancel_evidence record).
    + destruct (retry <? 3).
      * split; [done|]. intros []. apply IH.
        -- unfold has_room in *. rewrite !count_event. cbn. rewrite !Nat.add_0_r. done.
        -- intros stored l Hl H1 H2. unfold append_event. rewrite <- !app_assoc. cbn [app]. apply HQ; [by repeat constructor|rewrite !count_cons; cbn; lia|by rewrite !count_cons].
      * apply (HQ false [Ev (AppendUsage record cost) false]); [by constructor|rewrite count_cons; cbn; lia|done].
Qed.

Lemma persist_safe usage evidence o (Q : bool → Local → Prop) :
  (is_some evidence = true → has_room o) →
  (∀ stored l, Forall (λ e, plain e = true) l → (stored = false → 0 < count refused l)%nat → count estimates l = (if stored && is_some evidence then 1 else 0)%nat → Q stored (o ++ l)) →
  ok (persist_usage_observation self usage evidence) o Q.
Proof.
  intros Hroom HQ. unfold persist_usage_observation. split; [done|]. intros observation_id. split; [done|]. intros basis. apply safe_bind. cbn [safe].
  assert (∀ cost l0, Forall (λ e, plain e = true) l0 → (∀ f, f = estimates ∨ f = resets ∨ f = begun → count f l0 = 0%nat) → ok (append_loop
    {| up_observation_id := observation_id; up_request_id := self.(rc_request_uuid); up_attempt_id := Some self.(rc_attempt_id); up_model_id := Some self.(rc_model_id);
       up_observation := usage; up_select_as_final := true; up_selection_reason_code := Some (selection_reason usage); up_cancel_evidence := evidence |}
    cost [0; 1; 2; 3]) (o ++ l0) Q) as Hloop.
  { intros cost l0 Hl0 H0. apply append_loop_safe.
    - unfold has_room in *. rewrite !count_app, !H0, !Nat.add_0_r by auto. done.
    - intros stored l Hl H1 H2. rewrite <- app_assoc. apply HQ; [by apply Forall_app|rewrite count_app; intros E; specialize (H1 E ltac:(done)); lia|by rewrite count_app, H0 by auto]. }
  assert (∀ b, append_event (Ev PriceBasisForRequest b) (append_event (Ev FreshId observation_id) o) = o ++ [Ev FreshId observation_id; Ev PriceBasisForRequest b]) as E.
  { intros b. unfold append_event. by rewrite <- app_assoc. }
  rewrite E. apply safe_bind.
  destruct basis as [[price|]|]; try (apply Hloop; [by repeat constructor|by intros f [->|[->| ->]]]).
  destruct (cost_of usage price.(pb_snapshot)) as [[estimate amount]|]; [|apply Hloop; [by repeat constructor|by intros f [->|[->| ->]]]].
  split; [done|]. intros cost_id. unfold append_event. rewrite <- app_assoc. apply Hloop; [by repeat constructor|by intros f [->|[->| ->]]].
Qed.

(** The estimate. *)
Lemma maybe_persist_safe o (Q : unit → Local → Prop) : balanced o →
  (∀ l, Forall (λ e, quiet e = true) l → pending (o ++ l) = false → (count refused l = 0 → count estimates l = count begun l)%nat → balanced (o ++ l) → Q tt (o ++ l)) →
  ok (maybe_persist_cancel_estimate self) o Q.
Proof.
  intros Ho HQ. split; [done|]. intros answer. apply safe_bind. cbn [safe]. destruct answer as [observed|].
  - apply safe_bind, persist_safe.
    + intros _. unfold has_room, balanced in *. rewrite !count_event. cbn. lia.
    + intros stored l Hl H1 H2.
      assert (∀ f, (∀ e, plain e = true → f e = false) → count f l = 0%nat) as H0 by (intros f Hf; by apply (count_none f plain)).
      assert (Forall (λ e, quiet e = true) (Ev LatchStart (Some observed) :: l)) as Hq.
      { constructor; [done|]. eapply Forall_impl; [exact Hl|]. intros e. unfold quiet. by intros ->. }
      assert (count resets l = 0 ∧ count begun l = 0)%nat as [Hr Hb] by (split; apply H0; by intros [B [] x]).
      destruct stored; cbn [andb is_some] in H2.
      * unfold append_event. rewrite <- app_assoc. cbn [app]. apply HQ; [done| |rewrite !count_cons, H2, Hb; cbn; lia|].
        -- change (o ++ Ev LatchStart (Some observed) :: l) with (o ++ [Ev LatchStart (Some observed)] ++ l). rewrite app_assoc, pending_plain by done. rewrite pending_snoc. cbn. by rewrite andb_false_r.
        -- unfold balanced in *. repeat (rewrite count_app || rewrite count_cons). rewrite H2, Hr, Hb. cbn. lia.
      * specialize (H1 eq_refl). split.
        -- cbn [hook_allowed]. unfold has_room, balanced in *. rewrite !count_app, !count_event, H2, Hr, Hb. cbn. lia.
        -- intros []. unfold append_event. rewrite <- !app_assoc. cbn [app]. apply HQ.
           ++ apply (Forall_app_2 _ (Ev LatchStart (Some observed) :: l)); [done|by repeat constructor].
           ++ cbn. change (Ev LatchStart (Some observed) :: l ++ [Ev LatchReset ()]) with ([Ev LatchStart (Some observed)] ++ l ++ [Ev LatchReset ()]). rewrite !app_assoc.
              rewrite pending_snoc, pending_plain, pending_snoc by done. cbn. by rewrite andb_false_r.
           ++ intros Hz. rewrite count_cons, count_app in Hz. lia.
           ++ unfold balanced in *. cbn. repeat (rewrite count_app || rewrite count_cons). rewrite H2, Hr, Hb. cbn. lia.
  - apply HQ; [by repeat constructor|by rewrite pending_snoc, andb_false_r|done|]. unfold balanced in *. rewrite !count_app, !count_cons. cbn. lia.
Qed.

Lemma quiet_counts l : Forall (λ e, quiet e = true) l →
  count won l = 0%nat ∧ count swaps l = 0%nat ∧ count closes l = 0%nat ∧ count frees l = 0%nat ∧ count outcomes l = 0%nat ∧ count observations l = 0%nat.
Proof. intros Hl. split_and!; apply (count_none _ quiet); try done; by intros [B [] x]. Qed.

(** Giving the resources back. *)
Definition freeing e : bool := frees e || match e with Ev (ConfirmTransportCancel | TransportTerminalWithin _) _ => true | _ => false end.

Lemma freeing_counts l : Forall (λ e, freeing e = true) l →
  count won l = 0%nat ∧ count swaps l = 0%nat ∧ count closes l = 0%nat ∧ count outcomes l = 0%nat ∧ count refused l = 0%nat ∧ count estimates l = 0%nat ∧ count begun l = 0%nat.
Proof. intros Hl. split_and!; apply (count_none _ freeing); try done; by intros [B [] x]. Qed.

Lemma pending_freeing o l : Forall (λ e, freeing e = true) l → pending (o ++ l) = pending o.
Proof.
  revert o. induction l as [|e l IH]; intros o Hl; [by rewrite app_nil_r|]. apply Forall_cons in Hl as [He Hl]. change (o ++ e :: l) with (o ++ [e] ++ l). rewrite app_assoc, IH, pending_snoc by done.
  destruct e as [B [] x]; try done; cbn; by rewrite andb_true_r.
Qed.

Lemma finish_safe outcome o (Q : unit → Local → Prop) : (count frees o < count won o)%nat →
  (∀ l, Forall (λ e, freeing e = true) l → count frees l = 1%nat → Q tt (o ++ l)) →
  ok (finish_scheduler_resources self outcome) o Q.
Proof.
  intros Ho HQ. unfold finish_scheduler_resources. destruct (rc_lease self) as [lease|]; [destruct (is_cancelled outcome)|].
  - split; [exact Ho|]. intros []. split; [done|]. intros []; cbn.
    + split; [done|]. intros []. unfold append_event. rewrite <- !app_assoc. apply HQ; [by repeat constructor|done].
    + unfold append_event. rewrite <- !app_assoc. apply HQ; [by repeat constructor|done].
  - split; [exact Ho|]. intros []. apply HQ; [by repeat constructor|done].
  - split; [exact Ho|]. intros []. apply HQ; [by repeat constructor|done].
Qed.

(** ** The hooks *)
Definition ends (actor : Actor) : bool := match actor with Act_completed _ | Act_dropped => true | _ => false end.

Definition hook_end (actor : Actor) o : Prop :=
  count closes o = count won o ∧ count frees o = count won o ∧ count swaps o = (if ends actor then 1 else 0)%nat ∧
  (is_messages self = true → pending o = false) ∧ (count refused o = 0 → count estimates o = count begun o)%nat ∧
  (actor ≠ Act_dropped → count won o <= count outcomes o)%nat ∧ (actor = Act_dropped → count outcomes o = 0)%nat ∧ (∀ observed, actor = Act_usage observed → 0 < count observations o)%nat.

Definition actor_ok (actor : Actor) : Prop :=
  match actor with Act_completed report => outcome_ok report.(dv_outcome) | Act_usage observed => observed_ok observed | _ => True end.

Ltac tally := repeat (rewrite count_event || rewrite count_app); cbn.

Lemma completed_safe report : outcome_ok report.(dv_outcome) → ok (completed self report) [] (λ _ o, hook_end (Act_completed report) o).
Proof.
  intros Hok. split; [done|]. intros finished. apply safe_bind. cbn [safe]. destruct finished; [by unfold hook_end|].
  split; [done|]. intros timing. split; [split; [exact Hok|tally; lia]|]. intros []. apply safe_bind. cbn [safe]. apply safe_bind.
  assert (∀ l, Forall (λ e, quiet e = true) l → let o := append_event (Ev (LatchOutcome (dv_outcome report)) ()) (append_event
    (Ev (RecordRequestTiming None (Some (elapsed_ms (rc_started_at self) (dv_finished_at report)))) timing) (append_event (Ev SwapFinished false) [])) ++ l in
    (is_messages self = true → pending o = false) → (count refused l = 0 → count estimates l = count begun l)%nat →
    ok (committed ← ask LoadCommitted; _ ← ask (CompleteRequestLifecycle (lifecycle self report.(dv_outcome) committed report.(dv_bytes_delivered)));
        finish_scheduler_resources self report.(dv_outcome)) o (λ _ o, hook_end (Act_completed report) o)) as Hend.
  { intros l Hl o Hp Hr. destruct (quiet_counts l Hl) as (H1 & H2 & H3 & H4 & H5 & H6). split; [done|]. intros committed. split; [cbn [hook_allowed]; subst o; tally; lia|].
    intros stored. apply finish_safe; [subst o; tally; lia|]. intros l' Hl' Hf. destruct (freeing_counts l' Hl') as (F1 & F2 & F3 & F4 & F5 & F6 & F7). unfold hook_end. subst o. split_and!.
    all: try done; try (tally; lia). intros Hm. by rewrite pending_freeing, !pending_event, Hp. }
  destruct (is_messages self) eqn:Em.
  - apply maybe_persist_safe; [unfold balanced; tally; lia|]. intros l Hl Hp Hr _. by apply Hend.
  - cbn [safe]. specialize (Hend [] ltac:(constructor)). rewrite app_nil_r in Hend. by apply Hend.
Qed.

Lemma dropped_safe : ok (dropped self) [] (λ _ o, hook_end Act_dropped o).
Proof.
  split; [done|]. intros finished. apply safe_bind. cbn [safe]. destruct finished; [by unfold hook_end|].
  split; [done|]. intros committed. split; [done|]. intros now. split; [done|]. intros timing. split; [cbn [hook_allowed]; tally; lia|]. intros stored.
  apply finish_safe; [tally; lia|]. intros l Hl Hf. destruct (freeing_counts l Hl) as (F1 & F2 & F3 & F4 & F5 & F6 & F7). unfold hook_end. split_and!; try done; try (intros; tally; lia).
  intros _. by rewrite pending_freeing.
Qed.

Lemma usage_safe observed : observed_ok observed → ok (usage_observed self observed) [] (λ _ o, hook_end (Act_usage observed) o).
Proof.
  intros Hok. unfold usage_observed. apply safe_bind.
  assert (∀ o, (∀ f, (∀ e, f e = true → (starts e || outcomes e || observations e || won e || swaps e || closes e || frees e || begun e || estimates e || refused e || resets e) = true) → count f o = 0%nat) →
    ok (_ ← ask (ObserveUpstreamBytes (i64_or_max observed.(or_upstream_bytes_received)));
        _ ← (if is_messages self then persist_usage_observation self observed.(or_official) None else Ret true); _ ← ask (LatchObserved observed);
        if is_messages self then maybe_persist_cancel_estimate self else Ret tt) o (λ _ o, hook_end (Act_usage observed) o)) as Hrest.
  { intros o Ho.
    assert (∀ f, f = won ∨ f = swaps ∨ f = closes ∨ f = frees ∨ f = outcomes ∨ f = resets ∨ f = begun ∨ f = estimates ∨ f = refused → count f o = 0%nat) as Hz.
    { intros f Hf. apply Ho. intros e He. repeat rewrite orb_true_iff. naive_solver. }
    split; [done|]. intros stored. apply safe_bind. cbn [safe]. apply safe_bind. destruct (is_messages self) eqn:Em.
    - apply persist_safe; [done|]. intros kept l Hl _ He. destruct (quiet_counts l) as (H1 & H2 & H3 & H4 & H5 & H6); [eapply Forall_impl; [exact Hl|]; intros e; unfold quiet; by intros ->|].
      assert (count begun l = 0 ∧ count resets l = 0)%nat as [H7 H8] by (split; apply (count_none _ plain); try done; by intros [B [] x]).
      rewrite andb_false_r in He. split; [exact Hok|]. intros []. apply maybe_persist_safe; [unfold balanced; tally; rewrite !Hz by tauto; lia|].
      intros l' Hl' Hp Hr _. destruct (quiet_counts l' Hl') as (Q1 & Q2 & Q3 & Q4 & Q5 & Q6). unfold hook_end. split_and!; try done; tally; rewrite ?Hz by tauto; lia.
    - split; [exact Hok|]. intros []. unfold hook_end. split_and!; intros; try done; try congruence; tally; rewrite ?Hz by tauto; lia. }
  destruct (or_first_content_at observed) as [first|].
  - split; [done|]. intros timing. apply Hrest. intros f Hf. tally. destruct (f _) eqn:E; [|done]. by specialize (Hf _ E).
  - apply Hrest. done.
Qed.

Lemma hook_safe actor : actor_ok actor → ok (hook self actor) [] (λ _ o, hook_end actor o).
Proof.
  destruct actor as [|observed|report|]; [|apply usage_safe|apply completed_safe|intros _; apply dropped_safe].
  intros _. split; [done|]. intros stored. destruct stored; cbn; unfold hook_end; [split; [done|]; intros []|]; by split_and!.
Qed.

(** ** The hooks together *)
Lemma observed_events l o : observe append_event l o = o ++ l.
Proof. revert o. induction l as [|e l IH]; intros o; cbn; [by rewrite app_nil_r|]. unfold observe in IH. rewrite IH. unfold append_event. by rewrite <- app_assoc. Qed.

Context (answers : Answers (Call := Call)) (actors : list Actor) (Hactors : Forall actor_ok actors).
Abbreviation reached schedule := (interleave shared answers schedule (start (hook self <$> actors) store_new)).
Abbreviation calls s := (s.(sy_history).*2).

Lemma thread_sound schedule i actor : actors !! i = Some actor →
  let s := reached schedule in
  sound (of_thread i s.(sy_history)) ∧ ∃ p, s.(sy_threads) !! i = Some p ∧ ok p (of_thread i s.(sy_history)) (λ _ o, hook_end actor o).
Proof.
  intros Ha s. assert (actor_ok actor) as Hok by (by eapply Forall_lookup_1).
  destruct (interleave_follows shared answers schedule (hook self <$> actors) store_new i (hook self actor)) as (p & Hp & Hf); [by rewrite list_lookup_fmap, Ha|].
  pose proof (hook_safe actor Hok) as Hsafe. rewrite <- (app_nil_l (of_thread i s.(sy_history))), <- observed_events. split.
  - eapply follows_keeps; [exact Hf|exact Hsafe|unfold sound, balanced; cbn; lia|intros e o; apply sound_step].
  - exists p. split; [done|]. by eapply follows_safe.
Qed.

Lemma count_calls (f : Event Call → bool) schedule :
  count f (calls (reached schedule)) = sum_list ((λ i, count f (of_thread i (reached schedule).(sy_history))) <$> seq 0 (length actors)).
Proof. apply count_threads. pose proof (interleave_indices shared answers schedule (hook self <$> actors) store_new) as H. by rewrite length_fmap in H. Qed.

Lemma calls_le (f g : list (Event Call) → nat) schedule :
  (∀ i actor, actors !! i = Some actor → f (of_thread i (reached schedule).(sy_history)) <= g (of_thread i (reached schedule).(sy_history)))%nat →
  (sum_list ((λ i, f (of_thread i (reached schedule).(sy_history))) <$> seq 0 (length actors)) <=
   sum_list ((λ i, g (of_thread i (reached schedule).(sy_history))) <$> seq 0 (length actors)))%nat.
Proof. intros Hle. apply sum_list_le. intros i Hi. apply elem_of_seq in Hi. destruct (lookup_lt_is_Some_2 actors i) as [actor Ha]; [lia|]. by eapply Hle. Qed.

Lemma count_le (f g : Event Call → bool) schedule :
  (∀ o, sound o → count f o <= count g o)%nat → (count f (calls (reached schedule)) <= count g (calls (reached schedule)))%nat.
Proof. intros Hle. rewrite !count_calls. apply (calls_le (count f) (count g)). intros i actor Ha. apply Hle. by destruct (thread_sound schedule i actor Ha). Qed.

(** At the end. *)
Lemma ended_hooks schedule i actor : ended (reached schedule) → actors !! i = Some actor → hook_end actor (of_thread i (reached schedule).(sy_history)).
Proof.
  intros Hend Ha. destruct (thread_sound schedule i actor Ha) as (_ & p & Hp & Hsafe). unfold ended in Hend. rewrite Forall_lookup in Hend. apply Hend in Hp as ->. exact Hsafe.
Qed.

Lemma ended_by (f : Event Call → bool) schedule :
  (∀ i actor, actors !! i = Some actor → count f (of_thread i (reached schedule).(sy_history)) = count (λ _, false) (of_thread i (reached schedule).(sy_history))) →
  count f (calls (reached schedule)) = count (λ _, false) (calls (reached schedule)).
Proof.
  intros Heq. rewrite !count_calls. apply sum_list_eq. intros i Hi. apply elem_of_seq in Hi. destruct (lookup_lt_is_Some_2 actors i) as [actor Ha]; [lia|]. by eapply Heq.
Qed.

Lemma ended_eq (f g : Event Call → bool) schedule : ended (reached schedule) →
  (∀ actor o, hook_end actor o → sound o → (count refused o <= count refused (calls (reached schedule)))%nat → count f o = count g o) →
  count f (calls (reached schedule)) = count g (calls (reached schedule)).
Proof.
  intros Hend Heq. rewrite !count_calls. apply sum_list_eq. intros i Hi. apply elem_of_seq in Hi. destruct (lookup_lt_is_Some_2 actors i) as [actor Ha]; [lia|].
  eapply Heq; [by eapply ended_hooks|by destruct (thread_sound schedule i actor Ha)|apply count_thread_le].
Qed.

(** The answer to a call, and the store after it. *)
Ltac answered Ha := first [injection Ha as <- <- | destruct Ha as [-> ->] | destruct (latch_start _) as [? ?] eqn:?; injection Ha as <- <-].

(** One hook wins. *)
Lemma one_winner schedule : let s := reached schedule in
  count won (calls s) = (if s.(sy_store).(st_finished) then 1 else 0)%nat ∧ ((0 < count swaps (calls s))%nat → s.(sy_store).(st_finished) = true).
Proof.
  apply (interleave_reach shared answers (λ s, count won (calls s) = (if s.(sy_store).(st_finished) then 1 else 0)%nat ∧ ((0 < count swaps (calls s))%nat → s.(sy_store).(st_finished) = true))).
  - by split; cbn; [|lia].
  - intros sch i B c k b store s' _ s [Hw Hs] _ Ha ->. cbn [sy_history sy_store]. rewrite !count_history.
    destruct c; cbn in Ha; answered Ha; cbn; rewrite ?Nat.add_0_r; try done.
    destruct (st_finished (sy_store s)); cbn; split; lia || done.
Qed.

(** The latch holds one estimate. *)
Lemma latch_start_begun latch answer latch' : latch_start latch = (answer, latch') →
  (is_some answer = true → latch.(ul_cancel_persist_started) = false ∧ latch'.(ul_cancel_persist_started) = true) ∧ (is_some answer = false → latch' = latch) ∧
  latch'.(ul_outcome) = latch.(ul_outcome) ∧ latch'.(ul_observed) = latch.(ul_observed).
Proof.
  unfold latch_start. destruct (ul_observed latch) as [observed|] eqn:E; [|by intros [= <- <-]].
  destruct (ul_cancel_persist_started latch), (is_some_and client_gone (ul_outcome latch)), (bool_decide _); cbn; by intros [= <- <-].
Qed.

Lemma one_estimate schedule : let s := reached schedule in
  count begun (calls s) = (count resets (calls s) + if s.(sy_store).(st_latch).(ul_cancel_persist_started) then 1 else 0)%nat.
Proof.
  apply (interleave_reach shared answers (λ s, count begun (calls s) = (count resets (calls s) + if s.(sy_store).(st_latch).(ul_cancel_persist_started) then 1 else 0)%nat)); [done|].
  intros sch i B c k b store s' Es s Hs _ Ha Eq.
  assert (count resets (calls s') <= count begun (calls s'))%nat as Hle. { rewrite Es. apply count_le. unfold sound, balanced. lia. }
  revert Hle. rewrite Eq. cbn [sy_history sy_store]. rewrite !count_history. clear Eq Es s'.
  destruct c; cbn in Ha; answered Ha; cbn; rewrite ?Nat.add_0_r; try done.
  - pose proof (latch_start_begun _ _ _ ltac:(eassumption)) as (H1 & H2 & _). intros _. destruct o as [observed|]; cbn in *.
    + destruct H1 as [H1 ->]; [done|]. rewrite Hs, H1. lia.
    + rewrite H2, Nat.add_0_r by done. done.
  - destruct (ul_cancel_persist_started _); lia.
Qed.

(** What the storage never refuses is not reset. *)
Lemma never_refused schedule : (∀ history record cost, answers history _ (AppendUsage record cost) = true) →
  count refused (calls (reached schedule)) = 0%nat.
Proof.
  intros Hstored. apply (interleave_reach shared answers (λ s, count refused (calls s) = 0%nat)); [done|].
  intros sch i B c k b store s' _ s Hs _ Ha ->. cbn [sy_history]. rewrite count_history, Hs.
  destruct c; cbn in Ha; answered Ha; cbn; try done. by rewrite Hstored.
Qed.

(** Once both ends are latched, an estimate is begun or some hook is about to consider it. *)
Definition latched (s : System (Call := Call) (Store := CompletionStore)) : Prop :=
  let latch := s.(sy_store).(st_latch) in
  ((0 < count outcomes (calls s))%nat → is_Some latch.(ul_outcome)) ∧ ((0 < count observations (calls s))%nat → is_Some latch.(ul_observed)) ∧
  (∀ outcome, latch.(ul_outcome) = Some outcome → outcome_ok outcome) ∧ (∀ observed, latch.(ul_observed) = Some observed → observed_ok observed) ∧
  (is_Some latch.(ul_outcome) → is_Some latch.(ul_observed) → latch.(ul_cancel_persist_started) = false → ∃ i, pending (of_thread i s.(sy_history)) = true).

Lemma call_allowed schedule i B (c : Call B) k : (reached schedule).(sy_threads) !! i = Some (Do c k) → hook_allowed B c (of_thread i (reached schedule).(sy_history)).
Proof.
  intros Hi. assert (i < length actors)%nat as Hlt.
  { apply lookup_lt_Some in Hi. by rewrite interleave_length, length_fmap in Hi. }
  apply lookup_lt_is_Some_2 in Hlt as [actor Ha]. destruct (thread_sound schedule i actor Ha) as (_ & p & Hp & Hsafe). rewrite Hi in Hp. injection Hp as <-. by destruct Hsafe.
Qed.

Lemma pending_kept x i e history : starts e = false → pending (of_thread x history) = true → pending (of_thread x (history ++ [(i, e)])) = true.
Proof.
  intros He Hx. rewrite of_thread_snoc. destruct (bool_decide _); [|by rewrite app_nil_r]. by rewrite pending_snoc, Hx, He, orb_true_r.
Qed.

Lemma pending_set i e history : outcomes e || observations e = true → pending (of_thread i (history ++ [(i, e)])) = true.
Proof. intros He. by rewrite of_thread_snoc, bool_decide_true, pending_snoc, He by done. Qed.

Lemma latch_start_due latch outcome observed : latch.(ul_outcome) = Some outcome → client_gone outcome = true → latch.(ul_observed) = Some observed →
  observed.(or_official).(uo_completeness) ≠ Complete → latch.(ul_cancel_persist_started) = false → is_some (latch_start latch).1 = true.
Proof. unfold latch_start. intros -> Hg -> Hc ->. cbn. rewrite Hg. by rewrite bool_decide_false. Qed.

Lemma latched_reached schedule :
  (∀ history record cost, answers history _ (AppendUsage record cost) = true) →
  (∀ outcome, outcome_ok outcome → client_gone outcome = true) → (∀ observed, observed_ok observed → observed.(or_official).(uo_completeness) ≠ Complete) →
  latched (reached schedule).
Proof.
  intros Hstored Hout Hobs. apply (interleave_reach shared answers latched); [unfold latched; cbn; split_and!; try lia; try done; by intros []|].
  intros sch i B c k b store s' _ s (H1 & H2 & H3 & H4 & H5) Hi Ha ->. apply call_allowed in Hi. fold s in Hi. pose proof (never_refused sch Hstored) as Hn. fold s in Hn.
  assert (∀ x e, starts e = false → pending (of_thread x s.(sy_history)) = true → ∃ x, pending (of_thread x (s.(sy_history) ++ [(i, e)])) = true) as Hkeep.
  { intros x e He Hx. exists x. by apply pending_kept. }
  unfold latched. cbn [sy_history sy_store]. rewrite !count_history.
  destruct c; cbn in Ha, Hi; answered Ha; cbn; rewrite ?Nat.add_0_r; try (split_and!; [done..|]; intros Ho Hb Hf; destruct (H5 Ho Hb Hf) as [x Hx]; by eapply Hkeep).
  - destruct Hi as [Hi _]. split_and!; [done|done|by intros ? [= <-]|done|]. intros _ _ _. exists i. by apply pending_set.
  - split_and!; [done|done|done|by intros ? [= <-]|]. intros _ _ _. exists i. by apply pending_set.
  - match goal with E : latch_start _ = (_, _) |- _ => pose proof (latch_start_begun _ _ _ E) as (Hb1 & Hb2 & Eo & Eb); rename E into Estart end. destruct o as [observed|]; cbn in Hb1, Hb2.
    + destruct Hb1 as [_ Hb1]; [done|]. rewrite Eo, Eb, Hb1. by split_and!.
    + rewrite Hb2 by done. split_and!; try done. intros [outcome Ho] [observed Hb] Hf.
      pose proof (latch_start_due _ _ _ Ho (Hout _ (H3 _ Ho)) Hb (Hobs _ (H4 _ Hb)) Hf) as Hdue. by rewrite Estart in Hdue.
  - exfalso. destruct Hi as [_ Hi]. pose proof (count_thread_le refused i s.(sy_history)). lia.
Qed.

(** The usage of a request that the client left is estimated once. *)
Lemma estimated_once schedule : is_messages self = true →
  (∀ history record cost, answers history _ (AppendUsage record cost) = true) →
  (∀ outcome, outcome_ok outcome → client_gone outcome = true) → (∀ observed, observed_ok observed → observed.(or_official).(uo_completeness) ≠ Complete) →
  (∃ i report, actors !! i = Some (Act_completed report) ∧ (0 < count won (of_thread i (reached schedule).(sy_history)))%nat) → (∃ observed, Act_usage observed ∈ actors) →
  ended (reached schedule) →
  count estimates (calls (reached schedule)) = 1%nat.
Proof.
  intros Hm Hstored Hout Hobs (i & report & Hi & Hw) [observed Husage] Hend. apply list_elem_of_lookup in Husage as [j Hj].
  pose proof (latched_reached schedule Hstored Hout Hobs) as (H1 & H2 & _ & _ & H5). pose proof (never_refused schedule Hstored) as Hn. pose proof (one_estimate schedule) as Hone.
  assert (∀ f x, (0 < count f (of_thread x (reached schedule).(sy_history)) → 0 < count f (calls (reached schedule)))%nat) as Hup.
  { intros f x Hx. pose proof (count_thread_le f x (reached schedule).(sy_history)). lia. }
  assert (0 < count outcomes (calls (reached schedule)))%nat as Hwo.
  { apply (Hup _ i). destruct (ended_hooks schedule i _ Hend Hi) as (_ & _ & _ & _ & _ & Ho & _). specialize (Ho ltac:(done)). lia. }
  destruct (ended_hooks schedule j _ Hend Hj) as (_ & _ & _ & _ & _ & _ & _ & Ho).
  specialize (Hup observations j (Ho _ eq_refl)). specialize (H1 Hwo). specialize (H2 Hup).
  assert (ul_cancel_persist_started (st_latch (sy_store (reached schedule))) = true) as Hflag.
  { apply not_false_iff_true. intros Hf. destruct (H5 H1 H2 Hf) as [x Hx]. destruct (lookup_lt_is_Some_2 actors x) as [actor Ha].
    - apply Nat.nle_gt. intros Hge. rewrite (of_thread_none _ (length actors)) in Hx; [done| |done].
      pose proof (interleave_indices shared answers schedule (hook self <$> actors) store_new) as Hall. by rewrite length_fmap in Hall.
    - destruct (ended_hooks schedule x actor Hend Ha) as (_ & _ & _ & Hp & _). by rewrite Hp in Hx. }
  rewrite (ended_eq estimates begun schedule Hend), Hone, Hflag.
  - rewrite (ended_eq resets (λ _, false) schedule Hend); [by rewrite (count_none (λ _, false) (λ _, true)) by (done || by apply Forall_true)|].
    intros actor o _ (_ & _ & _ & Hr & _) Hle. rewrite (count_none (λ _, false) (λ _, true)) by (done || by apply Forall_true). lia.
  - intros actor o (_ & _ & _ & _ & He & _) _ Hle. apply He. lia.
Qed.
(** A dropped completion tells nobody that the client left. *)
Lemma unlatched schedule : let s := reached schedule in
  count outcomes (calls s) = 0%nat → s.(sy_store).(st_latch).(ul_outcome) = None ∧ count begun (calls s) = 0%nat.
Proof.
  apply (interleave_reach shared answers (λ s, count outcomes (calls s) = 0%nat → s.(sy_store).(st_latch).(ul_outcome) = None ∧ count begun (calls s) = 0%nat)); [done|].
  intros sch i B c k b store s' _ s Hs _ Ha ->. cbn [sy_history sy_store]. rewrite !count_history. intros Hz. destruct Hs as [H1 H2]; [lia|].
  destruct c; cbn in Ha, Hz; answered Ha; cbn; rewrite ?Nat.add_0_r; try done; [lia|].
  match goal with E : latch_start _ = (_, _) |- _ => unfold latch_start in E; rewrite H1 in E; cbn in E; destruct (ul_observed _); injection E as <- <- end; cbn; by rewrite Nat.add_0_r.
Qed.

Lemma dropped_unestimated schedule i : actors !! i = Some Act_dropped → (0 < count won (of_thread i (reached schedule).(sy_history)))%nat → ended (reached schedule) →
  count estimates (calls (reached schedule)) = 0%nat.
Proof.
  intros Hi Hw Hend. pose proof (one_winner schedule) as [Hwon _]. assert (count won (calls (reached schedule)) <= 1)%nat as Hone by (rewrite Hwon; destruct (st_finished _); lia).
  assert (count outcomes (calls (reached schedule)) = 0)%nat as Hz.
  { rewrite (ended_by outcomes schedule); [by rewrite (count_none (λ _, false) (λ _, true)) by (done || by apply Forall_true)|].
    intros j actor Hj. rewrite (count_none (λ _, false) (λ _, true)) by (done || by apply Forall_true).
    destruct (decide (i = j)) as [<-|Hne]; [destruct (ended_hooks schedule i _ Hend Hi) as (_ & _ & _ & _ & _ & _ & Ho & _); by apply Ho|].
    destruct (thread_sound schedule j actor Hj) as [(_ & _ & _ & _ & Ho) _]. pose proof (count_two_threads won i j (reached schedule).(sy_history) Hne). lia. }
  destruct (unlatched schedule Hz) as [_ Hb]. pose proof (count_le estimates begun schedule) as Hle. rewrite Hb in Hle.
  assert (count estimates (calls (reached schedule)) <= 0)%nat; [|lia]. apply Hle. unfold sound, balanced. lia.
Qed.
End proofs.

(** What may be answered and observed in general. *)
Lemma all_ok actors : Forall (actor_ok (λ _, True) (λ _, True)) actors.
Proof. apply Forall_true. by intros []. Qed.

(** C16: however the hooks of a request run together, and whatever the storage, the transport and the scheduler answer: the end of the request is recorded at most once
    and its resources are given back at most once; and both happen once when the request was completed or its completion dropped, and the hooks have ended. *)
Theorem accounted_once {Uuid} (self : RequestCompletion Uuid) answers schedule actors :
  let s := interleave shared answers schedule (start (hook self <$> actors) store_new) in
  (count closes s.(sy_history).*2 <= 1)%nat ∧ (count frees s.(sy_history).*2 <= 1)%nat ∧
  (ended s → existsb ends actors = true → count closes s.(sy_history).*2 = 1%nat ∧ count frees s.(sy_history).*2 = 1%nat).
Proof.
  intros s. pose proof (all_ok actors) as Hok.
  pose proof (one_winner self answers actors schedule) as [Hw Hs].
  pose proof (count_le self _ _ answers actors Hok closes won schedule) as Hc. pose proof (count_le self _ _ answers actors Hok frees won schedule) as Hf.
  fold s in Hw, Hs, Hc, Hf. assert (count won s.(sy_history).*2 <= 1)%nat as Hone by (rewrite Hw; destruct (st_finished _); lia).
  split_and!; [etrans; [apply Hc; by intros o (_ & ? & _)|done]|etrans; [apply Hf; by intros o (_ & _ & ? & _)|done]|].
  intros Hend (actor & Ha & Hends)%existsb_exists. apply list_elem_of_In, list_elem_of_lookup in Ha as [i Hi].
  assert (count won s.(sy_history).*2 = 1)%nat as Hwin.
  { rewrite Hw, Hs; [done|]. pose proof (ended_hooks self _ _ answers actors Hok schedule i actor Hend Hi) as (_ & _ & Hsw & _). rewrite Hends in Hsw.
    pose proof (count_thread_le swaps i s.(sy_history)). fold s in Hsw. lia. }
  split; rewrite <- Hwin; apply (ended_eq self _ _ answers actors Hok); try done; by intros a o (? & ? & _).
Qed.

(** C17: however the hooks of a request run together, at most one estimate of the usage of the request is stored, though a failed one is tried again. Exactly one is stored
    once the hooks have ended, whether the usage was observed before the completion or after it, when the request is one for messages, its completion ran before any
    drop of it and reports that the client left, a usage is observed, all that is observed is incomplete, and the storage accepts what it is given. When the drop of the
    completion ran first, none is stored: the drop records that the client left, but estimates nothing. *)
Theorem estimate_stored_once {Uuid} (self : RequestCompletion Uuid) answers schedule actors :
  let s := interleave shared answers schedule (start (hook self <$> actors) store_new) in
  let ended_by actor := ∃ i, actors !! i = Some actor ∧ (0 < count won (of_thread i s.(sy_history)))%nat in
  (count estimates s.(sy_history).*2 <= 1)%nat ∧
  (self.(rc_endpoint) = Messages → (∀ history record cost, answers history _ (AppendUsage record cost) = true) →
   Forall (actor_ok (λ outcome, client_gone outcome = true) (λ observed, observed.(or_official).(uo_completeness) ≠ Complete)) actors →
   (∃ report, ended_by (Act_completed report)) → (∃ observed, Act_usage observed ∈ actors) → ended s → count estimates s.(sy_history).*2 = 1%nat) ∧
  (ended_by Act_dropped → ended s → count estimates s.(sy_history).*2 = 0%nat).
Proof.
  intros s ended_by. split_and!.
  - pose proof (one_estimate self _ _ answers actors (all_ok actors) schedule) as Hone. fold s in Hone. cbn zeta in Hone.
    assert (count estimates s.(sy_history).*2 + count resets s.(sy_history).*2 <= count begun s.(sy_history).*2)%nat as Hle; [|destruct (ul_cancel_persist_started s.(sy_store).(st_latch)); lia].
    unfold s. rewrite !(count_calls self).
    pose proof (calls_le self answers actors (λ o, count estimates o + count resets o)%nat (count begun) schedule) as Hcalls.
    rewrite <- sum_list_add. apply Hcalls. intros i actor Ha. by destruct (thread_sound self _ _ answers actors (all_ok actors) schedule i actor Ha) as [[Hb _] _].
  - intros Hm Hstored Hok (report & i & Hi & Hw) Hu Hend. eapply estimated_once; try done; [unfold is_messages; by apply bool_decide_true|by exists i, report].
  - intros (i & Hi & Hw) Hend. by eapply (dropped_unestimated self _ _ answers actors (all_ok actors)).
Qed.

(** ** Witnesses *)
Definition sample_request : RequestCompletion nat :=
  {| rc_started_at := 0; rc_endpoint := Messages; rc_lease := None; rc_request_uuid := 1%nat; rc_delivery_id := 2%nat; rc_attempt_id := 3%nat; rc_model_id := 4%nat;
     rc_cancel_grace := 5; rc_cancel_input_tokens := 7; rc_cancel_input_basis_digest := [] |}.

Definition sample_seen : ObservedResponseUsage :=
  {| or_first_content_at := Some 3000000;
     or_official := {| uo_source := Official; uo_completeness := Partial;
                       uo_counts := {| tc_input_tokens := Some 7; tc_output_tokens := None; tc_cache_creation_input_tokens := None; tc_cache_read_input_tokens := None |};
                       uo_algorithm_version := None |};
     or_sse := None; or_upstream_bytes_received := 40 |}.

Definition sample_hooks : list Actor :=
  [Act_committed; Act_usage sample_seen; Act_completed {| dv_finished_at := 9000000; dv_outcome := Delivery_ClientDisconnected; dv_bytes_delivered := 40 |}].

(** The price is not known, and the storage accepts. *)
Definition sample_answers : Answers (Call := DeliveryCall nat) := λ history B c,
  match c in DeliveryCall _ B return B with
  | SwapFinished => false | StoreCommitted => tt | LoadCommitted => false | LatchOutcome _ => tt | LatchObserved _ => tt | LatchStart => None | LatchReset => tt
  | PriceBasisForRequest => Some None | AppendUsage _ _ => true | CommitClientResponse => true | RecordRequestTiming _ _ => true | ObserveUpstreamBytes _ => true
  | CompleteRequestLifecycle _ => true | CancelActive => tt | ConfirmTransportCancel => tt | ReleaseAndComplete _ => tt | CompleteRequestOnly => tt
  | TransportTerminalWithin _ => true | DeliveryNow => 9000000 | FreshId => length history | RetrySleep _ => tt
  end.

Abbreviation sample_run schedule actors := (interleave shared sample_answers schedule (start (hook sample_request <$> actors) store_new)).

(** In turn, the completion first and last. *)
Abbreviation in_turn := (concat (repeat [2; 0; 1] 20))%nat.

Lemma accounted_once_witness :
  let s := sample_run (repeat 3 4 ++ in_turn ++ repeat 3 4)%nat (sample_hooks ++ [Act_dropped]) in
  count closes s.(sy_history).*2 = 1%nat ∧ count frees s.(sy_history).*2 = 1%nat.
Proof.
  destruct (accounted_once sample_request sample_answers (repeat 3 4 ++ in_turn ++ repeat 3 4)%nat (sample_hooks ++ [Act_dropped])) as (_ & _ & H).
  apply H; [vm_compute; repeat constructor|reflexivity].
Defined.

Lemma estimate_stored_once_witness :
  count estimates (sample_run (in_turn ++ repeat 3 8)%nat (sample_hooks ++ [Act_dropped])).(sy_history).*2 = 1%nat ∧
  count estimates (sample_run (repeat 3 8 ++ in_turn)%nat (sample_hooks ++ [Act_dropped])).(sy_history).*2 = 0%nat.
Proof.
  split.
  - destruct (estimate_stored_once sample_request sample_answers (in_turn ++ repeat 3 8)%nat (sample_hooks ++ [Act_dropped])) as (_ & H & _). apply H.
    + reflexivity.
    + reflexivity.
    + repeat constructor. vm_compute. done.
    + eexists _, 2%nat. split; [reflexivity|]. vm_compute. constructor.
    + eexists. right. left.
    + vm_compute. repeat constructor.
  - destruct (estimate_stored_once sample_request sample_answers (repeat 3 8 ++ in_turn)%nat (sample_hooks ++ [Act_dropped])) as (_ & _ & H). apply H.
    + exists 3%nat. split; [reflexivity|]. vm_compute. constructor.
    + vm_compute. repeat constructor.
Defined.
