(* ===== verification/OpenAi.v ===== *)
(** The OpenAI protocol: [crates/gateway-services/src/openai/protocol.rs] and the errors of [mod.rs]: the ceiling of the reasoning effort, the preparation of a
    body, the capabilities that the directory advertises, and the conversion between Chat and Responses. *)

From Stdlib Require Import Ascii.
From S2P Require Import Prelude Machine.
From S2P Require Import Bytes.
From S2P Require Import Json.
From S2P Require Import ClientRequest.
Local Open Scope N_scope.

Inductive OpenAiError :=
  | Ai_InvalidRequest
  | Ai_InvalidCredential
  | Ai_IdentityConflict
  | Ai_ReasoningLimit
  | Ai_ContinuationUnavailable
  | Ai_EventTooLarge
  | Ai_InvalidUsage.

#[export] Instance OpenAiError_eq_dec : EqDecision OpenAiError.
Proof. solve_decision. Defined.

#[export] Instance OpenAiAuthKind_eq_dec : EqDecision OpenAiAuthKind.
Proof. solve_decision. Defined.

(** [collect] into a result. *)
Fixpoint traverse {A B} (f : A → result OpenAiError B) (l : list A) : result OpenAiError (list B) :=
  match l with
  | [] => Ok []
  | a :: l =>
      match f a with
      | Err e => Err e
      | Ok b => match traverse f l with Err e => Err e | Ok bs => Ok (b :: bs) end
      end
  end.

(** The position of a name in a list. *)
Fixpoint position (name : bytes) (l : list bytes) : option nat :=
  match l with
  | [] => None
  | x :: l => if bool_decide (x = name) then Some 0%nat else S <$> position name l
  end.

Section protocol.
Context {Num F : Type} `{SerdeJson Num F}.
Abbreviation Tree := (Value Num).
Implicit Types (body value message call part tool response item : Tree).

Definition str (s : string) : Tree := JString (bs s).

(** [value[key] = new], of an object or of null; on other values the code would panic, and no use of it below meets one. *)
Definition index_set (key : string) (new value : Tree) : Tree :=
  match value with
  | JObject m => JObject (map_insert (bs key) new m)
  | JNull => JObject [(bs key, new)]
  | _ => value
  end.

Definition get_str (key : string) value : option bytes := get (bs key) value ≫= as_str.

Definition type_is (kind : string) value : bool := bool_decide (get_str "type" value = Some (bs kind)).

Definition required_str value (field : string) : result OpenAiError bytes := ok_or Ai_InvalidRequest (get_str field value).

(** ** The ceiling of the reasoning effort *)
Record ReasoningPolicy := {
  rp_maximum : option bytes;
  rp_downgrade : bool;
}.

(** The effort that the policy reads. *)
Definition requested_effort body : option bytes :=
  match pointer (bs "/reasoning/effort") body with Some value => as_str value | None => get_str "reasoning_effort" body end.

Definition apply (self : ReasoningPolicy) body (supported : list bytes) : result OpenAiError Tree :=
  let chat := is_some (get (bs "reasoning_effort") body) in
  match requested_effort body with
  | None => Ok body
  | Some requested =>
      match position requested supported with
      | None => Err Ai_InvalidRequest
      | Some rank =>
          match self.(rp_maximum) with
          | None => Ok body
          | Some maximum =>
              match position maximum supported with
              | None => Err Ai_InvalidRequest
              | Some ceiling =>
                  if (ceiling <? rank)%nat then
                    if negb self.(rp_downgrade) then Err Ai_ReasoningLimit
                    else if chat then Ok (index_set "reasoning_effort" (JString maximum) body)
                    else Ok (index_set "reasoning" (index_set "effort" (JString maximum) (default JNull (get (bs "reasoning") body))) body)
                  else Ok body
              end
          end
      end
  end.

(** ** Chat to Responses *)
Definition text_kind (role : bytes) : string := if bool_decide (role = bs "assistant") then "output_text" else "input_text".

Definition text_part (role text : bytes) : Tree := JObject [(bs "type", str (text_kind role)); (bs "text", JString text)].

Definition image_part part : result OpenAiError Tree :=
  image ← ok_or Ai_InvalidRequest (get (bs "image_url") part);
  url ← required_str image "url";
  let item := JObject [(bs "type", str "input_image"); (bs "image_url", JString url)] in
  match get (bs "detail") image with Some detail => Ok (index_set "detail" detail item) | None => Ok item end.

Definition content_part (role : bytes) part : result OpenAiError Tree :=
  if type_is "text" part then text ← required_str part "text"; Ok (text_part role text)
  else if type_is "image_url" part && bool_decide (role = bs "user") then image_part part
  else Err Ai_InvalidRequest.

Definition content_parts (role : bytes) (content : Tree) : result OpenAiError (list Tree) :=
  match content with
  | JString text => Ok [text_part role text]
  | JArray parts => traverse (content_part role) parts
  | _ => Err Ai_InvalidRequest
  end.

Definition call_item call : result OpenAiError Tree :=
  if negb (type_is "function" call) then Err Ai_InvalidRequest
  else
    function ← ok_or Ai_InvalidRequest (get (bs "function") call);
    id ← required_str call "id"; name ← required_str function "name"; arguments ← required_str function "arguments";
    Ok (JObject [(bs "type", str "function_call"); (bs "call_id", JString id); (bs "name", JString name); (bs "arguments", JString arguments)]).

(** A field that is not null. *)
Definition not_null (o : option Tree) : option Tree := match o with Some JNull => None | _ => o end.

Definition message_items message : result OpenAiError (list Tree) :=
  role ← required_str message "role";
  if bool_decide (role = bs "tool") then
    id ← required_str message "tool_call_id"; output ← required_str message "content";
    Ok [JObject [(bs "type", str "function_call_output"); (bs "call_id", JString id); (bs "output", JString output)]]
  else if negb (existsb (λ name, bool_decide (bs name = role)) ["system"; "developer"; "user"; "assistant"]%string) then Err Ai_InvalidRequest
  else
    content ← (match not_null (get (bs "content") message) with
               | None => Ok []
               | Some content => parts ← content_parts role content; Ok [JObject [(bs "role", JString role); (bs "content", JArray parts)]]
               end : result OpenAiError (list Tree));
    calls ← (match get (bs "tool_calls") message with
             | None => Ok []
             | Some calls => calls ← ok_or Ai_InvalidRequest (as_array calls); traverse call_item calls
             end : result OpenAiError (list Tree));
    Ok (content ++ calls).

Definition REMOVED_FIELDS : list string :=
  ["messages"; "n"; "stream_options"; "reasoning_effort"; "max_tokens"; "max_completion_tokens"; "response_format"].

Definition is_object value : bool := is_some (as_object value).

Definition object_or_none (o : option Tree) : option Tree := match o with Some value => if is_object value then Some value else None | None => None end.

Definition tool_item tool : result OpenAiError Tree :=
  if negb (type_is "function" tool) then Err Ai_InvalidRequest
  else function ← ok_or Ai_InvalidRequest (object_or_none (get (bs "function") tool)); Ok (index_set "type" (str "function") function).

Definition set_reasoning body result : Tree :=
  match get (bs "reasoning_effort") body with Some effort => index_set "reasoning" (JObject [(bs "effort", effort)]) result | None => result end.

Definition set_limit body result : Tree :=
  match (match get (bs "max_completion_tokens") body with Some limit => Some limit | None => get (bs "max_tokens") body end) with
  | Some limit => index_set "max_output_tokens" limit result
  | None => result
  end.

Definition set_tools body (result : Tree) : Prelude.result OpenAiError Tree :=
  match get (bs "tools") body with
  | None => Ok result
  | Some tools => tools ← ok_or Ai_InvalidRequest (as_array tools); tools ← traverse tool_item tools; Ok (index_set "tools" (JArray tools) result)
  end.

Definition set_choice body (result : Tree) : Prelude.result OpenAiError Tree :=
  match object_or_none (get (bs "tool_choice") body) with
  | None => Ok result
  | Some choice =>
      name ← ok_or Ai_InvalidRequest (pointer (bs "/function/name") choice ≫= as_str);
      Ok (index_set "tool_choice" (JObject [(bs "type", str "function"); (bs "name", JString name)]) result)
  end.

Definition set_format body (result : Tree) : Prelude.result OpenAiError Tree :=
  match get (bs "response_format") body with
  | None => Ok result
  | Some format =>
      format ← (if type_is "json_schema" format then
                  schema ← ok_or Ai_InvalidRequest (object_or_none (get (bs "json_schema") format)); Ok (index_set "type" (str "json_schema") schema)
                else Ok format : Prelude.result OpenAiError Tree);
      Ok (index_set "text" (JObject [(bs "format", format)]) result)
  end.

Definition chat_to_responses body : result OpenAiError Tree :=
  if is_some_and (λ n, negb (bool_decide (value_as_u64 n = Some 1))) (get (bs "n") body) then Err Ai_InvalidRequest
  else
    messages ← ok_or Ai_InvalidRequest (get (bs "messages") body ≫= as_array);
    input ← traverse message_items messages;
    object ← ok_or Ai_InvalidRequest (as_object body);
    let object := foldl (λ object field, map_remove (bs field) object) object REMOVED_FIELDS in
    let result := set_limit body (set_reasoning body (JObject (map_insert (bs "input") (JArray (concat input)) object))) in
    result ← set_tools body result; result ← set_choice body result; set_format body result.

(** ** Responses to Chat *)
Fixpoint part_texts (parts : list Tree) : result OpenAiError bytes :=
  match parts with
  | [] => Ok []
  | part :: parts =>
      if type_is "output_text" part then text ← required_str part "text"; rest ← part_texts parts; Ok (text ++ rest) else Err Ai_InvalidRequest
  end.

Definition chat_call item : result OpenAiError Tree :=
  id ← required_str item "call_id"; name ← required_str item "name"; arguments ← required_str item "arguments";
  Ok (JObject [(bs "id", JString id); (bs "type", str "function");
               (bs "function", JObject [(bs "name", JString name); (bs "arguments", JString arguments)])]).

(** The text and the calls of the output. *)
Fixpoint output_message (output : list Tree) : result OpenAiError (bytes * list Tree) :=
  match output with
  | [] => Ok ([], [])
  | item :: output =>
      if type_is "message" item then
        parts ← ok_or Ai_InvalidRequest (get (bs "content") item ≫= as_array); text ← part_texts parts;
        '(rest, calls) ← output_message output; Ok (text ++ rest, calls)
      else if type_is "function_call" item then call ← chat_call item; '(text, calls) ← output_message output; Ok (text, call :: calls)
      else if type_is "reasoning" item then output_message output
      else Err Ai_InvalidRequest
  end.

Definition chat_message (text : bytes) (calls : list Tree) : Tree :=
  let message := JObject [(bs "role", str "assistant"); (bs "content", if is_empty text then JNull else JString text)] in
  if is_empty calls then message else index_set "tool_calls" (JArray calls) message.

Definition finish_reason response (calls : list Tree) : string :=
  if bool_decide (get_str "status" response = Some (bs "incomplete")) then "length" else if is_empty calls then "stop" else "tool_calls".

Definition json_option (o : option Tree) : Tree := default JNull o.

Definition chat_usage usage : Tree :=
  JObject [(bs "prompt_tokens", json_option (get (bs "input_tokens") usage)); (bs "completion_tokens", json_option (get (bs "output_tokens") usage));
           (bs "total_tokens", json_option (get (bs "total_tokens") usage)); (bs "prompt_tokens_details", json_option (get (bs "input_tokens_details") usage));
           (bs "completion_tokens_details", json_option (get (bs "output_tokens_details") usage))].

Definition responses_to_chat response : result OpenAiError Tree :=
  if bool_decide (get_str "status" response = Some (bs "failed")) then Err Ai_InvalidRequest
  else
    output ← ok_or Ai_InvalidRequest (get (bs "output") response ≫= as_array);
    '(text, calls) ← output_message output;
    id ← required_str response "id"; model ← required_str response "model";
    let result :=
      JObject [(bs "id", JString id); (bs "object", str "chat.completion");
               (bs "created", default (JNumber (num_of_u64 0)) (get (bs "created_at") response)); (bs "model", JString model);
               (bs "choices", JArray [JObject [(bs "index", JNumber (num_of_u64 0)); (bs "message", chat_message text calls);
                                               (bs "finish_reason", str (finish_reason response calls))]])] in
    match not_null (get (bs "usage") response) with
    | Some usage => Ok (index_set "usage" (chat_usage usage) result)
    | None => Ok result
    end.

(** ** Preparation *)
Definition prepare body (endpoint : OpenAiEndpoint) (auth : OpenAiAuthKind) : result OpenAiError Tree :=
  if negb (is_object body) || is_none_or (λ model, is_empty model) (get_str "model" body) then Err Ai_InvalidRequest
  else
    result ← (if bool_decide (endpoint = ChatCompletions) && bool_decide (auth = Auth_Oauth) then chat_to_responses body else Ok body : result OpenAiError Tree);
    object ← ok_or Ai_InvalidRequest (as_object result);
    if bool_decide (endpoint = Compact) then Ok (JObject (map_remove (bs "store") (map_remove (bs "stream") object)))
    else if bool_decide (auth = Auth_Oauth) then
      let object :=
        match map_get (bs "input") object with
        | Some (JString text) =>
            map_insert (bs "input") (JArray [JObject [(bs "role", str "user");
              (bs "content", JArray [JObject [(bs "type", str "input_text"); (bs "text", JString text)]])]]) object
        | _ => object
        end in
      let object := map_insert (bs "stream") (JBool true) (map_insert (bs "store") (JBool false) object) in
      Ok (JObject (if contains_key (bs "instructions") object then object else map_insert (bs "instructions") (str "") object))
    else Ok (JObject object).

(** ** Capabilities *)
Fixpoint contains_image value : bool :=
  match value with
  | JObject fields =>
      is_some_and (λ kind, bool_decide (kind = bs "input_image") || bool_decide (kind = bs "image_url")) (map_get (bs "type") fields ≫= as_str)
      || (fix any fields := match fields with [] => false | (_, field) :: fields => contains_image field || any fields end) fields
  | JArray values => (fix any values := match values with [] => false | value :: values => contains_image value || any values end) values
  | _ => false
  end.

Definition validate_capabilities body (metadata : option Tree) : result OpenAiError unit :=
  match metadata with
  | None => Ok tt
  | Some metadata =>
      let effort_refused :=
        match get (bs "supported_reasoning_levels") metadata ≫= as_array, requested_effort body with
        | Some efforts, Some effort => negb (existsb (λ value, bool_decide (get_str "effort" value = Some effort)) efforts)
        | _, _ => false
        end in
      if effort_refused then Err Ai_InvalidRequest
      else
        match get (bs "input_modalities") metadata ≫= as_array with
        | Some modalities =>
            if negb (existsb (λ v, bool_decide (as_str v = Some (bs "image"))) modalities) && contains_image body then Err Ai_InvalidRequest else Ok tt
        | None => Ok tt
        end
  end.
End protocol.
