(* ===== verification/OpenAiProofs.v ===== *)
(** What the OpenAI protocol promises: the texts, the images, the calls and the outputs of a conversation are kept between Chat and Responses, a tool call comes back as
    the model made it, and the reasoning effort stays under its ceiling when a body names it once. *)

From Stdlib Require Import Ascii.
From S2P Require Import Prelude Machine.
From S2P Require Import Bytes.
From S2P Require Import Json.
From S2P Require Import ClientRequest.
From S2P Require Import OpenAi.
Local Open Scope N_scope.

Lemma traverse_Forall2 {A B} (f : A → result OpenAiError B) l l' : traverse f l = Ok l' → Forall2 (λ a b, f a = Ok b) l l'.
Proof.
  revert l'. induction l as [|a l IH]; cbn; intros l'; [by intros [= <-]|].
  destruct (f a) as [b|] eqn:E; [|done]. destruct (traverse f l) as [bs|]; [|done]. intros [= <-]. constructor; [done|by apply IH].
Qed.

Lemma omap_Forall2 {A B C} (f : A → option C) (g : B → option C) (R : A → B → Prop) l l' :
  Forall2 R l l' → (∀ a b, R a b → f a = g b) → omap f l = omap g l'.
Proof. induction 1 as [|a b l l' Hab _ IH]; intros HR; [done|]. cbn. by rewrite (HR a b Hab), IH. Qed.

Section proofs.
Context {Num F : Type} `{SerdeJson Num F}.
Abbreviation Tree := (Value Num).
Implicit Types (body value message call part tool response item : Tree).

(** ** What is said in a conversation *)
Inductive Said :=
  | Said_Text (role text : bytes)
  | Said_Image (url : bytes) (detail : option Tree)
  | Said_Call (id name arguments : bytes)
  | Said_Output (id output : bytes).

(** In a message of Chat. *)
Definition part_said (role : bytes) part : option Said :=
  if type_is "text" part then Said_Text role <$> get_str "text" part
  else image ← get (bs "image_url") part; url ← get_str "url" image; Some (Said_Image url (get (bs "detail") image)).

Definition content_said (role : bytes) (content : Tree) : list Said :=
  match content with
  | JString text => [Said_Text role text]
  | JArray parts => omap (part_said role) parts
  | _ => []
  end.

Definition call_said call : option Said :=
  function ← get (bs "function") call;
  id ← get_str "id" call; name ← get_str "name" function; arguments ← get_str "arguments" function; Some (Said_Call id name arguments).

Definition message_said message : list Said :=
  let role := default [] (get_str "role" message) in
  if bool_decide (role = bs "tool") then
    option_list (id ← get_str "tool_call_id" message; output ← get_str "content" message; Some (Said_Output id output))
  else
    content_said role (default JNull (get (bs "content") message)) ++ omap call_said (default [] (get (bs "tool_calls") message ≫= as_array)).

(** Everything in the content of a message is a text or an image, and each of its calls is the call of a function: nothing of them is passed over. *)
Definition wholly_said message : Prop :=
  ∃ role, get_str "role" message = Some role ∧
  if bool_decide (role = bs "tool") then ∃ id output, message_said message = [Said_Output id output]
  else
    match get (bs "content") message with
    | None | Some JNull | Some (JString _) => True
    | Some (JArray parts) => Forall (λ part, is_Some (part_said role part)) parts
    | Some _ => False
    end ∧
    ∀ calls, get (bs "tool_calls") message = Some calls → ∃ l, calls = JArray l ∧ Forall (λ call, is_Some (call_said call)) l.

(** Messages that agree on the fields that have a meaning in the other protocol. *)
Definition SAID_FIELDS : list string := ["role"; "content"; "tool_calls"; "tool_call_id"].

Definition says_alike message message' : Prop := ∀ field, field ∈ SAID_FIELDS → get (bs field) message' = get (bs field) message.

(** In an item of Responses. *)
Definition item_part_said (role : bytes) part : option Said :=
  if type_is "input_image" part then url ← get_str "image_url" part; Some (Said_Image url (get (bs "detail") part))
  else Said_Text role <$> get_str "text" part.

Definition item_call_said item : option Said :=
  id ← get_str "call_id" item; name ← get_str "name" item; arguments ← get_str "arguments" item; Some (Said_Call id name arguments).

Definition item_said item : list Said :=
  if type_is "function_call" item then option_list (item_call_said item)
  else if type_is "function_call_output" item then
    option_list (id ← get_str "call_id" item; output ← get_str "output" item; Some (Said_Output id output))
  else
    let role := default [] (get_str "role" item) in
    omap (item_part_said role) (default [] (get (bs "content") item ≫= as_array)).

(** ** Lemmas *)
Lemma required_bind {B} value field (f : bytes → result OpenAiError B) b : (required_str value field ≫= f) = Ok b ↔ ∃ s, get_str field value = Some s ∧ f s = Ok b.
Proof. apply ok_or_bind. Qed.

Lemma content_part_said role role' part part' : content_part role part = Ok part' → part_said role' part = item_part_said role' part'.
Proof.
  unfold content_part, part_said. destruct (type_is "text" part) eqn:Et.
  - intros (text & Ht & [= <-])%required_bind. rewrite Ht. unfold item_part_said, text_part, text_kind.
    by destruct (bool_decide _).
  - destruct (_ && _); [|done]. intros (image & Hi & (url & Hu & Hr)%required_bind)%ok_or_bind. rewrite Hi. cbn [mbind option_bind]. rewrite Hu. cbn [mbind option_bind].
    destruct (get (bs "detail") image) as [detail|]; injection Hr as [= <-]; [|done].
    unfold item_part_said, index_set, type_is, get_str. rewrite !get_object_insert. done.
Qed.

Lemma content_parts_said role role' content parts : content_parts role content = Ok parts → content_said role' content = omap (item_part_said role') parts.
Proof.
  unfold content_parts. destruct content; try done.
  - intros [= <-]. unfold text_part, item_part_said, text_kind. by destruct (bool_decide _).
  - intros Hp%traverse_Forall2. cbn [content_said]. eapply omap_Forall2; [exact Hp|]. intros a b. apply content_part_said.
Qed.

Lemma call_item_said call item : call_item call = Ok item → call_said call = item_call_said item ∧ type_is "function_call" item = true.
Proof.
  unfold call_item, call_said. destruct (negb _); [done|].
  intros (function & -> & (id & Hid & (name & Hn & (arguments & Ha & [= <-])%required_bind)%required_bind)%required_bind)%ok_or_bind.
  cbn [mbind option_bind]. rewrite Hid. cbn [mbind option_bind]. rewrite Hn. cbn [mbind option_bind]. by rewrite Ha.
Qed.

Lemma call_items_said calls items : traverse call_item calls = Ok items → omap call_said calls = concat (item_said <$> items).
Proof.
  intros Hf%traverse_Forall2. induction Hf as [|call item calls items Hc _ IH]; [done|].
  apply call_item_said in Hc as [Hs Ht]. cbn [omap list_omap fmap list_fmap concat]. unfold item_said at 1. rewrite Ht, Hs, <- IH.
  by destruct (item_call_said item).
Qed.

Lemma message_items_said message items : message_items message = Ok items → message_said message = concat (item_said <$> items).
Proof.
  unfold message_items, message_said. intros (role & -> & Hr)%required_bind. cbn [default from_option id]. case_bool_decide as Etool.
  - apply required_bind in Hr as (id & -> & Hr). apply required_bind in Hr as (output & -> & [= <-]). done.
  - destruct (negb _); [done|]. apply bind_Ok in Hr as (content & Hc & Hr). apply bind_Ok in Hr as (calls & Hk & [= <-]).
    rewrite fmap_app, concat_app. f_equal.
    + destruct (get (bs "content") message) as [[]|]; cbn [not_null] in Hc; try (by injection Hc as [= <-]); apply bind_Ok in Hc as (parts & Hp & [= <-]);
        cbn [fmap list_fmap concat]; rewrite app_nil_r; by apply content_parts_said with (role' := role) in Hp.
    + destruct (get (bs "tool_calls") message) as [calls'|]; [|by injection Hk as [= <-]].
      apply ok_or_bind in Hk as (l & El & Hk). cbn [mbind option_bind]. rewrite El. by apply call_items_said.
Qed.

Lemma content_part_whole role part part' : content_part role part = Ok part' → is_Some (part_said role part).
Proof.
  unfold content_part, part_said. destruct (type_is "text" part) eqn:Et.
  - intros (text & -> & _)%required_bind. by eexists.
  - destruct (_ && _); [|done]. intros (image & -> & (url & Hu & _)%required_bind)%ok_or_bind. cbn [mbind option_bind]. rewrite Hu. by eexists.
Qed.

Lemma call_item_whole call item : call_item call = Ok item → is_Some (call_said call).
Proof.
  unfold call_item, call_said. destruct (negb _); [done|].
  intros (function & -> & (id & Hid & (name & Hn & (arguments & Ha & _)%required_bind)%required_bind)%required_bind)%ok_or_bind.
  cbn [mbind option_bind]. rewrite Hid. cbn [mbind option_bind]. rewrite Hn. cbn [mbind option_bind]. rewrite Ha. by eexists.
Qed.

Lemma traverse_whole {A B} (f : A → result OpenAiError B) (P : A → Prop) l l' : (∀ a b, f a = Ok b → P a) → traverse f l = Ok l' → Forall P l.
Proof. intros HP Hf%traverse_Forall2. eapply Forall2_Forall_l; [exact Hf|]. apply Forall_true. intros b a. apply HP. Qed.

Lemma message_items_whole message items : message_items message = Ok items → wholly_said message.
Proof.
  unfold message_items, wholly_said, message_said. intros (role & Er & Hr)%required_bind. exists role. split; [done|]. rewrite Er. cbn [default from_option id]. case_bool_decide as Etool.
  - apply required_bind in Hr as (id & -> & Hr). apply required_bind in Hr as (output & -> & _). by exists id, output.
  - destruct (negb _); [done|]. apply bind_Ok in Hr as (content & Hc & Hr). apply bind_Ok in Hr as (calls & Hk & _). split.
    + destruct (get (bs "content") message) as [[]|]; cbn [not_null] in Hc; try done; apply bind_Ok in Hc as (parts & Hp & _); try done.
      eapply traverse_whole; [|exact Hp]. apply content_part_whole.
    + intros calls' E. rewrite E in Hk. apply ok_or_bind in Hk as (l & El & Hk). exists l. split; [destruct calls'; try done; by injection El as [= ->]|].
      eapply traverse_whole; [|exact Hk]. apply call_item_whole.
Qed.

Lemma says_alike_items message message' : says_alike message message' → message_items message' = message_items message.
Proof.
  intros Ha. unfold message_items, required_str, get_str.
  by rewrite (Ha "role"), (Ha "content"), (Ha "tool_calls"), (Ha "tool_call_id") by (unfold SAID_FIELDS; set_solver).
Qed.

Lemma says_alike_traverse messages messages' : Forall2 says_alike messages messages' → traverse message_items messages' = traverse message_items messages.
Proof. induction 1 as [|message message' messages messages' Hm _ IH]; [done|]. cbn. by rewrite (says_alike_items _ _ Hm), IH. Qed.

(** The later fields leave the input alone. *)
Definition input_is (input result : Tree) : Prop := ∃ m, result = JObject m ∧ map_get (bs "input") m = Some input.

Lemma input_index_set input key new result : bs key ≠ bs "input" → input_is input result → input_is input (index_set key new result).
Proof. intros Hne (m & -> & Hm). eexists. split; [done|]. by rewrite map_get_insert, bool_decide_false by congruence. Qed.

Lemma input_get input result : input_is input result → get (bs "input") result = Some input.
Proof. by intros (m & -> & Hm). Qed.

Lemma set_fields_input input body result result' : input_is input result →
  (result ← set_tools body result; result ← set_choice body result; set_format body result) = Ok result' → input_is input result'.
Proof.
  intros Hi (r1 & H1 & (r2 & H2 & H3)%bind_Ok)%bind_Ok.
  assert (input_is input r1) as Hi1.
  { unfold set_tools in H1. destruct (get _ body) as [tools|]; [|by injection H1 as [= <-]].
    apply ok_or_bind in H1 as (l & _ & (l' & _ & [= <-])%bind_Ok). by apply input_index_set. }
  assert (input_is input r2) as Hi2.
  { unfold set_choice in H2. destruct (object_or_none _) as [choice|]; [|by injection H2 as [= <-]].
    apply ok_or_bind in H2 as (name & _ & [= <-]). by apply input_index_set. }
  unfold set_format in H3. destruct (get _ body) as [format|]; [|by injection H3 as [= <-]].
  apply bind_Ok in H3 as (f & _ & [= <-]). by apply input_index_set.
Qed.

(** ** A turn of the model *)

(** What the output of a response says: its texts, and its calls. *)
Definition output_texts (output : list Tree) : list bytes :=
  concat ((λ item, if type_is "message" item then omap (get_str "text") (default [] (get (bs "content") item ≫= as_array)) else []) <$> output).

Definition output_calls (output : list Tree) : list (bytes * bytes * bytes) :=
  omap (λ item, if type_is "function_call" item
                then id ← get_str "call_id" item; name ← get_str "name" item; arguments ← get_str "arguments" item; Some (id, name, arguments)
                else None) output.

Definition call_of (call : bytes * bytes * bytes) : Tree :=
  let '(id, name, arguments) := call in
  JObject [(bs "id", JString id); (bs "type", str "function"); (bs "function", JObject [(bs "name", JString name); (bs "arguments", JString arguments)])].

Definition function_call_item (call : bytes * bytes * bytes) : Tree :=
  let '(id, name, arguments) := call in
  JObject [(bs "type", str "function_call"); (bs "call_id", JString id); (bs "name", JString name); (bs "arguments", JString arguments)].

Lemma part_texts_Ok (parts : list Tree) text : part_texts parts = Ok text → text = concat (omap (get_str "text") parts).
Proof.
  revert text. induction parts as [|part parts IH]; cbn [part_texts]; intros text; [by intros [= <-]|]. destruct (type_is "output_text" part); [|done].
  intros (s & Hs & (rest & Hrest & [= <-])%bind_Ok)%required_bind. cbn. rewrite Hs. cbn. by rewrite (IH rest).
Qed.

Lemma type_is_other kind kind' value : type_is kind value = true → bs kind ≠ bs kind' → type_is kind' value = false.
Proof. unfold type_is. intros E%bool_decide_eq_true Hne. rewrite E. apply bool_decide_eq_false. congruence. Qed.

Lemma output_message_Ok output text calls : output_message output = Ok (text, calls) →
  text = concat (output_texts output) ∧ calls = call_of <$> output_calls output.
Proof.
  revert text calls. induction output as [|item output IH]; cbn [output_message]; intros text calls; [by intros [= <- <-]|].
  unfold output_texts, output_calls. cbn [fmap list_fmap concat omap list_omap]. fold (output_texts output) (output_calls output).
  destruct (type_is "message" item) eqn:Em.
  - rewrite (type_is_other _ "function_call" _ Em) by done.
    intros (parts & Ep & (s & Hs%part_texts_Ok & ([rest calls'] & Hr & [= <- <-])%bind_Ok)%bind_Ok)%ok_or_bind.
    apply IH in Hr as [-> ->]. rewrite Ep. cbn [default from_option id]. by rewrite concat_app, <- Hs.
  - destruct (type_is "function_call" item).
    + intros (call & Hc & ([text' calls'] & Hr & [= <- <-])%bind_Ok)%bind_Ok. apply IH in Hr as [-> ->].
      apply required_bind in Hc as (id & -> & (name & -> & (arguments & -> & [= <-])%required_bind)%required_bind). done.
    + destruct (type_is "reasoning" item); [|done]. intros Hr. by apply IH in Hr.
Qed.

Lemma call_item_of (call : bytes * bytes * bytes) : call_item (call_of call) = Ok (function_call_item call).
Proof. by destruct call as [[id name] arguments]. Qed.

Lemma traverse_calls (calls : list (bytes * bytes * bytes)) : traverse call_item (call_of <$> calls) = Ok (function_call_item <$> calls).
Proof. induction calls as [|call calls IH]; [done|]. cbn [fmap list_fmap traverse]. by rewrite call_item_of, IH. Qed.

Definition assistant_item (text : bytes) : list Tree :=
  if is_empty text then [] else [JObject [(bs "role", str "assistant"); (bs "content", JArray [text_part (bs "assistant") text])]].

Lemma chat_message_items text (calls : list (bytes * bytes * bytes)) : message_items (chat_message text (call_of <$> calls)) = Ok (assistant_item text ++ (function_call_item <$> calls)).
Proof.
  assert (∀ message, get_str "role" message = Some (bs "assistant") → get (bs "content") message = Some (if is_empty text then JNull else JString text) →
    get (bs "tool_calls") message = (if is_empty (call_of <$> calls) then None else Some (JArray (call_of <$> calls))) →
    message_items message = Ok (assistant_item text ++ (function_call_item <$> calls))) as Hitems.
  { intros message Hr Hc Hk. unfold message_items, required_str. rewrite Hr, Hc, Hk. cbn [ok_or mbind result_bind]. rewrite bool_decide_false by done.
    change (negb _) with false. cbv iota.
    assert ((match (if is_empty (call_of <$> calls) then None else Some (JArray (call_of <$> calls))) with
             | None => Ok [] | Some calls => calls ← ok_or Ai_InvalidRequest (as_array calls); traverse call_item calls end : result OpenAiError (list Tree))
            = Ok (function_call_item <$> calls)) as ->.
    { destruct (is_empty (call_of <$> calls)) eqn:Ec; [by destruct calls|]. cbn [as_array ok_or mbind result_bind]. apply traverse_calls. }
    unfold assistant_item. by destruct (is_empty text). }
  unfold chat_message. destruct (is_empty (call_of <$> calls)) eqn:E; apply Hitems; try done;
    unfold get_str, index_set; rewrite get_object_insert; done.
Qed.
End proofs.

Lemma Ok_inj {E A} (a b : A) : Ok (E := E) a = Ok b → a = b.
Proof. by intros [= ->]. Qed.

Section effort.
Context {Num F : Type} `{SerdeJson Num F}.
Implicit Types (value body : Value Num).

Lemma get_index_set key key' new value : is_object value = true → get (bs key') (index_set key new value) = if bool_decide (bs key' = bs key) then Some new else get (bs key') value.
Proof. destruct value; try done. intros _. apply get_object_insert. Qed.

Lemma is_object_set key new value : is_object value = true → is_object (index_set key new value) = true.
Proof. by destruct value. Qed.

Lemma pointer_effort body : pointer (bs "/reasoning/effort") body = get (bs "reasoning") body ≫= get (bs "effort").
Proof.
  unfold pointer. change (pointer_tokens (bs "/reasoning/effort")) with (Some [bs "reasoning"; bs "effort"]). cbn [mbind option_bind pointer_walk bs String.list_ascii_of_string].
  rewrite letter_step by done. destruct (get _ body) as [v|]; [|done]. cbn [mbind option_bind]. rewrite letter_step by done. by destruct (get _ v).
Qed.

(** What has a field is an object. *)
Lemma get_object key value old : get key value = Some old → is_object value = true.
Proof. by destruct value. Qed.

(** Where a body of an endpoint names its effort: the API of Chat takes it from the field [reasoning_effort], the API of Responses from [effort] of [reasoning]. *)
Definition asked_effort (endpoint : OpenAiEndpoint) body : option bytes :=
  match endpoint with
  | ChatCompletions => get_str "reasoning_effort" body
  | Responses | Compact => get (bs "reasoning") body ≫= get_str "effort"
  end.

(** The place of the other endpoint is empty. *)
Definition named_once (endpoint : OpenAiEndpoint) body : Prop :=
  match endpoint with
  | ChatCompletions => get (bs "reasoning") body ≫= get (bs "effort") = None
  | Responses | Compact => get (bs "reasoning_effort") body = None
  end.

(** The field that is lowered. *)
Definition effort_field (endpoint : OpenAiEndpoint) : string := match endpoint with ChatCompletions => "reasoning_effort" | Responses | Compact => "reasoning" end.

Lemma requested_asked endpoint body : named_once endpoint body → requested_effort body = asked_effort endpoint body.
Proof.
  unfold requested_effort, asked_effort, named_once, get_str. rewrite pointer_effort.
  destruct endpoint; intros Hn; rewrite Hn; try done; by destruct (get (bs "reasoning") body) as [r|]; cbn; [destruct (get _ r)|].
Qed.

(** The body that the policy lowers. *)
Definition lowered (endpoint : OpenAiEndpoint) (maximum : bytes) body body' : Prop :=
  asked_effort endpoint body' = Some maximum ∧ ∀ field, bs field ≠ bs (effort_field endpoint) → get (bs field) body' = get (bs field) body.

Lemma lower_chat maximum body : is_object body = true → lowered ChatCompletions maximum body (index_set "reasoning_effort" (JString maximum) body).
Proof.
  intros Ho. split; [unfold asked_effort, get_str; by rewrite get_index_set, bool_decide_true|]. intros field Hne. by rewrite get_index_set, bool_decide_false.
Qed.

Lemma lower_responses endpoint maximum effort body : endpoint ≠ ChatCompletions → is_object body = true → asked_effort endpoint body = Some effort →
  lowered endpoint maximum body (index_set "reasoning" (index_set "effort" (JString maximum) (default JNull (get (bs "reasoning") body))) body).
Proof.
  intros Hne Ho Ha. assert (effort_field endpoint = "reasoning"%string ∧ ∀ b, asked_effort endpoint b = get (bs "reasoning") b ≫= get_str "effort") as [Ef Ea] by by destruct endpoint.
  split; [|intros field Hf; rewrite Ef in Hf; by rewrite get_index_set, bool_decide_false].
  rewrite Ea in *. rewrite get_index_set, bool_decide_true by done. apply bind_Some in Ha as (reasoning & -> & (old & Hold & _)%bind_Some).
  apply get_object in Hold. cbn [default from_option id mbind option_bind]. unfold get_str. by rewrite get_index_set, bool_decide_true.
Qed.
End effort.

(** ** Properties *)

(** C28: when a Chat body becomes a Responses body, the texts of its messages with their roles, their images, their tool calls and the outputs of their tools are those of
    the input, in their order. A body is converted only when each part of a content is a text or an image and each tool call is the call of a function, so none of
    these is passed over. Nothing else of a message is kept: messages that agree on their role, content, tool calls and call identifier become the same input, whatever
    other fields they have, as a refusal or the function call of the older interface. *)
Theorem conversation_kept {Num F} `{SerdeJson Num F} body result : chat_to_responses body = Ok result →
  ∃ messages input, get (bs "messages") body = Some (JArray messages) ∧ get (bs "input") result = Some (JArray input) ∧
    concat (message_said <$> messages) = concat (item_said <$> input) ∧
    Forall wholly_said messages ∧
    ∀ messages', Forall2 says_alike messages messages' → ∃ items, traverse message_items messages' = Ok items ∧ concat items = input.
Proof.
  unfold chat_to_responses. destruct (is_some_and _ _); [done|].
  intros (messages & Hm & (input & Hi & (object & _ & Hr)%ok_or_bind)%bind_Ok)%ok_or_bind.
  apply bind_Some in Hm as (value & Hm & Ha). destruct value; try done. injection Ha as [= ->].
  exists messages, (concat input). split; [done|]. split_and!.
  - apply input_get. eapply set_fields_input; [|exact Hr].
    set (start := JObject _). assert (input_is (JArray (concat input)) start) as Hs.
    { eexists. split; [done|]. by rewrite map_get_insert, bool_decide_true. }
    clearbody start. unfold set_limit, set_reasoning.
    assert (input_is (JArray (concat input)) (match get (bs "reasoning_effort") body with
      Some effort => index_set "reasoning" (JObject [(bs "effort", effort)]) start | None => start end)) as Hs'.
    { destruct (get (bs "reasoning_effort") body); [by apply input_index_set|done]. }
    destruct (match get (bs "max_completion_tokens") body with Some limit => Some limit | None => get (bs "max_tokens") body end); [by apply input_index_set|done].
  - apply traverse_Forall2 in Hi. clear Hr Hm. induction Hi as [|message items messages input Hmi _ IH]; [done|].
    cbn [fmap list_fmap concat]. by rewrite (message_items_said _ _ Hmi), IH, fmap_app, concat_app.
  - eapply traverse_whole; [|exact Hi]. apply message_items_whole.
  - intros messages' Hsame. exists input. by rewrite (says_alike_traverse _ _ Hsame).
Qed.

(** C29: a turn of the model survives the way through Chat: when the client sends the message of a converted response back, the converter makes of it the text of the
    response and exactly its function calls, each with its call identifier, its name and its arguments, in their order. *)
Theorem tool_turn_roundtrip {Num F} `{SerdeJson Num F} response chat : responses_to_chat response = Ok chat →
  ∃ output message, get (bs "output") response = Some (JArray output) ∧
    pointer (bs "/choices/0/message") chat = Some message ∧
    message_items message = Ok (assistant_item (concat (output_texts output)) ++ (function_call_item <$> output_calls output)).
Proof.
  unfold responses_to_chat. destruct (bool_decide _); [done|].
  intros (output & Ho & ([text calls] & [-> ->]%output_message_Ok & (id & _ & (model & _ & Hr)%required_bind)%required_bind)%bind_Ok)%ok_or_bind.
  apply bind_Some in Ho as (value & Ho & Ha). destruct value; try done. injection Ha as [= ->]. eexists output, _. split; [done|].
  split; [|apply chat_message_items]. 
  assert (∀ result, get (bs "choices") result = Some (JArray [JObject [(bs "index", JNumber (num_of_u64 0));
      (bs "message", chat_message (concat (output_texts output)) (call_of <$> output_calls output));
      (bs "finish_reason", str (finish_reason response (call_of <$> output_calls output)))]]) →
    pointer (bs "/choices/0/message") result = Some (chat_message (concat (output_texts output)) (call_of <$> output_calls output))) as Hp.
  { intros result Hc. unfold pointer. change (pointer_tokens (bs "/choices/0/message")) with (Some [bs "choices"; bs "0"; bs "message"]). cbn [mbind option_bind pointer_walk].
    destruct result; try done. cbn [pointer_step]. unfold get in Hc. cbn [as_object mbind option_bind] in Hc. rewrite Hc. cbn [mbind option_bind pointer_step].
    change (bs "0") with (to_string 0). by rewrite parse_index_to_string by (by rewrite ?U64_MAX_val). }
  destruct (not_null _) as [usage|]; injection Hr as [= <-]; apply Hp; [|done].
  unfold index_set. by rewrite get_object_insert.
Qed.


(** ** Samples *)
#[local] Instance ai_serde : SerdeJson Z Z := sample_serde [] (λ _, None).

Definition obj (fields : list (string * Value Z)) : Value Z := JObject (prod_map bs id <$> fields).

Definition txt (s : string) : Value Z := JString (bs s).

Definition sample_chat : Value Z := obj
  [("model", txt "m");
   ("messages", JArray
     [obj [("role", txt "user"); ("content", JArray [obj [("type", txt "text"); ("text", txt "look")];
        obj [("type", txt "image_url"); ("image_url", obj [("url", txt "u"); ("detail", txt "low")])]])];
      obj [("role", txt "assistant"); ("content", JNull);
           ("tool_calls", JArray [obj [("id", txt "c1"); ("type", txt "function"); ("function", obj [("name", txt "f"); ("arguments", txt "{}")])]])];
      obj [("role", txt "tool"); ("tool_call_id", txt "c1"); ("content", txt "done")]])].

Definition sample_converted : Value Z := Eval vm_compute in match chat_to_responses sample_chat with Ok result => result | Err _ => JNull end.

Lemma conversation_kept_witness :
  chat_to_responses sample_chat = Ok sample_converted ∧
  ∃ messages input, get (bs "messages") sample_chat = Some (JArray messages) ∧ get (bs "input") sample_converted = Some (JArray input) ∧
    concat (message_said <$> messages) = concat (item_said <$> input).
Proof.
  assert (chat_to_responses sample_chat = Ok sample_converted) as E by by vm_compute. split; [exact E|].
  destruct (conversation_kept sample_chat sample_converted E) as (messages & input & Hm & Hi & Hs & _). by exists messages, input.
Defined.

Definition sample_response : Value Z := obj
  [("id", txt "resp"); ("model", txt "m"); ("status", txt "completed");
   ("output", JArray
     [obj [("type", txt "reasoning")];
      obj [("type", txt "message"); ("content", JArray [obj [("type", txt "output_text"); ("text", txt "a")]; obj [("type", txt "output_text"); ("text", txt "b")]])];
      obj [("type", txt "function_call"); ("call_id", txt "c1"); ("name", txt "f"); ("arguments", txt "{}")]])].

Definition sample_completion : Value Z := Eval vm_compute in match responses_to_chat sample_response with Ok chat => chat | Err _ => JNull end.

Lemma tool_turn_roundtrip_witness :
  responses_to_chat sample_response = Ok sample_completion ∧
  ∃ message, pointer (bs "/choices/0/message") sample_completion = Some message ∧
    message_items message = Ok (assistant_item (bs "ab") ++ [function_call_item (bs "c1", bs "f", bs "{}")]).
Proof.
  assert (responses_to_chat sample_response = Ok sample_completion) as E by by vm_compute. split; [exact E|].
  destruct (tool_turn_roundtrip sample_response sample_completion E) as (output & message & Ho & Hm & Hi). exists message. split; [exact Hm|].
  rewrite Hi. vm_compute in Ho. injection Ho as [= <-]. by vm_compute.
Defined.

Definition EFFORTS : list bytes := bs <$> ["none"; "minimal"; "low"; "medium"; "high"; "xhigh"]%string.

Definition sample_ceiling (downgrade : bool) : ReasoningPolicy := {| rp_maximum := Some (bs "low"); rp_downgrade := downgrade |}.


(** A body that names its effort twice passes under a ceiling that rejects, and is lowered in the other place by one that lowers; a null in the first place hides the
    second. *)
Example ceiling_is_bypassed :
  let twice first second := obj [("reasoning", obj [("effort", first)]); ("reasoning_effort", second)] in
  apply (sample_ceiling false) (twice (txt "low") (txt "xhigh")) EFFORTS = Ok (twice (txt "low") (txt "xhigh")) ∧
  apply (sample_ceiling true) (twice (txt "high") (txt "none")) EFFORTS = Ok (twice (txt "high") (txt "low")) ∧
  apply (sample_ceiling false) (twice JNull (txt "xhigh")) EFFORTS = Ok (twice JNull (txt "xhigh")).
Proof. by vm_compute. Qed.

(** Fields of a message that the converter does not know are dropped without a word, the deprecated call of a function among them. *)
Example unknown_field_dropped :
  let message := obj [("role", txt "assistant"); ("content", JNull); ("function_call", obj [("name", txt "f"); ("arguments", txt "{}")])] in
  message_items message = Ok [] ∧
  message_items (obj [("role", txt "assistant"); ("content", JNull); ("refusal", txt "no")]) = Ok [].
Proof. by vm_compute. Qed.
