(* ===== verification/OpenAiUsage.v ===== *)
(** The observation of an OpenAI response: [crates/gateway-services/src/openai/usage.rs]: token totals, the observer of the events of one response, and the
    bounded decoder of an event stream. [serde_json::from_str] is a parameter. *)

From Stdlib Require Import Ascii.
From S2P Require Import Prelude Machine.
From S2P Require Import Bytes.
From S2P Require Import Json.
From S2P Require Import SystemSegments.
From S2P Require Import Usage.
From S2P Require Import OpenAi.
From S2P Require Import OpenAiProofs.
Local Open Scope N_scope.

(** ** Token totals *)
Record OpenAiUsage := {
  au_input : option N;
  au_output : option N;
  au_cached : option N;
  au_reasoning : option N;
}.

#[export] Instance OpenAiUsage_eq_dec : EqDecision OpenAiUsage.
Proof. solve_decision. Defined.

Definition usage_default : OpenAiUsage := {| au_input := None; au_output := None; au_cached := None; au_reasoning := None |}.

(** A subset that is larger than its total. *)
Definition exceeds (total subset : option N) : bool :=
  match total, subset with Some total, Some subset => total <? subset | _, _ => false end.

(** To the mutually exclusive buckets of the cost. *)
Definition cost_counts (self : OpenAiUsage) : TokenCounts :=
  {| tc_input_tokens := (λ total, saturating_sub total (default 0 self.(au_cached))) <$> self.(au_input);
     tc_output_tokens := self.(au_output);
     tc_cache_creation_input_tokens := None;
     tc_cache_read_input_tokens := self.(au_cached) |}.

(** What was observed of one response. *)
Record ResponseObserver := {
  ro_first_content_at : option N;
  ro_usage : OpenAiUsage;
  ro_model : option bytes;
  ro_response_id : option bytes;
  ro_terminal : option bytes;
}.

Definition observer_default : ResponseObserver :=
  {| ro_first_content_at := None; ro_usage := usage_default; ro_model := None; ro_response_id := None; ro_terminal := None |}.

Definition completeness (self : ResponseObserver) : UsageCompleteness :=
  if bool_decide (self.(ro_usage) = usage_default) then Unknown
  else if is_some self.(ro_terminal) && is_some self.(ro_usage).(au_input) && is_some self.(ro_usage).(au_output) then Complete
  else Partial.

Section usage.
Context {Num F : Type} `{SerdeJson Num F}.
Abbreviation Tree := (Value Num).
Implicit Types (value event : Tree).

Definition or_else (first second : option Tree) : option Tree := match first with Some value => Some value | None => second end.

Definition count (value : option Tree) : result OpenAiError (option N) :=
  match not_null value with
  | None => Ok None
  | Some value => match value_as_u64 value with Some n => Ok (Some n) | None => Err Ai_InvalidUsage end
  end.

Definition usage_parse value : result OpenAiError OpenAiUsage :=
  input ← count (or_else (get (bs "input_tokens") value) (get (bs "prompt_tokens") value));
  output ← count (or_else (get (bs "output_tokens") value) (get (bs "completion_tokens") value));
  cached ← count (or_else (pointer (bs "/input_tokens_details/cached_tokens") value) (pointer (bs "/prompt_tokens_details/cached_tokens") value));
  reasoning ← count (or_else (pointer (bs "/output_tokens_details/reasoning_tokens") value) (pointer (bs "/completion_tokens_details/reasoning_tokens") value));
  if exceeds input cached || exceeds output reasoning then Err Ai_InvalidUsage
  else Ok {| au_input := input; au_output := output; au_cached := cached; au_reasoning := reasoning |}.

(** ** The observer *)
Definition CONTENT_EVENTS : list string :=
  ["response.output_text.delta"; "response.reasoning_text.delta"; "response.reasoning_summary_text.delta"; "response.function_call_arguments.delta";
   "response.custom_tool_call_input.delta"; "response.refusal.delta"].

Definition kind_in (names : list string) event : bool := existsb (λ name, type_is name event) names.

Definition nonempty (value : option Tree) : bool := is_some_and (λ s, negb (is_empty s)) (value ≫= as_str).

Definition choice_has_content (choice : Tree) : bool :=
  is_some_and (λ d,
    nonempty (get (bs "content") d) || nonempty (get (bs "refusal") d) || nonempty (get (bs "reasoning_content") d) || nonempty (get (bs "reasoning") d)
    || nonempty (pointer (bs "/function_call/arguments") d)
    || is_some_and (existsb (λ t, nonempty (pointer (bs "/function/arguments") t))) (get (bs "tool_calls") d ≫= as_array))
    (or_else (get (bs "delta") choice) (get (bs "message") choice)).

Definition has_output_content event : bool :=
  (kind_in CONTENT_EVENTS event && nonempty (get (bs "delta") event)) || is_some_and (existsb choice_has_content) (get (bs "choices") event ≫= as_array).

Definition TERMINAL_EVENTS : list string := ["response.completed"; "response.failed"; "response.incomplete"].

Definition with_usage (usage : OpenAiUsage) (self : ResponseObserver) : ResponseObserver :=
  {| ro_first_content_at := self.(ro_first_content_at); ro_usage := usage; ro_model := self.(ro_model); ro_response_id := self.(ro_response_id);
     ro_terminal := self.(ro_terminal) |}.

Definition with_terminal (terminal : option bytes) (self : ResponseObserver) : ResponseObserver :=
  {| ro_first_content_at := self.(ro_first_content_at); ro_usage := self.(ro_usage); ro_model := self.(ro_model); ro_response_id := self.(ro_response_id);
     ro_terminal := terminal |}.

(** A zero in both totals after a snapshot is a placeholder. *)
Definition take_usage (incoming : OpenAiUsage) (self : ResponseObserver) : ResponseObserver :=
  if negb (bool_decide (incoming.(au_input) = Some 0)) || negb (bool_decide (incoming.(au_output) = Some 0)) || bool_decide (self.(ro_usage) = usage_default)
  then with_usage incoming self else self.

(** [now] is the clock, which is read at most once. *)
Definition observe (now : N) event (self : ResponseObserver) : result OpenAiError bool * ResponseObserver :=
  if is_some self.(ro_terminal) then (Ok false, self)
  else
    let response := default event (get (bs "response") event) in
    let self :=
      {| ro_first_content_at := (if negb (is_some self.(ro_first_content_at)) && has_output_content event then Some now else self.(ro_first_content_at));
         ro_usage := self.(ro_usage);
         ro_model := (match get_str "model" response with Some model => Some model | None => self.(ro_model) end);
         ro_response_id := (match get_str "id" response with Some id => Some id | None => self.(ro_response_id) end);
         ro_terminal := self.(ro_terminal) |} in
    match (match not_null (get (bs "usage") response) with
           | None => Ok self
           | Some value => match usage_parse value with Ok incoming => Ok (take_usage incoming self) | Err e => Err e end
           end) with
    | Err e => (Err e, self)
    | Ok self => if kind_in TERMINAL_EVENTS event then (Ok true, with_terminal (get_str "type" event) self) else (Ok false, self)
    end.

(** ** The decoder *)
Record SseDecoder := {
  sd_pending : bytes;
  sd_limit : N;
  sd_done : bool;
}.

Definition decoder_new (limit : N) : SseDecoder := {| sd_pending := []; sd_limit := limit; sd_done := false |}.

Definition ends_with (suffix l : bytes) : bool := starts_with (rev suffix) (rev l).

Definition join_lines (lines : list bytes) : bytes :=
  match lines with [] => [] | line :: lines => line ++ concat ((λ line, LF :: line) <$> lines) end.

(** The data of the lines of an event. *)
Definition data_line (line : bytes) : option bytes := (λ v, default v (strip_prefix (bs " ") v)) <$> strip_prefix (bs "data:") line.

Definition event_data (text : bytes) : bytes := join_lines (omap data_line (lines text)).

Context (from_str : bytes → option Tree).

(** A block that is complete: its event, if it has one. *)
Definition take_event (self : SseDecoder) : result OpenAiError (option Tree) * SseDecoder :=
  if negb (utf8_valid self.(sd_pending)) then (Err Ai_InvalidRequest, self)
  else
    let data := event_data self.(sd_pending) in
    let cleared done := {| sd_pending := []; sd_limit := self.(sd_limit); sd_done := done |} in
    if bool_decide (trim data = bs "[DONE]") then (Ok None, cleared true)
    else if is_empty data then (Ok None, cleared self.(sd_done))
    else match from_str data with Some event => (Ok (Some event), cleared self.(sd_done)) | None => (Err Ai_InvalidRequest, self) end.

Definition push_byte (byte : ascii) (self : SseDecoder) : result OpenAiError (option Tree) * SseDecoder :=
  if self.(sd_limit) <=? N.of_nat (length self.(sd_pending)) then (Err Ai_EventTooLarge, self)
  else
    let self := {| sd_pending := self.(sd_pending) ++ [byte]; sd_limit := self.(sd_limit); sd_done := self.(sd_done) |} in
    if ends_with [LF; LF] self.(sd_pending) || ends_with (CRLF ++ CRLF) self.(sd_pending) then take_event self else (Ok None, self).

Fixpoint push (l : bytes) (self : SseDecoder) : result OpenAiError (list Tree) * SseDecoder :=
  match l with
  | [] => (Ok [], self)
  | byte :: l =>
      match push_byte byte self with
      | (Err e, self) => (Err e, self)
      | (Ok event, self) =>
          match push l self with
          | (Err e, self) => (Err e, self)
          | (Ok events, self) => (Ok (option_list event ++ events), self)
          end
      end
  end.

Definition has_partial_event (self : SseDecoder) : bool := negb (is_empty self.(sd_pending)).

Definition is_done (self : SseDecoder) : bool := self.(sd_done).
End usage.

(** ** Lemmas *)
Section decoder_proofs.
Context {Num : Type} (from_str : bytes → option (Value Num)).

Lemma push_app_Ok a b self events self' : push from_str a self = (Ok events, self') →
  push from_str (a ++ b) self = (match push from_str b self' with (Ok more, s) => (Ok (events ++ more), s) | (Err e, s) => (Err e, s) end).
Proof.
  revert self events. induction a as [|byte a IH]; cbn [app push]; intros self events.
  - intros [= <- <-]. by destruct (push from_str b self) as [[]].
  - destruct (push_byte from_str byte self) as [[event|] s]; [|done]. destruct (push from_str a s) as [[events'|] s'] eqn:E; [|done].
    intros [= <- <-]. rewrite (IH _ _ E). destruct (push from_str b s') as [[more|] s'']; [|done]. by rewrite app_assoc.
Qed.

Lemma push_app_Err a b self e self' : push from_str a self = (Err e, self') → push from_str (a ++ b) self = (Err e, self').
Proof.
  revert self. induction a as [|byte a IH]; cbn [app push]; intros self; [done|].
  destruct (push_byte from_str byte self) as [[event|] s]; [|done]. destruct (push from_str a s) as [[events'|] s'] eqn:E; [done|].
  intros [= -> ->]. by rewrite (IH _ E).
Qed.

(** What is kept never exceeds the limit. *)
Lemma take_event_pending self : (length (take_event from_str self).2.(sd_pending) <= length self.(sd_pending))%nat ∧ (take_event from_str self).2.(sd_limit) = self.(sd_limit).
Proof.
  unfold take_event. destruct (negb _); [done|]. destruct (bool_decide _); [cbn; split; [lia|done]|]. destruct (is_empty _); [cbn; split; [lia|done]|].
  destruct (from_str _); cbn; split; (lia || done).
Qed.

Lemma push_bounded l self : N.of_nat (length self.(sd_pending)) <= self.(sd_limit) →
  N.of_nat (length (push from_str l self).2.(sd_pending)) <= (push from_str l self).2.(sd_limit) ∧ (push from_str l self).2.(sd_limit) = self.(sd_limit).
Proof.
  revert self. induction l as [|byte l IH]; intros self Hs; cbn [push]; [done|].
  assert (N.of_nat (length (push_byte from_str byte self).2.(sd_pending)) <= self.(sd_limit) ∧ (push_byte from_str byte self).2.(sd_limit) = self.(sd_limit)) as [Hb Hlim].
  { unfold push_byte. destruct (N.leb_spec self.(sd_limit) (N.of_nat (length self.(sd_pending)))) as [|Hlt]; [done|]. cbv zeta. set (self' := Build_SseDecoder _ _ _).
    assert (N.of_nat (length self'.(sd_pending)) <= self.(sd_limit)) as Hl by (cbn; rewrite length_app; cbn; lia).
    destruct (_ || _); [|done]. pose proof (take_event_pending self') as [H1 H2]. rewrite H2. split; [lia|done]. }
  destruct (push_byte from_str byte self) as [[event|] s]; cbn [snd] in *; [|by rewrite Hlim].
  destruct (IH s) as [H1 H2]; [by rewrite Hlim|]. destruct (push from_str l s) as [[events|] s']; cbn [snd] in *; by rewrite H2, Hlim in *.
Qed.
End decoder_proofs.

(** UTF-8 is valid piece by piece. *)
Lemma utf8_valid_app a b : utf8_valid a = true → utf8_valid (a ++ b) = utf8_valid b.
Proof.
  remember (length a) as n eqn:En. revert a En. induction (lt_wf n) as [n _ IH]. intros a ->. destruct a as [|x1 a]; [done|].
  cbn [utf8_valid app]. destruct (byte x1 <? 128); [intros Ha; apply (IH (length a)); [cbn; lia|done|done]|].
  destruct a as [|x2 a]; [done|]. cbn [app]. destruct (in_range 194 223 (byte x1)).
  { intros [-> Ha]%andb_true_iff. cbn [andb]. apply (IH (length a)); [cbn; lia|done|done]. }
  destruct a as [|x3 a]; [done|]. cbn [app]. destruct (in_range 224 239 (byte x1)).
  { intros [-> Ha]%andb_true_iff. cbn [andb]. apply (IH (length a)); [cbn; lia|done|done]. }
  destruct a as [|x4 a]; [done|]. cbn [app].
  intros [-> Ha]%andb_true_iff. cbn [andb]. apply (IH (length a)); [cbn; lia|done|done].
Qed.

(** ** Encoded events *)
Definition encode_event (text : bytes) : bytes := bs "data: " ++ text ++ [LF; LF].

(** A text that may be the data of one line. *)
Record event_text (limit : N) (text : bytes) : Prop := {
  et_no_lf : LF ∉ text;
  et_no_cr : last text ≠ Some CR;
  et_not_empty : text ≠ [];
  et_not_done : trim text ≠ bs "[DONE]";
  et_utf8 : utf8_valid text = true;
  et_short : N.of_nat (length text + 8) <= limit;
}.

Lemma ends_with_spec suffix l : ends_with suffix l = true ↔ ∃ before, l = before ++ suffix.
Proof.
  unfold ends_with. rewrite starts_with_spec. split.
  - intros [r E]. exists (rev r). by rewrite <- (rev_involutive l), E, rev_app_distr, rev_involutive.
  - intros [before ->]. exists (rev before). apply rev_app_distr.
Qed.

(** A block ends in a line feed after another one. *)
Lemma no_block before byte : (LF ∉ before) → ends_with [LF; LF] (before ++ [byte]) || ends_with (CRLF ++ CRLF) (before ++ [byte]) = false.
Proof.
  intros Hn. apply orb_false_iff. split; apply not_true_iff_false; intros [pre E]%ends_with_spec.
  - change [LF; LF] with ([LF] ++ [LF]) in E. rewrite app_assoc in E. apply app_inj_tail in E as [-> _]. apply Hn. apply elem_of_app. right. left.
  - change (CRLF ++ CRLF) with ([CR; LF; CR] ++ [LF]) in E. rewrite app_assoc in E. apply app_inj_tail in E as [-> _]. apply Hn. apply elem_of_app. right. right. left.
Qed.

Section encoded.
Context {Num : Type} (from_str : bytes → option (Value Num)).

Lemma push_plain l pending limit done : (LF ∉ pending ++ l) → N.of_nat (length pending + length l) <= limit →
  push from_str l {| sd_pending := pending; sd_limit := limit; sd_done := done |} =
    (Ok [], {| sd_pending := pending ++ l; sd_limit := limit; sd_done := done |}).
Proof.
  revert pending. induction l as [|byte l IH]; intros pending Hn Hl; cbn [push]; [by rewrite app_nil_r|].
  assert (LF ∉ pending) as Hp by (intros Hin; apply Hn, elem_of_app; by left).
  unfold push_byte. cbn [sd_pending sd_limit sd_done]. cbn [length] in Hl. rewrite (proj2 (N.leb_gt _ _)) by lia. rewrite no_block by done.
  rewrite IH; [by rewrite <- app_assoc| |rewrite length_app; cbn; lia]. by rewrite <- app_assoc.
Qed.

Lemma split_inclusive_two body : (LF ∉ body) → split_inclusive LF (body ++ [LF; LF]) = [body ++ [LF]; [LF]].
Proof.
  induction body as [|c body IH]; [done|]. rewrite not_elem_of_cons. intros [Hc Hn]. cbn [app split_inclusive]. rewrite bool_decide_false by congruence.
  by rewrite IH.
Qed.

(** The ending of a line, as [lines] takes it off. *)
Lemma line_of_data l : last l ≠ Some CR →
  match rev (l ++ [LF]) with "010"%char :: "013"%char :: line => rev line | "010"%char :: line => rev line | _ => l ++ [LF] end = l.
Proof.
  intros Hl. rewrite rev_app_distr. destruct l as [|x l _] using rev_ind; [done|]. rewrite last_snoc in Hl. rewrite rev_app_distr. cbn [rev app LF].
  assert (x ≠ "013"%char) as Hx by (intros ->; by apply Hl). rewrite <- (rev_involutive l). destruct x as [b1 b2 b3 b4 b5 b6 b7 b8]. rewrite rev_involutive at 2.
  destruct b1, b2, b3, b4, b5, b6, b7, b8; (done || (cbn; by rewrite rev_involutive)).
Qed.

Lemma encoded_data limit text : event_text limit text → event_data (encode_event text) = text.
Proof.
  intros [Hn Hcr Hne _ _ _]. unfold event_data, lines, encode_event. rewrite (app_assoc (bs "data: ")), split_inclusive_two.
  - cbn [fmap list_fmap]. rewrite line_of_data.
    + change (omap data_line _) with (match data_line (bs "data: " ++ text) with Some data => [data] | None => [] end). unfold data_line at 1.
      change (bs "data: " ++ text) with (bs "data:" ++ bs " " ++ text). rewrite (proj2 (strip_prefix_Some _ _ _) eq_refl). cbn [fmap option_fmap option_map].
      rewrite (proj2 (strip_prefix_Some _ _ _) eq_refl). cbn [default from_option id]. cbn. apply app_nil_r.
    + destruct text as [|text x _] using rev_ind; [done|]. rewrite app_assoc. by rewrite last_snoc in *.
  - apply not_elem_of_app. split; [by_decide|done].
Qed.

Lemma push_encoded limit done text value : event_text limit text → from_str text = Some value →
  push from_str (encode_event text) {| sd_pending := []; sd_limit := limit; sd_done := done |} =
    (Ok [value], {| sd_pending := []; sd_limit := limit; sd_done := done |}).
Proof.
  intros Ht Hv. pose proof (encoded_data limit text Ht) as Hdata. destruct Ht as [Hn Hcr Hne Hd Hu Hs].
  assert (LF ∉ bs "data: " ++ text) as Hnl by (apply not_elem_of_app; split; [by_decide|done]).
  unfold encode_event. rewrite app_assoc. erewrite push_app_Ok; [|apply (push_plain _ []); [done|rewrite length_app; cbn; lia]].
  cbn [app push]. unfold push_byte at 1. cbn [sd_pending sd_limit sd_done]. rewrite (proj2 (N.leb_gt _ _)) by (rewrite length_app; cbn; lia).
  rewrite no_block by done. unfold push_byte. cbn [sd_pending sd_limit sd_done]. rewrite (proj2 (N.leb_gt _ _)) by (rewrite !length_app; cbn; lia).
  rewrite <- app_assoc. cbn [app].
  assert (ends_with [LF; LF] ((bs "data: " ++ text) ++ [LF; LF]) = true) as Hend by (apply ends_with_spec; by eexists).
  rewrite Hend. cbn [orb]. unfold take_event. cbn [sd_pending].
  rewrite <- app_assoc. change (bs "data: " ++ text ++ [LF; LF]) with (encode_event text). rewrite Hdata.
  assert (utf8_valid (encode_event text) = true) as ->.
  { unfold encode_event. rewrite utf8_valid_app by by_decide. by rewrite utf8_valid_app. }
  cbn [negb]. rewrite bool_decide_false by done. destruct text; [done|]. cbn [is_empty]. by rewrite Hv.
Qed.
End encoded.

(** ** Runs *)
Section runs.
Context {Num F : Type} `{SerdeJson Num F} (from_str : bytes → option (Value Num)).

(** The chunks of a response, up to the first failure. *)
Fixpoint push_chunks (chunks : list bytes) (self : SseDecoder) : result OpenAiError (list (Value Num)) * SseDecoder :=
  match chunks with
  | [] => (Ok [], self)
  | chunk :: chunks =>
      match push from_str chunk self with
      | (Err e, self) => (Err e, self)
      | (Ok events, self) =>
          match push_chunks chunks self with (Err e, self) => (Err e, self) | (Ok more, self) => (Ok (events ++ more), self) end
      end
  end.

Lemma push_chunks_concat chunks self : push_chunks chunks self = push from_str (concat chunks) self.
Proof.
  revert self. induction chunks as [|chunk chunks IH]; intros self; [done|]. cbn [push_chunks concat].
  destruct (push from_str chunk self) as [[events|e] s] eqn:E; [by rewrite (push_app_Ok _ _ _ _ _ _ E), IH|by rewrite (push_app_Err _ _ _ _ _ _ E)].
Qed.

(** The events of a response, each at its instant. *)
Fixpoint observe_all (events : list (N * Value Num)) (self : ResponseObserver) : list (result OpenAiError bool) * ResponseObserver :=
  match events with
  | [] => ([], self)
  | (now, event) :: events =>
      let '(r, self) := observe now event self in
      let '(rs, self) := observe_all events self in
      (r :: rs, self)
  end.

Lemma observe_terminal now event self r self' : observe now event self = (r, self') →
  (is_some self.(ro_terminal) = true → r = Ok false ∧ self' = self) ∧
  (is_some self.(ro_terminal) = false → (is_some self'.(ro_terminal) = true ↔ r = Ok true)).
Proof.
  unfold observe. destruct (is_some self.(ro_terminal)) eqn:Et; [intros [= <- <-]; by split|]. intros E. split; [done|]. intros _.
  assert (∀ incoming s, ro_terminal (take_usage incoming s) = ro_terminal s) as Htake by (intros incoming s; unfold take_usage; by destruct (_ || _)).
  assert (kind_in TERMINAL_EVENTS event = true → is_some (get_str "type" event) = true) as Hkind.
  { unfold kind_in, type_is. intros (name & _ & Hn%bool_decide_eq_true)%existsb_exists. by rewrite Hn. }
  destruct (not_null _) as [value|]; [destruct (usage_parse value) as [incoming|e]|].
  - destruct (kind_in TERMINAL_EVENTS event); injection E as [= <- <-]; [split; [done|by intros _; apply Hkind]|].
    rewrite Htake. cbn [ro_terminal]. by rewrite Et.
  - injection E as [= <- <-]. cbn [ro_terminal]. by rewrite Et.
  - destruct (kind_in TERMINAL_EVENTS event); injection E as [= <- <-]; [split; [done|by intros _; apply Hkind]|].
    cbn [ro_terminal]. by rewrite Et.
Qed.

(** After the terminal event nothing is observed. *)
Lemma observe_all_frozen events self : is_some self.(ro_terminal) = true → (observe_all events self).2 = self.
Proof.
  intros Ht. induction events as [|[now event] events IH]; [done|]. cbn [observe_all]. destruct (observe now event self) as [r s] eqn:E.
  apply observe_terminal in E as [Hf _]. destruct (Hf Ht) as [_ ->]. by destruct (observe_all events self).
Qed.

Lemma observe_all_once events self :
  length (filter (λ r, r = Ok true) (observe_all events self).1) =
    (if is_some (observe_all events self).2.(ro_terminal) && negb (is_some self.(ro_terminal)) then 1 else 0)%nat.
Proof.
  revert self. induction events as [|[now event] events IH]; intros self; cbn [observe_all]; [cbn; by destruct (is_some _)|].
  destruct (observe now event self) as [r s] eqn:E. specialize (IH s). destruct (observe_all events s) as [rs s'] eqn:Ea. cbn [fst snd] in *.
  apply observe_terminal in E as [Ht Hf]. rewrite filter_cons. destruct (is_some self.(ro_terminal)) eqn:Es.
  - destruct Ht as [-> ->]; [done|]. rewrite decide_False by done. rewrite IH, Es. by rewrite !andb_false_r.
  - specialize (Hf eq_refl). destruct (is_some s.(ro_terminal)) eqn:Et.
    + rewrite decide_True by by apply Hf. cbn [length]. rewrite IH. rewrite andb_false_r, andb_true_r.
      apply (f_equal snd) in Ea. rewrite observe_all_frozen in Ea by done. cbn in Ea. by rewrite <- Ea, Et.
    + rewrite decide_False by (intros Hr; by apply Hf in Hr). rewrite IH. done.
Qed.
End runs.

(** ** Properties *)

(** the decoder of an event stream does not depend on how the network cuts the stream: fed chunk after chunk, up to the first failure, it answers and is left as if
    it had been fed all at once; and it never keeps more than its limit. *)
Theorem sse_chunks_irrelevant {Num} (from_str : bytes → option (Value Num)) chunks limit :
  push_chunks from_str chunks (decoder_new limit) = push from_str (concat chunks) (decoder_new limit) ∧
  N.of_nat (length (push_chunks from_str chunks (decoder_new limit)).2.(sd_pending)) <= limit.
Proof.
  rewrite push_chunks_concat. split; [done|]. pose proof (push_bounded from_str (concat chunks) (decoder_new limit) (N.le_0_l _)) as [Hb Hl]. by rewrite Hl in Hb.
Qed.

(** C31: events that are encoded as lines of data are decoded to their values, however the stream is cut: each once, in order, with nothing left over. *)
Theorem sse_events_roundtrip {Num} (from_str : bytes → option (Value Num)) limit texts values chunks :
  Forall2 (λ text value, event_text limit text ∧ from_str text = Some value) texts values → concat chunks = concat (encode_event <$> texts) →
  push_chunks from_str chunks (decoder_new limit) = (Ok values, decoder_new limit).
Proof.
  intros Hall Hc. rewrite push_chunks_concat, Hc. clear Hc chunks. induction Hall as [|text value texts values [Ht Hv] _ IH]; [done|].
  cbn [fmap list_fmap concat]. unfold decoder_new in *. erewrite push_app_Ok; [|by apply push_encoded]. by rewrite IH.
Qed.

(** no token of a response is charged twice: what the cost counts as input and as cached input adds up to the input that was reported, the reasoning tokens are part of the
    output and are not counted again, and a report in which a part exceeds its whole is refused. *)
Theorem tokens_charged_once {Num F} `{SerdeJson Num F} value usage : usage_parse value = Ok usage →
  let cost := cost_counts usage in
  (∀ input cached, usage.(au_input) = Some input → usage.(au_cached) = Some cached →
    ∃ uncached, cost.(tc_input_tokens) = Some uncached ∧ cost.(tc_cache_read_input_tokens) = Some cached ∧ uncached + cached = input) ∧
  (∀ input, usage.(au_input) = Some input → usage.(au_cached) = None → cost.(tc_input_tokens) = Some input ∧ cost.(tc_cache_read_input_tokens) = None) ∧
  (∀ output reasoning, usage.(au_output) = Some output → usage.(au_reasoning) = Some reasoning → cost.(tc_output_tokens) = Some output ∧ reasoning <= output).
Proof.
  unfold usage_parse. intros (input & _ & (output & _ & (cached & _ & (reasoning & _ & Hu)%bind_Ok)%bind_Ok)%bind_Ok)%bind_Ok.
  destruct (exceeds input cached || exceeds output reasoning) eqn:E; [done|]. apply orb_false_iff in E as [E1 E2]. injection Hu as [= <-]. unfold cost_counts. cbn.
  split_and!.
  - intros i c -> ->. cbn in *. apply N.ltb_ge in E1. eexists. split_and!; [done|done|]. unfold saturating_sub. lia.
  - intros i -> ->. cbn. split; [|done]. unfold saturating_sub. by rewrite N.sub_0_r.
  - intros o r -> ->. cbn in E2. by apply N.ltb_ge in E2.
Qed.

(** a response ends once: over any events the observer announces its end at most once, exactly when it has recorded a terminal event, and what comes after it changes nothing. *)
Theorem response_ends_once {Num F} `{SerdeJson Num F} (events more : list (N * Value Num)) :
  let '(answers, observer) := observe_all events observer_default in
  length (filter (λ r, r = Ok true) answers) = (if is_some observer.(ro_terminal) then 1 else 0)%nat ∧
  (is_some observer.(ro_terminal) = true → (observe_all more observer).2 = observer).
Proof.
  pose proof (observe_all_once events observer_default) as Hn. destruct (observe_all events observer_default) as [answers observer]. cbn [fst snd] in Hn.
  cbn in Hn. rewrite andb_true_r in Hn. split; [exact Hn|]. apply observe_all_frozen.
Qed.

(** ** Samples *)
#[local] Instance usage_serde : SerdeJson Z Z := sample_serde [] (λ _, None).

Definition sample_from_str (l : bytes) : option (Value Z) := if bool_decide (l = bs "7") then Some (JNumber 7%Z) else None.

Lemma sse_events_roundtrip_witness :
  event_text 16 (bs "7") ∧
  push_chunks sample_from_str [bs "da"; bs "ta: 7"; [LF]; LF :: encode_event (bs "7")] (decoder_new 16) = (Ok [JNumber 7%Z; JNumber 7%Z], decoder_new 16).
Proof.
  assert (event_text 16 (bs "7")) as Ht. { split; [by_decide|done|done|by vm_compute|done|cbn; lia]. }
  split; [exact Ht|]. apply (sse_events_roundtrip sample_from_str 16 [bs "7"; bs "7"]); [|done]. repeat constructor; (apply Ht || by vm_compute).
Defined.

Definition sample_usage : Value Z :=
  JObject [(bs "input_tokens", JNumber 100%Z); (bs "output_tokens", JNumber 40%Z);
           (bs "input_tokens_details", JObject [(bs "cached_tokens", JNumber 60%Z)]); (bs "output_tokens_details", JObject [(bs "reasoning_tokens", JNumber 30%Z)])].

Lemma tokens_charged_once_witness :
  let usage := {| au_input := Some 100; au_output := Some 40; au_cached := Some 60; au_reasoning := Some 30 |} in
  usage_parse sample_usage = Ok usage ∧
  ∃ uncached, (cost_counts usage).(tc_input_tokens) = Some uncached ∧ (cost_counts usage).(tc_cache_read_input_tokens) = Some 60 ∧ uncached + 60 = 100.
Proof.
  intros usage. assert (usage_parse sample_usage = Ok usage) as E by by vm_compute. split; [exact E|].
  by apply (tokens_charged_once sample_usage usage E).
Defined.
