(* ===== verification/OpenAiSessions.v ===== *)
(** Identities, continuations, turns and credentials of OpenAI: gateway-services [openai/session.rs], [openai/websocket.rs] and [openai/account.rs].
    HMAC-SHA256, base64, the text of a UUID and serde_json are parameters. *)

From Stdlib Require Import Ascii.
From S2P Require Import Prelude Machine.
From S2P Require Import Bytes.
From S2P Require Import Json.
From S2P Require Import SystemSegments.
From S2P Require Import Dispatch.
From S2P Require Import OpenAi.
Local Open Scope N_scope.

(** ** Identities *)
Section identities.
Context (hmac_sha256 : bytes → bytes → bytes) {Uuid : Type} (from_bytes : bytes → Uuid) (uuid_to_string : Uuid → bytes) (base64_url : bytes → bytes).

(** A field after its length. *)
Definition delimited (part : bytes) : bytes := to_be_bytes 8 (N.of_nat (length part)) ++ part.

Definition identity_message (domain : bytes) (parts : list bytes) : bytes := domain ++ concat (delimited <$> parts).

Definition isolate_uuid (key domain : bytes) (parts : list bytes) : result OpenAiError Uuid :=
  if (length key <? 32)%nat then Err Ai_InvalidCredential
  else Ok (from_bytes (stamp 64 (take 16 (hmac_sha256 key (identity_message domain parts))))).

Definition isolate_session (key platform_key account session : bytes) : result OpenAiError bytes :=
  if (length key <? 32)%nat then Err Ai_InvalidCredential
  else Ok (base64_url (hmac_sha256 key (identity_message (bs "openai-session-v1") [platform_key; account; session]))).

Definition derive_installation_id (key account : bytes) : result OpenAiError bytes :=
  id ← isolate_uuid key (bs "openai-installation-v1") [account]; Ok (uuid_to_string id).

Definition derive_thread_id (key platform_key account session : bytes) : result OpenAiError bytes :=
  id ← isolate_uuid key (bs "openai-thread-v1") [platform_key; account; session]; Ok (uuid_to_string id).

Definition derive_window_id (thread_id : bytes) : bytes := thread_id ++ bs ":0".
End identities.

(** ** Continuations *)
Record ContinuationIndex := {
  ci_entries : gmap (bytes * bytes) (bytes * Duration);
  ci_capacity : nat;
  ci_ttl : Duration;
}.

Definition index_new (capacity : nat) (ttl : Duration) : ContinuationIndex := {| ci_entries := ∅; ci_capacity := capacity; ci_ttl := ttl |}.

Definition with_entries (entries : gmap (bytes * bytes) (bytes * Duration)) (self : ContinuationIndex) : ContinuationIndex :=
  {| ci_entries := entries; ci_capacity := self.(ci_capacity); ci_ttl := self.(ci_ttl) |}.

Definition bind (key response credential : bytes) (now : Duration) (self : ContinuationIndex) : result OpenAiError unit * ContinuationIndex :=
  let entries := filter (λ entry, now < entry.2.2) self.(ci_entries) in
  let bound := (Ok tt, with_entries (<[(key, response) := (credential, dur_add now self.(ci_ttl))]> entries) self) in
  match entries !! (key, response) with
  | Some (existing, _) => if bool_decide (existing = credential) then bound else (Err Ai_IdentityConflict, with_entries entries self)
  | None => if (self.(ci_capacity) <=? size entries)%nat then (Err Ai_ContinuationUnavailable, with_entries entries self) else bound
  end.

Definition resolve (key response : bytes) (now : Duration) (self : ContinuationIndex) : result OpenAiError bytes :=
  match self.(ci_entries) !! (key, response) with
  | Some (credential, expiry) => if now <? expiry then Ok credential else Err Ai_ContinuationUnavailable
  | None => Err Ai_ContinuationUnavailable
  end.

(** ** The turns of a connection *)
Record Turn := {
  tn_id : N;
  tn_committed : bool;
}.

Record WebSocketSession := {
  ws_account : option bytes;
  ws_turn : option Turn;
  ws_next_turn : N;
}.

Definition socket_default : WebSocketSession := {| ws_account := None; ws_turn := None; ws_next_turn := 0 |}.

Definition with_turn (turn : option Turn) (self : WebSocketSession) : WebSocketSession :=
  {| ws_account := self.(ws_account); ws_turn := turn; ws_next_turn := self.(ws_next_turn) |}.

Definition begin (account : bytes) (self : WebSocketSession) : result OpenAiError N * WebSocketSession :=
  if is_some self.(ws_turn) || is_empty account then (Err Ai_InvalidRequest, self)
  else if is_some_and (λ bound, negb (bool_decide (bound = account))) self.(ws_account) then (Err Ai_ContinuationUnavailable, self)
  else match checked_add U64_MAX self.(ws_next_turn) 1 with
       | None => (Err Ai_InvalidRequest, self)
       | Some id => (Ok id, {| ws_account := Some account; ws_turn := Some {| tn_id := id; tn_committed := false |}; ws_next_turn := id |})
       end.

(** The turn with this number, if it is the active one. *)
Definition active (id : N) (self : WebSocketSession) : bool := is_some_and (λ turn, turn.(tn_id) =? id) self.(ws_turn).

Definition commit (id : N) (self : WebSocketSession) : result OpenAiError unit * WebSocketSession :=
  if active id self then (Ok tt, with_turn ((λ turn, {| tn_id := turn.(tn_id); tn_committed := true |}) <$> self.(ws_turn)) self)
  else (Err Ai_InvalidRequest, self).

Definition replay_allowed (id : N) (self : WebSocketSession) : bool := is_some_and (λ turn, (turn.(tn_id) =? id) && negb turn.(tn_committed)) self.(ws_turn).

Definition finish (id : N) (self : WebSocketSession) : bool * WebSocketSession :=
  if active id self then (true, with_turn None self) else (false, self).

Definition idle (self : WebSocketSession) : bool := negb (is_some self.(ws_turn)).

(** ** Credentials *)
Record OAuthMaterial := {
  om_access_token : bytes;
  om_refresh_token : option bytes;
  om_id_token : option bytes;
  om_account_id : bytes;
  om_user_id : option bytes;
  om_expires_at : option N;
}.

(** [char::is_control] on the characters of a text. *)
Fixpoint has_control (l : bytes) : bool :=
  match l with
  | [] => false
  | c :: l =>
      in_range 0 31 (byte c) || (byte c =? 127)
      || ((byte c =? 194) && match l with d :: _ => in_range 128 159 (byte d) | [] => false end)
      || has_control l
  end.

Section credentials.
Context {Num F : Type} `{SerdeJson Num F}.
Abbreviation Tree := (Value Num).
Implicit Types (value claims response : Tree).

Definition nonempty_str value (field : string) : option bytes :=
  match get (bs field) value ≫= as_str with Some s => if is_empty (trim s) then None else Some s | None => None end.

Definition account_claim claims : option bytes := pointer (bs "/https:~1~1api.openai.com~1auth/chatgpt_account_id") claims ≫= as_str.

Definition user_claim claims : option bytes := pointer (bs "/https:~1~1api.openai.com~1auth/chatgpt_user_id") claims ≫= as_str.

Definition expiry_claim claims : option N := get (bs "exp") claims ≫= value_as_u64.

(** The two fields of an import document. *)
Record ImportDocument := {
  id_tokens : option Tree;
  id_fields : list (bytes * Tree);
}.

Context (document_from_slice : bytes → option ImportDocument) (from_slice : bytes → option Tree) (base64_url_decode : bytes → option bytes).

Definition decode_claims (token : bytes) : option Tree :=
  '(_, rest) ← split_once "."%char token;
  let payload := split_first "."%char rest in
  if (64 * 1024 <? N.of_nat (length payload)) then None
  else claims ← base64_url_decode (trim_end_matches (λ c, bool_decide (c = "="%char)) payload); from_slice claims.

(** The account that a token names. *)
Definition token_account (token : bytes) : option bytes := decode_claims token ≫= account_claim.

Definition option_or {A} (first second : option A) : option A := match first with Some a => Some a | None => second end.

(** Two identities that are both present and differ. *)
Definition conflict (a b : option bytes) : bool :=
  match a, b with Some a, Some b => negb (bool_decide (a = b)) | _, _ => false end.

Definition import (bytes_in : bytes) : result OpenAiError OAuthMaterial :=
  if (1024 * 1024 <? N.of_nat (length bytes_in)) then Err Ai_InvalidCredential
  else
    document ← ok_or Ai_InvalidCredential (document_from_slice bytes_in);
    let value := default (JObject document.(id_fields)) document.(id_tokens) in
    access ← ok_or Ai_InvalidCredential (nonempty_str value "access_token");
    let claims := decode_claims access in
    let id_claims := nonempty_str value "id_token" ≫= decode_claims in
    if conflict (claims ≫= account_claim) (id_claims ≫= account_claim) then Err Ai_IdentityConflict
    else
      let claim_identity := option_or (claims ≫= account_claim) (id_claims ≫= account_claim) in
      let explicit := option_or (nonempty_str value "account_id") (nonempty_str value "chatgpt_account_id") in
      if conflict explicit claim_identity then Err Ai_IdentityConflict
      else
        account_id ← ok_or Ai_InvalidCredential (option_or explicit claim_identity);
        if (256 <? N.of_nat (length account_id)) || has_control account_id then Err Ai_InvalidCredential
        else Ok {| om_access_token := access; om_refresh_token := nonempty_str value "refresh_token"; om_id_token := nonempty_str value "id_token";
                   om_account_id := account_id; om_user_id := claims ≫= user_claim; om_expires_at := claims ≫= expiry_claim |}.

Definition refreshable (self : OAuthMaterial) : bool := is_some_and (λ token, negb (is_empty token)) self.(om_refresh_token).

Definition rotate response (verified_account_id : bytes) (self : OAuthMaterial) : result OpenAiError unit * OAuthMaterial :=
  if negb (bool_decide (verified_account_id = self.(om_account_id))) then (Err Ai_IdentityConflict, self)
  else match nonempty_str response "access_token" with
       | None => (Err Ai_InvalidCredential, self)
       | Some access =>
           let claims := decode_claims access in
           if conflict (nonempty_str response "id_token" ≫= token_account) (Some self.(om_account_id)) then (Err Ai_IdentityConflict, self)
           else if conflict (claims ≫= account_claim) (Some self.(om_account_id)) then (Err Ai_IdentityConflict, self)
           else
             (Ok tt, {| om_access_token := access;
                        om_refresh_token := option_or (nonempty_str response "refresh_token") self.(om_refresh_token);
                        om_id_token := option_or (nonempty_str response "id_token") self.(om_id_token);
                        om_account_id := self.(om_account_id); om_user_id := self.(om_user_id); om_expires_at := claims ≫= expiry_claim |})
       end.
End credentials.

(** ** Lemmas *)
Lemma to_be_bytes_length width n : length (to_be_bytes width n) = width.
Proof. revert n. induction width as [|width IH]; intros n; [done|]. cbn [to_be_bytes]. rewrite length_app, IH. cbn. lia. Qed.

Lemma to_be_bytes_inj width a b : a < 256 ^ N.of_nat width → b < 256 ^ N.of_nat width → to_be_bytes width a = to_be_bytes width b → a = b.
Proof.
  revert a b. induction width as [|width IH]; intros a b Ha Hb; [cbn in *; lia|]. cbn [to_be_bytes]. intros [Hq Hr]%app_inj_tail.
  rewrite Nat2N.inj_succ, N.pow_succ_r' in Ha, Hb. apply IH in Hq; [|apply N.Div0.div_lt_upper_bound; lia..].
  apply (f_equal N_of_ascii) in Hr. rewrite !N_ascii_embedding in Hr by (by apply N.mod_lt).
  rewrite (N.div_mod a 256), (N.div_mod b 256) by done. by rewrite Hq, Hr.
Qed.

(** A field that fits in memory. *)
Definition fits (part : bytes) : Prop := N.of_nat (length part) < 2 ^ 64.

Lemma delimited_inj p q rest rest' : fits p → fits q → delimited p ++ rest = delimited q ++ rest' → p = q ∧ rest = rest'.
Proof.
  intros Hp Hq. unfold delimited. rewrite <- !app_assoc. intros [Hn Hr]%app_inj_1; [|by rewrite !to_be_bytes_length].
  apply to_be_bytes_inj in Hn; [|exact Hp|exact Hq]. apply Nat2N.inj in Hn. by apply app_inj_1 in Hr.
Qed.

Lemma identity_message_inj domain parts parts' : Forall fits parts → Forall fits parts' →
  identity_message domain parts = identity_message domain parts' → parts = parts'.
Proof.
  intros Hp Hq E%(app_inv_head domain). revert parts' Hq E. induction Hp as [|p parts Hp _ IH]; intros parts' Hq E; destruct Hq as [|q parts' Hq Hq'].
  - done.
  - apply (f_equal length) in E. cbn [fmap list_fmap concat] in E. unfold delimited in E. rewrite !length_app, to_be_bytes_length in E. cbn in E. lia.
  - apply (f_equal length) in E. cbn [fmap list_fmap concat] in E. unfold delimited in E. rewrite !length_app, to_be_bytes_length in E. cbn in E. lia.
  - cbn [fmap list_fmap concat] in E. apply delimited_inj in E as [-> E]; [|done|done]. f_equal. by apply IH.
Qed.

Lemma isolate_uuid_Ok (hmac : bytes → bytes → bytes) {Uuid} (from_bytes : bytes → Uuid) key domain parts id :
  isolate_uuid hmac from_bytes key domain parts = Ok id → id = from_bytes (stamp 64 (take 16 (hmac key (identity_message domain parts)))).
Proof. unfold isolate_uuid. destruct (_ <? _)%nat; [done|]. by intros [= <-]. Qed.

(** What an identity is derived from. *)
Inductive Origin := Origin_installation (account : bytes) | Origin_thread (platform_key account session : bytes).

Definition derive (hmac : bytes → bytes → bytes) {Uuid} (from_bytes : bytes → Uuid) (to_text : Uuid → bytes) (key : bytes) (o : Origin) : result OpenAiError bytes :=
  match o with
  | Origin_installation account => derive_installation_id hmac from_bytes to_text key account
  | Origin_thread platform_key account session => derive_thread_id hmac from_bytes to_text key platform_key account session
  end.

Definition origin_parts (o : Origin) : list bytes :=
  match o with Origin_installation account => [account] | Origin_thread platform_key account session => [platform_key; account; session] end.

Definition origin_message (o : Origin) : bytes :=
  identity_message (match o with Origin_installation _ => bs "openai-installation-v1" | Origin_thread _ _ _ => bs "openai-thread-v1" end) (origin_parts o).

Definition origin_fits (o : Origin) : Prop := Forall fits (origin_parts o).

Lemma derive_Ok (hmac : bytes → bytes → bytes) {Uuid} (from_bytes : bytes → Uuid) to_text key o id : derive hmac from_bytes to_text key o = Ok id →
  id = to_text (from_bytes (stamp 64 (take 16 (hmac key (origin_message o))))).
Proof. destruct o; by intros (u & ->%isolate_uuid_Ok & [= <-])%bind_Ok. Qed.

Lemma origin_message_inj o o' : origin_fits o → origin_fits o' → origin_message o = origin_message o' → o = o'.
Proof.
  intros Hf Hf' E. destruct o as [a|p a s], o' as [a'|p' a' s']; try discriminate E; apply identity_message_inj in E; try done; cbn in E; congruence.
Qed.

(** ** Continuations *)
Record Bind := {
  bd_key : bytes;
  bd_response : bytes;
  bd_credential : bytes;
  bd_now : Duration;
}.

Definition bind_one (b : Bind) (self : ContinuationIndex) : result OpenAiError unit * ContinuationIndex :=
  bind b.(bd_key) b.(bd_response) b.(bd_credential) b.(bd_now) self.

(** The binds that succeed, and the index that is left. *)
Fixpoint bind_all (binds : list Bind) (self : ContinuationIndex) : list Bind * ContinuationIndex :=
  match binds with
  | [] => ([], self)
  | b :: binds =>
      let '(answer, self) := bind_one b self in
      let '(bound, self) := bind_all binds self in
      ((if is_ok answer then [b] else []) ++ bound, self)
  end.

Definition expiry (ttl : Duration) (b : Bind) : Duration := dur_add b.(bd_now) ttl.

Lemma expiry_mono ttl b b' : b.(bd_now) <= b'.(bd_now) → expiry ttl b <= expiry ttl b'.
Proof. unfold expiry, dur_add, saturating_add. lia. Qed.

(** What the index holds after the binds [done], the last of them at [last]. *)
Record holds (capacity : nat) (ttl : Duration) (done : list Bind) (last : Duration) (index : ContinuationIndex) : Prop := {
  ho_capacity : index.(ci_capacity) = capacity;
  ho_ttl : index.(ci_ttl) = ttl;
  ho_size : (size index.(ci_entries) <= capacity)%nat;
  ho_past : ∀ b, b ∈ done → b.(bd_now) <= last;
  ho_sound : ∀ key response credential e, index.(ci_entries) !! (key, response) = Some (credential, e) →
    ∃ b, b ∈ done ∧ b.(bd_key) = key ∧ b.(bd_response) = response ∧ b.(bd_credential) = credential ∧ expiry ttl b = e;
  ho_complete : ∀ b, b ∈ done → last < expiry ttl b →
    ∃ e, index.(ci_entries) !! (b.(bd_key), b.(bd_response)) = Some (b.(bd_credential), e) ∧ expiry ttl b <= e;
}.

Lemma holds_new capacity ttl last : holds capacity ttl [] last (index_new capacity ttl).
Proof. split; try done; [cbn; rewrite map_size_empty; lia|..]; intros b Hb; by apply elem_of_nil in Hb. Qed.

Lemma filter_size `{Countable K} {A} (P : K * A → Prop) `{∀ x, Decision (P x)} (m : gmap K A) : (size (filter P m) <= size m)%nat.
Proof. rewrite <- !size_dom. apply subseteq_size. apply dom_filter_subseteq. Qed.

(** The entries that are left at [now]. *)
Lemma holds_prune capacity ttl done last now index : holds capacity ttl done last index → last <= now →
  holds capacity ttl done now (with_entries (filter (λ entry, now < entry.2.2) index.(ci_entries)) index).
Proof.
  intros [Hc Ht Hs Hp Hso Hco] Hle. split; cbn [with_entries ci_capacity ci_ttl ci_entries]; try done.
  - etrans; [apply filter_size|done].
  - intros b Hb. etrans; [by apply Hp|done].
  - intros key response credential e. rewrite map_lookup_filter_Some. intros [E _]. by apply Hso.
  - intros b Hb Halive. destruct (Hco b Hb) as (e & He & Hle'); [lia|]. exists e. split; [|done]. rewrite map_lookup_filter_Some. split; [done|cbn; lia].
Qed.

Lemma holds_insert capacity ttl done b index : holds capacity ttl done b.(bd_now) index →
  match index.(ci_entries) !! (b.(bd_key), b.(bd_response)) with
  | Some (existing, _) => existing = b.(bd_credential)
  | None => (size index.(ci_entries) < capacity)%nat
  end →
  holds capacity ttl (done ++ [b]) b.(bd_now)
    (with_entries (<[(b.(bd_key), b.(bd_response)) := (b.(bd_credential), expiry ttl b)]> index.(ci_entries)) index).
Proof.
  intros [Hc Ht Hs Hp Hso Hco] Hroom. split; cbn [with_entries ci_capacity ci_ttl ci_entries]; try done.
  - destruct (index.(ci_entries) !! _) as [[existing e]|] eqn:E; [rewrite map_size_insert_Some by done; done|rewrite map_size_insert_None by done; lia].
  - intros b' [Hb|Hb%list_elem_of_singleton]%elem_of_app; [by apply Hp|by subst].
  - intros key response credential e. rewrite lookup_insert_Some. intros [(Ek1 & Ek2)|[_ E]]; [injection Ek1 as [= <- <-]; injection Ek2 as [= <- <-]|].
    + exists b. split_and!; [|done..]. apply elem_of_app. right. by apply list_elem_of_singleton.
    + destruct (Hso _ _ _ _ E) as (b' & Hb & Hrest). exists b'. split; [|done]. apply elem_of_app. by left.
  - intros b' [Hb|Hb%list_elem_of_singleton]%elem_of_app Halive; [|subst; eexists; split; [apply lookup_insert_eq|done]].
    destruct (Hco b' Hb Halive) as (e & He & Hle). destruct (decide ((b'.(bd_key), b'.(bd_response)) = (b.(bd_key), b.(bd_response)))) as [Ek|Hne].
    + rewrite Ek, lookup_insert_eq. rewrite <- Ek, He in Hroom. rewrite Hroom. eexists. split; [done|]. by apply expiry_mono, Hp.
    + rewrite lookup_insert_ne by done. by exists e.
Qed.

Lemma holds_bind capacity ttl done last b index : holds capacity ttl done last index → last <= b.(bd_now) →
  holds capacity ttl (done ++ (if is_ok (bind_one b index).1 then [b] else [])) b.(bd_now) (bind_one b index).2.
Proof.
  intros Hh Hle. pose proof (holds_prune _ _ _ _ _ _ Hh Hle) as Hp. assert (index.(ci_ttl) = ttl) as Ht by apply Hh. assert (index.(ci_capacity) = capacity) as Hc by apply Hh.
  unfold bind_one, bind. rewrite Ht, Hc. set (entries := filter _ _) in *. pose proof (holds_insert _ _ _ _ _ Hp) as Hi. cbn [with_entries ci_entries ci_capacity ci_ttl] in Hi.
  destruct (entries !! _) as [[existing e]|] eqn:E.
  - destruct (bool_decide_reflect (existing = b.(bd_credential))) as [->|]; cbn [fst snd is_ok]; [by apply Hi|by rewrite app_nil_r].
  - destruct (Nat.leb_spec capacity (size entries)); cbn [fst snd is_ok]; [by rewrite app_nil_r|by apply Hi].
Qed.

Lemma holds_all capacity ttl binds done last index : holds capacity ttl done last index → StronglySorted N.le (last :: (bd_now <$> binds)) →
  ∀ now, Forall (λ b, b.(bd_now) <= now) binds → last <= now →
  ∃ last', last' <= now ∧ holds capacity ttl (done ++ (bind_all binds index).1) last' (bind_all binds index).2.
Proof.
  revert done last index. induction binds as [|b binds IH]; intros done last index Hh Hs now Hn Hl; cbn [bind_all]; [exists last; by rewrite app_nil_r|].
  apply StronglySorted_inv in Hs as [Hs Hle]. cbn [fmap list_fmap] in *. apply Forall_cons in Hle as [Hle _]. apply Forall_cons in Hn as [Hb Hn].
  pose proof (holds_bind _ _ _ _ _ _ Hh Hle) as Hh'. destruct (bind_one b index) as [answer index']. cbn [fst snd] in Hh'.
  destruct (IH _ _ _ Hh' Hs now Hn Hb) as (last' & Hl' & Hfin). destruct (bind_all binds index') as [bound index'']. cbn [fst snd] in *.
  exists last'. split; [done|]. by rewrite app_assoc.
Qed.

(** ** The turns of a connection *)
Inductive SocketOp := Op_begin (account : bytes) | Op_commit (id : N) | Op_finish (id : N).

Inductive TurnEvent := Began (id : N) (account : bytes) | Committed (id : N) | Finished (id : N).

(** An operation, and what it did. *)
Definition socket_step (op : SocketOp) (self : WebSocketSession) : list TurnEvent * WebSocketSession :=
  match op with
  | Op_begin account => match begin account self with (Ok id, self) => ([Began id account], self) | (Err _, self) => ([], self) end
  | Op_commit id => match commit id self with (Ok _, self) => ([Committed id], self) | (Err _, self) => ([], self) end
  | Op_finish id => match finish id self with (true, self) => ([Finished id], self) | (false, self) => ([], self) end
  end.

Fixpoint socket_run (ops : list SocketOp) (self : WebSocketSession) : list TurnEvent * WebSocketSession :=
  match ops with
  | [] => ([], self)
  | op :: ops => let '(events, self) := socket_step op self in let '(more, self) := socket_run ops self in (events ++ more, self)
  end.

Definition began (events : list TurnEvent) : list N := omap (λ event, match event with Began id _ => Some id | _ => None end) events.

Definition began_for (events : list TurnEvent) : list bytes := omap (λ event, match event with Began _ account => Some account | _ => None end) events.

Definition finished (events : list TurnEvent) : list N := omap (λ event, match event with Finished id => Some id | _ => None end) events.

(** Where a connection is after the events. *)
Record turns_ok (events : list TurnEvent) (self : WebSocketSession) : Prop := {
  to_numbers : began events = N.of_nat <$> seq 1 (N.to_nat self.(ws_next_turn));
  to_serial : began events = finished events ++ option_list (tn_id <$> self.(ws_turn));
  to_account : Forall (λ account, self.(ws_account) = Some account) (began_for events);
  to_fence : ∀ id, Committed id ∈ events → id <= self.(ws_next_turn) ∧ replay_allowed id self = false;
}.

Lemma active_turn id self : active id self = true → ∃ turn, self.(ws_turn) = Some turn ∧ turn.(tn_id) = id.
Proof. unfold active. destruct (ws_turn self) as [turn|]; [|done]. cbn. intros Hid%N.eqb_eq. by exists turn. Qed.

Lemma turns_ok_step events op self : turns_ok events self → turns_ok (events ++ (socket_step op self).1) (socket_step op self).2.
Proof.
  intros Hok. pose proof Hok as [Hn Hs Ha Hf]. destruct op as [account|id|id]; cbn [socket_step].
  - unfold begin. destruct (is_some self.(ws_turn) || is_empty account) eqn:E1; [by cbn; rewrite app_nil_r|]. apply orb_false_iff in E1 as [Et _].
    destruct (is_some_and _ _) eqn:E2; [by cbn; rewrite app_nil_r|]. unfold checked_add. destruct (_ <=? U64_MAX); [|by cbn; rewrite app_nil_r].
    destruct self as [bound turn next]. cbn in *. destruct turn; [done|]. cbn in Hs. rewrite app_nil_r in Hs.
    split; cbn [fst snd ws_account ws_turn ws_next_turn].
    + unfold began in *. rewrite omap_app, Hn. cbn. rewrite N.add_1_r, N2Nat.inj_succ, seq_S, fmap_app. cbn. by rewrite <- N2Nat.inj_succ, N2Nat.id.
    + unfold began, finished in *. rewrite !omap_app, Hs. cbn. by rewrite app_nil_r.
    + unfold began_for in *. rewrite omap_app. apply Forall_app. split; [|by constructor]. eapply Forall_impl; [exact Ha|]. cbn. intros account' ->. cbn in E2.
      by apply negb_false_iff, bool_decide_eq_true in E2 as ->.
    + intros id [Hin|Hin%list_elem_of_singleton]%elem_of_app; [|done]. destruct (Hf id Hin) as [Hle _]. split; [lia|]. unfold replay_allowed. cbn.
      by rewrite (proj2 (N.eqb_neq _ _)) by lia.
  - unfold commit. destruct (active id self) eqn:Eact; [|by cbn; rewrite app_nil_r]. apply active_turn in Eact as (turn & Et & Hid).
    destruct self as [bound turn' next]. cbn in *. subst turn'. cbn in Hs. split; cbn.
    + unfold began in *. rewrite omap_app. cbn. by rewrite app_nil_r.
    + unfold began, finished in *. rewrite !omap_app. cbn. by rewrite !app_nil_r.
    + unfold began_for in *. rewrite omap_app. cbn. by rewrite app_nil_r.
    + assert (id <= next) as Hle.
      { assert (id ∈ began events) as Hin by (rewrite Hs, Hid; apply elem_of_app; right; by apply list_elem_of_singleton).
        rewrite Hn in Hin. apply list_elem_of_fmap in Hin as (k & -> & Hk%elem_of_seq). lia. }
      intros id' [Hin|Hin%list_elem_of_singleton]%elem_of_app; [destruct (Hf id' Hin) as [? _]|injection Hin as ->]; split; try done; unfold replay_allowed; cbn; by rewrite andb_false_r.
  - unfold finish. destruct (active id self) eqn:Eact; [|by cbn; rewrite app_nil_r]. apply active_turn in Eact as (turn & Et & Hid).
    destruct self as [bound turn' next]. cbn in *. subst turn'. cbn in Hs. split; cbn.
    + unfold began in *. rewrite omap_app. cbn. by rewrite app_nil_r.
    + unfold began, finished in *. rewrite !omap_app, Hs. cbn. by rewrite !app_nil_r, Hid.
    + unfold began_for in *. rewrite omap_app. cbn. by rewrite app_nil_r.
    + intros id' [Hin|Hin%list_elem_of_singleton]%elem_of_app; [|done]. split; [by destruct (Hf id' Hin)|done].
Qed.

Lemma turns_ok_run ops events self : turns_ok events self → turns_ok (events ++ (socket_run ops self).1) (socket_run ops self).2.
Proof.
  revert events self. induction ops as [|op ops IH]; intros events self Hok; cbn [socket_run]; [by rewrite app_nil_r|].
  apply (turns_ok_step _ op) in Hok. destruct (socket_step op self) as [new self']. cbn [fst snd] in Hok. apply IH in Hok.
  destruct (socket_run ops self'). cbn [fst snd] in *. by rewrite app_assoc.
Qed.

(** ** Credentials *)
Section credential_proofs.
Context {Num F : Type} `{SerdeJson Num F}.
Context (document_from_slice : bytes → option (ImportDocument (Num := Num))) (from_slice : bytes → option (Value Num)) (base64_url_decode : bytes → option bytes).
Abbreviation token_account := (token_account from_slice base64_url_decode).
Abbreviation rotate := (rotate from_slice base64_url_decode).

(** No token of the material names another account. *)
Definition agrees (self : OAuthMaterial) : Prop :=
  (∀ id, token_account self.(om_access_token) = Some id → id = self.(om_account_id)) ∧
  (∀ token id, self.(om_id_token) = Some token → token_account token = Some id → id = self.(om_account_id)).

Lemma conflict_false a b x y : conflict a b = false → a = Some x → b = Some y → x = y.
Proof. intros Hc -> ->. cbn in Hc. by apply negb_false_iff, bool_decide_eq_true in Hc. Qed.

Lemma option_or_Some {A} (a b : option A) x : option_or a b = Some x → a = Some x ∨ a = None ∧ b = Some x.
Proof. destruct a; cbn; naive_solver. Qed.

Lemma import_agrees l material : import document_from_slice from_slice base64_url_decode l = Ok material → agrees material.
Proof.
  unfold import. destruct (_ <? _); [done|]. intros (document & Hd & Hr)%ok_or_bind. set (value := default _ _) in Hr.
  apply ok_or_bind in Hr as (access & Ha & Hr). destruct (conflict _ _) eqn:C1 in Hr; [done|]. destruct (conflict _ _) eqn:C2 in Hr; [done|].
  apply ok_or_bind in Hr as (account & Hac & Hr). destruct (_ || _); [done|]. injection Hr as [= <-]. unfold agrees. cbn [om_access_token om_id_token om_account_id].
  assert (∀ id, token_account access = Some id → id = account) as Haccess.
  { intros id Hid. unfold OpenAiSessions.token_account in Hid. rewrite Hid in C2, Hac. cbn [option_or] in C2, Hac.
    apply option_or_Some in Hac as [Hac|[_ [= ->]]]; [|done]. symmetry. by eapply conflict_false. }
  split; [done|]. intros token id Ht Hid. rewrite Ht in *. cbn [mbind option_bind] in *. unfold OpenAiSessions.token_account in *. rewrite Hid in *.
  destruct (decode_claims from_slice base64_url_decode access ≫= account_claim) as [id'|] eqn:E; cbn [option_or] in *.
  - rewrite <- (Haccess id' eq_refl). symmetry. by apply (conflict_false _ _ _ _ C1).
  - apply option_or_Some in Hac as [Hac|[_ [= ->]]]; [|done]. symmetry. by apply (conflict_false _ _ _ _ C2).
Qed.

(** A rotation that fails changes nothing; one that succeeds keeps the account, the user and a refresh token. *)
Lemma rotate_spec response verified self answer self' : rotate response verified self = (answer, self') → agrees self →
  agrees self' ∧ (is_ok answer = false → self' = self) ∧ self'.(om_account_id) = self.(om_account_id) ∧ self'.(om_user_id) = self.(om_user_id) ∧
  (refreshable self = true → refreshable self' = true) ∧ (is_ok answer = true → verified = self.(om_account_id)).
Proof.
  intros E Hagree. unfold OpenAiSessions.rotate in E. destruct (bool_decide_reflect (verified = self.(om_account_id))) as [Hv|]; cbn [negb] in E; [|injection E as <- <-; by split_and!].
  destruct (nonempty_str response "access_token") as [access|]; [|injection E as <- <-; by split_and!].
  destruct (conflict _ _) eqn:C1 in E; [injection E as <- <-; by split_and!|]. destruct (conflict _ _) eqn:C2 in E; [injection E as <- <-; by split_and!|].
  injection E as <- <-. cbn [om_account_id om_user_id]. split_and!; try done.
  - split; cbn [om_access_token om_id_token om_account_id].
    + intros id Hid. by apply (conflict_false _ _ _ _ C2).
    + intros token id [Ht|[_ Ht]]%option_or_Some Hid; [|by apply (proj2 Hagree token)]. rewrite Ht in C1. by apply (conflict_false _ _ _ _ C1).
  - unfold refreshable. cbn [om_refresh_token]. unfold nonempty_str. destruct (get _ response ≫= as_str) as [s|]; [|done].
    destruct (is_empty (trim s)) eqn:Es; [done|]. cbn. by destruct s.
Qed.

(** Rotations, one after the other. *)
Definition rotations (responses : list (Value Num * bytes)) (self : OAuthMaterial) : OAuthMaterial :=
  foldl (λ self '(response, verified), (rotate response verified self).2) self responses.

Lemma rotations_spec responses self : agrees self →
  let self' := rotations responses self in
  agrees self' ∧ self'.(om_account_id) = self.(om_account_id) ∧ self'.(om_user_id) = self.(om_user_id) ∧ (refreshable self = true → refreshable self' = true).
Proof.
  revert self. induction responses as [|[response verified] responses IH]; intros self Hagree; [by split_and!|]. unfold rotations. cbn [foldl].
  destruct (rotate response verified self) as [answer self'] eqn:E. cbn [snd]. apply rotate_spec in E as (Ha & _ & Hac & Hu & Hre & _); [|done].
  specialize (IH self' Ha) as (IA & IC & IU & IR). unfold rotations in *. rewrite <- Hac, <- Hu. split_and!; auto.
Qed.
End credential_proofs.

(** ** Properties *)

(** identities of different origins are kept apart as far as the hash allows: among origins whose messages the keyed hash does not confuse, a thread identity stands for
    one triple of key, account and session, an installation for one account, and no thread is an installation. The fields need no separator, whatever they hold. *)
Theorem identities_isolated (hmac : bytes → bytes → bytes) {Uuid} (from_bytes : bytes → Uuid) (to_text : Uuid → bytes) key used :
  Forall origin_fits used →
  (∀ o o', o ∈ used → o' ∈ used → let text o := to_text (from_bytes (stamp 64 (take 16 (hmac key (origin_message o))))) in
    text o = text o' → origin_message o = origin_message o') →
  ∀ o o' id, o ∈ used → o' ∈ used → derive hmac from_bytes to_text key o = Ok id → derive hmac from_bytes to_text key o' = Ok id → o = o'.
Proof.
  intros Hf Hfree o o' id Ho Ho' H1%derive_Ok H2%derive_Ok. rewrite Forall_forall in Hf.
  apply origin_message_inj; [by apply Hf..|]. apply Hfree; [done|done|]. by rewrite <- H1, <- H2.
Qed.

(** C32: a continuation belongs to the credential that answered last: after any binds in the order of time, a response of a key resolves to a credential exactly when a
    bind of this key and response to it succeeded and has not expired, so that it is never handed to another credential or key; and the index stays within its capacity. *)
Theorem continuation_owner capacity ttl binds key response credential now :
  StronglySorted N.le (bd_now <$> binds) → Forall (λ b, b.(bd_now) <= now) binds →
  let '(bound, index) := bind_all binds (index_new capacity ttl) in
  (resolve key response now index = Ok credential ↔
    ∃ b, b ∈ bound ∧ b.(bd_key) = key ∧ b.(bd_response) = response ∧ b.(bd_credential) = credential ∧ now < expiry ttl b) ∧
  (size index.(ci_entries) <= capacity)%nat.
Proof.
  intros Hs Hn. destruct (holds_all capacity ttl binds [] 0 _ (holds_new capacity ttl 0)) with (now := now) as (last & Hl & Hh); [|done|lia|].
  { constructor; [done|]. apply Forall_forall. intros. apply N.le_0_l. }
  destruct (bind_all binds (index_new capacity ttl)) as [bound index]. cbn [fst snd app] in Hh. split; [|by apply Hh]. unfold resolve. split.
  - destruct (index.(ci_entries) !! (key, response)) as [[credential' e]|] eqn:E; [|done]. destruct (N.ltb_spec now e); [|done]. intros [= ->].
    apply (ho_sound _ _ _ _ _ Hh) in E as (b & Hb & Hk & Hr & Hc & He). exists b. by rewrite He.
  - intros (b & Hb & <- & <- & <- & Halive). destruct (ho_complete _ _ _ _ _ Hh b Hb) as (e & -> & He); [lia|]. by rewrite (proj2 (N.ltb_lt _ _)) by lia.
Qed.

(** the turns of a connection are serial: whatever is asked of it, its turns are numbered from one, each is finished before the next begins and at most once, all of
    them run on one account, and a turn whose first event reached the client is never replayed. *)
Theorem turns_serial ops :
  let '(events, session) := socket_run ops socket_default in
  began events = N.of_nat <$> seq 1 (N.to_nat session.(ws_next_turn)) ∧ NoDup (finished events) ∧
  began events = finished events ++ option_list (tn_id <$> session.(ws_turn)) ∧
  (∀ account account', account ∈ began_for events → account' ∈ began_for events → account = account') ∧
  (∀ id, Committed id ∈ events → replay_allowed id session = false).
Proof.
  assert (turns_ok [] socket_default) as Hok. { split; try done. intros id Hid. by apply elem_of_nil in Hid. }
  apply (turns_ok_run ops) in Hok. destruct (socket_run ops socket_default) as [events session]. cbn [fst snd app] in Hok. destruct Hok as [Hn Hs Ha Hf]. split_and!; try done.
  - assert (NoDup (began events)) as Hd by (rewrite Hn; apply NoDup_fmap_2; [apply _|apply NoDup_seq]). rewrite Hs in Hd. by apply NoDup_app in Hd as [Hd _].
  - rewrite Forall_forall in Ha. intros account account' H1%Ha H2%Ha. congruence.
  - intros id Hid. by apply Hf.
Qed.

(** C33: a credential never changes hands: the account of imported material is the one that each of its tokens names, however often it is rotated; the user stays; a refresh token
    is never lost; and a rotation that is refused leaves the material as it was. *)
Theorem credential_keeps_account {Num F} `{SerdeJson Num F} (document_from_slice : bytes → option (ImportDocument (Num := Num))) (from_slice : bytes → option (Value Num))
    (base64_url_decode : bytes → option bytes) l material responses :
  import document_from_slice from_slice base64_url_decode l = Ok material →
  let current := rotations from_slice base64_url_decode responses material in
  (∀ id, token_account from_slice base64_url_decode current.(om_access_token) = Some id → id = material.(om_account_id)) ∧
  (∀ token id, current.(om_id_token) = Some token → token_account from_slice base64_url_decode token = Some id → id = material.(om_account_id)) ∧
  current.(om_account_id) = material.(om_account_id) ∧ current.(om_user_id) = material.(om_user_id) ∧
  (refreshable material = true → refreshable current = true) ∧
  (∀ response verified, is_ok (rotate from_slice base64_url_decode response verified current).1 = false →
    (rotate from_slice base64_url_decode response verified current).2 = current).
Proof.
  intros Hagree%import_agrees current. apply (rotations_spec from_slice base64_url_decode responses) in Hagree as ([Ha Hi] & Hac & Hu & Hr). fold current in Ha, Hi, Hac, Hu, Hr.
  rewrite <- Hac. split_and!; try done. intros response verified.
  destruct (rotate from_slice base64_url_decode response verified current) as [answer next] eqn:E. by apply rotate_spec in E as (_ & Hf & _).
Qed.

(** ** Samples *)
#[local] Instance sessions_serde : SerdeJson Z Z := sample_serde [] (λ _, None).

Definition sample_origins : list Origin :=
  [Origin_thread (bs "k") (bs "ab") (bs "c"); Origin_thread (bs "k") (bs "a") (bs "bc"); Origin_installation (bs "k")].

Lemma identities_isolated_witness :
  let derive := derive (λ _ message, rev message) (λ l, l) (λ l, l) (replicate 32 "k"%char) in
  Forall (λ o, is_ok (derive o) = true) sample_origins ∧
  ∀ o o' id, o ∈ sample_origins → o' ∈ sample_origins → derive o = Ok id → derive o' = Ok id → o = o'.
Proof.
  intros derive. split; [repeat constructor|]. apply identities_isolated; [repeat constructor; by vm_compute|].
  intros o o' Ho Ho'. repeat (apply elem_of_cons in Ho as [->|Ho]); [..|by apply elem_of_nil in Ho];
    repeat (apply elem_of_cons in Ho' as [->|Ho']); try (by apply elem_of_nil in Ho'); intros text E; try done; by vm_compute in E.
Defined.

Definition sample_binds : list Bind :=
  [{| bd_key := bs "k"; bd_response := bs "r"; bd_credential := bs "a"; bd_now := 0 |}; {| bd_key := bs "k"; bd_response := bs "r"; bd_credential := bs "b"; bd_now := 5 |};
   {| bd_key := bs "k"; bd_response := bs "r"; bd_credential := bs "b"; bd_now := 10 |}; {| bd_key := bs "k2"; bd_response := bs "r"; bd_credential := bs "a"; bd_now := 12 |}].

Lemma continuation_owner_witness :
  let '(bound, index) := bind_all sample_binds (index_new 1 10) in
  length bound = 2%nat ∧ resolve (bs "k") (bs "r") 15 index = Ok (bs "b") ∧
  ∃ b, b ∈ bound ∧ b.(bd_key) = bs "k" ∧ b.(bd_response) = bs "r" ∧ b.(bd_credential) = bs "b" ∧ 15 < expiry 10 b.
Proof.
  pose proof (continuation_owner 1 10 sample_binds (bs "k") (bs "r") (bs "b") 15 ltac:(repeat constructor; by vm_compute) ltac:(repeat constructor; by vm_compute)) as Hw.
  destruct (bind_all sample_binds (index_new 1 10)) as [bound index] eqn:E. vm_compute in E. injection E as <- <-. split; [done|].
  assert (resolve (bs "k") (bs "r") 15 (bind_all sample_binds (index_new 1 10)).2 = Ok (bs "b")) as Er by by vm_compute.
  split; [exact Er|]. by apply (proj1 Hw).
Defined.

Definition sample_document (account : string) (fields : list (string * string)) : ImportDocument (Num := Z) :=
  {| id_tokens := None; id_fields := (λ '(key, text), (bs key, JString (bs text))) <$> ("account_id", account) :: fields |}.

(** The claims of a token whose payload is [account]. *)
Definition sample_claims (payload : bytes) : option (Value Z) :=
  Some (JObject [(bs "https://api.openai.com/auth", JObject [(bs "chatgpt_account_id", JString payload)])]).

Definition sample_import (account : string) (fields : list (string * string)) : result OpenAiError OAuthMaterial :=
  import (λ _, Some (sample_document account fields)) sample_claims Some [].

Definition sample_material : OAuthMaterial :=
  {| om_access_token := bs "h.ws.s"; om_refresh_token := Some (bs "r"); om_id_token := None; om_account_id := bs "ws"; om_user_id := None; om_expires_at := None |}.

Lemma credential_keeps_account_witness :
  sample_import "ws" [("access_token", "h.ws.s"); ("refresh_token", "r")]%string = Ok sample_material ∧
  let response (token : string) : Value Z := JObject [(bs "access_token", JString (bs token))] in
  let current := rotations sample_claims Some [(response "h.other.s", bs "ws"); (response "h.ws.t", bs "ws")] sample_material in
  current.(om_access_token) = bs "h.ws.t" ∧ (refreshable sample_material = true → refreshable current = true).
Proof.
  assert (sample_import "ws" [("access_token", "h.ws.s"); ("refresh_token", "r")]%string = Ok sample_material) as E by by vm_compute.
  split; [exact E|]. intros response current. split; [by vm_compute|].
  by apply (credential_keeps_account _ sample_claims Some _ _ [(response "h.other.s"%string, bs "ws"); (response "h.ws.t"%string, bs "ws")] E).
Defined.

(** A token that names an empty account is imported when the document names none, although an empty account cannot begin a turn. *)
Example empty_account_is_imported :
  (om_account_id <$> match sample_import "" [("access_token", "h..s")]%string with Ok material => Some material | Err _ => None end) = Some [] ∧
  begin [] socket_default = (Err Ai_InvalidRequest, socket_default).
Proof. by vm_compute. Qed.
