(* ===== verification/OpenAiStream.v ===== *)
(** The response of an OpenAI account: super-gatewayd [production_dispatcher/openai.rs]: the conversion of a stream of Responses events into Chat chunks, and the task
    that relays, observes and binds a response, as a program over its calls.

    What the body channel yields is a list, which ends where the channel does or where the request is cancelled; the writer of JSON text is a parameter. *)

From Stdlib Require Import Ascii.
From S2P Require Import Prelude Machine.
From S2P Require Import Bytes.
From S2P Require Import Usage.
From S2P Require Import UsageObserver.
From S2P Require Import Json.
From S2P Require Import ClientRequest.
From S2P Require Import Dispatch.
From S2P Require Import Programs.
From S2P Require Import OpenAi.
From S2P Require Import OpenAiUsage.
Local Open Scope N_scope.

(** ** Chat chunks *)
Record ChatStream := {
  cs_include_usage : bool;
  cs_id : bytes;
  cs_model : bytes;
  cs_calls : N;
  cs_call_indices : gmap bytes N;
  cs_terminal : bool;
}.

Definition chat_default (include_usage : bool) : ChatStream :=
  {| cs_include_usage := include_usage; cs_id := []; cs_model := []; cs_calls := 0; cs_call_indices := ∅; cs_terminal := false |}.

Definition with_names (id model : bytes) (self : ChatStream) : ChatStream :=
  {| cs_include_usage := self.(cs_include_usage); cs_id := id; cs_model := model; cs_calls := self.(cs_calls); cs_call_indices := self.(cs_call_indices);
     cs_terminal := self.(cs_terminal) |}.

Definition with_calls (calls : N) (indices : gmap bytes N) (self : ChatStream) : ChatStream :=
  {| cs_include_usage := self.(cs_include_usage); cs_id := self.(cs_id); cs_model := self.(cs_model); cs_calls := calls; cs_call_indices := indices;
     cs_terminal := self.(cs_terminal) |}.

Definition with_end (self : ChatStream) : ChatStream :=
  {| cs_include_usage := self.(cs_include_usage); cs_id := self.(cs_id); cs_model := self.(cs_model); cs_calls := self.(cs_calls);
     cs_call_indices := self.(cs_call_indices); cs_terminal := true |}.

(** What is sent to a Chat client: a value, or the end marker. *)
Inductive ChatFrame (Num : Type) := Frame (value : Value Num) | FrameDone.
Arguments Frame {Num}.
Arguments FrameDone {Num}.

Section chat.
Context {Num F : Type} `{SerdeJson Num F}.
Abbreviation Tree := (Value Num).
Implicit Types (event delta finish : Tree).

(** [value[key]] as it is read. *)
Definition index_get (key : string) (value : Tree) : Tree := default JNull (get (bs key) value).

Definition num (n : N) : Tree := JNumber (num_of_u64 n).

Definition chunk_value (delta finish : Tree) (self : ChatStream) : Tree :=
  JObject [(bs "id", JString self.(cs_id)); (bs "object", str "chat.completion.chunk"); (bs "created", num 0); (bs "model", JString self.(cs_model));
           (bs "choices", JArray [JObject [(bs "index", num 0); (bs "delta", delta); (bs "finish_reason", finish)]])].

Definition usage_value (usage : Tree) (self : ChatStream) : Tree :=
  JObject [(bs "id", JString self.(cs_id)); (bs "object", str "chat.completion.chunk"); (bs "created", num 0); (bs "model", JString self.(cs_model));
           (bs "choices", JArray []); (bs "usage", usage)].

Definition upstream_failed : Tree := JObject [(bs "code", str "upstream_failed"); (bs "message", str "Upstream response failed.")].

(** The identifier and the model of the response that an event names. *)
Definition take_names event (self : ChatStream) : ChatStream :=
  match get (bs "response") event with
  | Some response => with_names (default self.(cs_id) (get_str "id" response)) (default self.(cs_model) (get_str "model" response)) self
  | None => self
  end.

(** The index of the call that a piece of arguments belongs to. *)
Definition call_index event (self : ChatStream) : N :=
  match get_str "item_id" event ≫= λ id, self.(cs_call_indices) !! id with
  | Some index => index
  | None => default 0 (get (bs "output_index") event ≫= value_as_u64)
  end.

Definition added_delta (index : N) event : Tree :=
  let item := index_get "item" event in
  JObject [(bs "tool_calls", JArray [JObject [(bs "index", num index); (bs "id", index_get "call_id" item); (bs "type", str "function");
    (bs "function", JObject [(bs "name", index_get "name" item); (bs "arguments", str "")])]])].

Definition arguments_delta (index : N) event : Tree :=
  JObject [(bs "tool_calls", JArray [JObject [(bs "index", num index); (bs "function", JObject [(bs "arguments", index_get "delta" event)])]])].

(** The [match] on the kind of an event: nothing to send, the failure, or a delta with the reason to finish. *)
Inductive ChatStep := Step_none | Step_failed | Step_delta (delta finish : Value Num).

Definition chat_step event (self : ChatStream) : ChatStep * ChatStream :=
  if type_is "response.created" event then (Step_delta (JObject [(bs "role", str "assistant"); (bs "content", str "")]) JNull, self)
  else if type_is "response.output_text.delta" event then (Step_delta (JObject [(bs "content", index_get "delta" event)]) JNull, self)
  else if type_is "response.output_item.added" event && bool_decide (pointer (bs "/item/type") event ≫= as_str = Some (bs "function_call")) then
    let index := self.(cs_calls) in
    let indices := match pointer (bs "/item/id") event ≫= as_str with Some id => <[id := index]> self.(cs_call_indices) | None => self.(cs_call_indices) end in
    (Step_delta (added_delta index event) JNull, with_calls (index + 1) indices self)
  else if type_is "response.function_call_arguments.delta" event then (Step_delta (arguments_delta (call_index event self) event) JNull, self)
  else if type_is "response.completed" event then (Step_delta (JObject []) (str (if 0 <? self.(cs_calls) then "tool_calls" else "stop")), self)
  else if type_is "response.incomplete" event then (Step_delta (JObject []) (str "length"), self)
  else if type_is "response.failed" event then (Step_failed, self)
  else (Step_none, self).

(** The usage of the last event. *)
Definition final_usage event (self : ChatStream) : list (ChatFrame Num) :=
  if self.(cs_include_usage) then
    match get (bs "response") event with
    | Some response =>
        match responses_to_chat response with
        | Ok document => match get (bs "usage") document with Some usage => [Frame (usage_value usage self)] | None => [] end
        | Err _ => []
        end
    | None => []
    end
  else [].

Definition chat_event event (self : ChatStream) : list (ChatFrame Num) * ChatStream :=
  if self.(cs_terminal) then ([], self)
  else
    match chat_step event (take_names event self) with
    | (Step_none, self) => ([], self)
    | (Step_failed, self) => ([Frame (JObject [(bs "error", default upstream_failed (pointer (bs "/response/error") event))])], with_end self)
    | (Step_delta delta finish, self) =>
        let chunk := Frame (chunk_value delta finish self) in
        if is_null finish then ([chunk], self) else ([chunk] ++ final_usage event self ++ [FrameDone], with_end self)
    end.

Context (value_to_string : Tree → bytes).

Definition frame_bytes (frame : ChatFrame Num) : bytes :=
  match frame with Frame value => encode_event (value_to_string value) | FrameDone => bs "data: [DONE]" ++ [LF; LF] end.
End chat.

(** ** The task of a response *)

(** What the body yields, or the end that the loop sees. *)
Inductive Received := Rx_chunk (chunk : bytes) | Rx_failed | Rx_cancelled.

Inductive TaskCall : Type → Type :=
  | TaskNow : TaskCall N
  | SendChunk (chunk : bytes) : TaskCall bool
  | TrySendError : TaskCall unit
  | BindResponse (response : bytes) : TaskCall bool
  | PersistUsage (usage : UsageObservation) : TaskCall bool
  | RecordOutcome (outcome : bytes) (status : N) : TaskCall unit
  | RecordModels (reasoning : option Z) (response_model : option bytes) : TaskCall unit
  | SendUsage (usage : ObservedResponseUsage) : TaskCall unit
  | FinishExternal (good : bool) : TaskCall unit
  | CancelTerminal : TaskCall unit
  | SendReady (good : bool) : TaskCall unit.

(** What the task is given. *)
Record TaskConfig := {
  tc_endpoint : OpenAiEndpoint;
  tc_converted : bool;
  tc_stream : bool;
  tc_upstream_sse : bool;
  tc_status : N;
  tc_include_usage : bool;
}.

Record TaskState (Num : Type) := {
  ts_observer : ResponseObserver;
  ts_decoder : SseDecoder;
  ts_buffered : bytes;
  ts_final_response : option (Value Num);
  ts_count : N;
  ts_good : bool;
  ts_chat : ChatStream;
  ts_bound : option bytes;
}.
Arguments Build_TaskState {Num}.
Arguments ts_observer {Num}.
Arguments ts_decoder {Num}.
Arguments ts_buffered {Num}.
Arguments ts_final_response {Num}.
Arguments ts_count {Num}.
Arguments ts_good {Num}.
Arguments ts_chat {Num}.
Arguments ts_bound {Num}.

Section task.
Context {Num F : Type} `{SerdeJson Num F}.
Abbreviation Tree := (Value Num).
Abbreviation State := (TaskState Num).
Abbreviation Task := (Prog TaskCall).
Context (from_str from_slice : bytes → option Tree) (value_to_string : Tree → bytes) (config : TaskConfig).
Implicit Types (s : State) (event : Tree).

#[local] Existing Instance prog_mbind.
#[local] Existing Instance prog_mret.

Definition with_observer (observer : ResponseObserver) s : State :=
  {| ts_observer := observer; ts_decoder := s.(ts_decoder); ts_buffered := s.(ts_buffered); ts_final_response := s.(ts_final_response); ts_count := s.(ts_count);
     ts_good := s.(ts_good); ts_chat := s.(ts_chat); ts_bound := s.(ts_bound) |}.

Definition with_decoder (decoder : SseDecoder) s : State :=
  {| ts_observer := s.(ts_observer); ts_decoder := decoder; ts_buffered := s.(ts_buffered); ts_final_response := s.(ts_final_response); ts_count := s.(ts_count);
     ts_good := s.(ts_good); ts_chat := s.(ts_chat); ts_bound := s.(ts_bound) |}.

Definition with_buffered (buffered : bytes) s : State :=
  {| ts_observer := s.(ts_observer); ts_decoder := s.(ts_decoder); ts_buffered := buffered; ts_final_response := s.(ts_final_response); ts_count := s.(ts_count);
     ts_good := s.(ts_good); ts_chat := s.(ts_chat); ts_bound := s.(ts_bound) |}.

Definition with_final (final : option Tree) s : State :=
  {| ts_observer := s.(ts_observer); ts_decoder := s.(ts_decoder); ts_buffered := s.(ts_buffered); ts_final_response := final; ts_count := s.(ts_count);
     ts_good := s.(ts_good); ts_chat := s.(ts_chat); ts_bound := s.(ts_bound) |}.

Definition with_count (count : N) s : State :=
  {| ts_observer := s.(ts_observer); ts_decoder := s.(ts_decoder); ts_buffered := s.(ts_buffered); ts_final_response := s.(ts_final_response); ts_count := count;
     ts_good := s.(ts_good); ts_chat := s.(ts_chat); ts_bound := s.(ts_bound) |}.

Definition with_good (good : bool) s : State :=
  {| ts_observer := s.(ts_observer); ts_decoder := s.(ts_decoder); ts_buffered := s.(ts_buffered); ts_final_response := s.(ts_final_response); ts_count := s.(ts_count);
     ts_good := good; ts_chat := s.(ts_chat); ts_bound := s.(ts_bound) |}.

Definition with_chat (chat : ChatStream) s : State :=
  {| ts_observer := s.(ts_observer); ts_decoder := s.(ts_decoder); ts_buffered := s.(ts_buffered); ts_final_response := s.(ts_final_response); ts_count := s.(ts_count);
     ts_good := s.(ts_good); ts_chat := chat; ts_bound := s.(ts_bound) |}.

Definition with_bound (bound : option bytes) s : State :=
  {| ts_observer := s.(ts_observer); ts_decoder := s.(ts_decoder); ts_buffered := s.(ts_buffered); ts_final_response := s.(ts_final_response); ts_count := s.(ts_count);
     ts_good := s.(ts_good); ts_chat := s.(ts_chat); ts_bound := bound |}.

Definition task_new : State :=
  {| ts_observer := observer_default; ts_decoder := decoder_new (4 * 1024 * 1024); ts_buffered := []; ts_final_response := None; ts_count := 0; ts_good := true;
     ts_chat := chat_default config.(tc_include_usage); ts_bound := None |}.

Definition is_chat : bool := bool_decide (config.(tc_endpoint) = ChatCompletions).

(** [observe], which reads the clock when it sees the first content. *)
Definition observe_event event s : Task State :=
  let reads := negb (is_some s.(ts_observer).(ro_terminal)) && negb (is_some s.(ts_observer).(ro_first_content_at)) && has_output_content event in
  now ← (if reads then ask TaskNow else mret 0);
  let '(answer, observer) := observe now event s.(ts_observer) in
  mret (with_good (s.(ts_good) && is_ok answer) (with_observer observer s)).

(** The response is bound to the account as soon as it is named: whether the loop over the events goes on. *)
Definition bind_named s : Task (bool * State) :=
  match s.(ts_observer).(ro_response_id) with
  | Some id =>
      if negb is_chat && negb (bool_decide (s.(ts_bound) = Some id)) then
        bound ← ask (BindResponse id);
        if bound : bool then mret (true, with_bound (Some id) s) else mret (false, with_good false s)
      else mret (true, s)
  | None => mret (true, s)
  end.

Fixpoint send_frames (frames : list (ChatFrame Num)) s : Task State :=
  match frames with
  | [] => mret s
  | frame :: frames => sent ← ask (SendChunk (frame_bytes value_to_string frame)); if sent : bool then send_frames frames s else mret (with_good false s)
  end.

(** One event: whether the loop goes on. *)
Definition event_turn event s : Task (bool * State) :=
  let already_terminal := is_some s.(ts_observer).(ro_terminal) in
  s ← observe_event event s;
  '(more, s) ← bind_named s;
  if more : bool then
    let s := if negb already_terminal && kind_in TERMINAL_EVENTS event then with_final (get (bs "response") event) s else s in
    s ← (if config.(tc_converted) && config.(tc_stream) && negb already_terminal then
           let '(frames, chat) := chat_event event s.(ts_chat) in send_frames frames (with_chat chat s)
         else mret s);
    mret (true, s)
  else mret (false, s).

Fixpoint event_loop (events : list Tree) s : Task State :=
  match events with
  | [] => mret s
  | event :: events => '(more, s) ← event_turn event s; if more : bool then event_loop events s else mret s
  end.

Definition MAX_BUFFERED : N := 64 * 1024 * 1024.

(** One chunk: whether the loop goes on. *)
Definition chunk_step (chunk : bytes) s : Task (bool * State) :=
  let s := with_count (saturating_add U64_MAX s.(ts_count) (N.of_nat (length chunk))) s in
  '(stop, s) ← (if config.(tc_upstream_sse) then
                  match push from_str chunk s.(ts_decoder) with
                  | (Ok events, decoder) => s ← event_loop events (with_decoder decoder s); mret (false, s)
                  | (Err _, decoder) => mret (false, with_good false (with_decoder decoder s))
                  end
                else if MAX_BUFFERED <? N.of_nat (length s.(ts_buffered) + length chunk) then mret (true, with_good false s)
                else mret (false, with_buffered (s.(ts_buffered) ++ chunk) s));
  if stop || negb s.(ts_good) then mret (false, s)
  else
    sent ← (if config.(tc_stream) && negb config.(tc_converted) then ask (SendChunk chunk) else mret true);
    if negb (sent : bool) then mret (false, with_good false s)
    else mret (negb (is_some s.(ts_observer).(ro_terminal) || (is_chat && is_done s.(ts_decoder))), s).

Fixpoint receive_loop (received : list Received) s : Task State :=
  match received with
  | [] => mret s
  | Rx_failed :: _ | Rx_cancelled :: _ => mret (with_good false s)
  | Rx_chunk chunk :: received => '(more, s) ← chunk_step chunk s; if more : bool then receive_loop received s else mret s
  end.

(** The end of the stream, or the whole document. *)
Definition settle s : Task State :=
  let s := if config.(tc_upstream_sse) && negb config.(tc_converted) && is_chat && is_done s.(ts_decoder)
           then with_observer (with_terminal (Some (bs "chat.done")) s.(ts_observer)) s else s in
  s ← (if negb config.(tc_upstream_sse) then
         match from_slice s.(ts_buffered) with
         | Some document =>
             s ← observe_event document s;
             mret (if s.(ts_good) then with_observer (with_terminal (Some (bs "json.complete")) s.(ts_observer)) s else s)
         | None => mret s
         end
       else mret s);
  mret (if config.(tc_upstream_sse) && (negb s.(ts_good) || has_partial_event s.(ts_decoder) || negb (is_some s.(ts_observer).(ro_terminal))) then with_good false s else s).

Definition bind_last s : Task State :=
  match s.(ts_observer).(ro_response_id) with
  | Some id => if s.(ts_good) && (config.(tc_status) <? 400) && negb is_chat then good ← ask (BindResponse id); mret (with_good good s) else mret s
  | None => mret s
  end.

(** The body of a response that is not a stream. *)
Definition whole_payload s : option bytes :=
  if config.(tc_upstream_sse) && (config.(tc_status) <? 400) then
    response ← s.(ts_final_response);
    document ← (if config.(tc_converted) then match responses_to_chat response with Ok document => Some document | Err _ => None end else Some response);
    to_vec document
  else Some s.(ts_buffered).

Definition send_whole s : Task State :=
  if config.(tc_stream) then mret s
  else match whole_payload s with
       | Some body => sent ← ask (SendChunk body); mret (if sent : bool then s else with_good false s)
       | None => mret (with_good false s)
       end.

Definition task_usage s : UsageObservation :=
  {| uo_source := Official; uo_completeness := completeness s.(ts_observer); uo_counts := cost_counts s.(ts_observer).(ro_usage); uo_algorithm_version := None |}.

Definition outcome_code s : bytes :=
  if negb s.(ts_good) then bs "incomplete_stream"
  else if 400 <=? config.(tc_status) then bs "upstream_http_error"
  else default (bs "missing_terminal") s.(ts_observer).(ro_terminal).

(** The verdict, which is recorded and announced. *)
Definition announce s : Task bool :=
  _ ← ask (RecordOutcome (outcome_code s) config.(tc_status));
  _ ← ask (RecordModels (s.(ts_observer).(ro_usage).(au_reasoning) ≫= λ n, i64_of n) s.(ts_observer).(ro_model));
  _ ← ask (SendUsage {| or_first_content_at := s.(ts_observer).(ro_first_content_at); or_official := task_usage s; or_sse := None; or_upstream_bytes_received := s.(ts_count) |});
  _ ← ask (FinishExternal s.(ts_good));
  _ ← ask CancelTerminal;
  _ ← ask (SendReady s.(ts_good));
  mret s.(ts_good).

Definition report s : Task bool :=
  _ ← (if s.(ts_good) then mret tt else ask TrySendError);
  persisted ← ask (PersistUsage (task_usage s));
  announce (if persisted : bool then s else with_good false s).

Definition response_task (received : list Received) : Task bool :=
  s ← receive_loop received task_new;
  s ← settle s;
  s ← bind_last s;
  s ← send_whole s;
  report s.
End task.
