(* ===== verification/OpenAiStreamProofs.v ===== *)
(** What the relay of an OpenAI response promises: a Chat client hears what the model says, what is relayed is what was received, a response is owned before it is
    delivered, and it is reported as complete only when it is. *)

From Stdlib Require Import Ascii.
From S2P Require Import Prelude Machine.
From S2P Require Import Bytes.
From S2P Require Import Usage.
From S2P Require Import UsageObserver.
From S2P Require Import Json.
From S2P Require Import ClientRequest.
From S2P Require Import Programs.
From S2P Require Import OpenAi.
From S2P Require Import OpenAiProofs.
From S2P Require Import OpenAiUsage.
From S2P Require Import OpenAiStream.
Local Open Scope N_scope.

(** ** What is said and what is heard *)
Inductive Ending := Ended (reason : bytes) | Failed.

(** What a Chat client has put together: the text, and of each call its identifier, its name and its arguments. *)
Record Heard := {
  hd_text : bytes;
  hd_calls : list (bytes * bytes * bytes);
  hd_ending : option Ending;
}.

Definition silence : Heard := {| hd_text := []; hd_calls := []; hd_ending := None |}.

Definition add_arguments (more : bytes) (call : bytes * bytes * bytes) : bytes * bytes * bytes := (call.1, call.2 ++ more).

(** What a model says: as [Heard], with the item of each call. *)
Record Speech := {
  sp_text : bytes;
  sp_calls : list (bytes * (bytes * bytes * bytes));
  sp_ending : option Ending;
}.

Definition unsaid : Speech := {| sp_text := []; sp_calls := []; sp_ending := None |}.

Definition heard_of (speech : Speech) : Heard :=
  {| hd_text := speech.(sp_text); hd_calls := speech.(sp_calls).*2; hd_ending := speech.(sp_ending) |}.

Section speech.
Context {Num F : Type} `{SerdeJson Num F}.
Abbreviation Tree := (Value Num).
Implicit Types (event delta finish value : Tree).

Definition hear_call (call : Tree) (calls : list (bytes * bytes * bytes)) : list (bytes * bytes * bytes) :=
  let function := index_get "function" call in
  match get_str "id" call, get_str "name" function, get_str "arguments" function with
  | Some id, Some name, Some arguments => calls ++ [(id, name, arguments)]
  | _, _, Some arguments =>
      match get (bs "index") call ≫= value_as_u64 with Some index => alter (add_arguments arguments) (N.to_nat index) calls | None => calls end
  | _, _, None => calls
  end.

Definition hear_delta delta (heard : Heard) : Heard :=
  {| hd_text := heard.(hd_text) ++ default [] (get_str "content" delta);
     hd_calls := match get (bs "tool_calls") delta ≫= as_array with Some calls => foldr hear_call heard.(hd_calls) calls | None => heard.(hd_calls) end;
     hd_ending := heard.(hd_ending) |}.

Definition hear_finish finish (heard : Heard) : Heard :=
  match as_str finish with
  | Some reason => {| hd_text := heard.(hd_text); hd_calls := heard.(hd_calls); hd_ending := Some (Ended reason) |}
  | None => heard
  end.

Definition hear1 (heard : Heard) (frame : ChatFrame Num) : Heard :=
  match frame with
  | FrameDone => heard
  | Frame value =>
      match get (bs "choices") value ≫= as_array with
      | Some (choice :: _) => hear_finish (index_get "finish_reason" choice) (hear_delta (index_get "delta" choice) heard)
      | Some [] => heard
      | None => {| hd_text := heard.(hd_text); hd_calls := heard.(hd_calls); hd_ending := if is_some (get (bs "error") value) then Some Failed else heard.(hd_ending) |}
      end
  end.

Definition hear (frames : list (ChatFrame Num)) : Heard := foldl hear1 silence frames.

Definition is_call event : bool := type_is "response.output_item.added" event && bool_decide (pointer (bs "/item/type") event ≫= as_str = Some (bs "function_call")).

Definition is_arguments event : bool := type_is "response.function_call_arguments.delta" event.

Definition end_speech (ending : Ending) (speech : Speech) : Speech :=
  {| sp_text := speech.(sp_text); sp_calls := speech.(sp_calls); sp_ending := Some ending |}.

(** An event of the model; after the end there is nothing. *)
Definition say1 (speech : Speech) event : Speech :=
  if is_some speech.(sp_ending) then speech
  else if type_is "response.output_text.delta" event then
    {| sp_text := speech.(sp_text) ++ default [] (get_str "delta" event); sp_calls := speech.(sp_calls); sp_ending := None |}
  else if is_call event then
    let item := index_get "item" event in
    {| sp_text := speech.(sp_text);
       sp_calls := speech.(sp_calls) ++ [(default [] (get_str "id" item), (default [] (get_str "call_id" item), default [] (get_str "name" item), []))];
       sp_ending := None |}
  else if is_arguments event then
    {| sp_text := speech.(sp_text);
       sp_calls := (λ call, if bool_decide (Some call.1 = get_str "item_id" event) then (call.1, add_arguments (default [] (get_str "delta" event)) call.2) else call)
                     <$> speech.(sp_calls);
       sp_ending := None |}
  else if type_is "response.completed" event then end_speech (Ended (bs (if is_empty speech.(sp_calls) then "stop" else "tool_calls"))) speech
  else if type_is "response.incomplete" event then end_speech (Ended (bs "length")) speech
  else if type_is "response.failed" event then end_speech Failed speech
  else speech.

Definition say (events : list Tree) : Speech := foldl say1 unsaid events.

(** What an event may be after the ones before it: its texts are texts, an item is added once and its arguments come after it. *)
Definition sayable (speech : Speech) event : Prop :=
  (type_is "response.output_text.delta" event = true → is_Some (get_str "delta" event)) ∧
  (is_call event = true → ∃ id call_id name, let item := index_get "item" event in
    get_str "id" item = Some id ∧ get_str "call_id" item = Some call_id ∧ get_str "name" item = Some name ∧ (id ∉ speech.(sp_calls).*1)) ∧
  (is_arguments event = true → is_Some (get_str "delta" event) ∧ ∃ id, get_str "item_id" event = Some id ∧ id ∈ speech.(sp_calls).*1).

Fixpoint well_said (speech : Speech) (events : list Tree) : Prop :=
  match events with
  | [] => True
  | event :: events => (is_some speech.(sp_ending) = false → sayable speech event) ∧ well_said (say1 speech event) events
  end.

Fixpoint chat_run (events : list Tree) (self : ChatStream) : list (ChatFrame Num) * ChatStream :=
  match events with
  | [] => ([], self)
  | event :: events => let '(frames, self) := chat_event event self in let '(more, self) := chat_run events self in (frames ++ more, self)
  end.

(** ** Lemmas *)
Lemma hear_chunk heard delta finish self : hear1 heard (Frame (chunk_value delta finish self)) = hear_finish finish (hear_delta delta heard).
Proof. reflexivity. Qed.

Lemma hear_usage heard usage self : hear1 heard (Frame (usage_value usage self)) = heard.
Proof. reflexivity. Qed.

Lemma hear_error heard error : hear1 heard (Frame (JObject [(bs "error", error)])) =
  {| hd_text := heard.(hd_text); hd_calls := heard.(hd_calls); hd_ending := Some Failed |}.
Proof. reflexivity. Qed.

Lemma hear_text heard value : hear_delta (JObject [(bs "content", value)]) heard =
  {| hd_text := heard.(hd_text) ++ default [] (as_str value); hd_calls := heard.(hd_calls); hd_ending := heard.(hd_ending) |}.
Proof. reflexivity. Qed.

Lemma hear_role heard : hear_delta (JObject [(bs "role", str "assistant"); (bs "content", str "")]) heard = heard.
Proof. destruct heard. unfold hear_delta. cbn. by rewrite app_nil_r. Qed.

Lemma hear_nothing heard : hear_delta (JObject []) heard = heard.
Proof. destruct heard. unfold hear_delta. cbn. by rewrite app_nil_r. Qed.

Lemma index_get_str key value : as_str (index_get key value) = get_str key value.
Proof. unfold index_get, get_str. by destruct (get (bs key) value). Qed.

Lemma hear_added heard index event id name : get_str "call_id" (index_get "item" event) = Some id → get_str "name" (index_get "item" event) = Some name →
  hear_delta (added_delta index event) heard = {| hd_text := heard.(hd_text); hd_calls := heard.(hd_calls) ++ [(id, name, [])]; hd_ending := heard.(hd_ending) |}.
Proof.
  intros Hid Hname. rewrite <- index_get_str in Hid, Hname. unfold added_delta. set (item := index_get "item" event) in *. unfold hear_delta.
  set (delta := JObject [(bs "tool_calls", _)]).
  assert (get_str "content" delta = None) as -> by reflexivity. cbn [default from_option]. rewrite app_nil_r. f_equal.
  destruct (index_get "call_id" item); try done. injection Hid as [= ->]. destruct (index_get "name" item); try done. injection Hname as [= ->]. reflexivity.
Qed.

Lemma hear_arguments heard index event more : index <= U64_MAX → get_str "delta" event = Some more →
  hear_delta (arguments_delta index event) heard =
    {| hd_text := heard.(hd_text); hd_calls := alter (add_arguments more) (N.to_nat index) heard.(hd_calls); hd_ending := heard.(hd_ending) |}.
Proof.
  intros Hi Hd. rewrite <- index_get_str in Hd. unfold arguments_delta, hear_delta. set (delta := JObject [(bs "tool_calls", _)]).
  assert (get_str "content" delta = None) as -> by reflexivity. cbn [default from_option]. rewrite app_nil_r. f_equal.
  destruct (index_get "delta" event); try done. injection Hd as [= ->].
  transitivity (match value_as_u64 (num index) with Some i => alter (add_arguments more) (N.to_nat i) heard.(hd_calls) | None => heard.(hd_calls) end); [reflexivity|].
  cbn. by rewrite as_u64_num.
Qed.
End speech.

Section simulation.
Context {Num F : Type} `{SerdeJson Num F}.
Abbreviation Tree := (Value Num).
Implicit Types (event : Tree).

(** The state of the converter after a speech. *)
Record speaks (speech : Speech) (self : ChatStream) : Prop := {
  sk_calls : self.(cs_calls) = N.of_nat (length speech.(sp_calls));
  sk_indices : ∀ id index, self.(cs_call_indices) !! id = Some index ↔ speech.(sp_calls).*1 !! N.to_nat index = Some id;
  sk_distinct : NoDup speech.(sp_calls).*1;
  sk_terminal : self.(cs_terminal) = is_some speech.(sp_ending);
}.

Lemma take_names_speaks speech event self : speaks speech self → speaks speech (take_names event self).
Proof. intros [? ? ? ?]. unfold take_names. destruct (get _ event); by split. Qed.

Lemma item_id event : pointer (bs "/item/id") event ≫= as_str = get_str "id" (index_get "item" event).
Proof.
  unfold pointer. change (pointer_tokens (bs "/item/id")) with (Some [bs "item"; bs "id"]). cbn [mbind option_bind pointer_walk bs String.list_ascii_of_string].
  rewrite letter_step by done. unfold index_get, get_str. cbn [bs String.list_ascii_of_string]. destruct (get _ event) as [item|]; [|done].
  cbn [mbind option_bind default from_option id]. rewrite letter_step by done. by destruct (get _ item).
Qed.

Lemma other_kinds kind event : type_is kind event = true → ∀ kind', bs kind ≠ bs kind' → type_is kind' event = false.
Proof. intros Hk kind'. by apply type_is_other. Qed.

(** Frames that begin nothing new, and the end marker exactly when the speech has an end that is no failure. *)
Definition marked (ending : option Ending) (frames : list (ChatFrame Num)) : Prop :=
  ∃ values, frames = (Frame <$> values) ++ match ending with Some (Ended _) => [FrameDone] | _ => [] end.

Lemma heard_names speech self event finish delta : 
  foldl hear1 (heard_of speech) [Frame (chunk_value delta finish (take_names event self))] = hear_finish finish (hear_delta delta (heard_of speech)).
Proof. apply hear_chunk. Qed.

Lemma final_usage_heard event self heard : foldl hear1 heard (final_usage event self) = heard ∧ ∃ values, final_usage event self = Frame <$> values.
Proof.
  unfold final_usage. destruct (cs_include_usage self); [|split; [done|by exists []]].
  destruct (get _ event) as [response|]; [|split; [done|by exists []]]. destruct (responses_to_chat response) as [document|]; [|split; [done|by exists []]].
  destruct (get _ document) as [usage|]; [|split; [done|by exists []]]. split; [apply hear_usage|by exists [usage_value usage self]].
Qed.

(** An ending event. *)
Lemma chat_end speech event self reason :
  speaks speech self → speech.(sp_ending) = None →
  let finish := str reason in
  let frames := [Frame (chunk_value (JObject []) finish self)] ++ final_usage event self ++ [FrameDone] in
  foldl hear1 (heard_of speech) frames = heard_of (end_speech (Ended (bs reason)) speech) ∧ speaks (end_speech (Ended (bs reason)) speech) (with_end self) ∧
  marked (Some (Ended (bs reason))) frames.
Proof.
  intros [Hc Hi Hd Ht] He finish frames. destruct (final_usage_heard event self (heard_of (end_speech (Ended (bs reason)) speech))) as [Hu [values Hv]]. split_and!.
  - unfold frames. rewrite !foldl_app. cbn [foldl]. rewrite hear_chunk, hear_nothing. unfold hear_finish, finish, str, as_str. cbn [heard_of hd_text hd_calls].
    unfold heard_of, end_speech in Hu. cbn [sp_text sp_calls sp_ending] in Hu. cbn [hear1]. exact Hu.
  - by split.
  - exists (chunk_value (JObject []) finish self :: values). unfold frames. by rewrite Hv.
Qed.

Lemma alter_call calls id index more : NoDup calls.*1 → calls.*1 !! index = Some id →
  ((λ call : bytes * (bytes * bytes * bytes), if bool_decide (Some call.1 = Some id) then (call.1, add_arguments more call.2) else call) <$> calls).*2 =
    alter (add_arguments more) index calls.*2.
Proof.
  revert index. induction calls as [|[id' call] calls IH]; intros index; [done|]. cbn [fmap list_fmap fst snd]. intros [Hn Hd]%NoDup_cons. destruct index as [|index]; cbn.
  - intros [= ->]. rewrite bool_decide_true by done. cbn. f_equal. clear IH Hd. induction calls as [|[id' call'] calls IH]; [done|].
    cbn in *. apply not_elem_of_cons in Hn as [Hne Hn]. rewrite bool_decide_false by congruence. cbn. by rewrite IH.
  - intros Hl. rewrite bool_decide_false; [|intros [= ->]; apply Hn; apply (list_elem_of_lookup_2 _ index); exact Hl]. cbn. f_equal. by apply IH.
Qed.

Lemma keep_items (f : bytes * (bytes * bytes * bytes) → bytes * (bytes * bytes * bytes)) calls : (∀ call, (f call).1 = call.1) → (f <$> calls).*1 = calls.*1.
Proof. intros Hf. induction calls as [|call calls IH]; [done|]. cbn. by rewrite Hf, IH. Qed.

Lemma chat_event_speaks speech event self : speaks speech self → (is_some speech.(sp_ending) = false → sayable speech event) →
  N.of_nat (length speech.(sp_calls)) <= U64_MAX →
  let '(frames, self') := chat_event event self in
  foldl hear1 (heard_of speech) frames = heard_of (say1 speech event) ∧ speaks (say1 speech event) self' ∧
  (if is_some speech.(sp_ending) then frames = [] else marked (say1 speech event).(sp_ending) frames).
Proof.
  intros Hsk Hsay Hlen. unfold chat_event, say1. rewrite (sk_terminal _ _ Hsk). destruct (is_some speech.(sp_ending)) eqn:Ee; [done|].
  specialize (Hsay eq_refl). assert (speech.(sp_ending) = None) as En by (by destruct speech.(sp_ending)).
  pose proof (take_names_speaks speech event self Hsk) as Hsk'. set (self' := take_names event self) in *. clearbody self'. clear Hsk self.
  assert (marked None []) as Hm0 by (by exists []). assert (∀ value, marked None [Frame value]) as Hm1 by (intros value; by exists [value]).
  unfold chat_step. fold (is_call event). fold (is_arguments event).
  destruct (type_is "response.created" event) eqn:E0.
  { unfold is_call, is_arguments. rewrite !(other_kinds _ _ E0) by done. cbn [andb is_null]. cbn [foldl]. rewrite hear_chunk, hear_role. rewrite En. by split_and!. }
  destruct (type_is "response.output_text.delta" event) eqn:E1.
  { cbn [is_null foldl]. rewrite hear_chunk, hear_text, index_get_str. destruct Hsk' as [Hc Hi Hd Ht]. rewrite En in Ht. split_and!; [|by split|apply Hm1].
    unfold hear_finish, heard_of. cbn [as_str sp_text sp_calls sp_ending hd_text hd_calls hd_ending]. by rewrite En. }
  destruct (is_call event) eqn:E2.
  { destruct Hsay as (_ & Hcall & _). destruct (Hcall E2) as (id & call_id & name & Hid & Hcid & Hname & Hnew). rewrite item_id, Hid. cbn [is_null foldl].
    rewrite hear_chunk, (hear_added _ _ _ _ _ Hcid Hname), Hcid, Hname. cbn [default from_option Datatypes.id]. destruct Hsk' as [Hc Hi Hd Ht]. rewrite En in Ht. split_and!; [|split|apply Hm1].
    - unfold hear_finish, heard_of. cbn [as_str sp_text sp_calls sp_ending hd_text hd_calls hd_ending]. by rewrite En, fmap_app.
    - cbn. rewrite length_app, Hc. cbn. lia.
    - intros id' index. cbn [with_calls cs_call_indices sp_calls]. rewrite fmap_app. cbn [fmap list_fmap fst].
      destruct (decide (id' = id)) as [->|Hne].
      + rewrite lookup_insert_eq, lookup_snoc_Some, length_fmap. split.
        * intros [= <-]. right. split; [|done]. lia.
        * intros [[_ Hl]|[Hl _]]; [|f_equal; lia]. apply list_elem_of_lookup_2 in Hl. done.
      + rewrite lookup_insert_ne, Hi, lookup_snoc_Some, length_fmap by done. split; [|intros [[_ Hl]|[_ Hl]]; [done|congruence]].
        intros Hl. left. split; [|done]. apply lookup_lt_Some in Hl. by rewrite length_fmap in Hl.
    - cbn. rewrite fmap_app. apply NoDup_app. split_and!; [done| |apply NoDup_singleton]. intros x Hx Hx'. apply list_elem_of_singleton in Hx' as ->. done.
    - done. }
  destruct (is_arguments event) eqn:E3.
  { destruct Hsay as (_ & _ & Harg). destruct (Harg E3) as ([more Hmore] & id & Hid & Hin). apply list_elem_of_lookup in Hin as [i Hi'].
    destruct Hsk' as [Hc Hi Hd Ht]. rewrite En in Ht. assert (call_index event self' = N.of_nat i) as ->.
    { unfold call_index. rewrite Hid. cbn [mbind option_bind]. assert (self'.(cs_call_indices) !! id = Some (N.of_nat i)) as -> by (apply Hi; by rewrite Nat2N.id). done. }
    cbn [is_null foldl]. rewrite hear_chunk, (hear_arguments _ _ _ more); [|apply lookup_lt_Some in Hi'; rewrite length_fmap in Hi'; lia|done].
    rewrite Hid, Hmore. cbn [default from_option Datatypes.id]. split_and!; [|split|apply Hm1].
    - unfold hear_finish, heard_of. cbn [as_str sp_text sp_calls sp_ending hd_text hd_calls hd_ending]. rewrite Nat2N.id, En. f_equal. symmetry. by apply alter_call.
    - cbn. by rewrite length_fmap.
    - cbn. rewrite keep_items; [done|]. intros call. by destruct (bool_decide _).
    - cbn. rewrite keep_items; [done|]. intros call. by destruct (bool_decide _).
    - by cbn. }
  destruct (type_is "response.completed" event) eqn:E4.
  { assert ((0 <? cs_calls self') = negb (is_empty speech.(sp_calls))) as ->. { rewrite (sk_calls _ _ Hsk'). by destruct speech.(sp_calls). }
    assert (∀ b : bool, (if negb b then "tool_calls" else "stop")%string = (if b then "stop" else "tool_calls")%string) as -> by (by intros []).
    by apply chat_end. }
  destruct (type_is "response.incomplete" event) eqn:E5; [by apply chat_end|].
  destruct (type_is "response.failed" event) eqn:E6; [|by rewrite En].
  destruct Hsk' as [Hc Hi Hd Ht]. rewrite En in Ht. cbn [foldl]. rewrite hear_error. split_and!; [done|by split|]. eexists [_]. done.
Qed.
End simulation.

(** A whole stream. *)
Section whole.
Context {Num F : Type} `{SerdeJson Num F}.
Abbreviation Tree := (Value Num).
Implicit Types (event : Tree) (events : list Tree).

Lemma say1_calls speech event : (length (say1 speech event).(sp_calls) <= S (length speech.(sp_calls)))%nat.
Proof.
  unfold say1. destruct (is_some _); [lia|]. repeat (match goal with |- context [if ?b then _ else _] => destruct b end); cbn;
    rewrite ?length_app, ?length_fmap; cbn; lia.
Qed.

Lemma chat_run_speaks speech events self : speaks speech self → well_said speech events →
  N.of_nat (length speech.(sp_calls) + length events) <= U64_MAX →
  let '(frames, self') := chat_run events self in
  foldl hear1 (heard_of speech) frames = heard_of (foldl say1 speech events) ∧ speaks (foldl say1 speech events) self' ∧
  (if is_some speech.(sp_ending) then frames = [] else marked (foldl say1 speech events).(sp_ending) frames).
Proof.
  revert speech self. induction events as [|event events IH]; intros speech self Hsk Hw Hn; cbn [chat_run].
  - cbn. split_and!; [done|done|]. destruct (sp_ending speech); [done|]. by exists [].
  - destruct Hw as [Hsay Hw]. pose proof (chat_event_speaks speech event self Hsk Hsay ltac:(cbn in Hn; lia)) as He.
    destruct (chat_event event self) as [frames self1]. destruct He as (Hh & Hsk1 & Hm).
    specialize (IH (say1 speech event) self1 Hsk1 Hw). pose proof (say1_calls speech event). cbn [length] in Hn. specialize (IH ltac:(lia)).
    destruct (chat_run events self1) as [more self2]. destruct IH as (Hh' & Hsk2 & Hm'). cbn [foldl]. split_and!; [by rewrite foldl_app, Hh|done|].
    destruct (is_some speech.(sp_ending)) eqn:Es.
    + subst frames. unfold say1 in Hm'. by rewrite !Es in Hm'.
    + destruct Hm as [values ->]. destruct (sp_ending (say1 speech event)) as [ending|] eqn:Ee; cbn [is_some] in Hm'.
      * subst more. rewrite app_nil_r. exists values. f_equal. clear -Ee. assert (foldl say1 (say1 speech event) events = say1 speech event) as ->; [|by rewrite Ee].
        generalize dependent (say1 speech event). intros s Es. induction events as [|e events IHe]; [done|]. cbn [foldl]. assert (say1 s e = s) as ->; [|done].
        unfold say1. by rewrite Es.
      * destruct Hm' as [values' ->]. exists (values ++ values'). by rewrite fmap_app, app_nil_r, <- app_assoc.
Qed.
End whole.

(** ** The task *)
Section task_proofs.
Context {Num F : Type} `{SerdeJson Num F}.
Abbreviation Tree := (Value Num).
Abbreviation State := (TaskState Num).
Context (from_str from_slice : bytes → option Tree) (value_to_string : Tree → bytes) (config : TaskConfig).
Implicit Types (s : State) (event : Tree) (events : list Tree).

(** The chunks that were accepted, and the responses that were bound. *)
Definition relayed1 (event : Event TaskCall) : list bytes :=
  match event with
  | Ev c answer => match c in TaskCall B return B → list bytes with SendChunk chunk => λ sent, if sent then [chunk] else [] | _ => λ _, [] end answer
  end.

Definition bound1 (event : Event TaskCall) : list bytes :=
  match event with
  | Ev c answer => match c in TaskCall B return B → list bytes with BindResponse id => λ bound, if bound then [id] else [] | _ => λ _, [] end answer
  end.

Definition relayed (history : list (Event TaskCall)) : list bytes := concat (relayed1 <$> history).

Definition bound (history : list (Event TaskCall)) : list bytes := concat (bound1 <$> history).

Definition append_event (event : Event TaskCall) (history : list (Event TaskCall)) : list (Event TaskCall) := history ++ [event].

Lemma relayed_record (event : Event TaskCall) history : relayed (append_event event history) = relayed history ++ relayed1 event.
Proof. unfold relayed, append_event. rewrite fmap_app, concat_app. cbn. by rewrite app_nil_r. Qed.

Lemma bound_record (event : Event TaskCall) history : bound (append_event event history) = bound history ++ bound1 event.
Proof. unfold bound, append_event. rewrite fmap_app, concat_app. cbn. by rewrite app_nil_r. Qed.

Lemma observe_history history : Programs.observe append_event history [] = history.
Proof.
  induction history as [|event history IH] using rev_ind; [done|]. by rewrite observe_snoc, IH.
Qed.

(** What the observer knows of a response, whatever the clock says. *)
Definition observed (observer : ResponseObserver) events : ResponseObserver := foldl (λ observer event, (OpenAiUsage.observe 0 event observer).2) observer events.

Definition after_events events : ResponseObserver := observed observer_default events.

(** Observers that differ in the instant of the first content. *)
Record alike (a b : ResponseObserver) : Prop := {
  al_first : is_some a.(ro_first_content_at) = is_some b.(ro_first_content_at);
  al_usage : a.(ro_usage) = b.(ro_usage);
  al_model : a.(ro_model) = b.(ro_model);
  al_id : a.(ro_response_id) = b.(ro_response_id);
  al_terminal : a.(ro_terminal) = b.(ro_terminal);
}.

Lemma observe_alike now now' event a b : alike a b →
  (OpenAiUsage.observe now event a).1 = (OpenAiUsage.observe now' event b).1 ∧ alike (OpenAiUsage.observe now event a).2 (OpenAiUsage.observe now' event b).2.
Proof.
  destruct a as [fa ua ma ia ta], b as [fb ub mb ib tb]. intros [Hf Hu Hm Hi Ht]. cbn in Hf, Hu, Hm, Hi, Ht. subst ub mb ib tb. unfold OpenAiUsage.observe. cbn [ro_terminal ro_first_content_at ro_usage ro_model ro_response_id].
  destruct (is_some ta); [by split; [|split]|].
  assert (is_some (if negb (is_some fa) && has_output_content event then Some now else fa) = is_some (if negb (is_some fb) && has_output_content event then Some now' else fb)) as Hf'.
  { rewrite Hf. by destruct (negb _ && _). }
  destruct (not_null _) as [value|]; [destruct (usage_parse value) as [incoming|]|].
  - unfold take_usage. cbn [ro_usage]. destruct (_ || _); destruct (kind_in _ _); (split; [done|by split]).
  - split; [done|by split].
  - destruct (kind_in _ _); (split; [done|by split]).
Qed.

Lemma alike_refl a : alike a a.
Proof. by split. Qed.

Lemma observe_ok_terminal now event self b self' : OpenAiUsage.observe now event self = (Ok b, self') →
  is_some self'.(ro_terminal) = is_some self.(ro_terminal) || kind_in TERMINAL_EVENTS event.
Proof.
  unfold OpenAiUsage.observe. destruct (is_some self.(ro_terminal)) eqn:Et; [intros [= _ <-]; by rewrite Et|]. intros E.
  assert (kind_in TERMINAL_EVENTS event = true → is_some (get_str "type" event) = true) as Hkind.
  { unfold kind_in, type_is. intros (name & _ & Hn%bool_decide_eq_true)%existsb_exists. by rewrite Hn. }
  assert (∀ incoming o, ro_terminal (take_usage incoming o) = ro_terminal o) as Htake by (intros incoming o; unfold take_usage; by destruct (_ || _)).
  destruct (not_null _) as [value|]; [destruct (usage_parse value) as [incoming|]; [|done]|];
    (destruct (kind_in TERMINAL_EVENTS event); injection E as [= <- <-]; [by apply Hkind|]); rewrite ?Htake; cbn [ro_terminal]; by rewrite Et.
Qed.

Lemma chat_event_terminal event self : (chat_event event self).2.(cs_terminal) = self.(cs_terminal) || kind_in TERMINAL_EVENTS event.
Proof.
  unfold chat_event. destruct (cs_terminal self) eqn:Et; [done|]. assert (cs_terminal (take_names event self) = false) as Et'.
  { unfold take_names. by destruct (get _ event). }
  set (self' := take_names event self) in *. clearbody self'. clear self Et. unfold chat_step, kind_in, TERMINAL_EVENTS. cbn [existsb orb].
  destruct (type_is "response.created" event) eqn:E0; [rewrite !(other_kinds _ _ E0) by done; exact Et'|].
  destruct (type_is "response.output_text.delta" event) eqn:E1; [rewrite !(other_kinds _ _ E1) by done; exact Et'|].
  destruct (type_is "response.output_item.added" event && _) eqn:E2; [apply andb_true_iff in E2 as [E2 _]; rewrite !(other_kinds _ _ E2) by done; exact Et'|].
  destruct (type_is "response.function_call_arguments.delta" event) eqn:E3; [rewrite !(other_kinds _ _ E3) by done; exact Et'|].
  destruct (type_is "response.completed" event) eqn:E4; [done|].
  destruct (type_is "response.incomplete" event) eqn:E5; [by rewrite orb_true_r|].
  destruct (type_is "response.failed" event) eqn:E6; [done|exact Et'].
Qed.

(** ** The loop over the events of a chunk *)
Abbreviation History := (list (Event TaskCall)).
Abbreviation from_default := (decoder_new (4 * 1024 * 1024)).

Definition chunks_of (received : list Received) : list bytes := omap (λ r, match r with Rx_chunk chunk => Some chunk | _ => None end) received.

(** A chunk that is relayed is the next one. *)
Definition next_chunk (received : list Received) (history : History) (chunk : bytes) : Prop := (relayed history ++ [chunk]) `prefix_of` chunks_of received.

(** The response that is named up to the end of a chunk is bound before the chunk is sent. *)
Definition owned_chunk (history : History) (chunk : bytes) : Prop :=
  ∀ events decoder id, push_chunks from_str (relayed history ++ [chunk]) from_default = (Ok events, decoder) →
    (after_events events).(ro_response_id) = Some id → id ∈ bound history.

Definition task_allowed (received : list Received) B (c : TaskCall B) (history : History) : Prop :=
  match c with
  | SendChunk chunk => config.(tc_converted) = false → config.(tc_stream) = true → config.(tc_upstream_sse) = true →
      next_chunk received history chunk ∧ (is_chat config = false → owned_chunk history chunk)
  | BindResponse _ => is_chat config = false
  | _ => True
  end.

Section loop.
Context (received : list Received).
Abbreviation ok := (safe append_event (task_allowed received)).

(** A history with the same chunks and no fewer binds. *)
Definition quiet_after (o o' : History) : Prop := relayed o' = relayed o ∧ bound o ⊆ bound o'.

Lemma quiet_refl o : quiet_after o o.
Proof. done. Qed.

Lemma quiet_trans o1 o2 o3 : quiet_after o1 o2 → quiet_after o2 o3 → quiet_after o1 o3.
Proof. intros [E1 H1] [E2 H2]. split; [congruence|set_solver]. Qed.

Lemma quiet_event (e : Event TaskCall) o : relayed1 e = [] → quiet_after o (append_event e o).
Proof. intros He. split; [by rewrite relayed_record, He, app_nil_r|]. rewrite bound_record. set_solver. Qed.

Lemma observe_event_safe event s o (Q : State → History → Prop) :
  (∀ now o', quiet_after o o' →
    let '(answer, observer) := OpenAiUsage.observe now event s.(ts_observer) in Q (with_good (s.(ts_good) && is_ok answer) (with_observer observer s)) o') →
  ok (observe_event event s) o Q.
Proof.
  intros HQ. unfold observe_event. destruct (_ && has_output_content event).
  - split; [done|]. intros now. specialize (HQ now (append_event (Ev TaskNow now) o) (quiet_event (Ev TaskNow now) o eq_refl)). cbn.
    by destruct (OpenAiUsage.observe now event _).
  - specialize (HQ 0 o (quiet_refl o)). cbn. by destruct (OpenAiUsage.observe 0 event _).
Qed.

Lemma bind_named_safe s o (Q : bool * State → History → Prop) :
  (∀ more good bnd o', quiet_after o o' → (good = true → more = true ∧ s.(ts_good) = true) →
    (more = true → ((∀ id, s.(ts_bound) = Some id → id ∈ bound o) → (∀ id, bnd = Some id → id ∈ bound o') ∧
       (is_chat config = false → ∀ id, s.(ts_observer).(ro_response_id) = Some id → id ∈ bound o'))) →
    Q (more, with_good good (with_bound bnd s)) o') →
  ok (bind_named config s) o Q.
Proof.
  intros HQ. assert (∀ b, s = with_good s.(ts_good) (with_bound b s) ↔ b = s.(ts_bound)) as Hs.
  { intros b. destruct s. cbn. split; [by intros [= ->]|by intros ->]. }
  unfold bind_named. destruct (ro_response_id _) as [id|] eqn:Eid.
  - destruct (negb (is_chat config) && negb (bool_decide (ts_bound s = Some id))) eqn:Eg.
    + split; [by apply andb_true_iff in Eg as [?%negb_true_iff _]|]. intros [].
      * apply (HQ true s.(ts_good) (Some id)); [by apply quiet_event|done|]. intros _ Hb. rewrite bound_record. cbn [bound1].
        split; [intros id' [= ->]|intros _ id' [= ->]]; apply elem_of_app; right; by apply list_elem_of_singleton.
      * assert (with_good false s = with_good false (with_bound s.(ts_bound) s)) as E by (by destruct s). cbn. rewrite E. apply (HQ false false); [by apply quiet_event|done|done].
    + cbn. rewrite (proj2 (Hs _) eq_refl). apply (HQ true s.(ts_good)); [done|done|]. intros _ Hb. split; [done|]. intros Hc id' [= ->]. apply Hb.
      rewrite Hc in Eg. cbn in Eg. by apply negb_false_iff, bool_decide_eq_true in Eg.
  - cbn. rewrite (proj2 (Hs _) eq_refl). apply (HQ true s.(ts_good)); [done|done|]. intros _ Hb. by split.
Qed.

Lemma send_frames_safe frames s o (Q : State → History → Prop) : config.(tc_converted) = true →
  (∀ good o', bound o ⊆ bound o' → (good = true → s.(ts_good) = true ∧ relayed o' = relayed o ++ (frame_bytes value_to_string <$> frames)) → Q (with_good good s) o') →
  ok (send_frames value_to_string frames s) o Q.
Proof.
  intros Hconv. revert o. induction frames as [|frame frames IH]; intros o HQ; cbn [send_frames].
  - assert (s = with_good s.(ts_good) s) as E by (by destruct s). cbn. rewrite E. apply HQ; [done|]. intros Hg. split; [done|]. by rewrite app_nil_r.
  - split; [intros Hc; congruence|]. intros [].
    + apply IH. intros good o' Hb Hg. apply HQ; [rewrite bound_record in Hb; set_solver|]. intros Hgood. destruct (Hg Hgood) as [Hs Hr]. split; [done|].
      rewrite Hr, relayed_record, <- app_assoc. done.
    + apply (HQ false); [rewrite bound_record; set_solver|done].
Qed.

Definition converting : bool := config.(tc_converted) && config.(tc_stream).

(** What is carried from event to event. *)
Record carried (observer : ResponseObserver) (chat : ChatStream) s (o : History) : Prop := {
  ca_observer : alike s.(ts_observer) observer;
  ca_chat : s.(ts_chat) = chat;
  ca_terminal : converting = true → chat.(cs_terminal) = is_some observer.(ro_terminal);
  ca_bound : ∀ id, s.(ts_bound) = Some id → id ∈ bound o;
  ca_owned : is_chat config = false → ∀ id, s.(ts_observer).(ro_response_id) = Some id → id ∈ bound o;
}.

Definition chat_frames events (chat : ChatStream) : list bytes := if converting then frame_bytes value_to_string <$> (chat_run events chat).1 else [].

Definition chat_after events (chat : ChatStream) : ChatStream := if converting then (chat_run events chat).2 else chat.

(** How a loop over events ends. *)
Definition looped events s (o : History) s' (o' : History) : Prop :=
  s'.(ts_decoder) = s.(ts_decoder) ∧ (config.(tc_converted) = false → relayed o' = relayed o) ∧ bound o ⊆ bound o' ∧
  (s'.(ts_good) = true → s.(ts_good) = true ∧ ∀ observer chat, carried observer chat s o →
    carried (observed observer events) (chat_after events chat) s' o' ∧ relayed o' = relayed o ++ chat_frames events chat).

Lemma chat_frames_cons event events chat : chat_frames (event :: events) chat = chat_frames [event] chat ++ chat_frames events (chat_after [event] chat).
Proof.
  unfold chat_frames, chat_after. destruct converting; [|done]. cbn [chat_run]. destruct (chat_event event chat) as [frames chat']. cbn [fst snd].
  destruct (chat_run events chat') as [more chat'']. cbn [fst snd]. by rewrite app_nil_r, fmap_app.
Qed.

Lemma chat_after_cons event events chat : chat_after (event :: events) chat = chat_after events (chat_after [event] chat).
Proof.
  unfold chat_after. destruct converting; [|done]. cbn [chat_run]. destruct (chat_event event chat) as [frames chat']. cbn [fst snd]. by destruct (chat_run events chat').
Qed.

Lemma looped_nil s o : looped [] s o s o.
Proof.
  split_and!; try done. intros Hg. split; [done|]. intros observer chat Hc. unfold chat_frames, chat_after. destruct converting; by rewrite ?app_nil_r.
Qed.

Lemma looped_cons event events s o s1 o1 s' o' : looped [event] s o s1 o1 → looped events s1 o1 s' o' → looped (event :: events) s o s' o'.
Proof.
  intros (Hd & Hr & Hb & Hg) (Hd' & Hr' & Hb' & Hg'). split_and!; [by rewrite Hd'|intros Hc; rewrite Hr', Hr by done; done|by etrans|].
  intros Hgood. destruct (Hg' Hgood) as [Hgood1 Hca']. destruct (Hg Hgood1) as [Hgood0 Hca]. split; [done|]. intros observer chat Hc.
  destruct (Hca _ _ Hc) as [Hc1 Hr1]. destruct (Hca' _ _ Hc1) as [Hc2 Hr2]. rewrite chat_after_cons, chat_frames_cons. split; [exact Hc2|]. by rewrite Hr2, Hr1, app_assoc.
Qed.

Lemma safe_ret1 {A} (a : A) o (Q : A → History → Prop) : Q a o → ok (Ret a) o Q.
Proof. done. Qed.

(** What an event did to the state. *)
Lemma turn_looped event now s o answer ob s' o' : OpenAiUsage.observe now event s.(ts_observer) = (answer, ob) →
  s'.(ts_decoder) = s.(ts_decoder) → s'.(ts_observer) = ob → bound o ⊆ bound o' → (config.(tc_converted) = false → relayed o' = relayed o) →
  (s'.(ts_good) = true → s.(ts_good) = true ∧ is_ok answer = true ∧
    ((∀ id, s.(ts_bound) = Some id → id ∈ bound o) →
      (∀ id, s'.(ts_bound) = Some id → id ∈ bound o') ∧ (is_chat config = false → ∀ id, ob.(ro_response_id) = Some id → id ∈ bound o')) ∧
    if converting && negb (is_some s.(ts_observer).(ro_terminal))
    then s'.(ts_chat) = (chat_event event s.(ts_chat)).2 ∧ relayed o' = relayed o ++ (frame_bytes value_to_string <$> (chat_event event s.(ts_chat)).1)
    else s'.(ts_chat) = s.(ts_chat) ∧ relayed o' = relayed o) →
  looped [event] s o s' o'.
Proof.
  intros Eob Hd Hob Hb Hr Hgood. split_and!; [done|done|done|]. intros Hg. destruct (Hgood Hg) as (Hs & Hok & Hbnd & Hchat). split; [done|].
  intros observer chat [Ha Hch Ht Hbo How]. destruct (Hbnd Hbo) as [Hb1 Hb2]. subst chat.
  destruct (observe_alike now 0 event _ _ Ha) as [He Hal]. rewrite Eob in He, Hal. cbn [fst snd] in He, Hal.
  destruct (OpenAiUsage.observe 0 event observer) as [answer0 ob0] eqn:E0. cbn [fst snd] in He, Hal. subst answer0.
  assert (observed observer [event] = ob0) as -> by (cbn; by rewrite E0).
  unfold chat_frames, chat_after. destruct converting eqn:Hc; cbn [andb] in Hchat.
  - assert ((chat_event event s.(ts_chat)).2.(cs_terminal) = is_some ob0.(ro_terminal)) as Hterm.
    { rewrite chat_event_terminal, Ht by done. destruct answer as [b|]; [|done]. symmetry. by eapply observe_ok_terminal. }
    cbn [chat_run]. rewrite (al_terminal _ _ Ha), <- Ht in Hchat by done.
    destruct (cs_terminal (ts_chat s)) eqn:Ect; cbn [negb] in Hchat; destruct Hchat as [Hch Hrel].
    + assert (chat_event event (ts_chat s) = ([], ts_chat s)) as E by (unfold chat_event; by rewrite Ect). rewrite E in *. cbn [fst snd app fmap list_fmap] in *.
      split; [|by rewrite app_nil_r]. split; [by rewrite Hob|done|by rewrite Hterm|exact Hb1|by rewrite Hob].
    + destruct (chat_event event (ts_chat s)) as [frames chat']. cbn [fst snd] in *. split; [|by rewrite app_nil_r]. split; [by rewrite Hob|done|by rewrite Hterm|exact Hb1|by rewrite Hob].
  - destruct Hchat as [Hch Hrel]. split; [|by rewrite app_nil_r]. split; [by rewrite Hob|done|congruence|exact Hb1|by rewrite Hob].
Qed.

Lemma event_turn_safe event s o (Q : bool * State → History → Prop) :
  (∀ more s' o', looped [event] s o s' o' → (s'.(ts_good) = true → more = true) → Q (more, s') o') → ok (event_turn value_to_string config event s) o Q.
Proof.
  intros HQ. unfold event_turn. apply safe_bind, observe_event_safe. intros now o1 Hq1. destruct (OpenAiUsage.observe now event s.(ts_observer)) as [answer ob] eqn:Eob.
  apply safe_bind, bind_named_safe. intros more good bnd o2 Hq2 Hgood Hbnd. pose proof (quiet_trans _ _ _ Hq1 Hq2) as [Hr Hb]. destruct Hq1 as [_ Hb1].
  destruct more.
  2: { apply HQ; [|cbn; intros Hg; by destruct (Hgood Hg) as [? _]]. apply (turn_looped event now s o answer ob); try done. cbn. intros Hg. by destruct (Hgood Hg) as [? _]. }
  specialize (Hbnd eq_refl). cbn [with_good with_observer ts_bound ts_observer ts_good] in Hgood, Hbnd.
  set (s2 := if _ && kind_in TERMINAL_EVENTS event then _ else _).
  assert (s2.(ts_decoder) = s.(ts_decoder) ∧ s2.(ts_observer) = ob ∧ s2.(ts_bound) = bnd ∧ s2.(ts_chat) = s.(ts_chat) ∧ s2.(ts_good) = good) as (E1 & E2 & E3 & E4 & E5).
  { unfold s2. destruct (_ && kind_in _ _); by split_and!. }
  clearbody s2. assert (good = true → ts_good s = true ∧ is_ok answer = true) as Hgood'. { intros Hg. apply Hgood in Hg as [_ Hg]. by apply andb_true_iff in Hg. }
  change (tc_converted config && tc_stream config) with converting. destruct (converting && _) eqn:Ec.
  - rewrite E4. destruct (chat_event event (ts_chat s)) as [frames chat'] eqn:Ech. apply safe_bind. apply andb_true_iff in Ec as [Ec1 Ec2]. unfold converting in Ec1. apply andb_true_iff in Ec1 as [Hconv Hst].
    apply send_frames_safe; [done|]. intros good' o3 Hb3 Hg3. apply HQ; [|done]. apply (turn_looped event now s o answer ob); cbn; try done; [by etrans|congruence|].
    rewrite E3. unfold converting. rewrite Hconv, Hst, Ec2, Ech. cbn [andb fst snd]. intros Hg. destruct (Hg3 Hg) as [Hg4 Hrel]. cbn in Hg4; rewrite E5 in Hg4. apply Hgood' in Hg4 as [? ?].
    split_and!; try done; [|by rewrite Hrel, Hr]. intros Hbo. destruct Hbnd as [Hx Hy]; [intros id Hid; by apply Hb1, Hbo|]. split; [intros id Hid; by apply Hb3, Hx|intros Hc id Hid; by eapply Hb3, Hy].
  - apply HQ; [|done]. apply (turn_looped event now s o answer ob); try done. rewrite E3, E4, E5, Ec. intros Hg. apply Hgood' in Hg as [? ?]. split_and!; try done.
    intros Hbo. apply Hbnd. intros id Hid. by apply Hb1, Hbo.
Qed.

Lemma event_loop_safe events s o (Q : State → History → Prop) : (∀ s' o', looped events s o s' o' → Q s' o') → ok (event_loop value_to_string config events s) o Q.
Proof.
  revert s o Q. induction events as [|event events IH]; intros s o Q HQ; cbn [event_loop]; [apply HQ, looped_nil|].
  apply safe_bind, event_turn_safe. intros [] s1 o1 Hl Hg.
  - apply IH. intros s' o' Hl'. apply HQ. by eapply looped_cons.
  - apply HQ. apply (looped_cons _ _ _ _ s1 o1); [done|]. split_and!; try done. intros Hgood. by apply Hg in Hgood.
Qed.
(** ** The loop over the chunks *)
Abbreviation chat_new := (chat_default config.(tc_include_usage)).

Definition relays_chunks : bool := config.(tc_stream) && negb config.(tc_converted).

(** The chunks [before] were received and read. *)
Definition flowing (before : list bytes) s (o : History) : Prop :=
  ∃ events, push_chunks from_str before from_default = (Ok events, s.(ts_decoder)) ∧
    carried (after_events events) (chat_after events chat_new) s o ∧
    relayed o = (if relays_chunks then before else []) ++ chat_frames events chat_new.

Lemma push_chunks_snoc before chunk events decoder : push_chunks from_str before from_default = (Ok events, decoder) →
  push_chunks from_str (before ++ [chunk]) from_default =
    match push from_str chunk decoder with (Ok more, d) => (Ok (events ++ more), d) | (Err e, d) => (Err e, d) end.
Proof. rewrite !push_chunks_concat, concat_app. cbn [concat]. rewrite app_nil_r. apply push_app_Ok. Qed.

Lemma observed_app events more observer : observed observer (events ++ more) = observed (observed observer events) more.
Proof. apply foldl_app. Qed.

Lemma chat_after_app events more chat : chat_after (events ++ more) chat = chat_after more (chat_after events chat).
Proof.
  revert chat. induction events as [|event events IH]; intros chat; cbn [app].
  - unfold chat_after. by destruct converting.
  - by rewrite chat_after_cons, IH, <- (chat_after_cons event events).
Qed.

Lemma chat_frames_app events more chat : chat_frames (events ++ more) chat = chat_frames events chat ++ chat_frames more (chat_after events chat).
Proof.
  revert chat. induction events as [|event events IH]; intros chat; cbn [app].
  - unfold chat_frames, chat_after. by destruct converting.
  - by rewrite chat_frames_cons, IH, (chat_frames_cons event events), app_assoc, (chat_after_cons event events).
Qed.

Lemma chunk_step_safe chunk before s o (Q : bool * State → History → Prop) : config.(tc_upstream_sse) = true → s.(ts_good) = true → flowing before s o →
  (before ++ [chunk]) `prefix_of` chunks_of received →
  (∀ more s' o', (s'.(ts_good) = true → flowing (before ++ [chunk]) s' o') → (more = true → s'.(ts_good) = true) → Q (more, s') o') →
  ok (chunk_step from_str value_to_string config chunk s) o Q.
Proof.
  intros Hsse Hgood (events & Hpush & Hca & Hrel) Hpre HQ. unfold chunk_step. cbv zeta. rewrite Hsse. cbn [ts_decoder with_count].
  pose proof (push_chunks_snoc _ chunk _ _ Hpush) as Hnext. destruct (push from_str chunk s.(ts_decoder)) as [[more|e] decoder]; [|cbn; apply HQ; done].
  apply safe_bind, safe_bind, event_loop_safe. set (s0 := with_decoder decoder _). intros s1 o1 (Hd & Hr & Hb & Hg).
  assert (carried (after_events events) (chat_after events chat_new) s0 o) as Hca0 by (destruct Hca; by split).
  assert (s0.(ts_decoder) = decoder ∧ s0.(ts_good) = true) as [Hd0 Hg0] by done. clearbody s0. apply safe_ret1. cbn [orb].
  destruct (ts_good s1) eqn:Hg1; cbn [negb]; [|apply safe_ret1, HQ; [congruence|done]]. destruct (Hg eq_refl) as [_ Hcarry]. destruct (Hcarry _ _ Hca0) as [Hca1 Hrel1].
  assert (∀ o2, bound o1 ⊆ bound o2 → relayed o2 = relayed o1 ++ (if relays_chunks then [chunk] else []) → flowing (before ++ [chunk]) s1 o2) as Hflow.
  { intros o2 Hb2 Hr2. exists (events ++ more). rewrite Hnext, Hd, Hd0. split_and!; [done| |].
    - unfold after_events. rewrite observed_app, chat_after_app. destruct Hca1. split; auto.
    - rewrite Hr2, Hrel1, Hrel, chat_frames_app. destruct relays_chunks eqn:Erc; [|by rewrite app_nil_r, <- app_assoc].
      unfold chat_frames, converting. unfold relays_chunks in Erc. apply andb_true_iff in Erc as [_ ->%negb_true_iff]. cbn [andb]. by rewrite !app_nil_r. }
  change (tc_stream config && negb (tc_converted config)) with relays_chunks. destruct relays_chunks eqn:Erc.
  - assert (relayed o1 = before) as Hbefore.
    { unfold relays_chunks in Erc. apply andb_true_iff in Erc as [_ Hconv%negb_true_iff]. rewrite (Hr Hconv), Hrel. unfold chat_frames, converting. rewrite Hconv. cbn [andb].
      apply app_nil_r. }
    split.
    + intros Hconv Hst _. unfold next_chunk, owned_chunk. rewrite Hbefore. split; [done|]. intros Hchat events' d id Hp Hid. rewrite Hnext in Hp. injection Hp as [= <- <-].
      apply (ca_owned _ _ _ _ Hca1 Hchat). rewrite (al_id _ _ (ca_observer _ _ _ _ Hca1)). rewrite <- Hid. unfold after_events. by rewrite observed_app.
    + intros [].
      * apply HQ; [intros _|done]. apply Hflow; [rewrite bound_record; cbn; by rewrite app_nil_r|by rewrite relayed_record].
      * by apply HQ.
  - apply HQ; [intros _|done]. apply Hflow; [done|by rewrite app_nil_r].
Qed.

Lemma receive_loop_safe rest before s o (Q : State → History → Prop) : config.(tc_upstream_sse) = true → s.(ts_good) = true → flowing before s o →
  chunks_of received = before ++ chunks_of rest →
  (∀ s' o', (s'.(ts_good) = true → ∃ before', before' `prefix_of` chunks_of received ∧ flowing before' s' o') → Q s' o') →
  ok (receive_loop from_str value_to_string config rest s) o Q.
Proof.
  intros Hsse. revert before s o. induction rest as [|[chunk| |] rest IH]; intros before s o Hgood Hflow Hall HQ; cbn [receive_loop].
  - apply HQ. intros _. exists before. split; [rewrite Hall; by apply prefix_app_r|done].
  - cbn in Hall. apply safe_bind, (chunk_step_safe chunk before); [done|done|done|rewrite Hall; exists (chunks_of rest); by rewrite <- app_assoc|].
    intros [] s' o' Hf Hm.
    + apply (IH (before ++ [chunk])); [by apply Hm|by apply Hf, Hm|by rewrite Hall, <- app_assoc|done].
    + apply HQ. intros Hg. exists (before ++ [chunk]). split; [rewrite Hall; exists (chunks_of rest); by rewrite <- app_assoc|by apply Hf].
  - by apply HQ.
  - by apply HQ.
Qed.
(** ** The end of the task *)

(** What a stream that is reported as complete was. *)
Definition completed s (o : History) : Prop :=
  ∃ before events, before `prefix_of` chunks_of received ∧ push_chunks from_str before from_default = (Ok events, s.(ts_decoder)) ∧
    relayed o = (if relays_chunks then before else []) ++ chat_frames events chat_new ∧
    has_partial_event s.(ts_decoder) = false ∧
    (converting = true → (chat_after events chat_new).(cs_terminal) = is_some (after_events events).(ro_terminal)) ∧
    (is_some (after_events events).(ro_terminal) = true ∨ config.(tc_converted) = false ∧ is_chat config = true ∧ is_done s.(ts_decoder) = true).

Lemma settle_safe s o (Q : State → History → Prop) : config.(tc_upstream_sse) = true →
  (s.(ts_good) = true → ∃ before, before `prefix_of` chunks_of received ∧ flowing before s o) →
  (∀ s', (s'.(ts_good) = true → completed s' o) → Q s' o) → ok (settle from_slice config s) o Q.
Proof.
  intros Hsse Hflow HQ. unfold settle. rewrite Hsse. cbn [negb andb]. set (s1 := if _ && is_done _ then _ else _).
  assert (s1.(ts_decoder) = s.(ts_decoder) ∧ s1.(ts_good) = s.(ts_good)) as [Hd Hg] by (unfold s1; destruct (_ && is_done _); by split).
  apply safe_bind, safe_ret1, safe_ret1, HQ. destruct (_ || _) eqn:E; [done|]. apply orb_false_iff in E as [[Hgood%negb_false_iff Hpart]%orb_false_iff Hterm%negb_false_iff].
  intros _. rewrite Hg in Hgood. destruct (Hflow Hgood) as (before & Hpre & events & Hpush & Hca & Hrel). exists before, events. rewrite Hd. split_and!; try done; [by rewrite <- Hd|apply Hca|].
  unfold s1 in Hterm. destruct (negb (tc_converted config) && is_chat config && is_done (ts_decoder s)) eqn:Ed.
  - right. apply andb_true_iff in Ed as [[Hc%negb_true_iff Hch]%andb_true_iff Hdone]. by split_and!.
  - left. by rewrite <- (al_terminal _ _ (ca_observer _ _ _ _ Hca)).
Qed.

(** A call that relays nothing. *)
Lemma completed_event s o (e : Event TaskCall) good : relayed1 e = [] → completed s o → completed (with_good good s) (append_event e o).
Proof.
  intros He (before & events & Hc). exists before, events. cbn [with_good ts_decoder]. rewrite relayed_record, He, app_nil_r. exact Hc.
Qed.

Lemma bind_last_safe s o (Q : State → History → Prop) : (s.(ts_good) = true → completed s o) →
  (∀ s' o', (s'.(ts_good) = true → completed s' o') → Q s' o') → ok (bind_last config s) o Q.
Proof.
  intros Hc HQ. unfold bind_last. destruct (ro_response_id _) as [id|]; [|by apply HQ]. destruct (_ && negb (is_chat config)) eqn:E; [|by apply HQ].
  split; [by apply andb_true_iff in E as [_ ?%negb_true_iff]|]. intros good. apply HQ. intros _. apply completed_event; [by destruct good|]. apply Hc. apply andb_true_iff in E as [[E _]%andb_true_iff _]. exact E.
Qed.

Definition completed_relay (o : History) : Prop := ∃ s, completed s o.

Lemma completed_relay_event (e : Event TaskCall) o : relayed1 e = [] → completed_relay o → completed_relay (append_event e o).
Proof. intros He [s Hs]. exists (with_good true s). by apply completed_event. Qed.

(** The report: the verdict is announced, and it is good only when the usage was stored. *)
Definition reported (good : bool) (o : History) : Prop :=
  (Ev (FinishExternal good) tt ∈ o) ∧ (Ev (SendReady good) tt ∈ o) ∧ (good = true → (∃ usage, Ev (PersistUsage usage) true ∈ o) ∧ completed_relay o).

Lemma announce_safe s o : (s.(ts_good) = true → (∃ usage, Ev (PersistUsage usage) true ∈ o) ∧ completed_relay o) → ok (announce config s) o reported.
Proof.
  intros Hc. assert (∀ B (c : TaskCall B) b o1, relayed1 (Ev c b) = [] → (s.(ts_good) = true → (∃ usage, Ev (PersistUsage usage) true ∈ o1) ∧ completed_relay o1) →
    s.(ts_good) = true → (∃ usage, Ev (PersistUsage usage) true ∈ append_event (Ev c b) o1) ∧ completed_relay (append_event (Ev c b) o1)) as Hstep.
  { intros B c b o1 He H1 Hg. destruct (H1 Hg) as [[usage Hu] Hr]. split; [exists usage; apply elem_of_app; by left|by apply completed_relay_event]. }
  unfold announce. split; [done|]. intros []. split; [done|]. intros []. split; [done|]. intros []. split; [done|]. intros []. split; [done|]. intros []. split; [done|]. intros [].
  cbn. split_and!; [unfold append_event; repeat (apply elem_of_app; (by right; apply list_elem_of_singleton) || left)..|].
  repeat (apply Hstep; [done|]). exact Hc.
Qed.

Lemma report_safe s o : (s.(ts_good) = true → completed_relay o) → ok (report config s) o reported.
Proof.
  intros Hc. assert (∀ o1, (s.(ts_good) = true → completed_relay o1) →
    ok (Do (PersistUsage (task_usage s)) (λ persisted, announce config (if persisted : bool then s else with_good false s))) o1 reported) as Hrest.
  { intros o1 Hc1. split; [done|]. intros []; apply announce_safe; [intros Hg|done]. split; [exists (task_usage s); apply elem_of_app; right; by apply list_elem_of_singleton|].
    apply completed_relay_event; [done|by apply Hc1]. }
  unfold report. apply safe_bind. destruct (ts_good s); [apply safe_ret1, Hrest; exact Hc|]. split; [done|]. intros []. by apply Hrest.
Qed.

Lemma response_task_safe o0 : config.(tc_upstream_sse) = true → config.(tc_stream) = true → relayed o0 = [] →
  ok (response_task from_str from_slice value_to_string config received) o0 reported.
Proof.
  intros Hsse Hst Hr0. unfold response_task. apply safe_bind, (receive_loop_safe received []); [done|done| |done|].
  { exists []. cbn [push_chunks task_new ts_decoder]. split_and!; [done| |].
    - unfold chat_after. destruct converting; cbn [chat_run snd]; (split; [apply alike_refl|done|done|done|done]).
    - unfold chat_frames. destruct relays_chunks, converting; by rewrite Hr0. }
  intros s1 o1 Hf. apply safe_bind, settle_safe; [done|exact Hf|]. intros s2 Hc. apply safe_bind, bind_last_safe; [exact Hc|]. intros s3 o3 Hc3.
  apply safe_bind. unfold send_whole. rewrite Hst. apply safe_ret1, report_safe. intros Hg. exists s3. by apply Hc3.
Qed.
End loop.
End task_proofs.

(** ** Properties *)
Section properties.
Context {Num F : Type} `{SerdeJson Num F}.
Context (from_str from_slice : bytes → option (Value Num)) (value_to_string : Value Num → bytes).

(** C34: an event stream that is not converted is relayed as it was received: every chunk that is sent to the client is the next one received. On Responses and its
    compaction no chunk is sent before its response belongs to the account: when it is sent, the response that the events up to its end name has been bound. On Chat,
    which has no continuation, no response is ever bound. The verdict is announced, and it is good only when the usage was stored and the chunks that the client
    accepted are a whole response, which ends in a terminal event or, for Chat, in the end marker, with nothing after it left undecoded. *)
Theorem stream_owned_and_whole config oracle received :
  config.(tc_upstream_sse) = true → config.(tc_stream) = true → config.(tc_converted) = false →
  let '(events, good) := run oracle (response_task from_str from_slice value_to_string config received) [] in
  (∀ i chunk sent, events !! i = Some (Ev (SendChunk chunk) sent) →
    next_chunk received (take i events) chunk ∧ (config.(tc_endpoint) ≠ ChatCompletions → owned_chunk from_str (take i events) chunk)) ∧
  (config.(tc_endpoint) = ChatCompletions → ∀ i id done, events !! i ≠ Some (Ev (BindResponse id) done)) ∧
  (Ev (FinishExternal good) tt ∈ events) ∧
  (good = true → (∃ usage, Ev (PersistUsage usage) true ∈ events) ∧
    ∃ decoded decoder, push_chunks from_str (relayed events) (decoder_new (4 * 1024 * 1024)) = (Ok decoded, decoder) ∧ has_partial_event decoder = false ∧
      (is_some (after_events decoded).(ro_terminal) = true ∨ is_chat config = true ∧ is_done decoder = true)).
Proof.
  intros Hsse Hst Hconv. pose proof (response_task_safe from_str from_slice value_to_string config received [] Hsse Hst eq_refl) as Hsafe.
  apply (run_safe append_event _ oracle _ [] _ []) in Hsafe. destruct (run oracle _ []) as [events good]. destruct Hsafe as (Hpost & _ & Hall). rewrite observe_history in Hpost.
  split_and!.
  - intros i chunk sent Hi. specialize (Hall i _ ltac:(cbn; lia) Hi). rewrite observe_history in Hall. destruct (Hall Hconv Hst Hsse) as [Hn Ho]. split; [exact Hn|].
    intros Hne. apply Ho. by apply bool_decide_eq_false.
  - intros Hchat i id stored Hi. specialize (Hall i _ ltac:(cbn; lia) Hi). cbn in Hall. by apply bool_decide_eq_false in Hall.
  - apply Hpost.
  - intros Hg. destruct Hpost as (_ & _ & Hpost). destruct (Hpost Hg) as [Hu [s (before & decoded & _ & Hp & Hr & Hpart & _ & Hend)]]. split; [exact Hu|].
    unfold chat_frames, converting, relays_chunks in Hr. rewrite Hconv, Hst in Hr. cbn [negb andb] in Hr. rewrite app_nil_r in Hr.
    exists decoded, s.(ts_decoder). rewrite Hr. split_and!; try done. destruct Hend as [|(_ & ? & ?)]; [by left|by right].
Qed.

(** C35: a Chat client hears the texts and the calls of the model. When the stream of an account is converted and the verdict is good, the frames that the client accepted are
    made of the events that were decoded from the chunks. If these events are fewer than 2^64 and well said, that is, up to the end each piece of text is a text, each
    call has an identifier of its own, a call identifier and a name, and each piece of arguments is a text and comes after the call that it names, then putting the frames
    together gives the text of the model, its calls with their names and their arguments, each piece of arguments in the call that it belongs to, and the way it ended;
    and there is one end marker, the last frame, unless the response failed. Events of other kinds say nothing to the client, a refusal among them. *)
Theorem chat_client_hears config oracle received :
  config.(tc_upstream_sse) = true → config.(tc_stream) = true → config.(tc_converted) = true →
  let '(events, good) := run oracle (response_task from_str from_slice value_to_string config received) [] in
  good = true → ∃ before decoded decoder frames, before `prefix_of` chunks_of received ∧
    push_chunks from_str before (decoder_new (4 * 1024 * 1024)) = (Ok decoded, decoder) ∧ relayed events = frame_bytes value_to_string <$> frames ∧
    (well_said unsaid decoded → N.of_nat (length decoded) <= U64_MAX →
      hear frames = heard_of (say decoded) ∧ is_some (say decoded).(sp_ending) = true ∧ marked (say decoded).(sp_ending) frames).
Proof.
  intros Hsse Hst Hconv. pose proof (response_task_safe from_str from_slice value_to_string config received [] Hsse Hst eq_refl) as Hsafe.
  apply (run_safe append_event _ oracle _ [] _ []) in Hsafe. destruct (run oracle _ []) as [events good]. destruct Hsafe as (Hpost & _ & _). rewrite observe_history in Hpost.
  intros Hg. destruct Hpost as (_ & _ & Hpost). destruct (Hpost Hg) as [_ [s (before & decoded & Hpre & Hp & Hr & _ & Hterm & Hend)]].
  assert (converting config = true) as Hc by (unfold converting; by rewrite Hconv, Hst). unfold relays_chunks, chat_frames, chat_after in Hr, Hterm. rewrite Hc in Hr, Hterm. rewrite Hst, Hconv in Hr. cbn [negb andb app] in Hr.
  exists before, decoded, s.(ts_decoder), (chat_run decoded (chat_default config.(tc_include_usage))).1. split_and!; [done|done|exact Hr|]. intros Hw Hn.
  assert (speaks unsaid (chat_default config.(tc_include_usage))) as Hsk.
  { split; [done| |constructor|done]. intros id index. cbn. rewrite lookup_empty. by destruct (N.to_nat index). }
  pose proof (chat_run_speaks unsaid decoded _ Hsk Hw Hn) as Hrun. specialize (Hterm eq_refl). destruct (chat_run decoded _) as [frames chat]. cbn [fst snd] in *.
  destruct Hrun as (Hh & Hsk' & Hm). unfold say. split_and!; [exact Hh| |exact Hm]. rewrite <- (sk_terminal _ _ Hsk'), Hterm. destruct Hend as [|(? & _)]; [done|congruence].
Qed.
End properties.

(** ** Samples *)
#[local] Instance stream_serde : SerdeJson Z Z := sample_serde [] (λ _, None).

Definition said (fields : list (string * Value Z)) : Value Z := JObject (prod_map bs id <$> fields).

(** The events of a small response, by the digits that stand for their texts. *)
Definition sample_events : list (string * Value Z) :=
  [("0", said [("type", txt "response.created"); ("response", said [("id", txt "resp"); ("model", txt "m")])]);
   ("1", said [("type", txt "response.output_text.delta"); ("delta", txt "hi")]);
   ("2", said [("type", txt "response.output_item.added"); ("item", said [("type", txt "function_call"); ("id", txt "i1"); ("call_id", txt "c1"); ("name", txt "f")])]);
   ("3", said [("type", txt "response.output_item.added"); ("item", said [("type", txt "function_call"); ("id", txt "i2"); ("call_id", txt "c2"); ("name", txt "g")])]);
   ("4", said [("type", txt "response.function_call_arguments.delta"); ("item_id", txt "i2"); ("delta", txt "{}")]);
   ("5", said [("type", txt "response.function_call_arguments.delta"); ("item_id", txt "i1"); ("delta", txt "[]")]);
   ("6", said [("type", txt "response.completed"); ("response", said [("id", txt "resp")])]);
   ("7", said [("type", txt "response.refusal.delta"); ("delta", txt "no")])]%string.

Definition sample_parse (l : bytes) : option (Value Z) := table_get sample_events l.

Definition stream_config (endpoint : OpenAiEndpoint) (converted : bool) : TaskConfig :=
  {| tc_endpoint := endpoint; tc_converted := converted; tc_stream := true; tc_upstream_sse := true; tc_status := 200; tc_include_usage := false |}.

Definition sample_received : list Received :=
  Rx_chunk <$> [encode_event (bs "0") ++ bs "data: "; bs "1" ++ [LF; LF]; concat (encode_event <$> [bs "2"; bs "3"; bs "4"]); encode_event (bs "5") ++ encode_event (bs "6")].

Definition task_answer (past : list (Event TaskCall)) B (c : TaskCall B) : B :=
  match c in TaskCall B return B with
  | TaskNow => 7
  | SendChunk _ | BindResponse _ | PersistUsage _ => true
  | TrySendError | RecordOutcome _ _ | RecordModels _ _ | SendUsage _ | FinishExternal _ | CancelTerminal | SendReady _ => tt
  end.

Abbreviation sample_task endpoint converted :=
  (run task_answer (response_task sample_parse sample_parse (λ _, bs "{}") (stream_config endpoint converted) sample_received) []).

Lemma stream_owned_and_whole_witness :
  (sample_task Responses false).2 = true ∧ bound (sample_task Responses false).1 = [bs "resp"; bs "resp"] ∧
  ∃ decoded decoder, push_chunks sample_parse (relayed (sample_task Responses false).1) (decoder_new (4 * 1024 * 1024)) = (Ok decoded, decoder) ∧ has_partial_event decoder = false.
Proof.
  assert ((sample_task Responses false).2 = true) as Eg by by vm_compute. split; [exact Eg|]. split; [by vm_compute|].
  pose proof (stream_owned_and_whole sample_parse sample_parse (λ _, bs "{}") (stream_config Responses false) task_answer sample_received eq_refl eq_refl eq_refl) as Hw.
  destruct (run _ _ []) as [events good]. cbn [fst snd] in *. destruct Hw as (_ & _ & _ & Hw). destruct (Hw Eg) as (_ & decoded & decoder & Hp & Hpart & _).
  by exists decoded, decoder.
Defined.

Lemma chat_client_hears_witness :
  (sample_task ChatCompletions true).2 = true ∧
  say (sample_events.*2) = {| sp_text := bs "hi"; sp_calls := [(bs "i1", (bs "c1", bs "f", bs "[]")); (bs "i2", (bs "c2", bs "g", bs "{}"))]; sp_ending := Some (Ended (bs "tool_calls")) |} ∧
  ∃ before frames, before `prefix_of` chunks_of sample_received ∧ relayed (sample_task ChatCompletions true).1 = frame_bytes (λ _, bs "{}") <$> (frames : list (ChatFrame Z)).
Proof.
  assert ((sample_task ChatCompletions true).2 = true) as Eg by by vm_compute. split; [exact Eg|]. split; [by vm_compute|].
  pose proof (chat_client_hears sample_parse sample_parse (λ _, bs "{}") (stream_config ChatCompletions true) task_answer sample_received eq_refl eq_refl eq_refl) as Hw.
  destruct (run _ _ []) as [events good]. cbn [fst snd] in *. destruct (Hw Eg) as (before & _ & _ & frames & Hpre & _ & Hr & _).
  by exists before, frames.
Defined.

(** The events of the sample are well said. *)
Example sample_is_well_said : well_said unsaid (take 7 sample_events.*2).
Proof.
  repeat (split; [intros _; split_and!; intros E; (by vm_compute in E) || (by vm_compute; eexists) || (split; [by vm_compute; eexists|eexists; split; [by vm_compute|by_decide]]) ||
    (eexists _, _, _; split_and!; [by vm_compute|by vm_compute|by vm_compute|by_decide])|]).
  exact I.
Qed.

(** A refusal says nothing to a Chat client: its pieces are dropped, and the response ends as if it had said nothing. *)
Example refusal_is_dropped :
  let refusal := said [("type", txt "response.refusal.delta"); ("delta", txt "no")]%string in
  hear (chat_run [refusal; said [("type", txt "response.completed")]%string] (chat_default false)).1 = {| hd_text := []; hd_calls := []; hd_ending := Some (Ended (bs "stop")) |}.
Proof. by vm_compute. Qed.

(** The body of an error that comes as an event stream is lost: nothing of a stream is buffered, and the empty buffer is sent as the whole body. *)
Example error_stream_is_lost :
  let config := {| tc_endpoint := Responses; tc_converted := false; tc_stream := false; tc_upstream_sse := true; tc_status := 500; tc_include_usage := false |} in
  let '(events, good) := run task_answer (response_task sample_parse sample_parse (λ _, bs "{}") config sample_received) [] in
  relayed events = [[]] ∧ good = true.
Proof. by vm_compute. Qed.
